(* ===== verification/_CoqProject ===== *)
-Q . S2P
Prelude.v
Interfaces.v
Sorting.v
Text.v
Optimistic.v
OptimisticTheorems.v
Wire.v
ApplicationCrypto.v
Order.v
Sealer.v
PublicResult.v
DslParse.v
DslRule.v
DslEmit.v
DslProofs.v
DslRegistryProofs.v
Instances.v
Dvp.v
Outbox.v
OutboxStore.v
OutboxTheorems.v
Curve.v
Shamir.v
ShamirTheorems.v
Sigma.v
SigmaProofs.v
BitrangeProofs.v
Membership.v
OneOfManyProofs.v
SigmaTheorems.v
Threshold.v
Gadgets.v
JointProver.v
ThresholdTheorems.v
JointTheorems.v
ProductProofs.v
ThresholdClaims.v
ThresholdRange.v
RangeRounds.v
RangeClaims.v
Instruction.v
Venue.v
Reader.v
VenueClaims.v
InstructionWire.v
WireCodec.v
TypedCodec.v
Json.v
Receipts.v
Mechanism.v
PublicationLedger.v
PublicationProofs.v
Kyb.v
Mandate.v
PretradeAuthority.v
StandingPool.v
Persistence.v
Issuers.v
IssuerProofs.v
RoundWire.v
RoundWireProofs.v
Quote.v
QuoteProofs.v
ThresholdQuote.v
ThresholdQuoteProofs.v
QuoteExchange.v
ProofCodec.v
PriceLimit.v
QuoteAuthorization.v
QuoteIssuer.v
FieldInstances.v
OrderWitnesses.v
OutboxWitnesses.v
SigmaWitnesses.v
RangeWitnesses.v
VenueWitnesses.v
AuditWitnesses.v
MandateWitnesses.v
IssuerWitnesses.v
QuoteWitnesses.v
