(* ===== verification/Prelude.v ===== *)
(** * zkPI: a verification of its protocol core

    zkPI lets a committee of multi-party-computation (MPC) nodes price and settle
    private instructions.  A maker's pricing rule is text in a small language
    that is checked and compiled ([qomm-dsl]); requests wait in a participant's
    encrypted outbox ([corporate_outbox.rs]), are split into additive shares in
    fixed-size frames ([wire.rs]), sealed into slots with one ticket per entity
    and attested by the nodes ([order.rs], signed with [application_crypto.rs]).
    The makers' and takers' mandates ([mandate.rs]) bind anonymous legal-entity
    credentials ([kyb.rs]); the host acknowledges the reservations they ask for
    before a request is evaluated ([pretrade_authority.rs]).  The nodes sign the
    masked result ([mpc_result.rs]).  Their shares leave the computation in
    persistence files ([persistence.rs]), and from them the nodes prove together,
    in two rounds, that the quote is the cheapest eligible one
    ([threshold_quote.rs], [quote_proof.rs]), that it respects the taker's hidden
    limit ([price_limit.rs]), and that an instruction's amount and price are in
    range ([zkpi_issuer.rs], [dvp_issuer.rs], [limit_issuer.rs]).  A venue checks
    and settles the signed instruction once ([zkpi/src]); a trade whose legs live
    on two ledgers is bound together by one private instruction
    ([cross_domain_dvp.rs]), and makers fund settlements from standing pools
    ([standing_pool.rs]).  A result can instead be settled optimistically, under
    bonds and a challenge period ([zkpi-optimistic]).  Auditors hold the nodes to
    their receipts and publish statistics under a privacy budget ([qomm-audit]).
    All paths below are under src/rust/.

    ** Files, and the code they model

    Shared vocabulary
    - Prelude.v (this file): [result] as Rust's [Result] with [?], checked
      integers as [N], bytes and big-endian integers, ordered maps, tactics
      ([ok_inv], [bool_inv], [slice_at]) and the hint databases.
    - Interfaces.v: classes for third-party code (SHA-256, SHA-512, hex,
      serde_json, the hybrid signature backend, FROST verification, openssl, the
      random generator); their laws are separate classes, so a statement shows
      which documented behaviour it relies on.  Instances.v instantiates them
      with computable functions, FieldInstances.v with the rational field, for
      the witnesses.
    - Sorting.v, Text.v: sorting by a key; ASCII text functions of the standard
      library.  Json.v: JSON values.  Reader.v: byte cursors, with [reads] and
      [writes], what a reader accepts and a writer makes.
    - Curve.v: the scalar field, the group and Fiat-Shamir transcripts as classes
      with their laws, and decision tactics for both.

    Rules and requests
    - DslParse.v, DslRule.v, DslEmit.v: [qomm-dsl/src/interval.rs], [parse.rs],
      [rule.rs], [emit.rs], [registry.rs]; DslProofs.v, DslRegistryProofs.v.
    - Outbox.v, OutboxStore.v, OutboxTheorems.v: the queue of
      [zkpi-committee/src/corporate_outbox.rs], its encrypted file and its public
      operations as calls on a disk.
    - Wire.v: [zkpi-committee/src/wire.rs].  ApplicationCrypto.v (Module App):
      [application_crypto.rs].  Order.v and Sealer.v: the attestation and the
      sealing half of [order.rs].  PublicResult.v: [mpc_result.rs].
    - Kyb.v: [zkpi-proofs/src/kyb.rs].  Mandate.v: [zkpi-committee/src/mandate.rs].
      PretradeAuthority.v: [zkpi-committee/src/pretrade_authority.rs].

    Proofs
    - Shamir.v, ShamirTheorems.v: [zkfmi-zk/src/shamir.rs] with its decoder.
    - Sigma.v, SigmaProofs.v, BitrangeProofs.v, Membership.v, OneOfManyProofs.v,
      SigmaTheorems.v: [zkfmi-zk/src/pedersen.rs], [sigma.rs], [bitrange.rs],
      [or_dleq.rs], [oneofmany.rs], [adaptor.rs].
    - Threshold.v, Gadgets.v, JointProver.v, ThresholdRange.v:
      [zkpi-proofs/src/threshold_sigma.rs], [threshold_gadgets.rs],
      [threshold_range.rs]; ThresholdTheorems.v, JointTheorems.v,
      ProductProofs.v, ThresholdClaims.v, RangeRounds.v, RangeClaims.v.
    - Quote.v, QuoteProofs.v: [zkpi-proofs/src/quote_proof.rs].  ThresholdQuote.v,
      ThresholdQuoteProofs.v: the nodes' path of [threshold_quote.rs].
      PriceLimit.v: [price_limit.rs].
    - Persistence.v: [qomm-mpc/src/persistence.rs].  Issuers.v, IssuerProofs.v:
      [zkpi-committee/src/zkpi_issuer.rs], [dvp_issuer.rs], [limit_issuer.rs].
      QuoteIssuer.v: [quote_issuer.rs].
    - RoundWire.v, RoundWireProofs.v: [zkpi_wire.rs], [dvp_wire.rs],
      [limit_wire.rs].  ProofCodec.v: [proof_codec.rs].

    Settlement
    - Instruction.v, Venue.v: [zkpi/src/lib.rs], [handles.rs], [typed.rs] and
      [zkfmi-zk/src/range.rs]; VenueClaims.v.
    - InstructionWire.v, WireCodec.v, TypedCodec.v: [zkpi/src/wire.rs] and
      [typed_wire.rs].
    - Dvp.v: [zkpi/src/cross_domain_dvp.rs].  StandingPool.v:
      [zkpi-committee/src/standing_pool.rs].
    - Optimistic.v, OptimisticTheorems.v: [zkpi-optimistic/src/lib.rs];
      QuoteAuthorization.v: its [AssuranceSelection::from_environment], and the
      quotes that settle optimistically, [zkpi-committee/src/optimistic.rs] and
      [quote_authorization.rs].

    Audit
    - Receipts.v: [qomm-audit/src/receipts.rs].
    - Mechanism.v, PublicationLedger.v, PublicationProofs.v:
      [distributed_dp.rs], [publication.rs], [publication_ledger.rs].

    The files named ...Witnesses.v evaluate the model on concrete runs and apply
    the theorems there; QuoteExchange.v is the exchange of messages that two of
    them evaluate.

    ** How the code is modelled

    A Rust method on [&mut self] is a function from the state to a result with
    the new state; an early return or [?] is the monad's bind, so a failed
    operation leaves the state as it was only where the code does so.  A panic is
    a value ([None], [Panic], [Panicked] or an error of its own) where the code
    could reach one.  Unsigned integers are [N] with the checks of the code
    written out; [i64] and [i128] are [Z], with an explicit build where the code
    does not check ([Debug] panics on overflow, [Release] wraps); [f64] is IEEE
    binary64.  [BTreeMap] is a [gmap] with its iteration order.  Clocks,
    environment variables, random bytes and the answers of the operating system
    are arguments.  Texts are ASCII.

    Points and scalars are any group and field of the classes of Curve.v, and
    points are compared as the code compares them, by their encodings.  A
    statement that uses that small integers are distinct scalars names
    [ScalarLarge] or [ScalarWide].  A proof's soundness is stated for two accepted
    proofs with the same first moves and different challenges, that is for two
    transcript oracles, and gives openings computed from the two answers: in a
    group of prime order a commitment opens to every value, so that an opening
    merely exists says nothing.  The alternative is a pair of computed openings of
    one point to two values, which gives the discrete logarithm of the value
    generator.

    Fuel: [Wire.random] retries until a draw is canonical, as the code does; it
    takes the number of draws as an argument, and the theorems on sharing assume
    a number within which the generator yields a canonical draw from each of its
    states, and conclude that sharing returns.  The tokenizer and the declaration
    loop have the length of the text, the parser eight per token and eight more;
    [compile_returns] proves that this fuel is never used up.  The outbox's
    dispatch loop has one more than the number of entries, which suffices because
    each round that goes on takes one entry out of the dispatchable ones.

    ** What is proved

    - Quotes: an accepted quote proof names the cheapest eligible registered
      maker for the request; what the coordinator assembles from the nodes'
      rounds passes that verifier; an accepted limit proof means that the quote
      respects the limit, and the prover proves exactly the limits that hold; a
      handoff that the persistence reader returns becomes the node's material; a
      challenged optimistic quote settles only to the winner a proof names.
    - Results: a public result is released exactly when seven nodes certify it,
      and honest nodes always get it released.
    - Authority: a written bundle or acknowledgement is read back and verifies
      with the digest it was signed with, whatever the order of its reservations.
    - Threshold proofs: dealt shares carry an honest quorum through both rounds
      to a proof that verifies, for openings, products, ranges, instructions,
      deliveries and hidden limits, as long as no digest of that quorum's own first
      moves is all zeros, which the code refuses to answer; linear programs over shared wires refine the
      same program on the values; range proofs pin their value; the audit of a
      joint proof and the decoder of shares name exactly the faulty.
    - Sigma protocols: completeness, and computed witnesses from two answers, for
      openings, products, bits, intervals, memberships and adaptor signatures.
    - Venues: which instructions are accepted, that a nullifier settles once over
      every sequence of operations, what signed digests bind, and that an issued
      and signed instruction settles.
    - Wires: every decoder accepts exactly what its encoder writes, on each of the
      instruction, context, round and evidence formats, and refuses any other
      length.
    - Optimistic claims: every operation preserves the snapshot invariant, escrow
      is conserved per asset, a claim moves only along the dispute life cycle and
      a settled or rejected claim stays so, a challenged claim settles only after
      an answer with an accepted proof of its output, and an elapsed deadline can
      be resolved.
    - Audit: each recorded fault goes back to an operation that shows it,
      conflicting settlements name equivocators, bonds are conserved, the sampler
      follows its law and so does the text of the MPC program generated for it,
      and the privacy budget holds over every sequence of calls.
    - Entities and pools: mandates verify exactly when they should and a signature
      binds every field of one, caps hold per scope, the chain of a pool conserves
      its amount.
    - Frames, slots and outbox: limb arithmetic is field arithmetic, shares
      reconstruct, an honest sealer can not be convicted of an omission, a request
      is durable until it is final, and a call moves it only along its life cycle
      under any disk fault.
    - Rules: compilation returns, a checked rule evaluates within its derived
      intervals and width, and the registries accept exactly what was approved.

    Some theorems record where the code does less than it says: intervals of
    [signed] and of builds without overflow checks, an archived record that its
    own venue refuses, receipts that anyone can forge into evidence, a
    certificate that blocks its budget, the unchecked first cell of the sampler,
    caps that wrap or that a NaN removes, an acknowledgement whose order picks the
    reservation although the signature does not cover it, and labels with which
    the generated program can not run.

    ** What is not modelled

    - Third-party cryptography: hashes, signatures, FROST, Bulletproofs, the
      group, KEM and AEAD are interfaces; so is serde's JSON of derived types.
    - The single-process dealer and joint prover of [threshold_quote.rs], which
      make shares for tests, and the JSON envelopes of the quote rounds
      ([quote_wire.rs]).
    - [opening_envelope.rs], [settlement_handoff.rs], [settlement_finalization.rs]
      and [selective_disclosure.rs]: envelopes, files and records around the
      components above.
    - Services and processes ([node_service.rs], [proof_party.rs],
      [product_proof_coordinator.rs], [resident_mpc.rs], [executor.rs],
      [frost_cluster.rs], [frost_coordinator.rs]) and key files
      ([key_management.rs] beyond the store's encryption, [external_signer.rs],
      [external_kyb.rs]): sockets, TLS and process control.
    - The text of the generated MP-SPDZ program and its inputs ([program.rs],
      [inputs.rs]), the market simulator, the measurements and the benchmarks. *)

(** ** Shared vocabulary

    The error monad of the Rust code ([Result<T, E>] with [?]), machine-width
    unsigned integers as [N] with their checked operations, byte strings and
    big-endian integers, ordered maps ([BTreeMap]) as finite maps with their
    iteration order, and the tactics and hint databases the component files
    use. *)

From stdpp Require Export base list gmap strings fin_maps sorting.
From Stdlib Require Export NArith ZArith Lia.
From Stdlib Require Export Strings.Ascii Strings.Byte.

Open Scope string_scope.
Open Scope list_scope.
Open Scope N_scope.

(** ** Results *)

Inductive result (E A : Type) : Type :=
  | Ok (a : A)
  | Err (e : E).
Arguments Ok {E A} a.
Arguments Err {E A} e.

Global Instance result_ret {E} : MRet (result E) := fun _ a => Ok a.
Global Instance result_bind {E} : MBind (result E) := fun _ _ f m =>
  match m with Ok a => f a | Err e => Err e end.
Global Instance result_fmap {E} : FMap (result E) := fun _ _ f m =>
  match m with Ok a => Ok (f a) | Err e => Err e end.

Global Instance result_eq_dec {E A} `{EqDecision E, EqDecision A} :
  EqDecision (result E A).
Proof. solve_decision. Defined.

(** [Option::ok_or]. *)
Definition ok_or {E A} (o : option A) (e : E) : result E A :=
  match o with Some a => Ok a | None => Err e end.

Definition map_err {E F A} (f : E -> F) (r : result E A) : result F A :=
  match r with Ok a => Ok a | Err e => Err (f e) end.

Definition is_ok {E A} (r : result E A) : bool :=
  match r with Ok _ => true | Err _ => false end.

(** A [for] loop whose body may leave with [?]. *)
Fixpoint fold_res {E S A} (f : S -> A -> result E S) (s : S) (l : list A) :
    result E S :=
  match l with
  | [] => Ok s
  | a :: l => s' ← f s a; fold_res f s' l
  end.

Definition for_each {E A} (f : A -> result E unit) (l : list A) : result E unit :=
  fold_res (fun _ a => f a) tt l.

(** [iter().map(f).collect::<Result<Vec<_>, _>>()]. *)
Fixpoint map_res {E A B} (f : A -> result E B) (l : list A) : result E (list B) :=
  match l with
  | [] => Ok []
  | a :: l => b ← f a; bs ← map_res f l; Ok (b :: bs)
  end.

Section ResultLemmas.
Context {E : Type}.

Lemma bind_ok {A B} (m : result E A) (f : A -> result E B) b :
  m ≫= f = Ok b <-> exists a, m = Ok a /\ f a = Ok b.
Proof.
  destruct m as [a|e]; cbn; split.
  - eauto.
  - intros (a' & [= ->] & H). exact H.
  - discriminate.
  - intros (a' & H & _). discriminate.
Qed.

(** Injectivity of [Ok] that leaves the values as they are written. *)
Lemma Ok_inj {A} (a b : A) : @Ok E A a = Ok b -> a = b.
Proof. by intros [= ->]. Qed.

Lemma ok_or_ok {A} (o : option A) (e : E) a : ok_or o e = Ok a <-> o = Some a.
Proof. destruct o; cbn; split; congruence. Qed.

Lemma map_err_ok {F A} (f : E -> F) (r : result E A) a : map_err f r = Ok a <-> r = Ok a.
Proof. destruct r; cbn; split; congruence. Qed.

Lemma if_err_ok {A} (b : bool) (e : E) (r : result E A) a :
  (if b then Err e else r) = Ok a <-> b = false /\ r = Ok a.
Proof. destruct b; split; [discriminate | intros [? _]; discriminate | auto | intros [_ ?]; auto]. Qed.

Lemma for_each_ok {A} (f : A -> result E unit) l :
  for_each f l = Ok tt <-> Forall (fun a => f a = Ok tt) l.
Proof.
  unfold for_each. induction l as [|a l IH]; cbn.
  - split; auto.
  - rewrite Forall_cons, <- IH. destruct (f a) as [[]|e]; cbn; split.
    + auto.
    + intros [_ H]; exact H.
    + discriminate.
    + intros [H _]; discriminate.
Qed.

Lemma map_res_ok {A B} (f : A -> result E B) l bs :
  map_res f l = Ok bs <-> Forall2 (fun a b => f a = Ok b) l bs.
Proof.
  revert bs. induction l as [|a l IH]; intros bs; cbn.
  - split; [intros [= <-]; constructor | intros H; inversion H; auto].
  - rewrite bind_ok. split.
    + intros (b & Hb & H). apply bind_ok in H as (bs' & Hbs & [= <-]).
      constructor; [done | by apply IH].
    + intros H. inversion H as [|? b ? bs' Hb Hbs]; subst.
      exists b. split; [done|]. apply IH in Hbs. rewrite Hbs. done.
Qed.

Lemma map_res_length {A B} (f : A -> result E B) l bs :
  map_res f l = Ok bs -> length bs = length l.
Proof. intros H. apply map_res_ok, Forall2_length in H. done. Qed.

Lemma fold_res_app {S A} (f : S -> A -> result E S) s l1 l2 :
  fold_res f s (l1 ++ l2) = (s' ← fold_res f s l1; fold_res f s' l2).
Proof.
  revert s. induction l1 as [|a l1 IH]; intros s; cbn; [done|].
  destruct (f s a) as [s'|e]; cbn; auto.
Qed.
End ResultLemmas.

(** Invert a computation that returned [Ok]: splits binds, early returns and
    [ok_or]s, naming nothing; the hypotheses that remain are the facts the
    successful path established. *)
Ltac ok_step :=
  match goal with
  | H : Ok _ = Ok _ |- _ => injection H as H
  | H : Err _ = Ok _ |- _ => discriminate H
  | H : Ok _ = Err _ |- _ => discriminate H
  | H : mret _ = Ok _ |- _ => injection H as H
  | H : mbind _ ?m = Ok _ |- _ => apply bind_ok in H as (? & ? & H)
  | H : ok_or _ _ = Ok _ |- _ => apply ok_or_ok in H
  | H : (if _ then Err _ else _) = Ok _ |- _ => apply if_err_ok in H as [? H]
  | H : (let (_, _) := ?p in _) = Ok _ |- _ => destruct p
  | u : unit |- _ => destruct u
  end.
Ltac ok_inv := repeat (ok_step; cbn beta in *).

(** Split conjunctions and disjunctions of boolean tests that came out
    [false] or [true]. *)
Ltac bool_step :=
  match goal with
  | H : orb _ _ = false |- _ => apply orb_false_iff in H as [? ?]
  | H : andb _ _ = true |- _ => apply andb_true_iff in H as [? ?]
  | H : negb _ = false |- _ => apply negb_false_iff in H
  | H : negb _ = true |- _ => apply negb_true_iff in H
  | H : bool_decide _ = true |- _ => apply bool_decide_eq_true_1 in H
  | H : bool_decide _ = false |- _ => apply bool_decide_eq_false_1 in H
  | H : N.eqb _ _ = true |- _ => apply N.eqb_eq in H
  | H : N.eqb _ _ = false |- _ => apply N.eqb_neq in H
  | H : N.ltb _ _ = true |- _ => apply N.ltb_lt in H
  | H : N.ltb _ _ = false |- _ => apply N.ltb_ge in H
  | H : N.leb _ _ = true |- _ => apply N.leb_le in H
  | H : N.leb _ _ = false |- _ => apply N.leb_gt in H
  end.
Ltac bool_inv := repeat bool_step.

(** ** Unsigned machine integers *)

Definition U16_MAX : N := 0xFFFF.
Definition U32_MAX : N := 0xFFFFFFFF.
Definition U64_MAX : N := 0xFFFFFFFFFFFFFFFF.
Definition I64_MAX : N := 0x7FFFFFFFFFFFFFFF.

(** [u64::checked_add] and [u64::checked_sub]. *)
Definition checked_add (a b : N) : option N :=
  if a + b <=? U64_MAX then Some (a + b) else None.
Definition checked_sub (a b : N) : option N :=
  if b <=? a then Some (a - b) else None.

Lemma checked_add_some a b c :
  checked_add a b = Some c <-> c = a + b /\ a + b <= U64_MAX.
Proof. unfold checked_add. destruct (N.leb_spec (a + b) U64_MAX); intuition (congruence || lia). Qed.

Lemma checked_sub_some a b c :
  checked_sub a b = Some c <-> c = a - b /\ b <= a.
Proof. unfold checked_sub. destruct (N.leb_spec b a); intuition (congruence || lia). Qed.

Lemma checked_add_fits a b : a + b <= U64_MAX -> checked_add a b = Some (a + b).
Proof. intros. by apply checked_add_some. Qed.

Lemma checked_sub_fits a b : b <= a -> checked_sub a b = Some (a - b).
Proof. intros. by apply checked_sub_some. Qed.

(** ** Bytes *)

Abbreviation bytes := (list byte).

Global Instance byte_eq_decision : EqDecision byte := Byte.byte_eq_dec.
Global Program Instance byte_countable : Countable byte :=
  inj_countable Byte.to_N Byte.of_N _.
Next Obligation. intros b. apply Byte.of_to_N. Qed.

Definition byte_of_N (x : N) : byte := default x00 (Byte.of_N (x mod 256)).

Lemma to_N_byte_of_N x : Byte.to_N (byte_of_N x) = x mod 256.
Proof.
  unfold byte_of_N. pose proof (N.mod_lt x 256 ltac:(lia)) as Hlt.
  destruct (Byte.of_N (x mod 256)) eqn:Heq; cbn.
  - by apply Byte.to_of_N.
  - apply Byte.of_N_None_iff in Heq. lia.
Qed.

Lemma byte_of_N_to_N b : byte_of_N (Byte.to_N b) = b.
Proof.
  unfold byte_of_N. rewrite N.mod_small, Byte.of_to_N; [done|].
  pose proof (Byte.to_N_bounded b). lia.
Qed.

Lemma byte_to_N_inj a b : Byte.to_N a = Byte.to_N b -> a = b.
Proof. intros H. rewrite <- (byte_of_N_to_N a), H. apply byte_of_N_to_N. Qed.

Definition lxor_byte (a b : byte) : byte := byte_of_N (N.lxor (Byte.to_N a) (Byte.to_N b)).
Definition lor_byte (a b : byte) : byte := byte_of_N (N.lor (Byte.to_N a) (Byte.to_N b)).

(** [uN::to_be_bytes] and [uN::from_be_bytes] at a width of [n] bytes. *)
Fixpoint be_bytes (n : nat) (x : N) : bytes :=
  match n with
  | O => []
  | S n => be_bytes n (x / 256) ++ [byte_of_N x]
  end.

Definition of_be_bytes (l : bytes) : N :=
  foldl (fun acc b => acc * 256 + Byte.to_N b) 0 l.

Lemma be_bytes_length n x : length (be_bytes n x) = n.
Proof. revert x. induction n; intros x; cbn; [done|]. rewrite length_app, IHn. cbn. lia. Qed.

Lemma of_be_bytes_snoc l b : of_be_bytes (l ++ [b]) = of_be_bytes l * 256 + Byte.to_N b.
Proof. unfold of_be_bytes. by rewrite foldl_app. Qed.

Lemma of_be_bytes_be n x : of_be_bytes (be_bytes n x) = x mod 256 ^ N.of_nat n.
Proof.
  revert x. induction n as [|n IH]; intros x.
  - cbn. by rewrite N.mod_1_r.
  - cbn [be_bytes]. rewrite of_be_bytes_snoc, IH, to_N_byte_of_N.
    rewrite Nat2N.inj_succ, N.pow_succ_r'.
    rewrite (N.Div0.mod_mul_r x 256 (256 ^ N.of_nat n)). lia.
Qed.

Lemma of_be_bytes_be_small n x : x < 256 ^ N.of_nat n -> of_be_bytes (be_bytes n x) = x.
Proof. intros. by rewrite of_be_bytes_be, N.mod_small. Qed.

Lemma be_bytes_of_be l : be_bytes (length l) (of_be_bytes l) = l.
Proof.
  induction l as [|b l IH] using rev_ind; [done|].
  rewrite length_app, Nat.add_comm. cbn [be_bytes length Nat.add].
  rewrite of_be_bytes_snoc. pose proof (Byte.to_N_bounded b).
  f_equal.
  - replace ((of_be_bytes l * 256 + Byte.to_N b) / 256) with (of_be_bytes l); [done|].
    rewrite N.div_add_l, N.div_small; lia.
  - f_equal. apply byte_to_N_inj. rewrite to_N_byte_of_N.
    rewrite N.add_comm, N.Div0.mod_add, N.mod_small; lia.
Qed.

Lemma be_bytes_of_be' n l : length l = n -> be_bytes n (of_be_bytes l) = l.
Proof. intros <-. apply be_bytes_of_be. Qed.

Lemma of_be_bytes_bound l : of_be_bytes l < 256 ^ N.of_nat (length l).
Proof.
  rewrite <- (be_bytes_of_be l) at 1. rewrite of_be_bytes_be.
  apply N.mod_lt. apply N.pow_nonzero. lia.
Qed.

Lemma of_be_bytes_bound' n l : length l = n -> of_be_bytes l < 256 ^ N.of_nat n.
Proof. intros <-. apply of_be_bytes_bound. Qed.

Lemma be_bytes_inj n x y :
  x < 256 ^ N.of_nat n -> y < 256 ^ N.of_nat n -> be_bytes n x = be_bytes n y -> x = y.
Proof.
  intros Hx Hy H. rewrite <- (of_be_bytes_be_small n x), <- (of_be_bytes_be_small n y) by done.
  by rewrite H.
Qed.

(** A byte-string literal, [b"..."]. *)
Definition bstr (s : string) : bytes := String.list_byte_of_string s.

(** [[0; 32]] *)
Definition ZERO32 : bytes := replicate 32 x00.

(** [[..].contains(&[0; 32])] *)
Definition contains_zero (l : list bytes) : bool := bool_decide (ZERO32 ∈ l).

Lemma contains_zero_false l : contains_zero l = false <-> Forall (fun d => d <> ZERO32) l.
Proof.
  unfold contains_zero. rewrite bool_decide_eq_false, Forall_forall.
  split; [intros H x Hx ->; done | intros H Hin; exact (H _ Hin eq_refl)].
Qed.

(** ** Slices and cursors *)

(** [&raw[a..b]] for [a <= b <= raw.len()]. *)
Definition slice {A} (a b : nat) (l : list A) : list A := take (b - a) (drop a l).

Lemma slice_length {A} a b (l : list A) :
  (a <= b)%nat -> (b <= length l)%nat -> length (slice a b l) = (b - a)%nat.
Proof. intros. unfold slice. rewrite length_take, length_drop. lia. Qed.

Lemma slice_app_skip {A} a b (p l : list A) :
  (length p <= a)%nat -> slice a b (p ++ l) = slice (a - length p) (b - length p) l.
Proof.
  intros. unfold slice. rewrite drop_app_ge by done.
  f_equal. lia.
Qed.

Lemma slice_app_exact {A} n (p l : list A) :
  length p = n -> slice 0 n (p ++ l) = p.
Proof. intros <-. unfold slice. rewrite drop_0, Nat.sub_0_r. apply take_app_length. Qed.

Lemma slice_split {A} a b (l : list A) :
  (a <= b)%nat -> take b l = take a l ++ slice a b l.
Proof.
  intros Hab. unfold slice. rewrite take_take_drop. f_equal. lia.
Qed.

(** ** Ordered maps *)

(** [BTreeMap] iteration visits the entries in key order. *)
Definition key_le {V} (a b : string * V) : Prop := String.le a.1 b.1.
Global Instance key_le_dec {V} : RelDecision (@key_le V).
Proof. intros a b. unfold key_le. apply _. Defined.
Global Instance key_le_total {V} : Total (@key_le V).
Proof. intros a b. unfold key_le. apply (total String.le). Qed.

Definition btree_iter {V} (m : gmap string V) : list (string * V) :=
  merge_sort key_le (map_to_list m).

Lemma btree_iter_perm {V} (m : gmap string V) : btree_iter m ≡ₚ map_to_list m.
Proof. apply merge_sort_Permutation. Qed.

Lemma btree_iter_elem {V} (m : gmap string V) k v :
  (k, v) ∈ btree_iter m <-> m !! k = Some v.
Proof. rewrite btree_iter_perm. apply elem_of_map_to_list. Qed.

Lemma btree_iter_nodup {V} (m : gmap string V) : NoDup (btree_iter m).*1.
Proof. rewrite btree_iter_perm. apply NoDup_fst_map_to_list. Qed.

Lemma btree_iter_forall {V} (P : string -> V -> Prop) (m : gmap string V) :
  Forall (fun kv => P kv.1 kv.2) (btree_iter m) <-> map_Forall P m.
Proof.
  rewrite Forall_forall. split.
  - intros H k v Hkv. apply (H (k, v)). by apply btree_iter_elem.
  - intros H [k v] Hkv. apply btree_iter_elem in Hkv. by apply H.
Qed.

Create HintDb zkpi.
Create Rewrite HintDb len.
#[export] Hint Resolve be_bytes_length : zkpi.
#[export] Hint Rewrite @length_app @length_cons @length_nil be_bytes_length : len.

(** ** Lower-case hexadecimal *)

Definition hex_digit (n : N) : ascii :=
  ascii_of_N (if n <? 10 then 48 + n else 87 + n).

Fixpoint hex_model (d : bytes) : string :=
  match d with
  | [] => EmptyString
  | b :: d => String (hex_digit (Byte.to_N b / 16))
                (String (hex_digit (Byte.to_N b mod 16)) (hex_model d))
  end.

(** ** Sums over maps *)

Lemma elem_of_concat {A} (x : A) ls : x ∈ concat ls <-> exists l, l ∈ ls /\ x ∈ l.
Proof.
  induction ls as [|l ls IH]; cbn.
  - rewrite elem_of_nil. split; [done | intros (l & H & _); by apply elem_of_nil in H].
  - rewrite elem_of_app, IH. setoid_rewrite elem_of_cons. naive_solver.
Qed.

Definition sumN {A} (f : A -> N) (l : list A) : N := foldr (fun a acc => f a + acc) 0 l.

Lemma sumN_perm {A} (f : A -> N) l1 l2 : l1 ≡ₚ l2 -> sumN f l1 = sumN f l2.
Proof. unfold sumN. induction 1; simpl in *; lia. Qed.

Lemma sumN_app {A} (f : A -> N) l1 l2 : sumN f (l1 ++ l2) = sumN f l1 + sumN f l2.
Proof. unfold sumN. induction l1; simpl in *; lia. Qed.

Lemma sumN_elem_le {A} (f : A -> N) a l : a ∈ l -> f a <= sumN f l.
Proof. unfold sumN. induction 1; simpl in *; lia. Qed.

Lemma sumN_concat {A B} (f : B -> N) (g : A -> list B) l :
  sumN f (concat (g <$> l)) = sumN (fun a => sumN f (g a)) l.
Proof. induction l as [|a l IH]; [done|]. cbn [fmap list_fmap concat]. rewrite sumN_app, IH. done. Qed.

Lemma sumN_zero {A} (f : A -> N) l : Forall (fun a => f a = 0) l -> sumN f l = 0.
Proof. unfold sumN. induction 1; simpl in *; lia. Qed.

(** Sum of [f key value] over the entries of a map. *)
Definition map_sum {V} (f : string -> V -> N) (m : gmap string V) : N :=
  sumN (fun kv => f kv.1 kv.2) (map_to_list m).

Section MapSum.
Context {V : Type} (f : string -> V -> N).
Implicit Types m : gmap string V.

Lemma map_sum_empty : map_sum f ∅ = 0.
Proof. unfold map_sum. by rewrite map_to_list_empty. Qed.

Lemma map_sum_insert_fresh m i x :
  m !! i = None -> map_sum f (<[i := x]> m) = f i x + map_sum f m.
Proof.
  intros Hi. unfold map_sum. rewrite (sumN_perm _ _ _ (map_to_list_insert m i x Hi)). done.
Qed.

Lemma map_sum_delete m i x :
  m !! i = Some x -> map_sum f m = f i x + map_sum f (delete i m).
Proof.
  intros Hi. rewrite <- (insert_delete_id m i x Hi) at 1.
  apply map_sum_insert_fresh, lookup_delete_eq.
Qed.

Lemma map_sum_insert m i x y :
  m !! i = Some y -> map_sum f (<[i := x]> m) + f i y = map_sum f m + f i x.
Proof.
  intros Hi. rewrite (map_sum_delete m i y Hi).
  rewrite <- insert_delete_eq, map_sum_insert_fresh by apply lookup_delete_eq. lia.
Qed.

(** With a default that counts for nothing, absence needs no special case. *)
Lemma map_sum_insert_default m i x d :
  f i d = 0 ->
  map_sum f (<[i := x]> m) + f i (default d (m !! i)) = map_sum f m + f i x.
Proof.
  intros Hd. destruct (m !! i) as [y|] eqn:Hi; cbn.
  - by apply map_sum_insert.
  - rewrite map_sum_insert_fresh by done. lia.
Qed.

Lemma map_sum_elem_le m i x : m !! i = Some x -> f i x <= map_sum f m.
Proof. intros Hi. rewrite (map_sum_delete m i x Hi). lia. Qed.

Lemma map_sum_btree m : map_sum f m = sumN (fun kv => f kv.1 kv.2) (btree_iter m).
Proof. unfold map_sum. apply sumN_perm. symmetry. apply btree_iter_perm. Qed.
End MapSum.

(** ** Byte-wise operations *)

Lemma byte_mod_land x : x mod 256 = N.land x (N.ones 8).
Proof. rewrite N.land_ones. done. Qed.

Lemma byte_to_N_land b : N.land (Byte.to_N b) (N.ones 8) = Byte.to_N b.
Proof. rewrite <- byte_mod_land. apply N.mod_small. pose proof (Byte.to_N_bounded b). lia. Qed.

Lemma lxor_byte_to_N a b : Byte.to_N (lxor_byte a b) = N.lxor (Byte.to_N a) (Byte.to_N b).
Proof.
  unfold lxor_byte. rewrite to_N_byte_of_N, byte_mod_land.
  rewrite <- (byte_to_N_land a) at 2. rewrite <- (byte_to_N_land b) at 2.
  apply N.bits_inj. intros i. rewrite !N.land_spec, !N.lxor_spec, !N.land_spec.
  by destruct (N.testbit _ i), (N.testbit _ i), (N.testbit _ i).
Qed.

Lemma lor_byte_to_N a b : Byte.to_N (lor_byte a b) = N.lor (Byte.to_N a) (Byte.to_N b).
Proof.
  unfold lor_byte. rewrite to_N_byte_of_N, byte_mod_land, N.land_lor_distr_l.
  by rewrite !byte_to_N_land.
Qed.

Lemma lxor_byte_zero a b : lxor_byte a b = x00 <-> a = b.
Proof.
  split.
  - intros H. apply (f_equal Byte.to_N) in H. rewrite lxor_byte_to_N in H.
    apply N.lxor_eq in H. by apply byte_to_N_inj.
  - intros ->. apply byte_to_N_inj. by rewrite lxor_byte_to_N, N.lxor_nilpotent.
Qed.

Lemma lor_byte_zero a b : lor_byte a b = x00 <-> a = x00 /\ b = x00.
Proof.
  split.
  - intros H. apply (f_equal Byte.to_N) in H. rewrite lor_byte_to_N in H.
    apply N.lor_eq_0_iff in H as [Ha Hb]. split; by apply byte_to_N_inj.
  - intros [-> ->]. reflexivity.
Qed.

(** Accumulating all byte differences with [|] is zero exactly for equal
    strings of the same length. *)
Lemma fold_difference_zero (l r : bytes) :
  length l = length r -> forall acc,
  foldl (fun d lr => lor_byte d (lxor_byte lr.1 lr.2)) acc (zip l r) = x00
  <-> acc = x00 /\ l = r.
Proof.
  revert r. induction l as [|x l IH]; intros [|y r] Hlen acc; try done; cbn.
  - intuition.
  - rewrite IH by auto. rewrite lor_byte_zero, lxor_byte_zero. naive_solver.
Qed.

Lemma slice_mid {A} a b (p q r : list A) :
  length p = a -> (a + length q)%nat = b -> slice a b (p ++ q ++ r) = q.
Proof.
  intros <- <-. unfold slice. rewrite drop_app_length.
  replace (length p + length q - length p)%nat with (length q) by lia. apply take_app_length.
Qed.

(** Rewrite a slice of a concatenation to its middle part; the prefix and the
    part are the arguments. *)
Ltac slice_at p q :=
  erewrite (slice_mid _ _ p q) by (autorewrite with len; cbn; lia).
