(* ===== verification/Interfaces.v ===== *)
(** * Interfaces to code outside the repository

    Type classes for the third-party functions the program calls: SHA-256 and
    SHA-512 of the [sha2] crate, [hex::encode] and [hex::decode],
    [serde_json::to_vec], the hybrid signature backend of [zkfmi_crypto], the
    FROST verification of [frost-ristretto255] and the random generator of
    [rand_core].  A component is a section over the classes it uses; the laws
    a theorem relies on are a separate class, so a statement shows which
    documented behaviour it needs. *)

From S2P Require Import Prelude.

(** [Sha256::digest]: 32 bytes for every input. *)
Class Sha256 := sha256 : bytes -> bytes.
Class Sha256Laws `{Sha256} : Prop := {
  sha256_length : forall m, length (sha256 m) = 32%nat
}.

(** [hex::encode]: two lower-case hexadecimal digits per byte. *)
Class HexEncode := hex_encode : bytes -> string.

Definition is_lower_hex (c : ascii) : bool :=
  let n := N_of_ascii c in
  ((48 <=? n) && (n <=? 57)) || ((97 <=? n) && (n <=? 102)).

(** Every character of a string satisfies a boolean test ([bytes().all(..)]). *)
Fixpoint string_all (p : ascii -> bool) (s : string) : bool :=
  match s with
  | EmptyString => true
  | String c s => p c && string_all p s
  end.

(** ["0".repeat(n)] *)
Fixpoint zeros (n : nat) : string :=
  match n with O => EmptyString | S n => String "0" (zeros n) end.

Class HexLaws `{HexEncode} : Prop := {
  hex_length : forall d, String.length (hex_encode d) = (2 * length d)%nat;
  hex_alphabet : forall d, string_all is_lower_hex (hex_encode d) = true;
  hex_inj : forall d d', hex_encode d = hex_encode d' -> d = d';
  hex_zero : forall n, hex_encode (replicate n x00) = zeros (2 * n)
}.

(** [serde_json::to_vec] at a serializable type. *)
Class Serialize (A : Type) := to_vec : A -> result string bytes.

(** The hybrid Ed25519 + ML-DSA-65 backend of [zkfmi_crypto]: a signer is
    made from two 32-byte seeds; it signs for a purpose code, and verification
    takes the public key.  [suite_encode] and [purpose_code] are the encodings
    of the suite and of the attestation purpose. *)
Class HybridBackend := {
  HybridSigner : Type;
  hybrid_new : bytes -> bytes -> HybridSigner;
  hybrid_public_key : HybridSigner -> bytes;
  hybrid_sign : HybridSigner -> N -> bytes -> result string bytes;
  hybrid_verify : N -> bytes -> bytes -> bytes -> bool;
  suite_encode : bytes;
  purpose_code : N
}.

(** Its fixed sizes (1952 + 32 byte public keys, 3309 + 64 byte signatures, a
    four-byte suite), and that a signature verifies under its signer's key. *)
Class HybridLaws `{HybridBackend} : Prop := {
  suite_length : length suite_encode = 4%nat;
  public_key_length : forall k, length (hybrid_public_key k) = 1984%nat;
  hybrid_signature_length : forall k p m s, hybrid_sign k p m = Ok s -> length s = 3373%nat;
  hybrid_sign_verify : forall k p m s,
    hybrid_sign k p m = Ok s -> hybrid_verify p (hybrid_public_key k) m s = true
}.

(** A random generator as a state that yields bytes ([RngCore::fill_bytes]). *)
Class RngCore (R : Type) := {
  fill_bytes : nat -> R -> bytes * R;
  fill_bytes_length : forall n r, length (fst (fill_bytes n r)) = n
}.

(** [Sha512] of the [sha2] crate. *)
Class Sha512 := sha512 : bytes -> bytes.
Class Sha512Laws `{Sha512} : Prop := {
  sha512_length : forall m, length (sha512 m) = 64%nat
}.

(** The FROST group key and signature of [frost-ristretto255]. *)
Class FrostVerify := {
  FrostKeyPackage : Type;
  FrostSignature : Type;
  frost_verify : FrostKeyPackage -> bytes -> FrostSignature -> bool
}.

(** [hex::decode]: the bytes of an even number of hexadecimal digits of either
    case, and an error otherwise. *)
Class HexDecode := hex_decode : string -> option bytes.

(** [serde_json::from_slice] at a deserializable type, and that it reads back
    what [to_vec] wrote. *)
Class Deserialize (A : Type) := from_slice : bytes -> option A.
Class SerdeLaws (A : Type) `{Serialize A, Deserialize A} : Prop := {
  from_slice_to_vec : forall (a : A) raw, to_vec a = Ok raw -> from_slice raw = Some a
}.

(** The [openssl] functions under the encrypted stores: scrypt, and AES-256-GCM
    as a ciphertext with its 16-byte tag. *)
Class StoreCipher := {
  scrypt : bytes -> bytes -> result string bytes;
  gcm_seal : bytes -> bytes -> bytes -> bytes -> result string (bytes * bytes);
  gcm_open : bytes -> bytes -> bytes -> bytes -> bytes -> result string bytes
}.
Class StoreCipherLaws `{StoreCipher} : Prop := {
  gcm_tag_length : forall key nonce aad clear ct tag,
    gcm_seal key nonce aad clear = Ok (ct, tag) -> length tag = 16%nat;
  gcm_open_seal : forall key nonce aad clear ct tag,
    gcm_seal key nonce aad clear = Ok (ct, tag) -> gcm_open key nonce aad ct tag = Ok clear
}.
