(* ===== verification/Sorting.v ===== *)
(** * Sorting and reading

    The stable [sort_by_key] of the standard library over a total key order,
    the lexicographic order of byte strings, and the cursor that the wire
    decoders advance over a buffer. *)

From S2P Require Import Prelude.

(** ** Stable sorting by a key *)

Class KeyOrder {K : Type} (leb : K -> K -> bool) : Prop := {
  leb_total : forall a b, leb a b = true \/ leb b a = true;
  leb_trans : forall a b c, leb a b = true -> leb b c = true -> leb a c = true;
  leb_antisym : forall a b, leb a b = true -> leb b a = true -> a = b
}.

Section SortByKey.
Context {A K : Type} (leb : K -> K -> bool) (key : A -> K).

(** Before the first element whose key is not smaller: stable. *)
Fixpoint insert_by_key (x : A) (l : list A) : list A :=
  match l with
  | [] => [x]
  | y :: l => if leb (key x) (key y) then x :: y :: l else y :: insert_by_key x l
  end.

Fixpoint sort_by_key (l : list A) : list A :=
  match l with
  | [] => []
  | x :: l => insert_by_key x (sort_by_key l)
  end.

(** Sorted by the key: no element is above a later one. *)
Fixpoint key_sorted (l : list A) : Prop :=
  match l with
  | [] => True
  | x :: l => Forall (fun y => leb (key x) (key y) = true) l /\ key_sorted l
  end.

Lemma insert_by_key_perm x l : insert_by_key x l ≡ₚ x :: l.
Proof.
  induction l as [|y l IH]; [done|]. cbn. destruct (leb _ _); [done|].
  rewrite IH. apply Permutation_swap.
Qed.

Lemma sort_by_key_perm l : sort_by_key l ≡ₚ l.
Proof. induction l as [|x l IH]; [done|]. cbn. by rewrite insert_by_key_perm, IH. Qed.

Lemma sort_by_key_length l : length (sort_by_key l) = length l.
Proof. apply Permutation_length, sort_by_key_perm. Qed.

Context {KO : KeyOrder leb}.

Lemma insert_by_key_sorted x l : key_sorted l -> key_sorted (insert_by_key x l).
Proof.
  induction l as [|y l IH]; [done|]. cbn. intros [Hy Hl].
  destruct (leb (key x) (key y)) eqn:Hxy; cbn.
  - split; [|done]. constructor; [done|]. eapply Forall_impl; [exact Hy|].
    intros z. by apply leb_trans.
  - split; [|by apply IH]. rewrite insert_by_key_perm. constructor; [|done].
    destruct (leb_total (key x) (key y)); congruence.
Qed.

Lemma sort_by_key_sorted l : key_sorted (sort_by_key l).
Proof. induction l as [|x l IH]; [done|]. by apply insert_by_key_sorted. Qed.

(** A sorted list is determined by its elements when keys identify them. *)
Lemma key_sorted_unique l1 : forall l2,
  key_sorted l1 -> key_sorted l2 -> NoDup (key <$> l1) -> l1 ≡ₚ l2 -> l1 = l2.
Proof.
  induction l1 as [|x l1 IH]; intros l2 Hs1 Hs2 Hnd Hp.
  - by apply Permutation_nil in Hp.
  - destruct l2 as [|y l2]; [by apply symmetry, Permutation_nil in Hp|].
    destruct Hs1 as [Hx Hs1], Hs2 as [Hy Hs2]. cbn in Hnd. apply NoDup_cons in Hnd as [Hxn Hnd].
    assert (x = y) as <-.
    { assert (x ∈ y :: l2) as Hin1 by (rewrite <- Hp; left).
      assert (y ∈ x :: l1) as Hin2 by (rewrite Hp; left).
      apply elem_of_cons in Hin1 as [?|Hin1]; [done|].
      apply elem_of_cons in Hin2 as [?|Hin2]; [done|].
      rewrite Forall_forall in Hx, Hy. specialize (Hx y Hin2). specialize (Hy x Hin1).
      destruct Hxn. rewrite (leb_antisym _ _ Hx Hy). by apply list_elem_of_fmap_2. }
    f_equal. apply IH; try done. by apply (Permutation_cons_inv (a := x)).
Qed.

Lemma sort_by_key_unique l1 l2 :
  NoDup (key <$> l1) -> l1 ≡ₚ l2 -> sort_by_key l1 = sort_by_key l2.
Proof.
  intros Hnd Hp. apply key_sorted_unique; [apply sort_by_key_sorted..| |].
  - by rewrite sort_by_key_perm.
  - by rewrite !sort_by_key_perm.
Qed.

Lemma sort_by_key_id l : key_sorted l -> NoDup (key <$> l) -> sort_by_key l = l.
Proof.
  intros Hs Hnd. symmetry. apply key_sorted_unique; [done|apply sort_by_key_sorted|done|].
  by rewrite sort_by_key_perm.
Qed.
End SortByKey.

Global Instance N_key_order : KeyOrder N.leb.
Proof.
  split.
  - intros a b. destruct (N.le_ge_cases a b); [left | right]; by apply N.leb_le.
  - intros a b c Hab Hbc. apply N.leb_le in Hab, Hbc. apply N.leb_le. lia.
  - intros a b Hab Hba. apply N.leb_le in Hab, Hba. lia.
Qed.

(** ** Byte strings in lexicographic order ([Ord for Vec<u8>]) *)

Fixpoint bytes_leb (a b : bytes) : bool :=
  match a, b with
  | [], _ => true
  | _ :: _, [] => false
  | x :: a, y :: b =>
      match Byte.to_N x ?= Byte.to_N y with
      | Lt => true
      | Eq => bytes_leb a b
      | Gt => false
      end
  end.

Ltac byte_cmp :=
  repeat match goal with
  | H : context [Byte.to_N ?x ?= Byte.to_N ?y] |- _ =>
      destruct (N.compare_spec (Byte.to_N x) (Byte.to_N y))
  | |- context [Byte.to_N ?x ?= Byte.to_N ?y] =>
      destruct (N.compare_spec (Byte.to_N x) (Byte.to_N y))
  end.

Global Instance bytes_key_order : KeyOrder bytes_leb.
Proof.
  split.
  - induction a as [|x a IH]; intros [|y b]; cbn; auto. byte_cmp; auto; lia.
  - induction a as [|x a IH]; intros [|y b] [|z c]; cbn; auto; try done.
    byte_cmp; try done; try lia. apply IH.
  - induction a as [|x a IH]; intros [|y b]; cbn; auto; try done.
    byte_cmp; try done; try lia. intros Ha Hb. f_equal; [by apply byte_to_N_inj | auto].
Qed.

(** ** Reading a buffer with a cursor *)

(** [let value = &raw[offset..offset + n]; offset += n]: the value and the
    buffer after the cursor. *)
Definition take_bytes (n : nat) (raw : bytes) : bytes * bytes := (take n raw, drop n raw).

Lemma take_bytes_app n p rest : length p = n -> take_bytes n (p ++ rest) = (p, rest).
Proof. intros <-. unfold take_bytes. by rewrite take_app_length, drop_app_length. Qed.

Lemma take_bytes_inv n raw p rest :
  (n <= length raw)%nat -> take_bytes n raw = (p, rest) ->
  raw = p ++ rest /\ length p = n /\ length rest = (length raw - n)%nat.
Proof.
  unfold take_bytes. intros Hn [= <- <-]. rewrite length_take, length_drop, take_drop.
  split; [done|]. lia.
Qed.

(** [for _ in 0..count] over a record reader. *)
Fixpoint read_records {E A} (read : bytes -> result E (A * bytes)) (count : nat) (raw : bytes) :
    result E (list A) :=
  match count with
  | O => Ok []
  | S count =>
      '(value, rest) ← read raw;
      values ← read_records read count rest;
      Ok (value :: values)
  end.

(** A record reader that inverts a fixed-size record encoding. *)
Class RecordCodec {E A} (read : bytes -> result E (A * bytes)) (write : A -> bytes)
    (wf : A -> Prop) (size : nat) : Prop := {
  write_size : forall v, wf v -> length (write v) = size;
  read_write : forall v rest, wf v -> read (write v ++ rest) = Ok (v, rest);
  read_inv : forall raw v rest, (size <= length raw)%nat ->
    read raw = Ok (v, rest) -> wf v /\ raw = write v ++ rest
}.

Section Records.
Context {E A : Type} {read : bytes -> result E (A * bytes)} {write : A -> bytes}.
Context {wf : A -> Prop} {size : nat} {CODEC : RecordCodec read write wf size}.

Lemma records_size vs : Forall wf vs -> length (concat (write <$> vs)) = (length vs * size)%nat.
Proof using CODEC.
  induction 1 as [|v vs Hv Hvs IH]; [done|]. cbn. rewrite length_app, IH, write_size; done.
Qed.

Lemma read_records_write vs :
  Forall wf vs -> read_records read (length vs) (concat (write <$> vs)) = Ok vs.
Proof using CODEC.
  induction 1 as [|v vs Hv Hvs IH]; [done|]. cbn. rewrite read_write by done. cbn. by rewrite IH.
Qed.

Lemma read_records_inv count : forall raw vs,
  length raw = (count * size)%nat -> read_records read count raw = Ok vs ->
  Forall wf vs /\ length vs = count /\ raw = concat (write <$> vs).
Proof using CODEC.
  induction count as [|count IH]; intros raw vs Hlen Hr; cbn in Hr.
  - injection Hr as <-. destruct raw; [|done]. by repeat constructor.
  - apply bind_ok in Hr as ([v rest] & Hv & Hr). apply bind_ok in Hr as (vs' & Hvs & [= <-]).
    apply read_inv in Hv as [Hwf ->]; [|lia].
    rewrite length_app, (write_size v Hwf) in Hlen.
    apply IH in Hvs as (Hwfs & Hl & ->); [|lia].
    split; [by constructor|]. cbn. by rewrite Hl.
Qed.
End Records.
