(* ===== verification/Text.v ===== *)
(** * Text operations of the standard library

    The [str] and [char] methods that the rule language uses, on ASCII text:
    character classes, trimming, lines, splitting, joining, integer parsing
    and the [Debug] rendering of string lists; and reading back what was printed,
    numbers and lines. *)

From stdpp Require Export pretty.
From S2P Require Import Prelude.

Abbreviation chars := (list ascii).

Definition to_chars (s : string) : chars := String.list_ascii_of_string s.
Definition of_chars (l : chars) : string := String.string_of_list_ascii l.

(** ** Character classes *)

Definition between (lo hi : N) (c : ascii) : bool :=
  let n := N_of_ascii c in (lo <=? n) && (n <=? hi).
Definition is_whitespace (c : ascii) : bool := between 9 13 c || between 32 32 c.
Definition is_ascii_digit (c : ascii) : bool := between 48 57 c.
Definition is_alphabetic (c : ascii) : bool := between 65 90 c || between 97 122 c.
Definition is_alphanumeric (c : ascii) : bool := is_alphabetic c || is_ascii_digit c.
Definition is_word (c : ascii) : bool := is_alphanumeric c || Ascii.eqb c "_".
Definition is_word_start (c : ascii) : bool := is_alphabetic c || Ascii.eqb c "_".

(** ** Slices of text *)

(** The longest prefix whose characters satisfy a test, and the rest. *)
Fixpoint span (p : ascii -> bool) (l : chars) : chars * chars :=
  match l with
  | [] => ([], [])
  | c :: l => if p c then let (a, b) := span p l in (c :: a, b) else ([], c :: l)
  end.

Definition trim_start (l : chars) : chars := snd (span is_whitespace l).
Definition trim_end (l : chars) : chars := reverse (trim_start (reverse l)).
Definition trim (l : chars) : chars := trim_end (trim_start l).

(** [str::lines]: line feeds end lines, a carriage return before one is
    dropped, and a final line feed opens no further line. *)
Fixpoint lines (l : chars) : list chars :=
  match l with
  | [] => []
  | "010"%char :: l => [] :: lines l
  | "013"%char :: ("010"%char :: l as _) => [] :: lines l
  | c :: l => match lines l with [] => [[c]] | x :: xs => (c :: x) :: xs end
  end.

(** [split_once(c)] with a character. *)
Fixpoint split_once (c : ascii) (l : chars) : option (chars * chars) :=
  match l with
  | [] => None
  | d :: l =>
      if Ascii.eqb c d then Some ([], l)
      else '(a, b) ← split_once c l; Some (d :: a, b)
  end.

(** [split(c).next()]. *)
Definition before (c : ascii) (l : chars) : chars :=
  match split_once c l with Some (a, _) => a | None => l end.

Fixpoint strip_prefix (p l : chars) : option chars :=
  match p, l with
  | [], _ => Some l
  | c :: p, d :: l => if Ascii.eqb c d then strip_prefix p l else None
  | _ :: _, [] => None
  end.

Fixpoint join (sep : string) (l : list string) : string :=
  match l with
  | [] => ""
  | [s] => s
  | s :: l => s +:+ sep +:+ join sep l
  end.

(** ** Debug rendering *)

Definition quote : string := String "034"%char EmptyString.
Definition debug_str (s : string) : string := quote +:+ s +:+ quote.
Definition debug_list (l : list string) : string := "[" +:+ join ", " l +:+ "]".

(** ** Integers *)

Definition I128_MIN : Z := (- 2 ^ 127)%Z.
Definition I128_MAX : Z := (2 ^ 127 - 1)%Z.
Definition in_i128 (z : Z) : bool := (I128_MIN <=? z)%Z && (z <=? I128_MAX)%Z.

Definition digit_value (c : ascii) : Z := Z.of_N (N_of_ascii c - 48).
Definition digits_value (l : chars) : Z :=
  foldl (fun acc c => (acc * 10 + digit_value c)%Z) 0%Z l.

(** [str::parse::<i128>]: an optional sign and at least one digit. *)
Definition parse_i128 (l : chars) : option Z :=
  let '(sign, digits) :=
    match l with
    | "-"%char :: l => ((-1)%Z, l)
    | "+"%char :: l => (1%Z, l)
    | _ => (1%Z, l)
    end in
  if bool_decide (digits = []) || negb (forallb is_ascii_digit digits) then None
  else let z := (sign * digits_value digits)%Z in
       if in_i128 z then Some z else None.

(** ** Lemmas *)

Lemma span_app p l : fst (span p l) ++ snd (span p l) = l.
Proof.
  induction l as [|c l IH]; [done|]. cbn. destruct (p c); [|done].
  destruct (span p l). cbn in *. by rewrite IH.
Qed.

Lemma span_length p l : (length (snd (span p l)) <= length l)%nat.
Proof. rewrite <- (span_app p l) at 2. rewrite length_app. lia. Qed.

Lemma span_fst_all p l : forallb p (fst (span p l)) = true.
Proof.
  induction l as [|c l IH]; [done|]. cbn. destruct (p c) eqn:Hc; [|done].
  destruct (span p l). cbn in *. by rewrite Hc.
Qed.

Lemma in_i128_spec z : in_i128 z = true <-> (I128_MIN <= z <= I128_MAX)%Z.
Proof. unfold in_i128. rewrite andb_true_iff, !Z.leb_le. done. Qed.

(** ** Printed numbers *)

Lemma to_chars_app s s' : to_chars (s +:+ s') = to_chars s ++ to_chars s'.
Proof. unfold to_chars. induction s as [|c s IH]; [done|]. change (String c s +:+ s') with (String c (s +:+ s')). cbn. by rewrite IH. Qed.

Lemma span_stop p l rest : forallb p l = true -> match rest with [] => True | c :: _ => p c = false end -> span p (l ++ rest) = (l, rest).
Proof.
  induction l as [|c l IH]; cbn.
  - intros _ Hr. destruct rest as [|c rest]; [done|]. cbn. by rewrite Hr.
  - rewrite andb_true_iff. intros [Hc Hl] Hr. by rewrite Hc, IH.
Qed.

Lemma digits_value_app l l' : digits_value (l ++ l') = foldl (fun acc c => (acc * 10 + digit_value c)%Z) (digits_value l) l'.
Proof. unfold digits_value. apply foldl_app. Qed.

Lemma pretty_char_digit x : (x < 10)%N -> is_ascii_digit (pretty_N_char x) = true /\ digit_value (pretty_N_char x) = Z.of_N x.
Proof.
  intros Hx. assert (x = 0 \/ x = 1 \/ x = 2 \/ x = 3 \/ x = 4 \/ x = 5 \/ x = 6 \/ x = 7 \/ x = 8 \/ x = 9)%N as Hd by lia.
  by repeat destruct Hd as [->|Hd]; try subst x.
Qed.

Lemma pretty_go_digits x : forall s, exists l, to_chars (pretty_N_go x s) = l ++ to_chars s /\ forallb is_ascii_digit l = true
  /\ digits_value l = Z.of_N x /\ ((0 < x)%N -> l <> []).
Proof.
  induction (N.lt_wf_0 x) as [x _ IH]. intros s. destruct (decide (x = 0)%N) as [->|Hx].
  { exists []. rewrite pretty_N_go_0. split_and!; [done..|lia]. }
  rewrite pretty_N_go_step by lia. destruct (IH (x `div` 10)%N) with (s := String (pretty_N_char (x `mod` 10)) s) as (l & El & Hl & Hv & _).
  { apply N.div_lt; lia. }
  destruct (pretty_char_digit (x `mod` 10)) as [Hc Hcv]; [apply N.mod_lt; lia|].
  exists (l ++ [pretty_N_char (x `mod` 10)]). rewrite El. cbn. rewrite <- app_assoc. split; [done|]. split; [|split].
  - rewrite forallb_app, Hl. cbn. by rewrite Hc.
  - rewrite digits_value_app, Hv. cbn [foldl]. rewrite Hcv. pose proof (N.div_mod x 10). lia.
  - intros _ E. by apply app_nil in E as [_ E].
Qed.

(** A printed number is digits that write it. *)
Lemma pretty_digits (x : N) : forallb is_ascii_digit (to_chars (pretty x)) = true /\ digits_value (to_chars (pretty x)) = Z.of_N x
  /\ to_chars (pretty x) <> [].
Proof.
  unfold pretty, pretty_N. destruct (decide (x = 0)%N) as [->|Hx]; [done|].
  destruct (pretty_go_digits x "") as (l & E & Hl & Hv & Hn). rewrite app_nil_r in E. rewrite E. split_and!; [done..|]. apply Hn. lia.
Qed.

(** A number at the start of a text, and the text after it. *)
Definition read_number (l : chars) : option (N * chars) :=
  let '(digits, rest) := span is_ascii_digit l in
  if bool_decide (digits = []) then None else Some (Z.to_N (digits_value digits), rest).

Lemma read_number_pretty (x : N) rest : match rest with [] => True | c :: _ => is_ascii_digit c = false end ->
  read_number (to_chars (pretty x) ++ rest) = Some (x, rest).
Proof.
  intros Hr. destruct (pretty_digits x) as (Hd & Hv & Hn). unfold read_number. rewrite span_stop by done.
  rewrite bool_decide_eq_false_2, Hv, N2Z.id by done. done.
Qed.

Lemma strip_prefix_app p rest : strip_prefix p (p ++ rest) = Some rest.
Proof. induction p as [|c p IH]; [done|]. cbn. by rewrite Ascii.eqb_refl. Qed.

(** Lines without line breaks, each ended by one, are the lines of the text. *)
Definition unbroken (l : chars) : bool := forallb (fun c => negb (Ascii.eqb c "010") && negb (Ascii.eqb c "013")) l.

Lemma lines_cons l rest : unbroken l = true -> lines (l ++ "010"%char :: rest) = l :: lines rest.
Proof.
  induction l as [|c l IH]; intros H; [done|]. cbn [unbroken forallb] in H. apply andb_true_iff in H as [Hc Hl]. specialize (IH Hl).
  apply andb_true_iff in Hc as [H10 H13]. cbn [app]. 
  assert (lines (c :: (l ++ "010"%char :: rest)) = match lines (l ++ "010"%char :: rest) with [] => [[c]] | x :: xs => (c :: x) :: xs end) as ->.
  { destruct c as [[] [] [] [] [] [] [] []]; try done; destruct (l ++ "010"%char :: rest) as [|d t]; try done; by destruct d as [[] [] [] [] [] [] [] []]. }
  by rewrite IH.
Qed.

Lemma digits_unbroken l : forallb is_ascii_digit l = true -> unbroken l = true.
Proof.
  unfold unbroken. induction l as [|c l IH]; [done|]. cbn [forallb]. rewrite !andb_true_iff. intros [Hc Hl]. split; [|by apply IH].
  by destruct c as [[] [] [] [] [] [] [] []].
Qed.
