(* ===== verification/Optimistic.v ===== *)
(** * The optimistic execution state machine

    Model of rust/zkpi-optimistic/src/lib.rs: enrolled policies, registered
    executions, bonded proposals, challenges, answers and permissionless
    advancement, over escrowed bond accounts.  Identifiers are SHA-256 digests
    of serialized values and map keys are their hexadecimal encodings, as in
    the code.  A mutating method is a function from the state to the new state
    or the error; the Rust methods build a copy and commit it last, so an
    error leaves the state as it was. *)

From S2P Require Import Prelude.
From S2P Require Import Interfaces.

Abbreviation Digest32 := bytes (only parsing).

(** ** Data *)

Inductive AssuranceMode : Type := Mode_JointProof | Mode_Optimistic.

Inductive AssuranceSelection : Type :=
  | JointProof
  | Optimistic (policy : Digest32) (proposer_party : N).

Record BondTransfer := mkBondTransfer {
  bt_owner : Digest32;
  bt_asset : Digest32;
  bt_amount : N;
  bt_before_balance : N;
  bt_blinding : Digest32;
  bt_withdraw : bool
}.

Record ExecutionContext := mkContext {
  ctx_network : Digest32;
  ctx_application : Digest32;
  ctx_verifier : Digest32;
  ctx_job : Digest32;
  ctx_input_root : Digest32;
  ctx_before_state : Digest32
}.
Global Instance ExecutionContext_eq_dec : EqDecision ExecutionContext.
Proof. solve_decision. Defined.

Record OptimisticPolicy := mkPolicy {
  pol_network : Digest32;
  pol_application : Digest32;
  pol_verifier : Digest32;
  pol_proposer : Digest32;
  pol_bond_asset : Digest32;
  pol_proposer_bond : N;
  pol_challenger_bond : N;
  pol_challenge_window_seconds : N;
  pol_response_window_seconds : N
}.
Global Instance OptimisticPolicy_eq_dec : EqDecision OptimisticPolicy.
Proof. solve_decision. Defined.

Record Proposal := mkProposal {
  prop_policy : Digest32;
  prop_context : ExecutionContext;
  prop_output_root : Digest32;
  prop_valid_until : N;
  prop_signature : bytes
}.
Global Instance Proposal_eq_dec : EqDecision Proposal.
Proof. solve_decision. Defined.

Record Challenge := mkChallenge {
  chal_claim : Digest32;
  chal_challenger : Digest32;
  chal_signature : bytes
}.

Inductive ClaimStatus : Type :=
  | Pending
  | Challenged (challenger : Digest32) (response_deadline : N)
  | Proven (proof : Digest32)
  | Finalized (proof : option Digest32)
  | Rejected (challenger : Digest32) (proof : option Digest32).
Global Instance ClaimStatus_eq_dec : EqDecision ClaimStatus.
Proof. solve_decision. Defined.

Record Claim := mkClaim {
  claim_proposal : Proposal;
  claim_policy : OptimisticPolicy;
  claim_accepted_at : N;
  claim_challenge_deadline : N;
  claim_status : ClaimStatus
}.

Definition with_status (c : Claim) (s : ClaimStatus) : Claim :=
  mkClaim (claim_proposal c) (claim_policy c) (claim_accepted_at c)
    (claim_challenge_deadline c) s.

Record BondAccount := mkBond { available : N; locked : N }.
Definition BondAccount_default : BondAccount := mkBond 0 0.

Record RegisteredExecution := mkExecution {
  exe_policy : Digest32;
  exe_context : ExecutionContext;
  exe_valid_until : N
}.

Record OptimisticState := mkState {
  policies : gmap string OptimisticPolicy;
  executions : gmap string RegisteredExecution;
  claims : gmap string Claim;
  jobs : gmap string Digest32;
  bonds : gmap string BondAccount
}.
Definition OptimisticState_default : OptimisticState := mkState ∅ ∅ ∅ ∅ ∅.

Definition set_claims_jobs (st : OptimisticState) c j : OptimisticState :=
  mkState (policies st) (executions st) c j (bonds st).
Definition set_claims (st : OptimisticState) c : OptimisticState :=
  set_claims_jobs st c (jobs st).
Definition set_bonds (st : OptimisticState) b : OptimisticState :=
  mkState (policies st) (executions st) (claims st) (jobs st) b.

(** ** Traits *)

Class ClaimSigner (K : Type) := {
  signer_identity : K -> Digest32;
  signer_sign : K -> bytes -> result string bytes
}.
Class ClaimAuthentication (A : Type) :=
  auth_verify : A -> Digest32 -> bytes -> bytes -> result string unit.
Class ChallengeVerifier (V : Type) := {
  verifier_id : V -> Digest32;
  challenge_verify : V -> ExecutionContext -> bytes -> result string Digest32
}.

(** ** Operations *)

Section Operations.
Context {SHA : Sha256} {HEX : HexEncode}.
Context {JPOL : Serialize OptimisticPolicy}.
Context {JPROP : Serialize (Digest32 * ExecutionContext * Digest32 * N)}.
Context {JCHAL : Serialize (Digest32 * Digest32)}.
Context {JJOB : Serialize (Digest32 * Digest32 * Digest32)}.

Definition digest {T} `{!Serialize T} (domain : bytes) (value : T) :
    result string Digest32 :=
  b ← to_vec value;
  Ok (sha256 (domain ++ b)).

Definition command_digest {T} `{!Serialize (string * T)} (operation : string) (value : T) :
    result string Digest32 :=
  digest (bstr "DEFMI:OPTIMISTIC:COMMAND:v1") (operation, value).

Definition job_key (context : ExecutionContext) : result string string :=
  d ← digest (bstr "zkFMI:optimistic:job:v1")
        (ctx_network context, ctx_application context, ctx_job context);
  Ok (hex_encode d).

Definition bond_key (asset owner : Digest32) : string :=
  hex_encode asset +:+ ":" +:+ hex_encode owner.

Definition policy_validate (p : OptimisticPolicy) : result string unit :=
  if contains_zero [pol_network p; pol_application p; pol_verifier p;
                    pol_proposer p; pol_bond_asset p]
     || (pol_proposer_bond p =? 0)
     || (pol_challenger_bond p =? 0)
     || (pol_challenge_window_seconds p =? 0)
     || (pol_response_window_seconds p =? 0)
  then Err "optimistic policy has an empty identity, bond or deadline"
  else Ok tt.

Definition policy_digest (p : OptimisticPolicy) : result string Digest32 :=
  _ ← policy_validate p;
  digest (bstr "zkFMI:optimistic:policy:v1") p.

Definition proposal_signing_digest (p : Proposal) : result string Digest32 :=
  digest (bstr "zkFMI:optimistic:proposal:v1")
    (prop_policy p, prop_context p, prop_output_root p, prop_valid_until p).

Definition proposal_id (p : Proposal) : result string Digest32 :=
  proposal_signing_digest p.

Definition proposal_signed {K} `{!ClaimSigner K} (policy : OptimisticPolicy)
    (context : ExecutionContext) (output_root : Digest32) (valid_until : N) (key : K) :
    result string Proposal :=
  if negb (bool_decide (signer_identity key = pol_proposer policy))
  then Err "optimistic proposer is not enrolled by the policy"
  else
    pid ← policy_digest policy;
    let proposal := mkProposal pid context output_root valid_until [] in
    d ← proposal_signing_digest proposal;
    s ← signer_sign key d;
    Ok (mkProposal pid context output_root valid_until s).

Definition proposal_verify {A} `{!ClaimAuthentication A} (self : Proposal)
    (policy : OptimisticPolicy) (now : N) (authentication : A) : result string unit :=
  pid ← policy_digest policy;
  if negb (bool_decide (prop_policy self = pid))
     || negb (bool_decide (ctx_network (prop_context self) = pol_network policy))
     || negb (bool_decide (ctx_application (prop_context self) = pol_application policy))
     || negb (bool_decide (ctx_verifier (prop_context self) = pol_verifier policy))
     || contains_zero [ctx_job (prop_context self); ctx_input_root (prop_context self);
                       ctx_before_state (prop_context self); prop_output_root self]
     || (prop_valid_until self <? now)
  then Err "optimistic proposal has another scope, empty binding or expired admission"
  else
    d ← proposal_signing_digest self;
    auth_verify authentication (pol_proposer policy) d (prop_signature self).

Definition challenge_signing_digest (c : Challenge) : result string Digest32 :=
  digest (bstr "zkFMI:optimistic:challenge:v1") (chal_claim c, chal_challenger c).

Definition challenge_signed {K} `{!ClaimSigner K} (claim : Digest32) (key : K) :
    result string Challenge :=
  let challenge := mkChallenge claim (signer_identity key) [] in
  d ← challenge_signing_digest challenge;
  s ← signer_sign key d;
  Ok (mkChallenge claim (signer_identity key) s).

(** *** Queries *)

Definition policy_of (st : OptimisticState) (id : Digest32) : option OptimisticPolicy :=
  policies st !! hex_encode id.
Definition claim_of (st : OptimisticState) (id : Digest32) : option Claim :=
  claims st !! hex_encode id.
Definition bond_at (st : OptimisticState) (key : string) : BondAccount :=
  default BondAccount_default (bonds st !! key).
Definition bond (st : OptimisticState) (asset owner : Digest32) : BondAccount :=
  bond_at st (bond_key asset owner).

Definition is_empty (st : OptimisticState) : bool :=
  bool_decide (size (policies st) = 0%nat) && bool_decide (size (executions st) = 0%nat)
  && bool_decide (size (claims st) = 0%nat) && bool_decide (size (jobs st) = 0%nat)
  && bool_decide (size (bonds st) = 0%nat).

(** *** Enrollment and registration *)

Definition enroll_policy (st : OptimisticState) (policy : OptimisticPolicy) :
    result string (OptimisticState * Digest32) :=
  id ← policy_digest policy;
  if bool_decide (is_Some (policies st !! hex_encode id))
  then Err "optimistic policy is already enrolled"
  else Ok (mkState (<[hex_encode id := policy]> (policies st)) (executions st)
             (claims st) (jobs st) (bonds st), id).

Definition execution_scope_ok (e : RegisteredExecution) (policy : OptimisticPolicy) : bool :=
  bool_decide (ctx_network (exe_context e) = pol_network policy)
  && bool_decide (ctx_application (exe_context e) = pol_application policy)
  && bool_decide (ctx_verifier (exe_context e) = pol_verifier policy)
  && negb (exe_valid_until e =? 0)
  && negb (contains_zero [ctx_job (exe_context e); ctx_input_root (exe_context e);
                          ctx_before_state (exe_context e)]).

Definition register_execution (st : OptimisticState) (execution : RegisteredExecution) :
    result string OptimisticState :=
  policy ← ok_or (policy_of st (exe_policy execution)) "execution policy is not enrolled";
  if negb (execution_scope_ok execution policy)
  then Err "execution does not match enrolled scope"
  else
    id ← job_key (exe_context execution);
    if bool_decide (is_Some (executions st !! id))
    then Err "execution inputs are already registered"
    else Ok (mkState (policies st) (<[id := execution]> (executions st))
               (claims st) (jobs st) (bonds st)).

(** *** Escrow *)

Definition credit_escrow (st : OptimisticState) (asset owner : Digest32) (amount : N) :
    result string OptimisticState :=
  if bool_decide (asset = ZERO32) || bool_decide (owner = ZERO32) || (amount =? 0)
  then Err "invalid optimistic escrow credit"
  else
    let account := bond st asset owner in
    a ← ok_or (checked_add (available account) amount) "escrow overflow";
    Ok (set_bonds st (<[bond_key asset owner := mkBond a (locked account)]> (bonds st))).

Definition withdraw_escrow (st : OptimisticState) (asset owner : Digest32) (amount : N) :
    result string OptimisticState :=
  if amount =? 0 then Err "zero escrow withdrawal"
  else
    let account := bond st asset owner in
    a ← ok_or (checked_sub (available account) amount) "insufficient unlocked escrow";
    Ok (set_bonds st (<[bond_key asset owner := mkBond a (locked account)]> (bonds st))).

Definition lock (st : OptimisticState) (asset owner : Digest32) (amount : N) :
    result string OptimisticState :=
  let account := bond st asset owner in
  a ← ok_or (checked_sub (available account) amount) "insufficient optimistic collateral";
  l ← ok_or (checked_add (locked account) amount) "locked collateral overflow";
  Ok (set_bonds st (<[bond_key asset owner := mkBond a l]> (bonds st))).

Definition award (st : OptimisticState) (asset from to : Digest32) (amount : N) :
    result string OptimisticState :=
  let debit := bond st asset from in
  l ← ok_or (checked_sub (locked debit) amount) "inconsistent locked collateral";
  credit_escrow
    (set_bonds st (<[bond_key asset from := mkBond (available debit) l]> (bonds st)))
    asset to amount.

Definition unlock (st : OptimisticState) (asset owner : Digest32) (amount : N) :
    result string OptimisticState :=
  award st asset owner owner amount.

Definition resolve_bonds (st : OptimisticState) (policy : OptimisticPolicy)
    (challenger : Digest32) (valid : bool) : result string OptimisticState :=
  let beneficiary := if valid then pol_proposer policy else challenger in
  st ← award st (pol_bond_asset policy) (pol_proposer policy) beneficiary
         (pol_proposer_bond policy);
  award st (pol_bond_asset policy) challenger beneficiary (pol_challenger_bond policy).

(** *** Claims *)

(** [is_none_or(|end| end > limit)] *)
Definition none_or_gt (o : option N) (limit : N) : bool :=
  match o with None => true | Some v => limit <? v end.

Definition propose {A} `{!ClaimAuthentication A} (st : OptimisticState)
    (proposal : Proposal) (now : N) (authentication : A) :
    result string (OptimisticState * Digest32) :=
  policy ← ok_or (policy_of st (prop_policy proposal)) "optimistic policy is not enrolled";
  _ ← proposal_verify proposal policy now authentication;
  id ← proposal_id proposal;
  job ← job_key (prop_context proposal);
  execution ← ok_or (executions st !! job) "optimistic execution inputs are not registered";
  if negb (bool_decide (exe_context execution = prop_context proposal))
     || negb (bool_decide (exe_policy execution = prop_policy proposal))
     || (exe_valid_until execution <? prop_valid_until proposal)
     || none_or_gt
          (v ← checked_add now (pol_challenge_window_seconds policy);
           checked_add v (pol_response_window_seconds policy))
          (exe_valid_until execution)
  then Err "proposal differs from admitted inputs or exceeds the execution deadline"
  else if bool_decide (is_Some (claims st !! hex_encode id))
          || bool_decide (is_Some (jobs st !! job))
  then Err "optimistic execution already has a claim"
  else
    deadline ← ok_or (checked_add now (pol_challenge_window_seconds policy))
                 "challenge now overflow";
    next ← lock st (pol_bond_asset policy) (pol_proposer policy) (pol_proposer_bond policy);
    Ok (set_claims_jobs next
          (<[hex_encode id := mkClaim proposal policy now deadline Pending]> (claims next))
          (<[job := id]> (jobs next)), id).

Definition challenge {A} `{!ClaimAuthentication A} (st : OptimisticState)
    (request : Challenge) (now : N) (authentication : A) : result string OptimisticState :=
  d ← challenge_signing_digest request;
  _ ← auth_verify authentication (chal_challenger request) d (chal_signature request);
  claim ← ok_or (claim_of st (chal_claim request)) "unknown optimistic claim";
  if negb (bool_decide (claim_status claim = Pending))
     || (now <? claim_accepted_at claim)
     || (claim_challenge_deadline claim <=? now)
  then Err "optimistic claim is outside its challenge window"
  else if bool_decide (chal_challenger request = pol_proposer (claim_policy claim))
  then Err "proposer cannot occupy its own challenge slot"
  else
    response_deadline ← ok_or
      (checked_add now (pol_response_window_seconds (claim_policy claim)))
      "response now overflow";
    next ← lock st (pol_bond_asset (claim_policy claim)) (chal_challenger request)
             (pol_challenger_bond (claim_policy claim));
    Ok (set_claims next
          (<[hex_encode (chal_claim request) :=
               with_status claim (Challenged (chal_challenger request) response_deadline)]>
             (claims next))).

Definition answer {V} `{!ChallengeVerifier V} (st : OptimisticState) (id : Digest32)
    (proof : bytes) (verifier : V) (now : N) : result string OptimisticState :=
  claim ← ok_or (claim_of st id) "unknown optimistic claim";
  match claim_status claim with
  | Challenged challenger response_deadline =>
      if (now <? claim_accepted_at claim) || (response_deadline <=? now)
         || negb (bool_decide (verifier_id verifier = pol_verifier (claim_policy claim)))
      then Err "challenge proof has a late timestamp or another verifier"
      else
        output ← challenge_verify verifier (prop_context (claim_proposal claim)) proof;
        let evidence := sha256 proof in
        let valid := bool_decide (output = prop_output_root (claim_proposal claim)) in
        '(next, status) ←
          (if valid then
             next ← award st (pol_bond_asset (claim_policy claim)) challenger
                      (pol_proposer (claim_policy claim))
                      (pol_challenger_bond (claim_policy claim));
             Ok (next, Proven evidence)
           else
             next ← resolve_bonds st (claim_policy claim) challenger false;
             Ok (next, Rejected challenger (Some evidence)));
        Ok (set_claims next (<[hex_encode id := with_status claim status]> (claims next)))
  | _ => Err "optimistic claim has no unresolved challenge"
  end.

Definition advance (st : OptimisticState) (id : Digest32) (now : N) :
    result string OptimisticState :=
  claim ← ok_or (claim_of st id) "unknown optimistic claim";
  let late := Err "optimistic deadline has not elapsed or claim is terminal" in
  let release :=
    unlock st (pol_bond_asset (claim_policy claim)) (pol_proposer (claim_policy claim))
      (pol_proposer_bond (claim_policy claim)) in
  '(next, status) ←
    match claim_status claim with
    | Pending =>
        if claim_challenge_deadline claim <=? now
        then next ← release; Ok (next, Finalized None)
        else late
    | Proven proof =>
        if claim_challenge_deadline claim <=? now
        then next ← release; Ok (next, Finalized (Some proof))
        else late
    | Challenged challenger response_deadline =>
        if response_deadline <=? now
        then next ← resolve_bonds st (claim_policy claim) challenger false;
             Ok (next, Rejected challenger None)
        else late
    | _ => late
    end;
  Ok (set_claims next (<[hex_encode id := with_status claim status]> (claims next))).

Definition is_finalized (s : ClaimStatus) : bool :=
  match s with Finalized _ => true | _ => false end.

Definition require_finalized (st : OptimisticState) (id : Digest32)
    (context : ExecutionContext) (output_root : Digest32) : result string Claim :=
  claim ← ok_or (claim_of st id) "unknown optimistic claim";
  if negb (bool_decide (prop_context (claim_proposal claim) = context))
     || negb (bool_decide (prop_output_root (claim_proposal claim) = output_root))
     || negb (is_finalized (claim_status claim))
  then Err "optimistic execution is not finalized for this settlement"
  else Ok claim.

(** *** Snapshot validation *)

(** [str::split(':')] *)
Fixpoint split_colon (s : string) : list string :=
  match s with
  | EmptyString => [EmptyString]
  | String c s =>
      if Ascii.eqb c ":" then EmptyString :: split_colon s
      else match split_colon s with
           | [] => [String c EmptyString]
           | p :: ps => String c p :: ps
           end
  end.

Definition valid_part (part : option string) : bool :=
  match part with
  | Some p => bool_decide (String.length p = 64%nat) && string_all is_lower_hex p
              && negb (bool_decide (p = zeros 64))
  | None => false
  end.

Definition bond_key_ok (key : string) : bool :=
  let parts := split_colon key in
  valid_part (parts !! 0%nat) && valid_part (parts !! 1%nat)
  && bool_decide (parts !! 2%nat = None).

Definition validate_policy_entry (entry : string * OptimisticPolicy) : result string unit :=
  d ← policy_digest entry.2;
  if negb (bool_decide (entry.1 = hex_encode d))
  then Err "optimistic policy index mismatch" else Ok tt.

Definition validate_execution_entry (st : OptimisticState)
    (entry : string * RegisteredExecution) : result string unit :=
  policy ← ok_or (policy_of st (exe_policy entry.2)) "registered execution policy absent";
  key ← job_key (exe_context entry.2);
  if negb (bool_decide (entry.1 = key)) || negb (execution_scope_ok entry.2 policy)
  then Err "registered execution snapshot mismatch" else Ok tt.

Definition add_locked (m : gmap string N) (asset owner : Digest32) (amount : N) :
    result string (gmap string N) :=
  v ← ok_or (checked_add (default 0 (m !! bond_key asset owner)) amount)
        "snapshot locked collateral overflow";
  Ok (<[bond_key asset owner := v]> m).

Definition validate_claim_locks (m : gmap string N) (policy : OptimisticPolicy)
    (claim : Claim) : result string (gmap string N) :=
  match claim_status claim with
  | Pending | Proven _ =>
      add_locked m (pol_bond_asset policy) (pol_proposer policy) (pol_proposer_bond policy)
  | Challenged challenger response_deadline =>
      start ← ok_or (checked_sub response_deadline (pol_response_window_seconds policy))
                "invalid response window";
      if (start <? claim_accepted_at claim) || (claim_challenge_deadline claim <=? start)
         || bool_decide (challenger = pol_proposer policy)
      then Err "invalid persisted challenge"
      else
        m ← add_locked m (pol_bond_asset policy) (pol_proposer policy)
              (pol_proposer_bond policy);
        add_locked m (pol_bond_asset policy) challenger (pol_challenger_bond policy)
  | _ => Ok m
  end.

Definition validate_claim_entry {A} `{!ClaimAuthentication A} (st : OptimisticState)
    (authentication : A) (acc : gmap string Digest32 * gmap string N)
    (entry : string * Claim) : result string (gmap string Digest32 * gmap string N) :=
  let id := entry.1 in
  let claim := entry.2 in
  policy ← ok_or (policy_of st (prop_policy (claim_proposal claim))) "claim policy absent";
  if negb (bool_decide (policy = claim_policy claim))
  then Err "optimistic claim index or enrolled policy mismatch"
  else
    pid ← proposal_id (claim_proposal claim);
    if negb (bool_decide (id = hex_encode pid))
    then Err "optimistic claim index or enrolled policy mismatch"
    else
      deadline ← ok_or (checked_add (claim_accepted_at claim)
                          (pol_challenge_window_seconds policy)) "challenge overflow";
      if negb (claim_challenge_deadline claim =? deadline)
      then Err "optimistic claim index or enrolled policy mismatch"
      else
        _ ← proposal_verify (claim_proposal claim) policy (claim_accepted_at claim)
              authentication;
        key ← job_key (prop_context (claim_proposal claim));
        execution ← ok_or (executions st !! key) "claim execution absent";
        if negb (bool_decide (exe_context execution = prop_context (claim_proposal claim)))
           || negb (bool_decide (exe_policy execution = prop_policy (claim_proposal claim)))
           || (exe_valid_until execution <? prop_valid_until (claim_proposal claim))
           || none_or_gt (checked_add (claim_challenge_deadline claim)
                            (pol_response_window_seconds policy))
                         (exe_valid_until execution)
        then Err "claim differs from its registered execution"
        else if bool_decide (is_Some (acc.1 !! key))
        then Err "duplicate optimistic execution"
        else
          m ← validate_claim_locks acc.2 policy claim;
          Ok (<[key := pid]> acc.1, m).

Definition validate_bond_entry (locked_map : gmap string N)
    (entry : string * BondAccount) : result string (gmap string N) :=
  if negb (bond_key_ok entry.1)
     || negb (default 0 (locked_map !! entry.1) =? locked entry.2)
  then Err "optimistic collateral snapshot mismatch"
  else Ok (delete entry.1 locked_map).

Definition validate {A} `{!ClaimAuthentication A} (st : OptimisticState)
    (authentication : A) : result string unit :=
  _ ← for_each validate_policy_entry (btree_iter (policies st));
  _ ← for_each (validate_execution_entry st) (btree_iter (executions st));
  '(js, lk) ← fold_res (validate_claim_entry st authentication) (∅, ∅)
                (btree_iter (claims st));
  if negb (bool_decide (js = jobs st)) then Err "optimistic job index mismatch"
  else
    rest ← fold_res validate_bond_entry lk (btree_iter (bonds st));
    if negb (bool_decide (rest = ∅)) then Err "optimistic collateral account missing"
    else Ok tt.
End Operations.
