(* ===== verification/OptimisticTheorems.v ===== *)
(** * What the optimistic state machine guarantees

    Events drive the state machine one operation at a time; an event that
    fails leaves the state unchanged.  The theorems hold for every sequence of
    events: the persisted snapshot always validates, escrow is conserved per
    asset, a claim only moves along its lifecycle, a settled answer stays
    settled, and an elapsed deadline can be acted on. *)

From S2P Require Import Prelude.
From S2P Require Import Interfaces.
From S2P Require Import Optimistic.

(** ** Correctness of the optimistic state machine

    The snapshot check [validate] is characterised by a logical invariant;
    every operation preserves it; escrow moves but is never created; a claim's
    status only moves along its lifecycle; an elapsed deadline can always be
    acted on. *)

Section Proofs.
Context {SHA : Sha256} {HEX : HexEncode}.
Context {JPOL : Serialize OptimisticPolicy}.
Context {JPROP : Serialize (bytes * ExecutionContext * bytes * N)}.
Context {JCHAL : Serialize (bytes * bytes)}.
Context {JJOB : Serialize (bytes * bytes * bytes)}.

(** ** Effect of the escrow operations *)

Definition at_key (k k' : string) (amount : N) : N :=
  if bool_decide (k = k') then amount else 0.

Lemma at_key_eq k amount : at_key k k amount = amount.
Proof. unfold at_key. by rewrite bool_decide_eq_true_2. Qed.

Lemma at_key_ne k k' amount : k <> k' -> at_key k k' amount = 0.
Proof. intros. unfold at_key. by rewrite bool_decide_eq_false_2. Qed.

Lemma bond_at_insert st k k' b :
  bond_at (set_bonds st (<[k := b]> (bonds st))) k' =
  if bool_decide (k = k') then b else bond_at st k'.
Proof.
  unfold bond_at. cbn [set_bonds bonds]. case_bool_decide as Hk.
  - subst. by rewrite lookup_insert_eq.
  - by rewrite lookup_insert_ne.
Qed.

(** The new state differs only in its bond accounts: at every key the
    available and locked parts move by the stated amounts. *)
Record bonds_move (st st' : OptimisticState)
    (avail_out avail_in lock_out lock_in : string -> N) : Prop := {
  bm_frame : st' = set_bonds st (bonds st');
  bm_available : forall k,
    available (bond_at st' k) + avail_out k = available (bond_at st k) + avail_in k;
  bm_locked : forall k,
    locked (bond_at st' k) + lock_out k = locked (bond_at st k) + lock_in k
}.

Lemma lock_spec st asset owner amount st' :
  lock st asset owner amount = Ok st' ->
  let key := bond_key asset owner in
  bonds_move st st' (fun k => at_key k key amount) (fun _ => 0)
    (fun _ => 0) (fun k => at_key k key amount)
  /\ amount <= available (bond st asset owner)
  /\ locked (bond st asset owner) + amount <= U64_MAX
  /\ bonds st' = <[key := mkBond (available (bond st asset owner) - amount)
                            (locked (bond st asset owner) + amount)]> (bonds st).
Proof.
  unfold lock. intros H. ok_inv.
  repeat match goal with
         | H : checked_sub _ _ = Some _ |- _ => apply checked_sub_some in H as [-> ?]
         | H : checked_add _ _ = Some _ |- _ => apply checked_add_some in H as [-> ?]
         end.
  subst st'. repeat split; auto; intros k; rewrite bond_at_insert; unfold at_key, bond in *;
    repeat case_bool_decide; subst; cbn [available locked] in *; try done; lia.
Qed.

Lemma credit_spec st asset owner amount st' :
  credit_escrow st asset owner amount = Ok st' ->
  let key := bond_key asset owner in
  bonds_move st st' (fun _ => 0) (fun k => at_key k key amount) (fun _ => 0) (fun _ => 0)
  /\ asset <> ZERO32 /\ owner <> ZERO32 /\ amount <> 0
  /\ available (bond st asset owner) + amount <= U64_MAX
  /\ bonds st' = <[key := mkBond (available (bond st asset owner) + amount)
                            (locked (bond st asset owner))]> (bonds st).
Proof.
  unfold credit_escrow. intros H. ok_inv. bool_inv.
  repeat match goal with
         | H : checked_add _ _ = Some _ |- _ => apply checked_add_some in H as [-> ?]
         end.
  subst st'. repeat split; auto; intros k; rewrite bond_at_insert; unfold at_key, bond in *;
    repeat case_bool_decide; subst; cbn [available locked] in *; try done; lia.
Qed.

Lemma withdraw_spec st asset owner amount st' :
  withdraw_escrow st asset owner amount = Ok st' ->
  let key := bond_key asset owner in
  bonds_move st st' (fun k => at_key k key amount) (fun _ => 0) (fun _ => 0) (fun _ => 0)
  /\ amount <> 0 /\ amount <= available (bond st asset owner)
  /\ bonds st' = <[key := mkBond (available (bond st asset owner) - amount)
                            (locked (bond st asset owner))]> (bonds st).
Proof.
  unfold withdraw_escrow. intros H. ok_inv. bool_inv.
  repeat match goal with
         | H : checked_sub _ _ = Some _ |- _ => apply checked_sub_some in H as [-> ?]
         end.
  subst st'. repeat split; auto; intros k; rewrite bond_at_insert; unfold at_key, bond in *;
    repeat case_bool_decide; subst; cbn [available locked] in *; try done; lia.
Qed.

Definition debit_state (st : OptimisticState) (asset from : bytes) (amount : N) :=
  set_bonds st (<[bond_key asset from :=
    mkBond (available (bond st asset from)) (locked (bond st asset from) - amount)]> (bonds st)).

Lemma award_inv st asset from to amount st' :
  award st asset from to amount = Ok st' ->
  amount <= locked (bond st asset from)
  /\ credit_escrow (debit_state st asset from amount) asset to amount = Ok st'.
Proof.
  unfold award. intros H. ok_inv.
  match goal with H : checked_sub _ _ = Some _ |- _ => apply checked_sub_some in H as [-> ?] end.
  done.
Qed.

Lemma award_spec st asset from to amount st' :
  award st asset from to amount = Ok st' ->
  bonds_move st st' (fun _ => 0) (fun k => at_key k (bond_key asset to) amount)
    (fun k => at_key k (bond_key asset from) amount) (fun _ => 0)
  /\ amount <= locked (bond st asset from)
  /\ (forall k, is_Some (bonds st' !! k) <->
        is_Some (bonds st !! k) \/ k = bond_key asset from \/ k = bond_key asset to).
Proof.
  intros H. apply award_inv in H as [Hle H].
  apply credit_spec in H as ([Hf Ha Hl] & _ & _ & _ & _ & Hb). split; [|split; [done|]].
  - split; [by rewrite Hf at 1|..]; intros k; [specialize (Ha k) | specialize (Hl k)];
      unfold debit_state in *; rewrite bond_at_insert in *; unfold at_key, bond in *;
      repeat case_bool_decide; subst; cbn [available locked] in *; try done; lia.
  - intros k. rewrite Hb. unfold debit_state. cbn [set_bonds bonds].
    rewrite !lookup_insert_is_Some.
    destruct (decide (bond_key asset to = k)), (decide (bond_key asset from = k));
      intuition congruence.
Qed.

(** ** The logical form of [validate] *)

Context {A : Type} {AUTH : ClaimAuthentication A}.

(** The collateral a claim keeps locked, per account key. *)
Definition lock_items (c : Claim) : list (string * N) :=
  let p := claim_policy c in
  let own := (bond_key (pol_bond_asset p) (pol_proposer p), pol_proposer_bond p) in
  match claim_status c with
  | Pending | Proven _ => [own]
  | Challenged ch _ => [own; (bond_key (pol_bond_asset p) ch, pol_challenger_bond p)]
  | _ => []
  end.

Definition items_sum (k : string) (l : list (string * N)) : N :=
  sumN (fun kv => at_key k kv.1 kv.2) l.

Definition claim_locks (c : Claim) (k : string) : N := items_sum k (lock_items c).

Definition locked_total (cs : gmap string Claim) (k : string) : N :=
  map_sum (fun _ c => claim_locks c k) cs.

Definition status_ok (c : Claim) : Prop :=
  match claim_status c with
  | Challenged ch rd =>
      exists start, rd = start + pol_response_window_seconds (claim_policy c)
        /\ claim_accepted_at c <= start /\ start < claim_challenge_deadline c
        /\ ch <> pol_proposer (claim_policy c)
  | _ => True
  end.

Record claim_ok (auth : A) (st : OptimisticState) (id : string) (c : Claim)
    (key : string) (pid : bytes) : Prop := {
  co_policy : policy_of st (prop_policy (claim_proposal c)) = Some (claim_policy c);
  co_pid : proposal_id (claim_proposal c) = Ok pid;
  co_id : id = hex_encode pid;
  co_deadline : checked_add (claim_accepted_at c)
                  (pol_challenge_window_seconds (claim_policy c))
                = Some (claim_challenge_deadline c);
  co_verify : proposal_verify (claim_proposal c) (claim_policy c) (claim_accepted_at c) auth
              = Ok tt;
  co_key : job_key (prop_context (claim_proposal c)) = Ok key;
  co_execution : exists e, executions st !! key = Some e
    /\ exe_context e = prop_context (claim_proposal c)
    /\ exe_policy e = prop_policy (claim_proposal c)
    /\ prop_valid_until (claim_proposal c) <= exe_valid_until e
    /\ exists stop, checked_add (claim_challenge_deadline c)
         (pol_response_window_seconds (claim_policy c)) = Some stop
         /\ stop <= exe_valid_until e;
  co_status : status_ok c
}.

Record Inv (auth : A) (st : OptimisticState) : Prop := {
  inv_policies : map_Forall (fun id p =>
    exists d, policy_digest p = Ok d /\ id = hex_encode d) (policies st);
  inv_executions : map_Forall (fun id e =>
    exists p, policy_of st (exe_policy e) = Some p /\ job_key (exe_context e) = Ok id
      /\ execution_scope_ok e p = true) (executions st);
  inv_claims : forall id c, claims st !! id = Some c ->
    exists key pid, claim_ok auth st id c key pid /\ jobs st !! key = Some pid;
  inv_jobs : forall key pid, jobs st !! key = Some pid ->
    exists id c, claims st !! id = Some c /\ claim_ok auth st id c key pid;
  inv_keys : map_Forall (fun k _ => bond_key_ok k = true) (bonds st);
  inv_locked : forall k, locked_total (claims st) k = locked (bond_at st k);
  inv_fits : forall k, locked_total (claims st) k <= U64_MAX
}.

Definition add_item (m : gmap string N) (kv : string * N) : result string (gmap string N) :=
  v ← ok_or (checked_add (default 0 (m !! kv.1)) kv.2) "snapshot locked collateral overflow";
  Ok (<[kv.1 := v]> m).

Lemma add_item_ok m k v m' :
  add_item m (k, v) = Ok m' <->
  m' = <[k := default 0 (m !! k) + v]> m /\ default 0 (m !! k) + v <= U64_MAX.
Proof.
  unfold add_item. cbn [fst snd]. unfold checked_add.
  destruct (N.leb_spec (default 0 (m !! k) + v) U64_MAX); cbn; split.
  - intros [= <-]. done.
  - intros [-> _]. done.
  - discriminate.
  - intros [_ ?]. lia.
Qed.

Lemma items_sum_cons k k0 v0 l :
  items_sum k ((k0, v0) :: l) = at_key k k0 v0 + items_sum k l.
Proof. done. Qed.

Lemma items_sum_app k l1 l2 : items_sum k (l1 ++ l2) = items_sum k l1 + items_sum k l2.
Proof. apply sumN_app. Qed.

Lemma add_item_lookup (m : gmap string N) k0 v0 k :
  default 0 (<[k0 := default 0 (m !! k0) + v0]> m !! k) = default 0 (m !! k) + at_key k k0 v0.
Proof.
  destruct (decide (k0 = k)) as [->|Hne].
  - rewrite lookup_insert_eq, at_key_eq. done.
  - rewrite lookup_insert_ne, at_key_ne by done. lia.
Qed.

Lemma add_items_sound l : forall m m' : gmap string N,
  fold_res add_item m l = Ok m' -> forall k,
  default 0 (m' !! k) = default 0 (m !! k) + items_sum k l
  /\ (is_Some (m' !! k) <-> is_Some (m !! k) \/ k ∈ l.*1)
  /\ (k ∈ l.*1 -> default 0 (m !! k) + items_sum k l <= U64_MAX).
Proof.
  induction l as [|[k0 v0] l IH]; intros m m'; cbn [fold_res fmap list_fmap fst].
  - intros [= <-] k. change (items_sum k []) with 0. rewrite elem_of_nil.
    split; [lia | intuition].
  - intros Hok k. apply bind_ok in Hok as (m1 & H1 & Hok).
    apply add_item_ok in H1 as [-> Hle]. specialize (IH _ _ Hok k) as (Hv & Hs & Hf).
    rewrite add_item_lookup in Hv, Hf. rewrite lookup_insert_is_Some in Hs.
    rewrite items_sum_cons, elem_of_cons. repeat split.
    + lia.
    + intros Hm. apply Hs in Hm. intuition.
    + intros Hm. apply Hs. destruct (decide (k0 = k)); intuition congruence.
    + intros Hk. destruct (decide (k ∈ l.*1)) as [Hin|Hin]; [specialize (Hf Hin); lia|].
      destruct Hk as [->|Hk]; [|done].
      assert (items_sum k0 l = 0) as ->; [|rewrite at_key_eq; lia].
      apply sumN_zero, Forall_forall. intros [k1 v1] Hkv. apply at_key_ne. cbn.
      intros ->. apply Hin, list_elem_of_fmap. by exists (k1, v1).
Qed.

Lemma add_items_complete l : forall m : gmap string N,
  (forall k, default 0 (m !! k) + items_sum k l <= U64_MAX) ->
  exists m', fold_res add_item m l = Ok m'.
Proof.
  induction l as [|[k0 v0] l IH]; intros m Hfit; cbn [fold_res]; [eauto|].
  pose proof (Hfit k0) as Hk0. rewrite items_sum_cons, at_key_eq in Hk0.
  rewrite (proj2 (add_item_ok _ _ _ _)) by (split; [done | lia]).
  apply IH. intros k.
  rewrite add_item_lookup. specialize (Hfit k). rewrite items_sum_cons in Hfit. lia.
Qed.

(** One step of the claims loop, in both directions. *)
Lemma claim_locks_entry m c m' :
  validate_claim_locks m (claim_policy c) c = Ok m' <->
  status_ok c /\ fold_res add_item m (lock_items c) = Ok m'.
Proof.
  unfold validate_claim_locks, status_ok, lock_items. destruct c as [pr p acc dl s].
  cbn [claim_policy claim_status claim_accepted_at claim_challenge_deadline].
  change add_locked with (fun m a o v => add_item m (bond_key a o, v)). cbn beta.
  set (own := (bond_key (pol_bond_asset p) (pol_proposer p), pol_proposer_bond p)).
  destruct s as [|ch rd|pf|pf|ch pf]; cbn [fold_res].
  1, 3: destruct (add_item m own); cbn; intuition.
  2, 3: intuition.
  split.
  - intros Hok. ok_inv. bool_inv. apply checked_sub_some in H as [-> ?]. split.
    + eexists. repeat split; eauto; lia.
    + match goal with H : add_item m own = Ok _ |- _ => rewrite H end. cbn.
      rewrite Hok. done.
  - intros [(start & -> & ? & ? & ?) Hok]. rewrite checked_sub_fits by lia. cbn.
    replace (start + _ - _) with start by lia.
    rewrite (proj2 (N.ltb_ge _ _)), (proj2 (N.leb_gt _ _)), bool_decide_eq_false_2 by done.
    cbn. apply bind_ok in Hok as (m1 & -> & Hok). cbn.
    destruct (add_item m1 _); done.
Qed.

Lemma claim_entry_ok auth st js lk id c r :
  validate_claim_entry st auth (js, lk) (id, c) = Ok r <->
  exists key pid lk', claim_ok auth st id c key pid /\ js !! key = None
    /\ fold_res add_item lk (lock_items c) = Ok lk' /\ r = (<[key := pid]> js, lk').
Proof.
  unfold validate_claim_entry. cbn [fst snd]. split.
  - intros Hok. ok_inv. bool_inv. subst.
    match goal with H : validate_claim_locks _ _ _ = Ok _ |- _ =>
      apply claim_locks_entry in H as [Hst Hlk] end.
    do 3 eexists. repeat split; eauto.
    + unfold none_or_gt in *. case_match; [|done]. bool_inv.
      eexists. repeat split; eauto.
    + apply eq_None_not_Some. done.
  - intros (key & pid & lk' & [Hpol Hpid -> Hdl Hver Hkey He Hst] & Hjs & Hlk & ->).
    destruct He as (e & He & Hctx & Hp & Hv & stop & Hstop & Hle).
    rewrite Hpol. cbn. rewrite bool_decide_eq_true_2 by done. cbn.
    rewrite Hpid. cbn. rewrite bool_decide_eq_true_2 by done. cbn.
    rewrite Hdl. cbn. rewrite N.eqb_refl. cbn. rewrite Hver. cbn. rewrite Hkey. cbn.
    rewrite He. cbn. rewrite Hctx, Hp, Hstop. rewrite !bool_decide_eq_true_2 by done.
    cbn. rewrite (proj2 (N.ltb_ge _ _)), (proj2 (N.ltb_ge _ _)) by done. cbn.
    rewrite Hjs, bool_decide_eq_false_2 by (by intros [? ?]).
    rewrite (proj2 (claim_locks_entry _ _ _) (conj Hst Hlk)). done.
Qed.

(** The whole claims loop: every entry is in order, the job keys are new and
    pairwise different, and the collateral sums fit. *)
Lemma claims_loop_sound auth st l : forall js lk js' lk',
  fold_res (validate_claim_entry st auth) (js, lk) l = Ok (js', lk') ->
  fold_res add_item lk (concat ((fun e => lock_items e.2) <$> l)) = Ok lk'
  /\ (forall key, is_Some (js !! key) -> js' !! key = js !! key)
  /\ (forall id c, (id, c) ∈ l -> exists key pid,
        claim_ok auth st id c key pid /\ js !! key = None /\ js' !! key = Some pid)
  /\ (forall key pid, js' !! key = Some pid -> js !! key = Some pid \/
        exists id c, (id, c) ∈ l /\ claim_ok auth st id c key pid).
Proof.
  induction l as [|[id c] l IH]; intros js lk js' lk'; cbn [fold_res].
  - intros [= <- <-]. repeat split; eauto. intros id c Hin. by apply not_elem_of_nil in Hin.
  - intros Hok. apply bind_ok in Hok as (r & Hr & Hok).
    apply claim_entry_ok in Hr as (key & pid & lk1 & Hc & Hnone & Hlk & ->).
    specialize (IH _ _ _ _ Hok) as (Hlocks & Hold & Hin & Hnew).
    assert (js' !! key = Some pid) as Hkey.
    { rewrite Hold; rewrite lookup_insert_eq; eauto. }
    repeat split.
    + cbn. rewrite fold_res_app, Hlk. done.
    + intros key' Hk.
      assert (key <> key') by (intros ->; rewrite Hnone in Hk; by destruct Hk).
      by rewrite Hold; rewrite lookup_insert_ne.
    + intros id' c' [[= -> ->]|Hl]%elem_of_cons; [eauto|].
      destruct (Hin _ _ Hl) as (key' & pid' & Hc' & Hn' & Hs').
      apply lookup_insert_None in Hn' as [Hn' _]. eauto.
    + intros key' pid' [Hj|(id' & c' & Hl & Hc')]%Hnew.
      * apply lookup_insert_Some in Hj as [[<- <-]|[_ Hj]]; [|by left].
        right. exists id, c. split; [left|done].
      * right. exists id', c'. split; [by right|done].
Qed.

Lemma claim_ok_functional auth st id c key pid id' key' pid' :
  claim_ok auth st id c key pid -> claim_ok auth st id' c key' pid' ->
  id = id' /\ key = key' /\ pid = pid'.
Proof. intros [] []. split_and!; congruence. Qed.

Lemma claims_loop_complete auth st l : forall js lk lk',
  fold_res add_item lk (concat ((fun e => lock_items e.2) <$> l)) = Ok lk' ->
  (forall id c, (id, c) ∈ l -> exists key pid,
     claim_ok auth st id c key pid /\ js !! key = None) ->
  (forall id1 c1 id2 c2 key pid1 pid2, (id1, c1) ∈ l -> (id2, c2) ∈ l ->
     claim_ok auth st id1 c1 key pid1 -> claim_ok auth st id2 c2 key pid2 -> id1 = id2) ->
  NoDup l.*1 ->
  exists js', fold_res (validate_claim_entry st auth) (js, lk) l = Ok (js', lk').
Proof.
  induction l as [|[id c] l IH]; intros js lk lk'; cbn [fold_res fmap list_fmap concat].
  - intros [= <-]. eauto.
  - rewrite fold_res_app. intros Hlocks Hin Hinj Hnd.
    apply bind_ok in Hlocks as (lk1 & Hlk & Hlocks).
    destruct (Hin id c) as (key & pid & Hc & Hn); [left|].
    rewrite (proj2 (claim_entry_ok auth st js lk id c (<[key := pid]> js, lk1)))
      by eauto 10.
    apply NoDup_cons in Hnd as [Hid Hnd].
    cbn. eapply IH; [done|..|done].
    + intros id' c' Hl. destruct (Hin id' c') as (key' & pid' & Hc' & Hn'); [by right|].
      exists key', pid'. split; [done|]. rewrite lookup_insert_ne; [done|]. intros ->.
      apply Hid, list_elem_of_fmap. exists (id', c'). split; [|done]. cbn.
      eapply (Hinj id c id' c'); eauto; [left | by right].
    + intros. eapply (Hinj id1 c1 id2 c2); eauto; by right.
Qed.

Lemma bond_entry_ok lk k a lk' :
  validate_bond_entry lk (k, a) = Ok lk' <->
  bond_key_ok k = true /\ default 0 (lk !! k) = locked a /\ lk' = delete k lk.
Proof.
  unfold validate_bond_entry. cbn [fst snd]. rewrite if_err_ok, orb_false_iff,
    !negb_false_iff, N.eqb_eq.
  split; [intros [[? ?] [= <-]] | intros (? & ? & ->)]; done.
Qed.

Lemma bonds_loop_ok l : forall (lk rest : gmap string N),
  NoDup l.*1 ->
  fold_res validate_bond_entry lk l = Ok rest <->
  (forall k a, (k, a) ∈ l -> bond_key_ok k = true /\ default 0 (lk !! k) = locked a)
  /\ (forall k, rest !! k = if decide (k ∈ l.*1) then None else lk !! k).
Proof.
  induction l as [|[k a] l IH]; intros lk rest Hnd; cbn [fold_res fmap list_fmap fst].
  - split.
    + intros [= <-]. split; [|done]. intros k a Hin. by apply not_elem_of_nil in Hin.
    + intros [_ Hr]. f_equal. apply map_eq. intros k. rewrite (Hr k). done.
  - apply NoDup_cons in Hnd as [Hk Hnd].
    rewrite bind_ok. setoid_rewrite bond_entry_ok. split.
    + intros (lk1 & (Hkok & Hlk & ->) & Hok).
      apply (IH _ _ Hnd) in Hok as [Hl Hr]. split.
      * intros k' a' [[= -> ->]|Hin]%elem_of_cons; [done|].
        specialize (Hl _ _ Hin). rewrite lookup_delete_ne in Hl; [done|].
        intros ->. apply Hk, list_elem_of_fmap. by exists (k', a').
      * intros k'. rewrite Hr. destruct (decide (k = k')) as [->|Hne].
        -- rewrite lookup_delete_eq, (decide_True (P := k' ∈ k' :: _)) by left.
           by case_decide.
        -- rewrite lookup_delete_ne by done. do 2 case_decide; set_solver.
    + intros [Hl Hr]. destruct (Hl k a) as [Hok Hlk]; [left|].
      exists (delete k lk). split; [done|].
      apply IH; [done|]. split.
      * intros k' a' Hin. rewrite lookup_delete_ne; [apply Hl; by right|].
        intros ->. apply Hk, list_elem_of_fmap. by exists (k', a').
      * intros k'. rewrite Hr. destruct (decide (k = k')) as [->|Hne].
        -- rewrite lookup_delete_eq, decide_True by left. by case_decide.
        -- rewrite lookup_delete_ne by done. do 2 case_decide; set_solver.
Qed.

Lemma policies_loop_ok st :
  for_each validate_policy_entry (btree_iter (policies st)) = Ok tt <->
  map_Forall (fun id p => exists d, policy_digest p = Ok d /\ id = hex_encode d)
    (policies st).
Proof.
  rewrite for_each_ok, <- btree_iter_forall. apply Forall_proper; [|done].
  intros [id p]. unfold validate_policy_entry. cbn [fst snd]. rewrite bind_ok.
  setoid_rewrite if_err_ok. setoid_rewrite negb_false_iff.
  setoid_rewrite bool_decide_eq_true. naive_solver.
Qed.

Lemma executions_loop_ok st :
  for_each (validate_execution_entry st) (btree_iter (executions st)) = Ok tt <->
  map_Forall (fun id e => exists p, policy_of st (exe_policy e) = Some p
    /\ job_key (exe_context e) = Ok id /\ execution_scope_ok e p = true) (executions st).
Proof.
  rewrite for_each_ok, <- btree_iter_forall. apply Forall_proper; [|done].
  intros [id e]. unfold validate_execution_entry. cbn [fst snd]. split.
  - intros Hok. ok_inv. bool_inv. subst. eauto.
  - intros (p & -> & -> & Hs). cbn. by rewrite Hs, bool_decide_eq_true_2.
Qed.

Lemma locked_total_items cs k :
  locked_total cs k = items_sum k (concat ((fun e => lock_items e.2) <$> btree_iter cs)).
Proof. unfold locked_total, items_sum. rewrite sumN_concat, map_sum_btree. done. Qed.

Lemma claim_ok_positive auth st id c key pid k v :
  claim_ok auth st id c key pid -> (k, v) ∈ lock_items c -> 0 < v.
Proof.
  intros [_ _ _ _ Hver _ _ _] Hin. unfold proposal_verify in Hver.
  apply bind_ok in Hver as (d & Hd & _). unfold policy_digest in Hd.
  apply bind_ok in Hd as ([] & Hval & _). unfold policy_validate in Hval.
  apply if_err_ok in Hval as [Hval _]. bool_inv.
  unfold lock_items in Hin. destruct (claim_status c); set_unfold in Hin; naive_solver lia.
Qed.

(** Collateral is only locked in accounts that exist. *)
Lemma locked_item_account auth st k :
  (forall id c, claims st !! id = Some c ->
     exists key pid, claim_ok auth st id c key pid /\ jobs st !! key = Some pid) ->
  (forall k, locked_total (claims st) k = locked (bond_at st k)) ->
  k ∈ (concat ((fun e => lock_items e.2) <$> btree_iter (claims st))).*1 ->
  (forall a, ~ bonds st !! k = Some a) -> False.
Proof.
  intros Hc Hl Hin Hno. apply list_elem_of_fmap in Hin as ([k' v] & -> & Hin). cbn in *.
  pose proof (sumN_elem_le (fun kv => at_key k' kv.1 kv.2) _ _ Hin) as Hle. cbn in Hle.
  rewrite at_key_eq in Hle. fold (items_sum k' (concat ((fun e => lock_items e.2)
    <$> btree_iter (claims st)))) in Hle. rewrite <- locked_total_items, Hl in Hle.
  apply elem_of_concat in Hin as (items & Hi & Hitems).
  apply list_elem_of_fmap in Hi as ([id c] & -> & Hid%btree_iter_elem).
  destruct (Hc _ _ Hid) as (key & pid & Hcl & _).
  pose proof (claim_ok_positive _ _ _ _ _ _ _ _ Hcl Hitems).
  unfold bond_at in Hle. destruct (bonds st !! k') as [a|] eqn:Ha; [by eapply Hno|].
  cbn in Hle. lia.
Qed.

Lemma validate_Inv auth st : validate st auth = Ok tt -> Inv auth st.
Proof.
  unfold validate. {
    intros Hok. apply bind_ok in Hok as ([] & Hp & Hok). apply bind_ok in Hok as ([] & He & Hok).
    apply bind_ok in Hok as ([js lk] & Hc & Hok). ok_inv. bool_inv. subst.
    apply policies_loop_ok in Hp. apply executions_loop_ok in He.
    apply claims_loop_sound in Hc as (Hlk & _ & Hin & Hnew).
    apply bonds_loop_ok in H0 as [Hb Hr]; [|apply btree_iter_nodup].
    pose proof (add_items_sound _ _ _ Hlk) as Hsum.
    assert (forall k, default 0 (lk !! k) = locked (bond_at st k)) as Hbond.
    { intros k. unfold bond_at. destruct (bonds st !! k) as [a|] eqn:Hk; cbn.
      - by apply (Hb k a), btree_iter_elem.
      - specialize (Hr k). rewrite lookup_empty in Hr. case_decide as Hd.
        + apply list_elem_of_fmap in Hd as ([k' a] & -> & Hd). apply btree_iter_elem in Hd.
          cbn in Hk. congruence.
        + by rewrite <- Hr. }
    split; [done | done | ..].
    + intros id c Hid. apply btree_iter_elem in Hid. destruct (Hin _ _ Hid) as (? & ? & ? & _ & ?).
      eauto.
    + intros key pid Hj. apply Hnew in Hj as [Hj|(id & c & Hid & Hcl)]; [done|].
      apply btree_iter_elem in Hid. eauto.
    + intros k a Hk. apply btree_iter_elem in Hk. by apply (Hb k a).
    + intros k. rewrite locked_total_items, <- Hbond. destruct (Hsum k) as [-> _].
      by rewrite lookup_empty.
    + intros k. rewrite locked_total_items. destruct (Hsum k) as (Hv & Hs & Hf).
      rewrite lookup_empty in *. cbn in *.
      destruct (decide (k ∈ (concat ((fun e => lock_items e.2) <$> btree_iter (claims st))).*1))
        as [Hk|Hk]; [by apply Hf|].
      rewrite N.add_0_l in Hv. rewrite <- Hv. destruct (lk !! k) eqn:Hlkk; [|unfold U64_MAX; cbn; lia].
      exfalso. destruct Hs as [Hs _]. destruct Hs as [[? ?]|?]; [by eauto|done|done]. }
Qed.

Lemma Inv_validate auth st : Inv auth st -> validate st auth = Ok tt.
Proof.
  unfold validate. {
    intros [Hp He Hc Hj Hk Hl Hf].
    apply policies_loop_ok in Hp. apply executions_loop_ok in He. rewrite Hp, He. cbn.
    set (items := concat ((fun e => lock_items e.2) <$> btree_iter (claims st))).
    destruct (add_items_complete items ∅) as [lk Hlk].
    { intros k. rewrite lookup_empty. cbn. rewrite N.add_0_l. unfold items.
      rewrite <- locked_total_items. apply Hf. }
    destruct (claims_loop_complete auth st (btree_iter (claims st)) ∅ ∅ lk) as [js Hloop];
      [done | ..].
    { intros id c Hid%btree_iter_elem. destruct (Hc _ _ Hid) as (key & pid & ? & _).
      exists key, pid. split; [done | apply lookup_empty]. }
    { intros id1 c1 id2 c2 key pid1 pid2 H1%btree_iter_elem H2%btree_iter_elem Hc1 Hc2.
      destruct (Hc _ _ H1) as (key1 & pid1' & Hc1' & Hj1).
      destruct (Hc _ _ H2) as (key2 & pid2' & Hc2' & Hj2).
      destruct (claim_ok_functional _ _ _ _ _ _ _ _ _ Hc1 Hc1') as (_ & <- & <-).
      destruct (claim_ok_functional _ _ _ _ _ _ _ _ _ Hc2 Hc2') as (_ & <- & <-).
      destruct Hc1, Hc2. congruence. }
    { apply btree_iter_nodup. }
    rewrite Hloop. cbn.
    apply claims_loop_sound in Hloop as (_ & _ & Hin & Hnew).
    assert (js = jobs st) as ->.
    { apply map_eq. intros key. apply option_eq. intros pid. split.
      - intros [Hx|(id & c & Hid%btree_iter_elem & Hcl)]%Hnew; [done|].
        destruct (Hc _ _ Hid) as (key' & pid' & Hcl' & Hx).
        destruct (claim_ok_functional _ _ _ _ _ _ _ _ _ Hcl Hcl') as (_ & <- & <-). done.
      - intros (id & c & Hid & Hcl)%Hj. apply btree_iter_elem in Hid.
        destruct (Hin _ _ Hid) as (key' & pid' & Hcl' & _ & Hx).
        destruct (claim_ok_functional _ _ _ _ _ _ _ _ _ Hcl Hcl') as (_ & <- & <-). done. }
    rewrite bool_decide_eq_true_2 by done. cbn.
    pose proof (add_items_sound _ _ _ Hlk) as Hsum.
    rewrite (proj2 (bonds_loop_ok _ lk ∅ (btree_iter_nodup _))).
    + cbn. by rewrite bool_decide_eq_true_2.
    + split.
      * intros k a Hka%btree_iter_elem. split; [by apply (Hk k a)|].
        destruct (Hsum k) as [-> _]. unfold items. rewrite <- locked_total_items, Hl.
        unfold bond_at. rewrite Hka, lookup_empty. done.
      * intros k. rewrite lookup_empty. case_decide as Hd; [done|].
        destruct (lk !! k) as [v|] eqn:Hv; [exfalso|done].
        destruct (Hsum k) as (Hval & Hs & _). rewrite Hv in Hs.
        destruct (proj1 Hs) as [[? ?]|Hin']; [by eauto|done|].
        eapply locked_item_account; eauto. intros a Ha.
        apply Hd, list_elem_of_fmap. exists (k, a). by rewrite btree_iter_elem.
  }
Qed.

Lemma validate_iff_Inv auth st : validate st auth = Ok tt <-> Inv auth st.
Proof. split; [apply validate_Inv | apply Inv_validate]. Qed.

(** ** Preservation *)

Lemma claim_ok_mono auth st st' id c key pid :
  policies st ⊆ policies st' -> executions st ⊆ executions st' ->
  claim_ok auth st id c key pid -> claim_ok auth st' id c key pid.
Proof.
  intros Hp He [Hpol ? ? ? ? ? (e & Hex & Hrest) ?]. split; auto.
  - by eapply lookup_weaken.
  - exists e. split; [by eapply lookup_weaken | done].
Qed.

Lemma Inv_update_claim auth st st1 id c s :
  Inv auth st -> claims st !! id = Some c -> status_ok (with_status c s) ->
  st1 = set_bonds st (bonds st1) ->
  (forall k, locked (bond_at st1 k) + claim_locks c k =
             locked (bond_at st k) + claim_locks (with_status c s) k) ->
  (forall k, locked (bond_at st1 k) <= U64_MAX) ->
  map_Forall (fun k _ => bond_key_ok k = true) (bonds st1) ->
  Inv auth (set_claims st1 (<[id := with_status c s]> (claims st1))).
Proof.
  intros [Hp He Hc Hj Hk Hl Hf] Hid Hs Hframe Hmove Hfit Hkeys.
  assert (forall key pid, claim_ok auth st id c key pid ->
            claim_ok auth st id (with_status c s) key pid) as Hupd.
  { intros key pid []. by split. }
  assert (forall cs i x key pid, claim_ok auth st i x key pid ->
            claim_ok auth (set_claims st1 cs) i x key pid) as Hmono.
  { intros. eapply claim_ok_mono; [| |done]; by rewrite Hframe. }
  rewrite Hframe in Hmono |- *. split; cbn [set_claims set_claims_jobs set_bonds policies executions claims
    jobs bonds]; auto.
  - intros id' c' [[<- <-]|[Hne Hid']]%lookup_insert_Some.
    + destruct (Hc _ _ Hid) as (key & pid & Hcl & Hjob). exists key, pid.
      split; [apply Hmono, Hupd, Hcl | done].
    + destruct (Hc _ _ Hid') as (key & pid & Hcl & Hjob). exists key, pid.
      split; [apply Hmono, Hcl | done].
  - intros key pid (id' & c' & Hid' & Hcl)%Hj. destruct (decide (id = id')) as [<-|Hne].
    + rewrite Hid in Hid'. injection Hid' as <-. exists id, (with_status c s).
      rewrite lookup_insert_eq. split; [done | by apply Hmono, Hupd].
    + exists id', c'. rewrite lookup_insert_ne by done. split; [done | by apply Hmono].
  - intros k. change (bond_at _ k) with (bond_at st1 k).
    pose proof (map_sum_insert (fun _ c => claim_locks c k) _ _ (with_status c s) _ Hid) as Hsum.
    fold (locked_total (claims st) k) in Hsum. cbn beta in Hsum. unfold locked_total at 1.
    specialize (Hmove k). rewrite Hl in Hsum. lia.
  - intros k. pose proof (map_sum_insert (fun _ c => claim_locks c k) _ _ (with_status c s) _ Hid) as Hsum.
    fold (locked_total (claims st) k) in Hsum. cbn beta in Hsum. unfold locked_total at 1.
    specialize (Hmove k). specialize (Hfit k). rewrite Hl in Hsum. lia.
Qed.

Lemma Inv_new_claim auth st st1 id c key pid :
  Inv auth st -> claims st !! id = None -> jobs st !! key = None ->
  claim_ok auth st id c key pid ->
  st1 = set_bonds st (bonds st1) ->
  (forall k, locked (bond_at st1 k) = locked (bond_at st k) + claim_locks c k) ->
  (forall k, locked (bond_at st1 k) <= U64_MAX) ->
  map_Forall (fun k _ => bond_key_ok k = true) (bonds st1) ->
  Inv auth (set_claims_jobs st1 (<[id := c]> (claims st1)) (<[key := pid]> (jobs st1))).
Proof.
  intros [Hp He Hc Hj Hk Hl Hf] Hid Hkey Hcl Hframe Hmove Hfit Hkeys.
  assert (forall cs js i x key pid, claim_ok auth st i x key pid ->
            claim_ok auth (set_claims_jobs st1 cs js) i x key pid) as Hmono.
  { intros. eapply claim_ok_mono; [| |done]; by rewrite Hframe. }
  rewrite Hframe in Hmono |- *. split; cbn [set_claims set_claims_jobs set_bonds policies executions claims
    jobs bonds]; auto.
  - intros id' c' [[<- <-]|[Hne Hid']]%lookup_insert_Some.
    + exists key, pid. rewrite lookup_insert_eq. split; [by apply Hmono | done].
    + destruct (Hc _ _ Hid') as (key' & pid' & Hcl' & Hjob).
      exists key', pid'. rewrite lookup_insert_ne by congruence.
      split; [by apply Hmono | done].
  - intros key' pid' [[<- <-]|[Hne Hjob]]%lookup_insert_Some.
    + exists id, c. rewrite lookup_insert_eq. split; [done | by apply Hmono].
    + destruct (Hj _ _ Hjob) as (id' & c' & Hid' & Hcl').
      exists id', c'. rewrite lookup_insert_ne by congruence.
      split; [done | by apply Hmono].
  - intros k. change (bond_at _ k) with (bond_at st1 k). unfold locked_total.
    rewrite map_sum_insert_fresh by done. fold (locked_total (claims st) k).
    rewrite Hl, Hmove. lia.
  - intros k. unfold locked_total. rewrite map_sum_insert_fresh by done.
    fold (locked_total (claims st) k). specialize (Hfit k). rewrite Hmove in Hfit.
    rewrite Hl. lia.
Qed.

Lemma Inv_bonds auth st b :
  Inv auth st ->
  (forall k, locked (bond_at (set_bonds st b) k) = locked (bond_at st k)) ->
  map_Forall (fun k _ => bond_key_ok k = true) b ->
  Inv auth (set_bonds st b).
Proof.
  intros [Hp He Hc Hj Hk Hl Hf] Hlock Hkeys.
  assert (forall i x key pid, claim_ok auth st i x key pid <->
            claim_ok auth (set_bonds st b) i x key pid) as Hmono.
  { intros. split; apply claim_ok_mono; done. }
  split; auto.
  - intros id c Hid. destruct (Hc _ _ Hid) as (key & pid & Hcl & Hjob).
    exists key, pid. by rewrite <- Hmono.
  - intros key pid Hjob. destruct (Hj _ _ Hjob) as (id & c & Hid & Hcl).
    exists id, c. by rewrite <- Hmono.
  - intros k. cbn [claims set_bonds]. by rewrite Hl, Hlock.
Qed.

Lemma bond_at_exists st k :
  0 < available (bond_at st k) + locked (bond_at st k) -> is_Some (bonds st !! k).
Proof. unfold bond_at. destruct (bonds st !! k); cbn; [eauto | lia]. Qed.

Lemma Inv_mono_policies auth st P E :
  Inv auth st -> policies st ⊆ P -> executions st ⊆ E ->
  map_Forall (fun id p => exists d, policy_digest p = Ok d /\ id = hex_encode d) P ->
  map_Forall (fun id e => exists p, P !! hex_encode (exe_policy e) = Some p
    /\ job_key (exe_context e) = Ok id /\ execution_scope_ok e p = true) E ->
  Inv auth (mkState P E (claims st) (jobs st) (bonds st)).
Proof.
  intros [Hp He Hc Hj Hk Hl Hf] HP HE HPok HEok.
  assert (forall i x key pid, claim_ok auth st i x key pid ->
            claim_ok auth (mkState P E (claims st) (jobs st) (bonds st)) i x key pid) as Hmono.
  { intros ????. by apply claim_ok_mono. }
  split; auto.
  - intros id c Hid. destruct (Hc _ _ Hid) as (key & pid & Hcl & Hjob). eauto.
  - intros key pid Hjob. destruct (Hj _ _ Hjob) as (id & c & Hid & Hcl). eauto.
Qed.

Lemma enroll_Inv auth st p st' id :
  Inv auth st -> enroll_policy st p = Ok (st', id) -> Inv auth st'.
Proof.
  intros Hinv Hok. unfold enroll_policy in Hok. ok_inv. bool_inv. subst.
  apply eq_None_not_Some in H0. pose proof Hinv as [Hp He _ _ _ _ _].
  assert (policies st ⊆ <[hex_encode id := p]> (policies st)) as Hsub
    by by apply insert_subseteq.
  apply (Inv_mono_policies _ _ _ _ Hinv); auto.
  - apply map_Forall_insert_2; eauto.
  - intros k e Hk. destruct (He _ _ Hk) as (p' & Hp' & Hrest). exists p'.
    split; [by eapply lookup_weaken | done].
Qed.

Lemma register_Inv auth st e st' :
  Inv auth st -> register_execution st e = Ok st' -> Inv auth st'.
Proof.
  intros Hinv Hok. unfold register_execution in Hok. ok_inv. bool_inv. subst.
  pose proof Hinv as [Hp He _ _ _ _ _].
  match goal with H : ~ is_Some _ |- _ => apply eq_None_not_Some in H end.
  apply (Inv_mono_policies _ _ _ _ Hinv); auto.
  - by apply insert_subseteq.
  - apply map_Forall_insert_2; [eauto|]. done.
Qed.

Lemma withdraw_Inv auth st asset owner amount st' :
  Inv auth st -> withdraw_escrow st asset owner amount = Ok st' -> Inv auth st'.
Proof.
  intros Hinv Hok. apply withdraw_spec in Hok as ([Hframe Ha Hl] & Hnz & Hle & Hb).
  rewrite Hframe. apply Inv_bonds; [done|..].
  - intros k. specialize (Hl k). rewrite <- Hframe. lia.
  - rewrite Hb. apply map_Forall_insert_2; [|apply Hinv].
    destruct (bond_at_exists st (bond_key asset owner)) as [a Hacc];
      [unfold bond in Hle; lia|].
    by apply (inv_keys _ _ Hinv _ a).
Qed.

(** Moves between accounts that already exist keep the keys well formed. *)
Lemma keys_award st asset from to amount st' :
  map_Forall (fun k _ => bond_key_ok k = true) (bonds st) ->
  award st asset from to amount = Ok st' -> amount <> 0 ->
  is_Some (bonds st !! bond_key asset to) ->
  map_Forall (fun k _ => bond_key_ok k = true) (bonds st').
Proof.
  intros Hkeys Hok Hnz [a Hto] k x Hk.
  apply award_spec in Hok as (_ & Hle & Hdom).
  destruct (proj1 (Hdom k) (ex_intro _ x Hk)) as [[y Hy]|[->| ->]]; [by eapply Hkeys|..|by eapply Hkeys].
  destruct (bond_at_exists st (bond_key asset from)) as [y Hy]; [unfold bond in Hle; lia|].
  by eapply Hkeys.
Qed.

Lemma keys_lock st asset owner amount st' :
  map_Forall (fun k _ => bond_key_ok k = true) (bonds st) ->
  lock st asset owner amount = Ok st' -> amount <> 0 ->
  map_Forall (fun k _ => bond_key_ok k = true) (bonds st').
Proof.
  intros Hkeys Hok Hnz. apply lock_spec in Hok as (_ & Hle & _ & ->).
  apply map_Forall_insert_2; [|done].
  destruct (bond_at_exists st (bond_key asset owner)) as [a Hacc]; [unfold bond in Hle; lia|].
  by eapply Hkeys.
Qed.

(** What a claim keeps locked, by status. *)
Definition own_lock (c : Claim) (k : string) : N :=
  at_key k (bond_key (pol_bond_asset (claim_policy c)) (pol_proposer (claim_policy c)))
    (pol_proposer_bond (claim_policy c)).
Definition challenger_lock (c : Claim) (ch : bytes) (k : string) : N :=
  at_key k (bond_key (pol_bond_asset (claim_policy c)) ch)
    (pol_challenger_bond (claim_policy c)).

Lemma claim_locks_status c s k :
  claim_locks (with_status c s) k =
  match s with
  | Pending | Proven _ => own_lock c k
  | Challenged ch _ => own_lock c k + challenger_lock c ch k
  | _ => 0
  end.
Proof.
  unfold claim_locks, lock_items, items_sum, own_lock, challenger_lock.
  destruct s; cbn; rewrite ?N.add_0_r; done.
Qed.

Lemma with_status_id c : with_status c (claim_status c) = c.
Proof. by destruct c. Qed.

Lemma claim_locks_of c k :
  claim_locks c k =
  match claim_status c with
  | Pending | Proven _ => own_lock c k
  | Challenged ch _ => own_lock c k + challenger_lock c ch k
  | _ => 0
  end.
Proof. rewrite <- (with_status_id c) at 1. apply claim_locks_status. Qed.

(** An accepted policy has non-zero bonds. *)
Lemma policy_digest_bonds p d :
  policy_digest p = Ok d -> pol_proposer_bond p <> 0 /\ pol_challenger_bond p <> 0.
Proof.
  intros Hd. unfold policy_digest in Hd. apply bind_ok in Hd as ([] & Hval & _).
  unfold policy_validate in Hval. apply if_err_ok in Hval as [Hval _]. bool_inv. done.
Qed.

Lemma claim_bonds auth st id c :
  Inv auth st -> claims st !! id = Some c ->
  pol_proposer_bond (claim_policy c) <> 0 /\ pol_challenger_bond (claim_policy c) <> 0.
Proof.
  intros Hinv Hid. destruct (inv_claims _ _ Hinv _ _ Hid) as (key & pid & [_ _ _ _ Hver _ _ _] & _).
  unfold proposal_verify in Hver. apply bind_ok in Hver as (d & Hd & _).
  by eapply policy_digest_bonds.
Qed.

(** The collateral of a claim really is locked in its owner's account. *)
Lemma claim_locks_le auth st id c k :
  Inv auth st -> claims st !! id = Some c -> claim_locks c k <= locked (bond_at st k).
Proof.
  intros Hinv Hid. rewrite <- (inv_locked _ _ Hinv).
  apply (map_sum_elem_le (fun _ c => claim_locks c k) _ _ _ Hid).
Qed.

Lemma Inv_locked_fits auth st k : Inv auth st -> locked (bond_at st k) <= U64_MAX.
Proof. intros Hinv. rewrite <- (inv_locked _ _ Hinv). apply Hinv. Qed.

Lemma locked_account_exists st asset owner amount :
  amount <> 0 -> amount <= locked (bond_at st (bond_key asset owner)) ->
  is_Some (bonds st !! bond_key asset owner).
Proof. intros. apply bond_at_exists. lia. Qed.

Lemma propose_Inv auth st p now st' id :
  Inv auth st -> propose st p now auth = Ok (st', id) -> Inv auth st'.
Proof.
  intros Hinv Hok. unfold propose in Hok. ok_inv. bool_inv. subst.
  match goal with H : lock _ _ _ _ = Ok ?n |- _ => rename H into Hlock; rename n into st1 end.
  match goal with H : policy_of _ _ = Some ?n |- _ => rename H into Hpol; rename n into pol end.
  match goal with H : proposal_verify _ _ _ _ = _ |- _ => rename H into Hver end.
  pose proof Hver as Hd. unfold proposal_verify in Hd. apply bind_ok in Hd as (d & Hd & _).
  apply policy_digest_bonds in Hd as [Hnz _].
  pose proof (keys_lock _ _ _ _ _ (inv_keys _ _ Hinv) Hlock Hnz) as Hkeys.
  apply lock_spec in Hlock as ([Hframe Ha Hl] & Hle & Hfit & Hb).
  eapply Inv_new_claim; eauto.
  - by apply eq_None_not_Some.
  - by apply eq_None_not_Some.
  - split; cbn; auto. eexists. repeat split; eauto.
    match goal with H : none_or_gt _ _ = false, H' : checked_add _ _ = Some _ |- _ =>
      rewrite H' in H; cbn in H; unfold none_or_gt in H; destruct (checked_add _ _);
      [bool_inv; eauto | discriminate] end.
  - intros k. rewrite claim_locks_of. cbn [claim_status]. specialize (Hl k).
    unfold own_lock. cbn [claim_policy]. lia.
  - intros k. specialize (Hl k). pose proof (Inv_locked_fits _ _ k Hinv).
    destruct (decide (k = bond_key (pol_bond_asset pol) (pol_proposer pol))) as [->|Hne].
    + rewrite at_key_eq in Hl. unfold bond in Hfit. lia.
    + rewrite at_key_ne in Hl by done. lia.
Qed.

Lemma challenge_Inv auth st r now st' :
  Inv auth st -> challenge st r now auth = Ok st' -> Inv auth st'.
Proof.
  intros Hinv Hok. unfold challenge in Hok. ok_inv. bool_inv. subst.
  match goal with H : lock _ _ _ _ = Ok ?n |- _ => rename H into Hlock; rename n into st1 end.
  match goal with H : claim_of _ _ = Some ?n |- _ => rename H into Hcl; rename n into c end.
  match goal with H : checked_add _ _ = Some _ |- _ => apply checked_add_some in H as [-> ?] end.
  destruct (claim_bonds _ _ _ _ Hinv Hcl) as [_ Hnz].
  pose proof (keys_lock _ _ _ _ _ (inv_keys _ _ Hinv) Hlock Hnz) as Hkeys.
  apply lock_spec in Hlock as ([Hframe Ha Hl] & Hle & Hfit & Hb).
  eapply Inv_update_claim; eauto.
  - exists now. cbn. auto.
  - intros k. rewrite claim_locks_of, claim_locks_status.
    match goal with H : claim_status c = Pending |- _ => rewrite H end.
    specialize (Hl k). unfold own_lock, challenger_lock. lia.
  - intros k. specialize (Hl k). pose proof (Inv_locked_fits _ _ k Hinv).
    destruct (decide (k = bond_key (pol_bond_asset (claim_policy c)) (chal_challenger r)))
      as [->|Hne].
    + rewrite at_key_eq in Hl. unfold bond in Hfit. lia.
    + rewrite at_key_ne in Hl by done. lia.
Qed.

Lemma frame_trans st st1 st2 :
  st1 = set_bonds st (bonds st1) -> st2 = set_bonds st1 (bonds st2) ->
  st2 = set_bonds st (bonds st2).
Proof. intros Hf1 Hf2. rewrite Hf2, Hf1. done. Qed.

(** A lost claim: both bonds leave the locked side and reach the challenger. *)
Lemma resolve_spec st p ch st' :
  resolve_bonds st p ch false = Ok st' ->
  let own := bond_key (pol_bond_asset p) (pol_proposer p) in
  let his := bond_key (pol_bond_asset p) ch in
  bonds_move st st' (fun _ => 0)
    (fun k => at_key k his (pol_proposer_bond p) + at_key k his (pol_challenger_bond p))
    (fun k => at_key k own (pol_proposer_bond p) + at_key k his (pol_challenger_bond p))
    (fun _ => 0).
Proof.
  intros Hok. unfold resolve_bonds in Hok. apply bind_ok in Hok as (st1 & H1 & H2).
  apply award_spec in H1 as ([Hf1 Ha1 Hl1] & _ & _).
  apply award_spec in H2 as ([Hf2 Ha2 Hl2] & _ & _).
  split; [by eapply frame_trans|..]; intros k.
  - specialize (Ha1 k). specialize (Ha2 k). lia.
  - specialize (Hl1 k). specialize (Hl2 k). lia.
Qed.

Lemma keys_resolve st p ch st' :
  map_Forall (fun k _ => bond_key_ok k = true) (bonds st) ->
  resolve_bonds st p ch false = Ok st' ->
  pol_proposer_bond p <> 0 -> pol_challenger_bond p <> 0 ->
  is_Some (bonds st !! bond_key (pol_bond_asset p) ch) ->
  map_Forall (fun k _ => bond_key_ok k = true) (bonds st').
Proof.
  intros Hkeys Hok Hp Hc Hch. unfold resolve_bonds in Hok.
  apply bind_ok in Hok as (st1 & H1 & H2).
  eapply keys_award; [|exact H2|done|].
  - eapply keys_award; eauto.
  - apply award_spec in H1 as (_ & _ & Hdom). apply Hdom. auto.
Qed.

(** The accounts a challenged claim pays into exist. *)
Lemma challenged_accounts auth st id c ch rd :
  Inv auth st -> claims st !! id = Some c -> claim_status c = Challenged ch rd ->
  is_Some (bonds st !! bond_key (pol_bond_asset (claim_policy c)) ch)
  /\ is_Some (bonds st !! bond_key (pol_bond_asset (claim_policy c))
                                   (pol_proposer (claim_policy c))).
Proof.
  intros Hinv Hid Hs. destruct (claim_bonds _ _ _ _ Hinv Hid) as [Hp Hc].
  pose proof (claim_locks_le _ _ _ _ (bond_key (pol_bond_asset (claim_policy c)) ch) Hinv Hid).
  pose proof (claim_locks_le _ _ _ _ (bond_key (pol_bond_asset (claim_policy c))
    (pol_proposer (claim_policy c))) Hinv Hid).
  rewrite claim_locks_of, Hs in *. unfold own_lock, challenger_lock in *.
  rewrite at_key_eq in *. split; apply bond_at_exists; lia.
Qed.

Lemma proposer_account auth st id c :
  Inv auth st -> claims st !! id = Some c ->
  (claim_status c = Pending \/ exists pf, claim_status c = Proven pf) ->
  is_Some (bonds st !! bond_key (pol_bond_asset (claim_policy c))
                                (pol_proposer (claim_policy c))).
Proof.
  intros Hinv Hid Hs. destruct (claim_bonds _ _ _ _ Hinv Hid) as [Hp _].
  pose proof (claim_locks_le _ _ _ _ (bond_key (pol_bond_asset (claim_policy c))
    (pol_proposer (claim_policy c))) Hinv Hid) as Hle.
  rewrite claim_locks_of in Hle. unfold own_lock in Hle. rewrite at_key_eq in Hle.
  apply bond_at_exists. destruct Hs as [Hs|[pf Hs]]; rewrite Hs in Hle; lia.
Qed.

Lemma resolve_Inv auth st id c ch rd pf st' :
  Inv auth st -> claims st !! id = Some c -> claim_status c = Challenged ch rd ->
  resolve_bonds st (claim_policy c) ch false = Ok st' ->
  Inv auth (set_claims st' (<[id := with_status c (Rejected ch pf)]> (claims st'))).
Proof.
  intros Hinv Hid Hs Hok. destruct (claim_bonds _ _ _ _ Hinv Hid) as [Hp Hc].
  destruct (challenged_accounts _ _ _ _ _ _ Hinv Hid Hs) as [Hch _].
  pose proof (keys_resolve _ _ _ _ (inv_keys _ _ Hinv) Hok Hp Hc Hch) as Hkeys.
  apply resolve_spec in Hok as [Hframe Ha Hl].
  eapply Inv_update_claim; eauto; [done|..]; intros k; specialize (Hl k).
  - rewrite claim_locks_of, claim_locks_status, Hs. unfold own_lock, challenger_lock. lia.
  - pose proof (Inv_locked_fits _ _ k Hinv). lia.
Qed.

Lemma release_Inv auth st id c pf st' :
  Inv auth st -> claims st !! id = Some c ->
  (claim_status c = Pending \/ exists pf, claim_status c = Proven pf) ->
  unlock st (pol_bond_asset (claim_policy c)) (pol_proposer (claim_policy c))
    (pol_proposer_bond (claim_policy c)) = Ok st' ->
  Inv auth (set_claims st' (<[id := with_status c (Finalized pf)]> (claims st'))).
Proof.
  intros Hinv Hid Hs Hok. unfold unlock in Hok.
  destruct (claim_bonds _ _ _ _ Hinv Hid) as [Hp _].
  pose proof (keys_award _ _ _ _ _ _ (inv_keys _ _ Hinv) Hok Hp
    (proposer_account _ _ _ _ Hinv Hid Hs)) as Hkeys.
  apply award_spec in Hok as ([Hframe Ha Hl] & _ & _).
  eapply Inv_update_claim; eauto; [done|..]; intros k; specialize (Hl k).
  - rewrite claim_locks_of, claim_locks_status. unfold own_lock, challenger_lock.
    destruct Hs as [Hs|[? Hs]]; rewrite Hs; lia.
  - pose proof (Inv_locked_fits _ _ k Hinv). lia.
Qed.

Lemma answer_Inv {V} `{!ChallengeVerifier V} auth st id proof (v : V) now st' :
  Inv auth st -> answer st id proof v now = Ok st' -> Inv auth st'.
Proof.
  intros Hinv Hok. unfold answer in Hok. apply bind_ok in Hok as (c & Hcl & Hok).
  apply ok_or_ok in Hcl. destruct (claim_status c) as [|ch rd|pf|pf|ch pf] eqn:Hs; try done.
  apply if_err_ok in Hok as [_ Hok]. apply bind_ok in Hok as (out & _ & Hok).
  apply bind_ok in Hok as ([st1 s] & Hbr & [= <-]).
  case_bool_decide; ok_inv; simplify_eq; [|by eapply resolve_Inv].
  destruct (claim_bonds _ _ _ _ Hinv Hcl) as [Hp Hc].
  destruct (challenged_accounts _ _ _ _ _ _ Hinv Hcl Hs) as [_ Hown].
  pose proof (keys_award _ _ _ _ _ _ (inv_keys _ _ Hinv) H0 Hc Hown) as Hkeys.
  apply award_spec in H0 as ([Hframe Ha Hl] & _ & _).
  eapply Inv_update_claim; eauto; [done|..]; intros k; specialize (Hl k).
  - rewrite claim_locks_of, claim_locks_status, Hs. unfold own_lock, challenger_lock. lia.
  - pose proof (Inv_locked_fits _ _ k Hinv). lia.
Qed.

Lemma advance_Inv auth st id now st' :
  Inv auth st -> advance st id now = Ok st' -> Inv auth st'.
Proof.
  intros Hinv Hok. unfold advance in Hok. apply bind_ok in Hok as (c & Hcl & Hok).
  apply ok_or_ok in Hcl. apply bind_ok in Hok as ([st1 s] & Hbr & [= <-]).
  destruct (claim_status c) as [|ch rd|pf|pf|ch pf] eqn:Hs; try done;
    case_match; try done; ok_inv; simplify_eq;
    first [by eapply resolve_Inv | by eapply release_Inv; eauto].
Qed.
End Proofs.

(** ** Account keys *)

Section Keys.
Context {HEX : HexEncode} {HEXL : HexLaws}.

Lemma string_all_cons p c s : string_all p (String c s) = p c && string_all p s.
Proof. done. Qed.

Lemma split_colon_hex s rest :
  string_all is_lower_hex s = true ->
  split_colon (s +:+ String ":" rest) = s :: split_colon rest.
Proof.
  induction s as [|c s IH]; intros Hs; [done|]. rewrite string_all_cons in Hs. bool_inv.
  change (String c s +:+ String ":" rest) with (String c (s +:+ String ":" rest)).
  cbn [split_colon]. rewrite IH by done.
  destruct (Ascii.eqb_spec c ":"); [subst; discriminate | done].
Qed.

Lemma split_colon_hex_end s : string_all is_lower_hex s = true -> split_colon s = [s].
Proof.
  induction s as [|c s IH]; intros Hs; [done|]. rewrite string_all_cons in Hs. bool_inv.
  cbn [split_colon]. rewrite IH by done.
  destruct (Ascii.eqb_spec c ":"); [subst; discriminate | done].
Qed.

Lemma split_bond_key a o : split_colon (bond_key a o) = [hex_encode a; hex_encode o].
Proof.
  unfold bond_key. change (":" +:+ hex_encode o) with (String ":" (hex_encode o)).
  rewrite split_colon_hex by apply hex_alphabet.
  by rewrite split_colon_hex_end by apply hex_alphabet.
Qed.

Lemma valid_part_hex d :
  valid_part (Some (hex_encode d)) = true <-> length d = 32%nat /\ d <> ZERO32.
Proof.
  unfold valid_part. rewrite hex_alphabet, hex_length.
  change (zeros 64) with (zeros (2 * 32)). rewrite <- (hex_zero 32).
  rewrite andb_true_r, andb_true_iff, negb_true_iff, bool_decide_eq_true, bool_decide_eq_false.
  split; intros [Hl Hz]; (split; [lia|]).
  - intros ->. by apply Hz.
  - intros Hh. apply hex_inj in Hh. by subst.
Qed.

Lemma bond_key_ok_iff a o :
  bond_key_ok (bond_key a o) = true <->
  (length a = 32%nat /\ a <> ZERO32) /\ (length o = 32%nat /\ o <> ZERO32).
Proof.
  unfold bond_key_ok. rewrite split_bond_key.
  change ([hex_encode a; hex_encode o] !! 0%nat) with (Some (hex_encode a)).
  change ([hex_encode a; hex_encode o] !! 1%nat) with (Some (hex_encode o)).
  rewrite bool_decide_eq_true_2 by done.
  by rewrite andb_true_r, andb_true_iff, !valid_part_hex.
Qed.

(** The accounts of one asset are the keys its encoding prefixes. *)
Definition asset_account (asset : bytes) (key : string) : bool :=
  match split_colon key with
  | part :: _ => bool_decide (part = hex_encode asset)
  | [] => false
  end.

Lemma asset_account_bond_key asset a o :
  asset_account asset (bond_key a o) = bool_decide (a = asset).
Proof.
  unfold asset_account. rewrite split_bond_key. apply bool_decide_ext.
  split; [apply hex_inj | by intros ->].
Qed.
End Keys.

(** Escrow held for one asset, available and locked. *)
Definition escrow_of {HEX : HexEncode} (asset : bytes) (st : OptimisticState) : N :=
  map_sum (fun k b => if asset_account asset k then available b + locked b else 0) (bonds st).

(** ** Events *)

Section Events.
Context {SHA : Sha256} {HEX : HexEncode} {HEXL : HexLaws}.
Context {JPOL : Serialize OptimisticPolicy}.
Context {JPROP : Serialize (bytes * ExecutionContext * bytes * N)}.
Context {JCHAL : Serialize (bytes * bytes)}.
Context {JJOB : Serialize (bytes * bytes * bytes)}.
Context {A : Type} {AUTH : ClaimAuthentication A}.
Context {V : Type} {VERIFY : ChallengeVerifier V}.

Inductive event : Type :=
  | EEnroll (p : OptimisticPolicy)
  | ERegister (e : RegisteredExecution)
  | ECredit (asset owner : bytes) (amount : N)
  | EWithdraw (asset owner : bytes) (amount : N)
  | EPropose (p : Proposal) (now : N)
  | EChallenge (r : Challenge) (now : N)
  | EAnswer (id proof : bytes) (v : V) (now : N)
  | EAdvance (id : bytes) (now : N).

(** The host passes 32-byte identifiers. *)
Definition event_typed (e : event) : Prop :=
  match e with
  | ECredit asset owner _ => length asset = 32%nat /\ length owner = 32%nat
  | _ => True
  end.

Definition apply_event (auth : A) (st : OptimisticState) (e : event) :
    result string OptimisticState :=
  match e with
  | EEnroll p => r ← enroll_policy st p; Ok r.1
  | ERegister e => register_execution st e
  | ECredit asset owner amount => credit_escrow st asset owner amount
  | EWithdraw asset owner amount => withdraw_escrow st asset owner amount
  | EPropose p now => r ← propose st p now auth; Ok r.1
  | EChallenge r now => challenge st r now auth
  | EAnswer id proof v now => answer st id proof v now
  | EAdvance id now => advance st id now
  end.

Definition next_state (auth : A) (st : OptimisticState) (e : event) : OptimisticState :=
  match apply_event auth st e with Ok st' => st' | Err _ => st end.

Definition run (auth : A) (st : OptimisticState) (es : list event) : OptimisticState :=
  foldl (next_state auth) st es.

Lemma apply_event_run auth st e :
  is_ok (apply_event auth st e) = true -> apply_event auth st e = Ok (run auth st [e]).
Proof. cbn. unfold next_state. by destruct (apply_event auth st e). Qed.

Lemma credit_Inv auth st asset owner amount st' :
  length asset = 32%nat -> length owner = 32%nat ->
  Inv auth st -> credit_escrow st asset owner amount = Ok st' -> Inv auth st'.
Proof.
  intros Hla Hlo Hinv Hok. apply credit_spec in Hok as ([Hf Ha Hl] & Hza & Hzo & _ & _ & Hb).
  rewrite Hf. apply Inv_bonds; [done|..].
  - intros k. specialize (Hl k). rewrite <- Hf. lia.
  - rewrite Hb. apply map_Forall_insert_2; [|apply Hinv].
    apply bond_key_ok_iff. auto.
Qed.

Lemma apply_event_Inv auth st e st' :
  event_typed e -> Inv auth st -> apply_event auth st e = Ok st' -> Inv auth st'.
Proof.
  intros Ht Hinv Hok. destruct e; cbn [apply_event event_typed] in *.
  - ok_inv. subst. destruct x. by eapply enroll_Inv.
  - by eapply register_Inv.
  - destruct Ht. by apply (credit_Inv _ st asset owner amount).
  - by eapply withdraw_Inv.
  - ok_inv. subst. destruct x. by eapply propose_Inv.
  - by eapply challenge_Inv.
  - by eapply answer_Inv.
  - by eapply advance_Inv.
Qed.

Lemma run_Inv auth es : forall st,
  Forall event_typed es -> Inv auth st -> Inv auth (run auth st es).
Proof.
  induction es as [|e es IH]; intros st Ht Hinv; [done|].
  apply Forall_cons in Ht as [He Ht]. cbn. apply IH; [done|].
  unfold next_state. destruct (apply_event auth st e) eqn:Hok; [|done].
  by eapply apply_event_Inv.
Qed.

Lemma default_validates auth : validate OptimisticState_default auth = Ok tt.
Proof. done. Qed.

(** C9: every operation keeps the persisted snapshot valid: a state the
    snapshot check accepts stays accepted after any sequence of operations,
    failed ones included (policy index, execution index, job index, claim
    deadlines and the locked collateral of every account). *)
Theorem snapshot_always_validates auth st es :
  validate st auth = Ok tt -> Forall event_typed es ->
  validate (run auth st es) auth = Ok tt.
Proof. rewrite !validate_iff_Inv. intros Hinv Ht. by apply run_Inv. Qed.

(** ** Conservation of escrow *)

Definition account_value (asset : bytes) (k : string) (b : BondAccount) : N :=
  if asset_account asset k then available b + locked b else 0.

Lemma escrow_insert asset st st' k b :
  bonds st' = <[k := b]> (bonds st) ->
  escrow_of asset st' + account_value asset k (bond_at st k)
  = escrow_of asset st + account_value asset k b.
Proof.
  intros Hb. unfold escrow_of, bond_at. rewrite Hb.
  apply (map_sum_insert_default (account_value asset)).
  unfold account_value. by case_match.
Qed.

Lemma escrow_set_claims asset st c j : escrow_of asset (set_claims_jobs st c j) = escrow_of asset st.
Proof. done. Qed.

Lemma lock_escrow asset st a o amount st' :
  lock st a o amount = Ok st' -> escrow_of asset st' = escrow_of asset st.
Proof.
  intros Hok. apply lock_spec in Hok as (_ & Hle & _ & Hb).
  apply (escrow_insert asset) in Hb as Hi.
  unfold account_value, bond in *. cbn [available locked] in *. case_match; lia.
Qed.

Lemma credit_escrow_value asset st a o amount st' :
  credit_escrow st a o amount = Ok st' ->
  escrow_of asset st' = escrow_of asset st + (if bool_decide (a = asset) then amount else 0).
Proof.
  intros Hok. apply credit_spec in Hok as (_ & _ & _ & _ & _ & Hb).
  apply (escrow_insert asset) in Hb as Hi.
  unfold account_value, bond in *. cbn [available locked] in *.
  rewrite asset_account_bond_key in Hi. case_bool_decide; lia.
Qed.

Lemma withdraw_escrow_value asset st a o amount st' :
  withdraw_escrow st a o amount = Ok st' ->
  escrow_of asset st' + (if bool_decide (a = asset) then amount else 0) = escrow_of asset st.
Proof.
  intros Hok. apply withdraw_spec in Hok as (_ & _ & Hle & Hb).
  apply (escrow_insert asset) in Hb as Hi.
  unfold account_value, bond in *. cbn [available locked] in *.
  rewrite asset_account_bond_key in Hi. case_bool_decide; lia.
Qed.

Lemma award_escrow asset st a from to amount st' :
  award st a from to amount = Ok st' -> escrow_of asset st' = escrow_of asset st.
Proof.
  intros Hok. apply award_inv in Hok as [Hle Hok].
  apply (credit_escrow_value asset) in Hok. rewrite Hok.
  pose proof (escrow_insert asset st (debit_state st a from amount) _ _ eq_refl) as Hi.
  unfold account_value, bond in *. cbn [available locked] in *.
  rewrite asset_account_bond_key in Hi. case_bool_decide; lia.
Qed.

Lemma resolve_escrow asset st p ch st' :
  resolve_bonds st p ch false = Ok st' -> escrow_of asset st' = escrow_of asset st.
Proof.
  intros Hok. unfold resolve_bonds in Hok. apply bind_ok in Hok as (st1 & H1 & H2).
  apply (award_escrow asset) in H1, H2. congruence.
Qed.

(** C10: escrow is conserved per asset: proposing, challenging, answering
    and advancing only move funds between accounts and their locked side;
    only the host's credits and withdrawals change the total of an asset, by
    exactly their amount. *)
Theorem escrow_conserved auth st e st' asset :
  apply_event auth st e = Ok st' ->
  match e with
  | ECredit a _ amount =>
      escrow_of asset st' = escrow_of asset st + (if bool_decide (a = asset) then amount else 0)
  | EWithdraw a _ amount =>
      escrow_of asset st' + (if bool_decide (a = asset) then amount else 0) = escrow_of asset st
  | _ => escrow_of asset st' = escrow_of asset st
  end.
Proof.
  intros Hok. destruct e; cbn [apply_event] in Hok.
  - unfold enroll_policy in Hok. ok_inv. by subst.
  - unfold register_execution in Hok. ok_inv. by subst.
  - by apply (credit_escrow_value asset) in Hok.
  - by apply (withdraw_escrow_value asset) in Hok.
  - unfold propose in Hok. ok_inv. subst. cbn [fst]. rewrite escrow_set_claims.
    by eapply lock_escrow.
  - unfold challenge, set_claims in Hok. ok_inv. subst. rewrite escrow_set_claims.
    by eapply lock_escrow.
  - unfold answer in Hok. apply bind_ok in Hok as (c & _ & Hok).
    destruct (claim_status c); try done. ok_inv. subst.
    unfold set_claims. rewrite escrow_set_claims.
    case_bool_decide; ok_inv; simplify_eq; [by eapply award_escrow | by eapply resolve_escrow].
  - unfold advance in Hok. apply bind_ok in Hok as (c & _ & Hok).
    apply bind_ok in Hok as ([st1 s] & Hbr & [= <-]).
    unfold set_claims. rewrite escrow_set_claims.
    destruct (claim_status c); try done; case_match; try done; ok_inv; simplify_eq;
      first [by eapply resolve_escrow | by eapply award_escrow].
Qed.

(** ** Lifecycle *)

(** The edges of the life of the claim at [id], with the event that takes each
    and its guards: the event names this claim, a challenge is signed by a
    challenger that is not the proposer and covers its bond, inside the window
    and with a response deadline in range; an answer comes in time, from the
    enrolled verifier; the deadline that an advance resolves has elapsed. *)
Inductive lifecycle (auth : A) (st : OptimisticState) (e : event) (id : string) (c : Claim) : ClaimStatus -> Prop :=
  | life_challenged now r d :
      e = EChallenge r now -> hex_encode (chal_claim r) = id ->
      challenge_signing_digest r = Ok d -> auth_verify auth (chal_challenger r) d (chal_signature r) = Ok tt ->
      claim_status c = Pending -> claim_accepted_at c <= now < claim_challenge_deadline c ->
      chal_challenger r <> pol_proposer (claim_policy c) ->
      now + pol_response_window_seconds (claim_policy c) <= U64_MAX ->
      pol_challenger_bond (claim_policy c) <= available (bond st (pol_bond_asset (claim_policy c)) (chal_challenger r)) ->
      lifecycle auth st e id c (Challenged (chal_challenger r) (now + pol_response_window_seconds (claim_policy c)))
  | life_proven ch rd claim proof v now :
      e = EAnswer claim proof v now -> hex_encode claim = id -> claim_status c = Challenged ch rd ->
      claim_accepted_at c <= now < rd -> verifier_id v = pol_verifier (claim_policy c) ->
      challenge_verify v (prop_context (claim_proposal c)) proof
        = Ok (prop_output_root (claim_proposal c)) ->
      lifecycle auth st e id c (Proven (sha256 proof))
  | life_refuted ch rd claim proof v now output :
      e = EAnswer claim proof v now -> hex_encode claim = id -> claim_status c = Challenged ch rd ->
      claim_accepted_at c <= now < rd -> verifier_id v = pol_verifier (claim_policy c) ->
      challenge_verify v (prop_context (claim_proposal c)) proof = Ok output ->
      output <> prop_output_root (claim_proposal c) ->
      lifecycle auth st e id c (Rejected ch (Some (sha256 proof)))
  | life_timeout ch rd claim now :
      e = EAdvance claim now -> hex_encode claim = id -> claim_status c = Challenged ch rd -> rd <= now ->
      lifecycle auth st e id c (Rejected ch None)
  | life_unchallenged claim now :
      e = EAdvance claim now -> hex_encode claim = id -> claim_status c = Pending -> claim_challenge_deadline c <= now ->
      lifecycle auth st e id c (Finalized None)
  | life_defended pf claim now :
      e = EAdvance claim now -> hex_encode claim = id -> claim_status c = Proven pf -> claim_challenge_deadline c <= now ->
      lifecycle auth st e id c (Finalized (Some pf)).

Lemma lock_claims st a o amount st' : lock st a o amount = Ok st' -> claims st' = claims st.
Proof. intros Hok. apply lock_spec in Hok as ([-> _ _] & _). done. Qed.

Lemma award_claims st a from to amount st' :
  award st a from to amount = Ok st' -> claims st' = claims st.
Proof. intros Hok. apply award_spec in Hok as ([-> _ _] & _). done. Qed.

Lemma resolve_claims st p ch st' :
  resolve_bonds st p ch false = Ok st' -> claims st' = claims st.
Proof. intros Hok. apply resolve_spec in Hok as [-> _ _]. done. Qed.

(** The one claim an event touches, if any. *)
Lemma event_claims auth st e st' :
  apply_event auth st e = Ok st' ->
  claims st' = claims st
  \/ (exists id c, claims st !! id = None /\ claims st' = <[id := c]> (claims st)
       /\ claim_status c = Pending)
  \/ (exists id c s, claims st !! id = Some c /\ lifecycle auth st e id c s
       /\ claims st' = <[id := with_status c s]> (claims st)).
Proof.
  intros Hok. destruct e; cbn [apply_event] in Hok.
  - left. unfold enroll_policy in Hok. ok_inv. by subst.
  - left. unfold register_execution in Hok. ok_inv. by subst.
  - left. apply credit_spec in Hok as ([-> _ _] & _). done.
  - left. apply withdraw_spec in Hok as ([-> _ _] & _). done.
  - right; left. unfold propose in Hok. ok_inv. subst. bool_inv.
    do 2 eexists. split; [by apply eq_None_not_Some|].
    cbn [fst set_claims_jobs claims]. by erewrite lock_claims.
  - right; right. unfold challenge in Hok. ok_inv. subst. bool_inv.
    match goal with H : checked_add _ _ = Some _ |- _ => apply checked_add_some in H as [-> ?] end.
    match goal with H : lock _ _ _ _ = Ok _ |- _ => pose proof (lock_spec _ _ _ _ _ H) as (_ & ? & _) end.
    match goal with H : auth_verify _ _ _ _ = Ok ?u |- _ => destruct u end.
    do 3 eexists. split; [done|]. split; [by eapply life_challenged|].
    cbn [set_claims set_claims_jobs claims]. by erewrite lock_claims.
  - right; right. unfold answer in Hok. apply bind_ok in Hok as (c & Hc & Hok).
    apply ok_or_ok in Hc. destruct (claim_status c) eqn:Hs; try done. ok_inv. subst. bool_inv.
    exists (hex_encode id), c. case_bool_decide; ok_inv; simplify_eq; eexists;
      (split; [done|]; split; [|cbn [set_claims set_claims_jobs claims];
        first [by erewrite award_claims by eassumption
              |by erewrite resolve_claims by eassumption]]).
    + by eapply life_proven.
    + by eapply life_refuted.
  - right; right. unfold advance in Hok. apply bind_ok in Hok as (c & Hc & Hok).
    apply ok_or_ok in Hc. apply bind_ok in Hok as ([st1 s] & Hbr & [= <-]).
    exists (hex_encode id), c, s.
    destruct (claim_status c) eqn:Hs; try done; case_match; try done; ok_inv; simplify_eq;
      bool_inv; (split; [done|]; split; [|cbn [set_claims set_claims_jobs claims];
        first [by erewrite award_claims by eassumption
              |by erewrite resolve_claims by eassumption]]).
    + by eapply life_unchallenged.
    + by eapply life_timeout.
    + by eapply life_defended.
Qed.

Lemma claim_step auth st e id c :
  claims st !! id = Some c ->
  claims (next_state auth st e) !! id = Some c
  \/ exists s, lifecycle auth st e id c s /\ claims (next_state auth st e) !! id = Some (with_status c s).
Proof.
  intros Hid. unfold next_state. destruct (apply_event auth st e) as [st'|] eqn:Hok; [|by left].
  apply event_claims in Hok as [->|[(id' & c' & Hnone & -> & _)|(id' & c' & s & Hid' & Hl & ->)]].
  - by left.
  - left. rewrite lookup_insert_ne; congruence.
  - destruct (decide (id' = id)) as [->|Hne].
    + right. rewrite lookup_insert_eq. exists s. split; congruence.
    + left. by rewrite lookup_insert_ne.
Qed.

(** C11: A claim is never removed or rewritten: each operation leaves it
    as it was or moves its status along one edge of the lifecycle, under
    the guards of that edge (the event names this claim; the signature, the
    window and the bond of a challenge; the time, the verifier and the output of
    an answer; the elapsed deadline of an advance), and keeps its proposal,
    policy, acceptance time and deadline. *)
Theorem claim_moves_along_lifecycle auth st e id c :
  claims st !! id = Some c ->
  exists s, claims (next_state auth st e) !! id = Some (with_status c s)
    /\ (s = claim_status c \/ lifecycle auth st e id c s).
Proof.
  intros Hid. destruct (claim_step auth st e id c Hid) as [Hn|(s & Hl & Hn)].
  - exists (claim_status c). rewrite with_status_id. auto.
  - eauto.
Qed.

(** A predicate on claims that every lifecycle edge keeps holds along a run. *)
Lemma claim_run auth (P : Claim -> Prop) es :
  (forall st e id c s, P c -> lifecycle auth st e id c s -> P (with_status c s)) ->
  forall st id c, claims st !! id = Some c -> P c ->
  exists c', claims (run auth st es) !! id = Some c' /\ P c'.
Proof.
  intros HP. induction es as [|e es IH]; intros st id c Hid Hc; [by eauto|].
  cbn. destruct (claim_step auth st e id c Hid) as [Hn|(s & Hl & Hn)]; eauto.
Qed.

Lemma terminal_run auth es st id c :
  claims st !! id = Some c ->
  (exists pf, claim_status c = Finalized pf) \/ (exists ch pf, claim_status c = Rejected ch pf) ->
  claims (run auth st es) !! id = Some c.
Proof.
  intros Hid Ht. destruct (claim_run auth (fun c' => c' = c) es) with st id c
    as (c' & Hc' & ->); try done.
  intros st' e id' c' s -> Hl. exfalso.
  destruct Ht as [[pf Ht]|(ch & pf & Ht)]; destruct Hl; congruence.
Qed.

(** C12: A settlement, once granted, is never taken back: if
    [require_finalized] accepts a claim for a context and output, it returns
    the same claim after every further sequence of operations. *)
Theorem settlement_is_final auth st es id context output c :
  require_finalized st id context output = Ok c ->
  require_finalized (run auth st es) id context output = Ok c.
Proof.
  unfold require_finalized, claim_of. intros Hok. ok_inv. subst. rename H0 into Hcond.
  rewrite (terminal_run auth es st _ c H).
  - cbn. by rewrite Hcond.
  - left. bool_inv. destruct (claim_status c); try done. eauto.
Qed.

(** A rejected claim never settles: after every further sequence of
    operations [require_finalized] refuses it, whatever context and output
    the settlement expects. *)
Theorem rejected_never_settles auth st es id c ch pf context output :
  claim_of st id = Some c -> claim_status c = Rejected ch pf ->
  require_finalized (run auth st es) id context output
    = Err "optimistic execution is not finalized for this settlement".
Proof.
  intros Hid Hs. unfold require_finalized, claim_of.
  rewrite (terminal_run auth es st _ c Hid) by eauto. cbn. rewrite Hs. cbn.
  by rewrite !orb_true_r.
Qed.

(** A proven claim keeps its proposal, its policy and the digest of its proof. *)
Lemma proven_run auth es st k c c' d pf :
  claims st !! k = Some c -> claim_status c = Proven d ->
  claims (run auth st es) !! k = Some c' -> claim_status c' = Finalized pf ->
  claim_proposal c' = claim_proposal c /\ pf = Some d.
Proof.
  intros Hc Hs Hc' Hs'.
  destruct (claim_run auth (fun x => claim_proposal x = claim_proposal c
    /\ (claim_status x = Proven d \/ claim_status x = Finalized (Some d))) es) with st k c as (x & Hx & Hp & Hd); [|done|by auto|].
  - intros st1 e k1 x s [Hp Hd] Hl. split; [exact Hp|]. cbn [with_status claim_status].
    destruct Hd as [Hd|Hd]; destruct Hl; simplify_eq; try congruence. right. congruence.
  - rewrite Hc' in Hx. injection Hx as <-. split; [done|]. destruct Hd; congruence.
Qed.

(** The operation of the run that answered a challenge: it was accepted, while
    the claim was as given, in time and with the enrolled verifier. *)
Definition challenge_answered (auth : A) (st : OptimisticState) (es : list event) (id : bytes) (c : Claim) (rd : N) (proof : bytes) : Prop :=
  exists before after v now, es = before ++ EAnswer id proof v now :: after
    /\ claim_of (run auth st before) id = Some c
    /\ is_ok (answer (run auth st before) id proof v now) = true
    /\ now < rd /\ verifier_id v = pol_verifier (claim_policy c)
    /\ challenge_verify v (prop_context (claim_proposal c)) proof = Ok (prop_output_root (claim_proposal c)).

(** A claim under challenge that is finalized later keeps its proposal, and an
    operation of the run answered the challenge with a proof of its output, whose
    digest the claim records. *)
Lemma challenged_needs_proof auth es : forall st id c c' ch rd pf,
  claim_of st id = Some c -> claim_status c = Challenged ch rd ->
  claim_of (run auth st es) id = Some c' -> claim_status c' = Finalized pf ->
  claim_proposal c' = claim_proposal c
  /\ exists proof, pf = Some (sha256 proof) /\ challenge_answered auth st es id c rd proof.
Proof.
  induction es as [|e es IH]; intros st id c c' ch rd pf Hc Hs Hc' Hs'; [cbn in Hc'; congruence|].
  cbn in Hc'. destruct (claim_step auth st e (hex_encode id) c Hc) as [Hn|(s & Hl & Hn)].
  - destruct (IH (next_state auth st e) id c c' ch rd pf Hn Hs Hc' Hs') as (Hp & proof & -> & before & after & v & now & -> & Hr).
    split; [done|]. exists proof. split; [done|]. exists (e :: before), after, v, now. split; [done|]. exact Hr.
  - destruct Hl as [|ch' rd' claim proof v now -> Hid Hch Hnow Hver Hout|ch' rd' claim proof v now out -> Hid Hch Hnow Hver Hout Hne|ch' rd' claim now -> Hid Hch| |]; try congruence.
    + apply hex_inj in Hid as ->. destruct (proven_run auth es _ _ _ _ _ _ Hn eq_refl Hc' Hs') as [Hp ->]. split; [exact Hp|].
      exists proof. split; [done|]. exists [], es, v, now. assert (rd' = rd) as -> by congruence. split_and!; try done; [|apply Hnow].
      cbn [run foldl]. unfold next_state in Hn. cbn [apply_event] in Hn. destruct (answer st id proof v now) as [st'|]; [done|].
      unfold claim_of in Hc. rewrite Hc in Hn. injection Hn as Hn. rewrite Hn in Hs. done.
    + pose proof (terminal_run auth es _ _ _ Hn ltac:(right; eauto)) as Ht. unfold claim_of in Hc'. unfold run in Ht. rewrite Ht in Hc'.
      injection Hc' as <-. done.
    + pose proof (terminal_run auth es _ _ _ Hn ltac:(right; eauto)) as Ht. unfold claim_of in Hc'. unfold run in Ht. rewrite Ht in Hc'.
      injection Hc' as <-. done.
Qed.

(** ** Progress *)

Lemma account_value_le asset st k : account_value asset k (bond_at st k) <= escrow_of asset st.
Proof.
  unfold bond_at. destruct (bonds st !! k) as [b|] eqn:Hk; cbn.
  - apply (map_sum_elem_le (account_value asset) _ _ _ Hk).
  - unfold account_value. case_match; cbn; lia.
Qed.

Lemma award_succeeds st a from to amount :
  a <> ZERO32 -> to <> ZERO32 -> amount <> 0 -> amount <= locked (bond st a from) ->
  escrow_of a st <= U64_MAX -> exists st', award st a from to amount = Ok st'.
Proof.
  intros Ha Hto Hnz Hle Hfit. unfold award. rewrite checked_sub_fits by done. cbn.
  fold (debit_state st a from amount).
  pose proof (escrow_insert a st (debit_state st a from amount) _ _ eq_refl) as Hi.
  pose proof (account_value_le a (debit_state st a from amount) (bond_key a to)) as Hv.
  unfold account_value in *. rewrite !asset_account_bond_key in *.
  rewrite bool_decide_eq_true_2 in * by done. fold (bond st a from) in Hi.
  cbn [available locked] in Hi. unfold credit_escrow.
  rewrite !bool_decide_eq_false_2 by done. rewrite (proj2 (N.eqb_neq _ _)) by done. cbn.
  fold (bond (debit_state st a from amount) a to) in Hv. rewrite checked_add_fits by lia. cbn. eauto.
Qed.

Lemma claim_identities auth st id c :
  Inv auth st -> claims st !! id = Some c ->
  pol_bond_asset (claim_policy c) <> ZERO32 /\ pol_proposer (claim_policy c) <> ZERO32.
Proof.
  intros Hinv Hid. destruct (inv_claims _ _ Hinv _ _ Hid) as (key & pid & [_ _ _ _ Hver _ _ _] & _).
  unfold proposal_verify in Hver. apply bind_ok in Hver as (d & Hd & _).
  unfold policy_digest in Hd. apply bind_ok in Hd as ([] & Hval & _).
  unfold policy_validate in Hval. apply if_err_ok in Hval as [Hval _]. bool_inv.
  apply contains_zero_false in H. rewrite !Forall_cons in H. naive_solver.
Qed.

Definition due (c : Claim) (now : N) : Prop :=
  match claim_status c with
  | Pending | Proven _ => claim_challenge_deadline c <= now
  | Challenged _ rd => rd <= now
  | _ => False
  end.

Definition outcome (c : Claim) : ClaimStatus :=
  match claim_status c with
  | Pending => Finalized None
  | Proven pf => Finalized (Some pf)
  | Challenged ch _ => Rejected ch None
  | s => s
  end.

Lemma release_succeeds auth st id c :
  Inv auth st -> claims st !! id = Some c ->
  escrow_of (pol_bond_asset (claim_policy c)) st <= U64_MAX ->
  (claim_status c = Pending \/ exists pf, claim_status c = Proven pf) ->
  exists st', unlock st (pol_bond_asset (claim_policy c)) (pol_proposer (claim_policy c))
    (pol_proposer_bond (claim_policy c)) = Ok st'.
Proof.
  intros Hinv Hid Hfit Hs. destruct (claim_identities _ _ _ _ Hinv Hid).
  destruct (claim_bonds _ _ _ _ Hinv Hid). apply award_succeeds; auto.
  pose proof (claim_locks_le _ _ _ _ (bond_key (pol_bond_asset (claim_policy c))
    (pol_proposer (claim_policy c))) Hinv Hid) as Hle.
  rewrite claim_locks_of in Hle. unfold own_lock in Hle. rewrite at_key_eq in Hle.
  destruct Hs as [Hs|[pf Hs]]; rewrite Hs in Hle; done.
Qed.

Lemma resolve_succeeds auth st id c ch rd :
  Inv auth st -> claims st !! id = Some c ->
  escrow_of (pol_bond_asset (claim_policy c)) st <= U64_MAX ->
  claim_status c = Challenged ch rd ->
  exists st', resolve_bonds st (claim_policy c) ch false = Ok st'.
Proof.
  intros Hinv Hid Hfit Hs. destruct (claim_identities _ _ _ _ Hinv Hid) as [Ha Hp].
  destruct (claim_bonds _ _ _ _ Hinv Hid).
  destruct (challenged_accounts _ _ _ _ _ _ Hinv Hid Hs) as [[b Hb] _].
  apply (inv_keys _ _ Hinv), bond_key_ok_iff in Hb as [_ [_ Hch]].
  pose proof (fun k => claim_locks_le _ _ _ _ k Hinv Hid) as Hle.
  setoid_rewrite claim_locks_of in Hle. rewrite Hs in Hle. unfold own_lock, challenger_lock in Hle.
  set (own := bond_key (pol_bond_asset (claim_policy c)) (pol_proposer (claim_policy c))) in *.
  set (his := bond_key (pol_bond_asset (claim_policy c)) ch) in *.
  unfold resolve_bonds.
  destruct (award_succeeds st (pol_bond_asset (claim_policy c)) (pol_proposer (claim_policy c))
    ch (pol_proposer_bond (claim_policy c))) as [st1 H1]; auto.
  { specialize (Hle own). rewrite at_key_eq in Hle. unfold bond. fold own. lia. }
  rewrite H1. cbn. apply award_succeeds; auto.
  - apply award_spec in H1 as ([_ _ Hl] & _ & _). specialize (Hl his). specialize (Hle his).
    rewrite (at_key_eq his) in Hle. unfold bond. fold his. fold own in Hl. lia.
  - by rewrite (award_escrow _ _ _ _ _ _ _ H1).
Qed.

(** C14: no claim is stuck: in a valid state whose escrow for the bond
    asset fits in 64 bits, [advance] succeeds on every claim whose deadline
    has elapsed and gives it its outcome (finalized when unchallenged or
    defended, rejected when the challenge went unanswered). *)
Theorem elapsed_deadline_resolves auth st id c now :
  validate st auth = Ok tt -> claim_of st id = Some c ->
  escrow_of (pol_bond_asset (claim_policy c)) st <= U64_MAX -> due c now ->
  exists st', advance st id now = Ok st' /\ claim_of st' id = Some (with_status c (outcome c)).
Proof.
  rewrite validate_iff_Inv. intros Hinv Hid Hfit Hdue. unfold claim_of in Hid.
  unfold advance, claim_of. rewrite Hid. cbn [ok_or mbind result_bind]. unfold due, outcome in *.
  destruct (claim_status c) as [|ch rd|pf|pf|ch pf] eqn:Hs; try done;
    rewrite (proj2 (N.leb_le _ _)) by done.
  - destruct (release_succeeds auth st (hex_encode id) c) as [st' ->]; auto. cbn.
    eexists. split; [done|]. cbn. by rewrite lookup_insert_eq.
  - destruct (resolve_succeeds auth st (hex_encode id) c ch rd) as [st' ->]; auto. cbn.
    eexists. split; [done|]. cbn. by rewrite lookup_insert_eq.
  - destruct (release_succeeds auth st (hex_encode id) c) as [st' ->]; eauto. cbn.
    eexists. split; [done|]. cbn. by rewrite lookup_insert_eq.
Qed.

(** A lost claim pays its challenger: when a challenged claim is
    rejected, by a contradicting proof or by an unanswered deadline, both
    bonds leave the locked side and the challenger's available balance grows
    by exactly their sum, with no other account touched. *)
Theorem rejection_pays_challenger auth st e id c ch rd st' pf :
  (exists now, e = EAdvance id now) \/ (exists proof v now, e = EAnswer id proof v now) ->
  claim_of st id = Some c -> claim_status c = Challenged ch rd ->
  apply_event auth st e = Ok st' ->
  claim_of st' id = Some (with_status c (Rejected ch pf)) ->
  let p := claim_policy c in
  let own := bond_key (pol_bond_asset p) (pol_proposer p) in
  let his := bond_key (pol_bond_asset p) ch in
  forall k,
    available (bond_at st' k) =
      available (bond_at st k) + at_key k his (pol_proposer_bond p + pol_challenger_bond p)
    /\ locked (bond_at st' k) + at_key k own (pol_proposer_bond p)
         + at_key k his (pol_challenger_bond p) = locked (bond_at st k).
Proof.
  intros He Hid Hs Hok Hid'. intros p own his.
  assert (exists st1, resolve_bonds st p ch false = Ok st1 /\ bonds st' = bonds st1) as (st1 & Hr & Hb).
  { destruct He as [[now ->]|(proof & v & now & ->)]; cbn [apply_event] in Hok.
    - unfold advance in Hok. rewrite Hid in Hok. cbn [ok_or mbind result_bind] in Hok.
      rewrite Hs in Hok. case_match; [|done]. ok_inv. simplify_eq. eauto.
    - unfold answer in Hok. rewrite Hid in Hok. cbn [ok_or mbind result_bind] in Hok.
      rewrite Hs in Hok. ok_inv. subst. case_bool_decide; ok_inv; simplify_eq; [|eauto].
      unfold claim_of in Hid'. cbn in Hid'. rewrite lookup_insert_eq in Hid'. done. }
  apply resolve_spec in Hr as [_ Ha Hl]. intros k. specialize (Ha k). specialize (Hl k).
  unfold bond_at in *. rewrite Hb. fold own his in Ha, Hl. unfold at_key in *.
  repeat case_bool_decide; lia.
Qed.

(** One execution has at most one claim: in a valid state two claims
    whose contexts have the same job key are the same claim, so a result
    cannot be proposed twice. *)
Theorem one_claim_per_job auth st id1 id2 c1 c2 key :
  validate st auth = Ok tt ->
  claims st !! id1 = Some c1 -> claims st !! id2 = Some c2 ->
  job_key (prop_context (claim_proposal c1)) = Ok key ->
  job_key (prop_context (claim_proposal c2)) = Ok key ->
  id1 = id2 /\ c1 = c2.
Proof.
  rewrite validate_iff_Inv. intros Hinv H1 H2 Hk1 Hk2.
  destruct (inv_claims _ _ Hinv _ _ H1) as (k1 & p1 & [? ? -> ? ? Hj1 ? ?] & Hjob1).
  destruct (inv_claims _ _ Hinv _ _ H2) as (k2 & p2 & [? ? -> ? ? Hj2 ? ?] & Hjob2).
  assert (p1 = p2) as -> by congruence. split; congruence.
Qed.

(** Every dispute ends before the execution it is about expires: in
    a valid state a claim's challenge deadline, and the response deadline of
    an open challenge, lie within the registered execution's validity. *)
Theorem dispute_within_execution auth st id c :
  validate st auth = Ok tt -> claims st !! id = Some c ->
  exists e key, executions st !! key = Some e /\ exe_context e = prop_context (claim_proposal c)
    /\ claim_challenge_deadline c + pol_response_window_seconds (claim_policy c)
         <= exe_valid_until e
    /\ (forall ch rd, claim_status c = Challenged ch rd -> rd < exe_valid_until e).
Proof.
  rewrite validate_iff_Inv. intros Hinv Hid.
  destruct (inv_claims _ _ Hinv _ _ Hid) as (key & pid & [? ? ? ? ? ? He Hst] & _).
  destruct He as (e & He & Hctx & _ & _ & stop & Hstop & Hle).
  apply checked_add_some in Hstop as [-> _].
  exists e, key. repeat split; [done..|]. intros ch rd Hs. unfold status_ok in Hst.
  rewrite Hs in Hst. destruct Hst as (start & -> & _ & ? & _). lia.
Qed.
End Events.
