(* ===== verification/Wire.v ===== *)
(** * Fixed frames and additive shares

    Model of [zkpi-committee/src/wire.rs] and its properties: limb arithmetic
    computes addition and subtraction modulo the scalar-field order; byte
    encodings of field elements and frames round-trip; the MAC check is equality
    with the expected MAC; shares reconstruct the values they were made from. *)

From S2P Require Import Prelude.
From S2P Require Import Interfaces.

(** ** The model

    Model of rust/zkpi-committee/src/wire.rs: field elements as four 64-bit
    limbs with the carry and borrow loops of the code, the constant-size frame
    and its HMAC, and the additive sharing of a request over the nodes.  The
    random generator is an explicit state; the rejection loop of [random] runs
    on fuel, [None] meaning that it has not returned yet. *)

(** ** Constants *)

Definition MAGIC : bytes := bstr "QOMMWIRE".
Definition VERSION : byte := x04.
Definition PAYLOAD_BYTES : nat := 448.
Definition MAC_BYTES : nat := 32.
Definition HEADER_BYTES : nat := 8 + 1 + 4 + 2.
Definition FRAME_BYTES : nat := HEADER_BYTES + PAYLOAD_BYTES + MAC_BYTES.

Inductive WireError : Type :=
  | PayloadSize
  | FrameSize (n : nat)
  | Header
  | Node
  | RequestSize
  | NodeCount
  | BadFieldElement.

(** ** Field elements *)

(** Four little-endian limbs. *)
Abbreviation FieldElement := (list N) (only parsing).

Definition TWO64 : N := 0x10000000000000000.

Definition FIELD : FieldElement :=
  [0x5812631a5cf5d3ed; 0x14def9dea2f79cd6; 0x0000000000000000; 0x1000000000000000].

Definition ZERO_FE : FieldElement := [0; 0; 0; 0].

(** [u64::overflowing_add] and [u64::overflowing_sub]. *)
Definition overflowing_add (a b : N) : N * bool := ((a + b) mod TWO64, TWO64 <=? a + b).
Definition overflowing_sub (a b : N) : N * bool := ((a + TWO64 - b) mod TWO64, a <? b).

(** [Ord for FieldElement]: the limbs compared from the most significant. *)
Fixpoint lex_cmp (a b : list N) : comparison :=
  match a, b with
  | [], [] => Eq
  | [], _ :: _ => Lt
  | _ :: _, [] => Gt
  | x :: a, y :: b => match x ?= y with Eq => lex_cmp a b | c => c end
  end.
Definition fe_cmp (a b : FieldElement) : comparison := lex_cmp (reverse a) (reverse b).
Definition fe_ge (a b : FieldElement) : bool :=
  match fe_cmp a b with Lt => false | _ => true end.

Definition from_u64 (value : N) : FieldElement := [value; 0; 0; 0].
Definition from_u128 (value : N) : FieldElement :=
  [value mod TWO64; N.shiftr value 64 mod TWO64; 0; 0].
Definition as_u128 (x : FieldElement) : option N :=
  match x with
  | [a; b; c; d] => if (c =? 0) && (d =? 0) then Some (N.lor a (N.shiftl b 64)) else None
  | _ => None
  end.

(** [rchunks_exact(8)]: eight-byte chunks from the end. *)
Definition rchunks8 (b : bytes) : list bytes :=
  [slice 24 32 b; slice 16 24 b; slice 8 16 b; slice 0 8 b].

Definition from_be_bytes (b : bytes) : result WireError FieldElement :=
  let value := of_be_bytes <$> rchunks8 b in
  if fe_ge value FIELD then Err BadFieldElement else Ok value.

Definition to_be_bytes (x : FieldElement) : bytes := concat (be_bytes 8 <$> reverse x).

Fixpoint add_limbs (l r : list N) (carry : bool) : list N * bool :=
  match l, r with
  | x :: l, y :: r =>
      let (first, a) := overflowing_add x y in
      let (second, b) := overflowing_add first (if carry then 1 else 0) in
      let (out, carry') := add_limbs l r (a || b) in
      (second :: out, carry')
  | _, _ => ([], carry)
  end.
Definition add_raw (left right : FieldElement) : FieldElement * bool := add_limbs left right false.

Fixpoint sub_limbs (l r : list N) (borrow : bool) : list N * bool :=
  match l, r with
  | x :: l, y :: r =>
      let (first, a) := overflowing_sub x y in
      let (second, b) := overflowing_sub first (if borrow then 1 else 0) in
      let (out, borrow') := sub_limbs l r (a || b) in
      (second :: out, borrow')
  | _, _ => ([], borrow)
  end.
Definition sub_raw (left right : FieldElement) : FieldElement * bool := sub_limbs left right false.

Definition add_mod (a b : FieldElement) : FieldElement :=
  let sum := fst (add_raw a b) in
  if fe_ge sum FIELD then fst (sub_raw sum FIELD) else sum.

Definition sub_mod (a b : FieldElement) : FieldElement :=
  if fe_ge a b then fst (sub_raw a b)
  else fst (sub_raw FIELD (fst (sub_raw b a))).

(** ** Frames *)

Record Frame := mkFrame {
  frame_slot : N;
  frame_node : N;
  frame_payload : bytes;
  frame_mac_bytes : bytes
}.

Definition encode (f : Frame) : bytes :=
  MAGIC ++ [VERSION] ++ be_bytes 4 (frame_slot f) ++ be_bytes 2 (frame_node f)
  ++ frame_payload f ++ frame_mac_bytes f.

Definition decode (raw : bytes) : result WireError Frame :=
  if negb (bool_decide (length raw = FRAME_BYTES)) then Err (FrameSize (length raw))
  else if negb (bool_decide (slice 0 8 raw = MAGIC))
          || negb (bool_decide (slice 8 9 raw = [VERSION])) then Err Header
  else Ok (mkFrame (of_be_bytes (slice 9 13 raw)) (of_be_bytes (slice 13 15 raw))
             (slice HEADER_BYTES (HEADER_BYTES + PAYLOAD_BYTES) raw)
             (slice (HEADER_BYTES + PAYLOAD_BYTES) (length raw) raw)).

Section Mac.
Context {SHA : Sha256}.

(** The key block: hashed when longer than 64 bytes, zero-padded to 64. *)
Definition hmac_block (key : bytes) : bytes :=
  let k := if bool_decide (64 < length key)%nat then sha256 key else key in
  k ++ replicate (64 - length k) x00.

Definition xor_pad (pad : byte) (block : bytes) : bytes := lxor_byte pad <$> block.

Definition hmac_sha256 (key body : bytes) : bytes :=
  let block := hmac_block key in
  sha256 (xor_pad x5c block ++ sha256 (xor_pad x36 block ++ body)).

Definition frame_mac (key : bytes) (slot node : N) (payload : bytes) : bytes :=
  hmac_sha256 key (MAGIC ++ [VERSION] ++ be_bytes 4 slot ++ be_bytes 2 node ++ payload).

Definition frame_new (slot node : N) (payload key : bytes) : result WireError Frame :=
  if U16_MAX <? node then Err Node
  else Ok (mkFrame slot node payload (frame_mac key slot node payload)).

(** The comparison accumulates the differences of all bytes. *)
Definition frame_is_authentic (key : bytes) (f : Frame) : bool :=
  let expected := frame_mac key (frame_slot f) (frame_node f) (frame_payload f) in
  Byte.eqb
    (foldl (fun difference lr => lor_byte difference (lxor_byte lr.1 lr.2)) x00
       (zip expected (frame_mac_bytes f)))
    x00.
End Mac.

(** ** Sharing *)

Section Share.
Context {R : Type} {RNG : RngCore R}.

Definition mask_top (b : bytes) : bytes :=
  match b with
  | x :: b => byte_of_N (N.land (Byte.to_N x) 0x1f) :: b
  | [] => []
  end.

Fixpoint random (fuel : nat) (rng : R) : option (FieldElement * R) :=
  match fuel with
  | O => None
  | S fuel =>
      let (raw, rng) := fill_bytes 32 rng in
      match from_be_bytes (mask_top raw) with
      | Ok value => Some (value, rng)
      | Err _ => random fuel rng
      end
  end.

(** The inner loop: [n] random shares and their running sum. *)
Fixpoint random_shares (fuel n : nat) (sum : FieldElement) (rng : R) :
    option (list FieldElement * FieldElement * R) :=
  match n with
  | O => Some ([], sum, rng)
  | S n =>
      '(share, rng) ← random fuel rng;
      '(shares, sum, rng) ← random_shares fuel n (add_mod sum share) rng;
      Some (share :: shares, sum, rng)
  end.

Fixpoint share_columns (fuel n_nodes : nat) (values : list FieldElement) (rng : R) :
    option (list (list FieldElement) * R) :=
  match values with
  | [] => Some ([], rng)
  | value :: values =>
      '(shares, sum, rng) ← random_shares fuel (n_nodes - 1) ZERO_FE rng;
      '(columns, rng) ← share_columns fuel n_nodes values rng;
      Some ((shares ++ [sub_mod value sum]) :: columns, rng)
  end.

(** One payload: this node's element of every column, then random bytes. *)
Fixpoint share_payloads (columns : list (list FieldElement)) (nodes : list nat) (rng : R) :
    list bytes :=
  match nodes with
  | [] => []
  | node :: nodes =>
      let (tail, rng) := fill_bytes (PAYLOAD_BYTES - length columns * 32) rng in
      (concat ((fun column => to_be_bytes (nth node column [])) <$> columns) ++ tail)
      :: share_payloads columns nodes rng
  end.

Definition share_field_elements_with_rng (fuel : nat) (values : list FieldElement)
    (n_nodes : nat) (rng : R) : option (result WireError (list bytes)) :=
  if bool_decide (n_nodes < 2)%nat then Some (Err NodeCount)
  else if bool_decide (PAYLOAD_BYTES < length values * 32)%nat then Some (Err RequestSize)
  else
    '(columns, rng) ← share_columns fuel n_nodes values rng;
    Some (Ok (share_payloads columns (seq 0 n_nodes) rng)).

Definition share_request_with_rng (fuel : nat) (values : list N) (n_nodes : nat) (rng : R) :
    option (result WireError (list bytes)) :=
  share_field_elements_with_rng fuel (from_u128 <$> values) n_nodes rng.
End Share.

Definition reconstruct_value (payloads : list bytes) (index : nat) :
    result WireError FieldElement :=
  fold_res (fun total payload =>
    x ← from_be_bytes (slice (index * 32) ((index + 1) * 32) payload);
    Ok (add_mod total x)) ZERO_FE payloads.

Definition reconstruct (payloads : list bytes) (n_values : nat) :
    result WireError (list FieldElement) :=
  if bool_decide (PAYLOAD_BYTES < n_values * 32)%nat then Err RequestSize
  else map_res (reconstruct_value payloads) (seq 0 n_values).

(** ** Value of a limb vector *)

Fixpoint fe_value (l : list N) : N :=
  match l with
  | [] => 0
  | x :: l => x + TWO64 * fe_value l
  end.

Definition limbs_ok (l : list N) : Prop := Forall (fun x => x < TWO64) l.
Definition fe_ok (x : list N) : Prop := length x = 4%nat /\ limbs_ok x.

(** The scalar-field order. *)
Definition ORDER : N := fe_value FIELD.
Definition canonical (x : list N) : Prop := fe_ok x /\ fe_value x < ORDER.

Lemma FIELD_ok : fe_ok FIELD.
Proof. split; [done|]. repeat constructor. Qed.

Lemma fe_ok_inv x : fe_ok x -> exists a b c d,
  x = [a; b; c; d] /\ a < TWO64 /\ b < TWO64 /\ c < TWO64 /\ d < TWO64.
Proof.
  intros [Hl Hx]. destruct x as [|a [|b [|c [|d [|]]]]]; try done.
  unfold limbs_ok in Hx. rewrite !Forall_cons in Hx. naive_solver.
Qed.

Lemma limbs_value_bound l : limbs_ok l -> fe_value l < TWO64 ^ N.of_nat (length l).
Proof.
  induction 1 as [|x l Hx Hl IH]; cbn [fe_value length]; [cbn; lia|].
  rewrite Nat2N.inj_succ, N.pow_succ_r'. unfold TWO64 in *. lia.
Qed.

Lemma fe_value_inj l r :
  length l = length r -> limbs_ok l -> limbs_ok r -> fe_value l = fe_value r -> l = r.
Proof.
  revert r. induction l as [|x l IH]; intros [|y r] Hlen Hl Hr Heq; try done.
  apply Forall_cons in Hl as [Hx Hl]. apply Forall_cons in Hr as [Hy Hr].
  cbn [fe_value] in Heq. assert (x = y /\ fe_value l = fe_value r) as [-> Heq'].
  { unfold TWO64 in *. lia. }
  f_equal. apply IH; auto.
Qed.

(** ** Comparison *)

Lemma lex_cmp_snoc l r x y :
  length l = length r ->
  lex_cmp (l ++ [x]) (r ++ [y]) = match lex_cmp l r with Eq => x ?= y | c => c end.
Proof.
  revert r. induction l as [|a l IH]; intros [|b r] Hlen; try done; cbn.
  - by destruct (x ?= y).
  - destruct (a ?= b); auto.
Qed.

Lemma fe_cmp_spec l r :
  length l = length r -> limbs_ok l -> limbs_ok r -> fe_cmp l r = (fe_value l ?= fe_value r).
Proof.
  unfold fe_cmp. revert r. induction l as [|x l IH]; intros [|y r] Hlen Hl Hr; try done.
  apply Forall_cons in Hl as [Hx Hl]. apply Forall_cons in Hr as [Hy Hr].
  rewrite !reverse_cons, lex_cmp_snoc by (rewrite !length_reverse; auto).
  rewrite IH by auto. cbn [fe_value]. unfold TWO64 in *.
  destruct (N.compare_spec (fe_value l) (fe_value r)) as [He|Hlt|Hgt].
  - rewrite He. destruct (N.compare_spec x y); symmetry;
      rewrite ?N.compare_eq_iff, ?N.compare_lt_iff, ?N.compare_gt_iff; lia.
  - symmetry. apply N.compare_lt_iff. lia.
  - symmetry. apply N.compare_gt_iff. lia.
Qed.

Lemma fe_ge_spec l r : fe_ok l -> fe_ok r -> fe_ge l r = (fe_value r <=? fe_value l).
Proof.
  intros [Hl1 Hl2] [Hr1 Hr2]. unfold fe_ge. rewrite fe_cmp_spec by (auto; congruence).
  destruct (N.compare_spec (fe_value l) (fe_value r)), (N.leb_spec (fe_value r) (fe_value l));
    try done; lia.
Qed.

(** ** Carry and borrow loops *)

Lemma overflowing_add_eq a b : a < TWO64 -> b < TWO64 ->
  overflowing_add a b = (if TWO64 <=? a + b then (a + b - TWO64, true) else (a + b, false)).
Proof.
  intros. unfold overflowing_add. destruct (N.leb_spec TWO64 (a + b)) as [Hle|Hlt].
  - f_equal. symmetry. apply N.mod_unique with 1; unfold TWO64 in *; lia.
  - f_equal. by apply N.mod_small.
Qed.

Lemma overflowing_sub_eq a b : a < TWO64 -> b < TWO64 ->
  overflowing_sub a b = (if a <? b then (a + TWO64 - b, true) else (a - b, false)).
Proof.
  intros. unfold overflowing_sub. destruct (N.ltb_spec a b) as [Hlt|Hle].
  - f_equal. apply N.mod_small. lia.
  - f_equal. symmetry. apply N.mod_unique with 1; unfold TWO64 in *; lia.
Qed.

Definition bit (b : bool) : N := if b then 1 else 0.

Lemma bit_lt b : bit b < TWO64.
Proof. destruct b; done. Qed.

Lemma add_limbs_spec l : forall r c out c',
  length l = length r -> limbs_ok l -> limbs_ok r -> add_limbs l r c = (out, c') ->
  length out = length l /\ limbs_ok out
  /\ fe_value out + bit c' * TWO64 ^ N.of_nat (length l) = fe_value l + fe_value r + bit c.
Proof.
  induction l as [|x l IH]; intros [|y r] c out c' Hlen Hl Hr; try done; cbn [add_limbs].
  - intros [= <- <-]. cbn. repeat split; [constructor | lia].
  - apply Forall_cons in Hl as [Hx Hl]. apply Forall_cons in Hr as [Hy Hr].
    fold (bit c). rewrite overflowing_add_eq by done.
    destruct (TWO64 <=? x + y) eqn:E1; bool_inv;
      (rewrite overflowing_add_eq by (try apply bit_lt; unfold TWO64 in *; lia));
      (match goal with |- context [TWO64 <=? ?t] => destruct (TWO64 <=? t) eqn:E2 end);
      bool_inv; destruct (add_limbs l r _) as [out1 c1] eqn:E; intros [= <- <-];
      (apply IH in E as (Hlo & Hok & Hv); [|auto..]); cbn [length fe_value orb] in *;
      rewrite Hlo; rewrite Nat2N.inj_succ, N.pow_succ_r';
      pose proof (bit_lt c); assert (bit c <= 1) by (destruct c; cbn; lia);
      (split; [done|]; split; [constructor; [|done]|]);
      destruct c1; cbn [bit] in *; unfold TWO64 in *; lia.
Qed.

Lemma sub_limbs_spec l : forall r c out c',
  length l = length r -> limbs_ok l -> limbs_ok r -> sub_limbs l r c = (out, c') ->
  length out = length l /\ limbs_ok out
  /\ fe_value out + fe_value r + bit c = fe_value l + bit c' * TWO64 ^ N.of_nat (length l).
Proof.
  induction l as [|x l IH]; intros [|y r] c out c' Hlen Hl Hr; try done; cbn [sub_limbs].
  - intros [= <- <-]. cbn. repeat split; [constructor | lia].
  - apply Forall_cons in Hl as [Hx Hl]. apply Forall_cons in Hr as [Hy Hr].
    fold (bit c). rewrite overflowing_sub_eq by done.
    destruct (x <? y) eqn:E1; bool_inv;
      (rewrite overflowing_sub_eq by (try apply bit_lt; unfold TWO64 in *; lia));
      (match goal with |- context [?t <? bit c] => destruct (t <? bit c) eqn:E2 end);
      bool_inv; destruct (sub_limbs l r _) as [out1 c1] eqn:E; intros [= <- <-];
      (apply IH in E as (Hlo & Hok & Hv); [|auto..]); cbn [length fe_value orb] in *;
      rewrite Hlo; rewrite Nat2N.inj_succ, N.pow_succ_r';
      pose proof (bit_lt c); assert (bit c <= 1) by (destruct c; cbn; lia);
      (split; [done|]; split; [constructor; [|done]|]);
      destruct c1; cbn [bit] in *; unfold TWO64 in *; lia.
Qed.

Lemma add_raw_ok a b :
  fe_ok a -> fe_ok b -> fe_value a + fe_value b < TWO64 ^ 4 ->
  fe_ok (fst (add_raw a b)) /\ fe_value (fst (add_raw a b)) = fe_value a + fe_value b
  /\ snd (add_raw a b) = false.
Proof.
  intros [Ha1 Ha2] [Hb1 Hb2] Hlt. unfold add_raw.
  destruct (add_limbs a b false) as [out c] eqn:E. cbn [fst snd].
  apply add_limbs_spec in E as (Hlen & Hok & Hv); [|congruence|done..].
  rewrite Ha1 in *. change (N.of_nat 4) with 4 in Hv. destruct c; cbn [bit] in Hv.
  - exfalso. lia.
  - repeat split; auto. lia.
Qed.

Lemma sub_raw_ok a b :
  fe_ok a -> fe_ok b -> fe_value b <= fe_value a ->
  fe_ok (fst (sub_raw a b)) /\ fe_value (fst (sub_raw a b)) = fe_value a - fe_value b
  /\ snd (sub_raw a b) = false.
Proof.
  intros [Ha1 Ha2] [Hb1 Hb2] Hle. unfold sub_raw.
  destruct (sub_limbs a b false) as [out c] eqn:E. cbn [fst snd].
  apply sub_limbs_spec in E as (Hlen & Hok & Hv); [|congruence|done..].
  rewrite Ha1 in *. change (N.of_nat 4) with 4 in Hv.
  pose proof (limbs_value_bound out Hok) as Hb. rewrite Hlen in Hb. change (N.of_nat 4) with 4 in Hb.
  destruct c; cbn [bit] in Hv.
  - exfalso. lia.
  - repeat split; auto. lia.
Qed.

Lemma ORDER_small : 2 * ORDER < TWO64 ^ 4.
Proof. reflexivity. Qed.

Lemma ORDER_pos : 0 < ORDER.
Proof. reflexivity. Qed.

Lemma mod_once x : x < 2 * ORDER -> x mod ORDER = if ORDER <=? x then x - ORDER else x.
Proof.
  intros Hx. destruct (N.leb_spec ORDER x) as [Hle|Hlt].
  - symmetry. apply N.mod_unique with 1; lia.
  - by apply N.mod_small.
Qed.

Lemma add_mod_spec a b :
  canonical a -> canonical b ->
  canonical (add_mod a b) /\ fe_value (add_mod a b) = (fe_value a + fe_value b) mod ORDER
  /\ snd (add_raw a b) = false.
Proof.
  intros [Ha Hla] [Hb Hlb]. pose proof ORDER_small.
  destruct (add_raw_ok a b Ha Hb) as (Hok & Hv & Hc); [lia|].
  unfold add_mod. rewrite fe_ge_spec by (auto using FIELD_ok). rewrite Hv. fold ORDER.
  rewrite mod_once by lia. destruct (N.leb_spec ORDER (fe_value a + fe_value b)) as [Hle|Hlt].
  - destruct (sub_raw_ok (fst (add_raw a b)) FIELD Hok FIELD_ok) as (Hok' & Hv' & _).
    { fold ORDER. lia. }
    fold ORDER in Hv'. repeat split; auto; try apply Hok'; lia.
  - repeat split; auto; try apply Hok; lia.
Qed.

Lemma sub_mod_spec a b :
  canonical a -> canonical b ->
  canonical (sub_mod a b)
  /\ fe_value (sub_mod a b) = (fe_value a + ORDER - fe_value b) mod ORDER
  /\ (fe_value (sub_mod a b) + fe_value b) mod ORDER = fe_value a.
Proof.
  intros [Ha Hla] [Hb Hlb]. unfold sub_mod. rewrite fe_ge_spec by done.
  destruct (N.leb_spec (fe_value b) (fe_value a)) as [Hle|Hlt].
  - destruct (sub_raw_ok a b Ha Hb Hle) as (Hok & Hv & _). rewrite Hv.
    repeat split; try apply Hok; [lia|..]; rewrite mod_once by lia.
    + destruct (N.leb_spec ORDER (fe_value a + ORDER - fe_value b)); lia.
    + destruct (N.leb_spec ORDER (fe_value a - fe_value b + fe_value b)); lia.
  - destruct (sub_raw_ok b a Hb Ha) as (Hok & Hv & _); [lia|].
    destruct (sub_raw_ok FIELD (fst (sub_raw b a)) FIELD_ok Hok) as (Hok' & Hv' & _).
    { fold ORDER. lia. }
    fold ORDER in Hv'. rewrite Hv', Hv. repeat split; try apply Hok'; [lia|..]; rewrite mod_once by lia.
    + destruct (N.leb_spec ORDER (fe_value a + ORDER - fe_value b)); lia.
    + match goal with |- context [ORDER <=? ?t] => destruct (N.leb_spec ORDER t) end; lia.
Qed.

(** Limb arithmetic is arithmetic in the scalar field: on canonical
    elements [add_mod] and [sub_mod] return canonical elements whose values are
    the sum and the difference modulo the field order, and the raw addition
    never overflows its four limbs (the debug assertion of [add_mod] holds). *)
Theorem field_arithmetic_correct a b :
  canonical a -> canonical b ->
  canonical (add_mod a b) /\ fe_value (add_mod a b) = (fe_value a + fe_value b) mod ORDER
  /\ snd (add_raw a b) = false
  /\ canonical (sub_mod a b)
  /\ fe_value (sub_mod a b) = (fe_value a + ORDER - fe_value b) mod ORDER.
Proof.
  intros Ha Hb. destruct (add_mod_spec a b Ha Hb) as (? & ? & ?).
  destruct (sub_mod_spec a b Ha Hb) as (? & ? & _). done.
Qed.

Lemma canonical_inj a b : canonical a -> canonical b -> fe_value a = fe_value b -> a = b.
Proof. intros [[Ha1 Ha2] _] [[Hb1 Hb2] _]. apply fe_value_inj; [congruence|done..]. Qed.

Lemma ZERO_FE_canonical : canonical ZERO_FE.
Proof. repeat split; repeat constructor. Qed.

(** ** Byte encoding of field elements *)

Lemma to_be_bytes_length x : length x = 4%nat -> length (to_be_bytes x) = 32%nat.
Proof.
  intros Hl. destruct x as [|a [|b [|c [|d [|]]]]]; try done.
Qed.

Lemma rchunks8_app p1 p2 p3 p4 :
  length p1 = 8%nat -> length p2 = 8%nat -> length p3 = 8%nat -> length p4 = 8%nat ->
  rchunks8 (p1 ++ p2 ++ p3 ++ p4) = [p4; p3; p2; p1].
Proof.
  intros H1 H2 H3 H4. unfold rchunks8.
  rewrite (slice_app_skip 24 32 p1), (slice_app_skip 16 24 p1), (slice_app_skip 8 16 p1) by lia.
  rewrite (slice_app_exact 8 p1) by done. rewrite H1. cbn [Nat.sub].
  rewrite (slice_app_skip 16 24 p2), (slice_app_skip 8 16 p2) by lia.
  rewrite (slice_app_exact 8 p2) by done. rewrite H2. cbn [Nat.sub].
  rewrite (slice_app_skip 8 16 p3) by lia. rewrite (slice_app_exact 8 p3) by done.
  rewrite H3. cbn [Nat.sub]. rewrite <- (app_nil_r p4) at 1.
  by rewrite (slice_app_exact 8 p4).
Qed.

Lemma pow256_8 : 256 ^ N.of_nat 8 = TWO64.
Proof. reflexivity. Qed.

Lemma limbs_of_bytes x : fe_ok x -> of_be_bytes <$> rchunks8 (to_be_bytes x) = x.
Proof.
  intros Hx. apply fe_ok_inv in Hx as (a & b & c & d & -> & Ha & Hb & Hc & Hd).
  unfold to_be_bytes. cbn [reverse rev_append fmap list_fmap concat].
  change (reverse [a; b; c; d]) with [d; c; b; a]. cbn [fmap list_fmap concat].
  rewrite app_nil_r, rchunks8_app by apply be_bytes_length. cbn [fmap list_fmap].
  rewrite !of_be_bytes_be_small by (by rewrite pow256_8). done.
Qed.

Lemma rchunks8_ok b : length b = 32%nat -> fe_ok (of_be_bytes <$> rchunks8 b).
Proof.
  intros Hb. split; [done|]. unfold rchunks8, limbs_ok. cbn [fmap list_fmap].
  repeat constructor; rewrite <- pow256_8; apply of_be_bytes_bound'; rewrite slice_length; lia.
Qed.

Lemma to_be_of_be b : length b = 32%nat -> to_be_bytes (of_be_bytes <$> rchunks8 b) = b.
Proof.
  intros Hb. unfold rchunks8, to_be_bytes. cbn [fmap list_fmap].
  match goal with |- context [reverse [?a; ?b; ?c; ?d]] =>
    change (reverse [a; b; c; d]) with [d; c; b; a] end. cbn [fmap list_fmap concat].
  rewrite !be_bytes_of_be' by (rewrite slice_length; lia).
  rewrite app_nil_r, !app_assoc. change (slice 0 8 b) with (take 8 b).
  rewrite <- (slice_split 8 16), <- (slice_split 16 24), <- (slice_split 24 32) by lia.
  rewrite take_ge by lia. done.
Qed.

Lemma from_be_bytes_ok b x :
  length b = 32%nat -> (from_be_bytes b = Ok x <-> canonical x /\ to_be_bytes x = b).
Proof.
  intros Hb. unfold from_be_bytes. pose proof (rchunks8_ok b Hb) as Hok.
  rewrite fe_ge_spec by (auto using FIELD_ok). fold ORDER. rewrite if_err_ok. split.
  - intros [Hlt [= <-]]. bool_inv. split; [by split | by apply to_be_of_be].
  - intros [[Hx Hlt] <-]. rewrite limbs_of_bytes in * by done. split; [|done].
    apply N.leb_gt. lia.
Qed.

Lemma from_to_be x : canonical x -> from_be_bytes (to_be_bytes x) = Ok x.
Proof. intros Hx. apply from_be_bytes_ok; [apply to_be_bytes_length, Hx | done]. Qed.

(** Field elements travel canonically: a 32-byte string is accepted
    exactly when it is the encoding of an element below the field order, and
    the accepted element is the one it encodes. *)
Theorem field_element_roundtrip b x :
  length b = 32%nat -> (from_be_bytes b = Ok x <-> canonical x /\ to_be_bytes x = b).
Proof. intros Hb. by rewrite from_be_bytes_ok. Qed.

(** ** Frames *)

Ltac wire_lia :=
  unfold FRAME_BYTES, HEADER_BYTES, PAYLOAD_BYTES, MAC_BYTES in *; lia.

Definition frame_ok (f : Frame) : Prop :=
  frame_slot f < 256 ^ 4 /\ frame_node f < 256 ^ 2
  /\ length (frame_payload f) = PAYLOAD_BYTES /\ length (frame_mac_bytes f) = MAC_BYTES.

Lemma encode_length f : frame_ok f -> length (encode f) = FRAME_BYTES.
Proof.
  intros (_ & _ & Hp & Hm). unfold encode. rewrite !length_app, !be_bytes_length, Hp, Hm. done.
Qed.

Lemma decode_encode f : frame_ok f -> decode (encode f) = Ok f.
Proof.
  intros Hf. pose proof (encode_length f Hf) as Hlen. destruct Hf as (Hs & Hn & Hp & Hm).
  unfold decode. rewrite Hlen, bool_decide_eq_true_2 by done. cbn [negb].
  destruct f as [slot node payload mac]. unfold encode in *. cbn [frame_slot frame_node
    frame_payload frame_mac_bytes] in *.
  set (s := be_bytes 4 slot). set (n := be_bytes 2 node).
  assert (length s = 4%nat) as Hls by apply be_bytes_length.
  assert (length n = 2%nat) as Hln by apply be_bytes_length.
  rewrite (slice_app_exact 8 MAGIC), (slice_mid 8 9 MAGIC [VERSION]) by done.
  rewrite !bool_decide_eq_true_2 by done. cbn [negb orb].
  replace (MAGIC ++ [VERSION] ++ s ++ n ++ payload ++ mac)
    with ((MAGIC ++ [VERSION]) ++ s ++ n ++ payload ++ mac) by (by rewrite <- app_assoc).
  rewrite (slice_mid 9 13 (MAGIC ++ [VERSION]) s) by (try rewrite Hls; done).
  replace ((MAGIC ++ [VERSION]) ++ s ++ n ++ payload ++ mac)
    with ((MAGIC ++ [VERSION] ++ s) ++ n ++ payload ++ mac) by (by rewrite <- !app_assoc).
  rewrite (slice_mid 13 15 (MAGIC ++ [VERSION] ++ s) n)
    by (rewrite ?length_app, ?Hls, ?Hln; done).
  replace ((MAGIC ++ [VERSION] ++ s) ++ n ++ payload ++ mac)
    with ((MAGIC ++ [VERSION] ++ s ++ n) ++ payload ++ mac) by (by rewrite <- !app_assoc).
  rewrite (slice_mid HEADER_BYTES _ (MAGIC ++ [VERSION] ++ s ++ n) payload)
    by (rewrite ?length_app, ?Hls, ?Hln, ?Hp; done).
  replace ((MAGIC ++ [VERSION] ++ s ++ n) ++ payload ++ mac)
    with ((MAGIC ++ [VERSION] ++ s ++ n ++ payload) ++ mac ++ []) by
    (rewrite app_nil_r; by rewrite <- !app_assoc).
  rewrite (slice_mid _ FRAME_BYTES (MAGIC ++ [VERSION] ++ s ++ n ++ payload) mac)
    by (rewrite ?length_app, ?Hls, ?Hln, ?Hp, ?Hm; done).
  unfold s, n. rewrite !of_be_bytes_be_small by done. done.
Qed.

Lemma decode_ok_inv raw f : decode raw = Ok f -> frame_ok f /\ encode f = raw.
Proof.
  unfold decode. intros H. ok_inv. bool_inv. rename H0 into Hlen. subst f.
  assert (frame_ok (mkFrame (of_be_bytes (slice 9 13 raw)) (of_be_bytes (slice 13 15 raw))
             (slice HEADER_BYTES (HEADER_BYTES + PAYLOAD_BYTES) raw)
             (slice (HEADER_BYTES + PAYLOAD_BYTES) (length raw) raw))) as Hok.
  { unfold frame_ok. cbn [frame_slot frame_node frame_payload frame_mac_bytes].
    rewrite !slice_length by (rewrite ?Hlen; wire_lia). repeat split.
    - apply (of_be_bytes_bound' 4). rewrite slice_length; rewrite ?Hlen; wire_lia.
    - apply (of_be_bytes_bound' 2). rewrite slice_length; rewrite ?Hlen; wire_lia.
    - rewrite Hlen. done. }
  split; [done|]. unfold encode. cbn [frame_slot frame_node frame_payload frame_mac_bytes].
  rewrite !be_bytes_of_be' by (rewrite slice_length; rewrite ?Hlen; wire_lia).
  match goal with H : slice 0 8 raw = MAGIC |- _ => rewrite <- H end.
  match goal with H : slice 8 9 raw = [VERSION] |- _ => rewrite <- H end.
  rewrite !app_assoc. change (slice 0 8 raw) with (take 8 raw).
  rewrite <- (slice_split 8 9), <- (slice_split 9 13), <- (slice_split 13 15) by lia.
  change 15%nat with HEADER_BYTES. rewrite <- (slice_split HEADER_BYTES (HEADER_BYTES + PAYLOAD_BYTES)) by lia.
  rewrite <- slice_split by (rewrite Hlen; wire_lia). apply take_ge. lia.
Qed.

(** Frames round-trip: [decode] accepts a byte string exactly when it is
    the 495-byte encoding of a well-sized frame, and returns that frame. *)
Theorem frame_roundtrip raw f : decode raw = Ok f <-> frame_ok f /\ encode f = raw.
Proof. split; [apply decode_ok_inv | intros [Hf <-]; by apply decode_encode]. Qed.

(** ** Authentication *)

Section MacProofs.
Context {SHA : Sha256} {SHAL : Sha256Laws}.

Lemma frame_mac_length key slot node payload : length (frame_mac key slot node payload) = 32%nat.
Proof. apply sha256_length. Qed.

(** The constant-time MAC comparison is equality: a frame with a
    32-byte MAC is authentic under a key exactly when its MAC is the HMAC of
    its header and payload; in particular every frame made by [frame_new]
    is. *)
Theorem authentic_iff_mac key f :
  length (frame_mac_bytes f) = MAC_BYTES ->
  frame_is_authentic key f = true <->
  frame_mac_bytes f = frame_mac key (frame_slot f) (frame_node f) (frame_payload f).
Proof.
  intros Hm. unfold frame_is_authentic.
  match goal with |- Byte.eqb ?d x00 = true <-> _ =>
    assert (Byte.eqb d x00 = true <-> d = x00) as ->
      by (split; [apply Byte.byte_dec_bl | apply Byte.byte_dec_lb]) end.
  rewrite fold_difference_zero by (rewrite frame_mac_length, Hm; done).
  split; [by intros [_ ->] | done].
Qed.

(** Frames are built authentic and within the wire's integer widths:
    [frame_new] refuses a node index above 16 bits, and every frame it builds
    from a 448-byte payload and a 32-bit slot survives the wire and passes
    the MAC check under the same key. *)
Theorem frame_new_delivers slot node payload key f :
  slot < 256 ^ 4 -> length payload = PAYLOAD_BYTES ->
  frame_new slot node payload key = Ok f ->
  node <= U16_MAX /\ decode (encode f) = Ok f /\ frame_is_authentic key f = true.
Proof.
  intros Hs Hp Hok. unfold frame_new in Hok. ok_inv. bool_inv. subst f. split; [done|].
  split.
  - apply decode_encode. unfold frame_ok, U16_MAX in *.
    cbn [frame_slot frame_node frame_payload frame_mac_bytes].
    rewrite frame_mac_length. repeat split; [done| |done]. lia.
  - unfold frame_is_authentic. cbn [frame_slot frame_node frame_payload frame_mac_bytes].
    apply Byte.byte_dec_lb, fold_difference_zero; done.
Qed.
End MacProofs.

(** ** Sharing *)

Section ShareProofs.
Context {R : Type} {RNG : RngCore R}.

Lemma mask_top_length b : length (mask_top b) = length b.
Proof. by destruct b. Qed.

Lemma random_canonical fuel rng x rng' :
  random fuel rng = Some (x, rng') -> canonical x.
Proof.
  revert rng. induction fuel as [|fuel IH]; intros rng; cbn; [done|].
  destruct (fill_bytes 32 rng) as [raw rng1] eqn:Hfill.
  pose proof (fill_bytes_length 32 rng) as Hlen. rewrite Hfill in Hlen.
  destruct (from_be_bytes (mask_top raw)) eqn:Hx; [|apply IH].
  intros [= <- _]. apply from_be_bytes_ok in Hx as [Hc _]; [done|]. by rewrite mask_top_length.
Qed.

(** Sum of a list of elements, as [reconstruct] adds them. *)
Definition fe_sum (start : list N) (l : list (list N)) : list N := foldl add_mod start l.

Lemma fe_sum_canonical l : forall start,
  canonical start -> Forall canonical l -> canonical (fe_sum start l).
Proof.
  induction l as [|x l IH]; intros start Hs Hl; [done|].
  apply Forall_cons in Hl as [Hx Hl]. apply IH; [|done]. by apply add_mod_spec.
Qed.

Lemma random_shares_spec fuel n : forall sum rng shares sum' rng',
  canonical sum -> random_shares fuel n sum rng = Some (shares, sum', rng') ->
  length shares = n /\ Forall canonical shares /\ sum' = fe_sum sum shares.
Proof.
  induction n as [|n IH]; intros sum rng shares sum' rng' Hs; cbn [random_shares].
  - intros [= <- <- _]. by repeat constructor.
  - destruct (random fuel rng) as [[x rng1]|] eqn:Hx; [|done]. cbn.
    apply random_canonical in Hx.
    destruct (random_shares fuel n (add_mod sum x) rng1) as [[[l s] rng2]|] eqn:Hr; [|done].
    cbn. intros [= <- <- _]. apply IH in Hr as (Hl & Hc & ->); [|by apply add_mod_spec].
    cbn [length]. auto.
Qed.

Lemma column_sum value shares :
  canonical value -> Forall canonical shares ->
  fe_sum ZERO_FE (shares ++ [sub_mod value (fe_sum ZERO_FE shares)]) = value.
Proof.
  intros Hv Hs. unfold fe_sum at 1. rewrite foldl_app. fold (fe_sum ZERO_FE shares). cbn [foldl].
  pose proof (fe_sum_canonical shares ZERO_FE ZERO_FE_canonical Hs) as Hsum.
  destruct (sub_mod_spec value _ Hv Hsum) as (Hc & _ & Hback).
  destruct (add_mod_spec _ _ Hsum Hc) as (Hc' & Hval & _).
  apply canonical_inj; [done..|]. rewrite Hval, N.add_comm. apply Hback.
Qed.

Lemma share_columns_spec fuel n values : forall rng columns rng',
  (1 <= n)%nat -> Forall canonical values ->
  share_columns fuel n values rng = Some (columns, rng') ->
  Forall2 (fun v col => length col = n /\ Forall canonical col /\ fe_sum ZERO_FE col = v)
    values columns.
Proof.
  induction values as [|v values IH]; intros rng columns rng' Hn Hc; cbn [share_columns].
  - intros [= <- _]. constructor.
  - apply Forall_cons in Hc as [Hv Hc].
    destruct (random_shares fuel (n - 1) ZERO_FE rng) as [[[l s] rng1]|] eqn:Hr; [|done]. cbn.
    destruct (share_columns fuel n values rng1) as [[cs rng2]|] eqn:Hcs; [|done]. cbn.
    intros [= <- _]. apply random_shares_spec in Hr as (Hl & Hlc & ->); [|apply ZERO_FE_canonical].
    constructor; [|by eapply IH].
    split; [rewrite length_app, Hl; cbn; lia|]. split; [|by apply column_sum].
    apply Forall_app. split; [done|]. constructor; [|done].
    apply sub_mod_spec; [done|]. apply fe_sum_canonical; [apply ZERO_FE_canonical | done].
Qed.

Lemma slice_block (bs : list bytes) : forall (t : bytes) j b,
  Forall (fun b => length b = 32%nat) bs -> bs !! j = Some b ->
  slice (j * 32) ((j + 1) * 32) (concat bs ++ t) = b.
Proof.
  induction bs as [|b0 bs IH]; intros t j b Hb Hj; [done|].
  apply Forall_cons in Hb as [H0 Hb]. cbn [concat]. rewrite <- app_assoc.
  destruct j as [|j]; cbn in Hj.
  - injection Hj as ->. by apply slice_app_exact.
  - rewrite slice_app_skip by lia. rewrite H0.
    replace (S j * 32 - 32)%nat with (j * 32)%nat by lia.
    replace ((S j + 1) * 32 - 32)%nat with ((j + 1) * 32)%nat by lia. by apply IH.
Qed.

Definition block (node : nat) (column : list (list N)) : bytes := to_be_bytes (nth node column []).

Lemma share_payloads_spec columns nodes : forall rng,
  Forall2 (fun node p => exists tail, p = concat (block node <$> columns) ++ tail
             /\ length tail = (PAYLOAD_BYTES - length columns * 32)%nat)
    nodes (share_payloads columns nodes rng).
Proof.
  induction nodes as [|node nodes IH]; intros rng; cbn [share_payloads]; [constructor|].
  destruct (fill_bytes _ rng) as [tail rng1] eqn:Hfill.
  pose proof (fill_bytes_length (PAYLOAD_BYTES - length columns * 32) rng) as Hlen.
  rewrite Hfill in Hlen. constructor; [by exists tail | apply IH].
Qed.

Lemma nth_canonical node col :
  Forall canonical col -> (node < length col)%nat -> canonical (nth node col []).
Proof.
  intros Hc Hlt. rewrite Forall_forall in Hc. apply Hc, list_elem_of_In, nth_In. done.
Qed.

(** Each column is read back by adding the nodes' elements. *)
Lemma reconstruct_column columns col j nodes payloads : forall start,
  columns !! j = Some col ->
  Forall (fun c => Forall canonical c /\ Forall (fun node => (node < length c)%nat) nodes) columns ->
  Forall2 (fun node p => exists tail : bytes, p = concat (block node <$> columns) ++ tail)
    nodes payloads ->
  fold_res (fun total payload =>
    x ← from_be_bytes (slice (j * 32) ((j + 1) * 32) payload); Ok (add_mod total x)) start payloads
  = Ok (fe_sum start ((fun node => nth node col []) <$> nodes)).
Proof.
  intros start Hj Hcols Hp. revert start.
  induction Hp as [|node p nodes payloads (tail & ->) Hp IH]; intros start; [done|].
  cbn [fold_res]. rewrite (slice_block _ _ j (block node col)).
  - assert (canonical (nth node col [])) as Hn.
    { eapply Forall_lookup_1 in Hcols as [Hc Hlt]; [|exact Hj].
      apply Forall_cons in Hlt as [Hlt _]. by apply nth_canonical. }
    unfold block at 1. rewrite from_to_be by done. cbn. apply IH.
    eapply Forall_impl; [exact Hcols|]. intros c [Hc Hlt]. split; [done|].
    by apply Forall_cons in Hlt as [_ Hlt].
  - apply Forall_fmap, Forall_forall. intros c Hc. cbn. apply to_be_bytes_length.
    rewrite Forall_forall in Hcols. destruct (Hcols c Hc) as [Hcc Hlt].
    apply Forall_cons in Hlt as [Hlt _]. by apply (nth_canonical node c).
  - by rewrite list_lookup_fmap, Hj.
Qed.

Lemma fmap_nth_seq (col : list (list N)) :
  (fun node => nth node col []) <$> seq 0 (length col) = col.
Proof.
  apply list_eq. intros i. rewrite list_lookup_fmap.
  destruct (decide (i < length col)%nat) as [Hi|Hi].
  - rewrite lookup_seq_lt by done. cbn. destruct (lookup_lt_is_Some_2 col i Hi) as [x Hx].
    rewrite Hx. f_equal. by apply nth_lookup_Some.
  - rewrite lookup_seq_ge, lookup_ge_None_2 by lia. done.
Qed.

(** Whatever the generator, payloads that come back reconstruct. *)
Lemma shares_reconstruct fuel values n_nodes rng payloads :
  Forall canonical values ->
  share_field_elements_with_rng fuel values n_nodes rng = Some (Ok payloads) ->
  reconstruct payloads (length values) = Ok values
  /\ length payloads = n_nodes
  /\ Forall (fun p => length p = PAYLOAD_BYTES) payloads.
Proof.
  intros Hc. unfold share_field_elements_with_rng.
  case_bool_decide as Hn; [done|]. case_bool_decide as Hsize; [done|].
  destruct (share_columns fuel n_nodes values rng) as [[columns rng1]|] eqn:Hcols; [|done].
  cbn. intros [= <-]. apply share_columns_spec in Hcols; [|lia|done].
  pose proof (Forall2_length _ _ _ Hcols) as Hlen.
  pose proof (share_payloads_spec columns (seq 0 n_nodes) rng1) as Hp.
  assert (Forall (fun c => length c = n_nodes /\ Forall canonical c) columns) as Hwf.
  { clear -Hcols. induction Hcols; constructor; naive_solver. }
  split; [|split].
  - unfold reconstruct. rewrite bool_decide_eq_false_2 by done.
    apply map_res_ok, Forall2_same_length_lookup_2; [by rewrite length_seq|].
    intros j idx v Hidx Hv. apply lookup_seq in Hidx as [-> Hj]. cbn [Nat.add].
    destruct (Forall2_lookup_l _ _ _ _ _ Hcols Hv) as (col & Hcol & Hl & Hcc & <-).
    unfold reconstruct_value. rewrite (reconstruct_column columns col j (seq 0 n_nodes)).
    + by rewrite <- Hl, fmap_nth_seq.
    + done.
    + eapply Forall_impl; [exact Hwf|]. intros c [Hlc Hcc']. split; [done|].
      apply Forall_forall. intros node [_ Hlt]%elem_of_seq. lia.
    + eapply Forall2_impl; [exact Hp|]. naive_solver.
  - apply Forall2_length in Hp. by rewrite length_seq in Hp.
  - apply Forall_forall. intros p Hin.
    apply list_elem_of_lookup in Hin as [i Hi].
    destruct (Forall2_lookup_r _ _ _ _ _ Hp Hi) as (node & Hnode & tail & -> & Ht).
    apply lookup_seq in Hnode as [-> Hnode].
    rewrite length_app, Ht.
    assert (length (concat (block (0 + i) <$> columns)) = (length columns * 32)%nat) as ->.
    { clear -Hwf Hnode. induction Hwf as [|c columns [Hlc Hcc] Hwf IH]; [done|].
      cbn [fmap list_fmap concat length]. rewrite length_app, IH. unfold block.
      rewrite to_be_bytes_length; [lia|]. apply (nth_canonical _ c Hcc). lia. }
    rewrite <- Hlen. lia.
Qed.

Lemma random_shares_total fuel n : forall sum rng,
  (forall r, is_Some (random fuel r)) -> is_Some (random_shares fuel n sum rng).
Proof.
  intros sum rng Hr. revert sum rng. induction n as [|n IH]; intros sum rng; cbn; [eauto|].
  destruct (Hr rng) as [[x rng1] ->]. cbn.
  destruct (IH (add_mod sum x) rng1) as [[[l s] rng2] ->]. cbn. eauto.
Qed.

Lemma share_columns_total fuel n values : forall rng,
  (forall r, is_Some (random fuel r)) -> is_Some (share_columns fuel n values rng).
Proof.
  intros rng Hr. revert rng. induction values as [|v values IH]; intros rng; cbn; [eauto|].
  destruct (random_shares_total fuel (n - 1) ZERO_FE rng Hr) as [[[l s] rng1] ->]. cbn.
  destruct (IH rng1) as [[cs rng2] ->]. cbn. eauto.
Qed.

Lemma share_total fuel values n_nodes rng :
  (forall r, is_Some (random fuel r)) ->
  exists r, share_field_elements_with_rng fuel values n_nodes rng = Some r
    /\ (if bool_decide (n_nodes < 2)%nat then r = Err NodeCount
        else if bool_decide (14 < length values)%nat then r = Err RequestSize
        else exists payloads, r = Ok payloads).
Proof.
  intros Hr. unfold share_field_elements_with_rng. case_bool_decide as Hn; [by eauto|].
  unfold PAYLOAD_BYTES.
  rewrite (bool_decide_ext (448 < length values * 32)%nat (14 < length values)%nat) by lia.
  case_bool_decide as Hl; [by eauto|].
  destruct (share_columns_total fuel n_nodes values rng Hr) as [[cs rng1] ->]. cbn. eauto.
Qed.

(** Sharing then reconstructing is the identity: for every generator
    whose rejection loop returns within the fuel, sharing at most fourteen
    canonical values among at least two nodes returns one payload per node,
    each of the fixed size, and adding the nodes' shares returns exactly the
    values. *)
Theorem share_reconstruct fuel values n_nodes rng :
  (forall r, is_Some (random fuel r)) ->
  (2 <= n_nodes)%nat -> (length values <= 14)%nat -> Forall canonical values ->
  exists payloads,
    share_field_elements_with_rng fuel values n_nodes rng = Some (Ok payloads)
    /\ length payloads = n_nodes
    /\ Forall (fun p => length p = PAYLOAD_BYTES) payloads
    /\ reconstruct payloads (length values) = Ok values.
Proof.
  intros Hr Hn Hl Hc. destruct (share_total fuel values n_nodes rng Hr) as (r & Hs & Hcase).
  rewrite !bool_decide_eq_false_2 in Hcase by lia. destruct Hcase as [payloads ->].
  exists payloads. apply shares_reconstruct in Hs as Hok; [naive_solver | done].
Qed.

(** Sharing always answers: with fuel in which the generator's
    rejection loop returns, sharing terminates; it returns payloads exactly
    for at least two nodes and at most fourteen values, and otherwise the
    error that names the violated bound. *)
Theorem share_answers fuel values n_nodes rng :
  (forall r, is_Some (random fuel r)) ->
  exists r, share_field_elements_with_rng fuel values n_nodes rng = Some r
    /\ (if bool_decide (n_nodes < 2)%nat then r = Err NodeCount
        else if bool_decide (14 < length values)%nat then r = Err RequestSize
        else exists payloads, r = Ok payloads).
Proof. apply share_total. Qed.

Lemma share_columns_hiding fuel n values : forall values' rng columns rng',
  length values = length values' ->
  share_columns fuel n values rng = Some (columns, rng') ->
  exists columns', share_columns fuel n values' rng = Some (columns', rng')
    /\ Forall2 (fun c c' => forall node, (node < n - 1)%nat -> nth node c [] = nth node c' [])
         columns columns'.
Proof.
  induction values as [|v values IH]; intros [|v' values'] rng columns rng' Hlen; try done;
    cbn [share_columns].
  - intros [= <- <-]. eauto.
  - destruct (random_shares fuel (n - 1) ZERO_FE rng) as [[[l s] rng1]|] eqn:Hr; [|done]. cbn.
    destruct (share_columns fuel n values rng1) as [[cs rng2]|] eqn:Hcs; [|done]. cbn.
    intros [= <- <-]. apply (IH values') in Hcs as (cs' & -> & Hf); [|auto]. cbn.
    eexists. split; [done|]. constructor; [|done]. intros node Hnode.
    apply random_shares_spec in Hr as (Hl & _ & _); [|apply ZERO_FE_canonical].
    rewrite !app_nth1 by lia. done.
Qed.

Lemma share_payloads_hiding columns columns' bound nodes : forall rng,
  Forall2 (fun c c' => forall node, (node < bound)%nat -> nth node c [] = nth node c' [])
    columns columns' ->
  Forall (fun node => (node < bound)%nat) nodes ->
  share_payloads columns nodes rng = share_payloads columns' nodes rng.
Proof.
  induction nodes as [|node nodes IH]; intros rng Hcols Hn; [done|].
  apply Forall_cons in Hn as [Hnode Hn]. cbn [share_payloads].
  rewrite (Forall2_length _ _ _ Hcols). destruct (fill_bytes _ rng) as [tail rng1].
  f_equal; [|by apply IH]. f_equal. f_equal.
  clear -Hcols Hnode. induction Hcols as [|c c' cs cs' Hc Hcs IH]; [done|].
  cbn. by rewrite IH, Hc.
Qed.

Lemma share_payloads_take columns nodes k : forall rng,
  take k (share_payloads columns nodes rng) = share_payloads columns (take k nodes) rng.
Proof.
  revert k. induction nodes as [|node nodes IH]; intros [|k] rng; try done.
  cbn [take share_payloads]. destruct (fill_bytes _ rng). cbn [take]. by rewrite IH.
Qed.

(** The first [n - 1] payloads carry nothing about the request: with
    the same randomness, any other request of the same length produces the
    same payloads for every node but the last. *)
Theorem all_but_last_independent fuel values values' n_nodes rng payloads :
  length values = length values' ->
  share_field_elements_with_rng fuel values n_nodes rng = Some (Ok payloads) ->
  exists payloads', share_field_elements_with_rng fuel values' n_nodes rng = Some (Ok payloads')
    /\ take (n_nodes - 1) payloads' = take (n_nodes - 1) payloads.
Proof.
  intros Hlen. unfold share_field_elements_with_rng. rewrite <- Hlen.
  case_bool_decide; [done|]. case_bool_decide; [done|].
  destruct (share_columns fuel n_nodes values rng) as [[cs rng1]|] eqn:Hcs; [|done]. cbn.
  intros [= <-]. apply (share_columns_hiding _ _ _ values') in Hcs as (cs' & -> & Hf); [|done].
  cbn. eexists. split; [done|]. rewrite !share_payloads_take. symmetry.
  apply (share_payloads_hiding _ _ (n_nodes - 1)); [done|].
  apply Forall_forall. intros node Hnode. rewrite take_seq in Hnode.
  apply elem_of_seq in Hnode. lia.
Qed.
End ShareProofs.
