(* ===== verification/ApplicationCrypto.v ===== *)
(** * Application keys and signatures

    Model of rust/zkpi-committee/src/application_crypto.rs: a signing key made
    from two seeds, the fingerprint that identifies its hybrid public key, and
    the closed signature envelope (magic, suite, purpose, full public key, both
    signature components) with its validation.  The hybrid backend itself is
    the interface [HybridBackend]. *)

From S2P Require Import Prelude.
From S2P Require Import Interfaces.

Module App.

Definition MAGIC : bytes := bstr "QOMSIG02".
Definition PUBLIC_KEY_BYTES : nat := 1984.
Definition SIGNATURE_BYTES : nat := 8 + 4 + 2 + PUBLIC_KEY_BYTES + 3373.
Definition KEY_OFFSET : nat := 14.

Inductive SignatureError : Type := InvalidSignature.

(** An envelope is opaque bytes until it is validated. *)
Abbreviation Signature := bytes (only parsing).
(** A verification identity is a key fingerprint. *)
Abbreviation VerifyingKey := bytes (only parsing).

Definition verifying_key_from_bytes (fingerprint : bytes) : result SignatureError VerifyingKey :=
  if bool_decide (fingerprint = ZERO32) then Err InvalidSignature else Ok fingerprint.

Section Keys.
Context {SHA : Sha256} {HB : HybridBackend}.

Definition purpose_bytes : bytes := be_bytes 2 purpose_code.

Definition fingerprint (public : bytes) : bytes :=
  sha256 (bstr "QOMM:APPLICATION-KEY-FINGERPRINT:v2" ++ suite_encode ++ purpose_bytes ++ public).

Record SigningKey := mkSigningKey { seeds : bytes; signer : HybridSigner }.

Definition from_bytes (s : bytes) : SigningKey :=
  mkSigningKey s (hybrid_new (slice 0 32 s) (slice 32 64 s)).
Definition to_bytes (k : SigningKey) : bytes := seeds k.

Definition generate {R} `{!RngCore R} (rng : R) : SigningKey * R :=
  let (classical, rng) := fill_bytes 32 rng in
  let (pq, rng) := fill_bytes 32 rng in
  (from_bytes (classical ++ pq), rng).

Definition verifying_key (k : SigningKey) : VerifyingKey := fingerprint (hybrid_public_key (signer k)).

Definition try_sign (k : SigningKey) (message : bytes) : result string Signature :=
  s ← hybrid_sign (signer k) purpose_code message;
  Ok (MAGIC ++ suite_encode ++ purpose_bytes ++ hybrid_public_key (signer k) ++ s).

Definition signature_validate (s : Signature) : result SignatureError unit :=
  if negb (bool_decide (length s = SIGNATURE_BYTES))
     || negb (bool_decide (slice 0 8 s = MAGIC))
     || negb (bool_decide (slice 8 12 s = suite_encode))
     || negb (bool_decide (slice 12 14 s = purpose_bytes))
  then Err InvalidSignature else Ok tt.

Definition signature_try_from (b : bytes) : result SignatureError Signature :=
  _ ← signature_validate b; Ok b.

Definition verify_strict (key : VerifyingKey) (message : bytes) (s : Signature) :
    result SignatureError unit :=
  _ ← signature_validate s;
  let public := slice KEY_OFFSET (KEY_OFFSET + PUBLIC_KEY_BYTES) s in
  if negb (bool_decide (fingerprint public = key)) then Err InvalidSignature
  else if hybrid_verify purpose_code public message
            (slice (KEY_OFFSET + PUBLIC_KEY_BYTES) (length s) s)
  then Ok tt else Err InvalidSignature.

Definition verify (key : VerifyingKey) (message : bytes) (s : Signature) :
    result SignatureError unit := verify_strict key message s.

(** ** The closed envelope *)

(** The parts of an envelope. *)
Definition envelope (public s : bytes) : bytes :=
  MAGIC ++ suite_encode ++ purpose_bytes ++ public ++ s.

Context {HL : HybridLaws}.

Lemma purpose_bytes_length : length purpose_bytes = 2%nat.
Proof using Type. apply be_bytes_length. Qed.

Lemma envelope_length public s :
  length (envelope public s) = (14 + length public + length s)%nat.
Proof using HL.
  unfold envelope. rewrite !length_app, suite_length, purpose_bytes_length. cbn. lia.
Qed.

Lemma envelope_slices public s :
  slice 0 8 (envelope public s) = MAGIC
  /\ slice 8 12 (envelope public s) = suite_encode
  /\ slice 12 14 (envelope public s) = purpose_bytes
  /\ slice 14 (14 + length public) (envelope public s) = public
  /\ slice (14 + length public) (14 + length public + length s) (envelope public s) = s.
Proof using HL.
  pose proof suite_length as Hs. pose proof purpose_bytes_length as Hp. unfold envelope.
  split; [by apply (slice_app_exact 8)|].
  split; [by apply (slice_mid 8 12 MAGIC suite_encode); rewrite ?Hs|].
  rewrite !(app_assoc MAGIC suite_encode).
  split.
  { apply (slice_mid 12 14 (MAGIC ++ suite_encode) purpose_bytes);
      rewrite ?length_app, ?Hs, ?Hp; done. }
  rewrite !(app_assoc (MAGIC ++ suite_encode) purpose_bytes).
  split.
  { apply (slice_mid 14 (14 + length public) ((MAGIC ++ suite_encode) ++ purpose_bytes) public);
      rewrite ?length_app, ?Hs, ?Hp; done. }
  rewrite !(app_assoc ((MAGIC ++ suite_encode) ++ purpose_bytes) public).
  rewrite <- (app_nil_r (_ ++ s)), <- app_assoc.
  apply (slice_mid (14 + length public) (14 + length public + length s)
           (((MAGIC ++ suite_encode) ++ purpose_bytes) ++ public) s);
    rewrite ?length_app, ?Hs, ?Hp; done.
Qed.

Lemma signature_validate_ok s :
  signature_validate s = Ok tt <->
  exists public raw, s = envelope public raw
    /\ length public = PUBLIC_KEY_BYTES /\ length raw = 3373%nat.
Proof using HL.
  unfold signature_validate. split.
  - intros H. ok_inv. bool_inv. unfold SIGNATURE_BYTES, PUBLIC_KEY_BYTES in *.
    exists (slice 14 1998 s), (slice 1998 (length s) s).
    rewrite !slice_length by lia. split; [|lia]. unfold envelope.
    repeat match goal with H : slice _ _ s = _ |- _ => rewrite <- H; clear H end.
    rewrite !app_assoc. change (slice 0 8 s) with (take 8 s).
    rewrite <- (slice_split 8 12), <- (slice_split 12 14), <- (slice_split 14 1998),
      <- (slice_split 1998) by lia. by rewrite take_ge.
  - intros (public & raw & -> & Hpub & Hraw).
    destruct (envelope_slices public raw) as (-> & -> & -> & _).
    rewrite envelope_length, Hpub, Hraw, !bool_decide_eq_true_2 by done. done.
Qed.

Lemma verify_strict_ok key message s :
  verify_strict key message s = Ok tt <->
  exists public raw, s = envelope public raw
    /\ length public = PUBLIC_KEY_BYTES /\ length raw = 3373%nat
    /\ fingerprint public = key
    /\ hybrid_verify purpose_code public message raw = true.
Proof using HL.
  unfold verify_strict. rewrite bind_ok. split.
  - intros ([] & Hv & H). apply signature_validate_ok in Hv as (public & raw & -> & Hpub & Hraw).
    destruct (envelope_slices public raw) as (_ & _ & _ & Hs1 & Hs2).
    unfold KEY_OFFSET in H. rewrite <- Hpub in H. rewrite Hs1, envelope_length, Hs2 in H.
    ok_inv. bool_inv. destruct (hybrid_verify _ _ _ _) eqn:Hh; [|done]. naive_solver.
  - intros (public & raw & -> & Hpub & Hraw & Hf & Hh). exists tt.
    split; [apply signature_validate_ok; eauto|].
    destruct (envelope_slices public raw) as (_ & _ & _ & Hs1 & Hs2).
    unfold KEY_OFFSET. rewrite <- Hpub, Hs1, envelope_length, Hs2, Hh, bool_decide_eq_true_2; done.
Qed.

Lemma try_sign_ok k message s :
  try_sign k message = Ok s ->
  exists raw, s = envelope (hybrid_public_key (signer k)) raw
    /\ hybrid_sign (signer k) purpose_code message = Ok raw /\ length raw = 3373%nat.
Proof using HL.
  intros H. unfold try_sign in H. apply bind_ok in H as (raw & Hs & [= <-]). exists raw.
  split; [done|]. split; [done|]. by apply hybrid_signature_length in Hs.
Qed.

Lemma try_sign_length k message s :
  try_sign k message = Ok s -> length s = SIGNATURE_BYTES.
Proof using HL.
  intros (raw & -> & _ & Hr)%try_sign_ok. rewrite envelope_length, public_key_length, Hr. done.
Qed.

Lemma try_sign_verify k message s :
  try_sign k message = Ok s -> verify (verifying_key k) message s = Ok tt.
Proof using HL.
  intros (raw & -> & Hs & Hr)%try_sign_ok. apply verify_strict_ok. eexists _, raw.
  split; [done|]. split; [apply public_key_length|]. split; [done|]. split; [done|].
  by apply hybrid_sign_verify.
Qed.

Lemma try_sign_try_from k message s :
  try_sign k message = Ok s -> signature_try_from s = Ok s.
Proof using HL.
  intros (raw & -> & Hs & Hr)%try_sign_ok. unfold signature_try_from.
  assert (signature_validate (envelope (hybrid_public_key (signer k)) raw) = Ok tt) as ->;
    [|done].
  apply signature_validate_ok. eexists _, raw. split; [done|]. split; [|done].
  apply public_key_length.
Qed.

(** Signatures are a closed envelope around an enrolled key: verification
    under a fingerprint accepts exactly the byte strings that are the magic, the
    suite, the purpose, a 1984-byte public key with that fingerprint and a
    3373-byte hybrid signature valid under that key; every signature a signing
    key makes has the declared size, passes [try_from], and is accepted under
    its verifying key for the signed message. *)
Theorem closed_envelope key message s k :
  (verify key message s = Ok tt <->
   exists public raw, s = MAGIC ++ suite_encode ++ purpose_bytes ++ public ++ raw
     /\ length public = PUBLIC_KEY_BYTES /\ length raw = 3373%nat
     /\ fingerprint public = key
     /\ hybrid_verify purpose_code public message raw = true)
  /\ (try_sign k message = Ok s ->
      length s = SIGNATURE_BYTES /\ signature_try_from s = Ok s
      /\ verify (verifying_key k) message s = Ok tt).
Proof using HL.
  split; [apply verify_strict_ok|]. intros H.
  split; [|split]; [by eapply try_sign_length | by eapply try_sign_try_from | by eapply try_sign_verify].
Qed.
End Keys.

End App.
