(* ===== verification/Order.v ===== *)
(** * Admission attestations and execution receipts

    Model of the first part of [zkpi-committee/src/order.rs] and its properties:
    the fixed-width wires are exact inverses of the encoders on well-formed
    statements, and a lane is certified exactly when the seven nodes each signed
    an agreeing statement, in whatever order the statements arrive. *)

From S2P Require Import Prelude.
From S2P Require Import Interfaces.
From S2P Require Import Sorting.
From S2P Require Import ApplicationCrypto.

(** ** The model

    Model of the first part of rust/zkpi-committee/src/order.rs: the job
    identifiers, the node admission and execution attestations with their
    signing bodies, the fixed-width wires that carry them, and the collapse of
    seven node statements into one certified lane.  The sealing of a slot is in
    Sealer.v. *)

Definition TICKET_DOMAIN : bytes := bstr "QOMM:ORDER:TICKET:v2".
Definition RECEIPT_DOMAIN : bytes := bstr "QOMM:ORDER:RECEIPT:v2".
Definition BEACON_DOMAIN : bytes := bstr "QOMM:ORDER:BEACON:v2".
Definition MANIFEST_DOMAIN : bytes := bstr "QOMM:ORDER:MANIFEST:v2".
Definition ORDER_DOMAIN : bytes := bstr "QOMM:ORDER:KEY:v1".
Definition ORDERED_ADMISSION_DOMAIN : bytes := bstr "QOMM:ORDER:ADMISSION:v1".
Definition CERTIFIED_ADMISSION_DOMAIN : bytes := bstr "QOMM:ORDER:CERTIFIED-ADMISSION:v1".
Definition NODE_ADMISSION_DOMAIN : bytes := bstr "QOMM:ORDER:NODE-ADMISSION:v2".
Definition NODE_EXECUTION_DOMAIN : bytes := bstr "QOMM:ORDER:NODE-EXECUTION:v2".
Definition EXECUTION_RECEIPT_DOMAIN : bytes := bstr "QOMM:MPC:EXECUTION-RECEIPT:v1".
Definition EXECUTION_LANE_DOMAIN : bytes := bstr "QOMM:ORDER:EXECUTION-LANE:v1".
Definition EXECUTION_WIRE_MAGIC : bytes := bstr "QOMM:EXECUTION-ATTESTATIONS:v2".
Definition ADMISSION_WIRE_MAGIC : bytes := bstr "QOMM:ADMISSION-ATTESTATIONS:v2".
Definition CLUSTER_BATCH_DOMAIN : bytes := bstr "QOMM:ORDER:CLUSTER-BATCH:v1".
Definition PRINCIPAL_TICKET_DOMAIN : bytes := bstr "QOMM:NODE:PRINCIPAL-TICKET:v1".
Definition PRINCIPAL_DIGEST_DOMAIN : bytes := bstr "QOMM:ORDER:PRINCIPAL:v1".
Definition QUOTE_PROOF_JOB_DOMAIN : bytes := bstr "QOMM:LIVE-QUOTE-PROOF:v1".
Definition LIVE_PROOF_JOB_DOMAIN : bytes := bstr "QOMM:LIVE-PROOF-JOB:v1".
Definition COMPLETE_QUOTE_CONTEXT_DOMAIN : bytes := bstr "QOMM:LIVE:COMPLETE-QUOTE-CONTEXT:v1".
Definition COMMITTEE_NODES : nat := 7.

(** ** Data *)

Record NodeAdmissionAttestation := mkAdmission {
  na_node : N;
  na_slot : N;
  na_sequence : N;
  na_principal_digest : bytes;
  na_ticket_id : bytes;
  na_claim_digest : bytes;
  na_batch_digest : bytes;
  na_order_digest : bytes;
  na_signature : bytes
}.

Record NodeExecutionAttestation := mkExecutionAttestation {
  ne_node : N;
  ne_slot : N;
  ne_lane : N;
  ne_batch_digest : bytes;
  ne_source_digest : bytes;
  ne_state_generation : N;
  ne_frame_count : N;
  ne_input_count : N;
  ne_stdout_digest : bytes;
  ne_stderr_digest : bytes;
  ne_persistence_digest : bytes;
  ne_receipt_digest : bytes;
  ne_signature : bytes
}.

Record CertifiedExecutionLane := mkExecutionLane {
  ce_slot : N;
  ce_lane : N;
  ce_cluster_digest : bytes;
  ce_source_digest : bytes;
  ce_digest : bytes
}.

Record CertifiedAdmissionLane := mkAdmissionLane {
  cl_slot : N;
  cl_sequence : N;
  cl_principal_digest : bytes;
  cl_ticket_id : bytes;
  cl_claim_digest : bytes;
  cl_cluster_digest : bytes;
  cl_order_digest : bytes
}.

Record OrderedAdmission := mkOrderedAdmission {
  oa_venue_id : bytes;
  oa_epoch : N;
  oa_slot : N;
  oa_sequence : N;
  oa_ticket_id : bytes;
  oa_batch_digest : bytes;
  oa_order_digest : bytes;
  oa_rfq_nullifier : bytes;
  oa_taker_entity_commitment : bytes;
  oa_taker_mandate_digest : bytes;
  oa_expires_at : N
}.

(** [u32::try_from]. *)
Definition u32_try_from (x : N) : option N := if x <=? U32_MAX then Some x else None.

(** The node of the [i]-th of a list of statements is [i]
    ([enumerate] with [usize::from(value.node) != expected]). *)
Fixpoint nodes_from {A} (node : A -> N) (expected : N) (l : list A) : bool :=
  match l with
  | [] => true
  | v :: l => (node v =? expected) && nodes_from node (expected + 1) l
  end.

(** ** Job identifiers *)

Section Attestations.
Context {SHA : Sha256} {HB : HybridBackend}.

Definition quote_proof_job_digest (cluster_digest : bytes) (lane : N) : result string bytes :=
  if bool_decide (cluster_digest = ZERO32) || (4095 <? lane)
  then Err "quote proof job is outside its cluster or lane bound"
  else Ok (sha256 (QUOTE_PROOF_JOB_DOMAIN ++ cluster_digest ++ be_bytes 8 lane)).

Definition live_proof_job_id (slot lane : N) (quote_digest : bytes) : result string bytes :=
  if bool_decide (quote_digest = ZERO32) || (4095 <? lane)
  then Err "live proof job is outside its quote or lane bound"
  else Ok (sha256 (LIVE_PROOF_JOB_DOMAIN ++ be_bytes 4 slot ++ be_bytes 8 lane ++ quote_digest)).

Definition complete_quote_context (job_id request_context : bytes) : bytes :=
  sha256 (COMPLETE_QUOTE_CONTEXT_DOMAIN ++ job_id ++ request_context).

Definition principal_ticket_id (slot : N) (principal : string) : result string bytes :=
  if bool_decide (principal = EmptyString) || bool_decide (512 < String.length principal)%nat
  then Err "admission principal must contain 1..512 bytes"
  else Ok (sha256 (PRINCIPAL_TICKET_DOMAIN ++ be_bytes 4 slot
                   ++ be_bytes 8 (N.of_nat (String.length principal)) ++ bstr principal)).

Definition admission_principal_digest (principal : string) : result string bytes :=
  if bool_decide (principal = EmptyString) || bool_decide (512 < String.length principal)%nat
  then Err "admission principal must contain 1..512 bytes"
  else Ok (sha256 (PRINCIPAL_DIGEST_DOMAIN
                   ++ be_bytes 8 (N.of_nat (String.length principal)) ++ bstr principal)).

(** ** Admission attestations *)

Definition admission_unsigned (a : NodeAdmissionAttestation) : result string bytes :=
  if (7 <=? na_node a) || (na_sequence a =? 0) || (I64_MAX <? na_sequence a)
     || (I64_MAX <? na_slot a)
     || contains_zero [na_principal_digest a; na_ticket_id a; na_claim_digest a;
                       na_batch_digest a; na_order_digest a]
  then Err "node admission attestation is incomplete"
  else Ok (NODE_ADMISSION_DOMAIN ++ be_bytes 2 (na_node a) ++ be_bytes 8 (na_slot a)
           ++ be_bytes 8 (na_sequence a) ++ na_principal_digest a ++ na_ticket_id a
           ++ na_claim_digest a ++ na_batch_digest a ++ na_order_digest a).

Definition admission_sign (a : NodeAdmissionAttestation) (key : App.SigningKey) :
    result string NodeAdmissionAttestation :=
  body ← admission_unsigned a;
  s ← App.try_sign key body;
  Ok (mkAdmission (na_node a) (na_slot a) (na_sequence a) (na_principal_digest a)
        (na_ticket_id a) (na_claim_digest a) (na_batch_digest a) (na_order_digest a) s).

(** [self.unsigned().is_ok_and(|body| key.verify(&body, &self.signature).is_ok())] *)
Definition signed_ok (body : result string bytes) (key s : bytes) : bool :=
  match body with
  | Ok body => is_ok (App.verify key body s)
  | Err _ => false
  end.

Definition admission_verify (a : NodeAdmissionAttestation) (key : bytes) : bool :=
  signed_ok (admission_unsigned a) key (na_signature a).

Definition admission_record (a : NodeAdmissionAttestation) : bytes :=
  be_bytes 2 (na_node a) ++ be_bytes 8 (na_slot a) ++ be_bytes 8 (na_sequence a)
  ++ na_principal_digest a ++ na_ticket_id a ++ na_claim_digest a ++ na_batch_digest a
  ++ na_order_digest a ++ na_signature a.

Definition encode_admission_attestations (attestations : list NodeAdmissionAttestation) :
    result string bytes :=
  if negb (bool_decide (length attestations = COMMITTEE_NODES))
  then Err "admission attestation wire needs exactly seven nodes"
  else
    let values := sort_by_key N.leb na_node attestations in
    records ← map_res (fun value => _ ← admission_unsigned value; Ok (admission_record value)) values;
    Ok (ADMISSION_WIRE_MAGIC ++ be_bytes 2 (N.of_nat (length values)) ++ concat records).

Definition ADMISSION_RECORD_BYTES : nat := 2 + 8 + 8 + 32 * 5 + App.SIGNATURE_BYTES.

Definition read_admission (raw : bytes) : result string (NodeAdmissionAttestation * bytes) :=
  let (node, raw) := take_bytes 2 raw in
  let (slot, raw) := take_bytes 8 raw in
  let (sequence, raw) := take_bytes 8 raw in
  let (principal_digest, raw) := take_bytes 32 raw in
  let (ticket_id, raw) := take_bytes 32 raw in
  let (claim_digest, raw) := take_bytes 32 raw in
  let (batch_digest, raw) := take_bytes 32 raw in
  let (order_digest, raw) := take_bytes 32 raw in
  let (s, raw) := take_bytes App.SIGNATURE_BYTES raw in
  s ← map_err (fun _ => "invalid QOMM v2 hybrid application key or signature; legacy Ed25519-only material requires explicit re-enrollment") (App.signature_try_from s);
  let value := mkAdmission (of_be_bytes node) (of_be_bytes slot) (of_be_bytes sequence)
                 principal_digest ticket_id claim_digest batch_digest order_digest s in
  _ ← admission_unsigned value;
  Ok (value, raw).

Definition decode_admission_attestations (raw : bytes) :
    result string (list NodeAdmissionAttestation) :=
  let header := (length ADMISSION_WIRE_MAGIC + 2)%nat in
  if bool_decide (length raw < header)%nat
     || negb (bool_decide (take (length ADMISSION_WIRE_MAGIC) raw = ADMISSION_WIRE_MAGIC))
  then Err "admission attestation wire has an invalid header"
  else
    let count := N.to_nat (of_be_bytes (slice (length ADMISSION_WIRE_MAGIC) header raw)) in
    if negb (bool_decide (count = COMMITTEE_NODES))
       || negb (bool_decide (length raw = header + count * ADMISSION_RECORD_BYTES)%nat)
    then Err "admission attestation wire has the wrong population or length"
    else
      values ← read_records read_admission count (drop header raw);
      if negb (nodes_from na_node 0 values)
      then Err "admission attestation wire is not in canonical node order"
      else Ok values.

(** ** Execution attestations *)

Definition recompute_receipt_digest (a : NodeExecutionAttestation) : result string bytes :=
  slot ← ok_or (u32_try_from (ne_slot a)) "execution receipt slot is outside the MPC range";
  Ok (sha256 (EXECUTION_RECEIPT_DOMAIN ++ be_bytes 2 (ne_node a) ++ be_bytes 4 slot
              ++ be_bytes 8 (ne_lane a) ++ ne_batch_digest a ++ ne_source_digest a
              ++ be_bytes 8 (ne_state_generation a) ++ be_bytes 8 (ne_frame_count a)
              ++ be_bytes 8 (ne_input_count a) ++ ne_stdout_digest a ++ ne_stderr_digest a
              ++ ne_persistence_digest a)).

(** The receipt digest is recomputed only when the tests before it are false. *)
Definition execution_unsigned (a : NodeExecutionAttestation) : result string bytes :=
  if (7 <=? ne_node a) || (4095 <? ne_lane a) || (ne_state_generation a =? 0)
     || negb ((1 <=? ne_frame_count a) && (ne_frame_count a <=? 4096))
     || (ne_input_count a =? 0) || (1000000 <? ne_input_count a)
     || contains_zero [ne_batch_digest a; ne_source_digest a; ne_stdout_digest a;
                       ne_stderr_digest a; ne_persistence_digest a; ne_receipt_digest a]
  then Err "node execution attestation is incomplete or inconsistent"
  else
    receipt ← recompute_receipt_digest a;
    if negb (bool_decide (receipt = ne_receipt_digest a))
    then Err "node execution attestation is incomplete or inconsistent"
    else Ok (NODE_EXECUTION_DOMAIN ++ be_bytes 2 (ne_node a) ++ be_bytes 8 (ne_slot a)
             ++ be_bytes 8 (ne_lane a) ++ ne_batch_digest a ++ ne_source_digest a
             ++ be_bytes 8 (ne_state_generation a) ++ be_bytes 8 (ne_frame_count a)
             ++ be_bytes 8 (ne_input_count a) ++ ne_stdout_digest a ++ ne_stderr_digest a
             ++ ne_persistence_digest a ++ ne_receipt_digest a).

Definition execution_sign (a : NodeExecutionAttestation) (key : App.SigningKey) :
    result string NodeExecutionAttestation :=
  body ← execution_unsigned a;
  s ← App.try_sign key body;
  Ok (mkExecutionAttestation (ne_node a) (ne_slot a) (ne_lane a) (ne_batch_digest a)
        (ne_source_digest a) (ne_state_generation a) (ne_frame_count a) (ne_input_count a)
        (ne_stdout_digest a) (ne_stderr_digest a) (ne_persistence_digest a)
        (ne_receipt_digest a) s).

Definition execution_verify (a : NodeExecutionAttestation) (key : bytes) : bool :=
  signed_ok (execution_unsigned a) key (ne_signature a).

Definition execution_record (a : NodeExecutionAttestation) : bytes :=
  be_bytes 2 (ne_node a) ++ be_bytes 8 (ne_slot a) ++ be_bytes 8 (ne_lane a)
  ++ ne_batch_digest a ++ ne_source_digest a ++ ne_stdout_digest a ++ ne_stderr_digest a
  ++ ne_persistence_digest a ++ ne_receipt_digest a
  ++ be_bytes 8 (ne_state_generation a) ++ be_bytes 8 (ne_frame_count a)
  ++ be_bytes 8 (ne_input_count a) ++ ne_signature a.

Definition encode_execution_attestation_wire (attestations : list NodeExecutionAttestation) :
    result string bytes :=
  let values := sort_by_key N.leb ne_node attestations in
  records ← map_res (fun value => _ ← execution_unsigned value; Ok (execution_record value)) values;
  Ok (EXECUTION_WIRE_MAGIC ++ be_bytes 2 (N.of_nat (length values)) ++ concat records).

Definition encode_execution_attestations (attestations : list NodeExecutionAttestation) :
    result string bytes :=
  if negb (bool_decide (length attestations = COMMITTEE_NODES))
  then Err "execution attestation wire needs exactly seven nodes"
  else encode_execution_attestation_wire attestations.

Definition encode_node_execution_attestation (attestation : NodeExecutionAttestation) :
    result string bytes := encode_execution_attestation_wire [attestation].

Definition EXECUTION_RECORD_BYTES : nat := 2 + 8 + 8 + 32 * 6 + 8 * 3 + App.SIGNATURE_BYTES.

Definition read_execution (raw : bytes) : result string (NodeExecutionAttestation * bytes) :=
  let (node, raw) := take_bytes 2 raw in
  let (slot, raw) := take_bytes 8 raw in
  let (lane, raw) := take_bytes 8 raw in
  let (batch_digest, raw) := take_bytes 32 raw in
  let (source_digest, raw) := take_bytes 32 raw in
  let (stdout_digest, raw) := take_bytes 32 raw in
  let (stderr_digest, raw) := take_bytes 32 raw in
  let (persistence_digest, raw) := take_bytes 32 raw in
  let (receipt_digest, raw) := take_bytes 32 raw in
  let (state_generation, raw) := take_bytes 8 raw in
  let (frame_count, raw) := take_bytes 8 raw in
  let (input_count, raw) := take_bytes 8 raw in
  let (s, raw) := take_bytes App.SIGNATURE_BYTES raw in
  s ← map_err (fun _ => "invalid QOMM v2 hybrid application key or signature; legacy Ed25519-only material requires explicit re-enrollment") (App.signature_try_from s);
  let value := mkExecutionAttestation (of_be_bytes node) (of_be_bytes slot) (of_be_bytes lane)
                 batch_digest source_digest (of_be_bytes state_generation)
                 (of_be_bytes frame_count) (of_be_bytes input_count) stdout_digest stderr_digest
                 persistence_digest receipt_digest s in
  _ ← execution_unsigned value;
  Ok (value, raw).

Definition decode_execution_attestation_wire (raw : bytes) (expected_count : nat) :
    result string (list NodeExecutionAttestation) :=
  let header := (length EXECUTION_WIRE_MAGIC + 2)%nat in
  if bool_decide (length raw < header)%nat
     || negb (bool_decide (take (length EXECUTION_WIRE_MAGIC) raw = EXECUTION_WIRE_MAGIC))
  then Err "execution attestation wire has an invalid header"
  else
    let count := N.to_nat (of_be_bytes (slice (length EXECUTION_WIRE_MAGIC) header raw)) in
    if negb (bool_decide (count = expected_count))
       || negb (bool_decide (length raw = header + count * EXECUTION_RECORD_BYTES)%nat)
    then Err "execution attestation wire has the wrong population or length"
    else read_records read_execution count (drop header raw).

Definition decode_execution_attestations (raw : bytes) :
    result string (list NodeExecutionAttestation) :=
  values ← decode_execution_attestation_wire raw COMMITTEE_NODES;
  if negb (nodes_from ne_node 0 values)
  then Err "execution attestation wire is not in canonical node order"
  else Ok values.

Definition decode_node_execution_attestation (raw : bytes) :
    result string NodeExecutionAttestation :=
  values ← decode_execution_attestation_wire raw 1;
  value ← ok_or (last values) "node execution attestation is absent";
  if 7 <=? ne_node value
  then Err "node execution attestation names a node outside the committee"
  else Ok value.

(** ** Lanes *)

Definition cluster_batch_digest (slot : N) (order_digest : bytes) (node_batches : list (N * bytes)) :
    result string bytes :=
  if bool_decide (order_digest = ZERO32)
     || negb (bool_decide (length node_batches = COMMITTEE_NODES))
  then Err "cluster batch needs a non-zero order and exactly seven nodes"
  else
    let ordered := sort_by_key N.leb fst node_batches in
    if negb (nodes_from fst 0 ordered)
       || existsb (fun nb => bool_decide (nb.2 = ZERO32)) ordered
    then Err "cluster batch nodes must be exactly 0..6 with non-zero digests"
    else Ok (sha256 (CLUSTER_BATCH_DOMAIN ++ be_bytes 4 slot ++ order_digest
                     ++ concat ((fun nb => be_bytes 2 nb.1 ++ nb.2) <$> ordered))).

(** Every statement names its position and verifies under the key there. *)
Definition all_verified {A} (node : A -> N) (verified : A -> bytes -> bool)
    (ordered : list A) (keys : list bytes) : bool :=
  nodes_from node 0 ordered && forallb (fun vk => verified vk.1 vk.2) (zip ordered keys).

Definition admission_agrees (first value : NodeAdmissionAttestation) : bool :=
  (na_slot value =? na_slot first) && (na_sequence value =? na_sequence first)
  && bool_decide (na_principal_digest value = na_principal_digest first)
  && bool_decide (na_ticket_id value = na_ticket_id first)
  && bool_decide (na_claim_digest value = na_claim_digest first)
  && bool_decide (na_order_digest value = na_order_digest first).

Definition verify_admission_lane (attestations : list NodeAdmissionAttestation)
    (trusted_node_keys : list bytes) : result string CertifiedAdmissionLane :=
  if negb (bool_decide (length attestations = COMMITTEE_NODES))
     || negb (bool_decide (length trusted_node_keys = COMMITTEE_NODES))
  then Err "admission lane needs exactly seven attestations and trusted keys"
  else
    let ordered := sort_by_key N.leb na_node attestations in
    if negb (all_verified na_node admission_verify ordered trusted_node_keys)
    then Err "admission lane contains an unknown, duplicate, or invalid node"
    else
      match ordered with
      | [] => Err "admission lane needs exactly seven attestations and trusted keys"
      | first :: rest =>
          if negb (forallb (admission_agrees first) rest)
          then Err "resident nodes disagree on the admitted principal, claim, or order"
          else
            let node_batches := (fun v => (na_node v, na_batch_digest v)) <$> ordered in
            slot ← ok_or (u32_try_from (na_slot first))
                     "admission slot is outside the resident-node range";
            cluster_digest ← cluster_batch_digest slot (na_order_digest first) node_batches;
            Ok (mkAdmissionLane (na_slot first) (na_sequence first) (na_principal_digest first)
                  (na_ticket_id first) (na_claim_digest first) cluster_digest
                  (na_order_digest first))
      end.

Definition execution_agrees (first value : NodeExecutionAttestation) : bool :=
  (ne_slot value =? ne_slot first) && (ne_lane value =? ne_lane first)
  && bool_decide (ne_source_digest value = ne_source_digest first)
  && (ne_state_generation value =? ne_state_generation first)
  && (ne_frame_count value =? ne_frame_count first)
  && (ne_input_count value =? ne_input_count first).

Definition derive_execution_lane (attestations : list NodeExecutionAttestation)
    (order_digest : bytes) : result string CertifiedExecutionLane :=
  if negb (bool_decide (length attestations = COMMITTEE_NODES))
  then Err "execution lane needs exactly seven receipt statements"
  else
    let ordered := sort_by_key N.leb ne_node attestations in
    if negb (nodes_from ne_node 0 ordered
             && forallb (fun value => is_ok (execution_unsigned value)) ordered)
    then Err "execution lane contains an incomplete or duplicate receipt"
    else
      match ordered with
      | [] => Err "execution lane needs exactly seven receipt statements"
      | first :: rest =>
          if negb (forallb (execution_agrees first) rest)
          then Err "resident nodes disagree on the execution slot, source, or shape"
          else
            slot ← ok_or (u32_try_from (ne_slot first))
                     "execution lane slot is outside the resident-node range";
            let node_batches := (fun v => (ne_node v, ne_batch_digest v)) <$> ordered in
            cluster_digest ← cluster_batch_digest slot order_digest node_batches;
            Ok (mkExecutionLane (ne_slot first) (ne_lane first) cluster_digest
                  (ne_source_digest first)
                  (sha256 (EXECUTION_LANE_DOMAIN ++ be_bytes 8 (ne_slot first)
                           ++ be_bytes 8 (ne_lane first) ++ cluster_digest
                           ++ ne_source_digest first ++ be_bytes 8 (ne_state_generation first)
                           ++ be_bytes 8 (ne_frame_count first) ++ be_bytes 8 (ne_input_count first)
                           ++ concat ((fun v => be_bytes 2 (ne_node v) ++ ne_receipt_digest v)
                                        <$> ordered))))
      end.

Definition verify_execution_lane (attestations : list NodeExecutionAttestation)
    (trusted_node_keys : list bytes) (order_digest : bytes) :
    result string CertifiedExecutionLane :=
  if negb (bool_decide (length attestations = COMMITTEE_NODES))
     || negb (bool_decide (length trusted_node_keys = COMMITTEE_NODES))
  then Err "execution lane needs exactly seven attestations and trusted keys"
  else
    let ordered := sort_by_key N.leb ne_node attestations in
    if negb (all_verified ne_node execution_verify ordered trusted_node_keys)
    then Err "execution lane contains an unknown, duplicate, or invalid node"
    else derive_execution_lane ordered order_digest.

Definition admission_lane_digest (lane : CertifiedAdmissionLane) (venue_id : bytes) (epoch : N) :
    result string bytes :=
  if bool_decide (venue_id = ZERO32) || (epoch =? 0)
  then Err "certified admission needs a venue and non-zero epoch"
  else Ok (sha256 (CERTIFIED_ADMISSION_DOMAIN ++ venue_id ++ be_bytes 8 epoch
                   ++ be_bytes 8 (cl_slot lane) ++ be_bytes 8 (cl_sequence lane)
                   ++ cl_ticket_id lane ++ cl_claim_digest lane ++ cl_cluster_digest lane
                   ++ cl_order_digest lane)).

(** ** Ordered admissions *)

Definition ordered_admission_unsigned (o : OrderedAdmission) : result string bytes :=
  if (oa_epoch o =? 0) || (oa_sequence o =? 0) || (oa_expires_at o =? 0)
     || (I64_MAX <? oa_epoch o) || (I64_MAX <? oa_slot o) || (I64_MAX <? oa_sequence o)
     || (I64_MAX <? oa_expires_at o)
     || contains_zero [oa_venue_id o; oa_ticket_id o; oa_batch_digest o; oa_order_digest o;
                       oa_rfq_nullifier o; oa_taker_entity_commitment o;
                       oa_taker_mandate_digest o]
  then Err "ordered admission is incomplete or outside the durable range"
  else Ok (ORDERED_ADMISSION_DOMAIN ++ oa_venue_id o ++ be_bytes 8 (oa_epoch o)
           ++ be_bytes 8 (oa_slot o) ++ be_bytes 8 (oa_sequence o) ++ oa_ticket_id o
           ++ oa_batch_digest o ++ oa_order_digest o ++ oa_rfq_nullifier o
           ++ oa_taker_entity_commitment o ++ oa_taker_mandate_digest o
           ++ be_bytes 8 (oa_expires_at o)).

Definition ordered_admission_digest (o : OrderedAdmission) : result string bytes :=
  body ← ordered_admission_unsigned o; Ok (sha256 body).

Definition certified_digest (o : OrderedAdmission) : result string bytes :=
  admission_lane_digest
    (mkAdmissionLane (oa_slot o) (oa_sequence o) ZERO32 (oa_ticket_id o)
       (oa_taker_mandate_digest o) (oa_batch_digest o) (oa_order_digest o))
    (oa_venue_id o) (oa_epoch o).

End Attestations.

(** ** Node order *)

Fixpoint nodes_upto (expected : N) (n : nat) : list N :=
  match n with O => [] | S n => expected :: nodes_upto (expected + 1) n end.

(** The nodes of the committee, [0..6]. *)
Definition committee : list N := nodes_upto 0 COMMITTEE_NODES.

Lemma nodes_from_ok {A} (node : A -> N) l : forall e,
  nodes_from node e l = true <-> node <$> l = nodes_upto e (length l).
Proof.
  induction l as [|v l IH]; intros e; cbn; [done|].
  rewrite andb_true_iff, N.eqb_eq, IH. split; [intros [-> ->]; done|]. by intros [= -> ->].
Qed.

Lemma nodes_upto_ge n : forall e x, x ∈ nodes_upto e n -> e <= x.
Proof.
  induction n as [|n IH]; intros e x Hx; cbn in Hx; [by apply not_elem_of_nil in Hx|].
  apply elem_of_cons in Hx as [->|Hx]; [lia|]. apply IH in Hx. lia.
Qed.

Lemma nodes_upto_nodup n : forall e, NoDup (nodes_upto e n).
Proof.
  induction n as [|n IH]; intros e; cbn; constructor; [|apply IH].
  intros H. apply nodes_upto_ge in H. lia.
Qed.

Lemma nodes_upto_sorted {A} (node : A -> N) l : forall e,
  node <$> l = nodes_upto e (length l) -> key_sorted N.leb node l.
Proof.
  induction l as [|v l IH]; intros e; cbn; [done|]. intros [= -> Hl]. split; [|by eapply IH].
  apply Forall_forall. intros w Hw. apply N.leb_le.
  assert (node w ∈ nodes_upto (e + 1) (length l)) as Hin
    by (rewrite <- Hl; by apply list_elem_of_fmap_2).
  apply nodes_upto_ge in Hin. lia.
Qed.

(** A list whose nodes are a committee prefix is what sorting any permutation
    of it returns. *)
Lemma sort_committee {A} (node : A -> N) l l' :
  node <$> l = nodes_upto 0 (length l) -> l' ≡ₚ l -> sort_by_key N.leb node l' = l.
Proof.
  intros Hn Hp. symmetry.
  apply (key_sorted_unique N.leb node).
  - by eapply nodes_upto_sorted.
  - apply sort_by_key_sorted, _.
  - rewrite Hn. apply nodes_upto_nodup.
  - by rewrite sort_by_key_perm.
Qed.

Lemma u32_try_from_ok x y : u32_try_from x = Some y <-> y = x /\ x <= U32_MAX.
Proof. unfold u32_try_from. destruct (N.leb_spec x U32_MAX); intuition (congruence || lia). Qed.

Lemma forallb_zip {A B} (f : A -> B -> bool) l : forall k,
  length l = length k ->
  forallb (fun vk => f vk.1 vk.2) (zip l k) = true <-> Forall2 (fun a b => f a b = true) l k.
Proof.
  induction l as [|a l IH]; intros [|b k] Hlen; try done; cbn.
  rewrite andb_true_iff, Forall2_cons, IH by (cbn in Hlen; lia). done.
Qed.

Lemma is_ok_true {E A} (r : result E A) : is_ok r = true <-> exists a, r = Ok a.
Proof. destruct r; cbn; naive_solver. Qed.

Section Lanes.
Context {SHA : Sha256} {HB : HybridBackend}.

(** ** The cluster digest *)

(** What the digest of a cluster binds. *)
Definition cluster_hash (slot : N) (order_digest : bytes) (ordered : list (N * bytes)) : bytes :=
  sha256 (CLUSTER_BATCH_DOMAIN ++ be_bytes 4 slot ++ order_digest
          ++ concat ((fun nb => be_bytes 2 nb.1 ++ nb.2) <$> ordered)).

Lemma cluster_batch_digest_ok slot order ordered d :
  ordered.*1 = committee ->
  cluster_batch_digest slot order ordered = Ok d <->
  order <> ZERO32 /\ Forall (fun nb => nb.2 <> ZERO32) ordered /\ d = cluster_hash slot order ordered.
Proof.
  intros Hn. assert (length ordered = COMMITTEE_NODES) as Hlen.
  { rewrite <- (length_fmap fst), Hn. done. }
  unfold cluster_batch_digest. rewrite (sort_committee fst ordered ordered);
    [|by rewrite Hlen|done].
  rewrite (proj2 (nodes_from_ok fst ordered 0)) by (by rewrite Hlen).
  rewrite (bool_decide_eq_true_2 (length ordered = COMMITTEE_NODES)) by done.
  cbn [negb orb]. rewrite orb_false_r, !if_err_ok, bool_decide_eq_false.
  assert (existsb (fun nb => bool_decide (nb.2 = ZERO32)) ordered = false
          <-> Forall (fun nb => nb.2 <> ZERO32) ordered) as ->.
  { clear. induction ordered as [|nb l IH]; cbn; [done|].
    rewrite orb_false_iff, Forall_cons, IH, bool_decide_eq_false. done. }
  unfold cluster_hash. naive_solver.
Qed.

(** ** Certified admission lanes *)

Definition admission_body_ok (a : NodeAdmissionAttestation) : Prop :=
  na_node a < 7 /\ 0 < na_sequence a <= I64_MAX /\ na_slot a <= I64_MAX
  /\ Forall (fun d => d <> ZERO32) [na_principal_digest a; na_ticket_id a; na_claim_digest a;
                                    na_batch_digest a; na_order_digest a].

Lemma admission_unsigned_ok a b : admission_unsigned a = Ok b -> admission_body_ok a.
Proof.
  unfold admission_unsigned. intros H. ok_inv. bool_inv. unfold admission_body_ok.
  rewrite <- contains_zero_false. split; [done|]. split; [lia|]. split; done.
Qed.

Lemma signed_ok_true body key s :
  signed_ok body key s = true <-> exists b, body = Ok b /\ App.verify key b s = Ok tt.
Proof.
  unfold signed_ok. destruct body as [b|e]; [|naive_solver].
  rewrite is_ok_true. split; [intros [[] ?]; eauto | intros (b' & [= ->] & ?); eauto].
Qed.

Lemma admission_verified_body a key : admission_verify a key = true -> admission_body_ok a.
Proof. intros (b & H & _)%signed_ok_true. by eapply admission_unsigned_ok. Qed.

Definition admission_matches (lane : CertifiedAdmissionLane) (a : NodeAdmissionAttestation) : Prop :=
  na_slot a = cl_slot lane /\ na_sequence a = cl_sequence lane
  /\ na_principal_digest a = cl_principal_digest lane /\ na_ticket_id a = cl_ticket_id lane
  /\ na_claim_digest a = cl_claim_digest lane /\ na_order_digest a = cl_order_digest lane.

Lemma admission_agrees_ok first v lane :
  admission_matches lane first -> admission_agrees first v = true <-> admission_matches lane v.
Proof.
  intros (H1 & H2 & H3 & H4 & H5 & H6). unfold admission_agrees, admission_matches.
  rewrite !andb_true_iff, !bool_decide_eq_true, !N.eqb_eq, H1, H2, H3, H4, H5, H6. tauto.
Qed.

(** The seven statements in node order, each verified under its node's key. *)
Definition seven_signed {A} (node : A -> N) (verified : A -> bytes -> bool)
    (attestations ordered : list A) (keys : list bytes) : Prop :=
  attestations ≡ₚ ordered /\ node <$> ordered = committee
  /\ Forall2 (fun a k => verified a k = true) ordered keys.

Lemma all_verified_ok {A} (node : A -> N) verified (atts : list A) keys :
  length atts = COMMITTEE_NODES -> length keys = COMMITTEE_NODES ->
  all_verified node verified (sort_by_key N.leb node atts) keys = true
  <-> seven_signed node verified atts (sort_by_key N.leb node atts) keys.
Proof.
  intros Hl Hk. unfold all_verified, seven_signed.
  rewrite andb_true_iff, nodes_from_ok, sort_by_key_length, Hl, forallb_zip
    by (by rewrite sort_by_key_length, Hl).
  split; [|tauto]. intros [Hn Hf]. split; [by rewrite sort_by_key_perm|]. done.
Qed.

Lemma seven_signed_sort {A} (node : A -> N) verified (atts ordered : list A) keys :
  seven_signed node verified atts ordered keys ->
  length atts = COMMITTEE_NODES /\ length keys = COMMITTEE_NODES
  /\ sort_by_key N.leb node atts = ordered.
Proof.
  intros (Hp & Hn & Hf).
  assert (length ordered = COMMITTEE_NODES) as Hlen
    by (rewrite <- (length_fmap node), Hn; done).
  split; [by rewrite Hp|]. split; [by rewrite <- (Forall2_length _ _ _ Hf)|].
  apply sort_committee; [by rewrite Hlen | done].
Qed.

Lemma verified_batches ordered keys :
  Forall2 (fun a k => admission_verify a k = true) ordered keys ->
  Forall admission_body_ok ordered.
Proof.
  intros H. induction H as [|a k l ks Ha Hl IH]; constructor; [|done].
  by eapply admission_verified_body.
Qed.

(** What a certified admission lane stands for. *)
Definition admission_certified (atts : list NodeAdmissionAttestation) (keys : list bytes)
    (lane : CertifiedAdmissionLane) : Prop :=
  exists ordered,
    seven_signed na_node admission_verify atts ordered keys
    /\ Forall (admission_matches lane) ordered
    /\ cl_slot lane <= U32_MAX
    /\ cl_cluster_digest lane = cluster_hash (cl_slot lane) (cl_order_digest lane)
         ((fun v => (na_node v, na_batch_digest v)) <$> ordered).

Lemma admission_lane_sound atts keys lane :
  verify_admission_lane atts keys = Ok lane -> admission_certified atts keys lane.
Proof.
  unfold verify_admission_lane. intros H. ok_inv. bool_inv. rename select (all_verified _ _ _ _ = true) into Hver.
  apply all_verified_ok in Hver; [|done..].
  remember (sort_by_key N.leb na_node atts) as ordered eqn:Hord.
  destruct ordered as [|first rest]; [done|]. ok_inv. bool_inv.
  rename select (u32_try_from _ = _) into Hu32. apply u32_try_from_ok in Hu32 as [-> Hslot].
  rename select (cluster_batch_digest _ _ _ = _) into Hcluster.
  rename select (forallb _ _ = true) into Hagree. exists (first :: rest).
  pose proof Hver as (_ & Hn & _). apply cluster_batch_digest_ok in Hcluster as (_ & _ & ->).
  2: { rewrite <- list_fmap_compose. exact Hn. }
  assert (admission_matches lane first) as Hf by (by subst lane).
  split; [done|]. split.
  + constructor; [done|]. apply Forall_forall. intros v Hv.
    apply (admission_agrees_ok first v lane Hf).
    by apply (proj1 (forallb_forall _ _) Hagree), list_elem_of_In.
  + by subst lane.
Qed.

Lemma admission_lane_complete atts keys lane :
  admission_certified atts keys lane -> verify_admission_lane atts keys = Ok lane.
Proof.
  unfold verify_admission_lane. intros (ordered & Hs & Hm & Hslot & Hc).
  destruct (seven_signed_sort _ _ _ _ _ Hs) as (Hl & Hk & Hsort).
  rewrite (proj2 (all_verified_ok na_node admission_verify atts keys Hl Hk))
    by (by rewrite Hsort).
  rewrite !bool_decide_eq_true_2 by done. cbn [negb orb]. rewrite Hsort.
  destruct Hs as (_ & Hn & Hf). apply verified_batches in Hf.
  destruct ordered as [|first rest]; [done|].
  apply Forall_cons in Hm as [Hfirst Hm]. pose proof Hf as Hf'.
  apply Forall_cons in Hf' as [Hbody _].
  assert (forallb (admission_agrees first) rest = true) as ->.
  { apply forallb_forall. intros v Hv. apply (admission_agrees_ok first v lane Hfirst).
    rewrite Forall_forall in Hm. by apply Hm, list_elem_of_In. }
  cbn [negb]. destruct Hfirst as (H1 & H2 & H3 & H4 & H5 & H6).
  rewrite (proj2 (u32_try_from_ok (na_slot first) (na_slot first))) by (by rewrite H1).
  cbn [ok_or mbind result_bind].
  assert (cluster_batch_digest (na_slot first) (na_order_digest first)
            ((fun v => (na_node v, na_batch_digest v)) <$> first :: rest)
          = Ok (cl_cluster_digest lane)) as ->.
  { apply cluster_batch_digest_ok; [rewrite <- list_fmap_compose; exact Hn|].
    split; [|split].
    - destruct Hbody as (_ & _ & _ & Hz). rewrite !Forall_cons in Hz. tauto.
    - apply Forall_fmap. eapply Forall_impl; [exact Hf|]. intros v (_ & _ & _ & Hz). cbn.
      rewrite !Forall_cons in Hz. tauto.
    - by rewrite H1, H6. }
  cbn. rewrite H1, H2, H3, H4, H5, H6. by destruct lane.
Qed.

(** A lane is certified exactly by the whole committee: whatever order the
    statements arrive in, [verify_admission_lane] returns a lane if and only if
    the statements are one per node [0..6], each signed under that node's
    trusted key, all seven agree with the lane on slot, sequence, principal,
    ticket, claim and order, the slot fits 32 bits, and the lane's cluster
    digest is the hash of the slot, the order and the seven batch digests in
    node order. *)
Theorem admission_lane_iff atts keys lane :
  verify_admission_lane atts keys = Ok lane <->
  admission_certified atts keys lane.
Proof. split; [apply admission_lane_sound | apply admission_lane_complete]. Qed.

(** ** Certified execution lanes *)

Lemma execution_unsigned_ok a b :
  execution_unsigned a = Ok b ->
  ne_node a < 7 /\ ne_slot a <= U32_MAX /\ ne_batch_digest a <> ZERO32
  /\ recompute_receipt_digest a = Ok (ne_receipt_digest a).
Proof.
  unfold execution_unsigned. intros H. ok_inv. bool_inv. subst.
  rename select (contains_zero _ = false) into Hz.
  apply contains_zero_false in Hz. rewrite !Forall_cons in Hz.
  rename select (recompute_receipt_digest a = _) into Hr. pose proof Hr as Hr'.
  unfold recompute_receipt_digest in Hr'. ok_inv.
  rename select (u32_try_from _ = _) into Hu. apply u32_try_from_ok in Hu as [_ Hu]. tauto.
Qed.

(** The shape of a run: state generation, frames and inputs. *)
Definition execution_matches (lane : CertifiedExecutionLane) (shape : N * N * N)
    (a : NodeExecutionAttestation) : Prop :=
  ne_slot a = ce_slot lane /\ ne_lane a = ce_lane lane /\ ne_source_digest a = ce_source_digest lane
  /\ ne_state_generation a = shape.1.1 /\ ne_frame_count a = shape.1.2
  /\ ne_input_count a = shape.2.

Lemma execution_agrees_ok first v lane shape :
  execution_matches lane shape first ->
  execution_agrees first v = true <-> execution_matches lane shape v.
Proof.
  intros (H1 & H2 & H3 & H4 & H5 & H6). unfold execution_agrees, execution_matches.
  rewrite !andb_true_iff, !bool_decide_eq_true, !N.eqb_eq, H1, H2, H3, H4, H5, H6. tauto.
Qed.

(** What the digests of a lane bind. *)
Definition execution_bound (lane : CertifiedExecutionLane) (shape : N * N * N) (order : bytes)
    (ordered : list NodeExecutionAttestation) : Prop :=
  order <> ZERO32
  /\ ce_cluster_digest lane = cluster_hash (ce_slot lane) order
       ((fun v => (ne_node v, ne_batch_digest v)) <$> ordered)
  /\ ce_digest lane = sha256 (EXECUTION_LANE_DOMAIN ++ be_bytes 8 (ce_slot lane)
       ++ be_bytes 8 (ce_lane lane) ++ ce_cluster_digest lane ++ ce_source_digest lane
       ++ be_bytes 8 shape.1.1 ++ be_bytes 8 shape.1.2 ++ be_bytes 8 shape.2
       ++ concat ((fun v => be_bytes 2 (ne_node v) ++ ne_receipt_digest v) <$> ordered)).

Lemma execution_batches ordered :
  ne_node <$> ordered = committee ->
  ((fun v => (ne_node v, ne_batch_digest v)) <$> ordered).*1 = committee.
Proof. intros Hn. rewrite <- list_fmap_compose. exact Hn. Qed.

Lemma derive_execution_sound ordered order lane :
  ne_node <$> ordered = committee -> derive_execution_lane ordered order = Ok lane ->
  exists shape, Forall (execution_matches lane shape) ordered
    /\ execution_bound lane shape order ordered.
Proof.
  intros Hn. assert (length ordered = COMMITTEE_NODES) as Hlen
    by (rewrite <- (length_fmap ne_node), Hn; done).
  unfold derive_execution_lane. rewrite (sort_committee ne_node ordered ordered);
    [|by rewrite Hlen|done].
  destruct ordered as [|first rest]; [done|]. intros H. ok_inv. bool_inv.
  rename select (u32_try_from _ = _) into Hu32. apply u32_try_from_ok in Hu32 as [-> Hslot].
  rename select (cluster_batch_digest _ _ _ = _) into Hcluster.
  rename select (forallb (execution_agrees _) _ = true) into Hagree.
  apply cluster_batch_digest_ok in Hcluster as (Ho & _ & ->); [|by apply execution_batches].
  set (shape := (ne_state_generation first, ne_frame_count first, ne_input_count first)).
  exists shape. assert (execution_matches lane shape first) as Hf by (by subst lane).
  split.
  - constructor; [done|]. apply Forall_forall. intros v Hv.
    apply (execution_agrees_ok first v lane shape Hf).
    by apply (proj1 (forallb_forall _ _) Hagree), list_elem_of_In.
  - split; [done|]. by subst lane.
Qed.

Lemma derive_execution_complete ordered order lane shape :
  ne_node <$> ordered = committee ->
  Forall (fun a => is_ok (execution_unsigned a) = true) ordered ->
  Forall (execution_matches lane shape) ordered -> execution_bound lane shape order ordered ->
  derive_execution_lane ordered order = Ok lane.
Proof.
  intros Hn Hu Hm (Ho & Hc & Hd). assert (length ordered = COMMITTEE_NODES) as Hlen
    by (rewrite <- (length_fmap ne_node), Hn; done).
  unfold derive_execution_lane. rewrite (sort_committee ne_node ordered ordered);
    [|by rewrite Hlen|done].
  rewrite bool_decide_eq_true_2 by done.
  rewrite (proj2 (nodes_from_ok ne_node ordered 0)) by (by rewrite Hlen).
  assert (forallb (fun value => is_ok (execution_unsigned value)) ordered = true) as ->.
  { apply forallb_forall. intros v Hv. rewrite Forall_forall in Hu. by apply Hu, list_elem_of_In. }
  cbn [negb andb]. destruct ordered as [|first rest]; [done|].
  apply Forall_cons in Hm as [Hfirst Hm].
  assert (forallb (execution_agrees first) rest = true) as ->.
  { apply forallb_forall. intros v Hv. apply (execution_agrees_ok first v lane shape Hfirst).
    rewrite Forall_forall in Hm. by apply Hm, list_elem_of_In. }
  assert (Forall (fun a => ne_slot a <= U32_MAX /\ ne_batch_digest a <> ZERO32) (first :: rest)) as Hb.
  { eapply Forall_impl; [exact Hu|]. intros a (b & Hb)%is_ok_true.
    apply execution_unsigned_ok in Hb. tauto. }
  destruct Hfirst as (H1 & H2 & H3 & H4 & H5 & H6). pose proof Hb as Hb'.
  apply Forall_cons in Hb' as [[Hslot _] _].
  rewrite (proj2 (u32_try_from_ok (ne_slot first) (ne_slot first))) by done.
  cbn [negb ok_or mbind result_bind].
  assert (cluster_batch_digest (ne_slot first) order
            ((fun v => (ne_node v, ne_batch_digest v)) <$> first :: rest)
          = Ok (ce_cluster_digest lane)) as ->.
  { apply cluster_batch_digest_ok; [by apply execution_batches|]. split; [done|].
    split; [|by rewrite H1]. apply Forall_fmap. eapply Forall_impl; [exact Hb|]. naive_solver. }
  cbn [mbind result_bind]. rewrite H1, H2, H3, H4, H5, H6, <- Hd. by destruct lane.
Qed.

(** An execution lane is certified exactly by seven consistent receipts:
    [verify_execution_lane] returns a lane if and only if the statements are
    one per node [0..6] in any arrival order, each signed under its node's key
    (so its receipt digest is the one recomputed from its fields), all seven
    agree on slot, lane, source and run shape, the order digest is not zero,
    and the lane's digests bind the slot, the order, every node's batch and
    every node's receipt. *)
Theorem execution_lane_iff atts keys order lane :
  verify_execution_lane atts keys order = Ok lane <->
  exists ordered shape,
    seven_signed ne_node execution_verify atts ordered keys
    /\ Forall (fun a => recompute_receipt_digest a = Ok (ne_receipt_digest a)) ordered
    /\ Forall (execution_matches lane shape) ordered
    /\ execution_bound lane shape order ordered.
Proof.
  assert (forall ordered, Forall2 (fun a k => execution_verify a k = true) ordered keys ->
    Forall (fun a => exists b, execution_unsigned a = Ok b) ordered) as Hver.
  { intros ordered. generalize keys. induction 1 as [|a k l ks Ha Hl IH]; constructor; [|done].
    apply signed_ok_true in Ha as (b & Hb & _). eauto. }
  unfold verify_execution_lane. split.
  - intros H. ok_inv. bool_inv. rename select (all_verified _ _ _ _ = true) into Hs.
    apply all_verified_ok in Hs; [|done..]. exists (sort_by_key N.leb ne_node atts).
    pose proof Hs as (_ & Hn & Hf). apply Hver in Hf.
    apply derive_execution_sound in H as (shape & Hm & Hb); [|done]. exists shape.
    split; [done|]. split; [|done]. eapply Forall_impl; [exact Hf|].
    intros a [b Ha]. apply execution_unsigned_ok in Ha. tauto.
  - intros (ordered & shape & Hs & _ & Hm & Hb).
    destruct (seven_signed_sort _ _ _ _ _ Hs) as (Hl & Hk & Hsort).
    rewrite (proj2 (all_verified_ok ne_node execution_verify atts keys Hl Hk))
      by (by rewrite Hsort).
    rewrite !bool_decide_eq_true_2 by done. cbn [negb orb]. rewrite Hsort.
    destruct Hs as (_ & Hn & Hf). apply Hver in Hf.
    eapply (derive_execution_complete ordered order lane shape); try done.
    eapply Forall_impl; [exact Hf|]. intros a Ha. by apply is_ok_true.
Qed.
End Lanes.

(** ** Wires *)

Section Wires.
Context {SHA : Sha256} {HB : HybridBackend} {HL : HybridLaws}.

(** Step a decoder over a buffer that starts with the encoded field. *)
Ltac read_field := rewrite take_bytes_app by (rewrite ?be_bytes_length; done); cbv beta iota.
(** Open the next field of a buffer that is long enough. *)
Ltac open_field :=
  match goal with
  | H : context [take_bytes ?n ?raw] |- _ =>
      let p := fresh "p" in let rest := fresh "rest" in let E := fresh "E" in
      destruct (take_bytes n raw) as [p rest] eqn:E;
      apply take_bytes_inv in E as (-> & ? & ?); [|unfold App.SIGNATURE_BYTES, App.PUBLIC_KEY_BYTES; lia];
      cbv beta iota in H
  end.

Lemma signature_try_from_ok s : App.signature_try_from s = Ok s <-> App.signature_validate s = Ok tt.
Proof. unfold App.signature_try_from. destruct (App.signature_validate s) as [[]|[]]; done. Qed.

Lemma signature_try_from_inv {E} (f : App.SignatureError -> E) s s' :
  map_err f (App.signature_try_from s) = Ok s' -> s' = s /\ App.signature_validate s = Ok tt.
Proof.
  unfold App.signature_try_from. destruct (App.signature_validate s) as [[]|[]]; cbn; [|done].
  by intros [= ->].
Qed.

Lemma signature_validate_length s :
  App.signature_validate s = Ok tt -> length s = App.SIGNATURE_BYTES.
Proof. unfold App.signature_validate. intros H. ok_inv. by bool_inv. Qed.

(** A statement the wire can carry: complete, with 32-byte digests and a
    signature envelope of the enrolled suite. *)
Definition admission_wf (a : NodeAdmissionAttestation) : Prop :=
  is_ok (admission_unsigned a) = true
  /\ Forall (fun d => length d = 32%nat) [na_principal_digest a; na_ticket_id a;
       na_claim_digest a; na_batch_digest a; na_order_digest a]
  /\ App.signature_validate (na_signature a) = Ok tt.

#[local] Instance admission_codec :
  RecordCodec read_admission admission_record admission_wf ADMISSION_RECORD_BYTES.
Proof using HL.
  split.
  - intros a (_ & Hd & Hs). rewrite !Forall_cons in Hd. apply signature_validate_length in Hs.
    unfold admission_record. rewrite !length_app, !be_bytes_length, Hs.
    destruct Hd as (-> & -> & -> & -> & -> & _). done.
  - intros a rest ([b Hb]%is_ok_true & Hd & Hs).
    pose proof (admission_unsigned_ok _ _ Hb) as (Hn & Hq & Hslot & _).
    rewrite !Forall_cons in Hd. destruct Hd as (H1 & H2 & H3 & H4 & H5 & _).
    pose proof (signature_validate_length _ Hs) as Hsl.
    unfold read_admission, admission_record. rewrite <- !app_assoc. do 9 read_field.
    rewrite (proj2 (signature_try_from_ok _) Hs). cbn [map_err mbind result_bind].
    rewrite !of_be_bytes_be_small by (unfold I64_MAX in *; cbn; lia).
    destruct a; cbn in *. by rewrite Hb.
  - intros raw a rest Hlen Hr. unfold read_admission in Hr.
    unfold ADMISSION_RECORD_BYTES, App.SIGNATURE_BYTES, App.PUBLIC_KEY_BYTES in Hlen.
    do 9 open_field. apply bind_ok in Hr as (s & Hs & Hr).
    apply signature_try_from_inv in Hs as [-> Hs]. apply bind_ok in Hr as (b & Hb & [= <- <-]).
    unfold admission_wf, admission_record.
    cbn [na_node na_slot na_sequence na_principal_digest na_ticket_id na_claim_digest
         na_batch_digest na_order_digest na_signature].
    rewrite Hb, !be_bytes_of_be' by done. split; [by repeat constructor | by rewrite <- !app_assoc].
Qed.

Definition execution_wf (a : NodeExecutionAttestation) : Prop :=
  is_ok (execution_unsigned a) = true
  /\ ne_state_generation a < 256 ^ 8
  /\ Forall (fun d => length d = 32%nat) [ne_batch_digest a; ne_source_digest a;
       ne_stdout_digest a; ne_stderr_digest a; ne_persistence_digest a; ne_receipt_digest a]
  /\ App.signature_validate (ne_signature a) = Ok tt.

Lemma execution_unsigned_bounds a b :
  execution_unsigned a = Ok b ->
  ne_lane a <= 4095 /\ ne_frame_count a <= 4096 /\ ne_input_count a <= 1000000.
Proof using Type. unfold execution_unsigned. intros H. ok_inv. bool_inv. lia. Qed.

#[local] Instance execution_codec :
  RecordCodec read_execution execution_record execution_wf EXECUTION_RECORD_BYTES.
Proof using HL.
  split.
  - intros a (_ & _ & Hd & Hs). rewrite !Forall_cons in Hd. apply signature_validate_length in Hs.
    unfold execution_record. rewrite !length_app, !be_bytes_length, Hs.
    destruct Hd as (-> & -> & -> & -> & -> & -> & _). done.
  - intros a rest ([b Hb]%is_ok_true & Hg & Hd & Hs).
    pose proof (execution_unsigned_ok _ _ Hb) as (Hn & Hslot & _).
    pose proof (execution_unsigned_bounds _ _ Hb) as (Hlane & Hfc & Hic).
    rewrite !Forall_cons in Hd. destruct Hd as (H1 & H2 & H3 & H4 & H5 & H6 & _).
    pose proof (signature_validate_length _ Hs) as Hsl.
    unfold read_execution, execution_record. rewrite <- !app_assoc. do 13 read_field.
    rewrite (proj2 (signature_try_from_ok _) Hs). cbn [map_err mbind result_bind].
    rewrite !of_be_bytes_be_small by (unfold U32_MAX in *; cbn in *; lia).
    destruct a; cbn in *. by rewrite Hb.
  - intros raw a rest Hlen Hr. unfold read_execution in Hr.
    unfold EXECUTION_RECORD_BYTES, App.SIGNATURE_BYTES, App.PUBLIC_KEY_BYTES in Hlen.
    do 13 open_field. apply bind_ok in Hr as (s & Hs & Hr).
    apply signature_try_from_inv in Hs as [-> Hs]. apply bind_ok in Hr as (b & Hb & [= <- <-]).
    unfold execution_wf, execution_record.
    cbn [ne_node ne_slot ne_lane ne_batch_digest ne_source_digest ne_state_generation
         ne_frame_count ne_input_count ne_stdout_digest ne_stderr_digest ne_persistence_digest
         ne_receipt_digest ne_signature].
    rewrite Hb, !be_bytes_of_be' by done.
    split; [|by rewrite <- !app_assoc]. split; [done|]. split; [by apply (of_be_bytes_bound' 8)|].
    by repeat constructor.
Qed.

(** A wire is a magic, a two-byte count and the records. *)
Lemma wire_header_inv magic raw count :
  (length magic + 2 <= length raw)%nat -> take (length magic) raw = magic ->
  N.to_nat (of_be_bytes (slice (length magic) (length magic + 2) raw)) = count ->
  raw = magic ++ be_bytes 2 (N.of_nat count) ++ drop (length magic + 2) raw.
Proof using Type.
  intros Hlen Hm <-. rewrite N2Nat.id, be_bytes_of_be' by (rewrite slice_length by lia; lia).
  rewrite <- Hm at 1. rewrite app_assoc, <- slice_split by lia. by rewrite take_drop.
Qed.

Lemma wire_header_app magic count body raw :
  N.of_nat count < 256 ^ 2 -> raw = magic ++ be_bytes 2 (N.of_nat count) ++ body ->
  length raw = (length magic + 2 + length body)%nat /\ take (length magic) raw = magic
  /\ N.to_nat (of_be_bytes (slice (length magic) (length magic + 2) raw)) = count
  /\ drop (length magic + 2) raw = body.
Proof using Type.
  intros Hc ->. rewrite !length_app, be_bytes_length. split; [lia|].
  rewrite take_app_length. split; [done|]. split.
  - rewrite (slice_mid _ _ magic (be_bytes 2 (N.of_nat count))) by (by rewrite ?be_bytes_length).
    rewrite of_be_bytes_be_small by done. by rewrite Nat2N.id.
  - rewrite app_assoc, drop_app_length'; [done|]. by rewrite length_app, be_bytes_length.
Qed.

Lemma map_res_records {A} (unsigned : A -> result string bytes) (record : A -> bytes) values rs :
  map_res (fun value => _ ← unsigned value; Ok (record value)) values = Ok rs <->
  Forall (fun a => is_ok (unsigned a) = true) values /\ rs = record <$> values.
Proof using Type.
  rewrite map_res_ok. revert rs. induction values as [|a l IH]; intros rs.
  - split; [by inversion 1 | intros [_ ->]; constructor].
  - rewrite Forall_cons. split.
    + inversion 1 as [|? r ? rs' Hr Hrs]; subst. apply bind_ok in Hr as (b & -> & [= <-]).
      apply IH in Hrs as [Hl ->]. done.
    + intros [[Ha Hl] ->]. cbn. constructor; [|by apply IH].
      destruct (unsigned a); [done|discriminate].
Qed.

(** The admission wire is canonical: [decode_admission_attestations]
    accepts exactly the encodings of seven complete, correctly sized statements
    in node order, and returns the statements that were encoded. *)
Theorem admission_wire_roundtrip raw vs :
  decode_admission_attestations raw = Ok vs <->
  na_node <$> vs = committee /\ Forall admission_wf vs
  /\ encode_admission_attestations vs = Ok raw.
Proof using HL.
  assert (forall vs, na_node <$> vs = committee -> encode_admission_attestations vs =
    (records ← map_res (fun v => _ ← admission_unsigned v; Ok (admission_record v)) vs;
     Ok (ADMISSION_WIRE_MAGIC ++ be_bytes 2 (N.of_nat COMMITTEE_NODES) ++ concat records)) ) as Henc.
  { intros l Hn. assert (length l = COMMITTEE_NODES) as Hlen
      by (rewrite <- (length_fmap na_node), Hn; done).
    unfold encode_admission_attestations. rewrite bool_decide_eq_true_2 by done.
    rewrite (sort_committee na_node l l); [|by rewrite Hlen|done]. cbn [negb]. by rewrite Hlen. }
  unfold decode_admission_attestations. split.
  - intros H. ok_inv. bool_inv. subst.
    rename select (read_records _ _ _ = _) into Hr. rename select (nodes_from _ _ _ = true) into Hn.
    match goal with H : N.to_nat _ = _ |- _ => rewrite H in *; rename H into Hcount end.
    assert (length (drop (length ADMISSION_WIRE_MAGIC + 2) raw)
            = (COMMITTEE_NODES * ADMISSION_RECORD_BYTES)%nat) as Hbody
      by (rewrite length_drop; lia).
    apply (read_records_inv (CODEC := admission_codec)) in Hr as (Hwf & Hl & Hcat); [|done].
    apply nodes_from_ok in Hn. rewrite Hl in Hn. split; [done|]. split; [done|].
    rewrite Henc by done. apply bind_ok. exists (admission_record <$> vs). split.
    + apply map_res_records. split; [|done]. eapply Forall_impl; [exact Hwf|]. by intros a [? _].
    + rewrite <- Hcat. f_equal. symmetry. apply wire_header_inv; [lia|done|done].
  - intros (Hn & Hwf & He). rewrite Henc in He by done. ok_inv.
    rename select (map_res _ _ = _) into Hm. apply map_res_records in Hm as [_ ->].
    assert (length vs = COMMITTEE_NODES) as Hlen by (rewrite <- (length_fmap na_node), Hn; done).
    destruct (wire_header_app ADMISSION_WIRE_MAGIC COMMITTEE_NODES
                (concat (admission_record <$> vs)) raw ltac:(done) (eq_sym He)) as (Hl & Ht & Hc & Hd).
    rewrite Ht.
    rewrite Hc, Hd, Hl, (records_size (CODEC := admission_codec) vs Hwf), Hlen.
    rewrite bool_decide_eq_false_2 by lia. rewrite !bool_decide_eq_true_2 by done.
    cbn [negb orb]. rewrite <- Hlen at 1.
    rewrite (read_records_write (CODEC := admission_codec)) by done. cbn [mbind result_bind].
    rewrite (proj2 (nodes_from_ok na_node vs 0)) by (by rewrite Hlen). done.
Qed.

Lemma decode_execution_wire_ok raw n vs :
  N.of_nat n < 256 ^ 2 ->
  decode_execution_attestation_wire raw n = Ok vs <->
  length vs = n /\ Forall execution_wf vs
  /\ raw = EXECUTION_WIRE_MAGIC ++ be_bytes 2 (N.of_nat n) ++ concat (execution_record <$> vs).
Proof using HL.
  intros Hn16. unfold decode_execution_attestation_wire. split.
  - intros H. ok_inv. bool_inv. rename H into Hr.
    match goal with H : N.to_nat _ = _ |- _ => rewrite H in *; rename H into Hcount end.
    assert (length (drop (length EXECUTION_WIRE_MAGIC + 2) raw)
            = (n * EXECUTION_RECORD_BYTES)%nat) as Hbody by (rewrite length_drop; lia).
    apply (read_records_inv (CODEC := execution_codec)) in Hr as (Hwf & Hl & Hcat); [|done].
    split; [done|]. split; [done|]. rewrite <- Hcat. apply wire_header_inv; [lia|done|done].
  - intros (Hlen & Hwf & Hraw).
    destruct (wire_header_app EXECUTION_WIRE_MAGIC n (concat (execution_record <$> vs)) raw Hn16 Hraw)
      as (Hl & Ht & Hc & Hd).
    rewrite Ht, Hc, Hd, Hl, (records_size (CODEC := execution_codec) vs Hwf), Hlen.
    rewrite bool_decide_eq_false_2 by lia. rewrite !bool_decide_eq_true_2 by done.
    cbn [negb orb]. rewrite <- Hlen. by apply (read_records_write (CODEC := execution_codec)).
Qed.

Lemma encode_execution_wire_ok vs raw :
  ne_node <$> vs = nodes_upto 0 (length vs) \/ length vs = 1%nat -> Forall execution_wf vs ->
  encode_execution_attestation_wire vs = Ok raw <->
  raw = EXECUTION_WIRE_MAGIC ++ be_bytes 2 (N.of_nat (length vs)) ++ concat (execution_record <$> vs).
Proof using Type.
  intros Hsorted Hwf. unfold encode_execution_attestation_wire.
  assert (sort_by_key N.leb ne_node vs = vs) as ->.
  { destruct Hsorted as [Hn|Hl]; [by apply sort_committee|]. by destruct vs as [|a [|]]. }
  rewrite bind_ok. split.
  - intros (rs & Hrs & [= <-]). by apply map_res_records in Hrs as [_ ->].
  - intros ->. eexists. split; [|done]. apply map_res_records. split; [|done].
    eapply Forall_impl; [exact Hwf|]. by intros a [? _].
Qed.

(** The execution wires are canonical: the seven-node decoder accepts
    exactly the encodings of seven complete, consistent receipts in node order,
    the single-node decoder exactly the encoding of one, and each returns the
    receipts that were encoded. *)
Theorem execution_wire_roundtrip raw vs v :
  (decode_execution_attestations raw = Ok vs <->
   ne_node <$> vs = committee /\ Forall execution_wf vs
   /\ encode_execution_attestations vs = Ok raw)
  /\ (decode_node_execution_attestation raw = Ok v <->
      execution_wf v /\ encode_node_execution_attestation v = Ok raw).
Proof using HL.
  split.
  - unfold decode_execution_attestations, encode_execution_attestations. split.
    + intros H. ok_inv. bool_inv. subst. rename select (nodes_from _ _ _ = true) into Hn.
      rename select (decode_execution_attestation_wire _ _ = _) into Hd.
      apply decode_execution_wire_ok in Hd as (Hlen & Hwf & Hraw); [|done].
      apply nodes_from_ok in Hn. split; [by rewrite Hn, Hlen|]. split; [done|].
      rewrite bool_decide_eq_true_2 by done. apply encode_execution_wire_ok; auto.
      by rewrite Hlen.
    + intros (Hn & Hwf & He).
      assert (length vs = COMMITTEE_NODES) as Hlen by (rewrite <- (length_fmap ne_node), Hn; done).
      rewrite bool_decide_eq_true_2 in He by done.
      apply encode_execution_wire_ok in He; [|left; by rewrite Hlen|done]. rewrite Hlen in He.
      rewrite (proj2 (decode_execution_wire_ok raw COMMITTEE_NODES vs ltac:(done))) by done.
      cbn [mbind result_bind]. rewrite (proj2 (nodes_from_ok ne_node vs 0)) by (by rewrite Hlen).
      done.
  - unfold decode_node_execution_attestation, encode_node_execution_attestation. split.
    + intros H. ok_inv. bool_inv. subst.
      rename select (decode_execution_attestation_wire _ _ = _) into Hd.
      apply decode_execution_wire_ok in Hd as (Hlen & Hwf & Hraw); [|done].
      destruct x as [|w [|]]; try done. rename select (last [w] = _) into Hlast.
      injection Hlast as ->. split; [by apply Forall_cons in Hwf as [? _]|].
      apply encode_execution_wire_ok; auto.
    + intros (Hwf & He). assert (Forall execution_wf [v]) as Hwfs by by constructor.
      apply encode_execution_wire_ok in He; [|by right|done].
      rewrite (proj2 (decode_execution_wire_ok raw 1 [v] ltac:(done))) by done.
      cbn. destruct Hwf as ([b Hb]%is_ok_true & _). apply execution_unsigned_ok in Hb as [Hn _].
      by rewrite (proj2 (N.leb_gt 7 (ne_node v))).
Qed.
End Wires.
