(* ===== verification/Sealer.v ===== *)
(** * Tickets and the sealing of a fixed slot

    Model of the second part of [zkpi-committee/src/order.rs] and its properties:
    the states of a sealer as a step relation over its operations, the invariant
    that ties frames to receipts, and the promises of the slot: a fixed
    population, one frame per ticket, an order that depends only on the population
    and the beacon, and no honest sealer that can be accused of an omission. *)

From stdpp Require Import pretty.
From S2P Require Import Prelude.
From S2P Require Import Interfaces.
From S2P Require Import Sorting.
From S2P Require Import Wire.
From S2P Require Import ApplicationCrypto.
From S2P Require Import Order.

(** ** The model

    Model of the second part of rust/zkpi-committee/src/order.rs: admission
    tickets and the authority that issues them, the randomness beacon, admission
    receipts, batch manifests and [FixedSlotSealer], which admits one frame per
    precommitted ticket and closes the slot in the beacon's order.  Operations
    on [&mut self] return the new object; an index into a map that lacks the
    key is the value [Panic]. *)

(** How an operation fails: with its error value or by panicking. *)
Inductive failure : Type :=
  | Error (message : string)
  | Panic.

Record AdmissionTicket := mkTicket {
  tk_slot : N;
  tk_ticket_id : bytes;
  tk_issued_at : N;
  tk_expires_at : N;
  tk_signature : bytes
}.

Record RandomnessBeacon := mkBeacon {
  rb_round : N;
  rb_value : bytes;
  rb_signature : bytes
}.

Record AdmissionReceipt := mkReceipt {
  ar_slot : N;
  ar_node : N;
  ar_ticket_digest : bytes;
  ar_frame_digest : bytes;
  ar_received_at_ns : N;
  ar_signature : bytes
}.

Record BatchManifest := mkManifest {
  bm_slot : N;
  bm_node : N;
  bm_beacon_round : N;
  bm_beacon_value : bytes;
  bm_ordered_ticket_digests : list bytes;
  bm_ordered_frame_digests : list bytes;
  bm_previous_digest : bytes;
  bm_signature : bytes
}.

Section Sealing.
Context {SHA : Sha256} {HB : HybridBackend}.

(** The hash of length-prefixed parts. *)
Definition parts_digest (parts : list bytes) : bytes :=
  sha256 (concat ((fun part => be_bytes 4 (N.of_nat (length part)) ++ part) <$> parts)).

(** [hmac]: the key hashed when longer than 64 bytes, zero-padded to a block. *)
Definition order_hmac (key body : bytes) : bytes :=
  let k := if bool_decide (64 < length key)%nat then sha256 key else key in
  let block := k ++ replicate (64 - length k) x00 in
  sha256 ((lxor_byte x5c <$> block) ++ sha256 ((lxor_byte x36 <$> block) ++ body)).

(** ** Tickets *)

Definition ticket_unsigned (t : AdmissionTicket) : result string bytes :=
  if tk_expires_at t <=? tk_issued_at t then Err "ticket expiry must follow issuance"
  else Ok (TICKET_DOMAIN ++ be_bytes 8 (tk_slot t) ++ tk_ticket_id t
           ++ be_bytes 8 (tk_issued_at t) ++ be_bytes 8 (tk_expires_at t)).

Definition ticket_digest (t : AdmissionTicket) : result string bytes :=
  body ← ticket_unsigned t; Ok (parts_digest [body; tk_signature t]).

Definition ticket_verify (t : AdmissionTicket) (authority : bytes) (now : N) : bool :=
  (tk_issued_at t <=? now) && (now <=? tk_expires_at t)
  && signed_ok (ticket_unsigned t) authority (tk_signature t).

Record AdmissionAuthority := mkAuthority {
  aa_signing_key : App.SigningKey;
  aa_entity_key : bytes;
  aa_issued : gmap (N * bytes) bytes
}.

Definition authority_new (signing_key : App.SigningKey) (entity_key : bytes) :
    result string AdmissionAuthority :=
  if bool_decide (length entity_key < 32)%nat
  then Err "entity nullifier key must contain at least 32 bytes"
  else Ok (mkAuthority signing_key entity_key ∅).

Definition entity_nullifier (a : AdmissionAuthority) (entity_id : bytes) : result string bytes :=
  if bool_decide (entity_id = []) then Err "an empty legal-entity identifier is not admissible"
  else Ok (order_hmac (aa_entity_key a) (bstr "QOMM:ENTITY:v1" ++ entity_id)).

(** [clock] and [fresh_id] are what the clock and the random generator return
    when the caller leaves the time or the identifier out. *)
Definition issue (a : AdmissionAuthority) (entity_id : bytes) (slot : N) (issued_at : option N)
    (lifetime : N) (ticket_id : option bytes) (clock : N) (fresh_id : bytes) :
    result string (AdmissionTicket * AdmissionAuthority) :=
  if lifetime =? 0 then Err "ticket lifetime must be positive"
  else
    let issued_at := default clock issued_at in
    expires_at ← ok_or (checked_add issued_at lifetime) "ticket expiry overflow";
    nullifier ← entity_nullifier a entity_id;
    if bool_decide (is_Some (aa_issued a !! (slot, nullifier)))
    then Err "this legal entity already has a ticket for the slot"
    else
      let ticket_id := default fresh_id ticket_id in
      let body := TICKET_DOMAIN ++ be_bytes 8 slot ++ ticket_id ++ be_bytes 8 issued_at
                  ++ be_bytes 8 expires_at in
      s ← App.try_sign (aa_signing_key a) body;
      let ticket := mkTicket slot ticket_id issued_at expires_at s in
      d ← ticket_digest ticket;
      Ok (ticket, mkAuthority (aa_signing_key a) (aa_entity_key a)
                    (<[(slot, nullifier) := d]> (aa_issued a))).

(** ** Beacons, receipts and manifests *)

Definition beacon_unsigned (round : N) (value : bytes) : bytes :=
  BEACON_DOMAIN ++ be_bytes 8 round ++ value.

Definition beacon_sign (round : N) (value : bytes) (key : App.SigningKey) :
    result string RandomnessBeacon :=
  s ← App.try_sign key (beacon_unsigned round value); Ok (mkBeacon round value s).

Definition beacon_verify (b : RandomnessBeacon) (key : bytes) : bool :=
  is_ok (App.verify key (beacon_unsigned (rb_round b) (rb_value b)) (rb_signature b)).

Definition receipt_unsigned (r : AdmissionReceipt) : bytes :=
  RECEIPT_DOMAIN ++ be_bytes 8 (ar_slot r) ++ be_bytes 8 (ar_node r) ++ ar_ticket_digest r
  ++ ar_frame_digest r ++ be_bytes 8 (ar_received_at_ns r).

Definition receipt_verify (r : AdmissionReceipt) (key : bytes) : bool :=
  is_ok (App.verify key (receipt_unsigned r) (ar_signature r)).

Definition manifest_unsigned (m : BatchManifest) : result string bytes :=
  if negb (bool_decide (length (bm_ordered_ticket_digests m) = length (bm_ordered_frame_digests m)))
  then Err "ticket and frame manifests have different lengths"
  else Ok (MANIFEST_DOMAIN ++ be_bytes 8 (bm_slot m) ++ be_bytes 8 (bm_node m)
           ++ be_bytes 8 (bm_beacon_round m) ++ bm_beacon_value m ++ bm_previous_digest m
           ++ be_bytes 8 (N.of_nat (length (bm_ordered_ticket_digests m)))
           ++ concat ((fun tf => tf.1 ++ tf.2)
                        <$> zip (bm_ordered_ticket_digests m) (bm_ordered_frame_digests m))).

Definition manifest_digest (m : BatchManifest) : result string bytes :=
  body ← manifest_unsigned m; Ok (parts_digest [body; bm_signature m]).

Definition manifest_verify (m : BatchManifest) (key : bytes) : bool :=
  signed_ok (manifest_unsigned m) key (bm_signature m).

Definition includes (m : BatchManifest) (r : AdmissionReceipt) : bool :=
  existsb (fun tf => bool_decide (tf.1 = ar_ticket_digest r) && bool_decide (tf.2 = ar_frame_digest r))
    (zip (bm_ordered_ticket_digests m) (bm_ordered_frame_digests m)).

Definition prove_omission (r : AdmissionReceipt) (m : BatchManifest) (sealer_key : bytes) : bool :=
  (ar_slot r =? bm_slot m) && (ar_node r =? bm_node m) && receipt_verify r sealer_key
  && manifest_verify m sealer_key && negb (includes m r).

(** ** The sealer *)

Record FixedSlotSealer := mkSealer {
  fs_slot : N;
  fs_node : N;
  fs_deadline_ns : N;
  fs_tickets : list AdmissionTicket;
  fs_authority_key : bytes;
  fs_beacon_key : bytes;
  fs_signing_key : App.SigningKey;
  fs_previous_digest : bytes;
  fs_frames : gmap bytes Wire.Frame;
  fs_receipts : gmap bytes AdmissionReceipt;
  fs_closed : bool
}.

Definition sealer_new (slot node deadline_ns : N) (tickets : list AdmissionTicket)
    (authority_key beacon_key : bytes) (signing_key : App.SigningKey) (previous_digest : bytes) :
    result string FixedSlotSealer :=
  let ids : gset bytes := list_to_set (tk_ticket_id <$> tickets) in
  if negb (bool_decide (size ids = length tickets))
  then Err "the expected ticket list contains a duplicate"
  else if existsb (fun t => negb (tk_slot t =? slot)) tickets
  then Err "a ticket belongs to another slot"
  else Ok (mkSealer slot node deadline_ns tickets authority_key beacon_key signing_key
             previous_digest ∅ ∅ false).

Definition fail {A} (message : string) : result failure A := Err (Error message).
Definition lift {A} (r : result string A) : result failure A := map_err Error r.
(** [map[key]]. *)
Definition index {V} (m : gmap bytes V) (k : bytes) : result failure V := ok_or (m !! k) Panic.

Definition sealer_verifying_key (s : FixedSlotSealer) : bytes :=
  App.verifying_key (fs_signing_key s).

Definition with_receipt_signature (r : AdmissionReceipt) (s : bytes) : AdmissionReceipt :=
  mkReceipt (ar_slot r) (ar_node r) (ar_ticket_digest r) (ar_frame_digest r)
    (ar_received_at_ns r) s.

Definition sealer_admit (self : FixedSlotSealer) (ticket : AdmissionTicket) (frame : Wire.Frame)
    (now_ns : N) : result failure (AdmissionReceipt * FixedSlotSealer) :=
  if fs_closed self then fail "the slot is already closed"
  else if fs_deadline_ns self <? now_ns then fail "the frame arrived after the sealed deadline"
  else if negb (ticket_verify ticket (fs_authority_key self) (now_ns / 1000000000))
  then fail "the admission ticket is invalid or expired"
  else
    td ← lift (ticket_digest ticket);
    expected ← lift (map_res ticket_digest (fs_tickets self));
    if negb (bool_decide (td ∈ (list_to_set expected : gset bytes)))
    then fail "the ticket was not in the slot's precommitted population"
    else if negb (Wire.frame_slot frame =? fs_slot self)
            || negb (Wire.frame_node frame =? fs_node self)
    then fail "the frame belongs to another slot or node"
    else
      let raw := Wire.encode frame in
      let frame_digest := sha256 raw in
      match fs_frames self !! td with
      | Some prior =>
          if negb (bool_decide (Wire.encode prior = raw))
          then fail "one ticket attempted to replace its admitted frame"
          else receipt ← index (fs_receipts self) td; Ok (receipt, self)
      | None =>
          let receipt := mkReceipt (fs_slot self) (fs_node self) td frame_digest now_ns
                           (replicate 64 x00) in
          s ← lift (App.try_sign (fs_signing_key self) (receipt_unsigned receipt));
          let receipt := with_receipt_signature receipt s in
          Ok (receipt,
              mkSealer (fs_slot self) (fs_node self) (fs_deadline_ns self) (fs_tickets self)
                (fs_authority_key self) (fs_beacon_key self) (fs_signing_key self)
                (fs_previous_digest self) (<[td := frame]> (fs_frames self))
                (<[td := receipt]> (fs_receipts self)) (fs_closed self))
      end.

(** The key a ticket is ordered by. *)
Definition order_key (slot : N) (beacon : RandomnessBeacon) (t : AdmissionTicket) : bytes :=
  sha256 (ORDER_DOMAIN ++ be_bytes 8 slot ++ be_bytes 8 (rb_round beacon) ++ rb_value beacon
          ++ tk_ticket_id t).

Definition is_missing (self : FixedSlotSealer) (t : AdmissionTicket) : bool :=
  match ticket_digest t with
  | Ok d => negb (bool_decide (is_Some (fs_frames self !! d)))
  | Err _ => false
  end.

Definition close (self : FixedSlotSealer) (beacon : RandomnessBeacon) (now_ns : N) :
    result failure (list Wire.Frame * BatchManifest * FixedSlotSealer) :=
  if fs_closed self then fail "the slot is already closed"
  else if now_ns <=? fs_deadline_ns self then fail "the batch cannot close before its deadline"
  else if negb (beacon_verify beacon (fs_beacon_key self))
  then fail "the ordering beacon signature is invalid"
  else if rb_round beacon <=? fs_slot self
  then fail "ordering randomness must be generated after the slot"
  else
    let missing := length (List.filter (is_missing self) (fs_tickets self)) in
    if negb (bool_decide (missing = 0%nat))
    then fail ("fixed population incomplete: " +:+ pretty (N.of_nat missing)
               +:+ " cover or request frame(s) missing")
    else
      let ordered := sort_by_key bytes_leb (order_key (fs_slot self) beacon) (fs_tickets self) in
      ticket_digests ← lift (map_res ticket_digest ordered);
      frames ← map_res (index (fs_frames self)) ticket_digests;
      let frame_digests := (fun f => sha256 (Wire.encode f)) <$> frames in
      let manifest := mkManifest (fs_slot self) (fs_node self) (rb_round beacon) (rb_value beacon)
                        ticket_digests frame_digests (fs_previous_digest self)
                        (replicate 64 x00) in
      body ← lift (manifest_unsigned manifest);
      s ← lift (App.try_sign (fs_signing_key self) body);
      Ok (frames,
          mkManifest (fs_slot self) (fs_node self) (rb_round beacon) (rb_value beacon)
            ticket_digests frame_digests (fs_previous_digest self) s,
          mkSealer (fs_slot self) (fs_node self) (fs_deadline_ns self) (fs_tickets self)
            (fs_authority_key self) (fs_beacon_key self) (fs_signing_key self)
            (fs_previous_digest self) (fs_frames self) (fs_receipts self) true).
End Sealing.

Section SealerProofs.
Context {SHA : Sha256} {HB : HybridBackend} {HL : HybridLaws}.

(** ** Errors as values *)

Lemma lift_ok {A} (r : result string A) a : lift r = Ok a <-> r = Ok a.
Proof using Type. destruct r; cbn; split; congruence. Qed.

Lemma lift_panic {A} (r : result string A) : lift r <> Err Panic.
Proof using Type. destruct r; cbn; congruence. Qed.

Lemma bind_panic {A B} (m : result failure A) (f : A -> result failure B) :
  m <> Err Panic -> (forall a, m = Ok a -> f a <> Err Panic) -> m ≫= f <> Err Panic.
Proof using Type. destruct m as [a|e]; cbn; auto. congruence. Qed.

Lemma if_panic {A} (b : bool) message (r : result failure A) :
  (b = false -> r <> Err Panic) -> (if b then fail message else r) <> Err Panic.
Proof using Type. destruct b; [done | auto]. Qed.

Lemma index_ok {V} (m : gmap bytes V) k v : index m k = Ok v <-> m !! k = Some v.
Proof using Type. apply ok_or_ok. Qed.

(** ** Reachable sealers *)

(** A sealer, the receipts it has returned and the batch it has closed. *)
Inductive sealed : FixedSlotSealer -> list AdmissionReceipt ->
    option (list Frame * BatchManifest) -> Prop :=
  | sealed_new slot node deadline tickets authority beacon key previous s :
      sealer_new slot node deadline tickets authority beacon key previous = Ok s ->
      sealed s [] None
  | sealed_admit s receipts batch ticket frame now r s' :
      sealed s receipts batch -> sealer_admit s ticket frame now = Ok (r, s') ->
      sealed s' (r :: receipts) batch
  | sealed_close s receipts batch beacon now frames manifest s' :
      sealed s receipts batch -> close s beacon now = Ok (frames, manifest, s') ->
      sealed s' receipts (Some (frames, manifest)).

(** What a receipt of this sealer attests about a ticket digest and a frame. *)
Definition attests (s : FixedSlotSealer) (r : AdmissionReceipt) (d : bytes) (f : Frame) : Prop :=
  ar_slot r = fs_slot s /\ ar_node r = fs_node s /\ ar_ticket_digest r = d
  /\ ar_frame_digest r = sha256 (encode f) /\ receipt_verify r (sealer_verifying_key s) = true.

(** Frames, receipts and population agree. *)
Definition store_ok (s : FixedSlotSealer) : Prop :=
  (forall d f, fs_frames s !! d = Some f ->
     (exists r, fs_receipts s !! d = Some r /\ attests s r d f)
     /\ exists t, t ∈ fs_tickets s /\ ticket_digest t = Ok d)
  /\ (forall d r, fs_receipts s !! d = Some r -> is_Some (fs_frames s !! d)).

(** Every frame of the store is in the batch. *)
Definition batch_ok (s : FixedSlotSealer) (batch : option (list Frame * BatchManifest)) : Prop :=
  match batch with
  | None => True
  | Some (frames, m) =>
      fs_closed s = true /\ bm_ordered_frame_digests m = (fun f => sha256 (encode f)) <$> frames
      /\ Forall2 (fun d f => fs_frames s !! d = Some f) (bm_ordered_ticket_digests m) frames
      /\ forall d, is_Some (fs_frames s !! d) -> d ∈ bm_ordered_ticket_digests m
  end.

Definition sealed_inv s (receipts : list AdmissionReceipt) batch : Prop :=
  store_ok s /\ Forall (fun r => fs_receipts s !! ar_ticket_digest r = Some r) receipts
  /\ batch_ok s batch.

Lemma sealer_new_ok slot node deadline tickets authority beacon key previous s :
  sealer_new slot node deadline tickets authority beacon key previous = Ok s ->
  s = mkSealer slot node deadline tickets authority beacon key previous ∅ ∅ false.
Proof using Type. unfold sealer_new. intros H. by ok_inv. Qed.

(** The two ways in which [sealer_admit] returns a receipt. *)
Lemma admit_ok s ticket frame now r s' :
  sealer_admit s ticket frame now = Ok (r, s') ->
  fs_closed s = false /\ exists d, ticket_digest ticket = Ok d
  /\ (exists t, t ∈ fs_tickets s /\ ticket_digest t = Ok d)
  /\ ((s' = s /\ fs_receipts s !! d = Some r
       /\ exists prior, fs_frames s !! d = Some prior /\ encode prior = encode frame)
      \/ (fs_frames s !! d = None
          /\ (exists sig, r = mkReceipt (fs_slot s) (fs_node s) d (sha256 (encode frame)) now sig
                /\ App.try_sign (fs_signing_key s) (receipt_unsigned r) = Ok sig)
          /\ s' = mkSealer (fs_slot s) (fs_node s) (fs_deadline_ns s) (fs_tickets s)
                    (fs_authority_key s) (fs_beacon_key s) (fs_signing_key s)
                    (fs_previous_digest s) (<[d := frame]> (fs_frames s))
                    (<[d := r]> (fs_receipts s)) (fs_closed s))).
Proof using Type.
  unfold sealer_admit, fail. intros H. ok_inv. bool_inv. split; [done|].
  rename select (lift (ticket_digest ticket) = _) into Hd. apply lift_ok in Hd.
  rename select (lift (map_res _ _) = _) into He. apply lift_ok, map_res_ok in He.
  exists x. split; [done|]. split.
  { rename select (x ∈ list_to_set _) into Hin. apply elem_of_list_to_set in Hin.
    apply list_elem_of_lookup in Hin as [i Hi].
    destruct (Forall2_lookup_r _ _ _ _ _ He Hi) as (t & Ht & Htd).
    exists t. split; [by eapply list_elem_of_lookup_2 | done]. }
  destruct (fs_frames s !! x) as [prior|] eqn:Hf.
  - left. ok_inv. bool_inv. rename select (index _ _ = _) into Hi. apply index_ok in Hi.
    subst. split; [done|]. split; [done|]. by exists prior.
  - right. split; [done|]. apply bind_ok in H as (sig & Hs & [= <- <-]). apply lift_ok in Hs.
    split; [|done]. exists sig. done.
Qed.

Lemma index_all m ds frames :
  map_res (index (V := Frame) m) ds = Ok frames <-> Forall2 (fun d f => m !! d = Some f) ds frames.
Proof using Type.
  rewrite map_res_ok. split; intros H; (eapply Forall2_impl; [exact H|]); intros d f; apply index_ok.
Qed.

Definition closed_sealer (s : FixedSlotSealer) : FixedSlotSealer :=
  mkSealer (fs_slot s) (fs_node s) (fs_deadline_ns s) (fs_tickets s) (fs_authority_key s)
    (fs_beacon_key s) (fs_signing_key s) (fs_previous_digest s) (fs_frames s) (fs_receipts s) true.

(** What a closing establishes. *)
Lemma close_ok s beacon now frames m s' :
  close s beacon now = Ok (frames, m, s') ->
  let ordered := sort_by_key bytes_leb (order_key (fs_slot s) beacon) (fs_tickets s) in
  fs_closed s = false /\ fs_deadline_ns s < now /\ fs_slot s < rb_round beacon
  /\ beacon_verify beacon (fs_beacon_key s) = true
  /\ map_res ticket_digest ordered = Ok (bm_ordered_ticket_digests m)
  /\ Forall2 (fun d f => fs_frames s !! d = Some f) (bm_ordered_ticket_digests m) frames
  /\ bm_ordered_frame_digests m = (fun f => sha256 (encode f)) <$> frames
  /\ bm_slot m = fs_slot s /\ bm_node m = fs_node s
  /\ (exists body, manifest_unsigned m = Ok body
        /\ App.try_sign (fs_signing_key s) body = Ok (bm_signature m))
  /\ s' = closed_sealer s.
Proof using Type.
  intros H ordered. unfold close, fail in H. ok_inv. bool_inv.
  repeat match goal with H : lift _ = Ok _ |- _ => apply lift_ok in H end.
  rename select (map_res (index _) _ = _) into Hi. apply index_all in Hi.
  subst. cbn. rename select (manifest_unsigned _ = _) into Hu. eauto 20.
Qed.

Lemma admit_inv s receipts batch ticket frame now r s' :
  sealed_inv s receipts batch -> (batch <> None -> fs_closed s = true) ->
  sealer_admit s ticket frame now = Ok (r, s') -> sealed_inv s' (r :: receipts) batch.
Proof using HL.
  intros ([Hf Hr] & Hrs & Hb) Hclosed Ha.
  apply admit_ok in Ha as (Hopen & d & Hd & Hpop & [(-> & Hrec & prior & Hp & _)|
    (Hnone & (sig & Hsig & Hsign) & ->)]).
  - split; [by split|]. split; [|done]. constructor; [|done].
    destruct (Hf d prior Hp) as [(r' & Hr' & _ & _ & <- & _) _]. congruence.
  - assert (batch = None) as ->.
    { destruct batch; [|done]. rewrite Hclosed in Hopen; [discriminate|done]. }
    split; [|split; [|done]]; cbn.
    + split; cbn.
      * intros d' f Hd'. destruct (decide (d = d')) as [<-|Hne].
        -- rewrite lookup_insert_eq in Hd'. injection Hd' as <-. split; [|done]. exists r.
           rewrite lookup_insert_eq. split; [done|]. subst r. repeat split.
           unfold receipt_verify. cbn. apply is_ok_true. exists tt.
           by apply App.try_sign_verify in Hsign.
        -- rewrite lookup_insert_ne in Hd' by done. destruct (Hf d' f Hd') as [Hex Ht].
           rewrite lookup_insert_ne by done. split; [exact Hex | exact Ht].
      * intros d' r' Hd'. destruct (decide (d = d')) as [<-|Hne].
        -- rewrite lookup_insert_eq. eauto.
        -- rewrite lookup_insert_ne in Hd' by done. rewrite lookup_insert_ne by done. by eapply Hr.
    + constructor.
      * subst r. cbn. by rewrite lookup_insert_eq.
      * eapply Forall_impl; [exact Hrs|]. intros r' Hr'. cbn in *.
        destruct (decide (d = ar_ticket_digest r')) as [->|Hne]; [|by rewrite lookup_insert_ne].
        apply Hr in Hr'. rewrite Hnone in Hr'. by destruct Hr'.
Qed.

Lemma close_inv s receipts batch beacon now frames m s' :
  sealed_inv s receipts batch -> close s beacon now = Ok (frames, m, s') ->
  sealed_inv s' receipts (Some (frames, m)).
Proof using Type.
  intros ([Hf Hr] & Hrs & _) Hc.
  apply close_ok in Hc as (_ & _ & _ & _ & Hd & Hi & Hfd & _ & _ & _ & ->).
  split; [by split|]. split; [done|]. cbn. split; [done|]. split; [done|]. split; [done|].
  intros d [f Hdf]. destruct (Hf d f Hdf) as [_ (t & Ht & Htd)].
  apply map_res_ok in Hd. rewrite <- (sort_by_key_perm bytes_leb (order_key (fs_slot s) beacon)) in Ht.
  apply list_elem_of_lookup in Ht as [i Hti].
  destruct (Forall2_lookup_l _ _ _ _ _ Hd Hti) as (d' & Hd' & Heq).
  rewrite Htd in Heq. injection Heq as <-. by eapply list_elem_of_lookup_2.
Qed.

Lemma sealed_invariant s receipts batch :
  sealed s receipts batch -> sealed_inv s receipts batch /\ (batch <> None -> fs_closed s = true).
Proof using HL.
  induction 1 as [slot node deadline tickets authority beacon key previous s Hnew
    | s receipts batch ticket frame now r s' Hs [Hinv Hc] Ha
    | s receipts batch beacon now frames m s' Hs [Hinv Hc] Hcl].
  - apply sealer_new_ok in Hnew as ->. split; [|done]. split; [|split; [constructor|done]].
    split; cbn; intros d v Hd; by rewrite lookup_empty in Hd.
  - split; [by eapply admit_inv|]. intros Hb. specialize (Hc Hb).
    apply admit_ok in Ha as (Hopen & _). congruence.
  - split; [by eapply close_inv|]. intros _. apply close_ok in Hcl as (_&_&_&_&_&_&_&_&_&_&->). done.
Qed.

(** ** Omission *)

Lemma includes_frame s frames m d f r :
  Forall2 (fun d f => fs_frames s !! d = Some f) (bm_ordered_ticket_digests m) frames ->
  bm_ordered_frame_digests m = (fun f => sha256 (encode f)) <$> frames ->
  d ∈ bm_ordered_ticket_digests m -> fs_frames s !! d = Some f ->
  ar_ticket_digest r = d -> ar_frame_digest r = sha256 (encode f) -> includes m r = true.
Proof using Type.
  intros Hall Hfd Hin Hf Hd Hfr. unfold includes. rewrite Hfd. clear Hfd.
  induction Hall as [|d' f' ds fs Hd' Hall IH]; [by apply not_elem_of_nil in Hin|].
  cbn. apply orb_true_iff. apply elem_of_cons in Hin as [<-|Hin]; [left | right; by apply IH].
  rewrite Hf in Hd'. injection Hd' as <-.
  apply andb_true_iff. rewrite !bool_decide_eq_true. done.
Qed.

(** C36: an honest sealer is never accused: in every sequence of operations of
    a sealer, each receipt it returned is authentic and included in the batch it
    closed, so no key makes [prove_omission] accept the receipt against the
    manifest; and it never returned two different receipts for one ticket. *)
Theorem honest_sealer_never_accused s receipts frames m r r' key :
  sealed s receipts (Some (frames, m)) -> r ∈ receipts -> r' ∈ receipts ->
  receipt_verify r (sealer_verifying_key s) = true
  /\ includes m r = true /\ prove_omission r m key = false
  /\ (ar_ticket_digest r = ar_ticket_digest r' -> r = r').
Proof using HL.
  intros Hs Hr Hr'. apply sealed_invariant in Hs as [([Hf Hrf] & Hrs & Hb) _].
  rewrite Forall_forall in Hrs. pose proof (Hrs r Hr) as Hstored.
  destruct Hb as (_ & Hfd & Hall & Hcover).
  destruct (Hrf _ _ Hstored) as [f Hfr]. destruct (Hf _ f Hfr) as [(r1 & Hr1 & Hatt) _].
  rewrite Hstored in Hr1. injection Hr1 as <-. destruct Hatt as (_ & _ & _ & Hfrd & Hver).
  assert (includes m r = true) as Hinc.
  { eapply includes_frame; try done. apply Hcover. eauto. }
  split; [done|]. split; [done|]. split.
  - unfold prove_omission. rewrite Hinc. cbn. apply andb_false_r.
  - intros Heq. specialize (Hrs r' Hr'). rewrite <- Heq in Hrs. congruence.
Qed.

(** ** Closing *)

Lemma signed_manifest_verifies k m body :
  manifest_unsigned m = Ok body -> App.try_sign k body = Ok (bm_signature m) ->
  manifest_verify m (App.verifying_key k) = true.
Proof using HL.
  intros Hb Hs. apply signed_ok_true. exists body. split; [done|].
  by apply App.try_sign_verify.
Qed.

(** A slot closes over exactly its precommitted population: the closed
    batch lists each ticket of the population once, in the order of the beacon
    keys, with the frame admitted for it, after the deadline and with a beacon
    of a later round; the manifest's frame digests are those of the frames and
    the manifest verifies under the sealer's key; the sealer is then closed for
    good and a second closing is refused. *)
Theorem close_fixed_population s beacon now frames m s' :
  close s beacon now = Ok (frames, m, s') ->
  exists ordered,
    ordered ≡ₚ fs_tickets s
    /\ key_sorted bytes_leb (order_key (fs_slot s) beacon) ordered
    /\ Forall2 (fun t d => ticket_digest t = Ok d) ordered (bm_ordered_ticket_digests m)
    /\ Forall2 (fun d f => fs_frames s !! d = Some f) (bm_ordered_ticket_digests m) frames
    /\ bm_ordered_frame_digests m = (fun f => sha256 (encode f)) <$> frames
    /\ fs_deadline_ns s < now /\ fs_slot s < rb_round beacon
    /\ manifest_verify m (sealer_verifying_key s) = true
    /\ (forall beacon' now', is_ok (close s' beacon' now') = false).
Proof using HL.
  intros Hc. apply close_ok in Hc
    as (_ & Hnow & Hround & _ & Hd & Hi & Hfd & _ & _ & (body & Hb & Hs) & ->).
  exists (sort_by_key bytes_leb (order_key (fs_slot s) beacon) (fs_tickets s)).
  split; [apply sort_by_key_perm|]. split; [apply sort_by_key_sorted, _|].
  split; [by apply map_res_ok|]. do 4 (split; [done|]).
  split; [by eapply signed_manifest_verifies | done].
Qed.

(** The order is a function of the population and the beacon alone: two
    sealers of a slot with the same tickets, listed in any order, that close
    with the same round and beacon value publish the same sequence of tickets,
    whatever frames were admitted, by whom, when and in which order (as long as
    the tickets' ordering hashes are distinct). *)
Theorem order_independent_of_content s1 s2 b1 b2 now1 now2 frames1 frames2 m1 m2 s1' s2' :
  fs_slot s1 = fs_slot s2 -> fs_tickets s1 ≡ₚ fs_tickets s2 ->
  rb_round b1 = rb_round b2 -> rb_value b1 = rb_value b2 ->
  NoDup (order_key (fs_slot s1) b1 <$> fs_tickets s1) ->
  close s1 b1 now1 = Ok (frames1, m1, s1') -> close s2 b2 now2 = Ok (frames2, m2, s2') ->
  bm_ordered_ticket_digests m1 = bm_ordered_ticket_digests m2.
Proof using Type.
  intros Hslot Ht Hround Hvalue Hnd H1 H2.
  apply close_ok in H1 as (_ & _ & _ & _ & Hd1 & _).
  apply close_ok in H2 as (_ & _ & _ & _ & Hd2 & _).
  assert (order_key (fs_slot s2) b2 = order_key (fs_slot s1) b1) as Hk
    by (unfold order_key; by rewrite Hslot, Hround, Hvalue).
  rewrite Hk in Hd2. rewrite (sort_by_key_unique bytes_leb _ _ _ Hnd Ht) in Hd1. congruence.
Qed.

(** ** Totality *)

Lemma filter_nil {A} (p : A -> bool) l :
  length (List.filter p l) = 0%nat <-> Forall (fun a => p a = false) l.
Proof using Type.
  induction l as [|a l IH]; cbn; [done|]. rewrite Forall_cons.
  destruct (p a) eqn:Hp; cbn; [|tauto]. split; [done|]. intros [? _]. congruence.
Qed.

Lemma is_missing_false s t d :
  ticket_digest t = Ok d -> is_missing s t = false <-> is_Some (fs_frames s !! d).
Proof using Type.
  intros Hd. unfold is_missing. rewrite Hd, negb_false_iff. apply bool_decide_eq_true.
Qed.

Lemma complete_frames s ordered ds :
  Forall (fun t => is_missing s t = false) ordered ->
  Forall2 (fun t d => ticket_digest t = Ok d) ordered ds ->
  exists frames, map_res (index (fs_frames s)) ds = Ok frames.
Proof using Type.
  intros Hm Hd. induction Hd as [|t d ts ds Htd Hd IH]; [by exists []|].
  apply Forall_cons in Hm as [Ht Hm]. apply (is_missing_false s t d Htd) in Ht as [f Hf].
  destruct (IH Hm) as [frames Hfr]. exists (f :: frames). cbn.
  rewrite (proj2 (index_ok _ _ _) Hf). cbn. by rewrite Hfr.
Qed.

Lemma map_res_no_panic s ordered ds :
  Forall (fun t => is_missing s t = false) ordered ->
  map_res ticket_digest ordered = Ok ds -> map_res (index (fs_frames s)) ds <> Err Panic.
Proof using Type.
  intros Hm Hd. apply map_res_ok in Hd. destruct (complete_frames _ _ _ Hm Hd) as [fr ->]. done.
Qed.

Lemma admit_no_panic s ticket frame now : store_ok s -> sealer_admit s ticket frame now <> Err Panic.
Proof using Type.
  intros [Hf _].
  unfold sealer_admit. do 3 (apply if_panic; intros _).
  apply bind_panic; [apply lift_panic|]. intros d Hd.
  apply bind_panic; [apply lift_panic|]. intros ds Hds. do 2 (apply if_panic; intros _).
  destruct (fs_frames s !! d) as [prior|] eqn:Hprior.
  + apply if_panic. intros _. destruct (Hf d prior Hprior) as [(r & Hr & _) _].
    unfold index. by rewrite Hr.
  + apply bind_panic; [apply lift_panic|]. done.
Qed.

Lemma close_no_panic s beacon now : close s beacon now <> Err Panic.
Proof using Type.
  unfold close. do 4 (apply if_panic; intros _). apply if_panic. intros Hmissing. bool_inv.
  apply filter_nil in Hmissing.
  apply bind_panic; [apply lift_panic|]. intros ds Hds. apply lift_ok in Hds.
  apply bind_panic; [eapply map_res_no_panic; [|exact Hds]; by rewrite sort_by_key_perm|].
  intros frames Hfr. apply bind_panic; [apply lift_panic|]. intros body Hb.
  apply bind_panic; [apply lift_panic|]. done.
Qed.

(** What a slot needs to close. *)
Definition closable (s : FixedSlotSealer) (beacon : RandomnessBeacon) (now : N) : Prop :=
  fs_closed s = false /\ fs_deadline_ns s < now
  /\ beacon_verify beacon (fs_beacon_key s) = true /\ fs_slot s < rb_round beacon
  /\ Forall (fun t => exists d, ticket_digest t = Ok d /\ is_Some (fs_frames s !! d))
       (fs_tickets s).

Lemma close_closable s beacon now : is_ok (close s beacon now) = true -> closable s beacon now.
Proof using Type.
  intros ([[frames m] s'] & Hc)%is_ok_true.
  apply close_ok in Hc as (? & ? & ? & ? & Hd & Hi & _). do 4 (split; [done|]).
  rewrite <- (sort_by_key_perm bytes_leb (order_key (fs_slot s) beacon)).
  apply map_res_ok in Hd. apply Forall_forall. intros t Ht.
  apply list_elem_of_lookup in Ht as [i Hti].
  destruct (Forall2_lookup_l _ _ _ _ _ Hd Hti) as (d & Hdi & Htd).
  destruct (Forall2_lookup_l _ _ _ _ _ Hi Hdi) as (f & _ & Hfd). eauto.
Qed.

Lemma population_digests s ordered :
  Forall (fun t => exists d, ticket_digest t = Ok d /\ is_Some (fs_frames s !! d)) ordered ->
  exists ds, map_res ticket_digest ordered = Ok ds.
Proof using Type.
  induction 1 as [|t l (d & Hd & _) Hl [ds IH]]; [by exists []|].
  exists (d :: ds). cbn. by rewrite Hd; cbn; rewrite IH.
Qed.

Lemma closable_closes s beacon now :
  (forall message, is_ok (App.try_sign (fs_signing_key s) message) = true) ->
  closable s beacon now -> is_ok (close s beacon now) = true.
Proof using Type.
  intros Hsign (Hopen & Hnow & Hver & Hround & Hpop). unfold close, fail.
  rewrite Hopen, Hver, (proj2 (N.leb_gt _ _) Hnow), (proj2 (N.leb_gt _ _) Hround).
  assert (Forall (fun t => is_missing s t = false) (fs_tickets s)) as Hm.
  { eapply Forall_impl; [exact Hpop|]. intros t (d & Hd & Hfd). by apply (is_missing_false s t d). }
  rewrite (bool_decide_eq_true_2 _ (proj2 (filter_nil _ _) Hm)). cbn [negb].
  set (ordered := sort_by_key _ _ _).
  assert (exists ds, map_res ticket_digest ordered = Ok ds) as [ds Hds].
  { apply (population_digests s). unfold ordered. by rewrite sort_by_key_perm. }
  rewrite Hds. cbn [lift map_err mbind result_bind].
  destruct (complete_frames s ordered ds) as [frames Hfr].
  { unfold ordered. by rewrite sort_by_key_perm. }
  { by apply map_res_ok. }
  rewrite Hfr. cbn [mbind result_bind]. unfold manifest_unsigned at 1. cbn [bm_ordered_ticket_digests bm_ordered_frame_digests].
  apply index_all, Forall2_length in Hfr.
  rewrite length_fmap, bool_decide_eq_true_2 by done. cbn [negb lift map_err mbind result_bind].
  match goal with |- context [App.try_sign ?k ?b] =>
    pose proof (Hsign b) as Hb; destruct (App.try_sign k b); done end.
Qed.

(** Sealing never panics and closes when it should: no reachable sealer
    panics on any input (its map accesses always find their key), and, with a
    signing backend that does not fail, a slot closes exactly when it is open,
    the deadline has passed, the beacon is authentic and of a later round, and
    every ticket of the population is well formed and has its frame. *)
Theorem sealer_total s receipts batch ticket frame beacon now :
  sealed s receipts batch ->
  sealer_admit s ticket frame now <> Err Panic /\ close s beacon now <> Err Panic
  /\ ((forall message, is_ok (App.try_sign (fs_signing_key s) message) = true) ->
      is_ok (close s beacon now) = true <-> closable s beacon now).
Proof using HL.
  intros Hs. apply sealed_invariant in Hs as [(Hstore & _) _].
  split; [by apply admit_no_panic|]. split; [apply close_no_panic|].
  intros Hsign. split; [apply close_closable | by apply closable_closes].
Qed.

(** ** Tickets *)

(** An issued ticket is well formed, authentic over its whole validity, and
    recorded. *)
Lemma issue_ok a entity slot issued_at lifetime id clock fresh t a' :
  issue a entity slot issued_at lifetime id clock fresh = Ok (t, a') ->
  exists nullifier d,
    entity_nullifier a entity = Ok nullifier /\ ticket_digest t = Ok d
    /\ aa_issued a !! (slot, nullifier) = None
    /\ a' = mkAuthority (aa_signing_key a) (aa_entity_key a)
              (<[(slot, nullifier) := d]> (aa_issued a))
    /\ tk_slot t = slot /\ tk_issued_at t = default clock issued_at
    /\ tk_expires_at t = tk_issued_at t + lifetime /\ tk_expires_at t <= U64_MAX
    /\ exists body, ticket_unsigned t = Ok body
         /\ App.try_sign (aa_signing_key a) body = Ok (tk_signature t).
Proof using Type.
  unfold issue. intros H. ok_inv. bool_inv.
  rename select (checked_add _ _ = _) into Hadd. apply checked_add_some in Hadd as [-> Hfit].
  rename select (ticket_digest _ = _) into Hd. rename select (entity_nullifier _ _ = _) into Hn.
  rename select (¬ is_Some _) into Hnone. apply eq_None_not_Some in Hnone.
  subst. eexists _, _. do 4 (split; [done|]). do 4 (split; [done|]).
  unfold ticket_unsigned. cbn. rewrite (proj2 (N.leb_gt _ _)) by lia. eauto.
Qed.

(** Any number of further tickets. *)
Inductive issues : AdmissionAuthority -> AdmissionAuthority -> Prop :=
  | issues_refl a : issues a a
  | issues_step a a' b entity slot issued_at lifetime id clock fresh t :
      issues a a' -> issue a' entity slot issued_at lifetime id clock fresh = Ok (t, b) ->
      issues a b.

Lemma issues_keep a b k : issues a b ->
  aa_entity_key b = aa_entity_key a /\ aa_signing_key b = aa_signing_key a
  /\ (is_Some (aa_issued a !! k) -> is_Some (aa_issued b !! k)).
Proof using Type.
  induction 1 as [a|a a' b entity slot issued_at lifetime id clock fresh t Hs (Hk & Hs' & IH) Hi];
    [done|].
  apply issue_ok in Hi as (n & d & _ & _ & _ & -> & _). cbn. split; [done|]. split; [done|].
  intros Hk'. apply IH in Hk'. destruct (decide ((slot, n) = k)) as [<-|Hne].
  - rewrite lookup_insert_eq. eauto.
  - by rewrite lookup_insert_ne.
Qed.

(** One ticket per legal entity and slot: an issued ticket names the slot,
    expires [lifetime] after issuance within 64 bits, and verifies under the
    authority's key at every time from issuance to expiry; after any further
    issuing, the authority refuses another ticket to the same entity for the
    same slot. *)
Theorem one_ticket_per_entity a entity slot issued_at lifetime id clock fresh t a' :
  issue a entity slot issued_at lifetime id clock fresh = Ok (t, a') ->
  tk_slot t = slot /\ tk_expires_at t = tk_issued_at t + lifetime
  /\ tk_expires_at t <= U64_MAX
  /\ (forall now, tk_issued_at t <= now <= tk_expires_at t ->
        ticket_verify t (App.verifying_key (aa_signing_key a)) now = true)
  /\ (forall b issued_at' lifetime' id' clock' fresh', issues a' b ->
        is_ok (issue b entity slot issued_at' lifetime' id' clock' fresh') = false).
Proof using HL.
  intros Hi. apply issue_ok in Hi
    as (n & d & Hn & Hd & Hnone & -> & Hslot & Hia & Hexp & Hfit & body & Hbody & Hsign).
  do 3 (split; [done|]). split.
  - intros now Hnow. unfold ticket_verify.
    rewrite (proj2 (N.leb_le _ _) (proj1 Hnow)), (proj2 (N.leb_le _ _) (proj2 Hnow)). cbn.
    apply signed_ok_true. exists body. split; [done|]. by apply App.try_sign_verify.
  - intros b ia' lt' id' clock' fresh' Hb. apply (issues_keep _ _ (slot, n)) in Hb as (Hk & _ & Hmem).
    cbn in Hk, Hmem. rewrite lookup_insert_eq in Hmem. specialize (Hmem ltac:(eauto)).
    apply not_true_is_false. intros ([t' b'] & Ht')%is_ok_true.
    apply issue_ok in Ht' as (n' & d' & Hn' & _ & Hnone' & _).
    unfold entity_nullifier in Hn, Hn'. rewrite Hk in Hn'. rewrite Hn in Hn'. injection Hn' as <-.
    rewrite Hnone' in Hmem. by destruct Hmem.
Qed.
End SealerProofs.
