(* ===== verification/PublicResult.v ===== *)
(** * Attested public results

    Model of rust/zkpi-committee/src/mpc_result.rs, whole: the commitment to a
    taker's fill mask, a node's signed statement of the masked result of a
    round, the one-record and seven-record wires that carry the statements, and
    the collapse of seven statements into the result a settlement host accepts.
    The properties: a result is certified exactly by the whole committee, the
    wires are exact inverses of the encoders, and what seven honest nodes sign
    travels through both wires to a certified result. *)

From S2P Require Import Prelude.
From S2P Require Import Interfaces.
From S2P Require Import Sorting.
From S2P Require Import ApplicationCrypto.
From S2P Require Import Order.

(** ** Signed words *)

(** [i128::to_be_bytes] and [i128::from_be_bytes]: two's complement. *)
Definition i128_be_bytes (z : Z) : bytes := be_bytes 16 (Z.to_N (z mod 2 ^ 128)).
Definition i128_of_be (b : bytes) : Z :=
  let n := of_be_bytes b in if n <? 2 ^ 127 then Z.of_N n else (Z.of_N n - 2 ^ 128)%Z.

Module PublicResult.

Definition NODE_RESULT_DOMAIN : bytes := bstr "QOMM:MPC:PUBLIC-RESULT-NODE:v2".
Definition RESULT_LANE_DOMAIN : bytes := bstr "QOMM:MPC:PUBLIC-RESULT-LANE:v1".
Definition MASK_COMMITMENT_DOMAIN : bytes := bstr "QOMM:MPC:FILL-MASK-COMMITMENT:v1".
Definition WIRE_MAGIC : bytes := bstr "QOMMRES2".
Definition RECORD_BYTES : nat := 2 + 8 + 8 + 32 * 5 + 16 + 16 + App.SIGNATURE_BYTES.

Record NodePublicResultAttestation := mkResultAttestation {
  pr_node : N;
  pr_slot : N;
  pr_sequence : N;
  pr_batch_digest : bytes;
  pr_source_digest : bytes;
  pr_round_digest : bytes;
  pr_masked_key : Z;
  pr_masked_fill : Z;
  pr_stdout_digest : bytes;
  pr_persistence_digest : bytes;
  pr_signature : bytes
}.

Record CertifiedPublicResult := mkPublicResult {
  pc_slot : N;
  pc_sequence : N;
  pc_cluster_digest : bytes;
  pc_source_digest : bytes;
  pc_round_digest : bytes;
  pc_masked_key : Z;
  pc_masked_fill : Z;
  pc_digest : bytes
}.

Section PublicResults.
Context {SHA : Sha256} {HB : HybridBackend}.

Definition fill_mask_scalar_commitment (fill_mask : bytes) : bytes :=
  sha256 (MASK_COMMITMENT_DOMAIN ++ fill_mask).

(** A mask is below the scalar order, so its scalar is its little-endian word. *)
Definition fill_mask_commitment (fill_mask : N) : bytes :=
  fill_mask_scalar_commitment (rev (be_bytes 32 fill_mask)).

(** ** One node's statement *)

Definition unsigned (a : NodePublicResultAttestation) : result string bytes :=
  if (7 <=? pr_node a) || (pr_sequence a =? 0)
     || contains_zero [pr_batch_digest a; pr_source_digest a; pr_round_digest a;
                       pr_stdout_digest a; pr_persistence_digest a]
  then Err "public MPC result attestation is incomplete"
  else Ok (NODE_RESULT_DOMAIN ++ be_bytes 2 (pr_node a) ++ be_bytes 8 (pr_slot a)
           ++ be_bytes 8 (pr_sequence a) ++ pr_batch_digest a ++ pr_source_digest a
           ++ pr_round_digest a ++ i128_be_bytes (pr_masked_key a)
           ++ i128_be_bytes (pr_masked_fill a) ++ pr_stdout_digest a ++ pr_persistence_digest a).

Definition sign (a : NodePublicResultAttestation) (key : App.SigningKey) :
    result string NodePublicResultAttestation :=
  body ← unsigned a;
  s ← App.try_sign key body;
  Ok (mkResultAttestation (pr_node a) (pr_slot a) (pr_sequence a) (pr_batch_digest a)
        (pr_source_digest a) (pr_round_digest a) (pr_masked_key a) (pr_masked_fill a)
        (pr_stdout_digest a) (pr_persistence_digest a) s).

Definition verify (a : NodePublicResultAttestation) (key : bytes) : bool :=
  signed_ok (unsigned a) key (pr_signature a).

(** ** The certified result *)

Definition agrees (first value : NodePublicResultAttestation) : bool :=
  (pr_slot value =? pr_slot first) && (pr_sequence value =? pr_sequence first)
  && bool_decide (pr_source_digest value = pr_source_digest first)
  && bool_decide (pr_round_digest value = pr_round_digest first)
  && (pr_masked_key value =? pr_masked_key first)%Z
  && (pr_masked_fill value =? pr_masked_fill first)%Z.

Definition verify_public_result_lane (attestations : list NodePublicResultAttestation)
    (trusted_node_keys : list bytes) (order_digest : bytes) :
    result string CertifiedPublicResult :=
  if negb (bool_decide (length attestations = COMMITTEE_NODES))
     || negb (bool_decide (length trusted_node_keys = COMMITTEE_NODES))
  then Err "public MPC result needs exactly seven attestations and trusted keys"
  else
    let ordered := sort_by_key N.leb pr_node attestations in
    if negb (all_verified pr_node verify ordered trusted_node_keys)
    then Err "public MPC result contains an unknown, duplicate, or invalid node"
    else
      match ordered with
      | [] => Err "public MPC result needs exactly seven attestations and trusted keys"
      | first :: rest =>
          if negb (forallb (agrees first) rest)
          then Err "resident nodes disagree on the public MPC result or execution scope"
          else
            slot ← ok_or (u32_try_from (pr_slot first)) "public MPC result slot is outside u32";
            let node_batches := (fun v => (pr_node v, pr_batch_digest v)) <$> ordered in
            cluster_digest ← cluster_batch_digest slot order_digest node_batches;
            Ok (mkPublicResult (pr_slot first) (pr_sequence first) cluster_digest
                  (pr_source_digest first) (pr_round_digest first) (pr_masked_key first)
                  (pr_masked_fill first)
                  (sha256 (RESULT_LANE_DOMAIN ++ be_bytes 8 (pr_slot first)
                           ++ be_bytes 8 (pr_sequence first) ++ cluster_digest
                           ++ pr_source_digest first ++ pr_round_digest first
                           ++ i128_be_bytes (pr_masked_key first)
                           ++ i128_be_bytes (pr_masked_fill first)
                           ++ concat (pr_signature <$> ordered))))
      end.

(** ** Wires *)

Definition result_record (a : NodePublicResultAttestation) : bytes :=
  be_bytes 2 (pr_node a) ++ be_bytes 8 (pr_slot a) ++ be_bytes 8 (pr_sequence a)
  ++ pr_batch_digest a ++ pr_source_digest a ++ pr_round_digest a
  ++ i128_be_bytes (pr_masked_key a) ++ i128_be_bytes (pr_masked_fill a)
  ++ pr_stdout_digest a ++ pr_persistence_digest a ++ pr_signature a.

Definition encode_wire (values : list NodePublicResultAttestation)
    (require_full_bundle_order : bool) : result string bytes :=
  if bool_decide (values = []) || bool_decide (COMMITTEE_NODES < length values)%nat
  then Err "public MPC result wire has an invalid population"
  else
    let ordered := sort_by_key N.leb pr_node values in
    if existsb (fun value => negb (is_ok (unsigned value))) ordered
       || (require_full_bundle_order && negb (nodes_from pr_node 0 ordered))
    then Err "public MPC result wire is not in canonical node order"
    else Ok (WIRE_MAGIC ++ be_bytes 2 (N.of_nat (length ordered)) ++ concat (result_record <$> ordered)).

Definition encode_public_result_attestations (values : list NodePublicResultAttestation) :
    result string bytes :=
  if negb (bool_decide (length values = COMMITTEE_NODES))
  then Err "public MPC result bundle must contain exactly seven nodes"
  else encode_wire values true.

Definition encode_node_public_result_attestation (value : NodePublicResultAttestation) :
    result string bytes := encode_wire [value] false.

Definition read_record (raw : bytes) : result string (NodePublicResultAttestation * bytes) :=
  let (node, raw) := take_bytes 2 raw in
  let (slot, raw) := take_bytes 8 raw in
  let (sequence, raw) := take_bytes 8 raw in
  let (batch_digest, raw) := take_bytes 32 raw in
  let (source_digest, raw) := take_bytes 32 raw in
  let (round_digest, raw) := take_bytes 32 raw in
  let (masked_key, raw) := take_bytes 16 raw in
  let (masked_fill, raw) := take_bytes 16 raw in
  let (stdout_digest, raw) := take_bytes 32 raw in
  let (persistence_digest, raw) := take_bytes 32 raw in
  let (s, raw) := take_bytes App.SIGNATURE_BYTES raw in
  s ← map_err (fun _ => "invalid QOMM v2 hybrid application key or signature; legacy Ed25519-only material requires explicit re-enrollment") (App.signature_try_from s);
  let value := mkResultAttestation (of_be_bytes node) (of_be_bytes slot) (of_be_bytes sequence)
                 batch_digest source_digest round_digest (i128_of_be masked_key)
                 (i128_of_be masked_fill) stdout_digest persistence_digest s in
  _ ← unsigned value;
  Ok (value, raw).

Definition decode_wire (raw : bytes) (expected : nat) (require_full_bundle_order : bool) :
    result string (list NodePublicResultAttestation) :=
  if bool_decide (length raw < length WIRE_MAGIC + 2)%nat
     || negb (bool_decide (take (length WIRE_MAGIC) raw = WIRE_MAGIC))
  then Err "public MPC result wire has an invalid header"
  else
    let count := N.to_nat (of_be_bytes (slice 8 10 raw)) in
    if negb (bool_decide (count = expected))
       || negb (bool_decide (length raw = 10 + count * RECORD_BYTES)%nat)
    then Err "public MPC result wire has the wrong population or length"
    else
      values ← read_records read_record count (drop 10 raw);
      if require_full_bundle_order && negb (nodes_from pr_node 0 values)
      then Err "public MPC result wire is not in canonical node order"
      else Ok values.

Definition decode_public_result_attestations (raw : bytes) :
    result string (list NodePublicResultAttestation) := decode_wire raw COMMITTEE_NODES true.

(** [values.remove(0)]; a one-record wire that decodes has its record, so the
    panic that the [Err] stands for is not reached. *)
Definition decode_node_public_result_attestation (raw : bytes) :
    result string NodePublicResultAttestation :=
  values ← decode_wire raw 1 false;
  ok_or (head values) "removal index (is 0) should be < len (is 0)".

End PublicResults.
End PublicResult.

Import PublicResult.

Section Integers.
Open Scope Z_scope.

Lemma i128_be_length z : length (i128_be_bytes z) = 16%nat.
Proof. apply be_bytes_length. Qed.

Lemma i128_of_bytes z : - 2 ^ 127 <= z < 2 ^ 127 -> i128_of_be (i128_be_bytes z) = z.
Proof.
  intros Hz. unfold i128_of_be, i128_be_bytes.
  rewrite of_be_bytes_be_small
    by (pose proof (Z.mod_pos_bound z (2 ^ 128) ltac:(lia)); change (256 ^ N.of_nat 16)%N with (2 ^ 128)%N; lia).
  destruct (Z.le_gt_cases 0 z).
  - rewrite Z.mod_small by lia. destruct (N.ltb_spec (Z.to_N z) (2 ^ 127)); lia.
  - replace (z mod 2 ^ 128) with (z + 2 ^ 128)
      by (symmetry; rewrite <- (Z.mod_add _ 1) by lia; apply Z.mod_small; lia).
    destruct (N.ltb_spec (Z.to_N (z + 2 ^ 128)) (2 ^ 127)); lia.
Qed.

Lemma i128_back b :
  length b = 16%nat -> - 2 ^ 127 <= i128_of_be b < 2 ^ 127 /\ i128_be_bytes (i128_of_be b) = b.
Proof.
  intros Hb. pose proof (of_be_bytes_bound' 16 b Hb) as Hn.
  change (256 ^ N.of_nat 16)%N with (2 ^ 128)%N in Hn.
  unfold i128_of_be, i128_be_bytes. destruct (N.ltb_spec (of_be_bytes b) (2 ^ 127)) as [Hs|Hs].
  - rewrite Z.mod_small, N2Z.id, be_bytes_of_be' by lia. split; [lia|done].
  - replace ((Z.of_N (of_be_bytes b) - 2 ^ 128) mod 2 ^ 128) with (Z.of_N (of_be_bytes b))
      by (rewrite <- (Z.mod_add _ 1) by lia; rewrite Z.mod_small; lia).
    rewrite N2Z.id, be_bytes_of_be' by done. split; [lia|done].
Qed.
End Integers.

(** ** The certified result *)

Section Results.
Context {SHA : Sha256} {HB : HybridBackend}.

Lemma unsigned_ok a b :
  unsigned a = Ok b ->
  pr_node a < 7 /\ 0 < pr_sequence a
  /\ Forall (fun d => d <> ZERO32) [pr_batch_digest a; pr_source_digest a; pr_round_digest a;
                                    pr_stdout_digest a; pr_persistence_digest a].
Proof.
  unfold unsigned. intros H. ok_inv. bool_inv. rewrite <- contains_zero_false. split; [done|].
  split; [lia|done].
Qed.

(** The statement is about the result: same scope, same masked values. *)
Definition result_matches (r : CertifiedPublicResult) (a : NodePublicResultAttestation) : Prop :=
  pr_slot a = pc_slot r /\ pr_sequence a = pc_sequence r
  /\ pr_source_digest a = pc_source_digest r /\ pr_round_digest a = pc_round_digest r
  /\ pr_masked_key a = pc_masked_key r /\ pr_masked_fill a = pc_masked_fill r.

Lemma agrees_ok first v r : result_matches r first -> agrees first v = true <-> result_matches r v.
Proof.
  intros (H1 & H2 & H3 & H4 & H5 & H6). unfold agrees, result_matches.
  rewrite !andb_true_iff, !bool_decide_eq_true, !N.eqb_eq, !Z.eqb_eq, H1, H2, H3, H4, H5, H6. tauto.
Qed.

(** The digest that names a certified result: its scope, the masked values and
    the seven signatures. *)
Definition result_hash (r : CertifiedPublicResult) (ordered : list NodePublicResultAttestation) : bytes :=
  sha256 (RESULT_LANE_DOMAIN ++ be_bytes 8 (pc_slot r) ++ be_bytes 8 (pc_sequence r)
          ++ pc_cluster_digest r ++ pc_source_digest r ++ pc_round_digest r
          ++ i128_be_bytes (pc_masked_key r) ++ i128_be_bytes (pc_masked_fill r)
          ++ concat (pr_signature <$> ordered)).

(** What a certified result stands for. *)
Definition result_certified (atts : list NodePublicResultAttestation) (keys : list bytes)
    (order_digest : bytes) (r : CertifiedPublicResult) : Prop :=
  exists ordered,
    seven_signed pr_node verify atts ordered keys
    /\ Forall (result_matches r) ordered
    /\ pc_slot r <= U32_MAX /\ order_digest <> ZERO32
    /\ pc_cluster_digest r = cluster_hash (pc_slot r) order_digest
         ((fun v => (pr_node v, pr_batch_digest v)) <$> ordered)
    /\ pc_digest r = result_hash r ordered.

Lemma public_result_sound atts keys order r :
  verify_public_result_lane atts keys order = Ok r -> result_certified atts keys order r.
Proof.
  unfold verify_public_result_lane. intros H. ok_inv. bool_inv.
  rename select (all_verified _ _ _ _ = true) into Hver. apply all_verified_ok in Hver; [|done..].
  remember (sort_by_key N.leb pr_node atts) as ordered eqn:Hord.
  destruct ordered as [|first rest]; [done|]. ok_inv. bool_inv.
  rename select (u32_try_from _ = _) into Hu32. apply u32_try_from_ok in Hu32 as [-> Hslot].
  rename select (cluster_batch_digest _ _ _ = _) into Hcluster.
  rename select (forallb _ _ = true) into Hagree. exists (first :: rest).
  pose proof Hver as (_ & Hn & _). apply cluster_batch_digest_ok in Hcluster as (Ho & _ & ->).
  2: { rewrite <- list_fmap_compose. exact Hn. }
  assert (result_matches r first) as Hf by (by subst r).
  split; [done|]. split; [|by subst r].
  constructor; [done|]. apply Forall_forall. intros v Hv. apply (agrees_ok first v r Hf).
  by apply (proj1 (forallb_forall _ _) Hagree), list_elem_of_In.
Qed.

Lemma verified_batch a key : verify a key = true -> pr_batch_digest a <> ZERO32.
Proof.
  intros (b & H & _)%signed_ok_true. apply unsigned_ok in H as (_ & _ & Hz).
  by apply Forall_cons in Hz as [? _].
Qed.

Lemma public_result_complete atts keys order r :
  result_certified atts keys order r -> verify_public_result_lane atts keys order = Ok r.
Proof.
  unfold verify_public_result_lane. intros (ordered & Hs & Hm & Hslot & Ho & Hc & Hd).
  destruct (seven_signed_sort _ _ _ _ _ Hs) as (Hl & Hk & Hsort).
  rewrite (proj2 (all_verified_ok pr_node verify atts keys Hl Hk)) by (by rewrite Hsort).
  rewrite !bool_decide_eq_true_2 by done. cbn [negb orb]. rewrite Hsort.
  destruct Hs as (_ & Hn & Hf). destruct ordered as [|first rest]; [done|].
  assert (forallb (agrees first) rest = true) as ->.
  { apply Forall_cons in Hm as [Hfirst Hm]. apply forallb_forall. intros v Hv.
    apply (agrees_ok first v r Hfirst). rewrite Forall_forall in Hm. by apply Hm, list_elem_of_In. }
  cbn [negb]. apply Forall_cons in Hm as [(H1 & H2 & H3 & H4 & H5 & H6) _].
  rewrite (proj2 (u32_try_from_ok (pr_slot first) (pr_slot first))) by (by rewrite H1).
  cbn [ok_or mbind result_bind].
  rewrite (proj2 (cluster_batch_digest_ok (pr_slot first) order
            ((fun v => (pr_node v, pr_batch_digest v)) <$> first :: rest) (pc_cluster_digest r)
            ltac:(rewrite <- list_fmap_compose; exact Hn))).
  - cbn [mbind result_bind]. unfold result_hash in Hd. rewrite H1, H2, H3, H4, H5, H6, <- Hd. by destruct r.
  - split; [done|]. split; [|by rewrite H1]. apply Forall_fmap.
    eapply Forall2_Forall_l; [exact Hf|]. apply Forall_forall. intros k _ v. apply verified_batch.
Qed.

(** A public result is certified exactly by the whole committee.
    [verify_public_result_lane] returns a result if and only if the statements,
    in whatever order they arrive, are one per node [0..6], each complete and
    signed under that node's trusted key, all seven agree with the result on
    slot, sequence, program, round and both masked values, the slot fits 32
    bits and the order is named; the cluster digest is then the hash of the
    seven batches and the result's digest the hash of its fields and the seven
    signatures. *)
Theorem public_result_iff atts keys order r :
  verify_public_result_lane atts keys order = Ok r <-> result_certified atts keys order r.
Proof. split; [apply public_result_sound | apply public_result_complete]. Qed.
End Results.

(** ** Wires *)

Section ResultWires.
Context {SHA : Sha256} {HB : HybridBackend} {HL : HybridLaws}.

(** Step a decoder over a buffer that starts with the encoded field. *)
Ltac read_field := rewrite take_bytes_app by (rewrite ?be_bytes_length, ?i128_be_length; done); cbv beta iota.
(** Open the next field of a buffer that is long enough. *)
Ltac open_field :=
  match goal with
  | H : context [take_bytes ?n ?raw] |- _ =>
      let p := fresh "p" in let rest := fresh "rest" in let E := fresh "E" in
      destruct (take_bytes n raw) as [p rest] eqn:E;
      apply take_bytes_inv in E as (-> & ? & ?); [|unfold App.SIGNATURE_BYTES, App.PUBLIC_KEY_BYTES; lia];
      cbv beta iota in H
  end.

(** The widths of the fields: machine words and 32-byte digests. *)
Definition widths (a : NodePublicResultAttestation) : Prop :=
  pr_slot a < 2 ^ 64 /\ pr_sequence a < 2 ^ 64
  /\ (- 2 ^ 127 <= pr_masked_key a < 2 ^ 127)%Z /\ (- 2 ^ 127 <= pr_masked_fill a < 2 ^ 127)%Z
  /\ Forall (fun d => length d = 32%nat) [pr_batch_digest a; pr_source_digest a;
       pr_round_digest a; pr_stdout_digest a; pr_persistence_digest a].

(** A statement the wires can carry. *)
Definition result_wf (a : NodePublicResultAttestation) : Prop :=
  is_ok (unsigned a) = true /\ widths a /\ App.signature_validate (pr_signature a) = Ok tt.

#[local] Instance result_codec : RecordCodec read_record result_record result_wf RECORD_BYTES.
Proof using HL.
  split.
  - intros a (_ & (_ & _ & _ & _ & Hd) & Hs). rewrite !Forall_cons in Hd.
    apply signature_validate_length in Hs. unfold result_record.
    rewrite !length_app, !be_bytes_length, !i128_be_length, Hs.
    destruct Hd as (-> & -> & -> & -> & -> & _). done.
  - intros a rest ([b Hb]%is_ok_true & (Hslot & Hq & Hk & Hf & Hd) & Hs).
    pose proof (unsigned_ok _ _ Hb) as (Hn & _).
    rewrite !Forall_cons in Hd. destruct Hd as (H1 & H2 & H3 & H4 & H5 & _).
    pose proof (signature_validate_length _ Hs) as Hsl.
    unfold read_record, result_record. rewrite <- !app_assoc. do 11 read_field.
    rewrite (proj2 (signature_try_from_ok _) Hs). cbn [map_err mbind result_bind].
    rewrite !i128_of_bytes, !of_be_bytes_be_small by (done || (change (256 ^ N.of_nat 2) with 65536; lia) || exact Hslot || exact Hq).
    destruct a; cbn [pr_node pr_slot pr_sequence pr_batch_digest pr_source_digest pr_round_digest
      pr_masked_key pr_masked_fill pr_stdout_digest pr_persistence_digest pr_signature] in *.
    by rewrite Hb.
  - intros raw a rest Hlen Hr. unfold read_record in Hr.
    unfold RECORD_BYTES, App.SIGNATURE_BYTES, App.PUBLIC_KEY_BYTES in Hlen.
    do 11 open_field. apply bind_ok in Hr as (s & Hs & Hr).
    apply signature_try_from_inv in Hs as [-> Hs]. apply bind_ok in Hr as (b & Hb & [= <- <-]).
    unfold result_wf, widths, result_record.
    cbn [pr_node pr_slot pr_sequence pr_batch_digest pr_source_digest pr_round_digest
      pr_masked_key pr_masked_fill pr_stdout_digest pr_persistence_digest pr_signature].
    rewrite Hb, !be_bytes_of_be', !(fun b H => proj2 (i128_back b H)) by done.
    split; [|by rewrite <- !app_assoc]. split; [done|]. split; [|done].
    split; [by apply (of_be_bytes_bound' 8)|]. split; [by apply (of_be_bytes_bound' 8)|].
    split; [by apply i128_back|]. split; [by apply i128_back|]. by repeat constructor.
Qed.

Lemma nodes_check (strict : bool) vs :
  strict && negb (nodes_from pr_node 0 vs) = false
  <-> (strict = true -> pr_node <$> vs = nodes_upto 0 (length vs)).
Proof using Type.
  rewrite <- nodes_from_ok. destruct strict, (nodes_from pr_node 0 vs); cbn; naive_solver.
Qed.

Lemma decode_wire_ok raw n strict vs :
  N.of_nat n < 256 ^ 2 ->
  decode_wire raw n strict = Ok vs <->
  length vs = n /\ (strict = true -> pr_node <$> vs = nodes_upto 0 n) /\ Forall result_wf vs
  /\ raw = WIRE_MAGIC ++ be_bytes 2 (N.of_nat n) ++ concat (result_record <$> vs).
Proof using HL.
  intros Hn16. unfold decode_wire. change (length WIRE_MAGIC) with 8%nat. split.
  - intros H. ok_inv. bool_inv. subst.
    rename select (read_records _ _ _ = _) into Hr.
    rename select (strict && _ = false) into Hn. pose proof (proj1 (nodes_check strict vs) Hn) as Hstrict.
    apply (read_records_inv (CODEC := result_codec)) in Hr as (Hwf & Hl & Hcat);
      [|rewrite length_drop; lia].
    split; [done|]. split; [intros Hst; rewrite <- Hl; by apply Hstrict|]. split; [done|].
    rewrite <- Hcat. apply (wire_header_inv WIRE_MAGIC); [cbn; lia|done|done].
  - intros (Hlen & Hn & Hwf & Hraw).
    destruct (wire_header_app WIRE_MAGIC n (concat (result_record <$> vs)) raw Hn16 Hraw) as (Hl & Ht & Hc & Hd).
    change (length WIRE_MAGIC) with 8%nat in *. change (8 + 2)%nat with 10%nat in *.
    rewrite Ht, Hc, Hd, Hl, (records_size (CODEC := result_codec) vs Hwf), Hlen.
    rewrite bool_decide_eq_false_2 by lia. rewrite !bool_decide_eq_true_2 by done.
    cbn [negb orb]. rewrite <- Hlen at 1. rewrite (read_records_write (CODEC := result_codec)) by done.
    cbn [mbind result_bind]. by rewrite (proj2 (nodes_check strict vs)) by (by rewrite Hlen).
Qed.

(** What the encoder emits, for statements whose nodes are a committee prefix or
    a single statement. *)
Lemma encode_wire_ok vs strict arrived raw :
  (0 < length vs <= COMMITTEE_NODES)%nat -> arrived ≡ₚ vs ->
  pr_node <$> vs = nodes_upto 0 (length vs) \/ length vs = 1%nat /\ strict = false ->
  Forall (fun a => is_ok (unsigned a) = true) vs ->
  encode_wire arrived strict = Ok raw <->
  raw = WIRE_MAGIC ++ be_bytes 2 (N.of_nat (length vs)) ++ concat (result_record <$> vs).
Proof using Type.
  intros Hlen Hp Hn Hok. unfold encode_wire.
  assert (sort_by_key N.leb pr_node arrived = vs) as ->.
  { destruct Hn as [Hn|[Hn _]]; [by apply sort_committee|].
    destruct vs as [|a [|]]; try done. apply Permutation_singleton_r in Hp as ->. done. }
  rewrite bool_decide_eq_false_2 by (intros ->; apply Permutation_length in Hp; cbn in Hp; lia).
  rewrite bool_decide_eq_false_2 by (rewrite Hp; lia).
  assert (existsb (fun value => negb (is_ok (unsigned value))) vs = false) as ->.
  { clear -Hok. induction Hok as [|a l Ha Hl IH]; [done|]. cbn. by rewrite Ha. }
  cbn [orb]. rewrite (proj2 (nodes_check strict vs)) by (intros ->; naive_solver). naive_solver.
Qed.

Lemma wf_unsigned l : Forall result_wf l -> Forall (fun a => is_ok (unsigned a) = true) l.
Proof using Type. intros Hl. eapply Forall_impl; [exact Hl|]. by intros a [? _]. Qed.

Lemma encode_bundle_ok vs arrived raw :
  pr_node <$> vs = committee -> arrived ≡ₚ vs -> Forall result_wf vs ->
  encode_public_result_attestations arrived = Ok raw <->
  raw = WIRE_MAGIC ++ be_bytes 2 (N.of_nat COMMITTEE_NODES) ++ concat (result_record <$> vs).
Proof using Type.
  intros Hn Hp Hwf.
  assert (length vs = COMMITTEE_NODES) as Hlen by (rewrite <- (length_fmap pr_node), Hn; done).
  unfold encode_public_result_attestations. rewrite bool_decide_eq_true_2 by (by rewrite Hp).
  cbn [negb]. rewrite (encode_wire_ok vs), Hlen; [done| |done|left; by rewrite Hlen|by apply wf_unsigned].
  rewrite Hlen. unfold COMMITTEE_NODES. lia.
Qed.

Lemma encode_node_ok v raw :
  result_wf v ->
  encode_node_public_result_attestation v = Ok raw <-> raw = WIRE_MAGIC ++ be_bytes 2 1 ++ result_record v ++ [].
Proof using Type.
  intros Hwf. unfold encode_node_public_result_attestation.
  rewrite (encode_wire_ok [v]); [done| |done|by right|apply wf_unsigned; by constructor].
  unfold COMMITTEE_NODES. cbn. lia.
Qed.

Lemma decode_node_ok raw v :
  decode_node_public_result_attestation raw = Ok v <->
  result_wf v /\ encode_node_public_result_attestation v = Ok raw.
Proof using HL.
  unfold decode_node_public_result_attestation. rewrite bind_ok. split.
  - intros (l & Hd & Hv). apply decode_wire_ok in Hd as (Hlen & _ & Hwf & Hraw); [|done].
    destruct l as [|w [|]]; try done. cbn in Hv. injection Hv as ->.
    apply Forall_cons in Hwf as [Hwf _]. split; [done|]. by apply encode_node_ok.
  - intros [Hwf He]. exists [v]. split; [|done]. apply encode_node_ok in He; [|done].
    apply decode_wire_ok; [done|]. split; [done|]. split; [done|]. split; [by constructor|done].
Qed.

Lemma decode_bundle_ok raw vs :
  decode_public_result_attestations raw = Ok vs <->
  pr_node <$> vs = committee /\ Forall result_wf vs
  /\ encode_public_result_attestations vs = Ok raw.
Proof using HL.
  unfold decode_public_result_attestations. rewrite decode_wire_ok by done. split.
  - intros (Hlen & Hn & Hwf & Hraw). specialize (Hn eq_refl). split; [done|]. split; [done|].
    by apply (encode_bundle_ok vs).
  - intros (Hn & Hwf & He). apply (encode_bundle_ok vs) in He; [|done..].
    split; [rewrite <- (length_fmap pr_node), Hn; done|]. done.
Qed.

(** The public-result wires are exact.  The bundle decoder accepts
    exactly the bytes the bundle encoder makes from seven complete statements
    of the nodes [0..6] in order, with words and digests of their widths and
    signature envelopes of the enrolled suite; the node decoder accepts exactly
    the bytes the node encoder makes from one such statement, of whichever
    node; each returns the statements that were encoded. *)
Theorem public_result_wires_exact raw vs v :
  (decode_public_result_attestations raw = Ok vs <->
   pr_node <$> vs = committee /\ Forall result_wf vs
   /\ encode_public_result_attestations vs = Ok raw)
  /\ (decode_node_public_result_attestation raw = Ok v <->
      result_wf v /\ encode_node_public_result_attestation v = Ok raw).
Proof using HL. split; [apply decode_bundle_ok | apply decode_node_ok]. Qed.

(** ** From seven nodes to a certified result *)

(** A signed draft: the draft with an enrolled envelope that verifies. *)
Lemma sign_ok d key s :
  widths d -> sign d key = Ok s ->
  pr_node s = pr_node d /\ result_wf s /\ verify s (App.verifying_key key) = true
  /\ (forall r, result_matches r d -> result_matches r s).
Proof using HL.
  unfold sign. intros Hw H. apply bind_ok in H as (b & Hb & H). apply bind_ok in H as (sg & Hs & [= <-]).
  assert (forall sg', unsigned (mkResultAttestation (pr_node d) (pr_slot d) (pr_sequence d)
     (pr_batch_digest d) (pr_source_digest d) (pr_round_digest d) (pr_masked_key d) (pr_masked_fill d)
     (pr_stdout_digest d) (pr_persistence_digest d) sg') = Ok b) as Hu by (intros sg'; exact Hb).
  split; [done|]. split; [|split; [|done]].
  - split; [by rewrite Hu|]. split; [done|]. cbn [pr_signature].
    apply signature_try_from_ok. by eapply App.try_sign_try_from.
  - apply signed_ok_true. exists b. split; [apply Hu|]. by apply App.try_sign_verify.
Qed.

(** Seven drafts of one result and the statements the nodes' keys make of them. *)
Inductive signed_by : list NodePublicResultAttestation -> list App.SigningKey ->
    list NodePublicResultAttestation -> Prop :=
  | signed_nil : signed_by [] [] []
  | signed_cons d k s ds ks ss :
      sign d k = Ok s -> signed_by ds ks ss -> signed_by (d :: ds) (k :: ks) (s :: ss).

Lemma signed_by_ok drafts keys ss r :
  signed_by drafts keys ss -> Forall widths drafts -> Forall (result_matches r) drafts ->
  pr_node <$> ss = pr_node <$> drafts /\ Forall result_wf ss /\ Forall (result_matches r) ss
  /\ Forall2 (fun a k => verify a k = true) ss (App.verifying_key <$> keys).
Proof using HL.
  induction 1 as [|d k s ds ks ss Hs _ IH]; intros Hw Hm; [done|].
  apply Forall_cons in Hw as [Hwd Hw]. apply Forall_cons in Hm as [Hmd Hm].
  destruct (sign_ok _ _ _ Hwd Hs) as (Hn & Hwf & Hv & Hmr).
  destruct (IH Hw Hm) as (IHn & IHwf & IHm & IHv). cbn. rewrite Hn, IHn.
  repeat split; constructor; auto.
Qed.

(** C37: an honest committee's result is always released.  When seven nodes
    sign well-formed statements that agree on a result of a 32-bit slot, every
    node's one-record wire carries its statement back unchanged; the bundle
    encoder accepts the statements in whatever order they arrive, its bytes
    decode to the seven statements in node order, and those verify under the
    nodes' keys to a certified result with exactly the slot, sequence, program,
    round and masked values the nodes signed. *)
Theorem honest_result_released drafts keys ss arrived order r :
  signed_by drafts keys ss -> pr_node <$> drafts = committee ->
  Forall widths drafts -> Forall (result_matches r) drafts ->
  pc_slot r <= U32_MAX -> order <> ZERO32 -> arrived ≡ₚ ss ->
  Forall (fun s => exists wire, encode_node_public_result_attestation s = Ok wire
                    /\ decode_node_public_result_attestation wire = Ok s) ss
  /\ exists raw cluster digest,
       encode_public_result_attestations arrived = Ok raw
       /\ decode_public_result_attestations raw = Ok ss
       /\ verify_public_result_lane ss (App.verifying_key <$> keys) order
          = Ok (mkPublicResult (pc_slot r) (pc_sequence r) cluster (pc_source_digest r)
                  (pc_round_digest r) (pc_masked_key r) (pc_masked_fill r) digest).
Proof using HL.
  intros Hs Hn Hw Hm Hslot Ho Hp. destruct (signed_by_ok _ _ _ _ Hs Hw Hm) as (Hsn & Hwf & Hms & Hv).
  rewrite Hn in Hsn. split.
  - eapply Forall_impl; [exact Hwf|]. intros s Hws.
    eexists. rewrite decode_node_ok. rewrite !encode_node_ok by done. done.
  - set (cluster := cluster_hash (pc_slot r) order ((fun v => (pr_node v, pr_batch_digest v)) <$> ss)).
    set (bare := mkPublicResult (pc_slot r) (pc_sequence r) cluster (pc_source_digest r)
                   (pc_round_digest r) (pc_masked_key r) (pc_masked_fill r) []).
    eexists _, cluster, (result_hash bare ss).
    rewrite decode_bundle_ok, (encode_bundle_ok ss), (encode_bundle_ok ss) by done.
    split; [done|]. split; [done|]. apply public_result_complete. exists ss. repeat split; done.
Qed.
End ResultWires.
