(* ===== verification/DslParse.v ===== *)
(** * The expression parser of the rule language

    Model of rust/qomm-dsl/src/parse.rs on ASCII text: the tokenizer and the
    recursive-descent parser, a function per method of [Parser] that takes the
    tokens from the cursor and returns the tokens after it.  The recursion runs
    on fuel; [parse_expression] gives eight units per token and eight more,
    which the proofs show is always enough. *)

From S2P Require Import Prelude.
From S2P Require Import Text.

(** ** Interval arithmetic of the rule language

    Model of rust/qomm-dsl/src/interval.rs.  Bounds are [i128]: an operation
    that leaves the range panics in a build with overflow checks ([Debug]) and
    wraps around in one without ([Release]); every operation is a section over
    the build. *)

(** How a rule is refused, or how its processing fails otherwise: [RuleError],
    an arithmetic or assertion panic, or (in the parser model) exhausted fuel. *)
Inductive rule_failure : Type :=
  | RuleError (message : string)
  | ArithPanic
  | OutOfFuel.

(** Build profiles: with and without overflow checks. *)
Inductive Build : Type := Debug | Release.
Existing Class Build.

Definition wrap_i128 (z : Z) : Z := ((z - I128_MIN) mod 2 ^ 128 + I128_MIN)%Z.

(** The result of an [i128] operation. *)
Definition i128 {B : Build} (z : Z) : result rule_failure Z :=
  if in_i128 z then Ok z
  else match B with Debug => Err ArithPanic | Release => Ok (wrap_i128 z) end.

Record Interval := mkInterval { lo : Z; hi : Z }.

Definition interval_new (l h : Z) : result rule_failure Interval :=
  if (h <? l)%Z
  then Err (RuleError ("empty interval [" +:+ pretty l +:+ ", " +:+ pretty h +:+ "]"))
  else Ok (mkInterval l h).

Definition point (value : Z) : Interval := mkInterval value value.

Definition is_condition (i : Interval) : bool := (lo i =? 0)%Z && (hi i =? 1)%Z.

Section Arithmetic.
Context {B : Build}.

Definition plus (a b : Interval) : result rule_failure Interval :=
  l ← i128 (lo a + lo b)%Z; h ← i128 (hi a + hi b)%Z; Ok (mkInterval l h).

Definition minus (a b : Interval) : result rule_failure Interval :=
  l ← i128 (lo a - hi b)%Z; h ← i128 (hi a - lo b)%Z; Ok (mkInterval l h).

Definition times (a b : Interval) : result rule_failure Interval :=
  c1 ← i128 (lo a * lo b)%Z; c2 ← i128 (lo a * hi b)%Z;
  c3 ← i128 (hi a * lo b)%Z; c4 ← i128 (hi a * hi b)%Z;
  Ok (mkInterval (Z.min (Z.min c1 c2) (Z.min c3 c4)) (Z.max (Z.max c1 c2) (Z.max c3 c4))).

Definition negated (a : Interval) : result rule_failure Interval :=
  l ← i128 (- hi a)%Z; h ← i128 (- lo a)%Z; Ok (mkInterval l h).
End Arithmetic.

Definition union (a b : Interval) : Interval := mkInterval (Z.min (lo a) (lo b)) (Z.max (hi a) (hi b)).

(** [128 - x.leading_zeros()] of a [u128] is its number of significant bits. *)
Definition bit_length (x : N) : N := N.size x.

Definition width_bits (i : Interval) : N :=
  let magnitude := Z.to_N (Z.max (Z.abs (lo i)) (Z.abs (hi i))) in
  N.max (bit_length magnitude + 1) 2.

Definition interval_display (i : Interval) : string :=
  "[" +:+ pretty (lo i) +:+ ", " +:+ pretty (hi i) +:+ "]".

(** ** What the operations bound *)

Definition inside (v : Z) (i : Interval) : Prop := (lo i <= v <= hi i)%Z.
Definition in_range (i : Interval) : Prop := (I128_MIN <= lo i)%Z /\ (hi i <= I128_MAX)%Z.

Lemma i128_debug z r : i128 (B := Debug) z = Ok r <-> r = z /\ (I128_MIN <= z <= I128_MAX)%Z.
Proof.
  unfold i128. rewrite <- in_i128_spec. destruct (in_i128 z); intuition congruence.
Qed.

Ltac i128_inv :=
  repeat match goal with
  | H : i128 _ = Ok _ |- _ => apply i128_debug in H as [-> ?]
  end.

Lemma plus_inside a b i x y :
  plus (B := Debug) a b = Ok i -> inside x a -> inside y b ->
  inside (x + y) i /\ in_range i.
Proof.
  unfold plus. intros H [? ?] [? ?]. ok_inv. i128_inv. subst i. unfold inside, in_range. cbn. lia.
Qed.

Lemma minus_inside a b i x y :
  minus (B := Debug) a b = Ok i -> inside x a -> inside y b ->
  inside (x - y) i /\ in_range i.
Proof.
  unfold minus. intros H [? ?] [? ?]. ok_inv. i128_inv. subst i. unfold inside, in_range. cbn. lia.
Qed.

Lemma negated_inside a i x :
  negated (B := Debug) a = Ok i -> inside x a -> inside (- x) i /\ in_range i.
Proof.
  unfold negated. intros H [? ?]. ok_inv. i128_inv. subst i. unfold inside, in_range. cbn. lia.
Qed.

(** A product lies between the products of the corners. *)
Lemma product_between (a b x y m M : Z) c d :
  (a <= x <= b)%Z -> (c <= y <= d)%Z ->
  (m <= a * c)%Z -> (m <= a * d)%Z -> (m <= b * c)%Z -> (m <= b * d)%Z ->
  (a * c <= M)%Z -> (a * d <= M)%Z -> (b * c <= M)%Z -> (b * d <= M)%Z ->
  (m <= x * y <= M)%Z.
Proof.
  intros Hx Hy. intros.
  assert (Z.min (a * y) (b * y) <= x * y <= Z.max (a * y) (b * y))%Z by (destruct (Z.le_ge_cases 0 y); nia).
  assert (Z.min (a * c) (a * d) <= a * y <= Z.max (a * c) (a * d))%Z by (destruct (Z.le_ge_cases 0 a); nia).
  assert (Z.min (b * c) (b * d) <= b * y <= Z.max (b * c) (b * d))%Z by (destruct (Z.le_ge_cases 0 b); nia).
  lia.
Qed.

Lemma times_inside a b i x y :
  times (B := Debug) a b = Ok i -> inside x a -> inside y b ->
  inside (x * y) i /\ in_range i.
Proof.
  unfold times. intros H Hx Hy. ok_inv. i128_inv. subst i. unfold inside, in_range in *. cbn. split.
  - apply (product_between (lo a) (hi a) x y _ _ (lo b) (hi b) Hx Hy); lia.
  - lia.
Qed.

Lemma in_range_i128 v i : inside v i -> in_range i -> (I128_MIN <= v <= I128_MAX)%Z.
Proof. unfold inside, in_range. lia. Qed.

Lemma width_bits_bound i v :
  inside v i -> (- 2 ^ (Z.of_N (width_bits i) - 1) <= v < 2 ^ (Z.of_N (width_bits i) - 1))%Z.
Proof.
  unfold inside, width_bits, bit_length. intros Hv.
  set (m := Z.to_N (Z.max (Z.abs (lo i)) (Z.abs (hi i)))).
  assert (Z.abs v <= Z.of_N m)%Z as Habs by (unfold m; lia).
  assert (Z.of_N m < 2 ^ Z.of_N (N.size m))%Z as Hm.
  { destruct (decide (m = 0%N)) as [->|Hne]; [done|].
    pose proof (N.size_gt m) as Hgt. change 2%Z with (Z.of_N 2). rewrite <- N2Z.inj_pow. lia. }
  assert (2 ^ Z.of_N (N.size m) <= 2 ^ (Z.of_N (N.max (N.size m + 1) 2) - 1))%Z
    by (apply Z.pow_le_mono_r; lia).
  lia.
Qed.

Definition FORBIDDEN : list string :=
  ["wallet"; "address"; "entity"; "entity_id"; "user"; "user_id"; "client"; "counterparty";
   "name"; "kyc_id"; "nullifier"; "ip"].
Definition INTRINSICS : list string := ["min"; "max"; "clamp"; "signed"].

Definition contains (l : list string) (s : string) : bool := bool_decide (s ∈ l).

Inductive Cmp : Type := Lt | Le | Gt | Ge | CmpEq | Ne.

Definition cmp_as_str (c : Cmp) : string :=
  match c with Lt => "<" | Le => "<=" | Gt => ">" | Ge => ">=" | CmpEq => "==" | Ne => "!=" end.

Inductive Expr : Type :=
  | Const (v : Z)
  | Name (n : string)
  | Neg (e : Expr)
  | Add (a b : Expr)
  | Sub (a b : Expr)
  | Mul (a b : Expr)
  | Compare (a : Expr) (op : Cmp) (b : Expr)
  | And (parts : list Expr)
  | Call (name : string) (args : list Expr).

Fixpoint render (e : Expr) : string :=
  match e with
  | Const v => pretty v
  | Name n => n
  | Neg e => "-" +:+ render e
  | Add a b => render a +:+ " + " +:+ render b
  | Sub a b => render a +:+ " - " +:+ render b
  | Mul a b => render a +:+ " * " +:+ render b
  | Compare a op b => render a +:+ " " +:+ cmp_as_str op +:+ " " +:+ render b
  | And parts => join " and " (List.map render parts)
  | Call name args => name +:+ "(" +:+ join ", " (List.map render args) +:+ ")"
  end.

(** The names an expression reads, in source order. *)
Fixpoint names (e : Expr) : list string :=
  match e with
  | Const _ => []
  | Name n => [n]
  | Neg e => names e
  | Add a b | Sub a b | Mul a b | Compare a _ b => names a ++ names b
  | And parts => List.flat_map names parts
  | Call _ args => List.flat_map names args
  end.

(** ** Tokens *)

Inductive Token : Type :=
  | TInt (v : Z)
  | TIdent (s : string)
  | TPlus
  | TMinus
  | TStar
  | TLParen
  | TRParen
  | TComma
  | TCmp (c : Cmp)
  | TAnd.

Definition at_line {A} (lineno : nat) (what : string) : result rule_failure A :=
  Err (RuleError ("line " +:+ pretty (N.of_nat lineno) +:+ ": " +:+ what)).

Definition two_char_token (two : chars) : option Token :=
  match two with
  | ["<"%char; "="%char] => Some (TCmp Le)
  | [">"%char; "="%char] => Some (TCmp Ge)
  | ["="%char; "="%char] => Some (TCmp CmpEq)
  | ["!"%char; "="%char] => Some (TCmp Ne)
  | _ => None
  end.

Definition one_char_token (lineno : nat) (c : ascii) : result rule_failure Token :=
  match c with
  | "+"%char => Ok TPlus
  | "-"%char => Ok TMinus
  | "*"%char => Ok TStar
  | "("%char => Ok TLParen
  | ")"%char => Ok TRParen
  | ","%char => Ok TComma
  | "<"%char => Ok (TCmp Lt)
  | ">"%char => Ok (TCmp Gt)
  | "/"%char => at_line lineno "there is no division in this language"
  | c => at_line lineno ("'" +:+ String c EmptyString +:+ "' is not part of this language")
  end.

(** One step of the [while] loop: a token or nothing, and the text after it. *)
Definition next_token (lineno : nat) (c : ascii) (text : chars) :
    result rule_failure (option Token * chars) :=
  if is_whitespace c then Ok (None, tl text)
  else if is_ascii_digit c then
    let (digits, rest) := span is_ascii_digit text in
    match parse_i128 digits with
    | Some v => Ok (Some (TInt v), rest)
    | None => at_line lineno ("integer '" +:+ of_chars digits +:+ "' does not fit")
    end
  else if is_word_start c then
    let (word, rest) := span is_word text in
    Ok (Some (if bool_decide (of_chars word = "and") then TAnd else TIdent (of_chars word)), rest)
  else
    match two_char_token (take 2 text) with
    | Some t => Ok (Some t, drop 2 text)
    | None => t ← one_char_token lineno c; Ok (Some t, tl text)
    end.

Fixpoint tokenize (fuel lineno : nat) (text : chars) : result rule_failure (list Token) :=
  match text with
  | [] => Ok []
  | c :: _ =>
      match fuel with
      | O => Err OutOfFuel
      | S fuel =>
          '(token, rest) ← next_token lineno c text;
          tokens ← tokenize fuel lineno rest;
          Ok (match token with Some t => t :: tokens | None => tokens end)
      end
  end.

(** ** The parser *)

Abbreviation parsed A := (result rule_failure (A * list Token)).

Module Parser.
Section Methods.
Context (lineno : nat).

Definition expected {A} (what : string) : result rule_failure A :=
  at_line lineno ("expected " +:+ what).

Fixpoint conjunction (fuel : nat) (ts : list Token) : parsed Expr :=
  match fuel with
  | O => Err OutOfFuel
  | S fuel =>
      '(first, ts) ← comparison fuel ts;
      match ts with
      | TAnd :: _ =>
          '(parts, ts) ← conjunction_loop fuel ts;
          Ok (And (first :: parts), ts)
      | _ => Ok (first, ts)
      end
  end
(** [while self.eat(&Token::And)]: the parts after the first. *)
with conjunction_loop (fuel : nat) (ts : list Token) : parsed (list Expr) :=
  match fuel with
  | O => Err OutOfFuel
  | S fuel =>
      match ts with
      | TAnd :: ts =>
          '(part, ts) ← comparison fuel ts;
          '(parts, ts) ← conjunction_loop fuel ts;
          Ok (part :: parts, ts)
      | _ => Ok ([], ts)
      end
  end
with comparison (fuel : nat) (ts : list Token) : parsed Expr :=
  match fuel with
  | O => Err OutOfFuel
  | S fuel =>
      '(lhs, ts) ← sum fuel ts;
      match ts with
      | TCmp op :: ts =>
          '(rhs, ts) ← sum fuel ts;
          match ts with
          | TCmp _ :: _ => at_line lineno "chained comparisons are not allowed"
          | _ => Ok (Compare lhs op rhs, ts)
          end
      | _ => Ok (lhs, ts)
      end
  end
with sum (fuel : nat) (ts : list Token) : parsed Expr :=
  match fuel with
  | O => Err OutOfFuel
  | S fuel => '(lhs, ts) ← product fuel ts; sum_loop fuel lhs ts
  end
with sum_loop (fuel : nat) (lhs : Expr) (ts : list Token) : parsed Expr :=
  match fuel with
  | O => Err OutOfFuel
  | S fuel =>
      match ts with
      | TPlus :: ts => '(rhs, ts) ← product fuel ts; sum_loop fuel (Add lhs rhs) ts
      | TMinus :: ts => '(rhs, ts) ← product fuel ts; sum_loop fuel (Sub lhs rhs) ts
      | _ => Ok (lhs, ts)
      end
  end
with product (fuel : nat) (ts : list Token) : parsed Expr :=
  match fuel with
  | O => Err OutOfFuel
  | S fuel => '(lhs, ts) ← unary fuel ts; product_loop fuel lhs ts
  end
with product_loop (fuel : nat) (lhs : Expr) (ts : list Token) : parsed Expr :=
  match fuel with
  | O => Err OutOfFuel
  | S fuel =>
      match ts with
      | TStar :: ts => '(rhs, ts) ← unary fuel ts; product_loop fuel (Mul lhs rhs) ts
      | _ => Ok (lhs, ts)
      end
  end
with unary (fuel : nat) (ts : list Token) : parsed Expr :=
  match fuel with
  | O => Err OutOfFuel
  | S fuel =>
      match ts with
      | TMinus :: ts => '(e, ts) ← unary fuel ts; Ok (Neg e, ts)
      | TPlus :: ts => unary fuel ts
      | _ => atom fuel ts
      end
  end
with atom (fuel : nat) (ts : list Token) : parsed Expr :=
  match fuel with
  | O => Err OutOfFuel
  | S fuel =>
      match ts with
      | TInt v :: ts => Ok (Const v, ts)
      | TLParen :: ts =>
          '(inner, ts) ← conjunction fuel ts;
          match ts with
          | TRParen :: ts => Ok (inner, ts)
          | _ => expected "a closing parenthesis"
          end
      | TIdent name :: ts =>
          match ts with
          | TLParen :: ts =>
              if negb (contains INTRINSICS name)
              then at_line lineno ("only " +:+ debug_list (List.map debug_str INTRINSICS)
                                   +:+ " may be called")
              else
                match ts with
                | TRParen :: ts => Ok (Call name [], ts)
                | _ => '(args, ts) ← arguments fuel ts; Ok (Call name args, ts)
                end
          | _ => Ok (Name name, ts)
          end
      | _ => expected "a value"
      end
  end
(** The argument [loop], up to the closing parenthesis. *)
with arguments (fuel : nat) (ts : list Token) : parsed (list Expr) :=
  match fuel with
  | O => Err OutOfFuel
  | S fuel =>
      '(arg, ts) ← conjunction fuel ts;
      match ts with
      | TRParen :: ts => Ok ([arg], ts)
      | TComma :: ts => '(args, ts) ← arguments fuel ts; Ok (arg :: args, ts)
      | _ => expected "',' or ')'"
      end
  end.
End Methods.
End Parser.

Definition parse_expression (text : chars) (lineno : nat) : result rule_failure Expr :=
  tokens ← tokenize (length text) lineno text;
  if bool_decide (length tokens = 0%nat) then at_line lineno "empty expression"
  else
    '(e, rest) ← Parser.conjunction lineno (8 * length tokens + 8) tokens;
    if negb (bool_decide (length rest = 0%nat))
    then at_line lineno "trailing input after the expression"
    else Ok e.
