(* ===== verification/DslRule.v ===== *)
(** * Declarations, parsing and checking of rules

    Model of rust/qomm-dsl/src/rule.rs on ASCII text.  The analyser's list of
    obligations is the last component of what [visit] returns; the name maps
    are finite maps, iterated in key order where the code iterates them. *)

From S2P Require Import Prelude.
From S2P Require Import Text.
From S2P Require Import DslParse.

Open Scope N_scope.

Inductive Role : Type := Param | State | Input.

Definition is_secret (r : Role) : bool :=
  match r with Param | State => true | Input => false end.

Definition role_parse (word : string) : option Role :=
  if bool_decide (word = "param") then Some Param
  else if bool_decide (word = "state") then Some State
  else if bool_decide (word = "input") then Some Input
  else None.

Definition role_as_str (r : Role) : string :=
  match r with Param => "param" | State => "state" | Input => "input" end.

Record Declaration := mkDeclaration {
  d_name : string;
  d_interval : Interval;
  d_role : Role
}.

Record Obligation := mkObligation {
  o_kind : string;
  o_target : string;
  o_detail : string;
  o_bits : N
}.

Record Rule := mkRule {
  r_name : string;
  r_declarations : gmap string Declaration;
  r_outputs : list (string * Expr);
  r_source : string;
  r_intervals : gmap string Interval;
  r_degrees : gmap string N;
  r_obligations : list Obligation
}.

(** ** Derived facts *)

Definition secrets (rule : Rule) : list string :=
  d_name <$> List.filter (fun d => is_secret (d_role d)) (btree_iter (r_declarations rule)).*2.

Definition inputs (rule : Rule) : list string :=
  d_name <$> List.filter (fun d => match d_role d with Input => true | _ => false end)
               (btree_iter (r_declarations rule)).*2.

(** The union of the outputs' intervals; [self.intervals[name]] and the final
    [expect] panic on a rule that was not checked. *)
Definition output_interval (rule : Rule) : result rule_failure Interval :=
  combined ← fold_res (fun (combined : option Interval) (output : string * Expr) =>
      interval ← ok_or (r_intervals rule !! output.1) ArithPanic;
      Ok (Some (match combined with None => interval | Some c => union c interval end)))
    None (r_outputs rule);
  ok_or combined ArithPanic.

Definition required_bits (rule : Rule) : result rule_failure N :=
  i ← output_interval rule; Ok (width_bits i).

Definition max_degree (rule : Rule) : N :=
  foldr (fun kv m => N.max kv.2 m) 0 (map_to_list (r_degrees rule)).

(** ** Parsing *)

Definition is_identifier (text : chars) : bool :=
  match text with
  | c :: rest => is_word_start c && forallb is_word rest
  | [] => false
  end.

Definition parse_bound (lineno : nat) (name : string) (t : chars) : result rule_failure Z :=
  match parse_i128 (trim t) with
  | Some z => Ok z
  | None => at_line lineno ("bad range on '" +:+ name +:+ "': '" +:+ of_chars (trim t)
                            +:+ "' is not an integer")
  end.

(** One declaration that starts with the word character at the head of the
    text; the text after its closing bracket. *)
Definition parse_declaration (role : Role) (lineno : nat) (rest : chars) :
    result rule_failure (Declaration * chars) :=
  let (word, after) := span is_word rest in
  let name := of_chars word in
  match trim_start after with
  | "["%char :: remainder =>
      match split_once "]" remainder with
      | None => at_line lineno ("'" +:+ name +:+ "' has no closing bracket")
      | Some (bounds, after) =>
          match split_once "," bounds with
          | None => at_line lineno ("bad range on '" +:+ name +:+ "': expected two bounds")
          | Some (l, h) =>
              l ← parse_bound lineno name l;
              h ← parse_bound lineno name h;
              interval ←
                match interval_new l h with
                | Ok i => Ok i
                | Err (RuleError e) => at_line lineno ("bad range on '" +:+ name +:+ "': " +:+ e)
                | Err f => Err f
                end;
              if contains FORBIDDEN name
              then at_line lineno ("'" +:+ name +:+ "' may not be a pricing input; a quote must not depend on who is asking")
              else Ok (mkDeclaration name interval role, after)
          end
      end
  | _ => at_line lineno ("'" +:+ name +:+ "' needs a range, e.g. spread[2,400]")
  end.

(** The [while] loop: characters that start no word are skipped. *)
Fixpoint declarations_loop (fuel : nat) (role : Role) (lineno : nat) (rest : chars) :
    result rule_failure (list Declaration) :=
  match rest with
  | [] => Ok []
  | c :: tail =>
      match fuel with
      | O => Err OutOfFuel
      | S fuel =>
          if negb (is_word_start c) then declarations_loop fuel role lineno tail
          else
            '(d, after) ← parse_declaration role lineno rest;
            ds ← declarations_loop fuel role lineno after;
            Ok (d :: ds)
      end
  end.

Definition parse_declarations (role : Role) (rest : chars) (lineno : nat) :
    result rule_failure (list Declaration) :=
  out ← declarations_loop (length rest) role lineno rest;
  if bool_decide (length out = 0%nat) then at_line lineno "no declarations found" else Ok out.

Definition insert_declarations (m : gmap string Declaration) (ds : list Declaration) :
    gmap string Declaration :=
  foldl (fun m d => <[d_name d := d]> m) m ds.

(** One line of the source, over the declarations and outputs so far. *)
Definition parse_line (state : gmap string Declaration * list (string * Expr))
    (numbered : nat * chars) : result rule_failure (gmap string Declaration * list (string * Expr)) :=
  let '(declarations, outputs) := state in
  let '(lineno, raw) := numbered in
  let line := trim (before "#" raw) in
  if bool_decide (line = []) then Ok state
  else
    let '(head, rest) := default (line, []) (split_once " " line) in
    match role_parse (of_chars head) with
    | Some role =>
        ds ← parse_declarations role rest lineno;
        Ok (insert_declarations declarations ds, outputs)
    | None =>
        match split_once "=" line with
        | None => at_line lineno "expected a declaration or an assignment"
        | Some (target, expression) =>
            let target := trim target in
            if bool_decide (target = []) || negb (is_identifier target)
            then at_line lineno ("'" +:+ of_chars target +:+ "' is not a valid output name")
            else if bool_decide (is_Some (declarations !! of_chars target))
            then at_line lineno ("'" +:+ of_chars target +:+ "' is already declared")
            else
              e ← parse_expression (trim expression) lineno;
              Ok (declarations, outputs ++ [(of_chars target, e)])
        end
    end.

Definition parse (source : string) (name : string) : result rule_failure Rule :=
  let ls := lines (to_chars source) in
  '(declarations, outputs) ← fold_res parse_line (∅, []) (zip (seq 1 (length ls)) ls);
  if bool_decide (declarations = ∅) then Err (RuleError "a rule must declare at least one parameter")
  else if bool_decide (length outputs = 0%nat)
  then Err (RuleError "a rule must produce at least one output")
  else Ok (mkRule name declarations outputs source ∅ ∅ []).

(** ** The analyser *)

Section Analyser.
Context {B : Build} (declarations : gmap string Declaration) (label : string).

Definition note (kind detail : string) (bits : N) : Obligation :=
  mkObligation kind label detail bits.

(** What a construct yields: its interval, its degree and the obligations in
    the order they are noted. *)
Definition analysis : Type := Interval * N * list Obligation.

Definition visit_name (name : string) : result rule_failure analysis :=
  if contains FORBIDDEN name
  then Err (RuleError ("'" +:+ name +:+ "' may not be used in a price rule"))
  else
    match declarations !! name with
    | None => Err (RuleError ("'" +:+ name +:+ "' is not declared; a rule may only read its own declared parameters, state and inputs"))
    | Some d => Ok (d_interval d, 1, [])
    end.

Definition additive (a b : analysis) (adding : bool) : result rule_failure analysis :=
  let '(ia, da, na) := a in
  let '(ib, db, nb) := b in
  i ← (if adding then plus ia ib else minus ia ib);
  Ok (i, N.max da db, na ++ nb).

Definition visit_product (text : string) (a b : analysis) : result rule_failure analysis :=
  let '(ia, da, na) := a in
  let '(ib, db, nb) := b in
  let degree := da + db in
  if 2 <? degree
  then Err (RuleError "a price rule may not exceed degree two in its secrets; higher degree would need a proof per intermediate product")
  else
    let noted := if degree =? 2 then [note "product" text 0] else [] in
    i ← times ia ib;
    Ok (i, degree, na ++ nb ++ noted).

Definition visit_comparison (text : string) (op : Cmp) (a b : analysis) :
    result rule_failure analysis :=
  let '(ia, _, na) := a in
  let '(ib, _, nb) := b in
  let bit := note "bit" ("result of " +:+ text) 0 in
  noted ←
    match op with
    | CmpEq | Ne =>
        Ok [note "product" (text +:+ ": the bit sends the difference to zero") 0;
            note "product" (text +:+ ": the difference is invertible when the bit is 0") 0]
    | _ =>
        difference ← (match op with Gt | Ge => minus ia ib | _ => minus ib ia end);
        shifted ← minus difference (point 1);
        Ok [note "product" (text +:+ ": the bit against the difference") 0;
            note "range" text (width_bits shifted + 1)]
    end;
  i ← interval_new 0 1;
  Ok (i, 0, na ++ nb ++ [bit] ++ noted).

(** The test on each part of a conjunction, right after its visit. *)
Definition condition_part (part : analysis) : result rule_failure analysis :=
  if negb (is_condition part.1.1) then Err (RuleError "'and' may only combine conditions")
  else Ok part.

Definition visit_conjunction (parts : list analysis) : result rule_failure analysis :=
  i ← interval_new 0 1;
  Ok (i, 0, concat (snd <$> parts)
            ++ replicate (length parts - 1) (note "product" "conjunction of two conditions" 0)).

Definition visit_call (name : string) (parts : list analysis) : result rule_failure analysis :=
  let notes := concat (snd <$> parts) in
  if bool_decide (name = "min") || bool_decide (name = "max") then
    match parts with
    | [(a, da, _); (b, db, _)] =>
        difference ← minus a b;
        let merged :=
          if bool_decide (name = "min")
          then mkInterval (Z.min (lo a) (lo b)) (Z.min (hi a) (hi b))
          else mkInterval (Z.max (lo a) (lo b)) (Z.max (hi a) (hi b)) in
        Ok (merged, N.max da db,
            notes ++ [note "range" (name +:+ " comparison") (width_bits difference);
                      note "product" (name +:+ " selection") 0])
    | _ => Err (RuleError (name +:+ " takes exactly two arguments"))
    end
  else if bool_decide (name = "clamp") then
    match parts with
    | [(value, degree, _); (l, _, _); (h, _, _)] =>
        if negb (lo l =? hi l)%Z || negb (lo h =? hi h)%Z
        then Err (RuleError "clamp bounds must be constants so the range is static")
        else
          below ← minus value l;
          above ← minus h value;
          i ← interval_new (lo l) (hi h);
          Ok (i, degree,
              notes ++ [note "range" "clamp lower bound" (width_bits below);
                        note "range" "clamp upper bound" (width_bits above);
                        note "product" "clamp selection" 0])
    | _ => Err (RuleError "clamp takes a value and two bounds")
    end
  else if bool_decide (name = "signed") then
    match parts with
    | [(side, _, _); (magnitude, degree, _)] =>
        if negb (is_condition side)
        then Err (RuleError "the first argument of signed must be a condition")
        else
          l ← i128 (- hi magnitude)%Z;
          i ← interval_new l (hi magnitude);
          Ok (i, degree, notes ++ [note "product" "signed selection" 0])
    | _ => Err (RuleError "signed takes a side bit and a magnitude")
    end
  else Err (RuleError ("unknown intrinsic " +:+ name)).

Fixpoint visit (node : Expr) : result rule_failure analysis :=
  match node with
  | Const v => Ok (point v, 0, [])
  | Name name => visit_name name
  | Neg inner =>
      '(interval, degree, notes) ← visit inner;
      i ← negated interval;
      Ok (i, degree, notes)
  | Add a b => ra ← visit a; rb ← visit b; additive ra rb true
  | Sub a b => ra ← visit a; rb ← visit b; additive ra rb false
  | Mul a b =>
      ra ← visit a; rb ← visit b;
      visit_product (render a +:+ " * " +:+ render b) ra rb
  | Compare a op b => ra ← visit a; rb ← visit b; visit_comparison (render node) op ra rb
  | And parts => rs ← map_res (fun part => r ← visit part; condition_part r) parts; visit_conjunction rs
  | Call name args =>
      if negb (contains INTRINSICS name)
      then Err (RuleError ("only " +:+ debug_list (List.map debug_str INTRINSICS)
                           +:+ " may be called"))
      else rs ← map_res visit args; visit_call name rs
  end.
End Analyser.

(** ** Checking *)

Section Check.
Context {B : Build}.

(** What the loop over the outputs collects: intervals, degrees and
    obligations. *)
Definition findings : Type := gmap string Interval * gmap string N * list Obligation.

Definition check_step (declarations : gmap string Declaration) (acc : findings)
    (output : string * Expr) : result rule_failure findings :=
  let '(intervals, degrees, obligations) := acc in
  let '(label, tree) := output in
  '(interval, degree, notes) ← visit declarations label tree;
  Ok (<[label := interval]> intervals, <[label := degree]> degrees, obligations ++ notes).

Definition check_outputs (declarations : gmap string Declaration)
    (outputs : list (string * Expr)) : result rule_failure findings :=
  fold_res (check_step declarations) (∅, ∅, []) outputs.

(** The range obligation of a declared secret. *)
Definition declared_obligation (d : Declaration) : result rule_failure Obligation :=
  span ← i128 (hi (d_interval d) - lo (d_interval d))%Z;
  Ok (mkObligation "range" (d_name d) (d_name d +:+ " in " +:+ interval_display (d_interval d))
        (N.max (bit_length (Z.to_N (Z.abs span))) 1)).

Definition unused (rule : Rule) : list string :=
  let read := List.flat_map (fun output => names output.2) (r_outputs rule) in
  List.filter (fun n => negb (contains read n)) (btree_iter (r_declarations rule)).*1.

Definition check (rule : Rule) : result rule_failure Rule :=
  '(intervals, degrees, obligations) ← check_outputs (r_declarations rule) (r_outputs rule);
  declared ← map_res declared_obligation
    (List.filter (fun d => is_secret (d_role d)) (btree_iter (r_declarations rule)).*2);
  if negb (bool_decide (unused rule = []))
  then Err (RuleError ("declared but never used: " +:+ debug_list (List.map debug_str (unused rule))
                       +:+ "; a rule may not register values it does not price with"))
  else Ok (mkRule (r_name rule) (r_declarations rule) (r_outputs rule) (r_source rule)
             intervals degrees (declared ++ obligations)).

Definition compile_rule (source name : string) : result rule_failure Rule :=
  rule ← parse source name; check rule.
End Check.
