(* ===== verification/DslEmit.v ===== *)
(** * What a checked rule emits

    Model of rust/qomm-dsl/src/emit.rs: the obligation plan, the MP-SPDZ
    expression of every output, and the evaluation in the clear, whose [i128]
    arithmetic panics or wraps with the build. *)

From S2P Require Import Prelude.
From S2P Require Import Sorting.
From S2P Require Import Text.
From S2P Require Import DslParse.
From S2P Require Import DslRule.

Open Scope N_scope.

(** ** Obligations *)

Record ObligationPlan := mkPlan {
  op_counts : gmap string N;
  op_total : N;
  op_range_bits : list N;
  op_total_bit_proofs : N;
  op_required_circuit_bits : N;
  op_output_intervals : gmap string (Z * Z)
}.

Definition obligation_plan (rule : Rule) : result rule_failure ObligationPlan :=
  let counts := foldl (fun (m : gmap string N) o =>
                  <[o_kind o := default 0 (m !! o_kind o) + 1]> m) ∅ (r_obligations rule) in
  let range_bits := sort_by_key N.leb id
    (o_bits <$> List.filter (fun o => bool_decide (o_kind o = "range")) (r_obligations rule)) in
  let total_bit_proofs := foldr N.add 0 range_bits + default 0 (counts !! "bit") in
  bits ← required_bits rule;
  Ok (mkPlan counts (N.of_nat (length (r_obligations rule))) range_bits total_bit_proofs bits
        ((fun i => (lo i, hi i)) <$> r_intervals rule)).

(** ** The circuit *)

Fixpoint mpc (node : Expr) (bindings : option (gmap string string)) :
    result rule_failure string :=
  match node with
  | Const v => Ok ("sint(" +:+ pretty v +:+ ")")
  | Name n =>
      match bindings with
      | Some bindings =>
          ok_or (bindings !! n) (RuleError ("the MPC binding for '" +:+ n +:+ "' is missing"))
      | None => Ok ("col_" +:+ n)
      end
  | Neg e => s ← mpc e bindings; Ok ("(-" +:+ s +:+ ")")
  | Add a b =>
      l ← mpc a bindings; r ← mpc b bindings; Ok ("(" +:+ l +:+ " + " +:+ r +:+ ")")
  | Sub a b =>
      l ← mpc a bindings; r ← mpc b bindings; Ok ("(" +:+ l +:+ " - " +:+ r +:+ ")")
  | Mul a b =>
      l ← mpc a bindings; r ← mpc b bindings; Ok ("(" +:+ l +:+ " * " +:+ r +:+ ")")
  | Compare a op b =>
      l ← mpc a bindings; r ← mpc b bindings;
      Ok (match op with
          | Lt => "(" +:+ l +:+ ").__lt__(" +:+ r +:+ ")"
          | Le => "(" +:+ l +:+ ").__le__(" +:+ r +:+ ")"
          | Gt => "(" +:+ l +:+ ").__gt__(" +:+ r +:+ ")"
          | Ge => "(" +:+ l +:+ ").__ge__(" +:+ r +:+ ")"
          | CmpEq => "(" +:+ l +:+ ").__eq__(" +:+ r +:+ ")"
          | Ne => "(1 - (" +:+ l +:+ ").__eq__(" +:+ r +:+ "))"
          end)
  | And parts =>
      joined ← map_res (fun part => mpc part bindings) parts;
      Ok ("(" +:+ join " * " joined +:+ ")")
  | Call name args =>
      rendered ← map_res (fun argument => mpc argument bindings) args;
      Ok (match rendered with
          | [a; b] =>
              if bool_decide (name = "min")
              then "((" +:+ a +:+ ").__lt__(" +:+ b +:+ ").if_else(" +:+ a +:+ ", " +:+ b +:+ "))"
              else if bool_decide (name = "max")
              then "((" +:+ a +:+ ").__lt__(" +:+ b +:+ ").if_else(" +:+ b +:+ ", " +:+ a +:+ "))"
              else if bool_decide (name = "signed")
              then "((" +:+ a +:+ ").if_else(" +:+ b +:+ ", -(" +:+ b +:+ ")))"
              else "/* unreachable: " +:+ name +:+ " */"
          | [v; l; h] =>
              if bool_decide (name = "clamp")
              then "(((" +:+ v +:+ ").__lt__(" +:+ l +:+ ")).if_else(" +:+ l +:+ ", ((" +:+ h
                   +:+ ").__lt__(" +:+ v +:+ ")).if_else(" +:+ h +:+ ", " +:+ v +:+ ")))"
              else "/* unreachable: " +:+ name +:+ " */"
          | _ => "/* unreachable: " +:+ name +:+ " */"
          end)
  end.

(** [collect] into a [BTreeMap]: a later output replaces an earlier one of the
    same name. *)
Definition collect_step {A} (f : Expr -> result rule_failure A) (m : gmap string A)
    (output : string * Expr) : result rule_failure (gmap string A) :=
  a ← f output.2; Ok (<[output.1 := a]> m).

Definition collect_outputs {A} (f : Expr -> result rule_failure A) (outputs : list (string * Expr)) :
    result rule_failure (gmap string A) := fold_res (collect_step f) ∅ outputs.

(** The [expect] of [to_mpc] panics where [mpc] fails. *)
Definition to_mpc (rule : Rule) : result rule_failure (gmap string string) :=
  collect_outputs (fun tree => map_err (fun _ => ArithPanic) (mpc tree None)) (r_outputs rule).

Definition to_mpc_with_bindings (rule : Rule) (bindings : gmap string string) :
    result rule_failure (gmap string string) :=
  _ ← for_each (fun name =>
        if negb (bool_decide (is_Some (bindings !! name)))
        then Err (RuleError ("the MPC binding for declared value '" +:+ name +:+ "' is missing"))
        else Ok tt) (btree_iter (r_declarations rule)).*1;
  collect_outputs (fun tree => mpc tree (Some bindings)) (r_outputs rule).

(** ** Evaluation *)

Section Eval.
Context {B : Build}.

Definition compare_values (op : Cmp) (l r : Z) : Z :=
  Z.b2z match op with
        | Lt => (l <? r)%Z
        | Le => (l <=? r)%Z
        | Gt => (r <? l)%Z
        | Ge => (r <=? l)%Z
        | CmpEq => (l =? r)%Z
        | Ne => negb (l =? r)%Z
        end.

(** [i128::clamp] asserts that its bounds are ordered. *)
Definition clamp_i128 (value l h : Z) : result rule_failure Z :=
  if (h <? l)%Z then Err ArithPanic
  else Ok (if (value <? l)%Z then l else if (h <? value)%Z then h else value).

Definition eval_call (name : string) (v : list Z) : result rule_failure Z :=
  match v with
  | [a; c] =>
      if bool_decide (name = "min") then Ok (Z.min a c)
      else if bool_decide (name = "max") then Ok (Z.max a c)
      else if bool_decide (name = "signed") then
        if (a =? 1)%Z then Ok c else i128 (- c)%Z
      else Err (RuleError ("cannot evaluate " +:+ name))
  | [value; l; h] =>
      if bool_decide (name = "clamp") then clamp_i128 value l h
      else Err (RuleError ("cannot evaluate " +:+ name))
  | _ => Err (RuleError ("cannot evaluate " +:+ name))
  end.

Fixpoint eval (node : Expr) (b : gmap string Z) : result rule_failure Z :=
  match node with
  | Const v => Ok v
  | Name n => ok_or (b !! n) (RuleError ("'" +:+ n +:+ "' has no value"))
  | Neg e => x ← eval e b; i128 (- x)%Z
  | Add x y => l ← eval x b; r ← eval y b; i128 (l + r)%Z
  | Sub x y => l ← eval x b; r ← eval y b; i128 (l - r)%Z
  | Mul x y => l ← eval x b; r ← eval y b; i128 (l * r)%Z
  | Compare x op y => l ← eval x b; r ← eval y b; Ok (compare_values op l r)
  | And parts =>
      vs ← map_res (fun part => eval part b) parts;
      Ok (foldl Z.land 1%Z vs)
  | Call name args => v ← map_res (fun a => eval a b) args; eval_call name v
  end.

Definition evaluate (rule : Rule) (bindings : gmap string Z) :
    result rule_failure (gmap string Z) :=
  collect_outputs (fun tree => eval tree bindings) (r_outputs rule).
End Eval.
