(* ===== verification/DslProofs.v ===== *)
(** * Soundness of the rule checker and termination of the parser

    In a build with overflow checks, a rule the checker accepts evaluates on
    every admissible input, without overflow, to values inside the intervals
    and within the circuit width the checker derived, as long as the magnitudes
    it passes to [signed] are balanced; it reads only declared names.  Parsing
    and checking any text returns.  DslRegistryProofs.v records where the checker
    promises less: unbalanced magnitudes, and builds without overflow checks. *)

From S2P Require Import Prelude.
From S2P Require Import Text.
From S2P Require Import DslParse.
From S2P Require Import DslRule.
From S2P Require Import DslEmit.

(** ** Termination of the parser

    Every method of the parser, given eight units of fuel per remaining token
    and a constant that depends on the method, returns a tree or an error, and
    leaves fewer tokens than it was given; so parsing and checking a rule never
    runs out of fuel, whatever the source text. *)

(** ** The tokenizer *)

Lemma next_token_shrinks lineno c text t rest :
  next_token lineno c (c :: text) = Ok (t, rest) -> (length rest <= length text)%nat.
Proof.
  unfold next_token. destruct (is_whitespace c); [by intros [= _ <-]|].
  destruct (is_ascii_digit c) eqn:Hd.
  { cbn [span]. rewrite Hd. pose proof (span_length is_ascii_digit text) as Hl.
    destruct (span is_ascii_digit text) as [digits rest']. cbn in Hl.
    destruct (parse_i128 _); [|done]. by intros [= _ <-]. }
  destruct (is_word_start c) eqn:Hw.
  { assert (is_word c = true) as Hword.
    { unfold is_word_start, is_word, is_alphanumeric in *. apply orb_true_iff in Hw as [-> | ->];
        [done | by rewrite orb_true_r]. }
    cbn [span]. rewrite Hword. pose proof (span_length is_word text) as Hl.
    destruct (span is_word text) as [word rest']. cbn in Hl. by intros [= _ <-]. }
  destruct (two_char_token _); [intros [= _ <-]; cbn; rewrite length_drop; lia|].
  intros (t' & _ & [= _ <-])%bind_ok. done.
Qed.

Lemma next_token_fuel lineno c text : next_token lineno c text <> Err OutOfFuel.
Proof.
  unfold next_token, at_line. destruct (is_whitespace c); [done|]. destruct (is_ascii_digit c).
  { destruct (span _ _). by destruct (parse_i128 _). }
  destruct (is_word_start c); [by destruct (span _ _)|].
  destruct (two_char_token _); [done|]. unfold one_char_token, at_line.
  repeat case_match; cbn; done.
Qed.

Lemma tokenize_fuel fuel lineno : forall text,
  (length text <= fuel)%nat -> tokenize fuel lineno text <> Err OutOfFuel.
Proof.
  induction fuel as [|fuel IH]; intros [|c text] Hl; cbn [tokenize]; try done; cbn in Hl; [lia|].
  destruct (next_token lineno c (c :: text)) as [[t rest]|e] eqn:Hn.
  - cbn. apply next_token_shrinks in Hn. specialize (IH rest ltac:(lia)).
    destruct (tokenize fuel lineno rest); cbn; congruence.
  - cbn. intros [= ->]. by apply next_token_fuel in Hn.
Qed.

(** ** The methods of the parser *)

(** A parser returned, and left at least [k] tokens fewer. *)
Definition shrinks {A} (k : nat) (ts : list Token) (r : result rule_failure (A * list Token)) : Prop :=
  r <> Err OutOfFuel /\ forall a ts', r = Ok (a, ts') -> (length ts' + k <= length ts)%nat.

Lemma shrinks_ok {A} k ts (a : A) ts' :
  (length ts' + k <= length ts)%nat -> shrinks k ts (Ok (a, ts')).
Proof. intros H. split; [done|]. by intros ? ? [= <- <-]. Qed.

Lemma shrinks_err {A} k ts m : shrinks (A := A) k ts (Err (RuleError m)).
Proof. by split. Qed.

Lemma shrinks_bind {A C} j k ts1 ts2 (m : result rule_failure (A * list Token))
    (f : A * list Token -> result rule_failure (C * list Token)) :
  shrinks j ts1 m ->
  (forall a ts, (length ts + j <= length ts1)%nat -> shrinks k ts2 (f (a, ts))) ->
  shrinks k ts2 (m ≫= f).
Proof.
  intros [Hm Hlen] Hf. destruct m as [[a ts]|e]; cbn.
  - apply Hf. by eapply Hlen.
  - split; [congruence | done].
Qed.

Lemma shrinks_mono {A} j k ts1 ts2 (r : result rule_failure (A * list Token)) :
  shrinks j ts1 r -> (length ts1 + k <= length ts2 + j)%nat -> shrinks k ts2 r.
Proof. intros [Hr Hl] Hle. split; [done|]. intros a ts Ha. apply Hl in Ha. lia. Qed.

Section Methods.
Context (lineno : nat).

(** Fuel that suffices for every method on tokens [ts]. *)
Definition enough (fuel : nat) : Prop := forall ts,
  let n := (8 * length ts)%nat in
  ((n + 6 <= fuel)%nat -> shrinks 1 ts (Parser.conjunction lineno fuel ts))
  /\ ((n + 1 <= fuel)%nat -> shrinks 0 ts (Parser.conjunction_loop lineno fuel ts))
  /\ ((n + 5 <= fuel)%nat -> shrinks 1 ts (Parser.comparison lineno fuel ts))
  /\ ((n + 4 <= fuel)%nat -> shrinks 1 ts (Parser.sum lineno fuel ts))
  /\ ((n + 1 <= fuel)%nat -> forall e, shrinks 0 ts (Parser.sum_loop lineno fuel e ts))
  /\ ((n + 3 <= fuel)%nat -> shrinks 1 ts (Parser.product lineno fuel ts))
  /\ ((n + 1 <= fuel)%nat -> forall e, shrinks 0 ts (Parser.product_loop lineno fuel e ts))
  /\ ((n + 2 <= fuel)%nat -> shrinks 1 ts (Parser.unary lineno fuel ts))
  /\ ((n + 1 <= fuel)%nat -> shrinks 1 ts (Parser.atom lineno fuel ts))
  /\ ((n + 7 <= fuel)%nat -> shrinks 1 ts (Parser.arguments lineno fuel ts)).

(** The induction hypothesis for a call of a method on given tokens. *)
Ltac enough_at IH ts :=
  let H := fresh in pose proof (IH ts) as H; cbv zeta in H; destruct_and! H;
  match goal with
  | H : _ -> shrinks _ ts ?c |- shrinks _ ts ?c => apply H; cbn in *; lia
  | H : _ -> forall e, shrinks _ ts _ |- shrinks _ ts _ => apply H; cbn in *; lia
  end.
(** One step through a method's body. *)
Ltac parse_step IH :=
  match goal with
  | |- shrinks _ _ (Ok _) => apply shrinks_ok; cbn in *; lia
  | |- shrinks _ _ (Err _) => apply shrinks_err
  | |- shrinks _ _ (at_line _ _) => apply shrinks_err
  | |- shrinks _ _ (Parser.expected _ _) => apply shrinks_err
  | |- shrinks _ ?ts (_ lineno _ ?ts' ≫= _) =>
      eapply (shrinks_bind _ _ ts' ts); [enough_at IH ts' | intros ? ? ?; cbv beta iota]
  | |- shrinks _ _ (match ?ts with [] => _ | _ => _ end) => destruct ts as [|[]]
  | |- shrinks _ _ (if ?c then _ else _) => destruct c
  | |- shrinks _ ?ts (_ lineno _ ?ts') =>
      eapply (shrinks_mono _ _ ts' ts); [enough_at IH ts' | cbn in *; lia]
  | |- shrinks _ ?ts (_ lineno _ _ ?ts') =>
      eapply (shrinks_mono _ _ ts' ts); [enough_at IH ts' | cbn in *; lia]
  end.

Lemma fuel_enough fuel : enough fuel.
Proof.
  induction fuel as [|fuel IH]; intros ts n; subst n;
    [repeat split_and!; intros; lia|].
  split_and!; cbn [Parser.conjunction Parser.conjunction_loop Parser.comparison Parser.sum
    Parser.sum_loop Parser.product Parser.product_loop Parser.unary Parser.atom Parser.arguments];
    intros; repeat parse_step IH.
Qed.
End Methods.

(** ** Sources *)

Definition returns {A} (r : result rule_failure A) : Prop := r <> Err OutOfFuel.

Lemma returns_bind {A C} (m : result rule_failure A) (f : A -> result rule_failure C) :
  returns m -> (forall a, m = Ok a -> returns (f a)) -> returns (m ≫= f).
Proof. unfold returns. destruct m; cbn; [auto | congruence]. Qed.

Lemma returns_map_res {A C} (f : A -> result rule_failure C) l :
  Forall (fun a => returns (f a)) l -> returns (map_res f l).
Proof.
  induction 1 as [|a l Ha Hl IH]; [done|]. cbn. apply returns_bind; [done|]. intros c _.
  apply returns_bind; [done|]. done.
Qed.

Lemma returns_fold {S A} (f : S -> A -> result rule_failure S) l : forall s,
  (forall s a, returns (f s a)) -> returns (fold_res f s l).
Proof.
  induction l as [|a l IH]; intros s Hf; [done|]. cbn. apply returns_bind; [apply Hf|]. intros s' _. auto.
Qed.

Lemma returns_i128 {B : Build} z : returns (i128 z).
Proof. unfold returns, i128. destruct (in_i128 z), B; done. Qed.

Create HintDb returns_db.
#[local] Hint Resolve returns_i128 : returns_db.

Ltac returns_step :=
  match goal with
  | |- returns (Ok _) => done
  | |- returns (Err (RuleError _)) => done
  | |- returns (Err ArithPanic) => done
  | |- returns (at_line _ _) => done
  | |- returns (interval_new _ _) => unfold interval_new
  | |- returns (plus _ _) => unfold plus
  | |- returns (minus _ _) => unfold minus
  | |- returns (times _ _) => unfold times
  | |- returns (negated _) => unfold negated
  | |- returns (i128 _) => apply returns_i128
  | |- returns (_ ≫= _) => apply returns_bind; [|intros ? _]
  | |- returns (let '_ := ?p in _) => destruct p
  | |- returns (if ?c then _ else _) => destruct c
  | |- returns (match ?x with _ => _ end) => destruct x
  | |- _ => solve [auto with returns_db]
  end.
Ltac returns_tac := repeat (returns_step; cbv beta iota).

Lemma parse_expression_returns text lineno : returns (parse_expression text lineno).
Proof.
  unfold parse_expression. apply returns_bind; [by apply tokenize_fuel|]. intros tokens _.
  destruct (bool_decide _); [done|]. apply returns_bind.
  - apply (fuel_enough lineno _ tokens). lia.
  - intros [e rest] _. by destruct (negb _).
Qed.

Lemma split_once_length c l a b : split_once c l = Some (a, b) -> (length b < length l)%nat.
Proof.
  revert a b. induction l as [|d l IH]; intros a b; cbn; [done|].
  destruct (Ascii.eqb c d); [intros [= _ <-]; lia|].
  destruct (split_once c l) as [[a' b']|]; cbn; [|done]. intros [= _ <-].
  specialize (IH _ _ eq_refl). lia.
Qed.

Lemma parse_bound_returns lineno name t : returns (parse_bound lineno name t).
Proof. unfold parse_bound. by destruct (parse_i128 _). Qed.
#[local] Hint Resolve parse_bound_returns parse_expression_returns : returns_db.

Lemma parse_declaration_returns role lineno rest : returns (parse_declaration role lineno rest).
Proof.
  unfold parse_declaration. destruct (span is_word rest) as [word after].
  destruct (trim_start after) as [|c remainder]; [done|].
  destruct c as [[] [] [] [] [] [] [] []]; try done.
  destruct (split_once _ remainder) as [[bounds after']|]; [|done].
  destruct (split_once _ bounds) as [[l h]|]; [|done].
  do 2 (apply returns_bind; [auto with returns_db | intros ? _]).
  unfold interval_new. destruct (_ <? _)%Z; cbn; [done|]. by destruct (contains _ _).
Qed.

Lemma parse_declaration_shrinks role lineno c tail d after :
  parse_declaration role lineno (c :: tail) = Ok (d, after) -> (length after <= length tail)%nat.
Proof.
  unfold parse_declaration. pose proof (span_length is_word (c :: tail)) as Hw.
  destruct (span is_word (c :: tail)) as [word rest]. cbn in Hw.
  pose proof (span_length is_whitespace rest) as Ht. unfold trim_start.
  destruct (snd (span is_whitespace rest)) as [|c' remainder]; [done|]. cbn in Ht.
  destruct c' as [[] [] [] [] [] [] [] []]; try done.
  destruct (split_once _ remainder) as [[bounds after']|] eqn:Hs; [|done].
  apply split_once_length in Hs. destruct (split_once _ bounds) as [[l h]|]; [|done].
  intros H. unfold at_line in H. ok_inv. subst. lia.
Qed.

Lemma declarations_loop_returns fuel role lineno : forall rest,
  (length rest <= fuel)%nat -> returns (declarations_loop fuel role lineno rest).
Proof.
  induction fuel as [|fuel IH]; intros [|c tail] Hl; cbn [declarations_loop]; try done; cbn in Hl; [lia|].
  destruct (negb (is_word_start c)); [apply IH; lia|].
  apply returns_bind; [apply parse_declaration_returns|]. intros [d after] Hd.
  apply parse_declaration_shrinks in Hd.
  apply returns_bind; [apply IH; lia|]. done.
Qed.

Lemma parse_line_returns state numbered : returns (parse_line state numbered).
Proof.
  unfold parse_line. destruct state as [declarations outputs], numbered as [lineno raw].
  destruct (bool_decide _); [done|]. destruct (default _ _) as [head rest].
  destruct (role_parse _).
  - apply returns_bind; [|done]. unfold parse_declarations.
    apply returns_bind; [by apply declarations_loop_returns|]. intros out _. by destruct (bool_decide _).
  - destruct (split_once _ _) as [[target expression]|]; [|done].
    destruct (_ || _); [done|]. destruct (bool_decide _); [done|].
    apply returns_bind; [apply parse_expression_returns | done].
Qed.

Lemma parse_returns source name : returns (parse source name).
Proof.
  unfold parse. apply returns_bind; [apply returns_fold, parse_line_returns|].
  intros [declarations outputs] _. returns_tac.
Qed.

Section Build.
Context {B : Build}.

Lemma visit_call_returns label name parts : returns (visit_call label name parts).
Proof. unfold visit_call. returns_tac. Qed.

Lemma visit_returns declarations label e : returns (visit declarations label e).
Proof.
  revert e. fix visit_returns 1. intros [v|n|e|e1 e2|e1 e2|e1 e2|e1 op e2|parts|name args];
    cbn [visit].
  - done.
  - unfold visit_name. returns_tac.
  - apply returns_bind; [apply visit_returns|]. intros [[i d] notes] _. returns_tac.
  - do 2 (apply returns_bind; [apply visit_returns | intros [[? ?] ?] _]). unfold additive. returns_tac.
  - do 2 (apply returns_bind; [apply visit_returns | intros [[? ?] ?] _]). unfold additive. returns_tac.
  - do 2 (apply returns_bind; [apply visit_returns | intros [[? ?] ?] _]).
    unfold visit_product. returns_tac.
  - do 2 (apply returns_bind; [apply visit_returns | intros [[? ?] ?] _]).
    unfold visit_comparison. returns_tac.
  - apply returns_bind; [|intros; unfold visit_conjunction; returns_tac].
    apply returns_map_res. induction parts as [|p parts IH]; constructor; [|exact IH].
    apply returns_bind; [apply visit_returns|]. intros r _. unfold condition_part. returns_tac.
  - destruct (negb _); [done|]. apply returns_bind; [|intros; apply visit_call_returns].
    apply returns_map_res. induction args as [|a args IH]; constructor; [apply visit_returns | exact IH].
Qed.

(** C39: compiling a rule always answers: for every source text, parsing and
    checking return a rule or an error (or stop on an arithmetic panic); the
    fuel the model gives the tokenizer, the declaration loop and the
    recursive-descent parser is never exhausted. *)
Theorem compile_returns source name : compile_rule source name <> Err OutOfFuel.
Proof.
  unfold compile_rule. apply returns_bind; [apply parse_returns|]. intros rule _.
  unfold check. apply returns_bind.
  - apply returns_fold. intros [[intervals degrees] obligations] [label tree]. cbn.
    apply returns_bind; [apply visit_returns|]. intros [[i d] notes] _. done.
  - intros [[intervals degrees] obligations] _. apply returns_bind; [|intros; by destruct (negb _)].
    apply returns_map_res, Forall_forall. intros d _. unfold declared_obligation.
    apply returns_bind; [apply returns_i128 | done].
Qed.
End Build.

(** ** Induction over expressions *)

Section ExprInd.
Context (P : Expr -> Prop).
Context (HConst : forall v, P (Const v)) (HName : forall n, P (Name n)).
Context (HNeg : forall e, P e -> P (Neg e)).
Context (HAdd : forall a b, P a -> P b -> P (Add a b)).
Context (HSub : forall a b, P a -> P b -> P (Sub a b)).
Context (HMul : forall a b, P a -> P b -> P (Mul a b)).
Context (HCompare : forall a op b, P a -> P b -> P (Compare a op b)).
Context (HAnd : forall parts, Forall P parts -> P (And parts)).
Context (HCall : forall name args, Forall P args -> P (Call name args)).

Fixpoint Expr_nested_ind (e : Expr) : P e :=
  let all := fix all (l : list Expr) : Forall P l :=
    match l with [] => Forall_nil_2 P | e :: l => Forall_cons_2 P e l (Expr_nested_ind e) (all l) end in
  match e with
  | Const v => HConst v
  | Name n => HName n
  | Neg e => HNeg e (Expr_nested_ind e)
  | Add a b => HAdd a b (Expr_nested_ind a) (Expr_nested_ind b)
  | Sub a b => HSub a b (Expr_nested_ind a) (Expr_nested_ind b)
  | Mul a b => HMul a b (Expr_nested_ind a) (Expr_nested_ind b)
  | Compare a op b => HCompare a op b (Expr_nested_ind a) (Expr_nested_ind b)
  | And parts => HAnd parts (all parts)
  | Call name args => HCall name args (all args)
  end.
End ExprInd.

(** ** Admissible rules and inputs *)

(** Constants fit their type. *)
Fixpoint typed (e : Expr) : bool :=
  match e with
  | Const v => in_i128 v
  | Name _ => true
  | Neg e => typed e
  | Add a b | Sub a b | Mul a b | Compare a _ b => typed a && typed b
  | And parts => forallb typed parts
  | Call _ args => forallb typed args
  end.

Section Soundness.
Context (declarations : gmap string Declaration) (label : string).

(** The magnitude of every [signed] has an interval that contains its negative:
    its lower bound is at least the negated upper bound. *)
Fixpoint balanced (e : Expr) : bool :=
  match e with
  | Const _ | Name _ => true
  | Neg e => balanced e
  | Add a b | Sub a b | Mul a b | Compare a _ b => balanced a && balanced b
  | And parts => forallb balanced parts
  | Call name args =>
      forallb balanced args
      && match args with
         | [_; magnitude] =>
             match visit (B := Debug) declarations label magnitude with
             | Ok (i, _, _) => negb (bool_decide (name = "signed")) || (- hi i <=? lo i)%Z
             | Err _ => true
             end
         | _ => true
         end
  end.

(** Declared bounds fit their type, and every declared name has a value in
    its declared range. *)
Definition declarations_ok : Prop := map_Forall (fun _ d => in_range (d_interval d)) declarations.
Definition admissible (b : gmap string Z) : Prop :=
  map_Forall (fun n d => exists v, b !! n = Some v /\ inside v (d_interval d)) declarations.

Context (Hdecl : declarations_ok) (b : gmap string Z) (Hb : admissible b).

(** What the analysis of an expression promises about its evaluation. *)
Definition sound (e : Expr) : Prop :=
  forall i d notes, typed e = true -> balanced e = true ->
    visit (B := Debug) declarations label e = Ok (i, d, notes) ->
    in_range i /\ exists v, eval (B := Debug) e b = Ok v /\ inside v i.

Lemma i128_ok z i : inside z i -> in_range i -> i128 (B := Debug) z = Ok z.
Proof using Type. intros Hz Hi. apply i128_debug. split; [done|]. by eapply in_range_i128. Qed.

Lemma interval_new_ok l h i : interval_new l h = Ok i <-> i = mkInterval l h /\ (l <= h)%Z.
Proof using Type.
  unfold interval_new. destruct (Z.ltb_spec h l).
  - split; [done | intros [_ ?]; lia].
  - split; [by intros [= <-] | by intros [-> _]].
Qed.

Lemma unit_in_range : in_range (mkInterval 0 1).
Proof using Type. split; vm_compute; discriminate. Qed.

Lemma visit_name_sound n : sound (Name n).
Proof using Hdecl Hb.
  intros i d notes _ _. cbn. unfold visit_name. destruct (contains FORBIDDEN n); [done|].
  destruct (declarations !! n) as [decl|] eqn:Hn; [|done]. intros [= <- <- <-].
  split; [by apply (Hdecl n)|]. destruct (Hb n decl Hn) as (v & Hv & Hin).
  exists v. by rewrite Hv.
Qed.

(** An operation on intervals that bounds an operation on values. *)
Lemma binary_sound (f : Z -> Z -> Z) (op : Interval -> Interval -> result rule_failure Interval)
    e1 e2 i1 d1 n1 i2 d2 n2 i :
  (forall i1 i2 i x y, op i1 i2 = Ok i -> inside x i1 -> inside y i2 ->
     inside (f x y) i /\ in_range i) ->
  sound e1 -> sound e2 -> typed e1 && typed e2 = true -> balanced e1 && balanced e2 = true ->
  visit (B := Debug) declarations label e1 = Ok (i1, d1, n1) ->
  visit (B := Debug) declarations label e2 = Ok (i2, d2, n2) ->
  op i1 i2 = Ok i ->
  in_range i /\ exists v, (l ← eval (B := Debug) e1 b; r ← eval (B := Debug) e2 b;
     i128 (B := Debug) (f l r)) = Ok v /\ inside v i.
Proof using Type.
  intros Hop H1 H2 Ht Hbal Hv1 Hv2 Hi. bool_inv.
  destruct (H1 _ _ _ ltac:(done) ltac:(done) Hv1) as (_ & x & Hx & Hin1).
  destruct (H2 _ _ _ ltac:(done) ltac:(done) Hv2) as (_ & y & Hy & Hin2).
  destruct (Hop _ _ _ _ _ Hi Hin1 Hin2) as [Hz Hr]. split; [done|]. exists (f x y).
  rewrite Hx, Hy. cbn. split; [by eapply i128_ok | done].
Qed.

Lemma compare_values_bit op l r : compare_values op l r = 0%Z \/ compare_values op l r = 1%Z.
Proof using Type. unfold compare_values, Z.b2z. destruct op; case_match; auto. Qed.

Lemma map_res_sound args : Forall sound args ->
  forallb typed args = true -> forallb balanced args = true -> forall rs,
  map_res (visit (B := Debug) declarations label) args = Ok rs ->
  exists vs, map_res (fun a => eval (B := Debug) a b) args = Ok vs
    /\ Forall2 (fun v (r : analysis) => inside v r.1.1 /\ in_range r.1.1) vs rs.
Proof using Type.
  induction 1 as [|a args Ha Hargs IH]; cbn; intros Ht Hbal rs Hrs.
  - injection Hrs as <-. exists []. by split.
  - apply andb_true_iff in Ht as [Hta Ht], Hbal as [Hba Hbal].
    apply bind_ok in Hrs as ([[i d] notes] & Hi & Hrs).
    apply bind_ok in Hrs as (rs' & Hrs & [= <-]).
    destruct (Ha i d notes Hta Hba Hi) as (Hr & v & -> & Hv).
    destruct (IH Ht Hbal rs' Hrs) as (vs & -> & Hvs). exists (v :: vs). cbn. split; [done|].
    by constructor.
Qed.

Lemma condition_parts parts rs :
  map_res (fun part => r ← visit (B := Debug) declarations label part; condition_part r) parts = Ok rs ->
  map_res (visit (B := Debug) declarations label) parts = Ok rs
  /\ Forall (fun r : analysis => lo r.1.1 = 0%Z /\ hi r.1.1 = 1%Z) rs.
Proof using Type.
  revert rs. induction parts as [|p parts IH]; cbn; intros rs H.
  - injection H as <-. done.
  - apply bind_ok in H as (r & Hr & H). apply bind_ok in H as (rs' & Hrs & [= <-]).
    apply bind_ok in Hr as (r' & Hv & Hc). unfold condition_part in Hc. ok_inv. bool_inv. subst r'.
    apply IH in Hrs as [-> Hall]. rewrite Hv. cbn. split; [done|]. constructor; [|done].
    unfold is_condition in *. bool_inv. by rewrite <- !Z.eqb_eq.
Qed.

Lemma land_bits vs : forall acc,
  (acc = 0 \/ acc = 1)%Z -> Forall (fun v => v = 0 \/ v = 1)%Z vs ->
  (foldl Z.land acc vs = 0 \/ foldl Z.land acc vs = 1)%Z.
Proof using Type.
  induction vs as [|v vs IH]; intros acc Hacc Hvs; [done|]. cbn.
  apply Forall_cons in Hvs as [Hv Hvs]. apply IH; [|done].
  destruct Hacc as [-> | ->], Hv as [-> | ->]; cbn; auto.
Qed.

Lemma and_sound parts : Forall (sound) parts -> sound (And parts).
Proof using Type.
  intros Hparts i d notes Ht Hbal Hv. cbn [visit] in Hv. apply bind_ok in Hv as (rs & Hrs & Hc).
  apply condition_parts in Hrs as [Hrs Hcond].
  destruct (map_res_sound parts Hparts Ht Hbal rs Hrs) as (vs & Hvs & Hin).
  unfold visit_conjunction in Hc. cbn in Hc. injection Hc as <- <- <-.
  split; [apply unit_in_range|]. exists (foldl Z.land 1%Z vs). cbn [eval]. rewrite Hvs.
  split; [done|].
  assert (Forall (fun v => v = 0 \/ v = 1)%Z vs) as Hbits.
  { clear -Hin Hcond. induction Hin as [|v r vs rs [Hv _] Hin IH]; [done|].
    apply Forall_cons in Hcond as [[Hl Hh] Hcond]. constructor; [|by apply IH].
    unfold inside in Hv. lia. }
  destruct (land_bits vs 1%Z (or_intror eq_refl) Hbits) as [-> | ->]; unfold inside; cbn; lia.
Qed.

Lemma call_values name rs i d notes vs :
  visit_call (B := Debug) label name rs = Ok (i, d, notes) ->
  Forall2 (fun v (r : analysis) => inside v r.1.1 /\ in_range r.1.1) vs rs ->
  (forall side m, rs = [side; m] -> name = "signed" -> (- hi m.1.1 <= lo m.1.1)%Z) ->
  in_range i /\ exists v, eval_call (B := Debug) name vs = Ok v /\ inside v i.
Proof using Type.
  intros Hc Hin Hbal. unfold visit_call in Hc.
  destruct (bool_decide (name = "min") || bool_decide (name = "max")) eqn:Hmm.
  { destruct rs as [|[[a da] na] [|[[c dc] nc] [|]]]; try done.
    inversion Hin as [|v1 ? ? ? [H1 R1] Hin']; subst. inversion Hin' as [|v2 ? ? ? [H2 R2] Hin'']; subst.
    inversion Hin''; subst. ok_inv. subst. cbn in H1, H2, R1, R2.
    unfold inside, in_range in *. cbn.
    destruct (bool_decide_reflect (name = "min")) as [->|Hmin]; cbn.
    - split; [lia|]. eexists. split; [done|]. lia.
    - apply orb_true_iff in Hmm as [Hm|Hm]; [done|].
      rewrite Hm. cbn. split; [lia|]. eexists. split; [done|]. lia. }
  apply orb_false_iff in Hmm as [Hmin Hmax].
  destruct (bool_decide_reflect (name = "clamp")) as [->|Hclamp].
  { destruct rs as [|[[a da] na] [|[[l dl] nl] [|[[h dh] nh] [|]]]]; try done.
    inversion Hin as [|v1 ? ? ? [H1 R1] Hin']; subst. inversion Hin' as [|v2 ? ? ? [H2 R2] Hin'']; subst.
    inversion Hin'' as [|v3 ? ? ? [H3 R3] Hin3]; subst. inversion Hin3; subst.
    ok_inv. bool_inv. rename select (interval_new _ _ = _) into Hi.
    apply interval_new_ok in Hi as [-> Hle]. subst.
    repeat match goal with H : (_ =? _)%Z = true |- _ => apply Z.eqb_eq in H end.
    cbn in H1, H2, H3, R1, R2, R3. unfold inside, in_range in *. cbn.
    split; [lia|]. unfold clamp_i128. destruct (Z.ltb_spec v3 v2); [lia|].
    destruct (Z.ltb_spec v1 v2); [eexists; split; [done|]; lia|].
    destruct (Z.ltb_spec v3 v1); eexists; (split; [done|]); lia. }
  destruct (bool_decide_reflect (name = "signed")) as [->|Hsigned]; [|done].
  destruct rs as [|[[a da] na] [|[[m dm] nm] [|]]]; try done.
  inversion Hin as [|v1 ? ? ? [H1 R1] Hin']; subst. inversion Hin' as [|v2 ? ? ? [H2 R2] Hin'']; subst.
  inversion Hin''; subst. specialize (Hbal _ _ eq_refl eq_refl). ok_inv. bool_inv.
  rename select (i128 _ = _) into Hneg. apply i128_debug in Hneg as [-> Hneg].
  rename select (interval_new _ _ = _) into Hi.
  apply interval_new_ok in Hi as [-> Hle]. subst.
  cbn in H1, H2, R1, R2, Hbal. unfold inside, in_range in *. cbn in *. split; [lia|].
  destruct (v1 =? 1)%Z; [eexists; split; [done|]; lia|].
  exists (- v2)%Z. split; [|lia]. apply i128_debug. split; [done|]. lia.
Qed.

Lemma call_sound name args : Forall sound args -> sound (Call name args).
Proof using Type.
  intros Hargs i d notes Ht Hbal Hv. cbn [visit] in Hv. ok_inv.
  rename select (map_res _ _ = _) into Hrs. cbn [typed] in Ht. cbn [balanced] in Hbal.
  apply andb_true_iff in Hbal as [Hbal Hsigned].
  destruct (map_res_sound args Hargs Ht Hbal _ Hrs) as (vs & Hvs & Hin).
  cbn [eval]. rewrite Hvs. cbn [mbind result_bind]. eapply call_values; [exact Hv|exact Hin|].
  intros side m -> ->. apply map_res_ok in Hrs.
  destruct args as [|a1 [|a2 [|]]]; try by apply Forall2_length in Hrs.
  inversion Hrs as [|? ? ? ? _ Hrs']; subst. inversion Hrs' as [|? ? ? ? Hm _]; subst.
  destruct m as [[im dm] nm]. rewrite Hm in Hsigned. cbn in *.
  rewrite bool_decide_eq_true_2 in Hsigned by done. by apply Z.leb_le.
Qed.

Lemma visit_sound e : sound e.
Proof using Hdecl Hb.
  induction e as [v|n|e IH|e1 e2 IH1 IH2|e1 e2 IH1 IH2|e1 e2 IH1 IH2|e1 op e2 IH1 IH2
    |parts IH|name args IH] using Expr_nested_ind.
  - intros i d notes Ht _. cbn in *. intros [= <- <- <-]. apply in_i128_spec in Ht.
    split; [unfold in_range; cbn; lia|]. exists v. split; [done|]. unfold inside. cbn. lia.
  - apply visit_name_sound.
  - intros i d notes Ht Hbal Hv. cbn [visit] in Hv. apply bind_ok in Hv as ([[i1 d1] n1] & H1 & Hv).
    ok_inv. subst. rename select (negated _ = _) into Hn.
    destruct (IH _ _ _ Ht Hbal H1) as (_ & x & Hx & Hin).
    destruct (negated_inside _ _ _ Hn Hin) as [Hneg Hr]. split; [done|]. exists (- x)%Z.
    cbn [eval]. rewrite Hx. cbn. split; [by eapply i128_ok | done].
  - intros i d notes Ht Hbal Hv. cbn [visit] in Hv. ok_inv.
    destruct x as [[i1 d1] n1], x0 as [[i2 d2] n2]. cbn in Hv. ok_inv. subst.
    by eapply (binary_sound Z.add plus); [apply plus_inside|..].
  - intros i d notes Ht Hbal Hv. cbn [visit] in Hv. ok_inv.
    destruct x as [[i1 d1] n1], x0 as [[i2 d2] n2]. cbn in Hv. ok_inv. subst.
    by eapply (binary_sound Z.sub minus); [apply minus_inside|..].
  - intros i d notes Ht Hbal Hv. cbn [visit] in Hv. ok_inv.
    destruct x as [[i1 d1] n1], x0 as [[i2 d2] n2]. unfold visit_product in Hv. ok_inv. subst.
    by eapply (binary_sound Z.mul times); [apply times_inside|..].
  - intros i d notes Ht Hbal Hv. cbn [typed balanced visit] in Ht, Hbal, Hv. bool_inv. ok_inv.
    destruct x as [[i1 d1] n1], x0 as [[i2 d2] n2]. unfold visit_comparison in Hv. ok_inv. subst.
    rename select (interval_new _ _ = _) into Hi. apply interval_new_ok in Hi as [-> _].
    destruct (IH1 _ _ _ ltac:(done) ltac:(done) ltac:(done)) as (_ & x' & Hx & Hin1).
    destruct (IH2 _ _ _ ltac:(done) ltac:(done) ltac:(done)) as (_ & y & Hy & Hin2).
    split; [apply unit_in_range|]. cbn [eval]. rewrite Hx, Hy. cbn. eexists. split; [done|].
    unfold inside. cbn. destruct (compare_values_bit op x' y) as [-> | ->]; lia.
  - by apply and_sound.
  - by apply call_sound.
Qed.
End Soundness.

(** ** Checked rules *)

Section Checked.
Context (rule : Rule).

Definition rule_typed : Prop :=
  declarations_ok (r_declarations rule) /\ Forall (fun o => typed o.2 = true) (r_outputs rule).
Definition rule_balanced : Prop :=
  Forall (fun o => balanced (r_declarations rule) o.1 o.2 = true) (r_outputs rule).

(** The evaluation follows the loop of [check], output by output. *)
Lemma evaluate_follows b outputs : forall (acc acc' : findings) outs,
  admissible (r_declarations rule) b -> declarations_ok (r_declarations rule) ->
  Forall (fun o => typed o.2 = true) outputs ->
  Forall (fun o => balanced (r_declarations rule) o.1 o.2 = true) outputs ->
  fold_res (check_step (B := Debug) (r_declarations rule)) acc outputs = Ok acc' ->
  (forall name v, outs !! name = Some v ->
     exists i, acc.1.1 !! name = Some i /\ inside v i) ->
  exists outs', fold_res (collect_step (fun tree => eval (B := Debug) tree b)) outs outputs = Ok outs'
  /\ (forall name v, outs' !! name = Some v ->
       exists i, acc'.1.1 !! name = Some i /\ inside v i)
  /\ (forall name, name ∈ outputs.*1 \/ is_Some (outs !! name) -> is_Some (outs' !! name)).
Proof using Type.
  induction outputs as [|[label tree] outputs IH];
    intros acc acc' outs Hb Hd Ht Hbal Hfold Hin; cbn in *.
  - injection Hfold as <-. exists outs. split; [done|]. split; [done|].
    intros name [Hn|Hn]; [by apply not_elem_of_nil in Hn | done].
  - apply Forall_cons in Ht as [Ht1 Ht]. apply Forall_cons in Hbal as [Hb1 Hbal]. cbn in Ht1, Hb1.
    apply bind_ok in Hfold as (acc1 & Hstep & Hfold).
    destruct acc as [[intervals degrees] obligations]. cbn in Hstep.
    apply bind_ok in Hstep as ([[i d] notes] & Hv & [= <-]).
    destruct (visit_sound _ _ Hd b Hb tree i d notes Ht1 Hb1 Hv) as (_ & v & Hev & Hvi).
    unfold collect_step at 1. cbn. rewrite Hev. cbn.
    destruct (IH _ _ (<[label := v]> outs) Hb Hd Ht Hbal Hfold) as (outs' & Hf & Hall & Hcov).
    { intros name w. cbn. destruct (decide (label = name)) as [<-|Hne].
      - rewrite !lookup_insert_eq. intros [= <-]. eauto.
      - rewrite !lookup_insert_ne by done. apply Hin. }
    exists outs'. split; [done|]. split; [done|]. intros name Hn. apply Hcov.
    destruct (decide (label = name)) as [<-|Hne].
    + right. rewrite lookup_insert_eq. eauto.
    + rewrite lookup_insert_ne by done. destruct Hn as [Hn|Hn]; [|by right].
      apply elem_of_cons in Hn as [->|Hn]; [done | by left].
Qed.

(** Every output has its interval after the loop. *)
Lemma check_outputs_cover declarations outputs : forall acc acc' : findings,
  fold_res (check_step (B := Debug) declarations) acc outputs = Ok acc' ->
  (forall name, is_Some (acc.1.1 !! name) -> is_Some (acc'.1.1 !! name))
  /\ Forall (fun o => is_Some (acc'.1.1 !! o.1)) outputs.
Proof using Type.
  induction outputs as [|[label tree] outputs IH]; intros acc acc' H; cbn in H.
  - injection H as <-. by split.
  - apply bind_ok in H as (acc1 & Hstep & H). apply IH in H as [Hkeep Hall].
    destruct acc as [[intervals degrees] obligations]. cbn in Hstep.
    apply bind_ok in Hstep as ([[i d] notes] & Hv & [= <-]). cbn in *.
    assert (forall name, name = label \/ is_Some (intervals !! name) ->
      is_Some (acc'.1.1 !! name)) as Hk.
    { intros name Hn. apply Hkeep. destruct (decide (label = name)) as [<-|Hne].
      - rewrite lookup_insert_eq. eauto.
      - rewrite lookup_insert_ne by done. destruct Hn; [congruence | done]. }
    split; [auto|]. constructor; [|done]. cbn. auto.
Qed.

Lemma union_inside_l v i c : inside v i -> inside v (union i c).
Proof using Type. unfold inside, union. cbn. lia. Qed.
Lemma union_inside_r v i c : inside v i -> inside v (union c i).
Proof using Type. unfold inside, union. cbn. lia. Qed.

(** The width of a checked rule holds every output's interval. *)
Lemma output_interval_covers (intervals : gmap string Interval) outputs : forall combined,
  Forall (fun o : string * Expr => is_Some (intervals !! o.1)) outputs ->
  exists c, fold_res (fun (combined : option Interval) (output : string * Expr) =>
      interval ← ok_or (intervals !! output.1) ArithPanic;
      Ok (Some (match combined with None => interval | Some c => union c interval end)))
    combined outputs = Ok c
  /\ (outputs <> [] \/ combined <> None -> c <> None)
  /\ forall v i u, c = Some u -> inside v i ->
      combined = Some i \/ (exists name, name ∈ outputs.*1 /\ intervals !! name = Some i) ->
      inside v u.
Proof using Type.
  induction outputs as [|[name tree] outputs IH]; intros combined Hall; cbn.
  - exists combined. split; [done|]. split; [naive_solver|]. intros v i u -> Hv [[= ->]|(n & Hn & _)]; [done|].
    by apply not_elem_of_nil in Hn.
  - apply Forall_cons in Hall as [[j Hj] Hall]. cbn in Hj. rewrite Hj. cbn.
    set (next := match combined with None => j | Some c => union c j end).
    destruct (IH (Some next) Hall) as (c & -> & Hne & Hcov). exists c. split; [done|].
    split; [intros _; apply Hne; by right|].
    assert (forall v, inside v j -> inside v next) as Hj'.
    { intros v Hv. unfold next. destruct combined as [c'|]; [by apply union_inside_r | done]. }
    intros v i u Hu Hv Hi. destruct Hi as [Hc | (n & Hn & Hi)].
    + apply (Hcov v next u Hu); [|by left]. unfold next. rewrite Hc. by apply union_inside_l.
    + apply elem_of_cons in Hn as [->|Hn].
      * cbn in Hi. rewrite Hj in Hi. injection Hi as <-. apply (Hcov v next u Hu); [auto | by left].
      * apply (Hcov v i u Hu Hv). right. eauto.
Qed.
End Checked.

Lemma check_ok {B : Build} rule rule' :
  check rule = Ok rule' ->
  r_declarations rule' = r_declarations rule /\ r_outputs rule' = r_outputs rule
  /\ unused rule = []
  /\ exists acc : findings, check_outputs (r_declarations rule) (r_outputs rule) = Ok acc
       /\ r_intervals rule' = acc.1.1 /\ r_degrees rule' = acc.1.2.
Proof.
  unfold check. intros H. apply bind_ok in H as ([[intervals degrees] obligations] & Ho & H).
  ok_inv. bool_inv. subst rule'. cbn. split; [done|]. split; [done|]. split; [done|]. by eexists.
Qed.

(** C38: the checker is sound: in a build with overflow checks, a rule that
    passes [check] and passes only balanced magnitudes to [signed] evaluates,
    for all bindings within the declared ranges, without error or overflow; each
    output of the evaluation lies in the interval the checker derived for it,
    and fits the circuit width [required_bits] as a signed number. *)
Theorem checked_rule_evaluates rule rule' b :
  check (B := Debug) rule = Ok rule' -> r_outputs rule <> [] ->
  rule_typed rule -> rule_balanced rule -> admissible (r_declarations rule) b ->
  exists outs bits,
    evaluate (B := Debug) rule' b = Ok outs /\ required_bits rule' = Ok bits
    /\ (forall name, name ∈ (r_outputs rule).*1 -> is_Some (outs !! name))
    /\ (forall name v, outs !! name = Some v ->
         exists i, r_intervals rule' !! name = Some i /\ inside v i)
    /\ (forall name v, name ∈ (r_outputs rule).*1 -> outs !! name = Some v ->
         - 2 ^ (Z.of_N bits - 1) <= v < 2 ^ (Z.of_N bits - 1))%Z.
Proof.
  intros Hc Hne [Hd Ht] Hbal Hb.
  apply check_ok in Hc as (_ & Ho & _ & acc & Hacc & Hi & _). unfold check_outputs in Hacc.
  destruct (evaluate_follows rule b (r_outputs rule) (∅, ∅, []) acc ∅ Hb Hd Ht Hbal Hacc)
    as (outs & Hev & Hin & Hcov).
  { intros name v Hv. by rewrite lookup_empty in Hv. }
  destruct (check_outputs_cover _ _ _ _ Hacc) as [_ Hall].
  destruct (output_interval_covers acc.1.1 (r_outputs rule) None Hall) as (c & Hfold & Hsome & Hwide).
  destruct c as [u|]; [|by destruct Hsome; [left|]].
  exists outs, (width_bits u).
  split; [unfold evaluate; by rewrite Ho|].
  split; [unfold required_bits, output_interval; by rewrite Ho, Hi, Hfold|].
  split; [auto|]. split; [by rewrite Hi|].
  intros name v Hn Hv. apply width_bits_bound. destruct (Hin name v Hv) as (i & Hni & Hvi).
  apply (Hwide v i u eq_refl Hvi). right. eauto.
Qed.

(** ** What a rule reads *)

Section Reads.
Context {B : Build} (declarations : gmap string Declaration) (label : string).

(** A name the analysis accepts. *)
Definition readable (n : string) : Prop := (n ∉ FORBIDDEN) /\ is_Some (declarations !! n).

Lemma flat_map_Forall {A C} (f : A -> list C) (P : C -> Prop) l :
  Forall (fun a => Forall P (f a)) l -> Forall P (List.flat_map f l).
Proof using Type. induction 1; cbn; [constructor | by apply Forall_app]. Qed.

Lemma map_res_readable args :
  Forall (fun e => is_ok (visit declarations label e) = true -> Forall readable (names e)) args ->
  is_ok (map_res (visit declarations label) args) = true ->
  Forall readable (List.flat_map names args).
Proof using Type.
  intros Hargs Hok. apply flat_map_Forall. induction Hargs as [|e args He Hargs IH]; constructor.
  - apply He. cbn in Hok. by destruct (visit declarations label e).
  - apply IH. cbn in Hok. destruct (visit declarations label e); [|done]. cbn in Hok.
    by destruct (map_res _ args).
Qed.

Lemma map_res_parts parts :
  is_ok (map_res (fun part => r ← visit declarations label part; condition_part r) parts) = true ->
  is_ok (map_res (visit declarations label) parts) = true.
Proof using Type.
  induction parts as [|p parts IH]; [done|]. cbn. destruct (visit declarations label p); [|done].
  cbn. destruct (condition_part a); [|done]. cbn. destruct (map_res _ parts); [|done]. intros _.
  specialize (IH eq_refl). by destruct (map_res (visit declarations label) parts).
Qed.

Lemma is_ok_bind {E A C} (m : result E A) (f : A -> result E C) :
  is_ok (m ≫= f) = true -> is_ok m = true.
Proof using Type. by destruct m. Qed.

Lemma visit_readable e : is_ok (visit declarations label e) = true -> Forall readable (names e).
Proof using Type.
  assert (forall e1 e2 (k : analysis -> analysis -> result rule_failure analysis),
    is_ok (ra ← visit declarations label e1; rb ← visit declarations label e2; k ra rb) = true ->
    is_ok (visit declarations label e1) = true /\ is_ok (visit declarations label e2) = true) as Htwo.
  { intros e1 e2 k. destruct (visit _ _ e1); [|done]. cbn. intros H. split; [done|].
    by apply is_ok_bind in H. }
  induction e as [v|n|e IH|e1 e2 IH1 IH2|e1 e2 IH1 IH2|e1 e2 IH1 IH2|e1 op e2 IH1 IH2
    |parts IH|name args IH] using Expr_nested_ind; cbn [visit names]; intros Hok.
  2: { unfold visit_name in Hok. unfold contains in Hok.
       case_bool_decide as Hf; [done|]. destruct (declarations !! n) eqn:Hn; [|done].
       constructor; [|done]. split; [done | by rewrite Hn]. }
  - done.
  - apply IH. by apply is_ok_bind in Hok.
  - apply Forall_app. apply Htwo in Hok as [? ?]. auto.
  - apply Forall_app. apply Htwo in Hok as [? ?]. auto.
  - apply Forall_app. apply Htwo in Hok as [? ?]. auto.
  - apply Forall_app. apply Htwo in Hok as [? ?]. auto.
  - apply map_res_readable; [done|]. by apply is_ok_bind, map_res_parts in Hok.
  - destruct (negb _); [done|]. apply map_res_readable; [done|]. by apply is_ok_bind in Hok.
Qed.

Lemma map_res_ext {E A C} (f g : A -> result E C) l :
  Forall (fun a => f a = g a) l -> map_res f l = map_res g l.
Proof using Type. induction 1 as [|a l Ha Hl IH]; [done|]. cbn. by rewrite Ha, IH. Qed.

(** The value of an expression depends only on the names it reads. *)
Lemma eval_agree e (b b' : gmap string Z) :
  Forall (fun n => b !! n = b' !! n) (names e) -> eval e b = eval e b'.
Proof using Type.
  assert (forall args, Forall (fun e => Forall (fun n => b !! n = b' !! n) (names e) ->
            eval e b = eval e b') args ->
          Forall (fun n => b !! n = b' !! n) (List.flat_map names args) ->
          map_res (fun a => eval a b) args = map_res (fun a => eval a b') args) as Hlist.
  { intros args Hargs Hn. apply map_res_ext.
    induction Hargs as [|a args Ha Hargs IH]; constructor; cbn in Hn; apply Forall_app in Hn; naive_solver. }
  induction e as [v|n|e IH|e1 e2 IH1 IH2|e1 e2 IH1 IH2|e1 e2 IH1 IH2|e1 op e2 IH1 IH2
    |parts IH|name args IH] using Expr_nested_ind; cbn [names eval]; intros Hn; try done.
  - apply Forall_cons in Hn as [-> _]. done.
  - by rewrite IH.
  - apply Forall_app in Hn as [? ?]. by rewrite IH1, IH2.
  - apply Forall_app in Hn as [? ?]. by rewrite IH1, IH2.
  - apply Forall_app in Hn as [? ?]. by rewrite IH1, IH2.
  - apply Forall_app in Hn as [? ?]. by rewrite IH1, IH2.
  - by rewrite Hlist.
  - by rewrite Hlist.
Qed.
End Reads.

Definition reads (rule : Rule) : list string :=
  List.flat_map (fun output => names output.2) (r_outputs rule).

Lemma check_outputs_readable {B : Build} declarations outputs : forall acc acc' : findings,
  fold_res (check_step declarations) acc outputs = Ok acc' ->
  Forall (readable declarations) (List.flat_map (fun output => names output.2) outputs).
Proof.
  induction outputs as [|[label tree] outputs IH]; intros acc acc' H; cbn in *; [constructor|].
  apply bind_ok in H as (acc1 & Hstep & H). apply Forall_app. split; [|by eapply IH].
  destruct acc as [[intervals degrees] obligations]. cbn in Hstep.
  apply bind_ok in Hstep as (r & Hv & _). apply (visit_readable _ label). by rewrite Hv.
Qed.

Lemma collect_ext {A} (f g : Expr -> result rule_failure A) outputs : forall m,
  Forall (fun o : string * Expr => f o.2 = g o.2) outputs ->
  fold_res (collect_step f) m outputs = fold_res (collect_step g) m outputs.
Proof.
  induction outputs as [|o outputs IH]; intros m Ho; [done|]. apply Forall_cons in Ho as [Ho Hos].
  cbn. assert (collect_step f m o = collect_step g m o) as -> by (unfold collect_step; by rewrite Ho).
  destruct (collect_step g m o); cbn; [by apply IH | done].
Qed.

(** A quote can not depend on who is asking: a rule that passes [check]
    reads exactly its declared names (nothing undeclared is read and nothing
    declared is unread), none of them an identity field, and its evaluation is
    the same under any two bindings that agree on the declared names. *)
Theorem reads_only_declared {B : Build} rule rule' :
  check rule = Ok rule' ->
  (forall n, n ∈ reads rule <-> is_Some (r_declarations rule !! n))
  /\ (forall n, n ∈ reads rule -> n ∉ FORBIDDEN)
  /\ (forall b b' : gmap string Z, (forall n, is_Some (r_declarations rule !! n) -> b !! n = b' !! n) ->
       evaluate rule' b = evaluate rule' b').
Proof.
  intros Hc. apply check_ok in Hc as (_ & Ho & Hunused & acc & Hacc & _).
  unfold check_outputs in Hacc. apply check_outputs_readable in Hacc.
  fold (reads rule) in Hacc. rewrite Forall_forall in Hacc.
  assert (forall n, is_Some (r_declarations rule !! n) -> n ∈ reads rule) as Hread.
  { intros n [d Hd]. destruct (decide (n ∈ reads rule)) as [|Hn]; [done|]. exfalso.
    assert (In n (unused rule)) as Hin.
    { unfold unused. apply filter_In. split.
      - apply list_elem_of_In, list_elem_of_fmap. exists (n, d). split; [done|]. by apply btree_iter_elem.
      - apply negb_true_iff. unfold contains. by apply bool_decide_eq_false. }
    by rewrite Hunused in Hin. }
  split; [|split].
  - intros n. split; [|apply Hread]. intros Hn. by apply Hacc in Hn as [_ ?].
  - intros n Hn. by apply Hacc in Hn as [? _].
  - intros b b' Hb. unfold evaluate, collect_outputs. rewrite Ho. apply collect_ext.
    apply Forall_forall. intros o Hin. apply eval_agree. apply Forall_forall. intros n Hn.
    apply Hb. apply Hacc. unfold reads. apply list_elem_of_In, in_flat_map.
    exists o. split; by apply list_elem_of_In.
Qed.
