(* ===== verification/DslRegistryProofs.v ===== *)
(** * What the registries admit

    Provenance of every accepted check: a rule or a program passes only
    against an entry that an approval put there, and an approval lets exactly
    the approved form through. *)

From S2P Require Import Prelude.
From S2P Require Import Interfaces.
From S2P Require Import Text.
From S2P Require Import DslParse.
From S2P Require Import DslRule.
From S2P Require Import DslEmit.
From S2P Require Import DslProofs.

(** ** Where the checker promises less

    Concrete rules on which the facts the checker derives do not bound the
    evaluation: an unbalanced magnitude of [signed], and interval arithmetic in
    a build without overflow checks; and a product of a secret bit and a secret
    value for which no product obligation is noted. *)

Definition newline : string := String "010"%char EmptyString.

(** A rule that passes a value of [-10, 1] to [signed]. *)
Definition signed_source : string :=
  "param size[-10,1]" +:+ newline +:+ "input side[0,1]" +:+ newline +:+ "x = signed(side, size)".
Definition signed_bindings : gmap string Z := list_to_map [("size", (-10)%Z); ("side", 1%Z)].

(** The checked rule of a source, in a given build. *)
Definition compiled {B : Build} (source : string) : Rule :=
  match compile_rule source "rule" with
  | Ok rule => rule
  | Err _ => mkRule "" ∅ [] "" ∅ ∅ []
  end.

Lemma compiled_ok {B : Build} source :
  is_ok (compile_rule source "rule") = true -> compile_rule source "rule" = Ok (compiled source).
Proof. unfold compiled. by destruct (compile_rule source "rule"). Qed.

(** A boolean test for admissible bindings. *)
Definition admissible_test (declarations : gmap string Declaration) (b : gmap string Z) : bool :=
  forallb (fun nd => match b !! nd.1 with
                     | Some v => (lo (d_interval nd.2) <=? v)%Z && (v <=? hi (d_interval nd.2))%Z
                     | None => false
                     end) (map_to_list declarations).

Lemma admissible_test_ok declarations b :
  admissible_test declarations b = true -> admissible declarations b.
Proof.
  unfold admissible_test, admissible. intros H. apply map_Forall_to_list, Forall_forall.
  intros [n d] Hn. apply list_elem_of_In, (proj1 (forallb_forall _ _) H) in Hn. cbn in *.
  destruct (b !! n) as [v|]; [|done]. exists v. split; [done|]. unfold inside.
  apply andb_true_iff in Hn as [?%Z.leb_le ?%Z.leb_le]. lia.
Qed.

(** The interval of [signed] is not a bound for negative magnitudes: in a
    build with overflow checks there are a source that compiles and bindings
    within its declared ranges for which the output [x] evaluates to [-10],
    while the checker derived the interval [-1, 1] and a circuit width of two
    bits, which does not hold it. *)
Theorem signed_interval_unsound :
  exists source b rule outs i,
    compile_rule (B := Debug) source "rule" = Ok rule
    /\ admissible (r_declarations rule) b
    /\ evaluate (B := Debug) rule b = Ok outs /\ outs !! "x" = Some (-10)%Z
    /\ r_intervals rule !! "x" = Some i /\ ~ inside (-10) i
    /\ required_bits rule = Ok 2%N /\ ~ (- 2 ^ (2 - 1) <= -10 < 2 ^ (2 - 1))%Z.
Proof.
  exists signed_source, signed_bindings, (compiled (B := Debug) signed_source).
  eexists _, (mkInterval (-1) 1). split; [apply compiled_ok; vm_compute; reflexivity|].
  split; [apply admissible_test_ok; vm_compute; reflexivity|].
  split; [vm_compute; reflexivity|]. split; [vm_compute; reflexivity|].
  split; [vm_compute; reflexivity|]. split; [unfold inside; cbn; lia|].
  split; [vm_compute; reflexivity | lia].
Qed.

(** Declared up to 2^126, multiplied by four. *)
Definition wrap_source : string :=
  "param a[0,85070591730234615865843651857942052864]" +:+ newline +:+ "x = a * 4".

(** Without overflow checks the checker accepts intervals that wrapped
    around: there are a source that compiles in a release build and bindings
    within its declared ranges whose output evaluates, without any overflow, to
    [4], while the derived interval is [0, 0]; a build with overflow checks
    panics on the same source instead. *)
Theorem release_interval_unsound :
  exists source b rule outs,
    compile_rule (B := Release) source "rule" = Ok rule
    /\ admissible (r_declarations rule) b
    /\ evaluate (B := Release) rule b = Ok outs /\ evaluate (B := Debug) rule b = Ok outs
    /\ outs !! "x" = Some 4%Z
    /\ r_intervals rule !! "x" = Some (mkInterval 0 0)
    /\ compile_rule (B := Debug) source "rule" = Err ArithPanic.
Proof.
  exists wrap_source, (list_to_map [("a", 1%Z)]), (compiled (B := Release) wrap_source).
  eexists. split; [apply compiled_ok; vm_compute; reflexivity|].
  split; [apply admissible_test_ok; vm_compute; reflexivity|].
  split; [vm_compute; reflexivity|]. split; [vm_compute; reflexivity|].
  split; [vm_compute; reflexivity|]. split; vm_compute; reflexivity.
Qed.

Definition bit_product_source : string :=
  "param a[0,10] b[0,10] c[0,10]" +:+ newline +:+ "x = (a < b) * c".

(** A secret bit times a secret value carries no product obligation: the
    rule [x = (a < b) * c] over three secret parameters compiles, and the only
    product among its obligations is the one of the comparison itself. *)
Theorem bit_product_unnoted {B : Build} :
  exists source rule,
    compile_rule source "rule" = Ok rule
    /\ r_outputs rule = [("x", Mul (Compare (Name "a") Lt (Name "b")) (Name "c"))]
    /\ secrets rule = ["a"; "b"; "c"]
    /\ o_detail <$> List.filter (fun o => bool_decide (o_kind o = "product")) (r_obligations rule)
       = ["a < b: the bit against the difference"].
Proof.
  exists bit_product_source, (compiled bit_product_source). destruct B;
    (split; [apply compiled_ok; vm_compute; reflexivity|]);
    repeat split; vm_compute; reflexivity.
Qed.

(** ** Registered rule and circuit digests

    Model of rust/qomm-dsl/src/registry.rs: the canonical bytes of a checked
    rule and its digest, the normalised digest of a program text, the digest
    marker a program carries, and the two registries. *)

Open Scope N_scope.

Definition RULE_DOMAIN : bytes := bstr "QOMM:RULE-DIGEST:v1".
Definition PROGRAM_DOMAIN : bytes := bstr "QOMM:PROGRAM-DIGEST:v1".
Definition POLICY_RULE_DIGEST_MARKER : string := "# QOMM_POLICY_RULE_DIGEST=".

Definition hex (b : bytes) : string := hex_model b.

Record ApprovedRule := mkApprovedRule {
  ap_name : string;
  ap_digest : string;
  ap_required_bits : N;
  ap_source : string
}.

Record ApprovedCircuit := mkApprovedCircuit {
  ac_name : string;
  ac_rule_digest : string;
  ac_program_digest : string;
  ac_shape : list N
}.

Record RuleRegistry := mkRuleRegistry { rr_approved : gmap string ApprovedRule }.
Record CircuitRegistry := mkCircuitRegistry { cr_approved : gmap (list N) ApprovedCircuit }.

(** The bytes of everything that must not change. *)
Definition canonical (rule : Rule) : result rule_failure bytes :=
  expressions ← to_mpc rule;
  bits ← required_bits rule;
  Ok (bstr (r_name rule) ++ [x00]
      ++ concat ((fun nd => bstr nd.1 ++ bstr "=" ++ bstr (role_as_str (d_role nd.2))
                    ++ bstr (":" +:+ pretty (lo (d_interval nd.2)) +:+ ":"
                             +:+ pretty (hi (d_interval nd.2))) ++ bstr ";")
                 <$> btree_iter (r_declarations rule))
      ++ [x00]
      ++ concat ((fun ne => bstr ne.1 ++ bstr "=" ++ bstr ne.2 ++ bstr ";")
                 <$> btree_iter expressions)
      ++ bstr ("bits=" +:+ pretty bits +:+ ";degree=" +:+ pretty (max_degree rule))).

Definition program_body (source : string) : string :=
  join (String "010"%char EmptyString)
    ((fun l => of_chars (trim_end l)) <$> lines (trim (to_chars source))).

(** The text after the marker, of each line that starts with it. *)
Definition marker_values (source : string) : list chars :=
  omap (fun line => strip_prefix (to_chars POLICY_RULE_DIGEST_MARKER) (trim line))
    (lines (to_chars source)).

Definition embedded_policy_rule_digest (source : string) : result string string :=
  match marker_values source with
  | [value] =>
      if negb (bool_decide (length value = 64%nat)) || negb (forallb is_lower_hex value)
      then Err "the MPC policy-rule digest marker is not canonical SHA-256"
      else Ok (of_chars value)
  | _ => Err "the MPC source must contain exactly one policy-rule digest marker"
  end.

Section Registry.
Context {SHA : Sha256} {B : Build}.

Definition rule_digest (rule : Rule) : result rule_failure string :=
  body ← canonical rule; Ok (hex (sha256 (RULE_DOMAIN ++ body))).

Definition program_digest (source : string) : string :=
  hex (sha256 (PROGRAM_DOMAIN ++ bstr (program_body source))).

(** ** Rules *)

Definition rule_approve (registry : RuleRegistry) (source name : string) :
    result rule_failure (ApprovedRule * RuleRegistry) :=
  rule ← compile_rule source name;
  digest ← rule_digest rule;
  bits ← required_bits rule;
  let entry := mkApprovedRule name digest bits source in
  Ok (entry, mkRuleRegistry (<[digest := entry]> (rr_approved registry))).

(** Panics in compiling or hashing are not turned into the error value. *)
Definition rule_check (registry : RuleRegistry) (source name claimed : string) :
    result rule_failure unit :=
  if negb (bool_decide (is_Some (rr_approved registry !! claimed)))
  then Err (RuleError "the claimed digest is not an approved rule form")
  else
    rule ←
      match compile_rule source name with
      | Err (RuleError _) => Err (RuleError "the rule does not compile")
      | r => r
      end;
    digest ← rule_digest rule;
    if negb (bool_decide (digest = claimed))
    then Err (RuleError "the rule does not hash to the digest it claims; the registered form was substituted")
    else Ok tt.

(** ** Circuits *)

Definition show_shape (shape : list N) : string := debug_list (pretty <$> shape).

Definition first16 (digest : string) : string := of_chars (take 16 (to_chars digest)).

Definition matches (entry : ApprovedCircuit) (program : string) (shape : list N) :
    result string unit :=
  if negb (bool_decide (shape = ac_shape entry))
  then Err ("circuit shape " +:+ show_shape shape +:+ " was never approved for " +:+ ac_name entry
            +:+ "; the approved shape is " +:+ show_shape (ac_shape entry))
  else
    let actual := program_digest program in
    if negb (bool_decide (actual = ac_program_digest entry))
    then Err ("the program for " +:+ ac_name entry +:+ " does not match what was approved: "
              +:+ first16 actual +:+ " against " +:+ first16 (ac_program_digest entry))
    else Ok tt.

Definition circuit_approve (registry : CircuitRegistry) (name rule_source program_source : string)
    (shape : list N) : result rule_failure (ApprovedCircuit * CircuitRegistry) :=
  rule ← compile_rule rule_source name;
  expected_rule_digest ← rule_digest rule;
  embedded ← map_err RuleError (embedded_policy_rule_digest program_source);
  if negb (bool_decide (embedded = expected_rule_digest))
  then Err (RuleError "the MPC source was generated from a different price-rule DSL")
  else
    let entry := mkApprovedCircuit (r_name rule) expected_rule_digest
                   (program_digest program_source) shape in
    Ok (entry, mkCircuitRegistry (<[shape := entry]> (cr_approved registry))).

Definition circuit_check (registry : CircuitRegistry) (program : string) (shape : list N) :
    result string unit :=
  match cr_approved registry !! shape with
  | None => Err ("no circuit is approved for shape " +:+ show_shape shape)
  | Some entry => matches entry program shape
  end.
End Registry.

Section Registries.
Context {SHA : Sha256} {B : Build}.

(** ** Rules *)

(** Registries built by approvals. *)
Inductive rule_registry : RuleRegistry -> Prop :=
  | rule_registry_empty : rule_registry (mkRuleRegistry ∅)
  | rule_registry_approve r source name entry r' :
      rule_registry r -> rule_approve r source name = Ok (entry, r') -> rule_registry r'.

(** A source whose checked rule has a given digest. *)
Definition compiles_to (source name digest : string) : Prop :=
  exists rule, compile_rule source name = Ok rule /\ rule_digest rule = Ok digest.

Lemma rule_approve_ok r source name entry r' :
  rule_approve r source name = Ok (entry, r') ->
  compiles_to source name (ap_digest entry) /\ ap_name entry = name /\ ap_source entry = source
  /\ rr_approved r' = <[ap_digest entry := entry]> (rr_approved r).
Proof using Type.
  unfold rule_approve. intros H. ok_inv. subst. cbn. split; [by eexists | done].
Qed.

Lemma rule_registry_provenance r digest entry :
  rule_registry r -> rr_approved r !! digest = Some entry ->
  compiles_to (ap_source entry) (ap_name entry) digest.
Proof using Type.
  induction 1 as [|r source name new r' Hr IH Ha]; [cbn; by rewrite lookup_empty|].
  apply rule_approve_ok in Ha as (Hc & <- & <- & ->).
  destruct (decide (ap_digest new = digest)) as [<-|Hne].
  - rewrite lookup_insert_eq. by intros [= <-].
  - rewrite lookup_insert_ne by done. done.
Qed.

Lemma rule_check_ok r source name claimed :
  rule_check r source name claimed = Ok tt <->
  is_Some (rr_approved r !! claimed) /\ compiles_to source name claimed.
Proof using Type.
  unfold rule_check, compiles_to. rewrite if_err_ok, negb_false_iff, bool_decide_eq_true.
  split; intros [Hs H]; (split; [done|]).
  - apply bind_ok in H as (rule & Hr & H). ok_inv. bool_inv. subst. exists rule. split; [|done].
    by destruct (compile_rule source name) as [?|[]].
  - destruct H as (rule & -> & Hd). cbn. rewrite Hd. cbn. by rewrite bool_decide_eq_true_2.
Qed.

(** A rule passes the registry exactly when it hashes to an approved form:
    for a registry built by approvals, [check] accepts a source under a claimed
    digest if and only if the source compiles to a rule with that digest and
    some approved entry, itself compiled to the same digest, is recorded under
    it; in particular an approved source passes under the digest it was given. *)
Theorem rule_registry_exact r source name claimed :
  rule_registry r ->
  (rule_check r source name claimed = Ok tt <->
   compiles_to source name claimed
   /\ exists entry, rr_approved r !! claimed = Some entry
        /\ compiles_to (ap_source entry) (ap_name entry) claimed)
  /\ (forall entry r', rule_approve r source name = Ok (entry, r') ->
        rule_check r' source name (ap_digest entry) = Ok tt).
Proof using Type.
  intros Hr. split.
  - rewrite rule_check_ok. split.
    + intros [[entry He] Hc]. split; [done|]. exists entry. split; [done|].
      by eapply rule_registry_provenance.
    + intros [Hc (entry & He & _)]. split; [by rewrite He | done].
  - intros entry r' Ha. apply rule_approve_ok in Ha as (Hc & _ & _ & He).
    apply rule_check_ok. split; [|done]. rewrite He, lookup_insert_eq. eauto.
Qed.

(** ** Circuits *)

Inductive circuit_registry : CircuitRegistry -> Prop :=
  | circuit_registry_empty : circuit_registry (mkCircuitRegistry ∅)
  | circuit_registry_approve r name rule_source program_source shape entry r' :
      circuit_registry r ->
      circuit_approve r name rule_source program_source shape = Ok (entry, r') ->
      circuit_registry r'.

Lemma circuit_approve_ok r name rule_source program_source shape entry r' :
  circuit_approve r name rule_source program_source shape = Ok (entry, r') ->
  compiles_to rule_source name (ac_rule_digest entry)
  /\ embedded_policy_rule_digest program_source = Ok (ac_rule_digest entry)
  /\ ac_program_digest entry = program_digest program_source /\ ac_shape entry = shape
  /\ cr_approved r' = <[shape := entry]> (cr_approved r).
Proof using Type.
  unfold circuit_approve. intros H. ok_inv. bool_inv. subst. cbn.
  split; [by eexists|]. split; [|done].
  rename select (map_err _ _ = _) into He.
  destruct (embedded_policy_rule_digest program_source); cbn in He; [|done]. by injection He as ->.
Qed.

(** Every recorded circuit carries the digest of the rule it was approved with. *)
Lemma circuit_provenance r shape entry :
  circuit_registry r -> cr_approved r !! shape = Some entry ->
  ac_shape entry = shape /\ exists name rule_source program_source,
    compiles_to rule_source name (ac_rule_digest entry)
    /\ embedded_policy_rule_digest program_source = Ok (ac_rule_digest entry)
    /\ ac_program_digest entry = program_digest program_source.
Proof using Type.
  induction 1 as [|r name rule_source program_source shape' new r' Hr IH Ha];
    [cbn; by rewrite lookup_empty|].
  apply circuit_approve_ok in Ha as (Hc & He & Hp & Hs & ->).
  destruct (decide (shape' = shape)) as [<-|Hne].
  - rewrite lookup_insert_eq. intros [= <-]. split; [done|].
    by exists name, rule_source, program_source.
  - by rewrite lookup_insert_ne.
Qed.

Lemma matches_ok entry program shape :
  matches entry program shape = Ok tt <->
  shape = ac_shape entry /\ program_digest program = ac_program_digest entry.
Proof using Type.
  unfold matches. rewrite !if_err_ok, !negb_false_iff, !bool_decide_eq_true. tauto.
Qed.

(** A program runs only for a shape it was approved for: in a registry
    built by approvals, [check] accepts a program for a shape only if some
    approval for that shape supplied a program with the same normalised digest
    that embeds, as its single marker, the digest of the rule compiled in the
    same approval; and right after an approval the approved program passes for
    its shape. *)
Theorem circuit_registry_sound r program shape :
  circuit_registry r ->
  (circuit_check r program shape = Ok tt ->
   exists name rule_source program_source digest,
     compiles_to rule_source name digest
     /\ embedded_policy_rule_digest program_source = Ok digest
     /\ program_digest program = program_digest program_source)
  /\ (forall name rule_source entry r',
        circuit_approve r name rule_source program shape = Ok (entry, r') ->
        circuit_check r' program shape = Ok tt).
Proof using Type.
  intros Hr. unfold circuit_check. split.
  - destruct (cr_approved r !! shape) as [entry|] eqn:He; [|done].
    intros [_ Hd]%matches_ok.
    destruct (circuit_provenance _ _ _ Hr He) as (_ & name & rs & ps & Hc & Hm & Hp).
    exists name, rs, ps, (ac_rule_digest entry). by rewrite Hd.
  - intros name rs entry r' Ha. apply circuit_approve_ok in Ha as (_ & _ & Hp & Hs & ->).
    rewrite lookup_insert_eq. by apply matches_ok.
Qed.
End Registries.
