(* ===== verification/Instances.v ===== *)
(** * Concrete instances of the interfaces

    Computable stand-ins for the third-party functions, used only to evaluate
    the model on concrete inputs: an actual lower-case hexadecimal encoder
    (with its laws), a rotating 32-byte checksum in place of SHA-256, an
    unambiguous serializer, a signature backend whose signatures are hashes
    under the public key, and a counter as random generator. *)

From S2P Require Import Prelude.
From S2P Require Import Interfaces.

(** ** Hexadecimal *)

Definition hex_value (c : ascii) : N :=
  let n := N_of_ascii c in if n <? 58 then n - 48 else n - 87.

Fixpoint unhex_model (s : string) : bytes :=
  match s with
  | String a (String b s) => byte_of_N (16 * hex_value a + hex_value b) :: unhex_model s
  | _ => []
  end.

Lemma unhex_hex_model d : unhex_model (hex_model d) = d.
Proof.
  induction d as [|b d IH]; [done|]. cbn [hex_model unhex_model]. rewrite IH. f_equal.
  by destruct b; vm_compute.
Qed.

#[export] Instance hex_model_inst : HexEncode := hex_model.

#[export] Instance hex_model_laws : HexLaws.
Proof.
  split.
  - intros d. unfold hex_encode, hex_model_inst. induction d as [|b d IH]; cbn in *; lia.
  - intros d. unfold hex_encode, hex_model_inst. induction d as [|b d IH]; [done|].
    cbn [hex_model string_all]. rewrite IH, andb_true_r. by destruct b; vm_compute.
  - intros d d' Heq. rewrite <- (unhex_hex_model d), <- (unhex_hex_model d').
    unfold hex_encode, hex_model_inst in Heq. by rewrite Heq.
  - intros n. unfold hex_encode, hex_model_inst. induction n as [|n IH]; [done|].
    replace (2 * S n)%nat with (S (S (2 * n))) by lia. cbn [replicate hex_model zeros].
    by rewrite IH.
Qed.

(** ** Hash *)

(** A 32-byte identifier that repeats one byte. *)
Definition id32 (b : byte) : bytes := replicate 32 b.

(** A rotating 32-byte checksum. *)
Definition hash_step (s : bytes) (b : byte) : bytes :=
  match s with
  | [] => []
  | c :: s => s ++ [byte_of_N (Byte.to_N c + Byte.to_N b + 1)]
  end.
Definition hash_model (m : bytes) : bytes := foldl hash_step (id32 x07) m.

Lemma hash_step_length s b : length (hash_step s b) = length s.
Proof. destruct s; cbn; [done|]. rewrite length_app. cbn. lia. Qed.

#[export] Instance sha_model_inst : Sha256 := hash_model.
#[export] Instance sha_model_laws : Sha256Laws.
Proof.
  split. intros m. unfold sha256, sha_model_inst, hash_model.
  assert (forall s, length (foldl hash_step s m) = length s) as ->; [|done].
  induction m as [|b m IH]; intros s; [done|]. cbn. by rewrite IH, hash_step_length.
Qed.

(** ** Random generator *)

(** A counter whose draws repeat its value modulo sixteen. *)
Definition counter_byte (r : N) : byte := byte_of_N (r mod 16).

#[export, refine] Instance counter_rng : RngCore N := {|
  fill_bytes := fun n r => (replicate n (counter_byte r), r + 1)
|}.
Proof. intros n r. apply length_replicate. Defined.

(** ** Signatures *)

(** A byte string cut or zero-padded to [n] bytes. *)
Definition fit (n : nat) (b : bytes) : bytes := take n (b ++ replicate n x00).

Lemma fit_length n b : length (fit n b) = n.
Proof. unfold fit. rewrite length_take, length_app, length_replicate. lia. Qed.

(** A signer is its two seeds and its public key shows them; a signature is
    the checksum of the key, the purpose and the message. *)
Definition model_signature (public : bytes) (purpose : N) (message : bytes) : bytes :=
  fit 3373 (hash_model (take 64 public ++ be_bytes 2 purpose ++ message)).

#[export] Instance hybrid_model : HybridBackend := {|
  HybridSigner := bytes;
  hybrid_new := fun classical pq => classical ++ pq;
  hybrid_public_key := fun k => fit 1984 k;
  hybrid_sign := fun k p m => Ok (model_signature (fit 1984 k) p m);
  hybrid_verify := fun p public m s => bool_decide (s = model_signature public p m);
  suite_encode := [x00; x01; x00; x02];
  purpose_code := 3
|}.

#[export] Instance hybrid_model_laws : HybridLaws.
Proof.
  split; cbn.
  - done.
  - intros k. apply fit_length.
  - intros k p m s [= <-]. apply fit_length.
  - intros k p m s [= <-]. by apply bool_decide_eq_true.
Qed.

(** ** Results of evaluations *)

Definition result_or {E A} (d : A) (r : result E A) : A :=
  match r with Ok a => a | Err _ => d end.

Lemma result_or_ok {E A} (d : A) (r : result E A) : is_ok r = true -> r = Ok (result_or d r).
Proof. by destruct r. Qed.
