(* ===== verification/Dvp.v ===== *)
(** * Cross-domain delivery versus payment

    Model of [zkpi/src/cross_domain_dvp.rs] and its properties: which
    instructions verify, and that every value a ledger records binds the whole
    private instruction, the side and the event, up to a hash collision between
    two messages the code really hashed. *)

From S2P Require Import Prelude.
From S2P Require Import Interfaces.
From S2P Require Import Instances.

(** ** The instruction and its values

    The paired instruction of [zkpi/src/cross_domain_dvp.rs]: its two rails,
    its validation, the SHA-512 digest the quorum signs, and the values each
    ledger records (projection, relation projection and event bindings).  A
    Rust [[u8; 32]] is a byte string here; [rail_sized] and [body_sized] say
    that the lengths and integer widths are those of the Rust types. *)

Module Dvp.

Definition INSTRUCTION_DOMAIN : bytes := bstr "QOMM:ZKPI:CROSS-DOMAIN-DVP:v1".
Definition PROJECTION_DOMAIN : bytes := bstr "QOMM:ZKPI:CROSS-DOMAIN-PROJECTION:v1".
Definition RELATION_DOMAIN : bytes := bstr "QOMM:ZKPI:CROSS-DOMAIN-RELATION:v1".
Definition EVENT_DOMAIN : bytes := bstr "QOMM:ZKPI:CROSS-DOMAIN-EVENT:v1".

Inductive DvpSide := Cash | Securities.
Inductive DvpEvent := Prepared | Claimed.
Inductive TradeDirection := TakerBuys | TakerSells.

(** [as u8] *)
Definition side_code (s : DvpSide) : byte := match s with Cash => x01 | Securities => x02 end.
Definition event_code (e : DvpEvent) : byte := match e with Prepared => x01 | Claimed => x02 end.
Definition direction_code (d : TradeDirection) : byte :=
  match d with TakerBuys => x01 | TakerSells => x02 end.

Record DvpRail := mkRail {
  network_id : N;
  chain_id : bytes;
  defmi_id : bytes;
  local_leg_id : bytes;
  asset_commitment : bytes;
  amount_commitment : bytes;
  source_handle_commitment : bytes;
  escrow_handle_commitment : bytes;
  destination_handle_commitment : bytes;
  reserve_transfer_digest : bytes;
  claim_transfer_digest : bytes;
  refund_transfer_digest : bytes
}.

(** The array both loops of the source run over. *)
Definition rail_values (r : DvpRail) : list bytes :=
  [chain_id r; defmi_id r; local_leg_id r; asset_commitment r; amount_commitment r;
   source_handle_commitment r; escrow_handle_commitment r; destination_handle_commitment r;
   reserve_transfer_digest r; claim_transfer_digest r; refund_transfer_digest r].

(** The bytes [append_to] feeds to the hash. *)
Definition append_to (r : DvpRail) : bytes :=
  be_bytes 4 (network_id r) ++ concat (rail_values r).

Definition reject_zero (message : string) (value : bytes) : result string unit :=
  if bool_decide (value = ZERO32) then Err message else Ok tt.

Definition rail_validate (r : DvpRail) : result string unit :=
  _ ← for_each (reject_zero "cross-domain DvP rail contains a zero commitment") (rail_values r);
  if bool_decide (source_handle_commitment r = escrow_handle_commitment r)
     || bool_decide (escrow_handle_commitment r = destination_handle_commitment r)
  then Err "cross-domain DvP rail does not move through distinct escrow"
  else Ok tt.

Record CrossDomainDvpBody := mkBody {
  venue_id : bytes;
  direction : TradeDirection;
  rfq_nullifier : bytes;
  quote_proof_digest : bytes;
  market_statement_digest : bytes;
  price_commitment : bytes;
  relation_proof_digest : bytes;
  cash : DvpRail;
  securities : DvpRail;
  arm_deadline : N;
  claim_deadline : N;
  refund_after : N;
  release_condition : bytes;
  private_pair_nonce : bytes
}.

Definition body_values (b : CrossDomainDvpBody) : list bytes :=
  [venue_id b; rfq_nullifier b; quote_proof_digest b; market_statement_digest b;
   price_commitment b; relation_proof_digest b; release_condition b; private_pair_nonce b].

Definition body_validate (b : CrossDomainDvpBody) : result string unit :=
  _ ← rail_validate (cash b);
  _ ← rail_validate (securities b);
  _ ← for_each (reject_zero "cross-domain DvP instruction contains a zero commitment")
        (body_values b);
  if (network_id (cash b) =? network_id (securities b))
     && bool_decide (chain_id (cash b) = chain_id (securities b))
     && bool_decide (defmi_id (cash b) = defmi_id (securities b))
  then Err "cross-domain DvP requires two different DeFMI deployments"
  else if bool_decide (local_leg_id (cash b) = local_leg_id (securities b))
  then Err "cross-domain DvP legs must use different public identifiers"
  else if negb ((arm_deadline b <? claim_deadline b) && (claim_deadline b <? refund_after b))
  then Err "cross-domain DvP deadlines must satisfy arm < claim < refund"
  else Ok tt.

(** The bytes [digest] feeds to SHA-512, in the order of its updates. *)
Definition instruction_message (b : CrossDomainDvpBody) : bytes :=
  INSTRUCTION_DOMAIN ++ venue_id b ++ [direction_code (direction b)] ++ rfq_nullifier b
  ++ quote_proof_digest b ++ market_statement_digest b ++ price_commitment b
  ++ relation_proof_digest b ++ append_to (cash b) ++ append_to (securities b)
  ++ be_bytes 8 (arm_deadline b) ++ be_bytes 8 (claim_deadline b)
  ++ be_bytes 8 (refund_after b) ++ release_condition b ++ private_pair_nonce b.

Definition rail_of (b : CrossDomainDvpBody) (side : DvpSide) : DvpRail :=
  match side with Cash => cash b | Securities => securities b end.

(** The source and the target rail of an event. *)
Definition event_rails (b : CrossDomainDvpBody) (destination : DvpSide) : DvpRail * DvpRail :=
  match destination with
  | Cash => (securities b, cash b)
  | Securities => (cash b, securities b)
  end.

Section Operations.
Context `{Sha256, Sha512, FrostVerify}.

Definition digest (b : CrossDomainDvpBody) : result string bytes :=
  _ ← body_validate b;
  Ok (sha512 (instruction_message b)).

(** The bytes the three ledger values hash, given the instruction digest. *)
Definition projection_message (b : CrossDomainDvpBody) (side : DvpSide) (d : bytes) : bytes :=
  let rail := rail_of b side in
  PROJECTION_DOMAIN ++ [side_code side] ++ d ++ be_bytes 4 (network_id rail)
  ++ chain_id rail ++ defmi_id rail ++ local_leg_id rail.

Definition relation_message (b : CrossDomainDvpBody) (side : DvpSide) (projection : bytes) : bytes :=
  RELATION_DOMAIN ++ [side_code side] ++ projection ++ relation_proof_digest b.

Definition event_message (b : CrossDomainDvpBody) (destination : DvpSide) (event : DvpEvent)
    (d : bytes) : bytes :=
  let (source, target) := event_rails b destination in
  EVENT_DOMAIN ++ [side_code destination; event_code event] ++ d ++ local_leg_id source
  ++ local_leg_id target ++ be_bytes 4 (network_id target) ++ chain_id target ++ defmi_id target.

Definition projection_digest (b : CrossDomainDvpBody) (side : DvpSide) : result string bytes :=
  d ← digest b;
  Ok (sha256 (projection_message b side d)).

Definition relation_projection (b : CrossDomainDvpBody) (side : DvpSide) : result string bytes :=
  projection ← projection_digest b side;
  Ok (sha256 (relation_message b side projection)).

Definition event_binding (b : CrossDomainDvpBody) (destination : DvpSide) (event : DvpEvent) :
    result string bytes :=
  d ← digest b;
  Ok (sha256 (event_message b destination event d)).

Record CrossDomainDvpInstruction := mkInstruction {
  body : CrossDomainDvpBody;
  authorization : FrostSignature
}.

Definition verify (i : CrossDomainDvpInstruction) (package : FrostKeyPackage) :
    result string unit :=
  d ← digest (body i);
  if frost_verify package d (authorization i) then Ok tt
  else Err "cross-domain DvP zkPI authorization does not verify".
End Operations.

(** ** What validation establishes *)

Definition rail_ok (r : DvpRail) : Prop :=
  Forall (fun v => v <> ZERO32) (rail_values r)
  /\ source_handle_commitment r <> escrow_handle_commitment r
  /\ escrow_handle_commitment r <> destination_handle_commitment r.

(** The place a rail is executed. *)
Definition deployment (r : DvpRail) : N * bytes * bytes := (network_id r, chain_id r, defmi_id r).

Definition body_ok (b : CrossDomainDvpBody) : Prop :=
  rail_ok (cash b) /\ rail_ok (securities b)
  /\ Forall (fun v => v <> ZERO32) (body_values b)
  /\ deployment (cash b) <> deployment (securities b)
  /\ local_leg_id (cash b) <> local_leg_id (securities b)
  /\ arm_deadline b < claim_deadline b < refund_after b.

Lemma reject_zero_all message l :
  for_each (reject_zero message) l = Ok tt <-> Forall (fun v => v <> ZERO32) l.
Proof.
  rewrite for_each_ok. apply Forall_iff. intros v. unfold reject_zero.
  case_bool_decide; split; done.
Qed.

Lemma rail_validate_ok r : rail_validate r = Ok tt <-> rail_ok r.
Proof.
  unfold rail_validate, rail_ok. rewrite <- (reject_zero_all "cross-domain DvP rail contains a zero commitment").
  split.
  - intros Hv. ok_inv. bool_inv. done.
  - intros (-> & H1 & H2). cbn. by rewrite !bool_decide_eq_false_2.
Qed.

Lemma body_validate_ok b : body_validate b = Ok tt <-> body_ok b.
Proof.
  unfold body_ok. rewrite <- !rail_validate_ok.
  rewrite <- (reject_zero_all "cross-domain DvP instruction contains a zero commitment").
  unfold body_validate, deployment. split.
  - intros Hv. ok_inv. bool_inv. split_and!; try done.
    intros [= Hn Hc Hd]. rewrite Hn, Hc, Hd, N.eqb_refl, !bool_decide_eq_true_2 in * by done. done.
  - intros (-> & -> & -> & Hd & Hl & Ha & Hc). cbn.
    rewrite (bool_decide_eq_false_2 _ Hl), !(proj2 (N.ltb_lt _ _)) by done. cbn.
    destruct (N.eqb_spec (network_id (cash b)) (network_id (securities b))) as [En|]; [|done].
    repeat case_bool_decide; cbn; [|done..]. destruct Hd. congruence.
Qed.

(** ** The encodings are unambiguous *)

Definition sized (v : bytes) : Prop := length v = 32%nat.
Definition rail_sized (r : DvpRail) : Prop :=
  network_id r <= U32_MAX /\ Forall sized (rail_values r).
Definition body_sized (b : CrossDomainDvpBody) : Prop :=
  Forall sized (body_values b) /\ rail_sized (cash b) /\ rail_sized (securities b)
  /\ arm_deadline b <= U64_MAX /\ claim_deadline b <= U64_MAX /\ refund_after b <= U64_MAX.

Lemma concat_sized_inj l l' :
  Forall sized l -> Forall sized l' -> length l = length l' -> concat l = concat l' -> l = l'.
Proof.
  intros Hl. revert l'. induction Hl as [|v l Hv Hl IH]; intros [|v' l'] Hl' Hlen Heq; try done.
  apply Forall_cons in Hl' as [Hv' Hl']. cbn in Heq.
  apply app_inj_1 in Heq as [-> Heq]; [|by rewrite Hv, Hv'].
  f_equal. apply IH; auto.
Qed.

Lemma append_to_length r : rail_sized r -> length (append_to r) = 356%nat.
Proof.
  intros [_ Hs]. unfold append_to. rewrite length_app, be_bytes_length. unfold rail_values in *.
  repeat (apply Forall_cons in Hs as [?Hv Hs]). unfold sized in *. cbn [concat].
  rewrite !length_app. cbn. lia.
Qed.

Lemma be_bytes_app_inj n x y k l :
  x < 256 ^ N.of_nat n -> y < 256 ^ N.of_nat n ->
  be_bytes n x ++ k = be_bytes n y ++ l -> x = y /\ k = l.
Proof.
  intros Hx Hy Heq. apply app_inj_1 in Heq as [Hxy ->]; [|by rewrite !be_bytes_length].
  split; [by apply (be_bytes_inj n)|done].
Qed.

Lemma append_to_inj r r' : rail_sized r -> rail_sized r' -> append_to r = append_to r' -> r = r'.
Proof.
  intros [Hn Hs] [Hn' Hs'] Heq. unfold append_to, U32_MAX in *.
  apply be_bytes_app_inj in Heq as [Hnet Hvs]; [|cbn; lia..].
  apply concat_sized_inj in Hvs; try done.
  destruct r, r'; cbn in *. unfold rail_values in Hvs. cbn in Hvs. congruence.
Qed.

Lemma sized_app_inj v w k l : sized v -> sized w -> v ++ k = w ++ l -> v = w /\ k = l.
Proof. intros Hv Hw. apply app_inj_1. by rewrite Hv, Hw. Qed.

Lemma rail_app_inj r r' k l :
  rail_sized r -> rail_sized r' -> append_to r ++ k = append_to r' ++ l -> r = r' /\ k = l.
Proof.
  intros Hr Hr' Heq. apply app_inj_1 in Heq as [Heq ->]; [|by rewrite !append_to_length].
  split; [by apply append_to_inj | done].
Qed.

Lemma byte_app_inj (x y : byte) (k l : bytes) : [x] ++ k = [y] ++ l -> x = y /\ k = l.
Proof. by intros [= -> ->]. Qed.

Lemma direction_code_inj d d' : direction_code d = direction_code d' -> d = d'.
Proof. by destruct d, d'. Qed.
Lemma side_code_inj s s' : side_code s = side_code s' -> s = s'.
Proof. by destruct s, s'. Qed.
Lemma event_code_inj e e' : event_code e = event_code e' -> e = e'.
Proof. by destruct e, e'. Qed.

(** Peel the next field off an equation of encodings. *)
Ltac value_inj H := apply sized_app_inj in H as [? H]; [|assumption..].
Ltac rail_inj H := apply rail_app_inj in H as [? H]; [|assumption..].
Ltac u64_inj H := apply (be_bytes_app_inj 8) in H as [? H]; [|unfold U64_MAX in *; cbn; lia..].

Lemma instruction_message_inj b b' :
  body_sized b -> body_sized b' -> instruction_message b = instruction_message b' -> b = b'.
Proof.
  intros (Hv & Hc & Hs & Ha & Hcl & Hr) (Hv' & Hc' & Hs' & Ha' & Hcl' & Hr') Heq.
  destruct b, b'; unfold instruction_message, body_values in *; cbn -[append_to be_bytes U64_MAX app] in *.
  repeat (apply Forall_cons in Hv as [? Hv]). repeat (apply Forall_cons in Hv' as [? Hv']).
  apply app_inv_head in Heq. value_inj Heq.
  apply byte_app_inj in Heq as [Hd Heq]. apply direction_code_inj in Hd.
  do 5 value_inj Heq. do 2 rail_inj Heq. do 3 u64_inj Heq. value_inj Heq.
  subst. reflexivity.
Qed.
End Dvp.

Import Dvp.

Section LedgerValues.
Context `{Sha256, Sha512, FrostVerify}.

(** An instruction verifies under a quorum key exactly when its body
    passes every rule (no zero commitment, each rail moves through a distinct
    escrow, two deployments, two leg identifiers, arm < claim < refund) and the
    quorum's signature verifies on the SHA-512 of the encoded body; a body that
    breaks a rule has no digest, projection, relation projection or event
    binding. *)
Theorem instruction_verify_iff (i : CrossDomainDvpInstruction) (package : FrostKeyPackage) :
  (verify i package = Ok tt <->
     body_ok (body i)
     /\ frost_verify package (sha512 (instruction_message (body i))) (authorization i) = true)
  /\ (~ body_ok (body i) -> exists e, digest (body i) = Err e
       /\ (forall side, projection_digest (body i) side = Err e
            /\ relation_projection (body i) side = Err e
            /\ forall event, event_binding (body i) side event = Err e)).
Proof.
  unfold relation_projection, projection_digest, event_binding, verify, digest.
  rewrite <- body_validate_ok. destruct (body_validate (body i)) as [[]|e]; cbn.
  - destruct (frost_verify _ _ _); naive_solver.
  - split; [naive_solver|]. intros _. by exists e.
Qed.

(** A value of an instruction that a ledger stores. *)
Inductive LedgerValue :=
  | Projection (side : DvpSide)
  | Relation (side : DvpSide)
  | Event (destination : DvpSide) (event : DvpEvent).

Definition ledger_value (b : CrossDomainDvpBody) (v : LedgerValue) : result string bytes :=
  match v with
  | Projection side => projection_digest b side
  | Relation side => relation_projection b side
  | Event destination event => event_binding b destination event
  end.

(** The messages SHA-256 hashes for a value, the outermost first. *)
Definition outer_message (b : CrossDomainDvpBody) (v : LedgerValue) : bytes :=
  let d := sha512 (instruction_message b) in
  match v with
  | Projection side => projection_message b side d
  | Relation side => relation_message b side (sha256 (projection_message b side d))
  | Event destination event => event_message b destination event d
  end.

Definition hashed (b : CrossDomainDvpBody) (v : LedgerValue) : list bytes :=
  match v with
  | Relation side => [outer_message b v; outer_message b (Projection side)]
  | _ => [outer_message b v]
  end.

Lemma ledger_value_ok b v x :
  ledger_value b v = Ok x -> x = sha256 (outer_message b v).
Proof.
  destruct v; cbn; unfold relation_projection, projection_digest, event_binding, digest;
    intros Hx; ok_inv; by subst.
Qed.

Definition collides (h : bytes -> bytes) (m m' : bytes) : Prop := m <> m' /\ h m = h m'.

Lemma same_or_collides (h : bytes -> bytes) m m' :
  h m = h m' -> m = m' \/ collides h m m'.
Proof. intros. destruct (decide (m = m')); [by left | by right]. Qed.

Context `{!Sha256Laws, !Sha512Laws}.

Lemma digest_app_inj m m' k l : sha512 m ++ k = sha512 m' ++ l -> sha512 m = sha512 m' /\ k = l.
Proof. apply app_inj_1. by rewrite !sha512_length. Qed.

(** Equal projection or event messages have the same side, event and digest. *)
Lemma projection_message_inj b b' s s' m m' :
  projection_message b s (sha512 m) = projection_message b' s' (sha512 m') ->
  s = s' /\ sha512 m = sha512 m'.
Proof.
  unfold projection_message. intros Heq. apply app_inv_head in Heq.
  apply byte_app_inj in Heq as [Hs Heq]. apply digest_app_inj in Heq as [Hd _].
  split; [by apply side_code_inj | done].
Qed.

Lemma event_message_inj b b' s s' e e' m m' :
  event_message b s e (sha512 m) = event_message b' s' e' (sha512 m') ->
  s = s' /\ e = e' /\ sha512 m = sha512 m'.
Proof.
  unfold event_message. destruct (event_rails b s) as [r t], (event_rails b' s') as [r' t'].
  intros Heq. apply app_inv_head in Heq.
  apply (app_inj_1 [_; _] [_; _]) in Heq as [Hc Heq]; [|done].
  apply digest_app_inj in Heq as [Hd _]. injection Hc as Hs He.
  split_and!; [by apply side_code_inj | by apply event_code_inj | done].
Qed.

Lemma relation_message_inj b b' s s' m m' :
  relation_message b s (sha256 m) = relation_message b' s' (sha256 m') ->
  s = s' /\ sha256 m = sha256 m'.
Proof.
  unfold relation_message. intros Heq. apply app_inv_head in Heq.
  apply byte_app_inj in Heq as [Hs Heq].
  apply app_inj_1 in Heq as [Hd _]; [|by rewrite !sha256_length].
  split; [by apply side_code_inj | done].
Qed.

(** The domains separate the three kinds. *)
Definition kind_byte (b : CrossDomainDvpBody) (v : LedgerValue) : option byte :=
  outer_message b v !! 23%nat.

Lemma kind_byte_of b v :
  kind_byte b v = Some match v with Projection _ => x50 | Relation _ => x52 | Event _ _ => x45 end.
Proof.
  destruct v as [s|s|s e]; unfold kind_byte; cbn [outer_message].
  - unfold projection_message. by rewrite lookup_app_l by (cbn; lia).
  - unfold relation_message. by rewrite lookup_app_l by (cbn; lia).
  - unfold event_message. destruct (event_rails b s). by rewrite lookup_app_l by (cbn; lia).
Qed.

(** Equal outer messages are of the same value of bodies with equal digests,
    or the two projections under them collide. *)
Lemma outer_message_inj b b' v v' :
  outer_message b v = outer_message b' v' ->
  (v = v' /\ sha512 (instruction_message b) = sha512 (instruction_message b'))
  \/ exists m m', m ∈ hashed b v /\ m' ∈ hashed b' v' /\ collides sha256 m m'.
Proof.
  intros Heq.
  assert (kind_byte b v = kind_byte b' v') as Hk by (unfold kind_byte; by rewrite Heq).
  rewrite !kind_byte_of in Hk.
  destruct v as [s|s|s e], v' as [s'|s'|s' e']; try discriminate Hk; cbn [outer_message] in Heq.
  - apply projection_message_inj in Heq as [-> Hd]. by left.
  - apply relation_message_inj in Heq as [-> Hp].
    apply same_or_collides in Hp as [Hp|Hc].
    + apply projection_message_inj in Hp as [_ Hd]. by left.
    + right. eexists _, _. split_and!; [..|exact Hc]; cbn [hashed]; set_solver.
  - apply event_message_inj in Heq as (-> & -> & Hd). by left.
Qed.

(** A value a ledger stores (projection, relation projection or event
    binding, for either side and event) is produced only by its own kind, side
    and event of one private instruction, every field of it included: if two
    well-typed instructions give the same value, they and the values agree, or
    two messages hashed on the way are a SHA-512 or SHA-256 collision. *)
Theorem ledger_value_binds (b b' : CrossDomainDvpBody) (v v' : LedgerValue) (x : bytes) :
  body_sized b -> body_sized b' ->
  ledger_value b v = Ok x -> ledger_value b' v' = Ok x ->
  (v = v' /\ b = b')
  \/ collides sha512 (instruction_message b) (instruction_message b')
  \/ exists m m', m ∈ hashed b v /\ m' ∈ hashed b' v' /\ collides sha256 m m'.
Proof.
  intros Hb Hb' Hv Hv'. apply ledger_value_ok in Hv. apply ledger_value_ok in Hv'.
  rewrite Hv in Hv'. apply same_or_collides in Hv' as [Hm|Hc].
  - apply outer_message_inj in Hm as [[-> Hd]|Hc]; [|by right; right].
    apply same_or_collides in Hd as [Hi|Hc]; [|by right; left].
    left. split; [done|]. by apply instruction_message_inj.
  - right; right. eexists _, _. split_and!; [..|exact Hc]; destruct v, v'; cbn [hashed]; set_solver.
Qed.
End LedgerValues.

(** ** A concrete instruction *)

Module DvpRun.

Definition hash512_model (m : bytes) : bytes := hash_model m ++ hash_model (x01 :: m).
#[export] Instance sha512_model : Sha512 := hash512_model.
#[export] Instance sha512_model_laws : Sha512Laws.
Proof.
  split. intros m. unfold sha512, sha512_model, hash512_model. rewrite length_app.
  pose proof (sha256_length (Sha256Laws := sha_model_laws)) as Hl. unfold sha256, sha_model_inst in Hl.
  by rewrite !Hl.
Qed.

Definition a_rail (marker : N) : DvpRail :=
  let v k := id32 (byte_of_N (marker + k)) in
  mkRail marker (v 0) (v 10) (v 20) (v 30) (v 40) (v 50) (v 51) (v 52) (v 53) (v 54) (v 55).

Definition a_body : CrossDomainDvpBody :=
  mkBody (id32 x01) TakerBuys (id32 x02) (id32 x03) (id32 x04) (id32 x05) (id32 x06)
    (a_rail 10) (a_rail 20) 100 200 300 (id32 x07) (id32 x08).

Lemma a_body_sized : body_sized a_body.
Proof.
  unfold body_sized, rail_sized, sized, body_values, rail_values. cbn -[id32].
  split_and!; repeat constructor; try reflexivity; vm_compute; discriminate.
Qed.

Lemma ledger_value_binds_witness :
  exists x, ledger_value a_body (Event Cash Claimed) = Ok x
    /\ ledger_value a_body (Event Cash Claimed) = Ok x
    /\ ((Event Cash Claimed = Event Cash Claimed /\ a_body = a_body)
        \/ collides sha512 (instruction_message a_body) (instruction_message a_body)
        \/ exists m m', m ∈ hashed a_body (Event Cash Claimed)
             /\ m' ∈ hashed a_body (Event Cash Claimed) /\ collides sha256 m m').
Proof.
  exists (result_or [] (ledger_value a_body (Event Cash Claimed))).
  assert (ledger_value a_body (Event Cash Claimed)
          = Ok (result_or [] (ledger_value a_body (Event Cash Claimed)))) as Hx.
  { apply result_or_ok. vm_compute. reflexivity. }
  split; [exact Hx|]. split; [exact Hx|].
  exact (ledger_value_binds a_body a_body _ _ _ a_body_sized a_body_sized Hx Hx).
Defined.
End DvpRun.
