(* ===== verification/Outbox.v ===== *)
(** * The corporate request outbox

    [zkpi-committee/src/corporate_outbox.rs]: the durable queue of signed
    requests, its life cycle and its cover schedule, and the encrypted file it
    lives in.  The closures passed to [update] are functions on [OutboxData];
    [update] reads the file, runs the closure, bumps the generation, validates
    and replaces the file.  The file system is a [Disk] (the bytes at the
    path, if the file exists) and an [Io] (which step of a call fails, and the
    salt and nonce it draws); a failing write leaves the old or the new bytes,
    as the rename decides. *)

From S2P Require Import Prelude.
From S2P Require Import Interfaces.
From S2P Require Import Text.

Open Scope N_scope.

Module Outbox.

Definition MAGIC : bytes := bstr "QOMMOUT1".
Definition AAD : bytes := bstr "QOMM:CORPORATE-OUTBOX:v1".
Definition SALT_BYTES : nat := 16.
Definition NONCE_BYTES : nat := 12.
Definition MAX_FILE_BYTES : N := 64 * 1024 * 1024.
Definition MAX_REQUEST_ID_BYTES : nat := 128.
Definition MAX_RECEIPT_ID_BYTES : nat := 256.
Definition MAX_REASON_BYTES : nat := 512.
Definition MAX_AUTOMATIC_DISPATCH_ATTEMPTS : N := 10.

(** ** Data *)

Record MpcAdmissionReceipt := mkAdmissionReceipt {
  committee_id : string;
  job_id : string;
  admitted_request_digest : bytes
}.
#[export] Instance admission_receipt_eq_dec : EqDecision MpcAdmissionReceipt.
Proof. solve_decision. Defined.

Record CanonicalReceipt := mkCanonicalReceipt {
  defmi_network_id : string;
  transaction_id : string;
  ledger_height : N;
  receipt_request_digest : bytes;
  receipt_finalized_at : N
}.
#[export] Instance canonical_receipt_eq_dec : EqDecision CanonicalReceipt.
Proof. solve_decision. Defined.

Inductive OutboxState :=
  | Queued
  | Dispatching (attempt started_at : N)
  | MpcAdmitted (attempt admitted_at : N) (receipt : MpcAdmissionReceipt)
  | Settled (receipt : CanonicalReceipt)
  | Expired (expired_at : N)
  | ReleasePending (requested_at : N)
  | Released (receipt : CanonicalReceipt)
  | AbortedBeforeReserve (finalized_at : N)
  | ManualReview (marked_at : N) (reason : string).
#[export] Instance outbox_state_eq_dec : EqDecision OutboxState.
Proof. solve_decision. Defined.

Record OutboxEntry := mkEntry {
  request_id : string;
  sequence : N;
  accepted_at : N;
  expires_at : N;
  request_digest : bytes;
  signed_request : bytes;
  state : OutboxState
}.

Definition set_state (s : OutboxState) (e : OutboxEntry) : OutboxEntry :=
  mkEntry (request_id e) (sequence e) (accepted_at e) (expires_at e) (request_digest e)
    (signed_request e) s.

Record OutboxData := mkData {
  version : N;
  generation : N;
  next_sequence : N;
  next_cover_slot : N;
  next_cover_due_at : option N;
  entries : gmap string OutboxEntry
}.

Definition OutboxData_default : OutboxData := mkData 1 0 0 0 None ∅.

Definition set_entries (m : gmap string OutboxEntry) (d : OutboxData) : OutboxData :=
  mkData (version d) (generation d) (next_sequence d) (next_cover_slot d) (next_cover_due_at d) m.
Definition set_generation (g : N) (d : OutboxData) : OutboxData :=
  mkData (version d) g (next_sequence d) (next_cover_slot d) (next_cover_due_at d) (entries d).
Definition set_next_sequence (n : N) (d : OutboxData) : OutboxData :=
  mkData (version d) (generation d) n (next_cover_slot d) (next_cover_due_at d) (entries d).
Definition set_cover (slot : N) (due : N) (d : OutboxData) : OutboxData :=
  mkData (version d) (generation d) (next_sequence d) slot (Some due) (entries d).

(** [entry.state = s] through [get_mut]. *)
Definition put_state (id : string) (s : OutboxState) (d : OutboxData) : OutboxData :=
  set_entries (alter (set_state s) id (entries d)) d.

Inductive EnqueueOutcome :=
  | Enqueued (sequence : N)
  | AlreadyPresent (sequence : N).

Record ClaimedRequest := mkClaimed {
  c_request_id : string;
  c_sequence : N;
  c_accepted_at : N;
  c_expires_at : N;
  c_request_digest : bytes;
  c_signed_request : bytes;
  c_attempt : N
}.

Inductive QueueAction :=
  | Dispatch (r : ClaimedRequest)
  | Expire (request_id : string) (request_digest : bytes).

Inductive CoverAction :=
  | Real (r : ClaimedRequest)
  | Dummy
  | CoverExpire (request_id : string) (request_digest : bytes).

Record CoverSlot := mkCoverSlot { slot : N; due_at : N; action : CoverAction }.

Record OutboxEntrySummary := mkSummary {
  s_request_id : string;
  s_sequence : N;
  s_accepted_at : N;
  s_expires_at : N;
  s_request_digest : bytes;
  s_state : OutboxState
}.

Record OutboxMetrics := mkMetrics {
  queued : N; dispatching : N; mpc_admitted : N; settled : N; expired : N;
  release_pending : N; released : N; aborted_before_reserve : N; manual_review : N;
  oldest_unfinalized_age_seconds : option N
}.
Definition OutboxMetrics_default : OutboxMetrics := mkMetrics 0 0 0 0 0 0 0 0 0 None.

Record CorporateOutbox := mkOutbox {
  path : string;
  passphrase : bytes;
  max_entries : nat;
  max_request_bytes : nat
}.

Definition outbox_new (path : string) (passphrase : bytes) (max_entries max_request_bytes : nat) :
    result string CorporateOutbox :=
  if bool_decide (length passphrase < 12)%nat then
    Err "corporate outbox passphrase must contain at least 12 bytes"
  else if bool_decide (max_entries = 0%nat) || bool_decide (max_request_bytes = 0%nat) then
    Err "corporate outbox limits must be greater than zero"
  else Ok (mkOutbox path passphrase max_entries max_request_bytes).

(** ** Checks *)

Definition identifier_char (c : ascii) : bool :=
  is_alphanumeric c || Ascii.eqb c "-" || Ascii.eqb c "_" || Ascii.eqb c ":" || Ascii.eqb c ".".

Definition identifier_ok (value : string) (maximum : nat) : bool :=
  negb (String.eqb value "") && bool_decide (String.length value <= maximum)%nat
  && string_all identifier_char value.

Definition validate_identifier (label value : string) (maximum : nat) : result string unit :=
  if negb (identifier_ok value maximum) then Err (label +:+ " is invalid") else Ok tt.

Definition validate_canonical_receipt (r : CanonicalReceipt) (digest : bytes) : result string unit :=
  _ ← validate_identifier "DeFMI network id" (defmi_network_id r) MAX_RECEIPT_ID_BYTES;
  _ ← validate_identifier "transaction id" (transaction_id r) MAX_RECEIPT_ID_BYTES;
  if negb (bool_decide (receipt_request_digest r = digest))
  then Err "canonical receipt is bound to a different request" else Ok tt.

Definition same_canonical_transition (l r : CanonicalReceipt) : bool :=
  String.eqb (defmi_network_id l) (defmi_network_id r)
  && String.eqb (transaction_id l) (transaction_id r)
  && (ledger_height l =? ledger_height r)
  && bool_decide (receipt_request_digest l = receipt_request_digest r).

(** [Vec::dedup] *)
Fixpoint dedup (l : list N) : list N :=
  match l with
  | x :: ((y :: _) as l') => if x =? y then dedup l' else x :: dedup l'
  | l => l
  end.

Definition values (d : OutboxData) : list OutboxEntry := (btree_iter (entries d)).*2.

Definition matching_entry (d : OutboxData) (id : string) (digest : bytes) :
    result string OutboxEntry :=
  entry ← ok_or (entries d !! id) "corporate outbox request was not found";
  if negb (bool_decide (request_digest entry = digest))
  then Err "corporate outbox request digest does not match" else Ok entry.

(** ** Claiming the oldest request *)

(** [min_by_key(|entry| entry.sequence)]: the first of the least. *)
Definition min_by_sequence (l : list OutboxEntry) : option OutboxEntry :=
  foldl (fun best e =>
    match best with
    | None => Some e
    | Some b => if sequence e <? sequence b then Some e else Some b
    end) None l.

Definition awaits_release (s : OutboxState) : bool :=
  match s with Expired _ | ReleasePending _ => true | _ => false end.
Definition may_expire (s : OutboxState) : bool :=
  match s with Queued | Dispatching _ _ | ManualReview _ _ => true | _ => false end.
Definition dispatchable (s : OutboxState) : bool :=
  match s with Queued | Dispatching _ _ => true | _ => false end.

Definition oldest_where (p : OutboxEntry -> bool) (d : OutboxData) : option OutboxEntry :=
  min_by_sequence (List.filter p (values d)).

Definition saturating_add (a b : N) : N := N.min (a + b) U64_MAX.
Definition saturating_mul (a b : N) : N := N.min (a * b) U64_MAX.

Definition retry_delay (attempt retry_after_seconds : N) : N :=
  let exponent := N.min (attempt - 1) 7 in
  N.min (saturating_mul retry_after_seconds (N.shiftl 1 exponent)) 300.

Definition RETRY_LIMIT : string := "automatic MPC dispatch retry limit reached".

Definition claimed (e : OutboxEntry) (attempt : N) : ClaimedRequest :=
  mkClaimed (request_id e) (sequence e) (accepted_at e) (expires_at e) (request_digest e)
    (signed_request e) attempt.

(** One round of the dispatch loop: leave it with a value, or go on with the
    changed data ([continue]). *)
Inductive Round :=
  | Leave (r : result string (option QueueAction * OutboxData))
  | Continue (d : OutboxData).

Definition dispatch_round (now retry_after_seconds : N) (d : OutboxData) : Round :=
  match oldest_where (fun e => dispatchable (state e)) d with
  | None => Leave (Ok (None, d))
  | Some selected =>
      let id := request_id selected in
      match entries d !! id with
      | None => Leave (Err "corporate outbox index changed unexpectedly")
      | Some entry =>
          let send next_attempt :=
            Leave (Ok (Some (Dispatch (claimed entry next_attempt)),
                       put_state id (Dispatching next_attempt now) d)) in
          match state entry with
          | Queued => send 1
          | Dispatching attempt started_at =>
              if MAX_AUTOMATIC_DISPATCH_ATTEMPTS <=? attempt then
                Continue (put_state id (ManualReview now RETRY_LIMIT) d)
              else if now <? saturating_add started_at (retry_delay attempt retry_after_seconds) then
                Leave (Ok (None, d))
              else if attempt + 1 <=? U32_MAX then send (attempt + 1)
              else Leave (Err "corporate outbox retry counter exhausted")
          | _ => Leave (Err "corporate outbox selected a non-dispatchable request")
          end
      end
  end.

(** The loop; every [continue] takes one entry out of the dispatchable ones. *)
Fixpoint dispatch_loop (fuel : nat) (now retry_after_seconds : N) (d : OutboxData) :
    result string (option QueueAction * OutboxData) :=
  match fuel with
  | O => Err "dispatch loop did not end"
  | S fuel =>
      match dispatch_round now retry_after_seconds d with
      | Leave r => r
      | Continue d => dispatch_loop fuel now retry_after_seconds d
      end
  end.

Definition claim_oldest (now retry_after_seconds : N) (quorum_healthy : bool) (d : OutboxData) :
    result string (option QueueAction * OutboxData) :=
  match oldest_where (fun e => awaits_release (state e)) d with
  | Some entry => Ok (Some (Expire (request_id entry) (request_digest entry)), d)
  | None =>
      match oldest_where (fun e => (expires_at e <=? now) && may_expire (state e)) d with
      | Some selected =>
          entry ← ok_or (entries d !! request_id selected)
                    "corporate outbox index changed unexpectedly";
          Ok (Some (Expire (request_id entry) (request_digest entry)),
              put_state (request_id selected) (Expired now) d)
      | None =>
          if negb quorum_healthy then Ok (None, d)
          else dispatch_loop (S (size (entries d))) now retry_after_seconds d
      end
  end.

(** ** The closures of the public operations *)

Section Closures.
Context `{Sha256}.
Implicit Types (c : CorporateOutbox) (d : OutboxData).

Definition validate_entry c (kv : string * OutboxEntry) : result string unit :=
  let (key, entry) := kv in
  _ ← validate_identifier "request id" key MAX_REQUEST_ID_BYTES;
  if negb (String.eqb key (request_id entry)) then
    Err "corporate outbox request index is inconsistent"
  else if bool_decide (signed_request entry = [])
          || bool_decide (max_request_bytes c < length (signed_request entry))%nat then
    Err "corporate outbox request exceeds its configured limit"
  else if expires_at entry <=? accepted_at entry then
    Err "corporate outbox contains an invalid expiry"
  else if negb (bool_decide (sha256 (signed_request entry) = request_digest entry)) then
    Err "corporate outbox request digest mismatch"
  else Ok tt.

Definition validate_data c d : result string unit :=
  if negb (version d =? 1) then Err "unsupported corporate outbox version"
  else if bool_decide (max_entries c < size (entries d))%nat then
    Err "corporate outbox contains too many entries"
  else
    let sequences := dedup (merge_sort N.le (sequence <$> values d)) in
    if negb (bool_decide (length sequences = size (entries d))) then
      Err "corporate outbox contains duplicate sequence numbers"
    else for_each (validate_entry c) (btree_iter (entries d)).

(** The checks [enqueue] and [enqueue_first_seen] make before they lock. *)
Definition enqueue_pre c (id : string) (signed : bytes) (accepted expires : N) :
    result string unit :=
  _ ← validate_identifier "request id" id MAX_REQUEST_ID_BYTES;
  if bool_decide (signed = []) || bool_decide (max_request_bytes c < length signed)%nat then
    Err "signed request length is outside the configured outbox limit"
  else if expires <=? accepted then
    Err "request expiry must be later than its acceptance time"
  else Ok tt.

(** Their closures, given the comparison with an entry already present. *)
Definition enqueue_with c (same : OutboxEntry -> bool) (id : string) (signed : bytes)
    (accepted expires : N) d : result string (EnqueueOutcome * OutboxData) :=
  match entries d !! id with
  | Some existing =>
      if same existing then Ok (AlreadyPresent (sequence existing), d)
      else Err "request id was reused with different signed bytes"
  | None =>
      if bool_decide (max_entries c <= size (entries d))%nat then
        Err "corporate outbox capacity is exhausted"
      else
        let seq := next_sequence d in
        next ← ok_or (checked_add (next_sequence d) 1) "corporate outbox sequence exhausted";
        let entry := mkEntry id seq accepted expires (sha256 signed) signed Queued in
        Ok (Enqueued seq, set_entries (<[id := entry]> (entries d)) (set_next_sequence next d))
  end.

Definition enqueue_op c (id : string) (signed : bytes) (accepted expires : N) :=
  enqueue_with c (fun e =>
    bool_decide (request_digest e = sha256 signed) && bool_decide (signed_request e = signed)
    && (accepted_at e =? accepted) && (expires_at e =? expires)) id signed accepted expires.

Definition enqueue_first_seen_op c (id : string) (signed : bytes) (first_seen expires : N) :=
  enqueue_with c (fun e =>
    bool_decide (request_digest e = sha256 signed) && bool_decide (signed_request e = signed)
    && (expires_at e =? expires)) id signed first_seen expires.

Definition claim_next_op (now : N) (quorum_healthy : bool) (retry_after_seconds : N) d :=
  claim_oldest now retry_after_seconds quorum_healthy d.

Definition claim_cover_slot_pre (interval_seconds : N) : result string unit :=
  if interval_seconds =? 0 then Err "cover interval must be greater than zero" else Ok tt.

Definition cover_action (quorum_healthy : bool) (a : option QueueAction) :
    result string CoverAction :=
  match a with
  | Some (Dispatch r) =>
      if quorum_healthy then Ok (Real r)
      else Err "an unhealthy MPC quorum cannot receive a request"
  | Some (Expire id digest) => Ok (CoverExpire id digest)
  | None => Ok Dummy
  end.

Definition claim_cover_slot_op (now : N) (quorum_healthy : bool)
    (retry_after_seconds interval_seconds : N) d :
    result string (option CoverSlot * OutboxData) :=
  let due := default now (next_cover_due_at d) in
  if now <? due then Ok (None, d)
  else
    next_slot ← ok_or (checked_add (next_cover_slot d) 1) "cover slot sequence exhausted";
    next_due ← ok_or (checked_add due interval_seconds) "cover schedule exhausted";
    x ← claim_oldest now retry_after_seconds quorum_healthy (set_cover next_slot next_due d);
    act ← cover_action quorum_healthy x.1;
    Ok (Some (mkCoverSlot (next_cover_slot d) due act), x.2).

Definition record_mpc_admission_pre (digest : bytes) (r : MpcAdmissionReceipt) :
    result string unit :=
  _ ← validate_identifier "committee id" (committee_id r) MAX_RECEIPT_ID_BYTES;
  _ ← validate_identifier "MPC job id" (job_id r) MAX_RECEIPT_ID_BYTES;
  if negb (bool_decide (admitted_request_digest r = digest))
  then Err "MPC admission receipt is bound to a different request" else Ok tt.

Definition record_mpc_admission_op (id : string) (digest : bytes) (admitted_at : N)
    (r : MpcAdmissionReceipt) d : result string (unit * OutboxData) :=
  let refuse := Err "request is not awaiting an MPC admission receipt" in
  entry ← matching_entry d id digest;
  match state entry with
  | Dispatching attempt _ => Ok (tt, put_state id (MpcAdmitted attempt admitted_at r) d)
  | MpcAdmitted _ _ existing => if bool_decide (existing = r) then Ok (tt, d) else refuse
  | Settled _ => Ok (tt, d)
  | _ => refuse
  end.

Definition record_settlement_op (id : string) (digest : bytes) (r : CanonicalReceipt) d :
    result string (unit * OutboxData) :=
  let refuse := Err "canonical settlement is incompatible with the request state" in
  entry ← matching_entry d id digest;
  match state entry with
  | Settled existing => if same_canonical_transition existing r then Ok (tt, d) else refuse
  | Dispatching _ _ | MpcAdmitted _ _ _ => Ok (tt, put_state id (Settled r) d)
  | _ => refuse
  end.

Definition mark_release_pending_op (id : string) (digest : bytes) (requested_at : N) d :
    result string (unit * OutboxData) :=
  entry ← matching_entry d id digest;
  match state entry with
  | Expired _ | ManualReview _ _ => Ok (tt, put_state id (ReleasePending requested_at) d)
  | ReleasePending _ | Released _ => Ok (tt, d)
  | _ => Err "only an expired or reviewed request may release its reserve"
  end.

Definition record_release_op (id : string) (digest : bytes) (r : CanonicalReceipt) d :
    result string (unit * OutboxData) :=
  let refuse := Err "request is not awaiting a canonical reserve-release receipt" in
  entry ← matching_entry d id digest;
  match state entry with
  | Released existing => if same_canonical_transition existing r then Ok (tt, d) else refuse
  | Queued | Dispatching _ _ | MpcAdmitted _ _ _ | Expired _ | ReleasePending _
  | ManualReview _ _ => Ok (tt, put_state id (Released r) d)
  | _ => refuse
  end.

Definition record_pre_reserve_abort_op (id : string) (digest : bytes) (finalized_at : N) d :
    result string (unit * OutboxData) :=
  entry ← matching_entry d id digest;
  match state entry with
  | Queued | Dispatching _ _ | Expired _ | ReleasePending _ | ManualReview _ _ =>
      Ok (tt, put_state id (AbortedBeforeReserve finalized_at) d)
  | AbortedBeforeReserve _ => Ok (tt, d)
  | _ => Err "only a request that has not reached MPC admission may abort before reserve"
  end.

Definition signed_request_op (id : string) (digest : bytes) d : result string bytes :=
  entry ← matching_entry d id digest;
  Ok (signed_request entry).

Definition mark_manual_review_pre (reason : string) : result string unit :=
  if String.eqb reason "" || bool_decide (MAX_REASON_BYTES < String.length reason)%nat
  then Err "manual-review reason length is invalid" else Ok tt.

Definition mark_manual_review_op (id : string) (digest : bytes) (marked_at : N) (reason : string) d :
    result string (unit * OutboxData) :=
  entry ← matching_entry d id digest;
  match state entry with
  | Settled _ | Released _ | AbortedBeforeReserve _ =>
      Err "a finalized request cannot be moved to manual review"
  | _ => Ok (tt, put_state id (ManualReview marked_at reason) d)
  end.

(** When a final state was reached. *)
Definition finalized_at (s : OutboxState) : option N :=
  match s with
  | Settled r | Released r => Some (receipt_finalized_at r)
  | AbortedBeforeReserve at_ => Some at_
  | _ => None
  end.

Definition prunable (finalized_before : N) (e : OutboxEntry) : bool :=
  match finalized_at (state e) with Some at_ => at_ <? finalized_before | None => false end.

Definition prune_finalized_op (finalized_before : N) d : result string (nat * OutboxData) :=
  let kept := filter (fun kv => prunable finalized_before kv.2 = false) (entries d) in
  Ok ((size (entries d) - size kept)%nat, set_entries kept d).

Definition summary_le (a b : OutboxEntrySummary) : Prop := s_sequence a <= s_sequence b.
#[export] Instance summary_le_dec : RelDecision summary_le.
Proof. intros a b. unfold summary_le. apply _. Defined.

Definition summaries_op d : result string (list OutboxEntrySummary) :=
  Ok (merge_sort summary_le
    ((fun e => mkSummary (request_id e) (sequence e) (accepted_at e) (expires_at e)
                 (request_digest e) (state e)) <$> values d)).

Definition count_state (m : OutboxMetrics) (s : OutboxState) : OutboxMetrics :=
  let '(mkMetrics q di ad se ex rp re ab mr o) := m in
  match s with
  | Queued => mkMetrics (q + 1) di ad se ex rp re ab mr o
  | Dispatching _ _ => mkMetrics q (di + 1) ad se ex rp re ab mr o
  | MpcAdmitted _ _ _ => mkMetrics q di (ad + 1) se ex rp re ab mr o
  | Settled _ => mkMetrics q di ad (se + 1) ex rp re ab mr o
  | Expired _ => mkMetrics q di ad se (ex + 1) rp re ab mr o
  | ReleasePending _ => mkMetrics q di ad se ex (rp + 1) re ab mr o
  | Released _ => mkMetrics q di ad se ex rp (re + 1) ab mr o
  | AbortedBeforeReserve _ => mkMetrics q di ad se ex rp re (ab + 1) mr o
  | ManualReview _ _ => mkMetrics q di ad se ex rp re ab (mr + 1) o
  end.

Definition count_entry (acc : OutboxMetrics * option N) (e : OutboxEntry) :
    OutboxMetrics * option N :=
  (count_state acc.1 (state e),
   match finalized_at (state e) with
   | Some _ => acc.2
   | None => Some (match acc.2 with None => accepted_at e | Some v => N.min v (accepted_at e) end)
   end).

Definition metrics_op (now : N) d : result string OutboxMetrics :=
  let '(m, oldest) := foldl count_entry (OutboxMetrics_default, None) (values d) in
  let '(mkMetrics q di ad se ex rp re ab mr _) := m in
  Ok (mkMetrics q di ad se ex rp re ab mr ((fun at_ => now - at_) <$> oldest)).
End Closures.
End Outbox.
