(* ===== verification/OutboxStore.v ===== *)
(** * The encrypted file of the outbox and its public operations

    Reading and writing the store ([read_unlocked], [write_unlocked], the
    authenticated encryption of [key_management.rs]), [read] and [update], and
    every public operation of [CorporateOutbox] as a call on the disk.  The
    exclusive lock makes a call one step. *)

From S2P Require Import Prelude.
From S2P Require Import Interfaces.
From S2P Require Import Text.
From S2P Require Import Outbox.

Open Scope N_scope.
Import Outbox.

Module Store.

(** The bytes at the store's path, if the file exists. *)
Definition Disk := option bytes.

(** How the replacement of the file ends: done; failed before the rename, the
    old file stays; or failed after it (the directory sync), the new one is
    there and the caller gets the error. *)
Inductive WriteOutcome :=
  | Written
  | NotRenamed (e : string)
  | NotSynced (e : string).

(** What the operating system does in one call. *)
Record Io := mkIo {
  io_parent : option string;
  io_lock : option string;
  io_open : option string;
  io_salt : bytes;
  io_nonce : bytes;
  io_write : WriteOutcome
}.

(** The generator fills both arrays. *)
Definition io_ok (io : Io) : Prop :=
  length (io_salt io) = SALT_BYTES /\ length (io_nonce io) = NONCE_BYTES.

Definition Call (T : Type) := Io -> Disk -> Disk * result string T.

(** A failing system call, or the rest. *)
Definition try_io {T} (fault : option string) (k : Disk -> Disk * result string T) (disk : Disk) :
    Disk * result string T :=
  match fault with Some e => (disk, Err e) | None => k disk end.

Section Codec.
Context `{StoreCipher}.

Definition derive_secret_key (passphrase salt : bytes) : result string bytes :=
  scrypt passphrase salt.

Definition encrypt_authenticated (key nonce aad clear : bytes) : result string bytes :=
  x ← gcm_seal key nonce aad clear;
  Ok (x.1 ++ x.2).

Definition decrypt_authenticated (key nonce aad encrypted : bytes) : result string bytes :=
  if bool_decide (length encrypted < 16)%nat then Err "key-store authentication failed"
  else
    let n := (length encrypted - 16)%nat in
    gcm_open key nonce aad (take n encrypted) (drop n encrypted).
End Codec.

Section Files.
Context `{Sha256, StoreCipher, Serialize OutboxData, Deserialize OutboxData}.
Implicit Types (c : CorporateOutbox) (d : OutboxData).

Definition decode_store c (raw : bytes) : result string OutboxData :=
  if MAX_FILE_BYTES <? N.of_nat (length raw) then
    Err "corporate outbox file exceeds the safety limit"
  else if bool_decide (length raw < length MAGIC + SALT_BYTES + NONCE_BYTES + 16)%nat
          || negb (bool_decide (take (length MAGIC) raw = MAGIC)) then
    Err "corporate outbox header is invalid"
  else
    let salt_start := length MAGIC in
    let nonce_start := (salt_start + SALT_BYTES)%nat in
    let ciphertext_start := (nonce_start + NONCE_BYTES)%nat in
    key ← derive_secret_key (passphrase c) (slice salt_start nonce_start raw);
    let nonce := slice nonce_start ciphertext_start raw in
    clear ← map_err (fun _ => "corporate outbox authentication failed")
              (decrypt_authenticated key nonce AAD (drop ciphertext_start raw));
    data ← ok_or (from_slice clear) "corporate outbox payload is invalid";
    _ ← validate_data c data;
    Ok data.

Definition read_unlocked c (io : Io) (disk : Disk) : result string OutboxData :=
  match io_open io, disk with
  | Some e, _ => Err e
  | None, None => Err "No such file or directory (os error 2)"
  | None, Some raw => decode_store c raw
  end.

Definition encode_store c (io : Io) d : result string bytes :=
  _ ← validate_data c d;
  clear ← to_vec d;
  key ← derive_secret_key (passphrase c) (io_salt io);
  ciphertext ← encrypt_authenticated key (io_nonce io) AAD clear;
  let raw := MAGIC ++ io_salt io ++ io_nonce io ++ ciphertext in
  if MAX_FILE_BYTES <? N.of_nat (length raw) then
    Err "corporate outbox file exceeds the safety limit"
  else Ok raw.

Definition atomic_private_write (io : Io) (raw : bytes) (disk : Disk) : Disk * result string unit :=
  match io_write io with
  | Written => (Some raw, Ok tt)
  | NotRenamed e => (disk, Err e)
  | NotSynced e => (Some raw, Err e)
  end.

Definition write_unlocked c (io : Io) d (disk : Disk) : Disk * result string unit :=
  match encode_store c io d with
  | Err e => (disk, Err e)
  | Ok raw => atomic_private_write io raw disk
  end.

Definition initialize c : Call unit := fun io =>
  try_io (io_parent io) (try_io (io_lock io) (fun disk =>
    match disk with
    | Some _ => (disk, Err (path c +:+ " already exists"))
    | None => write_unlocked c io OutboxData_default disk
    end)).

Definition initialize_if_missing c : Call unit := fun io =>
  try_io (io_parent io) (try_io (io_lock io) (fun disk =>
    match disk with
    | Some _ => (disk, _ ← read_unlocked c io disk; Ok tt)
    | None => write_unlocked c io OutboxData_default disk
    end)).

Definition read {T} c (operation : OutboxData -> result string T) : Call T := fun io =>
  try_io (io_lock io) (fun disk => (disk, data ← read_unlocked c io disk; operation data)).

(** [update] up to the write. *)
Definition advance_data {T} c (operation : OutboxData -> result string (T * OutboxData)) d :
    result string (T * OutboxData) :=
  x ← operation d;
  g ← ok_or (checked_add (generation x.2) 1) "corporate outbox generation exhausted";
  let data := set_generation g x.2 in
  _ ← validate_data c data;
  Ok (x.1, data).

Definition update {T} c (operation : OutboxData -> result string (T * OutboxData)) : Call T :=
  fun io => try_io (io_lock io) (fun disk =>
    match (data ← read_unlocked c io disk; advance_data c operation data) with
    | Err e => (disk, Err e)
    | Ok (r, data) =>
        let (disk, w) := write_unlocked c io data disk in
        (disk, _ ← w; Ok r)
    end).

Definition checked {T} (pre : result string unit) (call : Call T) : Call T := fun io disk =>
  match pre with Err e => (disk, Err e) | Ok _ => call io disk end.

(** ** Public operations *)

Definition enqueue c id signed accepted expires : Call EnqueueOutcome :=
  checked (enqueue_pre c id signed accepted expires)
    (update c (enqueue_op c id signed accepted expires)).

Definition enqueue_first_seen c id signed first_seen expires : Call EnqueueOutcome :=
  checked (enqueue_pre c id signed first_seen expires)
    (update c (enqueue_first_seen_op c id signed first_seen expires)).

Definition claim_next c now quorum_healthy retry_after_seconds : Call (option QueueAction) :=
  update c (claim_next_op now quorum_healthy retry_after_seconds).

Definition claim_cover_slot c now quorum_healthy retry_after_seconds interval_seconds :
    Call (option CoverSlot) :=
  checked (claim_cover_slot_pre interval_seconds)
    (update c (claim_cover_slot_op now quorum_healthy retry_after_seconds interval_seconds)).

Definition record_mpc_admission c id digest admitted_at r : Call unit :=
  checked (record_mpc_admission_pre digest r)
    (update c (record_mpc_admission_op id digest admitted_at r)).

Definition record_settlement c id digest r : Call unit :=
  checked (validate_canonical_receipt r digest) (update c (record_settlement_op id digest r)).

Definition mark_release_pending c id digest requested_at : Call unit :=
  update c (mark_release_pending_op id digest requested_at).

Definition record_release c id digest r : Call unit :=
  checked (validate_canonical_receipt r digest) (update c (record_release_op id digest r)).

Definition record_pre_reserve_abort c id digest finalized : Call unit :=
  update c (record_pre_reserve_abort_op id digest finalized).

Definition get_signed_request c id digest : Call bytes := read c (signed_request_op id digest).

Definition mark_manual_review c id digest marked_at reason : Call unit :=
  checked (mark_manual_review_pre reason)
    (update c (mark_manual_review_op id digest marked_at reason)).

Definition prune_finalized c finalized_before : Call nat :=
  update c (prune_finalized_op finalized_before).

Definition summaries c : Call (list OutboxEntrySummary) := read c summaries_op.
Definition metrics c now : Call OutboxMetrics := read c (metrics_op now).

(** ** One call of the service *)

Inductive Command :=
  | Enqueue (id : string) (signed : bytes) (accepted expires : N)
  | EnqueueFirstSeen (id : string) (signed : bytes) (first_seen expires : N)
  | ClaimNext (now : N) (quorum_healthy : bool) (retry_after_seconds : N)
  | ClaimCoverSlot (now : N) (quorum_healthy : bool) (retry_after_seconds interval_seconds : N)
  | RecordMpcAdmission (id : string) (digest : bytes) (admitted_at : N) (r : MpcAdmissionReceipt)
  | RecordSettlement (id : string) (digest : bytes) (r : CanonicalReceipt)
  | MarkReleasePending (id : string) (digest : bytes) (requested_at : N)
  | RecordRelease (id : string) (digest : bytes) (r : CanonicalReceipt)
  | RecordPreReserveAbort (id : string) (digest : bytes) (finalized : N)
  | MarkManualReview (id : string) (digest : bytes) (marked_at : N) (reason : string)
  | PruneFinalized (finalized_before : N).

(** The reply of a call, with its type forgotten but for the outcome. *)
Definition outcome {T} (x : Disk * result string T) : Disk * result string unit :=
  (x.1, _ ← x.2; Ok tt).

Definition perform c (cmd : Command) (io : Io) (disk : Disk) : Disk * result string unit :=
  match cmd with
  | Enqueue id s a e => outcome (enqueue c id s a e io disk)
  | EnqueueFirstSeen id s a e => outcome (enqueue_first_seen c id s a e io disk)
  | ClaimNext n q r => outcome (claim_next c n q r io disk)
  | ClaimCoverSlot n q r i => outcome (claim_cover_slot c n q r i io disk)
  | RecordMpcAdmission id g t r => outcome (record_mpc_admission c id g t r io disk)
  | RecordSettlement id g r => outcome (record_settlement c id g r io disk)
  | MarkReleasePending id g t => outcome (mark_release_pending c id g t io disk)
  | RecordRelease id g r => outcome (record_release c id g r io disk)
  | RecordPreReserveAbort id g t => outcome (record_pre_reserve_abort c id g t io disk)
  | MarkManualReview id g t m => outcome (mark_manual_review c id g t m io disk)
  | PruneFinalized t => outcome (prune_finalized c t io disk)
  end.

(** Calls in order, each with its own faults. *)
Definition run c (calls : list (Command * Io)) (disk : Disk) : Disk :=
  foldl (fun disk call => (perform c call.1 call.2 disk).1) disk calls.
End Files.
End Store.
