(* ===== verification/OutboxTheorems.v ===== *)
(** * Correctness of the corporate outbox

    The stored file reads back, every call moves every request along the life
    cycle under the guards of the code whatever the disk does, a request stays
    durable until it is final, dispatch order, and a cover schedule that does
    not depend on the queue. *)

From S2P Require Import Prelude.
From S2P Require Import Interfaces.
From S2P Require Import Text.
From S2P Require Import Outbox.
From S2P Require Import OutboxStore.

(** ** Claiming from the outbox

    What the selection of the oldest entry and the dispatch loop compute, for
    data whose index is consistent ([validate_data] checks it): the loop ends,
    it retires entries whose attempts are used up, and it sends the oldest
    remaining one. *)

Open Scope N_scope.
Import Outbox.

(** ** Selection *)

Definition oldest_in (l : list OutboxEntry) (e : OutboxEntry) : Prop :=
  e ∈ l /\ forall x, x ∈ l -> sequence e <= sequence x.

Lemma min_step_spec l : forall acc,
  match foldl (fun best e =>
    match best with
    | None => Some e
    | Some b => if sequence e <? sequence b then Some e else Some b
    end) acc l with
  | None => acc = None /\ l = []
  | Some e => oldest_in (option_list acc ++ l) e
  end.
Proof.
  induction l as [|x l IH]; intros acc; cbn [foldl].
  - destruct acc as [b|]; [|done]. split; [set_solver|]. cbn.
    intros y Hy. apply list_elem_of_singleton in Hy as ->. lia.
  - specialize (IH (match acc with
      | None => Some x | Some b => if sequence x <? sequence b then Some x else Some b end)).
    destruct (foldl _ _ l) as [e|]; [|by destruct acc as [b|]; [destruct (sequence x <? sequence b)|]; destruct IH].
    destruct IH as [He Hmin]. destruct acc as [b|]; cbn in *; [|done].
    destruct (N.ltb_spec (sequence x) (sequence b)) as [Hlt|Hge]; cbn in *; split.
    + set_solver.
    + intros y [->|[->|Hy]%elem_of_cons]%elem_of_cons.
      * pose proof (Hmin x ltac:(set_solver)). lia.
      * apply Hmin. set_solver.
      * apply Hmin. set_solver.
    + set_solver.
    + intros y [->|[->|Hy]%elem_of_cons]%elem_of_cons.
      * apply Hmin. set_solver.
      * pose proof (Hmin b ltac:(set_solver)). lia.
      * apply Hmin. set_solver.
Qed.

Lemma min_by_sequence_some l e : min_by_sequence l = Some e -> oldest_in l e.
Proof. intros He. pose proof (min_step_spec l None) as Hs. unfold min_by_sequence in He. by rewrite He in Hs. Qed.

Lemma min_by_sequence_none l : min_by_sequence l = None -> l = [].
Proof. intros He. pose proof (min_step_spec l None) as Hs. unfold min_by_sequence in He. rewrite He in Hs. by destruct Hs. Qed.

Lemma values_elem d e : e ∈ values d <-> exists k, entries d !! k = Some e.
Proof.
  unfold values. rewrite list_elem_of_fmap. split.
  - intros ([k x] & -> & Hk). exists k. by apply btree_iter_elem.
  - intros [k Hk]. exists (k, e). split; [done|]. by apply btree_iter_elem.
Qed.

Lemma filter_elem {A} (p : A -> bool) l x : x ∈ List.filter p l <-> x ∈ l /\ p x = true.
Proof. rewrite !list_elem_of_In. apply filter_In. Qed.

(** The index is consistent. *)
Definition keyed (d : OutboxData) : Prop :=
  forall k e, entries d !! k = Some e -> request_id e = k.

(** [e] is the entry of least sequence among those that satisfy [p]. *)
Definition oldest (p : OutboxEntry -> bool) (d : OutboxData) (e : OutboxEntry) : Prop :=
  entries d !! request_id e = Some e /\ p e = true
  /\ forall k x, entries d !! k = Some x -> p x = true -> sequence e <= sequence x.

Lemma oldest_where_some p d e : keyed d -> oldest_where p d = Some e -> oldest p d e.
Proof.
  intros Hk He. apply min_by_sequence_some in He as [He Hmin].
  apply filter_elem in He as [He Hp]. apply values_elem in He as [k He].
  split; [by rewrite (Hk k e He)|]. split; [done|]. intros k' x Hx Hpx.
  apply Hmin, filter_elem. split; [apply values_elem; eauto | done].
Qed.

Lemma oldest_where_none p d :
  oldest_where p d = None -> forall k e, entries d !! k = Some e -> p e = false.
Proof.
  intros Hn k e He. apply min_by_sequence_none in Hn.
  destruct (p e) eqn:Hp; [|done].
  assert (e ∈ List.filter p (values d)) as Hin.
  { apply filter_elem. split; [apply values_elem; eauto | done]. }
  rewrite Hn in Hin. by apply not_elem_of_nil in Hin.
Qed.

Lemma put_state_lookup id s d k :
  entries (put_state id s d) !! k
  = if decide (k = id) then set_state s <$> entries d !! k else entries d !! k.
Proof.
  cbn. destruct (decide (k = id)) as [->|Hne].
  - by rewrite lookup_alter_eq.
  - by rewrite lookup_alter_ne.
Qed.

Lemma put_state_keyed id s d : keyed d -> keyed (put_state id s d).
Proof.
  intros Hk k e He. rewrite put_state_lookup in He. case_decide as Hd; [|by apply Hk].
  destruct (entries d !! k) as [x|] eqn:Hx; [|done]. injection He as <-. cbn. by apply Hk.
Qed.

(** ** The dispatch loop *)

(** Entries out of attempts were moved to manual review; nothing else changed. *)
Definition retired_entry (now : N) (o o' : option OutboxEntry) : Prop :=
  o' = o \/ exists e a t, o = Some e /\ state e = Dispatching a t
    /\ MAX_AUTOMATIC_DISPATCH_ATTEMPTS <= a
    /\ o' = Some (set_state (ManualReview now RETRY_LIMIT) e).

Record retired (now : N) (d d' : OutboxData) : Prop := {
  retired_entries k : retired_entry now (entries d !! k) (entries d' !! k);
  retired_cover : next_cover_slot d' = next_cover_slot d /\ next_cover_due_at d' = next_cover_due_at d;
  retired_counters : version d' = version d /\ generation d' = generation d
    /\ next_sequence d' = next_sequence d
}.

Lemma retired_refl now d : retired now d d.
Proof. split; try done. intros k. by left. Qed.

Lemma retired_put now d e a t :
  entries d !! request_id e = Some e -> state e = Dispatching a t ->
  MAX_AUTOMATIC_DISPATCH_ATTEMPTS <= a ->
  retired now d (put_state (request_id e) (ManualReview now RETRY_LIMIT) d).
Proof.
  intros He Hs Ha. split; try done. intros k. rewrite put_state_lookup.
  case_decide as Hd; [subst k; right | by left]. rewrite He. exists e, a, t. done.
Qed.

Lemma retired_trans now d1 d2 d3 : retired now d1 d2 -> retired now d2 d3 -> retired now d1 d3.
Proof.
  intros [H12 [? ?] (? & ? & ?)] [H23 [? ?] (? & ? & ?)]. split; [|split; congruence | split_and!; congruence].
  intros k. specialize (H12 k). specialize (H23 k).
  destruct H12 as [E|(e & a & t & E0 & Hs & Ha & E)]; [by rewrite <- E|].
  destruct H23 as [E'|(e' & a' & t' & E' & Hs' & _)].
  - right. exists e, a, t. by rewrite E'.
  - rewrite E in E'. injection E' as <-. done.
Qed.

(** A dispatchable entry after retirements was there before. *)
Lemma retired_dispatchable now d d' k e :
  retired now d d' -> entries d' !! k = Some e -> dispatchable (state e) = true ->
  entries d !! k = Some e.
Proof.
  intros Hr He Hd. destruct (retired_entries _ _ _ Hr k) as [E|(x & a & t & _ & _ & _ & E)].
  - by rewrite <- E.
  - rewrite E in He. injection He as <-. done.
Qed.

Definition count_dispatchable (d : OutboxData) : N :=
  map_sum (fun _ e => if dispatchable (state e) then 1 else 0) (entries d).

Lemma map_sum_size {V} (f : string -> V -> N) (m : gmap string V) :
  (forall k v, f k v <= 1) -> map_sum f m <= N.of_nat (size m).
Proof.
  intros Hf. induction m as [|k v m Hk IH] using map_ind.
  - rewrite map_sum_empty. lia.
  - rewrite map_sum_insert_fresh, map_size_insert_None by done. specialize (Hf k v). lia.
Qed.

Lemma count_dispatchable_size d : count_dispatchable d <= N.of_nat (size (entries d)).
Proof. apply map_sum_size. intros k e. destruct (dispatchable (state e)); lia. Qed.

Lemma alter_insert {V} (f : V -> V) (m : gmap string V) k v :
  m !! k = Some v -> alter f k m = <[k := f v]> m.
Proof. intros Hk. apply map_eq. intros j. destruct (decide (j = k)) as [->|Hn].
  - by rewrite lookup_alter_eq, lookup_insert_eq, Hk.
  - by rewrite lookup_alter_ne, lookup_insert_ne.
Qed.

Lemma count_retire now d e :
  entries d !! request_id e = Some e -> dispatchable (state e) = true ->
  count_dispatchable (put_state (request_id e) (ManualReview now RETRY_LIMIT) d) + 1
  = count_dispatchable d.
Proof.
  intros He Hd. unfold count_dispatchable. cbn.
  rewrite (alter_insert _ _ _ e) by done.
  pose proof (map_sum_insert (fun _ x => if dispatchable (state x) then 1 else 0)
    (entries d) (request_id e) (set_state (ManualReview now RETRY_LIMIT) e) e He) as Hs.
  cbn in Hs. rewrite Hd in Hs. lia.
Qed.

Lemma dispatch_round_continue now r d d' :
  keyed d -> dispatch_round now r d = Continue d' ->
  exists e a t, entries d !! request_id e = Some e /\ state e = Dispatching a t
    /\ MAX_AUTOMATIC_DISPATCH_ATTEMPTS <= a
    /\ d' = put_state (request_id e) (ManualReview now RETRY_LIMIT) d.
Proof.
  intros Hk Hr. unfold dispatch_round in Hr.
  destruct (oldest_where _ d) as [e|] eqn:Ho; [|done].
  apply oldest_where_some in Ho as (He & Hd & _); [|done]. rewrite He in Hr.
  destruct (state e) as [|a t| | | | | | |] eqn:Hs; try done.
  destruct (N.leb_spec MAX_AUTOMATIC_DISPATCH_ATTEMPTS a) as [Ha|Ha].
  - injection Hr as <-. eauto 10.
  - destruct (_ <? _); [done|]. by destruct (_ <=? _).
Qed.

(** With one unit of fuel more than dispatchable entries the loop leaves. *)
Lemma dispatch_loop_leaves fuel now r : forall d,
  keyed d -> count_dispatchable d < N.of_nat fuel ->
  exists d', keyed d' /\ retired now d d'
    /\ dispatch_round now r d' = Leave (dispatch_loop fuel now r d).
Proof.
  induction fuel as [|fuel IH]; intros d Hk Hf; [lia|]. cbn [dispatch_loop].
  destruct (dispatch_round now r d) as [x|d'] eqn:Hr.
  - exists d. split_and!; [done | apply retired_refl | done].
  - apply dispatch_round_continue in Hr as (e & a & t & He & Hs & Ha & ->); [|done].
    assert (dispatchable (state e) = true) as Hd by by rewrite Hs.
    pose proof (count_retire now d e He Hd) as Hc.
    destruct (IH (put_state (request_id e) (ManualReview now RETRY_LIMIT) d)) as (d2 & Hk2 & Hr2 & E);
      [by apply put_state_keyed | lia |].
    exists d2. split_and!; [done | | done].
    eapply retired_trans; [by eapply retired_put | done].
Qed.

(** ** A claim *)

(** The next attempt of a dispatchable entry whose waiting time is over. *)
Definition next_attempt (now retry : N) (s : OutboxState) : option N :=
  match s with
  | Queued => Some 1
  | Dispatching a t =>
      if (a <? MAX_AUTOMATIC_DISPATCH_ATTEMPTS) && (saturating_add t (retry_delay a retry) <=? now)
      then Some (a + 1) else None
  | _ => None
  end.

(** Dispatchable with attempts left. *)
Definition sendable (s : OutboxState) : bool :=
  match s with
  | Queued => true
  | Dispatching a _ => a <? MAX_AUTOMATIC_DISPATCH_ATTEMPTS
  | _ => false
  end.

(** The three things a dispatch loop can end with, over the data [d'] left by
    the retirements: nothing to send, the oldest entry waits, or it is sent. *)
Inductive dispatched (now retry : N) (d' : OutboxData) : option QueueAction -> OutboxData -> Prop :=
  | dispatched_empty :
      (forall k e, entries d' !! k = Some e -> dispatchable (state e) = false) ->
      dispatched now retry d' None d'
  | dispatched_waits e :
      oldest (fun e => dispatchable (state e)) d' e -> sendable (state e) = true ->
      next_attempt now retry (state e) = None ->
      dispatched now retry d' None d'
  | dispatched_sent e n :
      oldest (fun e => dispatchable (state e)) d' e -> sendable (state e) = true ->
      next_attempt now retry (state e) = Some n -> n <= MAX_AUTOMATIC_DISPATCH_ATTEMPTS ->
      dispatched now retry d' (Some (Dispatch (claimed e n)))
        (put_state (request_id e) (Dispatching n now) d').

Lemma dispatch_round_leaves now r d x :
  keyed d -> dispatch_round now r d = Leave x ->
  exists act d2, x = Ok (act, d2) /\ dispatched now r d act d2.
Proof.
  intros Hk Hr. unfold dispatch_round in Hr.
  destruct (oldest_where _ d) as [e|] eqn:Ho.
  2: { injection Hr as <-. eexists _, _. split; [done|]. apply dispatched_empty.
       apply (oldest_where_none _ _ Ho). }
  apply oldest_where_some in Ho; [|done]. pose proof Ho as (He & Hd & _). rewrite He in Hr.
  pose proof (dispatched_waits now r d e Ho) as Hw.
  pose proof (fun n => dispatched_sent now r d e n Ho) as Hsend.
  destruct (state e) as [|a t| | | | | | |] eqn:Hs; try done; cbn [next_attempt sendable] in *.
  - injection Hr as <-. eexists _, _. split; [done|]. by apply Hsend.
  - destruct (N.leb_spec MAX_AUTOMATIC_DISPATCH_ATTEMPTS a) as [Ha|Ha]; [done|].
    rewrite (proj2 (N.ltb_lt _ _) Ha) in *. cbn [andb] in *.
    destruct (N.ltb_spec now (saturating_add t (retry_delay a r))) as [Hlt|Hge].
    + injection Hr as <-. eexists _, _. split; [done|]. apply Hw; [done|].
      by rewrite (proj2 (N.leb_gt _ _)).
    + rewrite (proj2 (N.leb_le (a + 1) U32_MAX)) in Hr
        by (unfold U32_MAX, MAX_AUTOMATIC_DISPATCH_ATTEMPTS in *; lia).
      injection Hr as <-. eexists _, _. split; [done|]. apply Hsend; [done | by rewrite (proj2 (N.leb_le _ _)) | lia].
Qed.

Definition release_due (e : OutboxEntry) : bool := awaits_release (state e).
Definition expiry_due (now : N) (e : OutboxEntry) : bool :=
  (expires_at e <=? now) && may_expire (state e).

(** The outcome of a claim on data with a consistent index. *)
Inductive claim_spec (now retry : N) (healthy : bool) (d : OutboxData) :
    option QueueAction -> OutboxData -> Prop :=
  | claim_release e :
      oldest release_due d e ->
      claim_spec now retry healthy d (Some (Expire (request_id e) (request_digest e))) d
  | claim_expire e :
      (forall k x, entries d !! k = Some x -> release_due x = false) ->
      oldest (expiry_due now) d e ->
      claim_spec now retry healthy d (Some (Expire (request_id e) (request_digest e)))
        (put_state (request_id e) (Expired now) d)
  | claim_down :
      (forall k x, entries d !! k = Some x -> release_due x = false /\ expiry_due now x = false) ->
      healthy = false -> claim_spec now retry healthy d None d
  | claim_dispatch d' act d2 :
      (forall k x, entries d !! k = Some x -> release_due x = false /\ expiry_due now x = false) ->
      healthy = true -> keyed d' -> retired now d d' -> dispatched now retry d' act d2 ->
      claim_spec now retry healthy d act d2.

(** A claim never fails: it has an outcome of the specification. *)
Lemma claim_oldest_spec now retry healthy d :
  keyed d -> exists act d', claim_oldest now retry healthy d = Ok (act, d')
    /\ claim_spec now retry healthy d act d'.
Proof.
  intros Hk. unfold claim_oldest.
  destruct (oldest_where _ d) as [e|] eqn:Hr.
  { apply oldest_where_some in Hr; [|done]. eexists _, _. split; [done|]. by apply claim_release. }
  pose proof (oldest_where_none _ _ Hr) as Hnr. clear Hr. cbn beta in Hnr.
  destruct (oldest_where _ d) as [e|] eqn:Hx.
  { apply oldest_where_some in Hx; [|done]. pose proof Hx as (He & _). rewrite He. cbn.
    eexists _, _. split; [done|]. by apply claim_expire. }
  pose proof (oldest_where_none _ _ Hx) as Hnx. clear Hx. cbn beta in Hnx.
  assert (forall k x, entries d !! k = Some x -> release_due x = false /\ expiry_due now x = false)
    as Hn by (intros k x Hkx; split; [apply (Hnr k x Hkx) | apply (Hnx k x Hkx)]).
  destruct healthy; cbn [negb].
  - destruct (dispatch_loop_leaves (S (size (entries d))) now retry d Hk) as (d' & Hk' & Hret & Hround).
    { pose proof (count_dispatchable_size d). lia. }
    destruct (dispatch_round_leaves _ _ _ _ Hk' Hround) as (act & d2 & -> & Hdisp).
    eexists _, _. split; [done|]. by eapply claim_dispatch.
  - eexists _, _. split; [done|]. by apply claim_down.
Qed.

(** ** Order *)

Lemma sendable_dispatchable s : sendable s = true -> dispatchable s = true.
Proof. by destruct s. Qed.

Lemma retired_sendable now d d' k e :
  retired now d d' -> entries d !! k = Some e -> sendable (state e) = true ->
  entries d' !! k = Some e.
Proof.
  intros Hr He Hd. destruct (retired_entries _ _ _ Hr k) as [E|(x & a & t & E & Hs & Ha & _)].
  - by rewrite E.
  - rewrite E in He. injection He as <-. rewrite Hs in Hd. cbn in Hd. apply N.ltb_lt in Hd. lia.
Qed.

(** The oldest dispatchable entry after the retirements, when it has attempts
    left, is the oldest sendable entry before them. *)
Lemma oldest_sendable now d d' e :
  retired now d d' -> oldest (fun e => dispatchable (state e)) d' e -> sendable (state e) = true ->
  oldest (fun e => sendable (state e)) d e.
Proof.
  intros Hr (He & Hd & Hmin) Hs. split; [by eapply retired_dispatchable|]. split; [done|].
  intros k x Hx Hsx. apply (Hmin k); [by eapply retired_sendable | by apply sendable_dispatchable].
Qed.

Lemma claim_keeps_cover now retry healthy d act d' :
  claim_spec now retry healthy d act d' ->
  next_cover_slot d' = next_cover_slot d /\ next_cover_due_at d' = next_cover_due_at d.
Proof.
  intros Hc. destruct Hc as [| | |d1 act d2 _ _ _ Hret Hdisp]; try done.
  destruct (retired_cover _ _ _ Hret). by destruct Hdisp.
Qed.

Lemma claim_unhealthy now retry d act d' :
  claim_spec now retry false d act d' -> forall r, act <> Some (Dispatch r).
Proof. intros Hc r. by destruct Hc. Qed.

Open Scope N_scope.
Import Outbox Store.

(** ** The life cycle *)

(** A claim command: its clock, the health of the quorum and the retry delay. *)
Definition claims (cmd : Command) : option (N * bool * N) :=
  match cmd with
  | ClaimNext now healthy retry => Some (now, healthy, retry)
  | ClaimCoverSlot now healthy retry _ => Some (now, healthy, retry)
  | _ => None
  end.

(** The state [s] that a command may give the entry [e] of key [k]. *)
Inductive edge (cmd : Command) (k : string) (e : OutboxEntry) : OutboxState -> Prop :=
  | edge_dispatch now retry n :
      claims cmd = Some (now, true, retry) -> now < expires_at e ->
      next_attempt now retry (state e) = Some n -> n <= MAX_AUTOMATIC_DISPATCH_ATTEMPTS ->
      edge cmd k e (Dispatching n now)
  | edge_retire now retry a t :
      claims cmd = Some (now, true, retry) -> state e = Dispatching a t ->
      MAX_AUTOMATIC_DISPATCH_ATTEMPTS <= a ->
      edge cmd k e (ManualReview now RETRY_LIMIT)
  | edge_expire now healthy retry :
      claims cmd = Some (now, healthy, retry) -> expires_at e <= now ->
      may_expire (state e) = true -> edge cmd k e (Expired now)
  | edge_admit at_ r a t :
      cmd = RecordMpcAdmission k (request_digest e) at_ r -> state e = Dispatching a t ->
      admitted_request_digest r = request_digest e -> edge cmd k e (MpcAdmitted a at_ r)
  | edge_settle r :
      cmd = RecordSettlement k (request_digest e) r ->
      receipt_request_digest r = request_digest e ->
      match state e with Dispatching _ _ | MpcAdmitted _ _ _ => True | _ => False end ->
      edge cmd k e (Settled r)
  | edge_release_pending at_ :
      cmd = MarkReleasePending k (request_digest e) at_ ->
      match state e with Expired _ | ManualReview _ _ => True | _ => False end ->
      edge cmd k e (ReleasePending at_)
  | edge_release r :
      cmd = RecordRelease k (request_digest e) r ->
      receipt_request_digest r = request_digest e -> finalized_at (state e) = None ->
      edge cmd k e (Released r)
  | edge_abort at_ :
      cmd = RecordPreReserveAbort k (request_digest e) at_ ->
      may_expire (state e) || awaits_release (state e) = true ->
      edge cmd k e (AbortedBeforeReserve at_)
  | edge_review at_ reason :
      cmd = MarkManualReview k (request_digest e) at_ reason -> finalized_at (state e) = None ->
      edge cmd k e (ManualReview at_ reason).

Section Effects.
Context `{Sha256}.

(** What a command may do to the entry of one key. *)
Inductive moves (cmd : Command) (k : string) : option OutboxEntry -> option OutboxEntry -> Prop :=
  | moves_same o : moves cmd k o o
  | moves_accept seq signed accepted expires :
      cmd = Enqueue k signed accepted expires \/ cmd = EnqueueFirstSeen k signed accepted expires ->
      moves cmd k None (Some (mkEntry k seq accepted expires (sha256 signed) signed Queued))
  | moves_state e s : edge cmd k e s -> moves cmd k (Some e) (Some (set_state s e))
  | moves_prune e before at_ :
      cmd = PruneFinalized before -> finalized_at (state e) = Some at_ -> at_ < before ->
      moves cmd k (Some e) None.

(** The closure of a command and the check before it. *)
Definition command_step (c : CorporateOutbox) (cmd : Command) (d d0 : OutboxData) : Prop :=
  match cmd with
  | Enqueue id s a e => exists o, enqueue_op c id s a e d = Ok (o, d0)
  | EnqueueFirstSeen id s a e => exists o, enqueue_first_seen_op c id s a e d = Ok (o, d0)
  | ClaimNext n q r => exists o, claim_next_op n q r d = Ok (o, d0)
  | ClaimCoverSlot n q r i => exists o, claim_cover_slot_op n q r i d = Ok (o, d0)
  | RecordMpcAdmission id g t r =>
      record_mpc_admission_pre g r = Ok tt /\ exists o, record_mpc_admission_op id g t r d = Ok (o, d0)
  | RecordSettlement id g r =>
      validate_canonical_receipt r g = Ok tt /\ exists o, record_settlement_op id g r d = Ok (o, d0)
  | MarkReleasePending id g t => exists o, mark_release_pending_op id g t d = Ok (o, d0)
  | RecordRelease id g r =>
      validate_canonical_receipt r g = Ok tt /\ exists o, record_release_op id g r d = Ok (o, d0)
  | RecordPreReserveAbort id g t => exists o, record_pre_reserve_abort_op id g t d = Ok (o, d0)
  | MarkManualReview id g t m => exists o, mark_manual_review_op id g t m d = Ok (o, d0)
  | PruneFinalized t => exists o, prune_finalized_op t d = Ok (o, d0)
  end.

Definition moves_all (cmd : Command) (d d0 : OutboxData) : Prop :=
  forall k, moves cmd k (entries d !! k) (entries d0 !! k).

Lemma moves_all_same cmd d d0 : entries d0 = entries d -> moves_all cmd d d0.
Proof. intros E k. rewrite E. apply moves_same. Qed.

(** Changing the state of one entry moves that entry. *)
Lemma moves_put cmd id s e d0 d :
  entries d !! id = Some e -> edge cmd id e s -> entries d0 = entries (put_state id s d) ->
  moves_all cmd d d0.
Proof.
  intros He Hedge E k. rewrite E, put_state_lookup. case_decide as Hk; [subst k | apply moves_same].
  rewrite He. by apply moves_state.
Qed.

Lemma matching_entry_ok d id g e :
  matching_entry d id g = Ok e -> entries d !! id = Some e /\ request_digest e = g.
Proof. unfold matching_entry. intros Hm. ok_inv. bool_inv. by subst. Qed.

Lemma canonical_receipt_bound r g :
  validate_canonical_receipt r g = Ok tt -> receipt_request_digest r = g.
Proof. unfold validate_canonical_receipt. intros Hv. ok_inv. by bool_inv. Qed.

Lemma admission_pre_bound g r :
  record_mpc_admission_pre g r = Ok tt -> admitted_request_digest r = g.
Proof. unfold record_mpc_admission_pre. intros Hv. ok_inv. by bool_inv. Qed.

Lemma enqueue_with_moves c same id s a x d o d0 cmd :
  cmd = Enqueue id s a x \/ cmd = EnqueueFirstSeen id s a x ->
  enqueue_with c same id s a x d = Ok (o, d0) -> moves_all cmd d d0.
Proof.
  intros Hcmd Hop. unfold enqueue_with in Hop. destruct (entries d !! id) as [e|] eqn:He.
  - destruct (same e); [|done]. injection Hop as _ <-. by apply moves_all_same.
  - ok_inv. subst. intros k. cbn. destruct (decide (k = id)) as [->|Hk].
    + rewrite He, lookup_insert_eq. by apply moves_accept.
    + rewrite lookup_insert_ne by done. apply moves_same.
Qed.

(** An entry that is due neither for release nor for expiry and can be
    dispatched has not expired. *)
Lemma dispatchable_unexpired now e :
  expiry_due now e = false -> dispatchable (state e) = true -> now < expires_at e.
Proof.
  unfold expiry_due. intros Hx Hd. apply andb_false_iff in Hx as [Hx|Hx].
  - by apply N.leb_gt.
  - by destruct (state e).
Qed.

Lemma dispatchable_next now retry s n : next_attempt now retry s = Some n -> dispatchable s = true.
Proof. by destruct s. Qed.

Lemma claim_moves cmd now healthy retry d act d' :
  claims cmd = Some (now, healthy, retry) -> claim_spec now retry healthy d act d' ->
  moves_all cmd d d'.
Proof.
  intros Hcmd Hc. destruct Hc as [e _|e _ (He & Hx & _)|_ _|d1 act d2 Hn -> Hk1 Hret Hdisp].
  - by apply moves_all_same.
  - apply andb_true_iff in Hx as [Hx Hs]. apply N.leb_le in Hx.
    eapply moves_put; [exact He | | done]. by eapply edge_expire.
  - by apply moves_all_same.
  - assert (forall k, moves cmd k (entries d !! k) (entries d1 !! k)) as H1.
    { intros k. destruct (retired_entries _ _ _ Hret k) as [->|(e & a & t & -> & Hs & Ha & ->)].
      - apply moves_same.
      - apply moves_state. by eapply edge_retire. }
    destruct Hdisp as [_|e _ _ _|e n (He & Hd & _) _ Hnext Hle]; [exact H1 | exact H1 |].
    intros k. rewrite put_state_lookup. case_decide as Hk; [subst k | apply H1].
    rewrite He. pose proof (retired_dispatchable _ _ _ _ _ Hret He Hd) as He0. rewrite He0.
    apply moves_state. eapply edge_dispatch; try done.
    apply dispatchable_unexpired; [by eapply Hn | done].
Qed.

Lemma cover_moves cmd now healthy retry interval d o d0 :
  claims cmd = Some (now, healthy, retry) -> keyed d ->
  claim_cover_slot_op now healthy retry interval d = Ok (o, d0) -> moves_all cmd d d0.
Proof.
  intros Hcmd Hk Hop. unfold claim_cover_slot_op in Hop.
  destruct (now <? _); [injection Hop as _ <-; by apply moves_all_same|]. ok_inv. subst.
  match goal with Hc : claim_oldest _ _ _ ?d1 = Ok ?x |- _ =>
    destruct (claim_oldest_spec now retry healthy d1) as (act & d2 & E & Hspec); [exact Hk|];
    rewrite E in Hc; injection Hc as <-; exact (claim_moves cmd now healthy retry d1 act d2 Hcmd Hspec)
  end.
Qed.

(** Close a single-entry operation: it changed nothing, was refused, or put
    the state of the edge. *)
Ltac entry_op edge_tac :=
  lazymatch goal with
  | Hop : _ = Ok (_, ?d0) |- moves_all _ _ ?d0 =>
      apply bind_ok in Hop as (e & He & Hop); apply matching_entry_ok in He as [He <-];
      destruct (state e) eqn:Hst; try discriminate Hop;
      repeat match type of Hop with (if ?b then _ else _) = _ => destruct b; try discriminate Hop end;
      injection Hop as _ <-;
      first [ by apply moves_all_same | eapply moves_put; [exact He | edge_tac | done] ]
  end.

Lemma command_moves c cmd d d0 : keyed d -> command_step c cmd d d0 -> moves_all cmd d d0.
Proof.
  intros Hk. destruct cmd; cbn [command_step].
  - intros [o Hop]. unfold enqueue_op in Hop. eapply enqueue_with_moves; [|exact Hop]. auto.
  - intros [o Hop]. unfold enqueue_first_seen_op in Hop. eapply enqueue_with_moves; [|exact Hop]. auto.
  - intros [o Hop]. unfold claim_next_op in Hop.
    destruct (claim_oldest_spec now retry_after_seconds quorum_healthy d Hk) as (act & d' & E & Hs).
    rewrite E in Hop. injection Hop as _ <-. by eapply claim_moves.
  - intros [o Hop]. by eapply cover_moves.
  - intros [Hpre%admission_pre_bound [o Hop]]. unfold record_mpc_admission_op in Hop.
    entry_op ltac:(by eapply edge_admit).
  - intros [Hpre%canonical_receipt_bound [o Hop]]. unfold record_settlement_op in Hop.
    entry_op ltac:(apply edge_settle; [done | done | by rewrite Hst]).
  - intros [o Hop]. unfold mark_release_pending_op in Hop.
    entry_op ltac:(apply edge_release_pending; [done | by rewrite Hst]).
  - intros [Hpre%canonical_receipt_bound [o Hop]]. unfold record_release_op in Hop.
    entry_op ltac:(apply edge_release; [done | done | by rewrite Hst]).
  - intros [o Hop]. unfold record_pre_reserve_abort_op in Hop.
    entry_op ltac:(apply edge_abort; [done | by rewrite Hst]).
  - intros [o Hop]. unfold mark_manual_review_op in Hop.
    entry_op ltac:(apply edge_review; [done | by rewrite Hst]).
  - intros [o Hop]. unfold prune_finalized_op in Hop. injection Hop as _ <-. intros k. cbn.
    rewrite map_lookup_filter. destruct (entries d !! k) as [e|] eqn:He; cbn; [|apply moves_same].
    destruct (decide (prunable finalized_before e = false)) as [Hp|Hp].
    + rewrite option_guard_True by done. apply moves_same.
    + rewrite option_guard_False by done. unfold prunable in Hp.
      destruct (finalized_at (state e)) as [at_|] eqn:Hf; [|done].
      eapply moves_prune; [done | exact Hf |]. apply N.ltb_lt.
      by destruct (at_ <? finalized_before).
Qed.
End Effects.

(** ** The file *)

Section Durable.
Context `{Sha256, StoreCipher, Serialize OutboxData, Deserialize OutboxData}.
Context `{!StoreCipherLaws, !SerdeLaws OutboxData}.

Lemma decrypt_encrypt key nonce aad clear raw :
  encrypt_authenticated key nonce aad clear = Ok raw ->
  (16 <= length raw)%nat /\ decrypt_authenticated key nonce aad raw = Ok clear.
Proof.
  unfold encrypt_authenticated, decrypt_authenticated. intros He. ok_inv.
  match goal with Hs : gcm_seal _ _ _ _ = Ok ?x |- _ => destruct x as [ct tag]; rename Hs into Hseal end.
  cbn [fst snd] in *. subst raw.
  pose proof (gcm_tag_length _ _ _ _ _ _ Hseal) as Htag. rewrite length_app, Htag.
  split; [lia|]. rewrite bool_decide_eq_false_2 by lia.
  replace (length ct + 16 - 16)%nat with (length ct) by lia.
  rewrite take_app_length, drop_app_length. by eapply gcm_open_seal.
Qed.

(** What [write_unlocked] stores, [read_unlocked] returns. *)
Lemma decode_store_encode c io d raw :
  io_ok io -> encode_store c io d = Ok raw -> decode_store c raw = Ok d.
Proof.
  intros [Hsalt Hnonce] Hraw. unfold encode_store in Hraw.
  apply bind_ok in Hraw as ([] & Hval & Hraw). apply bind_ok in Hraw as (clear & Hclear & Hraw).
  apply bind_ok in Hraw as (key & Hkey & Hraw). apply bind_ok in Hraw as (ct & Hct & Hraw).
  apply decrypt_encrypt in Hct as [Hlen Hdec]. apply if_err_ok in Hraw as [Hsize Hraw].
  apply Ok_inj in Hraw as <-. unfold decode_store. rewrite Hsize.
  rewrite bool_decide_eq_false_2 by (rewrite !length_app, Hsalt, Hnonce; lia).
  rewrite take_app_length, bool_decide_eq_true_2 by done. cbn [negb orb].
  rewrite (slice_mid (length MAGIC) (length MAGIC + SALT_BYTES) MAGIC (io_salt io))
    by (rewrite ?Hsalt; done).
  rewrite Hkey. cbn [mbind result_bind].
  rewrite (app_assoc MAGIC), (slice_mid _ _ (MAGIC ++ io_salt io) (io_nonce io))
    by (rewrite ?length_app, ?Hsalt, ?Hnonce; done).
  rewrite (app_assoc _ (io_nonce io)), drop_app_length' by (rewrite !length_app, Hsalt, Hnonce; done).
  rewrite Hdec. cbn [map_err mbind result_bind]. rewrite (from_slice_to_vec _ _ Hclear). cbn.
  by rewrite Hval.
Qed.

Lemma decode_valid c raw d : decode_store c raw = Ok d -> validate_data c d = Ok tt.
Proof.
  unfold decode_store. intros Hd. apply if_err_ok in Hd as [_ Hd]. apply if_err_ok in Hd as [_ Hd].
  apply bind_ok in Hd as (key & _ & Hd). apply bind_ok in Hd as (clear & _ & Hd).
  apply bind_ok in Hd as (x & _ & Hd). apply bind_ok in Hd as ([] & Hv & Hd). by injection Hd as ->.
Qed.

Lemma valid_keyed c d : validate_data c d = Ok tt -> keyed d.
Proof.
  unfold validate_data. intros Hv. do 3 apply if_err_ok in Hv as [_ Hv].
  apply for_each_ok in Hv. rewrite Forall_forall in Hv. intros k e He.
  specialize (Hv (k, e) (proj2 (btree_iter_elem _ _ _) He)). unfold validate_entry in Hv.
  apply bind_ok in Hv as (_ & _ & Hv). apply if_err_ok in Hv as [Hk _]. bool_inv.
  symmetry. by apply String.eqb_eq.
Qed.

(** One update on a readable file: the file stays as it was and the caller gets
    an error, or it holds the new data and the caller gets the reply (or, when
    only the directory sync failed, an error). *)
Lemma update_effect {T} c (op : OutboxData -> result string (T * OutboxData)) io raw d :
  io_ok io -> decode_store c raw = Ok d ->
  ((update c op io (Some raw)).1 = Some raw /\ exists e, (update c op io (Some raw)).2 = Err e)
  \/ exists raw' r d0 g, (update c op io (Some raw)).1 = Some raw'
      /\ op d = Ok (r, d0) /\ decode_store c raw' = Ok (set_generation g d0)
      /\ ((update c op io (Some raw)).2 = Ok r \/ exists e, io_write io = NotSynced e).
Proof.
  intros Hio Hd. unfold update, try_io. destruct (io_lock io) as [e|]; [left; eauto|].
  unfold read_unlocked. destruct (io_open io) as [e|]; [left; cbn; eauto|].
  rewrite Hd. cbn [mbind result_bind].
  destruct (advance_data c op d) as [[r d1]|e] eqn:Ha; [|left; cbn; eauto].
  unfold advance_data in Ha. apply bind_ok in Ha as ([r' d0] & Hop & Ha).
  apply bind_ok in Ha as (g & _ & Ha). apply bind_ok in Ha as ([] & _ & Ha).
  cbn [fst snd] in Ha. injection Ha as -> <-.
  unfold write_unlocked. destruct (encode_store c io (set_generation g d0)) as [raw'|e] eqn:He;
    [|left; cbn; eauto].
  apply decode_store_encode in He; [|done]. unfold atomic_private_write.
  destruct (io_write io) as [|e|e]; cbn; [right; eauto 10 | left; eauto | right; eauto 12].
Qed.

Lemma outcome_effect {T} c cmd (pre : result string unit)
    (op : OutboxData -> result string (T * OutboxData)) io raw d :
  io_ok io -> decode_store c raw = Ok d ->
  (forall r d0, pre = Ok tt -> op d = Ok (r, d0) -> command_step c cmd d d0) ->
  let x := outcome (checked pre (update c op) io (Some raw)) in
  (x.1 = Some raw /\ exists e, x.2 = Err e)
  \/ exists raw' d0 g, x.1 = Some raw' /\ command_step c cmd d d0
      /\ decode_store c raw' = Ok (set_generation g d0)
      /\ (x.2 = Ok tt \/ exists e, io_write io = NotSynced e).
Proof.
  intros Hio Hd Hstep. unfold checked, outcome.
  destruct pre as [[]|e]; [|left; cbn; eauto].
  destruct (update_effect c op io raw d Hio Hd) as [[-> [e ->]]|(raw' & r & d0 & g & -> & Hop & Hdec & Hr)].
  - left. cbn. eauto.
  - right. exists raw', d0, g. split_and!; [done | by eapply Hstep | done |].
    destruct Hr as [->|?]; [by left | by right].
Qed.

(** Every command is a check and an update. *)
Lemma perform_effect c cmd io raw d :
  io_ok io -> decode_store c raw = Ok d ->
  let x := perform c cmd io (Some raw) in
  (x.1 = Some raw /\ exists e, x.2 = Err e)
  \/ exists raw' d0 g, x.1 = Some raw' /\ command_step c cmd d d0
      /\ decode_store c raw' = Ok (set_generation g d0)
      /\ (x.2 = Ok tt \/ exists e, io_write io = NotSynced e).
Proof.
  intros Hio Hd. destruct cmd; cbn [perform].
  3: apply (outcome_effect c (ClaimNext _ _ _) (Ok tt)); [done | done | cbn [command_step]; by eauto].
  6: apply (outcome_effect c (MarkReleasePending _ _ _) (Ok tt)); [done | done | cbn [command_step]; by eauto].
  7: apply (outcome_effect c (RecordPreReserveAbort _ _ _) (Ok tt)); [done | done | cbn [command_step]; by eauto].
  8: apply (outcome_effect c (PruneFinalized _) (Ok tt)); [done | done | cbn [command_step]; by eauto].
  all: apply outcome_effect; [done | done | cbn [command_step]; by eauto].
Qed.

(** C40: whatever fails during a call on a readable store, the store stays
    readable and every request in it is as before or has made one step of the
    life cycle that the command allows under its guards: accepted, dispatched
    within its expiry and attempt limit, retired, expired, admitted, settled or
    released with a receipt bound to its digest, aborted, reviewed, or pruned
    when final; its identity, bytes and times never change.  A call that
    reports an error has left the file alone, unless only the directory sync
    after the rename failed. *)
Theorem call_moves_along_lifecycle (c : CorporateOutbox) (cmd : Command) (io : Io) (raw : bytes)
    (d : OutboxData) :
  io_ok io -> decode_store c raw = Ok d ->
  exists raw' d', (perform c cmd io (Some raw)).1 = Some raw' /\ decode_store c raw' = Ok d'
    /\ moves_all cmd d d'
    /\ (forall e, (perform c cmd io (Some raw)).2 = Err e ->
          raw' = raw \/ exists e', io_write io = NotSynced e').
Proof.
  intros Hio Hd. pose proof (valid_keyed _ _ (decode_valid _ _ _ Hd)) as Hk.
  destruct (perform_effect c cmd io raw d Hio Hd) as [[E _]|(raw' & d0 & g & E & Hstep & Hd' & Hr)].
  - exists raw, d. split_and!; [done | done | by apply moves_all_same | by left].
  - exists raw', (set_generation g d0). split_and!; [done | done | exact (command_moves c cmd d d0 Hk Hstep) |].
    intros e He. destruct Hr as [Hr|Hr]; [congruence | by right].
Qed.

(** The same request: everything but the state. *)
Definition same_request (e e' : OutboxEntry) : Prop := e' = set_state (state e') e.

Lemma same_request_refl e : same_request e e.
Proof. by destruct e. Qed.

Lemma same_request_trans e1 e2 e3 : same_request e1 e2 -> same_request e2 e3 -> same_request e1 e3.
Proof. unfold same_request. intros -> ->. done. Qed.

Lemma same_request_moves cmd k e e' : moves cmd k (Some e) (Some e') -> same_request e e'.
Proof. intros Hm. inversion Hm; subst; [apply same_request_refl | done]. Qed.

Lemma perform_moves c cmd io raw d :
  io_ok io -> decode_store c raw = Ok d ->
  exists raw' d', (perform c cmd io (Some raw)).1 = Some raw' /\ decode_store c raw' = Ok d'
    /\ moves_all cmd d d'.
Proof.
  intros Hio Hd. pose proof (valid_keyed _ _ (decode_valid _ _ _ Hd)) as Hk.
  destruct (perform_effect c cmd io raw d Hio Hd) as [[E _]|(raw' & d0 & g & E & Hstep & Hd' & _)].
  - exists raw, d. split_and!; [done | done | by apply moves_all_same].
  - exists raw', (set_generation g d0). split_and!; [done | done | exact (command_moves c cmd d d0 Hk Hstep)].
Qed.

Lemma run_readable c calls : forall raw d,
  Forall (fun x => io_ok x.2) calls -> decode_store c raw = Ok d ->
  exists raw' d', run c calls (Some raw) = Some raw' /\ decode_store c raw' = Ok d'.
Proof.
  induction calls as [|[cmd io] calls IH]; intros raw d Hio Hd; [by exists raw, d|].
  apply Forall_cons in Hio as [Hi Hio]. cbn [snd] in Hi.
  destruct (perform_moves c cmd io raw d Hi Hd) as (raw1 & d1 & E & Hd1 & _).
  cbn. rewrite E. by eapply IH.
Qed.

(** A point of a run at which the request was final. *)
Definition was_final c (calls : list (Command * Io)) (disk : Disk) (k : string) (e : OutboxEntry) : Prop :=
  exists past rest raw1 d1 e1, calls = past ++ rest /\ run c past disk = Some raw1
    /\ decode_store c raw1 = Ok d1 /\ entries d1 !! k = Some e1 /\ same_request e e1
    /\ finalized_at (state e1) <> None.

Lemma was_final_later c cmd io calls raw raw1 k e e1 :
  (perform c cmd io (Some raw)).1 = Some raw1 -> same_request e e1 ->
  was_final c calls (Some raw1) k e1 -> was_final c ((cmd, io) :: calls) (Some raw) k e.
Proof.
  intros E Hs (past & rest & raw2 & d2 & e2 & -> & Hrun & Hd & He & Hs2 & Hf).
  exists ((cmd, io) :: past), rest, raw2, d2, e2. split_and!; try done.
  - cbn. by rewrite E.
  - by eapply same_request_trans.
Qed.

(** The request is stored at the end of the run, or was final on the way. *)
Lemma run_keeps c calls k : forall raw d e,
  Forall (fun x => io_ok x.2) calls -> decode_store c raw = Ok d -> entries d !! k = Some e ->
  (exists raw' d' e', run c calls (Some raw) = Some raw' /\ decode_store c raw' = Ok d'
     /\ entries d' !! k = Some e' /\ same_request e e')
  \/ was_final c calls (Some raw) k e.
Proof.
  induction calls as [|[cmd io] calls IH]; intros raw d e Hio Hd He.
  - left. exists raw, d, e. split_and!; try done. apply same_request_refl.
  - apply Forall_cons in Hio as [Hi Hio]. cbn [snd] in Hi.
    destruct (perform_moves c cmd io raw d Hi Hd) as (raw1 & d1 & E & Hd1 & Hm).
    specialize (Hm k). rewrite He in Hm. destruct (entries d1 !! k) as [e1|] eqn:He1.
    + apply same_request_moves in Hm.
      destruct (IH raw1 d1 e1 Hio Hd1 He1) as [(raw' & d' & e' & Hrun & Hd' & He' & Hs)|Hf].
      * left. exists raw', d', e'. cbn. rewrite E. split_and!; try done. by eapply same_request_trans.
      * right. by eapply was_final_later.
    + right. inversion Hm as [| | |x before at_ _ Hf _]; subst.
      exists [], ((cmd, io) :: calls), raw, d, e. split_and!; try done; [apply same_request_refl|].
      by rewrite Hf.
Qed.

(** A request stays durable until it is final: after any sequence of
    calls, each with any disk fault, the store is readable and either still
    holds the request, and a read returns exactly its signed bytes, or at some
    point of the sequence the same request was settled, released or aborted. *)
Theorem request_durable (c : CorporateOutbox) (calls : list (Command * Io)) (raw : bytes)
    (d : OutboxData) (k : string) (e : OutboxEntry) :
  Forall (fun x => io_ok x.2) calls -> decode_store c raw = Ok d -> entries d !! k = Some e ->
  exists raw', run c calls (Some raw) = Some raw' /\ is_ok (decode_store c raw') = true
    /\ (was_final c calls (Some raw) k e
        \/ forall io, io_lock io = None -> io_open io = None ->
             (get_signed_request c k (request_digest e) io (Some raw')).2 = Ok (signed_request e)).
Proof.
  intros Hio Hd He. destruct (run_readable c calls raw d Hio Hd) as (raw' & d' & Hrun & Hd').
  exists raw'. split; [done|]. split; [by rewrite Hd'|].
  destruct (run_keeps c calls k raw d e Hio Hd He) as [(raw2 & d2 & e' & Hrun2 & Hd2 & He' & Hs)|Hf];
    [right | by left].
  assert (raw2 = raw') as -> by congruence. assert (d2 = d') as -> by congruence.
  intros io Hl Ho. unfold get_signed_request, read, try_io, read_unlocked.
  rewrite Hl, Ho, Hd'. cbn. unfold signed_request_op, matching_entry. rewrite He'. cbn.
  rewrite Hs. cbn. by rewrite bool_decide_eq_true_2.
Qed.
End Durable.

(** ** Order of dispatch and the cover schedule *)

Section Queue.
Context `{Sha256}.

(** Nothing awaits a release and nothing has expired. *)
Definition quiet (now : N) (d : OutboxData) : Prop :=
  forall k x, entries d !! k = Some x -> release_due x = false /\ expiry_due now x = false.

(** On a valid store a claim always returns, and what it returns is
    determined by priority and sequence: the oldest request that awaits its
    release, else the oldest expired one (now marked expired), else, only for a
    healthy quorum, the oldest request with attempts left, with its exact signed
    bytes, unexpired, its attempt number within the limit and recorded; nothing
    is returned only when the quorum is down, no request has attempts left, or
    the oldest such request is waiting for its retry time. *)
Theorem claim_in_order (c : CorporateOutbox) (d : OutboxData) (now retry : N) (healthy : bool) :
  validate_data c d = Ok tt ->
  exists act d', claim_next_op now healthy retry d = Ok (act, d')
    /\ match act with
       | Some (Expire id digest) => exists e, id = request_id e /\ digest = request_digest e
           /\ (oldest release_due d e
               \/ (forall k x, entries d !! k = Some x -> release_due x = false)
                  /\ oldest (expiry_due now) d e
                  /\ entries d' !! id = Some (set_state (Expired now) e))
       | Some (Dispatch r) => healthy = true /\ quiet now d /\ exists e n, r = claimed e n
           /\ oldest (fun e => sendable (state e)) d e
           /\ next_attempt now retry (state e) = Some n /\ n <= MAX_AUTOMATIC_DISPATCH_ATTEMPTS
           /\ now < expires_at e
           /\ entries d' !! request_id e = Some (set_state (Dispatching n now) e)
       | None => quiet now d
           /\ (healthy = false
               \/ (forall k x, entries d !! k = Some x -> sendable (state x) = false)
               \/ exists e, oldest (fun e => sendable (state e)) d e
                    /\ next_attempt now retry (state e) = None)
       end.
Proof.
  intros Hv. destruct (claim_oldest_spec now retry healthy d (valid_keyed c d Hv)) as (act & d' & E & Hc).
  exists act, d'. split; [exact E|]. clear E.
  destruct Hc as [e He|e Hn He|Hn Hh|d1 act d2 Hn Hh Hk1 Hret Hdisp].
  - exists e. auto.
  - exists e. split_and!; [done | done | right]. split_and!; [done | done |].
    rewrite put_state_lookup, decide_True by done. by rewrite (proj1 He).
  - auto.
  - destruct Hdisp as [Hnone|e He Hs Hnext|e n He Hs Hnext Hle].
    + split; [done|]. right; left. intros k x Hx. destruct (sendable (state x)) eqn:Hsx; [|done].
      pose proof (retired_sendable _ _ _ _ _ Hret Hx Hsx) as Hx1. apply Hnone in Hx1.
      by rewrite (sendable_dispatchable _ Hsx) in Hx1.
    + split; [done|]. right; right. exists e. split; [by eapply oldest_sendable | done].
    + split; [done|]. split; [done|]. exists e, n.
      pose proof (oldest_sendable _ _ _ _ Hret He Hs) as Ho. split_and!; try done.
      * apply dispatchable_unexpired; [|by eapply dispatchable_next].
        apply (Hn (request_id e)), Ho.
      * rewrite put_state_lookup, decide_True by done. by rewrite (proj1 He).
Qed.

(** What a network observer sees of a cover slot, and the schedule kept. *)
Definition visible (s : CoverSlot) : N * N := (slot s, due_at s).
Definition observe (r : result string (option CoverSlot * OutboxData)) :
    result string (option (N * N) * (N * option N)) :=
  match r with
  | Ok (s, d) => Ok (visible <$> s, (next_cover_slot d, next_cover_due_at d))
  | Err e => Err e
  end.

(** The cover closure without the queue: the visible part and the schedule. *)
Definition cover_schedule (now interval next : N) (due : option N) :
    result string (option (N * N) * (N * option N)) :=
  let due_at := default now due in
  if now <? due_at then Ok (None, (next, due))
  else
    next' ← ok_or (checked_add next 1) "cover slot sequence exhausted";
    due' ← ok_or (checked_add due_at interval) "cover schedule exhausted";
    Ok (Some (next, due_at), (next', Some due')).

(** The cover schedule leaks nothing of the queue: on a valid store, which
    slot is emitted and when, the schedule kept for the next one, and a refusal,
    are those of a schedule computed from the clock and the stored schedule
    alone, whatever requests are queued, waiting, expired or absent and whether
    or not the quorum is up. *)
Theorem cover_schedule_independent (c : CorporateOutbox) (d : OutboxData) (now retry interval : N)
    (healthy : bool) :
  validate_data c d = Ok tt ->
  observe (claim_cover_slot_op now healthy retry interval d)
  = cover_schedule now interval (next_cover_slot d) (next_cover_due_at d).
Proof.
  intros Hv. pose proof (valid_keyed c d Hv) as Hk.
  unfold claim_cover_slot_op, cover_schedule.
  destruct (now <? _); [done|]. destruct (checked_add (next_cover_slot d) 1) as [next|]; [|done].
  destruct (checked_add _ interval) as [due|]; [|done]. cbn [ok_or mbind result_bind].
  destruct (claim_oldest_spec now retry healthy (set_cover next due d) Hk) as (act & d' & -> & Hc).
  cbn [mbind result_bind fst snd].
  destruct (claim_keeps_cover _ _ _ _ _ _ Hc) as [Hs Hd].
  assert (exists a, cover_action healthy act = Ok a) as [a ->].
  { destruct act as [[r|id g]|]; [|by eexists..]. destruct healthy; [by eexists|].
    by destruct (claim_unhealthy _ _ _ _ _ Hc r). }
  cbn. by rewrite Hs, Hd.
Qed.
End Queue.

(** ** An admitted request can be aborted *)

(** The abort refuses an admitted request, but a manual review first makes it
    acceptable: the two calls finalize a request that reached MPC admission as
    aborted before any reservation. *)
Lemma admitted_request_aborts (d : OutboxData) (k : string) (e : OutboxEntry) (a t : N)
    (r : MpcAdmissionReceipt) (now : N) (reason : string) :
  entries d !! k = Some e -> state e = MpcAdmitted a t r ->
  is_ok (record_pre_reserve_abort_op k (request_digest e) now d) = false
  /\ exists d1 d2, mark_manual_review_op k (request_digest e) now reason d = Ok (tt, d1)
       /\ record_pre_reserve_abort_op k (request_digest e) now d1 = Ok (tt, d2)
       /\ entries d2 !! k = Some (set_state (AbortedBeforeReserve now) e).
Proof.
  intros He Hs.
  unfold record_pre_reserve_abort_op, mark_manual_review_op, matching_entry. rewrite He. cbn.
  rewrite bool_decide_eq_true_2 by done. cbn. rewrite Hs. split; [done|].
  eexists _, _. split; [done|]. rewrite put_state_lookup, decide_True, He by done. cbn.
  rewrite bool_decide_eq_true_2 by done. split; [done|].
  by rewrite !put_state_lookup, !decide_True, He by done.
Qed.
