(* ===== verification/Curve.v ===== *)
(** * Scalars, points and transcripts

    Interfaces to [curve25519-dalek] (the scalar field and the Ristretto group)
    and [merlin] (Fiat-Shamir transcripts), which every proof of the system is
    written over.  The operations are classes; the algebra they satisfy (a
    field, and a module over it) and the canonical encodings are separate law
    classes.  The file also has the two decision tactics the proofs use:
    [field]/[ring] on scalars, and [module_eq] on linear combinations of
    points. *)

From Stdlib Require Export Ring Field.
From S2P Require Import Prelude.
From S2P Require Import Interfaces.

(** ** Scalars *)

Class ScalarOps := {
  Scalar : Type;
  s0 : Scalar;
  s1 : Scalar;
  sadd : Scalar -> Scalar -> Scalar;
  smul : Scalar -> Scalar -> Scalar;
  ssub : Scalar -> Scalar -> Scalar;
  sopp : Scalar -> Scalar;
  (** [Scalar::invert] *)
  sinv : Scalar -> Scalar;
  scalar_dec :: EqDecision Scalar;
  (** [Scalar::from_bytes_mod_order_wide] *)
  scalar_wide : bytes -> Scalar
}.

Declare Scope scalar_scope.
Delimit Scope scalar_scope with S.
Bind Scope scalar_scope with Scalar.
Infix "+" := sadd : scalar_scope.
Infix "*" := smul : scalar_scope.
Infix "-" := ssub : scalar_scope.
Notation "- x" := (sopp x) : scalar_scope.

Definition sdiv `{ScalarOps} (a b : Scalar) : Scalar := smul a (sinv b).

Class ScalarLaws `{ScalarOps} : Prop := {
  scalar_field : field_theory s0 s1 sadd smul ssub sopp sdiv sinv eq
}.

(** [Scalar::from] an unsigned integer: the sum of that many ones. *)
Fixpoint scalar_of_pos `{ScalarOps} (p : positive) : Scalar :=
  match p with
  | xH => s1
  | xO p => sadd (scalar_of_pos p) (scalar_of_pos p)
  | xI p => sadd (sadd (scalar_of_pos p) (scalar_of_pos p)) s1
  end.
Definition scalar_of_N `{ScalarOps} (n : N) : Scalar :=
  match n with N0 => s0 | Npos p => scalar_of_pos p end.

(** The group order exceeds [2 ^ 252]; the proofs need that no smaller positive
    integer than [2 ^ 70] is zero in the field. *)
Class ScalarLarge `{ScalarOps} : Prop := {
  scalar_large : forall n, 0 < n < 2 ^ 70 -> scalar_of_N n <> s0
}.

(** [Scalar::random] draws from the generator's state. *)
Class ScalarRandom `{ScalarOps} (R : Type) := scalar_random : R -> Scalar * R.

Section ScalarLemmas.
Context `{L : ScalarLaws}.
Add Field scalar_field_inst : scalar_field.
Open Scope scalar_scope.

Lemma scalar_1_neq_0 : s1 <> s0.
Proof. exact (F_1_neq_0 scalar_field). Qed.

Lemma smul_inv (a : Scalar) : a <> s0 -> sinv a * a = s1.
Proof. intros Ha. field. exact Ha. Qed.

Lemma smul_eq_0 (a b : Scalar) : a * b = s0 -> a = s0 \/ b = s0.
Proof.
  intros E. destruct (decide (a = s0)) as [|Ha]; [by left|right].
  replace b with (sinv a * (a * b)); [rewrite E; ring | field; exact Ha].
Qed.

Lemma smul_neq_0 (a b : Scalar) : a <> s0 -> b <> s0 -> a * b <> s0.
Proof. intros Ha Hb E. by destruct (smul_eq_0 a b E). Qed.

Lemma ssub_eq_0 (a b : Scalar) : a - b = s0 <-> a = b.
Proof.
  split; [|intros ->; ring]. intros E. replace a with ((a - b) + b) by ring. rewrite E. ring.
Qed.

Lemma ssub_neq_0 (a b : Scalar) : a <> b -> a - b <> s0.
Proof. intros Hn E. by apply Hn, ssub_eq_0. Qed.

Lemma scalar_of_pos_succ p : scalar_of_pos (Pos.succ p) = scalar_of_pos p + s1.
Proof.
  induction p as [p IH|p IH|].
  - change (Pos.succ p~1) with (Pos.succ p)~0%positive. cbn. rewrite IH. ring.
  - reflexivity.
  - reflexivity.
Qed.

Lemma scalar_of_N_succ n : scalar_of_N (N.succ n) = scalar_of_N n + s1.
Proof. destruct n; [change (s1 = s0 + s1); ring | apply scalar_of_pos_succ]. Qed.

Lemma scalar_of_N_add m n : scalar_of_N (m + n)%N = scalar_of_N m + scalar_of_N n.
Proof.
  induction m as [|m IH] using N.peano_ind; [rewrite N.add_0_l; change (scalar_of_N 0) with s0; ring|].
  rewrite N.add_succ_l, !scalar_of_N_succ, IH. ring.
Qed.

Lemma scalar_of_N_mul m n : scalar_of_N (m * n)%N = scalar_of_N m * scalar_of_N n.
Proof.
  induction m as [|m IH] using N.peano_ind; [rewrite N.mul_0_l; change (scalar_of_N 0) with s0; ring|].
  rewrite N.mul_succ_l, scalar_of_N_add, scalar_of_N_succ, IH. ring.
Qed.

Context `{!ScalarLarge}.

Lemma scalar_of_N_inj m n :
  (m < 2 ^ 70)%N -> (n < 2 ^ 70)%N -> scalar_of_N m = scalar_of_N n -> m = n.
Proof.
  assert (forall a b, a <= b < 2 ^ 70 -> scalar_of_N a = scalar_of_N b -> a = b)%N as Hle.
  { intros a b Hab Heq. destruct (decide (a = b)) as [|Hne]; [done|].
    exfalso. apply (scalar_large (b - a)); [lia|].
    replace b with (a + (b - a))%N in Heq by lia. rewrite scalar_of_N_add in Heq.
    replace (scalar_of_N (b - a)) with (scalar_of_N a + scalar_of_N (b - a) - scalar_of_N a) by ring.
    rewrite <- Heq. ring. }
  intros Hm Hn Heq. destruct (N.le_ge_cases m n); [by apply Hle | symmetry; by apply Hle].
Qed.
End ScalarLemmas.

(** ** Points *)

Class GroupOps `{ScalarOps} := {
  Point : Type;
  pid : Point;
  padd : Point -> Point -> Point;
  popp : Point -> Point;
  (** [point * scalar] *)
  pmul : Point -> Scalar -> Point;
  point_dec :: EqDecision Point;
  (** [point.compress().as_bytes()] *)
  compress : Point -> bytes;
  (** [RISTRETTO_BASEPOINT_POINT] *)
  basepoint : Point;
  (** [RistrettoPoint::hash_from_bytes::<Sha512>] *)
  hash_to_point : bytes -> Point
}.

Declare Scope point_scope.
Delimit Scope point_scope with P.
Bind Scope point_scope with Point.
Infix "+" := padd : point_scope.
Notation "- p" := (popp p) : point_scope.
Notation "p - q" := (padd p (popp q)) : point_scope.
Notation "p * s" := (pmul p s) : point_scope.

Class GroupLaws `{GroupOps} : Prop := {
  padd_comm : forall p q, padd p q = padd q p;
  padd_assoc : forall p q r, padd p (padd q r) = padd (padd p q) r;
  padd_id : forall p, padd p pid = p;
  padd_opp : forall p, padd p (popp p) = pid;
  pmul_sadd : forall p a b, pmul p (sadd a b) = padd (pmul p a) (pmul p b);
  pmul_smul : forall p a b, pmul p (smul a b) = pmul (pmul p a) b;
  pmul_1 : forall p, pmul p s1 = p;
  pmul_padd : forall p q a, pmul (padd p q) a = padd (pmul p a) (pmul q a)
}.

(** The Ristretto encoding is canonical. *)
Class CompressLaws `{GroupOps} : Prop := {
  compress_inj : forall p q, compress p = compress q -> p = q
}.

Section GroupLemmas.
Context `{SL : ScalarLaws} `{G : !GroupOps} `{L : !GroupLaws}.
Add Field scalar_field_inst2 : scalar_field.
Open Scope point_scope.

Lemma padd_id_l (p : Point) : pid + p = p.
Proof. rewrite padd_comm. apply padd_id. Qed.

Lemma padd_cancel (p q r : Point) : p + r = q + r -> p = q.
Proof.
  intros E. rewrite <- (padd_id p), <- (padd_id q), <- (padd_opp r), !padd_assoc, E. done.
Qed.

Lemma padd_opp_l (p : Point) : - p + p = pid.
Proof. rewrite padd_comm. apply padd_opp. Qed.

Lemma pmul_0 (p : Point) : p * s0 = pid.
Proof.
  apply (padd_cancel _ _ (p * s0)). rewrite <- pmul_sadd, padd_id_l. f_equal. ring.
Qed.

Lemma pmul_pid (a : Scalar) : pid * a = pid.
Proof.
  apply (padd_cancel _ _ (pid * a)). rewrite <- pmul_padd, !padd_id_l. done.
Qed.

Lemma popp_pmul (p : Point) : - p = p * (- s1)%S.
Proof.
  apply (padd_cancel _ _ p). rewrite padd_opp_l. rewrite <- (pmul_1 p) at 2.
  rewrite <- pmul_sadd. replace (- s1 + s1)%S with s0 by ring. symmetry. apply pmul_0.
Qed.

Lemma psub_eq_id (p q : Point) : p - q = pid <-> p = q.
Proof.
  split; [|intros ->; apply padd_opp]. intros E. apply (padd_cancel _ _ (- q)).
  by rewrite E, padd_opp.
Qed.

(** ** Linear combinations *)

Inductive pexpr :=
  | EZero
  | EAtom (i : nat)
  | EAdd (a b : pexpr)
  | EOpp (a : pexpr)
  | EMul (a : pexpr) (s : Scalar).

Fixpoint denote (atoms : list Point) (e : pexpr) : Point :=
  match e with
  | EZero => pid
  | EAtom i => nth i atoms pid
  | EAdd a b => denote atoms a + denote atoms b
  | EOpp a => - denote atoms a
  | EMul a s => denote atoms a * s
  end.

(** The coefficient of an atom. *)
Fixpoint coefficient (e : pexpr) (i : nat) : Scalar :=
  match e with
  | EZero => s0
  | EAtom j => if Nat.eqb i j then s1 else s0
  | EAdd a b => (coefficient a i + coefficient b i)%S
  | EOpp a => (- coefficient a i)%S
  | EMul a s => (coefficient a i * s)%S
  end.

Fixpoint combination (atoms : list Point) (f : nat -> Scalar) : Point :=
  match atoms with
  | [] => pid
  | p :: atoms => p * f O + combination atoms (fun i => f (S i))
  end.

Lemma combination_ext atoms f g :
  (forall i, (i < length atoms)%nat -> f i = g i) -> combination atoms f = combination atoms g.
Proof.
  revert f g. induction atoms as [|p atoms IH]; intros f g Hfg; [done|]. cbn.
  rewrite (Hfg O) by (cbn; lia). f_equal. apply IH. intros i Hi. apply Hfg. cbn. lia.
Qed.

Lemma combination_zero atoms : combination atoms (fun _ => s0) = pid.
Proof. induction atoms as [|p atoms IH]; [done|]. cbn. by rewrite IH, pmul_0, padd_id. Qed.

Lemma combination_add atoms f g :
  combination atoms (fun i => f i + g i)%S = combination atoms f + combination atoms g.
Proof.
  revert f g. induction atoms as [|p atoms IH]; intros f g; cbn; [by rewrite padd_id|].
  rewrite (IH (fun i => f (S i)) (fun i => g (S i))), pmul_sadd.
  rewrite <- !padd_assoc. f_equal. rewrite !padd_assoc. f_equal. apply padd_comm.
Qed.

Lemma combination_mul atoms f s :
  combination atoms (fun i => f i * s)%S = combination atoms f * s.
Proof.
  revert f. induction atoms as [|p atoms IH]; intros f; cbn; [by rewrite pmul_pid|].
  by rewrite (IH (fun i => f (S i))), pmul_smul, pmul_padd.
Qed.

Lemma combination_opp atoms f :
  combination atoms (fun i => - f i)%S = - combination atoms f.
Proof.
  rewrite popp_pmul, <- combination_mul. apply combination_ext. intros. ring.
Qed.

Lemma combination_atom atoms j :
  combination atoms (fun i => if Nat.eqb i j then s1 else s0) = nth j atoms pid.
Proof.
  revert j. induction atoms as [|p atoms IH]; intros j; [by destruct j|]. destruct j as [|j]; cbn.
  - by rewrite pmul_1, combination_zero, padd_id.
  - by rewrite pmul_0, padd_id_l, <- IH.
Qed.

Lemma denote_combination atoms e : denote atoms e = combination atoms (coefficient e).
Proof.
  induction e as [|j|a IHa b IHb|a IH|a IH s]; cbn [denote coefficient].
  - by rewrite combination_zero.
  - by rewrite combination_atom.
  - by rewrite combination_add, IHa, IHb.
  - by rewrite combination_opp, IH.
  - by rewrite combination_mul, IH.
Qed.

Fixpoint coefficients_agree (n : nat) (a b : pexpr) : Prop :=
  match n with
  | O => True
  | S n => coefficient a n = coefficient b n /\ coefficients_agree n a b
  end.

Lemma denote_eq atoms a b :
  coefficients_agree (length atoms) a b -> denote atoms a = denote atoms b.
Proof.
  intros E. rewrite !denote_combination. apply combination_ext.
  revert E. generalize (length atoms) as n. induction n as [|n IH]; intros E i Hi; [lia|].
  destruct E as [Hn E]. destruct (decide (i = n)) as [->|Hne]; [done|]. apply IH; [done|lia].
Qed.
End GroupLemmas.

(** Reification of a point expression over a list of atoms. *)
Ltac atom_index p atoms :=
  lazymatch atoms with
  | p :: _ => constr:(O)
  | _ :: ?rest => let i := atom_index p rest in constr:(S i)
  end.
Ltac atom_insert p atoms :=
  let rec go l :=
    lazymatch l with
    | [] => constr:(p :: atoms)
    | p :: _ => atoms
    | _ :: ?rest => go rest
    end in go atoms.
Ltac collect_atoms e atoms :=
  lazymatch e with
  | pid => atoms
  | padd ?a ?b => let atoms := collect_atoms a atoms in collect_atoms b atoms
  | popp ?a => collect_atoms a atoms
  | pmul ?a _ => collect_atoms a atoms
  | ?p => atom_insert p atoms
  end.
Ltac reify_point e atoms :=
  lazymatch e with
  | pid => constr:(EZero)
  | padd ?a ?b =>
      let a := reify_point a atoms in let b := reify_point b atoms in constr:(EAdd a b)
  | popp ?a => let a := reify_point a atoms in constr:(EOpp a)
  | pmul ?a ?s => let a := reify_point a atoms in constr:(EMul a s)
  | ?p => let i := atom_index p atoms in constr:(EAtom i)
  end.

(** Reduce an equation of linear combinations of points to one equation of
    scalars per point. *)
Ltac module_split :=
  lazymatch goal with
  | |- @eq ?T ?a ?b =>
      let atoms := collect_atoms a constr:(@nil T) in
      let atoms := collect_atoms b atoms in
      let ea := reify_point a atoms in
      let eb := reify_point b atoms in
      change (denote atoms ea = denote atoms eb);
      apply denote_eq; cbn [length coefficients_agree coefficient Nat.eqb]; split_and?; try exact I
  end.

(** ** Transcripts *)

(** A [merlin::Transcript]: absorbing a labelled message, and squeezing
    challenge bytes, which also advances it. *)
Class TranscriptOps := {
  Transcript : Type;
  transcript_new : bytes -> Transcript;
  append_message : bytes -> bytes -> Transcript -> Transcript;
  challenge_bytes : bytes -> nat -> Transcript -> bytes * Transcript
}.
