(* ===== verification/Shamir.v ===== *)
(** * Shamir sharing and share location

    [zkfmi-zk/src/shamir.rs]: sharing by a random polynomial, Lagrange
    reconstruction at zero, interpolation, and [locate], the Berlekamp-Welch
    decoder with its Gaussian elimination and polynomial division.  A matrix
    row is kept with its right-hand side; the pivot table holds [None] where
    the code stores [usize::MAX].  Indexing that the code guards by its own
    loop bounds reads a default outside them; [shares[i]] in [reconstruct],
    which a caller's lengths decide, is a panic ([None]). *)

From stdpp Require Import pretty.
From S2P Require Import Prelude.
From S2P Require Import Interfaces.
From S2P Require Import Curve.

(** ** Polynomials as coefficient lists

    A polynomial is the list of its coefficients, constant first, as the Rust
    code keeps it.  Evaluation, sum, difference and product, the bound on the
    number of roots, and the uniqueness of a short polynomial through many
    points. *)

(** [coefficients.iter().rev().fold(ZERO, |acc, c| acc * x + c)] *)
Definition evaluate `{ScalarOps} (coefficients : list Scalar) (x : Scalar) : Scalar :=
  foldr (fun c acc => acc * x + c)%S s0 coefficients.

Section Poly.
Context `{L : ScalarLaws}.
Add Field poly_scalar_field : scalar_field.
Open Scope scalar_scope.
Implicit Types (p q : list Scalar) (x a b : Scalar).

Lemma evaluate_cons c p x : evaluate (c :: p) x = evaluate p x * x + c.
Proof. done. Qed.

Definition zero_poly p : Prop := Forall (fun c => c = s0) p.

Lemma evaluate_zero_poly p x : zero_poly p -> evaluate p x = s0.
Proof. induction 1 as [|c p -> _ IH]; [done|]. rewrite evaluate_cons, IH. ring. Qed.

Lemma evaluate_at_zero c p : evaluate (c :: p) s0 = c.
Proof. rewrite evaluate_cons. ring. Qed.

Lemma evaluate_app p q x :
  evaluate (p ++ q) x = evaluate p x + evaluate q x * evaluate (replicate (length p) s0 ++ [s1]) x.
Proof.
  induction p as [|c p IH]; cbn [app length replicate].
  - change (evaluate ([] : list Scalar) x) with s0. rewrite evaluate_cons. cbn. ring.
  - rewrite !evaluate_cons, IH. ring.
Qed.

(** ** Operations *)

Fixpoint poly_add p q : list Scalar :=
  match p, q with
  | a :: p, b :: q => (a + b) :: poly_add p q
  | [], q => q
  | p, [] => p
  end.
Definition poly_scale a p : list Scalar := (fun c => a * c) <$> p.
Definition poly_sub p q : list Scalar := poly_add p (poly_scale (- s1) q).
Fixpoint poly_mul p q : list Scalar :=
  match p with
  | [] => []
  | a :: p => poly_add (poly_scale a q) (s0 :: poly_mul p q)
  end.

Lemma evaluate_add p q x : evaluate (poly_add p q) x = evaluate p x + evaluate q x.
Proof.
  revert q. induction p as [|a p IH]; intros [|b q]; cbn [poly_add].
  - cbn. ring.
  - change (evaluate ([] : list Scalar) x) with s0. ring.
  - change (evaluate ([] : list Scalar) x) with s0. ring.
  - rewrite !evaluate_cons, IH. ring.
Qed.

Lemma evaluate_scale a p x : evaluate (poly_scale a p) x = a * evaluate p x.
Proof.
  induction p as [|c p IH]; [cbn; ring|].
  change (poly_scale a (c :: p)) with (a * c :: poly_scale a p). rewrite !evaluate_cons, IH. ring.
Qed.

Lemma evaluate_sub p q x : evaluate (poly_sub p q) x = evaluate p x - evaluate q x.
Proof. unfold poly_sub. rewrite evaluate_add, evaluate_scale. ring. Qed.

Lemma evaluate_mul p q x : evaluate (poly_mul p q) x = evaluate p x * evaluate q x.
Proof.
  induction p as [|a p IH]; cbn [poly_mul]; [cbn; ring|].
  rewrite evaluate_add, evaluate_scale, !evaluate_cons, IH. ring.
Qed.

Lemma poly_add_length p q : length (poly_add p q) = (length p `max` length q)%nat.
Proof. revert q. induction p as [|a p IH]; intros [|b q]; cbn; [done..|]. by rewrite IH. Qed.

Lemma poly_scale_length a p : length (poly_scale a p) = length p.
Proof. apply length_fmap. Qed.

Lemma poly_sub_length p q : length (poly_sub p q) = (length p `max` length q)%nat.
Proof. unfold poly_sub. by rewrite poly_add_length, poly_scale_length. Qed.

Lemma poly_mul_length p q : (0 < length q)%nat -> (length (poly_mul p q) <= length p + length q - 1)%nat.
Proof.
  intros Hq. induction p as [|a p IH]; cbn [poly_mul length]; [lia|].
  rewrite poly_add_length, poly_scale_length. cbn [length]. lia.
Qed.

(** ** Roots *)

(** Dividing by [X - r] (synthetic division): the quotient and the remainder. *)
Fixpoint synthetic p (r : Scalar) : list Scalar * Scalar :=
  match p with
  | [] => ([], s0)
  | c :: p => let (q, v) := synthetic p r in (v :: q, v * r + c)
  end.

Lemma synthetic_spec p r x :
  evaluate p x = evaluate (synthetic p r).1 x * (x - r) + evaluate p r.
Proof.
  assert (forall p, (synthetic p r).2 = evaluate p r) as Hv.
  { intros p'. induction p' as [|c p' IH]; [done|]. cbn [synthetic].
    destruct (synthetic p' r) as [q v]. cbn in *. by rewrite IH. }
  induction p as [|c p IH]; [cbn; ring|]. cbn [synthetic].
  specialize (Hv p). destruct (synthetic p r) as [q v]. cbn [fst snd] in *.
  rewrite !evaluate_cons, IH, Hv. ring.
Qed.

Lemma synthetic_length p r : length (synthetic p r).1 = length p.
Proof. induction p as [|c p IH]; [done|]. cbn. destruct (synthetic p r). cbn in *. lia. Qed.

(** The top coefficient of the quotient is zero. *)
Lemma synthetic_last p r : p <> [] -> exists q, (synthetic p r).1 = q ++ [s0].
Proof.
  induction p as [|c p IH]; [done|]. intros _. cbn [synthetic]. destruct p as [|d p].
  - cbn. by exists [].
  - destruct IH as [q Hq]; [done|]. destruct (synthetic (d :: p) r) as [q' v]. cbn in *.
    exists (v :: q). by rewrite Hq.
Qed.

Lemma synthetic_zero p r :
  zero_poly (synthetic p r).1 -> evaluate p r = s0 -> zero_poly p.
Proof.
  assert (forall p, (synthetic p r).2 = evaluate p r) as Hv.
  { intros p'. induction p' as [|c p' IH]; [done|]. cbn [synthetic].
    destruct (synthetic p' r) as [q v]. cbn in *. by rewrite IH. }
  induction p as [|c p IH]; [constructor|]. cbn [synthetic]. intros Hz He.
  specialize (Hv p). destruct (synthetic p r) as [q v]. cbn [fst snd] in *.
  apply Forall_cons in Hz as [Hv0 Hz]. rewrite evaluate_cons, <- Hv, Hv0 in He.
  constructor.
  - rewrite <- He. ring.
  - apply IH; [done|]. by rewrite <- Hv.
Qed.

Lemma zero_poly_snoc p : zero_poly p -> zero_poly (p ++ [s0]).
Proof. intros Hp. apply Forall_app. split; [done|]. by repeat constructor. Qed.

(** A polynomial with as many distinct roots as coefficients is zero. *)
Lemma roots_bound p : forall rs,
  NoDup rs -> (length p <= length rs)%nat -> Forall (fun r => evaluate p r = s0) rs -> zero_poly p.
Proof.
  remember (length p) as n eqn:Hn. revert p Hn.
  induction n as [|n IH]; intros p Hn rs Hnd Hlen Hroots.
  { destruct p; [constructor | done]. }
  destruct rs as [|r rs]; [cbn in Hlen; lia|].
  apply Forall_cons in Hroots as [Hr Hroots]. apply NoDup_cons in Hnd as [Hnr Hnd].
  destruct (synthetic_last p r) as [q Hq]; [intros ->; done|].
  assert (length q = n) as Hql.
  { pose proof (synthetic_length p r) as E. rewrite Hq, length_app in E. cbn in E. lia. }
  apply (synthetic_zero p r); [|done]. rewrite Hq. apply zero_poly_snoc.
  apply (IH q (eq_sym Hql) rs Hnd); [cbn in Hlen; lia|].
  apply Forall_forall. intros x Hx. rewrite Forall_forall in Hroots. specialize (Hroots x Hx).
  rewrite (synthetic_spec p r x), Hr, Hq, evaluate_app in Hroots.
  assert (x - r <> s0) as Hxr by (apply ssub_neq_0; intros ->; done).
  assert (evaluate q x * (x - r) = s0) as Hm.
  { rewrite <- Hroots. cbn [evaluate foldr]. ring. }
  by destruct (smul_eq_0 _ _ Hm).
Qed.

(** A polynomial with leading coefficient one has fewer distinct roots than
    coefficients. *)
Lemma monic_roots p rs :
  NoDup rs -> Forall (fun r => evaluate (p ++ [s1]) r = s0) rs -> (length rs <= length p)%nat.
Proof.
  intros Hnd Hr. destruct (decide (length rs <= length p)%nat) as [|Hn]; [done|]. exfalso.
  assert (zero_poly (p ++ [s1])) as Hz.
  { apply (roots_bound _ rs Hnd); [|done]. rewrite length_app. cbn. lia. }
  apply Forall_app in Hz as [_ Hz]. apply Forall_cons in Hz as [Hz _]. by apply scalar_1_neq_0.
Qed.

(** Two short polynomials that agree on many points agree everywhere. *)
Lemma agree_everywhere p q rs x :
  NoDup rs -> (length p <= length rs)%nat -> (length q <= length rs)%nat ->
  Forall (fun r => evaluate p r = evaluate q r) rs -> evaluate p x = evaluate q x.
Proof.
  intros Hnd Hp Hq Hr.
  assert (zero_poly (poly_sub p q)) as Hz.
  { apply (roots_bound _ rs Hnd); [rewrite poly_sub_length; lia|].
    eapply Forall_impl; [exact Hr|]. intros r Er. cbn beta in Er. rewrite evaluate_sub, Er. ring. }
  apply ssub_eq_0. rewrite <- evaluate_sub. by apply evaluate_zero_poly.
Qed.
End Poly.

Open Scope nat_scope.

(** [iter().enumerate()] *)
Definition enumerate {A} (l : list A) : list (nat * A) := zip (seq 0 (length l)) l.

Definition capacity (n degree : nat) : nat :=
  if n <=? degree then 0 else (n - degree - 1) / 2.

Section Shamir.
Context `{ScalarOps}.
Open Scope scalar_scope.
Open Scope nat_scope.
Implicit Types (x : Scalar).

Definition points (n : nat) : list Scalar := (fun i => scalar_of_N (N.of_nat i)) <$> seq 1 n.

(** ** Sharing *)

Section Dealing.
Context {R : Type} `{!ScalarRandom R}.

Fixpoint random_coefficients (degree : nat) (rng : R) : list Scalar * R :=
  match degree with
  | O => ([], rng)
  | S degree =>
      let (c, rng) := scalar_random rng in
      let (cs, rng) := random_coefficients degree rng in
      (c :: cs, rng)
  end.

Definition share_with_coefficients (secret : Scalar) (degree : nat) (points : list Scalar)
    (rng : R) : list Scalar * list Scalar * R :=
  let (random, rng) := random_coefficients degree rng in
  let coefficients := secret :: random in
  (evaluate coefficients <$> points, coefficients, rng).

Definition share (secret : Scalar) (degree : nat) (points : list Scalar) (rng : R) :
    list Scalar * R :=
  let '(shares, _, rng) := share_with_coefficients secret degree points rng in (shares, rng).
End Dealing.

(** ** Reconstruction *)

(** The numerator and denominator of the Lagrange coefficient at zero. *)
Definition lagrange_fraction (points : list Scalar) (i : nat) (xi : Scalar) : Scalar * Scalar :=
  foldl (fun nd '(j, xj) =>
    if i =? j then nd else (nd.1 * - xj, nd.2 * (xi - xj))%S) (s1, s1) (enumerate points).

Definition reconstruct (points shares : list Scalar) : option Scalar :=
  foldl (fun total '(i, xi) =>
    total ← total;
    share ← shares !! i;
    let (numerator, denominator) := lagrange_fraction points i xi in
    Some (total + share * numerator * sinv denominator)%S) (Some s0) (enumerate points).

(** ** Interpolation *)

(** [next[k] -= b * xj; next[k + 1] += b] over the coefficients of a basis
    polynomial: the product with [X - xj]. *)
Definition basis_step (basis : list Scalar) (xj : Scalar) : list Scalar :=
  foldl (fun next '(k, b) =>
    let next := <[k := nth k next s0 - b * xj]> next in
    <[S k := nth (S k) next s0 + b]> next)%S
    (replicate (S (length basis)) s0) (enumerate basis).

Definition interpolate_basis (points : list Scalar) (i : nat) (xi : Scalar) :
    list Scalar * Scalar :=
  foldl (fun bd '(j, xj) =>
    if i =? j then bd else (basis_step bd.1 xj, bd.2 * (xi - xj))%S) ([s1], s1) (enumerate points).

Definition interpolate (points values : list Scalar) : list Scalar :=
  foldl (fun result '(i, xi) =>
    let (basis, denominator) := interpolate_basis points i xi in
    let scale := (nth i values s0 * sinv denominator)%S in
    foldl (fun result '(k, b) => <[k := nth k result s0 + b * scale]> result)%S
      result (enumerate basis))
    (replicate (length points) s0) (enumerate points).

(** ** Gaussian elimination *)

(** A row of the matrix and its right-hand side. *)
Definition Row : Type := list Scalar * Scalar.

Definition cell (m : list Row) (r c : nat) : Scalar := nth c (nth r m ([], s0)).1 s0.

(** [matrix.swap(a, b); rhs.swap(a, b)] *)
Definition swap_rows (a b : nat) (m : list Row) : list Row :=
  <[a := nth b m ([], s0)]> (<[b := nth a m ([], s0)]> m).

(** [*cell *= inverse] from [column] on, and on the right-hand side. *)
Definition scale_row (column : nat) (inverse : Scalar) (row : Row) : Row :=
  (imap (fun c v => if column <=? c then v * inverse else v)%S row.1, (row.2 * inverse)%S).

(** [*cell -= pivot_row[c] * factor] from [column] on. *)
Definition reduce_row (column : nat) (pivot : Row) (row : Row) : Row :=
  let factor := nth column row.1 s0 in
  if decide (factor = s0) then row
  else (imap (fun c v => if column <=? c then v - nth c pivot.1 s0 * factor else v)%S row.1,
        (row.2 - pivot.2 * factor)%S).

(** [(row..rows).find(|r| matrix[r][column] != ZERO)] *)
Definition find_pivot (m : list Row) (row column : nat) : option nat :=
  List.find (fun r => negb (bool_decide (cell m r column = s0))) (seq row (length m - row)).

Record Elimination := mkElimination {
  matrix : list Row;
  pivot_of : list (option nat);
  pivots : nat
}.

Definition eliminate_column (column : nat) (e : Elimination) : Elimination :=
  match find_pivot (matrix e) (pivots e) column with
  | None => e
  | Some found =>
      let row := pivots e in
      let m := swap_rows row found (matrix e) in
      let inverse := sinv (cell m row column) in
      let m := alter (scale_row column inverse) row m in
      let pivot := nth row m ([], s0) in
      let m := imap (fun r line => if r =? row then line else reduce_row column pivot line) m in
      mkElimination m (<[column := Some row]> (pivot_of e)) (S row)
  end.

(** The loop over the columns, left when every row has a pivot. *)
Fixpoint eliminate (columns : list nat) (e : Elimination) : Elimination :=
  match columns with
  | [] => e
  | column :: columns =>
      let e' := eliminate_column column e in
      if bool_decide (pivots e' = length (matrix e')) && bool_decide (pivots e < pivots e')
      then e' else eliminate columns e'
  end.

Definition solve (m : list Row) (unknowns : nat) : option (list Scalar) :=
  let e := eliminate (seq 0 unknowns) (mkElimination m (replicate unknowns None) 0) in
  if existsb (fun line => negb (bool_decide (line.2 = s0))
                          && forallb (fun v => bool_decide (v = s0)) line.1)
       (drop (pivots e) (matrix e))
  then None
  else Some ((fun c =>
    match pivot_of e !! c with
    | Some (Some r) => (nth r (matrix e) ([], s0)).2
    | _ => s0
    end) <$> seq 0 unknowns).

(** ** Division *)

(** One step of the long division: the coefficient [i] of the quotient. *)
Definition divide_step (denominator : list Scalar) (lead : Scalar)
    (state : list Scalar * list Scalar) (i : nat) : list Scalar * list Scalar :=
  let (quotient, remainder) := state in
  let d := length denominator - 1 in
  let factor := (nth (i + d) remainder s0 * lead)%S in
  (<[i := factor]> quotient,
   foldl (fun remainder j =>
     <[i + j := (nth (i + j) remainder s0 - nth j denominator s0 * factor)%S]> remainder)
     remainder (seq 0 (S d))).

Definition all_zero (l : list Scalar) : bool := forallb (fun v => bool_decide (v = s0)) l.

Definition divide (numerator denominator : list Scalar) : option (list Scalar * bool) :=
  let d := length denominator - 1 in
  if length numerator <=? d then Some ([s0], all_zero numerator)
  else
    let lead := sinv (nth d denominator s0) in
    let n := length numerator - d in
    let (quotient, remainder) :=
      foldl (divide_step denominator lead) (replicate n s0, numerator) (reverse (seq 0 n)) in
    Some (quotient, all_zero (take (Nat.min d (length remainder)) remainder)).

(** ** Berlekamp-Welch *)

Inductive Verdict :=
  | Decoded (secret : Scalar) (culprits : list nat)
  | Beyond (capacity : nat) (reason : string).

(** [vec![1, x, x^2, ..]] of the given length, and the next power. *)
Fixpoint powers (x power : Scalar) (n : nat) : list Scalar * Scalar :=
  match n with
  | O => ([], power)
  | S n => let (l, next) := powers x (power * x)%S n in (power :: l, next)
  end.

Definition welch_row (degree errors : nat) (x y : Scalar) : Row :=
  let q_len := degree + errors + 1 in
  let (e_powers, power) := powers x s1 errors in
  ((powers x s1 q_len).1 ++ ((fun p => - y * p)%S <$> e_powers), (y * power)%S).

Definition welch (points shares : list Scalar) (degree errors : nat) : option Verdict :=
  let n := length points in
  let q_len := degree + errors + 1 in
  let unknowns := q_len + errors in
  let m := (fun i => welch_row degree errors (nth i points s0) (nth i shares s0)) <$> seq 0 n in
  solution ← solve m unknowns;
  let q := take q_len solution in
  let e := drop q_len solution ++ [s1] in
  '(p, exact) ← divide q e;
  if negb exact then None
  else
    let culprits := List.filter (fun i => bool_decide (evaluate e (nth i points s0) = s0)) (seq 0 n) in
    if negb (length culprits =? errors) then None
    else if existsb (fun i => negb (bool_decide (i ∈ culprits))
                              && negb (bool_decide (evaluate p (nth i points s0) = nth i shares s0)))
              (seq 0 n)
    then None
    else Some (Decoded (default s0 (head p)) culprits).

(** [for errors in 1..=capacity] *)
Definition first_welch (points shares : list Scalar) (degree : nat) (errors : list nat) :
    option Verdict :=
  foldr (fun k rest => match welch points shares degree k with Some v => Some v | None => rest end)
    None errors.

(** The two reasons quote the lengths they compare. *)
Definition show_nat (n : nat) : string := pretty (N.of_nat n).

Definition locate (points shares : list Scalar) (degree : nat) : option Verdict :=
  let n := length points in
  let cap := capacity n degree in
  if negb (length shares =? n) then
    Some (Beyond cap (show_nat n +:+ " points and " +:+ show_nat (length shares) +:+ " shares"))
  else if n <? degree + 1 then
    Some (Beyond cap (show_nat n +:+ " shares cannot determine a degree-" +:+ show_nat degree
      +:+ " polynomial, which needs " +:+ show_nat (degree + 1)))
  else
    secret ← reconstruct (take (degree + 1) points) (take (degree + 1) shares);
    let coefficients := interpolate (take (degree + 1) points) (take (degree + 1) shares) in
    let disagreeing := List.filter
      (fun i => negb (bool_decide (evaluate coefficients (nth i points s0) = nth i shares s0)))
      (seq (degree + 1) (n - (degree + 1))) in
    match disagreeing with
    | [] => Some (Decoded secret [])
    | _ =>
        match first_welch points shares degree (seq 1 cap) with
        | Some verdict => Some verdict
        | None => Some (Beyond cap ("more than " +:+ show_nat cap +:+ " wrong share(s): at n="
            +:+ show_nat n +:+ " and degree " +:+ show_nat degree +:+ " the code has distance "
            +:+ show_nat (n - degree) +:+ ", so this is beyond what any decoder can resolve"))
        end
    end.
End Shamir.
