(* ===== verification/ShamirTheorems.v ===== *)
(** * Correctness of sharing and of share location

    Any sufficiently large set of shares reconstructs the secret, and [locate]
    is a bounded-distance decoder: it returns the secret and exactly the wrong
    shares whenever at most [capacity] shares are wrong, and it never names
    anyone otherwise. *)

From S2P Require Import Prelude.
From S2P Require Import Interfaces.
From S2P Require Import Curve.
From S2P Require Import Shamir.

(** ** Interpolation, elimination and division

    The list algorithms of the share decoder against their algebra: Lagrange
    interpolation takes the given values at the points and reconstruction is
    its value at zero; long division is exact up to a short remainder; Gaussian
    elimination finds a solution whenever there is one. *)

Open Scope nat_scope.

(** ** Loops with an index *)

Lemma enumerate_from_lookup {A} (l : list A) s i x :
  (i, x) ∈ zip (seq s (length l)) l <-> s <= i /\ l !! (i - s) = Some x.
Proof.
  revert s. induction l as [|a l IH]; intros s; cbn [length seq zip zip_with].
  - rewrite elem_of_nil, lookup_nil. naive_solver.
  - rewrite elem_of_cons, IH. split.
    + intros [[= -> ->]|[Hs Hx]]; [by rewrite Nat.sub_diag|].
      split; [lia|]. by replace (i - s) with (S (i - S s)) by lia.
    + intros [Hs Hx]. destruct (decide (i = s)) as [->|Hne].
      * left. rewrite Nat.sub_diag in Hx. cbn in Hx. congruence.
      * right. split; [lia|]. by replace (i - s) with (S (i - S s)) in Hx by lia.
Qed.

Lemma enumerate_lookup {A} (l : list A) i x : (i, x) ∈ enumerate l <-> l !! i = Some x.
Proof. unfold enumerate. rewrite enumerate_from_lookup, Nat.sub_0_r. naive_solver lia. Qed.

(** Skipping one index is a loop over the list without it. *)
Lemma foldl_skip {A B} (f : B -> A -> B) (l : list A) : forall i s a,
  foldl (fun acc '(j, x) => if s + i =? j then acc else f acc x) a (zip (seq s (length l)) l)
  = foldl f a (delete i l).
Proof.
  induction l as [|x l IH]; intros i s a; [by destruct i|]. cbn [length seq zip zip_with foldl].
  destruct i as [|i].
  - rewrite Nat.add_0_r, Nat.eqb_refl. cbn.
    clear IH. assert (forall t, s < t ->
      foldl (fun acc '(j, x) => if s =? j then acc else f acc x) a (zip (seq t (length l)) l)
      = foldl f a l) as Hrest; [|apply Hrest; lia].
    revert a. induction l as [|y l IH]; intros a t Ht; [done|]. cbn [length seq zip zip_with foldl].
    rewrite (proj2 (Nat.eqb_neq s t)) by lia. apply IH. lia.
  - rewrite (proj2 (Nat.eqb_neq _ _)) by lia. cbn [delete list_delete foldl].
    rewrite <- (IH i (S s)). by replace (s + S i) with (S s + i) by lia.
Qed.

Lemma foldl_skip_enumerate {A B} (f : B -> A -> B) (l : list A) i a :
  foldl (fun acc '(j, x) => if i =? j then acc else f acc x) a (enumerate l)
  = foldl f a (delete i l).
Proof. exact (foldl_skip f l i 0 a). Qed.

Section Algebra.
Context `{L : ScalarLaws}.
Add Field shamir_field : scalar_field.
Open Scope scalar_scope.

(** ** Sums and products *)

Definition ssum (l : list Scalar) : Scalar := foldr sadd s0 l.
Definition sprod (l : list Scalar) : Scalar := foldr smul s1 l.

Lemma foldl_smul (l : list Scalar) {A} (g : A -> Scalar) xs a :
  foldl (fun acc x => acc * g x) a xs = a * sprod (g <$> xs).
Proof.
  revert a. induction xs as [|x xs IH]; intros a; cbn; [ring|]. rewrite IH. unfold sprod. ring.
Qed.

Lemma sprod_zero {A} (g : A -> Scalar) xs x : x ∈ xs -> g x = s0 -> sprod (g <$> xs) = s0.
Proof.
  intros Hx Hg. induction Hx as [y xs|y z xs _ IH]; cbn; [rewrite Hg; ring|].
  unfold sprod in IH. rewrite IH by done. ring.
Qed.

Lemma sprod_nonzero {A} (g : A -> Scalar) xs :
  (forall x, x ∈ xs -> g x <> s0) -> sprod (g <$> xs) <> s0.
Proof.
  induction xs as [|x xs IH]; intros Hg; cbn; [apply scalar_1_neq_0|].
  apply smul_neq_0; [apply Hg; set_solver | apply IH; set_solver].
Qed.

(** ** Coefficients *)

Fixpoint spow (x : Scalar) (n : nat) : Scalar :=
  match n with O => s1 | S n => x * spow x n end.

Lemma spow_add x m n : spow x (m + n) = spow x m * spow x n.
Proof. induction m as [|m IH]; cbn; [ring|]. rewrite IH. ring. Qed.

(** Adding to one coefficient. *)
Lemma evaluate_insert l k v z :
  (k < length l)%nat ->
  evaluate (<[k := v]> l) z = evaluate l z + (v - nth k l s0) * spow z k.
Proof.
  revert k. induction l as [|c l IH]; intros k Hk; [cbn in Hk; lia|].
  destruct k as [|k]; cbn [list_insert insert nth spow].
  - rewrite !evaluate_cons. ring.
  - rewrite !evaluate_cons. change (list_insert k v l) with (<[k := v]> l).
    rewrite IH by (cbn in Hk; lia). ring.
Qed.

Lemma evaluate_replicate n z : evaluate (replicate n s0) z = s0.
Proof. apply evaluate_zero_poly. apply Forall_replicate. done. Qed.

(** Adding a scaled polynomial, coefficient by coefficient. *)
Lemma accumulate_spec (b : list Scalar) (w : Scalar) z : forall s l,
  (s + length b <= length l)%nat ->
  let r := foldl (fun r '(k, c) => <[k := nth k r s0 + c * w]> r) l (zip (seq s (length b)) b) in
  length r = length l /\ evaluate r z = evaluate l z + evaluate b z * w * spow z s.
Proof.
  induction b as [|c b IH]; intros s l Hl; cbn [length seq zip zip_with foldl].
  - split; [done|]. cbn. ring.
  - cbn [length] in Hl. destruct (IH (S s) (<[s := nth s l s0 + c * w]> l)) as [Hlen Hev].
    { rewrite length_insert. lia. }
    rewrite length_insert in Hlen. split; [exact Hlen|].
    rewrite Hev, evaluate_insert, evaluate_cons by lia. cbn [spow]. ring.
Qed.

Lemma basis_step_spec b xj z :
  length (basis_step b xj) = S (length b)
  /\ evaluate (basis_step b xj) z = evaluate b z * (z - xj).
Proof.
  assert (forall (b : list Scalar) s l, (s + length b < length l)%nat ->
    let r := foldl (fun next '(k, c) =>
      let next := <[k := nth k next s0 - c * xj]> next in
      <[S k := nth (S k) next s0 + c]> next) l (zip (seq s (length b)) b) in
    length r = length l /\ evaluate r z = evaluate l z + evaluate b z * (z - xj) * spow z s) as Hgen.
  { clear b. induction b as [|c b IH]; intros s l Hl; cbn [length seq zip zip_with foldl].
    - split; [done|]. cbn. ring.
    - cbn [length] in Hl. cbn zeta.
      destruct (IH (S s) (<[S s := nth (S s) (<[s := nth s l s0 - c * xj]> l) s0 + c]>
        (<[s := nth s l s0 - c * xj]> l))) as [Hlen Hev]; [rewrite !length_insert; lia|].
      rewrite !length_insert in Hlen. split; [exact Hlen|].
      etrans; [exact Hev|].
      rewrite !evaluate_insert, evaluate_cons by (rewrite ?length_insert; lia).
      cbn [spow]. ring. }
  destruct (Hgen b 0 (replicate (S (length b)) s0)) as [Hlen Hev]; [rewrite length_replicate; lia|].
  rewrite length_replicate in Hlen. split; [exact Hlen|].
  etrans; [exact Hev|]. rewrite evaluate_replicate. cbn [spow]. ring.
Qed.

Lemma interpolate_basis_spec ps i xi z :
  let (basis, denominator) := interpolate_basis ps i xi in
  length basis = S (length (delete i ps))
  /\ evaluate basis z = sprod ((fun x => z - x) <$> delete i ps)
  /\ denominator = sprod ((fun x => xi - x) <$> delete i ps).
Proof.
  unfold interpolate_basis.
  rewrite (foldl_skip_enumerate (fun (bd : list Scalar * Scalar) xj =>
    (basis_step bd.1 xj, bd.2 * (xi - xj))) ps i).
  assert (forall l b d,
    let (basis, denominator) := foldl (fun (bd : list Scalar * Scalar) xj =>
      (basis_step bd.1 xj, bd.2 * (xi - xj))) (b, d) l in
    length basis = (length b + length l)%nat
    /\ evaluate basis z = evaluate b z * sprod ((fun x => z - x) <$> l)
    /\ denominator = d * sprod ((fun x => xi - x) <$> l)) as Hgen.
  { induction l as [|x l IH]; intros b d; cbn [foldl].
    - cbn. split_and!; [lia | ring | ring].
    - specialize (IH (basis_step b x) (d * (xi - x))). cbn [fst snd].
      destruct (foldl _ _ l) as [b' d']. destruct IH as (Hl & He & ->).
      destruct (basis_step_spec b x z) as [Hbl Hbe].
      rewrite Hl, He, Hbl, Hbe. cbn. unfold sprod. split_and!; [lia | ring | ring]. }
  specialize (Hgen (delete i ps) [s1] s1). destruct (foldl _ _ _) as [b d].
  destruct Hgen as (Hl & -> & ->). cbn. split_and!; [done | ring | ring].
Qed.

(** ** Interpolation *)

(** The term of one point. *)
Definition lagrange_term (ps vs : list Scalar) (z : Scalar) (ix : nat * Scalar) : Scalar :=
  let (i, xi) := ix in
  nth i vs s0 * sinv (sprod ((fun x => xi - x) <$> delete i ps))
  * sprod ((fun x => z - x) <$> delete i ps).

Lemma interpolate_spec ps vs z :
  length (interpolate ps vs) = length ps
  /\ evaluate (interpolate ps vs) z = ssum (lagrange_term ps vs z <$> enumerate ps).
Proof.
  unfold interpolate.
  assert (forall l acc, (forall i x, (i, x) ∈ l -> ps !! i = Some x) -> length acc = length ps ->
    let r := foldl (fun result '(i, xi) =>
      let (basis, denominator) := interpolate_basis ps i xi in
      let scale := nth i vs s0 * sinv denominator in
      foldl (fun result '(k, b) => <[k := nth k result s0 + b * scale]> result)
        result (enumerate basis)) acc l in
    length r = length ps /\ evaluate r z = evaluate acc z + ssum (lagrange_term ps vs z <$> l)) as Hgen.
  { induction l as [|[i xi] l IH]; intros acc Hin Hacc; cbn [foldl].
    - split; [done|]. cbn. ring.
    - pose proof (interpolate_basis_spec ps i xi z) as Hb.
      destruct (interpolate_basis ps i xi) as [basis denominator]. destruct Hb as (Hbl & Hbe & ->).
      assert (ps !! i = Some xi) as Hi by (apply Hin; set_solver).
      assert (length basis = length ps) as Hbps.
      { rewrite Hbl, length_delete by eauto. apply lookup_lt_Some in Hi. lia. }
      set (w := nth i vs s0 * sinv (sprod ((fun x => xi - x) <$> delete i ps))).
      destruct (accumulate_spec basis w z 0 acc) as [Hal Hae]; [lia|].
      destruct (IH (foldl (fun result '(k, b) => <[k := nth k result s0 + b * w]> result) acc
        (enumerate basis))) as [Hl He].
      { intros j x Hj. apply Hin. set_solver. }
      { unfold enumerate. rewrite Hal. exact Hacc. }
      split; [exact Hl|]. etrans; [exact He|]. unfold enumerate at 1. rewrite Hae.
      change (lagrange_term ps vs z <$> (i, xi) :: l)
        with (lagrange_term ps vs z (i, xi) :: (lagrange_term ps vs z <$> l)).
      unfold ssum. cbn [foldr lagrange_term spow]. rewrite Hbe. unfold w. ring. }
  destruct (Hgen (enumerate ps) (replicate (length ps) s0)) as [Hl He].
  { intros i x. apply enumerate_lookup. }
  { apply length_replicate. }
  split; [exact Hl|]. etrans; [exact He|]. rewrite evaluate_replicate. ring.
Qed.

Lemma ssum_zero l : Forall (fun v => v = s0) l -> ssum l = s0.
Proof. induction 1 as [|v l -> _ IH]; [done|]. cbn. unfold ssum in IH. rewrite IH. ring. Qed.

(** A sum with one term that counts. *)
Lemma ssum_single {A} (g : A -> Scalar) l a v :
  NoDup l -> a ∈ l -> g a = v -> (forall b, b ∈ l -> b <> a -> g b = s0) -> ssum (g <$> l) = v.
Proof.
  intros Hnd Ha Hv Hz. induction l as [|b l IH]; [by apply not_elem_of_nil in Ha|].
  apply NoDup_cons in Hnd as [Hb Hnd]. cbn. change (foldr sadd s0 (g <$> l)) with (ssum (g <$> l)).
  apply elem_of_cons in Ha as [->|Ha].
  - rewrite Hv, ssum_zero; [ring|]. apply Forall_fmap, Forall_forall.
    intros c Hc. cbn. apply Hz; [set_solver|]. intros ->. done.
  - rewrite IH by set_solver. rewrite (Hz b); [ring | set_solver |]. intros ->. done.
Qed.

Lemma enumerate_nodup {A} (l : list A) : NoDup (enumerate l).
Proof.
  apply (NoDup_fmap_1 fst). unfold enumerate. rewrite fst_zip by (rewrite length_seq; lia).
  apply NoDup_seq.
Qed.

Lemma delete_elem (l : list Scalar) i j x : l !! j = Some x -> i <> j -> x ∈ delete i l.
Proof.
  intros Hj Hij. apply list_elem_of_lookup. destruct (decide (j < i)%nat) as [Hlt|Hge].
  - exists j. by rewrite list_lookup_delete_lt.
  - exists (j - 1)%nat. rewrite list_lookup_delete_ge by lia. by replace (S (j - 1)) with j by lia.
Qed.

Lemma delete_not_elem (l : list Scalar) i x : NoDup l -> l !! i = Some x -> x ∉ delete i l.
Proof.
  intros Hnd Hi Hin. apply list_elem_of_lookup in Hin as [j Hj].
  destruct (decide (j < i)%nat) as [Hlt|Hge].
  - rewrite list_lookup_delete_lt in Hj by done. pose proof (NoDup_lookup _ _ _ _ Hnd Hi Hj). lia.
  - rewrite list_lookup_delete_ge in Hj by lia. pose proof (NoDup_lookup _ _ _ _ Hnd Hi Hj). lia.
Qed.

(** The interpolation takes the given value at every point. *)
Lemma interpolate_at ps vs i x :
  NoDup ps -> ps !! i = Some x -> evaluate (interpolate ps vs) x = nth i vs s0.
Proof.
  intros Hnd Hi. rewrite (proj2 (interpolate_spec ps vs x)).
  apply (ssum_single _ _ (i, x)).
  - apply enumerate_nodup.
  - by apply enumerate_lookup.
  - cbn. assert (sprod ((fun y => x - y) <$> delete i ps) <> s0) as Hne.
    { apply sprod_nonzero. intros y Hy. apply ssub_neq_0. intros ->.
      by apply (delete_not_elem _ _ _ Hnd Hi). }
    field. exact Hne.
  - intros [j y] Hj Hne. apply enumerate_lookup in Hj. cbn.
    rewrite (sprod_zero (fun z => x - z) (delete j ps) x); [ring | | ring].
    apply (delete_elem _ _ _ _ Hi). intros ->. apply Hne. congruence.
Qed.

(** Reconstruction is the interpolation's value at zero. *)
Lemma reconstruct_spec ps vs :
  length ps = length vs -> reconstruct ps vs = Some (evaluate (interpolate ps vs) s0).
Proof.
  intros Hlen. rewrite (proj2 (interpolate_spec ps vs s0)). unfold reconstruct.
  assert (forall l acc, (forall i x, (i, x) ∈ l -> ps !! i = Some x) ->
    foldl (fun total '(i, xi) => total ← total; share ← vs !! i;
      let (numerator, denominator) := lagrange_fraction ps i xi in
      Some (total + share * numerator * sinv denominator)) (Some acc) l
    = Some (acc + ssum (lagrange_term ps vs s0 <$> l))) as Hgen.
  { induction l as [|[i xi] l IH]; intros acc Hin; cbn [foldl].
    - cbn. f_equal. ring.
    - assert (ps !! i = Some xi) as Hi by (apply Hin; set_solver).
      destruct (lookup_lt_is_Some_2 vs i) as [v Hv]; [apply lookup_lt_Some in Hi; lia|].
      rewrite Hv. cbn [mbind option_bind].
      assert (lagrange_fraction ps i xi = (sprod ((fun x => s0 - x) <$> delete i ps),
        sprod ((fun x => xi - x) <$> delete i ps))) as ->.
      { unfold lagrange_fraction.
        rewrite (foldl_skip_enumerate (fun (nd : Scalar * Scalar) xj => (nd.1 * - xj, nd.2 * (xi - xj))) ps i).
        assert (forall l n d, foldl (fun (nd : Scalar * Scalar) xj => (nd.1 * - xj, nd.2 * (xi - xj))) (n, d) l
          = (n * sprod ((fun x => s0 - x) <$> l), d * sprod ((fun x => xi - x) <$> l))) as Hf.
        { clear IH. intros l'. induction l' as [|x l' IH]; intros n d; cbn; [f_equal; ring|].
          rewrite IH. unfold sprod. f_equal; ring. }
        rewrite Hf. f_equal; ring. }
      etrans; [apply IH; intros j x Hj; apply Hin; set_solver|]. f_equal. cbn.
      rewrite (nth_lookup_Some _ _ _ _ Hv). unfold ssum. ring. }
  etrans; [apply (Hgen _ s0); intros i x; apply enumerate_lookup|]. f_equal. ring.
Qed.

(** ** Long division *)

Lemma subtract_multiple (e : list Scalar) f i z : forall js r,
  (forall j, j ∈ js -> (i + j < length r)%nat) ->
  let r' := foldl (fun r j => <[(i + j)%nat := nth (i + j) r s0 - nth j e s0 * f]> r) r js in
  length r' = length r
  /\ evaluate r' z = evaluate r z - f * ssum ((fun j => nth j e s0 * spow z (i + j)) <$> js).
Proof.
  induction js as [|j js IH]; intros r Hr; cbn [foldl].
  - split; [done|]. cbn. ring.
  - destruct (IH (<[(i + j)%nat := nth (i + j) r s0 - nth j e s0 * f]> r)) as [Hl He].
    { intros j' Hj'. rewrite length_insert. apply Hr. set_solver. }
    rewrite length_insert in Hl. split; [exact Hl|]. etrans; [exact He|].
    rewrite evaluate_insert by (apply Hr; set_solver). cbn.
    unfold ssum. ring.
Qed.

Lemma ssum_cons {A} (f : A -> Scalar) a l : ssum (f <$> a :: l) = f a + ssum (f <$> l).
Proof. done. Qed.

Lemma ssum_app (a b : list Scalar) : ssum (a ++ b) = (ssum a + ssum b)%S.
Proof.
  induction a as [|v a IH]; [change (ssum b = s0 + ssum b)%S; ring|].
  change (v + ssum (a ++ b) = v + ssum a + ssum b)%S. rewrite IH. ring.
Qed.

Lemma ssum_ext {A} (f g : A -> Scalar) l :
  (forall a, a ∈ l -> f a = g a) -> ssum (f <$> l) = ssum (g <$> l).
Proof.
  induction l as [|a l IH]; intros Hfg; [done|]. rewrite !ssum_cons, IH, (Hfg a); set_solver.
Qed.

Lemma evaluate_sum_from e z : forall s,
  evaluate e z * spow z s = ssum ((fun j => nth (j - s) e s0 * spow z j) <$> seq s (length e)).
Proof.
  induction e as [|c e IH]; intros s; [cbn; ring|].
  change (seq s (length (c :: e))) with (s :: seq (S s) (length e)).
  rewrite evaluate_cons, ssum_cons, Nat.sub_diag. cbn [nth].
  rewrite (ssum_ext _ (fun j => nth (j - S s) e s0 * spow z j)).
  - rewrite <- IH. cbn [spow]. ring.
  - intros j Hj. apply elem_of_seq in Hj. by replace (j - s)%nat with (S (j - S s)) by lia.
Qed.

Lemma evaluate_sum e z : evaluate e z = ssum ((fun j => nth j e s0 * spow z j) <$> seq 0 (length e)).
Proof.
  rewrite (ssum_ext _ (fun j => nth (j - 0) e s0 * spow z j)); [|intros j _; by rewrite Nat.sub_0_r].
  rewrite <- evaluate_sum_from. cbn. ring.
Qed.

Lemma ssum_scale (f : nat -> Scalar) a l : a * ssum (f <$> l) = ssum ((fun j => a * f j) <$> l).
Proof. induction l as [|j l IH]; cbn; [ring|]. unfold ssum in *. rewrite <- IH. ring. Qed.

(** One division step subtracts a multiple of the shifted denominator. *)
Lemma divide_step_spec e lead q r i z :
  (0 < length e)%nat -> (i + length e <= length r)%nat -> (i < length q)%nat ->
  let (q', r') := divide_step e lead (q, r) i in
  length q' = length q /\ length r' = length r
  /\ evaluate r' z + evaluate e z * evaluate q' z
     = evaluate r z + evaluate e z * (evaluate q z - nth i q s0 * spow z i).
Proof.
  intros He Hr Hq. unfold divide_step.
  set (f := nth (i + (length e - 1)) r s0 * lead).
  destruct (subtract_multiple e f i z (seq 0 (S (length e - 1))) r) as [Hl Hev].
  { intros j Hj. apply elem_of_seq in Hj. lia. }
  split; [apply length_insert|]. split; [exact Hl|]. rewrite evaluate_insert by done.
  etrans; [apply (f_equal (fun a => a + _)); exact Hev|].
  replace (S (length e - 1)) with (length e) by lia.
  assert (ssum ((fun j => nth j e s0 * spow z (i + j)) <$> seq 0 (length e)) = spow z i * evaluate e z) as ->.
  { rewrite evaluate_sum, ssum_scale. apply ssum_ext. intros j _. rewrite spow_add. ring. }
  ring.
Qed.

Lemma nth_insert (l : list Scalar) k j v :
  (k < length l)%nat -> nth j (<[k := v]> l) s0 = if decide (j = k) then v else nth j l s0.
Proof.
  intros Hk. rewrite !nth_lookup. case_decide as Hj.
  - subst. by rewrite list_lookup_insert_eq.
  - by rewrite list_lookup_insert_ne.
Qed.

Lemma subtract_length (e : list Scalar) f i : forall js r,
  length (foldl (fun r j => <[(i + j)%nat := nth (i + j) r s0 - nth j e s0 * f]> r) r js) = length r.
Proof. induction js as [|j js IH]; intros r; [done|]. cbn [foldl]. by rewrite IH, length_insert. Qed.

(** Positions outside the subtraction keep their coefficient. *)
Lemma subtract_outside (e : list Scalar) f i k : forall js r,
  (forall j, j ∈ js -> (i + j < length r)%nat) -> (forall j, j ∈ js -> k <> (i + j)%nat) ->
  nth k (foldl (fun r j => <[(i + j)%nat := nth (i + j) r s0 - nth j e s0 * f]> r) r js) s0 = nth k r s0.
Proof.
  induction js as [|j js IH]; intros r Hr Hk; [done|]. cbn [foldl]. rewrite IH.
  - rewrite nth_insert by (apply Hr; set_solver). rewrite decide_False; [done|]. apply Hk. set_solver.
  - intros j' Hj'. rewrite length_insert. apply Hr. set_solver.
  - intros j' Hj'. apply Hk. set_solver.
Qed.

(** The step clears the coefficient it divides. *)
Lemma divide_step_clears low q r i k :
  (i + length low < length r)%nat -> (i + length low <= k)%nat ->
  (forall k', (i + length low < k')%nat -> nth k' r s0 = s0) ->
  nth k (divide_step (low ++ [s1]) (sinv s1) (q, r) i).2 s0 = s0.
Proof.
  intros Hr Hk Hz. unfold divide_step. cbn [snd]. rewrite length_app. cbn [length]. replace (length low + 1 - 1)%nat with (length low) by lia.
  destruct (decide (k = i + length low)%nat) as [->|Hne].
  - rewrite seq_S, foldl_app. cbn [foldl Nat.add].
    rewrite nth_insert, decide_True by (done || (rewrite subtract_length; lia)).
    rewrite subtract_outside; [|intros j Hj; apply elem_of_seq in Hj; lia..].
    rewrite app_nth2, Nat.sub_diag by lia. cbn. field. apply scalar_1_neq_0.
  - rewrite subtract_outside; [apply Hz; lia | |]; intros j Hj; apply elem_of_seq in Hj; lia.
Qed.

Lemma divide_loop low n : forall q r,
  (n <= length q)%nat -> (n + length low <= length r)%nat ->
  (forall i, (i < n)%nat -> nth i q s0 = s0) ->
  (forall k, (n + length low <= k)%nat -> nth k r s0 = s0) ->
  let x := foldl (divide_step (low ++ [s1]) (sinv s1)) (q, r) (reverse (seq 0 n)) in
  length x.1 = length q /\ length x.2 = length r
  /\ (forall k, (length low <= k)%nat -> nth k x.2 s0 = s0)
  /\ forall z, evaluate x.2 z + evaluate (low ++ [s1]) z * evaluate x.1 z
             = evaluate r z + evaluate (low ++ [s1]) z * evaluate q z.
Proof.
  induction n as [|n IH]; intros q r Hq Hr Hzq Hzr; [done|].
  rewrite seq_S, reverse_snoc. cbn [foldl Nat.add].
  pose proof (fun z => divide_step_spec (low ++ [s1]) (sinv s1) q r n z) as Hstep.
  pose proof (fun k => divide_step_clears low q r n k) as Hclear.
  assert (forall i, (i < n)%nat -> nth i (divide_step (low ++ [s1]) (sinv s1) (q, r) n).1 s0 = s0) as Hlow.
  { intros i Hi. cbn. rewrite nth_insert, decide_False by lia. apply Hzq. lia. }
  destruct (divide_step (low ++ [s1]) (sinv s1) (q, r) n) as [q' r']. cbn [fst snd] in *.
  rewrite length_app in Hstep. cbn [length] in Hstep.
  destruct (Hstep s0) as (Hlq & Hlr & _); [lia..|].
  destruct (IH q' r') as (Hl1 & Hl2 & Hz & Hev); [lia | lia | done | |].
  { intros k Hk. apply Hclear; [lia | lia |]. intros k' Hk'. apply Hzr. lia. }
  rewrite Hl1, Hl2. split_and!; [done | done | done |]. intros z.
  destruct (Hstep z) as (_ & _ & Hz'); [lia..|]. etrans; [apply Hev|]. rewrite Hz'.
  rewrite (Hzq n) by lia. ring.
Qed.

Lemma evaluate_take d r z :
  (forall k, (d <= k)%nat -> nth k r s0 = s0) -> evaluate (take d r) z = evaluate r z.
Proof.
  intros Hz. rewrite <- (take_drop d r) at 2. rewrite evaluate_app, (evaluate_zero_poly (drop d r)); [ring|].
  apply Forall_forall. intros v Hv. apply list_elem_of_lookup in Hv as [k Hk].
  rewrite lookup_drop in Hk. rewrite <- (Hz (d + k)%nat) by lia. symmetry. by apply nth_lookup_Some.
Qed.

(** Division by a polynomial with leading coefficient one. *)
Lemma divide_spec low q :
  (length low < length q)%nat ->
  exists quotient remainder,
    divide q (low ++ [s1]) = Some (quotient, all_zero remainder)
    /\ length quotient = (length q - length low)%nat /\ (length remainder <= length low)%nat
    /\ forall z, evaluate q z = evaluate (low ++ [s1]) z * evaluate quotient z + evaluate remainder z.
Proof.
  intros Hlen. unfold divide. rewrite length_app. cbn [length].
  replace (length low + 1 - 1)%nat with (length low) by lia.
  rewrite (proj2 (Nat.leb_gt _ _)) by done.
  replace (nth (length low) (low ++ [s1]) s0) with s1 by (rewrite app_nth2, Nat.sub_diag by lia; done).
  pose proof (divide_loop low (length q - length low) (replicate (length q - length low) s0) q) as Hloop.
  rewrite length_replicate in Hloop.
  destruct (foldl _ _ _) as [quotient remainder]. cbn [fst snd] in Hloop.
  destruct Hloop as (Hl1 & Hl2 & Hz & Hev); [lia | lia | | |].
  { intros i Hi. rewrite nth_lookup, lookup_replicate_2 by lia. done. }
  { intros k Hk. rewrite nth_lookup, lookup_ge_None_2 by lia. done. }
  eexists quotient, _. split; [reflexivity|].
  replace (Nat.min (length low) (length remainder)) with (length low) by lia.
  split; [lia|]. split; [rewrite length_take; lia|]. intros z.
  rewrite evaluate_take by done. specialize (Hev z). rewrite evaluate_replicate in Hev.
  replace (evaluate q z) with (evaluate q z + evaluate (low ++ [s1]) z * s0) by ring.
  rewrite <- Hev. ring.
Qed.

Lemma all_zero_spec l : all_zero l = true <-> zero_poly l.
Proof.
  unfold all_zero, zero_poly. rewrite forallb_forall, Forall_forall. setoid_rewrite list_elem_of_In.
  setoid_rewrite bool_decide_eq_true. done.
Qed.
End Algebra.

(** ** Gaussian elimination

    [solve] against linear algebra: a row operation keeps the solutions, the
    elimination reaches a form with one pivot per used row and no other entry in
    a pivot column, and so [solve] returns a solution whenever the system has
    one. *)

Open Scope nat_scope.

Section Gauss.
Context `{L : ScalarLaws}.
Add Field gauss_field : scalar_field.
Context (u : nat).
Implicit Types (m : list Row) (row pivot : Row) (x : nat -> Scalar).

(** The left-hand side of a row minus its right-hand side. *)
Definition residual row x : Scalar :=
  (ssum ((fun c => nth c row.1 s0 * x c) <$> seq 0 u) - row.2)%S.

Definition solves m x : Prop := Forall (fun row => residual row x = s0) m.

Definition wide row : Prop := length row.1 = u.

(** ** Row operations *)

Lemma nth_imap (f : nat -> Scalar -> Scalar) (l : list Scalar) c :
  nth c (imap f l) s0 = if c <? length l then f c (nth c l s0) else s0.
Proof.
  rewrite nth_lookup, list_lookup_imap. destruct (Nat.ltb_spec c (length l)) as [Hc|Hc].
  - destruct (lookup_lt_is_Some_2 l c Hc) as [v Hv]. rewrite Hv, (nth_lookup_Some _ _ _ _ Hv). done.
  - by rewrite lookup_ge_None_2.
Qed.

Lemma nth_beyond (l : list Scalar) c : length l <= c -> nth c l s0 = s0.
Proof. intros Hc. by rewrite nth_lookup, lookup_ge_None_2. Qed.

Lemma scale_cell column k row c :
  (forall c, c < column -> nth c row.1 s0 = s0) ->
  nth c (scale_row column k row).1 s0 = (nth c row.1 s0 * k)%S.
Proof.
  intros Hz. cbn. rewrite nth_imap. destruct (Nat.ltb_spec c (length row.1)) as [Hc|Hc].
  - destruct (Nat.leb_spec column c) as [|Hlt]; [done|]. rewrite Hz by done. ring.
  - rewrite nth_beyond by done. ring.
Qed.

Lemma reduce_cell column pivot row c :
  wide row -> wide pivot -> (forall c, c < column -> nth c pivot.1 s0 = s0) ->
  nth c (reduce_row column pivot row).1 s0
  = (nth c row.1 s0 - nth c pivot.1 s0 * nth column row.1 s0)%S.
Proof.
  intros Hr Hp Hz. unfold reduce_row. destruct (decide (nth column row.1 s0 = s0)) as [E|E]; cbn.
  - rewrite E. ring.
  - rewrite nth_imap. destruct (Nat.ltb_spec c (length row.1)) as [Hc|Hc].
    + destruct (Nat.leb_spec column c) as [|Hlt]; [done|]. rewrite (Hz c) by done. ring.
    + rewrite !nth_beyond by (rewrite ?Hp, <- ?Hr; done). ring.
Qed.

Lemma scale_rhs column k row : (scale_row column k row).2 = (row.2 * k)%S.
Proof. done. Qed.

Lemma reduce_rhs column pivot row :
  (reduce_row column pivot row).2 = (row.2 - pivot.2 * nth column row.1 s0)%S.
Proof.
  unfold reduce_row. destruct (decide (nth column row.1 s0 = s0)) as [E|E]; [|done].
  rewrite E. ring.
Qed.

Lemma ssum_linear (f g : nat -> Scalar) (a : Scalar) l :
  ssum ((fun c => (f c + a * g c)%S) <$> l) = (ssum (f <$> l) + a * ssum (g <$> l))%S.
Proof. induction l as [|c l IH]; [cbn; ring|]. rewrite !ssum_cons, IH. ring. Qed.

Lemma residual_scale column k row x :
  (forall c, c < column -> nth c row.1 s0 = s0) ->
  residual (scale_row column k row) x = (k * residual row x)%S.
Proof.
  intros Hz. unfold residual. rewrite scale_rhs.
  rewrite (ssum_ext _ (fun c => s0 + k * (nth c row.1 s0 * x c))%S);
    [|intros c _; rewrite scale_cell by done; ring].
  rewrite ssum_linear, (ssum_zero ((fun _ => s0) <$> _)); [ring|].
  apply Forall_fmap, Forall_forall. done.
Qed.

Lemma residual_reduce column pivot row x :
  wide row -> wide pivot -> (forall c, c < column -> nth c pivot.1 s0 = s0) ->
  residual (reduce_row column pivot row) x
  = (residual row x - nth column row.1 s0 * residual pivot x)%S.
Proof.
  intros Hr Hp Hz. unfold residual. rewrite reduce_rhs.
  rewrite (ssum_ext _ (fun c => nth c row.1 s0 * x c
    + (- nth column row.1 s0) * (nth c pivot.1 s0 * x c))%S);
    [|intros c _; rewrite reduce_cell by done; ring].
  rewrite ssum_linear. ring.
Qed.

Lemma scale_wide column k row : wide row -> wide (scale_row column k row).
Proof. unfold wide. cbn. by rewrite length_imap. Qed.
Lemma reduce_wide column pivot row : wide row -> wide (reduce_row column pivot row).
Proof. unfold wide, reduce_row. destruct (decide _); [done|]. cbn. by rewrite length_imap. Qed.

(** ** One column *)

Abbreviation line m r := (nth r m (([] : list Scalar), s0)).

(** The matrix after the pivot of row [k] is found in row [found]. *)
Definition swapped (k found : nat) m (r : nat) : Row :=
  if decide (r = k) then line m found else if decide (r = found) then line m k else line m r.

Lemma nth_row_insert m k (v : Row) r :
  k < length m -> line (<[k := v]> m) r = if decide (r = k) then v else line m r.
Proof.
  intros Hk. rewrite !nth_lookup. case_decide as Hr.
  - subst. by rewrite list_lookup_insert_eq.
  - by rewrite list_lookup_insert_ne.
Qed.

Lemma swap_rows_line k found m r :
  k < length m -> found < length m -> line (swap_rows k found m) r = swapped k found m r.
Proof.
  intros Hk Hf. unfold swap_rows, swapped. rewrite nth_row_insert by (rewrite length_insert; done).
  case_decide; [done|]. rewrite nth_row_insert by done. done.
Qed.

Lemma find_pivot_some m k column found :
  find_pivot m k column = Some found ->
  k <= found < length m /\ cell m found column <> s0.
Proof.
  intros Hf. apply find_some in Hf as [Hin Hc]. apply in_seq in Hin.
  split; [lia|]. intros E. rewrite bool_decide_eq_true_2 in Hc by done. done.
Qed.

Lemma find_pivot_none m k column r :
  find_pivot m k column = None -> k <= r -> cell m r column = s0.
Proof.
  intros Hf Hr. destruct (decide (r < length m)) as [Hlt|Hge].
  - assert (In r (seq k (length m - k))) as Hin by (apply in_seq; lia).
    pose proof (find_none _ _ Hf r Hin) as Hn. cbn beta in Hn.
    apply negb_false_iff, bool_decide_eq_true in Hn. exact Hn.
  - unfold cell. rewrite (nth_overflow m) by lia. by destruct column.
Qed.

(** The pivot row and the other rows after one step. *)
Lemma eliminate_column_line column e found r :
  find_pivot (matrix e) (pivots e) column = Some found ->
  let k := pivots e in
  let pivot := scale_row column (sinv (cell (matrix e) found column)) (line (matrix e) found) in
  r < length (matrix e) ->
  line (matrix (eliminate_column column e)) r
  = if decide (r = k) then pivot else reduce_row column pivot (swapped k found (matrix e) r).
Proof.
  intros Hf k pivot Hr. pose proof (find_pivot_some _ _ _ _ Hf) as [Hrange _].
  unfold eliminate_column. rewrite Hf. cbn [matrix]. fold k.
  assert (length (swap_rows k found (matrix e)) = length (matrix e)) as Hsl.
  { unfold swap_rows. by rewrite !length_insert. }
  assert (cell (swap_rows k found (matrix e)) k column = cell (matrix e) found column) as Hcell.
  { unfold cell. rewrite swap_rows_line by lia. unfold swapped. by rewrite decide_True. }
  rewrite Hcell.
  assert (alter (scale_row column (sinv (cell (matrix e) found column))) k (swap_rows k found (matrix e))
    = <[k := pivot]> (swap_rows k found (matrix e))) as ->.
  { apply list_eq. intros i. destruct (decide (i = k)) as [->|Hi].
    - rewrite list_lookup_alter_eq, list_lookup_insert_eq by lia.
      destruct (lookup_lt_is_Some_2 (swap_rows k found (matrix e)) k) as [v Hv]; [lia|].
      rewrite Hv. cbn. unfold pivot. do 2 f_equal.
      pose proof (swap_rows_line k found (matrix e) k) as E. unfold swapped in E.
      rewrite decide_True, (nth_lookup_Some _ _ _ _ Hv) in E by done. apply E; lia.
    - by rewrite list_lookup_alter_ne, list_lookup_insert_ne. }
  rewrite (nth_row_insert _ k pivot k), decide_True by (done || lia).
  rewrite nth_lookup, list_lookup_imap.
  destruct (lookup_lt_is_Some_2 (<[k := pivot]> (swap_rows k found (matrix e))) r) as [v Hv];
    [rewrite length_insert; lia|].
  rewrite Hv. cbn.
  assert (v = line (<[k := pivot]> (swap_rows k found (matrix e))) r) as ->
    by (symmetry; by apply nth_lookup_Some).
  rewrite nth_row_insert by lia. destruct (Nat.eqb_spec r k) as [->|Hrk].
  - by rewrite !decide_True.
  - rewrite !decide_False by done. by rewrite swap_rows_line by lia.
Qed.

Lemma eliminate_column_length column e :
  length (matrix (eliminate_column column e)) = length (matrix e).
Proof.
  unfold eliminate_column. destruct (find_pivot _ _ _) as [found|]; [|done]. cbn.
  rewrite length_imap, length_alter. unfold swap_rows. by rewrite !length_insert.
Qed.

(** ** The invariant *)

Record reduced (m0 : list Row) (column : nat) (e : Elimination) : Prop := {
  red_wide : Forall wide (matrix e);
  red_length : length (matrix e) = length m0;
  red_table : length (pivot_of e) = u;
  red_solves x : solves (matrix e) x <-> solves m0 x;
  red_le : pivots e <= length (matrix e);
  red_below r c : pivots e <= r -> c < column -> cell (matrix e) r c = s0;
  red_pivot c r : pivot_of e !! c = Some (Some r) ->
    c < column /\ r < pivots e /\ cell (matrix e) r c = s1
    /\ forall r', r' <> r -> cell (matrix e) r' c = s0;
  red_owner r : r < pivots e -> exists c, pivot_of e !! c = Some (Some r);
  red_inj c c' r :
    pivot_of e !! c = Some (Some r) -> pivot_of e !! c' = Some (Some r) -> c = c'
}.

Lemma cell_beyond m r c : length m <= r -> cell m r c = s0.
Proof. intros Hr. unfold cell. rewrite (nth_overflow m) by done. by destruct c. Qed.

Lemma wide_line m r : Forall wide m -> r < length m -> wide (line m r).
Proof. intros Hm Hr. eapply Forall_nth in Hm; [exact Hm | exact Hr]. Qed.

(** A column without a pivot changes nothing. *)
Lemma reduced_skip m0 column e :
  reduced m0 column e -> find_pivot (matrix e) (pivots e) column = None ->
  reduced m0 (S column) e.
Proof.
  intros [? ? ? ? ? Hbelow Hpivot ? ?] Hf. split; try done.
  - intros r c Hr Hc. destruct (decide (c = column)) as [->|Hne].
    + by eapply find_pivot_none.
    + apply Hbelow; lia.
  - intros c r Hcr. apply Hpivot in Hcr as (Hc & Hrest). split; [lia|done].
Qed.

Section Step.
Context (m0 : list Row) (column found : nat) (e : Elimination).
Context (Hred : reduced m0 column e) (Hcol : column < u).
Context (Hf : find_pivot (matrix e) (pivots e) column = Some found).
Let k := pivots e.
Let m := matrix e.
Let inverse := sinv (cell m found column).
Let pivot := scale_row column inverse (line m found).
Let m' := matrix (eliminate_column column e).

Lemma step_range : k <= found < length m /\ cell m found column <> s0.
Proof. exact (find_pivot_some _ _ _ _ Hf). Qed.

Lemma step_prefix c : c < column -> nth c (line m found).1 s0 = s0.
Proof. intros Hc. apply (red_below _ _ _ Hred found c); [apply step_range | done]. Qed.

Lemma pivot_cell c : nth c pivot.1 s0 = (cell m found c * inverse)%S.
Proof. apply scale_cell. exact step_prefix. Qed.

Lemma pivot_prefix c : c < column -> nth c pivot.1 s0 = s0.
Proof. intros Hc. rewrite pivot_cell. unfold cell. rewrite step_prefix by done. ring. Qed.

Lemma pivot_one : nth column pivot.1 s0 = s1.
Proof. rewrite pivot_cell. unfold inverse. field. apply step_range. Qed.

Lemma swapped_wide r : r < length m -> wide (swapped k found m r).
Proof.
  intros Hr. pose proof step_range as [? _].
  unfold swapped. repeat case_decide; apply wide_line; (apply (red_wide _ _ _ Hred) || (fold m; lia)).
Qed.

Lemma pivot_wide : wide pivot.
Proof. apply scale_wide, wide_line; [apply (red_wide _ _ _ Hred) | apply step_range]. Qed.

Lemma step_cell r c :
  cell m' r c
  = if decide (r = k) then nth c pivot.1 s0
    else if decide (r < length m) then
      (nth c (swapped k found m r).1 s0 - nth c pivot.1 s0 * nth column (swapped k found m r).1 s0)%S
    else s0.
Proof.
  pose proof step_range as [Hrange _]. destruct (decide (r < length m)) as [Hr|Hr].
  - unfold cell, m'. rewrite (eliminate_column_line column e found r Hf Hr).
    fold k m inverse pivot. case_decide; [done|].
    apply reduce_cell; [by apply swapped_wide | exact pivot_wide | exact pivot_prefix].
  - rewrite decide_False by (unfold k in *; lia). apply cell_beyond. unfold m'.
    rewrite eliminate_column_length. fold m. lia.
Qed.

(** Other rows lose their entry in the pivot column. *)
Lemma step_column r : cell m' r column = if decide (r = k) then s1 else s0.
Proof.
  rewrite step_cell. case_decide; [apply pivot_one|]. case_decide; [|done].
  rewrite pivot_one. ring.
Qed.

(** In a column that is zero on row [k] and below, the rows above keep their
    entries and the others stay zero. *)
Lemma step_other r c :
  (forall r, k <= r -> cell m r c = s0) -> cell m' r c = if decide (r < k) then cell m r c else s0.
Proof.
  intros Hz. pose proof step_range as [Hrange _].
  assert (nth c pivot.1 s0 = s0) as Hp by (rewrite pivot_cell, Hz by lia; ring).
  rewrite step_cell, Hp. case_decide as Hrk; [by rewrite decide_False by lia|].
  destruct (decide (r < length m)) as [Hr|Hr]; [|rewrite decide_False by lia; done].
  unfold swapped. rewrite (decide_False (P := r = k)) by done. destruct (decide (r = found)) as [->|Hrf].
  - rewrite (decide_False (P := found < k)) by lia. change (nth c (line m k).1 s0) with (cell m k c).
    rewrite Hz by lia. ring.
  - change (nth c (line m r).1 s0) with (cell m r c). case_decide; [ring|]. rewrite Hz by lia. ring.
Qed.

Lemma step_solves x : solves m' x <-> solves m x.
Proof.
  pose proof step_range as [Hrange Hne].
  assert (length m' = length m) as Hlen by apply eliminate_column_length.
  assert (forall m, solves m x <-> forall r, r < length m -> residual (line m r) x = s0) as Hs.
  { intros mm. exact (Forall_nth (fun row => residual row x = s0) ([], s0) mm). }
  assert (residual pivot x = inverse * residual (line m found) x)%S as Hpiv
    by (apply residual_scale; exact step_prefix).
  assert (forall r, r < length m -> residual (line m' r) x
    = if decide (r = k) then residual pivot x
      else residual (swapped k found m r) x
           - nth column (swapped k found m r).1 s0 * residual pivot x)%S as Hline.
  { intros r Hr. unfold m'. rewrite (eliminate_column_line column e found r Hf Hr).
    fold k m inverse pivot. case_decide; [done|].
    apply residual_reduce; [by apply swapped_wide | exact pivot_wide | exact pivot_prefix]. }
  assert (inverse <> s0) as Hinv.
  { unfold inverse. intros E. apply scalar_1_neq_0.
    replace s1 with (sinv (cell m found column) * cell m found column)%S by (field; exact Hne).
    rewrite E. ring. }
  rewrite !Hs, Hlen. split.
  - intros Ha.
    assert (residual pivot x = s0) as Hp0.
    { specialize (Ha k). rewrite Hline, decide_True in Ha by (done || lia). apply Ha. lia. }
    assert (residual (line m found) x = s0) as Hf0.
    { rewrite Hpiv in Hp0. by destruct (smul_eq_0 _ _ Hp0). }
    assert (forall r, r < length m -> r <> k -> residual (swapped k found m r) x = s0) as Hsw.
    { intros r Hr Hrk. specialize (Ha r Hr). rewrite Hline, decide_False, Hp0 in Ha by done.
      rewrite <- Ha. ring. }
    intros r Hr. destruct (decide (r = found)) as [->|Hrf]; [done|].
    destruct (decide (r = k)) as [->|Hrk].
    + specialize (Hsw found ltac:(lia)). unfold swapped in Hsw.
      rewrite decide_False, decide_True in Hsw by congruence. apply Hsw. congruence.
    + specialize (Hsw r Hr Hrk). unfold swapped in Hsw. by rewrite !decide_False in Hsw.
  - intros Ha r Hr. rewrite Hline by done.
    assert (residual pivot x = s0) as Hp0 by (rewrite Hpiv, Ha by lia; ring).
    case_decide; [done|]. rewrite Hp0.
    assert (residual (swapped k found m r) x = s0) as -> by
      (unfold swapped; repeat case_decide; apply Ha; lia). ring.
Qed.

Lemma step_wide : Forall wide m'.
Proof.
  apply (Forall_nth wide ([], s0)). intros r Hr.
  assert (r < length m) as Hr' by (unfold m' in Hr; by rewrite eliminate_column_length in Hr).
  change (wide (line (matrix (eliminate_column column e)) r)).
  rewrite (eliminate_column_line column e found r Hf Hr').
  fold k m inverse pivot. case_decide; [exact pivot_wide|]. by apply reduce_wide, swapped_wide.
Qed.

Lemma step_table c r :
  pivot_of (eliminate_column column e) !! c = Some (Some r) <->
  (c = column /\ r = k) \/ (c <> column /\ pivot_of e !! c = Some (Some r)).
Proof.
  unfold eliminate_column. rewrite Hf. cbn [pivot_of]. fold k.
  pose proof (red_table _ _ _ Hred) as Ht.
  destruct (decide (c = column)) as [->|Hc].
  - rewrite list_lookup_insert_eq by lia. naive_solver.
  - rewrite list_lookup_insert_ne by done. naive_solver.
Qed.

Lemma step_pivots : pivots (eliminate_column column e) = S k.
Proof. unfold eliminate_column. by rewrite Hf. Qed.

Lemma reduced_step : reduced m0 (S column) (eliminate_column column e).
Proof.
  pose proof step_range as [Hrange _]. split.
  - exact step_wide.
  - rewrite eliminate_column_length. apply (red_length _ _ _ Hred).
  - unfold eliminate_column. rewrite Hf. cbn. rewrite length_insert. apply (red_table _ _ _ Hred).
  - intros x. etrans; [apply step_solves | apply (red_solves _ _ _ Hred)].
  - rewrite step_pivots, eliminate_column_length. fold m. lia.
  - rewrite step_pivots. fold m'. intros r c Hr Hc. destruct (decide (c = column)) as [->|Hne].
    + by rewrite step_column, decide_False by lia.
    + rewrite step_other, decide_False by (lia || (intros r' Hr'; apply (red_below _ _ _ Hred); [done|lia])).
      done.
  - rewrite step_pivots. fold m'. intros c r Hcr. apply step_table in Hcr as [[-> ->]|[Hc Hcr]].
    + split_and!; [lia | lia | by rewrite step_column, decide_True |].
      intros r' Hr'. by rewrite step_column, decide_False.
    + destruct (red_pivot _ _ _ Hred c r Hcr) as (Hlt & Hr & H1 & H0).
      fold k in Hr. fold m in H1. fold m in H0.
      assert (forall r', k <= r' -> cell m r' c = s0) as Hz by (intros r' Hr'; apply H0; lia).
      split_and!; [lia | lia | rewrite step_other, decide_True by (done || lia); done |].
      intros r' Hr'. rewrite step_other by done. case_decide; [by apply H0|done].
  - rewrite step_pivots. intros r Hr. destruct (decide (r = k)) as [->|Hne].
    + exists column. apply step_table. by left.
    + destruct (red_owner _ _ _ Hred r) as [c Hc]; [fold k; lia|]. exists c. apply step_table. right.
      split; [|done]. apply (red_pivot _ _ _ Hred) in Hc as [Hc _]. lia.
  - intros c c' r Hc Hc'. apply step_table in Hc. apply step_table in Hc'.
    destruct Hc as [[-> ->]|[Hc Hcr]], Hc' as [[-> Hr]|[Hc' Hcr']]; try done.
    + apply (red_pivot _ _ _ Hred) in Hcr' as (_ & Hlt & _). fold k in Hlt. lia.
    + subst r. apply (red_pivot _ _ _ Hred) in Hcr as (_ & Hlt & _). fold k in Hlt. lia.
    + by eapply (red_inj _ _ _ Hred).
Qed.
End Step.

(** ** The whole elimination *)

Lemma reduced_column m0 column e :
  reduced m0 column e -> column < u -> reduced m0 (S column) (eliminate_column column e).
Proof.
  intros Hred Hcol. destruct (find_pivot (matrix e) (pivots e) column) as [found|] eqn:Hf.
  - by eapply reduced_step.
  - unfold eliminate_column. rewrite Hf. by apply reduced_skip.
Qed.

Lemma reduced_eliminate m0 n : forall column e,
  reduced m0 column e -> column + n = u ->
  exists column', reduced m0 column' (eliminate (seq column n) e)
    /\ (column' = u \/ pivots (eliminate (seq column n) e) = length (matrix (eliminate (seq column n) e))).
Proof.
  induction n as [|n IH]; intros column e Hred Hn; cbn [seq eliminate].
  - exists column. split; [done|]. left. lia.
  - pose proof (reduced_column m0 column e Hred ltac:(lia)) as Hred'.
    destruct (bool_decide _ && bool_decide _) eqn:Hb.
    + apply andb_true_iff in Hb as [Hb _]. apply bool_decide_eq_true in Hb.
      exists (S column). split; [done|]. by right.
    + apply IH; [done|lia].
Qed.

Lemma reduced_start m : Forall wide m -> reduced m 0 (mkElimination m (replicate u None) 0).
Proof.
  intros Hw.
  assert (forall c r, (replicate u None : list (option nat)) !! c = Some (Some r) -> False) as Hnone.
  { intros c r Hc. apply lookup_replicate in Hc as [? _]. done. }
  split; cbn; try done; try (intros; lia); try (intros; exfalso; by eapply Hnone).
  apply length_replicate.
Qed.

(** The value of an unknown read off the reduced system. *)
Definition read_off (e : Elimination) (c : nat) : Scalar :=
  match pivot_of e !! c with
  | Some (Some r) => (line (matrix e) r).2
  | _ => s0
  end.

Lemma residual_pivot_row m0 column e r :
  reduced m0 column e -> r < pivots e -> residual (line (matrix e) r) (read_off e) = s0.
Proof.
  intros Hred Hr. destruct (red_owner _ _ _ Hred r Hr) as [c0 Hc0].
  destruct (red_pivot _ _ _ Hred c0 r Hc0) as (_ & _ & Hone & _).
  unfold residual. apply ssub_eq_0.
  apply (ssum_single _ _ c0).
  - apply NoDup_seq.
  - apply elem_of_seq. apply lookup_lt_Some in Hc0. rewrite (red_table _ _ _ Hred) in Hc0. lia.
  - change (nth c0 (line (matrix e) r).1 s0) with (cell (matrix e) r c0). rewrite Hone.
    unfold read_off. rewrite Hc0. ring.
  - intros c _ Hne. change (nth c (line (matrix e) r).1 s0) with (cell (matrix e) r c).
    unfold read_off. destruct (pivot_of e !! c) as [[r'|]|] eqn:Hc; [|ring|ring].
    destruct (red_pivot _ _ _ Hred c r' Hc) as (_ & _ & _ & Hzero).
    rewrite Hzero; [ring|]. intros ->. apply Hne. by eapply (red_inj _ _ _ Hred).
Qed.

(** A row of zeros with a solution has right-hand side zero. *)
Lemma residual_zero_row row x y :
  (forall c, nth c row.1 s0 = s0) -> residual row x = s0 -> row.2 = s0 /\ residual row y = s0.
Proof.
  intros Hz. assert (forall x, residual row x = - row.2)%S as Hres.
  { intros x'. unfold residual. rewrite ssum_zero; [ring|]. apply Forall_fmap, Forall_forall.
    intros c _. cbn. rewrite Hz. ring. }
  rewrite !Hres. intros E. assert (row.2 = s0) as Hr; [|rewrite Hr; split; [done|ring]].
  replace row.2 with (- - row.2)%S by ring. rewrite E. ring.
Qed.

(** If the system has a solution, [solve] returns one. *)
Lemma solve_complete m x0 :
  Forall wide m -> solves m x0 ->
  exists s, solve m u = Some s /\ length s = u /\ solves m (fun c => nth c s s0).
Proof.
  intros Hw Hx0. unfold solve.
  destruct (reduced_eliminate m u 0 _ (reduced_start m Hw)) as (column & Hred & Hend); [done|].
  set (e := eliminate (seq 0 u) (mkElimination m (replicate u None) 0)) in *.
  pose proof (proj2 (red_solves _ _ _ Hred x0) Hx0) as Hex0.
  assert (existsb (fun line => negb (bool_decide (line.2 = s0))
    && forallb (fun v => bool_decide (v = s0)) line.1) (drop (pivots e) (matrix e)) = false) as ->.
  { apply not_true_is_false. intros Hb. apply existsb_exists in Hb as (row & Hin & Hb).
    apply andb_true_iff in Hb as [Hne Hz]. apply negb_true_iff, bool_decide_eq_false in Hne. apply Hne.
    apply list_elem_of_In, list_elem_of_lookup in Hin as [i Hi]. rewrite lookup_drop in Hi.
    eapply Forall_lookup in Hex0; [|exact Hi].
    apply (residual_zero_row row x0 x0); [|exact Hex0]. intros c. rewrite nth_lookup.
    destruct (row.1 !! c) as [v|] eqn:Hv; [|done]. rewrite forallb_forall in Hz.
    apply (bool_decide_eq_true_1 (v = s0)), Hz, list_elem_of_In. by eapply list_elem_of_lookup_2. }
  eexists. split; [reflexivity|]. split; [by rewrite length_fmap, length_seq|].
  apply (red_solves _ _ _ Hred). apply (Forall_nth _ ([], s0)). intros r Hr.
  assert (residual (line (matrix e) r) (read_off e) = s0) as Hres.
  { destruct (decide (r < pivots e)) as [Hlt|Hge]; [by eapply residual_pivot_row|].
    destruct Hend as [->|Hfull]; [|exfalso; apply Hge; rewrite Hfull; exact Hr].
    apply (residual_zero_row _ x0); [|by eapply (proj1 (Forall_nth _ ([], s0) _) Hex0)].
    intros c. destruct (decide (c < u)) as [Hc|Hc].
    - apply (red_below _ _ _ Hred r c); [by apply Nat.nlt_ge | done].
    - apply nth_beyond. pose proof (wide_line _ _ (red_wide _ _ _ Hred) Hr) as Hwl.
      unfold wide in Hwl. lia. }
  etrans; [|exact Hres]. unfold residual. apply (f_equal (fun v => v - _)%S). apply ssum_ext.
  intros c Hc. apply (f_equal (smul _)). apply elem_of_seq in Hc.
  apply nth_lookup_Some. rewrite list_lookup_fmap, lookup_seq_lt by lia. done.
Qed.
End Gauss.

Open Scope nat_scope.

Lemma filter_partition {A} (p : A -> bool) l :
  length (List.filter p l) + length (List.filter (fun a => negb (p a)) l) = length l.
Proof. induction l as [|a l IH]; cbn; [done|]. destruct (p a); cbn; lia. Qed.

Lemma filter_nodup {A} (p : A -> bool) l : NoDup l -> NoDup (List.filter p l).
Proof. rewrite !NoDup_ListNoDup. apply List.NoDup_filter. Qed.

Lemma filter_elem_of {A} (p : A -> bool) l a : a ∈ List.filter p l <-> a ∈ l /\ p a = true.
Proof. rewrite !list_elem_of_In. apply filter_In. Qed.

Lemma filter_extensional {A} (p q : A -> bool) l :
  (forall a, a ∈ l -> p a = q a) -> List.filter p l = List.filter q l.
Proof.
  induction l as [|a l IH]; intros Hpq; [done|]. cbn. rewrite (Hpq a), IH by set_solver. done.
Qed.

Section Decoder.
Context `{L : ScalarLaws}.
Add Field decoder_field : scalar_field.
Implicit Types (ps shares P : list Scalar) (degree k : nat).

(** ** Codewords and wrong shares *)

Definition fits ps shares P (i : nat) : bool :=
  bool_decide (evaluate P (nth i ps s0) = nth i shares s0).

(** The positions whose share is not the polynomial's value. *)
Definition wrong ps shares P : list nat :=
  List.filter (fun i => negb (fits ps shares P i)) (seq 0 (length ps)).

Definition good ps shares P : list nat := List.filter (fits ps shares P) (seq 0 (length ps)).

(** The points at some positions. *)
Definition at_positions ps (idx : list nat) : list Scalar := (fun i => nth i ps s0) <$> idx.

Lemma at_positions_nodup ps idx :
  NoDup ps -> NoDup idx -> (forall i, i ∈ idx -> i < length ps) -> NoDup (at_positions ps idx).
Proof.
  intros Hps His Hlt. unfold at_positions. apply NoDup_fmap_2_strong; [|done].
  intros i j Hi Hj Heq. apply Hlt in Hi. apply Hlt in Hj.
  apply (NoDup_lookup ps _ _ (nth i ps s0) Hps).
  - destruct (nth_lookup_or_length ps i s0); [done|lia].
  - rewrite Heq. destruct (nth_lookup_or_length ps j s0); [done|lia].
Qed.

Lemma in_positions (p : nat -> bool) n i : i ∈ List.filter p (seq 0 n) <-> i < n /\ p i = true.
Proof. rewrite filter_elem_of, elem_of_seq. naive_solver lia. Qed.

Lemma wrong_good_length ps shares P :
  length (good ps shares P) + length (wrong ps shares P) = length ps.
Proof. unfold good, wrong. rewrite filter_partition. apply length_seq. Qed.

Lemma positions_nodup ps (p : nat -> bool) :
  NoDup ps -> NoDup (at_positions ps (List.filter p (seq 0 (length ps)))).
Proof.
  intros Hps. apply at_positions_nodup; [done | apply filter_nodup, NoDup_seq |].
  intros i Hi. by apply in_positions in Hi as [? _].
Qed.

(** A polynomial through the good points is the codeword. *)
Lemma through_good ps shares P p x :
  NoDup ps -> length P <= length (good ps shares P) -> length p <= length (good ps shares P) ->
  (forall i, i < length ps -> fits ps shares P i = true -> evaluate p (nth i ps s0) = evaluate P (nth i ps s0)) ->
  evaluate p x = evaluate P x.
Proof.
  intros Hps HP Hp Hag.
  apply (agree_everywhere p P (at_positions ps (good ps shares P))).
  - by apply positions_nodup.
  - unfold at_positions. by rewrite length_fmap.
  - unfold at_positions. by rewrite length_fmap.
  - apply Forall_fmap, Forall_forall. intros i Hi. cbn. apply in_positions in Hi as [Hi Hf]. by apply Hag.
Qed.

(** ** The linear system *)

Definition dot (a b : list Scalar) : Scalar := ssum (zip_with smul a b).

Lemma dot_nth (a b : list Scalar) :
  length a = length b -> ssum ((fun c => nth c a s0 * nth c b s0)%S <$> seq 0 (length a)) = dot a b.
Proof.
  intros Hlen. unfold dot. f_equal. apply list_eq. intros i.
  rewrite list_lookup_fmap, lookup_zip_with.
  destruct (decide (i < length a)) as [Hi|Hi].
  - destruct (lookup_lt_is_Some_2 a i Hi) as [v Hv], (lookup_lt_is_Some_2 b i ltac:(lia)) as [w Hw].
    rewrite lookup_seq_lt by lia. cbn. by rewrite (nth_lookup_Some _ _ _ _ Hv), (nth_lookup_Some _ _ _ _ Hw), Hv, Hw.
  - rewrite lookup_seq_ge, (lookup_ge_None_2 a) by lia. done.
Qed.

Lemma dot_app a1 a2 b1 b2 : length a1 = length b1 -> dot (a1 ++ a2) (b1 ++ b2) = (dot a1 b1 + dot a2 b2)%S.
Proof. intros Hlen. unfold dot. by rewrite zip_with_app, ssum_app. Qed.

Lemma powers_spec x n : forall p,
  length (powers x p n).1 = n /\ (powers x p n).2 = (p * spow x n)%S
  /\ forall s, length s = n -> dot (powers x p n).1 s = (p * evaluate s x)%S.
Proof.
  induction n as [|n IH]; intros p.
  - cbn. split_and!; [done | ring |]. intros [|? ?] Hs; [|done]. cbn. ring.
  - cbn [powers]. specialize (IH (p * x)%S). destruct (powers x (p * x)%S n) as [l next].
    cbn [fst snd] in *. destruct IH as (Hl & -> & Hd). cbn [length spow].
    split_and!; [by rewrite Hl | ring |]. intros [|v s] Hs; [done|].
    cbn in Hs. injection Hs as Hs. specialize (Hd s Hs).
    change (p * v + dot l s = p * evaluate (v :: s) x)%S. rewrite Hd, evaluate_cons. ring.
Qed.

Lemma dot_scaled (a : Scalar) l s : dot ((fun p => a * p)%S <$> l) s = (a * dot l s)%S.
Proof.
  revert s. induction l as [|v l IH]; intros [|w s]; [unfold dot; cbn; ring..|].
  change (a * v * w + dot ((fun p => a * p)%S <$> l) s = a * (v * w + dot l s))%S. rewrite IH. ring.
Qed.

Lemma evaluate_monic low x : evaluate (low ++ [s1]) x = (evaluate low x + spow x (length low))%S.
Proof.
  induction low as [|c low IH]; cbn [app length spow].
  - cbn. ring.
  - rewrite !evaluate_cons, IH. ring.
Qed.

(** The residual of a row is [Q(x) - y E(x)]. *)
Lemma welch_row_residual degree k x y s :
  length s = degree + k + 1 + k ->
  residual (degree + k + 1 + k) (welch_row degree k x y) (fun c => nth c s s0)
  = (evaluate (take (degree + k + 1) s) x - y * evaluate (drop (degree + k + 1) s ++ [s1]) x)%S.
Proof.
  intros Hs. unfold residual, welch_row.
  destruct (powers_spec x (degree + k + 1) s1) as (Hl1 & _ & Hd1).
  destruct (powers_spec x k s1) as (Hl2 & Hp2 & Hd2). destruct (powers x s1 k) as [l2 next].
  cbn [fst snd] in *.
  set (a := (powers x s1 (degree + k + 1)).1 ++ ((fun p => - y * p)%S <$> l2)).
  assert (length a = degree + k + 1 + k) as Ha.
  { unfold a. rewrite length_app, length_fmap, Hl1, Hl2. done. }
  rewrite <- Ha, dot_nth by (by rewrite Ha). unfold a.
  rewrite <- (take_drop (degree + k + 1) s) at 1.
  rewrite dot_app by (rewrite Hl1, length_take; lia).
  rewrite dot_scaled, Hd1, Hd2 by (rewrite ?length_take, ?length_drop; lia).
  rewrite evaluate_monic, length_drop, Hs, Hp2.
  replace (degree + k + 1 + k - (degree + k + 1)) with k by lia. ring.
Qed.

Definition welch_matrix ps shares degree k : list Row :=
  (fun i => welch_row degree k (nth i ps s0) (nth i shares s0)) <$> seq 0 (length ps).

Lemma welch_matrix_wide ps shares degree k :
  Forall (wide (degree + k + 1 + k)) (welch_matrix ps shares degree k).
Proof.
  apply Forall_fmap, Forall_forall. intros i _. cbn. unfold wide, welch_row.
  destruct (powers_spec (nth i ps s0) (degree + k + 1) s1) as (Hl1 & _ & _).
  destruct (powers_spec (nth i ps s0) k s1) as (Hl2 & _ & _).
  destruct (powers (nth i ps s0) s1 k) as [l2 next]. cbn [fst] in *.
  by rewrite length_app, length_fmap, Hl1, Hl2.
Qed.

(** Solving the system is finding [Q] and [E] with [Q(x) = y E(x)] at every
    point. *)
Lemma welch_matrix_solves ps shares degree k s :
  length s = degree + k + 1 + k ->
  solves (degree + k + 1 + k) (welch_matrix ps shares degree k) (fun c => nth c s s0) <->
  forall i, i < length ps ->
    evaluate (take (degree + k + 1) s) (nth i ps s0)
    = (nth i shares s0 * evaluate (drop (degree + k + 1) s ++ [s1]) (nth i ps s0))%S.
Proof.
  intros Hs. unfold solves, welch_matrix. rewrite Forall_fmap, Forall_forall. split.
  - intros Ha i Hi. apply ssub_eq_0. rewrite <- welch_row_residual by done.
    apply Ha, elem_of_seq. lia.
  - intros Ha i Hi. apply elem_of_seq in Hi. cbn. rewrite welch_row_residual by done.
    apply ssub_eq_0, Ha. lia.
Qed.

(** ** Decoding at a given number of errors *)

Definition locator_of (s : list Scalar) (degree k : nat) : list Scalar :=
  drop (degree + k + 1) s ++ [s1].

Definition roots_at ps (e : list Scalar) : list nat :=
  List.filter (fun i => bool_decide (evaluate e (nth i ps s0) = s0)) (seq 0 (length ps)).

Lemma solve_length m u s : solve m u = Some s -> length s = u.
Proof.
  unfold solve. destruct (existsb _ _); [done|]. intros [= <-]. by rewrite length_fmap, length_seq.
Qed.

Lemma head_evaluate p : 0 < length p -> default s0 (head p) = evaluate p s0.
Proof. destruct p as [|c p]; cbn [length]; [lia|]. intros _. by rewrite evaluate_at_zero. Qed.

Lemma wrong_elem ps shares P i :
  i ∈ wrong ps shares P <-> i < length ps /\ evaluate P (nth i ps s0) <> nth i shares s0.
Proof.
  unfold wrong. rewrite in_positions, negb_true_iff. unfold fits. by rewrite bool_decide_eq_false.
Qed.

Lemma good_elem ps shares P i :
  i ∈ good ps shares P <-> i < length ps /\ evaluate P (nth i ps s0) = nth i shares s0.
Proof. unfold good. rewrite in_positions. unfold fits. by rewrite bool_decide_eq_true. Qed.

Lemma wrong_nodup ps shares P : NoDup (wrong ps shares P).
Proof. apply filter_nodup, NoDup_seq. Qed.

(** What one round accepts is a codeword that fits outside the culprits. *)
Lemma welch_sound ps shares degree k v :
  welch ps shares degree k = Some v ->
  exists p cs, v = Decoded (evaluate p s0) cs /\ length p = degree + 1 /\ length cs = k
    /\ (forall i, i ∈ wrong ps shares p -> i ∈ cs).
Proof.
  unfold welch. intros Hw. apply bind_Some in Hw as (s & Hs & Hw). apply solve_length in Hs.
  destruct (divide_spec (drop (degree + k + 1) s) (take (degree + k + 1) s))
    as (p & r & Hd & Hp & _ & _).
  { rewrite length_drop, length_take. lia. }
  rewrite Hd in Hw. cbn [mbind option_bind] in Hw. destruct (negb (all_zero r)); [done|].
  destruct (negb _) eqn:Hk in Hw; [done|]. destruct (existsb _ _) eqn:Hex; [done|].
  injection Hw as <-. apply negb_false_iff, Nat.eqb_eq in Hk.
  rewrite length_take, length_drop in Hp.
  eexists p, _. split; [by rewrite head_evaluate by lia|]. split; [lia|]. split; [exact Hk|].
  intros i [Hi Hne]%wrong_elem. apply dec_stable. intros Hnot.
  assert (existsb (fun i => negb (bool_decide (i ∈ roots_at ps (locator_of s degree k)))
    && negb (bool_decide (evaluate p (nth i ps s0) = nth i shares s0))) (seq 0 (length ps)) = true) as Ht.
  { apply existsb_exists. exists i. split; [apply in_seq; lia|].
    rewrite !bool_decide_eq_false_2; done. }
  unfold roots_at, locator_of in Ht. congruence.
Qed.

(** The monic polynomial with given roots. *)
Lemma locator_exists (rs : list Scalar) :
  exists low, length low = length rs
    /\ forall z, evaluate (low ++ [s1]) z = sprod ((fun r => z - r)%S <$> rs).
Proof.
  induction rs as [|r rs (low & Hlen & Hev)]; [exists []; split; [done|]; intros z; cbn; ring|].
  exists (poly_add (s0 :: low) (poly_scale (- r)%S (low ++ [s1]))). split.
  - rewrite poly_add_length, poly_scale_length, length_app. cbn. lia.
  - intros z. rewrite evaluate_monic, evaluate_add, evaluate_scale, poly_add_length, poly_scale_length,
      length_app, evaluate_cons. cbn [length].
    replace (S (length low) `max` (length low + 1)) with (S (length low)) by lia.
    change (sprod ((fun r => z - r)%S <$> r :: rs)) with ((z - r) * sprod ((fun r => z - r)%S <$> rs))%S.
    rewrite <- Hev, evaluate_monic. cbn [spow]. ring.
Qed.

Lemma evaluate_pad p n x : evaluate (p ++ replicate n s0) x = evaluate p x.
Proof. rewrite evaluate_app, evaluate_replicate. ring. Qed.

Lemma nth_wrong_points ps shares P i :
  i ∈ wrong ps shares P -> nth i ps s0 ∈ at_positions ps (wrong ps shares P).
Proof. intros Hi. apply list_elem_of_fmap. by exists i. Qed.

Section Round.
Variables (ps shares P : list Scalar) (degree : nat).
Let k := length (wrong ps shares P).
Hypothesis (Hps : NoDup ps) (HP : length P = degree + 1) (Hn : 2 * k + degree + 1 <= length ps).

(** The product of the locator and the codeword solves the system. *)
Lemma codeword_solves :
  exists x0, solves (degree + k + 1 + k) (welch_matrix ps shares degree k) x0.
Proof.
  destruct (locator_exists (at_positions ps (wrong ps shares P))) as (low & Hlow & Hev).
  unfold at_positions in Hlow. rewrite length_fmap in Hlow. fold k in Hlow.
  set (Q := poly_mul (low ++ [s1]) P).
  assert (length Q <= degree + k + 1) as HQ.
  { unfold Q. etrans; [apply poly_mul_length; lia|]. rewrite length_app. cbn. lia. }
  set (q := Q ++ replicate (degree + k + 1 - length Q) s0).
  assert (length q = degree + k + 1) as Hq.
  { unfold q. rewrite length_app, length_replicate. lia. }
  exists (fun c => nth c (q ++ low) s0). apply welch_matrix_solves; [rewrite length_app; lia|].
  intros i Hi. rewrite take_app_length', drop_app_length' by done.
  unfold q. rewrite evaluate_pad. unfold Q. rewrite evaluate_mul.
  destruct (decide (evaluate P (nth i ps s0) = nth i shares s0)) as [->|Hne]; [ring|].
  assert (evaluate (low ++ [s1]) (nth i ps s0) = s0) as ->; [|ring].
  rewrite Hev. apply (sprod_zero _ _ (nth i ps s0)); [|ring].
  apply nth_wrong_points, wrong_elem. done.
Qed.

Section Solution.
Variable s : list Scalar.
Hypothesis (Hlen : length s = degree + k + 1 + k).
Hypothesis (Hsol : solves (degree + k + 1 + k) (welch_matrix ps shares degree k) (fun c => nth c s s0)).
Let q := take (degree + k + 1) s.
Let e := locator_of s degree k.

Lemma good_many : degree + k + 1 <= length (good ps shares P).
Proof. pose proof (wrong_good_length ps shares P) as E. fold k in E. lia. Qed.

Lemma solution_at i : i < length ps -> evaluate q (nth i ps s0) = (nth i shares s0 * evaluate e (nth i ps s0))%S.
Proof. apply welch_matrix_solves; done. Qed.

Lemma solution_product x : evaluate q x = (evaluate e x * evaluate P x)%S.
Proof.
  rewrite <- evaluate_mul. pose proof good_many as Hg.
  apply (agree_everywhere _ _ (at_positions ps (good ps shares P))).
  - by apply positions_nodup.
  - unfold at_positions, q. rewrite length_fmap, length_take. lia.
  - unfold at_positions. rewrite length_fmap. etrans; [apply poly_mul_length; lia|].
    unfold e, locator_of. rewrite length_app, length_drop. cbn. lia.
  - apply Forall_fmap, Forall_forall. intros i [Hi Hf]%good_elem. cbn.
    rewrite evaluate_mul, solution_at, <- Hf by done. ring.
Qed.

Lemma solution_vanishes i : i ∈ wrong ps shares P -> evaluate e (nth i ps s0) = s0.
Proof.
  intros [Hi Hne]%wrong_elem. pose proof (solution_at i Hi) as E. rewrite solution_product in E.
  assert (evaluate e (nth i ps s0) * (evaluate P (nth i ps s0) - nth i shares s0) = s0)%S as Hz.
  { replace (evaluate e (nth i ps s0) * (evaluate P (nth i ps s0) - nth i shares s0))%S
      with (evaluate e (nth i ps s0) * evaluate P (nth i ps s0) - nth i shares s0 * evaluate e (nth i ps s0))%S by ring.
    rewrite E. ring. }
  destruct (smul_eq_0 _ _ Hz) as [|Hz2]; [done|]. exfalso. apply Hne, ssub_eq_0, Hz2.
Qed.

Lemma solution_roots i : i < length ps -> evaluate e (nth i ps s0) = s0 -> i ∈ wrong ps shares P.
Proof.
  intros Hi Hz. apply dec_stable. intros Hnot.
  assert (length (at_positions ps (i :: wrong ps shares P)) <= length (drop (degree + k + 1) s)) as Hle.
  { apply monic_roots.
    - apply at_positions_nodup; [done | constructor; [done | apply wrong_nodup] |].
      intros j [->|Hj]%elem_of_cons; [done|]. by apply wrong_elem in Hj as [? _].
    - apply Forall_fmap, Forall_forall. intros j [->|Hj]%elem_of_cons; cbn; [done|].
      by apply solution_vanishes. }
  unfold at_positions in Hle. rewrite length_fmap, length_drop in Hle. cbn [length] in Hle. fold k in Hle. lia.
Qed.

Lemma solution_culprits : roots_at ps e = wrong ps shares P.
Proof.
  apply filter_extensional. intros i [_ Hi]%elem_of_seq. unfold fits.
  destruct (decide (evaluate P (nth i ps s0) = nth i shares s0)) as [Hf|Hf].
  - rewrite (bool_decide_eq_true_2 _ Hf). apply bool_decide_eq_false_2. intros Hz.
    apply solution_roots, wrong_elem in Hz as [_ Hne]; [done|lia].
  - rewrite (bool_decide_eq_false_2 _ Hf). apply bool_decide_eq_true_2.
    apply solution_vanishes, wrong_elem. split; [lia|done].
Qed.

Lemma solution_quotient :
  exists p, divide q e = Some (p, true) /\ length p = degree + 1 /\ forall x, evaluate p x = evaluate P x.
Proof.
  destruct (divide_spec (drop (degree + k + 1) s) q) as (p & r & Hd & Hp & Hr & Hev).
  { unfold q. rewrite length_drop, length_take. lia. }
  unfold q in Hp. rewrite length_take, length_drop in Hp. rewrite length_drop in Hr.
  change (drop (degree + k + 1) s ++ [s1]) with e in *.
  assert (zero_poly r) as Hz.
  { apply (roots_bound _ (at_positions ps (wrong ps shares P))).
    - by apply positions_nodup.
    - unfold at_positions. rewrite length_fmap. fold k. lia.
    - apply Forall_fmap, Forall_forall. intros i Hi. cbn. apply solution_vanishes in Hi.
      specialize (Hev (nth i ps s0)). rewrite solution_product, Hi in Hev.
      replace (evaluate r (nth i ps s0)) with (s0 * evaluate p (nth i ps s0) + evaluate r (nth i ps s0))%S by ring.
      rewrite <- Hev. ring. }
  rewrite (proj2 (all_zero_spec r) Hz) in Hd. exists p. split; [done|]. split; [lia|].
  intros x. pose proof good_many as Hg. apply (through_good ps shares); [done | lia | lia |].
  intros i Hi Hf. specialize (Hev (nth i ps s0)).
  rewrite solution_product, (evaluate_zero_poly r _ Hz) in Hev.
  assert (evaluate e (nth i ps s0) <> s0) as Hnz.
  { intros Hz'. apply solution_roots, wrong_elem in Hz' as [_ Hne]; [|done].
    unfold fits in Hf. by apply bool_decide_eq_true in Hf. }
  set (v := evaluate e (nth i ps s0)) in *.
  replace (evaluate p (nth i ps s0)) with (sinv v * (v * evaluate p (nth i ps s0) + s0))%S
    by (field; exact Hnz).
  rewrite <- Hev. field. exact Hnz.
Qed.
End Solution.

(** The round with exactly as many errors as there are wrong shares finds
    them. *)
Lemma welch_complete :
  welch ps shares degree k = Some (Decoded (evaluate P s0) (wrong ps shares P)).
Proof.
  destruct codeword_solves as [x0 Hx0].
  destruct (solve_complete _ _ x0 (welch_matrix_wide ps shares degree k) Hx0) as (s & Hs & Hlen & Hsol).
  unfold welch. change (_ <$> seq 0 (length ps)) with (welch_matrix ps shares degree k).
  rewrite Hs. cbn [mbind option_bind].
  destruct (solution_quotient s Hlen Hsol) as (p & Hd & Hp & Hev). unfold locator_of in Hd.
  rewrite Hd. cbn [mbind option_bind negb].
  pose proof (solution_culprits s Hlen Hsol) as Hc. unfold roots_at, locator_of in Hc. rewrite Hc.
  fold k. rewrite Nat.eqb_refl. cbn [negb].
  destruct (existsb _ _) eqn:Hex.
  - apply existsb_exists in Hex as (i & Hi & Hbad). apply in_seq in Hi.
    apply andb_true_iff in Hbad as [Hc' Hf].
    apply negb_true_iff, bool_decide_eq_false in Hc'. apply negb_true_iff, bool_decide_eq_false in Hf.
    exfalso. apply Hc', wrong_elem. rewrite <- Hev. split; [lia|done].
  - by rewrite head_evaluate, Hev by lia.
Qed.
End Round.

(** ** Uniqueness *)

Lemma filter_both {A} (p q : A -> bool) (l : list A) :
  length l <= length (List.filter (fun a => p a && q a) l)
    + length (List.filter (fun a => negb (p a)) l) + length (List.filter (fun a => negb (q a)) l).
Proof. induction l as [|a l IH]; cbn; [lia|]. destruct (p a), (q a); cbn; lia. Qed.

(** Two codewords that both fit most shares are one. *)
Lemma codeword_unique ps shares P p d x :
  NoDup ps -> length P <= d -> length p <= d ->
  length (wrong ps shares P) + length (wrong ps shares p) + d <= length ps ->
  evaluate p x = evaluate P x.
Proof.
  intros Hps HP Hp Hn. set (both := fun i => fits ps shares P i && fits ps shares p i).
  pose proof (filter_both (fits ps shares P) (fits ps shares p) (seq 0 (length ps))) as Hb.
  rewrite length_seq in Hb. change (List.filter (fun a => _ && _) _) with (List.filter both (seq 0 (length ps))) in Hb.
  change (List.filter (fun a => negb (fits ps shares P a)) _) with (wrong ps shares P) in Hb.
  change (List.filter (fun a => negb (fits ps shares p a)) _) with (wrong ps shares p) in Hb.
  apply (agree_everywhere _ _ (at_positions ps (List.filter both (seq 0 (length ps))))).
  - by apply positions_nodup.
  - unfold at_positions. rewrite length_fmap. lia.
  - unfold at_positions. rewrite length_fmap. lia.
  - apply Forall_fmap, Forall_forall. intros i [Hi Hf]%in_positions. cbn.
    apply andb_true_iff in Hf as [Hf1 Hf2]. unfold fits in *.
    apply bool_decide_eq_true in Hf1, Hf2. congruence.
Qed.

Lemma wrong_ext ps shares P p :
  (forall x, evaluate p x = evaluate P x) -> wrong ps shares p = wrong ps shares P.
Proof. intros Hev. apply filter_extensional. intros i _. unfold fits. by rewrite Hev. Qed.

Lemma capacity_spec n degree : degree < n -> 2 * capacity n degree + degree + 1 <= n.
Proof.
  intros Hlt. unfold capacity. rewrite (proj2 (Nat.leb_gt _ _)) by done.
  pose proof (Nat.Div0.mul_div_le (n - degree - 1) 2). lia.
Qed.

(** ** The honest path *)

Lemma take_nodup {A} n (l : list A) : NoDup l -> NoDup (take n l).
Proof. intros Hl. rewrite <- (take_drop n l) in Hl. by apply NoDup_app in Hl as [? _]. Qed.

Definition leading (degree : nat) ps shares : list Scalar :=
  interpolate (take (degree + 1) ps) (take (degree + 1) shares).

Definition disagreeing (degree : nat) ps shares : list nat :=
  List.filter (fun i => negb (bool_decide (evaluate (leading degree ps shares) (nth i ps s0) = nth i shares s0)))
    (seq (degree + 1) (length ps - (degree + 1))).

Lemma leading_fits degree ps shares i :
  NoDup ps -> length shares = length ps -> degree + 1 <= length ps -> i < degree + 1 ->
  evaluate (leading degree ps shares) (nth i ps s0) = nth i shares s0.
Proof.
  intros Hps Hs Hn Hi. unfold leading. rewrite (interpolate_at _ _ i).
  - rewrite !nth_lookup, lookup_take_lt by done. done.
  - by apply take_nodup.
  - rewrite lookup_take_lt by done. destruct (nth_lookup_or_length ps i s0); [done|lia].
Qed.

Lemma wrong_leading degree ps shares :
  NoDup ps -> length shares = length ps -> degree + 1 <= length ps ->
  wrong ps shares (leading degree ps shares) = disagreeing degree ps shares.
Proof.
  intros Hps Hs Hn. unfold wrong, disagreeing.
  replace (length ps) with ((degree + 1) + (length ps - (degree + 1))) at 1 by lia.
  rewrite seq_app, List.filter_app, Nat.add_0_l.
  rewrite (filter_extensional _ (fun _ => false)); [|intros i [_ Hi]%elem_of_seq].
  - rewrite List.filter_false. done.
  - apply negb_false_iff, bool_decide_eq_true_2, leading_fits; [done..|lia].
Qed.

Lemma leading_length degree ps shares : degree + 1 <= length ps -> length (leading degree ps shares) = degree + 1.
Proof. intros Hn. unfold leading. rewrite (proj1 (interpolate_spec _ _ s0)), length_take. lia. Qed.

Lemma locate_unfold degree ps shares :
  length shares = length ps -> degree + 1 <= length ps ->
  exists reason, locate ps shares degree = Some
    match disagreeing degree ps shares with
    | [] => Decoded (evaluate (leading degree ps shares) s0) []
    | _ => default (Beyond (capacity (length ps) degree) reason)
             (first_welch ps shares degree (seq 1 (capacity (length ps) degree)))
    end.
Proof.
  intros Hs Hn. unfold locate. rewrite Hs, Nat.eqb_refl. cbn [negb].
  rewrite (proj2 (Nat.ltb_ge _ _)) by lia.
  rewrite reconstruct_spec by (rewrite !length_take; lia). cbn [mbind option_bind].
  eexists. fold (leading degree ps shares). fold (disagreeing degree ps shares).
  destruct (disagreeing degree ps shares); [reflexivity|].
  destruct (first_welch _ _ _ _); reflexivity.
Qed.

(** ** Bounded-distance decoding *)

Lemma first_welch_app ps shares degree before k after v :
  (forall j, j ∈ before -> welch ps shares degree j = None) -> welch ps shares degree k = Some v ->
  first_welch ps shares degree (before ++ k :: after) = Some v.
Proof.
  intros Hb Hk. induction before as [|j before IH]; cbn; [by rewrite Hk|].
  rewrite (Hb j) by set_solver. apply IH. set_solver.
Qed.

Lemma first_welch_some ps shares degree ks v :
  first_welch ps shares degree ks = Some v -> exists k, k ∈ ks /\ welch ps shares degree k = Some v.
Proof.
  induction ks as [|k ks IH]; cbn; [done|]. destruct (welch ps shares degree k) as [w|] eqn:Hk.
  - intros [= ->]. exists k. set_solver.
  - intros (j & ? & ?)%IH. exists j. set_solver.
Qed.

Lemma welch_codeword ps shares degree k v :
  welch ps shares degree k = Some v ->
  exists p, length p = degree + 1 /\ length (wrong ps shares p) <= k.
Proof.
  intros (p & cs & _ & Hp & Hcs & Hsub)%welch_sound. exists p. split; [done|]. rewrite <- Hcs.
  apply NoDup_incl_length; [apply NoDup_ListNoDup, wrong_nodup|].
  intros i Hi. apply list_elem_of_In, Hsub, list_elem_of_In, Hi.
Qed.

Lemma locate_decodes ps shares degree P :
  NoDup ps -> length shares = length ps -> length P = degree + 1 -> degree + 1 <= length ps ->
  length (wrong ps shares P) <= capacity (length ps) degree ->
  locate ps shares degree = Some (Decoded (evaluate P s0) (wrong ps shares P)).
Proof.
  intros Hps Hs HP Hn Hk. pose proof (capacity_spec (length ps) degree ltac:(lia)) as Hcap.
  destruct (locate_unfold degree ps shares Hs Hn) as [reason ->]. f_equal.
  pose proof (wrong_leading degree ps shares Hps Hs Hn) as Hlead.
  assert (length (wrong ps shares (leading degree ps shares)) = 0 ->
    forall x, evaluate (leading degree ps shares) x = evaluate P x) as Hsame.
  { intros H0 x. apply (codeword_unique ps shares _ _ (degree + 1)); [done | lia | |lia].
    by rewrite leading_length. }
  rewrite Hlead in Hsame. destruct (disagreeing degree ps shares) as [|i is_] eqn:Hdis.
  { rewrite <- (wrong_ext ps shares P (leading degree ps shares)) by (by apply Hsame).
    rewrite Hlead. by rewrite Hsame. }
  set (k := length (wrong ps shares P)) in *.
  assert (0 < k) as Hpos.
  { destruct (decide (k = 0)) as [H0|]; [|lia]. exfalso.
    assert (wrong ps shares (leading degree ps shares) = wrong ps shares P) as E.
    { apply wrong_ext. intros x. symmetry. set (C := leading degree ps shares).
      apply (agree_everywhere _ _ (take (degree + 1) ps)).
      - by apply take_nodup.
      - rewrite length_take. lia.
      - unfold C. rewrite leading_length, length_take; lia.
      - apply Forall_forall. intros z [j Hj]%list_elem_of_lookup.
        apply lookup_take_Some in Hj as [Hj Hlt].
        assert (nth j ps s0 = z) as <- by (by apply nth_lookup_Some).
        unfold C. rewrite leading_fits by done.
        destruct (decide (evaluate P (nth j ps s0) = nth j shares s0)) as [|Hne]; [done|].
        assert (j ∈ wrong ps shares P) as Hw by (apply wrong_elem; split; [lia|done]).
        apply nil_length_inv in H0. rewrite H0 in Hw. by apply not_elem_of_nil in Hw. }
    rewrite Hlead in E. apply nil_length_inv in H0. by rewrite H0 in E. }
  replace (seq 1 (capacity (length ps) degree))
    with (seq 1 (k - 1) ++ k :: seq (S k) (capacity (length ps) degree - k)).
  2:{ change (k :: seq (S k) (capacity (length ps) degree - k)) with (seq k (S (capacity (length ps) degree - k))).
      replace (capacity (length ps) degree) with ((k - 1) + S (capacity (length ps) degree - k)) at 2 by lia.
      rewrite seq_app. do 2 f_equal. lia. }
  erewrite first_welch_app; [reflexivity | | apply welch_complete; [done|done|fold k; lia]].
  intros j Hj. destruct (welch ps shares degree j) as [v|] eqn:Hw; [|done]. exfalso.
  apply elem_of_seq in Hj. apply welch_codeword in Hw as (p & Hp & Hwp).
  assert (forall x, evaluate p x = evaluate P x) as Hev.
  { intros x. apply (codeword_unique ps shares _ _ (degree + 1)); [done | lia | lia | fold k; lia]. }
  rewrite (wrong_ext _ _ _ _ Hev) in Hwp. fold k in Hwp. lia.
Qed.

Lemma locate_sound ps shares degree secret culprits :
  NoDup ps -> locate ps shares degree = Some (Decoded secret culprits) ->
  length shares = length ps /\ degree + 1 <= length ps /\
  exists P, length P = degree + 1 /\ evaluate P s0 = secret /\ wrong ps shares P = culprits
    /\ length culprits <= capacity (length ps) degree.
Proof.
  intros Hps Hl. destruct (decide (length shares = length ps)) as [Hs|Hs].
  2:{ unfold locate in Hl. rewrite (proj2 (Nat.eqb_neq _ _) Hs) in Hl. done. }
  destruct (decide (degree + 1 <= length ps)) as [Hn|Hn].
  2:{ unfold locate in Hl. rewrite Hs, Nat.eqb_refl in Hl. cbn [negb] in Hl.
      rewrite (proj2 (Nat.ltb_lt _ _)) in Hl by lia. done. }
  split_and!; [done..|].
  assert (exists P, length P = degree + 1 /\ length (wrong ps shares P) <= capacity (length ps) degree) as (P & HP & Hk).
  { destruct (locate_unfold degree ps shares Hs Hn) as [reason Hu]. rewrite Hu in Hl.
    pose proof (wrong_leading degree ps shares Hps Hs Hn) as Hlead.
    destruct (disagreeing degree ps shares) as [|i is_].
    { exists (leading degree ps shares). rewrite Hlead, leading_length by done. cbn. lia. }
    destruct (first_welch _ _ _ _) as [v|] eqn:Hf; [|done].
    apply first_welch_some in Hf as (k & Hk & Hw). apply elem_of_seq in Hk.
    apply welch_codeword in Hw as (p & Hp & Hwp). exists p. split; [done|lia]. }
  exists P. rewrite (locate_decodes ps shares degree P) in Hl by done. by injection Hl as <- <-.
Qed.

Lemma locate_total ps shares degree : exists v, locate ps shares degree = Some v.
Proof.
  destruct (decide (length shares = length ps)) as [Hs|Hs].
  2:{ unfold locate. rewrite (proj2 (Nat.eqb_neq _ _) Hs). cbn. eauto. }
  destruct (decide (degree + 1 <= length ps)) as [Hn|Hn].
  - destruct (locate_unfold degree ps shares Hs Hn) as [reason ->]. eauto.
  - unfold locate. rewrite Hs, Nat.eqb_refl. cbn [negb]. rewrite (proj2 (Nat.ltb_lt _ _)) by lia. eauto.
Qed.
End Decoder.

(** * Theorems *)

Section Theorems.
Context `{L : ScalarLaws}.
Add Field theorems_field : scalar_field.

(** The dealt coefficients are [secret] followed by [degree] drawn scalars, and
    the shares are that polynomial's values. *)
Lemma share_spec {R} `{!ScalarRandom R} secret degree ps (rng : R) :
  exists P, (share secret degree ps rng).1 = evaluate P <$> ps /\ length P = degree + 1
    /\ evaluate P s0 = secret.
Proof.
  unfold share, share_with_coefficients.
  assert (forall n (rng : R), length (random_coefficients n rng).1 = n) as Hlen.
  { induction n as [|n IH]; intros r; [done|]. cbn. destruct (scalar_random r) as [c r1].
    specialize (IH r1). destruct (random_coefficients n r1). cbn in *. by rewrite IH. }
  specialize (Hlen degree rng). destruct (random_coefficients degree rng) as [cs rng'].
  exists (secret :: cs). cbn [fst] in *. split_and!; [done | cbn; lia | apply evaluate_at_zero].
Qed.

Lemma nth_fmap_points (f : Scalar -> Scalar) ps i : i < length ps -> nth i (f <$> ps) s0 = f (nth i ps s0).
Proof.
  intros Hi. destruct (lookup_lt_is_Some_2 ps i Hi) as [v Hv].
  rewrite !nth_lookup, list_lookup_fmap, Hv. done.
Qed.

Lemma points_nodup `{!ScalarLarge} n : (N.of_nat n < 2 ^ 70)%N -> NoDup (points n).
Proof.
  intros Hn. unfold points. apply NoDup_fmap_2_strong; [|apply NoDup_seq].
  intros i j Hi%elem_of_seq Hj%elem_of_seq Heq. apply Nat2N.inj. apply scalar_of_N_inj; [lia|lia|done].
Qed.

(** Any [degree + 1] or more of the dealt shares, in any order, reconstruct
    the secret, whatever the generator drew. *)
Theorem reconstruct_share {R} `{!ScalarRandom R} secret degree ps (rng : R) (idx : list nat) :
  NoDup ps -> NoDup idx -> (forall i, i ∈ idx -> i < length ps) -> degree + 1 <= length idx ->
  reconstruct (at_positions ps idx) (at_positions (share secret degree ps rng).1 idx) = Some secret.
Proof.
  intros Hps Hidx Hlt Hn. destruct (share_spec secret degree ps rng) as (P & -> & HP & <-).
  rewrite reconstruct_spec by (unfold at_positions; by rewrite !length_fmap). f_equal.
  apply (agree_everywhere _ _ (at_positions ps idx)).
  - by apply at_positions_nodup.
  - by rewrite (proj1 (interpolate_spec _ _ s0)).
  - unfold at_positions. rewrite length_fmap. lia.
  - apply Forall_forall. intros x [i Hi]%list_elem_of_lookup.
    rewrite (interpolate_at _ _ i) by (done || by apply at_positions_nodup).
    unfold at_positions in *. rewrite list_lookup_fmap in Hi.
    apply fmap_Some in Hi as (j & Hj & ->). rewrite nth_lookup, list_lookup_fmap, Hj. cbn.
    apply nth_fmap_points, Hlt. apply list_elem_of_lookup. eauto.
Qed.

(** [locate] never panics, and over distinct points it is exactly the
    bounded-distance decoder: it answers [Decoded] if and only if some
    polynomial of the right degree misses at most [capacity] shares, and then
    it returns that polynomial's secret and names precisely the positions it
    misses. *)
Theorem locate_bounded_distance ps shares degree secret culprits :
  NoDup ps ->
  (exists v, locate ps shares degree = Some v) /\
  (locate ps shares degree = Some (Decoded secret culprits) <->
   length shares = length ps /\ degree + 1 <= length ps /\
   exists P, length P = degree + 1 /\ evaluate P s0 = secret /\ wrong ps shares P = culprits
     /\ length culprits <= capacity (length ps) degree).
Proof.
  intros Hps. split; [apply locate_total|]. split; [by apply locate_sound|].
  intros (Hs & Hn & P & HP & <- & <- & Hk). by apply locate_decodes.
Qed.

(** C27: of shares dealt by [share], up to [capacity] may be replaced by
    anything: [locate] still returns the dealt secret and names exactly the
    replaced positions, so no honest holder is ever accused. *)
Theorem locate_names_the_tampered {R} `{!ScalarRandom R} secret degree ps (rng : R) shares :
  let dealt := (share secret degree ps rng).1 in
  let tampered := List.filter (fun i => negb (bool_decide (nth i dealt s0 = nth i shares s0)))
    (seq 0 (length ps)) in
  NoDup ps -> length shares = length ps -> degree + 1 <= length ps ->
  length tampered <= capacity (length ps) degree ->
  locate ps shares degree = Some (Decoded secret tampered).
Proof.
  destruct (share_spec secret degree ps rng) as (P & -> & HP & <-). cbv zeta.
  rewrite (filter_extensional _ (fun i => negb (fits ps shares P i))).
  2:{ intros i [_ Hi]%elem_of_seq. unfold fits. by rewrite nth_fmap_points. }
  intros Hps Hs Hn Hk. by apply locate_decodes.
Qed.
End Theorems.
