(* ===== verification/Sigma.v ===== *)
(** * Pedersen commitments and sigma protocols

    [zkfmi-zk/src/pedersen.rs] and [zkfmi-zk/src/sigma.rs]: commitment keys,
    the Fiat-Shamir proofs of an opening, of an opening to zero, of one value
    under two generators, of a committed product and of a committed bit, the
    linear relation, and batch verification.  A [&mut Transcript] and a
    [&mut R] are threaded as values.  [vartime_multiscalar_mul] is [None] where
    the library asserts that its two lists have the same length. *)

From S2P Require Import Prelude.
From S2P Require Import Interfaces.
From S2P Require Import Curve.

(** [PedersenGens::default()] of the range-proof library. *)
Class PedersenGens `{GroupOps} := {
  gens_B : Point;
  gens_B_blinding : Point
}.

Section Keys.
Context `{G : GroupOps}.

Record Pedersen := mkPedersen {
  g : Point;
  h : Point
}.

Definition pedersen_new `{!PedersenGens} (_label : bytes) : Pedersen :=
  mkPedersen gens_B gens_B_blinding.

Definition detached (label : bytes) : Pedersen := mkPedersen basepoint (hash_to_point label).

Definition with_value_generator (key : Pedersen) (g : Point) : Pedersen := mkPedersen g (h key).

Definition commit (key : Pedersen) (value blinding : Scalar) : Point :=
  (g key * value + h key * blinding)%P.

Definition commit_u64 (key : Pedersen) (value : N) (blinding : Scalar) : Point :=
  commit key (scalar_of_N value) blinding.

Definition random_blinding {R} `{!ScalarRandom R} (rng : R) : Scalar * R := scalar_random rng.

Definition asset_tag (asset_id : N) : Point :=
  hash_to_point (bstr "qomm:defmi:asset:" ++ be_bytes 4 asset_id).

Definition shift (key : Pedersen) (commitment : Point) (low : N) : Point :=
  (commitment - g key * scalar_of_N low)%P.

(** ** Multiscalar multiplication *)

Definition psum (l : list Point) : Point := foldr padd pid l.

Definition vartime_multiscalar_mul (scalars : list Scalar) (points : list Point) : option Point :=
  if Nat.eqb (length scalars) (length points) then Some (psum (zip_with pmul points scalars))
  else None.
End Keys.

Section Sigma.
Context `{G : GroupOps} `{T : TranscriptOps}.

Definition append_point (label : bytes) (point : Point) (transcript : Transcript) : Transcript :=
  append_message label (compress point) transcript.

Definition challenge_scalar (label : bytes) (transcript : Transcript) : Scalar * Transcript :=
  let (buf, transcript) := challenge_bytes label 64 transcript in
  (scalar_wide buf, transcript).

(** ** Openings *)

Record OpeningProof := mkOpeningProof {
  op_t : Point;
  op_z_value : Scalar;
  op_z_blinding : Scalar
}.

Definition opening_challenge (commitment t : Point) (transcript : Transcript) :
    Scalar * Transcript :=
  let transcript := append_message (bstr "dom") (bstr "qomm/opening") transcript in
  let transcript := append_point (bstr "C") commitment transcript in
  let transcript := append_point (bstr "T") t transcript in
  challenge_scalar (bstr "c") transcript.

Section Provers.
Context {R : Type} `{!ScalarRandom R}.

Definition prove_opening (key : Pedersen) (transcript : Transcript) (commitment : Point)
    (value blinding : Scalar) (rng : R) : OpeningProof * Transcript * R :=
  let (k_value, rng) := scalar_random rng in
  let (k_blinding, rng) := scalar_random rng in
  let t := (g key * k_value + h key * k_blinding)%P in
  let (c, transcript) := opening_challenge commitment t transcript in
  (mkOpeningProof t (k_value + c * value)%S (k_blinding + c * blinding)%S, transcript, rng).

Definition prove_zero_opening (key : Pedersen) (transcript : Transcript) (residual : Point)
    (blinding : Scalar) (rng : R) : OpeningProof * Transcript * R :=
  let transcript := append_message (bstr "relation") (bstr "zero-opening:v2") transcript in
  let zero_key := with_value_generator key pid in
  let '(proof, transcript, rng) := prove_opening zero_key transcript residual s0 blinding rng in
  (mkOpeningProof (op_t proof) s0 (op_z_blinding proof), transcript, rng).
End Provers.

Definition opening_terms (key : Pedersen) (transcript : Transcript) (commitment : Point)
    (proof : OpeningProof) (weight : Scalar) : list Scalar * list Point * Transcript :=
  let (c, transcript) := opening_challenge commitment (op_t proof) transcript in
  ([weight * op_z_value proof; weight * op_z_blinding proof; - weight; - (weight * c)]%S,
   [g key; h key; op_t proof; commitment], transcript).

(** A multiscalar multiplication compared with the identity. *)
Definition sums_to_identity (scalars : list Scalar) (points : list Point) : bool :=
  bool_decide (vartime_multiscalar_mul scalars points = Some pid).

Definition verify_opening (key : Pedersen) (transcript : Transcript) (commitment : Point)
    (proof : OpeningProof) : bool * Transcript :=
  let '(scalars, points, transcript) := opening_terms key transcript commitment proof s1 in
  (sums_to_identity scalars points, transcript).

Definition verify_zero_opening (key : Pedersen) (transcript : Transcript) (residual : Point)
    (proof : OpeningProof) : bool * Transcript :=
  if negb (bool_decide (op_z_value proof = s0)) then (false, transcript)
  else
    let transcript := append_message (bstr "relation") (bstr "zero-opening:v2") transcript in
    verify_opening (with_value_generator key pid) transcript residual proof.

(** ** One value under two generators *)

Record CrossGeneratorProof := mkCrossGeneratorProof {
  xg_t_first : Point;
  xg_t_second : Point;
  xg_z_value : Scalar;
  xg_z_first : Scalar;
  xg_z_second : Scalar
}.

Definition cross_challenge (g1 g2 c1 c2 t1 t2 : Point) (transcript : Transcript) :
    Scalar * Transcript :=
  let transcript := append_message (bstr "dom") (bstr "qomm/xgen") transcript in
  let transcript := append_point (bstr "g1") g1 transcript in
  let transcript := append_point (bstr "g2") g2 transcript in
  let transcript := append_point (bstr "c1") c1 transcript in
  let transcript := append_point (bstr "c2") c2 transcript in
  let transcript := append_point (bstr "t1") t1 transcript in
  let transcript := append_point (bstr "t2") t2 transcript in
  challenge_scalar (bstr "c") transcript.

Definition prove_same_value {R} `{!ScalarRandom R} (key : Pedersen) (transcript : Transcript)
    (first_generator second_generator first_commitment second_commitment : Point)
    (value first_blinding second_blinding : Scalar) (rng : R) :
    CrossGeneratorProof * Transcript * R :=
  let (k_value, rng) := scalar_random rng in
  let (k_first, rng) := scalar_random rng in
  let (k_second, rng) := scalar_random rng in
  let t_first := (first_generator * k_value + h key * k_first)%P in
  let t_second := (second_generator * k_value + h key * k_second)%P in
  let (c, transcript) := cross_challenge first_generator second_generator first_commitment
    second_commitment t_first t_second transcript in
  (mkCrossGeneratorProof t_first t_second (k_value + c * value)%S
     (k_first + c * first_blinding)%S (k_second + c * second_blinding)%S, transcript, rng).

Definition same_value_terms (key : Pedersen) (transcript : Transcript)
    (first_generator second_generator first_commitment second_commitment : Point)
    (proof : CrossGeneratorProof) (weight : Scalar) : list Scalar * list Point * Transcript :=
  let (c, transcript) := cross_challenge first_generator second_generator first_commitment
    second_commitment (xg_t_first proof) (xg_t_second proof) transcript in
  let w2 := (weight * weight)%S in
  ([weight * xg_z_value proof; weight * xg_z_first proof; - weight; - (weight * c);
    w2 * xg_z_value proof; w2 * xg_z_second proof; - w2; - (w2 * c)]%S,
   [first_generator; h key; xg_t_first proof; first_commitment;
    second_generator; h key; xg_t_second proof; second_commitment], transcript).

Definition halves_hold (scalars : list Scalar) (points : list Point) : bool :=
  let half := Nat.div (length scalars) 2 in
  sums_to_identity (take half scalars) (take half points)
  && sums_to_identity (drop half scalars) (drop half points).

Definition verify_same_value (key : Pedersen) (transcript : Transcript)
    (first_generator second_generator first_commitment second_commitment : Point)
    (proof : CrossGeneratorProof) : bool * Transcript :=
  let '(scalars, points, transcript) := same_value_terms key transcript first_generator
    second_generator first_commitment second_commitment proof s1 in
  (halves_hold scalars points, transcript).

(** ** Products *)

Record ProductProof := mkProductProof {
  pp_t_factor : Point;
  pp_t_product : Point;
  pp_z_b : Scalar;
  pp_z_rb : Scalar;
  pp_z_s : Scalar
}.

Definition product_challenge (c_a c_b c_c t_factor t_product : Point) (transcript : Transcript) :
    Scalar * Transcript :=
  let transcript := append_message (bstr "dom") (bstr "qomm/product") transcript in
  let transcript := append_point (bstr "Ca") c_a transcript in
  let transcript := append_point (bstr "Cb") c_b transcript in
  let transcript := append_point (bstr "Cc") c_c transcript in
  let transcript := append_point (bstr "Tf") t_factor transcript in
  let transcript := append_point (bstr "Tp") t_product transcript in
  challenge_scalar (bstr "c") transcript.

Definition prove_product {R} `{!ScalarRandom R} (key : Pedersen) (transcript : Transcript)
    (c_a : Point) (a r_a b r_b r_c : Scalar) (rng : R) : ProductProof * Transcript * R :=
  let c_b := commit key b r_b in
  let c_c := commit key (a * b)%S r_c in
  let s := (r_c - r_a * b)%S in
  let (k_b, rng) := scalar_random rng in
  let (k_rb, rng) := scalar_random rng in
  let (k_s, rng) := scalar_random rng in
  let t_factor := commit key k_b k_rb in
  let t_product := (c_a * k_b + h key * k_s)%P in
  let (c, transcript) := product_challenge c_a c_b c_c t_factor t_product transcript in
  (mkProductProof t_factor t_product (k_b + c * b)%S (k_rb + c * r_b)%S (k_s + c * s)%S,
   transcript, rng).

Definition product_terms (key : Pedersen) (transcript : Transcript) (c_a c_b c_c : Point)
    (proof : ProductProof) (weight : Scalar) : list Scalar * list Point * Transcript :=
  let (c, transcript) :=
    product_challenge c_a c_b c_c (pp_t_factor proof) (pp_t_product proof) transcript in
  let w2 := (weight * weight)%S in
  ([weight * pp_z_b proof; weight * pp_z_rb proof; - weight; - (weight * c);
    w2 * pp_z_b proof; w2 * pp_z_s proof; - w2; - (w2 * c)]%S,
   [g key; h key; pp_t_factor proof; c_b; c_a; h key; pp_t_product proof; c_c], transcript).

Definition verify_product (key : Pedersen) (transcript : Transcript) (c_a c_b c_c : Point)
    (proof : ProductProof) : bool * Transcript :=
  let '(scalars, points, transcript) := product_terms key transcript c_a c_b c_c proof s1 in
  (halves_hold scalars points, transcript).

(** ** Batches *)

Record Batch := mkBatch {
  batch_scalars : list Scalar;
  batch_points : list Point
}.

Definition batch_new : Batch := mkBatch [] [].

Definition batch_push (b : Batch) (scalars : list Scalar) (points : list Point) : Batch :=
  mkBatch (batch_scalars b ++ scalars) (batch_points b ++ points).

Definition batch_len (b : Batch) : nat := length (batch_points b).

Definition batch_is_empty (b : Batch) : bool := Nat.eqb (length (batch_points b)) 0.

Definition batch_weight {R} `{!ScalarRandom R} (rng : R) : Scalar * R := scalar_random rng.

(** [None]: the multiplication panics on lists of different lengths. *)
Definition batch_verify (b : Batch) : option bool :=
  if batch_is_empty b then Some true
  else
    total ← vartime_multiscalar_mul (batch_scalars b) (batch_points b);
    Some (bool_decide (total = pid)).

(** ** Linear relations *)

Definition linear_residual (key : Pedersen) (commitments : list Point) (coefficients : list Scalar)
    (constant : Scalar) : option Point :=
  aggregate ← vartime_multiscalar_mul coefficients commitments;
  Some (aggregate - g key * constant)%P.

Definition scalar_sum (l : list Scalar) : Scalar := foldl sadd s0 l.

(** [None]: the lists of commitments and coefficients differ in length. *)
Definition prove_linear {R} `{!ScalarRandom R} (key : Pedersen) (transcript : Transcript)
    (commitments : list Point) (coefficients blindings : list Scalar) (constant : Scalar) (rng : R) :
    option (OpeningProof * Transcript * R) :=
  let combined := scalar_sum (zip_with smul coefficients blindings) in
  residual ← linear_residual key commitments coefficients constant;
  Some (prove_zero_opening key transcript residual combined rng).

Definition verify_linear (key : Pedersen) (transcript : Transcript) (commitments : list Point)
    (coefficients : list Scalar) (constant : Scalar) (proof : OpeningProof) :
    option (bool * Transcript) :=
  if negb (Nat.eqb (length commitments) (length coefficients)) then Some (false, transcript)
  else
    residual ← linear_residual key commitments coefficients constant;
    Some (verify_zero_opening key transcript residual proof).

(** ** Bits *)

Record BitProof := mkBitProof {
  bp_t0 : Point;
  bp_t1 : Point;
  bp_c0 : Scalar;
  bp_z0 : Scalar;
  bp_z1 : Scalar
}.

Definition bit_challenge (commitment t0 t1 : Point) (transcript : Transcript) :
    Scalar * Transcript :=
  let transcript := append_message (bstr "dom") (bstr "qomm/bit") transcript in
  let transcript := append_point (bstr "C") commitment transcript in
  let transcript := append_point (bstr "T0") t0 transcript in
  let transcript := append_point (bstr "T1") t1 transcript in
  challenge_scalar (bstr "c") transcript.

Definition prove_bit {R} `{!ScalarRandom R} (key : Pedersen) (transcript : Transcript)
    (commitment : Point) (bit : bool) (blinding : Scalar) (rng : R) : BitProof * Transcript * R :=
  let shifted (branch : bool) := if branch then (commitment - g key)%P else commitment in
  let (k, rng) := scalar_random rng in
  let t_real := (h key * k)%P in
  let (c_fake, rng) := scalar_random rng in
  let (z_fake, rng) := scalar_random rng in
  let t_fake := (h key * z_fake - shifted (negb bit) * c_fake)%P in
  let (t0, t1) := if bit then (t_fake, t_real) else (t_real, t_fake) in
  let (total, transcript) := bit_challenge commitment t0 t1 transcript in
  let c_real := (total - c_fake)%S in
  let z_real := (k + c_real * blinding)%S in
  (if bit then mkBitProof t0 t1 c_fake z_fake z_real else mkBitProof t0 t1 c_real z_real z_fake,
   transcript, rng).

Definition verify_bit (key : Pedersen) (transcript : Transcript) (commitment : Point)
    (proof : BitProof) : bool * Transcript :=
  let (total, transcript) := bit_challenge commitment (bp_t0 proof) (bp_t1 proof) transcript in
  let c1 := (total - bp_c0 proof)%S in
  let zero_ok := bool_decide (h key * bp_z0 proof = bp_t0 proof + commitment * bp_c0 proof)%P in
  let one_ok := bool_decide (h key * bp_z1 proof = bp_t1 proof + (commitment - g key) * c1)%P in
  (zero_ok && one_ok, transcript).
End Sigma.
