(* ===== verification/SigmaProofs.v ===== *)
(** * The sigma protocols' equations

    What each verifier checks as one or two equations in the group, that the
    provers' answers satisfy them, and the extraction of a witness from two
    accepted answers to the same first move.  The extractors are functions of
    the two answers: in a group of prime order a commitment opens to every
    value, so only a computed opening says anything. *)

From S2P Require Import Prelude.
From S2P Require Import Interfaces.
From S2P Require Import Curve.
From S2P Require Import Sigma.

Section Equations.
Context `{SL : ScalarLaws} `{G : !GroupOps} `{L : !GroupLaws}.
Add Field sigma_field : scalar_field.

(** ** Multiscalar sums *)

Lemma psum_app (a b : list Point) : psum (a ++ b) = (psum a + psum b)%P.
Proof.
  induction a as [|p a IH]; cbn; [by rewrite padd_id_l|].
  unfold psum in IH. by rewrite IH, padd_assoc.
Qed.

Lemma msm_app s1 p1 s2 p2 a b :
  vartime_multiscalar_mul s1 p1 = Some a -> vartime_multiscalar_mul s2 p2 = Some b ->
  vartime_multiscalar_mul (s1 ++ s2) (p1 ++ p2) = Some (a + b)%P.
Proof.
  unfold vartime_multiscalar_mul. destruct (Nat.eqb_spec (length s1) (length p1)) as [E1|]; [|done].
  destruct (Nat.eqb_spec (length s2) (length p2)) as [E2|]; [|done]. intros [= <-] [= <-].
  rewrite !length_app, E1, E2, Nat.eqb_refl, zip_with_app, psum_app by done. done.
Qed.

(** The four-term check of one sigma equation, with its weight. *)
Lemma four_terms (w z r c : Scalar) (A B t C : Point) :
  vartime_multiscalar_mul [w * z; w * r; - w; - (w * c)]%S [A; B; t; C]
  = Some ((A * z + B * r - (t + C * c)) * w)%P.
Proof. unfold vartime_multiscalar_mul. cbn. f_equal. module_split; ring. Qed.

(** ** Equations *)

Definition sigma_equation (A B : Point) (z r : Scalar) (t C : Point) (c : Scalar) : Prop :=
  (A * z + B * r = t + C * c)%P.

#[global] Instance sigma_equation_dec A B z r t C c : Decision (sigma_equation A B z r t C c).
Proof. unfold sigma_equation. apply _. Defined.

Lemma four_terms_unit z r c A B t C :
  sums_to_identity [s1 * z; s1 * r; - s1; - (s1 * c)]%S [A; B; t; C]
  = bool_decide (sigma_equation A B z r t C c).
Proof.
  unfold sums_to_identity. rewrite four_terms. apply bool_decide_ext. unfold sigma_equation.
  rewrite pmul_1, <- psub_eq_id. split; [by intros [= ->] | by intros ->].
Qed.

(** The answers of a prover that knows the exponents. *)
Lemma sigma_answer (A B : Point) (x y k l c : Scalar) :
  sigma_equation A B (k + c * x)%S (l + c * y)%S (A * k + B * l)%P (A * x + B * y)%P c.
Proof. unfold sigma_equation. module_split; ring. Qed.

(** The exponent two answers give away. *)
Definition extracted (z z' c c' : Scalar) : Scalar := ((z - z') * sinv (c - c'))%S.

Lemma sigma_extract A B z r z' r' t C c c' :
  sigma_equation A B z r t C c -> sigma_equation A B z' r' t C c' -> c <> c' ->
  C = (A * extracted z z' c c' + B * extracted r r' c c')%P.
Proof.
  unfold sigma_equation, extracted. intros E1 E2 Hc. apply ssub_neq_0 in Hc.
  assert (C = ((A * z + B * r - t) - (A * z' + B * r' - t)) * sinv (c - c'))%P as ->.
  - rewrite E1, E2. module_split; field; exact Hc.
  - module_split; ring.
Qed.

(** The same with one base. *)
Lemma single_extract (X Y t : Point) z z' d d' :
  (Y * z = t + X * d)%P -> (Y * z' = t + X * d')%P -> d <> d' -> X = (Y * extracted z z' d d')%P.
Proof.
  intros Ez Ez' Hd. pose proof (sigma_extract pid Y s0 z s0 z' t X d d') as Hs. unfold sigma_equation in Hs.
  rewrite pmul_0, !padd_id_l in Hs. specialize (Hs Ez Ez' Hd). by rewrite pmul_pid, padd_id_l in Hs.
Qed.

(** A weighted sum of two equations that vanishes for two weights other than
    zero is a pair of equations. *)
Lemma weighted_pair (P Q : Point) (w w' : Scalar) :
  w <> s0 -> w' <> s0 -> w <> w' ->
  (P * w + Q * (w * w) = pid)%P -> (P * w' + Q * (w' * w') = pid)%P -> P = pid /\ Q = pid.
Proof.
  intros Hw Hw' Hne E1 E2. apply ssub_neq_0 in Hne.
  assert (Q = ((P * w + Q * (w * w)) * sinv w - (P * w' + Q * (w' * w')) * sinv w') * sinv (w - w'))%P as HQ.
  { module_split; field; auto. }
  rewrite E1, E2 in HQ.
  assert (Q = pid) as HQ0 by (rewrite HQ; module_split; ring). split; [|done].
  transitivity ((P * w + Q * (w * w)) * sinv w)%P.
  - rewrite HQ0. module_split; field; auto.
  - rewrite E1. module_split; ring.
Qed.

(** ** What each verifier checks *)

Section Verifiers.
Context `{T : TranscriptOps}.

Lemma verify_opening_iff key tr C proof :
  (verify_opening key tr C proof).1 = true <->
  sigma_equation (g key) (h key) (op_z_value proof) (op_z_blinding proof) (op_t proof) C
    (opening_challenge C (op_t proof) tr).1.
Proof.
  unfold verify_opening, opening_terms. destruct (opening_challenge C (op_t proof) tr) as [c tr'].
  cbn [fst]. by rewrite four_terms_unit, bool_decide_eq_true.
Qed.

(** The challenge of a zero opening is drawn after its own label. *)
Definition zero_challenge (C t : Point) (tr : Transcript) : Scalar :=
  (opening_challenge C t (append_message (bstr "relation") (bstr "zero-opening:v2") tr)).1.

Lemma verify_zero_opening_iff key tr C proof :
  (verify_zero_opening key tr C proof).1 = true <->
  op_z_value proof = s0 /\ (h key * op_z_blinding proof = op_t proof + C * zero_challenge C (op_t proof) tr)%P.
Proof.
  unfold verify_zero_opening, zero_challenge. case_bool_decide as Hz; cbn [negb fst]; [|naive_solver].
  rewrite verify_opening_iff. unfold sigma_equation. cbn [g h with_value_generator].
  rewrite Hz, pmul_0, padd_id_l. naive_solver.
Qed.

Lemma halves_unit z r c A B t C z' r' A' B' t' C' c' :
  halves_hold [s1 * z; s1 * r; - s1; - (s1 * c); s1 * s1 * z'; s1 * s1 * r'; - (s1 * s1); - (s1 * s1 * c')]%S
    [A; B; t; C; A'; B'; t'; C'] = true <->
  sigma_equation A B z r t C c /\ sigma_equation A' B' z' r' t' C' c'.
Proof.
  unfold halves_hold. cbn [length Nat.div Nat.divmod fst take drop].
  rewrite four_terms_unit. replace (s1 * s1)%S with s1 by ring.
  rewrite four_terms_unit, andb_true_iff, !bool_decide_eq_true. done.
Qed.

Definition cross_at (g1 g2 c1 c2 : Point) (p : CrossGeneratorProof) (tr : Transcript) : Scalar :=
  (cross_challenge g1 g2 c1 c2 (xg_t_first p) (xg_t_second p) tr).1.

Lemma verify_same_value_iff key tr g1 g2 c1 c2 p :
  (verify_same_value key tr g1 g2 c1 c2 p).1 = true <->
  sigma_equation g1 (h key) (xg_z_value p) (xg_z_first p) (xg_t_first p) c1 (cross_at g1 g2 c1 c2 p tr)
  /\ sigma_equation g2 (h key) (xg_z_value p) (xg_z_second p) (xg_t_second p) c2 (cross_at g1 g2 c1 c2 p tr).
Proof.
  unfold verify_same_value, same_value_terms, cross_at.
  destruct (cross_challenge _ _ _ _ _ _ _) as [c tr']. cbn [fst]. apply halves_unit.
Qed.

Definition product_at (c_a c_b c_c : Point) (p : ProductProof) (tr : Transcript) : Scalar :=
  (product_challenge c_a c_b c_c (pp_t_factor p) (pp_t_product p) tr).1.

Lemma verify_product_iff key tr c_a c_b c_c p :
  (verify_product key tr c_a c_b c_c p).1 = true <->
  sigma_equation (g key) (h key) (pp_z_b p) (pp_z_rb p) (pp_t_factor p) c_b (product_at c_a c_b c_c p tr)
  /\ sigma_equation c_a (h key) (pp_z_b p) (pp_z_s p) (pp_t_product p) c_c (product_at c_a c_b c_c p tr).
Proof.
  unfold verify_product, product_terms, product_at.
  destruct (product_challenge _ _ _ _ _ _) as [c tr']. cbn [fst]. apply halves_unit.
Qed.

Definition bit_at (C : Point) (p : BitProof) (tr : Transcript) : Scalar :=
  (bit_challenge C (bp_t0 p) (bp_t1 p) tr).1.

Lemma verify_bit_iff key tr C p :
  (verify_bit key tr C p).1 = true <->
  (h key * bp_z0 p = bp_t0 p + C * bp_c0 p)%P
  /\ (h key * bp_z1 p = bp_t1 p + (C - g key) * (bit_at C p tr - bp_c0 p)%S)%P.
Proof.
  unfold verify_bit, bit_at. destruct (bit_challenge _ _ _ _) as [c tr']. cbn [fst].
  by rewrite andb_true_iff, !bool_decide_eq_true.
Qed.

Lemma linear_residual_some key Cs cs k :
  length Cs = length cs ->
  linear_residual key Cs cs k = Some (psum (zip_with pmul Cs cs) - g key * k)%P.
Proof.
  intros E. unfold linear_residual, vartime_multiscalar_mul. by rewrite E, Nat.eqb_refl.
Qed.

(** ** Completeness *)

Section Complete.
Context {R : Type} `{!ScalarRandom R}.

Lemma prove_opening_verifies key tr v r (rng : R) :
  (verify_opening key tr (commit key v r) (prove_opening key tr (commit key v r) v r rng).1.1).1 = true.
Proof.
  rewrite verify_opening_iff. unfold prove_opening.
  destruct (scalar_random rng) as [k rng1], (scalar_random rng1) as [l rng2].
  destruct (opening_challenge _ _ _) as [c tr'] eqn:Hc. cbn [fst op_t op_z_value op_z_blinding].
  rewrite Hc. apply sigma_answer.
Qed.

Lemma prove_zero_opening_verifies key tr r (rng : R) :
  (verify_zero_opening key tr (h key * r)%P (prove_zero_opening key tr (h key * r)%P r rng).1.1).1 = true.
Proof.
  rewrite verify_zero_opening_iff. unfold prove_zero_opening, prove_opening, zero_challenge.
  destruct (scalar_random rng) as [k rng1], (scalar_random rng1) as [l rng2].
  destruct (opening_challenge _ _ _) as [c tr'] eqn:Hc.
  cbn [fst op_t op_z_value op_z_blinding g h with_value_generator] in *.
  rewrite Hc. cbn [fst]. split; [done|]. module_split; ring.
Qed.

Lemma prove_same_value_verifies key tr g1 g2 v r1 r2 (rng : R) :
  let c1 := (g1 * v + h key * r1)%P in let c2 := (g2 * v + h key * r2)%P in
  (verify_same_value key tr g1 g2 c1 c2 (prove_same_value key tr g1 g2 c1 c2 v r1 r2 rng).1.1).1 = true.
Proof.
  intros c1 c2. rewrite verify_same_value_iff. unfold prove_same_value, cross_at.
  destruct (scalar_random rng) as [k rng1], (scalar_random rng1) as [l rng2], (scalar_random rng2) as [m rng3].
  destruct (cross_challenge _ _ _ _ _ _ _) as [c tr'] eqn:Hc.
  cbn [fst xg_t_first xg_t_second xg_z_value xg_z_first xg_z_second]. rewrite Hc.
  split; apply sigma_answer.
Qed.

Lemma prove_product_verifies key tr a ra b rb rc (rng : R) :
  let c_a := commit key a ra in
  (verify_product key tr c_a (commit key b rb) (commit key (a * b)%S rc)
    (prove_product key tr c_a a ra b rb rc rng).1.1).1 = true.
Proof.
  intros c_a. rewrite verify_product_iff. unfold prove_product, product_at.
  destruct (scalar_random rng) as [k rng1], (scalar_random rng1) as [l rng2], (scalar_random rng2) as [m rng3].
  destruct (product_challenge _ _ _ _ _ _) as [c tr'] eqn:Hc.
  cbn [fst pp_t_factor pp_t_product pp_z_b pp_z_rb pp_z_s]. rewrite Hc. cbn [fst].
  split; [apply sigma_answer|]. unfold sigma_equation, c_a, commit. module_split; ring.
Qed.

Lemma prove_bit_verifies key tr (bit : bool) r (rng : R) :
  let C := commit key (if bit then s1 else s0) r in
  (verify_bit key tr C (prove_bit key tr C bit r rng).1.1).1 = true.
Proof.
  intros C. rewrite verify_bit_iff. unfold prove_bit, bit_at.
  destruct (scalar_random rng) as [k rng1], (scalar_random rng1) as [cf rng2], (scalar_random rng2) as [zf rng3].
  destruct bit; cbn [negb].
  all: destruct (bit_challenge _ _ _ _) as [c tr'] eqn:Hc.
  all: cbn [fst bp_t0 bp_t1 bp_c0 bp_z0 bp_z1]; rewrite Hc; unfold C, commit; cbn [fst].
  all: split; module_split; ring.
Qed.

Lemma linear_sum key vs rs cs :
  length vs = length rs ->
  psum (zip_with pmul (zip_with (commit key) vs rs) cs)
  = (g key * scalar_sum (zip_with smul cs vs) + h key * scalar_sum (zip_with smul cs rs))%P.
Proof.
  assert (forall l (a : Scalar), foldl sadd a l = (a + scalar_sum l)%S) as Hfold.
  { induction l as [|x l IH]; intros a; unfold scalar_sum; cbn; [ring|].
    rewrite (IH (a + x)%S), (IH (s0 + x)%S). ring. }
  intros E. revert rs cs E. induction vs as [|v vs IH]; intros [|r rs] [|c cs] E; try done;
    [cbn; module_split; ring..|].
  injection E as E. cbn [zip_with]. unfold scalar_sum. cbn [foldl]. rewrite !Hfold.
  change (commit key v r * c + psum (zip_with pmul (zip_with (commit key) vs rs) cs)
    = g key * (s0 + c * v + scalar_sum (zip_with smul cs vs))
      + h key * (s0 + c * r + scalar_sum (zip_with smul cs rs)))%P.
  rewrite IH by done. unfold commit. module_split; ring.
Qed.

Lemma prove_linear_verifies key tr vs rs cs (rng : R) :
  length vs = length rs -> length cs = length vs ->
  let Cs := zip_with (commit key) vs rs in
  let k := scalar_sum (zip_with smul cs vs) in
  exists proof tr' rng', prove_linear key tr Cs cs rs k rng = Some (proof, tr', rng')
    /\ exists tr'', verify_linear key tr Cs cs k proof = Some (true, tr'').
Proof.
  intros E1 E2 Cs k. unfold prove_linear, verify_linear.
  assert (length Cs = length cs) as El by (unfold Cs; rewrite length_zip_with; lia).
  rewrite El, Nat.eqb_refl. cbn [negb]. rewrite !linear_residual_some by done. cbn [mbind option_bind].
  set (res := (psum (zip_with pmul Cs cs) - g key * k)%P).
  assert (res = h key * scalar_sum (zip_with smul cs rs))%P as Hres.
  { unfold res, Cs, k. rewrite linear_sum by done. module_split; ring. }
  rewrite Hres. pose proof (prove_zero_opening_verifies key tr (scalar_sum (zip_with smul cs rs)) rng) as Hv.
  destruct (prove_zero_opening _ _ _ _ _) as [[proof tr'] rng']. cbn [fst] in Hv.
  exists proof, tr', rng'. split; [done|].
  destruct (verify_zero_opening _ _ _ _) as [b tr'']. cbn in Hv. subst b. by exists tr''.
Qed.
End Complete.
End Verifiers.

(** ** Extraction of bits *)

(** One of the two branches answered two challenges: its value and blinding. *)
Definition extract_bit (p p' : BitProof) (c c' : Scalar) : bool * Scalar :=
  if decide (bp_c0 p = bp_c0 p') then
    (true, extracted (bp_z1 p) (bp_z1 p') (c - bp_c0 p)%S (c' - bp_c0 p')%S)
  else (false, extracted (bp_z0 p) (bp_z0 p') (bp_c0 p) (bp_c0 p')).

Definition bit_scalar (b : bool) : Scalar := if b then s1 else s0.

Lemma extract_bit_opens key C p p' c c' :
  (h key * bp_z0 p = bp_t0 p + C * bp_c0 p)%P ->
  (h key * bp_z1 p = bp_t1 p + (C - g key) * (c - bp_c0 p)%S)%P ->
  (h key * bp_z0 p' = bp_t0 p' + C * bp_c0 p')%P ->
  (h key * bp_z1 p' = bp_t1 p' + (C - g key) * (c' - bp_c0 p')%S)%P ->
  bp_t0 p = bp_t0 p' -> bp_t1 p = bp_t1 p' -> c <> c' ->
  C = commit key (bit_scalar (extract_bit p p' c c').1) (extract_bit p p' c c').2.
Proof.
  intros E0 E1 E0' E1' Ht0 Ht1 Hc. rewrite <- Ht0 in E0'. rewrite <- Ht1 in E1'. unfold extract_bit, commit.
  case_decide as Hd; cbn [fst snd bit_scalar].
  - rewrite Hd in *. assert (c - bp_c0 p' <> c' - bp_c0 p')%S as Hne.
    { intros E. apply Hc. replace c with (c - bp_c0 p' + bp_c0 p')%S by ring. rewrite E. ring. }
    pose proof (single_extract _ _ _ _ _ _ _ E1 E1' Hne) as E. rewrite <- E. module_split; ring.
  - pose proof (single_extract _ _ _ _ _ _ _ E0 E0' Hd) as E. rewrite <- E. module_split; ring.
Qed.
End Equations.
