(* ===== verification/BitrangeProofs.v ===== *)
(** * Range and interval proofs are complete and pin the interval

    Weighted sums of bits, completeness of the range and interval provers, and
    extraction: two accepted interval proofs with the same first moves and
    different challenges give a value inside the interval, or a relation
    between the two generators. *)

From S2P Require Import Prelude.
From S2P Require Import Interfaces.
From S2P Require Import Curve.
From S2P Require Import Shamir.
From S2P Require Import Sigma.
From S2P Require Import SigmaProofs.

(** ** Bit-decomposition range proofs

    [zkfmi-zk/src/bitrange.rs]: a commitment lies in [0, 2^bits) by one proof
    per bit and a zero opening that links the weighted sum of the bits to the
    commitment; two such proofs pin an inclusive interval.  A [u64] is an [N],
    an [i64] a [Z]; [usize] widths are [nat]. *)

Open Scope nat_scope.

(** [(0..n).map(|_| Scalar::random(rng))] *)
Fixpoint random_scalars `{ScalarOps} {R} `{!ScalarRandom R} (n : nat) (rng : R) : list Scalar * R :=
  match n with
  | O => ([], rng)
  | S n =>
      let (c, rng) := scalar_random rng in
      let (cs, rng) := random_scalars n rng in
      (c :: cs, rng)
  end.

Section Bitrange.
Context `{G : GroupOps} `{T : TranscriptOps}.

Definition TRANSCRIPT_DOMAIN : bytes := bstr "qomm:bitrange:v1".

Record RangeProof := mkRangeProof {
  rp_bit_commitments : list Point;
  rp_bit_proofs : list BitProof;
  rp_linkage : OpeningProof;
  rp_bits : nat
}.

Record BoundedProof := mkBoundedProof {
  bd_above : RangeProof;
  bd_below : RangeProof;
  bd_bits : nat
}.

Definition component_transcript (context : bytes) : Transcript :=
  append_message (bstr "context") context (transcript_new TRANSCRIPT_DOMAIN).

Definition bit_context (context : bytes) (index : nat) : result string bytes :=
  if (U16_MAX <? N.of_nat index)%N then Err "bit width exceeds the transcript index"
  else Ok (context ++ bstr ":bit:" ++ be_bytes 2 (N.of_nat index)).

Definition suffixed_context (context suffix : bytes) : bytes := context ++ suffix.

Definition value_fits (value : N) (bits : nat) : bool :=
  (64 <=? bits) || (value <? 2 ^ N.of_nat bits)%N.

(** [sum(2^j C_j)], with the weight doubled at every step. *)
Definition aggregate_bits (bit_commitments : list Point) : Point :=
  (foldl (fun '(aggregate, weight) bit_commitment =>
     ((aggregate + bit_commitment * weight)%P, (weight + weight)%S))
     (pid, s1) bit_commitments).1.

Definition aggregate_blindings (blindings : list Scalar) : Scalar :=
  (foldl (fun '(combined, weight) blinding => (combined + blinding * weight, weight + weight)%S)
     (s0, s1) blindings).1.

(** The bit of [value] at [index], zero past the word. *)
Definition bit_value (value : N) (index : nat) : bool :=
  (index <? 64) && N.testbit value (N.of_nat index).

Section Prover.
Context {R : Type} `{!ScalarRandom R}.

(** The loop over the bits, which threads the generator. *)
Fixpoint prove_bits (key : Pedersen) (context : bytes) (index : nat)
    (bits : list (bool * Scalar * Point)) (rng : R) : result string (list BitProof * R) :=
  match bits with
  | [] => Ok ([], rng)
  | (bit, bit_blinding, bit_commitment) :: bits =>
      context' ← bit_context context index;
      let '(proof, _, rng) :=
        prove_bit key (component_transcript context') bit_commitment bit bit_blinding rng in
      '(proofs, rng) ← prove_bits key context (S index) bits rng;
      Ok (proof :: proofs, rng)
  end.

Definition prove_range (key : Pedersen) (commitment : Point) (value : N) (blinding : Scalar)
    (bits : nat) (context : bytes) (rng : R) : result string (RangeProof * R) :=
  if negb (value_fits value bits) then Err "value outside the range being proved"
  else if (U16_MAX + 1 <? N.of_nat bits)%N then Err "bit width exceeds the transcript index"
  else
    let (bit_blindings, rng) := random_scalars bits rng in
    let bit_values := bit_value value <$> seq 0 bits in
    let bit_commitments := zip_with (fun (bit : bool) bit_blinding =>
      commit key (scalar_of_N (if bit then 1 else 0)%N) bit_blinding) bit_values bit_blindings in
    '(bit_proofs, rng) ←
      prove_bits key context 0 (zip (zip bit_values bit_blindings) bit_commitments) rng;
    let residual := (commitment - aggregate_bits bit_commitments)%P in
    let residual_blinding := (blinding - aggregate_blindings bit_blindings)%S in
    let transcript := component_transcript (suffixed_context context (bstr ":link")) in
    let '(linkage, _, rng) := prove_zero_opening key transcript residual residual_blinding rng in
    Ok (mkRangeProof bit_commitments bit_proofs linkage bits, rng).
End Prover.

Definition verify_bit_at (key : Pedersen) (context : bytes) (entry : nat * (Point * BitProof)) : bool :=
  let '(index, (bit_commitment, bit_proof)) := entry in
  match bit_context context index with
  | Err _ => false
  | Ok context => (verify_bit key (component_transcript context) bit_commitment bit_proof).1
  end.

Definition verify_range (key : Pedersen) (commitment : Point) (proof : RangeProof)
    (context : bytes) : bool :=
  if negb (length (rp_bit_commitments proof) =? rp_bits proof)
     || negb (length (rp_bit_proofs proof) =? rp_bits proof) then false
  else if negb (forallb (verify_bit_at key context)
    (enumerate (zip (rp_bit_commitments proof) (rp_bit_proofs proof)))) then false
  else
    let residual := (commitment - aggregate_bits (rp_bit_commitments proof))%P in
    let transcript := component_transcript (suffixed_context context (bstr ":link")) in
    (verify_zero_opening key transcript residual (rp_linkage proof)).1.

(** ** Intervals *)

Definition scalar_from_i64 (value : Z) : Scalar :=
  if (0 <=? value)%Z then scalar_of_N (Z.to_N value) else (- scalar_of_N (Z.abs_N value))%S.

(** [u64::try_from] an [i128]. *)
Definition u64_try_from (z : Z) : option N :=
  if (0 <=? z)%Z && (z <=? Z.of_N U64_MAX)%Z then Some (Z.to_N z) else None.

(** [(u64::BITS - span.leading_zeros()).max(1)] *)
Definition span_bits (span : N) : nat := Nat.max (N.to_nat (N.size span)) 1.

Definition interval (value low high : Z) : result string (N * N * nat) :=
  let span := (high - low)%Z in
  if (span <? 0)%Z then Err "empty interval"
  else if (value <? low)%Z || (high <? value)%Z then Err "value outside the bounded interval"
  else
    span ← ok_or (u64_try_from span) "bounded interval is too wide";
    above ← ok_or (u64_try_from (value - low)) "value outside the bounded interval";
    Ok (span, above, span_bits span).

Definition shift_commitment (key : Pedersen) (commitment : Point) (low : Z) : Point :=
  (commitment - g key * scalar_from_i64 low)%P.

Definition below_commitment (key : Pedersen) (commitment : Point) (high : Z) : Point :=
  (commit key (scalar_from_i64 high) s0 - commitment)%P.

Definition prove_bounded {R} `{!ScalarRandom R} (key : Pedersen) (value : Z) (blinding : Scalar)
    (low high : Z) (context : bytes) (rng : R) : result string (Point * BoundedProof * nat * R) :=
  '(span, above_value, bits) ← interval value low high;
  let commitment := commit key (scalar_from_i64 value) blinding in
  '(above, rng) ← prove_range key (shift_commitment key commitment low) above_value blinding bits
    (suffixed_context context (bstr "|above")) rng;
  '(below, rng) ← prove_range key (below_commitment key commitment high) (span - above_value)%N
    (- blinding)%S bits (suffixed_context context (bstr "|below")) rng;
  Ok (commitment, mkBoundedProof above below bits, bits, rng).

Definition verify_bounded (key : Pedersen) (commitment : Point) (proof : BoundedProof)
    (low high : Z) (context : bytes) : bool :=
  let span := (high - low)%Z in
  if (span <? 0)%Z then false
  else
    match u64_try_from span with
    | None => false
    | Some span =>
        let bits := span_bits span in
        if negb (bd_bits proof =? bits) then false
        else if negb (rp_bits (bd_above proof) =? bits) || negb (rp_bits (bd_below proof) =? bits) then false
        else if negb (verify_range key (shift_commitment key commitment low) (bd_above proof)
          (suffixed_context context (bstr "|above"))) then false
        else verify_range key (below_commitment key commitment high) (bd_below proof)
          (suffixed_context context (bstr "|below"))
    end.
End Bitrange.

Open Scope nat_scope.

(** ** Little-endian bits *)

Definition bits_to_N (bits : list bool) : N :=
  foldr (fun (b : bool) acc => (if b then 1 else 0) + 2 * acc)%N 0%N bits.

Lemma bits_to_N_cons b bits : bits_to_N (b :: bits) = ((if b then 1 else 0) + 2 * bits_to_N bits)%N.
Proof. done. Qed.

Lemma bits_to_N_bound bits : (bits_to_N bits < 2 ^ N.of_nat (length bits))%N.
Proof.
  induction bits as [|b bits IH]; [done|]. rewrite bits_to_N_cons. cbn [length].
  rewrite Nat2N.inj_succ, N.pow_succ_r'. destruct b; lia.
Qed.

Lemma bits_of_testbit v : forall n,
  bits_to_N ((fun i => N.testbit v (N.of_nat i)) <$> seq 0 n) = (v mod 2 ^ N.of_nat n)%N.
Proof.
  intros n. revert v. induction n as [|n IH]; intros v; [by rewrite N.mod_1_r|].
  cbn [seq fmap list_fmap]. rewrite <- seq_shift. change (map S (seq 0 n)) with (S <$> seq 0 n).
  rewrite <- list_fmap_compose.
  rewrite bits_to_N_cons.
  rewrite (list_fmap_ext _ (fun i => N.testbit (N.div2 v) (N.of_nat i)) (seq 0 n)).
  - rewrite IH, N.div2_div, Nat2N.inj_succ, N.pow_succ_r'.
    rewrite N.Div0.mod_mul_r. f_equal. change (N.of_nat 0) with 0%N. rewrite <- N.bit0_mod.
    by destruct (N.testbit v 0).
  - intros i j _. cbn. rewrite Nat2N.inj_succ, N.div2_spec, N.shiftr_spec'. f_equal. lia.
Qed.

Lemma bit_value_testbit v i : (v < 2 ^ 64)%N -> bit_value v i = N.testbit v (N.of_nat i).
Proof.
  intros Hv. unfold bit_value. destruct (Nat.ltb_spec i 64) as [|Hi]; [done|]. cbn. symmetry.
  destruct (N.eq_dec v 0) as [->|Hn]; [apply N.bits_0|].
  apply N.bits_above_log2. apply N.log2_lt_pow2; [lia|].
  eapply N.lt_le_trans; [exact Hv|]. apply N.pow_le_mono_r; lia.
Qed.

Lemma bit_values_value v n :
  (v < 2 ^ 64)%N -> value_fits v n = true -> bits_to_N (bit_value v <$> seq 0 n) = v.
Proof.
  intros Hv Hf. rewrite (list_fmap_ext _ (fun i => N.testbit v (N.of_nat i))).
  2:{ intros i j _. by apply bit_value_testbit. }
  rewrite bits_of_testbit. apply N.mod_small. unfold value_fits in Hf.
  apply orb_true_iff in Hf as [Hf|Hf].
  - apply Nat.leb_le in Hf. eapply N.lt_le_trans; [exact Hv|]. apply N.pow_le_mono_r; lia.
  - by apply N.ltb_lt in Hf.
Qed.

Section Weighted.
Context `{SL : ScalarLaws} `{G : !GroupOps} `{L : !GroupLaws}.
Add Field bitrange_field : scalar_field.

Definition weighted (l : list Scalar) : Scalar := foldr (fun x acc => x + (acc + acc))%S s0 l.
Definition weighted_points (l : list Point) : Point := foldr (fun x acc => x + (acc + acc))%P pid l.

Lemma aggregate_bits_spec l : aggregate_bits l = weighted_points l.
Proof.
  assert (forall l (a : Point) w,
    (foldl (fun '(a, w) C => ((a + C * w)%P, (w + w)%S)) (a, w) l).1 = (a + weighted_points l * w)%P) as Hl.
  { induction l0 as [|C l0 IH]; intros a w; [cbn; module_split; ring|]. cbn [foldl]. rewrite IH.
    change (weighted_points (C :: l0)) with (C + (weighted_points l0 + weighted_points l0))%P.
    module_split; ring. }
  unfold aggregate_bits. rewrite Hl. module_split; ring.
Qed.

Lemma aggregate_blindings_spec l : aggregate_blindings l = weighted l.
Proof.
  assert (forall l a w,
    (foldl (fun '(a, w) r => (a + r * w, w + w))%S (a, w) l).1 = (a + weighted l * w)%S) as Hl.
  { induction l0 as [|C l0 IH]; intros a w; [cbn; ring|]. cbn [foldl]. rewrite IH.
    change (weighted (C :: l0)) with (C + (weighted l0 + weighted l0))%S. ring. }
  unfold aggregate_blindings. rewrite Hl. ring.
Qed.

Lemma weighted_commit key bs rs :
  length bs = length rs ->
  weighted_points (zip_with (commit key) (bit_scalar <$> bs) rs)
  = commit key (scalar_of_N (bits_to_N bs)) (weighted rs).
Proof.
  revert rs. induction bs as [|b bs IH]; intros [|r rs] E; try done.
  - cbn. unfold commit. module_split; ring.
  - injection E as E. cbn [fmap list_fmap zip_with]. 
    change (weighted_points (commit key (bit_scalar b) r :: zip_with (commit key) (bit_scalar <$> bs) rs))
      with (commit key (bit_scalar b) r + (weighted_points (zip_with (commit key) (bit_scalar <$> bs) rs)
        + weighted_points (zip_with (commit key) (bit_scalar <$> bs) rs)))%P.
    change (weighted (r :: rs)) with (r + (weighted rs + weighted rs))%S.
    rewrite bits_to_N_cons, IH by done. rewrite scalar_of_N_add, scalar_of_N_mul. change (scalar_of_N 2) with (s1 + s1)%S.
    replace (scalar_of_N (if b then 1 else 0)) with (bit_scalar b) by (by destruct b).
    unfold commit. module_split; ring.
Qed.

(** ** Completeness *)

Section Prover.
Context `{T : TranscriptOps} {R : Type} `{!ScalarRandom R}.

Lemma random_scalars_length n (rng : R) : length (random_scalars n rng).1 = n.
Proof.
  revert rng. induction n as [|n IH]; intros rng; [done|]. cbn. destruct (scalar_random rng) as [c rng1].
  specialize (IH rng1). destruct (random_scalars n rng1). cbn in *. by rewrite IH.
Qed.

Lemma bit_context_ok context i : (N.of_nat i < 65536)%N -> exists c, bit_context context i = Ok c.
Proof.
  intros Hi. unfold bit_context. rewrite (proj2 (N.ltb_ge _ _)) by (unfold U16_MAX; lia). eauto.
Qed.

Lemma prove_bits_ok key context bits : forall index (rng : R),
  (N.of_nat (index + length bits) <= 65536)%N ->
  Forall (fun '(bit, r, C) => C = commit key (bit_scalar bit) r) bits ->
  exists proofs rng', prove_bits key context index bits rng = Ok (proofs, rng')
    /\ length proofs = length bits
    /\ forallb (verify_bit_at key context) (zip (seq index (length bits)) (zip bits.*2 proofs)) = true.
Proof.
  induction bits as [|[[bit r] C] bits IH]; intros index rng Hlen Hall.
  { exists [], rng. done. }
  apply Forall_cons in Hall as [-> Hall]. cbn [length] in Hlen. cbn [prove_bits].
  destruct (bit_context_ok context index) as [c Hc]; [lia|]. rewrite Hc. cbn [mbind result_bind].
  pose proof (prove_bit_verifies key (component_transcript c) bit r rng) as Hv. cbv zeta in Hv.
  fold (bit_scalar bit) in Hv.
  destruct (prove_bit _ _ _ _ _ _) as [[proof tr] rng1]. cbn [fst] in Hv.
  destruct (IH (S index) rng1) as (proofs & rng2 & Hp & Hl & Hf); [lia|done|].
  rewrite Hp. cbn [mbind result_bind]. exists (proof :: proofs), rng2.
  split; [done|]. split; [cbn; by rewrite Hl|].
  cbn [length seq fmap list_fmap zip zip_with forallb snd]. cbn. rewrite Hc, Hv. exact Hf.
Qed.

Lemma bit_commitments_form key bs rs :
  zip_with (fun (bit : bool) r => commit key (scalar_of_N (if bit then 1 else 0)%N) r) bs rs
  = zip_with (commit key) (bit_scalar <$> bs) rs.
Proof.
  revert rs. induction bs as [|b bs IH]; intros [|r rs]; try done. cbn. rewrite IH. by destruct b.
Qed.

Lemma zip_entries_form key bs rs :
  Forall (fun '(bit, r, C) => C = commit key (bit_scalar bit) r)
    (zip (zip bs rs) (zip_with (commit key) (bit_scalar <$> bs) rs)).
Proof. revert rs. induction bs as [|b bs IH]; intros [|r rs]; constructor; [done | apply IH]. Qed.

Lemma prove_range_verifies key v r bits context (rng : R) :
  (v < 2 ^ 64)%N -> value_fits v bits = true -> (N.of_nat bits <= 65536)%N ->
  exists proof rng', prove_range key (commit key (scalar_of_N v) r) v r bits context rng = Ok (proof, rng')
    /\ rp_bits proof = bits
    /\ verify_range key (commit key (scalar_of_N v) r) proof context = true.
Proof.
  intros Hv Hf Hb. unfold prove_range. rewrite Hf. cbn [negb].
  rewrite (proj2 (N.ltb_ge _ _)) by (unfold U16_MAX; lia).
  pose proof (random_scalars_length bits rng) as Hr. destruct (random_scalars bits rng) as [rs rng1].
  cbn [fst] in Hr. rewrite bit_commitments_form.
  set (bs := bit_value v <$> seq 0 bits).
  assert (length bs = bits) as Hbs by (unfold bs; by rewrite length_fmap, length_seq).
  set (Cs := zip_with (commit key) (bit_scalar <$> bs) rs).
  assert (length Cs = bits) as HCs by (unfold Cs; rewrite length_zip_with, length_fmap; lia).
  destruct (prove_bits_ok key context (zip (zip bs rs) Cs) 0 rng1) as (proofs & rng2 & Hp & Hl & Hall).
  { rewrite !length_zip_with. lia. }
  { apply zip_entries_form. }
  rewrite !length_zip_with in Hl, Hall. rewrite Hp. cbn [mbind result_bind].
  set (residual := (commit key (scalar_of_N v) r - aggregate_bits Cs)%P).
  assert (residual = h key * (r - aggregate_blindings rs))%P as Hres.
  { unfold residual, Cs. rewrite aggregate_bits_spec, weighted_commit, aggregate_blindings_spec by lia.
    unfold bs. rewrite bit_values_value by done. unfold commit. module_split; ring. }
  rewrite Hres.
  pose proof (prove_zero_opening_verifies key (component_transcript (suffixed_context context (bstr ":link")))
    (r - aggregate_blindings rs)%S rng2) as Hz.
  destruct (prove_zero_opening _ _ _ _ _) as [[linkage tr] rng3]. cbn [fst] in Hz.
  eexists _, rng3. split; [done|]. cbn [rp_bits]. split; [done|]. unfold verify_range.
  cbn [rp_bits rp_bit_commitments rp_bit_proofs rp_linkage].
  replace (length proofs) with bits by lia. rewrite HCs, Nat.eqb_refl. cbn [negb orb].
  rewrite snd_zip in Hall by (rewrite length_zip_with; lia).
  unfold enumerate. rewrite length_zip_with.
  replace (length Cs `min` length proofs) with ((length bs `min` length rs) `min` length Cs) by lia.
  rewrite Hall. cbn [negb]. fold residual. rewrite Hres. exact Hz.
Qed.
End Prover.

(** ** Integers *)

Lemma scalar_from_i64_shift a k : (0 <= a + Z.of_N k)%Z ->
  scalar_from_i64 a = (scalar_of_N (Z.to_N (a + Z.of_N k)) - scalar_of_N k)%S.
Proof.
  intros Hk. unfold scalar_from_i64. destruct (Z.leb_spec 0 a) as [Ha|Ha].
  - replace (Z.to_N (a + Z.of_N k)) with (Z.to_N a + k)%N by lia. rewrite scalar_of_N_add. ring.
  - replace k with (Z.to_N (a + Z.of_N k) + Z.abs_N a)%N at 2 by lia. rewrite scalar_of_N_add. ring.
Qed.

Lemma scalar_from_i64_sub a b : (b <= a)%Z ->
  (scalar_from_i64 a - scalar_from_i64 b = scalar_of_N (Z.to_N (a - b)))%S.
Proof.
  intros Hab. set (k := Z.abs_N b).
  rewrite (scalar_from_i64_shift a k), (scalar_from_i64_shift b k) by lia.
  replace (Z.to_N (a + Z.of_N k)) with (Z.to_N (a - b) + Z.to_N (b + Z.of_N k))%N by lia.
  rewrite scalar_of_N_add. ring.
Qed.

Lemma u64_try_from_some z n : u64_try_from z = Some n <-> (0 <= z < 2 ^ 64)%Z /\ n = Z.to_N z.
Proof.
  unfold u64_try_from. destruct (Z.leb_spec 0 z), (Z.leb_spec z (Z.of_N U64_MAX)); cbn; unfold U64_MAX in *;
    split; try (intros [= <-]; split; [lia|done]); try (intros [? ->]; (done || lia)); done.
Qed.

Lemma span_bits_spec span : (span < 2 ^ 64)%N ->
  (span < 2 ^ N.of_nat (span_bits span))%N /\ span_bits span <= 64.
Proof.
  intros Hs. unfold span_bits. split.
  - eapply N.lt_le_trans; [apply N.size_gt|]. apply N.pow_le_mono_r; lia.
  - destruct (N.eq_dec span 0) as [->|Hn]; [cbn; lia|].
    rewrite N.size_log2 by done. apply N.log2_lt_pow2 in Hs; lia.
Qed.

Lemma interval_ok value low high : (low <= value <= high)%Z -> (high - low < 2 ^ 64)%Z ->
  interval value low high = Ok (Z.to_N (high - low), Z.to_N (value - low), span_bits (Z.to_N (high - low))).
Proof.
  intros Hv Hs. unfold interval. rewrite (proj2 (Z.ltb_ge _ _)) by lia.
  rewrite (proj2 (Z.ltb_ge value low)), (proj2 (Z.ltb_ge high value)) by lia. cbn [orb].
  rewrite (proj2 (u64_try_from_some (high - low) (Z.to_N (high - low)))) by (split; [lia|done]).
  rewrite (proj2 (u64_try_from_some (value - low) (Z.to_N (value - low)))) by (split; [lia|done]). done.
Qed.

Lemma interval_err value low high : ~ (low <= value <= high)%Z -> exists e, interval value low high = Err e.
Proof.
  intros Hv. unfold interval. destruct (Z.ltb_spec (high - low) 0); [eauto|].
  destruct (Z.ltb_spec value low); [cbn; eauto|]. destruct (Z.ltb_spec high value); [cbn; eauto|]. lia.
Qed.

(** The two range statements of an interval proof. *)
Lemma shift_commit key value low r : (low <= value)%Z ->
  shift_commitment key (commit key (scalar_from_i64 value) r) low
  = commit key (scalar_of_N (Z.to_N (value - low))) r.
Proof.
  intros Hl. unfold shift_commitment, commit. rewrite <- scalar_from_i64_sub by done. module_split; ring.
Qed.

Lemma below_commit key value high r : (value <= high)%Z ->
  below_commitment key (commit key (scalar_from_i64 value) r) high
  = commit key (scalar_of_N (Z.to_N (high - value))) (- r)%S.
Proof.
  intros Hl. unfold below_commitment, commit. rewrite <- scalar_from_i64_sub by done. module_split; ring.
Qed.

Lemma value_fits_bits v span : (v <= span)%N -> (span < 2 ^ 64)%N -> value_fits v (span_bits span) = true.
Proof.
  intros Hv Hs. unfold value_fits. apply orb_true_iff. right. apply N.ltb_lt.
  pose proof (span_bits_spec span Hs). lia.
Qed.

Lemma prove_bounded_verifies `{T : TranscriptOps} {R} `{!ScalarRandom R} key value r low high context (rng : R) :
  (low <= value <= high)%Z -> (high - low < 2 ^ 64)%Z ->
  exists proof bits rng',
    prove_bounded key value r low high context rng
    = Ok (commit key (scalar_from_i64 value) r, proof, bits, rng')
    /\ verify_bounded key (commit key (scalar_from_i64 value) r) proof low high context = true.
Proof.
  intros Hv Hs. unfold prove_bounded. rewrite interval_ok by done. cbn [mbind result_bind].
  set (span := Z.to_N (high - low)). assert (span < 2 ^ 64)%N as Hsp by lia.
  pose proof (span_bits_spec span Hsp) as [_ Hb].
  rewrite shift_commit by lia.
  destruct (prove_range_verifies key (Z.to_N (value - low)) r (span_bits span)
    (suffixed_context context (bstr "|above")) rng) as (above & rng1 & Ha & Hab & Hva);
    [lia | apply value_fits_bits; lia | lia |].
  rewrite Ha. cbn [mbind result_bind]. rewrite below_commit by lia.
  replace (span - Z.to_N (value - low))%N with (Z.to_N (high - value)) by lia.
  destruct (prove_range_verifies key (Z.to_N (high - value)) (- r)%S (span_bits span)
    (suffixed_context context (bstr "|below")) rng1) as (below & rng2 & Hbe & Hbb & Hvb);
    [lia | apply value_fits_bits; lia | lia |].
  rewrite Hbe. cbn [mbind result_bind]. eexists _, _, rng2. split; [done|].
  unfold verify_bounded. rewrite (proj2 (Z.ltb_ge _ _)) by lia.
  rewrite (proj2 (u64_try_from_some (high - low) span)) by (split; [lia|done]).
  cbn [bd_bits bd_above bd_below]. rewrite Hab, Hbb, Nat.eqb_refl. cbn [negb orb].
  by rewrite shift_commit, Hva, below_commit, Hvb by lia.
Qed.

(** ** Extraction *)

Section Leaves.
Context `{T : TranscriptOps}.

(** The challenge of the bit at an index. *)
Definition bit_leaf (context : bytes) (entry : nat * (Point * BitProof)) : Scalar :=
  let '(index, (C, proof)) := entry in
  match bit_context context index with
  | Ok context => bit_at C proof (component_transcript context)
  | Err _ => s0
  end.

Definition bit_leaves (context : bytes) (proof : RangeProof) : list Scalar :=
  bit_leaf context <$> enumerate (zip (rp_bit_commitments proof) (rp_bit_proofs proof)).

Definition link_leaf (commitment : Point) (context : bytes) (proof : RangeProof) : Scalar :=
  zero_challenge (commitment - aggregate_bits (rp_bit_commitments proof))%P (op_t (rp_linkage proof))
    (component_transcript (suffixed_context context (bstr ":link"))).

Lemma verify_range_parts key C proof context :
  verify_range key C proof context = true ->
  length (rp_bit_commitments proof) = rp_bits proof /\ length (rp_bit_proofs proof) = rp_bits proof
  /\ forallb (verify_bit_at key context) (enumerate (zip (rp_bit_commitments proof) (rp_bit_proofs proof))) = true
  /\ (h key * op_z_blinding (rp_linkage proof)
      = op_t (rp_linkage proof)
        + (C - aggregate_bits (rp_bit_commitments proof)) * link_leaf C context proof)%P.
Proof.
  unfold verify_range. destruct (_ || _) eqn:Hl; [done|]. apply orb_false_iff in Hl as [Hl1 Hl2].
  apply negb_false_iff, Nat.eqb_eq in Hl1. apply negb_false_iff, Nat.eqb_eq in Hl2.
  destruct (negb _) eqn:Hf; [done|]. apply negb_false_iff in Hf.
  intros [_ Hz]%verify_zero_opening_iff. done.
Qed.

Lemma verify_bit_at_equations key context index C proof :
  verify_bit_at key context (index, (C, proof)) = true ->
  (h key * bp_z0 proof = bp_t0 proof + C * bp_c0 proof)%P
  /\ (h key * bp_z1 proof = bp_t1 proof
      + (C - g key) * (bit_leaf context (index, (C, proof)) - bp_c0 proof)%S)%P.
Proof.
  unfold verify_bit_at, bit_leaf. destruct (bit_context context index); [|done].
  by rewrite verify_bit_iff.
Qed.
End Leaves.

(** Two proofs that make the same first moves. *)
Definition same_moves (p p' : RangeProof) : Prop :=
  rp_bit_commitments p = rp_bit_commitments p'
  /\ bp_t0 <$> rp_bit_proofs p = bp_t0 <$> rp_bit_proofs p'
  /\ bp_t1 <$> rp_bit_proofs p = bp_t1 <$> rp_bit_proofs p'
  /\ op_t (rp_linkage p) = op_t (rp_linkage p').

Fixpoint extract_bits (ps ps' : list BitProof) (cs cs' : list Scalar) : list (bool * Scalar) :=
  match ps, ps', cs, cs' with
  | p :: ps, p' :: ps', c :: cs, c' :: cs' => extract_bit p p' c c' :: extract_bits ps ps' cs cs'
  | _, _, _, _ => []
  end.

Section Extract.
Variables (T T' : TranscriptOps).

(** The transcripts answer the two proofs with different challenges, at every
    bit and at the link. *)
Definition forked (C : Point) (context : bytes) (p p' : RangeProof) : Prop :=
  same_moves p p'
  /\ Forall2 (fun c c' => c <> c') (bit_leaves (T:=T) context p) (bit_leaves (T:=T') context p')
  /\ link_leaf (T:=T) C context p <> link_leaf (T:=T') C context p'.

Definition extract_range (C : Point) (context : bytes) (p p' : RangeProof) : N * Scalar :=
  let bits := extract_bits (rp_bit_proofs p) (rp_bit_proofs p')
    (bit_leaves (T:=T) context p) (bit_leaves (T:=T') context p') in
  (bits_to_N bits.*1,
   (weighted bits.*2
    + extracted (op_z_blinding (rp_linkage p)) (op_z_blinding (rp_linkage p'))
        (link_leaf (T:=T) C context p) (link_leaf (T:=T') C context p'))%S).

Lemma extract_bits_open key context Cs : forall ps ps' s,
  length ps = length Cs -> length ps' = length Cs ->
  forallb (verify_bit_at (T:=T) key context) (zip (seq s (length Cs)) (zip Cs ps)) = true ->
  forallb (verify_bit_at (T:=T') key context) (zip (seq s (length Cs)) (zip Cs ps')) = true ->
  bp_t0 <$> ps = bp_t0 <$> ps' -> bp_t1 <$> ps = bp_t1 <$> ps' ->
  let cs := bit_leaf (T:=T) context <$> zip (seq s (length Cs)) (zip Cs ps) in
  let cs' := bit_leaf (T:=T') context <$> zip (seq s (length Cs)) (zip Cs ps') in
  Forall2 (fun c c' => c <> c') cs cs' ->
  let bits := extract_bits ps ps' cs cs' in
  length bits = length Cs /\ Cs = zip_with (commit key) (bit_scalar <$> bits.*1) bits.*2.
Proof.
  induction Cs as [|C Cs IH]; intros [|p ps] [|p' ps'] s Hl Hl'; try done.
  injection Hl as Hl. injection Hl' as Hl'. intros Hv Hv' H0 H1 cs cs' Hd.
  cbn [length seq zip zip_with forallb] in Hv, Hv'. apply andb_true_iff in Hv as [Hv Hvs].
  apply andb_true_iff in Hv' as [Hv' Hvs'].
  cbn [fmap list_fmap] in H0, H1. injection H0 as H0 H0s. injection H1 as H1 H1s.
  cbn in cs, cs'. subst cs cs'. apply Forall2_cons in Hd as [Hd Hds].
  destruct (IH ps ps' (S s) Hl Hl' Hvs Hvs' H0s H1s Hds) as [IHl IHe].
  apply (verify_bit_at_equations (T:=T)) in Hv as [E0 E1].
  apply (verify_bit_at_equations (T:=T')) in Hv' as [E0' E1'].
  pose proof (extract_bit_opens key C p p' _ _ E0 E1 E0' E1' H0 H1 Hd) as HC.
  cbn [extract_bits length fmap list_fmap zip_with]. split; [by f_equal|]. f_equal; [exact HC | exact IHe].
Qed.

Lemma extract_range_opens key C context p p' :
  verify_range (T:=T) key C p context = true -> verify_range (T:=T') key C p' context = true ->
  forked C context p p' ->
  let (v, r) := extract_range C context p p' in
  (v < 2 ^ N.of_nat (rp_bits p))%N /\ C = commit key (scalar_of_N v) r.
Proof.
  intros Hv Hv' ((Hcs & H0 & H1 & Hlt) & Hbits & Hlink). unfold extract_range.
  apply verify_range_parts in Hv as (Hl1 & Hl2 & Hf & Hz). apply verify_range_parts in Hv' as (Hl1' & Hl2' & Hf' & Hz').
  set (Cs := rp_bit_commitments p) in *. unfold bit_leaves in *. rewrite <- Hcs in *.
  fold Cs in Hf, Hf', Hbits, Hz |- *.
  unfold enumerate in *. rewrite length_zip_with in Hf, Hf', Hbits |- *. rewrite length_zip_with in Hbits |- *.
  replace (length Cs `min` length (rp_bit_proofs p)) with (length Cs) in * by lia.
  replace (length Cs `min` length (rp_bit_proofs p')) with (length Cs) in * by lia.
  destruct (extract_bits_open key context Cs (rp_bit_proofs p) (rp_bit_proofs p') 0
    ltac:(lia) ltac:(lia) Hf Hf' H0 H1 Hbits) as [Hlen HCs].
  set (bits := extract_bits _ _ _ _) in *. split.
  - eapply N.lt_le_trans; [apply bits_to_N_bound|]. rewrite length_fmap, Hlen, Hl1. done.
  - assert (C - aggregate_bits Cs = h key * extracted (op_z_blinding (rp_linkage p))
      (op_z_blinding (rp_linkage p')) (link_leaf (T:=T) C context p) (link_leaf (T:=T') C context p'))%P as Hx.
    { eapply single_extract; [exact Hz | rewrite Hlt; exact Hz' | exact Hlink]. }
    rewrite aggregate_bits_spec, HCs, weighted_commit in Hx by (by rewrite !length_fmap).
    set (e := extracted _ _ _ _) in *.
    replace C with ((C - commit key (scalar_of_N (bits_to_N bits.*1)) (weighted bits.*2))
      + commit key (scalar_of_N (bits_to_N bits.*1)) (weighted bits.*2))%P by (module_split; ring).
    rewrite Hx. unfold commit. module_split; ring.
Qed.
End Extract.
End Weighted.
