(* ===== verification/Membership.v ===== *)
(** * Membership proofs and adaptor signatures

    [zkfmi-zk/src/or_dleq.rs] (one of N discrete logarithms with a scope
    nullifier), [zkfmi-zk/src/oneofmany.rs] (Groth-Kohlweiss) and
    [zkfmi-zk/src/adaptor.rs].  Loops that fill a vector by position are folds
    over the positions; the generator is threaded in the order of the draws. *)

From S2P Require Import Prelude.
From S2P Require Import Interfaces.
From S2P Require Import Curve.
From S2P Require Import Shamir.
From S2P Require Import Sigma.
From S2P Require Import BitrangeProofs.

Open Scope nat_scope.

Module OrDleq.
Section OrDleq.
Context `{G : GroupOps} `{T : TranscriptOps}.

Record Statement := mkStatement {
  registry_id : bytes;
  points : list Point;
  scope : bytes;
  context_hash : bytes
}.

Record MembershipProof := mkProof {
  proof_nullifier : Point;
  challenges : list Scalar;
  responses : list Scalar
}.

Definition size_bytes (proof : MembershipProof) : N := (32 + 64 * N.of_nat (length (challenges proof)))%N.

Definition scope_generator (scope : bytes) : Point := hash_to_point scope.

Definition nullifier (scope : bytes) (secret : Scalar) : Point := (scope_generator scope * secret)%P.

Definition append_points (label : bytes) (points : list Point) (t : Transcript) : Transcript :=
  foldl (fun t point => append_point label point t) t points.

Definition challenge (statement : Statement) (nullifier : Point) (commit_g commit_h : list Point) : Scalar :=
  let t := transcript_new (bstr "qomm:or-dleq:v1") in
  let t := append_message (bstr "registry") (registry_id statement) t in
  let t := append_message (bstr "scope") (scope statement) t in
  let t := append_message (bstr "context") (context_hash statement) t in
  let t := append_point (bstr "N") nullifier t in
  let t := append_points (bstr "P") (points statement) t in
  let t := append_points (bstr "A") commit_g t in
  let t := append_points (bstr "B") commit_h t in
  (challenge_scalar (bstr "c") t).1.

(** One position of the registry: its challenge, response and the two first
    moves. *)
Record Branch := mkBranch {
  b_challenge : Scalar;
  b_response : Scalar;
  b_commit_g : Point;
  b_commit_h : Point
}.

(** The loop over the registry: the real branch commits to the nonce, every
    other one is simulated from a drawn challenge and response. *)
Fixpoint simulate {R} `{!ScalarRandom R} (h_scope null : Point) (index : nat) (witness_nonce : Scalar)
    (position : nat) (points : list Point) (rng : R) : list Branch * R :=
  match points with
  | [] => ([], rng)
  | point :: points =>
      let '(branch, rng) :=
        if position =? index then
          (mkBranch s0 s0 (basepoint * witness_nonce)%P (h_scope * witness_nonce)%P, rng)
        else
          let (c, rng) := scalar_random rng in
          let (z, rng) := scalar_random rng in
          (mkBranch c z (basepoint * z - point * c)%P (h_scope * z - null * c)%P, rng) in
      let (branches, rng) := simulate h_scope null index witness_nonce (S position) points rng in
      (branch :: branches, rng)
  end.

Definition prove {R} `{!ScalarRandom R} (statement : Statement) (secret : Scalar) (index : nat) (rng : R) :
    result string (MembershipProof * R) :=
  match points statement !! index with
  | None => Err "the witness is not in this registry"
  | Some point =>
      let h_scope := scope_generator (scope statement) in
      let null := (h_scope * secret)%P in
      if negb (bool_decide (point = basepoint * secret)%P) then
        Err "the secret does not open the point at that index"
      else
        let (witness_nonce, rng) := scalar_random rng in
        let (branches, rng) := simulate h_scope null index witness_nonce 0 (points statement) rng in
        let total := challenge statement null (b_commit_g <$> branches) (b_commit_h <$> branches) in
        let challenges := b_challenge <$> branches in
        let others := scalar_sum challenges in
        let c := (total - others)%S in
        Ok (mkProof null (<[index := c]> challenges)
              (<[index := (witness_nonce + c * secret)%S]> (b_response <$> branches)), rng)
  end.

Definition commits_g (statement : Statement) (proof : MembershipProof) : list Point :=
  (fun i => basepoint * nth i (responses proof) s0 - nth i (points statement) pid * nth i (challenges proof) s0)%P
  <$> seq 0 (length (points statement)).

Definition commits_h (statement : Statement) (proof : MembershipProof) : list Point :=
  (fun i => scope_generator (scope statement) * nth i (responses proof) s0
            - proof_nullifier proof * nth i (challenges proof) s0)%P
  <$> seq 0 (length (points statement)).

Definition verify (statement : Statement) (proof : MembershipProof) : bool :=
  let n := length (points statement) in
  if negb (length (challenges proof) =? n) || negb (length (responses proof) =? n) then false
  else
    let total := challenge statement (proof_nullifier proof) (commits_g statement proof)
      (commits_h statement proof) in
    bool_decide (scalar_sum (challenges proof) = total).
End OrDleq.
End OrDleq.

Module OneOfMany.
Section OneOfMany.
Context `{G : GroupOps} `{T : TranscriptOps}.

Record GkProof := mkGkProof {
  cl : list Point;
  ca : list Point;
  cb : list Point;
  gk : list Point;
  f : list Scalar;
  za : list Scalar;
  zb : list Scalar;
  zd : Scalar
}.

Definition size_bytes (p : GkProof) : N :=
  (32 * N.of_nat (length (cl p) + length (ca p) + length (cb p) + length (gk p))
   + 32 * N.of_nat (length (f p) + length (za p) + length (zb p) + 1))%N.

(** [transcript.append_u64]: eight little-endian bytes. *)
Definition append_u64 (label : bytes) (x : N) (transcript : Transcript) : Transcript :=
  append_message label (reverse (be_bytes 8 x)) transcript.

Definition append_set (transcript : Transcript) (entry : bytes * list Point) : Transcript :=
  let (label, set) := entry in
  foldl (fun transcript point => append_message label (compress point) transcript)
    (append_u64 (bstr "n") (N.of_nat (length set)) transcript) set.

Definition challenge (commitments cl ca cb gk : list Point) (transcript : Transcript) :
    Scalar * Transcript :=
  let transcript := append_message (bstr "dom") (bstr "qomm/gk") transcript in
  let transcript := foldl append_set transcript
    [(bstr "C", commitments); (bstr "cl", cl); (bstr "ca", ca); (bstr "cb", cb); (bstr "gk", gk)] in
  challenge_scalar (bstr "x") transcript.

Definition challenge_for (transcript : Transcript) (commitments : list Point) (proof : GkProof) :
    Scalar * Transcript :=
  challenge commitments (cl proof) (ca proof) (cb proof) (gk proof) transcript.

(** [(index >> j) & 1 == 1] *)
Definition bit_of (index j : nat) : bool := Nat.testbit index j.

(** The product with [linear[0] + linear[1] x]. *)
Definition convolve (linear : Scalar * Scalar) (poly : list Scalar) : list Scalar :=
  foldl (fun product '(p, coefficient) =>
    let product := <[p := nth p product s0 + coefficient * linear.1]> product in
    <[S p := nth (S p) product s0 + coefficient * linear.2]> product)%S
    (replicate (S (length poly)) s0) (enumerate poly).

Definition poly_coefficients (index bits : nat) (a ell : list Scalar) : list Scalar :=
  foldl (fun poly j =>
    let linear := if bit_of index j then (nth j a s0, nth j ell s0)
                  else (- nth j a s0, s1 - nth j ell s0)%S in
    convolve linear poly) [s1] (seq 0 bits).

(** [is_power_of_two] and [trailing_zeros]. *)
Definition is_power_of_two (size : nat) : bool := negb (size =? 0) && (size =? 2 ^ Nat.log2 size).

(** The blinding of the first moves removed from [x^bits randomness]. *)
Definition respond_zd (randomness x : Scalar) (bits : nat) (rho : list Scalar) : Scalar :=
  let x_to_bits := Nat.iter bits (fun acc => acc * x)%S s1 in
  (foldl (fun '(zd, x_k) rho_k => (zd - rho_k * x_k, x_k * x))%S ((randomness * x_to_bits)%S, s1) rho).1.

Definition prove {R} `{!ScalarRandom R} (key : Pedersen) (transcript : Transcript)
    (commitments : list Point) (index : nat) (randomness : Scalar) (rng : R) :
    result string (GkProof * Transcript * R) :=
  let size := length commitments in
  if negb (is_power_of_two size) || (size <? 2) then Err "the set must be a power of two, at least two"
  else if size <=? index then Err "the index is outside the set"
  else
    let bits := Nat.log2 size in
    let ell := (fun j => if bit_of index j then s1 else s0) <$> seq 0 bits in
    let (a, rng) := random_scalars bits rng in
    let (r, rng) := random_scalars bits rng in
    let (s, rng) := random_scalars bits rng in
    let (t, rng) := random_scalars bits rng in
    let cl := (fun j => commit key (nth j ell s0) (nth j r s0)) <$> seq 0 bits in
    let ca := (fun j => commit key (nth j a s0) (nth j s s0)) <$> seq 0 bits in
    let cb := (fun j => commit key (nth j ell s0 * nth j a s0)%S (nth j t s0)) <$> seq 0 bits in
    let coefficients := (fun i => poly_coefficients i bits a ell) <$> seq 0 size in
    let (rho, rng) := random_scalars bits rng in
    let gk := (fun k =>
      let scalars := (fun c => nth k c s0) <$> coefficients in
      (psum (zip_with pmul commitments scalars) + h key * nth k rho s0)%P) <$> seq 0 bits in
    let (x, transcript) := challenge commitments cl ca cb gk transcript in
    let f := (fun j => nth j ell s0 * x + nth j a s0)%S <$> seq 0 bits in
    let za := (fun j => nth j r s0 * x + nth j s s0)%S <$> seq 0 bits in
    let zb := (fun j => nth j r s0 * (x - nth j f s0) + nth j t s0)%S <$> seq 0 bits in
    Ok (mkGkProof cl ca cb gk f za zb (respond_zd randomness x bits rho), transcript, rng).

(** [prod_j f_{j, i_j}] *)
Definition selector (x : Scalar) (f : list Scalar) (bits i : nat) : Scalar :=
  foldl (fun value j => value * (if bit_of i j then nth j f s0 else x - nth j f s0))%S s1 (seq 0 bits).

Definition bit_checks (key : Pedersen) (x : Scalar) (proof : GkProof) (j : nat) : bool :=
  bool_decide (commit key (nth j (f proof) s0) (nth j (za proof) s0)
               = nth j (cl proof) pid * x + nth j (ca proof) pid)%P
  && bool_decide (commit key s0 (nth j (zb proof) s0)
               = nth j (cl proof) pid * (x - nth j (f proof) s0)%S + nth j (cb proof) pid)%P.

(** [x_k] over the first moves. *)
Definition negated_powers (x : Scalar) (n : nat) : list Scalar :=
  sopp <$> (powers x s1 n).1.

Definition verify (key : Pedersen) (transcript : Transcript) (commitments : list Point) (proof : GkProof) :
    bool * Transcript :=
  let size := length commitments in
  if negb (is_power_of_two size) || (size <? 2) then (false, transcript)
  else
    let bits := Nat.log2 size in
    if negb (forallb (fun n => n =? bits) [length (f proof); length (cl proof); length (ca proof);
         length (cb proof); length (gk proof); length (za proof); length (zb proof)])
    then (false, transcript)
    else
      let (x, transcript) := challenge_for transcript commitments proof in
      if negb (forallb (bit_checks key x proof) (seq 0 bits)) then (false, transcript)
      else
        let scalars := ((selector x (f proof) bits <$> seq 0 size)
          ++ negated_powers x (length (gk proof))) ++ [(- zd proof)%S] in
        let points := (commitments ++ gk proof) ++ [h key] in
        (sums_to_identity scalars points, transcript).
End OneOfMany.
End OneOfMany.

Module Adaptor.
Section Adaptor.
Context `{G : GroupOps} `{T : TranscriptOps}.

Record PreSignature := mkPreSignature { pre_r : Point; pre_s : Scalar }.
Record Signature := mkSignature { sig_r : Point; sig_s : Scalar }.
Record Adaptor := mkAdaptor { secret : Scalar; point : Point }.

Definition adaptor_random {R} `{!ScalarRandom R} (rng : R) : Adaptor * R :=
  let (secret, rng) := scalar_random rng in (mkAdaptor secret (basepoint * secret)%P, rng).

Definition public_key (secret : Scalar) : Point := (basepoint * secret)%P.

Definition challenge (nonce_point key : Point) (message : bytes) : Scalar :=
  let t := transcript_new (bstr "qomm:zk:adaptor:v1") in
  let t := append_point (bstr "R") nonce_point t in
  let t := append_point (bstr "X") key t in
  let t := append_message (bstr "m") message t in
  (challenge_scalar (bstr "c") t).1.

Definition pre_sign {R} `{!ScalarRandom R} (signing_key : Scalar) (adaptor_point : Point)
    (message : bytes) (rng : R) : PreSignature * R :=
  let (r, rng) := scalar_random rng in
  let nonce := (basepoint * r)%P in
  let c := challenge (nonce + adaptor_point)%P (public_key signing_key) message in
  (mkPreSignature nonce (r + c * signing_key)%S, rng).

Definition verify_pre_signature (key adaptor_point : Point) (message : bytes) (pre : PreSignature) : bool :=
  let c := challenge (pre_r pre + adaptor_point)%P key message in
  bool_decide (public_key (pre_s pre) = pre_r pre + key * c)%P.

Definition adapt (pre : PreSignature) (adaptor : Adaptor) : Signature :=
  mkSignature (pre_r pre + point adaptor)%P (pre_s pre + secret adaptor)%S.

Definition extract (pre : PreSignature) (signature : Signature) : Scalar := (sig_s signature - pre_s pre)%S.

Definition verify (key : Point) (message : bytes) (signature : Signature) : bool :=
  let c := challenge (sig_r signature) key message in
  bool_decide (public_key (sig_s signature) = sig_r signature + key * c)%P.

Definition sign {R} `{!ScalarRandom R} (signing_key : Scalar) (message : bytes) (rng : R) : Signature * R :=
  let (pre, rng) := pre_sign signing_key pid message rng in
  (mkSignature (pre_r pre) (pre_s pre), rng).
End Adaptor.
End Adaptor.
