(* ===== verification/OneOfManyProofs.v ===== *)
(** * The Groth-Kohlweiss prover is complete

    The coefficients of the selector polynomials, their leading terms, and the
    exchange of the sums over the set and over the powers of the challenge. *)

From S2P Require Import Prelude.
From S2P Require Import Interfaces.
From S2P Require Import Curve.
From S2P Require Import Shamir.
From S2P Require Import ShamirTheorems.
From S2P Require Import Sigma.
From S2P Require Import SigmaProofs.
From S2P Require Import BitrangeProofs.
From S2P Require Import Membership.

(** ** Membership proofs and adaptor signatures are complete and extractable *)

Open Scope nat_scope.

Section Sums.
Context `{SL : ScalarLaws} `{G : !GroupOps} `{L : !GroupLaws}.
Add Field membership_field : scalar_field.

Lemma scalar_sum_ssum l : scalar_sum l = ssum l.
Proof.
  assert (forall l (a : Scalar), foldl sadd a l = (a + ssum l)%S) as Hl.
  { induction l0 as [|x l0 IH]; intros a; [change (a = a + s0)%S; ring|]. cbn [foldl]. rewrite IH.
    change (ssum (x :: l0)) with (x + ssum l0)%S. ring. }
  unfold scalar_sum. rewrite Hl. ring.
Qed.

Lemma ssum_insert l i v : i < length l -> ssum (<[i := v]> l) = (ssum l + v - nth i l s0)%S.
Proof.
  revert i. induction l as [|x l IH]; intros [|i] Hi; cbn [length] in Hi; [lia..| |].
  - cbn [insert list_insert nth]. change (v + ssum l = x + ssum l + v - x)%S. ring.
  - cbn [nth]. change (<[S i := v]> (x :: l)) with (x :: <[i := v]> l).
    change (x + ssum (<[i := v]> l) = x + ssum l + v - nth i l s0)%S. rewrite IH by lia. ring.
Qed.

Lemma nth_fmap_lt {A B} (f : A -> B) (l : list A) i (d : A) (e : B) :
  i < length l -> nth i (f <$> l) e = f (nth i l d).
Proof.
  intros Hi. destruct (lookup_lt_is_Some_2 l i Hi) as [x Hx].
  rewrite (nth_lookup_Some l i d x Hx), (nth_lookup_Some (f <$> l) i e (f x)); [done|].
  by rewrite list_lookup_fmap, Hx.
Qed.

(** ** One of N *)

Import OrDleq.

Lemma simulate_spec {R} `{!ScalarRandom R} hs null index nonce : forall pts position (rng : R) i P,
  pts !! i = Some P ->
  let branches := (simulate hs null index nonce position pts rng).1 in
  length branches = length pts /\
  exists b, branches !! i = Some b /\
    (position + i = index -> b = mkBranch s0 s0 (basepoint * nonce)%P (hs * nonce)%P) /\
    (position + i <> index -> b_commit_g b = (basepoint * b_response b - P * b_challenge b)%P
       /\ b_commit_h b = (hs * b_response b - null * b_challenge b)%P).
Proof.
  assert (forall pts position (rng : R), length (simulate hs null index nonce position pts rng).1 = length pts) as Hlen.
  { intros pts. induction pts as [|Q pts IH]; intros position rng; [done|]. cbn [simulate].
    destruct (if position =? index then _ else _) as [b rng1]. specialize (IH (S position) rng1).
    destruct (simulate _ _ _ _ _ _ _). cbn in *. by rewrite IH. }
  intros pts position rng i P Hi. split; [apply Hlen|]. revert position rng i Hi.
  induction pts as [|Q pts IH]; intros position rng i Hi; [done|]. cbn [simulate].
  destruct (if position =? index then _ else _) as [b rng1] eqn:Hb.
  specialize (IH (S position) rng1). destruct (simulate _ _ _ _ _ _ _) as [bs rng2].
  destruct i as [|i]; cbn in Hi |- *.
  - injection Hi as ->. exists b. split; [done|]. rewrite Nat.add_0_r.
    destruct (Nat.eqb_spec position index) as [->|Hne].
    + injection Hb as <- _. split; [done|]. intros []. done.
    + split; [done|]. intros _. destruct (scalar_random rng) as [c r1], (scalar_random r1) as [z r2].
      by injection Hb as <- _.
  - destruct (IH i Hi) as (b' & Hb' & H1 & H2). exists b'. split; [done|].
    rewrite Nat.add_succ_r. done.
Qed.

Lemma prove_ok_iff `{T : TranscriptOps} {R} `{!ScalarRandom R} statement secret index (rng : R) :
  is_ok (prove statement secret index rng) = bool_decide (points statement !! index = Some (basepoint * secret)%P).
Proof.
  unfold prove. destruct (points statement !! index) as [P|] eqn:HP; [|by rewrite bool_decide_eq_false_2].
  case_bool_decide as HB; cbn [negb].
  - rewrite bool_decide_eq_true_2 by (by rewrite HB). destruct (scalar_random rng) as [n r1].
    destruct (simulate _ _ _ _ _ _ _). done.
  - rewrite bool_decide_eq_false_2; [done|]. by intros [= ->].
Qed.

Lemma prove_verifies `{T : TranscriptOps} {R} `{!ScalarRandom R} statement secret index (rng : R) proof rng' :
  prove statement secret index rng = Ok (proof, rng') ->
  verify statement proof = true /\ proof_nullifier proof = nullifier (scope statement) secret.
Proof.
  unfold prove. destruct (points statement !! index) as [P|] eqn:HP; [|done].
  case_bool_decide as HB; [|done]. cbn [negb]. destruct (scalar_random rng) as [n r1].
  set (hs := scope_generator (scope statement)).
  pose proof (simulate_spec hs (hs * secret)%P index n (points statement) 0 r1) as Hsim.
  destruct (simulate _ _ _ _ _ _ _) as [bs r2]. cbn [fst] in Hsim. intros [= <- <-].
  cbn [proof_nullifier]. split; [|done].
  destruct (Hsim index P HP) as (Hlen & b0 & Hb0 & Hreal & _). specialize (Hreal eq_refl).
  assert (index < length (points statement)) as Hidx by (by eapply lookup_lt_Some).
  set (total := challenge statement (hs * secret)%P (b_commit_g <$> bs) (b_commit_h <$> bs)).
  set (c := (total - scalar_sum (b_challenge <$> bs))%S).
  unfold verify. cbn [challenges responses proof_nullifier]. rewrite !length_insert, !length_fmap, Hlen, Nat.eqb_refl.
  cbn [negb orb]. apply bool_decide_eq_true_2.
  assert (nth index (b_challenge <$> bs) s0 = s0) as Hz.
  { apply nth_lookup_Some. by rewrite list_lookup_fmap, Hb0, Hreal. }
  rewrite scalar_sum_ssum, ssum_insert, Hz by (by rewrite length_fmap, Hlen).
  replace (ssum (b_challenge <$> bs) + c - s0)%S with total by (unfold c; rewrite scalar_sum_ssum; ring).
  assert (forall (base : Point) (other : nat -> Point) (commits : Branch -> Point),
    (base * n = commits b0)%P -> (other index = base * secret)%P ->
    (forall i b, bs !! i = Some b -> i <> index -> commits b = base * b_response b - other i * b_challenge b)%P ->
    (fun i => base * nth i (<[index := (n + c * secret)%S]> (b_response <$> bs)) s0
              - other i * nth i (<[index := c]> (b_challenge <$> bs)) s0)%P <$> seq 0 (length (points statement))
    = commits <$> bs) as Hcommits.
  { intros base other commits Hb Ho Hother. apply list_eq. intros i. rewrite !list_lookup_fmap.
    destruct (decide (i < length (points statement))) as [Hi|Hi].
    2:{ rewrite lookup_seq_ge, (lookup_ge_None_2 bs) by lia. done. }
    rewrite lookup_seq_lt by done. cbn [fmap option_fmap option_map].
    destruct (lookup_lt_is_Some_2 bs i ltac:(lia)) as [b Hbi]. rewrite Hbi. cbn. f_equal.
    rewrite !nth_insert by (rewrite length_fmap; lia).
    case_decide as Hii.
    - subst i. rewrite Ho. assert (b = b0) as -> by congruence. rewrite <- Hb. module_split; ring.
    - rewrite !(nth_lookup_Some _ i s0 _ (list_lookup_fmap_Some_2 _ _ _ _ Hbi)). symmetry. by apply Hother. }
  unfold total. f_equal; symmetry.
  - unfold commits_g. cbn [challenges responses]. apply (Hcommits basepoint (fun i => nth i (points statement) pid)).
    + by rewrite Hreal.
    + by rewrite (nth_lookup_Some _ _ pid P HP).
    + intros i b Hbi Hne. destruct (lookup_lt_is_Some_2 (points statement) i) as [Q HQ].
      { rewrite <- Hlen. by eapply lookup_lt_Some. }
      destruct (Hsim i Q HQ) as (_ & b' & Hb' & _ & Hf). rewrite (nth_lookup_Some _ _ pid Q HQ).
      assert (b = b') as -> by congruence. by apply Hf.
  - unfold commits_h. cbn [challenges responses proof_nullifier]. apply (Hcommits hs (fun _ => hs * secret)%P).
    + by rewrite Hreal.
    + done.
    + intros i b Hbi Hne. destruct (lookup_lt_is_Some_2 (points statement) i) as [Q HQ].
      { rewrite <- Hlen. by eapply lookup_lt_Some. }
      destruct (Hsim i Q HQ) as (_ & b' & Hb' & _ & Hf).
      assert (b = b') as -> by congruence. by apply Hf.
Qed.

(** The first position whose challenges differ, and the secret its two answers
    give away. *)
Definition extract_member (n : nat) (p p' : MembershipProof) : option (nat * Scalar) :=
  i ← List.find (fun i => negb (bool_decide (nth i (challenges p) s0 = nth i (challenges p') s0))) (seq 0 n);
  Some (i, extracted (nth i (responses p) s0) (nth i (responses p') s0)
             (nth i (challenges p) s0) (nth i (challenges p') s0)).

Lemma sum_differs (l l' : list Scalar) n :
  length l = n -> length l' = n -> scalar_sum l <> scalar_sum l' ->
  exists i, List.find (fun i => negb (bool_decide (nth i l s0 = nth i l' s0))) (seq 0 n) = Some i
    /\ i < n /\ nth i l s0 <> nth i l' s0.
Proof.
  intros Hl Hl' Hne. destruct (List.find _ _) as [i|] eqn:Hf.
  - exists i. split; [done|]. apply find_some in Hf as [Hi Hb]. apply in_seq in Hi.
    apply negb_true_iff, bool_decide_eq_false in Hb. split; [lia|done].
  - exfalso. apply Hne. f_equal. apply list_eq. intros i.
    destruct (decide (i < n)) as [Hi|Hi].
    + pose proof (find_none _ _ Hf i ltac:(apply in_seq; lia)) as Hb.
      apply negb_false_iff, bool_decide_eq_true in Hb.
      destruct (lookup_lt_is_Some_2 l i ltac:(lia)) as [v Hv], (lookup_lt_is_Some_2 l' i ltac:(lia)) as [w Hw].
      rewrite (nth_lookup_Some _ _ _ _ Hv), (nth_lookup_Some _ _ _ _ Hw) in Hb. congruence.
    + rewrite !lookup_ge_None_2 by lia. done.
Qed.

Lemma fmap_seq_inj {A} (f f' : nat -> A) n i : f <$> seq 0 n = f' <$> seq 0 n -> i < n -> f i = f' i.
Proof.
  intros E Hi. pose proof (f_equal (fun l => l !! i) E) as Ei. cbn in Ei.
  rewrite !list_lookup_fmap, lookup_seq_lt in Ei by done. by injection Ei.
Qed.

Lemma member_extracted (T T' : TranscriptOps) statement p p' :
  verify (T:=T) statement p = true -> verify (T:=T') statement p' = true ->
  proof_nullifier p = proof_nullifier p' ->
  commits_g statement p = commits_g statement p' -> commits_h statement p = commits_h statement p' ->
  scalar_sum (challenges p) <> scalar_sum (challenges p') ->
  exists i x, extract_member (length (points statement)) p p' = Some (i, x)
    /\ points statement !! i = Some (basepoint * x)%P
    /\ proof_nullifier p = nullifier (scope statement) x.
Proof.
  unfold verify. destruct (_ || _) eqn:Hl; [done|]. intros _.
  apply orb_false_iff in Hl as [Hl _]. apply negb_false_iff, Nat.eqb_eq in Hl.
  destruct (_ || _) eqn:Hl'; [done|]. intros _.
  apply orb_false_iff in Hl' as [Hl' _]. apply negb_false_iff, Nat.eqb_eq in Hl'.
  intros Hn Hg Hh Hne. destruct (sum_differs _ _ _ Hl Hl' Hne) as (i & Hf & Hi & Hc).
  unfold extract_member. rewrite Hf. cbn [mbind option_bind].
  exists i. eexists. split; [reflexivity|].
  apply fmap_seq_inj with (i := i) in Hg; [|done]. apply fmap_seq_inj with (i := i) in Hh; [|done].
  destruct (lookup_lt_is_Some_2 (points statement) i Hi) as [P HP].
  rewrite (nth_lookup_Some _ _ pid P HP) in Hg. rewrite <- Hn in Hh.
  assert (forall base X z z' d d', (base * z - X * d = base * z' - X * d')%P -> d <> d' ->
    X = (base * extracted z z' d d')%P) as Hx.
  { intros base X z z' d d' E Hd. apply (single_extract X base (base * z - X * d)%P z z' d d'); [| |done].
    - module_split; ring.
    - rewrite E. module_split; ring. }
  split.
  - rewrite HP. f_equal. by apply (Hx _ _ _ _ _ _ Hg).
  - by apply (Hx _ _ _ _ _ _ Hh).
Qed.

Lemma basepoint_inj x y : basepoint <> pid -> (basepoint * x = basepoint * y)%P -> x = y.
Proof.
  intros Hb E. destruct (decide (x = y)) as [|Hn]; [done|]. exfalso. apply Hb. apply ssub_neq_0 in Hn.
  transitivity ((basepoint * x - basepoint * y) * sinv (x - y))%P; [module_split; field; done|].
  rewrite E. module_split; ring.
Qed.
End Sums.

(** ** Adaptor signatures *)

Section Adaptors.
Context `{SL : ScalarLaws} `{G : !GroupOps} `{L : !GroupLaws} `{T : TranscriptOps}.
Add Field adaptor_field : scalar_field.
Import Adaptor.

Lemma pre_sign_verifies {R} `{!ScalarRandom R} x Y m (rng : R) :
  verify_pre_signature (public_key x) Y m (pre_sign x Y m rng).1 = true.
Proof.
  unfold pre_sign, verify_pre_signature. destruct (scalar_random rng) as [r rng1]. cbn [fst pre_r pre_s].
  apply bool_decide_eq_true_2. unfold public_key. module_split; ring.
Qed.

Lemma adapt_verifies key m pre a :
  point a = (basepoint * secret a)%P -> verify_pre_signature key (point a) m pre = true ->
  verify key m (adapt pre a) = true /\ extract pre (adapt pre a) = secret a.
Proof.
  intros Ha. unfold verify_pre_signature, verify, extract, adapt. cbn [sig_r sig_s].
  intros Hv%bool_decide_eq_true. split; [|ring]. apply bool_decide_eq_true_2.
  set (c := challenge _ _ _) in *. unfold public_key in *. rewrite Ha.
  transitivity (basepoint * pre_s pre + basepoint * secret a)%P; [module_split; ring|].
  rewrite Hv. module_split; ring.
Qed.

Lemma extract_opens key Y m pre sig :
  verify_pre_signature key Y m pre = true -> verify key m sig = true -> sig_r sig = (pre_r pre + Y)%P ->
  (basepoint * extract pre sig)%P = Y.
Proof.
  unfold verify_pre_signature, verify, extract. intros Hp%bool_decide_eq_true Hv%bool_decide_eq_true Hr.
  rewrite Hr in Hv. set (c := challenge _ _ _) in *. unfold public_key in *.
  transitivity (basepoint * sig_s sig - basepoint * pre_s pre)%P; [module_split; ring|].
  rewrite Hv, Hp. module_split; ring.
Qed.

Lemma sign_verifies {R} `{!ScalarRandom R} x m (rng : R) : verify (public_key x) m (sign x m rng).1 = true.
Proof.
  unfold sign. pose proof (pre_sign_verifies x pid m rng) as Hp.
  destruct (pre_sign x pid m rng) as [pre rng1]. cbn [fst] in *.
  unfold verify_pre_signature, verify in *. cbn [sig_r sig_s]. by rewrite padd_id in Hp.
Qed.
End Adaptors.

Open Scope nat_scope.
Import OneOfMany.

Section Coefficients.
Context `{SL : ScalarLaws}.
Add Field gk_field : scalar_field.
Implicit Types (p q a ell : list Scalar) (x : Scalar).

Lemma nth_poly_add p q k : nth k (poly_add p q) s0 = (nth k p s0 + nth k q s0)%S.
Proof.
  revert q k. induction p as [|b p IH]; intros [|c q] [|k]; cbn [poly_add nth]; try ring. apply IH.
Qed.

Lemma nth_poly_scale (b : Scalar) p k : nth k (poly_scale b p) s0 = (b * nth k p s0)%S.
Proof.
  revert k. induction p as [|c p IH]; intros [|k]; [cbn; ring..|done|]. apply IH.
Qed.

Lemma nth_replicate_zero n k : nth k (replicate n s0) s0 = s0.
Proof. rewrite nth_lookup. destruct (_ !! k) eqn:E; [by apply lookup_replicate in E as [-> _]|done]. Qed.

(** The product with a linear polynomial, as a polynomial. *)
Lemma convolve_spec (b c : Scalar) p : convolve (b, c) p = poly_add (poly_scale b p) (s0 :: poly_scale c p).
Proof.
  assert (forall p s l, s + length p < length l ->
    let r := foldl (fun r '(k, v) =>
      let r := <[k := (nth k r s0 + v * b)%S]> r in <[S k := (nth (S k) r s0 + v * c)%S]> r)
      l (zip (seq s (length p)) p) in
    length r = length l /\ forall k, nth k r s0
      = (nth k l s0 + nth k (replicate s s0 ++ poly_add (poly_scale b p) (s0 :: poly_scale c p)) s0)%S) as Hl.
  { intros p0. induction p0 as [|v p0 IH]; intros s l Hs.
    - split; [done|]. intros k. cbn. replace (nth k (replicate s s0 ++ [s0]) s0) with s0; [ring|].
      symmetry. change [s0] with (replicate 1 s0). rewrite <- replicate_add. apply nth_replicate_zero.
    - cbn [length] in Hs. cbn [length seq zip zip_with foldl].
      set (l1 := <[S s := _]> _).
      assert (length l1 = length l) as Hl1 by (unfold l1; by rewrite !length_insert).
      destruct (IH (S s) l1) as [Hlen Hk]; [lia|]. split; [etrans; [exact Hlen|exact Hl1]|]. intros k. etrans; [apply Hk|].
      unfold l1. rewrite nth_insert by (rewrite length_insert; lia).
      rewrite !nth_insert by lia. clear Hk IH.
      assert (forall (m : list Scalar) j, nth j (replicate s s0 ++ m) s0 = if decide (j < s) then s0 else nth (j - s) m s0) as Hrep.
      { intros m j. case_decide.
        - rewrite app_nth1 by (by rewrite length_replicate). rewrite nth_lookup, lookup_replicate_2 by done. done.
        - rewrite app_nth2, length_replicate by (rewrite length_replicate; lia). done. }
      change (replicate (S s) s0) with (s0 :: replicate s s0). rewrite replicate_cons_app, <- app_assoc.
      rewrite !Hrep. change (poly_scale b (v :: p0)) with ((b * v)%S :: poly_scale b p0).
      change (poly_scale c (v :: p0)) with ((c * v)%S :: poly_scale c p0). cbn [app poly_add].
      destruct (decide (S s = s)) as [|_]; [lia|].
      destruct (decide (k < s)) as [Hks|Hks]; [repeat case_decide; (lia || ring)|].
      destruct (k - s) as [|d] eqn:Hd; cbn [nth]; rewrite ?nth_poly_add.
      + repeat case_decide; try lia. replace s with k by lia. ring.
      + repeat case_decide; try lia.
        * destruct d as [|d]; [|lia]. replace (S s) with k by lia. cbn [nth]. ring.
        * destruct d as [|d]; [lia|]. cbn [nth]. ring. }
  destruct (Hl p 0 (replicate (S (length p)) s0)) as [Hlen Hk]; [rewrite length_replicate; lia|].
  cbv zeta in Hlen, Hk. apply (nth_ext _ _ s0 s0).
  - etrans; [exact Hlen|]. rewrite length_replicate, poly_add_length, poly_scale_length. cbn [length].
    rewrite poly_scale_length. lia.
  - intros k _. etrans; [apply Hk|]. rewrite nth_replicate_zero. cbn [replicate app]. ring.
Qed.

Lemma sprod_app (l m : list Scalar) : sprod (l ++ m) = (sprod l * sprod m)%S.
Proof.
  induction l as [|v l IH]; [change (sprod m = s1 * sprod m)%S; ring|].
  change (v * sprod (l ++ m) = v * sprod l * sprod m)%S. rewrite IH. ring.
Qed.

(** The factor of one bit of the index. *)
Definition linear_factor (i j : nat) a ell : Scalar * Scalar :=
  if bit_of i j then (nth j a s0, nth j ell s0) else (- nth j a s0, s1 - nth j ell s0)%S.

Lemma poly_coefficients_S i bits a ell :
  poly_coefficients i (S bits) a ell = convolve (linear_factor i bits a ell) (poly_coefficients i bits a ell).
Proof. unfold poly_coefficients. rewrite seq_S, foldl_app. done. Qed.

Lemma poly_coefficients_length i bits a ell : length (poly_coefficients i bits a ell) = S bits.
Proof.
  induction bits as [|bits IH]; [done|]. rewrite poly_coefficients_S. destruct (linear_factor _ _ _ _) as [b c].
  rewrite convolve_spec, poly_add_length, poly_scale_length. cbn [length]. rewrite poly_scale_length, IH. lia.
Qed.

Lemma poly_coefficients_eval i bits a ell x :
  evaluate (poly_coefficients i bits a ell) x
  = sprod ((fun j => (linear_factor i j a ell).1 + (linear_factor i j a ell).2 * x)%S <$> seq 0 bits).
Proof.
  induction bits as [|bits IH]; [cbn; ring|]. rewrite poly_coefficients_S, seq_S, fmap_app, sprod_app, <- IH.
  destruct (linear_factor _ _ _ _) as [b c] eqn:Hf. rewrite convolve_spec, evaluate_add, evaluate_scale, evaluate_cons, evaluate_scale.
  cbn [fmap list_fmap Nat.add]. rewrite Hf. cbn [fst snd].
  change (sprod [(b + c * x)%S]) with ((b + c * x) * s1)%S. ring.
Qed.

(** The leading coefficient says whether the index is the chosen one. *)
Lemma poly_coefficients_top i bits a ell :
  nth bits (poly_coefficients i bits a ell) s0
  = sprod ((fun j => (linear_factor i j a ell).2) <$> seq 0 bits).
Proof.
  induction bits as [|bits IH]; [done|]. rewrite poly_coefficients_S, seq_S, fmap_app, sprod_app, <- IH.
  cbn [fmap list_fmap Nat.add]. destruct (linear_factor i bits a ell) as [b c].
  rewrite convolve_spec, nth_poly_add, nth_poly_scale. cbn [nth]. rewrite nth_poly_scale.
  rewrite (nth_overflow _ s0 (n := S bits)) by (rewrite poly_coefficients_length; lia).
  change (sprod [(b, c).2]) with (c * s1)%S. ring.
Qed.
End Coefficients.

Section Sums.
Context `{SL : ScalarLaws} `{G : !GroupOps} `{L : !GroupLaws}.
Add Field gk_sums_field : scalar_field.

Lemma psum_cons (P : Point) l : psum (P :: l) = (P + psum l)%P.
Proof. done. Qed.

Lemma psum_add {A} (F H' : A -> Point) l :
  psum ((fun k => F k + H' k)%P <$> l) = (psum (F <$> l) + psum (H' <$> l))%P.
Proof.
  induction l as [|k l IH]; [cbn; module_split; ring|]. rewrite !fmap_cons, !psum_cons, IH. module_split; ring.
Qed.

Lemma psum_mul {A} (F : A -> Point) (c : Scalar) l :
  psum ((fun k => F k * c)%P <$> l) = (psum (F <$> l) * c)%P.
Proof.
  induction l as [|k l IH]; [cbn; module_split; ring|]. rewrite !fmap_cons, !psum_cons, IH. module_split; ring.
Qed.

Lemma psum_scalar {A} (P : Point) (F : A -> Scalar) l :
  psum ((fun k => P * F k)%P <$> l) = (P * ssum (F <$> l))%P.
Proof.
  induction l as [|k l IH]; [cbn; module_split; ring|]. rewrite !fmap_cons, psum_cons, IH.
  change (ssum (F k :: (F <$> l))) with (F k + ssum (F <$> l))%S. module_split; ring.
Qed.

Lemma psum_ext {A} (F H' : A -> Point) l : (forall k, k ∈ l -> F k = H' k) -> psum (F <$> l) = psum (H' <$> l).
Proof.
  induction l as [|k l IH]; intros E; [done|]. rewrite !fmap_cons, !psum_cons, IH, (E k) by set_solver. done.
Qed.

(** Evaluating rows of coefficients and combining points exchange. *)
Lemma exchange (Cs : list Point) (rows : list (list Scalar)) n x :
  length Cs = length rows -> Forall (fun row => length row = S n) rows ->
  psum (zip_with pmul Cs ((fun row => evaluate row x) <$> rows))
  = (psum ((fun k => psum (zip_with pmul Cs ((fun row => nth k row s0) <$> rows)) * spow x k) <$> seq 0 n)
     + psum (zip_with pmul Cs ((fun row => nth n row s0) <$> rows)) * spow x n)%P.
Proof.
  revert rows. induction Cs as [|C Cs IH]; intros [|row rows] Hl Hr; try done.
  - cbn [fmap list_fmap zip_with]. change (psum []) with pid. rewrite psum_scalar. module_split; ring.
  - injection Hl as Hl. apply Forall_cons in Hr as [Hrow Hr]. rewrite !fmap_cons. cbn [zip_with].
    rewrite (psum_ext _ (fun k => C * (nth k row s0 * spow x k)
      + psum (zip_with pmul Cs ((fun row => nth k row s0) <$> rows)) * spow x k)%P).
    2:{ intros k _. cbn [fmap list_fmap zip_with]. rewrite psum_cons. module_split; ring. }
    rewrite psum_add, psum_scalar, !psum_cons, (IH rows Hl Hr), evaluate_sum, Hrow, seq_S, fmap_app, ssum_app.
    cbn [fmap list_fmap Nat.add zip_with]. change (ssum [(nth n row s0 * spow x n)%S]) with (nth n row s0 * spow x n + s0)%S.
    module_split; ring.
Qed.

Lemma powers_list x n : forall p, (powers x p n).1 = (fun k => p * spow x k)%S <$> seq 0 n.
Proof.
  induction n as [|n IH]; intros p; [done|]. cbn [powers]. specialize (IH (p * x)%S).
  destruct (powers x (p * x)%S n) as [l next]. cbn [fst] in *. rewrite IH. cbn [seq].
  rewrite fmap_cons, <- seq_shift. change (map S (seq 0 n)) with (S <$> seq 0 n). rewrite <- list_fmap_compose.
  f_equal; [cbn; ring|]. apply list_fmap_ext. intros i k _. cbn. ring.
Qed.

Lemma zip_seq_psum (Ps : list Point) (cs : nat -> Scalar) :
  psum (zip_with pmul Ps (cs <$> seq 0 (length Ps))) = psum ((fun k => nth k Ps pid * cs k)%P <$> seq 0 (length Ps)).
Proof.
  f_equal. apply list_eq. intros i. rewrite lookup_zip_with, !list_lookup_fmap.
  destruct (decide (i < length Ps)) as [Hi|Hi].
  - destruct (lookup_lt_is_Some_2 Ps i Hi) as [P HP]. rewrite HP, lookup_seq_lt by done. cbn.
    by rewrite (nth_lookup_Some _ _ _ _ HP).
  - rewrite (lookup_ge_None_2 Ps), lookup_seq_ge by lia. done.
Qed.

(** A selection of one point. *)
Lemma psum_indicator (Cs : list Point) index C :
  Cs !! index = Some C ->
  psum (zip_with pmul Cs ((fun i => if decide (i = index) then s1 else s0) <$> seq 0 (length Cs))) = C.
Proof.
  assert (forall Cs s index C, Cs !! index = Some C ->
    psum (zip_with pmul Cs ((fun i => if decide (i = s + index) then s1 else s0) <$> seq s (length Cs))) = C) as Hs.
  { clear index C Cs. intros Cs. induction Cs as [|D Cs IH]; intros s index C HC; [done|].
    cbn [length seq]. rewrite fmap_cons. cbn [zip_with]. rewrite psum_cons. destruct index as [|index].
    - injection HC as ->. rewrite decide_True by lia.
      rewrite (list_fmap_ext _ (fun _ => s0) (seq (S s) (length Cs))).
      2:{ intros i j Hi. apply lookup_seq in Hi. rewrite decide_False by lia. done. }
      assert (psum (zip_with pmul Cs ((fun _ => s0) <$> seq (S s) (length Cs))) = pid) as ->; [|module_split; ring].
      clear IH. generalize (S s). induction Cs as [|E Cs IH]; intros n; [done|]. cbn [length seq].
      rewrite fmap_cons. cbn [zip_with]. rewrite psum_cons, IH, pmul_0, padd_id. done.
    - rewrite decide_False by lia. cbn in HC. rewrite pmul_0, padd_id_l.
      etrans; [|exact (IH (S s) index C HC)]. do 2 f_equal. apply list_fmap_ext. intros i j _.
      by rewrite Nat.add_succ_r. }
  intros HC. exact (Hs Cs 0 index C HC).
Qed.

Lemma respond_zd_spec r x bits rho :
  respond_zd r x bits rho = (r * spow x bits - ssum ((fun k => nth k rho s0 * spow x k)%S <$> seq 0 (length rho)))%S.
Proof.
  assert (Nat.iter bits (fun acc => acc * x)%S s1 = spow x bits) as Hp.
  { induction bits as [|b IH]; [done|].
    change (Nat.iter b (fun acc => acc * x) s1 * x = x * spow x b)%S. rewrite IH. ring. }
  unfold respond_zd. rewrite Hp.
  assert (forall rho zd p, (foldl (fun '(zd, p) v => (zd - v * p, p * x))%S (zd, p) rho).1
    = (zd - p * evaluate rho x)%S) as Hf.
  { induction rho0 as [|v rho0 IH]; intros zd p; [cbn; ring|]. cbn [foldl]. rewrite IH, evaluate_cons. ring. }
  rewrite Hf, evaluate_sum. ring.
Qed.

Lemma bits_agree bits i j : i < 2 ^ bits -> j < 2 ^ bits ->
  (forall k, k < bits -> bit_of i k = bit_of j k) -> i = j.
Proof.
  intros Hi Hj Hk. apply Nat.bits_inj. intros k. destruct (decide (k < bits)) as [Hlt|Hge]; [by apply Hk|].
  assert (forall m, m < 2 ^ bits -> Nat.testbit m k = false) as Hz.
  { intros m Hm. destruct (decide (m = 0)) as [->|Hn]; [apply Nat.bits_0|].
    apply Nat.bits_above_log2. apply Nat.log2_lt_pow2; [lia|].
    eapply Nat.lt_le_trans; [exact Hm|]. apply Nat.pow_le_mono_r; lia. }
  by rewrite !Hz.
Qed.

(** The leading coefficient of a selector, for the chosen bits. *)
Lemma top_indicator index i bits a :
  i < 2 ^ bits -> index < 2 ^ bits ->
  let ell := (fun j => if bit_of index j then s1 else s0) <$> seq 0 bits in
  nth bits (poly_coefficients i bits a ell) s0 = if decide (i = index) then s1 else s0.
Proof.
  intros Hi Hidx ell. rewrite poly_coefficients_top.
  assert (forall j, j < bits -> nth j ell s0 = if bit_of index j then s1 else s0) as Hell.
  { intros j Hj. apply nth_lookup_Some. unfold ell. by rewrite list_lookup_fmap, lookup_seq_lt by done. }
  case_decide as Heq.
  - subst i. assert (forall l, (forall j, j ∈ l -> j < bits) ->
      sprod ((fun j => (linear_factor index j a ell).2) <$> l) = s1) as Hone.
    { induction l as [|j l IH]; intros Hl; [done|]. rewrite fmap_cons.
      change (sprod (?v :: ?m)) with (v * sprod m)%S. cbn. change (foldr smul s1 ?m) with (sprod m).
      rewrite IH by set_solver. unfold linear_factor. specialize (Hell j ltac:(apply Hl; set_solver)).
      destruct (bit_of index j); cbn [snd]; rewrite Hell; ring. }
    apply Hone. intros j [_ Hj]%elem_of_seq. lia.
  - assert (exists j, j < bits /\ bit_of i j <> bit_of index j) as (j & Hj & Hne).
    { destruct (decide (Forall (fun j => bit_of i j = bit_of index j) (seq 0 bits))) as [Hf|Hf].
      - exfalso. apply Heq, (bits_agree bits); [done|done|]. intros k Hk.
        rewrite Forall_forall in Hf. apply Hf, elem_of_seq. lia.
      - apply not_Forall_Exists, Exists_exists in Hf as (j & Hj & Hne); [|apply _].
        apply elem_of_seq in Hj. exists j. split; [lia|done]. }
    apply (sprod_zero _ _ j); [apply elem_of_seq; lia|]. unfold linear_factor. rewrite (Hell j Hj).
    destruct (bit_of i j), (bit_of index j); try done; cbn; ring.
Qed.
End Sums.

Section Complete.
Context `{SL : ScalarLaws} `{G : !GroupOps} `{L : !GroupLaws} `{T : TranscriptOps} {R : Type} `{!ScalarRandom R}.
Add Field gk_complete_field : scalar_field.

Lemma nth_fmap_seq {A} (F : nat -> A) n j d : j < n -> nth j (F <$> seq 0 n) d = F j.
Proof. intros Hj. apply nth_lookup_Some. by rewrite list_lookup_fmap, lookup_seq_lt by done. Qed.

Lemma selector_spec x a ell f bits i :
  (forall j, j < bits -> nth j f s0 = nth j ell s0 * x + nth j a s0)%S ->
  selector x f bits i = evaluate (poly_coefficients i bits a ell) x.
Proof.
  intros Hf. unfold selector. rewrite poly_coefficients_eval.
  rewrite (foldl_smul [] (fun j => if bit_of i j then nth j f s0 else x - nth j f s0)%S).
  rewrite (list_fmap_ext _ (fun j => (linear_factor i j a ell).1 + (linear_factor i j a ell).2 * x)%S); [ring|].
  intros k j Hj. apply lookup_seq in Hj as [-> Hj]. rewrite Hf by lia. unfold linear_factor.
  destruct (bit_of i _); cbn [fst snd]; ring.
Qed.

Lemma is_power_of_two_spec size : is_power_of_two size = true -> size = 2 ^ Nat.log2 size.
Proof. unfold is_power_of_two. rewrite andb_true_iff, Nat.eqb_eq. by intros [_ ?]. Qed.

(** Refusals: a set of another size, or an index outside it. *)
Lemma gk_prove_ok_iff key tr Cs index r (rng : R) :
  is_ok (prove key tr Cs index r rng)
  = is_power_of_two (length Cs) && (2 <=? length Cs) && (index <? length Cs).
Proof.
  unfold prove. destruct (is_power_of_two (length Cs)); [|done]. cbn [negb orb].
  rewrite Nat.ltb_antisym. destruct (2 <=? length Cs); [|done]. cbn [negb andb].
  rewrite Nat.ltb_antisym. destruct (length Cs <=? index); [done|]. cbn [negb].
  do 4 (destruct (random_scalars _ _) as [? ?]). destruct (random_scalars _ _) as [rho rng5].
  destruct (challenge _ _ _ _ _ _). done.
Qed.

(** The first moves of the powers of the challenge. *)
Definition first_moves (key : Pedersen) (Cs : list Point) (bits : nat) (a ell rho : list Scalar) : list Point :=
  (fun k => psum (zip_with pmul Cs ((fun c => nth k c s0)
     <$> ((fun i => poly_coefficients i bits a ell) <$> seq 0 (length Cs)))) + h key * nth k rho s0)%P
  <$> seq 0 bits.

(** The sum over the set cancels against the first moves. *)
Lemma gk_sum_identity key Cs index r x a rho fs bits :
  let ell := (fun j => if bit_of index j then s1 else s0) <$> seq 0 bits in
  Cs !! index = Some (h key * r)%P -> index < length Cs -> length Cs = 2 ^ bits -> length rho = bits ->
  (forall j, j < bits -> nth j fs s0 = nth j ell s0 * x + nth j a s0)%S ->
  sums_to_identity (((selector x fs bits <$> seq 0 (length Cs)) ++ negated_powers x bits)
    ++ [(- respond_zd r x bits rho)%S]) ((Cs ++ first_moves key Cs bits a ell rho) ++ [h key]) = true.
Proof.
  intros ell HC Hi Hpow Hlr Hfs. unfold first_moves.
  unfold sums_to_identity. apply bool_decide_eq_true_2.
  rewrite (list_fmap_ext (selector x fs bits) (fun i => evaluate (poly_coefficients i bits a ell) x)).
  2:{ intros i j _. by apply selector_spec. }
  set (rows := (fun i => poly_coefficients i bits a ell) <$> seq 0 (length Cs)).
  set (gks := (fun k => psum (zip_with pmul Cs ((fun c => nth k c s0) <$> rows)) + h key * nth k rho s0)%P <$> seq 0 bits).
  assert (length gks = bits) as Hgl by (unfold gks; by rewrite length_fmap, length_seq).
  unfold negated_powers. rewrite powers_list.
  assert (vartime_multiscalar_mul ((fun i => evaluate (poly_coefficients i bits a ell) x) <$> seq 0 (length Cs)) Cs
    = Some (psum (zip_with pmul Cs ((fun row => evaluate row x) <$> rows)))) as H1.
  { unfold vartime_multiscalar_mul. rewrite length_fmap, length_seq, Nat.eqb_refl. unfold rows.
    by rewrite <- list_fmap_compose. }
  assert (vartime_multiscalar_mul (sopp <$> ((fun k => s1 * spow x k)%S <$> seq 0 bits)) gks
    = Some (psum ((fun k => nth k gks pid * - (s1 * spow x k))%P <$> seq 0 (length gks)))) as H2'.
  { unfold vartime_multiscalar_mul. rewrite !length_fmap, length_seq, Hgl, Nat.eqb_refl. f_equal.
    rewrite <- list_fmap_compose. pose proof (zip_seq_psum gks (fun k => - (s1 * spow x k))%S) as E.
    rewrite Hgl in E. exact E. }
  assert (vartime_multiscalar_mul [(- respond_zd r x bits rho)%S] [h key]
    = Some (h key * - respond_zd r x bits rho + pid)%P) as H3 by done.
  erewrite msm_app; [|eapply msm_app; [exact H1|exact H2']|exact H3]. f_equal.
  rewrite (exchange Cs rows bits x).
  2:{ unfold rows. by rewrite length_fmap, length_seq. }
  2:{ unfold rows. apply Forall_fmap, Forall_forall. intros i _. apply poly_coefficients_length. }
  assert (psum (zip_with pmul Cs ((fun row => nth bits row s0) <$> rows)) = h key * r)%P as ->.
  { etrans; [|apply (psum_indicator Cs index _ HC)]. do 2 f_equal. unfold rows. rewrite <- list_fmap_compose.
    apply list_fmap_ext. intros i j Hj. apply lookup_seq in Hj as [-> Hj]. cbn. apply top_indicator; lia. }
  rewrite Hgl.
  rewrite (psum_ext (fun k => nth k gks pid * - (s1 * spow x k))%P
    (fun k => psum (zip_with pmul Cs ((fun row => nth k row s0) <$> rows)) * spow x k * - s1
      + h key * - (nth k rho s0 * spow x k))%P).
  2:{ intros k [_ Hk]%elem_of_seq. unfold gks. rewrite nth_fmap_seq by lia. module_split; ring. }
  rewrite psum_add, psum_mul, psum_scalar, respond_zd_spec, Hlr.
  rewrite (ssum_ext (fun k => - (nth k rho s0 * spow x k))%S (fun k => (- s1) * (nth k rho s0 * spow x k))%S) by (intros; ring).
  rewrite <- ssum_scale. module_split; ring.
Qed.

Lemma gk_prove_verifies key tr Cs index r (rng : R) proof tr' rng' :
  Cs !! index = Some (h key * r)%P ->
  prove key tr Cs index r rng = Ok (proof, tr', rng') ->
  (verify key tr Cs proof).1 = true.
Proof.
  intros HC. unfold prove, verify. destruct (is_power_of_two (length Cs)) eqn:Hpow; [|done].
  destruct (length Cs <? 2) eqn:H2; [done|]. cbn [negb orb]. destruct (length Cs <=? index) eqn:Hi; [done|].
  apply Nat.leb_gt in Hi. apply is_power_of_two_spec in Hpow. set (bits := Nat.log2 (length Cs)) in *.
  set (ell := (fun j => if bit_of index j then s1 else s0) <$> seq 0 bits).
  pose proof (random_scalars_length bits rng) as Hla. destruct (random_scalars bits rng) as [a rng1].
  destruct (random_scalars bits rng1) as [rr rng2]. destruct (random_scalars bits rng2) as [s rng3].
  destruct (random_scalars bits rng3) as [t rng4].
  pose proof (random_scalars_length bits rng4) as Hlr. destruct (random_scalars bits rng4) as [rho rng5].
  cbn [fst] in Hla, Hlr. destruct (challenge _ _ _ _ _ _) as [x tr1] eqn:Hch. intros [= <- <- <-].
  cbn [f cl ca cb gk za zb zd]. rewrite !length_fmap, !length_seq.
  cbn [forallb]. rewrite !Nat.eqb_refl. cbn [andb negb]. unfold challenge_for. cbn [cl ca cb gk]. rewrite Hch.
  set (fs := (fun j => nth j ell s0 * x + nth j a s0)%S <$> seq 0 bits).
  assert (forall j, j < bits -> nth j fs s0 = nth j ell s0 * x + nth j a s0)%S as Hfs.
  { intros j Hj. unfold fs. by rewrite nth_fmap_seq. }
  assert (forall j, j < bits -> nth j ell s0 = s0 \/ nth j ell s0 = s1) as Hell.
  { intros j Hj. unfold ell. rewrite nth_fmap_seq by done. destruct (bit_of index j); auto. }
  match goal with |- context [forallb ?c ?l] => assert (forallb c l = true) as -> end.
  { apply forallb_forall. intros j Hj. apply in_seq in Hj. unfold bit_checks. cbn [f cl ca cb gk za zb zd].
    fold fs. rewrite !nth_fmap_seq by lia. unfold commit. apply andb_true_iff.
    rewrite (Hfs j) by lia. split; apply bool_decide_eq_true_2.
    - module_split; ring.
    - destruct (Hell j) as [-> | ->]; [lia| |]; module_split; ring. }
  cbn [negb fst]. apply gk_sum_identity; done.
Qed.
End Complete.
