(* ===== verification/SigmaTheorems.v ===== *)
(** * What the zero-knowledge proofs promise

    Completeness and special soundness of the sigma protocols, the interval
    proofs, batches, membership proofs and adaptor signatures.  Soundness is
    stated for two transcripts [T] and [T'] that answer the same first moves
    with different challenges; the witness is computed from the two answers. *)

From S2P Require Import Prelude.
From S2P Require Import Interfaces.
From S2P Require Import Curve.
From S2P Require Import Shamir.
From S2P Require Import Sigma.
From S2P Require Import SigmaProofs.
From S2P Require Import BitrangeProofs.
From S2P Require Import Membership.
From S2P Require Import OneOfManyProofs.

Section Theorems.
Context `{SL : ScalarLaws} `{G : !GroupOps} `{L : !GroupLaws}.
Add Field sigma_theorems_field : scalar_field.

(** For every key, transcript, witness and randomness the verifier accepts
    what the prover makes: openings, openings to zero, one value under two
    generators, products, bits of either value and linear relations. *)
Theorem sigma_proofs_complete `{T : TranscriptOps} {R} `{!ScalarRandom R} key tr (rng : R) v r r' w rw rc g1 g2
    (bit : bool) vs rs cs :
  length vs = length rs -> length cs = length vs ->
  let C := commit key v r in let Z := (h key * r)%P in let B := commit key (bit_scalar bit) r in
  let c1 := (g1 * v + h key * r)%P in let c2 := (g2 * v + h key * r')%P in
  let Cs := zip_with (commit key) vs rs in let k := scalar_sum (zip_with smul cs vs) in
  (verify_opening key tr C (prove_opening key tr C v r rng).1.1).1 = true
  /\ (verify_zero_opening key tr Z (prove_zero_opening key tr Z r rng).1.1).1 = true
  /\ (verify_same_value key tr g1 g2 c1 c2 (prove_same_value key tr g1 g2 c1 c2 v r r' rng).1.1).1 = true
  /\ (verify_product key tr C (commit key w rw) (commit key (v * w)%S rc)
       (prove_product key tr C v r w rw rc rng).1.1).1 = true
  /\ (verify_bit key tr B (prove_bit key tr B bit r rng).1.1).1 = true
  /\ (exists proof tr' rng', prove_linear key tr Cs cs rs k rng = Some (proof, tr', rng')
       /\ exists tr'', verify_linear key tr Cs cs k proof = Some (true, tr'')).
Proof.
  intros Hl Hc C Z B c1 c2 Cs k. split_and!.
  - apply prove_opening_verifies.
  - apply prove_zero_opening_verifies.
  - apply prove_same_value_verifies.
  - apply prove_product_verifies.
  - apply (prove_bit_verifies key tr bit).
  - by apply prove_linear_verifies.
Qed.

Section Forks.
Variables (T T' : TranscriptOps).

Lemma opening_extracted key C p p' (tr : @Transcript T) (tr' : @Transcript T') :
  (verify_opening (T:=T) key tr C p).1 = true -> (verify_opening (T:=T') key tr' C p').1 = true ->
  op_t p = op_t p' ->
  let c := (opening_challenge (T:=T) C (op_t p) tr).1 in
  let c' := (opening_challenge (T:=T') C (op_t p') tr').1 in
  c <> c' ->
  C = commit key (extracted (op_z_value p) (op_z_value p') c c')
        (extracted (op_z_blinding p) (op_z_blinding p') c c').
Proof.
  intros E%verify_opening_iff E'%verify_opening_iff Ht c c' Hc. eapply sigma_extract; [exact E| |exact Hc].
  rewrite Ht. exact E'.
Qed.

Lemma zero_opening_extracted key C p p' (tr : @Transcript T) (tr' : @Transcript T') :
  (verify_zero_opening (T:=T) key tr C p).1 = true -> (verify_zero_opening (T:=T') key tr' C p').1 = true ->
  op_t p = op_t p' ->
  let c := zero_challenge (T:=T) C (op_t p) tr in let c' := zero_challenge (T:=T') C (op_t p') tr' in
  c <> c' -> C = commit key s0 (extracted (op_z_blinding p) (op_z_blinding p') c c').
Proof.
  intros [_ E]%verify_zero_opening_iff [_ E']%verify_zero_opening_iff Ht c c' Hc.
  unfold commit. rewrite pmul_0, padd_id_l. eapply single_extract; [exact E| |exact Hc]. rewrite Ht. exact E'.
Qed.

Lemma same_value_extracted key g1 g2 c1 c2 p p' (tr : @Transcript T) (tr' : @Transcript T') :
  (verify_same_value (T:=T) key tr g1 g2 c1 c2 p).1 = true ->
  (verify_same_value (T:=T') key tr' g1 g2 c1 c2 p').1 = true ->
  xg_t_first p = xg_t_first p' -> xg_t_second p = xg_t_second p' ->
  let c := cross_at (T:=T) g1 g2 c1 c2 p tr in let c' := cross_at (T:=T') g1 g2 c1 c2 p' tr' in
  c <> c' ->
  let v := extracted (xg_z_value p) (xg_z_value p') c c' in
  c1 = (g1 * v + h key * extracted (xg_z_first p) (xg_z_first p') c c')%P
  /\ c2 = (g2 * v + h key * extracted (xg_z_second p) (xg_z_second p') c c')%P.
Proof.
  intros [E1 E2]%verify_same_value_iff [E1' E2']%verify_same_value_iff H1 H2 c c' Hc v.
  rewrite <- H1 in E1'. rewrite <- H2 in E2'. split; eapply sigma_extract; eauto.
Qed.

Lemma product_extracted key c_a c_b c_c p p' (tr : @Transcript T) (tr' : @Transcript T') :
  (verify_product (T:=T) key tr c_a c_b c_c p).1 = true -> (verify_product (T:=T') key tr' c_a c_b c_c p').1 = true ->
  pp_t_factor p = pp_t_factor p' -> pp_t_product p = pp_t_product p' ->
  let c := product_at (T:=T) c_a c_b c_c p tr in let c' := product_at (T:=T') c_a c_b c_c p' tr' in
  c <> c' ->
  let b := extracted (pp_z_b p) (pp_z_b p') c c' in
  c_b = commit key b (extracted (pp_z_rb p) (pp_z_rb p') c c')
  /\ forall a r_a, c_a = commit key a r_a ->
       c_c = commit key (a * b)%S (r_a * b + extracted (pp_z_s p) (pp_z_s p') c c')%S.
Proof.
  intros [E1 E2]%verify_product_iff [E1' E2']%verify_product_iff H1 H2 c c' Hc b.
  rewrite <- H1 in E1'. rewrite <- H2 in E2'. split; [eapply sigma_extract; eauto|]. intros a r_a Ha.
  pose proof (sigma_extract _ _ _ _ _ _ _ _ _ _ E2 E2' Hc) as E. etrans; [exact E|].
  fold c c' b. generalize (extracted (pp_z_s p) (pp_z_s p') c c') as s. intros s.
  rewrite Ha. unfold commit. clearbody b. module_split; ring.
Qed.

(** C25: two accepted proofs with the same first move and different challenges
    give the opening away: a pair that opens the commitment; the blinding of a
    commitment to zero; one value behind both generators; for a product, the
    second factor, so that any opening of the first factor makes an opening of
    the product commitment to the product. *)
Theorem sigma_proofs_extract key (tr : @Transcript T) (tr' : @Transcript T') :
  (forall C p p', (verify_opening (T:=T) key tr C p).1 = true -> (verify_opening (T:=T') key tr' C p').1 = true ->
     op_t p = op_t p' ->
     let c := (opening_challenge (T:=T) C (op_t p) tr).1 in
     let c' := (opening_challenge (T:=T') C (op_t p') tr').1 in
     c <> c' -> C = commit key (extracted (op_z_value p) (op_z_value p') c c')
                      (extracted (op_z_blinding p) (op_z_blinding p') c c'))
  /\ (forall C p p', (verify_zero_opening (T:=T) key tr C p).1 = true ->
     (verify_zero_opening (T:=T') key tr' C p').1 = true -> op_t p = op_t p' ->
     let c := zero_challenge (T:=T) C (op_t p) tr in let c' := zero_challenge (T:=T') C (op_t p') tr' in
     c <> c' -> C = commit key s0 (extracted (op_z_blinding p) (op_z_blinding p') c c'))
  /\ (forall g1 g2 c1 c2 p p', (verify_same_value (T:=T) key tr g1 g2 c1 c2 p).1 = true ->
     (verify_same_value (T:=T') key tr' g1 g2 c1 c2 p').1 = true ->
     xg_t_first p = xg_t_first p' -> xg_t_second p = xg_t_second p' ->
     let c := cross_at (T:=T) g1 g2 c1 c2 p tr in let c' := cross_at (T:=T') g1 g2 c1 c2 p' tr' in
     c <> c' -> let v := extracted (xg_z_value p) (xg_z_value p') c c' in
     c1 = (g1 * v + h key * extracted (xg_z_first p) (xg_z_first p') c c')%P
     /\ c2 = (g2 * v + h key * extracted (xg_z_second p) (xg_z_second p') c c')%P)
  /\ (forall c_a c_b c_c p p', (verify_product (T:=T) key tr c_a c_b c_c p).1 = true ->
     (verify_product (T:=T') key tr' c_a c_b c_c p').1 = true ->
     pp_t_factor p = pp_t_factor p' -> pp_t_product p = pp_t_product p' ->
     let c := product_at (T:=T) c_a c_b c_c p tr in let c' := product_at (T:=T') c_a c_b c_c p' tr' in
     c <> c' -> let b := extracted (pp_z_b p) (pp_z_b p') c c' in
     c_b = commit key b (extracted (pp_z_rb p) (pp_z_rb p') c c')
     /\ forall a r_a, c_a = commit key a r_a ->
          c_c = commit key (a * b)%S (r_a * b + extracted (pp_z_s p) (pp_z_s p') c c')%S).
Proof.
  split_and!; intros.
  - by apply opening_extracted.
  - by apply zero_opening_extracted.
  - by apply same_value_extracted.
  - by apply product_extracted.
Qed.
End Forks.

(** [prove_bounded] succeeds exactly for a value inside its interval, and
    what it then makes is accepted for the commitment to that value. *)
Theorem bounded_complete `{T : TranscriptOps} {R} `{!ScalarRandom R} key value r low high context (rng : R) :
  (- 2 ^ 63 <= low < 2 ^ 63)%Z -> (- 2 ^ 63 <= high < 2 ^ 63)%Z ->
  is_ok (prove_bounded key value r low high context rng) = bool_decide (low <= value <= high)%Z
  /\ forall C proof bits rng', prove_bounded key value r low high context rng = Ok (C, proof, bits, rng') ->
       C = commit key (scalar_from_i64 value) r
       /\ verify_bounded key C proof low high context = true.
Proof.
  intros Hlo Hhi. destruct (decide (low <= value <= high)%Z) as [Hv|Hv].
  - destruct (prove_bounded_verifies key value r low high context rng) as (proof & bits & rng' & Hp & Hver);
      [done|lia|]. rewrite Hp. cbn [is_ok]. split; [by rewrite bool_decide_eq_true_2|].
    by intros ? ? ? ? [= <- <- <- <-].
  - destruct (interval_err value low high Hv) as [e He]. unfold prove_bounded. rewrite He. cbn.
    split; [by rewrite bool_decide_eq_false_2|done].
Qed.

(** C26: two accepted interval proofs with the same first moves and different
    challenges open the commitment to a value inside the interval, or give a
    relation between the two generators of the key. *)
Theorem bounded_pins_interval (T T' : TranscriptOps) `{!ScalarLarge} key C proof proof' low high context :
  verify_bounded (T:=T) key C proof low high context = true ->
  verify_bounded (T:=T') key C proof' low high context = true ->
  let above := shift_commitment key C low in
  let below := below_commitment key C high in
  let context_a := suffixed_context context (bstr "|above") in
  let context_b := suffixed_context context (bstr "|below") in
  forked T T' above context_a (bd_above proof) (bd_above proof') ->
  forked T T' below context_b (bd_below proof) (bd_below proof') ->
  let (v, r) := extract_range T T' above context_a (bd_above proof) (bd_above proof') in
  let (w, s) := extract_range T T' below context_b (bd_below proof) (bd_below proof') in
  let excess := (scalar_from_i64 high - scalar_from_i64 low - scalar_of_N (v + w))%S in
  C = commit key (scalar_from_i64 low + scalar_of_N v)%S r
  /\ (low <= low + Z.of_N v <= high \/ (excess <> s0 /\ g key * excess = h key * (r + s)%S)%P)%Z.
Proof.
  intros Hv Hv' above below ca cb Hfa Hfb. unfold verify_bounded in Hv, Hv'.
  destruct (Z.ltb_spec (high - low) 0) as [|Hspan]; [done|].
  destruct (u64_try_from (high - low)) as [span|] eqn:Hs; [|done].
  destruct (negb _) in Hv; [done|]. destruct (negb _) in Hv'; [done|].
  destruct (_ || _) eqn:Hbits in Hv; [done|]. apply orb_false_iff in Hbits as [Hba Hbb].
  apply negb_false_iff, Nat.eqb_eq in Hba. apply negb_false_iff, Nat.eqb_eq in Hbb.
  destruct (_ || _) in Hv'; [done|]. fold above below ca cb in Hv, Hv'.
  destruct (verify_range key above _ _) eqn:Ha in Hv; [|done].
  destruct (verify_range key above _ _) eqn:Ha' in Hv'; [|done]. cbn [negb] in Hv, Hv'.
  pose proof (extract_range_opens T T' key above ca _ _ Ha Ha' Hfa) as Hea.
  pose proof (extract_range_opens T T' key below cb _ _ Hv Hv' Hfb) as Heb.
  destruct (extract_range T T' above ca _ _) as [v r]. destruct (extract_range T T' below cb _ _) as [w s].
  destruct Hea as [Hvb HC]. destruct Heb as [Hwb HB].
  apply u64_try_from_some in Hs as [Hs ->].
  destruct (span_bits_spec (Z.to_N (high - low)) ltac:(lia)) as [_ Hb64].
  rewrite Hba in Hvb. rewrite Hbb in Hwb.
  assert (2 ^ N.of_nat (span_bits (Z.to_N (high - low))) <= 2 ^ 64)%N as Hpow by (apply N.pow_le_mono_r; lia).
  set (excess := (scalar_from_i64 high - scalar_from_i64 low - scalar_of_N (v + w))%S).
  assert (C = commit key (scalar_from_i64 low + scalar_of_N v)%S r) as HCv.
  { transitivity (above + g key * scalar_from_i64 low)%P; [unfold above, shift_commitment; module_split; ring|].
    rewrite HC. unfold commit. module_split; ring. }
  split; [exact HCv|]. destruct (decide (excess = s0)) as [He|He].
  - left. unfold excess in He. apply (proj1 (ssub_eq_0 _ _)) in He. rewrite scalar_from_i64_sub in He by lia.
    apply scalar_of_N_inj in He; lia.
  - right. split; [exact He|]. unfold below, below_commitment in HB. rewrite HCv in HB.
    assert (commit key (scalar_from_i64 high) s0
      = commit key (scalar_of_N w) s + commit key (scalar_from_i64 low + scalar_of_N v)%S r)%P as E.
    { rewrite <- HB. module_split; ring. }
    unfold commit, excess in *. rewrite scalar_of_N_add. transitivity (g key * scalar_from_i64 high + h key * s0
      - g key * (scalar_of_N w + scalar_from_i64 low + scalar_of_N v)%S)%P; [module_split; ring|].
    rewrite E. module_split; ring.
Qed.

(** A batched product or same-value check is as strong as the lone
    verifier: a valid proof is accepted under every weight, and a batch that
    accepts under two different weights other than zero accepts a proof whose
    two equations both hold. *)
Theorem batch_as_strong `{T : TranscriptOps} key tr c_a c_b c_c p g1 g2 c1 c2 q (w w' : Scalar) :
  let product w := let '(scalars, points, _) := product_terms key tr c_a c_b c_c p w in
    batch_verify (batch_push batch_new scalars points) in
  let same w := let '(scalars, points, _) := same_value_terms key tr g1 g2 c1 c2 q w in
    batch_verify (batch_push batch_new scalars points) in
  w <> s0 -> w' <> s0 -> w <> w' ->
  ((product w = Some true /\ product w' = Some true) <-> (verify_product key tr c_a c_b c_c p).1 = true)
  /\ ((same w = Some true /\ same w' = Some true) <-> (verify_same_value key tr g1 g2 c1 c2 q).1 = true).
Proof.
  intros product same Hw Hw' Hne.
  assert (forall A B t D z r A' B' t' D' z' r' c,
    let terms (w : Scalar) := batch_verify (batch_push batch_new
      [w * z; w * r; - w; - (w * c); w * w * z'; w * w * r'; - (w * w); - (w * w * c)]%S
      [A; B; t; D; A'; B'; t'; D']) in
    ((terms w = Some true /\ terms w' = Some true) <->
     sigma_equation A B z r t D c /\ sigma_equation A' B' z' r' t' D' c)) as Hpair.
  { intros A B t D z r A' B' t' D' z' r' c terms.
    assert (forall v, terms v = Some true <->
      (A * z + B * r - (t + D * c)) * v + (A' * z' + B' * r' - (t' + D' * c)) * (v * v) = pid)%P as Hterms.
    { intros v. unfold terms, batch_verify, batch_push, batch_new.
      cbn [app batch_points batch_scalars batch_is_empty length Nat.eqb].
      pose proof (msm_app _ _ _ _ _ _ (four_terms v z r c A B t D)
        (four_terms (v * v)%S z' r' c A' B' t' D')) as E. cbn [app] in E. rewrite E. cbn [mbind option_bind].
      clear E. split.
      - intros E'. apply (inj Some) in E'. apply bool_decide_eq_true in E'. exact E'.
      - intros E'. f_equal. apply bool_decide_eq_true_2. exact E'. }
    rewrite !Hterms. unfold sigma_equation. rewrite <- (psub_eq_id (A * z + B * r)%P), <- (psub_eq_id (A' * z' + B' * r')%P). split.
    - intros [E E']. by apply (weighted_pair _ _ w w').
    - intros [-> ->]. split; module_split; ring. }
  split.
  - rewrite verify_product_iff. unfold product, product_terms, product_at.
    destruct (product_challenge _ _ _ _ _ _) as [c tr']. apply Hpair.
  - rewrite verify_same_value_iff. unfold same, same_value_terms, cross_at.
    destruct (cross_challenge _ _ _ _ _ _ _) as [c tr']. apply Hpair.
Qed.

(** A member can always prove its membership and nobody else can even
    start; two accepted proofs with the same nullifier and first moves and
    different challenges give the secret of one registry point and the
    nullifier is that secret's, so a registry entry has one nullifier per
    scope. *)
Theorem membership_with_nullifier (T T' : TranscriptOps) {R} `{!ScalarRandom R} statement :
  (forall secret index (rng : R),
     is_ok (OrDleq.prove (T:=T) statement secret index rng)
     = bool_decide (OrDleq.points statement !! index = Some (basepoint * secret)%P)
     /\ forall p rng', OrDleq.prove (T:=T) statement secret index rng = Ok (p, rng') ->
          OrDleq.verify (T:=T) statement p = true
          /\ OrDleq.proof_nullifier p = OrDleq.nullifier (OrDleq.scope statement) secret)
  /\ (forall p p', OrDleq.verify (T:=T) statement p = true -> OrDleq.verify (T:=T') statement p' = true ->
     OrDleq.proof_nullifier p = OrDleq.proof_nullifier p' ->
     OrDleq.commits_g statement p = OrDleq.commits_g statement p' ->
     OrDleq.commits_h statement p = OrDleq.commits_h statement p' ->
     scalar_sum (OrDleq.challenges p) <> scalar_sum (OrDleq.challenges p') ->
     exists i x, extract_member (length (OrDleq.points statement)) p p' = Some (i, x)
       /\ OrDleq.points statement !! i = Some (basepoint * x)%P
       /\ OrDleq.proof_nullifier p = OrDleq.nullifier (OrDleq.scope statement) x
       /\ (basepoint <> pid -> forall y, OrDleq.points statement !! i = Some (basepoint * y)%P ->
             OrDleq.nullifier (OrDleq.scope statement) y = OrDleq.proof_nullifier p)).
Proof.
  split.
  - intros secret index rng. split; [apply prove_ok_iff|]. intros p rng'. apply prove_verifies.
  - intros p p' Hv Hv' Hn Hg Hh Hc.
    destruct (member_extracted T T' statement p p' Hv Hv' Hn Hg Hh Hc) as (i & x & He & HP & Hnull).
    exists i, x. split_and!; [done..|]. intros Hb y HP'. rewrite HP in HP'. injection HP' as E.
    rewrite Hnull. f_equal. symmetry. by apply basepoint_inj.
Qed.

(** The Groth-Kohlweiss prover succeeds exactly for a set of a power of
    two, at least two, and an index inside it, and when the commitment at the
    index is to zero its proof is accepted. *)
Theorem one_of_many_complete `{T : TranscriptOps} {R} `{!ScalarRandom R} key tr Cs index r (rng : R) :
  is_ok (OneOfMany.prove key tr Cs index r rng)
  = OneOfMany.is_power_of_two (length Cs) && (2 <=? length Cs)%nat && (index <? length Cs)%nat
  /\ forall proof tr' rng', OneOfMany.prove key tr Cs index r rng = Ok (proof, tr', rng') ->
       Cs !! index = Some (commit key s0 r) -> (OneOfMany.verify key tr Cs proof).1 = true.
Proof.
  split; [apply gk_prove_ok_iff|]. intros proof tr' rng' Hp HC. eapply gk_prove_verifies; [|exact Hp].
  rewrite HC. unfold commit. by rewrite pmul_0, padd_id_l.
Qed.

(** A pre-signature always verifies, and an adversary's that verifies can
    be finished by whoever holds the adaptor secret into an ordinary signature;
    any signature that completes it, however it was made, hands back a scalar
    that opens the adaptor point, which is the adaptor secret itself. *)
Theorem adaptor_exchange `{T : TranscriptOps} {R} `{!ScalarRandom R} key message y (pre : Adaptor.PreSignature) :
  let Y := Adaptor.public_key y in
  (forall x (rng : R), Adaptor.verify_pre_signature (Adaptor.public_key x) Y message
     (Adaptor.pre_sign x Y message rng).1 = true
     /\ Adaptor.verify (Adaptor.public_key x) message (Adaptor.sign x message rng).1 = true)
  /\ (Adaptor.verify_pre_signature key Y message pre = true ->
      Adaptor.verify key message (Adaptor.adapt pre (Adaptor.mkAdaptor y Y)) = true
      /\ forall signature, Adaptor.verify key message signature = true ->
           Adaptor.sig_r signature = (Adaptor.pre_r pre + Y)%P ->
           Adaptor.public_key (Adaptor.extract pre signature) = Y
           /\ (basepoint <> pid -> Adaptor.extract pre signature = y)).
Proof.
  intros Y. split.
  - intros x rng. split; [apply pre_sign_verifies | apply sign_verifies].
  - intros Hp. split; [apply (adapt_verifies key message pre (Adaptor.mkAdaptor y Y)); done|].
    intros signature Hv Hr. pose proof (extract_opens key Y message pre signature Hp Hv Hr) as E.
    split; [exact E|]. intros Hb. by apply basepoint_inj.
Qed.
End Theorems.
