(* ===== verification/Threshold.v ===== *)
(** * Threshold openings

    [zkpi-proofs/src/threshold_sigma.rs] up to the joint provers: party points,
    Lagrange coefficients at zero, verifiable sharings and their coefficient
    ladders, the combination and audit of partial answers, and the two-round
    protocol in which every node seals its first move, answers the challenge
    and an assembler interpolates an ordinary opening proof.

    Points are compared as the code compares them, by their encodings.  A map
    or slice that the code indexes by keys it has just checked reads a default
    outside them. *)

From stdpp Require Import pretty.
From S2P Require Import Prelude.
From S2P Require Import Interfaces.
From S2P Require Import Curve.
From S2P Require Import Shamir.
From S2P Require Import Sigma.

(** ** Maps keyed by party

    [BTreeMap<PartyId, V>]: collecting pairs (a later pair replaces an earlier
    one), iteration in ascending order, and when a collection kept every
    pair. *)

Open Scope N_scope.

(** [usize] *)
Abbreviation PartyId := N (only parsing).

Definition party_le {V} (a b : PartyId * V) : Prop := a.1 <= b.1.
#[export] Instance party_le_dec {V} : RelDecision (@party_le V).
Proof. intros a b. unfold party_le. apply _. Defined.
#[export] Instance party_le_total {V} : Total (@party_le V).
Proof. intros a b. unfold party_le. lia. Qed.

Definition party_iter {V} (m : gmap PartyId V) : list (PartyId * V) :=
  merge_sort party_le (map_to_list m).

(** [iter().collect::<BTreeMap<_, _>>()] *)
Definition collect {V} (l : list (PartyId * V)) : gmap PartyId V :=
  foldl (fun m kv => <[kv.1 := kv.2]> m) ∅ l.

(** [iter().map(f).collect::<Result<BTreeMap<_, _>, _>>()] *)
Definition collect_res {E A V} (f : A -> result E (PartyId * V)) (l : list A) :
    result E (gmap PartyId V) :=
  kvs ← map_res f l; Ok (collect kvs).

(** [iter().copied().collect::<BTreeSet<_>>().len() == parties.len()] *)
Definition all_distinct (parties : list PartyId) : bool :=
  bool_decide (size (list_to_set parties : gset PartyId) = length parties).

Lemma existsb_none {A} (f : A -> bool) l : (forall a, a ∈ l -> f a = false) -> existsb f l = false.
Proof.
  intros Hf. destruct (existsb f l) eqn:E; [|done]. apply existsb_exists in E as (a & Ha & Hfa).
  apply list_elem_of_In in Ha. by rewrite Hf in Hfa.
Qed.

Section Lemmas.
Context {V : Type}.
Implicit Types (m : gmap PartyId V) (l : list (PartyId * V)).

Lemma party_iter_perm m : party_iter m ≡ₚ map_to_list m.
Proof. apply merge_sort_Permutation. Qed.

Lemma party_iter_elem m k v : (k, v) ∈ party_iter m <-> m !! k = Some v.
Proof. rewrite party_iter_perm. apply elem_of_map_to_list. Qed.

Lemma party_iter_nodup m : NoDup (party_iter m).*1.
Proof. rewrite party_iter_perm. apply NoDup_fst_map_to_list. Qed.

Lemma party_iter_length m : length (party_iter m) = size m.
Proof. rewrite party_iter_perm. apply length_map_to_list. Qed.

Lemma all_distinct_spec parties : all_distinct parties = true <-> NoDup parties.
Proof.
  unfold all_distinct. rewrite bool_decide_eq_true. split.
  - intros E. induction parties as [|p ps IH]; [constructor|].
    cbn [list_to_set length] in E.
    assert (forall l : list PartyId, (size (list_to_set l : gset PartyId) <= length l)%nat) as Hle.
    { induction l as [|q qs IHl]; [done|]. cbn [list_to_set length].
      rewrite size_union_alt. rewrite size_singleton.
      assert (size ((list_to_set qs : gset PartyId) ∖ {[q]}) <= size (list_to_set qs : gset PartyId))%nat;
        [apply subseteq_size; set_solver | lia]. }
    destruct (decide (p ∈ (list_to_set ps : gset PartyId))) as [Hin|Hin].
    + assert (({[p]} ∪ list_to_set ps : gset PartyId) = list_to_set ps) as Eq by set_solver.
      rewrite Eq in E. specialize (Hle ps). lia.
    + rewrite size_union in E by set_solver. rewrite size_singleton in E.
      constructor; [set_solver | apply IH; lia].
  - intros Hnd. apply size_list_to_set, Hnd.
Qed.

Lemma collect_snoc l kv : collect (l ++ [kv]) = <[kv.1 := kv.2]> (collect l).
Proof. unfold collect. by rewrite foldl_app. Qed.

Lemma collect_fresh l k : k ∉ l.*1 -> collect l !! k = None.
Proof.
  induction l as [|kv l IH] using rev_ind; intros Hk; [apply lookup_empty|].
  rewrite collect_snoc, lookup_insert_ne by set_solver. apply IH. set_solver.
Qed.

(** Without repeated keys, collecting keeps every pair. *)
Lemma collect_lookup l k v : NoDup l.*1 -> collect l !! k = Some v <-> (k, v) ∈ l.
Proof.
  induction l as [|kv l IH] using rev_ind; intros Hnd.
  { rewrite elem_of_nil. split; [|done]. intros E. unfold collect in E. cbn in E. by rewrite lookup_empty in E. }
  rewrite collect_snoc. rewrite fmap_app in Hnd. apply NoDup_app in Hnd as (Hnd & Hdis & _).
  destruct kv as [k' v']. cbn [fst snd fmap list_fmap] in *.
  destruct (decide (k' = k)) as [->|Hne].
  - rewrite lookup_insert_eq. split.
    + intros [= ->]. set_solver.
    + intros [Hin|Hin]%elem_of_app; [|set_solver].
      exfalso. apply (Hdis k); [|set_solver]. apply list_elem_of_fmap. by exists (k, v).
  - rewrite lookup_insert_ne by done. rewrite IH by done. set_solver.
Qed.

Lemma collect_dom l k : is_Some (collect l !! k) <-> k ∈ l.*1.
Proof.
  induction l as [|kv l IH] using rev_ind.
  { unfold collect. cbn [foldl fmap list_fmap]. rewrite lookup_empty. split; [by intros [? ?] | intros []%elem_of_nil]. }
  rewrite collect_snoc, fmap_app, elem_of_app. destruct (decide (kv.1 = k)) as [<-|Hne].
  - rewrite lookup_insert_eq. split; [set_solver|]. eauto.
  - rewrite lookup_insert_ne, IH by done. set_solver.
Qed.

Lemma collect_perm l : NoDup l.*1 -> map_to_list (collect l) ≡ₚ l.
Proof.
  intros Hnd. apply NoDup_Permutation.
  - apply NoDup_map_to_list.
  - by apply (NoDup_fmap_1 fst).
  - intros [k v]. rewrite elem_of_map_to_list. by apply collect_lookup.
Qed.

Lemma collect_iter l : NoDup l.*1 -> party_iter (collect l) ≡ₚ l.
Proof. intros Hnd. rewrite party_iter_perm. by apply collect_perm. Qed.

(** The size tells whether a key was repeated. *)
Lemma collect_size_le l : (size (collect l) <= length l)%nat.
Proof.
  induction l as [|kv l IH] using rev_ind; [done|]. rewrite collect_snoc, length_app. cbn [length].
  destruct (collect l !! kv.1) eqn:E.
  - rewrite map_size_insert_Some by eauto. lia.
  - rewrite map_size_insert_None by done. lia.
Qed.

Lemma collect_size l : size (collect l) = length l <-> NoDup l.*1.
Proof.
  split.
  - induction l as [|kv l IH] using rev_ind; [constructor|]. rewrite collect_snoc, length_app. cbn [length].
    pose proof (collect_size_le l) as Hle. destruct (collect l !! kv.1) eqn:E.
    + rewrite map_size_insert_Some by eauto. lia.
    + rewrite map_size_insert_None by done. intros Hs. rewrite fmap_app. apply NoDup_app.
      split; [apply IH; lia|]. split; [|by apply NoDup_singleton].
      intros k Hk Hin. apply list_elem_of_singleton in Hin. cbn in Hin. subst k.
      apply collect_dom in Hk as [? ?]. congruence.
  - intros Hnd. rewrite <- length_map_to_list. by rewrite collect_perm.
Qed.
End Lemmas.

Open Scope nat_scope.

Abbreviation ScalarShares := (gmap N Scalar) (only parsing).

Section Threshold.
Context `{G : GroupOps} `{T : TranscriptOps}.

Inductive Relation := General | Zero.
#[global] Instance relation_dec : EqDecision Relation.
Proof. solve_decision. Defined.

Definition frame (relation : Relation) (transcript : Transcript) : Transcript :=
  match relation with
  | Zero => append_message (bstr "relation") (bstr "zero-opening:v2") transcript
  | General => transcript
  end.

Definition verify_relation (key : Pedersen) (transcript : Transcript) (commitment : Point)
    (proof : OpeningProof) (relation : Relation) : bool * Transcript :=
  match relation with
  | General => verify_opening key transcript commitment proof
  | Zero => verify_zero_opening key transcript commitment proof
  end.

(** [a.compress() == b.compress()] *)
Definition same_point (a b : Point) : bool := bool_decide (compress a = compress b).

Definition party_point (party : PartyId) : result string Scalar :=
  if (party =? 0)%N then Err "party identifiers start at one; zero is the Shamir secret"
  else if (U64_MAX <? party)%N then Err "party identifier does not fit u64"
  else Ok (scalar_of_N party).

Definition checked_parties (parties : list PartyId) : result string (list Scalar) :=
  match parties with
  | [] => Err "at least one party is required"
  | _ =>
      if negb (all_distinct parties) then Err "party identifiers must be distinct"
      else map_res party_point parties
  end.

Definition share_scalar {R} `{!ScalarRandom R} (secret : Scalar) (parties : list PartyId)
    (threshold : nat) (rng : R) : result string (ScalarShares * R) :=
  points ← checked_parties parties;
  let (shares, rng) := share secret threshold points rng in
  Ok (collect (zip parties shares), rng).

(** [shamir::reconstruct] of a unit vector. *)
Definition lagrange_coefficient (points : list Scalar) (index : nat) : Scalar :=
  default s0 (reconstruct points (<[index := s1]> (replicate (length points) s0))).

Definition lagrange_at_zero (parties : list PartyId) : result string (gmap PartyId Scalar) :=
  points ← checked_parties parties;
  Ok (collect ((fun '(index, party) => (party, lagrange_coefficient points index)) <$> enumerate parties)).

(** ** Verifiable sharings *)

Record ShareSet := mkShareSet {
  ss_commitment : Point;
  ss_value_shares : ScalarShares;
  ss_blinding_shares : ScalarShares;
  ss_threshold : nat;
  ss_coefficient_commitments : list Point
}.

Definition deal {R} `{!ScalarRandom R} (key : Pedersen) (value blinding : Scalar)
    (parties : list PartyId) (threshold : nat) (rng : R) : result string (ShareSet * R) :=
  if length parties <=? threshold then
    Err (show_nat (length parties) +:+ " parties cannot support threshold " +:+ show_nat threshold
         +:+ "; at least " +:+ show_nat (threshold + 1) +:+ " are required")
  else
    points ← checked_parties parties;
    let '(value_evaluations, value_coefficients, rng) :=
      share_with_coefficients value threshold points rng in
    let '(blinding_evaluations, blinding_coefficients, rng) :=
      share_with_coefficients blinding threshold points rng in
    Ok (mkShareSet (commit key value blinding)
          (collect (zip parties value_evaluations)) (collect (zip parties blinding_evaluations))
          threshold (zip_with (commit key) value_coefficients blinding_coefficients), rng).

Definition share_commitment (coefficient_commitments : list Point) (party : PartyId) :
    result string Point :=
  x ← party_point party;
  Ok (foldl (fun '(commitment, power) coefficient =>
        ((commitment + coefficient * power)%P, (power * x)%S)) (pid, s1) coefficient_commitments).1.

Definition verify_share (key : Pedersen) (shares : ShareSet) (party : PartyId) : bool :=
  match head (ss_coefficient_commitments shares) with
  | None => false
  | Some constant =>
      if negb (same_point constant (ss_commitment shares)) then false
      else
        match ss_value_shares shares !! party, ss_blinding_shares shares !! party,
              share_commitment (ss_coefficient_commitments shares) party with
        | Some value, Some blinding, Ok expected => same_point (commit key value blinding) expected
        | _, _, _ => false
        end
  end.

(** ** Combination and audit *)

Definition party_keys {V} (m : gmap PartyId V) : list PartyId := (party_iter m).*1.

Definition combine_commitments (partials : gmap PartyId Point) : result string Point :=
  coefficients ← lagrange_at_zero (party_keys partials);
  Ok (foldl (fun sum '(party, partial) => sum + partial * default s0 (coefficients !! party))%P
        pid (party_iter partials)).

Definition combine_responses (partials : gmap PartyId (Scalar * Scalar)) :
    result string (Scalar * Scalar) :=
  coefficients ← lagrange_at_zero (party_keys partials);
  Ok (foldl (fun '(value, blinding) '(party, (z_value, z_blinding)) =>
        let coefficient := default s0 (coefficients !! party) in
        (value + coefficient * z_value, blinding + coefficient * z_blinding)%S)
        (s0, s0) (party_iter partials)).

(** Whether a partial answer is missing or does not match the ladder. *)
Definition bad_partial (key : Pedersen) (coefficient_commitments : list Point)
    (partial_commitments : gmap PartyId Point) (partial_responses : gmap PartyId (Scalar * Scalar))
    (challenge : Scalar) (party : PartyId) : bool :=
  match partial_commitments !! party, partial_responses !! party,
        share_commitment coefficient_commitments party with
  | Some t, Some (z_value, z_blinding), Ok expected =>
      negb (same_point (commit key z_value z_blinding) (t + expected * challenge)%P)
  | _, _, _ => true
  end.

Definition audit_partials (key : Pedersen) (coefficient_commitments : list Point)
    (quorum : list PartyId) (partial_commitments : gmap PartyId Point)
    (partial_responses : gmap PartyId (Scalar * Scalar)) (challenge : Scalar) : list PartyId :=
  List.filter (bad_partial key coefficient_commitments partial_commitments partial_responses challenge)
    quorum.

(** ** Rounds *)

Record OpeningNodeContribution := mkOpeningNodeContribution {
  oc_party : PartyId;
  oc_value_share : Scalar;
  oc_blinding_share : Scalar
}.

Record OpeningRound1 := mkOpeningRound1 {
  o1_party : PartyId;
  o1_context_digest : bytes;
  o1_nonce_commitment : Point
}.

Record OpeningRound1Seal := mkOpeningRound1Seal {
  os_party : PartyId;
  os_digest : bytes
}.

Record OpeningRound1Secret := mkOpeningRound1Secret {
  ox_party : PartyId;
  ox_value_nonce : Scalar;
  ox_blinding_nonce : Scalar;
  ox_message_digest : bytes;
  ox_context_digest : bytes
}.

Record OpeningChallenge := mkOpeningChallenge {
  och_quorum : list PartyId;
  och_context_digest : bytes;
  och_nonce_commitment : Point;
  och_challenge : Scalar
}.

Record OpeningRound2 := mkOpeningRound2 {
  o2_party : PartyId;
  o2_value_answer : Scalar;
  o2_blinding_answer : Scalar
}.

Section Rounds.
Context `{Sha256}.

Definition opening_round1_digest (message : OpeningRound1) : bytes :=
  sha256 (bstr "QOMM:THRESHOLD-OPENING:ROUND1:v1" ++ be_bytes 8 (o1_party message)
    ++ o1_context_digest message ++ compress (o1_nonce_commitment message)).

Definition prepare_opening_round1_with {R} `{!ScalarRandom R} (key : Pedersen)
    (contribution : OpeningNodeContribution) (context : bytes) (relation : Relation) (rng : R) :
    OpeningRound1Seal * OpeningRound1Secret * OpeningRound1 * R :=
  let (value_nonce, rng) :=
    match relation with Zero => (s0, rng) | General => scalar_random rng end in
  let (blinding_nonce, rng) := scalar_random rng in
  let context_digest := sha256 context in
  let message := mkOpeningRound1 (oc_party contribution) context_digest
    (commit key value_nonce blinding_nonce) in
  let digest := opening_round1_digest message in
  (mkOpeningRound1Seal (oc_party contribution) digest,
   mkOpeningRound1Secret (oc_party contribution) value_nonce blinding_nonce digest context_digest,
   message, rng).

Definition prepare_opening_round1 {R} `{!ScalarRandom R} key contribution context (rng : R) :=
  prepare_opening_round1_with key contribution context General rng.

Definition prepare_zero_opening_round1 {R} `{!ScalarRandom R} key contribution context (rng : R) :=
  prepare_opening_round1_with key contribution context Zero rng.

(** The per-party check of a reveal against its seal. *)
Definition check_opening_reveal (expected_context : bytes) (by_party : gmap PartyId OpeningRound1)
    (seal_by_party : gmap PartyId OpeningRound1Seal) (party : PartyId) : result string unit :=
  match by_party !! party, seal_by_party !! party with
  | Some message, Some seal =>
      if negb (bool_decide (o1_context_digest message = expected_context))
         || negb (bool_decide (opening_round1_digest message = os_digest seal))
      then Err ("party " +:+ pretty party +:+ " supplied an invalid opening round-one reveal")
      else Ok tt
  | _, _ => Err "unreachable: the quorum was checked"
  end.

Definition checked_opening_round1 (messages : list OpeningRound1) (seals : list OpeningRound1Seal)
    (quorum : list PartyId) (context : bytes) : result string (gmap PartyId OpeningRound1) :=
  let by_party := collect ((fun m => (o1_party m, m)) <$> messages) in
  let seal_by_party := collect ((fun s => (os_party s, s)) <$> seals) in
  if negb (size by_party =? length quorum) || negb (size seal_by_party =? length quorum)
     || negb (all_distinct quorum)
     || existsb (fun party => bool_decide (by_party !! party = None)
                              || bool_decide (seal_by_party !! party = None)) quorum
  then Err "opening round-one messages and seals do not exactly match the quorum"
  else
    _ ← for_each (check_opening_reveal (sha256 context) by_party seal_by_party) quorum;
    Ok by_party.

Definition nonce_commitment_of (by_party : gmap PartyId OpeningRound1) (party : PartyId) : Point :=
  match by_party !! party with Some m => o1_nonce_commitment m | None => pid end.

Definition make_opening_challenge_with (commitment : Point) (messages : list OpeningRound1)
    (seals : list OpeningRound1Seal) (quorum : list PartyId) (context : bytes)
    (transcript : Transcript) (relation : Relation) : result string (OpeningChallenge * Transcript) :=
  by_party ← checked_opening_round1 messages seals quorum context;
  nonce_commitment ←
    combine_commitments (collect ((fun party => (party, nonce_commitment_of by_party party)) <$> quorum));
  let (challenge, transcript) :=
    opening_challenge commitment nonce_commitment (frame relation transcript) in
  Ok (mkOpeningChallenge quorum (sha256 context) nonce_commitment challenge, transcript).

Definition make_opening_challenge_with_transcript commitment messages seals quorum context transcript :=
  make_opening_challenge_with commitment messages seals quorum context transcript General.

Definition make_zero_opening_challenge_with_transcript commitment messages seals quorum context transcript :=
  make_opening_challenge_with commitment messages seals quorum context transcript Zero.

Definition answer_opening_challenge (contribution : OpeningNodeContribution)
    (secret : OpeningRound1Secret) (challenge : OpeningChallenge) : result string OpeningRound2 :=
  if negb (oc_party contribution =? ox_party secret)%N
     || negb (bool_decide (ox_party secret ∈ och_quorum challenge))
     || bool_decide (ox_message_digest secret = ZERO32)
     || negb (bool_decide (ox_context_digest secret = och_context_digest challenge))
  then Err "opening challenge does not match this node's sealed first round"
  else Ok (mkOpeningRound2 (ox_party secret)
    (ox_value_nonce secret + och_challenge challenge * oc_value_share contribution)%S
    (ox_blinding_nonce secret + och_challenge challenge * oc_blinding_share contribution)%S).

(** One party's answer against its first move and its share of the ladder. *)
Definition check_opening_answer (key : Pedersen) (coefficient_commitments : list Point)
    (first : gmap PartyId OpeningRound1) (answers : gmap PartyId OpeningRound2) (challenge : Scalar)
    (party : PartyId) : result string unit :=
  match answers !! party with
  | None => Err "unreachable: the quorum was checked"
  | Some answer =>
      evaluation ← share_commitment coefficient_commitments party;
      if negb (same_point (commit key (o2_value_answer answer) (o2_blinding_answer answer))
                 (nonce_commitment_of first party + evaluation * challenge)%P)
      then Err ("party " +:+ pretty party +:+ " supplied a bad opening answer")
      else Ok tt
  end.

(** The interpolated answers of a quorum. *)
Definition interpolated {A} (coefficients : gmap PartyId Scalar) (answers : gmap PartyId A)
    (part : A -> Scalar) (quorum : list PartyId) : Scalar :=
  foldl (fun z party =>
    z + default s0 (coefficients !! party) * match answers !! party with Some a => part a | None => s0 end)%S
    s0 quorum.

Definition assemble_opening_from_rounds_with (key : Pedersen) (commitment : Point)
    (coefficient_commitments : list Point) (messages : list OpeningRound1)
    (seals : list OpeningRound1Seal) (responses : list OpeningRound2) (quorum : list PartyId)
    (context : bytes) (transcript : Transcript) (relation : Relation) :
    result string (OpeningProof * Transcript) :=
  let verify_transcript := transcript in
  '(challenge, transcript) ←
    make_opening_challenge_with commitment messages seals quorum context transcript relation;
  let first := collect ((fun m => (o1_party m, m)) <$> messages) in
  let answers := collect ((fun a => (o2_party a, a)) <$> responses) in
  if negb (match head coefficient_commitments with Some c => same_point c commitment | None => false end)
     || negb (size answers =? length quorum)
     || existsb (fun party => bool_decide (answers !! party = None)) quorum
  then Err "opening statement or responses do not match the quorum"
  else
    _ ← for_each (check_opening_answer key coefficient_commitments first answers (och_challenge challenge)) quorum;
    coefficients ← lagrange_at_zero quorum;
    let proof := mkOpeningProof (och_nonce_commitment challenge)
      (interpolated coefficients answers o2_value_answer quorum)
      (interpolated coefficients answers o2_blinding_answer quorum) in
    if negb (verify_relation key verify_transcript commitment proof relation).1
    then Err "assembled threshold opening proof does not verify"
    else Ok (proof, transcript).

Definition assemble_opening_from_rounds_with_transcript key commitment ladder messages seals responses quorum context transcript :=
  assemble_opening_from_rounds_with key commitment ladder messages seals responses quorum context transcript General.

Definition assemble_zero_opening_from_rounds_with_transcript key commitment ladder messages seals responses quorum context transcript :=
  assemble_opening_from_rounds_with key commitment ladder messages seals responses quorum context transcript Zero.
End Rounds.
End Threshold.
