(* ===== verification/Gadgets.v ===== *)
(** * Shared wires, joint nonces and joint product proofs

    [zkpi-proofs/src/threshold_gadgets.rs]: committed scalars carried as shares
    and their linear operations, coefficient ladders interpolated in the
    exponent, party-local wires bound to public statements, the dealing of
    joint nonces, the two-round product protocol and the joint product
    prover.  Conventions are those of [Threshold]. *)

From S2P Require Import Prelude.
From S2P Require Import Interfaces.
From S2P Require Import Curve.
From S2P Require Import Shamir.
From S2P Require Import Sigma.
From S2P Require Import Threshold.
From stdpp Require Import pretty.

Open Scope nat_scope.

Abbreviation DealerCoefficientCommitments := (gmap N (list (list Point))) (only parsing).

Section Gadgets.
Context `{G : GroupOps} `{T : TranscriptOps}.

(** ** Wires *)

Record NodeShared := mkNodeShared {
  ns_party : PartyId;
  ns_commitment : Point;
  ns_value_share : Scalar;
  ns_blinding_share : Scalar;
  ns_coefficient_commitments : list Point
}.

Record Shared := mkShared {
  sh_commitment : Point;
  sh_value : ScalarShares;
  sh_blinding : ScalarShares;
  sh_coefficient_commitments : list Point
}.

Definition shared_parties (s : Shared) : list PartyId := party_keys (sh_value s).

Definition node_share (s : Shared) (party : PartyId) : option NodeShared :=
  value ← sh_value s !! party;
  blinding ← sh_blinding s !! party;
  Some (mkNodeShared party (sh_commitment s) value blinding (sh_coefficient_commitments s)).

Record LocalShared := mkLocalShared {
  ls_party : PartyId;
  ls_value_share : Scalar;
  ls_blinding_share : Scalar;
  ls_threshold : nat
}.

Record WireEvaluation := mkWireEvaluation { we_party : PartyId; we_point : Point }.

Record WireStatement := mkWireStatement {
  ws_commitment : Point;
  ws_coefficient_commitments : list Point;
  ws_threshold : nat
}.

Definition local_new (party : PartyId) (value_share blinding_share : Scalar) (threshold : nat) :
    result string LocalShared :=
  if (party =? 0)%N then Err "party identifiers are one-based"
  else Ok (mkLocalShared party value_share blinding_share threshold).

Definition evaluation (key : Pedersen) (l : LocalShared) : WireEvaluation :=
  mkWireEvaluation (ls_party l) (commit key (ls_value_share l) (ls_blinding_share l)).

Definition bind_wire (key : Pedersen) (l : LocalShared) (statement : WireStatement) :
    result string NodeShared :=
  if negb (ls_threshold l =? ws_threshold statement) then
    Err "local wire and public statement use different thresholds"
  else
    expected ← share_commitment (ws_coefficient_commitments statement) (ls_party l);
    if negb (same_point (we_point (evaluation key l)) expected) then
      Err "local wire share does not match its public VSS statement"
    else Ok (mkNodeShared (ls_party l) (ws_commitment statement) (ls_value_share l)
      (ls_blinding_share l) (ws_coefficient_commitments statement)).

(** [if let Some(c) = ladder.first_mut() { *c += key.g * constant }] *)
Definition shift_ladder (key : Pedersen) (constant : Scalar) (ladder : list Point) : list Point :=
  match ladder with c :: rest => (c + g key * constant)%P :: rest | [] => [] end.

Definition node_shifted (key : Pedersen) (constant : Scalar) (n : NodeShared) : NodeShared :=
  mkNodeShared (ns_party n) (ns_commitment n + g key * constant)%P
    (ns_value_share n + constant)%S (ns_blinding_share n)
    (shift_ladder key constant (ns_coefficient_commitments n)).

Definition node_scaled (constant : Scalar) (n : NodeShared) : NodeShared :=
  mkNodeShared (ns_party n) (ns_commitment n * constant)%P
    (ns_value_share n * constant)%S (ns_blinding_share n * constant)%S
    ((fun point => point * constant)%P <$> ns_coefficient_commitments n).

(** ** Linear operations *)

Definition same_shape (a b : Shared) : result string unit :=
  if negb (bool_decide (party_keys (sh_value a) = party_keys (sh_value b)))
     || negb (bool_decide (party_keys (sh_blinding a) = party_keys (sh_blinding b)))
  then Err "shared wires have different party sets"
  else if negb (length (sh_coefficient_commitments a) =? length (sh_coefficient_commitments b))
  then Err "shared wires have different VSS ladder lengths"
  else Ok tt.

Definition zip_shares (f : Scalar -> Scalar -> Scalar) (a b : ScalarShares) : ScalarShares :=
  map_imap (fun party value => Some (f value (default s0 (b !! party)))) a.

Definition shared_add (a b : Shared) : result string Shared :=
  _ ← same_shape a b;
  Ok (mkShared (sh_commitment a + sh_commitment b)%P
    (zip_shares sadd (sh_value a) (sh_value b)) (zip_shares sadd (sh_blinding a) (sh_blinding b))
    (zip_with padd (sh_coefficient_commitments a) (sh_coefficient_commitments b))).

Definition shared_sub (a b : Shared) : result string Shared :=
  _ ← same_shape a b;
  Ok (mkShared (sh_commitment a - sh_commitment b)%P
    (zip_shares ssub (sh_value a) (sh_value b)) (zip_shares ssub (sh_blinding a) (sh_blinding b))
    (zip_with (fun a b => a - b)%P (sh_coefficient_commitments a) (sh_coefficient_commitments b))).

Definition shared_scale (a : Shared) (factor : Scalar) : Shared :=
  mkShared (sh_commitment a * factor)%P
    ((fun value => value * factor)%S <$> sh_value a) ((fun value => value * factor)%S <$> sh_blinding a)
    ((fun point => point * factor)%P <$> sh_coefficient_commitments a).

Definition shared_shift (key : Pedersen) (a : Shared) (constant : Scalar) : Shared :=
  mkShared (sh_commitment a + g key * constant)%P
    ((fun value => value + constant)%S <$> sh_value a) (sh_blinding a)
    (shift_ladder key constant (sh_coefficient_commitments a)).

Definition shared_negate (a : Shared) : Shared := shared_scale a (- s1)%S.

Definition commitment_from_shares (key : Pedersen) (value blinding : ScalarShares)
    (quorum : list PartyId) : result string Point :=
  partials ← collect_res (fun party =>
    v ← ok_or (value !! party) ("missing value share for party " +:+ pretty party);
    r ← ok_or (blinding !! party) ("missing blinding share for party " +:+ pretty party);
    Ok (party, commit key v r)) quorum;
  combine_commitments partials.

(** ** Ladders in the exponent *)

(** One Lagrange term added to the ladder. *)
Definition add_ladder_term (selected_points : list Scalar) (evaluations : gmap PartyId Point)
    (ladder : list Point) (entry : nat * PartyId) : list Point :=
  let (index, party) := entry in
  let x := nth index selected_points s0 in
  let (basis, denominator) := interpolate_basis selected_points index x in
  let scale := sinv denominator in
  foldl (fun ladder '(degree, coefficient) =>
    <[degree := (nth degree ladder pid + default pid (evaluations !! party) * (coefficient * scale)%S)%P]> ladder)
    ladder (enumerate basis).

Definition check_evaluation (ladder : list Point) (threshold : nat) (entry : PartyId * Point) :
    result string unit :=
  expected ← share_commitment ladder entry.1;
  if negb (same_point expected entry.2) then
    Err ("public evaluation for party " +:+ pretty entry.1 +:+ " is inconsistent with a degree-"
      +:+ show_nat threshold +:+ " coefficient ladder")
  else Ok tt.

Definition coefficient_commitments_from_evaluations (evaluations : gmap PartyId Point)
    (threshold : nat) : result string (list Point) :=
  if size evaluations <? threshold + 1 then
    Err (show_nat (size evaluations) +:+ " public evaluations cannot define degree " +:+ show_nat threshold)
  else
    let selected_parties := take (threshold + 1) (party_keys evaluations) in
    selected_points ← checked_parties selected_parties;
    let ladder := foldl (add_ladder_term selected_points evaluations) (replicate (threshold + 1) pid)
      (enumerate selected_parties) in
    _ ← for_each (check_evaluation ladder threshold) (party_iter evaluations);
    Ok ladder.

Definition wire_statement_from_evaluations (evaluations : list WireEvaluation) (threshold : nat) :
    result string WireStatement :=
  let points := collect ((fun e => (we_party e, we_point e)) <$> evaluations) in
  if negb (size points =? length evaluations) then
    Err "a party supplied more than one wire evaluation"
  else
    coefficient_commitments ← coefficient_commitments_from_evaluations points threshold;
    Ok (mkWireStatement (default pid (head coefficient_commitments)) coefficient_commitments threshold).

(** ** Product contributions *)

Record ProductNodeContribution := mkProductNodeContribution {
  pc_factor : NodeShared;
  pc_cross_share : Scalar
}.

Definition pc_party (c : ProductNodeContribution) : PartyId := ns_party (pc_factor c).

Record ProductEvaluations := mkProductEvaluations {
  pe_party : PartyId;
  pe_factor : Point;
  pe_relation : Point
}.

Definition pc_evaluations (key : Pedersen) (multiplicand : Point) (c : ProductNodeContribution) :
    ProductEvaluations :=
  mkProductEvaluations (pc_party c)
    (commit key (ns_value_share (pc_factor c)) (ns_blinding_share (pc_factor c)))
    (multiplicand * ns_value_share (pc_factor c) + h key * pc_cross_share c)%P.

Record LocalProductShares := mkLocalProductShares {
  lp_party : PartyId;
  lp_factor_share : Scalar;
  lp_factor_blinding_share : Scalar;
  lp_cross_share : Scalar;
  lp_threshold : nat
}.

Definition local_product_new (party : PartyId) (factor_share factor_blinding_share cross_share : Scalar)
    (threshold : nat) : result string LocalProductShares :=
  if (party =? 0)%N then Err "party identifiers are one-based"
  else Ok (mkLocalProductShares party factor_share factor_blinding_share cross_share threshold).

Definition lp_evaluations (key : Pedersen) (multiplicand : Point) (l : LocalProductShares) :
    ProductEvaluations :=
  mkProductEvaluations (lp_party l) (commit key (lp_factor_share l) (lp_factor_blinding_share l))
    (multiplicand * lp_factor_share l + h key * lp_cross_share l)%P.

Record ProductStatement := mkProductStatement {
  ps_multiplicand : Point;
  ps_factor_commitment : Point;
  ps_product_commitment : Point;
  ps_factor_coefficients : list Point;
  ps_relation_coefficients : list Point;
  ps_threshold : nat
}.

Definition bind_product (key : Pedersen) (l : LocalProductShares) (statement : ProductStatement) :
    result string ProductNodeContribution :=
  if negb (lp_threshold l =? ps_threshold statement) then
    Err "the local product handoff and statement use different thresholds"
  else
    factor ← share_commitment (ps_factor_coefficients statement) (lp_party l);
    if negb (same_point (commit key (lp_factor_share l) (lp_factor_blinding_share l)) factor) then
      Err "the local factor share does not match the public VSS statement"
    else
      relation ← share_commitment (ps_relation_coefficients statement) (lp_party l);
      if negb (same_point (ps_multiplicand statement * lp_factor_share l + h key * lp_cross_share l)%P relation)
      then Err "the local product relation does not match the public VSS statement"
      else Ok (mkProductNodeContribution
        (mkNodeShared (lp_party l) (ps_factor_commitment statement) (lp_factor_share l)
           (lp_factor_blinding_share l) (ps_factor_coefficients statement)) (lp_cross_share l)).

Definition product_statement_from_evaluations (multiplicand factor_commitment product_commitment : Point)
    (evaluations : list ProductEvaluations) (threshold : nat) : result string ProductStatement :=
  if length evaluations <? threshold + 1 then
    Err (show_nat (length evaluations) +:+ " product evaluations cannot support threshold "
      +:+ show_nat threshold)
  else if negb (all_distinct (pe_party <$> evaluations)) || bool_decide (0%N ∈ pe_party <$> evaluations)
  then Err "a product evaluation has a duplicate or zero party"
  else
    factor_coefficients ← coefficient_commitments_from_evaluations
      (collect ((fun e => (pe_party e, pe_factor e)) <$> evaluations)) threshold;
    relation_coefficients ← coefficient_commitments_from_evaluations
      (collect ((fun e => (pe_party e, pe_relation e)) <$> evaluations)) threshold;
    if negb (same_point (default pid (head factor_coefficients)) factor_commitment) then
      Err "product factor VSS constant does not match the committed price"
    else if negb (same_point (default pid (head relation_coefficients)) product_commitment) then
      Err "product relation VSS constant does not match the committed cash amount"
    else Ok (mkProductStatement multiplicand factor_commitment product_commitment
      factor_coefficients relation_coefficients threshold).
End Gadgets.
