(* ===== verification/JointProver.v ===== *)
(** * Joint nonces and joint provers

    The rest of [zkpi-proofs/src/threshold_gadgets.rs] (the two-round product
    protocol, the dealing of joint nonces, the joint product prover and its
    audit) and the joint opening provers of
    [zkpi-proofs/src/threshold_sigma.rs]. *)

From S2P Require Import Prelude.
From S2P Require Import Interfaces.
From S2P Require Import Curve.
From S2P Require Import Shamir.
From S2P Require Import Sigma.
From S2P Require Import Threshold.
From S2P Require Import Gadgets.
From stdpp Require Import pretty.

Open Scope nat_scope.

Section ProductRounds.
Context `{G : GroupOps} `{T : TranscriptOps} `{Sha256}.

Record ProductRound1 := mkProductRound1 {
  p1_party : PartyId;
  p1_context_digest : bytes;
  p1_factor : Point;
  p1_product : Point
}.

Record ProductRound1Seal := mkProductRound1Seal { pse_party : PartyId; pse_digest : bytes }.

Record ProductRound1Secret := mkProductRound1Secret {
  px_party : PartyId;
  px_factor_nonce : Scalar;
  px_factor_blinding_nonce : Scalar;
  px_relation_nonce : Scalar;
  px_message_digest : bytes;
  px_context_digest : bytes
}.

Record ProductChallenge := mkProductChallenge {
  pch_quorum : list PartyId;
  pch_context_digest : bytes;
  pch_factor : Point;
  pch_product : Point;
  pch_challenge : Scalar
}.

Record ProductRound2 := mkProductRound2 {
  p2_party : PartyId;
  p2_factor_answer : Scalar;
  p2_factor_blinding_answer : Scalar;
  p2_relation_answer : Scalar
}.

Definition product_round1_digest (message : ProductRound1) : bytes :=
  sha256 (bstr "QOMM:THRESHOLD-PRODUCT:ROUND1:v1" ++ be_bytes 8 (p1_party message)
    ++ p1_context_digest message ++ compress (p1_factor message) ++ compress (p1_product message)).

Definition prepare_product_round1 {R} `{!ScalarRandom R} (key : Pedersen)
    (contribution : ProductNodeContribution) (multiplicand : Point) (context : bytes) (rng : R) :
    ProductRound1Seal * ProductRound1Secret * ProductRound1 * R :=
  let (factor_nonce, rng) := scalar_random rng in
  let (factor_blinding_nonce, rng) := scalar_random rng in
  let (relation_nonce, rng) := scalar_random rng in
  let context_digest := sha256 context in
  let message := mkProductRound1 (pc_party contribution) context_digest
    (commit key factor_nonce factor_blinding_nonce)
    (multiplicand * factor_nonce + h key * relation_nonce)%P in
  let digest := product_round1_digest message in
  (mkProductRound1Seal (pc_party contribution) digest,
   mkProductRound1Secret (pc_party contribution) factor_nonce factor_blinding_nonce relation_nonce
     digest context_digest,
   message, rng).

Definition check_product_reveal (expected_context : bytes) (by_party : gmap PartyId ProductRound1)
    (seal_by_party : gmap PartyId ProductRound1Seal) (party : PartyId) : result string unit :=
  match by_party !! party, seal_by_party !! party with
  | Some message, Some seal =>
      if negb (bool_decide (p1_context_digest message = expected_context))
         || negb (bool_decide (product_round1_digest message = pse_digest seal))
      then Err ("party " +:+ pretty party +:+ " supplied an invalid product round-one reveal")
      else Ok tt
  | _, _ => Err "unreachable: the quorum was checked"
  end.

Definition checked_product_round1 (messages : list ProductRound1) (seals : list ProductRound1Seal)
    (quorum : list PartyId) (context : bytes) : result string (gmap PartyId ProductRound1) :=
  let by_party := collect ((fun m => (p1_party m, m)) <$> messages) in
  let seal_by_party := collect ((fun s => (pse_party s, s)) <$> seals) in
  if negb (size by_party =? length quorum) || negb (size seal_by_party =? length quorum)
     || negb (all_distinct quorum)
     || existsb (fun party => bool_decide (by_party !! party = None)
                              || bool_decide (seal_by_party !! party = None)) quorum
  then Err "product round-one messages and seals do not exactly match the quorum"
  else
    _ ← for_each (check_product_reveal (sha256 context) by_party seal_by_party) quorum;
    Ok by_party.

(** A part of a party's first move. *)
Definition first_part (part : ProductRound1 -> Point) (by_party : gmap PartyId ProductRound1)
    (party : PartyId) : Point :=
  match by_party !! party with Some m => part m | None => pid end.

Definition make_product_challenge_with_transcript (statement : ProductStatement)
    (messages : list ProductRound1) (seals : list ProductRound1Seal) (quorum : list PartyId)
    (context : bytes) (transcript : Transcript) : result string (ProductChallenge * Transcript) :=
  by_party ← checked_product_round1 messages seals quorum context;
  factor ← combine_commitments (collect ((fun party => (party, first_part p1_factor by_party party)) <$> quorum));
  product ← combine_commitments (collect ((fun party => (party, first_part p1_product by_party party)) <$> quorum));
  let (challenge, transcript) := product_challenge (ps_multiplicand statement)
    (ps_factor_commitment statement) (ps_product_commitment statement) factor product transcript in
  Ok (mkProductChallenge quorum (sha256 context) factor product challenge, transcript).

Definition make_product_challenge (statement : ProductStatement) (messages : list ProductRound1)
    (seals : list ProductRound1Seal) (quorum : list PartyId) (context : bytes) :
    result string ProductChallenge :=
  '(challenge, _) ← make_product_challenge_with_transcript statement messages seals quorum context
    (transcript_new context);
  Ok challenge.

Definition answer_product_challenge (contribution : ProductNodeContribution)
    (secret : ProductRound1Secret) (challenge : ProductChallenge) : result string ProductRound2 :=
  if negb (pc_party contribution =? px_party secret)%N
     || negb (bool_decide (px_party secret ∈ pch_quorum challenge))
     || bool_decide (px_message_digest secret = ZERO32)
     || negb (bool_decide (px_context_digest secret = pch_context_digest challenge))
  then Err "product challenge does not match this node's sealed first round"
  else Ok (mkProductRound2 (px_party secret)
    (px_factor_nonce secret + pch_challenge challenge * ns_value_share (pc_factor contribution))%S
    (px_factor_blinding_nonce secret + pch_challenge challenge * ns_blinding_share (pc_factor contribution))%S
    (px_relation_nonce secret + pch_challenge challenge * pc_cross_share contribution)%S).

Definition check_product_answer (key : Pedersen) (statement : ProductStatement)
    (first : gmap PartyId ProductRound1) (answers : gmap PartyId ProductRound2) (challenge : Scalar)
    (party : PartyId) : result string unit :=
  match answers !! party with
  | None => Err "unreachable: the quorum was checked"
  | Some answer =>
      factor_evaluation ← share_commitment (ps_factor_coefficients statement) party;
      if negb (same_point (commit key (p2_factor_answer answer) (p2_factor_blinding_answer answer))
                 (first_part p1_factor first party + factor_evaluation * challenge)%P)
      then Err ("party " +:+ pretty party +:+ " supplied a bad product factor answer")
      else
        relation_evaluation ← share_commitment (ps_relation_coefficients statement) party;
        if negb (same_point
             (ps_multiplicand statement * p2_factor_answer answer + h key * p2_relation_answer answer)%P
             (first_part p1_product first party + relation_evaluation * challenge)%P)
        then Err ("party " +:+ pretty party +:+ " supplied a bad product relation answer")
        else Ok tt
  end.

Definition assemble_product_from_rounds_with_transcript (key : Pedersen) (statement : ProductStatement)
    (messages : list ProductRound1) (seals : list ProductRound1Seal) (responses : list ProductRound2)
    (quorum : list PartyId) (context : bytes) (transcript : Transcript) :
    result string (ProductProof * Transcript) :=
  let verify_transcript := transcript in
  '(challenge, transcript) ←
    make_product_challenge_with_transcript statement messages seals quorum context transcript;
  let first := collect ((fun m => (p1_party m, m)) <$> messages) in
  let answers := collect ((fun a => (p2_party a, a)) <$> responses) in
  if negb (size answers =? length quorum)
     || existsb (fun party => bool_decide (answers !! party = None)) quorum
  then Err "product responses do not exactly match the quorum"
  else
    _ ← for_each (check_product_answer key statement first answers (pch_challenge challenge)) quorum;
    coefficients ← lagrange_at_zero quorum;
    let proof := mkProductProof (pch_factor challenge) (pch_product challenge)
      (interpolated coefficients answers p2_factor_answer quorum)
      (interpolated coefficients answers p2_factor_blinding_answer quorum)
      (interpolated coefficients answers p2_relation_answer quorum) in
    if negb (verify_product key verify_transcript (ps_multiplicand statement)
         (ps_factor_commitment statement) (ps_product_commitment statement) proof).1
    then Err "assembled threshold product proof does not verify"
    else Ok (proof, transcript).

Definition assemble_product_from_rounds (key : Pedersen) (statement : ProductStatement)
    (messages : list ProductRound1) (seals : list ProductRound1Seal) (responses : list ProductRound2)
    (quorum : list PartyId) (context : bytes) : result string ProductProof :=
  '(proof, _) ← assemble_product_from_rounds_with_transcript key statement messages seals responses
    quorum context (transcript_new context);
  Ok proof.
End ProductRounds.

(** ** Joint nonces *)

Section Dealing.
Context `{G : GroupOps}.

Record PrivateContribution := mkPrivateContribution {
  pv_dealer : PartyId;
  pv_recipient : PartyId;
  pv_slots : list (Scalar * Scalar)
}.

Record CommittedContributions := mkCommittedContributions {
  cc_key : Pedersen;
  cc_dealer : PartyId;
  cc_parties : list PartyId;
  cc_threshold : nat;
  cc_count : nat;
  cc_deliveries : gmap PartyId (list (Scalar * Scalar));
  cc_sealed : list (list Point)
}.

(** One slot: the recipients' pairs and the ladder. *)
Definition deal_slot {R} `{!ScalarRandom R} (key : Pedersen) (points : list Scalar) (threshold : nat)
    (rng : R) : list (Scalar * Scalar) * list Point * R :=
  let (constant, rng) := scalar_random rng in
  let (blinding_constant, rng) := scalar_random rng in
  let '(evaluations, value_coefficients, rng) := share_with_coefficients constant threshold points rng in
  let '(blinding_evaluations, blinding_coefficients, rng) :=
    share_with_coefficients blinding_constant threshold points rng in
  (zip evaluations blinding_evaluations,
   zip_with (commit key) value_coefficients blinding_coefficients, rng).

(** The loop over the slots; every recipient's vector grows by one pair. *)
Fixpoint deal_slots {R} `{!ScalarRandom R} (key : Pedersen) (points : list Scalar) (threshold : nat)
    (count : nat) (rng : R) : list (list (Scalar * Scalar)) * list (list Point) * R :=
  match count with
  | O => ([], [], rng)
  | S count =>
      let '(pairs, ladder, rng) := deal_slot key points threshold rng in
      let '(slots, sealed, rng) := deal_slots key points threshold count rng in
      (pairs :: slots, ladder :: sealed, rng)
  end.

Definition contributions_new {R} `{!ScalarRandom R} (key : Pedersen) (dealer : PartyId)
    (parties : list PartyId) (threshold count : nat) (rng : R) :
    result string (CommittedContributions * R) :=
  if negb (bool_decide (dealer ∈ parties)) then
    Err ("dealer " +:+ pretty dealer +:+ " is outside the party set")
  else
    points ← checked_parties parties;
    let '(slots, sealed, rng) := deal_slots key points threshold count rng in
    let deliveries := collect ((fun '(index, recipient) =>
      (recipient, (fun pairs => nth index pairs (s0, s0)) <$> slots)) <$> enumerate parties) in
    Ok (mkCommittedContributions key dealer parties threshold count deliveries sealed, rng).

Definition delivery_for (c : CommittedContributions) (recipient : PartyId) : option PrivateContribution :=
  slots ← cc_deliveries c !! recipient;
  Some (mkPrivateContribution (cc_dealer c) recipient slots).

(** One pair against its ladder. *)
Definition pair_matches (key : Pedersen) (party : PartyId) (entry : (Scalar * Scalar) * list Point) : bool :=
  match share_commitment entry.2 party with
  | Err _ => false
  | Ok expected => same_point (commit key entry.1.1 entry.1.2) expected
  end.

Definition check_delivery (c : CommittedContributions) (delivery : PrivateContribution) : bool :=
  if negb (pv_dealer delivery =? cc_dealer c)%N
     || negb (length (pv_slots delivery) =? cc_count c)
     || negb (bool_decide (pv_recipient delivery ∈ cc_parties c))
     || negb (length (cc_sealed c) =? cc_count c)
     || existsb (fun ladder => negb (length ladder =? cc_threshold c + 1)) (cc_sealed c)
  then false
  else forallb (pair_matches (cc_key c) (pv_recipient delivery)) (zip (pv_slots delivery) (cc_sealed c)).

Record NodeContributions := mkNodeContributions {
  nc_party : PartyId;
  nc_shares : list Scalar;
  nc_blinding_shares : list Scalar
}.

(** The loop over a delivery's slots, adding to the recipient's sums. *)
Definition receive_slots (key : Pedersen) (party dealer : PartyId)
    (sums : list Scalar * list Scalar) (entries : list (nat * ((Scalar * Scalar) * list Point))) :
    result string (list Scalar * list Scalar) :=
  fold_res (fun sums '(slot, ((value, blinding), ladder)) =>
    expected ← share_commitment ladder party;
    if negb (same_point (commit key value blinding) expected) then
      Err ("dealer " +:+ pretty dealer +:+ " sent an inconsistent share to party " +:+ pretty party
        +:+ " in slot " +:+ show_nat slot)
    else Ok (<[slot := (nth slot sums.1 s0 + value)%S]> sums.1,
             <[slot := (nth slot sums.2 s0 + blinding)%S]> sums.2)) sums entries.

Definition receive_delivery (key : Pedersen) (party : PartyId) (threshold count : nat)
    (seals : DealerCoefficientCommitments) (state : gset PartyId * (list Scalar * list Scalar))
    (delivery : PrivateContribution) : result string (gset PartyId * (list Scalar * list Scalar)) :=
  let (seen, sums) := state in
  if negb (pv_recipient delivery =? party)%N then
    Err ("dealer " +:+ pretty (pv_dealer delivery) +:+ " addressed its contribution to party "
      +:+ pretty (pv_recipient delivery) +:+ ", not party " +:+ pretty party)
  else if bool_decide (pv_dealer delivery ∈ seen) then
    Err ("dealer " +:+ pretty (pv_dealer delivery) +:+ " contributed twice")
  else
    ladders ← ok_or (seals !! pv_dealer delivery)
      ("dealer " +:+ pretty (pv_dealer delivery) +:+ " supplied no prior seal");
    if negb (length (pv_slots delivery) =? count) || negb (length ladders =? count)
       || existsb (fun ladder => negb (length ladder =? threshold + 1)) ladders
    then Err ("dealer " +:+ pretty (pv_dealer delivery) +:+ " supplied a malformed contribution")
    else
      sums ← receive_slots key party (pv_dealer delivery) sums (enumerate (zip (pv_slots delivery) ladders));
      Ok ({[pv_dealer delivery]} ∪ seen, sums).

Definition receive (key : Pedersen) (party : PartyId) (threshold : nat)
    (seals : DealerCoefficientCommitments) (deliveries : list PrivateContribution) :
    result string NodeContributions :=
  match deliveries with
  | [] => Err ("party " +:+ pretty party +:+ " received no dealer contributions")
  | first :: _ =>
      let count := length (pv_slots first) in
      if count =? 0 then Err "a contribution must contain at least one slot"
      else
        '(seen, (shares, blinding_shares)) ← fold_res (receive_delivery key party threshold count seals)
          (∅, (replicate count s0, replicate count s0)) deliveries;
        if negb (size seen =? size seals) then
          Err ("party " +:+ pretty party +:+ " received " +:+ show_nat (size seen) +:+ " of "
            +:+ show_nat (size seals) +:+ " sealed dealer contributions")
        else Ok (mkNodeContributions party shares blinding_shares)
  end.

Definition nc_count (n : NodeContributions) : nat := length (nc_shares n).
Definition nc_share (n : NodeContributions) (slot : nat) : option Scalar := nc_shares n !! slot.
Definition nc_blinding_share (n : NodeContributions) (slot : nat) : option Scalar :=
  nc_blinding_shares n !! slot.

(** The dealers in turn, threading the generator. *)
Fixpoint deal_all {R} `{!ScalarRandom R} (key : Pedersen) (parties : list PartyId) (threshold count : nat)
    (dealers : list PartyId) (rng : R) : result string (list CommittedContributions * R) :=
  match dealers with
  | [] => Ok ([], rng)
  | dealer :: dealers =>
      '(c, rng) ← contributions_new key dealer parties threshold count rng;
      '(cs, rng) ← deal_all key parties threshold count dealers rng;
      Ok (c :: cs, rng)
  end.

Definition joint_scalar_nodes {R} `{!ScalarRandom R} (key : Pedersen) (parties : list PartyId)
    (threshold count : nat) (rng : R) :
    result string (list NodeContributions * DealerCoefficientCommitments * R) :=
  '(dealers, rng) ← deal_all key parties threshold count parties rng;
  let seals := collect ((fun d => (cc_dealer d, cc_sealed d)) <$> dealers) in
  nodes ← map_res (fun recipient =>
    deliveries ← map_res (fun dealer =>
      ok_or (delivery_for dealer recipient)
        ("dealer " +:+ pretty (cc_dealer dealer) +:+ " omitted party " +:+ pretty recipient +:+ "'s contribution"))
      dealers;
    receive key recipient threshold seals deliveries) parties;
  Ok (nodes, seals, rng).
End Dealing.

(** ** Joint product proofs *)

Section JointProduct.
Context `{G : GroupOps} `{T : TranscriptOps}.

Record ProductAssemblyTranscript := mkProductAssemblyTranscript {
  pa_quorum : list PartyId;
  pa_challenge : Scalar;
  pa_c_a : Point;
  pa_factor_parts : gmap PartyId Point;
  pa_product_parts : gmap PartyId Point;
  pa_answers : gmap PartyId (Scalar * Scalar * Scalar);
  pa_share_coefficient_commitments : list Point;
  pa_cross_coefficient_commitments : list Point;
  pa_nonce_seals : DealerCoefficientCommitments
}.

Definition assemble (e : ProductAssemblyTranscript) : result string ProductProof :=
  coefficients ← lagrange_at_zero (pa_quorum e);
  '(z_b, z_rb, z_s) ← fold_res (fun '(z_b, z_rb, z_s) '(party, (answer_b, answer_rb, answer_s)) =>
    coefficient ← ok_or (coefficients !! party)
      ("answer from party " +:+ pretty party +:+ " is outside the quorum");
    Ok (z_b + coefficient * answer_b, z_rb + coefficient * answer_rb, z_s + coefficient * answer_s)%S)
    (s0, s0, s0) (party_iter (pa_answers e));
  t_factor ← combine_commitments (pa_factor_parts e);
  t_product ← combine_commitments (pa_product_parts e);
  Ok (mkProductProof t_factor t_product z_b z_rb z_s).

(** The public statement every contribution must repeat, and its share. *)
Definition check_factor (key : Pedersen) (factor_commitment : Point) (factor_ladder : list Point)
    (contribution : ProductNodeContribution) : result string unit :=
  let node := pc_factor contribution in
  if negb (same_point (ns_commitment node) factor_commitment)
     || negb (bool_decide (compress <$> ns_coefficient_commitments node = compress <$> factor_ladder))
  then Err ("party " +:+ pretty (ns_party node) +:+ " supplied a different public factor statement")
  else
    expected ← share_commitment factor_ladder (ns_party node);
    if negb (same_point (commit key (ns_value_share node) (ns_blinding_share node)) expected)
    then Err ("factor share from party " +:+ pretty (ns_party node)
      +:+ " does not match the published VSS coefficient ladder")
    else Ok tt.

Definition nonce_slot (node : NodeContributions) (slot : nat) (name : string) : result string Scalar :=
  ok_or (nc_share node slot) ("product nonce omitted " +:+ name).

Definition joint_prove_product_from_contributions {R} `{!ScalarRandom R} (key : Pedersen)
    (c_a product_commitment : Point) (contributions : list ProductNodeContribution)
    (quorum : list PartyId) (threshold : nat) (transcript : Transcript) (rng : R) :
    result string (ProductProof * ProductAssemblyTranscript * Transcript * R) :=
  if negb (length contributions =? length quorum) then
    Err ("received " +:+ show_nat (length contributions) +:+ " product contributions for a quorum of "
      +:+ show_nat (length quorum))
  else
    let by_party := collect ((fun c => (pc_party c, c)) <$> contributions) in
    if negb (size by_party =? length contributions)
       || negb (bool_decide (dom by_party = (list_to_set quorum : gset PartyId)))
    then Err "product contributions do not exactly match the quorum"
    else
      first ← ok_or (head contributions) "a product proof needs at least one node contribution";
      let factor_commitment := ns_commitment (pc_factor first) in
      let factor_ladder := ns_coefficient_commitments (pc_factor first) in
      if negb (length factor_ladder =? threshold + 1) then
        Err "factor is missing its published VSS coefficient ladder"
      else if negb (same_point (default pid (head factor_ladder)) factor_commitment) then
        Err "factor VSS constant does not match its commitment"
      else
        _ ← for_each (check_factor key factor_commitment factor_ladder) contributions;
        let relation_evaluations := collect ((fun c => (pc_party c,
          (c_a * ns_value_share (pc_factor c) + h key * pc_cross_share c)%P)) <$> contributions) in
        cross_coefficient_commitments ←
          coefficient_commitments_from_evaluations relation_evaluations threshold;
        if negb (same_point (default pid (head cross_coefficient_commitments)) product_commitment) then
          Err "product relation VSS constant does not match the product"
        else
          '(nonce_nodes, nonce_seals, rng) ← joint_scalar_nodes key quorum threshold 3 rng;
          factor_parts ← collect_res (fun node =>
            k_b ← nonce_slot node 0 "k_b"; k_rb ← nonce_slot node 1 "k_rb";
            Ok (nc_party node, commit key k_b k_rb)) nonce_nodes;
          product_parts ← collect_res (fun node =>
            k_b ← nonce_slot node 0 "k_b"; k_s ← nonce_slot node 2 "k_s";
            Ok (nc_party node, c_a * k_b + h key * k_s)%P) nonce_nodes;
          t_factor ← combine_commitments factor_parts;
          t_product ← combine_commitments product_parts;
          let (challenge, transcript) :=
            product_challenge c_a factor_commitment product_commitment t_factor t_product transcript in
          answers ← collect_res (fun node =>
            contribution ← ok_or (by_party !! nc_party node) "unreachable: the quorum was checked";
            k_b ← nonce_slot node 0 "k_b"; k_rb ← nonce_slot node 1 "k_rb"; k_s ← nonce_slot node 2 "k_s";
            Ok (nc_party node,
              (k_b + challenge * ns_value_share (pc_factor contribution),
               k_rb + challenge * ns_blinding_share (pc_factor contribution),
               k_s + challenge * pc_cross_share contribution)%S)) nonce_nodes;
          let record := mkProductAssemblyTranscript quorum challenge c_a factor_parts product_parts answers
            factor_ladder cross_coefficient_commitments nonce_seals in
          proof ← assemble record;
          Ok (proof, record, transcript, rng).

Definition verify_square_bit (key : Pedersen) (commitment : Point) (proof : ProductProof)
    (transcript : Transcript) : bool * Transcript :=
  verify_product key transcript commitment commitment commitment proof.

Definition bad_product_partial (key : Pedersen) (e : ProductAssemblyTranscript)
    (share_ladder cross_ladder : list Point) (party : PartyId) : bool :=
  match pa_answers e !! party, pa_factor_parts e !! party, pa_product_parts e !! party,
        share_commitment share_ladder party, share_commitment cross_ladder party with
  | Some (z_b, z_rb, z_s), Some factor_part, Some product_part, Ok share, Ok cross =>
      let factor_ok := same_point (commit key z_b z_rb) (factor_part + share * pa_challenge e)%P in
      let product_ok := same_point (pa_c_a e * z_b + h key * z_s)%P (product_part + cross * pa_challenge e)%P in
      negb factor_ok || negb product_ok
  | _, _, _, _, _ => true
  end.

Definition audit_product_partials (key : Pedersen) (e : ProductAssemblyTranscript)
    (share_ladder cross_ladder : list Point) : list PartyId :=
  List.filter (bad_product_partial key e share_ladder cross_ladder) (pa_quorum e).

Definition audit_recorded_product_partials (key : Pedersen) (e : ProductAssemblyTranscript) : list PartyId :=
  audit_product_partials key e (pa_share_coefficient_commitments e) (pa_cross_coefficient_commitments e).

(** ** Joint openings *)

Record NodeNonce := mkNodeNonce { nn_party : PartyId; nn_k_share : Scalar; nn_rho_share : Scalar }.

Record JointNonce := mkJointNonce {
  jn_nodes : list NodeNonce;
  jn_sealed : DealerCoefficientCommitments
}.

Definition nonce_new_with {R} `{!ScalarRandom R} (key : Pedersen) (parties : list PartyId)
    (threshold : nat) (relation : Relation) (rng : R) : result string (JointNonce * R) :=
  let slots := match relation with Zero => 1 | General => 2 end in
  '(contributions, sealed, rng) ← joint_scalar_nodes key parties threshold slots rng;
  nodes ← map_res (fun contribution =>
    match relation with
    | Zero =>
        rho ← ok_or (nc_share contribution 0) "joint nonce omitted its blinding slot";
        Ok (mkNodeNonce (nc_party contribution) s0 rho)
    | General =>
        k ← ok_or (nc_share contribution 0) "joint nonce omitted its value slot";
        rho ← ok_or (nc_share contribution 1) "joint nonce omitted its blinding slot";
        Ok (mkNodeNonce (nc_party contribution) k rho)
    end) contributions;
  Ok (mkJointNonce nodes sealed, rng).

Definition nonce_node (n : JointNonce) (party : PartyId) : option NodeNonce :=
  List.find (fun node => (nn_party node =? party)%N) (jn_nodes n).

Definition node_commitment (key : Pedersen) (nonce : JointNonce) (party : PartyId) : result string Point :=
  node ← ok_or (nonce_node nonce party) ("missing nonce contribution for party " +:+ pretty party);
  Ok (commit key (nn_k_share node) (nn_rho_share node)).

Definition node_response (shares : ShareSet) (nonce : JointNonce) (party : PartyId) (challenge : Scalar) :
    result string (Scalar * Scalar) :=
  value ← ok_or (ss_value_shares shares !! party) ("missing value share for party " +:+ pretty party);
  blinding ← ok_or (ss_blinding_shares shares !! party) ("missing blinding share for party " +:+ pretty party);
  node ← ok_or (nonce_node nonce party) ("missing nonce contribution for party " +:+ pretty party);
  Ok (nn_k_share node + challenge * value, nn_rho_share node + challenge * blinding)%S.

Record OpeningAssemblyTranscript := mkOpeningAssemblyTranscript {
  oa_quorum : list PartyId;
  oa_partial_commitments : gmap PartyId Point;
  oa_partial_responses : gmap PartyId (Scalar * Scalar);
  oa_challenge : Scalar;
  oa_bad_partials : list PartyId;
  oa_nonce_seals : DealerCoefficientCommitments
}.

(** The replacements of a faulty run, for parties that answered. *)
Definition replace_faulty (faulty : option (gmap PartyId (Scalar * Scalar)))
    (partial_responses : gmap PartyId (Scalar * Scalar)) : gmap PartyId (Scalar * Scalar) :=
  match faulty with
  | None => partial_responses
  | Some faulty =>
      foldl (fun m '(party, replacement) =>
        if bool_decide (is_Some (m !! party)) then <[party := replacement]> m else m)
        partial_responses (party_iter faulty)
  end.

Definition joint_prove_opening_with {R} `{!ScalarRandom R} (key : Pedersen) (shares : ShareSet)
    (quorum : list PartyId) (transcript : Transcript) (faulty : option (gmap PartyId (Scalar * Scalar)))
    (relation : Relation) (rng : R) :
    result string (OpeningProof * OpeningAssemblyTranscript * Transcript * R) :=
  '(nonce, rng) ← nonce_new_with key quorum (ss_threshold shares) relation rng;
  partial_commitments ← collect_res (fun party => t ← node_commitment key nonce party; Ok (party, t)) quorum;
  t ← combine_commitments partial_commitments;
  let (challenge, transcript) := opening_challenge (ss_commitment shares) t (frame relation transcript) in
  partial_responses ← collect_res (fun party =>
    z ← node_response shares nonce party challenge; Ok (party, z)) quorum;
  let partial_responses := replace_faulty faulty partial_responses in
  '(z_value, z_blinding) ← combine_responses partial_responses;
  let bad_partials := audit_partials key (ss_coefficient_commitments shares) quorum
    partial_commitments partial_responses challenge in
  Ok (mkOpeningProof t z_value z_blinding,
      mkOpeningAssemblyTranscript quorum partial_commitments partial_responses challenge bad_partials
        (jn_sealed nonce), transcript, rng).

Definition joint_prove_opening {R} `{!ScalarRandom R} key shares quorum transcript faulty (rng : R) :=
  joint_prove_opening_with key shares quorum transcript faulty General rng.

Definition joint_prove_zero_opening {R} `{!ScalarRandom R} key shares quorum transcript faulty (rng : R) :=
  joint_prove_opening_with key shares quorum transcript faulty Zero rng.

Definition joint_opening_from_shares_with {R} `{!ScalarRandom R} (key : Pedersen) (commitment : Point)
    (value_shares blinding_shares : ScalarShares) (threshold : nat) (quorum : list PartyId)
    (transcript : Transcript) (relation : Relation) (rng : R) :
    result string (OpeningProof * OpeningAssemblyTranscript * Transcript * R) :=
  let shares := mkShareSet commitment value_shares blinding_shares threshold [] in
  '(nonce, rng) ← nonce_new_with key quorum threshold relation rng;
  partial_commitments ← collect_res (fun party => t ← node_commitment key nonce party; Ok (party, t)) quorum;
  t ← combine_commitments partial_commitments;
  let (challenge, transcript) := opening_challenge commitment t (frame relation transcript) in
  partial_responses ← collect_res (fun party =>
    z ← node_response shares nonce party challenge; Ok (party, z)) quorum;
  '(z_value, z_blinding) ← combine_responses partial_responses;
  Ok (mkOpeningProof t z_value z_blinding,
      mkOpeningAssemblyTranscript quorum partial_commitments partial_responses challenge []
        (jn_sealed nonce), transcript, rng).

Definition joint_opening_from_shares {R} `{!ScalarRandom R} key commitment values blindings threshold quorum transcript (rng : R) :=
  joint_opening_from_shares_with key commitment values blindings threshold quorum transcript General rng.

Definition joint_zero_opening_from_shares {R} `{!ScalarRandom R} key commitment values blindings threshold quorum transcript (rng : R) :=
  joint_opening_from_shares_with key commitment values blindings threshold quorum transcript Zero rng.

(** The two nonce slots of a contribution, by relation. *)
Definition value_slot (relation : Relation) (nonce : NodeContributions) : result string Scalar :=
  match relation with
  | Zero => Ok s0
  | General => ok_or (nc_share nonce 0) "opening nonce omitted its value slot"
  end.

Definition blinding_slot (relation : Relation) (nonce : NodeContributions) : result string Scalar :=
  ok_or (nc_share nonce (match relation with Zero => 0 | General => 1 end))
    "opening nonce omitted its blinding slot".

Definition joint_opening_from_contributions_with {R} `{!ScalarRandom R} (key : Pedersen) (commitment : Point)
    (contributions : list OpeningNodeContribution) (threshold : nat) (quorum : list PartyId)
    (transcript : Transcript) (relation : Relation) (rng : R) :
    result string (OpeningProof * OpeningAssemblyTranscript * Transcript * R) :=
  if negb (length contributions =? length quorum) then
    Err ("received " +:+ show_nat (length contributions) +:+ " opening contributions for a quorum of "
      +:+ show_nat (length quorum))
  else
    let by_party := collect ((fun c => (oc_party c, c)) <$> contributions) in
    if negb (size by_party =? length contributions)
       || existsb (fun party => bool_decide (by_party !! party = None)) quorum
    then Err "opening contributions do not exactly match the quorum"
    else
      let slots := match relation with Zero => 1 | General => 2 end in
      '(nonce_nodes, nonce_seals, rng) ← joint_scalar_nodes key quorum threshold slots rng;
      partial_commitments ← collect_res (fun nonce =>
        k ← value_slot relation nonce; rho ← blinding_slot relation nonce;
        Ok (nc_party nonce, commit key k rho)) nonce_nodes;
      t ← combine_commitments partial_commitments;
      let (challenge, transcript) := opening_challenge commitment t (frame relation transcript) in
      partial_responses ← collect_res (fun nonce =>
        node ← ok_or (by_party !! nc_party nonce) "unreachable: the quorum was checked";
        k ← value_slot relation nonce; rho ← blinding_slot relation nonce;
        Ok (nc_party nonce, (k + challenge * oc_value_share node, rho + challenge * oc_blinding_share node)%S))
        nonce_nodes;
      '(z_value, z_blinding) ← combine_responses partial_responses;
      Ok (mkOpeningProof t z_value z_blinding,
          mkOpeningAssemblyTranscript quorum partial_commitments partial_responses challenge [] nonce_seals,
          transcript, rng).

Definition joint_opening_from_contributions {R} `{!ScalarRandom R} key commitment contributions threshold quorum transcript (rng : R) :=
  joint_opening_from_contributions_with key commitment contributions threshold quorum transcript General rng.

Definition joint_zero_opening_from_contributions {R} `{!ScalarRandom R} key commitment contributions threshold quorum transcript (rng : R) :=
  joint_opening_from_contributions_with key commitment contributions threshold quorum transcript Zero rng.
End JointProduct.
