(* ===== verification/ThresholdTheorems.v ===== *)
(** * Threshold openings are ordinary openings *)

From S2P Require Import Prelude.
From S2P Require Import Interfaces.
From S2P Require Import Curve.
From S2P Require Import Shamir.
From S2P Require Import ShamirTheorems.
From S2P Require Import Sigma.
From S2P Require Import SigmaProofs.
From S2P Require Import OneOfManyProofs.
From S2P Require Import Threshold.

(** ** Lagrange weights and interpolation in the exponent *)

Open Scope nat_scope.

(** ** Sums over permuted lists *)

Section Permuted.
Context `{SL : ScalarLaws} `{G : !GroupOps} `{L : !GroupLaws}.
Add Field permuted_field : scalar_field.

#[global] Instance ssum_perm : Proper (Permutation ==> eq) ssum.
Proof.
  intros l l' Hp. induction Hp as [|x l l' _ IH|x y l|l l' l'' _ IH1 _ IH2]; [done| | |congruence].
  - change (x + ssum l = x + ssum l')%S. by rewrite IH.
  - change (y + (x + ssum l) = x + (y + ssum l))%S. ring.
Qed.

#[global] Instance psum_perm : Proper (Permutation ==> eq) psum.
Proof.
  intros l l' Hp. induction Hp as [|x l l' _ IH|x y l|l l' l'' _ IH1 _ IH2]; [done| | |congruence].
  - by rewrite !psum_cons, IH.
  - rewrite !psum_cons, !padd_assoc. f_equal. apply padd_comm.
Qed.

Lemma foldl_psum {A} (F : A -> Point) l a : foldl (fun s x => s + F x)%P a l = (a + psum (F <$> l))%P.
Proof.
  revert a. induction l as [|x l IH]; intros a; [cbn; by rewrite padd_id|].
  cbn [foldl]. rewrite IH, fmap_cons, psum_cons. by rewrite padd_assoc.
Qed.

Lemma foldl_ssum {A} (F : A -> Scalar) l a : foldl (fun s x => s + F x)%S a l = (a + ssum (F <$> l))%S.
Proof.
  revert a. induction l as [|x l IH]; intros a; [change (a = a + s0)%S; ring|].
  cbn [foldl]. rewrite IH, fmap_cons. change (ssum (F x :: (F <$> l))) with (F x + ssum (F <$> l))%S. ring.
Qed.

Lemma psum_commit {A} key (F H' : A -> Scalar) l :
  psum ((fun q => commit key (F q) (H' q)) <$> l) = commit key (ssum (F <$> l)) (ssum (H' <$> l)).
Proof.
  induction l as [|q l IH]; [cbn; unfold commit; module_split; ring|].
  rewrite !fmap_cons, psum_cons, IH.
  change (ssum (F q :: (F <$> l))) with (F q + ssum (F <$> l))%S.
  change (ssum (H' q :: (H' <$> l))) with (H' q + ssum (H' <$> l))%S. unfold commit. module_split; ring.
Qed.

(** A ladder of points evaluated like a polynomial. *)
Definition ladder_at (ladder : list Point) (x : Scalar) : Point := foldr (fun P acc => P + acc * x)%P pid ladder.

Lemma ladder_at_cons P ladder x : ladder_at (P :: ladder) x = (P + ladder_at ladder x * x)%P.
Proof. done. Qed.

Lemma ladder_loop ladder x : forall a p,
  (foldl (fun '(c, power) P => ((c + P * power)%P, (power * x)%S)) (a, p) ladder).1
  = (a + ladder_at ladder x * p)%P.
Proof.
  induction ladder as [|P ladder IH]; intros a p; [cbn; module_split; ring|].
  cbn [foldl]. rewrite IH, ladder_at_cons. module_split; ring.
Qed.

Lemma ladder_commit key (P Q : list Scalar) x :
  length P = length Q -> ladder_at (zip_with (commit key) P Q) x = commit key (evaluate P x) (evaluate Q x).
Proof.
  revert Q. induction P as [|p P IH]; intros [|q Q] E; try done.
  - cbn. unfold commit. module_split; ring.
  - injection E as E. cbn [zip_with]. rewrite ladder_at_cons, IH, !evaluate_cons by done.
    unfold commit. module_split; ring.
Qed.
End Permuted.

(** ** Parties *)

Section Parties.
Context `{SL : ScalarLaws} `{!ScalarLarge} `{G : !GroupOps} `{L : !GroupLaws}.
Add Field parties_field : scalar_field.
Implicit Types (parties quorum : list PartyId) (w : PartyId -> Scalar).

Definition valid_party (q : PartyId) : Prop := (0 < q <= U64_MAX)%N.

Lemma party_point_ok q x : party_point q = Ok x <-> valid_party q /\ x = scalar_of_N q.
Proof.
  unfold party_point, valid_party. destruct (N.eqb_spec q 0); [naive_solver lia|].
  destruct (N.ltb_spec U64_MAX q); [naive_solver lia|]. split; [intros [= <-]; split; [lia|done] | by intros [_ ->]].
Qed.

Lemma party_points_ok parties points :
  map_res party_point parties = Ok points <-> Forall valid_party parties /\ points = scalar_of_N <$> parties.
Proof.
  rewrite map_res_ok. split.
  - induction 1 as [|q x parties points Hq _ [IH1 IH2]]; [done|].
    apply party_point_ok in Hq as [? ->]. split; [by constructor|]. by rewrite IH2.
  - intros [Hv ->]. induction Hv as [|q parties Hq _ IH]; [constructor|]. rewrite fmap_cons. constructor; [|done].
    by apply party_point_ok.
Qed.

Definition good_parties parties : Prop := parties <> [] /\ NoDup parties /\ Forall valid_party parties.

Lemma checked_parties_ok parties points :
  checked_parties parties = Ok points <-> good_parties parties /\ points = scalar_of_N <$> parties.
Proof.
  unfold checked_parties, good_parties. destruct parties as [|q parties]; [naive_solver|].
  destruct (all_distinct (q :: parties)) eqn:Hd; cbn [negb].
  - apply all_distinct_spec in Hd. rewrite party_points_ok. naive_solver.
  - split; [done|]. intros [(_ & Hnd & _) _]. apply all_distinct_spec in Hnd. congruence.
Qed.

Lemma scalar_of_party_inj q q' : valid_party q -> valid_party q' -> scalar_of_N q = scalar_of_N q' -> q = q'.
Proof. unfold valid_party, U64_MAX. intros. apply scalar_of_N_inj; [lia|lia|done]. Qed.

Lemma party_points_nodup parties : good_parties parties -> NoDup (scalar_of_N <$> parties).
Proof.
  intros (_ & Hnd & Hv). apply NoDup_fmap_2_strong; [|done]. rewrite Forall_forall in Hv.
  intros q q' Hq Hq'. apply scalar_of_party_inj; auto.
Qed.

Lemma good_parties_perm parties parties' : parties ≡ₚ parties' -> good_parties parties -> good_parties parties'.
Proof.
  intros Hp (Hne & Hnd & Hv). split_and!.
  - intros ->. by apply Permutation_nil_r in Hp.
  - by rewrite <- Hp.
  - by rewrite <- Hp.
Qed.

Lemma share_commitment_ok ladder q P :
  share_commitment ladder q = Ok P <-> valid_party q /\ P = ladder_at ladder (scalar_of_N q).
Proof.
  unfold share_commitment. rewrite bind_ok. split.
  - intros (x & Hx & [= <-]). apply party_point_ok in Hx as [Hq ->]. split; [done|].
    rewrite ladder_loop. module_split; ring.
  - intros [Hq ->]. exists (scalar_of_N q). split; [by apply party_point_ok|].
    rewrite ladder_loop. f_equal. module_split; ring.
Qed.

(** ** Weights *)

(** The weights that read a polynomial's value at zero off its values at the
    parties' points. *)
Definition weights_of parties w : Prop :=
  forall p, length p <= length parties ->
    ssum ((fun q => w q * evaluate p (scalar_of_N q))%S <$> parties) = evaluate p s0.

Lemma lagrange_term_at ps vs z i xi v : nth i vs s0 = v ->
  lagrange_term ps vs z (i, xi) = (v * lagrange_term ps (<[i := s1]> (replicate (length ps) s0)) z (i, xi))%S
  \/ length ps <= i.
Proof.
  intros <-. destruct (decide (i < length ps)) as [Hi|Hi]; [left|right; lia].
  unfold lagrange_term. rewrite nth_insert by (by rewrite length_replicate). rewrite decide_True by done. ring.
Qed.

Lemma lagrange_coefficient_spec points i x :
  points !! i = Some x ->
  lagrange_coefficient points i = lagrange_term points (<[i := s1]> (replicate (length points) s0)) s0 (i, x).
Proof.
  intros Hi. unfold lagrange_coefficient. rewrite reconstruct_spec by (by rewrite length_insert, length_replicate).
  cbn [default]. rewrite (proj2 (interpolate_spec _ _ s0)).
  apply (ssum_single _ _ (i, x)); [apply enumerate_nodup | by apply enumerate_lookup | done |].
  intros [j y] Hj Hne. apply enumerate_lookup in Hj. unfold lagrange_term.
  assert (i < length points) as Hlt by (by eapply lookup_lt_Some).
  rewrite nth_insert by (by rewrite length_replicate). case_decide as Hji.
  - subst j. rewrite Hi in Hj. by injection Hj as ->.
  - rewrite nth_replicate_zero. ring.
Qed.

Lemma lagrange_sum points vs :
  length vs = length points ->
  ssum ((fun '(i, v) => lagrange_coefficient points i * v)%S <$> enumerate vs)
  = evaluate (interpolate points vs) s0.
Proof.
  intros Hlen. rewrite (proj2 (interpolate_spec _ _ s0)). f_equal. apply list_eq. intros i.
  rewrite !list_lookup_fmap. unfold enumerate. rewrite !lookup_zip_with, Hlen.
  destruct (decide (i < length points)) as [Hi|Hi].
  - rewrite lookup_seq_lt by done.
    destruct (lookup_lt_is_Some_2 points i Hi) as [x Hx], (lookup_lt_is_Some_2 vs i ltac:(lia)) as [v Hv].
    rewrite Hx, Hv. cbn. f_equal. rewrite (lagrange_coefficient_spec _ _ _ Hx).
    destruct (lagrange_term_at points vs s0 i x v (nth_lookup_Some _ _ _ _ Hv)) as [E|E]; [|lia].
    unfold lagrange_term in E |- *. rewrite E. ring.
  - rewrite lookup_seq_ge by lia. done.
Qed.

Lemma enumerate_fmap {A B} (f : A -> B) (l : list A) : enumerate (f <$> l) = (fun '(i, a) => (i, f a)) <$> enumerate l.
Proof.
  unfold enumerate. rewrite length_fmap. generalize 0 as s.
  induction l as [|a l IH]; intros s; [done|]. cbn. f_equal. apply IH.
Qed.

Lemma enumerate_keys {A B} (f : nat -> B) (l : list A) : ((fun '(i, a) => (a, f i)) <$> enumerate l).*1 = l.
Proof.
  unfold enumerate. generalize 0 as s. induction l as [|a l IH]; intros s; [done|]. cbn. f_equal. apply IH.
Qed.

Lemma lagrange_weights parties coefs :
  lagrange_at_zero parties = Ok coefs ->
  good_parties parties /\ weights_of parties (fun q => default s0 (coefs !! q)).
Proof.
  unfold lagrange_at_zero. rewrite bind_ok. intros (points & Hp & Hc). apply Ok_inj in Hc.
  apply checked_parties_ok in Hp as [Hgood ->]. split; [done|].
  pose proof (party_points_nodup _ Hgood) as Hnd. destruct Hgood as (_ & Hndp & _).
  set (points := scalar_of_N <$> parties) in *. intros p Hlen.
  assert (forall i q, parties !! i = Some q -> default s0 (coefs !! q) = lagrange_coefficient points i) as Hcoef.
  { intros i q Hi. rewrite <- Hc.
    rewrite (proj2 (collect_lookup _ q (lagrange_coefficient points i) ltac:(by rewrite enumerate_keys))); [done|].
    apply list_elem_of_fmap. exists (i, q). split; [done|]. by apply enumerate_lookup. }
  transitivity (ssum ((fun '(i, v) => lagrange_coefficient points i * v)%S <$> enumerate (evaluate p <$> points))).
  - f_equal. unfold points. rewrite !enumerate_fmap, <- !list_fmap_compose.
    apply list_eq. intros i. rewrite !list_lookup_fmap. unfold enumerate. rewrite lookup_zip_with.
    destruct (parties !! i) as [q|] eqn:Hi.
    + rewrite lookup_seq_lt by (by eapply lookup_lt_Some). cbn. rewrite (Hcoef i q Hi). done.
    + cbn. by destruct (seq 0 (length parties) !! i).
  - rewrite lagrange_sum by (by rewrite length_fmap).
    apply (agree_everywhere _ _ points); [done | | | ].
    + by rewrite (proj1 (interpolate_spec _ _ s0)).
    + unfold points. by rewrite length_fmap.
    + apply Forall_forall. intros x [i Hi]%list_elem_of_lookup. rewrite (interpolate_at _ _ i x Hnd Hi).
      apply nth_lookup_Some. by rewrite list_lookup_fmap, Hi.
Qed.

Lemma lagrange_ok parties : good_parties parties -> exists coefs, lagrange_at_zero parties = Ok coefs.
Proof.
  intros Hg. unfold lagrange_at_zero. rewrite (proj2 (checked_parties_ok parties _) (conj Hg eq_refl)).
  cbn. eauto.
Qed.

Lemma weights_perm parties parties' w : parties ≡ₚ parties' -> weights_of parties w -> weights_of parties' w.
Proof. intros Hp Hw p Hl. rewrite <- Hp in Hl |- *. by apply Hw. Qed.

(** Weights are determined at the parties. *)
Lemma weights_unique parties w w' q :
  good_parties parties -> weights_of parties w -> weights_of parties w' -> q ∈ parties -> w q = w' q.
Proof.
  intros Hg Hw Hw' Hq. pose proof (party_points_nodup _ Hg) as Hnd. destruct Hg as (_ & Hndp & _).
  apply list_elem_of_lookup in Hq as [i Hi].
  set (points := scalar_of_N <$> parties) in *.
  set (p := interpolate points (<[i := s1]> (replicate (length points) s0))).
  assert (length p <= length parties) as Hlen.
  { unfold p. rewrite (proj1 (interpolate_spec _ _ s0)). unfold points. by rewrite length_fmap. }
  assert (forall v, weights_of parties v -> v q = evaluate p s0) as Hval; [|by rewrite !Hval].
  intros v Hv. rewrite <- (Hv p Hlen). symmetry. apply (ssum_single _ _ q).
  - done.
  - apply list_elem_of_lookup. eauto.
  - unfold p. rewrite (interpolate_at _ _ i) by (done || (unfold points; by rewrite list_lookup_fmap, Hi)).
    rewrite nth_insert, decide_True; [ring|done|].
    rewrite length_replicate. unfold points. rewrite length_fmap. by eapply lookup_lt_Some.
  - intros q' [j Hj]%list_elem_of_lookup Hne.
    unfold p. rewrite (interpolate_at _ _ j) by (done || (unfold points; by rewrite list_lookup_fmap, Hj)).
    rewrite nth_insert, decide_False, nth_replicate_zero; [ring|congruence|].
    rewrite length_replicate. unfold points. rewrite length_fmap. by eapply lookup_lt_Some.
Qed.

(** Monomials and ladders of points read at zero. *)
Lemma weights_monomial parties w k :
  weights_of parties w -> k < length parties ->
  ssum ((fun q => w q * spow (scalar_of_N q) k)%S <$> parties) = if decide (k = 0) then s1 else s0.
Proof.
  intros Hw Hk. pose proof (Hw (replicate k s0 ++ [s1])) as E. rewrite length_app, length_replicate in E.
  cbn [length] in E. specialize (E ltac:(lia)).
  assert (forall k x, evaluate (replicate k s0 ++ [s1]) x = spow x k) as Hmono.
  { induction k0 as [|k' IH]; intros x; [cbn; ring|]. cbn [replicate app]. rewrite evaluate_cons, IH. cbn. ring. }
  rewrite (ssum_ext _ (fun q => w q * evaluate (replicate k s0 ++ [s1]) (scalar_of_N q))%S).
  - rewrite E, Hmono. destruct k; [done|]. rewrite decide_False by done. cbn. ring.
  - intros q _. by rewrite Hmono.
Qed.

Lemma weights_ladder_from parties w ladder : forall k,
  weights_of parties w -> k + length ladder <= length parties ->
  psum ((fun q => ladder_at ladder (scalar_of_N q) * (w q * spow (scalar_of_N q) k)%S)%P <$> parties)
  = if decide (k = 0) then ladder_at ladder s0 else pid.
Proof.
  induction ladder as [|P ladder IH]; intros k Hw Hlen.
  - cbn [ladder_at foldr]. rewrite psum_scalar. case_decide; cbn; module_split; ring.
  - cbn [length] in Hlen.
    rewrite (psum_ext _ (fun q => P * (w q * spow (scalar_of_N q) k)%S
      + ladder_at ladder (scalar_of_N q) * (w q * spow (scalar_of_N q) (S k))%S)%P).
    2:{ intros q _. rewrite ladder_at_cons. cbn [spow]. module_split; ring. }
    rewrite psum_add, psum_scalar, (IH (S k)), weights_monomial by (done || lia).
    rewrite (decide_False (P := S k = 0)) by done.
    case_decide; [rewrite ladder_at_cons|]; module_split; ring.
Qed.

Lemma weights_ladder parties w ladder :
  weights_of parties w -> length ladder <= length parties ->
  psum ((fun q => ladder_at ladder (scalar_of_N q) * w q)%P <$> parties) = ladder_at ladder s0.
Proof.
  intros Hw Hlen. pose proof (weights_ladder_from parties w ladder 0 Hw Hlen) as E. cbn [decide] in E.
  rewrite decide_True in E by done. rewrite <- E. apply psum_ext. intros q _. cbn [spow]. module_split; ring.
Qed.
End Parties.

(** ** Combining answers of a quorum

    What the combiners compute, the equation the combined answers satisfy, and
    what a dealt sharing looks like. *)

Open Scope nat_scope.

Section Core.
Context `{SL : ScalarLaws} `{!ScalarLarge} `{G : !GroupOps} `{L : !GroupLaws}.
Add Field core_field : scalar_field.
Implicit Types (parties quorum : list PartyId) (w : PartyId -> Scalar).

Lemma weights_exist parties : good_parties parties -> exists w, weights_of parties w.
Proof. intros [coefs Hc]%lagrange_ok. apply lagrange_weights in Hc as [_ Hw]. eauto. Qed.

(** The coefficients that [lagrange_at_zero] returns are the weights. *)
Lemma lagrange_is_weight parties coefs w q :
  lagrange_at_zero parties = Ok coefs -> weights_of parties w -> q ∈ parties ->
  default s0 (coefs !! q) = w q.
Proof. intros [Hg Hc]%lagrange_weights Hw Hq. by apply (weights_unique parties _ w q Hg Hc Hw). Qed.

Lemma party_keys_elem {V} (m : gmap PartyId V) kv : kv ∈ party_iter m -> kv.1 ∈ party_keys m.
Proof. intros Hkv. apply list_elem_of_fmap. by exists kv. Qed.

Lemma combine_commitments_spec (m : gmap PartyId Point) w :
  good_parties (party_keys m) -> weights_of (party_keys m) w ->
  combine_commitments m = Ok (psum ((fun kv => kv.2 * w kv.1)%P <$> party_iter m)).
Proof.
  intros Hg Hw. unfold combine_commitments. destruct (lagrange_ok _ Hg) as [coefs Hc]. rewrite Hc. cbn [mbind result_bind].
  f_equal. rewrite (psum_ext _ (fun kv => kv.2 * default s0 (coefs !! kv.1))%P).
  2:{ intros kv Hkv. by rewrite (lagrange_is_weight _ _ w _ Hc Hw (party_keys_elem m kv Hkv)). }
  rewrite <- (padd_id_l (psum _)), <- foldl_psum.
  generalize pid. induction (party_iter m) as [|[q P] l IH]; intros a; [done|]. apply IH.
Qed.

Lemma combine_responses_spec (m : gmap PartyId (Scalar * Scalar)) w :
  good_parties (party_keys m) -> weights_of (party_keys m) w ->
  combine_responses m = Ok (ssum ((fun kv => w kv.1 * kv.2.1)%S <$> party_iter m),
                            ssum ((fun kv => w kv.1 * kv.2.2)%S <$> party_iter m)).
Proof.
  intros Hg Hw. unfold combine_responses. destruct (lagrange_ok _ Hg) as [coefs Hc]. rewrite Hc. cbn [mbind result_bind].
  f_equal.
  rewrite (ssum_ext (fun kv => w kv.1 * kv.2.1)%S (fun kv => default s0 (coefs !! kv.1) * kv.2.1)%S).
  2:{ intros kv Hkv. by rewrite (lagrange_is_weight _ _ w _ Hc Hw (party_keys_elem m kv Hkv)). }
  rewrite (ssum_ext (fun kv => w kv.1 * kv.2.2)%S (fun kv => default s0 (coefs !! kv.1) * kv.2.2)%S).
  2:{ intros kv Hkv. by rewrite (lagrange_is_weight _ _ w _ Hc Hw (party_keys_elem m kv Hkv)). }
  assert (forall l a b, foldl (fun '(value, blinding) '(party, (zv, zb)) =>
      let coefficient := default s0 (coefs !! party) in
      (value + coefficient * zv, blinding + coefficient * zb)%S) (a, b) l
    = (a + ssum ((fun kv => default s0 (coefs !! kv.1) * kv.2.1)%S <$> l),
       b + ssum ((fun kv => default s0 (coefs !! kv.1) * kv.2.2)%S <$> l))%S) as Hl.
  { induction l as [|[q [zv zb]] l IH]; intros a b; [cbn; f_equal; ring|]. cbn [foldl]. rewrite IH.
    rewrite !fmap_cons. cbn [fst snd].
    change (ssum (?x :: ?y)) with (x + ssum y)%S. f_equal; unfold ssum; cbn; ring. }
  rewrite Hl. f_equal; ring.
Qed.

(** Collected from a list without repeated parties. *)
Lemma combine_commitments_list (l : list (PartyId * Point)) w :
  good_parties l.*1 -> weights_of l.*1 w ->
  combine_commitments (collect l) = Ok (psum ((fun kv => kv.2 * w kv.1)%P <$> l)).
Proof.
  intros Hg Hw. assert (party_iter (collect l) ≡ₚ l) as Hp by (apply collect_iter, Hg).
  rewrite (combine_commitments_spec _ w).
  - by rewrite Hp.
  - unfold party_keys. eapply good_parties_perm; [by rewrite Hp | exact Hg].
  - unfold party_keys. eapply weights_perm; [by rewrite Hp | exact Hw].
Qed.

Lemma combine_commitments_of (F : PartyId -> Point) quorum w :
  good_parties quorum -> weights_of quorum w ->
  combine_commitments (collect ((fun q => (q, F q)) <$> quorum)) = Ok (psum ((fun q => F q * w q)%P <$> quorum)).
Proof.
  intros Hg Hw.
  assert (((fun q => (q, F q)) <$> quorum).*1 = quorum) as Hk.
  { rewrite <- list_fmap_compose. apply list_fmap_id. }
  rewrite (combine_commitments_list _ w) by (by rewrite Hk). f_equal. by rewrite <- list_fmap_compose.
Qed.

Lemma interpolated_spec {A} quorum coefs w (answers : gmap PartyId A) part :
  lagrange_at_zero quorum = Ok coefs -> weights_of quorum w ->
  interpolated coefs answers part quorum
  = ssum ((fun q => w q * match answers !! q with Some a => part a | None => s0 end)%S <$> quorum).
Proof.
  intros Hc Hw. unfold interpolated. rewrite foldl_ssum.
  rewrite (ssum_ext _ (fun q => w q * match answers !! q with Some a => part a | None => s0 end)%S); [ring|].
  intros q Hq. by rewrite (lagrange_is_weight _ _ w _ Hc Hw Hq).
Qed.

(** ** The combined equation *)

(** Answers that match a ladder combine into an answer for its constant. *)
Lemma combined_equation (A B : Point) quorum w ladder (N : PartyId -> Point) (zv zb : PartyId -> Scalar) c :
  weights_of quorum w -> length ladder <= length quorum ->
  (forall q, q ∈ quorum ->
     sigma_equation A B (zv q) (zb q) (N q) (ladder_at ladder (scalar_of_N q)) c) ->
  sigma_equation A B (ssum ((fun q => w q * zv q)%S <$> quorum)) (ssum ((fun q => w q * zb q)%S <$> quorum))
    (psum ((fun q => N q * w q)%P <$> quorum)) (ladder_at ladder s0) c.
Proof.
  intros Hw Hlen Hall. unfold sigma_equation in *.
  rewrite <- (weights_ladder quorum w ladder Hw Hlen), <- psum_mul, <- psum_add, <- !psum_scalar, <- psum_add.
  apply psum_ext. intros q Hq. cbn beta.
  transitivity ((A * zv q + B * zb q) * w q)%P; [module_split; ring|]. rewrite (Hall q Hq). module_split; ring.
Qed.

Lemma ladder_at_zero ladder : ladder_at ladder s0 = default pid (head ladder).
Proof. destruct ladder as [|P ladder]; [done|]. rewrite ladder_at_cons. cbn. module_split; ring. Qed.

(** ** Dealt sharings *)

(** Shares of two polynomials whose coefficients the ladder commits to. *)
Definition shares_of key (parties : list PartyId) (shares : ShareSet) (P Q : list Scalar) : Prop :=
  length P = ss_threshold shares + 1 /\ length Q = ss_threshold shares + 1
  /\ ss_commitment shares = commit key (evaluate P s0) (evaluate Q s0)
  /\ ss_coefficient_commitments shares = zip_with (commit key) P Q
  /\ forall q, q ∈ parties -> ss_value_shares shares !! q = Some (evaluate P (scalar_of_N q))
       /\ ss_blinding_shares shares !! q = Some (evaluate Q (scalar_of_N q)).

Lemma share_with_coefficients_spec {R} `{!ScalarRandom R} secret degree ps (rng : R) :
  exists P rng', share_with_coefficients secret degree ps rng = (evaluate P <$> ps, P, rng')
    /\ length P = degree + 1 /\ evaluate P s0 = secret.
Proof.
  unfold share_with_coefficients.
  assert (forall n (rng : R), length (random_coefficients n rng).1 = n) as Hlen.
  { induction n as [|n IH]; intros r; [done|]. cbn. destruct (scalar_random r) as [c r1].
    specialize (IH r1). destruct (random_coefficients n r1). cbn in *. by rewrite IH. }
  specialize (Hlen degree rng). destruct (random_coefficients degree rng) as [cs rng'].
  exists (secret :: cs), rng'. cbn [fst] in *. split_and!; [done | cbn; lia | apply evaluate_at_zero].
Qed.

Lemma collect_zip_lookup {V} (f : PartyId -> V) parties q :
  NoDup parties -> q ∈ parties -> collect (zip parties (f <$> parties)) !! q = Some (f q).
Proof.
  intros Hnd Hq. assert ((zip parties (f <$> parties)).*1 = parties) as Hk.
  { apply fst_zip. by rewrite length_fmap. }
  apply collect_lookup; [by rewrite Hk|]. apply list_elem_of_lookup in Hq as [i Hi].
  apply list_elem_of_lookup. exists i. by rewrite lookup_zip_with, list_lookup_fmap, Hi.
Qed.

Lemma deal_spec {R} `{!ScalarRandom R} key value blinding parties threshold (rng : R) shares rng' :
  deal key value blinding parties threshold rng = Ok (shares, rng') ->
  good_parties parties /\ threshold < length parties /\ ss_threshold shares = threshold
  /\ ss_commitment shares = commit key value blinding
  /\ exists P Q, shares_of key parties shares P Q /\ evaluate P s0 = value /\ evaluate Q s0 = blinding.
Proof.
  unfold deal. destruct (Nat.leb_spec (length parties) threshold) as [|Hlen]; [done|].
  rewrite bind_ok. intros (points & Hp & Hd). apply checked_parties_ok in Hp as [Hg ->].
  destruct (share_with_coefficients_spec value threshold (scalar_of_N <$> parties) rng) as (P & rng1 & E1 & HP & HP0).
  rewrite E1 in Hd.
  destruct (share_with_coefficients_spec blinding threshold (scalar_of_N <$> parties) rng1) as (Q & rng2 & E2 & HQ & HQ0).
  rewrite E2 in Hd. injection Hd as <- _. cbn. split_and!; [done..|]. exists P, Q.
  split; [|done]. unfold shares_of. cbn. rewrite HP0, HQ0. split_and!; [done..|]. intros q Hq.
  rewrite <- !list_fmap_compose.
  split; [apply (collect_zip_lookup (evaluate P ∘ scalar_of_N)) | apply (collect_zip_lookup (evaluate Q ∘ scalar_of_N))];
    try done; apply Hg.
Qed.

Lemma good_subset parties quorum :
  good_parties parties -> NoDup quorum -> quorum <> [] -> (forall q, q ∈ quorum -> q ∈ parties) -> good_parties quorum.
Proof.
  intros (_ & _ & Hv) Hnd Hne Hsub. split_and!; [done..|]. apply Forall_forall. intros q Hq.
  rewrite Forall_forall in Hv. apply Hv, Hsub, Hq.
Qed.

Lemma shares_ladder_at key parties shares P Q q :
  shares_of key parties shares P Q ->
  ladder_at (ss_coefficient_commitments shares) (scalar_of_N q)
  = commit key (evaluate P (scalar_of_N q)) (evaluate Q (scalar_of_N q)).
Proof. intros (HP & HQ & _ & -> & _). apply ladder_commit. lia. Qed.
End Core.

Open Scope nat_scope.

(** ** Collections over a quorum *)

Section CollectOf.
Context {V : Type} (F : PartyId -> V).

Definition entries (quorum : list PartyId) : list (PartyId * V) := (fun q => (q, F q)) <$> quorum.

Lemma entries_keys quorum : (entries quorum).*1 = quorum.
Proof. unfold entries. rewrite <- list_fmap_compose. apply list_fmap_id. Qed.

Lemma collect_of_lookup quorum q : NoDup quorum -> q ∈ quorum -> collect (entries quorum) !! q = Some (F q).
Proof.
  intros Hnd Hq. apply collect_lookup; [by rewrite entries_keys|]. apply list_elem_of_fmap. by exists q.
Qed.

Lemma collect_of_size quorum : NoDup quorum -> size (collect (entries quorum)) = length quorum.
Proof.
  intros Hnd. rewrite (proj2 (collect_size _)) by (by rewrite entries_keys). unfold entries. apply length_fmap.
Qed.

Lemma none_missing quorum : NoDup quorum ->
  existsb (fun q => bool_decide (collect (entries quorum) !! q = None)) quorum = false.
Proof.
  intros Hnd. apply existsb_none. intros q Hq.
  rewrite collect_of_lookup by done. by apply bool_decide_eq_false_2.
Qed.
End CollectOf.

Section Rounds.
Context `{SL : ScalarLaws} `{!ScalarLarge} `{G : !GroupOps} `{L : !GroupLaws} `{T : TranscriptOps} `{Sha256}.
Add Field rounds_field : scalar_field.

Lemma same_point_refl (P : Point) : same_point P P = true.
Proof. by apply bool_decide_eq_true_2. Qed.

(** A node's answer to a challenge, given its shares and nonces. *)
Lemma honest_answer key (k l v r : Scalar) (c : Scalar) :
  commit key (k + c * v)%S (l + c * r)%S = (commit key k l + commit key v r * c)%P.
Proof. unfold commit. module_split; ring. Qed.

(** ** An honest run *)

Section Honest.
Context {R : Type} `{!ScalarRandom R}.
Variables (key : Pedersen) (relation : Relation) (context : bytes) (tr : Transcript).
Variables (parties quorum : list PartyId) (shares : ShareSet) (P Q : list Scalar) (seeds : PartyId -> R).
Hypothesis (Hshares : shares_of key parties shares P Q).
Hypothesis (Hgood : good_parties parties) (Hnd : NoDup quorum).
Hypothesis (Hsub : forall q, q ∈ quorum -> q ∈ parties).
Hypothesis (Hlen : ss_threshold shares < length quorum).
Hypothesis (Hrel : relation = Zero -> evaluate P s0 = s0).

(** Each node holds its own shares. *)
Definition node (q : PartyId) : OpeningNodeContribution :=
  mkOpeningNodeContribution q (default s0 (ss_value_shares shares !! q)) (default s0 (ss_blinding_shares shares !! q)).
Definition prepared (q : PartyId) := prepare_opening_round1_with key (node q) context relation (seeds q).
Definition message (q : PartyId) : OpeningRound1 := (prepared q).1.2.
Definition seal (q : PartyId) : OpeningRound1Seal := (prepared q).1.1.1.
Definition secret (q : PartyId) : OpeningRound1Secret := (prepared q).1.1.2.
Hypothesis (Hdigest : forall q, q ∈ quorum -> os_digest (seal q) <> ZERO32).

Lemma prepared_spec q :
  seal q = mkOpeningRound1Seal q (opening_round1_digest (message q))
  /\ o1_party (message q) = q /\ o1_context_digest (message q) = sha256 context
  /\ o1_nonce_commitment (message q) = commit key (ox_value_nonce (secret q)) (ox_blinding_nonce (secret q))
  /\ ox_party (secret q) = q /\ ox_message_digest (secret q) = os_digest (seal q)
  /\ ox_context_digest (secret q) = sha256 context
  /\ (relation = Zero -> ox_value_nonce (secret q) = s0).
Proof.
  unfold seal, message, secret, prepared, prepare_opening_round1_with.
  destruct (match relation with Zero => _ | General => _ end) as [k rng1] eqn:Hk.
  destruct (scalar_random rng1) as [l rng2]. cbn. split_and!; try done. intros ->. by injection Hk as <- _.
Qed.

Lemma quorum_good : good_parties quorum.
Proof.
  apply (good_subset parties); [done|done| |done]. intros ->. cbn in Hlen. lia.
Qed.

Lemma honest_round1 :
  checked_opening_round1 (message <$> quorum) (seal <$> quorum) quorum context = Ok (collect (entries message quorum)).
Proof.
  unfold checked_opening_round1. rewrite <- !list_fmap_compose.
  rewrite (list_fmap_ext ((fun m => (o1_party m, m)) ∘ message) (fun q => (q, message q))).
  2:{ intros ? q _. cbn. destruct (prepared_spec q) as (_ & -> & _). done. }
  rewrite (list_fmap_ext ((fun s => (os_party s, s)) ∘ seal) (fun q => (q, seal q))).
  2:{ intros ? q _. cbn. destruct (prepared_spec q) as (-> & _). done. }
  fold (entries message quorum) (entries seal quorum). rewrite !collect_of_size, Nat.eqb_refl by done.
  rewrite (proj2 (all_distinct_spec _) Hnd). cbn [negb orb].
  rewrite existsb_none.
  2:{ intros q Hq. rewrite !collect_of_lookup by done. cbn. done. }
  rewrite (proj2 (for_each_ok _ _)); [done|]. apply Forall_forall. intros q Hq.
  unfold check_opening_reveal. rewrite !collect_of_lookup by done.
  destruct (prepared_spec q) as (Hs & _ & Hc & _). rewrite Hc, Hs. cbn [os_digest].
  by rewrite !bool_decide_eq_true_2 by done.
Qed.

(** The combined first move. *)
Definition first_move (w : PartyId -> Scalar) : Point :=
  psum ((fun q => o1_nonce_commitment (message q) * w q)%P <$> quorum).

Lemma honest_challenge w C : weights_of quorum w ->
  make_opening_challenge_with C (message <$> quorum) (seal <$> quorum) quorum context tr relation
  = let (c, tr') := opening_challenge C (first_move w) (frame relation tr) in
    Ok (mkOpeningChallenge quorum (sha256 context) (first_move w) c, tr').
Proof.
  intros Hw. unfold make_opening_challenge_with. rewrite honest_round1. cbn [mbind result_bind].
  rewrite (list_fmap_ext (fun q => (q, nonce_commitment_of (collect (entries message quorum)) q))
    (fun q => (q, o1_nonce_commitment (message q)))).
  2:{ intros i q Hi. unfold nonce_commitment_of. rewrite collect_of_lookup; [done|done|].
      apply list_elem_of_lookup. eauto. }
  rewrite (combine_commitments_of _ quorum w quorum_good Hw). cbn [mbind result_bind]. done.
Qed.

Lemma node_shares q : q ∈ quorum ->
  oc_value_share (node q) = evaluate P (scalar_of_N q) /\ oc_blinding_share (node q) = evaluate Q (scalar_of_N q).
Proof.
  intros Hq. destruct Hshares as (_ & _ & _ & _ & Hq'). destruct (Hq' q (Hsub q Hq)) as [E1 E2].
  unfold node. cbn. by rewrite E1, E2.
Qed.

(** The answer of a node. *)
Definition answer (c : Scalar) (q : PartyId) : OpeningRound2 :=
  mkOpeningRound2 q (ox_value_nonce (secret q) + c * oc_value_share (node q))%S
    (ox_blinding_nonce (secret q) + c * oc_blinding_share (node q))%S.

Lemma honest_answers t c :
  map_res (fun q => answer_opening_challenge (node q) (secret q) (mkOpeningChallenge quorum (sha256 context) t c)) quorum
  = Ok (answer c <$> quorum).
Proof.
  apply map_res_ok, Forall2_fmap_r, Forall_Forall2_diag, Forall_forall. intros q Hq.
  unfold answer_opening_challenge. destruct (prepared_spec q) as (_ & _ & _ & _ & Hp & Hd & Hc & _).
  rewrite Hp, Hd, Hc. cbn [oc_party node och_quorum och_context_digest och_challenge].
  rewrite N.eqb_refl, (bool_decide_eq_true_2 (q ∈ quorum)), (bool_decide_eq_false_2 (os_digest _ = _)),
    (bool_decide_eq_true_2 (sha256 context = _)); auto.
Qed.

Lemma answer_matches c q : q ∈ quorum ->
  sigma_equation (g key) (h key) (o2_value_answer (answer c q)) (o2_blinding_answer (answer c q))
    (o1_nonce_commitment (message q)) (ladder_at (ss_coefficient_commitments shares) (scalar_of_N q)) c.
Proof.
  intros Hq. unfold sigma_equation. cbn [answer o2_value_answer o2_blinding_answer].
  destruct (prepared_spec q) as (_ & _ & _ & -> & _). destruct (node_shares q Hq) as [-> ->].
  rewrite (shares_ladder_at _ _ _ _ _ q Hshares). apply honest_answer.
Qed.

(** The proof of an honest run. *)
Definition assembled_proof (w : PartyId -> Scalar) (c : Scalar) : OpeningProof :=
  mkOpeningProof (first_move w)
    (ssum ((fun q => w q * o2_value_answer (answer c q))%S <$> quorum))
    (ssum ((fun q => w q * o2_blinding_answer (answer c q))%S <$> quorum)).

Lemma assembled_equation w c : weights_of quorum w ->
  sigma_equation (g key) (h key) (op_z_value (assembled_proof w c)) (op_z_blinding (assembled_proof w c))
    (op_t (assembled_proof w c)) (ss_commitment shares) c.
Proof.
  intros Hw. pose proof (combined_equation (g key) (h key) quorum w (ss_coefficient_commitments shares)
    (fun q => o1_nonce_commitment (message q)) (fun q => o2_value_answer (answer c q))
    (fun q => o2_blinding_answer (answer c q)) c Hw) as E.
  destruct Hshares as (HP & HQ & HC & Hl & _).
  replace (ss_commitment shares) with (ladder_at (ss_coefficient_commitments shares) s0).
  - apply E; [|apply answer_matches]. rewrite Hl, length_zip_with. lia.
  - rewrite Hl, ladder_commit by lia. done.
Qed.

(** In the zero relation the value part cancels. *)
Lemma assembled_zero w c : weights_of quorum w -> relation = Zero -> op_z_value (assembled_proof w c) = s0.
Proof.
  intros Hw Hz. cbn [assembled_proof op_z_value].
  rewrite (ssum_ext _ (fun q => w q * evaluate (poly_scale c P) (scalar_of_N q))%S).
  - rewrite (Hw (poly_scale c P)), evaluate_scale, (Hrel Hz) by (rewrite poly_scale_length; destruct Hshares; lia). ring.
  - intros q Hq. cbn [answer o2_value_answer]. destruct (prepared_spec q) as (_ & _ & _ & _ & _ & _ & _ & Hk).
    rewrite (Hk Hz), (proj1 (node_shares q Hq)), evaluate_scale. ring.
Qed.

Lemma assembled_verifies w : weights_of quorum w ->
  let c := (opening_challenge (ss_commitment shares) (first_move w) (frame relation tr)).1 in
  (verify_relation key tr (ss_commitment shares) (assembled_proof w c) relation).1 = true.
Proof.
  intros Hw c. pose proof (assembled_equation w c Hw) as E. pose proof (assembled_zero w c Hw) as Hz.
  unfold verify_relation. destruct relation.
  - apply verify_opening_iff. exact E.
  - apply verify_zero_opening_iff. specialize (Hz eq_refl). split; [done|]. unfold sigma_equation in E.
    rewrite Hz, pmul_0, padd_id_l in E. exact E.
Qed.

Lemma honest_assembly w : weights_of quorum w ->
  let c := (opening_challenge (ss_commitment shares) (first_move w) (frame relation tr)).1 in
  exists tr', assemble_opening_from_rounds_with key (ss_commitment shares) (ss_coefficient_commitments shares)
    (message <$> quorum) (seal <$> quorum) (answer c <$> quorum) quorum context tr relation
  = Ok (assembled_proof w c, tr').
Proof.
  intros Hw c. unfold assemble_opening_from_rounds_with. rewrite (honest_challenge w) by done.
  pose proof (assembled_verifies w Hw) as Hv. fold c in Hv.
  destruct (opening_challenge (ss_commitment shares) (first_move w) (frame relation tr)) as [c' tr'] eqn:Hc.
  assert (c' = c) as Hcc by (unfold c; by rewrite ?Hc). rewrite Hcc. clearbody c. cbn [mbind result_bind och_challenge och_nonce_commitment].
  rewrite <- !list_fmap_compose.
  rewrite (list_fmap_ext ((fun m => (o1_party m, m)) ∘ message) (fun q => (q, message q))).
  2:{ intros ? q _. cbn. destruct (prepared_spec q) as (_ & -> & _). done. }
  change ((fun a => (o2_party a, a)) ∘ answer c) with (fun q => (q, answer c q)).
  fold (entries message quorum) (entries (answer c) quorum).
  destruct Hshares as (HP & HQ & HC & Hl & _).
  assert (exists C0 rest, ss_coefficient_commitments shares = C0 :: rest /\ C0 = ss_commitment shares) as (C0 & rest & Hh & HC0).
  { pose proof (ladder_at_zero (ss_coefficient_commitments shares)) as E.
    rewrite Hl in E at 1. rewrite ladder_commit, <- HC in E by lia.
    destruct (ss_coefficient_commitments shares) as [|C0 rest] eqn:Hcomm; [|by exists C0, rest].
    exfalso. apply (f_equal length) in Hl. rewrite length_zip_with in Hl. cbn in Hl. lia. }
  rewrite Hh. cbn [head]. rewrite HC0, same_point_refl, collect_of_size, Nat.eqb_refl, none_missing by done.
  cbn [negb orb]. rewrite <- HC0, <- Hh.
  rewrite (proj2 (for_each_ok _ _)).
  2:{ apply Forall_forall. intros q Hq. unfold check_opening_answer, nonce_commitment_of.
      rewrite !collect_of_lookup by done.
      rewrite (proj2 (share_commitment_ok _ q _)) by (split; [apply (proj1 (Forall_forall _ _) (proj2 (proj2 quorum_good)) q Hq)|done]).
      cbn [mbind result_bind]. pose proof (answer_matches c q Hq) as E. unfold sigma_equation in E.
      fold (commit key (o2_value_answer (answer c q)) (o2_blinding_answer (answer c q))) in E.
      rewrite E, same_point_refl. done. }
  destruct (lagrange_ok _ quorum_good) as [coefs Hco]. rewrite Hco. cbn [mbind result_bind].
  rewrite !(interpolated_spec quorum coefs w) by done.
  assert (forall part : OpeningRound2 -> Scalar,
    ssum ((fun q => w q * match collect (entries (answer c) quorum) !! q with Some a => part a | None => s0 end)%S <$> quorum)
    = ssum ((fun q => w q * part (answer c q))%S <$> quorum)) as Hpart.
  { intros part. apply ssum_ext. intros q Hq. by rewrite collect_of_lookup. }
  rewrite !Hpart. fold (assembled_proof w c). rewrite HC0, Hv. cbn [negb]. by exists tr'.
Qed.
End Honest.
End Rounds.
