(* ===== verification/JointTheorems.v ===== *)
(** * Joint proofs verify, and the audit names the faulty *)

From stdpp Require Import pretty.
From S2P Require Import Prelude.
From S2P Require Import Interfaces.
From S2P Require Import Curve.
From S2P Require Import Shamir.
From S2P Require Import ShamirTheorems.
From S2P Require Import Sigma.
From S2P Require Import SigmaProofs.
From S2P Require Import OneOfManyProofs.
From S2P Require Import Threshold.
From S2P Require Import Gadgets.
From S2P Require Import JointProver.
From S2P Require Import ThresholdTheorems.

(** ** Joint nonces are shared polynomials *)

Open Scope nat_scope.

Section Nonces.
Context `{SL : ScalarLaws} `{!ScalarLarge} `{G : !GroupOps} `{L : !GroupLaws}.
Add Field nonces_field : scalar_field.
Context {R : Type} `{!ScalarRandom R}.
Variables (key : Pedersen) (parties : list PartyId) (threshold : nat).
Hypothesis (Hgood : good_parties parties).

(** The two polynomials of a slot. *)
Abbreviation SlotPolys := (list Scalar * list Scalar)%type.
Definition slot_ladder (s : SlotPolys) : list Point := zip_with (commit key) s.1 s.2.
Definition slot_at (q : PartyId) (s : SlotPolys) : Scalar * Scalar :=
  (evaluate s.1 (scalar_of_N q), evaluate s.2 (scalar_of_N q)).
Definition sized (s : SlotPolys) : Prop := length s.1 = threshold + 1 /\ length s.2 = threshold + 1.

Lemma deal_slot_spec (rng : R) :
  exists s rng', deal_slot key (scalar_of_N <$> parties) threshold rng
    = ((fun q => slot_at q s) <$> parties, slot_ladder s, rng') /\ sized s.
Proof.
  unfold deal_slot. destruct (scalar_random rng) as [c rng1], (scalar_random rng1) as [d rng2].
  destruct (share_with_coefficients_spec c threshold (scalar_of_N <$> parties) rng2) as (P & rng3 & -> & HP & _).
  destruct (share_with_coefficients_spec d threshold (scalar_of_N <$> parties) rng3) as (Q & rng4 & -> & HQ & _).
  exists (P, Q), rng4. split; [|done]. f_equal. f_equal. clear.
  induction parties as [|q ps IH]; [done|]. cbn. f_equal. exact IH.
Qed.

Lemma deal_slots_spec count : forall rng : R,
  exists ss rng', deal_slots key (scalar_of_N <$> parties) threshold count rng
    = ((fun s => (fun q => slot_at q s) <$> parties) <$> ss, slot_ladder <$> ss, rng')
    /\ length ss = count /\ Forall sized ss.
Proof.
  induction count as [|count IH]; intros rng; [exists [], rng; done|]. cbn [deal_slots].
  destruct (deal_slot_spec rng) as (s & rng1 & -> & Hs). destruct (IH rng1) as (ss & rng2 & -> & Hl & Hss).
  exists (s :: ss), rng2. split_and!; [done | cbn; by rewrite Hl | by constructor].
Qed.

(** What a dealer made. *)
Definition dealt (count : nat) (c : CommittedContributions) (ss : list SlotPolys) : Prop :=
  length ss = count /\ Forall sized ss /\ cc_sealed c = slot_ladder <$> ss
  /\ forall q, q ∈ parties -> cc_deliveries c !! q = Some (slot_at q <$> ss).

Lemma contributions_new_spec dealer count (rng : R) : dealer ∈ parties ->
  exists c ss rng', contributions_new key dealer parties threshold count rng = Ok (c, rng')
    /\ cc_dealer c = dealer /\ dealt count c ss.
Proof.
  intros Hd. unfold contributions_new. rewrite bool_decide_eq_true_2 by done. cbn [negb].
  rewrite (proj2 (checked_parties_ok parties _) (conj Hgood eq_refl)). cbn [mbind result_bind].
  destruct (deal_slots_spec count rng) as (ss & rng' & -> & Hl & Hs).
  eexists _, ss, rng'. split; [reflexivity|]. cbn [cc_dealer]. split; [done|]. split_and!; [done..|].
  intros q Hq. cbn [cc_deliveries]. apply collect_lookup.
  { rewrite (enumerate_keys (fun i => (fun pairs => nth i pairs (s0, s0)) <$> ((fun s => (fun q => slot_at q s) <$> parties) <$> ss))).
    apply Hgood. }
  apply list_elem_of_lookup in Hq as [i Hi]. apply list_elem_of_fmap. exists (i, q).
  split; [|by apply enumerate_lookup]. f_equal. rewrite <- list_fmap_compose. apply list_fmap_ext. intros ? s _.
  cbn. symmetry. apply nth_lookup_Some. by rewrite list_lookup_fmap, Hi.
Qed.

Lemma deal_all_spec count : forall dealers (rng : R), (forall d, d ∈ dealers -> d ∈ parties) ->
  exists cs sss rng', deal_all key parties threshold count dealers rng = Ok (cs, rng')
    /\ cc_dealer <$> cs = dealers /\ Forall2 (dealt count) cs sss.
Proof.
  induction dealers as [|d dealers IH]; intros rng Hd; [exists [], [], rng; split_and!; [done|done|constructor]|].
  cbn [deal_all]. destruct (contributions_new_spec d count rng) as (c & ss & rng1 & -> & Hc & Hdealt); [set_solver|].
  cbn [mbind result_bind]. destruct (IH rng1) as (cs & sss & rng2 & -> & Hcs & Hall); [set_solver|].
  cbn [mbind result_bind]. exists (c :: cs), (ss :: sss), rng2. split_and!; [done | by rewrite fmap_cons, Hc, Hcs | by constructor].
Qed.

(** ** Receiving *)

Lemma valid_member q : q ∈ parties -> valid_party q.
Proof. intros Hq. destruct Hgood as (_ & _ & Hv). rewrite Forall_forall in Hv. by apply Hv. Qed.

Lemma slot_check s q : sized s -> ladder_at (slot_ladder s) (scalar_of_N q) = commit key (slot_at q s).1 (slot_at q s).2.
Proof. intros [H1 H2]. unfold slot_ladder. by rewrite ladder_commit by lia. Qed.

Lemma insert_split (a : list Scalar) n v x rest :
  drop n a = x :: rest -> <[n := v]> a = take n a ++ v :: rest.
Proof.
  revert a. induction n as [|n IH]; intros [|y a] E; cbn in *; try done.
  - by injection E as -> ->.
  - f_equal. by apply IH.
Qed.

Lemma receive_slots_spec q dealer : q ∈ parties -> forall (ss : list SlotPolys) n a b,
  Forall sized ss -> n + length ss = length a -> n + length ss = length b ->
  receive_slots key q dealer (a, b)
    (zip (seq n (length ss)) (zip (slot_at q <$> ss) (slot_ladder <$> ss)))
  = Ok (take n a ++ zip_with (fun x s => x + (slot_at q s).1)%S (drop n a) ss,
        take n b ++ zip_with (fun x s => x + (slot_at q s).2)%S (drop n b) ss).
Proof.
  intros Hq. induction ss as [|s ss IH]; intros n a b Hs Ha Hb; cbn [length] in *.
  - unfold receive_slots. cbn. rewrite !take_ge, !drop_ge by lia. cbn. by rewrite !app_nil_r.
  - apply Forall_cons in Hs as [Hs Hss]. unfold receive_slots. cbn [length seq fmap list_fmap zip zip_with fold_res].
    rewrite (proj2 (share_commitment_ok _ q _)) by (split; [by apply valid_member|done]). cbn [mbind result_bind].
    rewrite slot_check by done. cbn [fst snd slot_at]. rewrite same_point_refl. cbn [negb].
    destruct (drop n a) as [|x ra] eqn:Ea; [apply (f_equal length) in Ea; rewrite length_drop in Ea; cbn in Ea; lia|].
    destruct (drop n b) as [|y rb] eqn:Eb; [apply (f_equal length) in Eb; rewrite length_drop in Eb; cbn in Eb; lia|].
    assert (nth n a s0 = x) as Hx by (rewrite <- (take_drop n a), Ea, app_nth2; rewrite length_take; [by replace (n - n `min` length a) with 0 by lia|lia]).
    assert (nth n b s0 = y) as Hy by (rewrite <- (take_drop n b), Eb, app_nth2; rewrite length_take; [by replace (n - n `min` length b) with 0 by lia|lia]).
    rewrite Hx, Hy.
    etrans; [apply (IH (S n)); [done | rewrite length_insert; lia | rewrite length_insert; lia]|].
    rewrite !(insert_split a n _ x ra Ea), !(insert_split b n _ y rb Eb).
    assert (length (take n a) = n) as Hna by (rewrite length_take; lia).
    assert (length (take n b) = n) as Hnb by (rewrite length_take; lia).
    rewrite !take_app, !drop_app, Hna, Hnb.
    replace (S n - n) with 1 by lia.
    rewrite (take_ge (take n a)), (take_ge (take n b)), (drop_ge (take n a)), (drop_ge (take n b)) by lia.
    cbn. rewrite !take_0, !drop_0. by rewrite <- !app_assoc.
Qed.

(** The sums a recipient holds after some dealers. *)
Definition sums_at (q : PartyId) (count : nat) (sss : list (list SlotPolys)) (part : Scalar * Scalar -> Scalar) : list Scalar :=
  foldl (fun a ss => zip_with (fun x s => x + part (slot_at q s))%S a ss) (replicate count s0) sss.

Lemma sums_length q count sss part : Forall (fun ss => length ss = count) sss -> length (sums_at q count sss part) = count.
Proof.
  unfold sums_at. assert (forall a, length a = count -> Forall (fun ss => length ss = count) sss ->
    length (foldl (fun a ss => zip_with (fun x s => x + part (slot_at q s))%S a ss) a sss) = count) as Hl.
  { induction sss as [|ss sss IH]; intros a Ha Hs; [done|]. apply Forall_cons in Hs as [Hs Hss]. cbn [foldl].
    apply IH; [rewrite length_zip_with; lia|done]. }
  apply Hl. apply length_replicate.
Qed.

Lemma receive_one q count seals c ss seen dn : q ∈ parties -> dealt count c ss ->
  Forall (fun ss => length ss = count) dn -> cc_dealer c ∉ seen -> seals !! cc_dealer c = Some (cc_sealed c) ->
  receive_delivery key q threshold count seals (seen, (sums_at q count dn fst, sums_at q count dn snd))
    (mkPrivateContribution (cc_dealer c) q (default [] (cc_deliveries c !! q)))
  = Ok ({[cc_dealer c]} ∪ seen, (sums_at q count (dn ++ [ss]) fst, sums_at q count (dn ++ [ss]) snd)).
Proof.
  intros Hq (Hlen & Hsized & Hsealed & Hdel) Hdone Hfresh Hseal.
  unfold receive_delivery. cbn [pv_recipient pv_dealer pv_slots]. rewrite N.eqb_refl. cbn [negb].
  rewrite bool_decide_eq_false_2 by done. rewrite Hseal. cbn [ok_or mbind result_bind].
  rewrite (Hdel q Hq), Hsealed. cbn [default id]. rewrite !length_fmap, Hlen, Nat.eqb_refl. cbn [negb orb].
  rewrite existsb_none.
  2:{ intros l Hl. apply list_elem_of_fmap in Hl as (s & -> & Hs). rewrite Forall_forall in Hsized.
      destruct (Hsized s Hs) as [E1 E2]. unfold slot_ladder. rewrite length_zip_with, E1, E2, Nat.min_id, Nat.eqb_refl. done. }
  unfold enumerate.
  replace (length (zip (slot_at q <$> ss) (slot_ladder <$> ss))) with (length ss)
    by (rewrite length_zip_with, !length_fmap; lia).
  rewrite (receive_slots_spec q (cc_dealer c) Hq ss 0) by (done || (rewrite sums_length by done; lia)).
  cbn [take drop app mbind result_bind]. unfold sums_at. by rewrite !foldl_app.
Qed.

Lemma receive_deliveries q count seals : q ∈ parties -> forall cs sss seen done,
  Forall2 (dealt count) cs sss -> Forall (fun ss => length ss = count) done ->
  NoDup (cc_dealer <$> cs) -> (forall d, d ∈ cc_dealer <$> cs -> d ∉ seen) ->
  Forall (fun c => seals !! cc_dealer c = Some (cc_sealed c)) cs ->
  exists seen', fold_res (receive_delivery key q threshold count seals)
    (seen, (sums_at q count done fst, sums_at q count done snd))
    ((fun c => mkPrivateContribution (cc_dealer c) q (default [] (cc_deliveries c !! q))) <$> cs)
  = Ok (seen', (sums_at q count (done ++ sss) fst, sums_at q count (done ++ sss) snd))
  /\ size seen' = size seen + length cs.
Proof.
  intros Hq. induction cs as [|c cs IH]; intros sss seen dn Hall Hdone Hnd Hfresh Hseals.
  - apply Forall2_nil_inv_l in Hall as ->. exists seen. rewrite app_nil_r. cbn. split; [done|lia].
  - apply Forall2_cons_inv_l in Hall as (ss & sss' & Hd & Hall & ->). rewrite fmap_cons in Hnd, Hfresh.
    apply NoDup_cons in Hnd as [Hc Hnd]. apply Forall_cons in Hseals as [Hseal Hseals].
    cbn [fmap list_fmap fold_res]. rewrite (receive_one q count seals c ss) by (done || (apply Hfresh; set_solver)).
    cbn [mbind result_bind].
    destruct (IH sss' ({[cc_dealer c]} ∪ seen) (dn ++ [ss])) as (seen' & E & Hsize); [done| | done | set_solver | done |].
    { apply Forall_app. split; [done|]. constructor; [apply Hd|done]. }
    exists seen'. split.
    + rewrite <- app_assoc in E. exact E.
    + rewrite Hsize, size_union, size_singleton by set_solver. cbn [length]. lia.
Qed.

(** ** The joint nonce *)

(** The sum of the dealers' polynomials of a slot. *)
Definition slot_sum (sss : list (list SlotPolys)) (slot : nat) (part : SlotPolys -> list Scalar) : list Scalar :=
  foldl (fun p ss => poly_add p (part (nth slot ss ([], [])))) (replicate (threshold + 1) s0) sss.

Lemma slot_sum_length sss slot (part : SlotPolys -> list Scalar) :
  (forall ss, ss ∈ sss -> length (part (nth slot ss ([], []))) <= threshold + 1) ->
  length (slot_sum sss slot part) = threshold + 1.
Proof.
  unfold slot_sum. assert (forall p, length p = threshold + 1 ->
    (forall ss, ss ∈ sss -> length (part (nth slot ss ([], []))) <= threshold + 1) ->
    length (foldl (fun p ss => poly_add p (part (nth slot ss ([], [])))) p sss) = threshold + 1) as Hl.
  { induction sss as [|ss sss IH]; intros p Hp Hs; [done|]. cbn [foldl]. apply IH; [|set_solver].
    rewrite poly_add_length. specialize (Hs ss ltac:(set_solver)). lia. }
  apply Hl. apply length_replicate.
Qed.

Lemma sums_slot q count sss slot (pick : Scalar * Scalar -> Scalar) (part : SlotPolys -> list Scalar) :
  (forall s, pick (slot_at q s) = evaluate (part s) (scalar_of_N q)) ->
  Forall (fun ss => length ss = count) sss -> slot < count ->
  sums_at q count sss pick !! slot = Some (evaluate (slot_sum sss slot part) (scalar_of_N q)).
Proof.
  intros Hpick Hall Hslot. unfold sums_at, slot_sum.
  assert (forall a p, a !! slot = Some (evaluate p (scalar_of_N q)) ->
    foldl (fun a ss => zip_with (fun x s => x + pick (slot_at q s))%S a ss) a sss !! slot
    = Some (evaluate (foldl (fun p ss => poly_add p (part (nth slot ss ([], [])))) p sss) (scalar_of_N q))) as Hl.
  { induction Hall as [|ss sss Hss _ IH]; intros a p Ha; [done|]. cbn [foldl]. apply IH.
    destruct (lookup_lt_is_Some_2 ss slot ltac:(lia)) as [s Hs].
    rewrite lookup_zip_with, Ha, Hs. cbn. rewrite evaluate_add, Hpick. by rewrite (nth_lookup_Some _ _ _ _ Hs). }
  apply Hl. rewrite lookup_replicate_2 by done. by rewrite evaluate_replicate.
Qed.

Lemma joint_scalar_nodes_spec count (rng : R) : 0 < count ->
  exists nodes seals rng', joint_scalar_nodes key parties threshold count rng = Ok (nodes, seals, rng')
    /\ nc_party <$> nodes = parties
    /\ forall slot, slot < count -> exists K B, length K = threshold + 1 /\ length B = threshold + 1
         /\ forall node, node ∈ nodes -> nc_share node slot = Some (evaluate K (scalar_of_N (nc_party node)))
              /\ nc_blinding_share node slot = Some (evaluate B (scalar_of_N (nc_party node))).
Proof.
  intros Hcount. unfold joint_scalar_nodes.
  destruct (deal_all_spec count parties rng) as (cs & sss & rng' & -> & Hcs & Hall); [done|].
  cbn [mbind result_bind].
  set (seals := collect ((fun d => (cc_dealer d, cc_sealed d)) <$> cs)).
  assert (((fun d => (cc_dealer d, cc_sealed d)) <$> cs).*1 = parties) as Hkeys.
  { rewrite <- list_fmap_compose. exact Hcs. }
  pose proof Hgood as (Hne & Hnd & _).
  assert (length cs = length parties) as Hlen by (by rewrite <- Hcs, length_fmap).
  assert (size seals = length cs) as Hsize.
  { unfold seals. rewrite (proj2 (collect_size _)) by (by rewrite Hkeys). apply length_fmap. }
  assert (Forall (fun c => seals !! cc_dealer c = Some (cc_sealed c)) cs) as Hseals.
  { apply Forall_forall. intros c Hc. apply collect_lookup; [by rewrite Hkeys|]. apply list_elem_of_fmap. by exists c. }
  assert (Forall (fun ss => length ss = count) sss) as Hsss.
  { apply Forall_forall. intros ss Hss. apply list_elem_of_lookup in Hss as [i Hi].
    destruct (Forall2_lookup_r _ _ _ _ _ Hall Hi) as (c & _ & (Hl & _)). done. }
  set (node_of q := mkNodeContributions q (sums_at q count sss fst) (sums_at q count sss snd)).
  assert (forall q, q ∈ parties -> (deliveries ← map_res (fun dealer =>
      ok_or (delivery_for dealer q) ("dealer " +:+ pretty (cc_dealer dealer) +:+ " omitted party " +:+ pretty q +:+ "'s contribution")) cs;
      receive key q threshold seals deliveries) = Ok (node_of q)) as Hnode.
  { intros q Hq.
    rewrite (proj2 (map_res_ok _ _ ((fun c => mkPrivateContribution (cc_dealer c) q (default [] (cc_deliveries c !! q))) <$> cs))).
    2:{ apply Forall2_fmap_r, Forall_Forall2_diag, Forall_forall. intros c Hc.
        apply list_elem_of_lookup in Hc as [i Hi]. destruct (Forall2_lookup_l _ _ _ _ _ Hall Hi) as (ss & _ & (_ & _ & _ & Hdel)).
        cbn. unfold delivery_for. by rewrite (Hdel q Hq). }
    cbn [mbind result_bind].
    destruct (receive_deliveries q count seals Hq cs sss ∅ [] Hall) as (seen & E & Hs);
      [constructor | by rewrite Hcs | set_solver | done |].
    set (ds := (fun c => mkPrivateContribution (cc_dealer c) q (default [] (cc_deliveries c !! q))) <$> cs) in *.
    assert (exists d ds', ds = d :: ds' /\ length (pv_slots d) = count) as (d & ds' & Hds & Hc0).
    { destruct cs as [|c cs']; [destruct parties; [done|discriminate]|].
      eexists _, _. split; [reflexivity|]. apply Forall2_cons_inv_l in Hall as (ss & ? & (Hl & _ & _ & Hdel) & _).
      cbn [pv_slots]. rewrite (Hdel q Hq). cbn [default id]. rewrite length_fmap. exact Hl. }
    unfold receive. rewrite Hds, Hc0. destruct (Nat.eqb_spec count 0) as [|_]; [lia|]. rewrite <- Hds.
    unfold sums_at in E at 1 2. cbn [foldl] in E. rewrite E. cbn [mbind result_bind app].
    match goal with |- context [?a =? ?b] => destruct (Nat.eqb_spec a b) as [_|Hneq] end; [done|].
    exfalso. apply Hneq. rewrite Hs, size_empty. symmetry. exact Hsize. }
  exists (node_of <$> parties), seals, rng'. split.
  - rewrite (proj2 (map_res_ok _ _ (node_of <$> parties))); [done|].
    apply Forall2_fmap_r, Forall_Forall2_diag, Forall_forall. exact Hnode.
  - split; [rewrite <- list_fmap_compose; apply list_fmap_id|]. intros slot Hslot.
    exists (slot_sum sss slot fst), (slot_sum sss slot snd).
    assert (forall ss, ss ∈ sss -> sized (nth slot ss ([], []))) as Hsz.
    { intros ss Hss. apply list_elem_of_lookup in Hss as [i Hi].
      destruct (Forall2_lookup_r _ _ _ _ _ Hall Hi) as (c & _ & (Hl & Hs & _)).
      rewrite Forall_forall in Hs. apply Hs, list_elem_of_In, nth_In. lia. }
    split_and!.
    + apply slot_sum_length. intros ss Hss. destruct (Hsz ss Hss). lia.
    + apply slot_sum_length. intros ss Hss. destruct (Hsz ss Hss). lia.
    + intros node Hn. apply list_elem_of_fmap in Hn as (q & -> & Hq).
      unfold nc_share, nc_blinding_share. cbn [nc_shares nc_blinding_shares nc_party node_of].
      split; apply sums_slot; done.
Qed.
End Nonces.

Open Scope nat_scope.

(** ** Collections of results *)

Lemma collect_res_entries {E V A} (f : A -> result E (PartyId * V)) (F : PartyId -> V) l quorum :
  map_res f l = Ok (entries F quorum) -> collect_res f l = Ok (collect (entries F quorum)).
Proof. intros Hf. unfold collect_res. by rewrite Hf. Qed.

Lemma map_res_members {E A B} (f : A -> result E B) (F : A -> B) l :
  (forall a, a ∈ l -> f a = Ok (F a)) -> map_res f l = Ok (F <$> l).
Proof.
  intros Hf. apply map_res_ok, Forall2_fmap_r, Forall_Forall2_diag, Forall_forall. exact Hf.
Qed.

(** A map that is defined exactly on a quorum. *)
Lemma map_is_collect {V} (m : gmap PartyId V) (F : PartyId -> V) quorum :
  NoDup quorum -> (forall q, q ∈ quorum -> m !! q = Some (F q)) -> (forall q, q ∉ quorum -> m !! q = None) ->
  m = collect (entries F quorum).
Proof.
  intros Hnd Hin Hout. apply map_eq. intros q. destruct (decide (q ∈ quorum)) as [Hq|Hq].
  - by rewrite Hin, collect_of_lookup.
  - rewrite Hout by done. symmetry. apply collect_fresh. by rewrite entries_keys.
Qed.

Lemma replace_lookup `{ScalarOps} (l : list (PartyId * (Scalar * Scalar))) q : NoDup l.*1 -> forall m : gmap PartyId (Scalar * Scalar),
  foldl (fun m '(party, z) => if bool_decide (is_Some (m !! party)) then <[party := z]> m else m) m l !! q
  = match m !! q with None => None | Some z => Some (default z (collect l !! q)) end.
Proof.
  induction l as [|[p z] l IH] using rev_ind; intros Hnd m.
  { cbn. by destruct (m !! q). }
  rewrite fmap_app in Hnd. apply NoDup_app in Hnd as (Hnd & _ & _).
  rewrite foldl_app, collect_snoc. cbn [foldl fst snd]. set (m' := foldl _ m l).
  assert (m' !! p = match m !! p with None => None | Some z => Some (default z (collect l !! p)) end \/ p <> q) as Hp.
  { destruct (decide (p = q)) as [->|]; [left; by apply IH | by right]. }
  specialize (IH Hnd m). fold m' in IH. destruct (decide (p = q)) as [->|Hne].
  - destruct Hp as [Hp|]; [|done]. rewrite lookup_insert_eq. case_bool_decide as Hs.
    + rewrite lookup_insert_eq. rewrite Hp in Hs. destruct (m !! q); [done|]. by destruct Hs.
    + rewrite Hp. destruct (m !! q); [|done]. exfalso. apply Hs. rewrite Hp. eauto.
  - rewrite lookup_insert_ne by done. case_bool_decide; [|done]. by rewrite lookup_insert_ne.
Qed.

Lemma replace_faulty_lookup `{ScalarOps} faulty (m : gmap PartyId (Scalar * Scalar)) q :
  replace_faulty faulty m !! q
  = match m !! q with None => None | Some z => Some (default z (faulty ≫= fun f => f !! q)) end.
Proof.
  unfold replace_faulty. destruct faulty as [f|]; [|by destruct (m !! q)]. cbn.
  rewrite replace_lookup by apply party_iter_nodup. destruct (m !! q); [|done]. do 2 f_equal.
  destruct (f !! q) as [z|] eqn:Hf.
  - apply collect_lookup; [apply party_iter_nodup | by apply party_iter_elem].
  - apply collect_fresh. intros Hin. apply list_elem_of_fmap in Hin as ([q' z] & -> & Hz).
    apply party_iter_elem in Hz. cbn in Hf. congruence.
Qed.

Section Joint.
Context `{SL : ScalarLaws} `{!ScalarLarge} `{G : !GroupOps} `{L : !GroupLaws} `{T : TranscriptOps}.
Add Field joint_field : scalar_field.

(** ** The proof assembled from shares of two polynomials *)

Definition shares_proof key quorum (w k rho : PartyId -> Scalar) (z : PartyId -> Scalar * Scalar) : OpeningProof :=
  mkOpeningProof (psum ((fun q => commit key (k q) (rho q) * w q)%P <$> quorum))
    (ssum ((fun q => w q * (z q).1)%S <$> quorum)) (ssum ((fun q => w q * (z q).2)%S <$> quorum)).

Lemma answers_verify key quorum w k rho z ladder tr :
  let proof := shares_proof key quorum w k rho z in
  let C := ladder_at ladder s0 in
  let c := (opening_challenge C (op_t proof) tr).1 in
  weights_of quorum w -> length ladder <= length quorum ->
  (forall q, q ∈ quorum -> commit key (z q).1 (z q).2
     = commit key (k q) (rho q) + ladder_at ladder (scalar_of_N q) * c)%P ->
  (verify_opening key tr C proof).1 = true.
Proof.
  intros proof C c Hw Hlen Hz. apply verify_opening_iff.
  apply (combined_equation (g key) (h key) quorum w ladder (fun q => commit key (k q) (rho q))
    (fun q => (z q).1) (fun q => (z q).2) c Hw Hlen). exact Hz.
Qed.

Lemma combine_entries (F : PartyId -> Point) quorum w :
  good_parties quorum -> weights_of quorum w ->
  combine_commitments (collect (entries F quorum)) = Ok (psum ((fun q => F q * w q)%P <$> quorum)).
Proof. apply combine_commitments_of. Qed.

(** The honest answers. *)
Definition honest (k rho : PartyId -> Scalar) (P Q : list Scalar) (c : Scalar) (q : PartyId) : Scalar * Scalar :=
  (k q + c * evaluate P (scalar_of_N q), rho q + c * evaluate Q (scalar_of_N q))%S.

Lemma honest_commit key k rho P Q c q :
  commit key (honest k rho P Q c q).1 (honest k rho P Q c q).2
  = (commit key (k q) (rho q) + commit key (evaluate P (scalar_of_N q)) (evaluate Q (scalar_of_N q)) * c)%P.
Proof. apply honest_answer. Qed.

Lemma honest_verifies key quorum w k rho P Q relation tr :
  let C := commit key (evaluate P s0) (evaluate Q s0) in
  let t := psum ((fun q => commit key (k q) (rho q) * w q)%P <$> quorum) in
  let c := (opening_challenge C t (frame relation tr)).1 in
  weights_of quorum w -> length P <= length quorum -> length Q = length P ->
  (relation = Zero -> evaluate P s0 = s0 /\ forall q, q ∈ quorum -> k q = s0) ->
  (verify_relation key tr C (shares_proof key quorum w k rho (honest k rho P Q c)) relation).1 = true.
Proof.
  intros C t c Hw HP HQ Hz.
  assert (sigma_equation (g key) (h key) (ssum ((fun q => w q * (honest k rho P Q c q).1)%S <$> quorum))
    (ssum ((fun q => w q * (honest k rho P Q c q).2)%S <$> quorum)) t C c) as E.
  { replace C with (ladder_at (zip_with (commit key) P Q) s0) by (by rewrite ladder_commit).
    apply (combined_equation _ _ quorum w (zip_with (commit key) P Q) (fun q => commit key (k q) (rho q))); [done| |].
    - rewrite length_zip_with. lia.
    - intros q _. rewrite ladder_commit by done. apply honest_commit. }
  unfold verify_relation. destruct relation.
  - apply verify_opening_iff. exact E.
  - apply verify_zero_opening_iff. destruct (Hz eq_refl) as [HP0 Hk].
    assert (ssum ((fun q => w q * (honest k rho P Q c q).1)%S <$> quorum) = s0) as Hz0.
    { rewrite (ssum_ext _ (fun q => w q * evaluate (poly_scale c P) (scalar_of_N q))%S).
      - rewrite (Hw (poly_scale c P)), evaluate_scale, HP0 by (by rewrite poly_scale_length). ring.
      - intros q Hq. cbn. rewrite (Hk q Hq), evaluate_scale. ring. }
    cbn [shares_proof op_z_value op_z_blinding op_t]. split; [done|].
    unfold sigma_equation in E. rewrite Hz0, pmul_0, padd_id_l in E. exact E.
Qed.

(** ** Nonces of a quorum *)

Section Provers.
Context {R : Type} `{!ScalarRandom R}.

Lemma nonce_new_spec key quorum threshold relation (rng : R) : good_parties quorum ->
  exists nonce rng' (k rho : PartyId -> Scalar),
    nonce_new_with key quorum threshold relation rng = Ok (nonce, rng')
    /\ (forall q, q ∈ quorum -> nonce_node nonce q = Some (mkNodeNonce q (k q) (rho q)))
    /\ (relation = Zero -> forall q, k q = s0).
Proof.
  intros Hg. unfold nonce_new_with.
  set (slots := match relation with Zero => 1 | General => 2 end).
  destruct (joint_scalar_nodes_spec key quorum threshold Hg slots rng) as (nodes & seals & rng' & -> & Hn & Hs).
  { unfold slots. destruct relation; lia. }
  cbn [mbind result_bind].
  assert (exists k rho : PartyId -> Scalar, (relation = Zero -> forall q, k q = s0) /\ forall node, node ∈ nodes ->
    (match relation with
     | Zero => rho ← ok_or (nc_share node 0) "joint nonce omitted its blinding slot";
         Ok (mkNodeNonce (nc_party node) s0 rho)
     | General => k ← ok_or (nc_share node 0) "joint nonce omitted its value slot";
         rho ← ok_or (nc_share node 1) "joint nonce omitted its blinding slot";
         Ok (mkNodeNonce (nc_party node) k rho)
     end) = Ok (mkNodeNonce (nc_party node) (k (nc_party node)) (rho (nc_party node)))) as (k & rho & Hk & Hf).
  { destruct relation.
    - destruct (Hs 0 ltac:(unfold slots; lia)) as (K & B0 & _ & _ & Hs0). destruct (Hs 1 ltac:(unfold slots; lia)) as (B & B1 & _ & _ & Hs1).
      exists (fun q => evaluate K (scalar_of_N q)), (fun q => evaluate B (scalar_of_N q)). split; [done|].
      intros node Hnode. rewrite (proj1 (Hs0 node Hnode)), (proj1 (Hs1 node Hnode)). done.
    - destruct (Hs 0 ltac:(unfold slots; lia)) as (B & B0 & _ & _ & Hs0).
      exists (fun _ => s0), (fun q => evaluate B (scalar_of_N q)). split; [done|].
      intros node Hnode. rewrite (proj1 (Hs0 node Hnode)). done. }
  rewrite (map_res_members _ (fun node => mkNodeNonce (nc_party node) (k (nc_party node)) (rho (nc_party node)))) by done.
  cbn [mbind result_bind]. eexists _, rng', k, rho. split; [reflexivity|]. split; [|done].
  intros q Hq. unfold nonce_node. cbn [jn_nodes].
  destruct (List.find _ _) as [node|] eqn:Hfind.
  - apply find_some in Hfind as [Hin Heq]. apply N.eqb_eq in Heq. apply list_elem_of_In, list_elem_of_fmap in Hin as (n & -> & _).
    cbn [nn_party] in Heq. by rewrite Heq.
  - exfalso. rewrite <- Hn in Hq. apply list_elem_of_fmap in Hq as (n & -> & Hin).
    pose proof (find_none _ _ Hfind (mkNodeNonce (nc_party n) (k (nc_party n)) (rho (nc_party n)))) as Hnone.
    cbn [nn_party] in Hnone. rewrite N.eqb_refl in Hnone. discriminate Hnone.
    apply list_elem_of_In, list_elem_of_fmap. by exists n.
Qed.

(** What the joint prover returns, with the replaced answers of faulty nodes. *)
Lemma joint_opening_spec key parties shares P Q quorum relation tr (rng : R) :
  shares_of key parties shares P Q -> good_parties quorum -> (forall q, q ∈ quorum -> q ∈ parties) ->
  exists w k rho sealed tr' rng',
    let t := psum ((fun q => commit key (k q) (rho q) * w q)%P <$> quorum) in
    let c := (opening_challenge (ss_commitment shares) t (frame relation tr)).1 in
    weights_of quorum w /\ (relation = Zero -> forall q, k q = s0) /\ forall faulty,
    let z q := default (honest k rho P Q c q) (faulty ≫= fun f => f !! q) in
    joint_prove_opening_with key shares quorum tr faulty relation rng
    = Ok (shares_proof key quorum w k rho z,
          mkOpeningAssemblyTranscript quorum (collect (entries (fun q => commit key (k q) (rho q)) quorum))
            (collect (entries z quorum)) c
            (List.filter (fun q => negb (same_point (commit key (z q).1 (z q).2)
               (commit key (honest k rho P Q c q).1 (honest k rho P Q c q).2))) quorum) sealed, tr', rng').
Proof.
  intros Hsh Hg Hsub. destruct (weights_exist quorum Hg) as [w Hw]. pose proof Hg as (_ & Hnd & Hval).
  destruct (nonce_new_spec key quorum (ss_threshold shares) relation rng Hg) as (nonce & rng' & k & rho & Hn & Hnode & Hk).
  set (t := psum ((fun q => commit key (k q) (rho q) * w q)%P <$> quorum)).
  set (c := (opening_challenge (ss_commitment shares) t (frame relation tr)).1).
  exists w, k, rho, (jn_sealed nonce), (opening_challenge (ss_commitment shares) t (frame relation tr)).2, rng'.
  cbv zeta. fold t. fold c. split; [done|]. split; [done|]. intros faulty.
  set (z q := default (honest k rho P Q c q) (faulty ≫= fun f => f !! q)).
  unfold joint_prove_opening_with. rewrite Hn. cbn [mbind result_bind].
  rewrite (collect_res_entries _ (fun q => commit key (k q) (rho q)) quorum quorum).
  2:{ apply map_res_members. intros q Hq. unfold node_commitment. by rewrite (Hnode q Hq). }
  cbn [mbind result_bind]. rewrite (combine_entries _ quorum w Hg Hw). cbn [mbind result_bind]. fold t.
  destruct (opening_challenge (ss_commitment shares) t (frame relation tr)) as [c' tr'] eqn:Hc.
  assert (c' = c) as Hcc by (unfold c; by rewrite ?Hc). rewrite Hcc. cbn [snd].
  rewrite (collect_res_entries _ (honest k rho P Q c) quorum quorum).
  2:{ apply map_res_members. intros q Hq. unfold node_response.
      destruct Hsh as (_ & _ & _ & _ & Hq'). destruct (Hq' q (Hsub q Hq)) as [E1 E2].
      rewrite E1, E2, (Hnode q Hq). done. }
  cbn [mbind result_bind].
  assert (replace_faulty faulty (collect (entries (honest k rho P Q c) quorum)) = collect (entries z quorum)) as ->.
  { apply map_is_collect; [done| |].
    - intros q Hq. rewrite replace_faulty_lookup, collect_of_lookup by done. done.
    - intros q Hq. rewrite replace_faulty_lookup, collect_fresh; [done|]. by rewrite entries_keys. }
  assert (party_iter (collect (entries z quorum)) ≡ₚ entries z quorum) as Hperm by (apply collect_iter; by rewrite entries_keys).
  rewrite (combine_responses_spec _ w).
  2:{ unfold party_keys. eapply good_parties_perm; [|exact Hg]. rewrite Hperm. by rewrite entries_keys. }
  2:{ unfold party_keys. eapply weights_perm; [|exact Hw]. rewrite Hperm. by rewrite entries_keys. }
  cbn [mbind result_bind]. do 3 f_equal. f_equal.
  - unfold shares_proof. fold t. f_equal; rewrite Hperm; unfold entries; by rewrite <- list_fmap_compose.
  - f_equal. unfold audit_partials. apply filter_extensional. intros q Hq.
    unfold bad_partial. rewrite !collect_of_lookup by done.
    rewrite (proj2 (share_commitment_ok _ q _)) by (split; [by apply (proj1 (Forall_forall _ _) Hval)|done]).
    rewrite (shares_ladder_at _ _ _ _ _ q Hsh), <- honest_commit. fold (z q). by destruct (z q).
Qed.
End Provers.
End Joint.
