(* ===== verification/ProductProofs.v ===== *)
(** * Rounds of a threshold product proof

    An honest quorum that holds shares matching a product statement assembles
    a product proof that verifies. *)

From S2P Require Import Prelude.
From S2P Require Import Interfaces.
From S2P Require Import Curve.
From S2P Require Import Shamir.
From S2P Require Import ShamirTheorems.
From S2P Require Import Sigma.
From S2P Require Import SigmaProofs.
From S2P Require Import OneOfManyProofs.
From S2P Require Import Threshold.
From S2P Require Import Gadgets.
From S2P Require Import JointProver.
From S2P Require Import ThresholdTheorems.
From S2P Require Import JointTheorems.

(** ** Ladders interpolated in the exponent

    A short ladder is determined by its values at enough parties, and
    [coefficient_commitments_from_evaluations] returns exactly the ladder that
    fits every evaluation. *)

Open Scope nat_scope.

Section Ladders.
Context `{SL : ScalarLaws} `{!ScalarLarge} `{G : !GroupOps} `{L : !GroupLaws}.
Add Field ladders_field : scalar_field.
Implicit Types (ladder : list Point) (x : Scalar).

Definition zero_ladder ladder : Prop := Forall (fun P => P = pid) ladder.

Lemma pmul_eq_id (P : Point) (s : Scalar) : (P * s = pid)%P -> s <> s0 -> P = pid.
Proof.
  intros E Hs. transitivity (P * s * sinv s)%P; [module_split; field; done|]. rewrite E. module_split; ring.
Qed.

(** Division by [X - r]. *)
Fixpoint synthetic_points ladder (r : Scalar) : list Point * Point :=
  match ladder with
  | [] => ([], pid)
  | P :: ladder => let (q, v) := synthetic_points ladder r in (v :: q, (P + v * r)%P)
  end.

Lemma synthetic_points_value ladder r : (synthetic_points ladder r).2 = ladder_at ladder r.
Proof.
  induction ladder as [|P ladder IH]; [done|]. cbn [synthetic_points].
  destruct (synthetic_points ladder r) as [q v]. cbn in *. by rewrite IH.
Qed.

Lemma synthetic_points_spec ladder r x :
  ladder_at ladder x = (ladder_at (synthetic_points ladder r).1 x * (x - r)%S + ladder_at ladder r)%P.
Proof.
  induction ladder as [|P ladder IH]; [cbn; module_split; ring|]. cbn [synthetic_points].
  pose proof (synthetic_points_value ladder r) as Hv.
  destruct (synthetic_points ladder r) as [q v]. cbn [fst snd] in *.
  rewrite !ladder_at_cons, IH, Hv. module_split; ring.
Qed.

Lemma synthetic_points_last ladder r : ladder <> [] -> exists q, (synthetic_points ladder r).1 = q ++ [pid].
Proof.
  induction ladder as [|P ladder IH]; [done|]. intros _. cbn [synthetic_points]. destruct ladder as [|Q ladder].
  - cbn. by exists [].
  - destruct IH as [q Hq]; [done|]. destruct (synthetic_points (Q :: ladder) r) as [q' v]. cbn in *.
    exists (v :: q). by rewrite Hq.
Qed.

Lemma synthetic_points_length ladder r : length (synthetic_points ladder r).1 = length ladder.
Proof. induction ladder as [|P ladder IH]; [done|]. cbn. destruct (synthetic_points ladder r). cbn in *. lia. Qed.

Lemma synthetic_points_zero ladder r :
  zero_ladder (synthetic_points ladder r).1 -> ladder_at ladder r = pid -> zero_ladder ladder.
Proof.
  induction ladder as [|P ladder IH]; [constructor|]. cbn [synthetic_points]. intros Hz He.
  pose proof (synthetic_points_value ladder r) as Hv.
  destruct (synthetic_points ladder r) as [q v]. cbn [fst snd] in *.
  apply Forall_cons in Hz as [Hv0 Hz]. rewrite ladder_at_cons, <- Hv, Hv0 in He. constructor.
  - rewrite <- He. module_split; ring.
  - apply IH; [done|]. by rewrite <- Hv.
Qed.

Lemma ladder_at_snoc_id q x : ladder_at (q ++ [pid]) x = ladder_at q x.
Proof.
  induction q as [|P q IH]; [cbn; module_split; ring|]. cbn [app]. by rewrite !ladder_at_cons, IH.
Qed.

Lemma ladder_roots ladder : forall rs,
  NoDup rs -> length ladder <= length rs -> Forall (fun r => ladder_at ladder r = pid) rs -> zero_ladder ladder.
Proof.
  remember (length ladder) as n eqn:Hn. revert ladder Hn.
  induction n as [|n IH]; intros ladder Hn rs Hnd Hlen Hroots; [destruct ladder; [constructor|done]|].
  destruct rs as [|r rs]; [cbn in Hlen; lia|].
  apply Forall_cons in Hroots as [Hr Hroots]. apply NoDup_cons in Hnd as [Hnr Hnd].
  destruct (synthetic_points_last ladder r) as [q Hq]; [intros E; rewrite E in Hn; discriminate Hn|].
  assert (length q = n) as Hql.
  { pose proof (synthetic_points_length ladder r) as E. rewrite Hq, length_app in E. cbn in E. lia. }
  apply (synthetic_points_zero ladder r); [|done]. rewrite Hq. apply Forall_app. split; [|by repeat constructor].
  apply (IH q (eq_sym Hql) rs Hnd); [cbn in Hlen; lia|].
  apply Forall_forall. intros x Hx. rewrite Forall_forall in Hroots. specialize (Hroots x Hx).
  rewrite (synthetic_points_spec ladder r x), Hr, padd_id, Hq, ladder_at_snoc_id in Hroots.
  apply (pmul_eq_id _ _ Hroots). apply ssub_neq_0. by intros ->.
Qed.

(** Two ladders of the same length that agree on enough points are equal. *)
Lemma ladder_unique l l' rs :
  NoDup rs -> length l = length l' -> length l <= length rs ->
  Forall (fun r => ladder_at l r = ladder_at l' r) rs -> l = l'.
Proof.
  intros Hnd Hlen Hle Hag.
  assert (forall x, ladder_at (zip_with (fun a b => a - b)%P l l') x = (ladder_at l x - ladder_at l' x)%P) as Hsub.
  { clear Hag Hle. revert l' Hlen. induction l as [|a l IH]; intros [|b l'] E x; try done; [cbn; module_split; ring|].
    injection E as E. cbn [zip_with]. rewrite !ladder_at_cons, (IH l' E). module_split; ring. }
  assert (zero_ladder (zip_with (fun a b => a - b)%P l l')) as Hz.
  { apply (ladder_roots _ rs Hnd); [rewrite length_zip_with; lia|].
    eapply Forall_impl; [exact Hag|]. intros x Hx. cbn beta in Hx. rewrite Hsub, Hx. apply padd_opp. }
  clear Hag Hle Hsub. revert l' Hlen Hz. induction l as [|a l IH]; intros [|b l'] E Hz; try done.
  injection E as E. cbn [zip_with] in Hz. apply Forall_cons in Hz as [Hab Hz]. f_equal; [|by apply IH].
  by apply psub_eq_id.
Qed.

(** ** Accumulating Lagrange terms *)

Lemma ladder_at_insert l k V z : k < length l ->
  ladder_at (<[k := V]> l) z = (ladder_at l z + (V - nth k l pid) * spow z k)%P.
Proof.
  revert k. induction l as [|P l IH]; intros [|k] Hk; cbn [length] in Hk; [lia..| |].
  - cbn [insert list_insert nth]. rewrite !ladder_at_cons. cbn [spow]. module_split; ring.
  - change (<[S k := V]> (P :: l)) with (P :: <[k := V]> l). rewrite !ladder_at_cons, IH by lia. cbn [nth spow].
    module_split; ring.
Qed.

Lemma ladder_accumulate (E : Point) (b : list Scalar) (w z : Scalar) : forall s l,
  s + length b <= length l ->
  let r := foldl (fun r '(k, c) => <[k := (nth k r pid + E * (c * w)%S)%P]> r) l (zip (seq s (length b)) b) in
  length r = length l /\ ladder_at r z = (ladder_at l z + E * (evaluate b z * w * spow z s)%S)%P.
Proof.
  induction b as [|c b IH]; intros s l Hl; cbn [length] in Hl.
  - cbn [length seq zip zip_with foldl]. split; [done|].
    change (evaluate ([] : list Scalar) z) with s0. module_split; ring.
  - cbn [length seq zip zip_with foldl].
    destruct (IH (S s) (<[s := (nth s l pid + E * (c * w)%S)%P]> l)) as [Hlen Hev]; [rewrite length_insert; lia|].
    split; [etrans; [exact Hlen | apply length_insert]|]. etrans; [exact Hev|].
    rewrite ladder_at_insert, evaluate_cons by lia. cbn [spow]. module_split; ring.
Qed.

(** The value of the interpolated ladder. *)
Lemma ladder_terms (points : list Scalar) (evaluations : gmap PartyId Point) z : forall (l : list (nat * PartyId)) ladder,
  (forall i q, (i, q) ∈ l -> i < length points) -> length points <= length ladder ->
  let r := foldl (add_ladder_term points evaluations) ladder l in
  length r = length ladder /\
  ladder_at r z = (ladder_at ladder z + psum ((fun '(i, q) => default pid (evaluations !! q)
    * lagrange_term points (<[i := s1]> (replicate (length points) s0)) z (i, nth i points s0))%P <$> l))%P.
Proof.
  induction l as [|[i q] l IH]; intros ladder Hl Hlen; [cbn; split; [done|]; by rewrite padd_id|].
  cbn [foldl]. assert (i < length points) as Hi by (apply (Hl i q); set_solver).
  assert (length (add_ladder_term points evaluations ladder (i, q)) = length ladder
    /\ ladder_at (add_ladder_term points evaluations ladder (i, q)) z
       = (ladder_at ladder z + default pid (evaluations !! q)
          * lagrange_term points (<[i := s1]> (replicate (length points) s0)) z (i, nth i points s0))%P) as [H1 H2].
  { unfold add_ladder_term. pose proof (interpolate_basis_spec points i (nth i points s0) z) as Hb.
    destruct (interpolate_basis points i (nth i points s0)) as [basis denominator].
    destruct Hb as (Hbl & Hbe & ->).
    assert (length basis <= length ladder) as Hle.
    { rewrite Hbl. destruct (lookup_lt_is_Some_2 points i Hi) as [x Hx]. rewrite length_delete by eauto. lia. }
    destruct (ladder_accumulate (default pid (evaluations !! q)) basis
      (sinv (sprod ((fun x => nth i points s0 - x)%S <$> delete i points))) z 0 ladder Hle) as [E1 E2].
    split; [exact E1|]. etrans; [exact E2|]. unfold lagrange_term.
    rewrite nth_insert, decide_True, Hbe by (done || (rewrite length_replicate; lia)). cbn [spow]. module_split; ring. }
  destruct (IH (add_ladder_term points evaluations ladder (i, q))) as [Hlen' Hev]; [set_solver | lia |].
  split; [etrans; [exact Hlen'|exact H1]|]. etrans; [exact Hev|]. rewrite H2, fmap_cons, psum_cons. by rewrite padd_assoc.
Qed.

(** A Lagrange term at one of the points is one or zero. *)
Lemma lagrange_unit points i j x :
  NoDup points -> points !! j = Some x -> i < length points ->
  lagrange_term points (<[i := s1]> (replicate (length points) s0)) x (i, nth i points s0)
  = if decide (i = j) then s1 else s0.
Proof.
  intros Hnd Hj Hi. destruct (lookup_lt_is_Some_2 points i Hi) as [xi Hxi].
  rewrite (nth_lookup_Some _ _ _ _ Hxi). unfold lagrange_term.
  rewrite nth_insert, decide_True by (done || (rewrite length_replicate; lia)). case_decide as Hij.
  - subst j. rewrite Hxi in Hj. injection Hj as ->.
    assert (sprod ((fun y => x - y)%S <$> delete i points) <> s0) as Hnz.
    { apply sprod_nonzero. intros y Hy. apply ssub_neq_0. intros <-. by apply (delete_not_elem points i x Hnd Hxi). }
    field. exact Hnz.
  - rewrite (sprod_zero (fun y => x - y)%S (delete i points) x); [ring | by apply (delete_elem points i j) | ring].
Qed.

Lemma interpolated_ladder (evaluations : gmap PartyId Point) selected j q :
  good_parties selected -> selected !! j = Some q ->
  ladder_at (foldl (add_ladder_term (scalar_of_N <$> selected) evaluations) (replicate (length selected) pid)
    (enumerate selected)) (scalar_of_N q) = default pid (evaluations !! q).
Proof.
  intros Hg Hj. pose proof (party_points_nodup _ Hg) as Hnd. set (points := scalar_of_N <$> selected) in *.
  assert (length points = length selected) as Hlen by (unfold points; by rewrite length_fmap).
  destruct (ladder_terms points evaluations (scalar_of_N q) (enumerate selected) (replicate (length selected) pid)) as [_ ->].
  { intros i p Hip. apply enumerate_lookup, lookup_lt_Some in Hip. lia. }
  { rewrite length_replicate. lia. }
  assert (ladder_at (replicate (length selected) pid) (scalar_of_N q) = pid) as ->.
  { generalize (length selected). induction n as [|n IH]; [done|]. cbn [replicate]. rewrite ladder_at_cons, IH. module_split; ring. }
  rewrite padd_id_l.
  rewrite (psum_ext _ (fun '(i, p) => default pid (evaluations !! p) * (if decide (i = j) then s1 else s0))%P).
  2:{ intros [i p] Hip. apply enumerate_lookup, lookup_lt_Some in Hip.
      rewrite (lagrange_unit points i j (scalar_of_N q)); [done|done| |lia]. unfold points. by rewrite list_lookup_fmap, Hj. }
  clear -Hj L SL. unfold enumerate. replace j with (0 + j) by lia. revert Hj. generalize 0 as s. revert j.
  induction selected as [|p selected IH]; intros j s Hj; [done|]. cbn [length seq zip zip_with]. rewrite fmap_cons, psum_cons.
  destruct j as [|j].
  - injection Hj as ->. rewrite decide_True by lia.
    rewrite (psum_ext _ (fun _ => pid * s0)%P).
    + rewrite psum_scalar, pmul_pid, pmul_1. apply padd_id.
    + intros [i p'] Hip. apply enumerate_from_lookup in Hip as [Hi _]. rewrite decide_False by lia. rewrite !pmul_0. done.
  - rewrite decide_False by lia. cbn in Hj. rewrite <- (IH j (S s) Hj), pmul_0, padd_id_l.
    apply psum_ext. intros [i p'] _. by rewrite Nat.add_succ_r.
Qed.
Lemma interpolated_ladder_length (evaluations : gmap PartyId Point) points l ladder :
  (forall i q, (i, q) ∈ l -> i < length points) -> length points <= length ladder ->
  length (foldl (add_ladder_term points evaluations) ladder l) = length ladder.
Proof. intros Hl Hlen. by destruct (ladder_terms points evaluations s0 l ladder Hl Hlen). Qed.

(** The parties selected for the interpolation. *)
Lemma selected_parties (evaluations : gmap PartyId Point) t :
  t + 1 <= size evaluations -> (forall q P, evaluations !! q = Some P -> valid_party q) ->
  good_parties (take (t + 1) (party_keys evaluations))
  /\ length (take (t + 1) (party_keys evaluations)) = t + 1.
Proof.
  intros Hs Hv. assert (length (take (t + 1) (party_keys evaluations)) = t + 1) as Hlen.
  { unfold party_keys. rewrite length_take, length_fmap, party_iter_length. lia. }
  split; [|done]. split_and!.
  - intros E. rewrite E in Hlen. cbn in Hlen. lia.
  - eapply (sublist_NoDup _ (party_keys evaluations)); [apply party_iter_nodup | apply sublist_take].
  - apply Forall_take, Forall_forall. intros q Hq. apply list_elem_of_fmap in Hq as ([q' P] & -> & Hq).
    apply party_iter_elem in Hq. by apply (Hv q' P).
Qed.

(** The selected parties' evaluations determine the ladder. *)
Lemma ladder_determined (evaluations : gmap PartyId Point) t ladder selected :
  good_parties selected -> length selected = t + 1 -> length ladder = t + 1 ->
  (forall q, q ∈ selected -> ladder_at ladder (scalar_of_N q) = default pid (evaluations !! q)) ->
  foldl (add_ladder_term (scalar_of_N <$> selected) evaluations) (replicate (t + 1) pid) (enumerate selected) = ladder.
Proof.
  intros Hg Hs Hl Hev. apply (ladder_unique _ _ (scalar_of_N <$> selected)).
  - by apply party_points_nodup.
  - rewrite interpolated_ladder_length, length_replicate; [done| |].
    + intros i q Hi. rewrite length_fmap. by apply enumerate_lookup, lookup_lt_Some in Hi.
    + rewrite length_fmap, length_replicate. lia.
  - rewrite length_fmap, interpolated_ladder_length, length_replicate; [lia| |].
    + intros i q Hi. rewrite length_fmap. by apply enumerate_lookup, lookup_lt_Some in Hi.
    + rewrite length_fmap, length_replicate. lia.
  - apply Forall_fmap, Forall_forall. intros q Hq. cbn. rewrite (Hev q Hq).
    apply list_elem_of_lookup in Hq as [j Hj]. rewrite <- Hs. by apply (interpolated_ladder evaluations selected j q).
Qed.

Context `{CL : !CompressLaws}.

Lemma same_point_spec (P Q : Point) : same_point P Q = true <-> P = Q.
Proof.
  unfold same_point. rewrite bool_decide_eq_true. split; [apply compress_inj | by intros ->].
Qed.

Lemma check_evaluation_ok ladder t (q : PartyId) P :
  check_evaluation ladder t (q, P) = Ok tt <-> share_commitment ladder q = Ok P.
Proof.
  unfold check_evaluation. cbn [fst snd]. destruct (share_commitment ladder q) as [E|e]; [|done].
  cbn [mbind result_bind]. destruct (same_point E P) eqn:Hs; cbn [negb].
  - apply same_point_spec in Hs as ->. done.
  - split; [done|]. intros [= ->]. assert (same_point P P = true) by (by apply same_point_spec). congruence.
Qed.

Lemma coefficients_spec (evaluations : gmap PartyId Point) t ladder :
  coefficient_commitments_from_evaluations evaluations t = Ok ladder <->
  t + 1 <= size evaluations /\ length ladder = t + 1
  /\ forall q P, evaluations !! q = Some P -> share_commitment ladder q = Ok P.
Proof.
  unfold coefficient_commitments_from_evaluations.
  destruct (Nat.ltb_spec (size evaluations) (t + 1)) as [Hs|Hs]; [split; [done | lia]|]. split.
  - rewrite bind_ok. intros (points & Hp & Hr). apply checked_parties_ok in Hp as [Hg ->].
    rewrite bind_ok in Hr. destruct Hr as ([] & Hc & [= <-]). rewrite for_each_ok, Forall_forall in Hc.
    split; [lia|]. split.
    + rewrite interpolated_ladder_length, length_replicate; [done| |].
      * intros i q Hi. rewrite length_fmap. by apply enumerate_lookup, lookup_lt_Some in Hi.
      * rewrite length_fmap, length_replicate, length_take. lia.
    + intros q P HP. apply (check_evaluation_ok _ t), Hc. by apply party_iter_elem.
  - intros (_ & Hl & Hev).
    assert (forall q P, evaluations !! q = Some P -> valid_party q) as Hv.
    { intros q P HP%Hev. by apply share_commitment_ok in HP as [? _]. }
    destruct (selected_parties evaluations t Hs Hv) as [Hg Hlen].
    rewrite (proj2 (checked_parties_ok _ _) (conj Hg eq_refl)). cbn [mbind result_bind].
    rewrite (ladder_determined evaluations t ladder); [|done..|].
    + rewrite (proj2 (for_each_ok _ _)); [done|]. apply Forall_forall. intros [q P] HP%party_iter_elem.
      by apply check_evaluation_ok, Hev.
    + intros q Hq. apply elem_of_take in Hq as (i & Hq & _). apply list_elem_of_lookup_2, list_elem_of_fmap in Hq as ([q' P] & -> & HP).
      apply party_iter_elem in HP. cbn [fst]. rewrite HP. by apply Hev, share_commitment_ok in HP as [_ ->].
Qed.
End Ladders.

(** ** Linear operations on shared wires

    The linear operations of [threshold_gadgets.rs] implement arithmetic on
    openings: a wire represents the opening of its commitment when the shares
    and the ladder are those of two polynomials, and every linear program over
    wires runs to a wire that represents the program's value. *)

Open Scope nat_scope.

(** ** Keys in order *)

Lemma party_keys_sorted {V} (m : gmap PartyId V) : StronglySorted N.le (party_keys m).
Proof.
  unfold party_keys, party_iter.
  assert (StronglySorted party_le (merge_sort party_le (map_to_list m))) as Hs.
  { apply Sorted_StronglySorted; [intros a b c; unfold party_le; lia | apply Sorted_merge_sort, _]. }
  induction Hs as [|a l _ IH Hl]; [constructor|]. cbn. constructor; [done|].
  apply Forall_fmap. eapply Forall_impl; [exact Hl|]. done.
Qed.

Lemma party_keys_elem_iff {V} (m : gmap PartyId V) q : q ∈ party_keys m <-> is_Some (m !! q).
Proof.
  unfold party_keys. rewrite list_elem_of_fmap. split.
  - intros ([q' v] & -> & Hq). apply party_iter_elem in Hq. eauto.
  - intros [v Hv]. exists (q, v). split; [done|]. by apply party_iter_elem.
Qed.

Lemma party_keys_ext {V W} (m : gmap PartyId V) (m' : gmap PartyId W) :
  (forall q, is_Some (m !! q) <-> is_Some (m' !! q)) -> party_keys m = party_keys m'.
Proof.
  intros Hd. apply (StronglySorted_unique N.le); [apply party_keys_sorted..|].
  apply NoDup_Permutation; [apply party_iter_nodup..|]. intros q. by rewrite !party_keys_elem_iff.
Qed.

Section Shared.
Context `{SL : ScalarLaws} `{!ScalarLarge} `{G : !GroupOps} `{L : !GroupLaws}.
Add Field shared_field : scalar_field.

(** A wire whose shares and ladder are those of [P] and [Q]. *)
Record wire_of (key : Pedersen) (parties : list PartyId) (t : nat) (s : Shared) (P Q : list Scalar) : Prop := {
  wire_P : length P = t + 1;
  wire_Q : length Q = t + 1;
  wire_value : forall q, sh_value s !! q = if bool_decide (q ∈ parties) then Some (evaluate P (scalar_of_N q)) else None;
  wire_blinding : forall q, sh_blinding s !! q = if bool_decide (q ∈ parties) then Some (evaluate Q (scalar_of_N q)) else None;
  wire_commitment : sh_commitment s = commit key (evaluate P s0) (evaluate Q s0);
  wire_ladder : sh_coefficient_commitments s = zip_with (commit key) P Q
}.

(** The opening a wire represents. *)
Definition represents key parties t (s : Shared) (opening : Scalar * Scalar) : Prop :=
  exists P Q, wire_of key parties t s P Q /\ opening = (evaluate P s0, evaluate Q s0).

Lemma wire_same_shape key parties t a b Pa Qa Pb Qb :
  wire_of key parties t a Pa Qa -> wire_of key parties t b Pb Qb -> same_shape a b = Ok tt.
Proof.
  intros Ha Hb. unfold same_shape.
  rewrite (party_keys_ext (sh_value a) (sh_value b)), (party_keys_ext (sh_blinding a) (sh_blinding b)).
  - rewrite !bool_decide_eq_true_2 by done. cbn. destruct Ha, Hb.
    rewrite wire_ladder0, wire_ladder1, !length_zip_with, wire_P0, wire_Q0, wire_P1, wire_Q1, Nat.eqb_refl. done.
  - intros q. rewrite (wire_blinding _ _ _ _ _ _ Ha), (wire_blinding _ _ _ _ _ _ Hb). by case_bool_decide.
  - intros q. rewrite (wire_value _ _ _ _ _ _ Ha), (wire_value _ _ _ _ _ _ Hb). by case_bool_decide.
Qed.

Lemma zip_shares_lookup f a b q :
  zip_shares f a b !! q = (fun v => f v (default s0 (b !! q))) <$> a !! q.
Proof. unfold zip_shares. rewrite map_lookup_imap. by destruct (a !! q). Qed.

Lemma poly_add_same (p q : list Scalar) : length p = length q -> poly_add p q = zip_with sadd p q.
Proof. revert q. induction p as [|c p IH]; intros [|d q] E; try done. cbn. f_equal. apply IH. by injection E. Qed.

Lemma ladder_zip_add key (P Q P' Q' : list Scalar) : length P = length P' -> length Q = length Q' -> length P = length Q ->
  zip_with padd (zip_with (commit key) P Q) (zip_with (commit key) P' Q')
  = zip_with (commit key) (poly_add P P') (poly_add Q Q').
Proof.
  intros E1 E2 E3. rewrite !poly_add_same by done. revert Q P' Q' E1 E2 E3.
  induction P as [|a P IH]; intros [|b Q] [|a' P'] [|b' Q'] E1 E2 E3; try done. cbn in *.
  rewrite IH by lia. f_equal. unfold commit. module_split; ring.
Qed.

Lemma ladder_zip_scale key (P Q : list Scalar) (k : Scalar) :
  (fun point => point * k)%P <$> zip_with (commit key) P Q = zip_with (commit key) (poly_scale k P) (poly_scale k Q).
Proof.
  revert Q. induction P as [|a P IH]; intros [|b Q]; try done. cbn. rewrite IH. f_equal. unfold commit. module_split; ring.
Qed.

Lemma evaluate_shift c (P : list Scalar) (k x : Scalar) : evaluate ((c + k)%S :: P) x = (evaluate (c :: P) x + k)%S.
Proof. rewrite !evaluate_cons. ring. Qed.

(** ** Each operation *)

Lemma add_represents key parties t a b va ra vb rb :
  represents key parties t a (va, ra) -> represents key parties t b (vb, rb) ->
  exists s, shared_add a b = Ok s /\ represents key parties t s (va + vb, ra + rb)%S.
Proof.
  intros (P & Q & Ha & [= -> ->]) (P' & Q' & Hb & [= -> ->]). unfold shared_add.
  rewrite (wire_same_shape _ _ _ _ _ _ _ _ _ Ha Hb). cbn [mbind result_bind]. eexists. split; [done|].
  exists (poly_add P P'), (poly_add Q Q'). destruct Ha as [a1 a2 a3 a4 a5 a6], Hb as [b1 b2 b3 b4 b5 b6].
  rewrite !evaluate_add. split; [|done]. split; cbn [sh_value sh_blinding sh_commitment sh_coefficient_commitments].
  - rewrite poly_add_same, length_zip_with by lia. lia.
  - rewrite poly_add_same, length_zip_with by lia. lia.
  - intros q. rewrite zip_shares_lookup, a3, b3, evaluate_add. by case_bool_decide.
  - intros q. rewrite zip_shares_lookup, a4, b4, evaluate_add. by case_bool_decide.
  - rewrite a5, b5, !evaluate_add. unfold commit. module_split; ring.
  - rewrite a6, b6. apply ladder_zip_add; lia.
Qed.

Lemma scale_represents key parties t a va ra k :
  represents key parties t a (va, ra) -> represents key parties t (shared_scale a k) (va * k, ra * k)%S.
Proof.
  intros (P & Q & [a1 a2 a3 a4 a5 a6] & [= -> ->]). exists (poly_scale k P), (poly_scale k Q).
  rewrite !evaluate_scale. split; [|f_equal; ring].
  split; cbn [shared_scale sh_value sh_blinding sh_commitment sh_coefficient_commitments]; try (by rewrite poly_scale_length).
  - intros q. rewrite lookup_fmap, a3, evaluate_scale. case_bool_decide; [|done]. cbn. f_equal. ring.
  - intros q. rewrite lookup_fmap, a4, evaluate_scale. case_bool_decide; [|done]. cbn. f_equal. ring.
  - rewrite a5, !evaluate_scale. unfold commit. module_split; ring.
  - rewrite a6. apply ladder_zip_scale.
Qed.

Lemma shift_represents key parties t a va ra k :
  represents key parties t a (va, ra) -> represents key parties t (shared_shift key a k) (va + k, ra)%S.
Proof.
  intros (P & Q & [a1 a2 a3 a4 a5 a6] & [= -> ->]).
  destruct P as [|c P]; [cbn in a1; lia|]. destruct Q as [|d Q]; [cbn in a2; lia|].
  exists ((c + k)%S :: P), (d :: Q). rewrite !evaluate_shift. split; [|done].
  split; cbn [shared_shift sh_value sh_blinding sh_commitment sh_coefficient_commitments]; try done.
  - intros q. rewrite lookup_fmap, a3, evaluate_shift. by case_bool_decide.
  - rewrite a5, !evaluate_shift. unfold commit. module_split; ring.
  - rewrite a6. cbn. f_equal. unfold commit. module_split; ring.
Qed.

Lemma ladder_zip_sub key (P Q P' Q' : list Scalar) : length P = length P' -> length Q = length Q' -> length P = length Q ->
  zip_with (fun a b => a - b)%P (zip_with (commit key) P Q) (zip_with (commit key) P' Q')
  = zip_with (commit key) (poly_sub P P') (poly_sub Q Q').
Proof.
  intros E1 E2 E3. unfold poly_sub. rewrite <- ladder_zip_add, <- ladder_zip_scale by (by rewrite ?poly_scale_length).
  rewrite zip_with_fmap_r. apply zip_with_ext; [|done..]. intros C D. module_split; ring.
Qed.

Lemma sub_represents key parties t a b va ra vb rb :
  represents key parties t a (va, ra) -> represents key parties t b (vb, rb) ->
  exists s, shared_sub a b = Ok s /\ represents key parties t s (va - vb, ra - rb)%S.
Proof.
  intros (P & Q & Ha & [= -> ->]) (P' & Q' & Hb & [= -> ->]). unfold shared_sub.
  rewrite (wire_same_shape _ _ _ _ _ _ _ _ _ Ha Hb). cbn [mbind result_bind]. eexists. split; [done|].
  exists (poly_sub P P'), (poly_sub Q Q'). destruct Ha as [a1 a2 a3 a4 a5 a6], Hb as [b1 b2 b3 b4 b5 b6].
  rewrite !evaluate_sub. split; [|done]. split; cbn [sh_value sh_blinding sh_commitment sh_coefficient_commitments].
  - rewrite poly_sub_length. lia.
  - rewrite poly_sub_length. lia.
  - intros q. rewrite zip_shares_lookup, a3, b3, evaluate_sub. by case_bool_decide.
  - intros q. rewrite zip_shares_lookup, a4, b4, evaluate_sub. by case_bool_decide.
  - rewrite a5, b5, !evaluate_sub. unfold commit. module_split; ring.
  - rewrite a6, b6. apply ladder_zip_sub; lia.
Qed.

Lemma negate_represents key parties t a va ra :
  represents key parties t a (va, ra) -> represents key parties t (shared_negate a) (- va, - ra)%S.
Proof.
  intros Ha%(scale_represents _ _ _ _ _ _ (- s1)%S). unfold shared_negate.
  replace (- va)%S with (va * - s1)%S by ring. by replace (- ra)%S with (ra * - s1)%S by ring.
Qed.

(** ** Linear programs *)

(** Gate networks of the linear operations. *)
Inductive Linear :=
  | Input (index : nat)
  | Add (a b : Linear)
  | Sub (a b : Linear)
  | Scale (a : Linear) (factor : Scalar)
  | Shift (a : Linear) (constant : Scalar)
  | Negate (a : Linear).

(** The network run on shared wires, as its callers compose the operations. *)
Fixpoint run (key : Pedersen) (inputs : list Shared) (program : Linear) : result string Shared :=
  match program with
  | Input index => ok_or (inputs !! index) "no such wire"
  | Add a b => x ← run key inputs a; y ← run key inputs b; shared_add x y
  | Sub a b => x ← run key inputs a; y ← run key inputs b; shared_sub x y
  | Scale a factor => x ← run key inputs a; Ok (shared_scale x factor)
  | Shift a constant => x ← run key inputs a; Ok (shared_shift key x constant)
  | Negate a => x ← run key inputs a; Ok (shared_negate x)
  end.

(** The network on openings. *)
Fixpoint opening (inputs : list (Scalar * Scalar)) (program : Linear) : Scalar * Scalar :=
  match program with
  | Input index => nth index inputs (s0, s0)
  | Add a b => let x := opening inputs a in let y := opening inputs b in (x.1 + y.1, x.2 + y.2)%S
  | Sub a b => let x := opening inputs a in let y := opening inputs b in (x.1 - y.1, x.2 - y.2)%S
  | Scale a factor => let x := opening inputs a in (x.1 * factor, x.2 * factor)%S
  | Shift a constant => let x := opening inputs a in (x.1 + constant, x.2)%S
  | Negate a => let x := opening inputs a in (- x.1, - x.2)%S
  end.

Fixpoint wires_below (n : nat) (program : Linear) : Prop :=
  match program with
  | Input index => index < n
  | Add a b | Sub a b => wires_below n a /\ wires_below n b
  | Scale a _ | Shift a _ | Negate a => wires_below n a
  end.

Lemma run_represents key parties t inputs openings program :
  Forall2 (represents key parties t) inputs openings -> wires_below (length inputs) program ->
  exists s, run key inputs program = Ok s /\ represents key parties t s (opening openings program).
Proof.
  intros Hin. induction program as [i|a IHa b IHb|a IHa b IHb|a IHa k|a IHa k|a IHa]; cbn [wires_below run opening]; intros Hb.
  1: { destruct (lookup_lt_is_Some_2 inputs i Hb) as [s Hs]. destruct (Forall2_lookup_l _ _ _ _ _ Hin Hs) as (o & Ho & Hr).
       rewrite Hs, (nth_lookup_Some _ _ _ _ Ho). by exists s. }
  1, 2: destruct Hb as [Hba Hbb]; destruct (IHa Hba) as (x & -> & Hx); destruct (IHb Hbb) as (y & -> & Hy);
    cbn [mbind result_bind]; destruct (opening openings a), (opening openings b); by eauto using add_represents, sub_represents.
  all: destruct (IHa Hb) as (x & -> & Hx); cbn [mbind result_bind]; destruct (opening openings a);
    eauto using scale_represents, shift_represents, negate_represents.
Qed.

(** ** What a represented wire gives *)

(** Any quorum above the threshold recomputes the commitment. *)
Lemma represents_recompute key parties t s v r quorum :
  represents key parties t s (v, r) -> good_parties quorum -> (forall q, q ∈ quorum -> q ∈ parties) ->
  t < length quorum ->
  sh_commitment s = commit key v r /\
  commitment_from_shares key (sh_value s) (sh_blinding s) quorum = Ok (commit key v r).
Proof.
  intros (P & Q & [a1 a2 a3 a4 a5 a6] & [= -> ->]) Hg Hsub Ht. split; [done|].
  destruct (weights_exist quorum Hg) as [w Hw]. unfold commitment_from_shares.
  rewrite (collect_res_entries _ (fun q => commit key (evaluate P (scalar_of_N q)) (evaluate Q (scalar_of_N q))) quorum quorum).
  2:{ apply map_res_members. intros q Hq. by rewrite a3, a4, !bool_decide_eq_true_2 by auto. }
  cbn [mbind result_bind]. rewrite (combine_entries _ quorum w Hg Hw). f_equal.
  rewrite <- (ladder_commit key P Q s0) by lia. rewrite <- (weights_ladder quorum w) by (rewrite ?length_zip_with; lia || done).
  apply psum_ext. intros q _. by rewrite ladder_commit by lia.
Qed.

(** A party's half of a wire, and the half of a shifted or scaled wire. *)
Lemma node_share_scale s k q : node_share (shared_scale s k) q = node_scaled k <$> node_share s q.
Proof.
  unfold node_share, shared_scale. cbn. rewrite !lookup_fmap. destruct (sh_value s !! q); [|done]. cbn.
  by destruct (sh_blinding s !! q).
Qed.

Lemma node_share_shift key s k q : node_share (shared_shift key s k) q = node_shifted key k <$> node_share s q.
Proof.
  unfold node_share, shared_shift. cbn. rewrite !lookup_fmap. destruct (sh_value s !! q); [|done]. cbn.
  by destruct (sh_blinding s !! q).
Qed.
End Shared.

Open Scope nat_scope.

Section ProductRounds.
Context `{SL : ScalarLaws} `{!ScalarLarge} `{G : !GroupOps} `{L : !GroupLaws} `{T : TranscriptOps} `{Sha256}.
Add Field product_rounds_field : scalar_field.

Section HonestProduct.
Context {R : Type} `{!ScalarRandom R}.
Variables (key : Pedersen) (st : ProductStatement) (context : bytes) (tr : Transcript).
Variables (quorum : list PartyId) (holder : PartyId -> ProductNodeContribution) (seeds : PartyId -> R).

Definition prepared_product (q : PartyId) :=
  prepare_product_round1 key (holder q) (ps_multiplicand st) context (seeds q).
Definition product_message (q : PartyId) : ProductRound1 := (prepared_product q).1.2.
Definition product_seal (q : PartyId) : ProductRound1Seal := (prepared_product q).1.1.1.
Definition product_secret (q : PartyId) : ProductRound1Secret := (prepared_product q).1.1.2.

(** The protocol, every node answering for itself. *)
Definition product_protocol : result string (ProductProof * Transcript) :=
  let messages := product_message <$> quorum in
  let seals := product_seal <$> quorum in
  '(challenge, _) ← make_product_challenge_with_transcript st messages seals quorum context tr;
  responses ← map_res (fun q => answer_product_challenge (holder q) (product_secret q) challenge) quorum;
  assemble_product_from_rounds_with_transcript key st messages seals responses quorum context tr.

Hypothesis (Hgood : good_parties quorum).
Hypothesis (Hparty : forall q, q ∈ quorum -> pc_party (holder q) = q).
Hypothesis (Hlen : length (ps_factor_coefficients st) <= length quorum /\ length (ps_relation_coefficients st) <= length quorum).
Hypothesis (Hconst : ladder_at (ps_factor_coefficients st) s0 = ps_factor_commitment st
  /\ ladder_at (ps_relation_coefficients st) s0 = ps_product_commitment st).
Hypothesis (Hshare : forall q, q ∈ quorum ->
  commit key (ns_value_share (pc_factor (holder q))) (ns_blinding_share (pc_factor (holder q)))
    = ladder_at (ps_factor_coefficients st) (scalar_of_N q)
  /\ (ps_multiplicand st * ns_value_share (pc_factor (holder q)) + h key * pc_cross_share (holder q))%P
    = ladder_at (ps_relation_coefficients st) (scalar_of_N q)).
Hypothesis (Hdigest : forall q, q ∈ quorum -> pse_digest (product_seal q) <> ZERO32).

Lemma prepared_product_spec q : q ∈ quorum ->
  product_seal q = mkProductRound1Seal q (product_round1_digest (product_message q))
  /\ p1_party (product_message q) = q /\ p1_context_digest (product_message q) = sha256 context
  /\ p1_factor (product_message q) = commit key (px_factor_nonce (product_secret q)) (px_factor_blinding_nonce (product_secret q))
  /\ p1_product (product_message q)
     = (ps_multiplicand st * px_factor_nonce (product_secret q) + h key * px_relation_nonce (product_secret q))%P
  /\ px_party (product_secret q) = q /\ px_message_digest (product_secret q) = pse_digest (product_seal q)
  /\ px_context_digest (product_secret q) = sha256 context.
Proof.
  intros Hq. unfold product_seal, product_message, product_secret, prepared_product, prepare_product_round1.
  destruct (scalar_random (seeds q)) as [k r1], (scalar_random r1) as [l r2], (scalar_random r2) as [m r3].
  cbn. by rewrite Hparty.
Qed.

Lemma message_entries : (fun m => (p1_party m, m)) <$> (product_message <$> quorum) = entries product_message quorum.
Proof.
  rewrite <- list_fmap_compose. apply list_fmap_ext. intros i q Hq. cbn.
  by destruct (prepared_product_spec q (list_elem_of_lookup_2 _ _ _ Hq)) as (_ & -> & _).
Qed.

Lemma seal_entries : (fun s => (pse_party s, s)) <$> (product_seal <$> quorum) = entries product_seal quorum.
Proof.
  rewrite <- list_fmap_compose. apply list_fmap_ext. intros i q Hq. cbn.
  by destruct (prepared_product_spec q (list_elem_of_lookup_2 _ _ _ Hq)) as (-> & _).
Qed.

Lemma honest_product_round1 :
  checked_product_round1 (product_message <$> quorum) (product_seal <$> quorum) quorum context
  = Ok (collect (entries product_message quorum)).
Proof.
  pose proof Hgood as (_ & Hnd & _). unfold checked_product_round1. rewrite message_entries, seal_entries.
  rewrite !collect_of_size, Nat.eqb_refl, (proj2 (all_distinct_spec _) Hnd) by done. cbn [negb orb].
  rewrite existsb_none.
  2:{ intros q Hq. rewrite !collect_of_lookup by done. cbn. done. }
  rewrite (proj2 (for_each_ok _ _)); [done|]. apply Forall_forall. intros q Hq.
  unfold check_product_reveal. rewrite !collect_of_lookup by done.
  destruct (prepared_product_spec q Hq) as (Hs & _ & Hc & _). rewrite Hc, Hs. cbn [pse_digest].
  by rewrite !bool_decide_eq_true_2 by done.
Qed.

(** The combined first moves. *)
Definition factor_move (w : PartyId -> Scalar) : Point := psum ((fun q => p1_factor (product_message q) * w q)%P <$> quorum).
Definition product_move (w : PartyId -> Scalar) : Point := psum ((fun q => p1_product (product_message q) * w q)%P <$> quorum).

Lemma combine_first (part : ProductRound1 -> Point) w : weights_of quorum w ->
  combine_commitments (collect ((fun q => (q, first_part part (collect (entries product_message quorum)) q)) <$> quorum))
  = Ok (psum ((fun q => part (product_message q) * w q)%P <$> quorum)).
Proof.
  intros Hw. rewrite (list_fmap_ext _ (fun q => (q, part (product_message q)))).
  - by apply (combine_commitments_of (fun q => part (product_message q))).
  - intros i q Hq. unfold first_part. rewrite collect_of_lookup; [done|apply Hgood|by eapply list_elem_of_lookup_2].
Qed.

Definition challenge_of (w : PartyId -> Scalar) :=
  product_challenge (ps_multiplicand st) (ps_factor_commitment st) (ps_product_commitment st) (factor_move w) (product_move w) tr.

Lemma honest_product_challenge w : weights_of quorum w ->
  make_product_challenge_with_transcript st (product_message <$> quorum) (product_seal <$> quorum) quorum context tr
  = Ok (mkProductChallenge quorum (sha256 context) (factor_move w) (product_move w) (challenge_of w).1, (challenge_of w).2).
Proof.
  intros Hw. unfold make_product_challenge_with_transcript. rewrite honest_product_round1. cbn [mbind result_bind].
  rewrite !(combine_first _ w Hw). cbn [mbind result_bind]. fold (factor_move w) (product_move w). unfold challenge_of.
  by destruct (product_challenge _ _ _ _ _ _).
Qed.

Definition product_answer (c : Scalar) (q : PartyId) : ProductRound2 :=
  mkProductRound2 q (px_factor_nonce (product_secret q) + c * ns_value_share (pc_factor (holder q)))%S
    (px_factor_blinding_nonce (product_secret q) + c * ns_blinding_share (pc_factor (holder q)))%S
    (px_relation_nonce (product_secret q) + c * pc_cross_share (holder q))%S.

Lemma honest_product_answers challenge : pch_quorum challenge = quorum -> pch_context_digest challenge = sha256 context ->
  map_res (fun q => answer_product_challenge (holder q) (product_secret q) challenge) quorum
  = Ok (product_answer (pch_challenge challenge) <$> quorum).
Proof.
  intros Eq Ec. apply map_res_members. intros q Hq. unfold answer_product_challenge.
  destruct (prepared_product_spec q Hq) as (_ & _ & _ & _ & _ & Hp & Hd & Hc).
  rewrite Hp, Hd, Hc, Eq, Ec, (Hparty q Hq), N.eqb_refl, (bool_decide_eq_true_2 (q ∈ quorum)), (bool_decide_eq_false_2 (pse_digest _ = _)),
    (bool_decide_eq_true_2 (sha256 context = _)); auto.
Qed.

Lemma product_answer_matches c q : q ∈ quorum ->
  sigma_equation (g key) (h key) (p2_factor_answer (product_answer c q)) (p2_factor_blinding_answer (product_answer c q))
    (p1_factor (product_message q)) (ladder_at (ps_factor_coefficients st) (scalar_of_N q)) c
  /\ sigma_equation (ps_multiplicand st) (h key) (p2_factor_answer (product_answer c q)) (p2_relation_answer (product_answer c q))
    (p1_product (product_message q)) (ladder_at (ps_relation_coefficients st) (scalar_of_N q)) c.
Proof.
  intros Hq. destruct (prepared_product_spec q Hq) as (_ & _ & _ & -> & -> & _), (Hshare q Hq) as [<- <-].
  unfold sigma_equation, product_answer, commit.
  cbn [p2_factor_answer p2_factor_blinding_answer p2_relation_answer]. split; module_split; ring.
Qed.

Definition assembled_product (w : PartyId -> Scalar) (c : Scalar) : ProductProof :=
  mkProductProof (factor_move w) (product_move w)
    (ssum ((fun q => w q * p2_factor_answer (product_answer c q))%S <$> quorum))
    (ssum ((fun q => w q * p2_factor_blinding_answer (product_answer c q))%S <$> quorum))
    (ssum ((fun q => w q * p2_relation_answer (product_answer c q))%S <$> quorum)).

Lemma assembled_product_verifies w : weights_of quorum w ->
  (verify_product key tr (ps_multiplicand st) (ps_factor_commitment st) (ps_product_commitment st)
     (assembled_product w (challenge_of w).1)).1 = true.
Proof.
  intros Hw. apply verify_product_iff. destruct Hconst as [<- <-], Hlen as [Hl1 Hl2].
  assert (product_at (ps_multiplicand st) (ladder_at (ps_factor_coefficients st) s0) (ladder_at (ps_relation_coefficients st) s0)
    (assembled_product w (challenge_of w).1) tr = (challenge_of w).1) as ->.
  { unfold product_at, challenge_of. by destruct Hconst as [-> ->]. }
  split.
  - apply (combined_equation (g key) (h key) quorum w (ps_factor_coefficients st) (fun q => p1_factor (product_message q))
      (fun q => p2_factor_answer (product_answer _ q)) (fun q => p2_factor_blinding_answer (product_answer _ q)) _ Hw Hl1).
    intros q Hq. by apply product_answer_matches.
  - apply (combined_equation (ps_multiplicand st) (h key) quorum w (ps_relation_coefficients st) (fun q => p1_product (product_message q))
      (fun q => p2_factor_answer (product_answer _ q)) (fun q => p2_relation_answer (product_answer _ q)) _ Hw Hl2).
    intros q Hq. by apply product_answer_matches.
Qed.

(** Every node's answer passes the assembler's check. *)
Lemma product_answer_checked c q : q ∈ quorum ->
  check_product_answer key st (collect (entries product_message quorum)) (collect (entries (product_answer c) quorum)) c q = Ok tt.
Proof.
  intros Hq. pose proof Hgood as (_ & Hnd & Hv). rewrite Forall_forall in Hv. specialize (Hv q Hq).
  unfold check_product_answer, first_part. rewrite !collect_of_lookup by done.
  rewrite !(proj2 (share_commitment_ok _ q _) (conj Hv eq_refl)). cbn [mbind result_bind].
  destruct (product_answer_matches c q Hq) as [E1 E2]. unfold sigma_equation in E1, E2.
  fold (commit key (p2_factor_answer (product_answer c q)) (p2_factor_blinding_answer (product_answer c q))) in E1.
  by rewrite E1, E2, !same_point_refl.
Qed.

Lemma product_interpolated w coefs c (part : ProductRound2 -> Scalar) :
  weights_of quorum w -> lagrange_at_zero quorum = Ok coefs ->
  interpolated coefs (collect (entries (product_answer c) quorum)) part quorum
  = ssum ((fun q => w q * part (product_answer c q))%S <$> quorum).
Proof.
  intros Hw Hc. rewrite (interpolated_spec quorum coefs w) by done. apply ssum_ext. intros q Hq.
  rewrite collect_of_lookup; [done | apply Hgood | done].
Qed.

Lemma honest_product_assembled w : weights_of quorum w ->
  assemble_product_from_rounds_with_transcript key st (product_message <$> quorum) (product_seal <$> quorum)
    (product_answer (challenge_of w).1 <$> quorum) quorum context tr
  = Ok (assembled_product w (challenge_of w).1, (challenge_of w).2).
Proof.
  intros Hw. pose proof Hgood as (_ & Hnd & _).
  unfold assemble_product_from_rounds_with_transcript. rewrite (honest_product_challenge w Hw). cbn [mbind result_bind].
  rewrite message_entries, <- list_fmap_compose.
  change ((fun a => (p2_party a, a)) ∘ product_answer (challenge_of w).1) with (fun q => (q, product_answer (challenge_of w).1 q)).
  fold (entries (product_answer (challenge_of w).1) quorum).
  rewrite collect_of_size, Nat.eqb_refl, none_missing by done. cbn [negb orb pch_challenge].
  rewrite (proj2 (for_each_ok _ _)).
  2:{ apply Forall_forall. intros q Hq. by apply product_answer_checked. }
  destruct (lagrange_ok _ Hgood) as [coefs Hco]. rewrite Hco. cbn [mbind result_bind pch_factor pch_product].
  rewrite !(product_interpolated w) by done. fold (assembled_product w (challenge_of w).1).
  by rewrite (assembled_product_verifies w Hw).
Qed.

Lemma honest_product_assembly : exists w, weights_of quorum w /\
  product_protocol = Ok (assembled_product w (challenge_of w).1, (challenge_of w).2).
Proof.
  destruct (weights_exist quorum Hgood) as [w Hw]. exists w. split; [done|]. unfold product_protocol.
  rewrite (honest_product_challenge w Hw). cbn [mbind result_bind].
  rewrite honest_product_answers by done. cbn [mbind result_bind pch_challenge]. by apply honest_product_assembled.
Qed.
End HonestProduct.
End ProductRounds.
