(* ===== verification/ThresholdClaims.v ===== *)
(** * What the threshold protocols guarantee

    Dealt sharings, the two-round opening and product protocols, the audit of
    partial answers, the interpolation of coefficient ladders and the linear
    operations on shared wires. *)

From S2P Require Import Prelude.
From S2P Require Import Interfaces.
From S2P Require Import Curve.
From S2P Require Import Shamir.
From S2P Require Import ShamirTheorems.
From S2P Require Import Sigma.
From S2P Require Import SigmaProofs.
From S2P Require Import SigmaTheorems.
From S2P Require Import OneOfManyProofs.
From S2P Require Import Threshold.
From S2P Require Import ThresholdTheorems.
From S2P Require Import JointTheorems.
From S2P Require Import ProductProofs.
From S2P Require Import Gadgets.
From S2P Require Import JointProver.

Open Scope nat_scope.

Lemma filter_none {A} (f : A -> bool) l : (forall a, a ∈ l -> f a = false) -> List.filter f l = [].
Proof.
  induction l as [|a l IH]; intros Hf; [done|]. cbn. rewrite Hf by set_solver. apply IH. set_solver.
Qed.

Lemma filter_none_inv {A} (f : A -> bool) l : List.filter f l = [] -> forall a, a ∈ l -> f a = false.
Proof.
  intros E a Ha. destruct (f a) eqn:Hf; [|done]. apply list_elem_of_In in Ha.
  pose proof (proj2 (filter_In f a l) (conj Ha Hf)) as Hin. by rewrite E in Hin.
Qed.

Lemma and_iff_compat_l_strong (A B C : Prop) : (A -> B <-> C) -> A /\ B <-> A /\ C.
Proof. tauto. Qed.

Section Claims.
Context `{SL : ScalarLaws} `{!ScalarLarge} `{G : !GroupOps} `{L : !GroupLaws}.
Add Field claims_field : scalar_field.

Section Protocols.
Context `{T : TranscriptOps} `{Sha256} {R : Type} `{!ScalarRandom R}.
Implicit Types (key : Pedersen) (relation : Relation) (parties quorum : list PartyId).

(** The opening protocol as the nodes and the assembler run it. *)
Definition opening_protocol key relation context tr quorum (shares : ShareSet) (seeds : PartyId -> R) :
    result string (OpeningProof * Transcript) :=
  let messages := message key relation context shares seeds <$> quorum in
  let seals := seal key relation context shares seeds <$> quorum in
  '(challenge, _) ← make_opening_challenge_with (ss_commitment shares) messages seals quorum context tr relation;
  responses ← map_res (fun q =>
    answer_opening_challenge (node shares q) (secret key relation context shares seeds q) challenge) quorum;
  assemble_opening_from_rounds_with key (ss_commitment shares) (ss_coefficient_commitments shares)
    messages seals responses quorum context tr relation.

(** A quorum of more than [threshold] of the parties a value was dealt to,
    each running its two rounds on its own shares, assembles an opening proof
    of the dealt commitment that the ordinary verifier accepts; for the zero
    relation, when the dealt value is zero.  (A node refuses to answer when the
    digest of its first move is all zeros.) *)
Theorem threshold_opening_assembles key relation context tr value blinding parties quorum threshold shares
    (rng rng' : R) (seeds : PartyId -> R) :
  deal key value blinding parties threshold rng = Ok (shares, rng') ->
  NoDup quorum -> (forall q, q ∈ quorum -> q ∈ parties) -> threshold < length quorum ->
  (relation = Zero -> value = s0) ->
  (forall q, q ∈ quorum -> os_digest (seal key relation context shares seeds q) <> ZERO32) ->
  exists proof tr', opening_protocol key relation context tr quorum shares seeds = Ok (proof, tr')
    /\ (verify_relation key tr (commit key value blinding) proof relation).1 = true.
Proof.
  intros Hd Hnd Hsub Hlen Hz Hdig. destruct (deal_spec _ _ _ _ _ _ _ _ Hd) as (Hg & _ & Ht & HC & P & Q & Hs & HP & HQ).
  assert (good_parties quorum) as Hgq by (apply (good_subset parties); [done|done|intros ->; cbn in Hlen; lia|done]).
  destruct (weights_exist quorum Hgq) as [w Hw]. rewrite <- Ht in Hlen.
  assert (relation = Zero -> evaluate P s0 = s0) as Hrel by (intros E; by rewrite HP, Hz).
  unfold opening_protocol.
  rewrite (honest_challenge key relation context tr parties quorum shares P seeds Hg Hnd Hsub Hlen Hrel Hdig w _ Hw).
  pose proof (honest_assembly key relation context tr parties quorum shares P Q seeds Hs Hg Hnd Hsub Hlen Hrel Hdig w Hw) as [tr' Ha].
  pose proof (assembled_verifies key relation context tr parties quorum shares P Q seeds Hs Hsub Hlen Hrel w Hw) as Hv.
  destruct (opening_challenge _ _ _) as [c tr1]. cbn [fst] in *. cbn [mbind result_bind].
  rewrite honest_answers with (P := P) by done. cbn [mbind result_bind]. rewrite Ha. eexists _, _. split; [done|]. by rewrite <- HC.
Qed.
(** The joint prover's audit names exactly the parties whose answer, after
    the replacements of a faulty run, commits to something else than their
    honest answer; when it names nobody the assembled proof verifies, and a run
    without replacements names nobody and verifies in both relations. *)
Theorem joint_opening_audit key relation tr value blinding parties quorum threshold shares (rng0 rng1 rng : R) faulty :
  deal key value blinding parties threshold rng0 = Ok (shares, rng1) ->
  NoDup quorum -> (forall q, q ∈ quorum -> q ∈ parties) -> threshold < length quorum ->
  (relation = Zero -> value = s0) ->
  exists honest_proof honest_record proof record tr' rng',
    joint_prove_opening_with key shares quorum tr None relation rng = Ok (honest_proof, honest_record, tr', rng')
    /\ joint_prove_opening_with key shares quorum tr faulty relation rng = Ok (proof, record, tr', rng')
    /\ oa_bad_partials honest_record = []
    /\ (verify_relation key tr (commit key value blinding) honest_proof relation).1 = true
    /\ (forall q, q ∈ oa_bad_partials record <-> q ∈ quorum /\ exists z z0,
          oa_partial_responses record !! q = Some z /\ oa_partial_responses honest_record !! q = Some z0
          /\ compress (commit key z.1 z.2) <> compress (commit key z0.1 z0.2))
    /\ (CompressLaws -> relation = General -> oa_bad_partials record = [] ->
          (verify_opening key tr (commit key value blinding) proof).1 = true).
Proof.
  intros Hd Hnd Hsub Hlen Hz. destruct (deal_spec _ _ _ _ _ _ _ _ Hd) as (Hg & _ & Ht & HC & P & Q & Hs & HP & HQ).
  assert (good_parties quorum) as Hgq by (apply (good_subset parties); [done|done|intros ->; cbn in Hlen; lia|done]).
  destruct (joint_opening_spec key parties shares P Q quorum relation tr rng Hs Hgq Hsub)
    as (w & k & rho & sealed & tr' & rng' & Hw & Hk & Hrun).
  cbv zeta in Hrun. rewrite HC, <- HP, <- HQ in Hrun. rewrite <- HP in Hz. rewrite <- HP, <- HQ. clear HC.
  set (t := psum _) in *. set (c := (opening_challenge _ t _).1) in *.
  pose proof (Hrun None) as Hnone. cbn [mbind option_bind default] in Hnone.
  pose proof Hs as (HlP & HlQ & _).
  eexists _, _, _, _, tr', rng'. split; [exact Hnone|]. split; [apply Hrun|].
  cbn [oa_bad_partials oa_partial_responses]. split_and!.
  - apply filter_none. intros q _. unfold id. by rewrite same_point_refl.
  - apply (honest_verifies key quorum w k rho P Q relation tr Hw); [lia|lia|]. intros E. split; auto.
  - intros q. rewrite list_elem_of_In, filter_In, <- list_elem_of_In. apply and_iff_compat_l_strong. intros Hq.
    rewrite !collect_of_lookup by done. unfold id. rewrite negb_true_iff. unfold same_point. rewrite bool_decide_eq_false.
    split; [eauto 6|]. intros (z & z0 & [= <-] & [= <-] & E). exact E.
  - intros HCL -> Hbad. rewrite <- (ladder_commit key P Q s0) by lia.
    apply (answers_verify key quorum w k rho _ (zip_with (commit key) P Q) tr Hw); [rewrite length_zip_with; lia|].
    intros q Hq. rewrite ladder_commit by lia. fold t. rewrite (ladder_commit key P Q s0) by lia.
    pose proof (filter_none_inv _ _ Hbad q Hq) as E. rewrite negb_false_iff in E. apply same_point_spec in E.
    etrans; [exact E|]. apply honest_commit.
Qed.

End Protocols.

(** [coefficient_commitments_from_evaluations] returns a ladder exactly when
    there are more evaluations than the threshold and the ladder, with one
    coefficient more than the threshold, gives every party's evaluation. *)
Theorem ladder_from_evaluations_exact `{!CompressLaws} (evaluations : gmap PartyId Point) t ladder :
  coefficient_commitments_from_evaluations evaluations t = Ok ladder <->
  t + 1 <= size evaluations /\ length ladder = t + 1
  /\ forall q P, evaluations !! q = Some P -> share_commitment ladder q = Ok P.
Proof. apply coefficients_spec. Qed.

(** C17: the linear operations refine arithmetic on openings.  A network of
    additions, subtractions, scalings, shifts and negations over wires with the
    same parties and threshold runs without error to a wire whose shares, ladder
    and commitment are those of the network's value and blinding, and any
    [t + 1] of its parties recompute that commitment from their shares. *)
Theorem linear_programs_refine key parties t inputs openings program quorum :
  Forall2 (represents key parties t) inputs openings -> wires_below (length inputs) program ->
  good_parties quorum -> (forall q, q ∈ quorum -> q ∈ parties) -> t < length quorum ->
  exists s, run key inputs program = Ok s
    /\ represents key parties t s (opening openings program)
    /\ sh_commitment s = commit key (opening openings program).1 (opening openings program).2
    /\ commitment_from_shares key (sh_value s) (sh_blinding s) quorum = Ok (sh_commitment s).
Proof.
  intros Hin Hb Hg Hsub Ht. destruct (run_represents key parties t inputs openings program Hin Hb) as (s & Hr & Hs).
  exists s. split; [done|]. destruct (opening openings program) as [v r].
  destruct (represents_recompute key parties t s v r quorum Hs Hg Hsub Ht) as [-> ->]. done.
Qed.

(** ** Product statements *)

Section Products.
Context `{CL : !CompressLaws}.

Lemma product_statement_spec A Cf Cp evaluations t st :
  product_statement_from_evaluations A Cf Cp evaluations t = Ok st ->
  NoDup (pe_party <$> evaluations)
  /\ st = mkProductStatement A Cf Cp (ps_factor_coefficients st) (ps_relation_coefficients st) t
  /\ length (ps_factor_coefficients st) = t + 1 /\ length (ps_relation_coefficients st) = t + 1
  /\ ladder_at (ps_factor_coefficients st) s0 = Cf /\ ladder_at (ps_relation_coefficients st) s0 = Cp
  /\ forall e, e ∈ evaluations -> share_commitment (ps_factor_coefficients st) (pe_party e) = Ok (pe_factor e)
       /\ share_commitment (ps_relation_coefficients st) (pe_party e) = Ok (pe_relation e).
Proof.
  unfold product_statement_from_evaluations. destruct (_ <? _); [done|].
  destruct (all_distinct _) eqn:Hd; [|done]. cbn [negb orb]. case_bool_decide; [done|].
  apply all_distinct_spec in Hd. rewrite bind_ok. intros (fl & Hf & Hst). rewrite bind_ok in Hst. destruct Hst as (rl & Hr & Hst).
  destruct (same_point _ Cf) eqn:Ef; [|done]. destruct (same_point _ Cp) eqn:Er; [|done].
  cbn [negb] in Hst. injection Hst as <-. cbn [ps_factor_coefficients ps_relation_coefficients].
  apply same_point_spec in Ef as <-. apply same_point_spec in Er as <-.
  apply coefficients_spec in Hf as (_ & Hfl & Hf), Hr as (_ & Hrl & Hr).
  assert (forall part : ProductEvaluations -> Point, ((fun e => (pe_party e, part e)) <$> evaluations).*1 = pe_party <$> evaluations) as Hk.
  { intros part. by rewrite <- list_fmap_compose. }
  split_and!; try done; [apply ladder_at_zero..|]. intros e He.
  split; [apply Hf | apply Hr]; (apply collect_lookup; [by rewrite Hk|]; apply list_elem_of_fmap; by exists e).
Qed.

(** A node's shares against the statement its evaluation went into. *)
Lemma bind_product_spec key st (l : LocalProductShares) :
  lp_threshold l = ps_threshold st ->
  share_commitment (ps_factor_coefficients st) (lp_party l) = Ok (commit key (lp_factor_share l) (lp_factor_blinding_share l)) ->
  share_commitment (ps_relation_coefficients st) (lp_party l)
  = Ok (ps_multiplicand st * lp_factor_share l + h key * lp_cross_share l)%P ->
  bind_product key l st = Ok (mkProductNodeContribution (mkNodeShared (lp_party l) (ps_factor_commitment st)
    (lp_factor_share l) (lp_factor_blinding_share l) (ps_factor_coefficients st)) (lp_cross_share l)).
Proof.
  intros Ht Hf Hr. unfold bind_product. rewrite Ht, Nat.eqb_refl, Hf, Hr. cbn [negb mbind result_bind].
  by rewrite !same_point_refl.
Qed.

Lemma find_by_party (locals : list LocalProductShares) l :
  NoDup (lp_party <$> locals) -> l ∈ locals -> List.find (fun m => (lp_party m =? lp_party l)%N) locals = Some l.
Proof.
  induction locals as [|m locals IH]; intros Hnd Hl; [by apply elem_of_nil in Hl|]. cbn in *.
  apply NoDup_cons in Hnd as [Hm Hnd]. apply elem_of_cons in Hl as [<-|Hl]; [by rewrite N.eqb_refl|].
  destruct (N.eqb_spec (lp_party m) (lp_party l)) as [E|]; [|by apply IH].
  exfalso. apply Hm. apply list_elem_of_fmap. by exists l.
Qed.

(** What a node's binding to a product statement is, and what the statement
    gives every quorum. *)
Definition bound_product (st : ProductStatement) (l : LocalProductShares) : ProductNodeContribution :=
  mkProductNodeContribution (mkNodeShared (lp_party l) (ps_factor_commitment st)
    (lp_factor_share l) (lp_factor_blinding_share l) (ps_factor_coefficients st)) (lp_cross_share l).

Definition product_holder (st : ProductStatement) (locals : list LocalProductShares) (q : PartyId) : ProductNodeContribution :=
  default (mkProductNodeContribution (mkNodeShared q pid s0 s0 []) s0)
    (bound_product st <$> List.find (fun m => (lp_party m =? q)%N) locals).

Record product_shared key (st : ProductStatement) (quorum : list PartyId) (holder : PartyId -> ProductNodeContribution) : Prop := {
  psh_good : good_parties quorum;
  psh_party : forall q, q ∈ quorum -> pc_party (holder q) = q;
  psh_lengths : length (ps_factor_coefficients st) <= length quorum /\ length (ps_relation_coefficients st) <= length quorum;
  psh_constants : ladder_at (ps_factor_coefficients st) s0 = ps_factor_commitment st
    /\ ladder_at (ps_relation_coefficients st) s0 = ps_product_commitment st;
  psh_shares : forall q, q ∈ quorum ->
    commit key (ns_value_share (pc_factor (holder q))) (ns_blinding_share (pc_factor (holder q)))
      = ladder_at (ps_factor_coefficients st) (scalar_of_N q)
    /\ (ps_multiplicand st * ns_value_share (pc_factor (holder q)) + h key * pc_cross_share (holder q))%P
      = ladder_at (ps_relation_coefficients st) (scalar_of_N q)
}.

Lemma product_bound key A Cf Cp locals t st :
  product_statement_from_evaluations A Cf Cp (lp_evaluations key A <$> locals) t = Ok st ->
  Forall (fun l => lp_threshold l = t) locals ->
  (ps_multiplicand st = A /\ ps_factor_commitment st = Cf /\ ps_product_commitment st = Cp)
  /\ (forall l, l ∈ locals -> bind_product key l st = Ok (product_holder st locals (lp_party l)))
  /\ forall quorum, NoDup quorum -> (forall q, q ∈ quorum -> q ∈ lp_party <$> locals) -> t < length quorum ->
      product_shared key st quorum (product_holder st locals).
Proof.
  intros Hst Hlt. destruct (product_statement_spec _ _ _ _ _ _ Hst) as (Hd & Est & Hfl & Hrl & Hf0 & Hr0 & Hev).
  rewrite <- list_fmap_compose in Hd. change (pe_party ∘ lp_evaluations key A) with lp_party in Hd.
  rewrite Forall_forall in Hlt. assert (ps_multiplicand st = A) as EA by (by rewrite Est).
  assert (forall l, l ∈ locals ->
    share_commitment (ps_factor_coefficients st) (lp_party l) = Ok (commit key (lp_factor_share l) (lp_factor_blinding_share l))
    /\ share_commitment (ps_relation_coefficients st) (lp_party l) = Ok (A * lp_factor_share l + h key * lp_cross_share l)%P) as Hl.
  { intros l Hl. apply (Hev (lp_evaluations key A l)). apply list_elem_of_fmap. by exists l. }
  assert (forall l, l ∈ locals -> product_holder st locals (lp_party l) = bound_product st l) as Hh.
  { intros l Hin. unfold product_holder. by rewrite (find_by_party locals l Hd Hin). }
  split; [by rewrite Est|]. split.
  { intros l Hin. rewrite (Hh l Hin). destruct (Hl l Hin) as [E1 E2].
    apply bind_product_spec; [rewrite Est; by apply Hlt | done | by rewrite EA]. }
  intros quorum Hnd Hsub Ht. split.
  - split_and!; [intros ->; cbn in Ht; lia | done|]. apply Forall_forall. intros q Hq.
    apply Hsub, list_elem_of_fmap in Hq as (l & -> & Hin). apply Hl in Hin as [E _]. by apply share_commitment_ok in E as [? _].
  - intros q Hq. apply Hsub, list_elem_of_fmap in Hq as (l & -> & Hin). by rewrite (Hh l Hin).
  - lia.
  - by rewrite Hf0, Hr0, Est.
  - intros q Hq. apply Hsub, list_elem_of_fmap in Hq as (l & -> & Hin). rewrite (Hh l Hin), EA.
    cbn [bound_product pc_factor ns_value_share ns_blinding_share pc_cross_share].
    by destruct (Hl l Hin) as [[_ E1]%share_commitment_ok [_ E2]%share_commitment_ok].
Qed.

Context `{T : TranscriptOps} `{Sha256} {R : Type} `{!ScalarRandom R}.

(** When the parties' evaluations of their private shares make a product
    statement, every party binds its shares to it, and more than [t] of them,
    each running its two rounds on its own shares, assemble a product proof
    that the ordinary verifier accepts for the statement's commitments. *)
Theorem threshold_product_assembles key A Cf Cp locals t st context tr quorum (seeds : PartyId -> R) :
  product_statement_from_evaluations A Cf Cp (lp_evaluations key A <$> locals) t = Ok st ->
  Forall (fun l => lp_threshold l = t) locals ->
  NoDup quorum -> (forall q, q ∈ quorum -> q ∈ lp_party <$> locals) -> t < length quorum ->
  exists holder, (forall l, l ∈ locals -> bind_product key l st = Ok (holder (lp_party l)))
    /\ ((forall q, q ∈ quorum -> pse_digest (product_seal key st context holder seeds q) <> ZERO32) ->
        exists proof tr', product_protocol key st context tr quorum holder seeds = Ok (proof, tr')
          /\ (verify_product key tr A Cf Cp proof).1 = true).
Proof.
  intros Hst Hlt Hnd Hsub Ht. destruct (product_bound _ _ _ _ _ _ _ Hst Hlt) as ((<- & <- & <-) & Hb & Hq).
  exists (product_holder st locals). split; [done|]. intros Hdig. destruct (Hq quorum Hnd Hsub Ht) as [Hg Hparty Hlen Hconst Hshare].
  destruct (honest_product_assembly key st context tr quorum (product_holder st locals) seeds) as (w & Hw & Hrun); try done.
  eexists _, _. split; [exact Hrun|]. by apply assembled_product_verifies.
Qed.
End Products.
End Claims.
