(* ===== verification/ThresholdRange.v ===== *)
(** * Threshold range proofs

    [zkpi-proofs/src/threshold_range.rs]: a value and its bits shared among
    nodes, the public statement interpolated from the nodes' evaluations, the
    two rounds in which the nodes prove every bit's square relation and the
    linkage of the bits to the value, the joint prover over contributions and
    the ordinary public verifier. *)

From S2P Require Import Prelude.
From S2P Require Import Interfaces.
From S2P Require Import Curve.
From S2P Require Import Shamir.
From S2P Require Import Sigma.
From S2P Require Import BitrangeProofs.
From S2P Require Import Threshold.
From S2P Require Import Gadgets.
From S2P Require Import JointProver.
From stdpp Require Import pretty.

Open Scope nat_scope.

Section Material.
Context `{G : GroupOps}.

(** ** Shared values *)

Record BitShares := mkBitShares {
  bs_commitment : Point;
  bs_bit : ScalarShares;
  bs_blinding : ScalarShares;
  bs_cross : ScalarShares;
  bs_coefficient_commitments : list Point
}.

Record ValueShares := mkValueShares {
  vs_commitment : Point;
  vs_value : ScalarShares;
  vs_blinding : ScalarShares;
  vs_value_coefficient_commitments : list Point;
  vs_bits : list BitShares;
  vs_threshold : nat
}.

Definition vs_width (v : ValueShares) : nat := length (vs_bits v).

Record NodeBitView := mkNodeBitView {
  nbv_bit_share : Scalar;
  nbv_blinding_share : Scalar;
  nbv_cross_share : Scalar
}.

Record NodeValueView := mkNodeValueView {
  nvv_party : PartyId;
  nvv_value_share : Scalar;
  nvv_blinding_share : Scalar;
  nvv_bits : list NodeBitView
}.

Record NodeBitShares := mkNodeBitShares {
  nb_shared : NodeShared;
  nb_cross_share : Scalar
}.

Record NodeValueShares := mkNodeValueShares {
  nv_party : PartyId;
  nv_commitment : Point;
  nv_value_share : Scalar;
  nv_blinding_share : Scalar;
  nv_value_coefficient_commitments : list Point;
  nv_bits : list NodeBitShares;
  nv_threshold : nat
}.

Definition node_view (v : ValueShares) (party : PartyId) : option NodeValueView :=
  value_share ← vs_value v !! party;
  blinding_share ← vs_blinding v !! party;
  bits ← mapM (fun bit =>
    b ← bs_bit bit !! party;
    r ← bs_blinding bit !! party;
    c ← bs_cross bit !! party;
    Some (mkNodeBitView b r c)) (vs_bits v);
  Some (mkNodeValueView party value_share blinding_share bits).

Definition node_bit (party : PartyId) (bit : BitShares) : option NodeBitShares :=
  b ← bs_bit bit !! party;
  r ← bs_blinding bit !! party;
  c ← bs_cross bit !! party;
  Some (mkNodeBitShares (mkNodeShared party (bs_commitment bit) b r (bs_coefficient_commitments bit)) c).

Definition node_contribution (v : ValueShares) (party : PartyId) : option NodeValueShares :=
  value_share ← vs_value v !! party;
  blinding_share ← vs_blinding v !! party;
  bits ← mapM (node_bit party) (vs_bits v);
  Some (mkNodeValueShares party (vs_commitment v) value_share blinding_share
    (vs_value_coefficient_commitments v) bits (vs_threshold v)).

(** ** Local material and the public statement *)

Record LocalRangeShares := mkLocalRangeShares {
  lr_party : PartyId;
  lr_value_share : Scalar;
  lr_blinding_share : Scalar;
  lr_bits : list (Scalar * Scalar * Scalar);
  lr_threshold : nat
}.

Record RangeEvaluations := mkRangeEvaluations {
  re_party : PartyId;
  re_value : Point;
  re_bits : list Point
}.

Record RangeStatement := mkRangeStatement {
  rs_commitment : Point;
  rs_value_coefficients : list Point;
  rs_bit_commitments : list Point;
  rs_bit_coefficients : list (list Point);
  rs_threshold : nat
}.

Definition local_range_new (party : PartyId) (value_share blinding_share : Scalar)
    (bits : list (Scalar * Scalar * Scalar)) (threshold : nat) : result string LocalRangeShares :=
  if (party =? 0)%N then Err "party identifiers are one-based"
  else if bool_decide (bits = []) then Err "a range handoff must contain at least one bit"
  else Ok (mkLocalRangeShares party value_share blinding_share bits threshold).

Definition lr_width (l : LocalRangeShares) : nat := length (lr_bits l).

Definition lr_evaluations (key : Pedersen) (l : LocalRangeShares) : RangeEvaluations :=
  mkRangeEvaluations (lr_party l) (commit key (lr_value_share l) (lr_blinding_share l))
    ((fun '(value, blinding, _) => commit key value blinding) <$> lr_bits l).

(** One bit's shares against its ladder. *)
Definition bind_bit (key : Pedersen) (statement : RangeStatement) (party : PartyId)
    (entry : nat * (Scalar * Scalar * Scalar)) : result string NodeBitShares :=
  let '(index, (value, blinding, cross)) := entry in
  let ladder := nth index (rs_bit_coefficients statement) [] in
  expected ← share_commitment ladder party;
  if negb (same_point (commit key value blinding) expected) then
    Err ("local bit " +:+ show_nat index +:+ " does not match the public VSS statement")
  else Ok (mkNodeBitShares
    (mkNodeShared party (nth index (rs_bit_commitments statement) pid) value blinding ladder) cross).

Definition bind_range (key : Pedersen) (l : LocalRangeShares) (statement : RangeStatement) :
    result string NodeValueShares :=
  if negb (lr_threshold l =? rs_threshold statement)
     || negb (length (lr_bits l) =? length (rs_bit_commitments statement))
     || negb (length (rs_bit_coefficients statement) =? length (rs_bit_commitments statement))
  then Err "the local range handoff and public statement have different shapes"
  else
    expected ← share_commitment (rs_value_coefficients statement) (lr_party l);
    if negb (same_point (commit key (lr_value_share l) (lr_blinding_share l)) expected) then
      Err "the local value share does not match the public VSS statement"
    else
      bits ← map_res (bind_bit key statement (lr_party l)) (enumerate (lr_bits l));
      Ok (mkNodeValueShares (lr_party l) (rs_commitment statement) (lr_value_share l) (lr_blinding_share l)
        (rs_value_coefficients statement) bits (lr_threshold l)).

Definition range_statement_from_evaluations (evaluations : list RangeEvaluations) (threshold : nat) :
    result string RangeStatement :=
  first ← ok_or (head evaluations) "a range statement needs at least one node evaluation";
  if length evaluations <? threshold + 1 then
    Err (show_nat (length evaluations) +:+ " evaluations cannot support threshold " +:+ show_nat threshold)
  else if bool_decide (re_bits first = [])
    || existsb (fun node => negb (length (re_bits node) =? length (re_bits first))) evaluations
  then Err "node range evaluations have different bit widths"
  else
    let values := collect ((fun node => (re_party node, re_value node)) <$> evaluations) in
    if negb (size values =? length evaluations) then
      Err "a party supplied more than one range evaluation"
    else
      value_coefficients ← coefficient_commitments_from_evaluations values threshold;
      bit_coefficients ← map_res (fun index =>
        coefficient_commitments_from_evaluations
          (collect ((fun node => (re_party node, nth index (re_bits node) pid)) <$> evaluations)) threshold)
        (seq 0 (length (re_bits first)));
      Ok (mkRangeStatement (nth 0 value_coefficients pid) value_coefficients
        ((fun coefficients => nth 0 coefficients pid) <$> bit_coefficients) bit_coefficients threshold).

(** ** A node's contribution *)

Definition nv_width (n : NodeValueShares) : nat := length (nv_bits n).

Definition as_node_shared (n : NodeValueShares) : NodeShared :=
  mkNodeShared (nv_party n) (nv_commitment n) (nv_value_share n) (nv_blinding_share n)
    (nv_value_coefficient_commitments n).

Definition bit_evaluations (n : NodeValueShares) : list (Scalar * Scalar * Scalar) :=
  (fun bit => (ns_value_share (nb_shared bit), ns_blinding_share (nb_shared bit), nb_cross_share bit)) <$> nv_bits n.

Record RangeRelationEvaluations := mkRangeRelationEvaluations {
  rr_party : PartyId;
  rr_bits : list Point
}.

Record RangeRelationStatement := mkRangeRelationStatement {
  rrs_coefficients : list (list Point);
  rrs_threshold : nat
}.

Definition relation_evaluations (key : Pedersen) (n : NodeValueShares) : RangeRelationEvaluations :=
  mkRangeRelationEvaluations (nv_party n)
    ((fun bit => ns_commitment (nb_shared bit) * ns_value_share (nb_shared bit) + h key * nb_cross_share bit)%P
       <$> nv_bits n).

Definition range_relations_from_evaluations (statement : RangeStatement)
    (evaluations : list RangeRelationEvaluations) : result string RangeRelationStatement :=
  if (length evaluations <? rs_threshold statement + 1)
     || existsb (fun node => negb (length (rr_bits node) =? length (rs_bit_commitments statement))) evaluations
  then Err "range relation evaluations have the wrong shape"
  else if negb (all_distinct (rr_party <$> evaluations)) then
    Err "a party supplied more than one range relation evaluation"
  else
    coefficients ← map_res (fun index =>
      ladder ← coefficient_commitments_from_evaluations
        (collect ((fun node => (rr_party node, nth index (rr_bits node) pid)) <$> evaluations))
        (rs_threshold statement);
      if negb (same_point (nth 0 ladder pid) (nth index (rs_bit_commitments statement) pid)) then
        Err ("bit " +:+ show_nat index +:+ " relation constant does not equal its bit commitment")
      else Ok ladder) (seq 0 (length (rs_bit_commitments statement)));
    Ok (mkRangeRelationStatement coefficients (rs_threshold statement)).
End Material.

Section Range.
Context `{G : GroupOps} `{T : TranscriptOps} `{Sha256}.

Record ThresholdRangeProof := mkThresholdRangeProof {
  tp_bit_commitments : list Point;
  tp_bit_proofs : list ProductProof;
  tp_linkage : OpeningProof;
  tp_bits : nat
}.

(** ** Verification *)

Definition verify_square_at (key : Pedersen) (context : bytes) (entry : nat * (Point * ProductProof)) : bool :=
  let '(index, (bit_commitment, bit_proof)) := entry in
  match bit_context context index with
  | Err _ => false
  | Ok context => (verify_square_bit key bit_commitment bit_proof (component_transcript context)).1
  end.

Definition link_transcript (context : bytes) : Transcript :=
  component_transcript (suffixed_context context (bstr ":link")).

Definition verify_threshold_range (key : Pedersen) (commitment : Point) (proof : ThresholdRangeProof)
    (context : bytes) : bool :=
  if negb (length (tp_bit_commitments proof) =? tp_bits proof)
     || negb (length (tp_bit_proofs proof) =? tp_bits proof) then false
  else if negb (forallb (verify_square_at key context)
    (enumerate (zip (tp_bit_commitments proof) (tp_bit_proofs proof)))) then false
  else
    let residual := (commitment - aggregate_bits (tp_bit_commitments proof))%P in
    (verify_zero_opening key (link_transcript context) residual (tp_linkage proof)).1.

(** ** Round one *)

Record RangeRound1 := mkRangeRound1 {
  r1_party : PartyId;
  r1_context_digest : bytes;
  r1_bit_factor : list Point;
  r1_bit_product : list Point;
  r1_linkage : Point
}.

Record RangeRound1Seal := mkRangeRound1Seal { rse_party : PartyId; rse_digest : bytes }.

Record RangeRound1Secret := mkRangeRound1Secret {
  rx_party : PartyId;
  rx_bit_nonces : list (Scalar * Scalar * Scalar);
  rx_linkage_nonce : Scalar * Scalar;
  rx_message_digest : bytes;
  rx_context_digest : bytes
}.

Definition range_round1_digest (message : RangeRound1) : bytes :=
  sha256 (bstr "QOMM:THRESHOLD-RANGE:ROUND1:v1" ++ be_bytes 8 (r1_party message)
    ++ r1_context_digest message ++ be_bytes 8 (N.of_nat (length (r1_bit_factor message)))
    ++ concat (zip_with (fun factor product => compress factor ++ compress product)
         (r1_bit_factor message) (r1_bit_product message))
    ++ compress (r1_linkage message)).

(** Three draws per bit. *)
Fixpoint random_triples {R} `{!ScalarRandom R} (n : nat) (rng : R) : list (Scalar * Scalar * Scalar) * R :=
  match n with
  | O => ([], rng)
  | S n =>
      let (a, rng) := scalar_random rng in
      let (b, rng) := scalar_random rng in
      let (c, rng) := scalar_random rng in
      let (rest, rng) := random_triples n rng in
      ((a, b, c) :: rest, rng)
  end.

Definition prepare_range_round1 {R} `{!ScalarRandom R} (key : Pedersen) (shares : NodeValueShares)
    (context : bytes) (rng : R) : RangeRound1Seal * RangeRound1Secret * RangeRound1 * R :=
  let (bit_nonces, rng) := random_triples (nv_width shares) rng in
  let bit_factor := (fun '(value, blinding, _) => commit key value blinding) <$> bit_nonces in
  let bit_product := zip_with (fun '(value, _, relation) bit =>
    ns_commitment (nb_shared bit) * value + h key * relation)%P bit_nonces (nv_bits shares) in
  let (blinding_nonce, rng) := scalar_random rng in
  let linkage_nonce := (s0, blinding_nonce) in
  let context_digest := sha256 context in
  let message := mkRangeRound1 (nv_party shares) context_digest bit_factor bit_product
    (commit key linkage_nonce.1 linkage_nonce.2) in
  let digest := range_round1_digest message in
  (mkRangeRound1Seal (nv_party shares) digest,
   mkRangeRound1Secret (nv_party shares) bit_nonces linkage_nonce digest context_digest,
   message, rng).

Record RangeChallenge := mkRangeChallenge {
  rc_quorum : list PartyId;
  rc_context_digest : bytes;
  rc_bit_factor : list Point;
  rc_bit_product : list Point;
  rc_bit_challenges : list Scalar;
  rc_linkage : Point;
  rc_linkage_challenge : Scalar
}.

Definition no_range_message : RangeRound1 := mkRangeRound1 0 [] [] [] pid.

Definition check_range_reveal (expected_context : bytes) (width : nat) (by_party : gmap PartyId RangeRound1)
    (seal_by_party : gmap PartyId RangeRound1Seal) (party : PartyId) : result string unit :=
  match by_party !! party, seal_by_party !! party with
  | Some message, Some seal =>
      if negb (bool_decide (r1_context_digest message = expected_context))
         || negb (length (r1_bit_factor message) =? width)
         || negb (length (r1_bit_product message) =? width)
         || negb (bool_decide (range_round1_digest message = rse_digest seal))
      then Err ("party " +:+ pretty party +:+ " supplied an invalid range round-one reveal")
      else Ok tt
  | _, _ => Err "unreachable: the quorum was checked"
  end.

Definition checked_round1 (messages : list RangeRound1) (seals : list RangeRound1Seal)
    (quorum : list PartyId) (context : bytes) (width : nat) : result string (gmap PartyId RangeRound1) :=
  let by_party := collect ((fun m => (r1_party m, m)) <$> messages) in
  let seal_by_party := collect ((fun s => (rse_party s, s)) <$> seals) in
  if negb (size by_party =? length quorum) || negb (size seal_by_party =? length quorum)
     || existsb (fun party => bool_decide (by_party !! party = None)
                              || bool_decide (seal_by_party !! party = None)) quorum
  then Err "round-one messages and seals do not exactly match the quorum"
  else
    _ ← for_each (check_range_reveal (sha256 context) width by_party seal_by_party) quorum;
    Ok by_party.

(** The combined part of the first moves of a quorum. *)
Definition combine_at (by_party : gmap PartyId RangeRound1) (quorum : list PartyId)
    (part : RangeRound1 -> Point) : result string Point :=
  combine_commitments (collect ((fun party =>
    (party, part (default no_range_message (by_party !! party)))) <$> quorum)).

(** One bit: the combined moves and their challenge. *)
Definition bit_round (statement : RangeStatement) (by_party : gmap PartyId RangeRound1)
    (quorum : list PartyId) (context : bytes) (index : nat) : result string (Point * Point * Scalar) :=
  factor ← combine_at by_party quorum (fun m => nth index (r1_bit_factor m) pid);
  product ← combine_at by_party quorum (fun m => nth index (r1_bit_product m) pid);
  component ← bit_context context index;
  let commitment := nth index (rs_bit_commitments statement) pid in
  let (challenge, _) := product_challenge commitment commitment commitment factor product
    (component_transcript component) in
  Ok (factor, product, challenge).

Definition make_range_challenge (statement : RangeStatement) (messages : list RangeRound1)
    (seals : list RangeRound1Seal) (quorum : list PartyId) (context : bytes) : result string RangeChallenge :=
  by_party ← checked_round1 messages seals quorum context (length (rs_bit_commitments statement));
  rounds ← map_res (bit_round statement by_party quorum context) (seq 0 (length (rs_bit_commitments statement)));
  linkage ← combine_at by_party quorum r1_linkage;
  let residual := (rs_commitment statement - aggregate_bits (rs_bit_commitments statement))%P in
  let transcript := append_message (bstr "relation") (bstr "zero-opening:v2") (link_transcript context) in
  let (linkage_challenge, _) := opening_challenge residual linkage transcript in
  Ok (mkRangeChallenge quorum (sha256 context) ((fun r => r.1.1) <$> rounds) ((fun r => r.1.2) <$> rounds)
    ((fun r => r.2) <$> rounds) linkage linkage_challenge).

(** ** Round two *)

Record RangeRound2 := mkRangeRound2 {
  r2_party : PartyId;
  r2_bit_answers : list (Scalar * Scalar * Scalar);
  r2_linkage_answer : Scalar * Scalar
}.

(** The value and blinding left when the weighted bits are taken away. *)
Definition residual_shares (value blinding : Scalar) (bits : list NodeBitShares) : Scalar * Scalar :=
  (foldl (fun '(value, blinding, weight) bit =>
     (value - weight * ns_value_share (nb_shared bit), blinding - weight * ns_blinding_share (nb_shared bit),
      weight + weight)%S) (value, blinding, s1) bits).1.

Definition answer_bit (bit : NodeBitShares) (nonces : Scalar * Scalar * Scalar) (challenge : Scalar) :
    Scalar * Scalar * Scalar :=
  let '(k_value, k_blinding, k_relation) := nonces in
  (k_value + challenge * ns_value_share (nb_shared bit),
   k_blinding + challenge * ns_blinding_share (nb_shared bit),
   k_relation + challenge * nb_cross_share bit)%S.

Definition answer_range_challenge (shares : NodeValueShares) (secret : RangeRound1Secret)
    (challenge : RangeChallenge) : result string RangeRound2 :=
  if negb (nv_party shares =? rx_party secret)%N
     || negb (bool_decide (nv_party shares ∈ rc_quorum challenge))
     || negb (length (rx_bit_nonces secret) =? length (nv_bits shares))
     || bool_decide (rx_message_digest secret = ZERO32)
     || negb (bool_decide (rx_context_digest secret = rc_context_digest challenge))
  then Err "range challenge does not match this node's sealed first round"
  else
    let bit_answers := zip_with (fun '(bit, nonces) challenge => answer_bit bit nonces challenge)
      (zip (nv_bits shares) (rx_bit_nonces secret)) (rc_bit_challenges challenge) in
    let (residual_value, residual_blinding) :=
      residual_shares (nv_value_share shares) (nv_blinding_share shares) (nv_bits shares) in
    Ok (mkRangeRound2 (nv_party shares) bit_answers
      ((rx_linkage_nonce secret).1 + rc_linkage_challenge challenge * residual_value,
       (rx_linkage_nonce secret).2 + rc_linkage_challenge challenge * residual_blinding)%S).

(** ** Assembly *)

(** [for (target, coefficient) in out.iter_mut().zip(ladder) { *target -= coefficient * weight }] *)
Fixpoint subtract_ladder (out ladder : list Point) (weight : Scalar) : list Point :=
  match out, ladder with
  | target :: out, coefficient :: ladder => (target - coefficient * weight)%P :: subtract_ladder out ladder weight
  | _, _ => out
  end.

Definition residual_coefficients (statement : RangeStatement) : list Point :=
  (foldl (fun '(out, weight) ladder => (subtract_ladder out ladder weight, (weight + weight)%S))
     (rs_value_coefficients statement, s1) (rs_bit_coefficients statement)).1.

Definition no_answer : Scalar * Scalar * Scalar := (s0, s0, s0).
Definition no_round2 : RangeRound2 := mkRangeRound2 0 [] (s0, s0).

(** One bit of one party's answer. *)
Definition check_bit_answer (key : Pedersen) (statement : RangeStatement) (relations : RangeRelationStatement)
    (challenge : RangeChallenge) (first : RangeRound1) (answer : RangeRound2) (party : PartyId) (index : nat) :
    result string unit :=
  let '(z_value, z_blinding, z_relation) := nth index (r2_bit_answers answer) no_answer in
  let bit_challenge := nth index (rc_bit_challenges challenge) s0 in
  factor_evaluation ← share_commitment (nth index (rs_bit_coefficients statement) []) party;
  if negb (same_point (commit key z_value z_blinding)
       (nth index (r1_bit_factor first) pid + factor_evaluation * bit_challenge)%P)
  then Err ("party " +:+ pretty party +:+ " supplied a bad bit-" +:+ show_nat index +:+ " factor answer")
  else
    relation_evaluation ← share_commitment (nth index (rrs_coefficients relations) []) party;
    if negb (same_point (nth index (rs_bit_commitments statement) pid * z_value + h key * z_relation)%P
         (nth index (r1_bit_product first) pid + relation_evaluation * bit_challenge)%P)
    then Err ("party " +:+ pretty party +:+ " supplied a bad bit-" +:+ show_nat index +:+ " relation answer")
    else Ok tt.

Definition check_range_answer (key : Pedersen) (statement : RangeStatement) (relations : RangeRelationStatement)
    (challenge : RangeChallenge) (first : gmap PartyId RangeRound1) (answers : gmap PartyId RangeRound2)
    (party : PartyId) : result string unit :=
  let answer := default no_round2 (answers !! party) in
  let message := default no_range_message (first !! party) in
  if negb (length (r2_bit_answers answer) =? length (rs_bit_commitments statement)) then
    Err ("party " +:+ pretty party +:+ " returned the wrong number of bit answers")
  else
    _ ← for_each (check_bit_answer key statement relations challenge message answer party)
          (seq 0 (length (rs_bit_commitments statement)));
    residual_evaluation ← share_commitment (residual_coefficients statement) party;
    if negb (same_point (commit key (r2_linkage_answer answer).1 (r2_linkage_answer answer).2)
         (r1_linkage message + residual_evaluation * rc_linkage_challenge challenge)%P)
    then Err ("party " +:+ pretty party +:+ " supplied a bad range-link answer")
    else Ok tt.

Definition assemble_range_from_rounds (key : Pedersen) (statement : RangeStatement)
    (relations : RangeRelationStatement) (messages : list RangeRound1) (seals : list RangeRound1Seal)
    (responses : list RangeRound2) (quorum : list PartyId) (context : bytes) :
    result string ThresholdRangeProof :=
  if negb (rrs_threshold relations =? rs_threshold statement)
     || negb (length (rrs_coefficients relations) =? length (rs_bit_commitments statement))
  then Err "range relation and value statements have different shapes"
  else
    challenge ← make_range_challenge statement messages seals quorum context;
    let first := collect ((fun m => (r1_party m, m)) <$> messages) in
    let answers := collect ((fun a => (r2_party a, a)) <$> responses) in
    if negb (size answers =? length quorum)
       || existsb (fun party => bool_decide (answers !! party = None)) quorum
    then Err "range responses do not exactly match the quorum"
    else
      _ ← for_each (check_range_answer key statement relations challenge first answers) quorum;
      coefficients ← lagrange_at_zero quorum;
      let bit_proofs := (fun index =>
        let part (f : Scalar * Scalar * Scalar -> Scalar) :=
          interpolated coefficients answers (fun a => f (nth index (r2_bit_answers a) no_answer)) quorum in
        mkProductProof (nth index (rc_bit_factor challenge) pid) (nth index (rc_bit_product challenge) pid)
          (part (fun z => z.1.1)) (part (fun z => z.1.2)) (part (fun z => z.2)))
        <$> seq 0 (length (rs_bit_commitments statement)) in
      let proof := mkThresholdRangeProof (rs_bit_commitments statement) bit_proofs
        (mkOpeningProof (rc_linkage challenge)
          (interpolated coefficients answers (fun a => (r2_linkage_answer a).1) quorum)
          (interpolated coefficients answers (fun a => (r2_linkage_answer a).2) quorum))
        (length (rs_bit_commitments statement)) in
      if negb (verify_threshold_range key (rs_commitment statement) proof context)
      then Err "assembled threshold range proof does not verify"
      else Ok proof.

(** ** Dealing bits *)

Definition range_value_fits (value : N) (width : nat) : bool :=
  (64 <=? width) || (value <? N.shiftl 1 (N.of_nat width))%N.

Definition validate_width (value : N) (width : nat) : result string unit :=
  if (width =? 0) || (64 <? width) then Err "bit width must be between 1 and 64"
  else if negb (range_value_fits value width) then
    Err ("value " +:+ pretty value +:+ " outside [0, 2^" +:+ show_nat width +:+ ")")
  else Ok tt.

Section Dealing.
Context {R : Type} `{!ScalarRandom R}.

(** One bit of the decomposition. *)
Definition deal_bit (key : Pedersen) (value : N) (index : nat) (parties : list PartyId) (threshold : nat)
    (rng : R) : result string (BitShares * R) :=
  let bit_value := scalar_of_N (N.land (N.shiftr value (N.of_nat index)) 1) in
  let (bit_blinding, rng) := scalar_random rng in
  '(shared, rng) ← deal key bit_value bit_blinding parties threshold rng;
  '(cross, rng) ← share_scalar (bit_blinding * (s1 - bit_value))%S parties threshold rng;
  Ok (mkBitShares (ss_commitment shared) (ss_value_shares shared) (ss_blinding_shares shared) cross
    (ss_coefficient_commitments shared), rng).

(** The loop over the bits. *)
Fixpoint deal_bit_loop (key : Pedersen) (value : N) (parties : list PartyId) (threshold : nat)
    (indices : list nat) (rng : R) : result string (list BitShares * R) :=
  match indices with
  | [] => Ok ([], rng)
  | index :: indices =>
      '(bit, rng) ← deal_bit key value index parties threshold rng;
      '(bits, rng) ← deal_bit_loop key value parties threshold indices rng;
      Ok (bit :: bits, rng)
  end.

Definition deal_bits (key : Pedersen) (value : N) (blinding : Scalar) (width : nat)
    (parties : list PartyId) (threshold : nat) (rng : R) : result string (ValueShares * R) :=
  _ ← validate_width value width;
  '(value_shared, rng) ← deal key (scalar_of_N value) blinding parties threshold rng;
  '(bits, rng) ← deal_bit_loop key value parties threshold (seq 0 width) rng;
  Ok (mkValueShares (ss_commitment value_shared) (ss_value_shares value_shared)
    (ss_blinding_shares value_shared) (ss_coefficient_commitments value_shared) bits threshold, rng).

Definition bits_for (key : Pedersen) (shared : Shared) (value : N) (width : nat)
    (parties : list PartyId) (threshold : nat) (rng : R) : result string (ValueShares * R) :=
  _ ← validate_width value width;
  '(bits, rng) ← deal_bit_loop key value parties threshold (seq 0 width) rng;
  Ok (mkValueShares (sh_commitment shared) (sh_value shared) (sh_blinding shared)
    (sh_coefficient_commitments shared) bits threshold, rng).

(** ** The joint prover *)

Record RangeAssemblyTranscript := mkRangeAssemblyTranscript {
  ra_quorum : list PartyId;
  ra_width : nat;
  ra_bit_partials : list ProductAssemblyTranscript;
  ra_linkage_partials : OpeningAssemblyTranscript
}.

Definition no_bit : NodeBitShares := mkNodeBitShares (mkNodeShared 0 pid s0 s0 []) s0.

(** The proof of one bit from the nodes' contributions. *)
Definition joint_prove_bit (key : Pedersen) (first : NodeValueShares) (contributions : list NodeValueShares)
    (quorum : list PartyId) (context : bytes) (index : nat) (rng : R) :
    result string (ProductProof * ProductAssemblyTranscript * R) :=
  let bit_contributions := (fun node =>
    let bit := nth index (nv_bits node) no_bit in
    mkProductNodeContribution (nb_shared bit) (nb_cross_share bit)) <$> contributions in
  let bit_commitment := ns_commitment (nb_shared (nth index (nv_bits first) no_bit)) in
  component ← bit_context context index;
  '(proof, partials, _, rng) ← joint_prove_product_from_contributions key bit_commitment bit_commitment
    bit_contributions quorum (nv_threshold first) (component_transcript component) rng;
  Ok (proof, partials, rng).

Fixpoint joint_prove_bits (key : Pedersen) (first : NodeValueShares) (contributions : list NodeValueShares)
    (quorum : list PartyId) (context : bytes) (indices : list nat) (rng : R) :
    result string (list ProductProof * list ProductAssemblyTranscript * R) :=
  match indices with
  | [] => Ok ([], [], rng)
  | index :: indices =>
      '(proof, partials, rng) ← joint_prove_bit key first contributions quorum context index rng;
      '(proofs, rest, rng) ← joint_prove_bits key first contributions quorum context indices rng;
      Ok (proof :: proofs, partials :: rest, rng)
  end.

Definition joint_prove_range_from_contributions (key : Pedersen) (contributions : list NodeValueShares)
    (quorum : list PartyId) (context : bytes) (rng : R) :
    result string (ThresholdRangeProof * RangeAssemblyTranscript * R) :=
  if negb (length contributions =? length quorum) then
    Err ("received " +:+ show_nat (length contributions) +:+ " range contributions for a quorum of "
      +:+ show_nat (length quorum))
  else
    let by_party := collect ((fun c => (nv_party c, c)) <$> contributions) in
    if negb (size by_party =? length contributions)
       || existsb (fun party => bool_decide (by_party !! party = None)) quorum
    then Err "range contributions do not exactly match the quorum"
    else
      first ← ok_or (head contributions) "a range proof needs at least one node contribution";
      let width := nv_width first in
      if existsb (fun node => negb (nv_width node =? width) || negb (nv_threshold node =? nv_threshold first)
           || negb (same_point (nv_commitment node) (nv_commitment first))) contributions
      then Err "nodes supplied different public range statements"
      else
        '(bit_proofs, bit_partials, rng) ←
          joint_prove_bits key first contributions quorum context (seq 0 width) rng;
        let bit_commitments := (fun bit => ns_commitment (nb_shared bit)) <$> nv_bits first in
        let residual := (nv_commitment first - aggregate_bits bit_commitments)%P in
        let opening_contributions := (fun node =>
          let (value, blinding) := residual_shares (nv_value_share node) (nv_blinding_share node) (nv_bits node) in
          mkOpeningNodeContribution (nv_party node) value blinding) <$> contributions in
        '(linkage, linkage_partials, _, rng) ← joint_zero_opening_from_contributions key residual
          opening_contributions (nv_threshold first) quorum (link_transcript context) rng;
        Ok (mkThresholdRangeProof bit_commitments bit_proofs linkage width,
            mkRangeAssemblyTranscript quorum width bit_partials linkage_partials, rng).
End Dealing.
End Range.
