(* ===== verification/RangeRounds.v ===== *)
(** * Rounds of a threshold range proof

    The honest run: first moves, challenge, answers, the assembler's checks and
    the assembled proof. *)

From S2P Require Import Prelude.
From S2P Require Import Interfaces.
From S2P Require Import Curve.
From S2P Require Import Shamir.
From S2P Require Import ShamirTheorems.
From S2P Require Import Sigma.
From S2P Require Import SigmaProofs.
From S2P Require Import BitrangeProofs.
From S2P Require Import OneOfManyProofs.
From S2P Require Import SigmaTheorems.
From S2P Require Import Threshold.
From S2P Require Import Gadgets.
From S2P Require Import JointProver.
From S2P Require Import ThresholdTheorems.
From S2P Require Import JointTheorems.
From S2P Require Import ProductProofs.
From S2P Require Import ThresholdRange.

(** ** Ledgers of openings

    An extractor writes down the openings it computes.  A ledger whose entries
    all open gives one value to every point, or two of its entries give the
    discrete logarithm of the value generator, computed by [log_of]. *)

Open Scope nat_scope.

Section Ledger.
Context `{SL : ScalarLaws} `{G : !GroupOps} `{L : !GroupLaws}.
Add Field ledger_field : scalar_field.

(** A point with the value and the blinding of an opening of it. *)
Definition Opened : Type := Point * (Scalar * Scalar).
Definition opens (key : Pedersen) (o : Opened) : Prop := o.1 = commit key o.2.1 o.2.2.

Definition log_of (o o' : Opened) : Scalar := ((o'.2.2 - o.2.2) * sinv (o.2.1 - o'.2.1))%S.

(** Two entries open one point to two values. *)
Definition broken (key : Pedersen) (ledger : list Opened) : Prop :=
  exists o o', o ∈ ledger /\ o' ∈ ledger /\ o.1 = o'.1 /\ o.2.1 <> o'.2.1 /\ g key = (h key * log_of o o')%P.

(** One value per point. *)
Definition coherent (ledger : list Opened) : Prop :=
  forall o o', o ∈ ledger -> o' ∈ ledger -> o.1 = o'.1 -> o.2.1 = o'.2.1.

Lemma clash_log key o o' : opens key o -> opens key o' -> o.1 = o'.1 -> o.2.1 <> o'.2.1 -> g key = (h key * log_of o o')%P.
Proof.
  destruct o as [C [v r]], o' as [C' [v' r']]. unfold opens, log_of. cbn. intros -> E' E Hv. rewrite E' in E. clear E'.
  apply ssub_neq_0 in Hv.
  transitivity ((commit key v r - g key * v' - h key * r) * sinv (v - v'))%P.
  - unfold commit. module_split; field; exact Hv.
  - rewrite E. unfold commit. module_split; ring.
Qed.

Lemma ledger_cases key ledger : Forall (opens key) ledger -> broken key ledger \/ coherent ledger.
Proof.
  intros Ho. destruct (decide (Forall (fun o => Forall (fun o' => o.1 = o'.1 -> o.2.1 = o'.2.1) ledger) ledger)) as [Hc|Hc].
  - right. intros o o' H1 H2. rewrite Forall_forall in Hc. specialize (Hc o H1). rewrite Forall_forall in Hc. by apply Hc.
  - left. apply not_Forall_Exists in Hc; [|apply _]. apply Exists_exists in Hc as (o & Hin & Hc).
    apply not_Forall_Exists in Hc; [|intros x; unfold impl; solve_decision].
    apply Exists_exists in Hc as (o' & Hin' & Hc). cbn beta in Hc.
    rewrite Forall_forall in Ho.
    assert (o.1 = o'.1 /\ o.2.1 <> o'.2.1) as [H1 H2].
    { destruct (decide (o.1 = o'.1)) as [E|E]; [|by destruct Hc]. split; [done|]. intros E'. by apply Hc. }
    exists o, o'. split_and!; try done. by apply clash_log; auto.
Qed.

Lemma broken_mono key ledger ledger' : ledger ⊆ ledger' -> broken key ledger -> broken key ledger'.
Proof. intros Hs (o & o' & H1 & H2 & H3). exists o, o'. split; [by apply Hs|]. split; [by apply Hs | done]. Qed.

Lemma coherent_mono ledger ledger' : ledger ⊆ ledger' -> coherent ledger' -> coherent ledger.
Proof. intros Hs Hc o o' H1 H2. apply Hc; by apply Hs. Qed.

Lemma coherent_value ledger C v r v' r' : coherent ledger -> (C, (v, r)) ∈ ledger -> (C, (v', r')) ∈ ledger -> v = v'.
Proof. intros Hc H1 H2. exact (Hc _ _ H1 H2 eq_refl). Qed.
End Ledger.

(** ** Soundness of threshold range proofs

    Two accepted proofs with the same first moves and different challenges give
    a ledger: every bit commitment opened to a value and to its square, and the
    commitment opened to the weighted sum of the bits. *)

Section Extraction.
Context `{SL : ScalarLaws} `{G : !GroupOps} `{L : !GroupLaws}.
Add Field range_extraction_field : scalar_field.

(** What two answers of a product proof open, given an opening of the first
    factor: the second factor and the product. *)
Definition factor_opening (p p' : ProductProof) (c c' : Scalar) : Scalar * Scalar :=
  (extracted (pp_z_b p) (pp_z_b p') c c', extracted (pp_z_rb p) (pp_z_rb p') c c').
Definition product_opening (a : Scalar * Scalar) (p p' : ProductProof) (c c' : Scalar) : Scalar * Scalar :=
  let b := extracted (pp_z_b p) (pp_z_b p') c c' in ((a.1 * b)%S, (a.2 * b + extracted (pp_z_s p) (pp_z_s p') c c')%S).
Definition product_opened (a : Scalar * Scalar) (c_b c_c : Point) (p p' : ProductProof) (c c' : Scalar) : list Opened :=
  [(c_b, factor_opening p p' c c'); (c_c, product_opening a p p' c c')].

(** For a square, the second factor is the first. *)
Definition square_opened (C : Point) (p p' : ProductProof) (c c' : Scalar) : list Opened :=
  product_opened (factor_opening p p' c c') C C p p' c c'.

Lemma product_opened_opens (T T' : TranscriptOps) key c_a c_b c_c p p' (tr : @Transcript T) (tr' : @Transcript T') a :
  (verify_product (T:=T) key tr c_a c_b c_c p).1 = true -> (verify_product (T:=T') key tr' c_a c_b c_c p').1 = true ->
  pp_t_factor p = pp_t_factor p' -> pp_t_product p = pp_t_product p' ->
  product_at (T:=T) c_a c_b c_c p tr <> product_at (T:=T') c_a c_b c_c p' tr' ->
  opens key (c_a, a) ->
  Forall (opens key) (product_opened a c_b c_c p p' (product_at (T:=T) c_a c_b c_c p tr) (product_at (T:=T') c_a c_b c_c p' tr')).
Proof.
  intros Hv Hv' E1 E2 Hc Ha. destruct (product_extracted T T' key c_a c_b c_c p p' tr tr' Hv Hv' E1 E2 Hc) as [Hb Hp].
  unfold product_opened. repeat constructor; [exact Hb | exact (Hp _ _ Ha)].
Qed.

Lemma square_opened_opens (T T' : TranscriptOps) key C p p' (tr : @Transcript T) (tr' : @Transcript T') :
  (verify_product (T:=T) key tr C C C p).1 = true -> (verify_product (T:=T') key tr' C C C p').1 = true ->
  pp_t_factor p = pp_t_factor p' -> pp_t_product p = pp_t_product p' ->
  product_at (T:=T) C C C p tr <> product_at (T:=T') C C C p' tr' ->
  Forall (opens key) (square_opened C p p' (product_at (T:=T) C C C p tr) (product_at (T:=T') C C C p' tr')).
Proof.
  intros Hv Hv' E1 E2 Hc. apply product_opened_opens; try done.
  exact (proj1 (product_extracted T T' key C C C p p' tr tr' Hv Hv' E1 E2 Hc)).
Qed.

Definition is_bit (b : Scalar) : Prop := b = s0 \/ b = s1.

Lemma square_is_bit (b : Scalar) : b = (b * b)%S -> is_bit b.
Proof.
  intros E. destruct (decide (b = s0)) as [|Hb]; [by left|]. right.
  assert (b * (b - s1) = s0)%S as E0 by (replace (b * (b - s1))%S with (b * b - b)%S by ring; rewrite <- E; ring).
  apply smul_eq_0 in E0 as [|E0]; [done | by apply ssub_eq_0].
Qed.

(** A coherent ledger with a square in it opened a bit. *)
Lemma square_coherent ledger C p p' c c' : square_opened C p p' c c' ⊆ ledger -> coherent ledger ->
  is_bit (factor_opening p p' c c').1.
Proof.
  intros Hs Hc. apply square_is_bit. refine (coherent_value ledger C _ _ _ _ Hc (Hs _ _) (Hs _ _)).
  - apply elem_of_cons. left. reflexivity.
  - apply elem_of_cons. right. apply elem_of_cons. left. reflexivity.
Qed.

(** ** All the bits *)

(** The challenge of the bit at an index, and the challenge of the link. *)
Definition square_leaf `{T : TranscriptOps} (context : bytes) (entry : nat * (Point * ProductProof)) : Scalar :=
  let '(index, (C, proof)) := entry in
  match bit_context context index with
  | Ok context => product_at C C C proof (component_transcript context)
  | Err _ => s0
  end.

Definition square_leaves `{T : TranscriptOps} (context : bytes) (proof : ThresholdRangeProof) : list Scalar :=
  square_leaf context <$> enumerate (zip (tp_bit_commitments proof) (tp_bit_proofs proof)).

Definition linkage_leaf `{T : TranscriptOps} (C : Point) (context : bytes) (proof : ThresholdRangeProof) : Scalar :=
  zero_challenge (C - aggregate_bits (tp_bit_commitments proof))%P (op_t (tp_linkage proof)) (link_transcript context).

(** The same first moves, different challenges at every bit and at the link. *)
Record range_forked (T T' : TranscriptOps) (C : Point) (context : bytes) (p p' : ThresholdRangeProof) : Prop := {
  forked_commitments : tp_bit_commitments p = tp_bit_commitments p';
  forked_factor : pp_t_factor <$> tp_bit_proofs p = pp_t_factor <$> tp_bit_proofs p';
  forked_product : pp_t_product <$> tp_bit_proofs p = pp_t_product <$> tp_bit_proofs p';
  forked_linkage : op_t (tp_linkage p) = op_t (tp_linkage p');
  forked_bits : Forall2 (fun c c' => c <> c') (square_leaves (T:=T) context p) (square_leaves (T:=T') context p');
  forked_link : linkage_leaf (T:=T) C context p <> linkage_leaf (T:=T') C context p'
}.

(** The pairs of answers with their pairs of challenges, and the opening each
    gives. *)
Definition answers (ps ps' : list ProductProof) (cs cs' : list Scalar) : list ((ProductProof * ProductProof) * (Scalar * Scalar)) :=
  zip (zip ps ps') (zip cs cs').
Definition answer_opening (a : (ProductProof * ProductProof) * (Scalar * Scalar)) : Scalar * Scalar :=
  let '((p, p'), (c, c')) := a in factor_opening p p' c c'.

Definition squares_opened (Cs : list Point) (l : list ((ProductProof * ProductProof) * (Scalar * Scalar))) : list Opened :=
  concat (zip_with (fun C '((p, p'), (c, c')) => square_opened C p p' c c') Cs l).

Definition range_opening (T T' : TranscriptOps) (C : Point) (context : bytes) (p p' : ThresholdRangeProof) : Scalar * Scalar :=
  let l := answers (tp_bit_proofs p) (tp_bit_proofs p') (square_leaves (T:=T) context p) (square_leaves (T:=T') context p') in
  (weighted (answer_opening <$> l).*1,
   (weighted (answer_opening <$> l).*2
    + extracted (op_z_blinding (tp_linkage p)) (op_z_blinding (tp_linkage p')) (linkage_leaf (T:=T) C context p) (linkage_leaf (T:=T') C context p'))%S).

(** Everything two answers of a range proof open. *)
Definition range_opened (T T' : TranscriptOps) (C : Point) (context : bytes) (p p' : ThresholdRangeProof) : list Opened :=
  squares_opened (tp_bit_commitments p)
    (answers (tp_bit_proofs p) (tp_bit_proofs p') (square_leaves (T:=T) context p) (square_leaves (T:=T') context p'))
  ++ [(C, range_opening T T' C context p p')].

(** The number the extracted bits write. *)
Definition range_value (T T' : TranscriptOps) (context : bytes) (p p' : ThresholdRangeProof) : N :=
  bits_to_N ((fun a => bool_decide ((answer_opening a).1 = s1)) <$>
    answers (tp_bit_proofs p) (tp_bit_proofs p') (square_leaves (T:=T) context p) (square_leaves (T:=T') context p')).

Lemma verify_threshold_range_parts `{T : TranscriptOps} key C proof context :
  verify_threshold_range key C proof context = true <->
  length (tp_bit_commitments proof) = tp_bits proof /\ length (tp_bit_proofs proof) = tp_bits proof
  /\ forallb (verify_square_at key context) (enumerate (zip (tp_bit_commitments proof) (tp_bit_proofs proof))) = true
  /\ (verify_zero_opening key (link_transcript context)
        (C - aggregate_bits (tp_bit_commitments proof))%P (tp_linkage proof)).1 = true.
Proof.
  unfold verify_threshold_range. rewrite <- !Nat.eqb_eq.
  destruct (_ =? _), (_ =? _); cbn [negb orb]; try (split; [done | by intros (? & ? & _)]).
  destruct (forallb _ _); cbn [negb]; [tauto|]. split; [done | by intros (_ & _ & ? & _)].
Qed.

Lemma weighted_bits bs : weighted (bit_scalar <$> bs) = scalar_of_N (bits_to_N bs).
Proof.
  induction bs as [|b bs IH]; [done|]. rewrite fmap_cons, bits_to_N_cons, scalar_of_N_add, scalar_of_N_mul.
  change (weighted (bit_scalar b :: (bit_scalar <$> bs))) with (bit_scalar b + (weighted (bit_scalar <$> bs) + weighted (bit_scalar <$> bs)))%S.
  rewrite IH. change (scalar_of_N 2) with (s1 + s1)%S. replace (scalar_of_N (if b then 1 else 0)) with (bit_scalar b) by (by destruct b). ring.
Qed.

Lemma weighted_commits key bs rs : length bs = length rs ->
  weighted_points (zip_with (commit key) bs rs) = commit key (weighted bs) (weighted rs).
Proof.
  revert rs. induction bs as [|b bs IH]; intros [|r rs] Hl; try done.
  - unfold commit. cbn. module_split; ring.
  - injection Hl as Hl. cbn [zip_with weighted_points weighted foldr]. fold (weighted_points (zip_with (commit key) bs rs)) (weighted bs) (weighted rs).
    rewrite IH by done. unfold commit. module_split; ring.
Qed.

Lemma squares_coherent ledger : forall Cs l, length Cs = length l -> squares_opened Cs l ⊆ ledger -> coherent ledger ->
  Forall (fun a => is_bit (answer_opening a).1) l.
Proof.
  induction Cs as [|C Cs IH]; intros [|[[p p'] [c c']] l] Hl Hs Hc; try done. injection Hl as Hl.
  unfold squares_opened in Hs. cbn [zip_with concat] in Hs. constructor.
  - apply (square_coherent ledger C p p' c c'); [|done]. intros o Ho. apply Hs, elem_of_app. by left.
  - apply IH; [done| |done]. intros o Ho. apply Hs, elem_of_app. by right.
Qed.

Section TwoOracles.
Variables (T T' : TranscriptOps).

Lemma squares_extracted key context Cs : forall ps ps' s,
  length ps = length Cs -> length ps' = length Cs ->
  forallb (verify_square_at (T:=T) key context) (zip (seq s (length Cs)) (zip Cs ps)) = true ->
  forallb (verify_square_at (T:=T') key context) (zip (seq s (length Cs)) (zip Cs ps')) = true ->
  pp_t_factor <$> ps = pp_t_factor <$> ps' -> pp_t_product <$> ps = pp_t_product <$> ps' ->
  let cs := square_leaf (T:=T) context <$> zip (seq s (length Cs)) (zip Cs ps) in
  let cs' := square_leaf (T:=T') context <$> zip (seq s (length Cs)) (zip Cs ps') in
  Forall2 (fun c c' => c <> c') cs cs' ->
  let l := answers ps ps' cs cs' in
  Forall (opens key) (squares_opened Cs l) /\ length l = length Cs
  /\ Cs = zip_with (commit key) (answer_opening <$> l).*1 (answer_opening <$> l).*2.
Proof.
  induction Cs as [|C Cs IH]; intros [|p ps] [|p' ps'] s Hl Hl'; try done. injection Hl as Hl. injection Hl' as Hl'.
  intros Hv Hv' Ef Ep cs cs' Hd. cbn [length seq zip zip_with forallb] in Hv, Hv'.
  apply andb_true_iff in Hv as [Hv Hvs]. apply andb_true_iff in Hv' as [Hv' Hvs'].
  cbn [fmap list_fmap] in Ef, Ep. injection Ef as Ef Efs. injection Ep as Ep Eps. cbn in cs, cs'. subst cs cs'.
  apply Forall2_cons in Hd as [Hd Hds].
  destruct (IH ps ps' (S s) Hl Hl' Hvs Hvs' Efs Eps Hds) as (Ho & Hlen & HCs). clear IH.
  unfold verify_square_at in Hv, Hv'. unfold answers, squares_opened in *. unfold square_leaf in Hd.
  destruct (bit_context context s) as [c|] eqn:Hbc; [|done].
  pose proof (square_opened_opens T T' key C p p' _ _ Hv Hv' Ef Ep Hd) as Hsq.
  cbn [zip zip_with concat length fmap list_fmap]. split; [|split].
  - apply Forall_app. split; [|exact Ho]. exact Hsq.
  - f_equal. exact Hlen.
  - f_equal; [|exact HCs]. exact (Forall_inv Hsq).
Qed.

Lemma threshold_range_opens key C context p p' :
  verify_threshold_range (T:=T) key C p context = true -> verify_threshold_range (T:=T') key C p' context = true ->
  range_forked T T' C context p p' ->
  Forall (opens key) (range_opened T T' C context p p')
  /\ forall ledger, range_opened T T' C context p p' ⊆ ledger -> coherent ledger ->
       (range_value T T' context p p' < 2 ^ N.of_nat (tp_bits p))%N
       /\ (range_opening T T' C context p p').1 = scalar_of_N (range_value T T' context p p').
Proof.
  rewrite !verify_threshold_range_parts. intros (Hl1 & Hl2 & Hf & Hz) (Hl1' & Hl2' & Hf' & Hz') [E1 E2 E3 E4 E5 E6].
  unfold range_opened, range_opening, range_value, linkage_leaf, square_leaves in *. rewrite <- E1 in *. set (Cs := tp_bit_commitments p) in *.
  unfold enumerate in *. rewrite !length_zip_with in *.
  replace (length Cs `min` length (tp_bit_proofs p)) with (length Cs) in * by lia.
  replace (length Cs `min` length (tp_bit_proofs p')) with (length Cs) in * by lia.
  destruct (squares_extracted key context Cs (tp_bit_proofs p) (tp_bit_proofs p') 0 ltac:(lia) ltac:(lia) Hf Hf' E2 E3 E5)
    as (Ho & Hl & HCs).
  set (l := answers _ _ _ _) in *. clearbody l. pose proof (zero_opening_extracted T T' key _ _ _ _ _ Hz Hz' E4 E6) as Hr. cbv zeta in Hr.
  set (r := extracted _ _ _ _) in Hr |- *. clearbody r. split.
  - apply Forall_app. split; [exact Ho|]. repeat constructor. unfold opens. cbn [fst snd].
    rewrite aggregate_bits_spec in Hr. rewrite HCs in Hr at 1. rewrite weighted_commits in Hr by (by rewrite !length_fmap).
    transitivity (commit key s0 r + commit key (weighted (answer_opening <$> l).*1) (weighted (answer_opening <$> l).*2))%P.
    + rewrite <- Hr. module_split; ring.
    + unfold commit. module_split; ring.
  - intros ledger Hs Hc. split.
    + eapply N.lt_le_trans; [apply bits_to_N_bound|]. by rewrite length_fmap, Hl, <- Hl1.
    + cbn [fst]. rewrite <- weighted_bits. f_equal.
      assert (Forall (fun a => is_bit (answer_opening a).1) l) as Hbits.
      { apply (squares_coherent ledger Cs l); [by symmetry| |done]. intros o Hin. apply Hs, elem_of_app. by left. }
      clear -Hbits SL. induction Hbits as [|a l Ha _ IH]; [done|]. cbn. f_equal; [|exact IH].
      destruct Ha as [-> | ->]; by case_bool_decide as E.
Qed.
End TwoOracles.
End Extraction.

(** ** Statements of shared ranges

    Parties that hold shares of a value and of its bits publish evaluations from
    which the range statement and the relation statement are interpolated; each
    party's own shares bind to the statement. *)

Open Scope nat_scope.

Lemma head_fmap_nonempty {A B} (f : A -> B) l (d : A) : l <> [] -> head (f <$> l) = Some (f (default d (head l))).
Proof. by destruct l. Qed.

(** The polynomials behind one bit: its value, its blinding and its cross term. *)
Record BitPolys `{ScalarOps} := mkBitPolys { bp_bit : list Scalar; bp_blind : list Scalar; bp_cross : list Scalar }.

Section Statements.
Context `{SL : ScalarLaws} `{!ScalarLarge} `{G : !GroupOps} `{L : !GroupLaws} `{CL : !CompressLaws}.
Add Field range_statements_field : scalar_field.
Variables (key : Pedersen) (t : nat) (parties : list PartyId) (P Q : list Scalar) (bits : list BitPolys).
Hypothesis (Hgood : good_parties parties) (Ht : t < length parties).
Hypothesis (HP : length P = t + 1) (HQ : length Q = t + 1).
Hypothesis (Hbits : Forall (fun b => length (bp_bit b) = t + 1 /\ length (bp_blind b) = t + 1 /\ length (bp_cross b) = t + 1) bits).
Hypothesis (Hne : bits <> []).

Definition at_party (p : list Scalar) (q : PartyId) : Scalar := evaluate p (scalar_of_N q).

(** The commitment to a bit, and the key under which its relation is a commitment. *)
Definition bit_point (b : BitPolys) : Point := commit key (evaluate (bp_bit b) s0) (evaluate (bp_blind b) s0).
Definition relation_key (b : BitPolys) : Pedersen := mkPedersen (bit_point b) (h key).

Definition local_at (q : PartyId) : LocalRangeShares :=
  mkLocalRangeShares q (at_party P q) (at_party Q q)
    ((fun b => (at_party (bp_bit b) q, at_party (bp_blind b) q, at_party (bp_cross b) q)) <$> bits) t.

Definition value_ladder : list Point := zip_with (commit key) P Q.
Definition bit_ladder (b : BitPolys) : list Point := zip_with (commit key) (bp_bit b) (bp_blind b).
Definition cross_ladder (b : BitPolys) : list Point := zip_with (commit (relation_key b)) (bp_bit b) (bp_cross b).

Definition the_statement : RangeStatement :=
  mkRangeStatement (commit key (evaluate P s0) (evaluate Q s0)) value_ladder (bit_point <$> bits) (bit_ladder <$> bits) t.

Definition node_at (q : PartyId) : NodeValueShares :=
  mkNodeValueShares q (rs_commitment the_statement) (at_party P q) (at_party Q q) value_ladder
    ((fun b => mkNodeBitShares (mkNodeShared q (bit_point b) (at_party (bp_bit b) q) (at_party (bp_blind b) q) (bit_ladder b))
        (at_party (bp_cross b) q)) <$> bits) t.

Definition the_relations : RangeRelationStatement := mkRangeRelationStatement (cross_ladder <$> bits) t.

Lemma valid_at q : q ∈ parties -> valid_party q.
Proof. destruct Hgood as (_ & _ & Hv). rewrite Forall_forall in Hv. apply Hv. Qed.

(** Evaluations of a committed pair of polynomials interpolate to its ladder. *)
Lemma committed_ladder k (A B : list Scalar) (F : PartyId -> Point) : length A = t + 1 -> length B = t + 1 ->
  (forall q, F q = commit k (at_party A q) (at_party B q)) ->
  coefficient_commitments_from_evaluations (collect (entries F parties)) t = Ok (zip_with (commit k) A B).
Proof.
  intros HA HB HF. pose proof Hgood as (_ & Hnd & _). apply coefficients_spec. rewrite collect_of_size, length_zip_with by done.
  split; [lia|]. split; [lia|]. intros q C HC. apply collect_lookup in HC; [|by rewrite entries_keys].
  apply list_elem_of_fmap in HC as (q' & [= -> ->] & Hq). apply share_commitment_ok. split; [by apply valid_at|].
  rewrite HF. symmetry. apply ladder_commit. lia.
Qed.

Lemma ladder_constant k (A B : list Scalar) : length A = t + 1 -> length B = t + 1 ->
  nth 0 (zip_with (commit k) A B) pid = commit k (evaluate A s0) (evaluate B s0).
Proof.
  intros HA HB. destruct A as [|a A]; [cbn in HA; lia|]. destruct B as [|b B]; [cbn in HB; lia|]. cbn [zip_with nth].
  by rewrite !evaluate_at_zero.
Qed.

Lemma bit_lengths b : b ∈ bits -> length (bp_bit b) = t + 1 /\ length (bp_blind b) = t + 1 /\ length (bp_cross b) = t + 1.
Proof. rewrite Forall_forall in Hbits. apply Hbits. Qed.

Lemma local_evaluations q :
  lr_evaluations key (local_at q) = mkRangeEvaluations q (commit key (at_party P q) (at_party Q q))
    ((fun b => commit key (at_party (bp_bit b) q) (at_party (bp_blind b) q)) <$> bits).
Proof. unfold lr_evaluations, local_at. cbn. by rewrite <- list_fmap_compose. Qed.

(** Reading the bit at an index. *)
Lemma map_res_indices {E A B} (f : nat -> result E B) (g : A -> B) (l : list A) :
  (forall i a, l !! i = Some a -> f i = Ok (g a)) -> map_res f (seq 0 (length l)) = Ok (g <$> l).
Proof.
  intros Hf. apply map_res_ok. apply Forall2_fmap_r. apply Forall2_same_length_lookup_2; [by rewrite length_seq|].
  intros i j a Hj Ha. apply lookup_seq in Hj as [-> _]. by apply Hf.
Qed.

Lemma the_statement_ok :
  range_statement_from_evaluations ((fun q => lr_evaluations key (local_at q)) <$> parties) t = Ok the_statement.
Proof.
  pose proof Hgood as (Hpne & Hnd & _). unfold range_statement_from_evaluations.
  rewrite (list_fmap_ext _ (fun q => mkRangeEvaluations q (commit key (at_party P q) (at_party Q q))
    ((fun b => commit key (at_party (bp_bit b) q) (at_party (bp_blind b) q)) <$> bits))) by (intros ? q _; apply local_evaluations).
  rewrite (head_fmap_nonempty _ _ 0%N) by done. cbn [ok_or mbind result_bind re_bits]. rewrite length_fmap, (proj2 (Nat.ltb_ge _ _)) by lia.
  rewrite bool_decide_eq_false_2 by (by intros E%fmap_nil_inv).
  rewrite existsb_none.
  2:{ intros e He. apply list_elem_of_fmap in He as (q & -> & _). cbn. by rewrite !length_fmap, Nat.eqb_refl. }
  cbn [orb]. rewrite <- list_fmap_compose. 
  change (collect (_ <$> parties)) with (collect (entries (fun q => commit key (at_party P q) (at_party Q q)) parties)).
  rewrite collect_of_size, Nat.eqb_refl by done. cbn [negb].
  rewrite (committed_ladder key P Q) by done. cbn [mbind result_bind]. rewrite length_fmap.
  rewrite (map_res_indices _ bit_ladder bits).
  - cbn [mbind result_bind]. unfold the_statement, value_ladder. rewrite ladder_constant by done. do 2 f_equal.
    rewrite <- list_fmap_compose. apply list_fmap_ext. intros i b Hb. apply list_elem_of_lookup_2, bit_lengths in Hb.
    cbn. unfold bit_ladder. rewrite ladder_constant; [done|lia..].
  - intros i b Hb. rewrite <- list_fmap_compose.
    pose proof (bit_lengths b (list_elem_of_lookup_2 _ _ _ Hb)) as (H1' & H2' & _).
    unfold bit_ladder. rewrite <- (committed_ladder key (bp_bit b) (bp_blind b)
      (fun q => commit key (at_party (bp_bit b) q) (at_party (bp_blind b) q))) by done.
    do 2 f_equal. unfold entries. apply list_fmap_ext. intros ? q _. cbn. f_equal.
    apply nth_lookup_Some. by rewrite list_lookup_fmap, Hb.
Qed.

Lemma bit_bound i b q : q ∈ parties -> bits !! i = Some b ->
  bind_bit key the_statement q (i, (at_party (bp_bit b) q, at_party (bp_blind b) q, at_party (bp_cross b) q))
  = Ok (mkNodeBitShares (mkNodeShared q (bit_point b) (at_party (bp_bit b) q) (at_party (bp_blind b) q) (bit_ladder b))
        (at_party (bp_cross b) q)).
Proof.
  intros Hq Hb. unfold bind_bit, the_statement. cbn [rs_bit_coefficients rs_bit_commitments].
  rewrite (nth_lookup_Some (bit_ladder <$> bits) i [] (bit_ladder b)) by (by rewrite list_lookup_fmap, Hb).
  rewrite (nth_lookup_Some (bit_point <$> bits) i pid (bit_point b)) by (by rewrite list_lookup_fmap, Hb).
  rewrite (proj2 (share_commitment_ok _ q _)) by (split; [by apply valid_at | done]). cbn [mbind result_bind].
  pose proof (bit_lengths b (list_elem_of_lookup_2 _ _ _ Hb)) as (H1' & H2' & _).
  unfold bit_ladder at 1. rewrite ladder_commit by lia. fold (at_party (bp_bit b) q) (at_party (bp_blind b) q).
  by rewrite same_point_refl.
Qed.

Lemma the_binding q : q ∈ parties -> bind_range key (local_at q) the_statement = Ok (node_at q).
Proof.
  intros Hq. unfold bind_range. cbn [lr_threshold lr_bits lr_party lr_value_share lr_blinding_share local_at
    rs_threshold rs_bit_commitments rs_bit_coefficients rs_value_coefficients the_statement].
  rewrite !length_fmap, !Nat.eqb_refl. cbn [negb orb].
  rewrite (proj2 (share_commitment_ok _ q _)) by (split; [by apply valid_at | done]). cbn [mbind result_bind].
  unfold value_ladder at 1. rewrite ladder_commit by lia. fold (at_party P q) (at_party Q q). rewrite same_point_refl. cbn [negb].
  assert (map_res (bind_bit key the_statement q) (enumerate ((fun b =>
      (at_party (bp_bit b) q, at_party (bp_blind b) q, at_party (bp_cross b) q)) <$> bits)) = Ok (nv_bits (node_at q))) as Hm.
  { apply map_res_ok. cbn [nv_bits node_at]. apply Forall2_fmap_r. unfold enumerate. rewrite length_fmap.
    apply Forall2_same_length_lookup_2; [rewrite length_zip_with, length_fmap, length_seq; lia|].
    intros i [j x] b Hj Hb. apply lookup_zip_Some in Hj as [Hj Hx]. apply lookup_seq in Hj as [-> _].
    rewrite list_lookup_fmap, Hb in Hx. injection Hx as <-. by apply bit_bound. }
  rewrite Hm. done.
Qed.

(** The relation evaluations, when every bit's relation holds. *)
Lemma the_relations_ok :
  Forall (fun b => commit (relation_key b) (evaluate (bp_bit b) s0) (evaluate (bp_cross b) s0) = bit_point b) bits ->
  range_relations_from_evaluations the_statement ((fun q => relation_evaluations key (node_at q)) <$> parties) = Ok the_relations.
Proof.
  intros Hrel. pose proof Hgood as (_ & Hnd & _). rewrite Forall_forall in Hrel.
  unfold range_relations_from_evaluations. cbn [rs_threshold rs_bit_commitments the_statement].
  rewrite !length_fmap, (proj2 (Nat.ltb_ge _ _)) by lia. rewrite existsb_none.
  2:{ intros e He. apply list_elem_of_fmap in He as (q & -> & _). cbn. by rewrite !length_fmap, Nat.eqb_refl. }
  cbn [orb]. rewrite <- list_fmap_compose. rewrite (list_fmap_ext (rr_party ∘ _) id) by done. rewrite list_fmap_id.
  rewrite (proj2 (all_distinct_spec _) Hnd). cbn [negb].
  rewrite (map_res_indices _ cross_ladder bits); [done|]. intros i b Hb.
  pose proof (list_elem_of_lookup_2 _ _ _ Hb) as Hin. destruct (bit_lengths b Hin) as (H1' & H2' & H3').
  rewrite <- list_fmap_compose.
  rewrite (list_fmap_ext _ (fun q => (q, commit (relation_key b) (at_party (bp_bit b) q) (at_party (bp_cross b) q)))).
  - fold (entries (fun q => commit (relation_key b) (at_party (bp_bit b) q) (at_party (bp_cross b) q)) parties).
    rewrite (committed_ladder (relation_key b) (bp_bit b) (bp_cross b)) by done. cbn [mbind result_bind].
    rewrite ladder_constant by done. rewrite (Hrel b Hin).
    rewrite (nth_lookup_Some (bit_point <$> bits) i pid (bit_point b)) by (by rewrite list_lookup_fmap, Hb).
    by rewrite same_point_refl.
  - intros ? q _. cbn. f_equal. apply nth_lookup_Some. by rewrite !list_lookup_fmap, Hb.
Qed.
End Statements.

Open Scope nat_scope.

Lemma random_triples_length `{ScalarOps} {R} `{!ScalarRandom R} n : forall rng : R, length (random_triples n rng).1 = n.
Proof.
  induction n as [|n IH]; intros rng; [done|]. cbn. destruct (scalar_random rng) as [a r1], (scalar_random r1) as [b r2], (scalar_random r2) as [c r3].
  specialize (IH r3). destruct (random_triples n r3). cbn in *. by rewrite IH.
Qed.

(** ** Residual polynomials *)

Section Residuals.
Context `{SL : ScalarLaws} `{G : !GroupOps} `{L : !GroupLaws}.
Add Field residual_field : scalar_field.

Lemma weighted_cons (a : Scalar) l : weighted (a :: l) = (a + (weighted l + weighted l))%S.
Proof. done. Qed.

(** What is left of a polynomial when the weighted bits are taken away. *)
Definition residual_poly (bits : list BitPolys) (p : list Scalar) (part : BitPolys -> list Scalar) (weight : Scalar) :=
  (foldl (fun '(p, weight) b => (poly_sub p (poly_scale weight (part b)), (weight + weight)%S)) (p, weight) bits).1.

Lemma residual_poly_cons b bits p part weight :
  residual_poly (b :: bits) p part weight = residual_poly bits (poly_sub p (poly_scale weight (part b))) part (weight + weight)%S.
Proof. done. Qed.

Lemma residual_evaluate bits part x : forall p weight,
  evaluate (residual_poly bits p part weight) x
  = (evaluate p x - weight * weighted ((fun b => evaluate (part b) x) <$> bits))%S.
Proof.
  induction bits as [|b bits IH]; intros p weight.
  - cbn [residual_poly foldl fst fmap list_fmap]. change (weighted ([] : list Scalar)) with s0. change (residual_poly [] p part weight) with p. ring.
  - rewrite residual_poly_cons, IH, evaluate_sub, evaluate_scale, fmap_cons, weighted_cons. ring.
Qed.

Lemma residual_length n bits part : Forall (fun b => length (part b) = n) bits ->
  forall p weight, length p = n -> length (residual_poly bits p part weight) = n.
Proof.
  induction 1 as [|b bits Hb _ IH]; intros p weight Hp; [done|]. rewrite residual_poly_cons. apply IH.
  rewrite poly_sub_length, poly_scale_length. lia.
Qed.

Lemma subtract_ladder_commit key (P Q A B : list Scalar) (w : Scalar) :
  length P = length Q -> length A = length P -> length B = length P ->
  subtract_ladder (zip_with (commit key) P Q) (zip_with (commit key) A B) w
  = zip_with (commit key) (poly_sub P (poly_scale w A)) (poly_sub Q (poly_scale w B)).
Proof.
  unfold poly_sub. revert Q A B. induction P as [|p P IH]; intros [|q Q] [|a A] [|b B] E1 E2 E3; try done.
  cbn in *. rewrite IH by lia. f_equal. unfold commit. module_split; ring.
Qed.

Lemma residual_ladder key n bits :
  Forall (fun b => length (bp_bit b) = n /\ length (bp_blind b) = n) bits ->
  forall P Q weight, length P = n -> length Q = n ->
  (foldl (fun '(out, weight) ladder => (subtract_ladder out ladder weight, (weight + weight)%S))
     (zip_with (commit key) P Q, weight) (bit_ladder key <$> bits)).1
  = zip_with (commit key) (residual_poly bits P bp_bit weight) (residual_poly bits Q bp_blind weight).
Proof.
  induction 1 as [|b bits [H1' H2'] _ IH]; intros P Q weight HP HQ; [done|]. cbn [fmap list_fmap foldl].
  unfold bit_ladder at 1. rewrite subtract_ladder_commit by lia. rewrite !residual_poly_cons.
  apply IH; rewrite poly_sub_length, poly_scale_length; lia.
Qed.

(** A party's residual shares are values of the residual polynomials. *)
Lemma residual_shares_at key bits q : forall v r weight,
  (foldl (fun '(value, blinding, weight) bit =>
     (value - weight * ns_value_share (nb_shared bit), blinding - weight * ns_blinding_share (nb_shared bit),
      weight + weight)%S) (v, r, weight)
     ((fun b => mkNodeBitShares (mkNodeShared q (bit_point key b) (at_party (bp_bit b) q) (at_party (bp_blind b) q) (bit_ladder key b))
        (at_party (bp_cross b) q)) <$> bits)).1
  = (v - weight * weighted ((fun b => at_party (bp_bit b) q) <$> bits),
     r - weight * weighted ((fun b => at_party (bp_blind b) q) <$> bits))%S.
Proof.
  induction bits as [|b bits IH]; intros v r weight.
  - cbn [foldl fst fmap list_fmap]. change (weighted ([] : list Scalar)) with s0. f_equal; ring.
  - cbn [fmap list_fmap foldl nb_shared ns_value_share ns_blinding_share]. rewrite IH. 
    change (list_fmap _ _ ?f ?l) with (f <$> l). rewrite !weighted_cons. f_equal; ring.
Qed.
End Residuals.

Section Rounds.
Context `{SL : ScalarLaws} `{!ScalarLarge} `{G : !GroupOps} `{L : !GroupLaws} `{T : TranscriptOps} `{Sha256}.
Context {R : Type} `{!ScalarRandom R}.
Add Field range_rounds_field : scalar_field.
Variables (key : Pedersen) (t : nat) (P Q : list Scalar) (bits : list BitPolys) (context : bytes).
Variables (quorum : list PartyId) (seeds : PartyId -> R).
Hypothesis (HP : length P = t + 1) (HQ : length Q = t + 1).
Hypothesis (Hbits : Forall (fun b => length (bp_bit b) = t + 1 /\ length (bp_blind b) = t + 1 /\ length (bp_cross b) = t + 1) bits).
Hypothesis (Hrel : Forall (fun b => commit (relation_key key b) (evaluate (bp_bit b) s0) (evaluate (bp_cross b) s0) = bit_point key b) bits).
Hypothesis (Hvalue : evaluate P s0 = weighted ((fun b => evaluate (bp_bit b) s0) <$> bits)).
Hypothesis (Hgood : good_parties quorum) (Ht : t < length quorum) (Hwidth : (N.of_nat (length bits) <= 65536)%N).

#[local] Abbreviation node := (node_at key t P Q bits).
#[local] Abbreviation st := (the_statement key t P Q bits).

Definition prepared_range (q : PartyId) := prepare_range_round1 key (node q) context (seeds q).
Definition range_message (q : PartyId) : RangeRound1 := (prepared_range q).1.2.
Definition range_seal (q : PartyId) : RangeRound1Seal := (prepared_range q).1.1.1.
Definition range_secret (q : PartyId) : RangeRound1Secret := (prepared_range q).1.1.2.
Definition nonce_at (i : nat) (q : PartyId) : Scalar * Scalar * Scalar := nth i (rx_bit_nonces (range_secret q)) no_answer.
Hypothesis (Hdigest : forall q, q ∈ quorum -> rse_digest (range_seal q) <> ZERO32).

Lemma prepared_range_spec q :
  range_seal q = mkRangeRound1Seal q (range_round1_digest (range_message q))
  /\ range_message q = mkRangeRound1 q (sha256 context)
       ((fun '(value, blinding, _) => commit key value blinding) <$> rx_bit_nonces (range_secret q))
       (zip_with (fun '(value, _, relation) bit => ns_commitment (nb_shared bit) * value + h key * relation)%P
          (rx_bit_nonces (range_secret q)) (nv_bits (node q)))
       (commit key (rx_linkage_nonce (range_secret q)).1 (rx_linkage_nonce (range_secret q)).2)
  /\ length (rx_bit_nonces (range_secret q)) = length bits /\ (rx_linkage_nonce (range_secret q)).1 = s0
  /\ rx_party (range_secret q) = q /\ rx_message_digest (range_secret q) = rse_digest (range_seal q)
  /\ rx_context_digest (range_secret q) = sha256 context.
Proof.
  unfold range_seal, range_message, range_secret, prepared_range, prepare_range_round1.
  pose proof (random_triples_length (nv_width (node q)) (seeds q)) as Hl.
  destruct (random_triples _ _) as [nonces r1]. destruct (scalar_random r1) as [k r2].
  cbn [fst] in Hl. unfold nv_width in Hl. cbn in *. rewrite length_fmap in Hl. split_and!; done.
Qed.

(** The parts of a first move. *)
Lemma factor_part i b q : bits !! i = Some b ->
  nth i (r1_bit_factor (range_message q)) pid = commit key (nonce_at i q).1.1 (nonce_at i q).1.2.
Proof.
  intros Hb. destruct (prepared_range_spec q) as (_ & -> & Hl & _). cbn [r1_bit_factor]. unfold nonce_at.
  assert (i < length (rx_bit_nonces (range_secret q))) as Hi by (rewrite Hl; by eapply lookup_lt_Some).
  destruct (lookup_lt_is_Some_2 _ _ Hi) as [[[k1 k2] k3] Hk]. rewrite (nth_lookup_Some _ _ no_answer _ Hk).
  apply nth_lookup_Some. by rewrite list_lookup_fmap, Hk.
Qed.

Lemma product_part i b q : bits !! i = Some b ->
  nth i (r1_bit_product (range_message q)) pid = commit (relation_key key b) (nonce_at i q).1.1 (nonce_at i q).2.
Proof.
  intros Hb. destruct (prepared_range_spec q) as (_ & -> & Hl & _). cbn [r1_bit_product]. unfold nonce_at.
  assert (i < length (rx_bit_nonces (range_secret q))) as Hi by (rewrite Hl; by eapply lookup_lt_Some).
  destruct (lookup_lt_is_Some_2 _ _ Hi) as [[[k1 k2] k3] Hk]. rewrite (nth_lookup_Some _ _ no_answer _ Hk).
  apply nth_lookup_Some. rewrite lookup_zip_with, Hk. cbn [nv_bits node_at]. by rewrite list_lookup_fmap, Hb.
Qed.

Lemma range_message_entries : (fun m => (r1_party m, m)) <$> (range_message <$> quorum) = entries range_message quorum.
Proof.
  rewrite <- list_fmap_compose. apply list_fmap_ext. intros ? q _. cbn. by destruct (prepared_range_spec q) as (_ & -> & _).
Qed.

Lemma range_seal_entries : (fun s => (rse_party s, s)) <$> (range_seal <$> quorum) = entries range_seal quorum.
Proof.
  rewrite <- list_fmap_compose. apply list_fmap_ext. intros ? q _. cbn. by destruct (prepared_range_spec q) as (-> & _).
Qed.

Lemma honest_range_round1 :
  checked_round1 (range_message <$> quorum) (range_seal <$> quorum) quorum context (length bits)
  = Ok (collect (entries range_message quorum)).
Proof.
  pose proof Hgood as (_ & Hnd & _). unfold checked_round1. rewrite range_message_entries, range_seal_entries.
  rewrite !collect_of_size, Nat.eqb_refl by done. cbn [negb orb]. rewrite existsb_none.
  2:{ intros q Hq. rewrite !collect_of_lookup by done. cbn. done. }
  rewrite (proj2 (for_each_ok _ _)); [done|]. apply Forall_forall. intros q Hq.
  unfold check_range_reveal. rewrite !collect_of_lookup by done.
  destruct (prepared_range_spec q) as (-> & Hm & Hl & _). cbn [rse_digest].
  assert (r1_context_digest (range_message q) = sha256 context /\ length (r1_bit_factor (range_message q)) = length bits
    /\ length (r1_bit_product (range_message q)) = length bits) as (-> & -> & ->).
  { rewrite Hm. cbn. rewrite length_zip_with, !length_fmap, Hl. repeat split; lia. }
  by rewrite !bool_decide_eq_true_2, Nat.eqb_refl by done.
Qed.

(** ** The challenge *)

Section Weights.
Variable (w : PartyId -> Scalar).
Hypothesis (Hw : weights_of quorum w).

Definition factor_sum (i : nat) : Point := psum ((fun q => nth i (r1_bit_factor (range_message q)) pid * w q)%P <$> quorum).
Definition product_sum (i : nat) : Point := psum ((fun q => nth i (r1_bit_product (range_message q)) pid * w q)%P <$> quorum).
Definition linkage_sum : Point := psum ((fun q => r1_linkage (range_message q) * w q)%P <$> quorum).

Definition bit_transcript (i : nat) : Transcript :=
  component_transcript (match bit_context context i with Ok c => c | Err _ => [] end).

Definition bit_challenge_at (i : nat) (b : BitPolys) : Scalar :=
  (product_challenge (bit_point key b) (bit_point key b) (bit_point key b) (factor_sum i) (product_sum i) (bit_transcript i)).1.

Definition residual_point : Point := (rs_commitment st - aggregate_bits (rs_bit_commitments st))%P.
Definition linkage_challenge : Scalar :=
  (opening_challenge residual_point linkage_sum
     (append_message (bstr "relation") (bstr "zero-opening:v2") (link_transcript context))).1.

Definition the_challenge : RangeChallenge :=
  mkRangeChallenge quorum (sha256 context) (factor_sum <$> seq 0 (length bits)) (product_sum <$> seq 0 (length bits))
    (imap bit_challenge_at bits) linkage_sum linkage_challenge.

Lemma combine_at_ok (part : RangeRound1 -> Point) :
  combine_at (collect (entries range_message quorum)) quorum part = Ok (psum ((fun q => part (range_message q) * w q)%P <$> quorum)).
Proof.
  unfold combine_at. rewrite (list_fmap_ext _ (fun q => (q, part (range_message q)))).
  - by apply (combine_commitments_of (fun q => part (range_message q))).
  - intros i q Hq. rewrite collect_of_lookup; [done | apply Hgood | by eapply list_elem_of_lookup_2].
Qed.

Lemma bit_context_within i b : bits !! i = Some b -> exists c, bit_context context i = Ok c.
Proof. intros Hb%lookup_lt_Some. apply bit_context_ok. lia. Qed.

Lemma bit_round_ok i b : bits !! i = Some b ->
  bit_round st (collect (entries range_message quorum)) quorum context i
  = Ok (factor_sum i, product_sum i, bit_challenge_at i b).
Proof.
  intros Hb. destruct (bit_context_within i b Hb) as [c Hc]. unfold bit_round. rewrite !combine_at_ok. cbn [mbind result_bind].
  rewrite Hc. cbn [mbind result_bind rs_bit_commitments the_statement].
  rewrite (nth_lookup_Some (bit_point key <$> bits) i pid (bit_point key b)) by (by rewrite list_lookup_fmap, Hb).
  unfold bit_challenge_at, bit_transcript. rewrite Hc. fold (factor_sum i) (product_sum i).
  by destruct (product_challenge _ _ _ _ _ _).
Qed.

Lemma bit_rounds_ok :
  map_res (bit_round st (collect (entries range_message quorum)) quorum context) (seq 0 (length bits))
  = Ok (imap (fun i b => (factor_sum i, product_sum i, bit_challenge_at i b)) bits).
Proof.
  apply map_res_ok. apply Forall2_same_length_lookup_2; [by rewrite length_imap, length_seq|].
  intros i j x Hj Hx. apply lookup_seq in Hj as [-> _]. rewrite list_lookup_imap in Hx. cbn.
  destruct (bits !! i) as [b|] eqn:Hb; [|done]. injection Hx as <-. by apply bit_round_ok.
Qed.

Lemma imap_seq {A} (f : nat -> A) (l : list BitPolys) : imap (fun i _ => f i) l = f <$> seq 0 (length l).
Proof.
  apply list_eq. intros i. rewrite list_lookup_imap, list_lookup_fmap. destruct (l !! i) eqn:Hi.
  - rewrite lookup_seq_lt by (by eapply lookup_lt_Some). done.
  - apply lookup_ge_None in Hi. rewrite lookup_seq_ge by done. done.
Qed.

Lemma honest_range_challenge :
  make_range_challenge st (range_message <$> quorum) (range_seal <$> quorum) quorum context = Ok the_challenge.
Proof.
  unfold make_range_challenge. cbn [rs_bit_commitments the_statement]. rewrite !length_fmap.
  rewrite honest_range_round1. cbn [mbind result_bind].
  change (mkRangeStatement _ _ _ _ _) with st. rewrite bit_rounds_ok. cbn [mbind result_bind].
  rewrite combine_at_ok. cbn [mbind result_bind]. fold linkage_sum. unfold the_challenge, linkage_challenge, residual_point.
  destruct (opening_challenge _ _ _) as [c tr]. cbn [fst]. do 2 f_equal.
  - rewrite fmap_imap. apply (imap_seq factor_sum).
  - rewrite fmap_imap. apply (imap_seq product_sum).
  - rewrite fmap_imap. done.
Qed.

(** ** The answers *)

Definition residual_at (q : PartyId) : Scalar * Scalar :=
  residual_shares (nv_value_share (node q)) (nv_blinding_share (node q)) (nv_bits (node q)).

Definition bit_answer_at (q : PartyId) (i : nat) (b : BitPolys) : Scalar * Scalar * Scalar :=
  let c := bit_challenge_at i b in
  ((nonce_at i q).1.1 + c * at_party (bp_bit b) q, (nonce_at i q).1.2 + c * at_party (bp_blind b) q,
   (nonce_at i q).2 + c * at_party (bp_cross b) q)%S.

Definition range_answer (q : PartyId) : RangeRound2 :=
  mkRangeRound2 q (imap (bit_answer_at q) bits)
    ((rx_linkage_nonce (range_secret q)).1 + linkage_challenge * (residual_at q).1,
     (rx_linkage_nonce (range_secret q)).2 + linkage_challenge * (residual_at q).2)%S.

Lemma honest_range_answers :
  map_res (fun q => answer_range_challenge (node q) (range_secret q) the_challenge) quorum = Ok (range_answer <$> quorum).
Proof.
  apply map_res_members. intros q Hq. unfold answer_range_challenge.
  destruct (prepared_range_spec q) as (_ & _ & Hl & _ & Hp & Hd & Hc).
  rewrite Hp, Hd, Hc, Hl. cbn [nv_party node_at rc_quorum rc_context_digest the_challenge nv_bits].
  rewrite length_fmap, Nat.eqb_refl, N.eqb_refl, (bool_decide_eq_true_2 (q ∈ quorum)), (bool_decide_eq_false_2 (rse_digest _ = _)),
    (bool_decide_eq_true_2 (sha256 context = _)) by auto. cbn [negb orb].
  unfold range_answer, residual_at. destruct (residual_shares _ _ _) as [v r]. cbn [fst snd]. do 2 f_equal.
  apply list_eq. intros i. rewrite lookup_zip_with, lookup_zip_with, list_lookup_fmap, !list_lookup_imap.
  cbn [rc_bit_challenges the_challenge]. rewrite ?list_lookup_imap.
  destruct (bits !! i) as [b|] eqn:Hb; [|done]. cbn.
  destruct (lookup_lt_is_Some_2 (rx_bit_nonces (range_secret q)) i) as [[[k1 k2] k3] Hk]; [rewrite Hl; by eapply lookup_lt_Some|].
  rewrite Hk. cbn. unfold bit_answer_at, nonce_at. by rewrite (nth_lookup_Some _ _ no_answer _ Hk).
Qed.

Lemma bit_lengths_at i b : bits !! i = Some b -> length (bp_bit b) = t + 1 /\ length (bp_blind b) = t + 1 /\ length (bp_cross b) = t + 1.
Proof. intros Hb. apply (bit_lengths t bits Hbits). by eapply list_elem_of_lookup_2. Qed.

(** Each answer satisfies its two equations. *)
Lemma bit_answer_matches i b q : bits !! i = Some b ->
  let z := bit_answer_at q i b in
  sigma_equation (g key) (h key) z.1.1 z.1.2 (nth i (r1_bit_factor (range_message q)) pid)
    (ladder_at (bit_ladder key b) (scalar_of_N q)) (bit_challenge_at i b)
  /\ sigma_equation (bit_point key b) (h key) z.1.1 z.2 (nth i (r1_bit_product (range_message q)) pid)
    (ladder_at (cross_ladder key b) (scalar_of_N q)) (bit_challenge_at i b).
Proof.
  intros Hb. destruct (bit_lengths_at i b Hb) as (H1' & H2' & H3'). rewrite (factor_part i b q Hb), (product_part i b q Hb).
  unfold bit_ladder, cross_ladder. rewrite !ladder_commit by lia.
  fold (at_party (bp_bit b) q) (at_party (bp_blind b) q) (at_party (bp_cross b) q).
  unfold sigma_equation, bit_answer_at. cbn [fst snd].
  generalize (bit_challenge_at i b) as c, (nonce_at i q) as k. intros c k. unfold commit. cbn [g h relation_key].
  split; module_split; ring.
Qed.

(** ** The linkage *)

#[local] Abbreviation RP := (residual_poly bits P bp_bit s1).
#[local] Abbreviation RQ := (residual_poly bits Q bp_blind s1).

Lemma residual_lengths : length RP = t + 1 /\ length RQ = t + 1.
Proof.
  split; apply residual_length; try done; (eapply Forall_impl; [exact Hbits|]); intros b Hb; apply Hb.
Qed.

Lemma residual_at_spec q : residual_at q = (at_party RP q, at_party RQ q).
Proof.
  unfold residual_at, residual_shares. cbn [nv_value_share nv_blinding_share nv_bits node_at].
  rewrite residual_shares_at. unfold at_party. rewrite !residual_evaluate. done.
Qed.

Lemma residual_coefficients_spec : residual_coefficients st = zip_with (commit key) RP RQ.
Proof.
  unfold residual_coefficients. cbn [rs_value_coefficients rs_bit_coefficients the_statement].
  apply (residual_ladder key (t + 1)); try done. eapply Forall_impl; [exact Hbits|]. intros b Hb. split; apply Hb.
Qed.

Lemma residual_point_spec : residual_point = commit key (evaluate RP s0) (evaluate RQ s0).
Proof.
  unfold residual_point. cbn [rs_commitment rs_bit_commitments the_statement]. rewrite aggregate_bits_spec, !residual_evaluate.
  assert (weighted_points (bit_point key <$> bits) = commit key (weighted ((fun b => evaluate (bp_bit b) s0) <$> bits))
    (weighted ((fun b => evaluate (bp_blind b) s0) <$> bits))) as ->.
  { clear -SL L. induction bits as [|b l IH]; [cbn; unfold commit; module_split; ring|].
    rewrite !fmap_cons, !weighted_cons. change (weighted_points (?a :: ?l)) with (a + (weighted_points l + weighted_points l))%P.
    change (weighted_points (bit_point key b :: (bit_point key <$> l)))
      with (bit_point key b + (weighted_points (bit_point key <$> l) + weighted_points (bit_point key <$> l)))%P.
    rewrite IH. unfold bit_point, commit. module_split; ring. }
  unfold commit. module_split; ring.
Qed.

Lemma residual_zero : evaluate RP s0 = s0.
Proof. rewrite residual_evaluate, Hvalue. ring. Qed.

Lemma link_answer_matches q :
  sigma_equation (g key) (h key) (r2_linkage_answer (range_answer q)).1 (r2_linkage_answer (range_answer q)).2
    (r1_linkage (range_message q)) (ladder_at (zip_with (commit key) RP RQ) (scalar_of_N q)) linkage_challenge.
Proof.
  destruct residual_lengths as [Hl1 Hl2]. rewrite ladder_commit by lia. destruct (prepared_range_spec q) as (_ & -> & _).
  unfold sigma_equation. cbn [range_answer r2_linkage_answer r1_linkage fst snd]. rewrite residual_at_spec. cbn [fst snd].
  fold (at_party RP q) (at_party RQ q). unfold commit. module_split; ring.
Qed.

(** ** The assembler's checks *)

Lemma nth_bit_imap {B} (f : nat -> BitPolys -> B) i b d : bits !! i = Some b -> nth i (imap f bits) d = f i b.
Proof. intros Hb. apply nth_lookup_Some. by rewrite list_lookup_imap, Hb. Qed.

Lemma bit_answer_checked q i b : q ∈ quorum -> bits !! i = Some b ->
  check_bit_answer key st (the_relations key t bits) the_challenge (range_message q) (range_answer q) q i = Ok tt.
Proof.
  intros Hq Hb. pose proof Hgood as (_ & _ & Hv). rewrite Forall_forall in Hv. specialize (Hv q Hq).
  unfold check_bit_answer. cbn [r2_bit_answers range_answer rc_bit_challenges the_challenge rs_bit_coefficients
    rs_bit_commitments the_statement rrs_coefficients the_relations].
  rewrite (nth_bit_imap (bit_answer_at q) i b) by done. rewrite (nth_bit_imap bit_challenge_at i b) by done.
  rewrite (nth_lookup_Some (bit_ladder key <$> bits) i [] (bit_ladder key b)) by (by rewrite list_lookup_fmap, Hb).
  rewrite (nth_lookup_Some (cross_ladder key <$> bits) i [] (cross_ladder key b)) by (by rewrite list_lookup_fmap, Hb).
  rewrite (nth_lookup_Some (bit_point key <$> bits) i pid (bit_point key b)) by (by rewrite list_lookup_fmap, Hb).
  destruct (bit_answer_matches i b q Hb) as [E1 E2]. cbv zeta in E1, E2. destruct (bit_answer_at q i b) as [[z1 z2] z3].
  cbn [fst snd] in E1, E2. unfold sigma_equation in E1, E2.
  rewrite !(proj2 (share_commitment_ok _ q _) (conj Hv eq_refl)). cbn [mbind result_bind].
  fold (commit key z1 z2) in E1. by rewrite E1, E2, !same_point_refl.
Qed.

Lemma range_answer_checked q : q ∈ quorum ->
  check_range_answer key st (the_relations key t bits) the_challenge (collect (entries range_message quorum))
    (collect (entries range_answer quorum)) q = Ok tt.
Proof.
  intros Hq. pose proof Hgood as (_ & Hnd & Hv). rewrite Forall_forall in Hv. specialize (Hv q Hq).
  unfold check_range_answer. rewrite !collect_of_lookup by done. cbn [default id].
  assert (length (r2_bit_answers (range_answer q)) = length (rs_bit_commitments st)) as ->.
  { cbn. by rewrite length_imap, length_fmap. }
  rewrite Nat.eqb_refl. cbn [negb]. rewrite (proj2 (for_each_ok _ _)).
  2:{ apply Forall_forall. intros i Hi. apply elem_of_seq in Hi as [_ Hi]. cbn in Hi. rewrite length_fmap in Hi.
      destruct (lookup_lt_is_Some_2 bits i Hi) as [b Hb]. by apply (bit_answer_checked q i b). }
  cbn [mbind result_bind]. rewrite residual_coefficients_spec, (proj2 (share_commitment_ok _ q _) (conj Hv eq_refl)). cbn [mbind result_bind].
  pose proof (link_answer_matches q) as E. unfold sigma_equation in E.
  fold (commit key (r2_linkage_answer (range_answer q)).1 (r2_linkage_answer (range_answer q)).2) in E.
  cbn [rc_linkage_challenge the_challenge]. by rewrite E, same_point_refl.
Qed.

(** ** The assembled proof *)

Definition bit_proof_at (i : nat) (b : BitPolys) : ProductProof :=
  mkProductProof (factor_sum i) (product_sum i)
    (ssum ((fun q => w q * (bit_answer_at q i b).1.1)%S <$> quorum))
    (ssum ((fun q => w q * (bit_answer_at q i b).1.2)%S <$> quorum))
    (ssum ((fun q => w q * (bit_answer_at q i b).2)%S <$> quorum)).

Definition assembled_range : ThresholdRangeProof :=
  mkThresholdRangeProof (bit_point key <$> bits) (imap bit_proof_at bits)
    (mkOpeningProof linkage_sum
      (ssum ((fun q => w q * (r2_linkage_answer (range_answer q)).1)%S <$> quorum))
      (ssum ((fun q => w q * (r2_linkage_answer (range_answer q)).2)%S <$> quorum))) (length bits).

Lemma cross_constant b : b ∈ bits -> ladder_at (cross_ladder key b) s0 = bit_point key b.
Proof.
  intros Hin. rewrite Forall_forall in Hrel. rewrite <- (Hrel b Hin).
  pose proof (bit_lengths t bits Hbits b Hin). unfold cross_ladder. apply ladder_commit. lia.
Qed.

Lemma bit_proof_verifies i b : bits !! i = Some b -> verify_square_at key context (i, (bit_point key b, bit_proof_at i b)) = true.
Proof.
  intros Hb. destruct (bit_context_within i b Hb) as [c Hc]. unfold verify_square_at, verify_square_bit. rewrite Hc.
  destruct (bit_lengths_at i b Hb) as (H1' & H2' & H3').
  assert (ladder_at (bit_ladder key b) s0 = bit_point key b) as Hf by (unfold bit_ladder; apply ladder_commit; lia).
  pose proof (cross_constant b (list_elem_of_lookup_2 _ _ _ Hb)) as Hx. apply verify_product_iff.
  assert (product_at (bit_point key b) (bit_point key b) (bit_point key b) (bit_proof_at i b) (component_transcript c)
    = bit_challenge_at i b) as ->.
  { unfold product_at, bit_challenge_at, bit_transcript. by rewrite Hc. }
  split.
  - rewrite <- Hf at 1. apply (combined_equation (g key) (h key) quorum w (bit_ladder key b)
      (fun q => nth i (r1_bit_factor (range_message q)) pid) (fun q => (bit_answer_at q i b).1.1) (fun q => (bit_answer_at q i b).1.2) _ Hw).
    + unfold bit_ladder. rewrite length_zip_with. lia.
    + intros q _. by apply bit_answer_matches.
  - rewrite <- Hx at 2. apply (combined_equation (bit_point key b) (h key) quorum w (cross_ladder key b)
      (fun q => nth i (r1_bit_product (range_message q)) pid) (fun q => (bit_answer_at q i b).1.1) (fun q => (bit_answer_at q i b).2) _ Hw).
    + unfold cross_ladder. rewrite length_zip_with. lia.
    + intros q _. by apply bit_answer_matches.
Qed.

Lemma linkage_verifies :
  (verify_zero_opening key (link_transcript context) residual_point (tp_linkage assembled_range)).1 = true.
Proof.
  destruct residual_lengths as [Hl1 Hl2]. apply verify_zero_opening_iff. cbn [tp_linkage assembled_range op_z_value op_z_blinding op_t].
  assert (ssum ((fun q => w q * (r2_linkage_answer (range_answer q)).1)%S <$> quorum) = s0) as Hz.
  { rewrite (ssum_ext _ (fun q => w q * evaluate (poly_scale linkage_challenge RP) (scalar_of_N q))%S).
    - rewrite (Hw (poly_scale linkage_challenge RP)), evaluate_scale, residual_zero by (rewrite poly_scale_length; lia). ring.
    - intros q _. cbn [range_answer r2_linkage_answer fst]. destruct (prepared_range_spec q) as (_ & _ & _ & -> & _).
      rewrite residual_at_spec, evaluate_scale. unfold at_party. cbn [fst]. ring. }
  split; [done|].
  pose proof (combined_equation (g key) (h key) quorum w (zip_with (commit key) RP RQ) (fun q => r1_linkage (range_message q))
    (fun q => (r2_linkage_answer (range_answer q)).1) (fun q => (r2_linkage_answer (range_answer q)).2) linkage_challenge Hw) as E.
  unfold sigma_equation in E at 2. rewrite Hz, pmul_0, padd_id_l, ladder_commit, <- residual_point_spec in E by lia.
  rewrite E; [done | rewrite length_zip_with; lia |]. intros q _. apply link_answer_matches.
Qed.

Lemma assembled_range_verifies : verify_threshold_range key (rs_commitment st) assembled_range context = true.
Proof.
  apply verify_threshold_range_parts. cbn [tp_bit_commitments tp_bit_proofs tp_bits assembled_range].
  rewrite length_fmap, length_imap. split; [done|]. split; [done|]. split; [|exact linkage_verifies].
  apply forallb_forall. intros [i [C p]] Hin%list_elem_of_In%enumerate_lookup. rewrite lookup_zip_with in Hin.
  rewrite list_lookup_fmap, list_lookup_imap in Hin. destruct (bits !! i) as [b|] eqn:Hb; [|done]. cbn in Hin. injection Hin as <- <-.
  by apply bit_proof_verifies.
Qed.

Lemma range_interpolated coefs (part : RangeRound2 -> Scalar) : lagrange_at_zero quorum = Ok coefs ->
  interpolated coefs (collect (entries range_answer quorum)) part quorum = ssum ((fun q => w q * part (range_answer q))%S <$> quorum).
Proof.
  intros Hc. rewrite (interpolated_spec quorum coefs w) by done. apply ssum_ext. intros q Hq.
  rewrite collect_of_lookup; [done | apply Hgood | done].
Qed.

Lemma honest_range_assembly :
  assemble_range_from_rounds key st (the_relations key t bits) (range_message <$> quorum) (range_seal <$> quorum)
    (range_answer <$> quorum) quorum context = Ok assembled_range.
Proof.
  pose proof Hgood as (_ & Hnd & _). unfold assemble_range_from_rounds.
  cbn [rrs_threshold rrs_coefficients the_relations rs_threshold rs_bit_commitments the_statement].
  rewrite !length_fmap, !Nat.eqb_refl. cbn [negb orb]. change (mkRangeStatement _ _ _ _ _) with st.
  rewrite honest_range_challenge. cbn [mbind result_bind]. rewrite range_message_entries, <- list_fmap_compose.
  change ((fun a => (r2_party a, a)) ∘ range_answer) with (fun q => (q, range_answer q)). fold (entries range_answer quorum).
  rewrite collect_of_size, Nat.eqb_refl, none_missing by done. cbn [negb orb].
  rewrite (proj2 (for_each_ok _ _)).
  2:{ apply Forall_forall. intros q Hq. by apply range_answer_checked. }
  destruct (lagrange_ok _ Hgood) as [coefs Hco]. rewrite Hco. cbn [mbind result_bind].
  match goal with |- context [verify_threshold_range _ _ ?p _] => assert (p = assembled_range) as -> end.
  { unfold assembled_range. rewrite !range_interpolated by done. f_equal.
    apply list_eq. intros i. rewrite list_lookup_fmap, list_lookup_imap. destruct (bits !! i) as [b|] eqn:Hb.
    - pose proof (lookup_lt_Some _ _ _ Hb) as Hi. rewrite lookup_seq_lt by done. cbn. f_equal. unfold bit_proof_at.
      rewrite !range_interpolated by done. cbn [rc_bit_factor rc_bit_product the_challenge].
      rewrite (nth_lookup_Some (factor_sum <$> seq 0 (length bits)) i pid (factor_sum i)) by (by rewrite list_lookup_fmap, lookup_seq_lt).
      rewrite (nth_lookup_Some (product_sum <$> seq 0 (length bits)) i pid (product_sum i)) by (by rewrite list_lookup_fmap, lookup_seq_lt).
      f_equal; apply ssum_ext; intros q _; cbn [range_answer r2_bit_answers]; by rewrite (nth_bit_imap (bit_answer_at q) i b).
    - apply lookup_ge_None in Hb. by rewrite lookup_seq_ge. }
  by rewrite assembled_range_verifies.
Qed.
End Weights.
End Rounds.
