(* ===== verification/RangeClaims.v ===== *)
(** * What threshold range proofs guarantee

    A dealt value's bits are shared as the proof needs them, an honest quorum
    assembles a proof that verifies, and what verifies is in range. *)

From S2P Require Import Prelude.
From S2P Require Import Interfaces.
From S2P Require Import Curve.
From S2P Require Import Shamir.
From S2P Require Import ShamirTheorems.
From S2P Require Import Sigma.
From S2P Require Import SigmaProofs.
From S2P Require Import BitrangeProofs.
From S2P Require Import Threshold.
From S2P Require Import ThresholdTheorems.
From S2P Require Import JointTheorems.
From S2P Require Import Gadgets.
From S2P Require Import JointProver.
From S2P Require Import ThresholdRange.
From S2P Require Import RangeRounds.

Open Scope nat_scope.

Section Dealt.
Context `{SL : ScalarLaws} `{!ScalarLarge} `{G : !GroupOps} `{L : !GroupLaws} `{CL : !CompressLaws}.
Context {R : Type} `{!ScalarRandom R}.
Add Field dealt_field : scalar_field.
Implicit Types (parties : list PartyId).

(** Shares that are values of a polynomial. *)
Definition on_poly parties (shares : gmap PartyId Scalar) (p : list Scalar) : Prop :=
  forall q, q ∈ parties -> shares !! q = Some (at_party p q).

Lemma share_scalar_spec secret parties threshold (rng : R) shares rng' :
  share_scalar secret parties threshold rng = Ok (shares, rng') ->
  exists X, length X = threshold + 1 /\ evaluate X s0 = secret /\ on_poly parties shares X.
Proof.
  unfold share_scalar. rewrite bind_ok. intros (points & Hp & Hs). apply checked_parties_ok in Hp as [Hg ->].
  unfold share in Hs.
  destruct (share_with_coefficients_spec secret threshold (scalar_of_N <$> parties) rng) as (X & r & E & HX & HX0).
  rewrite E in Hs. injection Hs as <- _. exists X. split; [done|]. split; [done|]. intros q Hq.
  rewrite <- list_fmap_compose. apply (collect_zip_lookup (evaluate X ∘ scalar_of_N)); [apply Hg | done].
Qed.

(** What one dealt bit is. *)
Record bit_shared parties t (value : N) (i : nat) (b : BitShares) (p : BitPolys) : Prop := {
  bsh_lengths : length (bp_bit p) = t + 1 /\ length (bp_blind p) = t + 1 /\ length (bp_cross p) = t + 1;
  bsh_value : evaluate (bp_bit p) s0 = bit_scalar (N.testbit value (N.of_nat i));
  bsh_cross : evaluate (bp_cross p) s0 = (evaluate (bp_blind p) s0 * (s1 - evaluate (bp_bit p) s0))%S;
  bsh_bit : on_poly parties (bs_bit b) (bp_bit p);
  bsh_blinding : on_poly parties (bs_blinding b) (bp_blind p);
  bsh_crosses : on_poly parties (bs_cross b) (bp_cross p)
}.

Lemma bit_of_shift value i : scalar_of_N (N.land (N.shiftr value (N.of_nat i)) 1) = bit_scalar (N.testbit value (N.of_nat i)).
Proof.
  change 1%N with (N.ones 1). rewrite N.land_ones, N.pow_1_r, <- N.bit0_mod, N.shiftr_spec', N.add_0_l.
  by destruct (N.testbit value (N.of_nat i)).
Qed.

Lemma deal_bit_spec key value i parties t (rng : R) b rng' :
  deal_bit key value i parties t rng = Ok (b, rng') -> exists p, bit_shared parties t value i b p.
Proof.
  unfold deal_bit. destruct (scalar_random rng) as [r r1]. rewrite bit_of_shift.
  rewrite bind_ok. intros ([sh r2] & Hd & Hb). rewrite bind_ok in Hb. destruct Hb as ([x r3] & Hx & [= <- _]).
  destruct (deal_spec _ _ _ _ _ _ _ _ Hd) as (_ & _ & Ht & _ & P & Q & (HP & HQ & _ & _ & Hs) & HP0 & HQ0).
  destruct (share_scalar_spec _ _ _ _ _ _ Hx) as (X & HX & HX0 & HonX).
  exists (mkBitPolys _ P Q X). rewrite Ht in HP, HQ. split; cbn [bp_bit bp_blind bp_cross bs_bit bs_blinding bs_cross]; try done.
  - by rewrite HX0, HP0, HQ0.
  - intros q Hq. by destruct (Hs q Hq).
  - intros q Hq. by destruct (Hs q Hq).
Qed.

Lemma deal_bit_loop_spec key value parties t : forall indices (rng : R) bs rng',
  deal_bit_loop key value parties t indices rng = Ok (bs, rng') ->
  exists ps, Forall2 (fun i bp => bit_shared parties t value i bp.1 bp.2) indices (zip bs ps) /\ length ps = length bs.
Proof.
  induction indices as [|i indices IH]; intros rng bs rng'; cbn [deal_bit_loop].
  { intros [= <- _]. exists []. by repeat constructor. }
  rewrite bind_ok. intros ([b r1] & Hb & Hr). rewrite bind_ok in Hr. destruct Hr as ([bs' r2] & Hbs & [= <- _]).
  destruct (deal_bit_spec _ _ _ _ _ _ _ _ Hb) as [p Hp]. destruct (IH _ _ _ Hbs) as (ps & Hps & Hl).
  exists (p :: ps). cbn. split; [by constructor | by f_equal].
Qed.

(** The local material of a party. *)
Definition local_of (shares : ValueShares) (q : PartyId) : LocalRangeShares :=
  match node_view shares q with
  | Some v => mkLocalRangeShares (nvv_party v) (nvv_value_share v) (nvv_blinding_share v)
      ((fun b => (nbv_bit_share b, nbv_blinding_share b, nbv_cross_share b)) <$> nvv_bits v) (vs_threshold shares)
  | None => mkLocalRangeShares q s0 s0 [] (vs_threshold shares)
  end.

(** A dealt value, as polynomials. *)
Lemma deal_bits_spec key value blinding width parties t (rng : R) shares rng' :
  (value < 2 ^ 64)%N -> deal_bits key value blinding width parties t rng = Ok (shares, rng') ->
  0 < width <= 64 /\ good_parties parties /\ t < length parties /\ vs_threshold shares = t
  /\ exists P Q bits, length P = t + 1 /\ length Q = t + 1 /\ length bits = width
     /\ evaluate P s0 = scalar_of_N value /\ evaluate Q s0 = blinding
     /\ Forall (fun b => length (bp_bit b) = t + 1 /\ length (bp_blind b) = t + 1 /\ length (bp_cross b) = t + 1) bits
     /\ Forall (fun b => commit (relation_key key b) (evaluate (bp_bit b) s0) (evaluate (bp_cross b) s0) = bit_point key b) bits
     /\ evaluate P s0 = weighted ((fun b => evaluate (bp_bit b) s0) <$> bits)
     /\ forall q, q ∈ parties -> local_of shares q = local_at t P Q bits q.
Proof.
  intros Hv. unfold deal_bits, validate_width.
  destruct (Nat.eqb_spec width 0) as [|H0']; [done|]. destruct (Nat.ltb_spec 64 width) as [|H64]; [done|]. cbn [orb].
  destruct (range_value_fits value width) eqn:Hf; [|done]. cbn [negb mbind result_bind].
  rewrite bind_ok. intros ([vsh r1] & Hd & Hr). rewrite bind_ok in Hr. destruct Hr as ([bs r2] & Hbs & [= <- _]).
  destruct (deal_spec _ _ _ _ _ _ _ _ Hd) as (Hg & Htl & Ht & HC & P & Q & (HP & HQ & _ & _ & Hs) & HP0 & HQ0).
  destruct (deal_bit_loop_spec _ _ _ _ _ _ _ _ Hbs) as (ps & Hps & Hlps). rewrite Ht in HP, HQ.
  pose proof (Forall2_length _ _ _ Hps) as Hlen. rewrite length_seq, length_zip_with in Hlen.
  assert (forall i b p, bs !! i = Some b -> ps !! i = Some p -> bit_shared parties t value i b p) as Hat.
  { intros i b p Hb Hp. assert (zip bs ps !! i = Some (b, p)) as Hz by (by rewrite lookup_zip_with, Hb, Hp).
    destruct (Forall2_lookup_r _ _ _ _ _ Hps Hz) as (j & Hj & Hsh). by apply lookup_seq in Hj as [-> _]. }
  assert (forall p, p ∈ ps -> exists i b, ps !! i = Some p /\ bs !! i = Some b /\ bit_shared parties t value i b p) as Hin.
  { intros p Hp. apply list_elem_of_lookup in Hp as [i Hi]. destruct (lookup_lt_is_Some_2 bs i) as [b Hb]; [apply lookup_lt_Some in Hi; lia|]. eauto 6. }
  cbn [vs_threshold]. split; [lia|]. split; [done|]. split; [done|]. split; [done|].
  exists P, Q, ps. split; [done|]. split; [done|]. split; [lia|]. split; [done|]. split; [done|]. split_and!.
  - apply Forall_forall. intros p Hp. destruct (Hin p Hp) as (i & b & _ & _ & Hb). apply (bsh_lengths _ _ _ _ _ _ Hb).
  - apply Forall_forall. intros p Hp. destruct (Hin p Hp) as (i & b & _ & _ & Hb).
    rewrite (bsh_cross _ _ _ _ _ _ Hb), (bsh_value _ _ _ _ _ _ Hb). unfold bit_point, relation_key, commit. cbn [g h].
    unfold bit_point, commit. rewrite (bsh_value _ _ _ _ _ _ Hb).
    destruct (N.testbit value (N.of_nat i)); cbn [bit_scalar]; module_split; ring.
  - rewrite HP0.
    assert ((fun b => evaluate (bp_bit b) s0) <$> ps = bit_scalar <$> ((fun i => N.testbit value (N.of_nat i)) <$> seq 0 width)) as ->.
    { rewrite <- list_fmap_compose. apply list_eq. intros i. rewrite !list_lookup_fmap. destruct (ps !! i) as [p|] eqn:Hp.
      - pose proof (lookup_lt_Some _ _ _ Hp) as Hi. rewrite lookup_seq_lt by lia. cbn.
        destruct (lookup_lt_is_Some_2 bs i) as [b Hb]; [lia|]. by rewrite (bsh_value _ _ _ _ _ _ (Hat i b p Hb Hp)).
      - apply lookup_ge_None in Hp. by rewrite lookup_seq_ge by lia. }
    rewrite weighted_bits, bits_of_testbit. f_equal. symmetry. apply N.mod_small. unfold range_value_fits in Hf.
    apply orb_true_iff in Hf as [Hf|Hf]; [apply Nat.leb_le in Hf; replace width with 64 by lia; exact Hv|].
    apply N.ltb_lt in Hf. by rewrite N.shiftl_1_l in Hf.
  - intros q Hq. unfold local_of, node_view. cbn [vs_value vs_blinding vs_bits vs_threshold].
    destruct (Hs q Hq) as [-> ->]. cbn [mbind option_bind].
    assert (mapM (fun bit => b ← bs_bit bit !! q; r ← bs_blinding bit !! q; c ← bs_cross bit !! q; Some (mkNodeBitView b r c)) bs
      = Some ((fun p => mkNodeBitView (at_party (bp_bit p) q) (at_party (bp_blind p) q) (at_party (bp_cross p) q)) <$> ps)) as ->.
    { apply mapM_Some. apply Forall2_fmap_r. apply Forall2_same_length_lookup_2; [lia|]. intros i b p Hb Hp.
      destruct (Hat i b p Hb Hp) as [_ _ _ E1 E2 E3]. by rewrite (E1 q Hq), (E2 q Hq), (E3 q Hq). }
    cbn. unfold local_at. by rewrite <- list_fmap_compose.
Qed.
End Dealt.

(** What a run has when the quorum has made its first moves: the statement, the
    relations, the chosen nodes, and each one's seal, secrets and message. *)
Record FirstRound (Statement Relations Node Move : Type) := mkFirstRound {
  fr_statement : Statement; fr_relations : Relations; fr_chosen : list Node; fr_prepared : list Move
}.
Arguments mkFirstRound {_ _ _ _}.
Arguments fr_statement {_ _ _ _}.
Arguments fr_relations {_ _ _ _}.
Arguments fr_chosen {_ _ _ _}.
Arguments fr_prepared {_ _ _ _}.

Section Claims.
Context `{SL : ScalarLaws} `{!ScalarLarge} `{G : !GroupOps} `{L : !GroupLaws} `{CL : !CompressLaws}.
Context `{T : TranscriptOps} `{Sha256} {R : Type} `{!ScalarRandom R}.

(** A node of the quorum, found by its party. *)
Definition chosen_node (nodes : list NodeValueShares) (q : PartyId) : result string NodeValueShares :=
  ok_or (List.find (fun n => (nv_party n =? q)%N) nodes) "no node for a party of the quorum".

(** The protocol up to the first moves of the quorum. *)
Definition range_first_round (key : Pedersen) (locals : list LocalRangeShares) (t : nat) (quorum : list PartyId)
    (context : bytes) (seeds : PartyId -> R) : result string (FirstRound RangeStatement RangeRelationStatement NodeValueShares (RangeRound1Seal * RangeRound1Secret * RangeRound1 * R)) :=
  statement ← range_statement_from_evaluations (lr_evaluations key <$> locals) t;
  nodes ← map_res (fun l => bind_range key l statement) locals;
  relations ← range_relations_from_evaluations statement (relation_evaluations key <$> nodes);
  chosen ← map_res (chosen_node nodes) quorum;
  Ok (mkFirstRound statement relations chosen ((fun n => prepare_range_round1 key n context (seeds (nv_party n))) <$> chosen)).

(** The whole protocol, to the assembled proof. *)
Definition range_protocol (key : Pedersen) (locals : list LocalRangeShares) (t : nat) (quorum : list PartyId)
    (context : bytes) (seeds : PartyId -> R) : result string ThresholdRangeProof :=
  first ← range_first_round key locals t quorum context seeds;
  let messages := (fun p => p.1.2) <$> fr_prepared first in
  let seals := (fun p => p.1.1.1) <$> fr_prepared first in
  challenge ← make_range_challenge (fr_statement first) messages seals quorum context;
  responses ← map_res (fun '(n, p) => answer_range_challenge n p.1.1.2 challenge) (zip (fr_chosen first) (fr_prepared first));
  assemble_range_from_rounds key (fr_statement first) (fr_relations first) messages seals responses quorum context.

Lemma find_node key t P Q bits (parties : list PartyId) q : q ∈ parties ->
  List.find (fun n => (nv_party n =? q)%N) (node_at key t P Q bits <$> parties) = Some (node_at key t P Q bits q).
Proof.
  induction parties as [|p ps IH]; intros Hq; [by apply elem_of_nil in Hq|]. cbn.
  destruct (N.eqb_spec p q) as [->|Hne]; [done|]. apply IH. apply elem_of_cons in Hq as [->|]; done.
Qed.

Lemma map_res_fmap {E A B C} (f : B -> result E C) (g : A -> B) l : map_res f (g <$> l) = map_res (fun a => f (g a)) l.
Proof. induction l as [|a l IH]; [done|]. cbn. by rewrite IH. Qed.

(** C16: more than [threshold] of the parties a value and its bits were dealt to
    assemble a range proof.  From their own shares and the parties' published
    evaluations the quorum always gets to its first moves, one of each of its
    nodes; and unless the seal of one of these very moves has the all-zero digest,
    which makes that node refuse to answer, the run returns a proof of the value's
    width that the public verifier accepts for the value's commitment. *)
Theorem threshold_range_assembles key value blinding width parties quorum t (rng : R) shares rng' context (seeds : PartyId -> R) :
  (value < 2 ^ 64)%N -> deal_bits key value blinding width parties t rng = Ok (shares, rng') ->
  NoDup quorum -> (forall q, q ∈ quorum -> q ∈ parties) -> t < length quorum ->
  exists first, range_first_round key (local_of shares <$> parties) t quorum context seeds = Ok first
    /\ nv_party <$> fr_chosen first = quorum
    /\ (Forall (fun p => rse_digest p.1.1.1 <> ZERO32) (fr_prepared first) ->
        exists proof, range_protocol key (local_of shares <$> parties) t quorum context seeds = Ok proof
          /\ verify_threshold_range key (commit key (scalar_of_N value) blinding) proof context = true
          /\ tp_bits proof = width).
Proof.
  intros Hv Hd Hnd Hsub Hlen.
  destruct (deal_bits_spec _ _ _ _ _ _ _ _ _ Hv Hd) as (Hwidth & Hg & Htl & _ & P & Q & bits & HP & HQ & Hlb & HP0 & HQ0 & Hbits & Hrel & Hval & Hloc).
  assert (good_parties quorum) as Hgq by (apply (good_subset parties); [done|done|intros ->; cbn in Hlen; lia|done]).
  destruct (weights_exist quorum Hgq) as [w Hw].
  assert (bits <> []) as Hne by (intros ->; cbn in Hlb; lia).
  assert (range_first_round key (local_of shares <$> parties) t quorum context seeds
    = Ok (mkFirstRound (the_statement key t P Q bits) (the_relations key t bits) (node_at key t P Q bits <$> quorum)
            ((fun q => prepare_range_round1 key (node_at key t P Q bits q) context (seeds q)) <$> quorum))) as Hfirst.
  { unfold range_first_round.
    rewrite (list_fmap_ext (local_of shares) (local_at t P Q bits) parties) by (intros i q Hq; apply Hloc; by eapply list_elem_of_lookup_2).
    rewrite <- list_fmap_compose. change (lr_evaluations key ∘ local_at t P Q bits) with (fun q => lr_evaluations key (local_at t P Q bits q)).
    rewrite the_statement_ok by done. cbn [mbind result_bind]. rewrite map_res_fmap.
    rewrite (map_res_members _ (node_at key t P Q bits)) by (intros q Hq; apply (the_binding key t parties); auto). cbn [mbind result_bind].
    rewrite <- list_fmap_compose. change (relation_evaluations key ∘ node_at key t P Q bits) with (fun q => relation_evaluations key (node_at key t P Q bits q)).
    rewrite the_relations_ok by done. cbn [mbind result_bind].
    rewrite (map_res_members _ (node_at key t P Q bits)).
    2:{ intros q Hq. unfold chosen_node. by rewrite find_node by auto. }
    cbn [mbind result_bind]. by rewrite <- list_fmap_compose. }
  eexists. split; [exact Hfirst|]. cbn [fr_chosen fr_prepared]. split; [rewrite <- list_fmap_compose; apply list_fmap_id|].
  rewrite Forall_fmap. intros Hz.
  assert (forall q, q ∈ quorum -> rse_digest (range_seal key t P Q bits context seeds q) <> ZERO32) as Hdig by (by apply Forall_forall).
  exists (assembled_range key t P Q bits context quorum seeds w).
  assert ((N.of_nat (length bits) <= 65536)%N) as Hw16 by lia.
  split; [|split; [|done]].
  2:{ rewrite <- HP0, <- HQ0. by apply (assembled_range_verifies key t P Q bits context quorum seeds). }
  unfold range_protocol. rewrite Hfirst. cbn [mbind result_bind fr_statement fr_relations fr_chosen fr_prepared]. rewrite <- !list_fmap_compose.
  match goal with |- context [make_range_challenge _ ?m ?s _ _] =>
    change m with (range_message key t P Q bits context seeds <$> quorum);
    change s with (range_seal key t P Q bits context seeds <$> quorum) end.
  rewrite (honest_range_challenge key t P Q bits context quorum seeds) with (w := w) by done. cbn [mbind result_bind].
  rewrite zip_with_fmap_l, zip_with_fmap_r, zip_with_diag, map_res_fmap. cbn beta.
  change (map_res _ quorum) with (map_res (fun q => answer_range_challenge (node_at key t P Q bits q)
    (range_secret key t P Q bits context seeds q) (the_challenge key t P Q bits context quorum seeds w)) quorum).
  rewrite (honest_range_answers key t P Q bits context quorum seeds) by done. cbn [mbind result_bind].
  by apply honest_range_assembly.
Qed.
End Claims.

(** C15: a threshold range proof pins its value: two accepted proofs with the
    same first moves and different challenges give a ledger of computed openings,
    all of them right.  Either two of its entries open one point to two values,
    and then give the discrete logarithm of the value generator, or the number
    the computed bits write is below two to the proof's width and the computed
    opening of the commitment is to that number. *)
Theorem threshold_range_pins `{SL : ScalarLaws} `{G : !GroupOps} `{L : !GroupLaws} (T T' : TranscriptOps) key C context p p' :
  verify_threshold_range (T:=T) key C p context = true -> verify_threshold_range (T:=T') key C p' context = true ->
  range_forked T T' C context p p' ->
  let ledger := range_opened T T' C context p p' in let v := range_value T T' context p p' in
  Forall (opens key) ledger
  /\ (broken key ledger
      \/ (v < 2 ^ N.of_nat (tp_bits p))%N /\ C = commit key (scalar_of_N v) (range_opening T T' C context p p').2).
Proof.
  intros Hv Hv' Hf ledger v. destruct (threshold_range_opens T T' key C context p p' Hv Hv' Hf) as [Ho Hc]. split; [exact Ho|].
  destruct (ledger_cases key ledger Ho) as [Hb|Hco]; [by left|]. right.
  destruct (Hc ledger (fun o Hin => Hin) Hco) as [Hlt Heq]. split; [exact Hlt|]. fold v in Heq. rewrite <- Heq.
  rewrite Forall_forall in Ho. apply (Ho (C, range_opening T T' C context p p')). unfold ledger, range_opened.
  apply elem_of_app. right. by apply list_elem_of_singleton.
Qed.
