(* ===== verification/Instruction.v ===== *)
(** * Payment instructions

    [zkpi/src/lib.rs] up to the venue, [zkfmi-zk/src/range.rs] and
    [zkpi/src/handles.rs]: bounds, range evidence, instructions, the digest the
    quorum signs, the nullifier, the issuer and per-venue handles.

    The [bulletproofs] crate, FROST and the post-quantum quorum of
    [zkfmi_crypto] are classes; a panic ([assert!], [expect]) is [None] of an
    option or the error [Panic]. *)

From S2P Require Import Prelude.
From S2P Require Import Interfaces.
From S2P Require Import Curve.
From S2P Require Import Sigma.
From S2P Require Import BitrangeProofs.
From S2P Require Import Threshold.
From S2P Require Import ThresholdRange.

Open Scope nat_scope.

(** The [bulletproofs] crate: generators by capacity, aggregated proofs and
    their encodings. *)
Class Bulletproofs `{TranscriptOps} `{GroupOps} := {
  BulletproofGens : Type;
  gens_new : nat -> nat -> BulletproofGens;
  Bulletproof : Type;
  prove_multiple : BulletproofGens -> Transcript -> list N -> list Scalar -> nat -> option (Bulletproof * list bytes);
  verify_multiple : BulletproofGens -> Transcript -> Bulletproof -> list bytes -> nat -> bool;
  bulletproof_to_bytes : Bulletproof -> bytes;
  bulletproof_from_bytes : bytes -> option Bulletproof
}.

(** A proof of values in range, made with enough capacity, is over their
    commitments and verifies on the transcript it was made on. *)
Class BulletproofLaws `{Bulletproofs} `{!PedersenGens} : Prop := {
  prove_multiple_ok : forall capacity aggregate transcript values blindings bits,
    bits <= capacity -> length values <= aggregate -> length blindings = length values ->
    (exists k, length values = 2 ^ k) -> bits ∈ [8; 16; 32; 64] -> Forall (fun v => v < 2 ^ N.of_nat bits)%N values ->
    exists proof, prove_multiple (gens_new capacity aggregate) transcript values blindings bits
        = Some (proof, zip_with (fun v r => compress (gens_B * scalar_of_N v + gens_B_blinding * r)%P) values blindings)
      /\ verify_multiple (gens_new capacity aggregate) transcript proof
           (zip_with (fun v r => compress (gens_B * scalar_of_N v + gens_B_blinding * r)%P) values blindings) bits = true
}.

(** The post-quantum quorum of [zkfmi_crypto]: the enrolled policy, its approvals
    and their canonical envelope; the key package's encoding and identifiers. *)
Class QuorumOps `{FrostVerify} := {
  QuorumPolicy : Type;
  QuorumApproval : Type;
  policy_valid : QuorumPolicy -> bool;
  policy_is_settlement : QuorumPolicy -> bool;
  policy_classical_binding : QuorumPolicy -> bytes;
  policy_nodes : QuorumPolicy -> list N;
  policy_verify : QuorumPolicy -> QuorumApproval -> bytes -> N -> bool;
  policy_verify_archived : QuorumPolicy -> QuorumApproval -> bytes -> bool;
  approval_encode : QuorumApproval -> option bytes;
  approval_decode : bytes -> option QuorumApproval;
  FrostIdentifier : Type;
  identifier_of : N -> option FrostIdentifier;
  package_serialize : FrostKeyPackage -> option bytes;
  package_shares : FrostKeyPackage -> list FrostIdentifier;
  identifier_dec :: EqDecision FrostIdentifier
}.

(** ** Committees *)

Definition validate_settlement_committee `{Sha256} `{QuorumOps} (policy : QuorumPolicy)
    (public : FrostKeyPackage) : result string unit :=
  if negb (policy_valid policy) then Err "PQ committee is invalid"
  else
    bytes ← ok_or (package_serialize public) "FROST public package is invalid";
    let binding := sha256 bytes in
    if negb (policy_is_settlement policy)
       || negb (bool_decide (policy_classical_binding policy = binding))
       || negb (length (policy_nodes policy) =? length (package_shares public))
       || existsb (fun node => match identifier_of node with
                               | None => true
                               | Some id => negb (bool_decide (id ∈ package_shares public))
                               end) (policy_nodes policy)
    then Err "PQ committee differs from the registered FROST committee"
    else Ok tt.

(** ** Range contexts *)

Section RangeCtx.
Context `{B : Bulletproofs}.

Record RangeCtx := mkRangeCtx {
  rc_gens : BulletproofGens;
  rc_bits : nat
}.

(** [usize::next_power_of_two]; zero and one give one. *)
Definition next_power_of_two (n : nat) : nat := 2 ^ Nat.log2_up n.

Definition range_ctx_new (bits max_aggregate : nat) : option RangeCtx :=
  if bool_decide (bits ∈ [8; 16; 32; 64])
  then Some (mkRangeCtx (gens_new bits (next_power_of_two max_aggregate)) bits)
  else None.

Definition ctx_prove (ctx : RangeCtx) (transcript : Transcript) (values : list N) (blindings : list Scalar) :
    result string (Bulletproof * list bytes) :=
  if (rc_bits ctx <? 64) && existsb (fun v => 2 ^ N.of_nat (rc_bits ctx) <=? v)%N values
  then Err "a value does not fit the range being proved"
  else
    let padding := next_power_of_two (length values) - length values in
    ok_or (prove_multiple (rc_gens ctx) transcript (values ++ replicate padding 0%N)
      (blindings ++ replicate padding s0) (rc_bits ctx)) "range proof failed".

Definition ctx_verify (ctx : RangeCtx) (transcript : Transcript) (proof : Bulletproof) (commitments : list bytes) : bool :=
  verify_multiple (rc_gens ctx) transcript proof commitments (rc_bits ctx).
End RangeCtx.

(** ** Instructions *)

Section Instructions.
Context `{B : Bulletproofs} `{Q : QuorumOps} `{Sha512}.

Definition AMOUNT_RANGE_CONTEXT : bytes := bstr "qomm:zkpi:ranges:amount".
Definition PRICE_RANGE_CONTEXT : bytes := bstr "qomm:zkpi:ranges:price".
Definition DEFAULT_DOMAIN : bytes := bstr "qomm:default-venue".

Inductive RangeEvidence :=
  | BulletproofEvidence (amount price : Bulletproof) (commitments : list bytes)
  | ThresholdEvidence (amount price : ThresholdRangeProof).

Inductive QuoteBinding :=
  | LegacyPackedKey (key : N)
  | ProofDigest (digest : bytes).
#[global] Instance quote_binding_dec : EqDecision QuoteBinding.
Proof. solve_decision. Defined.

Definition is_threshold (r : RangeEvidence) : bool :=
  match r with ThresholdEvidence _ _ => true | BulletproofEvidence _ _ _ => false end.

Definition commitment_count (r : RangeEvidence) : nat :=
  match r with
  | BulletproofEvidence _ _ commitments => length commitments
  | ThresholdEvidence amount price => length (tp_bit_commitments amount) + length (tp_bit_commitments price)
  end.

Record Bounds := mkBounds {
  b_amount_bits : nat;
  b_price_bits : nat;
  b_max_horizon : N
}.

Definition bounds_default : Bounds := mkBounds 32 32 86400.

Record Instruction := mkInstruction {
  i_amount_commitment : Point;
  i_price_commitment : Point;
  i_asset_commitment : Point;
  i_ranges : RangeEvidence;
  i_payer_handle : Point;
  i_payee_handle : Point;
  i_deadline : N;
  i_nonce : bytes;
  i_quote_binding : QuoteBinding;
  i_signature : FrostSignature;
  i_pq_approval : option QuorumApproval
}.

Record PartialInstruction := mkPartialInstruction {
  p_amount_commitment : Point;
  p_price_commitment : Point;
  p_asset_commitment : Point;
  p_ranges : RangeEvidence;
  p_payer_handle : Point;
  p_payee_handle : Point;
  p_deadline : N;
  p_nonce : bytes;
  p_quote_binding : QuoteBinding
}.

Record Openings := mkOpenings {
  o_amount : Scalar;
  o_price : Scalar;
  o_asset : Scalar
}.

Definition asset_scalar (asset_id : bytes) : Scalar :=
  scalar_wide (sha512 (bstr "QOMM:DEFMI:ASSET-SCALAR:v1" ++ asset_id)).

Definition range_commitment_count (i : Instruction) : nat := commitment_count (i_ranges i).

Definition legacy_quote_key (i : Instruction) : option N :=
  match i_quote_binding i with LegacyPackedKey value => Some value | ProofDigest _ => None end.

Definition quote_proof_digest (i : Instruction) : option bytes :=
  match i_quote_binding i with LegacyPackedKey _ => None | ProofDigest value => Some value end.

(** What SHA-512 hashes of the quote binding. *)
Definition binding_bytes (b : QuoteBinding) : bytes :=
  match b with
  | LegacyPackedKey value => be_bytes 8 value
  | ProofDigest value => bstr "QOMM:QUOTE-PROOF-DIGEST:v1" ++ value
  end.

Definition public_fields (domain : bytes) (amount price asset payer payee : Point) (deadline : N)
    (nonce : bytes) (binding : QuoteBinding) : bytes :=
  bstr "QOMM:ZKPI:v2" ++ be_bytes 8 (N.of_nat (length domain)) ++ domain
  ++ compress amount ++ compress price ++ compress asset ++ compress payer ++ compress payee
  ++ be_bytes 8 deadline ++ nonce ++ binding_bytes binding.

Definition digest_public_fields_for (domain : bytes) (amount price asset payer payee : Point) (deadline : N)
    (nonce : bytes) (binding : QuoteBinding) : bytes :=
  sha512 (public_fields domain amount price asset payer payee deadline nonce binding).

Definition digest_for (domain : bytes) (i : Instruction) : bytes :=
  sha512 (public_fields domain (i_amount_commitment i) (i_price_commitment i) (i_asset_commitment i)
    (i_payer_handle i) (i_payee_handle i) (i_deadline i) (i_nonce i) (i_quote_binding i)).

Definition instruction_digest (i : Instruction) : bytes := digest_for DEFAULT_DOMAIN i.

Definition nullifier (i : Instruction) : bytes :=
  take 32 (sha512 (bstr "QOMM:ZKPI:NUL:v1" ++ i_nonce i ++ compress (i_payer_handle i) ++ compress (i_payee_handle i))).

Definition partial_digest_for (domain : bytes) (p : PartialInstruction) : bytes :=
  digest_public_fields_for domain (p_amount_commitment p) (p_price_commitment p) (p_asset_commitment p)
    (p_payer_handle p) (p_payee_handle p) (p_deadline p) (p_nonce p) (p_quote_binding p).

Definition partial_digest (p : PartialInstruction) : bytes := partial_digest_for DEFAULT_DOMAIN p.

Definition sealed (p : PartialInstruction) (signature : FrostSignature) : Instruction :=
  mkInstruction (p_amount_commitment p) (p_price_commitment p) (p_asset_commitment p) (p_ranges p)
    (p_payer_handle p) (p_payee_handle p) (p_deadline p) (p_nonce p) (p_quote_binding p) signature None.

Definition sealed_hybrid (p : PartialInstruction) (signature : FrostSignature) (approval : QuorumApproval) : Instruction :=
  let i := sealed p signature in
  mkInstruction (i_amount_commitment i) (i_price_commitment i) (i_asset_commitment i) (i_ranges i)
    (i_payer_handle i) (i_payee_handle i) (i_deadline i) (i_nonce i) (i_quote_binding i) (i_signature i) (Some approval).

Definition from_threshold_ranges (key : Pedersen) (bounds : Bounds) (amount_commitment price_commitment asset_commitment : Point)
    (amount_range price_range : ThresholdRangeProof) (payer_handle payee_handle : Point) (deadline : N)
    (nonce quote_digest : bytes) : result string PartialInstruction :=
  if negb (tp_bits amount_range =? b_amount_bits bounds)
     || negb (verify_threshold_range key amount_commitment amount_range AMOUNT_RANGE_CONTEXT)
  then Err "the threshold amount proof is outside the published bounds"
  else if negb (tp_bits price_range =? b_price_bits bounds)
     || negb (verify_threshold_range key price_commitment price_range PRICE_RANGE_CONTEXT)
  then Err "the threshold price proof is outside the published bounds"
  else if same_point payer_handle payee_handle then Err "the payer and the payee are the same handle"
  else Ok (mkPartialInstruction amount_commitment price_commitment asset_commitment
    (ThresholdEvidence amount_range price_range) payer_handle payee_handle deadline nonce (ProofDigest quote_digest)).

(** ** The issuer *)

Record Issuer := mkIssuer {
  is_key : Pedersen;
  is_bounds : Bounds;
  is_amount_ranges : RangeCtx;
  is_price_ranges : RangeCtx;
  is_domain : bytes
}.

Definition issuer_new (key : Pedersen) (bounds : Bounds) : option Issuer :=
  amount_ranges ← range_ctx_new (b_amount_bits bounds) 1;
  price_ranges ← range_ctx_new (b_price_bits bounds) 1;
  Some (mkIssuer key bounds amount_ranges price_ranges DEFAULT_DOMAIN).

Definition build_with_asset_scalar_and_openings (issuer : Issuer) (amount price : N) (asset_value : Scalar)
    (payer_handle payee_handle : Point) (deadline : N) (nonce : bytes) (quote_key : N) (openings : Openings) :
    result string (bytes * Openings * PartialInstruction) :=
  '(amount_range, amount_commitments) ←
    ctx_prove (is_amount_ranges issuer) (transcript_new AMOUNT_RANGE_CONTEXT) [amount] [o_amount openings];
  '(price_range, price_commitments) ←
    ctx_prove (is_price_ranges issuer) (transcript_new PRICE_RANGE_CONTEXT) [price] [o_price openings];
  let partial := mkPartialInstruction (commit_u64 (is_key issuer) amount (o_amount openings))
    (commit_u64 (is_key issuer) price (o_price openings)) (commit (is_key issuer) asset_value (o_asset openings))
    (BulletproofEvidence amount_range price_range (amount_commitments ++ price_commitments))
    payer_handle payee_handle deadline nonce (LegacyPackedKey quote_key) in
  Ok (partial_digest_for (is_domain issuer) partial, openings, partial).

Section Building.
Context {R : Type} `{!ScalarRandom R}.

Definition build_with_asset_scalar (issuer : Issuer) (amount price : N) (asset_value : Scalar)
    (payer_handle payee_handle : Point) (deadline : N) (nonce : bytes) (quote_key : N) (rng : R) :
    result string (bytes * Openings * PartialInstruction * R) :=
  let (amount_blinding, rng) := scalar_random rng in
  let (price_blinding, rng) := scalar_random rng in
  let (asset_blinding, rng) := scalar_random rng in
  built ← build_with_asset_scalar_and_openings issuer amount price asset_value payer_handle payee_handle
    deadline nonce quote_key (mkOpenings amount_blinding price_blinding asset_blinding);
  Ok (built, rng).

Definition build (issuer : Issuer) (amount price asset : N) (payer_handle payee_handle : Point)
    (deadline : N) (nonce : bytes) (quote_key : N) (rng : R) :=
  build_with_asset_scalar issuer amount price (scalar_of_N asset) payer_handle payee_handle deadline nonce quote_key rng.

Definition build_for_asset_id (issuer : Issuer) (amount price : N) (asset_id : bytes) (payer_handle payee_handle : Point)
    (deadline : N) (nonce : bytes) (quote_key : N) (rng : R) :=
  build_with_asset_scalar issuer amount price (asset_scalar asset_id) payer_handle payee_handle deadline nonce quote_key rng.
End Building.

Definition build_for_asset_id_with_openings (issuer : Issuer) (amount price : N) (asset_id : bytes)
    (payer_handle payee_handle : Point) (deadline : N) (nonce : bytes) (quote_key : N) (openings : Openings) :=
  build_with_asset_scalar_and_openings issuer amount price (asset_scalar asset_id) payer_handle payee_handle
    deadline nonce quote_key openings.
End Instructions.

(** ** Handles *)

Section Handles.
Context `{G : GroupOps} `{Sha512}.

Definition HANDLE_DOMAIN : bytes := bstr "QOMM:ZKPI:HANDLE:v1".

Record Identity := mkIdentity { seed : bytes }.
Record Handle := mkHandle { hd_point : Point; hd_secret : Scalar }.

Definition account (handle : Handle) : bytes := compress (hd_point handle).

Definition identity_new {R} `{!RngCore R} (rng : R) : Identity * R :=
  let (seed, rng) := fill_bytes 32 rng in (mkIdentity seed, rng).

Definition from_seed (seed : bytes) : Identity := mkIdentity seed.

Definition handle (identity : Identity) (venue : bytes) : Handle :=
  let secret := scalar_wide (sha512 (HANDLE_DOMAIN ++ seed identity
    ++ be_bytes 8 (N.of_nat (length venue)) ++ venue)) in
  mkHandle (basepoint * secret)%P secret.
End Handles.
