(* ===== verification/Venue.v ===== *)
(** * Settlement venues

    The venue of [zkpi/src/lib.rs] and the typed instructions of
    [zkpi/src/typed.rs]: verification of an instruction, of its quorum
    signatures and of its execution context, and settlement, which records the
    nullifier. *)

From S2P Require Import Prelude.
From S2P Require Import Interfaces.
From S2P Require Import Curve.
From S2P Require Import Sigma.
From S2P Require Import BitrangeProofs.
From S2P Require Import Threshold.
From S2P Require Import ThresholdRange.
From S2P Require Import Instruction.

Open Scope nat_scope.

Section Venue.
Context `{B : Bulletproofs} `{Q : QuorumOps} `{Sha512} `{Sha256}.

Record Venue := mkVenue {
  v_key : Pedersen;
  v_domain : bytes;
  v_amount_ranges : RangeCtx;
  v_price_ranges : RangeCtx;
  v_group_public : FrostKeyPackage;
  v_spent : gset bytes;
  v_max_horizon : N;
  v_require_threshold_ranges : bool;
  v_pq_policy : option QuorumPolicy
}.

Definition venue_new (key : Pedersen) (bounds : Bounds) (group_public : FrostKeyPackage) : option Venue :=
  amount_ranges ← range_ctx_new (b_amount_bits bounds) 1;
  price_ranges ← range_ctx_new (b_price_bits bounds) 1;
  Some (mkVenue key DEFAULT_DOMAIN amount_ranges price_ranges group_public ∅ (b_max_horizon bounds) false None).

Definition require_threshold_ranges (v : Venue) : Venue :=
  mkVenue (v_key v) (v_domain v) (v_amount_ranges v) (v_price_ranges v) (v_group_public v) (v_spent v)
    (v_max_horizon v) true (v_pq_policy v).

Definition require_pq_committee (v : Venue) (policy : QuorumPolicy) : result string Venue :=
  _ ← validate_settlement_committee policy (v_group_public v);
  Ok (mkVenue (v_key v) (v_domain v) (v_amount_ranges v) (v_price_ranges v) (v_group_public v) (v_spent v)
    (v_max_horizon v) (v_require_threshold_ranges v) (Some policy)).

Definition spend (v : Venue) (n : bytes) : Venue :=
  mkVenue (v_key v) (v_domain v) (v_amount_ranges v) (v_price_ranges v) (v_group_public v) ({[n]} ∪ v_spent v)
    (v_max_horizon v) (v_require_threshold_ranges v) (v_pq_policy v).

(** ** Quorum approvals *)

Definition verify_pq_approval_at (v : Venue) (approval : option QuorumApproval) (message : bytes)
    (now : option N) : result string unit :=
  match v_pq_policy v, approval with
  | Some policy, Some value =>
      let verified := match now with
        | Some now => policy_verify policy value message now
        | None => policy_verify_archived policy value message
        end in
      if verified then Ok tt else Err "PQ quorum approval does not verify"
  | Some _, None => Err "this venue requires the PQ quorum approval"
  | None, Some _ => Err "a hybrid instruction requires an enrolled PQ committee"
  | None, None => Ok tt
  end.

Definition verify_pq_approval (v : Venue) (approval : option QuorumApproval) (message : bytes) (now : N) :
    result string unit :=
  verify_pq_approval_at v approval message (Some now).

Definition verify_authorization (v : Venue) (message : bytes) (classical : FrostSignature)
    (pq : option QuorumApproval) (now : N) : result string unit :=
  if negb (frost_verify (v_group_public v) message classical)
  then Err "application classical authorization does not verify"
  else verify_pq_approval v pq message now.

(** ** Instructions *)

(** [u64::saturating_add] *)
Definition saturating_add (a b : N) : N := N.min (a + b) U64_MAX.

Definition verify_ranges (v : Venue) (i : Instruction) : result string unit :=
  match i_ranges i with
  | BulletproofEvidence amount price commitments =>
      if v_require_threshold_ranges v then Err "this venue requires range proofs produced by the MPC quorum"
      else if negb (length commitments =? 2) then Err "the range proof has the wrong number of commitments"
      else if negb (ctx_verify (v_amount_ranges v) (transcript_new AMOUNT_RANGE_CONTEXT) amount (take 1 commitments))
      then Err "the amount is outside the published bounds"
      else if negb (ctx_verify (v_price_ranges v) (transcript_new PRICE_RANGE_CONTEXT) price (slice 1 2 commitments))
      then Err "the price is outside the published bounds"
      else if negb (bool_decide (head commitments = Some (compress (i_amount_commitment i))))
           || negb (bool_decide (commitments !! 1 = Some (compress (i_price_commitment i))))
      then Err "the range proof does not cover this instruction"
      else Ok tt
  | ThresholdEvidence amount price =>
      if negb (tp_bits amount =? rc_bits (v_amount_ranges v))
         || negb (verify_threshold_range (v_key v) (i_amount_commitment i) amount AMOUNT_RANGE_CONTEXT)
      then Err "the amount is outside the published bounds"
      else if negb (tp_bits price =? rc_bits (v_price_ranges v))
         || negb (verify_threshold_range (v_key v) (i_price_commitment i) price PRICE_RANGE_CONTEXT)
      then Err "the price is outside the published bounds"
      else Ok tt
  end.

Definition verify_at (v : Venue) (i : Instruction) (now : N) (archived : bool) : result string unit :=
  if (saturating_add now (v_max_horizon v) <? i_deadline i)%N
  then Err "the deadline is further out than this venue will hold a nullifier for"
  else if (i_deadline i <? now)%N then Err "past the deadline"
  else if same_point (i_payer_handle i) (i_payee_handle i) then Err "the payer and the payee are the same handle"
  else if bool_decide (nullifier i ∈ v_spent v) then Err "already settled"
  else
    _ ← verify_ranges v i;
    if negb (frost_verify (v_group_public v) (digest_for (v_domain v) i) (i_signature i))
    then Err "the quorum signature does not verify"
    else verify_pq_approval_at v (i_pq_approval i) (digest_for (v_domain v) i)
           (if archived then None else Some now).

Definition verify (v : Venue) (i : Instruction) (now : N) : result string unit := verify_at v i now false.

Definition verify_archived (v : Venue) (i : Instruction) : result string unit := verify_at v i (i_deadline i) true.

(** [&mut self]: the venue afterwards, whatever the outcome. *)
Definition settle (v : Venue) (i : Instruction) (now : N) : Venue * result string unit :=
  match verify v i now with
  | Err e => (v, Err e)
  | Ok _ => (spend v (nullifier i), Ok tt)
  end.

Definition spent_count (v : Venue) : nat := size (v_spent v).

(** ** Execution contexts *)

Inductive OperationKind := Reserve | Consume | Release | Settle.
Inductive TradeDirection := TakerBuys | TakerSells.
Inductive AuthorizationScope := MakerScope | TakerScope | JointScope.
#[global] Instance operation_dec : EqDecision OperationKind.
Proof. solve_decision. Defined.
#[global] Instance direction_dec : EqDecision TradeDirection.
Proof. solve_decision. Defined.
#[global] Instance scope_dec : EqDecision AuthorizationScope.
Proof. solve_decision. Defined.

(** [as u8] and [TryFrom<u8>]. *)
Definition operation_byte (o : OperationKind) : N :=
  match o with Reserve => 1 | Consume => 2 | Release => 3 | Settle => 4 end.
Definition operation_try_from (b : N) : result string OperationKind :=
  match b with
  | 1%N => Ok Reserve | 2%N => Ok Consume | 3%N => Ok Release | 4%N => Ok Settle
  | _ => Err "unknown typed zkPI operation"
  end.
Definition direction_byte (d : TradeDirection) : N := match d with TakerBuys => 1 | TakerSells => 2 end.
Definition direction_try_from (b : N) : result string TradeDirection :=
  match b with 1%N => Ok TakerBuys | 2%N => Ok TakerSells | _ => Err "unknown typed zkPI direction" end.
Definition scope_byte (s : AuthorizationScope) : N := match s with MakerScope => 1 | TakerScope => 2 | JointScope => 3 end.
Definition scope_try_from (b : N) : result string AuthorizationScope :=
  match b with
  | 1%N => Ok MakerScope | 2%N => Ok TakerScope | 3%N => Ok JointScope
  | _ => Err "unknown typed zkPI authorization scope"
  end.

Record ExecutionContext := mkExecutionContext {
  x_operation : OperationKind;
  x_scope : AuthorizationScope;
  x_direction : TradeDirection;
  x_venue_id : bytes;
  x_defmi_id : bytes;
  x_maker_handle : Point;
  x_taker_handle : Point;
  x_reserve_handle : Point;
  x_maker_reservation_id : bytes;
  x_maker_reservation_sequence : N;
  x_taker_reservation_id : bytes;
  x_taker_reservation_sequence : N;
  x_rfq_nullifier : bytes;
  x_taker_mandate_digest : bytes;
  x_maker_policy_digest : bytes;
  x_maker_mandate_digest : bytes;
  x_maker_reserve_receipt_digest : bytes;
  x_taker_reserve_receipt_digest : bytes;
  x_quote_proof_digest : bytes;
  x_market_statement_digest : bytes;
  x_before_state_root : bytes
}.

Definition nonzero (value : bytes) : bool := existsb (fun b => negb (Byte.eqb b x00)) value.

(** The reserve branch. *)
Definition validate_reserve (x : ExecutionContext) (payment : Instruction) : result string unit :=
  '(owner, own_id, other_id, authority, forbidden_authority) ←
    match x_scope x with
    | MakerScope => Ok (x_maker_handle x, x_maker_reservation_id x, x_taker_reservation_id x,
        x_maker_policy_digest x, x_taker_mandate_digest x)
    | TakerScope => Ok (x_taker_handle x, x_taker_reservation_id x, x_maker_reservation_id x,
        x_taker_mandate_digest x, x_maker_policy_digest x)
    | JointScope => Err "a reserve belongs to exactly one trading party"
    end;
  if negb (bool_decide (i_payer_handle payment = owner))
     || negb (bool_decide (i_payee_handle payment = x_reserve_handle x))
  then Err "reserve payer/payee do not move from its owner into escrow"
  else if negb (nonzero own_id) || nonzero other_id || negb (nonzero authority) || nonzero forbidden_authority
     || nonzero (x_maker_reserve_receipt_digest x) || nonzero (x_taker_reserve_receipt_digest x)
     || nonzero (x_quote_proof_digest x) || nonzero (x_market_statement_digest x)
  then Err "reserve context contains missing or future execution data"
  else if bool_decide (x_scope x = MakerScope) && negb (nonzero (x_maker_mandate_digest x))
  then Err "Maker reserve lacks its signed policy mandate"
  else if bool_decide (x_scope x = TakerScope) && nonzero (x_maker_mandate_digest x)
  then Err "Taker reserve contains an unrelated Maker mandate"
  else if bool_decide (x_scope x = MakerScope) && nonzero (x_rfq_nullifier x)
  then Err "a Maker reserve cannot claim a later RFQ"
  else if bool_decide (x_scope x = TakerScope) && negb (nonzero (x_rfq_nullifier x))
  then Err "a Taker reserve must bind its one-use RFQ"
  else Ok tt.

(** The release branch. *)
Definition validate_release (x : ExecutionContext) (payment : Instruction) : result string unit :=
  '(owner, own_id, other_id, receipt, other_receipt) ←
    match x_scope x with
    | MakerScope => Ok (x_maker_handle x, x_maker_reservation_id x, x_taker_reservation_id x,
        x_maker_reserve_receipt_digest x, x_taker_reserve_receipt_digest x)
    | TakerScope => Ok (x_taker_handle x, x_taker_reservation_id x, x_maker_reservation_id x,
        x_taker_reserve_receipt_digest x, x_maker_reserve_receipt_digest x)
    | JointScope => Err "a release belongs to exactly one trading party"
    end;
  if negb (bool_decide (i_payer_handle payment = x_reserve_handle x))
     || negb (bool_decide (i_payee_handle payment = owner))
  then Err "release payer/payee do not return escrow to its owner"
  else if negb (nonzero own_id) || nonzero other_id || negb (nonzero receipt) || nonzero other_receipt
  then Err "release lacks its unique reservation receipt"
  else Ok tt.

(** The values a settlement must carry, in order. *)
Definition settlement_values (x : ExecutionContext) : list (bytes * string) := [
  (x_maker_reservation_id x, "settlement lacks the Maker reservation");
  (x_taker_reservation_id x, "settlement lacks the Taker reservation");
  (x_rfq_nullifier x, "settlement lacks the one-use RFQ");
  (x_taker_mandate_digest x, "settlement lacks the Taker mandate");
  (x_maker_mandate_digest x, "settlement lacks the Maker mandate");
  (x_maker_policy_digest x, "settlement lacks the Maker policy");
  (x_maker_reserve_receipt_digest x, "settlement lacks the Maker reserve receipt");
  (x_taker_reserve_receipt_digest x, "settlement lacks the Taker reserve receipt");
  (x_quote_proof_digest x, "settlement lacks the quote proof");
  (x_market_statement_digest x, "settlement lacks the reference-market statement")].

Definition role_mapping (x : ExecutionContext) (payment : Instruction) : bool :=
  match x_direction x with
  | TakerBuys => bool_decide (i_payer_handle payment = x_taker_handle x) && bool_decide (i_payee_handle payment = x_maker_handle x)
  | TakerSells => bool_decide (i_payer_handle payment = x_maker_handle x) && bool_decide (i_payee_handle payment = x_taker_handle x)
  end.

(** The consume and settle branch. *)
Definition validate_settlement (x : ExecutionContext) (payment : Instruction) : result string unit :=
  if negb (bool_decide (x_scope x = JointScope))
  then Err "settlement must jointly consume Maker and Taker authority"
  else if match quote_proof_digest payment with
          | Some payment_quote => negb (bool_decide (payment_quote = x_quote_proof_digest x))
          | None => false
          end
  then Err "the payment zkPI and execution context name different quote proofs"
  else if negb (role_mapping x payment) then Err "Maker/Taker roles do not match the payer/payee legs"
  else for_each (fun '(value, message) => if negb (nonzero value) then Err message else Ok tt) (settlement_values x).

Definition validate_against (x : ExecutionContext) (payment : Instruction) : result string unit :=
  if bool_decide (x_maker_handle x = x_taker_handle x)
  then Err "Maker and Taker resolve to the same settlement handle"
  else if bool_decide (x_reserve_handle x = x_maker_handle x) || bool_decide (x_reserve_handle x = x_taker_handle x)
  then Err "the reserve handle must not be a trading-party handle"
  else if negb (nonzero (x_before_state_root x)) || negb (nonzero (x_venue_id x)) || negb (nonzero (x_defmi_id x))
  then Err "typed zkPI lacks its venue, DeFMI, or prior state root"
  else
    match x_operation x with
    | Reserve => validate_reserve x payment
    | Release => validate_release x payment
    | Consume | Settle => validate_settlement x payment
    end.

(** ** Typed instructions *)

Record TypedInstruction := mkTypedInstruction {
  t_payment : Instruction;
  t_context : ExecutionContext;
  t_authorization : FrostSignature;
  t_pq_authorization : option QuorumApproval
}.

(** The context's bytes after the operation, scope and direction. *)
Definition context_fields (x : ExecutionContext) : bytes :=
  x_venue_id x ++ x_defmi_id x ++ compress (x_maker_handle x) ++ compress (x_taker_handle x)
  ++ compress (x_reserve_handle x) ++ x_maker_reservation_id x ++ be_bytes 8 (x_maker_reservation_sequence x)
  ++ x_taker_reservation_id x ++ be_bytes 8 (x_taker_reservation_sequence x) ++ x_rfq_nullifier x
  ++ x_taker_mandate_digest x ++ x_maker_policy_digest x ++ x_maker_mandate_digest x
  ++ x_maker_reserve_receipt_digest x ++ x_taker_reserve_receipt_digest x ++ x_quote_proof_digest x
  ++ x_market_statement_digest x ++ x_before_state_root x.

Definition context_kinds (x : ExecutionContext) : bytes :=
  [byte_of_N (operation_byte (x_operation x)); byte_of_N (scope_byte (x_scope x)); byte_of_N (direction_byte (x_direction x))].

Definition typed_message (payment : Instruction) (x : ExecutionContext) (domain : bytes) : bytes :=
  bstr "QOMM:ZKPI:TYPED:v1" ++ be_bytes 8 (N.of_nat (length domain)) ++ domain
  ++ digest_for domain payment ++ context_kinds x ++ context_fields x.

Definition typed_digest_for (payment : Instruction) (x : ExecutionContext) (domain : bytes) : result string bytes :=
  _ ← validate_against x payment;
  Ok (sha512 (typed_message payment x domain)).

Definition verify_typed (v : Venue) (t : TypedInstruction) (now : N) : result string unit :=
  _ ← verify v (t_payment t) now;
  digest ← typed_digest_for (t_payment t) (t_context t) (v_domain v);
  if negb (frost_verify (v_group_public v) digest (t_authorization t))
  then Err "the typed zkPI authorization does not verify"
  else verify_pq_approval v (t_pq_authorization t) digest now.

Definition settle_typed (v : Venue) (t : TypedInstruction) (now : N) : Venue * result string unit :=
  match verify_typed v t now with
  | Err e => (v, Err e)
  | Ok _ => (spend v (nullifier (t_payment t)), Ok tt)
  end.
End Venue.
