(* ===== verification/Reader.v ===== *)
(** * Byte readers

    The cursors of the wire decoders.  A cursor over a slice is the bytes that
    are left, so a read returns its value and the rest; [reads] says that a
    reader accepts exactly an encoding and [writes] that a writer makes it, which is
    what the round trips compose. *)

From S2P Require Import Prelude.
From S2P Require Import Interfaces.
From S2P Require Import Curve.

Open Scope nat_scope.

(** [CompressedRistretto] is 32 bytes, and decompression accepts exactly the
    encodings of points. *)
Class PointCodec `{GroupOps} := decompress : bytes -> option Point.
Class PointCodecLaws `{PointCodec} : Prop := {
  compress_length : forall p, length (compress p) = 32;
  decompress_compress : forall p, decompress (compress p) = Some p;
  compress_decompress : forall b p, decompress b = Some p -> compress p = b
}.

(** [Scalar::to_bytes] and [Scalar::from_canonical_bytes]. *)
Class ScalarCodec `{ScalarOps} := {
  scalar_to_bytes : Scalar -> bytes;
  scalar_from_canonical : bytes -> option Scalar
}.
Class ScalarCodecLaws `{ScalarCodec} : Prop := {
  scalar_to_bytes_length : forall s, length (scalar_to_bytes s) = 32;
  scalar_from_to : forall s, scalar_from_canonical (scalar_to_bytes s) = Some s;
  scalar_to_from : forall b s, scalar_from_canonical b = Some s -> scalar_to_bytes s = b
}.

(** [frost::Signature::serialize] and [deserialize]. *)
Class FrostCodec `{FrostVerify} := {
  signature_serialize : FrostSignature -> option bytes;
  signature_deserialize : bytes -> option FrostSignature
}.
Class FrostCodecLaws `{FrostCodec} : Prop := {
  signature_length : forall s b, signature_serialize s = Some b -> length b = 64;
  signature_from_to : forall s b, signature_serialize s = Some b -> signature_deserialize b = Some s;
  signature_to_from : forall b s, signature_deserialize b = Some s -> signature_serialize s = Some b
}.

Section Reader.
Context {E : Type}.

Abbreviation reader A := (bytes -> result E (A * bytes)).

(** [take]: the next [n] bytes, or an error that may name how many were left. *)
Definition read_take (short : nat -> E) (n : nat) : reader bytes := fun r =>
  if length r <? n then Err (short (length r)) else Ok (take n r, drop n r).

(** [uN::from_be_bytes] of the next [n] bytes. *)
Definition read_be (short : nat -> E) (n : nat) : reader N := fun r =>
  '(b, r) ← read_take short n r; Ok (of_be_bytes b, r).

(** The next [n] bytes through a partial decoder. *)
Definition read_with {A} (short : nat -> E) (n : nat) (f : bytes -> option A) (bad : E) : reader A := fun r =>
  '(b, r) ← read_take short n r; a ← ok_or (f b) bad; Ok (a, r).

(** [for _ in 0..count] of a reader that pushes. *)
Fixpoint read_times {A} (count : nat) (m : reader A) : reader (list A) := fun r =>
  match count with
  | O => Ok ([], r)
  | S count => '(a, r) ← m r; '(l, r) ← read_times count m r; Ok (a :: l, r)
  end.

(** The end of a message: nothing is left. *)
Definition finish {A} (trailing : nat -> E) (m : reader A) : bytes -> result E A := fun r =>
  '(a, r) ← m r; if length r =? 0 then Ok a else Err (trailing (length r)).

(** ** What a reader reads *)

Definition reads {A} (m : reader A) (ok : A -> Prop) (encoding : A -> bytes) : Prop :=
  forall r a rest, m r = Ok (a, rest) <-> ok a /\ r = encoding a ++ rest.

Lemma reads_run {A} {m : reader A} {ok encoding} a rest : reads m ok encoding -> ok a -> m (encoding a ++ rest) = Ok (a, rest).
Proof. intros Hm Ha. by apply Hm. Qed.

Lemma reads_take short n : reads (read_take short n) (fun b => length b = n) id.
Proof.
  intros r b rest. unfold read_take. destruct (Nat.ltb_spec (length r) n) as [Hl|Hl].
  - split; [done|]. intros [Hn ->]. unfold id in Hl. rewrite length_app in Hl. lia.
  - split.
    + intros [= <- <-]. rewrite length_take. split; [lia|]. unfold id. by rewrite take_drop.
    + unfold id. intros [<- ->]. by rewrite take_app_length, drop_app_length.
Qed.

Lemma reads_be short n : reads (read_be short n) (fun x => x < 256 ^ N.of_nat n)%N (be_bytes n).
Proof.
  intros r x rest. unfold read_be. rewrite bind_ok. split.
  - intros ([b r'] & Hb & [= <- <-]). apply reads_take in Hb as [Hl ->].
    split; [by apply of_be_bytes_bound'|]. by rewrite be_bytes_of_be'.
  - intros [Hx ->]. exists (be_bytes n x, rest). split.
    + apply reads_take. by rewrite be_bytes_length.
    + by rewrite of_be_bytes_be_small.
Qed.

Lemma reads_with {A} short n (f : bytes -> option A) bad (ok : A -> Prop) (encoding : A -> bytes) :
  (forall b a, length b = n -> f b = Some a <-> ok a /\ b = encoding a) -> (forall a, ok a -> length (encoding a) = n) ->
  reads (read_with short n f bad) ok encoding.
Proof.
  intros Hf Hn r a rest. unfold read_with. rewrite bind_ok. split.
  - intros ([b r'] & Hb & H). apply reads_take in Hb as [Hl ->]. apply bind_ok in H as (a' & Ha & [= <- <-]).
    apply ok_or_ok, Hf in Ha as [Ha ->]; done.
  - intros [Ha ->]. exists (encoding a, rest). split; [by apply reads_take; auto|].
    rewrite (proj2 (Hf (encoding a) a (Hn a Ha))) by done. done.
Qed.

Lemma reads_times {A} count (m : reader A) ok encoding : reads m ok encoding ->
  reads (read_times count m) (fun l => length l = count /\ Forall ok l) (fun l => concat (encoding <$> l)).
Proof.
  intros Hm. induction count as [|count IH]; intros r l rest; cbn [read_times].
  - split; [by intros [= <- <-]|]. intros [[Hl _] ->]. by destruct l.
  - rewrite bind_ok. split.
    + intros ([a r'] & Ha & H). apply Hm in Ha as [Ha ->]. apply bind_ok in H as ([l' r''] & Hl & [= <- <-]).
      apply IH in Hl as [[Hl Hok] ->]. split; [split; [cbn; lia | by constructor]|]. cbn. by rewrite app_assoc.
    + intros [[Hl Hok] ->]. destruct l as [|a l]; [done|]. apply Forall_cons in Hok as [Ha Hok].
      exists (a, concat (encoding <$> l) ++ rest). split.
      * apply Hm. split; [done|]. cbn. by rewrite app_assoc.
      * rewrite (reads_run l rest IH); [done|]. cbn in Hl. split; [lia | done].
Qed.

Lemma finish_ok {A} trailing (m : reader A) ok encoding raw a : reads m ok encoding ->
  finish trailing m raw = Ok a <-> ok a /\ raw = encoding a.
Proof.
  intros Hm. unfold finish. rewrite bind_ok. split.
  - intros ([a' r] & Ha & H). apply Hm in Ha as [Ha ->]. destruct r; [|done]. injection H as ->. by rewrite app_nil_r.
  - intros [Ha ->]. exists (a, []). split; [|done]. apply Hm. by rewrite app_nil_r.
Qed.

(** A message is exactly as long as it is: an extension of one is refused as
    trailing, and so no proper prefix of it is one. *)
Lemma finish_exact {A} trailing (m : reader A) ok encoding raw a extra : reads m ok encoding ->
  finish trailing m raw = Ok a -> extra <> [] -> finish trailing m (raw ++ extra) = Err (trailing (length extra)).
Proof.
  intros Hm Ha Hx. apply (finish_ok _ _ _ _ _ _ Hm) in Ha as [Ha ->]. unfold finish.
  rewrite (reads_run a extra Hm Ha). cbn [mbind result_bind]. by destruct extra.
Qed.
End Reader.

Section Elements.
Context {E : Type} `{PL : PointCodecLaws}.

Lemma compress_injective (p q : Point) : compress p = compress q -> p = q.
Proof. intros Hc. apply (f_equal decompress) in Hc. rewrite !decompress_compress in Hc. by injection Hc. Qed.

Lemma reads_point (short : nat -> E) bad : reads (read_with short 32 decompress bad) (fun _ => True) compress.
Proof.
  apply reads_with; [|intros; apply compress_length]. intros b p _. split.
  - intros Hb. split; [done|]. symmetry. by apply compress_decompress.
  - intros [_ ->]. apply decompress_compress.
Qed.

Lemma reads_scalar `{SL : !ScalarCodec} `{SLL : !ScalarCodecLaws} (short : nat -> E) bad :
  reads (read_with short 32 scalar_from_canonical bad) (fun _ => True) scalar_to_bytes.
Proof.
  apply reads_with; [|intros; apply scalar_to_bytes_length]. intros b s _. split.
  - intros Hb. split; [done|]. symmetry. by apply scalar_to_from.
  - intros [_ ->]. apply scalar_from_to.
Qed.
End Elements.

Section Signatures.
Context {E : Type} `{FL : FrostCodecLaws}.

Lemma reads_signature (short : nat -> E) bad :
  reads (read_with short 64 signature_deserialize bad) (fun s => is_Some (signature_serialize s))
    (fun s => default [] (signature_serialize s)).
Proof.
  apply reads_with.
  - intros b s _. split.
    + intros Hb%signature_to_from. by rewrite Hb.
    + intros [[b' Hs] ->]. rewrite Hs. by apply signature_from_to.
  - intros s [b Hs]. rewrite Hs. by apply signature_length in Hs.
Qed.
End Signatures.

(** ** What a writer writes *)

(** A writer succeeds exactly on [ok] values and writes their encoding. *)
Definition writes {E A} (put : A -> result E bytes) (ok : A -> Prop) (encoding : A -> bytes) : Prop :=
  forall a b, put a = Ok b <-> ok a /\ b = encoding a.

Lemma writes_bind {E A B} (put : A -> result E bytes) ok encoding a (k : bytes -> result E B) v :
  writes put ok encoding -> (b ← put a; k b) = Ok v <-> ok a /\ k (encoding a) = Ok v.
Proof.
  intros Hw. rewrite bind_ok. split.
  - intros (b & Hb & Hk). by apply Hw in Hb as [Ha ->].
  - intros [Ha Hk]. exists (encoding a). split; [by apply Hw | done].
Qed.

Lemma writes_go {E A} (put : A -> result E bytes) ok encoding a : writes put ok encoding -> ok a -> put a = Ok (encoding a).
Proof. intros Hw Ha. by apply Hw. Qed.

(** ** Automation

    [read_inv] turns a successful read into the encoding it read, [read_run]
    runs the next reader on the encoding of a value; the facts about readers are
    found as instances. *)

Existing Class reads.
#[export] Existing Instance reads_take.
#[export] Existing Instance reads_be.
#[export] Existing Instance reads_point.
#[export] Existing Instance reads_scalar.
#[export] Existing Instance reads_signature.
#[export] Existing Instance reads_times.

Lemma read_back {E A} (m : bytes -> result E (A * bytes)) ok encoding `{Hm : !reads m ok encoding} r a rest :
  m r = Ok (a, rest) -> ok a /\ r = encoding a ++ rest.
Proof. apply Hm. Qed.

Lemma read_go {E A} (m : bytes -> result E (A * bytes)) ok encoding `{Hm : !reads m ok encoding} r a rest :
  ok a -> r = encoding a ++ rest -> m r = Ok (a, rest).
Proof. intros Ha ->. by apply Hm. Qed.

Ltac read_last H :=
  match type of H with ?m ?r = Ok (?a, ?rest) => destruct (read_back m _ _ r a rest H) as [? ->]; clear H end.
Ltac read_inv H name :=
  let hr := fresh "Hread" in apply bind_ok in H as ([name ?] & hr & H); read_last hr.
Tactic Notation "read_inv" hyp(H) "as" ident(name) := read_inv H name.
Ltac read_step m solve_ok := erewrite (read_go m _ _); [| | unfold id; reflexivity]; [cbn [mbind result_bind] | solve_ok].
Ltac read_run_with solve_ok :=
  match goal with |- mbind _ (?m ?r) = _ => read_step m solve_ok end.
Ltac read_run := read_run_with ltac:(try done; try (split; done); eauto).
