(* ===== verification/VenueClaims.v ===== *)
(** * What a settlement venue guarantees

    Which instructions a venue accepts, that a nullifier settles at most once
    over every sequence of operations, which transfer each execution context
    authorises, and what the signed digests bind. *)

From S2P Require Import Prelude.
From S2P Require Import Interfaces.
From S2P Require Import Curve.
From S2P Require Import Sigma.
From S2P Require Import BitrangeProofs.
From S2P Require Import Threshold.
From S2P Require Import ThresholdRange.
From S2P Require Import Instruction.
From S2P Require Import Venue.
From S2P Require Import Reader.

Open Scope nat_scope.

Section Acceptance.
Context `{B : Bulletproofs} `{Q : QuorumOps} `{Sha512} `{Sha256}.

(** ** Acceptance *)

(** The range evidence covers the instruction's commitments at the venue's widths. *)
Definition ranges_ok (v : Venue) (i : Instruction) : Prop :=
  match i_ranges i with
  | BulletproofEvidence amount price commitments =>
      v_require_threshold_ranges v = false
      /\ commitments = [compress (i_amount_commitment i); compress (i_price_commitment i)]
      /\ ctx_verify (v_amount_ranges v) (transcript_new AMOUNT_RANGE_CONTEXT) amount [compress (i_amount_commitment i)] = true
      /\ ctx_verify (v_price_ranges v) (transcript_new PRICE_RANGE_CONTEXT) price [compress (i_price_commitment i)] = true
  | ThresholdEvidence amount price =>
      tp_bits amount = rc_bits (v_amount_ranges v) /\ tp_bits price = rc_bits (v_price_ranges v)
      /\ verify_threshold_range (v_key v) (i_amount_commitment i) amount AMOUNT_RANGE_CONTEXT = true
      /\ verify_threshold_range (v_key v) (i_price_commitment i) price PRICE_RANGE_CONTEXT = true
  end.

Lemma verify_ranges_ok v i : verify_ranges v i = Ok tt <-> ranges_ok v i.
Proof.
  unfold verify_ranges, ranges_ok. destruct (i_ranges i) as [amount price commitments|amount price].
  - destruct (v_require_threshold_ranges v); [naive_solver|].
    destruct (Nat.eqb_spec (length commitments) 2) as [Hl|Hl]; cbn [negb].
    2:{ split; [done|]. intros (_ & -> & _). done. }
    destruct commitments as [|a [|b [|? ?]]]; try done. cbn [take slice head lookup list_lookup drop Nat.sub].
    destruct (ctx_verify _ _ amount [a]) eqn:Ha; cbn [negb].
    2:{ split; [done|]. intros (_ & [= -> ->] & E & _). congruence. }
    change (slice 1 2 [a; b]) with [b]. destruct (ctx_verify _ _ price [b]) eqn:Hb; cbn [negb].
    2:{ split; [done|]. intros (_ & [= -> ->] & _ & E). congruence. }
    case_bool_decide as E1; case_bool_decide as E2; cbn [negb orb]; (split; [|naive_solver]); try done.
    intros _. injection E1 as ->. injection E2 as ->. done.
  - destruct (Nat.eqb_spec (tp_bits amount) (rc_bits (v_amount_ranges v))); cbn [negb orb]; [|naive_solver].
    destruct (verify_threshold_range _ _ amount _) eqn:Ha; cbn [negb]; [|naive_solver].
    destruct (Nat.eqb_spec (tp_bits price) (rc_bits (v_price_ranges v))); cbn [negb orb]; [|naive_solver].
    destruct (verify_threshold_range _ _ price _) eqn:Hb; cbn [negb]; naive_solver.
Qed.

(** The post-quantum side: an enrolled policy and a verified approval, or neither. *)
Definition approval_ok (v : Venue) (approval : option QuorumApproval) (message : bytes) (now : option N) : Prop :=
  match v_pq_policy v, approval with
  | Some policy, Some value =>
      match now with Some now => policy_verify policy value message now | None => policy_verify_archived policy value message end = true
  | None, None => True
  | _, _ => False
  end.

Lemma verify_pq_ok v approval message now : verify_pq_approval_at v approval message now = Ok tt <-> approval_ok v approval message now.
Proof.
  unfold verify_pq_approval_at, approval_ok. destruct (v_pq_policy v), approval; try done.
  destruct (match now with Some _ => _ | None => _ end); done.
Qed.

Lemma verify_at_ok v i now archived : verify_at v i now archived = Ok tt <->
  (now <= i_deadline i <= saturating_add now (v_max_horizon v))%N
  /\ compress (i_payer_handle i) <> compress (i_payee_handle i)
  /\ (nullifier i ∉ v_spent v) /\ ranges_ok v i
  /\ frost_verify (v_group_public v) (digest_for (v_domain v) i) (i_signature i) = true
  /\ approval_ok v (i_pq_approval i) (digest_for (v_domain v) i) (if archived then None else Some now).
Proof.
  unfold verify_at, same_point. rewrite <- verify_ranges_ok, <- verify_pq_ok.
  destruct (N.ltb_spec (saturating_add now (v_max_horizon v)) (i_deadline i)); [split; [done | lia]|].
  destruct (N.ltb_spec (i_deadline i) now); [split; [done | lia]|].
  case_bool_decide; [naive_solver|]. case_bool_decide; [naive_solver|].
  destruct (verify_ranges v i) as [[]|]; cbn [mbind result_bind]; [|naive_solver].
  destruct (frost_verify _ _ _); cbn [negb]; naive_solver.
Qed.

(** ** Sequences of operations *)

Inductive VenueOp :=
  | OpSettle (i : Instruction) (now : N)
  | OpSettleTyped (t : TypedInstruction) (now : N)
  | OpRequireThreshold
  | OpEnroll (policy : QuorumPolicy).

Definition venue_step (v : Venue) (op : VenueOp) : Venue * result string unit :=
  match op with
  | OpSettle i now => settle v i now
  | OpSettleTyped t now => settle_typed v t now
  | OpRequireThreshold => (require_threshold_ranges v, Ok tt)
  | OpEnroll policy =>
      match require_pq_committee v policy with Ok v' => (v', Ok tt) | Err e => (v, Err e) end
  end.

Fixpoint venue_run (v : Venue) (ops : list VenueOp) : Venue * list (result string unit) :=
  match ops with
  | [] => (v, [])
  | op :: ops => let (v, r) := venue_step v op in let (v, rs) := venue_run v ops in (v, r :: rs)
  end.

(** The nullifier an operation would settle. *)
Definition op_nullifier (op : VenueOp) : option bytes :=
  match op with
  | OpSettle i _ => Some (nullifier i)
  | OpSettleTyped t _ => Some (nullifier (t_payment t))
  | _ => None
  end.

(** The nullifiers settled by a run, in order. *)
Definition settled (ops : list VenueOp) (results : list (result string unit)) : list bytes :=
  omap (fun '(op, r) => if is_ok r then op_nullifier op else None) (zip ops results).

Lemma verify_fresh v i now : verify v i now = Ok tt -> nullifier i ∉ v_spent v.
Proof. intros E. by apply verify_at_ok in E as (_ & _ & ? & _). Qed.

Lemma verify_typed_verify v t now : verify_typed v t now = Ok tt -> verify v (t_payment t) now = Ok tt.
Proof. unfold verify_typed. rewrite bind_ok. by intros ([] & ? & _). Qed.

Lemma step_spent v op v' r : venue_step v op = (v', r) ->
  match op_nullifier op with
  | Some n => (r = Ok tt /\ (n ∉ v_spent v) /\ v_spent v' = {[n]} ∪ v_spent v) \/ (is_ok r = false /\ v' = v)
  | None => v_spent v' = v_spent v
  end.
Proof.
  destruct op as [i now|t now| |policy]; cbn [venue_step op_nullifier].
  - unfold settle. destruct (verify v i now) as [[]|] eqn:E; intros [= <- <-]; [|by right].
    left. split; [done|]. split; [by apply verify_fresh in E | done].
  - unfold settle_typed. destruct (verify_typed v t now) as [[]|] eqn:E; intros [= <- <-]; [|by right].
    left. split; [done|]. split; [|done]. by apply verify_typed_verify, verify_fresh in E.
  - by intros [= <- <-].
  - unfold require_pq_committee. destruct (validate_settlement_committee _ _); cbn; by intros [= <- <-].
Qed.

(** A run settles distinct, fresh nullifiers and records exactly them. *)
Lemma run_settled ops : forall v v' rs, venue_run v ops = (v', rs) ->
  NoDup (settled ops rs) /\ (forall n, n ∈ settled ops rs -> n ∉ v_spent v)
  /\ (forall n, n ∈ v_spent v' <-> n ∈ settled ops rs \/ n ∈ v_spent v).
Proof.
  induction ops as [|op ops IH]; intros v v' rs; cbn [venue_run].
  { intros [= <- <-]. cbn. split; [constructor|]. set_solver. }
  destruct (venue_step v op) as [v1 r] eqn:Hs. destruct (venue_run v1 ops) as [v2 rs'] eqn:Hr. intros [= <- <-].
  destruct (IH _ _ _ Hr) as (Hnd & Hfresh & Hrec). apply step_spent in Hs.
  unfold settled. cbn [zip zip_with omap list_omap]. fold (settled ops rs').
  destruct (op_nullifier op) as [n|]; [destruct Hs as [(-> & Hn & Hv1)|[-> ->]]|]; cbn [is_ok].
  - rewrite Hv1 in *. split; [constructor; [|done]|].
    + intros Hin. apply Hfresh in Hin. set_solver.
    + split.
      * intros m [->|Hm]%elem_of_cons; [done|]. apply Hfresh in Hm. set_solver.
      * intros m. rewrite Hrec, elem_of_cons, elem_of_union, elem_of_singleton. tauto.
  - done.
  - destruct (is_ok r); rewrite Hs in *; done.
Qed.
End Acceptance.

(** ** Execution contexts *)

Section Contexts.
Context `{B : Bulletproofs} `{Q : QuorumOps}.

(** The transfer an execution context authorises: from whom to whom. *)
Definition authorised_transfer (x : ExecutionContext) : option (Point * Point) :=
  match x_operation x, x_scope x, x_direction x with
  | Reserve, MakerScope, _ => Some (x_maker_handle x, x_reserve_handle x)
  | Reserve, TakerScope, _ => Some (x_taker_handle x, x_reserve_handle x)
  | Release, MakerScope, _ => Some (x_reserve_handle x, x_maker_handle x)
  | Release, TakerScope, _ => Some (x_reserve_handle x, x_taker_handle x)
  | (Consume | Settle), JointScope, TakerBuys => Some (x_taker_handle x, x_maker_handle x)
  | (Consume | Settle), JointScope, TakerSells => Some (x_maker_handle x, x_taker_handle x)
  | _, _, _ => None
  end.

(** Three different parties, and the identifiers every context carries. *)
Definition context_parties (x : ExecutionContext) : Prop :=
  x_maker_handle x <> x_taker_handle x /\ x_reserve_handle x <> x_maker_handle x /\ x_reserve_handle x <> x_taker_handle x
  /\ nonzero (x_before_state_root x) = true /\ nonzero (x_venue_id x) = true /\ nonzero (x_defmi_id x) = true.

(** The data the code requires and forbids in each operation: a reserve names its
    own reservation and authority and nothing that comes later, a settlement has
    every identifier of both sides; of a release only the reservations and their
    receipts are constrained, its RFQ, mandates, policy and digests are free. *)
Definition context_data (x : ExecutionContext) (payment : Instruction) : Prop :=
  let empty l := Forall (fun b => nonzero b = false) l in
  let present l := Forall (fun b => nonzero b = true) l in
  match x_operation x, x_scope x with
  | Reserve, MakerScope =>
      present [x_maker_reservation_id x; x_maker_policy_digest x; x_maker_mandate_digest x]
      /\ empty [x_taker_reservation_id x; x_taker_mandate_digest x; x_rfq_nullifier x; x_maker_reserve_receipt_digest x;
                x_taker_reserve_receipt_digest x; x_quote_proof_digest x; x_market_statement_digest x]
  | Reserve, TakerScope =>
      present [x_taker_reservation_id x; x_taker_mandate_digest x; x_rfq_nullifier x]
      /\ empty [x_maker_reservation_id x; x_maker_policy_digest x; x_maker_mandate_digest x; x_maker_reserve_receipt_digest x;
                x_taker_reserve_receipt_digest x; x_quote_proof_digest x; x_market_statement_digest x]
  | Release, MakerScope =>
      present [x_maker_reservation_id x; x_maker_reserve_receipt_digest x]
      /\ empty [x_taker_reservation_id x; x_taker_reserve_receipt_digest x]
  | Release, TakerScope =>
      present [x_taker_reservation_id x; x_taker_reserve_receipt_digest x]
      /\ empty [x_maker_reservation_id x; x_maker_reserve_receipt_digest x]
  | (Consume | Settle), JointScope =>
      present (settlement_values x).*1
      /\ (forall digest, i_quote_binding payment = ProofDigest digest -> digest = x_quote_proof_digest x)
  | _, _ => False
  end.

Definition context_ok (x : ExecutionContext) (payment : Instruction) : Prop :=
  context_parties x /\ context_data x payment
  /\ authorised_transfer x = Some (i_payer_handle payment, i_payee_handle payment).

(** Normal forms of the guards. *)
Ltac guards := rewrite ?if_err_ok, ?orb_false_iff, ?andb_false_iff, ?negb_false_iff, ?negb_true_iff, ?bool_decide_eq_true,
  ?bool_decide_eq_false, ?Forall_cons, ?Forall_nil in *.

Lemma some_pair {A C} (a c : A) (b d : C) : Some (a, b) = Some (c, d) <-> c = a /\ d = b.
Proof. naive_solver. Qed.

Lemma validate_reserve_ok x payment : x_operation x = Reserve ->
  validate_reserve x payment = Ok tt <->
  context_data x payment /\ authorised_transfer x = Some (i_payer_handle payment, i_payee_handle payment).
Proof.
  intros Eop. unfold validate_reserve, context_data, authorised_transfer. rewrite Eop.
  destruct (x_scope x) eqn:Esc; cbn [mbind result_bind]; [..|naive_solver].
  all: guards; rewrite some_pair; pose proof (eq_refl MakerScope); pose proof (eq_refl TakerScope);
    assert (MakerScope <> TakerScope) by done; assert (TakerScope <> MakerScope) by done; assert (@Ok string unit tt = Ok tt) by done; tauto.
Qed.

Lemma validate_release_ok x payment : x_operation x = Release ->
  validate_release x payment = Ok tt <->
  context_data x payment /\ authorised_transfer x = Some (i_payer_handle payment, i_payee_handle payment).
Proof.
  intros Eop. unfold validate_release, context_data, authorised_transfer. rewrite Eop.
  destruct (x_scope x) eqn:Esc; cbn [mbind result_bind]; [..|naive_solver]; guards; rewrite some_pair; assert (@Ok string unit tt = Ok tt) by done; tauto.
Qed.

Lemma settlement_values_ok x :
  for_each (fun '(value, message) => if negb (nonzero value) then Err message else Ok tt) (settlement_values x) = Ok tt
  <-> Forall (fun b => nonzero b = true) (settlement_values x).*1.
Proof.
  rewrite for_each_ok, Forall_fmap. apply Forall_iff. intros [value message]. unfold compose. cbn [fst]. by destruct (nonzero value).
Qed.

Lemma role_mapping_ok x payment : role_mapping x payment = true <->
  match x_direction x with
  | TakerBuys => (x_taker_handle x, x_maker_handle x)
  | TakerSells => (x_maker_handle x, x_taker_handle x)
  end = (i_payer_handle payment, i_payee_handle payment).
Proof. unfold role_mapping. destruct (x_direction x); rewrite andb_true_iff, !bool_decide_eq_true; (split; [by intros [-> ->] | by intros [= -> ->]]). Qed.

Lemma quote_ok x payment :
  match quote_proof_digest payment with
  | Some payment_quote => negb (bool_decide (payment_quote = x_quote_proof_digest x))
  | None => false
  end = false <-> forall digest, i_quote_binding payment = ProofDigest digest -> digest = x_quote_proof_digest x.
Proof.
  unfold quote_proof_digest. destruct (i_quote_binding payment) as [k|d]; [naive_solver|]. guards. naive_solver.
Qed.

Lemma validate_settlement_ok x payment : x_operation x = Consume \/ x_operation x = Settle ->
  validate_settlement x payment = Ok tt <->
  context_data x payment /\ authorised_transfer x = Some (i_payer_handle payment, i_payee_handle payment).
Proof.
  intros Eop. unfold validate_settlement. rewrite !if_err_ok, quote_ok, settlement_values_ok, !negb_false_iff, role_mapping_ok, bool_decide_eq_true.
  unfold context_data, authorised_transfer. destruct Eop as [-> | ->]; destruct (x_scope x), (x_direction x);
    (split; [intros (? & ? & ? & ?); split_and!; (done || congruence) | try (by intros []); intros ((? & ?) & ?); split_and!; (done || congruence)]).
Qed.

Lemma validate_against_ok x payment : validate_against x payment = Ok tt <-> context_ok x payment.
Proof.
  unfold validate_against, context_ok, context_parties. rewrite !if_err_ok. guards.
  destruct (x_operation x) eqn:Eop.
  - rewrite validate_reserve_ok by done. naive_solver.
  - rewrite validate_settlement_ok by auto. naive_solver.
  - rewrite validate_release_ok by done. naive_solver.
  - rewrite validate_settlement_ok by auto. naive_solver.
Qed.
(** ** Widths *)

(** The widths of the fields, which the Rust types give. *)
Definition binding_typed (b : QuoteBinding) : Prop :=
  match b with LegacyPackedKey k => (k <= U64_MAX)%N | ProofDigest d => length d = 32 end.
Definition instruction_typed (i : Instruction) : Prop :=
  (i_deadline i <= U64_MAX)%N /\ length (i_nonce i) = 32 /\ binding_typed (i_quote_binding i).
Definition domain_typed (domain : bytes) : Prop := (N.of_nat (length domain) <= U64_MAX)%N.
Definition context_typed (x : ExecutionContext) : Prop :=
  Forall (fun b => length b = 32) [x_venue_id x; x_defmi_id x; x_maker_reservation_id x; x_taker_reservation_id x;
    x_rfq_nullifier x; x_taker_mandate_digest x; x_maker_policy_digest x; x_maker_mandate_digest x;
    x_maker_reserve_receipt_digest x; x_taker_reserve_receipt_digest x; x_quote_proof_digest x;
    x_market_statement_digest x; x_before_state_root x]
  /\ (x_maker_reservation_sequence x <= U64_MAX)%N /\ (x_taker_reservation_sequence x <= U64_MAX)%N.
End Contexts.

Open Scope nat_scope.

(** Two different messages with one SHA-512. *)
Definition clash `{Sha512} (m m' : bytes) : Prop := m <> m' /\ sha512 m = sha512 m'.

Section Digests.
Context `{B : Bulletproofs} `{Q : QuorumOps} `{S5 : Sha512} `{S5L : !Sha512Laws} `{PC : !PointCodec} `{PL : !PointCodecLaws}.

(** The fields under the signature. *)
Definition signed_fields (i : Instruction) :=
  (i_amount_commitment i, i_price_commitment i, i_asset_commitment i, i_payer_handle i, i_payee_handle i,
   i_deadline i, i_nonce i, i_quote_binding i).

Lemma be8_inj x y : (x <= U64_MAX)%N -> (y <= U64_MAX)%N -> be_bytes 8 x = be_bytes 8 y -> x = y.
Proof. intros Hx Hy. apply be_bytes_inj; unfold U64_MAX in *; cbn; lia. Qed.

(** Peels one field off two equal messages. *)
Ltac peel E name := apply app_inj_1 in E as [name E]; [|by rewrite ?be_bytes_length, ?compress_length].

Lemma binding_bytes_inj b b' : binding_typed b -> binding_typed b' -> binding_bytes b = binding_bytes b' -> b = b'.
Proof.
  destruct b as [k|d], b' as [k'|d']; cbn [binding_typed binding_bytes]; intros Hb Hb' E.
  - f_equal. by apply be8_inj.
  - apply (f_equal length) in E. rewrite be_bytes_length, length_app in E. cbn in E. lia.
  - apply (f_equal length) in E. rewrite be_bytes_length, length_app in E. cbn in E. lia.
  - f_equal. by apply app_inj_1 in E as [_ E].
Qed.

(** A length-prefixed domain. *)
Lemma domain_inj (d d' rest rest' : bytes) : domain_typed d -> domain_typed d' ->
  be_bytes 8 (N.of_nat (length d)) ++ d ++ rest = be_bytes 8 (N.of_nat (length d')) ++ d' ++ rest' -> d = d' /\ rest = rest'.
Proof.
  intros Hd Hd' E. peel E El. apply be8_inj in El; [|done..]. apply Nat2N.inj in El. by apply app_inj_1 in E.
Qed.

(** The message under the digest. *)
Definition signed_message (d : bytes) (i : Instruction) : bytes :=
  public_fields d (i_amount_commitment i) (i_price_commitment i) (i_asset_commitment i) (i_payer_handle i) (i_payee_handle i)
    (i_deadline i) (i_nonce i) (i_quote_binding i).

Lemma signed_message_inj d d' i i' : domain_typed d -> domain_typed d' -> instruction_typed i -> instruction_typed i' ->
  signed_message d i = signed_message d' i' ->
  d = d' /\ signed_fields i = signed_fields i'.
Proof.
  intros Hd Hd' (Hdl & Hn & Hb) (Hdl' & Hn' & Hb') E. unfold signed_message, public_fields in E.
  peel E E0. apply domain_inj in E as [-> E]; [|done..].
  peel E E1. peel E E2. peel E E3. peel E E4. peel E E5. peel E E6.
  apply app_inj_1 in E as [E7 E]; [|by rewrite Hn, Hn'].
  apply compress_injective in E1, E2, E3, E4, E5. apply be8_inj in E6; [|done..]. apply binding_bytes_inj in E; [|done..].
  split; [done|]. unfold signed_fields. congruence.
Qed.

Lemma digest_binds d d' i i' : domain_typed d -> domain_typed d' -> instruction_typed i -> instruction_typed i' ->
  digest_for d i = digest_for d' i' ->
  (d = d' /\ signed_fields i = signed_fields i') \/ clash (signed_message d i) (signed_message d' i').
Proof.
  intros Hd Hd' Hi Hi' E. destruct (decide (signed_message d i = signed_message d' i')) as [Em|Em].
  - left. by apply signed_message_inj.
  - right. split; [exact Em | exact E].
Qed.

Lemma context_kinds_inj x x' : context_kinds x = context_kinds x' ->
  x_operation x = x_operation x' /\ x_scope x = x_scope x' /\ x_direction x = x_direction x'.
Proof.
  unfold context_kinds. destruct (x_operation x), (x_operation x'), (x_scope x), (x_scope x'), (x_direction x), (x_direction x');
    vm_compute; intros E; try discriminate E; done.
Qed.

Lemma id_inj (a b k l : bytes) : length a = 32 -> length b = 32 -> a ++ k = b ++ l -> a = b /\ k = l.
Proof. intros Ha Hb. apply app_inj_1. by rewrite Ha, Hb. Qed.

Lemma context_fields_inj x x' : context_typed x -> context_typed x' ->
  context_kinds x ++ context_fields x = context_kinds x' ++ context_fields x' -> x = x'.
Proof.
  intros (Hf & Hs1 & Hs2) (Hf' & Hs1' & Hs2') E. apply app_inj_1 in E as [Ek E]; [|done].
  apply context_kinds_inj in Ek as (Eo & Es & Ed). rewrite !Forall_cons in Hf, Hf'. destruct_and!.
  unfold context_fields in E.
  apply id_inj in E as [E1 E]; [|assumption..]. apply id_inj in E as [E2 E]; [|assumption..].
  peel E E3. peel E E4. peel E E5.
  apply id_inj in E as [E6 E]; [|assumption..]. peel E E7. apply id_inj in E as [E8 E]; [|assumption..]. peel E E9.
  apply id_inj in E as [E10 E]; [|assumption..]. apply id_inj in E as [E11 E]; [|assumption..].
  apply id_inj in E as [E12 E]; [|assumption..]. apply id_inj in E as [E13 E]; [|assumption..].
  apply id_inj in E as [E14 E]; [|assumption..]. apply id_inj in E as [E15 E]; [|assumption..].
  apply id_inj in E as [E16 E]; [|assumption..]. apply id_inj in E as [E17 E]; [|assumption..].
  apply be8_inj in E7; [|done..]. apply be8_inj in E9; [|done..].
  apply compress_injective in E3, E4, E5. destruct x, x'. cbn in *. by subst.
Qed.

(** C7: the digest the quorum signs binds the venue's domain and every signed
    field, and the typed digest also binds the whole execution context: equal
    digests of well-typed values come from equal values, or the very messages
    hashed for them are two messages with one SHA-512. *)
Theorem digests_bind d d' i i' x x' g :
  domain_typed d -> domain_typed d' -> instruction_typed i -> instruction_typed i' ->
  context_typed x -> context_typed x' ->
  (digest_for d i = digest_for d' i' -> (d = d' /\ signed_fields i = signed_fields i') \/ clash (signed_message d i) (signed_message d' i'))
  /\ (typed_digest_for i x d = Ok g -> typed_digest_for i' x' d' = Ok g ->
      (d = d' /\ signed_fields i = signed_fields i' /\ x = x')
      \/ clash (signed_message d i) (signed_message d' i') \/ clash (typed_message i x d) (typed_message i' x' d')).
Proof.
  intros Hd Hd' Hi Hi' Hx Hx'. split; [by apply digest_binds|]. unfold typed_digest_for.
  rewrite !bind_ok. intros (_ & _ & [= Hg]) (_ & _ & [= Hg']).
  destruct (decide (typed_message i x d = typed_message i' x' d')) as [E|E].
  - unfold typed_message in E. apply app_inv_head in E. apply domain_inj in E as [-> E]; [|done..].
    apply app_inj_1 in E as [Ed E]; [|unfold digest_for; by rewrite !sha512_length].
    apply context_fields_inj in E; [|done..]. destruct (digest_binds d' d' i i' Hd' Hd' Hi Hi' Ed) as [[_ Es]|]; [by left|by right; left].
  - right. right. split; [exact E | congruence].
Qed.
End Digests.

Section Settlement.
Context `{B : Bulletproofs} `{Q : QuorumOps} `{S5 : Sha512} `{S2 : Sha256}.

(** C5: a venue accepts an instruction exactly when its deadline lies between
    now and the (saturating) horizon, payer and payee differ, its nullifier is
    unspent, its range evidence covers its two commitments at the published
    widths, the quorum's signature verifies on its digest for the venue's
    domain, and the post-quantum approval verifies exactly if a committee is
    enrolled. *)
Theorem venue_accepts_iff v i now :
  verify v i now = Ok tt <->
  (now <= i_deadline i <= N.min (now + v_max_horizon v) U64_MAX)%N
  /\ compress (i_payer_handle i) <> compress (i_payee_handle i)
  /\ (nullifier i ∉ v_spent v) /\ ranges_ok v i
  /\ frost_verify (v_group_public v) (digest_for (v_domain v) i) (i_signature i) = true
  /\ approval_ok v (i_pq_approval i) (digest_for (v_domain v) i) (Some now).
Proof. apply verify_at_ok. Qed.

(** C4: over every sequence of settlements, typed settlements and policy
    changes, the settled nullifiers are pairwise distinct and were unspent, the
    spent set grows by exactly them, and the spent count by their number; a
    refused settlement leaves the venue as it was. *)
Theorem nullifier_settles_once v ops v' results :
  venue_run v ops = (v', results) ->
  NoDup (settled ops results) /\ (forall n, n ∈ settled ops results -> n ∉ v_spent v)
  /\ (forall n, n ∈ v_spent v' <-> n ∈ settled ops results \/ n ∈ v_spent v)
  /\ spent_count v' = spent_count v + length (settled ops results)
  /\ (forall op r w, op_nullifier op <> None -> venue_step v op = (w, r) -> is_ok r = false -> w = v).
Proof.
  intros Hr. destruct (run_settled ops v v' results Hr) as (Hnd & Hf & Hs). split_and!; try done.
  - unfold spent_count. assert (v_spent v' = v_spent v ∪ list_to_set (settled ops results)) as -> by set_solver.
    rewrite size_union by set_solver. by rewrite size_list_to_set.
  - intros op r w Hop Hstep Hno. apply step_spent in Hstep. destruct (op_nullifier op); [|done].
    destruct Hstep as [[-> _]|[_ ->]]; done.
Qed.

(** C6: a typed instruction is accepted exactly when its payment is, its
    context names three different parties and the identifiers every context has,
    carries what its operation requires and nothing that it forbids
    ([context_data]; for a release that is its own reservation and receipt
    without the other party's, all other fields being free), names as payer and
    payee the transfer it authorises (a reserve moves one party's funds into
    escrow, a release returns them, a settlement pays between taker and maker in
    the traded direction), and the quorum signed that context for the venue's
    domain. *)
Theorem typed_accepts_iff v t now :
  let message := sha512 (typed_message (t_payment t) (t_context t) (v_domain v)) in
  verify_typed v t now = Ok tt <->
  verify v (t_payment t) now = Ok tt
  /\ context_parties (t_context t) /\ context_data (t_context t) (t_payment t)
  /\ authorised_transfer (t_context t) = Some (i_payer_handle (t_payment t), i_payee_handle (t_payment t))
  /\ frost_verify (v_group_public v) message (t_authorization t) = true
  /\ approval_ok v (t_pq_authorization t) message (Some now).
Proof.
  intros message. unfold verify_typed, typed_digest_for. rewrite !bind_ok. setoid_rewrite bind_ok.
  setoid_rewrite bind_ok. split.
  - intros ([] & Hv & d & ([] & Hc & [= <-]) & Hr). apply validate_against_ok in Hc as (H1' & H2' & H3').
    destruct (frost_verify _ _ _) eqn:Hf; [|done]. apply verify_pq_ok in Hr. done.
  - intros (Hv & H1' & H2' & H3' & Hf & Hp). exists tt. split; [done|]. exists message. split.
    + exists tt. split; [by apply validate_against_ok | done].
    + rewrite Hf. by apply verify_pq_ok.
Qed.

(** [verify_archived] is said to verify a previously accepted record, but
    the venue that settled an instruction refuses it as already settled. *)
Theorem settled_record_refused v i now v' :
  settle v i now = (v', Ok tt) -> (i_deadline i <= U64_MAX)%N -> verify_archived v' i = Err "already settled".
Proof.
  unfold settle. destruct (verify v i now) as [[]|] eqn:E; [|done]. intros [= <-] Hd.
  apply verify_at_ok in E as (_ & Hh & _). unfold verify_archived, verify_at, same_point, saturating_add.
  rewrite (proj2 (N.ltb_ge _ _)), (proj2 (N.ltb_ge _ _)) by lia. rewrite bool_decide_eq_false_2 by done.
  rewrite bool_decide_eq_true_2; [done|]. cbn. set_solver.
Qed.

(** One value proved and verified in a fresh context. *)
Lemma ctx_prove_one `{!PedersenGens} `{!BulletproofLaws} bits ctx transcript value blinding :
  range_ctx_new bits 1 = Some ctx -> (value <= U64_MAX)%N ->
  rc_bits ctx = bits /\
  let commitment := compress (gens_B * scalar_of_N value + gens_B_blinding * blinding)%P in
  if bool_decide (value < 2 ^ N.of_nat bits)%N
  then exists proof, ctx_prove ctx transcript [value] [blinding] = Ok (proof, [commitment])
         /\ ctx_verify ctx transcript proof [commitment] = true
  else exists e, ctx_prove ctx transcript [value] [blinding] = Err e.
Proof.
  unfold range_ctx_new. case_bool_decide as Hb; [|done]. intros [= <-] Hv. split; [done|]. cbv zeta.
  unfold ctx_prove, ctx_verify. cbn [rc_bits rc_gens existsb length]. rewrite orb_false_r.
  change (next_power_of_two 1) with 1. cbn [Nat.sub replicate app]. case_bool_decide as Hf.
  - rewrite (proj2 (N.leb_gt _ _) Hf), andb_false_r.
    destruct (prove_multiple_ok bits 1 transcript [value] [blinding] bits) as (proof & Hp & Hok); try done.
    + by exists 0.
    + by constructor.
    + exists proof. rewrite Hp. done.
  - rewrite (proj2 (N.leb_le _ _)) by lia. destruct (Nat.ltb_spec bits 64); [by eexists|].
    rewrite !elem_of_cons in Hb. destruct Hb as [->|[->|[->|[->|Hb]]]]; [..|by apply not_elem_of_nil in Hb]; try lia.
    unfold U64_MAX in Hv. cbn in Hf. lia.
Qed.

(** Both contexts of an issuer or of a venue, at the published widths. *)
Lemma ctx_prove_both `{!PedersenGens} `{!BulletproofLaws} label bounds issuer amount price (openings : Openings) :
  issuer_new (pedersen_new label) bounds = Some issuer -> (amount <= U64_MAX)%N -> (price <= U64_MAX)%N ->
  let ca := compress (commit_u64 (pedersen_new label) amount (o_amount openings)) in
  let cp := compress (commit_u64 (pedersen_new label) price (o_price openings)) in
  is_key issuer = pedersen_new label /\ is_domain issuer = DEFAULT_DOMAIN
  /\ if bool_decide (amount < 2 ^ N.of_nat (b_amount_bits bounds) /\ price < 2 ^ N.of_nat (b_price_bits bounds))%N
  then exists pa pp,
    ctx_prove (is_amount_ranges issuer) (transcript_new AMOUNT_RANGE_CONTEXT) [amount] [o_amount openings] = Ok (pa, [ca])
    /\ ctx_prove (is_price_ranges issuer) (transcript_new PRICE_RANGE_CONTEXT) [price] [o_price openings] = Ok (pp, [cp])
    /\ ctx_verify (is_amount_ranges issuer) (transcript_new AMOUNT_RANGE_CONTEXT) pa [ca] = true
    /\ ctx_verify (is_price_ranges issuer) (transcript_new PRICE_RANGE_CONTEXT) pp [cp] = true
  else (exists e, ctx_prove (is_amount_ranges issuer) (transcript_new AMOUNT_RANGE_CONTEXT) [amount] [o_amount openings] = Err e)
    \/ (exists e, ctx_prove (is_price_ranges issuer) (transcript_new PRICE_RANGE_CONTEXT) [price] [o_price openings] = Err e).
Proof.
  unfold issuer_new. destruct (range_ctx_new (b_amount_bits bounds) 1) as [ra|] eqn:Ea; [|done].
  destruct (range_ctx_new (b_price_bits bounds) 1) as [rp|] eqn:Ep; [|done]. cbn [mbind option_bind]. intros [= <-] Ha Hp. cbn.
  split; [done|]. split; [done|].
  destruct (ctx_prove_one _ _ (transcript_new AMOUNT_RANGE_CONTEXT) _ (o_amount openings) Ea Ha) as [_ Hpa].
  destruct (ctx_prove_one _ _ (transcript_new PRICE_RANGE_CONTEXT) _ (o_price openings) Ep Hp) as [_ Hpp].
  cbv zeta in Hpa, Hpp. destruct (decide (amount < 2 ^ N.of_nat (b_amount_bits bounds))%N) as [La|La];
    [rewrite bool_decide_eq_true_2 in Hpa by done | rewrite bool_decide_eq_false_2 in Hpa by done].
  2:{ rewrite bool_decide_eq_false_2 by tauto. by left. }
  destruct (decide (price < 2 ^ N.of_nat (b_price_bits bounds))%N) as [Lp|Lp];
    [rewrite bool_decide_eq_true_2 in Hpp by done | rewrite bool_decide_eq_false_2 in Hpp by done].
  2:{ rewrite bool_decide_eq_false_2 by tauto. by right. }
  rewrite bool_decide_eq_true_2 by done. destruct Hpa as (pa & Hpa & Hva), Hpp as (pp & Hpp & Hvp).
  exists pa, pp. done.
Qed.

(** An instruction that verifies settles, and only once. *)
Lemma sealed_settles v i now : verify v i now = Ok tt ->
  exists v', settle v i now = (v', Ok tt) /\ settle v' i now = (v', Err "already settled").
Proof.
  intros E. unfold settle. rewrite E. eexists. split; [done|]. apply verify_at_ok in E as (Hd & Hh & _).
  unfold verify, verify_at, same_point. change (v_max_horizon (spend v (nullifier i))) with (v_max_horizon v).
  rewrite (proj2 (N.ltb_ge _ _)), (proj2 (N.ltb_ge _ _)) by lia. rewrite bool_decide_eq_false_2 by done.
  rewrite bool_decide_eq_true_2; [done|]. cbn. set_solver.
Qed.

(** An issuer and a venue published with one key and one set of bounds. *)
Lemma issuer_venue_new key bounds public issuer venue :
  issuer_new key bounds = Some issuer -> venue_new key bounds public = Some venue ->
  v_amount_ranges venue = is_amount_ranges issuer /\ v_price_ranges venue = is_price_ranges issuer
  /\ v_domain venue = DEFAULT_DOMAIN /\ v_max_horizon venue = b_max_horizon bounds /\ v_spent venue = ∅
  /\ v_group_public venue = public /\ v_require_threshold_ranges venue = false /\ v_pq_policy venue = None.
Proof.
  unfold issuer_new, venue_new. destruct (range_ctx_new (b_amount_bits bounds) 1); [|done].
  destruct (range_ctx_new (b_price_bits bounds) 1); [|done]. cbn. by intros [= <-] [= <-].
Qed.

(** C8: the issuer builds an instruction exactly for an amount and a price inside
    the published bounds; and what it builds between different handles, with a
    deadline not before now and not past the horizon of the venue, sealed with a
    quorum signature on the digest it returns, settles at a newly made venue with
    the same key and bounds, and there a second time is refused as already
    settled. *)
Theorem issued_instruction_settles `{!PedersenGens} `{!BulletproofLaws} label bounds public issuer venue now
    amount price asset_value payer payee deadline nonce quote_key openings :
  issuer_new (pedersen_new label) bounds = Some issuer -> venue_new (pedersen_new label) bounds public = Some venue ->
  (amount <= U64_MAX)%N -> (price <= U64_MAX)%N ->
  let built := build_with_asset_scalar_and_openings issuer amount price asset_value payer payee deadline nonce quote_key openings in
  (is_ok built = bool_decide (amount < 2 ^ N.of_nat (b_amount_bits bounds) /\ price < 2 ^ N.of_nat (b_price_bits bounds))%N)
  /\ forall digest os partial signature, built = Ok (digest, os, partial) ->
     (now <= deadline <= N.min (now + b_max_horizon bounds) U64_MAX)%N -> compress payer <> compress payee ->
     frost_verify public digest signature = true ->
     exists venue', settle venue (sealed partial signature) now = (venue', Ok tt)
       /\ settle venue' (sealed partial signature) now = (venue', Err "already settled").
Proof.
  intros Hi Hv Ha Hp. destruct (ctx_prove_both label bounds issuer amount price openings Hi Ha Hp) as (Hk & Hdom & Hc).
  unfold build_with_asset_scalar_and_openings. case_bool_decide.
  2:{ destruct Hc as [[e Hc]|[e Hc]]; rewrite Hc; [done|]. destruct (ctx_prove _ _ [amount] _) as [[]|]; done. }
  destruct Hc as (pa & pp & Hpa & Hpp & Hva & Hvp). rewrite Hpa. cbn [mbind result_bind]. rewrite Hpp. cbn [mbind result_bind].
  split; [done|]. intros digest os partial signature [= <- <- <-] Hd Hne Hsig. rewrite Hdom in Hsig. apply sealed_settles.
  destruct (issuer_venue_new _ _ _ _ _ Hi Hv) as (Ea & Ep & Ed & Eh & Es & Eg & Er & Eq).
  rewrite Hk in *. apply verify_at_ok. unfold ranges_ok, approval_ok, saturating_add. rewrite Ea, Ep, Ed, Eh, Es, Eg, Er, Eq.
  cbn [sealed i_deadline i_payer_handle i_payee_handle i_ranges i_pq_approval p_deadline p_payer_handle p_payee_handle p_ranges].
  split_and!; try done; [lia..|set_solver].
Qed.
End Settlement.
