(* ===== verification/InstructionWire.v ===== *)
(** * Instructions on the wire

    [zkpi/src/wire.rs]: the byte layouts of instructions and of threshold range
    proofs.  A panic of an encoder ([panic!], [expect]) is [None]. *)

From S2P Require Import Prelude.
From S2P Require Import Interfaces.
From S2P Require Import Curve.
From S2P Require Import Sigma.
From S2P Require Import BitrangeProofs.
From S2P Require Import Threshold.
From S2P Require Import ThresholdRange.
From S2P Require Import Instruction.
From S2P Require Import Venue.
From S2P Require Import Reader.

Open Scope nat_scope.

(** The codecs of the crates' values: a proof and an approval decode exactly
    from their encodings. *)
Class EvidenceCodecLaws `{B : Bulletproofs} `{Q : QuorumOps} : Prop := {
  bulletproof_from_to : forall p, bulletproof_from_bytes (bulletproof_to_bytes p) = Some p;
  bulletproof_to_from : forall b p, bulletproof_from_bytes b = Some p -> bulletproof_to_bytes p = b;
  approval_from_to : forall a b, approval_encode a = Some b -> approval_decode b = Some a;
  approval_to_from : forall b a, approval_decode b = Some a -> approval_encode a = Some b
}.

(** [as u32] and [as u16] of a length, big-endian: the low bytes. *)
Definition len_u32 (b : bytes) : bytes := be_bytes 4 (N.of_nat (length b)).
Definition prefixed (b : bytes) : bytes := len_u32 b ++ b.

Inductive WireError :=
  | NotAnInstruction
  | UnknownVersion (version : N)
  | Truncated (wanted had : nat) (at_field : string)
  | NotAPoint (what : string)
  | BadScalar (what : string)
  | BadSignature
  | Trailing (n : nat).

Definition MAGIC : bytes := bstr "QOMMZKPI".
Definition LEGACY_VERSION : N := 1.
Definition VERSION : N := 2.
Definition HYBRID_VERSION : N := 3.

Section Wire.
Context `{B : Bulletproofs} `{Q : QuorumOps} `{PC : !PointCodec} `{SC : !ScalarCodec} `{FC : !FrostCodec}.

(** ** The reader *)

Definition take_bytes (n : nat) (what : string) : bytes -> result WireError (bytes * bytes) :=
  read_take (fun had => Truncated n had what) n.
Definition read_point (what : string) : bytes -> result WireError (Point * bytes) :=
  read_with (fun had => Truncated 32 had what) 32 decompress (NotAPoint what).
Definition read_scalar (what : string) : bytes -> result WireError (Scalar * bytes) :=
  read_with (fun had => Truncated 32 had what) 32 scalar_from_canonical (BadScalar what).
Definition read_u64 (what : string) : bytes -> result WireError (N * bytes) := read_be (fun had => Truncated 8 had what) 8.
Definition read_u32 (what : string) : bytes -> result WireError (N * bytes) := read_be (fun had => Truncated 4 had what) 4.
Definition read_u16 (what : string) : bytes -> result WireError (N * bytes) := read_be (fun had => Truncated 2 had what) 2.

(** ** Threshold range proofs *)

Definition threshold_range_encoded_len (proof : ThresholdRangeProof) : nat :=
  2 + length (tp_bit_commitments proof) * (32 + 5 * 32) + 3 * 32.

Definition proof_bytes_len (r : RangeEvidence) : nat :=
  match r with
  | BulletproofEvidence amount price _ => length (bulletproof_to_bytes amount) + length (bulletproof_to_bytes price)
  | ThresholdEvidence amount price => threshold_range_encoded_len amount + threshold_range_encoded_len price
  end.

Definition range_proof_bytes_len (i : Instruction) : nat := proof_bytes_len (i_ranges i).

Definition encode_bit (bit : Point * ProductProof) : bytes :=
  let '(commitment, product) := bit in
  compress commitment ++ compress (pp_t_factor product) ++ compress (pp_t_product product)
  ++ scalar_to_bytes (pp_z_b product) ++ scalar_to_bytes (pp_z_rb product) ++ scalar_to_bytes (pp_z_s product).

Definition encode_linkage (linkage : OpeningProof) : bytes :=
  compress (op_t linkage) ++ scalar_to_bytes (op_z_value linkage) ++ scalar_to_bytes (op_z_blinding linkage).

Definition encode_threshold_range (proof : ThresholdRangeProof) : option bytes :=
  if (U16_MAX <? N.of_nat (tp_bits proof))%N then None
  else Some (be_bytes 2 (N.of_nat (tp_bits proof))
    ++ concat (encode_bit <$> zip (tp_bit_commitments proof) (tp_bit_proofs proof))
    ++ encode_linkage (tp_linkage proof)).

Definition read_bit (r : bytes) : result WireError ((Point * ProductProof) * bytes) :=
  '(commitment, r) ← read_point "threshold bit commitment" r;
  '(t_factor, r) ← read_point "threshold bit factor nonce" r;
  '(t_product, r) ← read_point "threshold bit product nonce" r;
  '(z_b, r) ← read_scalar "threshold bit value response" r;
  '(z_rb, r) ← read_scalar "threshold bit blinding response" r;
  '(z_s, r) ← read_scalar "threshold bit relation response" r;
  Ok ((commitment, mkProductProof t_factor t_product z_b z_rb z_s), r).

Definition read_linkage (r : bytes) : result WireError (OpeningProof * bytes) :=
  '(t, r) ← read_point "threshold range linkage nonce" r;
  '(z_value, r) ← read_scalar "threshold range linkage value response" r;
  '(z_blinding, r) ← read_scalar "threshold range linkage blinding response" r;
  Ok (mkOpeningProof t z_value z_blinding, r).

Definition read_threshold_range (r : bytes) : result WireError (ThresholdRangeProof * bytes) :=
  '(bits, r) ← read_u16 "threshold range width" r;
  '(pushed, r) ← read_times (N.to_nat bits) read_bit r;
  '(linkage, r) ← read_linkage r;
  Ok (mkThresholdRangeProof pushed.*1 pushed.*2 linkage (N.to_nat bits), r).

Definition decode_threshold_range (raw : bytes) : result WireError ThresholdRangeProof :=
  finish Trailing read_threshold_range raw.

(** ** Encoding *)

Definition wire_version (i : Instruction) : option N :=
  match i_ranges i, i_quote_binding i with
  | BulletproofEvidence _ _ _, LegacyPackedKey _ => Some LEGACY_VERSION
  | ThresholdEvidence _ _, ProofDigest _ => Some VERSION
  | _, _ => None
  end.

Definition encode_binding (b : QuoteBinding) : bytes :=
  match b with LegacyPackedKey value => be_bytes 8 value | ProofDigest value => value end.

Definition encode_ranges (ranges : RangeEvidence) : option bytes :=
  match ranges with
  | BulletproofEvidence amount price commitments =>
      Some (be_bytes 2 (N.of_nat (length commitments)) ++ concat commitments
        ++ prefixed (bulletproof_to_bytes amount) ++ prefixed (bulletproof_to_bytes price))
  | ThresholdEvidence amount price =>
      amount ← encode_threshold_range amount;
      price ← encode_threshold_range price;
      Some (prefixed amount ++ prefixed price)
  end.

Definition encode_classical (i : Instruction) : option bytes :=
  version ← wire_version i;
  signature ← signature_serialize (i_signature i);
  ranges ← encode_ranges (i_ranges i);
  Some (MAGIC ++ be_bytes 2 version
    ++ compress (i_amount_commitment i) ++ compress (i_price_commitment i) ++ compress (i_asset_commitment i)
    ++ compress (i_payer_handle i) ++ compress (i_payee_handle i)
    ++ be_bytes 8 (i_deadline i) ++ i_nonce i ++ encode_binding (i_quote_binding i) ++ signature ++ ranges).

Definition encode (i : Instruction) : option bytes :=
  classical ← encode_classical i;
  match i_pq_approval i with
  | None => Some classical
  | Some approval =>
      pq ← approval_encode approval;
      Some (MAGIC ++ be_bytes 2 HYBRID_VERSION ++ prefixed classical ++ prefixed pq)
  end.

(** ** Decoding *)

(** A length-prefixed value, [what] naming both the length and the bytes. *)
Definition read_prefixed (what : string) (r : bytes) : result WireError (bytes * bytes) :=
  '(len, r) ← read_u32 what r;
  take_bytes (N.to_nat len) what r.

Definition read_proof (what : string) (r : bytes) : result WireError (Bulletproof * bytes) :=
  '(raw, r) ← read_prefixed what r;
  proof ← ok_or (bulletproof_from_bytes raw) (NotAPoint what);
  Ok (proof, r).

Definition read_threshold (what : string) (r : bytes) : result WireError (ThresholdRangeProof * bytes) :=
  '(raw, r) ← read_prefixed what r;
  proof ← decode_threshold_range raw;
  Ok (proof, r).

Definition read_ranges (version : N) (r : bytes) : result WireError (RangeEvidence * bytes) :=
  if (version =? LEGACY_VERSION)%N then
    '(count, r) ← read_u16 "range commitment count" r;
    '(commitments, r) ← read_times (N.to_nat count) (take_bytes 32 "range commitment") r;
    '(amount, r) ← read_proof "amount range proof" r;
    '(price, r) ← read_proof "price range proof" r;
    Ok (BulletproofEvidence amount price commitments, r)
  else
    '(amount, r) ← read_threshold "threshold amount range proof" r;
    '(price, r) ← read_threshold "threshold price range proof" r;
    Ok (ThresholdEvidence amount price, r).

Definition read_binding (version : N) (r : bytes) : result WireError (QuoteBinding * bytes) :=
  if (version =? LEGACY_VERSION)%N
  then '(key, r) ← read_u64 "quote key" r; Ok (LegacyPackedKey key, r)
  else '(digest, r) ← take_bytes 32 "quote proof digest" r; Ok (ProofDigest digest, r).

(** The fields of versions one and two. *)
Definition read_classical (version : N) (r : bytes) : result WireError (Instruction * bytes) :=
  if negb (version =? LEGACY_VERSION)%N && negb (version =? VERSION)%N then Err (UnknownVersion version)
  else
    '(amount_commitment, r) ← read_point "amount commitment" r;
    '(price_commitment, r) ← read_point "price commitment" r;
    '(asset_commitment, r) ← read_point "asset commitment" r;
    '(payer_handle, r) ← read_point "payer handle" r;
    '(payee_handle, r) ← read_point "payee handle" r;
    '(deadline, r) ← read_u64 "deadline" r;
    '(nonce, r) ← take_bytes 32 "nonce" r;
    '(quote_binding, r) ← read_binding version r;
    '(signature, r) ← read_with (fun had => Truncated 64 had "signature") 64 signature_deserialize BadSignature r;
    '(ranges, r) ← read_ranges version r;
    Ok (mkInstruction amount_commitment price_commitment asset_commitment ranges payer_handle payee_handle
      deadline nonce quote_binding signature None, r).

Definition with_approval (i : Instruction) (approval : QuorumApproval) : Instruction :=
  mkInstruction (i_amount_commitment i) (i_price_commitment i) (i_asset_commitment i) (i_ranges i)
    (i_payer_handle i) (i_payee_handle i) (i_deadline i) (i_nonce i) (i_quote_binding i) (i_signature i) (Some approval).

(** [body.get(8..10)] *)
Definition inner_version (body : bytes) : option bytes :=
  if length body <? 10 then None else Some (slice 8 10 body).

(** The hybrid container; [decode_inner] is the recursive call. *)
Definition read_hybrid (decode_inner : bytes -> result WireError Instruction) (r : bytes) :
    result WireError (Instruction * bytes) :=
  '(len, r) ← read_u32 "classical instruction length" r;
  if (1048576 <? len)%N then Err BadSignature
  else
    '(body, r) ← take_bytes (N.to_nat len) "classical instruction" r;
    inner ← ok_or (inner_version body) BadSignature;
    if negb (bool_decide (inner = be_bytes 2 LEGACY_VERSION)) && negb (bool_decide (inner = be_bytes 2 VERSION))
    then Err BadSignature
    else
      instruction ← decode_inner body;
      '(pq_length, r) ← read_u32 "PQ approval length" r;
      '(raw, r) ← take_bytes (N.to_nat pq_length) "PQ approval" r;
      approval ← ok_or (approval_decode raw) BadSignature;
      Ok (with_approval instruction approval, r).

Definition read_instruction (decode_inner : bytes -> result WireError Instruction) (r : bytes) :
    result WireError (Instruction * bytes) :=
  '(magic, r) ← take_bytes 8 "magic" r;
  if negb (bool_decide (magic = MAGIC)) then Err NotAnInstruction
  else
    '(version, r) ← read_u16 "version" r;
    if (version =? HYBRID_VERSION)%N then read_hybrid decode_inner r else read_classical version r.

Definition decode_step (decode_inner : bytes -> result WireError Instruction) (raw : bytes) : result WireError Instruction :=
  finish Trailing (read_instruction decode_inner) raw.

(** The recursion: an inner body is shorter than its container. *)
Fixpoint decode_fuel (fuel : nat) (raw : bytes) : result WireError Instruction :=
  match fuel with
  | O => Err BadSignature
  | S fuel => decode_step (decode_fuel fuel) raw
  end.
Definition decode (raw : bytes) : result WireError Instruction := decode_fuel (S (length raw)) raw.

Definition fingerprint `{Sha256} (raw : bytes) : bytes := sha256 (bstr "QOMM:ZKPI:WIRE:v1" ++ raw).
End Wire.
