(* ===== verification/WireCodec.v ===== *)
(** * What the instruction decoders accept

    Each reader of [InstructionWire] and [TypedWire] reads exactly the encodings
    of well-formed values. *)

From S2P Require Import Prelude.
From S2P Require Import Interfaces.
From S2P Require Import Curve.
From S2P Require Import Sigma.
From S2P Require Import BitrangeProofs.
From S2P Require Import Threshold.
From S2P Require Import ThresholdRange.
From S2P Require Import Instruction.
From S2P Require Import Venue.
From S2P Require Import VenueClaims.
From S2P Require Import Reader.
From S2P Require Import InstructionWire.

Open Scope nat_scope.

Section Codec.
Context `{B : Bulletproofs} `{Q : QuorumOps} `{PC : !PointCodec} `{SC : !ScalarCodec} `{FC : !FrostCodec}.
Context `{PL : !PointCodecLaws} `{SL : !ScalarCodecLaws} `{FL : !FrostCodecLaws} `{EL : !EvidenceCodecLaws}.

Instance reads_take_bytes n what : reads (take_bytes n what) (fun b => length b = n) id := reads_take _ n.
Instance reads_read_point what : reads (read_point what) (fun _ => True) compress := reads_point _ _.
Instance reads_read_scalar what : reads (read_scalar what) (fun _ => True) scalar_to_bytes := reads_scalar _ _.
Instance reads_u64 what : reads (read_u64 what) (fun x => x < 256 ^ N.of_nat 8)%N (be_bytes 8) := reads_be _ 8.
Instance reads_u32 what : reads (read_u32 what) (fun x => x < 256 ^ N.of_nat 4)%N (be_bytes 4) := reads_be _ 4.
Instance reads_u16 what : reads (read_u16 what) (fun x => x < 256 ^ N.of_nat 2)%N (be_bytes 2) := reads_be _ 2.

(** ** Threshold range proofs *)

Instance reads_bit : reads read_bit (fun _ => True) encode_bit.
Proof.
  intros r [c p] rest. unfold read_bit, encode_bit. split.
  - intros Hm. read_inv Hm as a. read_inv Hm as b. read_inv Hm as d. read_inv Hm as x. read_inv Hm as y. read_inv Hm as z.
    injection Hm as <- <- <-. split; [done|]. cbn [pp_t_factor pp_t_product pp_z_b pp_z_rb pp_z_s]. by rewrite <- !app_assoc.
  - intros [_ ->]. rewrite <- !app_assoc. do 6 read_run. by destruct p.
Qed.

Instance reads_linkage : reads read_linkage (fun _ => True) encode_linkage.
Proof.
  intros r p rest. unfold read_linkage, encode_linkage. split.
  - intros Hm. read_inv Hm as a. read_inv Hm as x. read_inv Hm as y.
    injection Hm as <- <-. split; [done|]. cbn [op_t op_z_value op_z_blinding]. by rewrite <- !app_assoc.
  - intros [_ ->]. rewrite <- !app_assoc. do 3 read_run. by destruct p.
Qed.

(** One commitment and one proof per bit, and a width of two bytes. *)
Definition threshold_typed (p : ThresholdRangeProof) : Prop :=
  (N.of_nat (tp_bits p) <= U16_MAX)%N /\ length (tp_bit_commitments p) = tp_bits p /\ length (tp_bit_proofs p) = tp_bits p.

Definition threshold_bytes (p : ThresholdRangeProof) : bytes := default [] (encode_threshold_range p).

Lemma threshold_encodes p : threshold_typed p -> encode_threshold_range p = Some (threshold_bytes p).
Proof. intros [Hb _]. unfold threshold_bytes, encode_threshold_range. by rewrite (proj2 (N.ltb_ge _ _)). Qed.

Lemma threshold_bytes_eq p : threshold_typed p ->
  threshold_bytes p = be_bytes 2 (N.of_nat (tp_bits p))
    ++ concat (encode_bit <$> zip (tp_bit_commitments p) (tp_bit_proofs p)) ++ encode_linkage (tp_linkage p).
Proof. intros [Hb _]. unfold threshold_bytes, encode_threshold_range. by rewrite (proj2 (N.ltb_ge _ _)). Qed.

Instance reads_threshold_range : reads read_threshold_range threshold_typed threshold_bytes.
Proof.
  intros r p rest. unfold read_threshold_range. split.
  - intros Hm. read_inv Hm as bits. read_inv Hm as pushed. read_inv Hm as linkage. injection Hm as <- <-.
    change (256 ^ N.of_nat 2)%N with 65536%N in *. destruct_and!.
    assert (threshold_typed (mkThresholdRangeProof pushed.*1 pushed.*2 linkage (N.to_nat bits))) as Ht.
    { unfold threshold_typed, U16_MAX. cbn. rewrite N2Nat.id, !length_fmap. lia. }
    split; [done|]. rewrite threshold_bytes_eq by done. cbn [tp_bits tp_bit_commitments tp_bit_proofs tp_linkage]. by rewrite N2Nat.id, zip_fst_snd, <- !app_assoc.
  - intros [Ht ->]. rewrite threshold_bytes_eq by done. destruct Ht as (Hb & Hc & Hp). rewrite <- !app_assoc.
    read_run_with ltac:(unfold U16_MAX in Hb; change (256 ^ N.of_nat 2)%N with 65536%N; lia).
    rewrite Nat2N.id.
    read_run_with ltac:(split; [rewrite length_zip; lia | by apply Forall_true]).
    read_run. rewrite fst_zip, snd_zip by lia. by destruct p.
Qed.

(** The length the source computes. *)
Lemma threshold_bytes_length p : threshold_typed p -> length (threshold_bytes p) = threshold_range_encoded_len p.
Proof.
  intros Ht. rewrite threshold_bytes_eq by done. destruct Ht as (Hb & Hc & Hp). unfold threshold_range_encoded_len, encode_linkage.
  rewrite !length_app, be_bytes_length, compress_length, !scalar_to_bytes_length.
  assert (forall l, length (concat (encode_bit <$> l)) = length l * 192) as Hl.
  { induction l as [|[c q] l IH]; [done|]. cbn [fmap list_fmap concat length]. rewrite length_app, IH. unfold encode_bit.
    rewrite !length_app, !compress_length, !scalar_to_bytes_length. lia. }
  rewrite Hl, length_zip. lia.
Qed.

(** ** Range evidence *)

Instance reads_prefixed what : reads (read_prefixed what) (fun b => N.of_nat (length b) <= U32_MAX)%N prefixed.
Proof.
  intros r b rest. unfold read_prefixed, prefixed, len_u32, U32_MAX. split.
  - intros Hm. read_inv Hm as len. read_last Hm. change (256 ^ N.of_nat 4)%N with 4294967296%N in *.
    match goal with E : length b = _ |- _ => rewrite E end. rewrite N2Nat.id, <- app_assoc. split; [lia | done].
  - intros [Hl ->]. rewrite <- app_assoc. read_run_with ltac:(change (256 ^ N.of_nat 4)%N with 4294967296%N; lia).
    rewrite Nat2N.id. apply (read_go _ _ _); done.
Qed.

Instance reads_proof what : reads (read_proof what) (fun p => N.of_nat (length (bulletproof_to_bytes p)) <= U32_MAX)%N
  (fun p => prefixed (bulletproof_to_bytes p)).
Proof.
  intros r p rest. unfold read_proof. split.
  - intros Hm. read_inv Hm as raw. apply bind_ok in Hm as (p' & Hp & [= <- <-]). apply ok_or_ok, bulletproof_to_from in Hp. by subst raw.
  - intros [Hl ->]. read_run. by rewrite bulletproof_from_to.
Qed.

Lemma decode_threshold_range_ok raw p : decode_threshold_range raw = Ok p <-> threshold_typed p /\ raw = threshold_bytes p.
Proof. apply finish_ok, _. Qed.

Lemma threshold_bytes_short p : threshold_typed p -> (N.of_nat (length (threshold_bytes p)) <= U32_MAX)%N.
Proof.
  intros Ht. rewrite threshold_bytes_length by done. destruct Ht as (Hb & Hc & _).
  unfold threshold_range_encoded_len, U16_MAX, U32_MAX in *. lia.
Qed.

Instance reads_threshold what : reads (read_threshold what) threshold_typed (fun p => prefixed (threshold_bytes p)).
Proof.
  intros r p rest. unfold read_threshold. split.
  - intros Hm. read_inv Hm as raw. apply bind_ok in Hm as (p' & Hp & [= <- <-]). by apply decode_threshold_range_ok in Hp as [? ->].
  - intros [Ht ->]. read_run_with ltac:(by apply threshold_bytes_short). by rewrite (proj2 (decode_threshold_range_ok _ p)).
Qed.

Definition ranges_typed (e : RangeEvidence) : Prop :=
  match e with
  | BulletproofEvidence amount price commitments =>
      (N.of_nat (length commitments) <= U16_MAX)%N /\ Forall (fun c => length c = 32) commitments
      /\ (N.of_nat (length (bulletproof_to_bytes amount)) <= U32_MAX)%N
      /\ (N.of_nat (length (bulletproof_to_bytes price)) <= U32_MAX)%N
  | ThresholdEvidence amount price => threshold_typed amount /\ threshold_typed price
  end.

Definition evidence_version (e : RangeEvidence) : N := if is_threshold e then VERSION else LEGACY_VERSION.
Definition binding_version (b : QuoteBinding) : N := match b with ProofDigest _ => VERSION | LegacyPackedKey _ => LEGACY_VERSION end.
Definition ranges_bytes (e : RangeEvidence) : bytes := default [] (encode_ranges e).

Lemma threshold_ranges_encode amount price : threshold_typed amount -> threshold_typed price ->
  encode_ranges (ThresholdEvidence amount price) = Some (prefixed (threshold_bytes amount) ++ prefixed (threshold_bytes price)).
Proof. intros Ha Hp. cbn [encode_ranges]. by rewrite (threshold_encodes amount), (threshold_encodes price). Qed.

Lemma ranges_encode e : ranges_typed e -> encode_ranges e = Some (ranges_bytes e).
Proof.
  unfold ranges_bytes. destruct e as [a p c|a p]; [done|]. intros [Ha Hp]. by rewrite threshold_ranges_encode.
Qed.

Instance reads_ranges version : version = LEGACY_VERSION \/ version = VERSION ->
  reads (read_ranges version) (fun e => ranges_typed e /\ evidence_version e = version) ranges_bytes.
Proof.
  intros [-> | ->] r e rest; unfold read_ranges, ranges_bytes; cbn [N.eqb Pos.eqb LEGACY_VERSION VERSION]; split.
  - intros Hm. read_inv Hm as count. read_inv Hm as commitments. read_inv Hm as amount. read_inv Hm as price.
    injection Hm as <- <-. destruct_and!. change (256 ^ N.of_nat 2)%N with 65536%N in *. cbn [ranges_typed encode_ranges default].
    match goal with E : length commitments = _ |- _ => rewrite E end. rewrite N2Nat.id, list_fmap_id. unfold id. rewrite <- !app_assoc.
    unfold U16_MAX. split_and!; try done. lia.
  - intros [[Ht Hv] ->]. destruct e as [amount price commitments|]; [|done]. destruct Ht as (Hc & Hf & Ha & Hp).
    cbn [encode_ranges default]. unfold id. rewrite <- !app_assoc.
    read_run_with ltac:(unfold U16_MAX in Hc; change (256 ^ N.of_nat 2)%N with 65536%N; lia). rewrite Nat2N.id.
    rewrite <- (list_fmap_id commitments) at 2. do 3 read_run. done.
  - intros Hm. read_inv Hm as amount. read_inv Hm as price. injection Hm as <- <-.
    rewrite threshold_ranges_encode by done. cbn [default]. unfold id. by rewrite <- !app_assoc.
  - intros [[Ht Hv] ->]. destruct e as [|amount price]; [done|]. destruct Ht as [Ha Hp]. rewrite threshold_ranges_encode by done.
    cbn [default]. unfold id. rewrite <- !app_assoc. do 2 read_run. done.
Qed.

(** ** Classical bodies *)

Instance reads_binding version : version = LEGACY_VERSION \/ version = VERSION ->
  reads (read_binding version) (fun b => binding_typed b /\ binding_version b = version) encode_binding.
Proof.
  intros [-> | ->] r b rest; unfold read_binding; cbn [N.eqb Pos.eqb LEGACY_VERSION VERSION]; split.
  - intros Hm. read_inv Hm as key. injection Hm as <- <-. split_and!; try done. cbn. unfold U64_MAX.
    change (256 ^ N.of_nat 8)%N with 18446744073709551616%N in *. lia.
  - intros [[Ht Hv] ->]. destruct b as [key|]; [|done].
    cbn [encode_binding]. read_run_with ltac:(cbn in Ht; unfold U64_MAX in Ht; change (256 ^ N.of_nat 8)%N with 18446744073709551616%N; lia). done.
  - intros Hm. read_inv Hm as digest. by injection Hm as <- <-.
  - intros [[Ht Hv] ->]. destruct b as [|digest]; [done|]. cbn [encode_binding]. read_run. done.
Qed.

(** An instruction a classical body can carry. *)
Definition classical_typed (i : Instruction) : Prop :=
  instruction_typed i /\ ranges_typed (i_ranges i) /\ evidence_version (i_ranges i) = binding_version (i_quote_binding i)
  /\ is_Some (signature_serialize (i_signature i)).

Definition classical_fields (i : Instruction) : bytes :=
  compress (i_amount_commitment i) ++ compress (i_price_commitment i) ++ compress (i_asset_commitment i)
  ++ compress (i_payer_handle i) ++ compress (i_payee_handle i) ++ be_bytes 8 (i_deadline i) ++ i_nonce i
  ++ encode_binding (i_quote_binding i) ++ default [] (signature_serialize (i_signature i)) ++ ranges_bytes (i_ranges i).

Definition classical_bytes (i : Instruction) : bytes :=
  MAGIC ++ be_bytes 2 (binding_version (i_quote_binding i)) ++ classical_fields i.

Lemma classical_encodes i : classical_typed i -> encode_classical i = Some (classical_bytes i).
Proof.
  intros (_ & Hr & Hv & [sig Hs]). unfold encode_classical, classical_bytes, classical_fields.
  assert (wire_version i = Some (binding_version (i_quote_binding i))) as ->.
  { unfold wire_version. destruct (i_ranges i), (i_quote_binding i); done. }
  cbn [mbind option_bind]. rewrite Hs. cbn [mbind option_bind]. by rewrite ranges_encode.
Qed.

Instance reads_classical version :
  reads (read_classical version) (fun i => classical_typed i /\ i_pq_approval i = None /\ binding_version (i_quote_binding i) = version)
    classical_fields.
Proof.
  intros r i rest. unfold read_classical. rewrite if_err_ok, andb_false_iff, !negb_false_iff, !N.eqb_eq. split.
  - intros [Hv Hm]. pose proof (reads_ranges version Hv). pose proof (reads_binding version Hv).
    read_inv Hm as a. read_inv Hm as b. read_inv Hm as c. read_inv Hm as d. read_inv Hm as e. read_inv Hm as deadline.
    read_inv Hm as nonce. read_inv Hm as binding. read_inv Hm as sig. read_inv Hm as ranges. injection Hm as <- <-. destruct_and!.
    unfold classical_typed, instruction_typed, classical_fields. cbn [i_deadline i_nonce i_quote_binding i_ranges i_signature i_pq_approval
      i_amount_commitment i_price_commitment i_asset_commitment i_payer_handle i_payee_handle].
    change (256 ^ N.of_nat 8)%N with 18446744073709551616%N in *. unfold U64_MAX, id. rewrite <- !app_assoc.
    split_and!; try done; [lia|congruence].
  - intros [(((Hd & Hn & Hb) & Hr & He & Hs) & Hpq & Hv) ->].
    assert (version = LEGACY_VERSION \/ version = VERSION) as Hv'. { subst. destruct (i_quote_binding i); auto. }
    split; [done|]. pose proof (reads_ranges version Hv'). pose proof (reads_binding version Hv'). unfold classical_fields. rewrite <- !app_assoc.
    do 5 read_run. read_run_with ltac:(unfold U64_MAX in Hd; change (256 ^ N.of_nat 8)%N with 18446744073709551616%N; lia).
    read_run. read_run. read_run. read_run_with ltac:(split; [done|congruence]). destruct i. cbn in Hpq. by subst.
Qed.

(** ** The recursion *)

Lemma take_bytes_shorter n what r b rest : take_bytes n what r = Ok (b, rest) -> length b + length rest = length r.
Proof. intros Hm. read_last Hm. unfold id. by rewrite length_app. Qed.

Lemma read_u32_shorter what r x rest : read_u32 what r = Ok (x, rest) -> length rest < length r.
Proof. intros Hm. read_last Hm. rewrite length_app, be_bytes_length. lia. Qed.

(** The recursive call is on a shorter slice. *)
Lemma read_hybrid_ext f g r : (forall body, length body < length r -> f body = g body) -> read_hybrid f r = read_hybrid g r.
Proof.
  intros Hfg. unfold read_hybrid. destruct (read_u32 _ r) as [[len r1]|] eqn:E1; [|done]. cbn [mbind result_bind].
  apply read_u32_shorter in E1. destruct (1048576 <? len)%N; [done|].
  destruct (take_bytes _ _ r1) as [[body r2]|] eqn:E2; [|done]. cbn [mbind result_bind]. apply take_bytes_shorter in E2.
  destruct (inner_version body); [|done]. cbn [mbind result_bind ok_or]. destruct (_ && _); [done|]. by rewrite Hfg by lia.
Qed.

Lemma decode_step_ext f g raw : (forall body, length body < length raw -> f body = g body) -> decode_step f raw = decode_step g raw.
Proof.
  intros Hfg. unfold decode_step, finish. f_equal. unfold read_instruction.
  destruct (take_bytes 8 "magic" raw) as [[magic r]|] eqn:E; [|done]. cbn [mbind result_bind]. apply take_bytes_shorter in E.
  destruct (negb _); [done|]. destruct (read_u16 "version" r) as [[version r']|] eqn:E2; [|done]. cbn [mbind result_bind].
  destruct (version =? HYBRID_VERSION)%N; [|done]. apply read_hybrid_ext. intros body Hb. apply Hfg.
  read_last E2. rewrite length_app in E. lia.
Qed.

Lemma decode_fuel_enough fuel : forall raw fuel', length raw < fuel -> length raw < fuel' ->
  decode_fuel fuel raw = decode_fuel fuel' raw.
Proof.
  induction fuel as [|fuel IH]; intros raw [|fuel'] Hf Hf'; try lia. cbn [decode_fuel].
  apply decode_step_ext. intros body Hb. apply IH; lia.
Qed.

Lemma decode_unfold raw : decode raw = decode_step decode raw.
Proof.
  unfold decode at 1. cbn [decode_fuel]. apply decode_step_ext. intros body Hb. apply decode_fuel_enough; lia.
Qed.

(** ** Messages *)

Definition approval_bytes (a : QuorumApproval) : bytes := default [] (approval_encode a).

Definition message_typed (i : Instruction) : Prop :=
  classical_typed i /\
  match i_pq_approval i with
  | None => True
  | Some a => is_Some (approval_encode a) /\ (N.of_nat (length (classical_bytes i)) <= 1048576)%N
      /\ (N.of_nat (length (approval_bytes a)) <= U32_MAX)%N
  end.

Definition message_bytes (i : Instruction) : bytes :=
  match i_pq_approval i with
  | None => classical_bytes i
  | Some a => MAGIC ++ be_bytes 2 HYBRID_VERSION ++ prefixed (classical_bytes i) ++ prefixed (approval_bytes a)
  end.

Lemma message_encodes i : message_typed i -> encode i = Some (message_bytes i).
Proof.
  intros [Hc Hm]. unfold encode, message_bytes, approval_bytes. rewrite classical_encodes by done. cbn [mbind option_bind].
  destruct (i_pq_approval i) as [a|]; [|done]. destruct Hm as ([b Ha] & _). by rewrite Ha.
Qed.

(** What a body's version bytes are. *)
Lemma inner_version_header version r : inner_version (MAGIC ++ be_bytes 2 version ++ r) = Some (be_bytes 2 version).
Proof.
  unfold inner_version. rewrite !length_app, be_bytes_length.
  rewrite (proj2 (Nat.ltb_ge _ _)) by (change (length MAGIC) with 8; lia).
  rewrite slice_app_skip by done. change (8 - length MAGIC) with 0. change (10 - length MAGIC) with 2.
  by rewrite slice_app_exact by apply be_bytes_length.
Qed.

Lemma inner_version_classical i : inner_version (classical_bytes i) = Some (be_bytes 2 (binding_version (i_quote_binding i))).
Proof. apply inner_version_header. Qed.

Lemma binding_version_cases b : binding_version b = LEGACY_VERSION \/ binding_version b = VERSION.
Proof. destruct b; auto. Qed.

(** The header both containers share. *)
Lemma read_instruction_header f r i rest : read_instruction f r = Ok (i, rest) <->
  exists version r', r = MAGIC ++ be_bytes 2 version ++ r' /\ (version < 65536)%N
    /\ (if (version =? HYBRID_VERSION)%N then read_hybrid f r' else read_classical version r') = Ok (i, rest).
Proof.
  unfold read_instruction. split.
  - intros Hm. read_inv Hm as magic. apply if_err_ok in Hm as [Hmagic Hm]. bool_inv. subst magic. read_inv Hm as version.
    by exists version, l0.
  - intros (version & r' & -> & Hv & Hm). read_run. rewrite bool_decide_eq_true_2 by done. cbn [negb].
    read_run_with ltac:(exact Hv). exact Hm.
Qed.

Lemma read_instruction_classical f r i rest : i_pq_approval i = None ->
  read_instruction f r = Ok (i, rest) <-> classical_typed i /\ r = classical_bytes i ++ rest.
Proof.
  intros Hpq. rewrite read_instruction_header. unfold classical_bytes. split.
  - intros (version & r' & -> & Hv & Hm). destruct (N.eqb_spec version HYBRID_VERSION) as [->|Hne].
    + unfold read_hybrid in Hm. ok_inv. subst. repeat case_match; ok_inv; subst; ok_inv. all: simplify_eq; done.
    + read_last Hm. destruct_and!. subst version. split; [done|]. by rewrite <- !app_assoc.
  - intros [Hc ->]. exists (binding_version (i_quote_binding i)), (classical_fields i ++ rest). rewrite <- !app_assoc. split; [done|].
    destruct (binding_version_cases (i_quote_binding i)) as [E|E]; rewrite E; (split; [done|]); cbn [N.eqb Pos.eqb HYBRID_VERSION LEGACY_VERSION VERSION];
      apply (read_go _ _ _); done.
Qed.

(** The recursive call of a container: its body is classical. *)
Lemma decode_body body i :
  (decode body = Ok i /\ exists version, (version = LEGACY_VERSION \/ version = VERSION) /\ inner_version body = Some (be_bytes 2 version))
  <-> classical_typed i /\ i_pq_approval i = None /\ body = classical_bytes i.
Proof.
  rewrite decode_unfold. unfold decode_step, finish. rewrite bind_ok. split.
  - intros [([i' r] & Hm & Hr) (version & Hv & Hi)]. destruct r; [|done]. injection Hr as ->.
    assert (i_pq_approval i = None) as Hpq.
    { apply read_instruction_header in Hm as (version' & r' & -> & Hlt & Hm). rewrite inner_version_header in Hi. apply Some_inj in Hi.
      apply (be_bytes_inj 2) in Hi; [|done|by destruct Hv as [-> | ->]]. subst version'.
      assert ((version =? HYBRID_VERSION)%N = false) as Hne by (by destruct Hv as [-> | ->]). rewrite Hne in Hm. read_last Hm. tauto. }
    apply (read_instruction_classical _ _ _ _ Hpq) in Hm as [Hc ->]. by rewrite app_nil_r.
  - intros (Hc & Hpq & ->). split.
    + exists (i, []). split; [|done]. apply read_instruction_classical; [done|]. by rewrite app_nil_r.
    + exists (binding_version (i_quote_binding i)). split; [apply binding_version_cases | apply inner_version_header].
Qed.

(** An instruction without its approval. *)
Definition without_approval (i : Instruction) : Instruction :=
  mkInstruction (i_amount_commitment i) (i_price_commitment i) (i_asset_commitment i) (i_ranges i)
    (i_payer_handle i) (i_payee_handle i) (i_deadline i) (i_nonce i) (i_quote_binding i) (i_signature i) None.

Lemma inner_guard inner :
  negb (bool_decide (inner = be_bytes 2 LEGACY_VERSION)) && negb (bool_decide (inner = be_bytes 2 VERSION)) = false
  <-> exists version, (version = LEGACY_VERSION \/ version = VERSION) /\ inner = be_bytes 2 version.
Proof.
  rewrite andb_false_iff, !negb_false_iff, !bool_decide_eq_true. split.
  - intros [-> | ->]; eauto.
  - intros (v & [-> | ->] & ->); auto.
Qed.

Instance reads_hybrid : reads (read_hybrid decode)
  (fun i => message_typed i /\ is_Some (i_pq_approval i))
  (fun i => prefixed (classical_bytes i) ++ prefixed (default [] (approval_bytes <$> i_pq_approval i))).
Proof.
  intros r i rest. unfold read_hybrid, prefixed, len_u32. split.
  - intros Hm. read_inv Hm as len. apply if_err_ok in Hm as [Hlen Hm]. read_inv Hm as body.
    apply bind_ok in Hm as (inner & Hi & Hm). apply ok_or_ok in Hi. apply if_err_ok in Hm as [Hv Hm].
    apply inner_guard in Hv as (version & Hv & ->). apply bind_ok in Hm as (j & Hj & Hm).
    assert (classical_typed j /\ i_pq_approval j = None /\ body = classical_bytes j) as (Hc & Hpq & ->) by (apply decode_body; eauto).
    read_inv Hm as pq_len. read_inv Hm as raw. apply bind_ok in Hm as (a & Ha & [= <- <-]). apply ok_or_ok, approval_to_from in Ha.
    bool_inv. change (classical_bytes (with_approval j a)) with (classical_bytes j).
    unfold message_typed, approval_bytes, U32_MAX, id. cbn [with_approval i_pq_approval fmap option_fmap option_map default].
    change (classical_bytes (with_approval j a)) with (classical_bytes j). rewrite Ha. cbn [default]. unfold id.
    change (256 ^ N.of_nat 4)%N with 4294967296%N in *.
    repeat match goal with E : length _ = N.to_nat _ |- _ => rewrite E; clear E end. rewrite !N2Nat.id, <- !app_assoc.
    split_and!; try done; lia.
  - intros [[[Hc Hm] [a Ha]] ->]. rewrite Ha in *. destruct Hm as ([b Hb] & Hl & Hl'). cbn [fmap option_fmap option_map default]. unfold id.
    rewrite <- !app_assoc. unfold U32_MAX in *.
    read_run_with ltac:(change (256 ^ N.of_nat 4)%N with 4294967296%N; lia).
    rewrite (proj2 (N.ltb_ge _ _)) by done. rewrite Nat2N.id. read_run. rewrite inner_version_classical. cbn [ok_or mbind result_bind].
    rewrite (proj2 (inner_guard _)) by (eexists; split; [apply binding_version_cases | done]).
    destruct (proj2 (decode_body (classical_bytes i) (without_approval i))) as [Hd _]; [done|]. rewrite Hd. cbn [mbind result_bind].
    read_run_with ltac:(change (256 ^ N.of_nat 4)%N with 4294967296%N; lia). rewrite Nat2N.id. read_run.
    unfold approval_bytes. rewrite Hb. cbn [default]. unfold id. rewrite (approval_from_to a b Hb). cbn. destruct i. cbn in Ha. by subst.
Qed.

Instance reads_instruction : reads (read_instruction decode) message_typed message_bytes.
Proof.
  intros r i rest. destruct (i_pq_approval i) as [a|] eqn:Hpq.
  - rewrite read_instruction_header. unfold message_bytes. rewrite Hpq. split.
    + intros (version & r' & -> & Hv & Hm). destruct (N.eqb_spec version HYBRID_VERSION) as [->|Hne].
      * read_last Hm. rewrite Hpq. cbn [fmap option_fmap option_map default]. unfold id. rewrite <- !app_assoc. tauto.
      * read_last Hm. destruct_and!. congruence.
    + intros [Ht ->]. eexists HYBRID_VERSION, _. split; [by rewrite <- !app_assoc|]. split; [done|].
      cbn [N.eqb Pos.eqb HYBRID_VERSION]. apply (read_go _ _ _); [by rewrite Hpq|]. rewrite Hpq. cbn. unfold id. by rewrite <- !app_assoc.
  - rewrite (read_instruction_classical _ _ _ _ Hpq). unfold message_typed, message_bytes. rewrite Hpq. tauto.
Qed.

Lemma decode_ok raw i : decode raw = Ok i <-> message_typed i /\ raw = message_bytes i.
Proof. rewrite decode_unfold. apply finish_ok, _. Qed.
End Codec.
