(* ===== verification/TypedCodec.v ===== *)
(** * What the typed decoders accept

    The execution context and the typed instruction as exact encodings, and the
    theorems on both wires. *)

From S2P Require Import Prelude.
From S2P Require Import Interfaces.
From S2P Require Import Curve.
From S2P Require Import Sigma.
From S2P Require Import BitrangeProofs.
From S2P Require Import Threshold.
From S2P Require Import ThresholdRange.
From S2P Require Import Instruction.
From S2P Require Import Venue.
From S2P Require Import VenueClaims.
From S2P Require Import Reader.
From S2P Require Import InstructionWire.
From S2P Require Import WireCodec.

(** ** Typed instructions on the wire

    [zkpi/src/typed_wire.rs]: the byte layouts of execution contexts and of
    typed instructions. *)

Open Scope nat_scope.

Inductive Error :=
  | WrongMagic
  | UnknownVersion (version : N)
  | Truncated (name : string)
  | OversizedBase
  | InvalidBase
  | InvalidPoint (name : string)
  | InvalidOperation
  | InvalidScope
  | InvalidDirection
  | InvalidSignature
  | InvalidContext
  | Trailing (n : nat).

Definition MAGIC : bytes := bstr "QOMMTZPI".
Definition VERSION : N := 1.
Definition HYBRID_VERSION : N := 2.
Definition CONTEXT_MAGIC : bytes := bstr "QOMMCTX1".
Definition CONTEXT_VERSION : N := 1.
Definition MAX_BASE_BYTES : N := 1048576.

Section Typed.
Context `{B : Bulletproofs} `{Q : QuorumOps} `{PC : !PointCodec} `{SC : !ScalarCodec} `{FC : !FrostCodec}.

Definition take_bytes (length : nat) (name : string) : bytes -> result Error (bytes * bytes) :=
  read_take (fun _ => Truncated name) length.
Definition read_id (name : string) : bytes -> result Error (bytes * bytes) := take_bytes 32 name.
Definition read_point (name : string) : bytes -> result Error (Point * bytes) :=
  read_with (fun _ => Truncated name) 32 decompress (InvalidPoint name).
Definition read_int (width : nat) (name : string) : bytes -> result Error (N * bytes) :=
  read_be (fun _ => Truncated name) width.

(** One byte through [TryFrom<u8>]. *)
Definition read_kind {A} (name : string) (try_from : N -> result string A) (bad : Error) (r : bytes) : result Error (A * bytes) :=
  '(b, r) ← take_bytes 1 name r;
  a ← map_err (fun _ => bad) (try_from (of_be_bytes b));
  Ok (a, r).

Definition append_context (x : ExecutionContext) : bytes := context_kinds x ++ context_fields x.

Definition read_context (r : bytes) : result Error (ExecutionContext * bytes) :=
  '(operation, r) ← read_kind "operation" operation_try_from InvalidOperation r;
  '(scope, r) ← read_kind "scope" scope_try_from InvalidScope r;
  '(direction, r) ← read_kind "direction" direction_try_from InvalidDirection r;
  '(venue_id, r) ← read_id "venue id" r;
  '(defmi_id, r) ← read_id "DeFMI id" r;
  '(maker_handle, r) ← read_point "maker handle" r;
  '(taker_handle, r) ← read_point "taker handle" r;
  '(reserve_handle, r) ← read_point "reserve handle" r;
  '(maker_reservation_id, r) ← read_id "Maker reservation id" r;
  '(maker_reservation_sequence, r) ← read_int 8 "Maker reservation sequence" r;
  '(taker_reservation_id, r) ← read_id "Taker reservation id" r;
  '(taker_reservation_sequence, r) ← read_int 8 "Taker reservation sequence" r;
  '(rfq_nullifier, r) ← read_id "RFQ nullifier" r;
  '(taker_mandate_digest, r) ← read_id "Taker mandate digest" r;
  '(maker_policy_digest, r) ← read_id "Maker policy digest" r;
  '(maker_mandate_digest, r) ← read_id "Maker mandate digest" r;
  '(maker_reserve_receipt_digest, r) ← read_id "Maker reserve receipt digest" r;
  '(taker_reserve_receipt_digest, r) ← read_id "Taker reserve receipt digest" r;
  '(quote_proof_digest, r) ← read_id "quote proof digest" r;
  '(market_statement_digest, r) ← read_id "market statement digest" r;
  '(before_state_root, r) ← read_id "before state root" r;
  Ok (mkExecutionContext operation scope direction venue_id defmi_id maker_handle taker_handle reserve_handle
    maker_reservation_id maker_reservation_sequence taker_reservation_id taker_reservation_sequence rfq_nullifier
    taker_mandate_digest maker_policy_digest maker_mandate_digest maker_reserve_receipt_digest
    taker_reserve_receipt_digest quote_proof_digest market_statement_digest before_state_root, r).

Definition encode_context (x : ExecutionContext) : bytes :=
  CONTEXT_MAGIC ++ be_bytes 2 CONTEXT_VERSION ++ append_context x.

Definition read_context_message (r : bytes) : result Error (ExecutionContext * bytes) :=
  '(magic, r) ← take_bytes 8 "context magic" r;
  if negb (bool_decide (magic = CONTEXT_MAGIC)) then Err WrongMagic
  else
    '(version, r) ← read_int 2 "context version" r;
    if negb (version =? CONTEXT_VERSION)%N then Err (UnknownVersion version) else read_context r.

Definition decode_context (raw : bytes) (payment : Instruction) : result Error ExecutionContext :=
  context ← finish Trailing read_context_message raw;
  _ ← map_err (fun _ => InvalidContext) (validate_against context payment);
  Ok context.

Definition encode (t : TypedInstruction) : option bytes :=
  base ← InstructionWire.encode (t_payment t);
  authorization ← signature_serialize (t_authorization t);
  pq ← match t_pq_authorization t with
       | Some approval => raw ← approval_encode approval; Some (prefixed raw)
       | None => Some []
       end;
  Some (MAGIC ++ be_bytes 2 (if bool_decide (is_Some (t_pq_authorization t)) then HYBRID_VERSION else VERSION) ++ prefixed base
    ++ append_context (t_context t) ++ authorization ++ pq).

(** The post-quantum authorization, present exactly in a hybrid message. *)
Definition read_pq (version : N) (payment : Instruction) (r : bytes) : result Error (option QuorumApproval * bytes) :=
  if (version =? HYBRID_VERSION)%N then
    if negb (bool_decide (is_Some (i_pq_approval payment))) then Err InvalidBase
    else
      '(len, r) ← read_int 4 "PQ authorization length" r;
      '(raw, r) ← take_bytes (N.to_nat len) "PQ authorization" r;
      approval ← ok_or (approval_decode raw) InvalidSignature;
      Ok (Some approval, r)
  else if bool_decide (is_Some (i_pq_approval payment)) then Err InvalidBase
  else Ok (None, r).

Definition read_typed (r : bytes) : result Error (TypedInstruction * bytes) :=
  '(magic, r) ← take_bytes 8 "magic" r;
  if negb (bool_decide (magic = MAGIC)) then Err WrongMagic
  else
    '(version, r) ← read_int 2 "version" r;
    if negb (version =? VERSION)%N && negb (version =? HYBRID_VERSION)%N then Err (UnknownVersion version)
    else
      '(base_length, r) ← read_int 4 "base length" r;
      if (MAX_BASE_BYTES <? base_length)%N then Err OversizedBase
      else
        '(base, r) ← take_bytes (N.to_nat base_length) "base instruction" r;
        payment ← map_err (fun _ => InvalidBase) (InstructionWire.decode base);
        '(context, r) ← read_context r;
        '(authorization, r) ← read_with (fun _ => Truncated "authorization") 64 signature_deserialize InvalidSignature r;
        '(pq_authorization, r) ← read_pq version payment r;
        Ok (mkTypedInstruction payment context authorization pq_authorization, r).

Definition decode (raw : bytes) : result Error TypedInstruction :=
  t ← finish Trailing read_typed raw;
  _ ← map_err (fun _ => InvalidContext) (validate_against (t_context t) (t_payment t));
  Ok t.
End Typed.

Open Scope nat_scope.

Section TypedCodec.
Context `{B : Bulletproofs} `{Q : QuorumOps} `{PC : !PointCodec} `{SC : !ScalarCodec} `{FC : !FrostCodec}.
Context `{PL : !PointCodecLaws} `{SL : !ScalarCodecLaws} `{FL : !FrostCodecLaws} `{EL : !EvidenceCodecLaws}.

Instance reads_typed_bytes n name : reads (take_bytes n name) (fun b => length b = n) id := reads_take _ n.
Instance reads_id name : reads (read_id name) (fun b => length b = 32) id := reads_take _ 32.
Instance reads_typed_point name : reads (read_point name) (fun _ => True) compress := reads_point _ _.
Instance reads_int n name : reads (read_int n name) (fun x => x < 256 ^ N.of_nat n)%N (be_bytes n) := reads_be _ n.

Lemma reads_kind {A} name (try_from : N -> result string A) bad (code : A -> N) :
  (forall x a, (x < 256)%N -> try_from x = Ok a <-> x = code a) -> (forall a, (code a < 256)%N) ->
  reads (read_kind name try_from bad) (fun _ => True) (fun a => [byte_of_N (code a)]).
Proof.
  intros Hf Hc r a rest. unfold read_kind. split.
  - intros Hm. read_inv Hm as b. apply bind_ok in Hm as (a' & Ha & [= <- <-]). destruct b as [|b [|? ?]]; try done.
    destruct (try_from (of_be_bytes [b])) as [x|] eqn:E; [|done]. injection Ha as ->.
    apply Hf in E; [|apply (of_be_bytes_bound [b])]. rewrite <- E. split; [done|]. change (of_be_bytes [b]) with (Byte.to_N b). by rewrite byte_of_N_to_N.
  - intros [_ ->]. erewrite (read_go (take_bytes 1 name) _ _ _ [byte_of_N (code a)]); [|done|done]. cbn [mbind result_bind].
    rewrite (proj2 (Hf _ a ltac:(apply (of_be_bytes_bound [byte_of_N (code a)])))); [done|].
    change (of_be_bytes [byte_of_N (code a)]) with (Byte.to_N (byte_of_N (code a))). rewrite to_N_byte_of_N. by apply N.mod_small.
Qed.

Instance reads_operation name : reads (read_kind name operation_try_from InvalidOperation) (fun _ => True) (fun o => [byte_of_N (operation_byte o)]).
Proof.
  apply reads_kind; [|by intros []]. intros x [] Hx; cbn; (split; [|by intros ->]); unfold operation_try_from; repeat case_match; done.
Qed.
Instance reads_scope name : reads (read_kind name scope_try_from InvalidScope) (fun _ => True) (fun o => [byte_of_N (scope_byte o)]).
Proof.
  apply reads_kind; [|by intros []]. intros x [] Hx; cbn; (split; [|by intros ->]); unfold scope_try_from; repeat case_match; done.
Qed.
Instance reads_direction name : reads (read_kind name direction_try_from InvalidDirection) (fun _ => True) (fun o => [byte_of_N (direction_byte o)]).
Proof.
  apply reads_kind; [|by intros []]. intros x [] Hx; cbn; (split; [|by intros ->]); unfold direction_try_from; repeat case_match; done.
Qed.

Lemma context_kinds_app x : context_kinds x = [byte_of_N (operation_byte (x_operation x))] ++ [byte_of_N (scope_byte (x_scope x))]
  ++ [byte_of_N (direction_byte (x_direction x))].
Proof. done. Qed.

Lemma sequence_bound x : (x < 256 ^ N.of_nat 8)%N <-> (x <= U64_MAX)%N.
Proof. unfold U64_MAX. change (256 ^ N.of_nat 8)%N with 18446744073709551616%N. lia. Qed.

Instance reads_context : reads read_context context_typed append_context.
Proof.
  intros r x rest. unfold read_context, append_context, context_typed, context_fields. rewrite context_kinds_app. split.
  - intros Hm. do 21 (let n := fresh "f" in read_inv Hm as n). injection Hm as <- <-. rewrite <- !app_assoc.
    rewrite !sequence_bound in *. cbn. rewrite !Forall_cons, Forall_nil. split_and!; try done.
  - intros [(Hf & Hs & Hs') ->]. rewrite !Forall_cons in Hf. destruct_and!. rewrite <- !app_assoc. rewrite <- sequence_bound in Hs, Hs'.
    do 21 (read_run_with ltac:(done || assumption)). by destruct x.
Qed.

Instance reads_context_message : reads read_context_message context_typed encode_context.
Proof.
  intros r x rest. unfold read_context_message, encode_context. split.
  - intros Hm. read_inv Hm as magic. apply if_err_ok in Hm as [Hmagic Hm]. bool_inv. subst magic. read_inv Hm as version.
    apply if_err_ok in Hm as [Hv Hm]. bool_inv. subst version. read_last Hm. by rewrite <- !app_assoc.
  - intros [Ht ->]. rewrite <- !app_assoc. read_run. rewrite bool_decide_eq_true_2 by done. cbn [negb]. read_run. cbn [N.eqb Pos.eqb CONTEXT_VERSION negb].
    apply (read_go _ _ _); done.
Qed.

(** ** Typed instructions *)

Definition pq_typed (payment : Instruction) (pq : option QuorumApproval) : Prop :=
  match pq with
  | Some a => is_Some (i_pq_approval payment) /\ is_Some (approval_encode a) /\ (N.of_nat (length (approval_bytes a)) <= U32_MAX)%N
  | None => i_pq_approval payment = None
  end.

(** A typed instruction the wire can carry. *)
Definition typed_typed (t : TypedInstruction) : Prop :=
  message_typed (t_payment t) /\ (N.of_nat (length (message_bytes (t_payment t))) <= MAX_BASE_BYTES)%N
  /\ context_typed (t_context t) /\ is_Some (signature_serialize (t_authorization t)) /\ pq_typed (t_payment t) (t_pq_authorization t).

Definition pq_bytes (pq : option QuorumApproval) : bytes :=
  match pq with Some a => prefixed (approval_bytes a) | None => [] end.

Definition typed_version (pq : option QuorumApproval) : N := if bool_decide (is_Some pq) then HYBRID_VERSION else VERSION.

Definition typed_bytes (t : TypedInstruction) : bytes :=
  MAGIC ++ be_bytes 2 (typed_version (t_pq_authorization t)) ++ prefixed (message_bytes (t_payment t))
  ++ append_context (t_context t) ++ default [] (signature_serialize (t_authorization t)) ++ pq_bytes (t_pq_authorization t).

Lemma typed_encodes t : typed_typed t -> encode t = Some (typed_bytes t).
Proof.
  intros (Hm & _ & _ & [sig Hs] & Hp). unfold encode, typed_bytes, typed_version. rewrite message_encodes by done. cbn [mbind option_bind].
  rewrite Hs. cbn [mbind option_bind default]. destruct (t_pq_authorization t) as [a|]; [|done]. destruct Hp as (_ & [b Hb] & _).
  unfold pq_bytes, approval_bytes. by rewrite Hb.
Qed.

Lemma u32_bound x : (x < 256 ^ N.of_nat 4)%N <-> (x <= U32_MAX)%N.
Proof. unfold U32_MAX. change (256 ^ N.of_nat 4)%N with 4294967296%N. lia. Qed.

Lemma reads_pq version payment : version = VERSION \/ version = HYBRID_VERSION ->
  reads (read_pq version payment) (fun pq => pq_typed payment pq /\ typed_version pq = version) pq_bytes.
Proof.
  intros Hv r pq rest. unfold read_pq, typed_version, pq_typed, pq_bytes. destruct Hv as [-> | ->]; cbn [N.eqb Pos.eqb VERSION HYBRID_VERSION].
  - rewrite if_err_ok, bool_decide_eq_false, <- eq_None_not_Some. split; [by intros [? [= <- <-]]|].
    intros [[Hp Hv] ->]. destruct pq; [done|]. done.
  - rewrite if_err_ok, negb_false_iff, bool_decide_eq_true. split.
    + intros [Hs Hm]. read_inv Hm as len. read_inv Hm as raw. apply bind_ok in Hm as (a & Ha & [= <- <-]). apply ok_or_ok, approval_to_from in Ha.
      unfold prefixed, len_u32, approval_bytes. rewrite Ha, <- app_assoc. cbn [default]. unfold id. rewrite u32_bound in *.
      match goal with E : length raw = _ |- _ => rewrite E end. rewrite N2Nat.id. eauto 10.
    + intros [[Hp Hv] ->]. destruct pq as [a|]; [|done]. destruct Hp as (Hs & [b Hb] & Hl). split; [done|].
      unfold prefixed, len_u32. rewrite <- app_assoc. read_run_with ltac:(by apply u32_bound). rewrite Nat2N.id. read_run.
      unfold approval_bytes. rewrite Hb. cbn [default]. unfold id. by rewrite (approval_from_to a b Hb).
Qed.

Instance reads_typed : reads read_typed typed_typed typed_bytes.
Proof.
  intros r t rest. unfold read_typed, typed_bytes, prefixed, len_u32, MAX_BASE_BYTES. split.
  - intros Hm. read_inv Hm as magic. apply if_err_ok in Hm as [Hmagic Hm]. bool_inv. subst magic. read_inv Hm as version.
    apply if_err_ok in Hm as [Hv Hm]. rewrite andb_false_iff, !negb_false_iff, !N.eqb_eq in Hv.
    read_inv Hm as len. apply if_err_ok in Hm as [Hlen Hm]. read_inv Hm as base. apply bind_ok in Hm as (payment & Hp & Hm).
    destruct (InstructionWire.decode base) as [payment'|] eqn:Hd; [|done]. injection Hp as ->.
    apply decode_ok in Hd as [Ht ->]. read_inv Hm as context. read_inv Hm as auth. pose proof (reads_pq version payment Hv).
    read_inv Hm as pq. injection Hm as <- <-. destruct_and!. subst version. bool_inv. unfold typed_typed, MAX_BASE_BYTES.
    cbn [t_payment t_context t_authorization t_pq_authorization]. rewrite <- !app_assoc. unfold id.
    repeat match goal with E : length _ = N.to_nat _ |- _ => rewrite E; clear E end. rewrite !N2Nat.id. done.
  - intros [(Hm & Hl & Hc & Hs & Hp) ->]. rewrite <- !app_assoc. read_run. rewrite bool_decide_eq_true_2 by done. cbn [negb].
    assert (typed_version (t_pq_authorization t) = VERSION \/ typed_version (t_pq_authorization t) = HYBRID_VERSION) as Hv.
    { unfold typed_version. case_bool_decide; auto. }
    pose proof (reads_pq _ (t_payment t) Hv).
    read_run_with ltac:(by destruct Hv as [-> | ->]).
    assert (negb (typed_version (t_pq_authorization t) =? VERSION)%N && negb (typed_version (t_pq_authorization t) =? HYBRID_VERSION)%N = false) as ->
      by (by destruct Hv as [-> | ->]).
    unfold MAX_BASE_BYTES in Hl. read_run_with ltac:(apply u32_bound; unfold U32_MAX; lia). rewrite (proj2 (N.ltb_ge _ _)) by done. rewrite Nat2N.id.
    read_run. rewrite (proj2 (decode_ok _ (t_payment t))) by done. cbn [map_err mbind result_bind]. do 3 read_run. by destruct t.
Qed.

Lemma decode_context_ok raw payment x : decode_context raw payment = Ok x <->
  context_typed x /\ raw = encode_context x /\ validate_against x payment = Ok tt.
Proof.
  unfold decode_context. rewrite bind_ok. setoid_rewrite (finish_ok _ _ _ _ _ _ reads_context_message). split.
  - intros (x' & [Ht ->] & Hm). destruct (validate_against x' payment) as [[]|] eqn:E; [|done]. by injection Hm as ->.
  - intros (Ht & -> & Hv). exists x. by rewrite Hv.
Qed.

Lemma typed_decode_ok raw t : decode raw = Ok t <->
  typed_typed t /\ raw = typed_bytes t /\ validate_against (t_context t) (t_payment t) = Ok tt.
Proof.
  unfold decode. rewrite bind_ok. setoid_rewrite (finish_ok _ _ _ _ _ _ reads_typed). split.
  - intros (t' & [Ht ->] & Hm). destruct (validate_against (t_context t') (t_payment t')) as [[]|] eqn:E; [|done]. by injection Hm as ->.
  - intros (Ht & -> & Hv). exists t. by rewrite Hv.
Qed.

Lemma encoded_eq {A} (f : A -> option bytes) (ok : A -> Prop) (enc : A -> bytes) a raw :
  (ok a -> f a = Some (enc a)) -> ok a /\ raw = enc a <-> ok a /\ f a = Some raw.
Proof. intros Hf. split; intros [Ha E]; (split; [done|]); rewrite (Hf Ha) in *; congruence. Qed.

Lemma instruction_trailing raw extra i : InstructionWire.decode raw = Ok i -> extra <> [] ->
  InstructionWire.decode (raw ++ extra) = Err (InstructionWire.Trailing (length extra)).
Proof. rewrite !decode_unfold. apply (finish_exact _ _ _ _ _ _ _ reads_instruction). Qed.

Lemma context_trailing raw extra payment x : decode_context raw payment = Ok x -> extra <> [] ->
  decode_context (raw ++ extra) payment = Err (Trailing (length extra)).
Proof.
  intros Hm Hx. unfold decode_context in *. apply bind_ok in Hm as (x' & Hm & _).
  by rewrite (finish_exact _ _ _ _ _ _ _ reads_context_message Hm Hx).
Qed.

Lemma typed_trailing raw extra t : decode raw = Ok t -> extra <> [] -> decode (raw ++ extra) = Err (Trailing (length extra)).
Proof.
  intros Hm Hx. unfold decode in *. apply bind_ok in Hm as (t' & Hm & _).
  by rewrite (finish_exact _ _ _ _ _ _ _ reads_typed Hm Hx).
Qed.

(** C28: the instruction wire is exact: bytes decode to an instruction exactly
    when the instruction is well formed and encodes to those bytes, so decoding
    inverts encoding and no instruction has a second encoding.  The hybrid
    container's recursive call is covered. *)
Theorem instruction_wire_exact raw i : InstructionWire.decode raw = Ok i <-> message_typed i /\ InstructionWire.encode i = Some raw.
Proof. rewrite decode_ok. apply encoded_eq, message_encodes. Qed.

(** The typed wires are exact, and they decode only contexts that are valid
    for their payment: a context message, and a typed instruction. *)
Theorem typed_wire_exact :
  (forall raw payment x, decode_context raw payment = Ok x <->
     context_typed x /\ encode_context x = raw /\ validate_against x payment = Ok tt)
  /\ (forall raw t, decode raw = Ok t <->
     typed_typed t /\ encode t = Some raw /\ validate_against (t_context t) (t_payment t) = Ok tt).
Proof.
  split.
  - intros raw payment x. rewrite decode_context_ok. naive_solver.
  - intros raw t. rewrite typed_decode_ok. pose proof (encoded_eq encode typed_typed typed_bytes t raw (typed_encodes t)). tauto.
Qed.

(** C30: A message is exactly as long as it is: an accepted instruction, context
    message or typed instruction with anything appended is refused as trailing
    with the number of bytes appended, and cut short anywhere is refused. *)
Theorem wires_refuse_other_lengths :
  (forall raw extra i, InstructionWire.decode raw = Ok i -> extra <> [] ->
     InstructionWire.decode (raw ++ extra) = Err (InstructionWire.Trailing (length extra)))
  /\ (forall raw extra payment x, decode_context raw payment = Ok x -> extra <> [] ->
     decode_context (raw ++ extra) payment = Err (Trailing (length extra)))
  /\ (forall raw extra t, decode raw = Ok t -> extra <> [] -> decode (raw ++ extra) = Err (Trailing (length extra)))
  /\ (forall raw short extra t i payment x, raw = short ++ extra -> extra <> [] ->
     (InstructionWire.decode raw = Ok i -> is_ok (InstructionWire.decode short) = false)
     /\ (decode_context raw payment = Ok x -> is_ok (decode_context short payment) = false)
     /\ (decode raw = Ok t -> is_ok (decode short) = false)).
Proof.
  split; [apply instruction_trailing|]. split; [apply context_trailing|]. split; [apply typed_trailing|].
  intros raw short extra t i payment x -> Hx. split_and!; intros Hm.
  - destruct (InstructionWire.decode short) eqn:E; [|done]. by rewrite (instruction_trailing _ _ _ E Hx) in Hm.
  - destruct (decode_context short payment) eqn:E; [|done]. by rewrite (context_trailing _ _ _ _ E Hx) in Hm.
  - destruct (decode short) eqn:E; [|done]. by rewrite (typed_trailing _ _ _ E Hx) in Hm.
Qed.
End TypedCodec.
