(* ===== verification/Json.v ===== *)
(** * JSON values and text

    The [serde_json::Value]s that statements are encoded through, their encoding
    as an interface, and [str::trim] on UTF-8 text. *)

From S2P Require Import Prelude.
From S2P Require Import Interfaces.

(** A value of [json!]: an object lists its fields as they are inserted. *)
#[warnings="-register-all"]
Inductive Json :=
  | JNull
  | JBool (b : bool)
  | JNum (z : Z)
  | JStr (s : string)
  | JArr (l : list Json)
  | JObj (fields : list (string * Json)).

(** [serde_json::to_vec] of a value. *)
Class JsonVec := json_to_vec : Json -> result string bytes.

(** What the encoding shows of an object with scalar fields: two such objects
    with the same distinct keys and the same encoding have the same fields. *)
Definition scalar (j : Json) : Prop :=
  match j with JNull | JBool _ | JNum _ | JStr _ => True | _ => False end.

Class JsonLaws `{JsonVec} : Prop := {
  json_object_inj : forall fields fields' raw,
    NoDup fields.*1 -> fields.*1 = fields'.*1 -> Forall (fun f => scalar f.2) fields -> Forall (fun f => scalar f.2) fields' ->
    json_to_vec (JObj fields) = Ok raw -> json_to_vec (JObj fields') = Ok raw -> fields = fields'
}.

(** The [Map] of an object: a key inserted again replaces its value. *)
Definition json_map (fields : list (string * Json)) : gmap string Json :=
  foldl (fun m f => <[f.1 := f.2]> m) ∅ fields.

Definition as_object (j : Json) : option (gmap string Json) :=
  match j with JObj fields => Some (json_map fields) | _ => None end.
Definition as_str (j : Json) : option string := match j with JStr s => Some s | _ => None end.
Definition as_u64 (j : Json) : option N :=
  match j with JNum z => if ((0 <=? z) && (z <=? Z.of_N U64_MAX))%Z then Some (Z.to_N z) else None | _ => None end.

(** [hex::decode] reads back what [hex::encode] wrote. *)
Class HexRoundTrip `{HexEncode, HexDecode} : Prop := hex_decode_encode : forall d, hex_decode (hex_encode d) = Some d.

(** ** [trim().is_empty()] *)

(** The bytes of the next whitespace character ([char::is_whitespace]), skipped. *)
Definition skip_space (l : bytes) : option bytes :=
  match Byte.to_N <$> take 3 l with
  | a :: rest =>
      if ((9 <=? a) && (a <=? 13)) || (a =? 32) then Some (drop 1 l)
      else match rest with
        | b :: rest =>
            if (a =? 0xC2) && ((b =? 0x85) || (b =? 0xA0)) then Some (drop 2 l)
            else match rest with
              | c :: _ =>
                  if ((a =? 0xE1) && (b =? 0x9A) && (c =? 0x80))
                     || ((a =? 0xE2) && (b =? 0x80) && (((0x80 <=? c) && (c <=? 0x8A)) || (c =? 0xA8) || (c =? 0xA9) || (c =? 0xAF)))
                     || ((a =? 0xE2) && (b =? 0x81) && (c =? 0x9F))
                     || ((a =? 0xE3) && (b =? 0x80) && (c =? 0x80))
                  then Some (drop 3 l) else None
              | [] => None
              end
        | [] => None
        end
  | [] => None
  end.

(** Nothing but whitespace; every step drops a byte. *)
Fixpoint blank_from (fuel : nat) (l : bytes) : bool :=
  match fuel, l with
  | _, [] => true
  | O, _ => false
  | S fuel, l => match skip_space l with Some l => blank_from fuel l | None => false end
  end.
Definition blank (s : string) : bool := blank_from (String.length s) (bstr s).
