(* ===== verification/Receipts.v ===== *)
(** * Slot receipts, fault evidence and bonds

    [qomm-audit/src/receipts.rs]: the receipts nodes sign per slot, the ledger
    that records them, finds faults and settles slots, and the bonds that the
    evidence slashes.  Verification is that of the hybrid signature backend; the
    purpose of audit keys is an interface.

    Then the invariants of the ledger over every sequence of operations: receipts
    are signed by their node, evidence carries what proves it, every pair of
    conflicting receipts is reported; and from these, agreement of settled states
    and conservation of bonds. *)

From stdpp Require Import pretty.
From S2P Require Import Prelude.
From S2P Require Import Interfaces.
From S2P Require Import Sorting.
From S2P Require Import Threshold.

Open Scope N_scope.

(** [KeyPurpose::AuditCheckpoint] *)
Class AuditPurpose := audit_checkpoint : N.

(** [Iterator::max_by_key]: the last of the largest. *)
Definition max_by_key {A} (f : A -> nat) (l : list A) : option A :=
  foldl (fun best a =>
    match best with
    | None => Some a
    | Some b => if (f b <=? f a)%nat then Some a else Some b
    end) None l.

(** [iter().copied().collect::<BTreeSet<_>>().len()] *)
Definition distinct_count (l : list N) : nat := size (list_to_set l : gset N).

Section Audit.
Context `{Sha256} `{HybridBackend} `{AuditPurpose}.

Definition AUDIT_DOMAIN : bytes := bstr "QOMM:AUDIT:v2".
Definition AUDIT_VERSION : bytes := bstr "2".
Definition GENESIS : bytes := ZERO32.

Definition audit_digest (parts : list bytes) : bytes :=
  sha256 (AUDIT_DOMAIN ++ concat ((fun part => be_bytes 4 (N.of_nat (length part)) ++ part) <$> parts)).

Record SlotSpec := mkSlotSpec {
  sp_slot : N;
  sp_mm_set_digest : bytes;
  sp_market_digest : bytes;
  sp_deadline : N;
  sp_required_receipts : nat
}.

Definition slot_binding (spec : SlotSpec) : bytes :=
  audit_digest [bstr "slot"; be_bytes 8 (sp_slot spec); sp_mm_set_digest spec; sp_market_digest spec].

Record NodeReceipt := mkNodeReceipt {
  nr_node : N;
  nr_slot : N;
  nr_mm_set_digest : bytes;
  nr_market_digest : bytes;
  nr_deadline : N;
  nr_prev_state_digest : bytes;
  nr_new_state_digest : bytes;
  nr_result_digest : bytes;
  nr_emitted_at : N;
  nr_signature : bytes
}.

Definition signed_body (r : NodeReceipt) : bytes :=
  audit_digest [bstr "receipt:v2"; AUDIT_VERSION; be_bytes 4 (nr_node r); be_bytes 8 (nr_slot r); nr_mm_set_digest r;
    nr_market_digest r; be_bytes 8 (nr_deadline r); be_bytes 8 (nr_emitted_at r); nr_prev_state_digest r;
    nr_new_state_digest r; nr_result_digest r].

Definition content_digest (r : NodeReceipt) : bytes :=
  audit_digest [bstr "content"; nr_mm_set_digest r; nr_prev_state_digest r; nr_new_state_digest r; nr_result_digest r].

Definition with_signature (r : NodeReceipt) (signature : bytes) : NodeReceipt :=
  mkNodeReceipt (nr_node r) (nr_slot r) (nr_mm_set_digest r) (nr_market_digest r) (nr_deadline r)
    (nr_prev_state_digest r) (nr_new_state_digest r) (nr_result_digest r) (nr_emitted_at r) signature.

Definition sign_receipt (key : HybridSigner) (node : N) (spec : SlotSpec)
    (prev_state_digest new_state_digest result_digest : bytes) (emitted_at : N) (mm_set_digest : option bytes) :
    result string NodeReceipt :=
  let receipt := mkNodeReceipt node (sp_slot spec) (default (sp_mm_set_digest spec) mm_set_digest)
    (sp_market_digest spec) (sp_deadline spec) prev_state_digest new_state_digest result_digest emitted_at [] in
  signature ← hybrid_sign key audit_checkpoint (signed_body receipt);
  Ok (with_signature receipt signature).

(** ** Evidence *)

Inductive Fault := Equivocation | OmittedMakers | StaleState | MissingReceipt | BadSignature | ForkedState.
#[global] Instance fault_dec : EqDecision Fault.
Proof. solve_decision. Defined.

Definition fault_as_str (f : Fault) : string :=
  match f with
  | Equivocation => "equivocation"
  | OmittedMakers => "omitted_makers"
  | StaleState => "stale_state"
  | MissingReceipt => "missing_receipt"
  | BadSignature => "bad_signature"
  | ForkedState => "forked_state"
  end.

Record Evidence := mkEvidence {
  ev_fault : Fault;
  ev_node : Z;
  ev_slot : N;
  ev_detail : string;
  ev_exhibits : list NodeReceipt
}.

Definition evidence_new (fault : Fault) (node : Z) (slot : N) (detail : string) : Evidence :=
  mkEvidence fault node slot detail [].
Definition with_exhibits (e : Evidence) (exhibits : list NodeReceipt) : Evidence :=
  mkEvidence (ev_fault e) (ev_node e) (ev_slot e) (ev_detail e) exhibits.

(** ** The ledger *)

Record AuditLedger := mkAuditLedger {
  al_node_keys : gmap N bytes;
  al_by_slot : gmap N (gmap N (list NodeReceipt));
  al_specs : gmap N SlotSpec;
  al_arrived : gmap (N * N) N;
  al_settled_state : gmap N bytes;
  al_evidence : list Evidence
}.

Definition audit_new (node_keys : gmap N bytes) : AuditLedger := mkAuditLedger node_keys ∅ ∅ ∅ ∅ [].

Definition extend_evidence (l : AuditLedger) (found : list Evidence) : AuditLedger :=
  mkAuditLedger (al_node_keys l) (al_by_slot l) (al_specs l) (al_arrived l) (al_settled_state l) (al_evidence l ++ found).

Definition open_slot (l : AuditLedger) (spec : SlotSpec) : AuditLedger :=
  mkAuditLedger (al_node_keys l)
    (<[sp_slot spec := default ∅ (al_by_slot l !! sp_slot spec)]> (al_by_slot l))
    (<[sp_slot spec := spec]> (al_specs l)) (al_arrived l) (al_settled_state l) (al_evidence l).

(** The receipts a node has for a slot. *)
Definition existing (l : AuditLedger) (slot node : N) : list NodeReceipt :=
  default [] (default ∅ (al_by_slot l !! slot) !! node).

Definition receipt_verifies (key : bytes) (r : NodeReceipt) : bool :=
  hybrid_verify audit_checkpoint key (signed_body r) (nr_signature r).

(** Evidence against the receipt's node, with the receipt as exhibit. *)
Definition against (r : NodeReceipt) (fault : Fault) (detail : string) : Evidence :=
  with_exhibits (evidence_new fault (Z.of_N (nr_node r)) (nr_slot r) detail) [r].

Definition market_faults (spec : SlotSpec) (r : NodeReceipt) : list Evidence :=
  (if negb (bool_decide (nr_market_digest r = sp_market_digest spec))
   then [against r StaleState "signed a market other than the one fixed for this slot"] else [])
  ++ (if negb (nr_deadline r =? sp_deadline spec)
      then [against r StaleState "signed a deadline other than the one fixed for this slot"] else []).

Definition equivocations (others : list NodeReceipt) (r : NodeReceipt) : list Evidence :=
  omap (fun other =>
    if negb (bool_decide (content_digest other = content_digest r))
    then Some (with_exhibits (evidence_new Equivocation (Z.of_N (nr_node r)) (nr_slot r) "two signed results for one slot") [other; r])
    else None) others.

Definition maker_faults (spec : SlotSpec) (r : NodeReceipt) : list Evidence :=
  if negb (bool_decide (nr_mm_set_digest r = sp_mm_set_digest spec))
  then [against r OmittedMakers "signed a maker set other than the one fixed for this slot"] else [].

Definition continuity_faults (settled : gmap N bytes) (r : NodeReceipt) : list Evidence :=
  if 0 <? nr_slot r then
    match settled !! (nr_slot r - 1) with
    | Some expected =>
        if negb (bool_decide (nr_prev_state_digest r = expected))
        then [against r StaleState "continued from a state other than the settled predecessor"] else []
    | None => []
    end
  else [].

(** [arrived.entry(..).and_modify(min).or_insert] *)
Definition note_arrival (arrived : gmap (N * N) N) (key : N * N) (at_time : option N) : gmap (N * N) N :=
  match at_time with
  | Some t => <[key := match arrived !! key with Some previous => N.min previous t | None => t end]> arrived
  | None => arrived
  end.

Definition push_receipt (by_slot : gmap N (gmap N (list NodeReceipt))) (r : NodeReceipt) :
    gmap N (gmap N (list NodeReceipt)) :=
  let nodes := default ∅ (by_slot !! nr_slot r) in
  <[nr_slot r := <[nr_node r := default [] (nodes !! nr_node r) ++ [r]]> nodes]> by_slot.

Definition record (l : AuditLedger) (r : NodeReceipt) (arrived_at : option N) : AuditLedger * list Evidence :=
  match al_specs l !! nr_slot r with
  | None => (l, [evidence_new MissingReceipt (Z.of_N (nr_node r)) (nr_slot r) "receipt for a slot that was never opened"])
  | Some spec =>
      match al_node_keys l !! nr_node r with
      | None => (l, [evidence_new BadSignature (Z.of_N (nr_node r)) (nr_slot r) "unknown node"])
      | Some key =>
          if negb (receipt_verifies key r) then
            let found := [evidence_new BadSignature (Z.of_N (nr_node r)) (nr_slot r) "signature does not verify"] in
            (extend_evidence l found, found)
          else
            let found := market_faults spec r ++ equivocations (existing l (nr_slot r) (nr_node r)) r
              ++ maker_faults spec r ++ continuity_faults (al_settled_state l) r in
            (mkAuditLedger (al_node_keys l) (push_receipt (al_by_slot l) r) (al_specs l)
               (note_arrival (al_arrived l) (nr_slot r, nr_node r) arrived_at) (al_settled_state l) (al_evidence l ++ found), found)
      end
  end.

(** ** Settling a slot *)

(** When a receipt counts: the recorded arrival, or the time it claims. *)
Definition seen_at (l : AuditLedger) (slot node : N) (r : NodeReceipt) : N :=
  default (nr_emitted_at r) (al_arrived l !! (slot, node)).

Definition missing_receipts (l : AuditLedger) (spec : SlotSpec) (slot now : N) : list Evidence :=
  omap (fun '(node, _) =>
    if existsb (fun r => seen_at l slot node r <=? sp_deadline spec) (existing l slot node) then None
    else Some (evidence_new MissingReceipt (Z.of_N node) slot
      ("no receipt by the deadline (" +:+ pretty (sp_deadline spec) +:+ "); observed at " +:+ pretty now)))
    (party_iter (al_node_keys l)).

Definition counts (l : AuditLedger) (spec : SlotSpec) (slot node : N) (r : NodeReceipt) : bool :=
  (seen_at l slot node r <=? sp_deadline spec)
  && bool_decide (nr_mm_set_digest r = sp_mm_set_digest spec)
  && bool_decide (nr_market_digest r = sp_market_digest spec)
  && (nr_deadline r =? sp_deadline spec).

Definition tally_push (tally : gmap bytes (list N)) (vote : bytes * N) : gmap bytes (list N) :=
  <[vote.1 := default [] (tally !! vote.1) ++ [vote.2]]> tally.

(** The votes of a slot, by node and in the order received. *)
Definition votes (l : AuditLedger) (spec : SlotSpec) (slot : N) : list (bytes * N) :=
  '(node, receipts) ← party_iter (default ∅ (al_by_slot l !! slot));
  (fun r => (nr_new_state_digest r, node)) <$> filter (fun r => counts l spec slot node r = true) receipts.

Definition tally (l : AuditLedger) (spec : SlotSpec) (slot : N) : list (bytes * list N) :=
  sort_by_key bytes_leb fst (map_to_list (foldl tally_push ∅ (votes l spec slot))).

(** [BTreeSet] iteration *)
Definition distinct_nodes (l : list N) : list N := merge_sort N.le (elements (list_to_set l : gset N)).

Definition forked_states (tallied : list (bytes * list N)) (plurality : bytes) (slot : N) : list Evidence :=
  '(state, minority) ← tallied;
  if negb (bool_decide (state = plurality)) then
    (fun node => evidence_new ForkedState (Z.of_N node) slot "signed a new state that the quorum did not agree with")
      <$> distinct_nodes minority
  else [].

Definition unresolved (slot : N) (agreeing required : nat) : Evidence :=
  evidence_new MissingReceipt (-1) slot
    ("only " +:+ pretty agreeing +:+ " agreeing receipts, " +:+ pretty required
     +:+ " required; the slot is unresolved and the state does not advance").

Definition settle_slot (l : AuditLedger) (slot now : N) : result string (AuditLedger * option bytes * list Evidence) :=
  spec ← ok_or (al_specs l !! slot) ("slot " +:+ pretty slot +:+ " was not opened");
  let tallied := tally l spec slot in
  let missing := missing_receipts l spec slot now in
  let '(settled, found) :=
    match max_by_key (fun entry => distinct_count entry.2) tallied with
    | None => (None, missing)
    | Some (plurality, nodes) =>
        let agreeing := distinct_count nodes in
        let forks := forked_states tallied plurality slot in
        if (agreeing <? sp_required_receipts spec)%nat
        then (None, missing ++ forks ++ [unresolved slot agreeing (sp_required_receipts spec)])
        else (Some plurality, missing ++ forks)
    end in
  let states := match settled with Some state => <[slot := state]> (al_settled_state l) | None => al_settled_state l end in
  Ok (mkAuditLedger (al_node_keys l) (al_by_slot l) (al_specs l) (al_arrived l) states (al_evidence l ++ found), settled, found).

Definition settled_state (l : AuditLedger) (slot : N) : bytes := default GENESIS (al_settled_state l !! slot).

(** ** Bonds *)

Record Slash := mkSlash {
  sl_node : N;
  sl_slot : N;
  sl_fault : Fault;
  sl_amount : N;
  sl_remaining_bond : N
}.

Record BondLedger := mkBondLedger {
  bl_bonds : gmap N N;
  bl_penalties : Fault -> option N;
  bl_slashed : list Slash
}.

Definition default_penalties (f : Fault) : option N :=
  match f with
  | Equivocation => Some 1000000
  | ForkedState => Some 500000
  | OmittedMakers => Some 500000
  | StaleState => Some 250000
  | BadSignature => Some 250000
  | MissingReceipt => Some 50000
  end.

Definition bonds_new (bonds : gmap N N) : BondLedger := mkBondLedger bonds default_penalties [].

(** [u32::try_from] of an [i64] *)
Definition u32_of_i64 (z : Z) : option N := if ((0 <=? z) && (z <=? 4294967295))%Z then Some (Z.to_N z) else None.

Definition slash_one (st : BondLedger * list Slash) (item : Evidence) : BondLedger * list Slash :=
  let '(b, applied) := st in
  match u32_of_i64 (ev_node item) with
  | None => st
  | Some node =>
      match bl_bonds b !! node with
      | None => st
      | Some bond =>
          let amount := N.min bond (default 0 (bl_penalties b (ev_fault item))) in
          if amount =? 0 then st
          else
            let slash := mkSlash node (ev_slot item) (ev_fault item) amount (bond - amount) in
            (mkBondLedger (<[node := bond - amount]> (bl_bonds b)) (bl_penalties b) (bl_slashed b ++ [slash]), applied ++ [slash])
      end
  end.

Definition apply_evidence (b : BondLedger) (evidence : list Evidence) : BondLedger * list Slash :=
  foldl slash_one (b, []) evidence.
End Audit.

(** ** What audit evidence proves *)

(** ** Largest by a key *)

Lemma max_by_key_spec {A} (f : A -> nat) l :
  match max_by_key f l with
  | Some a => a ∈ l /\ forall x, x ∈ l -> (f x <= f a)%nat
  | None => l = []
  end.
Proof.
  unfold max_by_key. induction l as [|x l IH] using rev_ind; [done|]. rewrite foldl_app. cbn.
  destruct (foldl _ None l) as [b|].
  - destruct IH as [Hb Hmax]. destruct (Nat.leb_spec (f b) (f x)).
    + split; [set_solver|]. intros y [Hy| ->%list_elem_of_singleton]%elem_of_app; [|done]. specialize (Hmax y Hy). lia.
    + split; [set_solver|]. intros y [Hy| ->%list_elem_of_singleton]%elem_of_app; [by apply Hmax | lia].
  - subst l. split; [set_solver|]. by intros y ->%list_elem_of_singleton.
Qed.

(** Two sets larger together than what contains them meet. *)
Lemma quorums_meet (a b d : gset N) : a ⊆ d -> b ⊆ d -> (size d < size a + size b)%nat -> exists x, x ∈ a /\ x ∈ b.
Proof.
  intros Ha Hb Hs. destruct (decide (a ∩ b = ∅)) as [E|E].
  - assert (size (a ∪ b) = size a + size b)%nat as Hu by (apply size_union; set_solver).
    assert (size (a ∪ b) <= size d)%nat by (apply subseteq_size; set_solver). lia.
  - apply set_choose_L in E as [x Hx]. exists x. set_solver.
Qed.

Section AuditProofs.
Context `{S2 : Sha256} `{HB : HybridBackend} `{AP : AuditPurpose}.

(** ** Operations *)

Inductive AuditOp :=
  | OpOpen (spec : SlotSpec)
  | OpRecord (r : NodeReceipt) (arrived_at : option N)
  | OpSettle (slot now : N).

Definition audit_step (l : AuditLedger) (op : AuditOp) : AuditLedger :=
  match op with
  | OpOpen spec => open_slot l spec
  | OpRecord r arrived_at => (record l r arrived_at).1
  | OpSettle slot now => match settle_slot l slot now with Ok (l', _, _) => l' | Err _ => l end
  end.

Definition audit_run (l : AuditLedger) (ops : list AuditOp) : AuditLedger := foldl audit_step l ops.

(** ** Receipts on record *)

Lemma existing_push by_slot r slot node :
  default [] (default ∅ (push_receipt by_slot r !! slot) !! node)
  = default [] (default ∅ (by_slot !! slot) !! node) ++ (if decide (slot = nr_slot r /\ node = nr_node r) then [r] else []).
Proof.
  unfold push_receipt. destruct (decide (slot = nr_slot r)) as [->|Hs].
  - rewrite lookup_insert_eq. cbn. destruct (decide (node = nr_node r)) as [->|Hn].
    + rewrite lookup_insert_eq, decide_True by done. done.
    + rewrite lookup_insert_ne, decide_False by naive_solver. by rewrite app_nil_r.
  - rewrite lookup_insert_ne, decide_False by naive_solver. by rewrite app_nil_r.
Qed.

Lemma existing_open l spec slot node : existing (open_slot l spec) slot node = existing l slot node.
Proof.
  unfold existing, open_slot. cbn. destruct (decide (slot = sp_slot spec)) as [->|Hs].
  - rewrite lookup_insert_eq. cbn. by destruct (al_by_slot l !! sp_slot spec).
  - by rewrite lookup_insert_ne.
Qed.

(** What a step adds to the receipts on record. *)
Lemma existing_step l op slot node :
  existing (audit_step l op) slot node = existing l slot node \/
  exists r arrived_at key, op = OpRecord r arrived_at /\ slot = nr_slot r /\ node = nr_node r
    /\ al_node_keys l !! node = Some key /\ receipt_verifies key r = true
    /\ existing (audit_step l op) slot node = existing l slot node ++ [r]
    /\ equivocations (existing l slot node) r ⊆ al_evidence (audit_step l op).
Proof.
  destruct op as [spec|r arrived_at|s now]; cbn [audit_step].
  - left. apply existing_open.
  - unfold record. destruct (al_specs l !! nr_slot r) as [spec|]; [|by left].
    destruct (al_node_keys l !! nr_node r) as [key|] eqn:Hk; [|by left].
    destruct (receipt_verifies key r) eqn:Hv; cbn [negb]; [|by left].
    unfold existing. cbn [fst al_by_slot al_evidence]. rewrite existing_push.
    destruct (decide _) as [[-> ->]|]; [right | left; by rewrite app_nil_r].
    exists r, arrived_at, key. split_and!; try done. unfold existing. set_solver.
  - left. unfold settle_slot. destruct (al_specs l !! s); [|done]. cbn. by destruct (match max_by_key _ _ with Some _ => _ | None => _ end).
Qed.

Lemma existing_grows l op slot node r : r ∈ existing l slot node -> r ∈ existing (audit_step l op) slot node.
Proof.
  intros Hr. destruct (existing_step l op slot node) as [->|(r' & t & key & _ & _ & _ & _ & _ & -> & _)]; [done|]. set_solver.
Qed.

Lemma existing_run_grows ops : forall l slot node r, r ∈ existing l slot node -> r ∈ existing (audit_run l ops) slot node.
Proof.
  induction ops as [|op ops IH]; intros l slot node r Hr; [done|]. cbn. apply IH. by apply existing_grows.
Qed.

Lemma keys_step l op : al_node_keys (audit_step l op) = al_node_keys l.
Proof.
  destruct op as [spec|r arrived_at|s now]; cbn [audit_step]; [done|..].
  - unfold record. repeat case_match; done.
  - unfold settle_slot. destruct (al_specs l !! s); [|done]. cbn. by destruct (match max_by_key _ _ with Some _ => _ | None => _ end).
Qed.

Lemma keys_run ops : forall l, al_node_keys (audit_run l ops) = al_node_keys l.
Proof. induction ops as [|op ops IH]; intros l; [done|]. cbn. rewrite IH. apply keys_step. Qed.

(** ** Evidence *)

Definition signed_by (keys : gmap N bytes) (e : Evidence) (r : NodeReceipt) : Prop :=
  ev_node e = Z.of_N (nr_node r) /\ ev_slot e = nr_slot r
  /\ exists key, keys !! nr_node r = Some key /\ receipt_verifies key r = true.

Definition audit_inv (l : AuditLedger) : Prop :=
  (forall slot node r, r ∈ existing l slot node -> nr_slot r = slot /\ nr_node r = node
     /\ exists key, al_node_keys l !! node = Some key /\ receipt_verifies key r = true)
  /\ (forall slot node i j a b, existing l slot node !! i = Some a -> existing l slot node !! j = Some b -> (i < j)%nat ->
       content_digest a <> content_digest b ->
       with_exhibits (evidence_new Equivocation (Z.of_N node) slot "two signed results for one slot") [a; b] ∈ al_evidence l).

(** ** Votes *)

Lemma votes_elem l spec slot s node :
  (s, node) ∈ votes l spec slot <->
  exists r, r ∈ existing l slot node /\ counts l spec slot node r = true /\ nr_new_state_digest r = s.
Proof.
  unfold votes, existing. rewrite list_elem_of_bind. split.
  - intros ([node' receipts] & Hv & Hin). apply party_iter_elem in Hin.
    apply list_elem_of_fmap in Hv as (r & [= -> ->] & [Hc Hr]%list_elem_of_filter). exists r. by rewrite Hin.
  - intros (r & Hr & Hc & <-). destruct (default ∅ (al_by_slot l !! slot) !! node) as [receipts|] eqn:E; [|set_solver].
    exists (node, receipts). split; [|by apply party_iter_elem]. apply list_elem_of_fmap. exists r. split; [done|].
    by apply list_elem_of_filter.
Qed.

(** The nodes that voted for a state. *)
Definition voters (l : AuditLedger) (spec : SlotSpec) (slot : N) (s : bytes) : gset N :=
  list_to_set (snd <$> filter (fun v => v.1 = s) (votes l spec slot)).

Lemma voters_elem l spec slot s node : node ∈ voters l spec slot s <->
  exists r, r ∈ existing l slot node /\ counts l spec slot node r = true /\ nr_new_state_digest r = s.
Proof.
  unfold voters. rewrite elem_of_list_to_set, list_elem_of_fmap, <- votes_elem. split.
  - intros ([s' node'] & -> & [<- Hv]%list_elem_of_filter). done.
  - intros Hv. exists (s, node). split; [done|]. by apply list_elem_of_filter.
Qed.

Lemma tally_fold vs : forall m s,
  default [] (foldl tally_push m vs !! s) = default [] (m !! s) ++ (snd <$> filter (fun v => v.1 = s) vs).
Proof.
  induction vs as [|[s' node] vs IH]; intros m s; cbn [foldl]; [by rewrite app_nil_r|].
  rewrite IH. unfold tally_push. cbn [fst snd]. rewrite filter_cons. cbn [fst]. destruct (decide (s' = s)) as [->|Hne].
  - rewrite lookup_insert_eq. cbn. by rewrite <- app_assoc.
  - by rewrite lookup_insert_ne.
Qed.

(** The tally lists, once each, the voted states with their voters. *)
Lemma tally_elem l spec slot s nodes : (s, nodes) ∈ tally l spec slot -> distinct_count nodes = size (voters l spec slot s)
  /\ (forall node, node ∈ nodes <-> node ∈ voters l spec slot s).
Proof.
  unfold tally. rewrite sort_by_key_perm, elem_of_map_to_list. intros Hs.
  pose proof (tally_fold (votes l spec slot) ∅ s) as E. rewrite Hs, lookup_empty in E. cbn in E. subst nodes.
  split; [done|]. intros node. unfold voters. by rewrite elem_of_list_to_set.
Qed.

Lemma tally_has l spec slot s node : node ∈ voters l spec slot s -> exists nodes, (s, nodes) ∈ tally l spec slot.
Proof.
  intros Hv. unfold tally. setoid_rewrite sort_by_key_perm. setoid_rewrite elem_of_map_to_list.
  pose proof (tally_fold (votes l spec slot) ∅ s) as E. rewrite lookup_empty in E. cbn in E.
  unfold voters in Hv. rewrite elem_of_list_to_set, <- E in Hv.
  destruct (foldl tally_push ∅ (votes l spec slot) !! s) as [nodes|]; [by exists nodes | set_solver].
Qed.

Lemma tally_voted l spec slot s nodes : (s, nodes) ∈ tally l spec slot -> exists node, node ∈ voters l spec slot s.
Proof.
  intros Hs. pose proof (tally_elem _ _ _ _ _ Hs) as [_ Hn]. setoid_rewrite <- Hn. unfold tally in Hs.
  rewrite sort_by_key_perm, elem_of_map_to_list in Hs.
  assert (forall vs m, map_Forall (fun _ v => v <> []) m -> map_Forall (fun _ (v : list N) => v <> []) (foldl tally_push m vs)) as Hf.
  { induction vs as [|v vs IH]; intros m Hm; [done|]. cbn. apply IH, map_Forall_insert_2; [|done]. by destruct (default [] _). }
  specialize (Hf (votes l spec slot) ∅ (map_Forall_empty _) s nodes Hs). destruct nodes as [|x nodes]; [done|]. exists x. left.
Qed.

(** ** Settlement *)

Lemma settle_spec l slot now l' settled found : settle_slot l slot now = Ok (l', settled, found) ->
  exists spec, al_specs l !! slot = Some spec
  /\ al_settled_state l' = match settled with Some s => <[slot := s]> (al_settled_state l) | None => al_settled_state l end
  /\ al_evidence l' = al_evidence l ++ found
  /\ (forall s, settled = Some s -> (sp_required_receipts spec <= size (voters l spec slot s))%nat
       /\ (exists node, node ∈ voters l spec slot s) /\ forall s', (size (voters l spec slot s') <= size (voters l spec slot s))%nat)
  /\ (settled = None -> forall s, (exists node, node ∈ voters l spec slot s) -> (size (voters l spec slot s) < sp_required_receipts spec)%nat).
Proof.
  unfold settle_slot. intros Hs. apply bind_ok in Hs as (spec & Hspec & Hs). apply ok_or_ok in Hspec. exists spec. split; [done|].
  pose proof (max_by_key_spec (fun entry => distinct_count entry.2) (tally l spec slot)) as Hmax.
  destruct (max_by_key _ _) as [[plurality nodes]|].
  - destruct Hmax as [Hin Hmax]. destruct (tally_elem _ _ _ _ _ Hin) as [Hd _].
    assert (forall s', size (voters l spec slot s') <= distinct_count nodes)%nat as Hle.
    { intros s'. destruct (decide (voters l spec slot s' = ∅)) as [->|Hne]; [rewrite size_empty; lia|].
      apply set_choose_L in Hne as [x Hx]. destruct (tally_has _ _ _ _ _ Hx) as [nodes' Hn'].
      specialize (Hmax _ Hn'). destruct (tally_elem _ _ _ _ _ Hn') as [Hd' _]. cbn [snd] in Hmax. lia. }
    destruct (Nat.ltb_spec (distinct_count nodes) (sp_required_receipts spec)) as [Hr|Hr]; injection Hs as <- <- <-.
    + split_and!; try done. intros _ s _. specialize (Hle s). lia.
    + split_and!; try done. intros s [= <-]. rewrite <- Hd. split_and!; [done|by apply tally_voted in Hin|done].
  - injection Hs as <- <- <-. split_and!; try done. intros _ s [node Hv]. destruct (tally_has _ _ _ _ _ Hv) as [nodes Hn].
    rewrite Hmax in Hn. set_solver.
Qed.

(** ** The invariant *)

Lemma evidence_grows l op e : e ∈ al_evidence l -> e ∈ al_evidence (audit_step l op).
Proof.
  intros He. destruct op as [spec|r arrived_at|slot now]; cbn [audit_step]; [done|..].
  - unfold record. repeat case_match; cbn; set_solver.
  - destruct (settle_slot l slot now) as [[[l' settled] found]|] eqn:Hs; [|done].
    destruct (settle_spec _ _ _ _ _ _ Hs) as (spec & _ & _ & -> & _). set_solver.
Qed.

Lemma audit_inv_step l op : audit_inv l -> audit_inv (audit_step l op).
Proof.
  intros (Hst & Heq). split.
  - intros slot node r Hr. rewrite keys_step.
    destruct (existing_step l op slot node) as [E|(r' & t & key & _ & -> & -> & Hk & Hv & E & _)]; rewrite E in Hr; [by apply Hst|].
    apply elem_of_app in Hr as [Hr| ->%list_elem_of_singleton]; [by apply Hst|]. eauto.
  - intros slot node i j a b Ha Hb Hij Hne.
    destruct (existing_step l op slot node) as [E|(r & t & key & -> & -> & -> & Hk & Hv & E & Hsub)]; rewrite E in Ha, Hb.
    + apply evidence_grows. by apply (Heq _ _ i j).
    + destruct (decide (j < length (existing l (nr_slot r) (nr_node r)))%nat) as [Hj|Hj].
      * rewrite lookup_app_l in Ha, Hb by lia. apply evidence_grows. by apply (Heq _ _ i j).
      * rewrite lookup_app_r in Hb by lia. apply list_lookup_singleton_Some in Hb as [Hj0 <-]. rewrite lookup_app_l in Ha by lia.
        apply Hsub. apply list_elem_of_omap. exists a. split; [by apply list_elem_of_lookup; exists i|].
        by rewrite bool_decide_eq_false_2.
Qed.

Lemma audit_inv_run ops : forall l, audit_inv l -> audit_inv (audit_run l ops).
Proof. induction ops as [|op ops IH]; intros l Hl; [done|]. cbn. by apply IH, audit_inv_step. Qed.

Lemma audit_inv_new keys : audit_inv (audit_new keys).
Proof.
  assert (forall slot node, existing (audit_new keys) slot node = []) as E.
  { intros slot node. unfold existing, audit_new. cbn. by rewrite lookup_empty. }
  split.
  - intros slot node r. rewrite E. by intros ?%elem_of_nil.
  - intros slot node i j a b. by rewrite E.
Qed.

Lemma voters_enrolled l spec slot s : audit_inv l -> voters l spec slot s ⊆ dom (al_node_keys l).
Proof.
  intros (Hst & _) node (r & Hr & _)%voters_elem. apply Hst in Hr as (_ & _ & key & Hk & _). by apply elem_of_dom_2 in Hk.
Qed.

(** ** Content digests *)

(** The message hashed for a receipt's contents. *)
Definition content_message (r : NodeReceipt) : bytes :=
  AUDIT_DOMAIN ++ concat ((fun part => be_bytes 4 (N.of_nat (length part)) ++ part) <$>
    [bstr "content"; nr_mm_set_digest r; nr_prev_state_digest r; nr_new_state_digest r; nr_result_digest r]).

Definition content_clash (a b : NodeReceipt) : Prop :=
  content_message a <> content_message b /\ sha256 (content_message a) = sha256 (content_message b).

Definition receipt_typed (r : NodeReceipt) : Prop :=
  Forall (fun d => length d = 32%nat) [nr_mm_set_digest r; nr_prev_state_digest r; nr_new_state_digest r; nr_result_digest r].

Lemma content_binds a b : receipt_typed a -> receipt_typed b -> content_digest a = content_digest b ->
  nr_new_state_digest a = nr_new_state_digest b \/ content_clash a b.
Proof.
  unfold receipt_typed. rewrite !Forall_cons. intros Ha Hb E. destruct_and!.
  destruct (decide (content_message a = content_message b)) as [Em|Em].
  - left. unfold content_message in Em. set (f := fun part : bytes => be_bytes 4 (N.of_nat (length part)) ++ part) in Em.
    assert (forall x y k m, length x = 32%nat -> length y = 32%nat -> f x ++ k = f y ++ m -> x = y /\ k = m) as Hf.
    { intros x y k m Hx Hy Ef. unfold f in Ef. rewrite Hx, Hy, <- !app_assoc in Ef. apply app_inv_head in Ef. apply app_inj_1 in Ef; congruence. }
    cbn [fmap list_fmap concat] in Em. apply app_inv_head, app_inv_head in Em.
    apply Hf in Em as [_ Em]; [|done..]. apply Hf in Em as [_ Em]; [|done..]. by apply Hf in Em as [Em _].
  - right. split; [exact Em | exact E].
Qed.

(** Two receipts on record with different states are an equivocation on
    record. *)
Lemma conflict_on_record l slot node a b : audit_inv l -> a ∈ existing l slot node -> b ∈ existing l slot node ->
  content_digest a <> content_digest b ->
  exists e x y, e ∈ al_evidence l /\ ev_fault e = Equivocation /\ ev_slot e = slot /\ ev_exhibits e = [x; y]
    /\ signed_by (al_node_keys l) e x /\ signed_by (al_node_keys l) e y /\ ((x = a /\ y = b) \/ (x = b /\ y = a)).
Proof.
  intros (Hst & Heq) Ha Hb Hne.
  assert (forall x y i j, existing l slot node !! i = Some x -> existing l slot node !! j = Some y -> (i < j)%nat -> content_digest x <> content_digest y ->
    exists e, e ∈ al_evidence l /\ ev_fault e = Equivocation /\ ev_slot e = slot /\ ev_exhibits e = [x; y]
      /\ signed_by (al_node_keys l) e x /\ signed_by (al_node_keys l) e y) as Hpair.
  { intros x y i j Hx Hy Hij Hxy. pose proof (Heq slot node i j x y Hx Hy Hij Hxy) as He.
    destruct (Hst slot node x (list_elem_of_lookup_2 _ _ _ Hx)) as (Hsx & Hnx & Hkx).
    destruct (Hst slot node y (list_elem_of_lookup_2 _ _ _ Hy)) as (Hsy & Hny & Hky).
    eexists. split; [exact He|]. rewrite <- Hnx in Hkx. rewrite <- Hny in Hky.
    split_and!; try done; (split; [cbn; congruence|]; split; [cbn; congruence | done]). }
  pose proof (proj1 (list_elem_of_lookup _ _) Ha) as [i Hi]. pose proof (proj1 (list_elem_of_lookup _ _) Hb) as [j Hj].
  assert (i <> j) as Hij by (intros ->; congruence). destruct (decide (i < j)%nat).
  - destruct (Hpair a b i j) as (e & ?); [done..|]. destruct_and!. exists e, a, b. auto 10.
  - destruct (Hpair b a j i) as (e & ?); [done|done|lia|done|]. destruct_and!. exists e, b, a. auto 10.
Qed.

(** ** Claims *)


















(** A settled state has its quorum: settling succeeds exactly on opened
    slots; a state it settles has the required number of distinct enrolled
    nodes behind it, each with a receipt that verifies, arrived in time and
    agrees with the slot, no other state has more, and without such a state
    nothing advances. *)
Theorem settlement_has_quorum keys ops slot now :
  let l := audit_run (audit_new keys) ops in
  is_ok (settle_slot l slot now) = bool_decide (is_Some (al_specs l !! slot))
  /\ forall l' settled found, settle_slot l slot now = Ok (l', settled, found) ->
     exists spec, al_specs l !! slot = Some spec /\
     match settled with
     | Some s => settled_state l' slot = s
         /\ (exists nodes : gset N, (sp_required_receipts spec <= size nodes)%nat /\ forall node, node ∈ nodes ->
               exists r key, keys !! node = Some key /\ receipt_verifies key r = true /\ nr_node r = node /\ nr_slot r = slot
                 /\ nr_new_state_digest r = s /\ counts l spec slot node r = true)
         /\ forall s', (size (voters l spec slot s') <= size (voters l spec slot s))%nat
     | None => al_settled_state l' = al_settled_state l
     end.
Proof.
  intros l. split.
  - unfold settle_slot. destruct (al_specs l !! slot); [|done]. cbn. by destruct (match max_by_key _ _ with Some _ => _ | None => _ end).
  - intros l' settled found Hs. destruct (settle_spec _ _ _ _ _ _ Hs) as (spec & Hspec & Hst & _ & Hq & _). exists spec. split; [done|].
    destruct settled as [s|]; [|done]. destruct (Hq s eq_refl) as (Hr & _ & Hmax). split_and!; [|..|done].
    + unfold settled_state. by rewrite Hst, lookup_insert_eq.
    + exists (voters l spec slot s). split; [done|]. intros node (r & Hr' & Hc & Hsr)%voters_elem.
      destruct (audit_inv_run ops _ (audit_inv_new keys)) as (Hrec & _). fold l in Hrec. destruct (Hrec _ _ _ Hr') as (Hsl & Hnd & key & Hk & Hv).
      unfold l in Hk. rewrite keys_run in Hk. exists r, key. done.
Qed.

(** C19: settled states agree or the fork names its culprits: when a slot is
    settled to two different states at two moments of a run, and the quorums
    required there are together larger than the committee, some node is on
    record for equivocation in that slot with two signed receipts, one for each
    state, unless two receipts of one node on record have different contents with
    one SHA-256. *)
Theorem conflicting_settlements_name_equivocators keys ops1 ops2 slot now1 now2 l1' l2' s1 s2 found1 found2 spec1 spec2 :
  let l1 := audit_run (audit_new keys) ops1 in
  let l2 := audit_run l1' ops2 in
  settle_slot l1 slot now1 = Ok (l1', Some s1, found1) -> settle_slot l2 slot now2 = Ok (l2', Some s2, found2) ->
  al_specs l1 !! slot = Some spec1 -> al_specs l2 !! slot = Some spec2 ->
  (size keys < sp_required_receipts spec1 + sp_required_receipts spec2)%nat -> s1 <> s2 ->
  (forall node r, r ∈ existing l2 slot node -> receipt_typed r) ->
  (exists e a b, e ∈ al_evidence l2 /\ ev_fault e = Equivocation /\ ev_slot e = slot /\ ev_exhibits e = [a; b]
     /\ signed_by keys e a /\ signed_by keys e b
     /\ ((nr_new_state_digest a = s1 /\ nr_new_state_digest b = s2) \/ (nr_new_state_digest a = s2 /\ nr_new_state_digest b = s1)))
  \/ (exists node a b, a ∈ existing l2 slot node /\ b ∈ existing l2 slot node /\ content_clash a b).
Proof.
  intros l1 l2 Hs1 Hs2 Hsp1 Hsp2 Hq Hne Htyped.
  assert (l2 = audit_run (audit_new keys) (ops1 ++ OpSettle slot now1 :: ops2)) as El2.
  { unfold l2, l1, audit_run. rewrite foldl_app. cbn. fold (audit_run (audit_new keys) ops1). fold l1. by rewrite Hs1. }
  pose proof (audit_inv_run ops1 _ (audit_inv_new keys)) as Hinv1. fold l1 in Hinv1.
  assert (audit_inv l2) as Hinv2 by (rewrite El2; apply audit_inv_run, audit_inv_new).
  destruct (settle_spec _ _ _ _ _ _ Hs1) as (? & E1 & _ & _ & Hq1 & _). rewrite Hsp1 in E1. injection E1 as <-.
  destruct (settle_spec _ _ _ _ _ _ Hs2) as (? & E2 & _ & _ & Hq2 & _). rewrite Hsp2 in E2. injection E2 as <-.
  destruct (Hq1 s1 eq_refl) as [Hr1 _], (Hq2 s2 eq_refl) as [Hr2 _].
  assert (al_node_keys l1 = keys) as Hk1 by apply keys_run. assert (al_node_keys l2 = keys) as Hk2 by (rewrite El2; apply keys_run).
  destruct (quorums_meet (voters l1 spec1 slot s1) (voters l2 spec2 slot s2) (dom keys)) as (node & Hv1 & Hv2).
  { rewrite <- Hk1. by apply voters_enrolled. }
  { rewrite <- Hk2. by apply voters_enrolled. }
  { rewrite size_dom. lia. }
  apply voters_elem in Hv1 as (a & Ha & _ & Hsa). apply voters_elem in Hv2 as (b & Hb & _ & Hsb).
  assert (a ∈ existing l2 slot node) as Ha2.
  { rewrite El2. unfold audit_run. rewrite foldl_app. cbn [foldl]. fold (audit_run (audit_new keys) ops1). fold l1.
    by apply existing_run_grows, existing_grows. }
  destruct (decide (content_digest a = content_digest b)) as [Ec|Ec].
  - destruct (content_binds a b (Htyped _ _ Ha2) (Htyped _ _ Hb) Ec); [congruence|]. right. by exists node, a, b.
  - left. destruct (conflict_on_record l2 slot node a b Hinv2 Ha2 Hb Ec) as (e & x & y & He & Hf & Hsl & Hx & Hsx & Hsy & Hxy).
    rewrite Hk2 in Hsx, Hsy. exists e, x, y. split_and!; try done. destruct Hxy as [[-> ->]|[-> ->]]; auto.
Qed.

(** ** Bonds *)

Definition total_bonds (b : BondLedger) : N := map_fold (fun _ bond acc => bond + acc) 0 (bl_bonds b).
Definition total_slashed (slashes : list Slash) : N := foldr (fun s acc => sl_amount s + acc) 0 slashes.

Lemma total_bonds_insert (m : gmap N N) node bond bond' : m !! node = Some bond ->
  map_fold (fun _ b acc => b + acc) 0 (<[node := bond']> m) + bond = map_fold (fun _ b acc => b + acc) 0 m + bond'.
Proof.
  intros Hm. assert (forall m : gmap N N, forall k v, m !! k = None ->
    map_fold (fun _ b acc => b + acc) 0 (<[k := v]> m) = v + map_fold (fun _ b acc => b + acc) 0 m) as Hi.
  { intros m' k v Hk. apply (map_fold_insert_L (fun _ (b acc : N) => b + acc)); [intros; lia | done]. }
  rewrite <- (insert_delete_id m node bond Hm) at 2. rewrite <- insert_delete_eq.
  rewrite !Hi by apply lookup_delete_eq. lia.
Qed.

Lemma total_slashed_app l l' : total_slashed (l ++ l') = total_slashed l + total_slashed l'.
Proof. unfold total_slashed. induction l as [|x l IH]; cbn in *; [lia|]. rewrite IH. lia. Qed.

(** One item of evidence: what it takes moves from the bonds to the slashes,
    within its penalty. *)
Lemma slash_one_spec b applied item b' applied' : slash_one (b, applied) item = (b', applied') ->
  bl_penalties b' = bl_penalties b
  /\ exists new, applied' = applied ++ new /\ bl_slashed b' = bl_slashed b ++ new
     /\ total_bonds b = total_bonds b' + total_slashed new
     /\ Forall (fun s => 0 < sl_amount s <= default 0 (bl_penalties b (sl_fault s)) /\ ev_fault item = sl_fault s
          /\ ev_node item = Z.of_N (sl_node s)
          /\ bl_bonds b !! sl_node s = Some (sl_remaining_bond s + sl_amount s)
          /\ bl_bonds b' !! sl_node s = Some (sl_remaining_bond s)) new.
Proof.
  unfold slash_one. assert (forall b, exists new : list Slash, applied = applied ++ new /\ bl_slashed b = bl_slashed b ++ new
     /\ total_bonds b = total_bonds b + total_slashed new /\ new = []) as Hnone.
  { intros b0. exists []. rewrite !app_nil_r. cbn. split_and!; try done. lia. }
  destruct (u32_of_i64 (ev_node item)) as [node|] eqn:Hn.
  2:{ intros [= <- <-]. split; [done|]. destruct (Hnone b) as (new & ? & ? & ? & ->). exists []. by split_and!. }
  destruct (bl_bonds b !! node) as [bond|] eqn:Hb.
  2:{ intros [= <- <-]. split; [done|]. destruct (Hnone b) as (new & ? & ? & ? & ->). exists []. by split_and!. }
  destruct (N.eqb_spec (N.min bond (default 0 (bl_penalties b (ev_fault item)))) 0) as [Hz|Hz].
  { intros [= <- <-]. split; [done|]. destruct (Hnone b) as (new & ? & ? & ? & ->). exists []. by split_and!. }
  intros [= <- <-]. split; [done|]. eexists [_]. split; [done|]. split; [done|].
  assert (ev_node item = Z.of_N node) as Hnode.
  { unfold u32_of_i64 in Hn. case_match eqn:E; [|done]. injection Hn as <-. apply andb_true_iff in E as [?%Z.leb_le _]. lia. }
  set (p := default 0 (bl_penalties b (ev_fault item))) in *. split.
  - unfold total_bonds, total_slashed. cbn. pose proof (total_bonds_insert (bl_bonds b) node bond (bond - N.min bond p) Hb). lia.
  - constructor; [|done]. cbn. fold p. split_and!; [lia|lia|done|done| |by rewrite lookup_insert_eq].
    rewrite Hb. f_equal. lia.
Qed.

(** Bonds are conserved and slashing is bounded: applying any evidence moves
    exactly what it slashes out of the bonds, records it, and takes for each
    item a positive amount of at most the fault's penalty from a node the
    evidence names. *)
Theorem slashing_conserves b evidence b' applied :
  apply_evidence b evidence = (b', applied) ->
  total_bonds b = total_bonds b' + total_slashed applied
  /\ bl_slashed b' = bl_slashed b ++ applied
  /\ Forall (fun s => 0 < sl_amount s <= default 0 (bl_penalties b (sl_fault s))
       /\ exists e, e ∈ evidence /\ ev_fault e = sl_fault s /\ ev_node e = Z.of_N (sl_node s)) applied.
Proof.
  unfold apply_evidence. assert (forall evidence st b' applied', foldl slash_one st evidence = (b', applied') ->
    bl_penalties b' = bl_penalties st.1 /\ exists new, applied' = st.2 ++ new /\ bl_slashed b' = bl_slashed st.1 ++ new
    /\ total_bonds st.1 = total_bonds b' + total_slashed new
    /\ Forall (fun s => 0 < sl_amount s <= default 0 (bl_penalties st.1 (sl_fault s))
       /\ exists e, e ∈ evidence /\ ev_fault e = sl_fault s /\ ev_node e = Z.of_N (sl_node s)) new) as Hall.
  { clear. induction evidence as [|item evidence IH]; intros [b applied] b' applied'; cbn [foldl].
    - intros [= <- <-]. split; [done|]. exists []. rewrite !app_nil_r. cbn. split_and!; try done. lia.
    - destruct (slash_one (b, applied) item) as [b1 applied1] eqn:E1. intros E2.
      apply slash_one_spec in E1 as (Hp1 & new1 & -> & Hs1 & Ht1 & Hf1).
      destruct (IH _ _ _ E2) as (Hp2 & new2 & -> & Hs2 & Ht2 & Hf2). cbn [fst snd] in *.
      split; [congruence|]. exists (new1 ++ new2). rewrite Hs2, Hs1, <- !app_assoc. split_and!; try done.
      + rewrite total_slashed_app. lia.
      + apply Forall_app. split.
        * eapply Forall_impl; [exact Hf1|]. cbn. intros s (Ha & Hfs & Hns & _). split; [done|]. exists item. split; [left|done].
        * rewrite Hp1 in Hf2. eapply Forall_impl; [exact Hf2|]. cbn. intros s (Ha & e & He & Hfs). split; [done|]. exists e. split; [by right|done]. }
  intros Ha. destruct (Hall _ _ _ _ Ha) as (_ & new & E & Hs & Ht & Hf). cbn in *. by subst.
Qed.

(** A forged receipt costs an honest node its bond: a receipt that does not
    verify, which anyone can make, is evidence against the node it names, and
    the bond ledger slashes that node for it. *)
Theorem forged_receipt_slashes l r arrived_at spec key bonds bond :
  al_specs l !! nr_slot r = Some spec -> al_node_keys l !! nr_node r = Some key -> receipt_verifies key r = false ->
  nr_node r <= U32_MAX -> bonds !! nr_node r = Some bond -> 0 < bond ->
  let found := (record l r arrived_at).2 in
  bl_bonds (apply_evidence (bonds_new bonds) found).1 !! nr_node r = Some (bond - N.min bond 250000).
Proof.
  intros Hs Hk Hv Hn Hb Hpos. unfold record. rewrite Hs, Hk, Hv. cbn [negb snd]. unfold apply_evidence, bonds_new. cbn [foldl slash_one].
  cbn [evidence_new ev_node ev_fault ev_slot bl_bonds bl_penalties bl_slashed default_penalties default].
  assert (u32_of_i64 (Z.of_N (nr_node r)) = Some (nr_node r)) as ->.
  { unfold u32_of_i64, U32_MAX in *. rewrite (proj2 (Z.leb_le _ _)), (proj2 (Z.leb_le _ _)) by lia. cbn. by rewrite N2Z.id. }
  rewrite Hb. unfold id. destruct (N.eqb_spec (N.min bond 250000) 0); [lia|]. cbn. by rewrite lookup_insert_eq.
Qed.
End AuditProofs.
