(* ===== verification/Mechanism.v ===== *)
(** * The distributed Laplace mechanism

    [qomm-audit/src/distributed_dp.rs]: the quantised distribution, its sampler,
    the privacy parameter a certificate carries, the generated MPC program with
    an interpreter of its text, and the budget.  [f64] is IEEE
    binary64 with round to nearest even ([SpecFloat]); [exp] and [powi], whose
    results the platform's math library decides, are an interface. *)

From stdpp Require Import pretty.
From Stdlib Require Import SpecFloat.
From S2P Require Import Prelude.
From S2P Require Import Interfaces.
From S2P Require Import Text.

Open Scope N_scope.

(** ** [f64] *)

Abbreviation f64 := spec_float.
Definition f64_of_N (n : N) : f64 := binary_normalize 53 1024 (Z.of_N n) 0 false.
Definition f64_zero : f64 := S754_zero false.
Definition f64_one : f64 := f64_of_N 1.
Definition f_add : f64 -> f64 -> f64 := SFadd 53 1024.
Definition f_sub : f64 -> f64 -> f64 := SFsub 53 1024.
Definition f_mul : f64 -> f64 -> f64 := SFmul 53 1024.
Definition f_div : f64 -> f64 -> f64 := SFdiv 53 1024.

(** [f64::max]: a NaN gives way to the other operand. *)
Definition f_max (a b : f64) : f64 :=
  match a, b with
  | S754_nan, b => b
  | a, S754_nan => a
  | a, b => if SFltb a b then b else a
  end.

(** The integer below ([floor]) and above ([ceil]) a finite value. *)
Definition f_floor (x : f64) : Z :=
  match x with
  | S754_finite s m e =>
      let m := cond_Zopp s (Zpos m) in if (0 <=? e)%Z then (m * 2 ^ e)%Z else (m / 2 ^ (- e))%Z
  | _ => 0%Z
  end.
Definition f_ceil (x : f64) : Z := (- f_floor (SFopp x))%Z.

(** [as u128] and [as u64] of a float with an integral value: saturating, and
    zero for a NaN. *)
Definition saturate (max : N) (x : f64) (integral : Z) : N :=
  match x with
  | S754_nan => 0
  | S754_infinity s => if s then 0 else max
  | _ => N.min max (Z.to_N integral)
  end.
Definition U128_MAX : N := 2 ^ 128 - 1.

(** [f64::exp], [f64::powi], and the [Display] and [LowerExp] of [f64] *)
Class Libm := {
  f_exp : f64 -> f64;
  f_powi : f64 -> Z -> f64;
  f_display : f64 -> string;
  f_lower_exp : f64 -> string
}.

(** ** The mechanism *)

Definition DP_DOMAIN : bytes := bstr "QOMM:DISTRIBUTED-DP:v1".
Definition U64_SPACE : N := 2 ^ 64.

Record DpMechanism := mkDpMechanism {
  dm_epsilon_micros : N;
  dm_sensitivity : N;
  dm_support : N;
  dm_version : string
}.

Definition mechanism_new (epsilon_micros sensitivity support : N) : result string DpMechanism :=
  if (epsilon_micros =? 0) || (sensitivity =? 0) then Err "epsilon and sensitivity must be positive"
  else if negb ((1 <=? support) && (support <=? 4096)) then Err "support must lie in 1..4096"
  else Ok (mkDpMechanism epsilon_micros sensitivity support "distributed-discrete-laplace-v1").

Definition rounding_delta (m : DpMechanism) : N * N :=
  let cells := 2 * dm_support m + 1 in (cells * cells + 1, 2 ^ 53).

Definition mechanism_digest `{Sha256} (m : DpMechanism) : bytes :=
  sha256 (DP_DOMAIN ++ bstr (dm_version m) ++ be_bytes 8 (dm_epsilon_micros m) ++ be_bytes 8 (dm_sensitivity m)
    ++ be_bytes 4 (dm_support m)).

Section Distribution.
Context `{Libm}.

(** [-support + 1 .. support], as magnitudes *)
Definition inner_values (support : N) : list Z :=
  (fun i => Z.abs (Z.of_nat i - (Z.of_N support - 1))) <$> seq 0 (2 * N.to_nat support - 1).

Definition probabilities (m : DpMechanism) : list f64 :=
  let epsilon := f_div (f64_of_N (dm_epsilon_micros m)) (f64_of_N 1000000) in
  let alpha := f_exp (f_div (SFopp epsilon) (f64_of_N (dm_sensitivity m))) in
  let normalizer := f_div (f_sub f64_one alpha) (f_add f64_one alpha) in
  let tail := f_div (f_mul normalizer (f_powi alpha (Z.of_N (dm_support m)))) (f_sub f64_one alpha) in
  [tail] ++ ((fun v => f_mul normalizer (f_powi alpha v)) <$> inner_values (dm_support m)) ++ [tail].

(** The loop over the cells; the last endpoint is the whole space. *)
Fixpoint threshold_loop (cumulative : f64) (probabilities : list f64) (endpoints : list N) : result string (list N) :=
  match probabilities with
  | [] => Ok endpoints
  | probability :: rest =>
      let cumulative := f_add cumulative probability in
      let endpoint := match rest with
        | [] => U64_SPACE
        | _ => let scaled := f_mul cumulative (f64_of_N U64_SPACE) in saturate U128_MAX scaled (f_floor scaled)
        end in
      if match last endpoints with Some previous => endpoint <=? previous | None => false end
      then Err "64-bit CDF has a zero-probability cell; lower support or epsilon"
      else threshold_loop cumulative rest (endpoints ++ [endpoint])
  end.

Definition thresholds (m : DpMechanism) : result string (list N) := threshold_loop f64_zero (probabilities m) [].

(** Differences of consecutive endpoints, from zero. *)
Fixpoint differences (previous : N) (endpoints : list N) : list N :=
  match endpoints with
  | [] => []
  | e :: endpoints => (e - previous) :: differences e endpoints
  end.

Definition released_cells (m : DpMechanism) : result string (list f64) :=
  endpoints ← thresholds m;
  Ok ((fun d => f_div (f64_of_N d) (f64_of_N U64_SPACE)) <$> differences 0 endpoints).

(** The divergence of the cells from themselves shifted by [direction]. *)
Definition divergence (cells : list f64) (ratio : f64) (direction : Z) : f64 :=
  foldl f_add f64_zero (imap (fun index probability =>
    let other := (Z.of_nat index - direction)%Z in
    let neighbour := if ((0 <=? other) && (other <? Z.of_nat (length cells)))%Z
      then nth (Z.to_nat other) cells f64_zero else f64_zero in
    let scaled := if SFeqb neighbour f64_zero then f64_zero else f_mul ratio neighbour in
    f_max (f_sub probability scaled) f64_zero) cells).

Definition privacy_delta (m : DpMechanism) : result string f64 :=
  cells ← released_cells m;
  let epsilon := f_div (f64_of_N (dm_epsilon_micros m)) (f64_of_N 1000000) in
  let ratio := f_exp epsilon in
  let sensitivity := N.min (dm_sensitivity m) (U64_MAX / 2) in
  Ok (foldl (fun worst shift =>
        let worst := f_max worst (divergence cells ratio (Z.of_nat shift)) in
        f_max worst (divergence cells ratio (- Z.of_nat shift)))
      f64_zero (seq 1 (N.to_nat sensitivity))).

Definition is_finite (x : f64) : bool := match x with S754_zero _ | S754_finite _ _ _ => true | _ => false end.

Definition certificate_delta (m : DpMechanism) : result string (N * N) :=
  delta ← privacy_delta m;
  let denominator := 2 ^ 53 in
  let scaled := f_mul delta (f64_of_N denominator) in
  let numerator := f_ceil scaled in
  if negb (is_finite scaled) || (numerator <? 0)%Z then Err ("delta is not a probability: " +:+ f_display delta)
  else if (Z.of_N denominator <=? numerator)%Z
  then Err ("delta " +:+ f_display delta +:+ " leaves no guarantee to certify: support " +:+ pretty (dm_support m)
    +:+ " is too narrow for sensitivity " +:+ pretty (dm_sensitivity m) +:+ " at this epsilon")
  else Ok (Z.to_N numerator, denominator).

(** [partition_point]: how many leading elements satisfy the predicate. *)
Fixpoint partition_point (p : N -> bool) (l : list N) : nat :=
  match l with
  | [] => 0
  | x :: l => if p x then S (partition_point p l) else 0
  end.

Definition sample_u64 (m : DpMechanism) (uniform : N) : result string Z :=
  endpoints ← thresholds m;
  let index := partition_point (fun endpoint => endpoint <=? uniform) endpoints in
  Ok (- Z.of_N (dm_support m) + Z.of_nat index)%Z.

(** ** The generated program *)

Definition newline : string := String "010"%char EmptyString.
Definition is_label_start (c : ascii) : bool :=
  let n := N_of_ascii c in (n =? 95) || ((65 <=? n) && (n <=? 90)) || ((97 <=? n) && (n <=? 122)).
Definition is_label_char (c : ascii) : bool :=
  let n := N_of_ascii c in is_label_start c || ((48 <=? n) && (n <=? 57)).

Fixpoint join_with (sep : string) (l : list string) : string :=
  match l with
  | [] => ""
  | [s] => s
  | s :: l => s +:+ sep +:+ join_with sep l
  end.

Definition mp_spdz_source (m : DpMechanism) (n_parties : nat) (budget_total_micros budget_spent_micros : N) (label : string) :
    result string string :=
  if (n_parties <? 3)%nat then Err "distributed publication requires at least three nodes"
  else
    after ← ok_or (checked_add budget_spent_micros (dm_epsilon_micros m)) "the requested release exceeds its privacy budget";
    if budget_total_micros <? after then Err "the requested release exceeds its privacy budget"
    else if match label with EmptyString => true | String c _ => negb (is_label_start c) end || negb (string_all is_label_char label)
    then Err "output label must be an ASCII identifier"
    else
      endpoints ← thresholds m;
      let comparisons := join_with " + "
        ((fun t => "u.__ge__(" +:+ pretty t +:+ ")") <$> take (length endpoints - 1) endpoints) in
      Ok (join_with newline [
        "# generated by qomm_audit.distributed_dp; do not edit";
        "from Compiler.types import sint";
        "N_PARTIES = " +:+ pretty n_parties;
        "EPSILON_MICROS = " +:+ pretty (dm_epsilon_micros m);
        "BUDGET_BEFORE_MICROS = " +:+ pretty budget_spent_micros;
        "BUDGET_AFTER_MICROS = " +:+ pretty after;
        "exact = sum(sint.get_input_from(p) for p in range(N_PARTIES))";
        "random_bits = [sint.get_random_bit() for _ in range(64)]";
        "u = sum(random_bits[j] * (1 << j) for j in range(64))";
        "noise = -" +:+ pretty (dm_support m) +:+ " + (" +:+ comparisons +:+ ")";
        label +:+ " = exact + noise";
        "print_ln('%s', " +:+ label +:+ ".reveal())";
        ""]).
End Distribution.

(** ** Budgets *)

Record BudgetState := mkBudgetState { bs_total_micros : N; bs_spent_micros : N }.

Definition budget_spend (b : BudgetState) (m : DpMechanism) : result string BudgetState :=
  spent ← ok_or (checked_add (bs_spent_micros b) (dm_epsilon_micros m)) "privacy budget exhausted";
  if bs_total_micros b <? spent then Err "privacy budget exhausted"
  else Ok (mkBudgetState (bs_total_micros b) spent).

(** ** The released law *)

Section Law.
Context `{HL : Libm}.

Definition increasing (l : list N) : Prop := forall i a b, l !! i = Some a -> l !! S i = Some b -> a < b.

Lemma threshold_loop_length cumulative probabilities endpoints es :
  threshold_loop cumulative probabilities endpoints = Ok es -> length es = (length endpoints + length probabilities)%nat.
Proof.
  revert cumulative endpoints; induction probabilities as [|p ps IH]; simpl; intros c acc Hok; [naive_solver lia|].
  case_match; [discriminate|]. apply IH in Hok. rewrite length_app in Hok. simpl in Hok. lia.
Qed.

Lemma increasing_snoc l x : increasing l -> (forall y, last l = Some y -> y < x) -> increasing (l ++ [x]).
Proof.
  intros Hl Hx i a b Ha Hb. rewrite lookup_app in Ha, Hb.
  destruct (l !! i) as [a'|] eqn:Ei, (l !! S i) as [b'|] eqn:Es; simplify_eq; [by eapply Hl|..].
  - apply lookup_ge_None_1 in Es. pose proof (lookup_lt_Some _ _ _ Ei).
    assert (S i = length l) as Hi by lia. rewrite Hi, Nat.sub_diag in Hb. simplify_eq/=.
    apply Hx. rewrite last_lookup. by rewrite <- Hi.
  - apply lookup_ge_None_1 in Ei. pose proof (lookup_lt_Some _ _ _ Es). lia.
  - apply lookup_ge_None_1 in Ei.
    replace (S i - length l)%nat with (S (i - length l)) in Hb by lia. done.
Qed.

Lemma threshold_loop_increasing cumulative probabilities endpoints es :
  threshold_loop cumulative probabilities endpoints = Ok es -> increasing endpoints -> increasing es.
Proof.
  revert cumulative endpoints; induction probabilities as [|p ps IH]; simpl; intros c acc Hok Hacc; [naive_solver|].
  case_match eqn:Hlast; [discriminate|]. eapply IH; [done|].
  apply increasing_snoc; [done|]. intros y Hy. rewrite Hy in Hlast. by apply N.leb_gt in Hlast.
Qed.

Lemma threshold_loop_last cumulative probabilities endpoints es :
  threshold_loop cumulative probabilities endpoints = Ok es -> probabilities <> [] -> last es = Some U64_SPACE.
Proof.
  revert cumulative endpoints; induction probabilities as [|p ps IH]; simpl; intros c acc Hok Hne; [done|].
  case_match; [discriminate|]. destruct ps as [|q ps]; [|by eapply IH]. simplify_eq/=. by rewrite last_snoc.
Qed.

Lemma probabilities_length m : 1 <= dm_support m -> length (probabilities m) = (2 * N.to_nat (dm_support m) + 1)%nat.
Proof.
  intros Hs. unfold probabilities. cbn [app length]. rewrite length_app, length_fmap.
  unfold inner_values. rewrite length_fmap, length_seq. simpl. lia.
Qed.

(** An increasing list is split at every bound. *)
Lemma increasing_mono l i j a b : increasing l -> (i < j)%nat -> l !! i = Some a -> l !! j = Some b -> a < b.
Proof.
  intros Hl Hij. revert b. induction Hij as [|j Hij IH]; intros b Ha Hb; [by eapply Hl|].
  destruct (l !! j) as [c|] eqn:Hj; [|apply lookup_ge_None_1 in Hj; pose proof (lookup_lt_Some _ _ _ Hb); lia].
  pose proof (IH c Ha eq_refl). pose proof (Hl _ _ _ Hj Hb). lia.
Qed.

Lemma increasing_cons x l : increasing (x :: l) -> increasing l.
Proof. intros Hl i a b Ha Hb. by apply (Hl (S i)). Qed.

(** Where the sampler's cell starts and ends. *)
Lemma partition_point_cell p l i :
  partition_point p l = i ->
  (forall j a, (j < i)%nat -> l !! j = Some a -> p a = true) /\ (forall a, l !! i = Some a -> p a = false).
Proof.
  revert i; induction l as [|x l IH]; simpl; intros i <-; [split; [lia|done]|].
  destruct (p x) eqn:Hp; [|split; [lia|naive_solver]].
  destruct (IH _ eq_refl) as [Hb Ha]. split; [|done]. intros [|j] a Hj Hl; simplify_eq/=; [done|]. by apply (Hb j); [lia|].
Qed.

Lemma partition_point_at p l i :
  (i < length l)%nat -> (forall j a, (j < i)%nat -> l !! j = Some a -> p a = true) -> (forall a, l !! i = Some a -> p a = false) ->
  partition_point p l = i.
Proof.
  revert i; induction l as [|x l IH]; simpl; intros i Hi Hb Ha; [lia|]. destruct i as [|i].
  - by rewrite (Ha x eq_refl).
  - rewrite (Hb 0%nat x) by (lia || done). f_equal. apply IH; [lia|..]; [|naive_solver].
    intros j a Hj Hl. by apply (Hb (S j)); [lia|].
Qed.

(** The cell an endpoint list gives a bound, as the interval between endpoints. *)
Definition cell_start (es : list N) (i : nat) : N := match i with O => 0 | S j => nth j es 0 end.

Lemma partition_point_interval es i e u :
  increasing es -> es !! i = Some e ->
  partition_point (fun endpoint => endpoint <=? u) es = i <-> cell_start es i <= u < e.
Proof.
  intros Hes He. split.
  - intros Hp. destruct (partition_point_cell _ _ _ Hp) as [Hb Ha]. split; [|by apply N.leb_gt, Ha].
    destruct i as [|i]; simpl; [lia|].
    destruct (es !! i) as [a|] eqn:Hi; [|apply lookup_ge_None_1 in Hi; pose proof (lookup_lt_Some _ _ _ He); lia].
    rewrite (nth_lookup_Some _ _ _ _ Hi). apply N.leb_le. by apply (Hb i); [lia|].
  - intros [Hlo Hhi]. apply partition_point_at.
    + by eapply lookup_lt_Some.
    + intros j a Hj Hl. apply N.leb_le. destruct i as [|i]; [lia|]. simpl in Hlo.
      destruct (es !! i) as [c|] eqn:Hi; [|apply lookup_ge_None_1 in Hi; pose proof (lookup_lt_Some _ _ _ He); lia].
      rewrite (nth_lookup_Some _ _ _ _ Hi) in Hlo. destruct (decide (j = i)) as [->|]; [simplify_eq; lia|].
      pose proof (increasing_mono es j i a c Hes ltac:(lia) Hl Hi). lia.
    + intros a Ha. simplify_eq. apply N.leb_gt. lia.
Qed.

Lemma differences_lookup p es i e :
  es !! i = Some e -> differences p es !! i = Some (e - match i with O => p | S j => nth j es 0 end).
Proof.
  revert p i; induction es as [|x es IH]; intros p [|i] Hi; simplify_eq/=; [done|].
  rewrite (IH x i Hi). destruct i; done.
Qed.

Lemma partition_point_count p l : increasing l -> (forall a b, a < b -> p b = true -> p a = true) ->
  length (filter (fun x => p x = true) l) = partition_point p l.
Proof.
  intros Hl Hp. induction l as [|x l IH]; [done|]. simpl. rewrite filter_cons.
  pose proof (IH (increasing_cons _ _ Hl)) as IH'.
  destruct (p x) eqn:Hx; simpl; [by rewrite IH'|]. rewrite IH'.
  destruct l as [|y l]; [done|]. simpl. destruct (p y) eqn:Hy; [|done].
  rewrite (Hp x y) in Hx; [done| |done]. by apply (Hl 0%nat).
Qed.

(** Every mechanism the constructor accepts and whose quantised distribution
    exists: one endpoint per value from -support to support, the last one 2^64. *)
Lemma thresholds_shape epsilon sensitivity support m es :
  mechanism_new epsilon sensitivity support = Ok m -> thresholds m = Ok es ->
  dm_support m = support /\ length es = (2 * N.to_nat support + 1)%nat /\ increasing es /\ last es = Some U64_SPACE.
Proof.
  unfold mechanism_new, thresholds. intros Hm Hes. repeat (case_match; [discriminate|]). simplify_eq.
  apply negb_false_iff, andb_true_iff in H0 as [Hs _]. apply N.leb_le in Hs.
  pose proof (threshold_loop_length _ _ _ _ Hes) as Hlen. rewrite probabilities_length in Hlen by done.
  split; [done|]. split; [done|]. split.
  - eapply threshold_loop_increasing; [done|]. by intros [].
  - by eapply threshold_loop_last.
Qed.

(** ** What the generated program computes *)

(** The sum of the comparisons [u.__ge__(t)] in a text, up to its closing
    bracket. *)
Fixpoint comparisons_value (fuel : nat) (u : N) (l : chars) : option nat :=
  match fuel with
  | O => None
  | S fuel =>
      l ← strip_prefix (to_chars "u.__ge__(") l;
      '(t, l) ← read_number l;
      l ← strip_prefix (to_chars ")") l;
      let bit := if t <=? u then 1%nat else 0%nat in
      if bool_decide (l = to_chars ")") then Some bit
      else l ← strip_prefix (to_chars " + ") l; rest ← comparisons_value fuel u l; Some (bit + rest)%nat
  end.

(** The value a line [noise = -s + (...)] assigns for a draw. *)
Definition noise_value (u : N) (l : chars) : option Z :=
  l ← strip_prefix (to_chars "noise = -") l;
  '(support, l) ← read_number l;
  l ← strip_prefix (to_chars " + (") l;
  sum ← comparisons_value (length l) u l;
  Some (- Z.of_N support + Z.of_nat sum)%Z.

(** The number a line assigns to a constant. *)
Definition constant_value (prefix : string) (l : chars) : option N :=
  l ← strip_prefix (to_chars prefix) l;
  '(n, l) ← read_number l;
  if bool_decide (l = []) then Some n else None.

(** Names that can not be assigned, or that the last line still has to call. *)
Definition reserved : list string :=
  ["print_ln"; "False"; "None"; "True"; "and"; "as"; "assert"; "async"; "await"; "break"; "class"; "continue"; "def"; "del"; "elif"; "else";
   "except"; "finally"; "for"; "from"; "global"; "if"; "import"; "in"; "is"; "lambda"; "nonlocal"; "not"; "or"; "pass"; "raise"; "return";
   "try"; "while"; "with"; "yield"; "__debug__"].

(** A number written by bits, the lowest first. *)
Fixpoint bits_value (bits : list bool) : N := match bits with [] => 0 | b :: bits => N.b2n b + 2 * bits_value bits end.

Definition keep (b : bool) : option unit := if b then Some tt else None.
Definition is_line (s : string) (l : chars) : option unit := keep (bool_decide (l = to_chars s)).

(** What the program reveals, read line by line as MP-SPDZ would: given the
    parties' inputs and 64 random bits, the sum of the inputs plus the noise. *)
Definition run_source (source : string) (inputs : list Z) (random_bits : list bool) : option Z :=
  match lines (to_chars source) with
  | [l1; l2; l3; l4; l5; l6; l7; l8; l9; l10; l11; l12] =>
      _ ← strip_prefix (to_chars "#") l1;
      _ ← is_line "from Compiler.types import sint" l2;
      parties ← constant_value "N_PARTIES = " l3;
      _ ← constant_value "EPSILON_MICROS = " l4;
      _ ← constant_value "BUDGET_BEFORE_MICROS = " l5;
      _ ← constant_value "BUDGET_AFTER_MICROS = " l6;
      _ ← is_line "exact = sum(sint.get_input_from(p) for p in range(N_PARTIES))" l7;
      _ ← keep (N.of_nat (length inputs) =? parties);
      let exact := foldr Z.add 0%Z inputs in
      _ ← is_line "random_bits = [sint.get_random_bit() for _ in range(64)]" l8;
      _ ← keep (length random_bits =? 64)%nat;
      _ ← is_line "u = sum(random_bits[j] * (1 << j) for j in range(64))" l9;
      noise ← noise_value (bits_value random_bits) l10;
      let '(label, rest) := span is_label_char l11 in
      _ ← is_line " = exact + noise" rest;
      _ ← keep (match label with [] => false | c :: _ => is_label_start c end && negb (bool_decide (of_chars label ∈ reserved)));
      _ ← is_line ("print_ln('%s', " +:+ of_chars label +:+ ".reveal())") l12;
      Some (exact + noise)%Z
  | _ => None
  end.

Lemma bits_value_bound bits : bits_value bits < 2 ^ N.of_nat (length bits).
Proof.
  induction bits as [|b bits IH]; [done|]. cbn [bits_value length]. rewrite Nat2N.inj_succ, N.pow_succ_r'. destruct b; cbn [N.b2n]; lia.
Qed.

Lemma comparisons_ok u t ts : forall fuel, (length ts < fuel)%nat ->
  comparisons_value fuel u (to_chars (join_with " + " ((fun t => "u.__ge__(" +:+ pretty t +:+ ")") <$> t :: ts) +:+ ")"))
  = Some (length (filter (fun t => (t <=? u) = true) (t :: ts))).
Proof.
  revert t. induction ts as [|t' ts IH]; intros t fuel Hf; (destruct fuel as [|fuel]; [lia|]).
  - cbn [fmap list_fmap join_with comparisons_value]. rewrite !to_chars_app, <- !app_assoc, strip_prefix_app. cbn [mbind option_bind].
    rewrite read_number_pretty by done. cbn [mbind option_bind]. rewrite strip_prefix_app. cbn [mbind option_bind].
    rewrite bool_decide_eq_true_2 by done. rewrite filter_cons, filter_nil. by destruct (t <=? u).
  - rewrite !fmap_cons. change (join_with " + " (?a :: ?b :: ?l)) with (a +:+ " + " +:+ join_with " + " (b :: l)).
    cbn [comparisons_value]. rewrite !to_chars_app, <- !app_assoc, strip_prefix_app. cbn [mbind option_bind].
    rewrite read_number_pretty by done. cbn [mbind option_bind]. rewrite strip_prefix_app. cbn [mbind option_bind].
    rewrite bool_decide_eq_false_2 by done. rewrite strip_prefix_app. cbn [mbind option_bind]. rewrite <- to_chars_app.
    pose proof (IH t' fuel ltac:(cbn in Hf; lia)) as IH'. rewrite fmap_cons in IH'. rewrite IH'. cbn [mbind option_bind]. rewrite (filter_cons _ t). by destruct (t <=? u).
Qed.

(** The index the comparisons count is the sampler's. *)
Lemma comparisons_index es u :
  increasing es -> last es = Some U64_SPACE -> u < U64_SPACE ->
  length (filter (fun threshold => (threshold <=? u) = true) (take (length es - 1) es)) = partition_point (fun endpoint => endpoint <=? u) es.
Proof.
  intros Hes Hlast Hu. rewrite <- partition_point_count; [|done|].
  2:{ intros a b Hab. rewrite !N.leb_le. lia. }
  apply last_Some in Hlast as [l ->].
  rewrite length_app. simpl. replace (length l + 1 - 1)%nat with (length l) by lia. rewrite take_app_length, filter_app.
  rewrite filter_cons, decide_False; [by rewrite filter_nil, app_nil_r|]. rewrite N.leb_le. lia.
Qed.

Lemma lines_joined ls : Forall (fun s => unbroken (to_chars s) = true) ls ->
  lines (to_chars (join_with newline (ls ++ [EmptyString]))) = to_chars <$> ls.
Proof.
  induction ls as [|s ls IH]; intros Hl; [done|]. apply Forall_cons in Hl as [Hs Hl].
  assert (join_with newline ((s :: ls) ++ [EmptyString]) = s +:+ newline +:+ join_with newline (ls ++ [EmptyString])) as -> by (by destruct ls).
  rewrite !to_chars_app. change (to_chars newline ++ ?x) with ("010"%char :: x). rewrite lines_cons by done. by rewrite IH.
Qed.

Lemma unbroken_app a b : unbroken (a ++ b) = unbroken a && unbroken b.
Proof. apply forallb_app. Qed.

Lemma pretty_unbroken (x : N) : unbroken (to_chars (pretty x)) = true.
Proof. apply digits_unbroken, pretty_digits. Qed.

Lemma label_chars label : string_all is_label_char label = true -> forallb is_label_char (to_chars label) = true.
Proof. induction label as [|c label IH]; [done|]. cbn. rewrite !andb_true_iff. intros [Hc Hl]. split; [done|by apply IH]. Qed.

Lemma label_unbroken label : forallb is_label_char label = true -> unbroken label = true.
Proof.
  unfold unbroken. induction label as [|c l IH]; [done|]. cbn [forallb]. rewrite !andb_true_iff. intros [Hc Hl]. split; [|by apply IH].
  by destruct c as [[] [] [] [] [] [] [] []].
Qed.

Lemma constant_ok prefix (x : N) : constant_value prefix (to_chars (prefix +:+ pretty x)) = Some x.
Proof.
  unfold constant_value. rewrite to_chars_app, strip_prefix_app. cbn [mbind option_bind].
  rewrite <- (app_nil_r (to_chars (pretty x))), read_number_pretty by done. cbn [mbind option_bind]. by rewrite bool_decide_eq_true_2.
Qed.

Lemma is_line_ok s : is_line s (to_chars s) = Some tt.
Proof. unfold is_line. by rewrite bool_decide_eq_true_2. Qed.

Lemma comparisons_unbroken ts : unbroken (to_chars (join_with " + " ((fun t : N => "u.__ge__(" +:+ pretty t +:+ ")") <$> ts))) = true.
Proof.
  induction ts as [|t ts IH]; [done|]. rewrite fmap_cons. destruct ts as [|t' ts].
  - cbn [fmap list_fmap join_with]. rewrite !to_chars_app, !unbroken_app, pretty_unbroken. done.
  - rewrite fmap_cons in IH |- *. change (join_with " + " (?a :: ?b :: ?l)) with (a +:+ " + " +:+ join_with " + " (b :: l)).
    rewrite !to_chars_app, !unbroken_app, pretty_unbroken, IH. done.
Qed.

Lemma noise_ok support t ts u :
  noise_value u (to_chars ("noise = -" +:+ pretty support +:+ " + ("
    +:+ join_with " + " ((fun t : N => "u.__ge__(" +:+ pretty t +:+ ")") <$> t :: ts) +:+ ")"))
  = Some (- Z.of_N support + Z.of_nat (length (filter (fun t => (t <=? u)%N = true) (t :: ts))))%Z.
Proof.
  unfold noise_value. rewrite to_chars_app, strip_prefix_app. cbn [mbind option_bind]. rewrite to_chars_app.
  rewrite read_number_pretty by (by rewrite to_chars_app). cbn [mbind option_bind]. rewrite to_chars_app, strip_prefix_app. cbn [mbind option_bind].
  rewrite comparisons_ok; [done|]. rewrite to_chars_app, length_app. change (length (to_chars ")")) with 1%nat.
  enough (length ts <= length (to_chars (join_with " + " ((fun t : N => "u.__ge__(" +:+ pretty t +:+ ")") <$> t :: ts))))%nat by lia.
  revert t. induction ts as [|t' ts IH]; intros t; [apply Nat.le_0_l|]. rewrite !fmap_cons. specialize (IH t'). rewrite fmap_cons in IH.
  change (join_with " + " (?a :: ?b :: ?l)) with (a +:+ " + " +:+ join_with " + " (b :: l)). rewrite !to_chars_app, !length_app.
  change (length (to_chars " + ")) with 3%nat. cbn [length]. lia.
Qed.

(** The program that the generator emits reveals the sum of the inputs plus the
    support subtracted from the number of thresholds the draw reaches. *)
Lemma source_reveals m n total spent label source inputs bits es :
  thresholds m = Ok es -> (2 <= length es)%nat -> mp_spdz_source m n total spent label = Ok source -> label ∉ reserved ->
  length inputs = n -> length bits = 64%nat ->
  run_source source inputs bits = Some (foldr Z.add 0 inputs + (- Z.of_N (dm_support m)
    + Z.of_nat (length (filter (fun t => (t <=? bits_value bits)%N = true) (take (length es - 1) es)))))%Z.
Proof.
  intros Hes Hlen Hs Hres Hn Hb. unfold mp_spdz_source in Hs. apply if_err_ok in Hs as [_ Hs]. apply bind_ok in Hs as (after & _ & Hs).
  apply if_err_ok in Hs as [_ Hs]. apply if_err_ok in Hs as [Hlab Hs]. apply orb_false_iff in Hlab as [Hstart Hlab].
  apply negb_false_iff, label_chars in Hlab. rewrite Hes in Hs. cbn [mbind result_bind] in Hs. apply Ok_inj in Hs as <-.
  destruct es as [|e0 [|e1 es]]; [cbn in Hlen; lia..|]. set (ts := take (length (e0 :: e1 :: es) - 1) (e0 :: e1 :: es)).
  assert (ts = e0 :: take (length es) (e1 :: es)) as Hts by (unfold ts; cbn [length]; by replace (S (S (length es)) - 1)%nat with (S (length es)) by lia).
  unfold run_source.
  match goal with |- context [join_with newline ?ls] => change ls with (take 12 ls ++ [EmptyString]) end. cbn [take].
  rewrite lines_joined.
  2:{ repeat (apply Forall_cons; split); [..|by apply Forall_nil]; rewrite ?to_chars_app, ?unbroken_app, ?pretty_unbroken, ?comparisons_unbroken, ?(label_unbroken _ Hlab); try reflexivity.
      change (pretty n) with (pretty (N.of_nat n)). by rewrite pretty_unbroken. }
  cbn [fmap list_fmap]. change (pretty n) with (pretty (N.of_nat n)). rewrite !constant_ok, !is_line_ok.
  assert (strip_prefix (to_chars "#") (to_chars "# generated by qomm_audit.distributed_dp; do not edit")
    = Some (to_chars " generated by qomm_audit.distributed_dp; do not edit")) as -> by reflexivity.
  cbn [mbind option_bind]. rewrite Hn, N.eqb_refl, Hb. cbn [keep Nat.eqb mbind option_bind].
  rewrite Hts, noise_ok. cbn [mbind option_bind]. rewrite to_chars_app, span_stop by done. rewrite is_line_ok. cbn [mbind option_bind].
  assert (of_chars (to_chars label) = label) as -> by apply String.string_of_list_ascii_of_string.
  rewrite bool_decide_eq_false_2 by done. destruct label as [|c label]; [done|]. apply negb_false_iff in Hstart. cbn [to_chars String.list_ascii_of_string].
  rewrite Hstart. cbn [andb negb keep mbind option_bind]. by rewrite is_line_ok.
Qed.

(** C21: the sampler's law is the quantised distribution, and the generated
    program follows it.  For a mechanism the constructor accepts and whose 64-bit
    CDF exists, there is one cell per value from -support to support; a 64-bit
    draw gives the value of cell i exactly when it lies between the endpoints of
    that cell, so that the number of draws giving it is the difference
    [released_cells] divides by 2^64; every draw gives a value in range; and the
    text of the MPC program that the generator emits, read line by line, reveals
    for the parties' inputs and 64 random bits the sum of the inputs plus the
    sampler's value for the draw these bits write, unless its output label is a
    Python keyword or [print_ln]. *)
Theorem sampler_follows_the_law epsilon sensitivity support m es :
  mechanism_new epsilon sensitivity support = Ok m -> thresholds m = Ok es ->
  length es = (2 * N.to_nat support + 1)%nat /\
  (forall i e, es !! i = Some e ->
     differences 0 es !! i = Some (e - cell_start es i) /\
     forall u, u < U64_SPACE ->
       sample_u64 m u = Ok (- Z.of_N support + Z.of_nat i)%Z <-> cell_start es i <= u < e) /\
  (forall u, u < U64_SPACE ->
     exists value, sample_u64 m u = Ok value /\ (- Z.of_N support <= value <= Z.of_N support)%Z) /\
  (forall n_parties total spent label source inputs bits,
     mp_spdz_source m n_parties total spent label = Ok source -> label ∉ reserved ->
     length inputs = n_parties -> length bits = 64%nat ->
     exists value, sample_u64 m (bits_value bits) = Ok value /\ run_source source inputs bits = Some (foldr Z.add 0 inputs + value)%Z).
Proof.
  intros Hm Hes. destruct (thresholds_shape _ _ _ _ _ Hm Hes) as (Hs & Hlen & Hinc & Hlast).
  assert (1 <= support) as Hpos.
  { unfold mechanism_new in Hm. apply if_err_ok in Hm as [_ Hm]. apply if_err_ok in Hm as [Hm _]. apply negb_false_iff, andb_true_iff in Hm as [Hm _].
    by apply N.leb_le in Hm. }
  split; [done|]. split; [|split].
  - intros i e He. split; [by rewrite (differences_lookup _ _ _ _ He)|]. intros u Hu.
    unfold sample_u64. rewrite Hes. simpl. rewrite Hs, <- (partition_point_interval es i e u Hinc He).
    split; [|by intros ->]. intros [= Hi]. lia.
  - intros u Hu. unfold sample_u64. rewrite Hes. simpl. eexists. split; [done|]. rewrite Hs.
    rewrite <- (comparisons_index es u Hinc Hlast Hu).
    pose proof (length_filter (fun threshold => (threshold <=? u) = true) (take (length es - 1) es)) as Hf.
    rewrite length_take in Hf. lia.
  - intros n_parties total spent label source inputs bits Hsrc Hres Hn Hb. pose proof (bits_value_bound bits) as Hu. rewrite Hb in Hu.
    unfold sample_u64. rewrite Hes. simpl. eexists. split; [done|].
    rewrite (source_reveals _ _ _ _ _ _ _ _ es Hes) with (2 := Hsrc) by (done || lia).
    rewrite comparisons_index; [done|done|done|]. exact Hu.
Qed.
End Law.

(** The check for a zero-probability cell compares each endpoint with the
    one before it and so never looks at the first cell: with epsilon 25,
    sensitivity 1 and support 2, on any platform whose [exp] rounds correctly at
    -25, the distribution is accepted although its first endpoint is 0, and no
    draw ever gives -2 while 2048 draws give 2. *)
Theorem first_cell_unchecked `{Libm} :
  f_exp (SFopp (f64_of_N 25)) = S754_finite false 8596220886893358 (-89) ->
  (forall x, f_powi x 0 = f64_one) -> (forall x, f_powi x 1 = x) -> (forall x, f_powi x 2 = f_mul x x) ->
  exists m, mechanism_new 25000000 1 2 = Ok m /\
    thresholds m = Ok [0; 256187346; 18446744073453363200; 18446744073709549568; U64_SPACE] /\
    forall u, sample_u64 m u <> Ok (-2)%Z.
Proof.
  intros Hexp H0 H1 H2. exists (mkDpMechanism 25000000 1 2 "distributed-discrete-laplace-v1"). split; [reflexivity|].
  assert (thresholds (mkDpMechanism 25000000 1 2 "distributed-discrete-laplace-v1") =
    Ok [0; 256187346; 18446744073453363200; 18446744073709549568; U64_SPACE]) as Ht.
  { unfold thresholds, probabilities. cbn [dm_epsilon_micros dm_sensitivity dm_support].
    replace (f_div (SFopp (f_div (f64_of_N 25000000) (f64_of_N 1000000))) (f64_of_N 1)) with (SFopp (f64_of_N 25))
      by (vm_compute; reflexivity).
    rewrite Hexp. replace (inner_values 2) with [1; 0; 1]%Z by reflexivity.
    cbn [fmap list_fmap app]. rewrite H0, H1. change (Z.of_N 2) with 2%Z. rewrite H2. vm_compute. reflexivity. }
  split; [done|]. intros u. unfold sample_u64. rewrite Ht. cbn -[N.leb Z.of_nat Z.add].
  replace (0 <=? u) with true by (by destruct u). intros Hv. injection Hv as Hv. lia.
Qed.

(** ** A run *)

Module MechanismRun.
(** A platform whose [exp] is right at the one negative point the run evaluates,
    and gives the reciprocal elsewhere. *)
Fixpoint powi (x : f64) (n : nat) : f64 := match n with O => f64_one | 1%nat => x | S n => f_mul x (powi x n) end.
Instance run_libm : Libm :=
  { f_exp x := let alpha := S754_finite false 8596220886893358 (-89) in
      if SFltb x f64_zero then alpha else f_div f64_one alpha; f_powi x n := powi x (Z.to_nat n); f_display _ := EmptyString; f_lower_exp _ := EmptyString }.

Lemma first_cell_unchecked_witness :
  exists m, mechanism_new 25000000 1 2 = Ok m /\
    thresholds m = Ok [0; 256187346; 18446744073453363200; 18446744073709549568; U64_SPACE] /\
    forall u, sample_u64 m u <> Ok (-2)%Z.
Proof. apply first_cell_unchecked; intros; reflexivity. Defined.

Definition run_mechanism : DpMechanism := mkDpMechanism 25000000 1 2 "distributed-discrete-laplace-v1".
Definition run_cells : list N := [0; 256187346; 18446744073453363200; 18446744073709549568; U64_SPACE].
Lemma run_thresholds : thresholds run_mechanism = Ok run_cells.
Proof. vm_compute. reflexivity. Qed.
Definition run_program : string := match mp_spdz_source run_mechanism 3 50000000 0 "released" with Ok source => source | Err e => e end.
Definition run_bits : list bool := replicate 30 false ++ [true] ++ replicate 33 false.

Lemma sampler_follows_the_law_witness :
  length run_cells = 5%nat /\
  (forall u, u < U64_SPACE -> exists value, sample_u64 run_mechanism u = Ok value /\ (-2 <= value <= 2)%Z) /\
  exists value, sample_u64 run_mechanism (2 ^ 30) = Ok value /\ run_source run_program [5; 6; 7]%Z run_bits = Some (18 + value)%Z.
Proof.
  destruct (sampler_follows_the_law 25000000 1 2 _ _ eq_refl run_thresholds) as (Hlen & _ & Hs & Hp). split; [exact Hlen|]. split; [exact Hs|].
  apply (Hp 3%nat 50000000 0 "released" run_program [5; 6; 7]%Z run_bits); [|apply (bool_decide_unpack _); vm_compute; exact I|reflexivity..].
  vm_compute. reflexivity.
Defined.

(** The generator accepts a label that its own last line has to call. *)
Example reserved_label_accepted :
  is_ok (mp_spdz_source run_mechanism 3 50000000 0 "print_ln") = true /\ is_ok (mp_spdz_source run_mechanism 3 50000000 0 "if") = true.
Proof. vm_compute. split; reflexivity. Qed.
End MechanismRun.
