(* ===== verification/PublicationLedger.v ===== *)
(** * The publication ledger

    [qomm-audit/src/publication_ledger.rs]: budgets approved by governance, the
    publications that debit them, and the file they are committed to.  The lock
    makes a call one step; the operating system's part in it is an argument, as
    in the outbox store. *)

From Stdlib Require Import SpecFloat.
From S2P Require Import Prelude.
From S2P Require Import Interfaces.
From S2P Require Import Sorting.
From S2P Require Import OutboxStore.
From S2P Require Import Json.
From S2P Require Import Receipts.
From S2P Require Import Mechanism.

(** ** Publication statements and certificates

    [qomm-audit/src/publication.rs]: what a node attests about a release, the
    statement the nodes sign, and the certificate with its verification. *)

Open Scope N_scope.

Definition PUB_DOMAIN : bytes := bstr "QOMM:PUBLICATION-CERTIFICATE:v2".

(** Every key is a hybrid key, and no two share a component. *)
Definition independent_registry (registry : gmap string bytes) : bool :=
  let keys := (map_to_list registry).*2 in
  if existsb (fun key => negb (length key =? 1984)%nat) keys then false
  else
    let classical : gset bytes := list_to_set (take 32 <$> keys) in
    let post_quantum : gset bytes := list_to_set (drop 32 <$> keys) in
    (size classical =? size registry)%nat && (size post_quantum =? size registry)%nat.

Record PublicationStatement := mkPublicationStatement {
  ps_operation_id : bytes;
  ps_budget_scope : bytes;
  ps_venue : string;
  ps_epoch : N;
  ps_slot_start : N;
  ps_slot_end : N;
  ps_source_digest : bytes;
  ps_rule_digest : bytes;
  ps_mechanism_digest : bytes;
  ps_private_input_commitment : bytes;
  ps_transcript_digest : bytes;
  ps_output_name : string;
  ps_output_value : Z;
  ps_epsilon_micros : N;
  ps_delta_numerator : N;
  ps_delta_denominator : N;
  ps_budget_total_micros : N;
  ps_budget_before_micros : N;
  ps_budget_after_micros : N;
  ps_previous_certificate : bytes
}.

Record NodePublicationEvidence := mkNodePublicationEvidence {
  npe_version : N;
  npe_node_id : string;
  npe_operation_id : bytes;
  npe_epoch : N;
  npe_slot_start : N;
  npe_slot_end : N;
  npe_source_digest : bytes;
  npe_rule_digest : bytes;
  npe_mechanism_digest : bytes;
  npe_private_input_commitment : bytes;
  npe_transcript_digest : bytes;
  npe_output_name : string;
  npe_output_value : Z
}.

Record NodeSignature := mkNodeSignature { ns_node_id : string; ns_signature : bytes }.

Record PublicationCertificate := mkPublicationCertificate {
  pc_statement : PublicationStatement;
  pc_signatures : list NodeSignature
}.

Section Publication.
Context `{Sha256} `{HexEncode} `{HybridBackend} `{AuditPurpose} `{JsonVec} `{Libm}.

Definition statement_validate (s : PublicationStatement) : result string unit :=
  if bool_decide (ps_venue s = EmptyString) || bool_decide (ps_output_name s = EmptyString)
  then Err "venue and output name are required"
  else if ps_slot_end s <? ps_slot_start s then Err "invalid epoch or slot range"
  else if ps_epsilon_micros s =? 0 then Err "epsilon must be positive"
  else if contains_zero [ps_operation_id s; ps_budget_scope s; ps_source_digest s; ps_rule_digest s; ps_mechanism_digest s;
      ps_private_input_commitment s; ps_transcript_digest s]
  then Err "publication statement contains an unbound digest"
  else if (ps_delta_denominator s =? 0) || (ps_delta_denominator s <=? ps_delta_numerator s)
  then Err "delta must be a proper non-negative fraction"
  else if (ps_budget_after_micros s <? ps_budget_before_micros s) || (ps_budget_total_micros s <? ps_budget_after_micros s)
  then Err "invalid privacy budget transition"
  else if negb (ps_budget_after_micros s - ps_budget_before_micros s =? ps_epsilon_micros s)
  then Err "privacy budget transition does not equal epsilon spent"
  else Ok tt.

Definition validate_against (s : PublicationStatement) (m : DpMechanism) : result string unit :=
  _ ← statement_validate s;
  if negb (bool_decide (ps_mechanism_digest s = mechanism_digest m)) then Err "statement does not name this mechanism"
  else if negb (ps_epsilon_micros s =? dm_epsilon_micros m) then Err "statement epsilon does not match the mechanism"
  else
    let carried := f_div (f64_of_N (ps_delta_numerator s)) (f64_of_N (ps_delta_denominator s)) in
    required ← privacy_delta m;
    if SFltb carried required
    then Err ("statement carries delta " +:+ f_lower_exp carried +:+ " below the mechanism's " +:+ f_lower_exp required)
    else Ok tt.

Definition validate_for (e : NodePublicationEvidence) (node_id : string) (s : PublicationStatement) (m : DpMechanism) :
    result string unit :=
  _ ← validate_against s m;
  if negb (npe_version e =? 1) || negb (bool_decide (npe_node_id e = node_id))
  then Err "publication evidence belongs to another node or version"
  else if negb (bool_decide (npe_operation_id e = ps_operation_id s))
    || negb (npe_epoch e =? ps_epoch s)
    || negb (npe_slot_start e =? ps_slot_start s)
    || negb (npe_slot_end e =? ps_slot_end s)
    || negb (bool_decide (npe_source_digest e = ps_source_digest s))
    || negb (bool_decide (npe_rule_digest e = ps_rule_digest s))
    || negb (bool_decide (npe_mechanism_digest e = ps_mechanism_digest s))
    || negb (bool_decide (npe_private_input_commitment e = ps_private_input_commitment s))
    || negb (bool_decide (npe_transcript_digest e = ps_transcript_digest s))
    || negb (bool_decide (npe_output_name e = ps_output_name s))
    || negb (bool_decide (npe_output_value e = ps_output_value s))
  then Err "publication statement differs from node-local MPC evidence"
  else Ok tt.

Definition statement_fields (s : PublicationStatement) : list (string * Json) :=
  [("operation_id", JStr (hex_encode (ps_operation_id s)));
   ("budget_scope", JStr (hex_encode (ps_budget_scope s)));
   ("venue", JStr (ps_venue s));
   ("epoch", JNum (Z.of_N (ps_epoch s)));
   ("slot_start", JNum (Z.of_N (ps_slot_start s)));
   ("slot_end", JNum (Z.of_N (ps_slot_end s)));
   ("source_digest", JStr (hex_encode (ps_source_digest s)));
   ("rule_digest", JStr (hex_encode (ps_rule_digest s)));
   ("mechanism_digest", JStr (hex_encode (ps_mechanism_digest s)));
   ("private_input_commitment", JStr (hex_encode (ps_private_input_commitment s)));
   ("transcript_digest", JStr (hex_encode (ps_transcript_digest s)));
   ("output_name", JStr (ps_output_name s));
   ("output_value", JNum (ps_output_value s));
   ("epsilon_micros", JNum (Z.of_N (ps_epsilon_micros s)));
   ("delta_numerator", JNum (Z.of_N (ps_delta_numerator s)));
   ("delta_denominator", JNum (Z.of_N (ps_delta_denominator s)));
   ("budget_total_micros", JNum (Z.of_N (ps_budget_total_micros s)));
   ("budget_before_micros", JNum (Z.of_N (ps_budget_before_micros s)));
   ("budget_after_micros", JNum (Z.of_N (ps_budget_after_micros s)));
   ("previous_certificate", JStr (hex_encode (ps_previous_certificate s)))].

Definition statement_body (s : PublicationStatement) : result string bytes :=
  _ ← statement_validate s;
  raw ← json_to_vec (JObj (statement_fields s));
  Ok (PUB_DOMAIN ++ raw).

Definition statement_digest (s : PublicationStatement) : result string bytes :=
  body ← statement_body s; Ok (sha256 body).

(** ** Certificates *)

Definition certificate_digest (c : PublicationCertificate) : result string bytes :=
  body ← statement_body (pc_statement c);
  let signatures := sort_by_key bytes_leb (fun signed => bstr (ns_node_id signed)) (pc_signatures c) in
  Ok (sha256 (body ++ concat ((fun signed => bstr (ns_node_id signed) ++ ns_signature signed) <$> signatures))).

(** Is this signature one of a registered node over the body? *)
Definition registered_signature (registry : gmap string bytes) (body : bytes) (signed : NodeSignature) : bool :=
  match registry !! ns_node_id signed with
  | Some key => hybrid_verify audit_checkpoint key body (ns_signature signed)
  | None => false
  end.

(** The signatures that count: the first of each node, if it verifies. *)
Definition signed_step (registry : gmap string bytes) (body : bytes) (st : gset string * nat) (signed : NodeSignature) :
    gset string * nat :=
  let '(seen, n) := st in
  if bool_decide (ns_node_id signed ∈ seen) then (seen, n)
  else ({[ns_node_id signed]} ∪ seen, if registered_signature registry body signed then S n else n).
Definition count_signers (registry : gmap string bytes) (body : bytes) (signatures : list NodeSignature) : nat :=
  (foldl (signed_step registry body) (∅, O) signatures).2.

(** Does the statement continue the previous certificate? *)
Definition follows (s : PublicationStatement) (previous : option PublicationCertificate) : bool :=
  match previous with
  | None => bool_decide (ps_previous_certificate s = ZERO32)
  | Some p =>
      match certificate_digest p with
      | Ok digest => bool_decide (digest = ps_previous_certificate s)
      | Err _ => false
      end
      && (ps_epoch (pc_statement p) <? ps_epoch s)
      && (ps_budget_before_micros s =? ps_budget_after_micros (pc_statement p))
      && bool_decide (ps_budget_scope s = ps_budget_scope (pc_statement p))
      && bool_decide (ps_venue s = ps_venue (pc_statement p))
      && bool_decide (ps_output_name s = ps_output_name (pc_statement p))
      && (ps_budget_total_micros s =? ps_budget_total_micros (pc_statement p))
  end.

Definition certificate_verify (c : PublicationCertificate) (registry : gmap string bytes) (threshold : nat)
    (previous : option PublicationCertificate) : bool :=
  if negb (independent_registry registry)
     || negb (is_ok (statement_validate (pc_statement c)))
     || negb ((1 <=? threshold)%nat && (threshold <=? size registry)%nat) then false
  else if negb (follows (pc_statement c) previous) then false
  else match statement_body (pc_statement c) with
    | Err _ => false
    | Ok body => (threshold <=? count_signers registry body (pc_signatures c))%nat
    end.

Definition certify (s : PublicationStatement) (signers : gmap string HybridSigner) : result string PublicationCertificate :=
  body ← statement_body s;
  signatures ← map_res (fun '(node_id, key) =>
    signature ← hybrid_sign key audit_checkpoint body;
    Ok (mkNodeSignature node_id signature)) (btree_iter signers);
  Ok (mkPublicationCertificate s signatures).
End Publication.

Open Scope N_scope.

Definition STATE_VERSION : N := 1.
Definition BUDGET_DOMAIN : bytes := bstr "QOMM:DP:BUDGET-ALLOCATION:v1".

Record BudgetAllocation := mkBudgetAllocation {
  ba_budget_scope : bytes;
  ba_venue : string;
  ba_output_name : string;
  ba_total_micros : N;
  ba_policy_version : N
}.

Record PublicationRequest := mkPublicationRequest {
  pr_operation_id : bytes;
  pr_budget_scope : bytes;
  pr_venue : string;
  pr_epoch : N;
  pr_slot_start : N;
  pr_slot_end : N;
  pr_source_digest : bytes;
  pr_rule_digest : bytes;
  pr_private_input_commitment : bytes;
  pr_transcript_digest : bytes;
  pr_output_name : string;
  pr_output_value : Z
}.

Record StoredSignature := mkStoredSignature { ss_node_id : string; ss_signature : string }.
Record StoredCertificate := mkStoredCertificate {
  sc_statement : PublicationStatement;
  sc_signatures : list StoredSignature
}.
Record BudgetRecord := mkBudgetRecord {
  br_allocation : BudgetAllocation;
  br_allocation_signatures : list StoredSignature;
  br_spent_micros : N;
  br_last_epoch : N;
  br_latest : option StoredCertificate
}.
Record LedgerState := mkLedgerState {
  ls_version : N;
  ls_generation : N;
  ls_budgets : gmap string BudgetRecord;
  ls_operations : gmap string string
}.

Record PublicationLedger := mkPublicationLedger {
  pl_publication_registry : gmap string bytes;
  pl_publication_threshold : nat;
  pl_governance_registry : gmap string bytes;
  pl_governance_threshold : nat
}.

(** What the operating system does in one call: the errors of creating the
    directory, of the lock, of [metadata] and of reading, whether the file is a private
    regular one, and how the replacement of the file ends. *)
Record LedgerIo := mkLedgerIo {
  li_parent : option string;
  li_lock : option string;
  li_metadata : option string;
  li_private : bool;
  li_read : option string;
  li_write : Store.WriteOutcome
}.

Section Ledger.
Context `{Sha256} `{HexEncode} `{HexDecode} `{HybridBackend} `{AuditPurpose} `{JsonVec} `{Libm}.
Context `{Serialize BudgetAllocation} `{Serialize LedgerState} `{Deserialize LedgerState}.

Definition allocation_body (a : BudgetAllocation) : result string bytes :=
  if bool_decide (ba_budget_scope a = ZERO32) || blank (ba_venue a) || blank (ba_output_name a)
     || (ba_total_micros a =? 0) || (ba_policy_version a =? 0)
  then Err "privacy-budget allocation is incomplete"
  else
    raw ← map_err (fun error => "budget encoding failed: " +:+ error) (to_vec a);
    Ok (BUDGET_DOMAIN ++ raw).

Definition allocation_digest (a : BudgetAllocation) : result string bytes :=
  body ← allocation_body a; Ok (sha256 body).

Definition stored_signatures (signatures : list NodeSignature) : list StoredSignature :=
  (fun signed => mkStoredSignature (ns_node_id signed) (hex_encode (ns_signature signed))) <$> signatures.

Definition from_certificate (c : PublicationCertificate) : StoredCertificate :=
  mkStoredCertificate (pc_statement c) (stored_signatures (pc_signatures c)).

Definition loaded_signature (signed : StoredSignature) : result string NodeSignature :=
  raw ← ok_or (hex_decode (ss_signature signed)) "stored publication signature is malformed";
  if negb (length raw =? 3373)%nat
  then Err "legacy publication requires an archived checkpoint and explicit PQ migration"
  else Ok (mkNodeSignature (ss_node_id signed) raw).

Definition stored_certificate (c : StoredCertificate) : result string PublicationCertificate :=
  signatures ← map_res loaded_signature (sc_signatures c);
  Ok (mkPublicationCertificate (sc_statement c) signatures).

Definition budget_key (scope : bytes) (venue output_name : string) : string :=
  hex_encode (sha256 (bstr "QOMM:DP:BUDGET-KEY:v1" ++ scope
    ++ be_bytes 8 (N.of_nat (String.length venue)) ++ bstr venue
    ++ be_bytes 8 (N.of_nat (String.length output_name)) ++ bstr output_name)).

Definition verify_signatures (registry : gmap string bytes) (threshold : nat) (body : bytes)
    (signatures : list NodeSignature) : bool :=
  if negb (independent_registry registry) then false
  else (threshold <=? count_signers registry body signatures)%nat.

(** ** The file *)

Definition ledger_read (io : LedgerIo) (disk : Store.Disk) : result string LedgerState :=
  match li_metadata io, disk with
  | Some e, _ => Err e
  | None, None => Err "No such file or directory (os error 2)"
  | None, Some raw =>
      if negb (li_private io) then Err "publication ledger must be a private regular file"
      else match li_read io with
        | Some e => Err e
        | None =>
            state ← ok_or (from_slice raw) "publication ledger is malformed";
            if negb (ls_version state =? STATE_VERSION) then Err "unsupported publication-ledger version" else Ok state
        end
  end.

Definition ledger_write (io : LedgerIo) (state : LedgerState) (disk : Store.Disk) : Store.Disk * result string unit :=
  match to_vec state with
  | Err e => (disk, Err e)
  | Ok raw =>
      match li_write io with
      | Store.Written => (Some raw, Ok tt)
      | Store.NotRenamed e => (disk, Err e)
      | Store.NotSynced e => (Some raw, Err e)
      end
  end.

Definition open_with_registries (publication_registry : gmap string bytes) (publication_threshold : nat)
    (governance_registry : gmap string bytes) (governance_threshold : nat) (io : LedgerIo) (disk : Store.Disk) :
    Store.Disk * result string PublicationLedger :=
  if negb (independent_registry publication_registry) || negb (independent_registry governance_registry)
     || negb (size publication_registry =? 7)%nat || negb (publication_threshold =? 3)%nat
     || negb (size governance_registry =? 7)%nat || negb (governance_threshold =? 3)%nat
  then (disk, Err "production publication ledger requires separate explicit 3-of-7 registries")
  else
    let ledger := mkPublicationLedger publication_registry publication_threshold governance_registry governance_threshold in
    Store.try_io (li_parent io) (Store.try_io (li_lock io) (fun disk =>
      let exists_ := match li_metadata io, disk with None, Some _ => true | _, _ => false end in
      if negb exists_ then
        let '(disk, w) := ledger_write io (mkLedgerState STATE_VERSION 0 ∅ ∅) disk in
        (disk, _ ← w; Ok ledger)
      else (disk, _ ← ledger_read io disk; Ok ledger))) disk.

Definition ledger_open (registry : gmap string bytes) (threshold : nat) : LedgerIo -> Store.Disk -> Store.Disk * result string PublicationLedger :=
  open_with_registries registry threshold registry threshold.

(** ** Budgets *)

(** The state after an allocation, up to the write. *)
Definition configured (state : LedgerState) (allocation : BudgetAllocation) (signatures : list NodeSignature) :
    result string LedgerState :=
  let key := budget_key (ba_budget_scope allocation) (ba_venue allocation) (ba_output_name allocation) in
  if bool_decide (is_Some (ls_budgets state !! key))
  then Err "privacy-budget allocation already exists; budgets cannot be reset"
  else
    generation ← ok_or (checked_add (ls_generation state) 1) "publication-ledger generation overflow";
    Ok (mkLedgerState (ls_version state) generation
      (<[key := mkBudgetRecord allocation (stored_signatures signatures) 0 0 None]> (ls_budgets state)) (ls_operations state)).

Definition configure_budget (ledger : PublicationLedger) (allocation : BudgetAllocation) (signatures : list NodeSignature)
    (io : LedgerIo) (disk : Store.Disk) : Store.Disk * result string unit :=
  match allocation_body allocation with
  | Err e => (disk, Err e)
  | Ok body =>
      if negb (verify_signatures (pl_governance_registry ledger) (pl_governance_threshold ledger) body signatures)
      then (disk, Err "privacy-budget allocation lacks 3-of-7 approval")
      else Store.try_io (li_lock io) (fun disk =>
        match (state ← ledger_read io disk; configured state allocation signatures) with
        | Err e => (disk, Err e)
        | Ok state => ledger_write io state disk
        end) disk
  end.

(** ** Publications *)

(** The statement for a request on a budget: what it debits and what it follows. *)
Definition prepare_statement (budget : BudgetRecord) (request : PublicationRequest) (m : DpMechanism) :
    result string (PublicationStatement * option PublicationCertificate) :=
  if negb (bool_decide (pr_venue request = ba_venue (br_allocation budget)))
     || negb (bool_decide (pr_output_name request = ba_output_name (br_allocation budget)))
     || (pr_epoch request <=? br_last_epoch budget)
  then Err "publication scope or epoch does not follow its budget state"
  else
    after ← ok_or (checked_add (br_spent_micros budget) (dm_epsilon_micros m)) "privacy budget exhausted";
    if ba_total_micros (br_allocation budget) <? after then Err "privacy budget exhausted"
    else
      previous ← match br_latest budget with
        | None => Ok None
        | Some latest => c ← stored_certificate latest; Ok (Some c)
        end;
      delta ← certificate_delta m;
      link ← match previous with None => Ok ZERO32 | Some c => certificate_digest c end;
      let statement := mkPublicationStatement (pr_operation_id request) (pr_budget_scope request) (pr_venue request)
        (pr_epoch request) (pr_slot_start request) (pr_slot_end request) (pr_source_digest request) (pr_rule_digest request)
        (mechanism_digest m) (pr_private_input_commitment request) (pr_transcript_digest request) (pr_output_name request)
        (pr_output_value request) (dm_epsilon_micros m) delta.1 delta.2 (ba_total_micros (br_allocation budget))
        (br_spent_micros budget) after link in
      _ ← validate_against statement m;
      Ok (statement, previous).

(** The state and certificate after a publication, up to the write. *)
Definition published (ledger : PublicationLedger) (state : LedgerState) (request : PublicationRequest) (m : DpMechanism)
    (sign : PublicationStatement -> result string (list NodeSignature)) :
    result string (LedgerState * PublicationCertificate) :=
  let operation := hex_encode (pr_operation_id request) in
  if bool_decide (is_Some (ls_operations state !! operation)) then Err "publication operation was already committed"
  else
    let key := budget_key (pr_budget_scope request) (pr_venue request) (pr_output_name request) in
    budget ← ok_or (ls_budgets state !! key) "no approved privacy budget for this legal-entity scope";
    x ← prepare_statement budget request m;
    let '(statement, previous) := x in
    signatures ← sign statement;
    let certificate := mkPublicationCertificate statement signatures in
    if negb (certificate_verify certificate (pl_publication_registry ledger) (pl_publication_threshold ledger) previous)
    then Err "publication lacks a valid 3-of-7 certificate or budget chain"
    else
      digest ← certificate_digest certificate;
      let budget := mkBudgetRecord (br_allocation budget) (br_allocation_signatures budget)
        (ps_budget_after_micros statement) (ps_epoch statement) (Some (from_certificate certificate)) in
      generation ← ok_or (checked_add (ls_generation state) 1) "publication-ledger generation overflow";
      Ok (mkLedgerState (ls_version state) generation (<[key := budget]> (ls_budgets state))
            (<[operation := hex_encode digest]> (ls_operations state)), certificate).

Definition publish_with (ledger : PublicationLedger) (request : PublicationRequest) (m : DpMechanism)
    (sign : PublicationStatement -> result string (list NodeSignature)) (io : LedgerIo) (disk : Store.Disk) :
    Store.Disk * result string PublicationCertificate :=
  if bool_decide (pr_operation_id request = ZERO32) then (disk, Err "publication operation identifier is required")
  else Store.try_io (li_lock io) (fun disk =>
    match (state ← ledger_read io disk; published ledger state request m sign) with
    | Err e => (disk, Err e)
    | Ok (state, certificate) =>
        let '(disk, w) := ledger_write io state disk in (disk, _ ← w; Ok certificate)
    end) disk.

Definition budget_state (scope : bytes) (venue output_name : string) (io : LedgerIo) (disk : Store.Disk) :
    Store.Disk * result string (option (N * N * N)) :=
  Store.try_io (li_lock io) (fun disk => (disk,
    state ← ledger_read io disk;
    Ok ((fun budget => (ba_total_micros (br_allocation budget), br_spent_micros budget, br_last_epoch budget))
          <$> ls_budgets state !! budget_key scope venue output_name))) disk.

(** ** Sequences of calls *)

Inductive LedgerCall :=
  | Configure (allocation : BudgetAllocation) (signatures : list NodeSignature)
  | Publish (request : PublicationRequest) (m : DpMechanism) (sign : PublicationStatement -> result string (list NodeSignature)).

(** A call and what it returned to its caller. *)
Definition ledger_step (ledger : PublicationLedger) (st : Store.Disk * list PublicationCertificate)
    (call : LedgerCall * LedgerIo) : Store.Disk * list PublicationCertificate :=
  match call.1 with
  | Configure a s => let x := configure_budget ledger a s call.2 st.1 in (x.1, st.2)
  | Publish r m sign =>
      let x := publish_with ledger r m sign call.2 st.1 in
      (x.1, match x.2 with Ok c => st.2 ++ [c] | Err _ => st.2 end)
  end.
Definition ledger_run (ledger : PublicationLedger) (disk : Store.Disk) (calls : list (LedgerCall * LedgerIo)) :
    Store.Disk * list PublicationCertificate := foldl (ledger_step ledger) (disk, []) calls.
End Ledger.
