(* ===== verification/PublicationProofs.v ===== *)
(** * The privacy budget across every sequence of calls

    Certificate verification as a statement about distinct registered signers,
    the invariant of the publication ledger, and the certificate that blocks its
    own budget. *)

From S2P Require Import Prelude.
From S2P Require Import Interfaces.
From S2P Require Import Sorting.
From S2P Require Import Json.
From S2P Require Import OutboxStore.
From S2P Require Import Receipts.
From S2P Require Import Mechanism.
From S2P Require Import PublicationLedger.

Open Scope N_scope.

Section Signers.
Context `{Sha256} `{HexEncode} `{HB : HybridBackend} `{AuditPurpose} `{JsonVec} `{Libm}.

(** The first signature of a node in a list. *)
Definition first_signature (signatures : list NodeSignature) (node : string) : option NodeSignature :=
  head (filter (fun s => ns_node_id s = node) signatures).

(** The nodes whose first signature is a registered one over the body. *)
Definition signs (registry : gmap string bytes) (body : bytes) (signatures : list NodeSignature) (node : string) : bool :=
  match first_signature signatures node with Some s => registered_signature registry body s | None => false end.
Definition signers (registry : gmap string bytes) (body : bytes) (signatures : list NodeSignature) : gset string :=
  filter (fun node => signs registry body signatures node = true) (list_to_set (ns_node_id <$> signatures)).

Lemma first_signature_snoc signatures s node :
  first_signature (signatures ++ [s]) node =
    match first_signature signatures node with
    | Some x => Some x
    | None => if decide (ns_node_id s = node) then Some s else None
    end.
Proof.
  unfold first_signature. rewrite filter_app. destruct (filter _ signatures); simpl; [|done].
  rewrite filter_cons. case_decide; done.
Qed.

Lemma first_signature_none signatures node : first_signature signatures node = None <-> node ∉ ns_node_id <$> signatures.
Proof.
  unfold first_signature. rewrite head_None. split.
  - intros Hn Hin. apply list_elem_of_fmap in Hin as (s & -> & Hs).
    assert (s ∈ filter (fun x => ns_node_id x = ns_node_id s) signatures) as Hf by (by apply list_elem_of_filter).
    rewrite Hn in Hf. by apply not_elem_of_nil in Hf.
  - intros Hn. apply elem_of_nil_inv. intros x [<- Hx]%list_elem_of_filter. apply Hn. by apply list_elem_of_fmap_2.
Qed.

Lemma signed_fold registry body signatures :
  foldl (signed_step registry body) (∅, O) signatures =
    (list_to_set (ns_node_id <$> signatures), size (signers registry body signatures)).
Proof.
  induction signatures as [|s signatures IH] using rev_ind; [done|].
  rewrite foldl_app, IH. cbn [foldl signed_step]. rewrite fmap_app. cbn [fmap list_fmap].
  rewrite list_to_set_app_L. cbn [list_to_set]. rewrite union_empty_r_L.
  destruct (decide (ns_node_id s ∈ ns_node_id <$> signatures)) as [Hin|Hin].
  - rewrite bool_decide_eq_true_2 by (by apply elem_of_list_to_set). f_equal; [set_solver|].
    f_equal. apply set_eq. intros n. unfold signers, signs. rewrite !elem_of_filter, !elem_of_list_to_set, fmap_app, elem_of_app.
    rewrite first_signature_snoc. split.
    + intros [Hf Hn]. destruct (first_signature signatures n); [by auto|done].
    + intros [Hf Hn]. assert (n ∈ ns_node_id <$> signatures) as Hn' by (destruct Hn as [?|Hn%list_elem_of_singleton]; [done|by subst]).
      destruct (first_signature signatures n) eqn:E; [done|]. by apply first_signature_none in E.
  - rewrite bool_decide_eq_false_2 by (by rewrite elem_of_list_to_set). f_equal; [set_solver|].
    assert (signers registry body (signatures ++ [s]) =
      (if registered_signature registry body s then {[ns_node_id s]} else ∅) ∪ signers registry body signatures) as ->.
    { apply set_eq. intros n. unfold signers at 1, signs at 1. rewrite elem_of_union, elem_of_filter, elem_of_list_to_set, fmap_app, elem_of_app.
      rewrite first_signature_snoc. unfold signers, signs. rewrite elem_of_filter, elem_of_list_to_set.
      destruct (decide (ns_node_id s = n)) as [<-|Hne].
      - apply first_signature_none in Hin as ->. cbn. rewrite list_elem_of_singleton.
        destruct (registered_signature registry body s); set_solver.
      - destruct (first_signature signatures n) eqn:E; cbn; rewrite list_elem_of_singleton;
          destruct (registered_signature registry body s); set_solver. }
    destruct (registered_signature registry body s); [|by rewrite union_empty_l_L].
    rewrite size_union, size_singleton; [done|]. apply disjoint_singleton_l. unfold signers.
    rewrite elem_of_filter, elem_of_list_to_set. tauto.
Qed.

Lemma count_signers_size registry body signatures :
  count_signers registry body signatures = size (signers registry body signatures).
Proof. unfold count_signers. by rewrite signed_fold. Qed.

Lemma signers_elem registry body signatures node :
  node ∈ signers registry body signatures <->
  exists s key, first_signature signatures node = Some s /\ registry !! node = Some key /\
    hybrid_verify audit_checkpoint key body (ns_signature s) = true.
Proof.
  unfold signers, signs. rewrite elem_of_filter, elem_of_list_to_set. split.
  - intros [Hf Hn]. destruct (first_signature signatures node) as [s|] eqn:E; [|done].
    assert (ns_node_id s = node) as <-.
    { unfold first_signature in E. apply head_Some_elem_of, list_elem_of_filter in E. naive_solver. }
    unfold registered_signature in Hf. destruct (registry !! ns_node_id s); naive_solver.
  - intros (s & key & E & Hk & Hv). rewrite E.
    unfold first_signature in E. apply head_Some_elem_of, list_elem_of_filter in E as [<- Hs].
    split; [|by apply list_elem_of_fmap_2]. unfold registered_signature. by rewrite Hk.
Qed.
End Signers.

Section Invariant.
Context `{HS : Sha256} `{HX : HexEncode} `{HD : HexDecode} `{HB : HybridBackend} `{HA : AuditPurpose} `{HJ : JsonVec} `{HL : Libm}.
Context `{SA : Serialize BudgetAllocation} `{SL : Serialize LedgerState} `{DL : Deserialize LedgerState}.
Context `{!HexLaws} `{HR : !HexRoundTrip} `{LL : !SerdeLaws LedgerState}.
Implicit Types (c : PublicationCertificate) (ledger : PublicationLedger) (hist : list PublicationCertificate).

Definition statement_key (s : PublicationStatement) : string := budget_key (ps_budget_scope s) (ps_venue s) (ps_output_name s).
Definition allocation_key (a : BudgetAllocation) : string := budget_key (ba_budget_scope a) (ba_venue a) (ba_output_name a).

(** The certificates of one budget, oldest first. *)
Definition of_budget (key : string) hist : list PublicationCertificate :=
  filter (fun c => statement_key (pc_statement c) = key) hist.

(** Each certificate verifies and continues the one before it. *)
Fixpoint chained (registry : gmap string bytes) (threshold : nat) (previous : option PublicationCertificate) hist : Prop :=
  match hist with
  | [] => True
  | c :: hist => certificate_verify c registry threshold previous = true /\ chained registry threshold (Some c) hist
  end.

Definition latest_of (previous : option PublicationCertificate) hist : option PublicationCertificate :=
  match last hist with Some c => Some c | None => previous end.

Lemma chained_snoc registry threshold previous hist c :
  chained registry threshold previous hist -> certificate_verify c registry threshold (latest_of previous hist) = true ->
  chained registry threshold previous (hist ++ [c]).
Proof.
  revert previous; induction hist as [|x hist IH]; intros previous Hc Hv; [done|].
  destruct Hc as [Hx Hc]. split; [done|]. apply IH; [done|]. unfold latest_of in *.
  rewrite last_cons in Hv. by destruct (last hist).
Qed.

Record budget_ok ledger hist (key : string) (r : BudgetRecord) : Prop := {
  bo_key : key = allocation_key (br_allocation r);
  bo_approved : exists body signatures, allocation_body (br_allocation r) = Ok body /\
    verify_signatures (pl_governance_registry ledger) (pl_governance_threshold ledger) body signatures = true /\
    br_allocation_signatures r = stored_signatures signatures;
  bo_spent : br_spent_micros r = sumN (fun c => ps_epsilon_micros (pc_statement c)) (of_budget key hist);
  bo_total : br_spent_micros r <= ba_total_micros (br_allocation r);
  bo_latest : br_latest r = from_certificate <$> last (of_budget key hist);
  bo_epoch : br_last_epoch r = match last (of_budget key hist) with Some c => ps_epoch (pc_statement c) | None => 0 end;
  bo_chain : chained (pl_publication_registry ledger) (pl_publication_threshold ledger) None (of_budget key hist)
}.

Record ledger_inv ledger hist (st : LedgerState) : Prop := {
  li_version : ls_version st = STATE_VERSION;
  li_budgets : map_Forall (budget_ok ledger hist) (ls_budgets st);
  li_known : forall c, c ∈ hist -> is_Some (ls_budgets st !! statement_key (pc_statement c)) /\
    exists digest, certificate_digest c = Ok digest /\
      ls_operations st !! hex_encode (ps_operation_id (pc_statement c)) = Some (hex_encode digest);
  li_operations : forall operation, is_Some (ls_operations st !! operation) ->
    exists c, c ∈ hist /\ operation = hex_encode (ps_operation_id (pc_statement c));
  li_once : NoDup ((fun c => ps_operation_id (pc_statement c)) <$> hist)
}.

Lemma ledger_inv_empty ledger : ledger_inv ledger [] (mkLedgerState STATE_VERSION 0 ∅ ∅).
Proof.
  split; cbn; [done|by intros ? ? ?%lookup_empty_Some|by intros ? ?%not_elem_of_nil| |constructor].
  intros o Ho. rewrite lookup_empty in Ho. by apply is_Some_None in Ho.
Qed.

Lemma of_budget_fresh ledger hist st key : ledger_inv ledger hist st -> ls_budgets st !! key = None -> of_budget key hist = [].
Proof.
  intros Hi Hk. apply elem_of_nil_inv. intros c [<- Hc]%list_elem_of_filter.
  destruct (li_known _ _ _ Hi c Hc) as [[r Hr] _]. congruence.
Qed.

Lemma configured_inv ledger hist st st' allocation signatures body :
  ledger_inv ledger hist st -> allocation_body allocation = Ok body ->
  verify_signatures (pl_governance_registry ledger) (pl_governance_threshold ledger) body signatures = true ->
  configured st allocation signatures = Ok st' -> ledger_inv ledger hist st'.
Proof.
  intros Hi Hb Hv Hc. unfold configured in Hc. apply if_err_ok in Hc as [Hk Hc]. ok_inv. subst st'.
  apply bool_decide_eq_false_1, eq_None_not_Some in Hk.
  pose proof (of_budget_fresh _ _ _ _ Hi Hk) as Hnone. destruct Hi as [Hver Hbud Hkn Hops Hone]. split; cbn; try done.
  - apply map_Forall_insert_2; [|done]. split; cbn; rewrite ?Hnone; try done; [by exists body, signatures|lia].
  - intros c Hc. destruct (Hkn c Hc) as [Hs Hd]. split; [|done]. apply lookup_insert_is_Some'. by right.
Qed.

(** Decoding what was stored gives the certificate back. *)
Lemma loaded_stored s s' : loaded_signature (mkStoredSignature (ns_node_id s) (hex_encode (ns_signature s))) = Ok s' -> s' = s.
Proof.
  destruct s as [n b]. unfold loaded_signature. cbn. rewrite hex_decode_encode. cbn. intros Hs.
  by apply if_err_ok in Hs as [_ [= <-]].
Qed.

Lemma stored_certificate_from c c' : stored_certificate (from_certificate c) = Ok c' -> c' = c.
Proof.
  destruct c as [s sigs]. unfold stored_certificate, from_certificate, stored_signatures. cbn. intros Hc.
  apply bind_ok in Hc as (sigs' & Hm & [= <-]). f_equal.
  revert sigs' Hm. induction sigs as [|x sigs IH]; intros sigs' Hm; cbn [fmap list_fmap map_res] in Hm; [by injection Hm|].
  apply bind_ok in Hm as (x' & Hx & Hm). apply bind_ok in Hm as (xs & Hxs & [= <-]).
  f_equal; [by apply loaded_stored | by apply IH].
Qed.

(** What a prepared statement debits and continues. *)
Lemma prepare_statement_ok budget request m statement previous :
  prepare_statement budget request m = Ok (statement, previous) ->
  ps_operation_id statement = pr_operation_id request /\
  statement_key statement = budget_key (pr_budget_scope request) (pr_venue request) (pr_output_name request) /\
  ps_budget_after_micros statement = br_spent_micros budget + ps_epsilon_micros statement /\
  ps_budget_after_micros statement <= ba_total_micros (br_allocation budget) /\
  (forall c, br_latest budget = Some (from_certificate c) -> previous = Some c) /\
  (br_latest budget = None -> previous = None).
Proof.
  unfold prepare_statement. intros Hp. ok_inv. bool_inv.
  apply checked_add_some in H1 as [-> _]. simplify_eq/=. do 4 (split; [done|]). split.
  - intros c Hc. rewrite Hc in *. apply bind_ok in H3 as (c' & Hc' & [= <-]). by rewrite (stored_certificate_from _ _ Hc').
  - intros Hn. rewrite Hn in *. congruence.
Qed.

Lemma of_budget_snoc key hist c :
  of_budget key (hist ++ [c]) = of_budget key hist ++ (if decide (statement_key (pc_statement c) = key) then [c] else []).
Proof. unfold of_budget. rewrite filter_app, filter_cons. by case_decide. Qed.

Lemma budget_ok_debit ledger hist key r c :
  budget_ok ledger hist key r -> statement_key (pc_statement c) = key ->
  ps_budget_after_micros (pc_statement c) = br_spent_micros r + ps_epsilon_micros (pc_statement c) ->
  ps_budget_after_micros (pc_statement c) <= ba_total_micros (br_allocation r) ->
  certificate_verify c (pl_publication_registry ledger) (pl_publication_threshold ledger) (last (of_budget key hist)) = true ->
  budget_ok ledger (hist ++ [c]) key (mkBudgetRecord (br_allocation r) (br_allocation_signatures r)
    (ps_budget_after_micros (pc_statement c)) (ps_epoch (pc_statement c)) (Some (from_certificate c))).
Proof.
  intros Hr Hk Hafter Htotal Hv. destruct Hr as [E1 E2 E3 E4 E5 E6 E7].
  split; cbn; rewrite ?of_budget_snoc, ?(decide_True _ _ Hk), ?last_snoc; try done.
  - rewrite sumN_app. cbn. lia.
  - apply chained_snoc; [done|]. unfold latest_of. by destruct (last _).
Qed.

Lemma budget_ok_other ledger hist key r c :
  budget_ok ledger hist key r -> statement_key (pc_statement c) <> key -> budget_ok ledger (hist ++ [c]) key r.
Proof.
  intros [E1 E2 E3 E4 E5 E6 E7] Hk. split; rewrite ?of_budget_snoc, ?decide_False, ?app_nil_r by done; done.
Qed.

Lemma published_inv ledger hist st st' request m sign c :
  ledger_inv ledger hist st -> published ledger st request m sign = Ok (st', c) -> ledger_inv ledger (hist ++ [c]) st'.
Proof.
  intros Hi Hp. unfold published in Hp. apply if_err_ok in Hp as [Hop Hp].
  apply bind_ok in Hp as (r & H0%ok_or_ok & Hp). apply bind_ok in Hp as ([s previous] & H1 & Hp).
  apply bind_ok in Hp as (signatures & _ & Hp). apply if_err_ok in Hp as [H2%negb_false_iff Hp].
  apply bind_ok in Hp as (digest & H3 & Hp). apply bind_ok in Hp as (generation & _ & [= <- <-]).
  apply bool_decide_eq_false_1, eq_None_not_Some in Hop.
  destruct (prepare_statement_ok _ _ _ _ _ H1) as (Eop & Ekey & Eafter & Etotal & Esome & Enone).
  destruct Hi as [Hver Hbud Hkn Hops Hone]. pose proof (Hbud _ _ H0) as Hr.
  assert (previous = last (of_budget (statement_key s) hist)) as Hprev.
  { pose proof (bo_latest _ _ _ _ Hr) as Hl. rewrite <- Ekey in Hl. destruct (last _) as [c|]; cbn in Hl; auto. }
  rewrite <- Ekey, <- Eop in *. split; cbn; [done|..].
  - intros k r' Hk. destruct (decide (statement_key s = k)) as [<-|Hne].
    + rewrite lookup_insert_eq in Hk. injection Hk as <-.
      apply (budget_ok_debit ledger hist (statement_key s) r (mkPublicationCertificate s signatures)); try done.
      cbn. by rewrite <- Hprev.
    + rewrite lookup_insert_ne in Hk by done. apply budget_ok_other; [by apply Hbud|done].
  - intros c [Hc| ->%list_elem_of_singleton]%elem_of_app.
    + destruct (Hkn c Hc) as [Hs (d & Hd & Hl)]. split; [apply lookup_insert_is_Some'; by right|].
      exists d. split; [done|]. rewrite lookup_insert_ne; [done|]. intros E. rewrite <- E in Hl. congruence.
    + cbn. rewrite !lookup_insert_eq. split; [done|]. by exists digest.
  - intros o. rewrite lookup_insert_is_Some. intros [<-|[_ Ho]].
    + eexists. split; [apply elem_of_app; right; by left|]. done.
    + destruct (Hops o Ho) as (c & Hc & ->). exists c. split; [|done]. apply elem_of_app. by left.
  - rewrite fmap_app. apply NoDup_app. split; [done|]. split; [|cbn; apply NoDup_singleton].
    intros o (c & -> & Hc)%list_elem_of_fmap [E|?%not_elem_of_nil]%elem_of_cons; [|done].
    cbn in E. destruct (Hkn c Hc) as (_ & d & _ & Hl). rewrite E in Hl. congruence.
Qed.

(** ** The file across calls *)

Definition file_inv ledger hist (disk : Store.Disk) : Prop :=
  exists raw st, disk = Some raw /\ from_slice raw = Some st /\ ledger_inv ledger hist st.

Lemma ledger_read_inv ledger hist io disk st :
  file_inv ledger hist disk -> ledger_read io disk = Ok st -> ledger_inv ledger hist st.
Proof.
  intros (raw & st' & -> & Hraw & Hi) Hr. unfold ledger_read in Hr.
  destruct (li_metadata io); [done|]. apply if_err_ok in Hr as [_ Hr]. destruct (li_read io); [done|].
  rewrite Hraw in Hr. cbn in Hr. apply if_err_ok in Hr as [_ [= <-]]. done.
Qed.

(** A write leaves the old file or puts the new state; success means the new. *)
Lemma ledger_write_cases io st disk disk' w :
  ledger_write io st disk = (disk', w) ->
  (disk' = disk /\ is_ok w = false) \/ (exists raw, disk' = Some raw /\ from_slice raw = Some st).
Proof.
  unfold ledger_write. destruct (to_vec st) as [raw|e] eqn:E; [|intros [= <- <-]; by left].
  apply from_slice_to_vec in E. destruct (li_write io); intros [= <- <-]; eauto.
Qed.

Lemma configure_file ledger hist allocation signatures io disk :
  file_inv ledger hist disk -> file_inv ledger hist (configure_budget ledger allocation signatures io disk).1.
Proof.
  intros Hf. unfold configure_budget. destruct (allocation_body allocation) as [body|] eqn:Hb; [|done].
  destruct (verify_signatures _ _ _ _) eqn:Hv; cbn [negb]; [|done]. unfold Store.try_io. destruct (li_lock io); [done|].
  destruct (_ ← _; _) as [st|] eqn:Hs; [|done]. apply bind_ok in Hs as (st0 & Hr & Hc).
  pose proof (configured_inv _ _ _ _ _ _ _ (ledger_read_inv _ _ _ _ _ Hf Hr) Hb Hv Hc) as Hi.
  destruct (ledger_write io st disk) as [disk' w] eqn:Hw. cbn.
  destruct (ledger_write_cases _ _ _ _ _ Hw) as [[-> _]|(raw & -> & Hraw)]; [done|]. by exists raw, st.
Qed.

Lemma publish_file ledger hist request m sign io disk disk' r :
  file_inv ledger hist disk -> publish_with ledger request m sign io disk = (disk', r) ->
  exists hist', file_inv ledger (hist ++ hist') disk' /\ match r with Ok c => hist' = [c] | Err _ => (length hist' <= 1)%nat end.
Proof.
  intros Hf Hp. assert (forall e, disk' = disk -> r = Err e -> exists hist', file_inv ledger (hist ++ hist') disk' /\
    match r with Ok c => hist' = [c] | Err _ => (length hist' <= 1)%nat end) as Hstay.
  { intros e -> ->. exists []. rewrite app_nil_r. split; [done|cbn; lia]. }
  unfold publish_with in Hp. case_bool_decide; [injection Hp as <- <-; eauto|].
  unfold Store.try_io in Hp. destruct (li_lock io); [injection Hp as <- <-; eauto|].
  destruct (_ ← _; _) as [[st c]|] eqn:Hs; [|injection Hp as <- <-; eauto].
  apply bind_ok in Hs as (st0 & Hr & Hc). pose proof (published_inv _ _ _ _ _ _ _ _ (ledger_read_inv _ _ _ _ _ Hf Hr) Hc) as Hi.
  destruct (ledger_write io st disk) as [d w] eqn:Hw. injection Hp as <- <-.
  destruct (ledger_write_cases _ _ _ _ _ Hw) as [[-> Hw']|(raw & -> & Hraw)].
  - destruct w as [[]|e]; [done|]. by apply (Hstay e).
  - exists [c]. split; [by exists raw, st|]. destruct w; cbn; [done|lia].
Qed.

Lemma ledger_run_inv ledger hist disk calls :
  file_inv ledger hist disk ->
  exists hist', file_inv ledger (hist ++ hist') (ledger_run ledger disk calls).1 /\
    forall c, c ∈ (ledger_run ledger disk calls).2 -> c ∈ hist'.
Proof.
  intros Hf. unfold ledger_run. induction calls as [|[call io] calls IH] using rev_ind.
  { exists []. rewrite app_nil_r. split; [done|]. cbn. by intros ? ?%not_elem_of_nil. }
  destruct IH as (h & Hh & Hret). rewrite foldl_app. cbn [foldl]. unfold ledger_step at 1 3. cbn [fst snd].
  destruct (foldl _ _ calls) as [d returned]. cbn [fst snd] in *. destruct call as [a s|r m sign]; cbn [fst snd].
  - exists h. split; [|done]. by apply configure_file.
  - destruct (publish_with ledger r m sign io d) as [d' res] eqn:Hp. cbn [fst snd].
    destruct (publish_file _ _ _ _ _ _ _ _ _ Hh Hp) as (h' & Hf' & Hres). exists (h ++ h'). rewrite app_assoc. split; [done|].
    destruct res as [c|e]; intros x Hx; [|apply elem_of_app; left; by apply Hret]. subst h'.
    apply elem_of_app in Hx as [Hx|Hx]; apply elem_of_app; [left; by apply Hret|by right].
Qed.

(** C18: the privacy budget holds across every sequence of calls.  After opening
    an empty ledger and any sequence of allocations and publications, with any
    signing callbacks and any failures of the operating system, there is a
    history of certificates such that the file decodes to a state in which every
    budget carries a governance approval, has spent exactly the epsilons of its
    certificates and no more than its total, its certificates form one verified
    hash chain whose last element and epoch it records, and every operation
    identifier is committed once; every certificate returned to a caller is in
    that history. *)
Theorem privacy_budget_holds publication_registry publication_threshold governance_registry governance_threshold io disk ledger calls :
  open_with_registries publication_registry publication_threshold governance_registry governance_threshold io None = (disk, Ok ledger) ->
  exists raw st hist, (ledger_run ledger disk calls).1 = Some raw /\ from_slice raw = Some st /\ ledger_inv ledger hist st /\
    forall c, c ∈ (ledger_run ledger disk calls).2 -> c ∈ hist.
Proof.
  intros Ho. assert (file_inv ledger [] disk) as Hf.
  { unfold open_with_registries in Ho. destruct (_ || _); [done|]. unfold Store.try_io in Ho.
    destruct (li_parent io), (li_lock io); try done.
    replace (match li_metadata io with Some _ | _ => false end) with false in Ho by (by destruct (li_metadata io)).
    cbn [negb] in Ho. destruct (ledger_write _ _ _) as [d w] eqn:Hw. injection Ho as -> Hl.
    apply bind_ok in Hl as (u & -> & [= <-]).
    destruct (ledger_write_cases _ _ _ _ _ Hw) as [[_ ?]|(raw & -> & Hraw)]; [done|].
    exists raw, (mkLedgerState STATE_VERSION 0 ∅ ∅). split; [done|]. split; [done|]. apply ledger_inv_empty. }
  destruct (ledger_run_inv _ _ _ calls Hf) as (h & (raw & st & Hd & Hraw & Hi) & Hret). by exists raw, st, h.
Qed.
End Invariant.

Section Certificates.
Context `{HS : Sha256} `{HX : HexEncode} `{HB : HybridBackend} `{HA : AuditPurpose} `{HJ : JsonVec}.
Context `{!HexLaws} `{!JsonLaws} `{HBL : !HybridLaws}.

Lemma statement_body_inj s s' body : statement_body s = Ok body -> statement_body s' = Ok body -> s = s'.
Proof.
  unfold statement_body. intros Hs Hs'. apply bind_ok in Hs as (u & _ & Hs), Hs' as (u' & _ & Hs').
  apply bind_ok in Hs as (raw & Hraw & Hs), Hs' as (raw' & Hraw' & Hs'). rewrite <- Hs in Hs'.
  assert (raw' = raw) as -> by (injection Hs' as E; exact E).
  pose proof (json_object_inj (statement_fields s) (statement_fields s') raw) as Hf.
  assert (statement_fields s = statement_fields s') as E.
  { apply Hf; try done; [|by repeat constructor..]. apply (bool_decide_unpack _). vm_compute. done. }
  destruct s, s'. unfold statement_fields in E. cbn in E. injection E; intros. clear E Hf Hs Hs' Hraw Hraw'. repeat match goal with
    | Hh : hex_encode _ = hex_encode _ |- _ => apply hex_inj in Hh
    | Hh : Z.of_N _ = Z.of_N _ |- _ => apply N2Z.inj in Hh
    end. subst. reflexivity.
Qed.

(** A certificate verifies exactly when the registry is independent, the
    statement valid, the threshold within the registry, the statement continues
    the previous certificate, and at least threshold distinct registered nodes
    have a first signature that verifies over the statement's body; and that
    body is the body of no other statement. *)
Theorem certificate_verifies_iff c registry threshold previous :
  certificate_verify c registry threshold previous = true <->
  independent_registry registry = true /\ statement_validate (pc_statement c) = Ok tt /\
  (1 <= threshold <= size registry)%nat /\ follows (pc_statement c) previous = true /\
  exists body (nodes : gset string), statement_body (pc_statement c) = Ok body /\
    (forall s, statement_body s = Ok body -> s = pc_statement c) /\
    (threshold <= size nodes)%nat /\
    forall node, node ∈ nodes -> exists s key, first_signature (pc_signatures c) node = Some s /\
      registry !! node = Some key /\ hybrid_verify audit_checkpoint key body (ns_signature s) = true.
Proof.
  unfold certificate_verify. split.
  - destruct (_ || _) eqn:E1; [done|]. destruct (follows _ _) eqn:E2; cbn [negb]; [|done].
    bool_inv. destruct (statement_body _) as [body|] eqn:Hb; [|done]. intros Hn%Nat.leb_le.
    repeat match goal with Hh : (_ <=? _)%nat = true |- _ => apply Nat.leb_le in Hh end.
    destruct (statement_validate _) as [[]|]; [|done]. do 4 (split; [done|]).
    exists body, (signers registry body (pc_signatures c)). split; [done|]. rewrite count_signers_size in Hn.
    split; [intros s Hs; by eapply statement_body_inj|]. split; [done|]. intros node. apply signers_elem.
  - intros (-> & -> & [H1 H2] & -> & body & nodes & -> & _ & Hn & Hs).
    rewrite (proj2 (Nat.leb_le _ _) H1), (proj2 (Nat.leb_le _ _) H2). cbn -[Nat.leb]. apply Nat.leb_le. rewrite count_signers_size.
    etransitivity; [exact Hn|]. apply subseteq_size. intros node Hin. by apply signers_elem, Hs.
Qed.

(** What [certify] signs: one verifying signature per signer. *)
Lemma certify_signatures (l : list (string * HybridSigner)) body signatures :
  map_res (fun '(node_id, key) => signature ← hybrid_sign key audit_checkpoint body;
    Ok (mkNodeSignature node_id signature)) l = Ok signatures ->
  NoDup l.*1 -> ns_node_id <$> signatures = l.*1 /\
  forall node key, (node, key) ∈ l -> exists s, first_signature signatures node = Some s /\
    hybrid_verify audit_checkpoint (hybrid_public_key key) body (ns_signature s) = true.
Proof.
  revert signatures. induction l as [|[n k] l IH]; intros signatures Hm Hnd; cbn [map_res] in Hm.
  { injection Hm as <-. split; [done|]. by intros ? ? ?%not_elem_of_nil. }
  apply bind_ok in Hm as (s & Hs & Hm). apply bind_ok in Hm as (rest & Hrest & [= <-]).
  apply bind_ok in Hs as (sig & Hsig & [= <-]). cbn in Hnd. apply NoDup_cons in Hnd as [Hn Hnd].
  destruct (IH _ Hrest Hnd) as [Hid Hv]. split; [cbn; by rewrite Hid|].
  intros node key [[= -> ->]|Hin]%elem_of_cons.
  - eexists. split; [unfold first_signature; rewrite filter_cons, decide_True by done; done|].
    cbn. by eapply hybrid_sign_verify.
  - destruct (Hv _ _ Hin) as (s & Hf & Hs). exists s. split; [|done].
    unfold first_signature in *. rewrite filter_cons, decide_False; [done|].
    cbn. intros ->. apply Hn. by apply (list_elem_of_fmap_2 fst l (node, key)).
Qed.

(** A certificate the committee makes verifies: with independent keys, the
    signers' public keys as registry and a threshold of at most their number, what
    [certify] returns for a statement that continues the previous certificate is accepted. *)
Theorem certified_statement_verifies s (signers : gmap string HybridSigner) threshold previous c :
  certify s signers = Ok c -> independent_registry (hybrid_public_key <$> signers) = true ->
  (1 <= threshold <= size signers)%nat -> follows s previous = true ->
  certificate_verify c (hybrid_public_key <$> signers) threshold previous = true.
Proof.
  unfold certify. intros Hc Hreg [H1 H2] Hfol. apply bind_ok in Hc as (body & Hb & Hc).
  apply bind_ok in Hc as (sigs & Hs & [= <-]). unfold certificate_verify. cbn [pc_statement pc_signatures].
  rewrite Hreg, Hfol, Hb. assert (statement_validate s = Ok tt) as ->.
  { unfold statement_body in Hb. apply bind_ok in Hb as ([] & -> & _). done. }
  rewrite map_size_fmap, (proj2 (Nat.leb_le _ _) H1), (proj2 (Nat.leb_le _ _) H2). cbn -[Nat.leb].
  apply Nat.leb_le. rewrite count_signers_size. etransitivity; [exact H2|].
  destruct (certify_signatures _ _ _ Hs (btree_iter_nodup _)) as [_ Hv]. rewrite <- (size_dom (D := gset string)).
  apply subseteq_size. intros node Hn. apply elem_of_dom in Hn as [key Hk]. apply signers_elem.
  destruct (Hv node key) as (sg & Hf & Hver); [by apply btree_iter_elem|]. exists sg, (hybrid_public_key key).
  split; [done|]. split; [|done]. by rewrite lookup_fmap, Hk.
Qed.
End Certificates.

Section Blocked.
Context `{HS : Sha256} `{HX : HexEncode} `{HD : HexDecode} `{HB : HybridBackend} `{HA : AuditPurpose} `{HJ : JsonVec} `{HL : Libm}.
Context `{SA : Serialize BudgetAllocation} `{SL : Serialize LedgerState} `{DL : Deserialize LedgerState}.
Context `{HR : !HexRoundTrip}.

Lemma stored_certificate_short c :
  (exists s, s ∈ pc_signatures c /\ length (ns_signature s) <> 3373%nat) -> is_ok (stored_certificate (from_certificate c)) = false.
Proof.
  intros (s & Hs & Hl). destruct (stored_certificate _) as [c'|] eqn:E; [|done]. exfalso.
  unfold stored_certificate in E. apply bind_ok in E as (sigs & Hm & _).
  apply map_res_ok in Hm. cbn in Hm. unfold stored_signatures in Hm. rewrite Forall2_fmap_l in Hm.
  apply list_elem_of_lookup in Hs as [i Hi]. destruct (Forall2_lookup_l _ _ _ _ _ Hm Hi) as (s' & _ & Hs').
  unfold loaded_signature in Hs'. cbn in Hs'. rewrite hex_decode_encode in Hs'. cbn in Hs'.
  apply if_err_ok in Hs' as [Hs' _]. apply negb_false_iff, Nat.eqb_eq in Hs'. done.
Qed.

(** A certificate is accepted with signatures that do not count, and their
    length is checked only when it is read back: once a budget's latest certificate
    carries a signature that is not 3373 bytes long, every later publication on
    that budget fails and leaves the file as it is, whatever the request, the
    signers and the remaining budget. *)
Theorem short_signature_blocks_budget ledger state raw c budget request m sign io :
  from_slice raw = Some state ->
  ls_budgets state !! budget_key (pr_budget_scope request) (pr_venue request) (pr_output_name request) = Some budget ->
  br_latest budget = Some (from_certificate c) ->
  (exists s, s ∈ pc_signatures c /\ length (ns_signature s) <> 3373%nat) ->
  exists e, publish_with ledger request m sign io (Some raw) = (Some raw, Err e).
Proof.
  intros Hraw Hb Hlatest Hshort%stored_certificate_short. unfold publish_with.
  case_bool_decide; [by eexists|]. unfold Store.try_io. destruct (li_lock io); [by eexists|].
  destruct (_ ← _; _) as [[st c']|e] eqn:Hs; [|by exists e]. exfalso.
  apply bind_ok in Hs as (st0 & Hr & Hp). unfold ledger_read in Hr. destruct (li_metadata io); [done|].
  apply if_err_ok in Hr as [_ Hr]. destruct (li_read io); [done|]. rewrite Hraw in Hr. cbn in Hr.
  apply if_err_ok in Hr as [_ [= <-]]. unfold published in Hp. apply if_err_ok in Hp as [_ Hp]. rewrite Hb in Hp. cbn in Hp.
  apply bind_ok in Hp as ([s p] & Hprep & _). unfold prepare_statement in Hprep. ok_inv. rewrite Hlatest in *.
  destruct (stored_certificate (from_certificate c)); [done|].
  repeat match goal with Hh : (_ ← Err _; _) = Ok _ |- _ => cbn in Hh; discriminate Hh end.
Qed.
End Blocked.
