(* ===== verification/Kyb.v ===== *)
(** * Anonymous legal-entity credentials and entity limits

    [zkpi-proofs/src/kyb.rs]: business attributes and cohorts, credentials,
    signed cohort registries, presentations and their verification, the issuer,
    and the limits counted per scope nullifier.  Sums of [u64] follow the build
    ([Debug] panics, [Release] wraps); [f64] is binary64. *)

From stdpp Require Import pretty.
From Stdlib Require Import SpecFloat.
From S2P Require Import Prelude.
From S2P Require Import Interfaces.
From S2P Require Import Sorting.
From S2P Require Import Json.
From S2P Require Import Curve.
From S2P Require Import Reader.
From S2P Require Import Sigma.
From S2P Require Import BitrangeProofs.
From S2P Require Import Membership.
From S2P Require Import OneOfManyProofs.
From S2P Require Import DslParse.
From S2P Require Import Mechanism.

Open Scope N_scope.

(** [ed25519_dalek::VerifyingKey::from_bytes] *)
Class Ed25519Keys := ed25519_valid : bytes -> bool.

Module Kyb.

Record BusinessAttributes := mkBusinessAttributes {
  jurisdiction : string;
  entity_type : string;
  collateral_tier : N
}.

Definition cohort_id (jurisdiction entity_type : string) (min_tier : N) : string :=
  jurisdiction +:+ "/" +:+ entity_type +:+ "/tier>=" +:+ pretty min_tier.

Definition cohorts_of (a : BusinessAttributes) (max_tier : N) : list string :=
  (fun tier => cohort_id (jurisdiction a) (entity_type a) (N.of_nat tier))
    <$> seq 1 (N.to_nat (N.min (collateral_tier a) max_tier)).

Inductive Invalid :=
  | NotFromTrustedIssuer
  | Expired
  | DuplicateEntries
  | RegistryIdMismatch
  | BadIssuerSignature
  | WrongCohort
  | WrongRegistryEpoch
  | WrongScopeOrContext
  | MembershipProofFailed.

Section Kyb.
Context `{G : GroupOps} `{T : TranscriptOps} `{S2 : Sha256} `{HB : HybridBackend} `{ED : Ed25519Keys} `{SC : !ScalarCodec}.

(** Keys are their 1984 bytes. *)
Definition issuer_key_from_bytes (b : bytes) : result string bytes :=
  if negb (length b =? 1984)%nat then Err "KYB issuer requires an enrolled hybrid public key"
  else if negb (ed25519_valid (take 32 b)) then Err "invalid KYB classical public key"
  else Ok b.

Record KybCredential := mkKybCredential {
  control_group_id : string;
  secret : Scalar;
  public_point : Point;
  attributes : BusinessAttributes;
  cohorts : list string
}.

Definition credential_issue {R} `{!ScalarRandom R} (control_group_id : string) (attributes : BusinessAttributes) (max_tier : N) (rng : R) :
    result string (KybCredential * R) :=
  if blank control_group_id || (max_tier =? 0) then Err "control group and maximum tier are required"
  else
    let (secret, rng) := scalar_random rng in
    Ok (mkKybCredential control_group_id secret (basepoint * secret)%P attributes (cohorts_of attributes max_tier), rng).

Definition from_secret_scalar (control_group_id : string) (attributes : BusinessAttributes) (max_tier : N) (secret : Scalar) :
    result string KybCredential :=
  if blank control_group_id || (max_tier =? 0) || bool_decide (secret = s0)
  then Err "control group, maximum tier, and non-zero secret are required"
  else Ok (mkKybCredential control_group_id secret (basepoint * secret)%P attributes (cohorts_of attributes max_tier)).

Definition scope_nullifier (c : KybCredential) (scope : bytes) : Point := OrDleq.nullifier scope (secret c).

(** ** Registries *)

Record SignedCohortRegistry := mkSignedCohortRegistry {
  cohort : string;
  registry_epoch : N;
  expires_at : N;
  points : list Point;
  issuer : bytes;
  registry_id : bytes;
  registry_signature : bytes
}.

Definition registry_body (cohort : string) (epoch expires_at : N) (points : list Point) (issuer : bytes) : bytes :=
  sha256 (bstr "QOMM:KYB:HYBRID-REGISTRY:v2:" ++ bstr cohort ++ be_bytes 8 epoch ++ be_bytes 8 expires_at
    ++ be_bytes 8 (N.of_nat (length points)) ++ concat (compress <$> points) ++ issuer).

(** [windows(2).any(..)] *)
Fixpoint adjacent_equal (l : list bytes) : bool :=
  match l with
  | a :: ((b :: _) as l) => bool_decide (a = b) || adjacent_equal l
  | _ => false
  end.

Definition registry_issue (cohort : string) (registry_epoch expires_at : N) (points : list Point) (signing : HybridSigner) :
    result string SignedCohortRegistry :=
  if blank cohort || (registry_epoch =? 0) || (expires_at =? 0) || (length points =? 0)%nat
  then Err "cohort registry is incomplete"
  else
    let points := sort_by_key bytes_leb compress points in
    if adjacent_equal (compress <$> points) then Err "cohort registry contains duplicate entities"
    else
      issuer ← issuer_key_from_bytes (hybrid_public_key signing);
      let registry_id := registry_body cohort registry_epoch expires_at points issuer in
      signature ← map_err (fun _ => "KYB registry signing failed") (hybrid_sign signing purpose_code registry_id);
      Ok (mkSignedCohortRegistry cohort registry_epoch expires_at points issuer registry_id signature).

(** [sort_unstable] and [dedup] *)
Fixpoint dedup (l : list bytes) : list bytes :=
  match l with
  | a :: ((b :: _) as l) => if bool_decide (a = b) then dedup l else a :: dedup l
  | l => l
  end.

Definition verify_registry (registry : SignedCohortRegistry) (trusted : bytes) (now : N) : result Invalid unit :=
  if negb (bool_decide (issuer registry = trusted)) then Err NotFromTrustedIssuer
  else if expires_at registry <=? now then Err Expired
  else
    let seen := sort_by_key bytes_leb id (compress <$> points registry) in
    if negb (length (dedup seen) =? length seen)%nat then Err DuplicateEntries
    else
      let body := registry_body (cohort registry) (registry_epoch registry) (expires_at registry) (points registry) (issuer registry) in
      if negb (bool_decide (body = registry_id registry)) then Err RegistryIdMismatch
      else if hybrid_verify purpose_code trusted (registry_id registry) (registry_signature registry) then Ok tt
      else Err BadIssuerSignature.

(** ** Presentations *)

Record KybPresentation := mkKybPresentation {
  p_cohort : string;
  p_registry_id : bytes;
  p_scope : bytes;
  p_context_hash : bytes;
  p_proof : OrDleq.MembershipProof
}.

Definition string_field (s : string) : bytes := be_bytes 4 (N.of_nat (String.length s)) ++ bstr s.
Definition bytes_field (b : bytes) : bytes := be_bytes 4 (N.of_nat (length b)) ++ b.
Definition scalars_field (l : list Scalar) : bytes := be_bytes 4 (N.of_nat (length l)) ++ concat (scalar_to_bytes <$> l).

Definition binding_message (p : KybPresentation) : bytes :=
  string_field (p_cohort p) ++ p_registry_id p ++ bytes_field (p_scope p) ++ p_context_hash p
    ++ compress (OrDleq.proof_nullifier (p_proof p)).

Definition presentation_digest (p : KybPresentation) : bytes :=
  sha256 (bstr "QOMM:KYB:PRESENTATION:v1" ++ binding_message p ++ scalars_field (OrDleq.challenges (p_proof p))
    ++ scalars_field (OrDleq.responses (p_proof p))).
Definition binding_digest (p : KybPresentation) : bytes := sha256 (bstr "QOMM:KYB:SCOPE-BINDING:v1" ++ binding_message p).
Definition entity_commitment (p : KybPresentation) : bytes :=
  sha256 (bstr "QOMM:KYB:FACILITY-ENTITY:v1" ++ compress (OrDleq.proof_nullifier (p_proof p))).

Definition context_hash (context : bytes) : bytes := sha256 (bstr "qomm:kyb-context:" ++ context).

(** [iter().position(..)] *)
Definition position (p : Point) (l : list Point) : option nat := fst <$> list_find (eq p) l.

Definition present {R} `{!ScalarRandom R} (credential : KybCredential) (registry : SignedCohortRegistry) (scope context : bytes) (rng : R) :
    result string (KybPresentation * R) :=
  if negb (bool_decide (cohort registry ∈ cohorts credential)) then Err "credential does not qualify for this cohort"
  else
    index ← ok_or (position (public_point credential) (points registry)) "credential is not in this registry";
    let hash := context_hash context in
    x ← OrDleq.prove (OrDleq.mkStatement (registry_id registry) (points registry) scope hash) (secret credential) index rng;
    let '(proof, rng) := x in
    Ok (mkKybPresentation (cohort registry) (registry_id registry) scope hash proof, rng).

Definition verify_presentation (p : KybPresentation) (registry : SignedCohortRegistry) (trusted scope context : bytes) (now : N)
    (required_cohort : string) : result Invalid unit :=
  _ ← verify_registry registry trusted now;
  if negb (bool_decide (cohort registry = required_cohort)) || negb (bool_decide (p_cohort p = required_cohort)) then Err WrongCohort
  else if negb (bool_decide (p_registry_id p = registry_id registry)) then Err WrongRegistryEpoch
  else
    let hash := context_hash context in
    if negb (bool_decide (p_scope p = scope)) || negb (bool_decide (p_context_hash p = hash)) then Err WrongScopeOrContext
    else if negb (OrDleq.verify (OrDleq.mkStatement (registry_id registry) (points registry) scope hash) (p_proof p))
    then Err MembershipProofFailed
    else Ok tt.

(** ** The issuer *)

Record KybIssuer := mkKybIssuer {
  signing : HybridSigner;
  max_tier : N;
  enrolled : gmap string KybCredential
}.

Definition issuer_new {R} `{!RngCore R} (max_tier : N) (rng : R) : KybIssuer * R :=
  let (classical, rng) := fill_bytes 32 rng in
  let (pq, rng) := fill_bytes 32 rng in
  (mkKybIssuer (hybrid_new classical pq) max_tier ∅, rng).

Definition with_signing_key (max_tier : N) (signing : HybridSigner) : result string KybIssuer :=
  if max_tier =? 0 then Err "maximum tier must be positive" else Ok (mkKybIssuer signing max_tier ∅).

(** [None] where the source panics. *)
Definition public_key (i : KybIssuer) : option bytes :=
  match issuer_key_from_bytes (hybrid_public_key (signing i)) with Ok k => Some k | Err _ => None end.

Definition enroll {R} `{!ScalarRandom R} (i : KybIssuer) (control_group_id : string) (attributes : BusinessAttributes) (rng : R) :
    result string (KybCredential * KybIssuer * R) :=
  if bool_decide (is_Some (enrolled i !! control_group_id)) then Err "control group already enrolled"
  else
    x ← credential_issue control_group_id attributes (max_tier i) rng;
    let '(credential, rng) := x in
    Ok (credential, mkKybIssuer (signing i) (max_tier i) (<[control_group_id := credential]> (enrolled i)), rng).

(** The order in which the hash map yields its values does not matter: the
    registry sorts the points. *)
Definition publish (i : KybIssuer) (c : string) (registry_epoch expires_at : N) : result string SignedCohortRegistry :=
  let points := public_point <$> filter (fun credential => c ∈ cohorts credential) (map_to_list (enrolled i)).*2 in
  if (length points =? 0)%nat then Err "no entity qualifies for this cohort"
  else registry_issue c registry_epoch expires_at points (signing i).

Definition sign_policy_digest (i : KybIssuer) (digest : bytes) : result string bytes :=
  map_err (fun _ => "KYB policy signing failed") (hybrid_sign (signing i) purpose_code digest).
End Kyb.

(** ** Entity limits *)

Record EntityLimits := mkEntityLimits { max_requests : N; max_probe_lots : N; max_epsilon : f64 }.
Definition default_limits : EntityLimits := mkEntityLimits 60 2000 f64_one.

Inductive Refused := RequestCap | ProbeVolumeCap | PrivacyBudget.

Abbreviation LimitKey := (bytes * N)%type.

Record EntityRateLimiter := mkEntityRateLimiter {
  limits : EntityLimits;
  requests : gmap LimitKey N;
  lots : gmap LimitKey N;
  epsilon : gmap LimitKey f64
}.

Definition limiter_new (limits : EntityLimits) : EntityRateLimiter := mkEntityRateLimiter limits ∅ ∅ ∅.

(** [a + b] on [u64]: [None] where it panics. *)
Definition add_u64 {B : Build} (a b : N) : option N :=
  if a + b <=? U64_MAX then Some (a + b)
  else match B with Debug => None | Release => Some ((a + b) mod 2 ^ 64) end.

Record Usage := mkUsage { u_requests : N; u_lots : N; u_epsilon : f64 }.

(** The [f64] nearest to [1e-12]. *)
Definition EPSILON_SLACK : f64 := S754_finite false 4951760157141521 (-92).

Section Limiter.
Context `{G : GroupOps} {B : Build}.

Definition limit_key (nullifier : Point) (epoch : N) : LimitKey := (compress nullifier, epoch).

Definition allow_request (l : EntityRateLimiter) (nullifier : Point) (epoch lots_asked : N) :
    option (result Refused unit * EntityRateLimiter) :=
  let key := limit_key nullifier epoch in
  let used_requests := default 0 (requests l !! key) in
  let used_lots := default 0 (lots l !! key) in
  r ← add_u64 used_requests 1;
  if max_requests (limits l) <? r then Some (Err RequestCap, l)
  else
    v ← add_u64 used_lots lots_asked;
    if max_probe_lots (limits l) <? v then Some (Err ProbeVolumeCap, l)
    else Some (Ok tt, mkEntityRateLimiter (limits l) (<[key := r]> (requests l)) (<[key := v]> (lots l)) (epsilon l)).

Definition spend_epsilon (l : EntityRateLimiter) (nullifier : Point) (epoch : N) (asked : f64) :
    result Refused unit * EntityRateLimiter :=
  let key := limit_key nullifier epoch in
  let spent := default f64_zero (epsilon l !! key) in
  if SFltb (f_add (max_epsilon (limits l)) EPSILON_SLACK) (f_add spent asked) then (Err PrivacyBudget, l)
  else (Ok tt, mkEntityRateLimiter (limits l) (requests l) (lots l) (<[key := f_add spent asked]> (epsilon l))).

Definition usage (l : EntityRateLimiter) (nullifier : Point) (epoch : N) : Usage :=
  let key := limit_key nullifier epoch in
  mkUsage (default 0 (requests l !! key)) (default 0 (lots l !! key)) (default f64_zero (epsilon l !! key)).
End Limiter.

(** ** Registries list distinct entities *)

Lemma dedup_length l : (length (dedup l) <= length l)%nat.
Proof.
  induction l as [|a [|b l] IH]; [done..|].
  change (dedup (a :: b :: l)) with (if bool_decide (a = b) then dedup (b :: l) else a :: dedup (b :: l)).
  cbn [length] in IH. case_bool_decide; [|change (length (a :: dedup (b :: l))) with (S (length (dedup (b :: l))))]; cbn [length]; lia.
Qed.

Lemma dedup_adjacent l : length (dedup l) = length l <-> adjacent_equal l = false.
Proof.
  induction l as [|a [|b l] IH]; [done..|].
  change (dedup (a :: b :: l)) with (if bool_decide (a = b) then dedup (b :: l) else a :: dedup (b :: l)).
  change (adjacent_equal (a :: b :: l)) with (bool_decide (a = b) || adjacent_equal (b :: l)).
  pose proof (dedup_length (b :: l)) as Hl. case_bool_decide; cbn [orb].
  - split; [|done]. cbn [length] in *. lia.
  - rewrite <- IH. change (length (a :: dedup (b :: l))) with (S (length (dedup (b :: l)))). cbn [length]. lia.
Qed.

Lemma NoDup_adjacent l : NoDup l -> adjacent_equal l = false.
Proof.
  induction l as [|a [|b l] IH]; [done..|]. intros [Ha Hl]%NoDup_cons. cbn [adjacent_equal].
  rewrite bool_decide_eq_false_2 by (intros ->; apply Ha; left). by apply IH.
Qed.

Lemma sorted_adjacent_NoDup (l : list bytes) : key_sorted bytes_leb id l -> adjacent_equal l = false -> NoDup l.
Proof.
  induction l as [|a [|b l] IH]; [intros; constructor|intros; apply NoDup_singleton|].
  intros [Ha Hs]. cbn [adjacent_equal]. intros [Hab Hadj]%orb_false_iff. apply bool_decide_eq_false_1 in Hab.
  apply NoDup_cons. split; [|by apply IH]. intros Hin. apply elem_of_cons in Hin as [->|Hin]; [done|].
  destruct Hs as [Hb _]. rewrite Forall_forall in Hb. apply Hab. apply leb_antisym; [|by apply Hb].
  apply Forall_cons in Ha as [Hab' _]. exact Hab'.
Qed.

Lemma key_sorted_fmap {A} (f : A -> bytes) (l : list A) : key_sorted bytes_leb f l -> key_sorted bytes_leb id (f <$> l).
Proof.
  induction l as [|a l IH]; [done|]. intros [Ha Hl]. split; [|by apply IH]. by apply Forall_fmap.
Qed.

Section Presentations.
Context `{SL : ScalarLaws} `{G : !GroupOps} `{L : !GroupLaws} `{S2 : Sha256} `{HB : HybridBackend} `{HBL : !HybridLaws} `{ED : Ed25519Keys}.

Lemma registry_issue_ok c epoch expires pts signing registry :
  registry_issue c epoch expires pts signing = Ok registry ->
  points registry ≡ₚ pts /\ NoDup (compress <$> pts) /\ cohort registry = c /\ expires_at registry = expires /\
  issuer registry = hybrid_public_key signing /\
  forall now, now < expires -> verify_registry registry (issuer registry) now = Ok tt.
Proof.
  unfold registry_issue. intros Hr. apply if_err_ok in Hr as [_ Hr]. apply if_err_ok in Hr as [Hadj Hr].
  apply bind_ok in Hr as (key & Hk & Hr). apply bind_ok in Hr as (sig & Hsig & [= <-]). cbn.
  assert (key = hybrid_public_key signing) as ->.
  { unfold issuer_key_from_bytes in Hk. apply if_err_ok in Hk as [_ Hk]. by apply if_err_ok in Hk as [_ [= <-]]. }
  assert (NoDup (compress <$> sort_by_key bytes_leb compress pts)) as Hnd.
  { apply sorted_adjacent_NoDup; [|done]. apply key_sorted_fmap, sort_by_key_sorted, _. }
  split; [apply sort_by_key_perm|]. split; [by rewrite <- (sort_by_key_perm bytes_leb compress pts)|]. do 3 (split; [done|]).
  intros now Hnow. unfold verify_registry. cbn. rewrite bool_decide_eq_true_2 by done. cbn [negb].
  destruct (N.leb_spec expires now); [lia|].
  assert (adjacent_equal (sort_by_key bytes_leb id (compress <$> sort_by_key bytes_leb compress pts)) = false) as Ha.
  { apply NoDup_adjacent. by rewrite sort_by_key_perm. }
  apply dedup_adjacent in Ha. rewrite Ha, Nat.eqb_refl. cbn [negb]. rewrite bool_decide_eq_true_2 by done. cbn [negb].
  assert (hybrid_sign signing purpose_code (registry_body c epoch expires (sort_by_key bytes_leb compress pts) (hybrid_public_key signing)) = Ok sig) as Hs.
  { destruct (hybrid_sign _ _ _); [by injection Hsig as ->|done]. }
  by rewrite (hybrid_sign_verify _ _ _ _ Hs).
Qed.

(** A member's presentation is accepted, and says who to count: what a
    credential presents against a registry the trusted issuer signed verifies for
    the registry's cohort, the same scope and context, until the registry
    expires; its nullifier and its facility commitment depend on the entity's
    secret and the scope alone; and the binding a mandate signs is not changed by
    presenting again. *)
Theorem presentation_accepted `{T : TranscriptOps} `{SC : !ScalarCodec} {R} `{!ScalarRandom R} c epoch expires pts signing registry credential scope context (rng rng2 : R) p rng' p2 rng2' now :
  registry_issue c epoch expires pts signing = Ok registry ->
  present credential registry scope context rng = Ok (p, rng') -> now < expires ->
  verify_presentation p registry (hybrid_public_key signing) scope context now c = Ok tt /\
  OrDleq.proof_nullifier (p_proof p) = scope_nullifier credential scope /\
  entity_commitment p = sha256 (bstr "QOMM:KYB:FACILITY-ENTITY:v1" ++ compress (OrDleq.nullifier scope (secret credential))) /\
  (present credential registry scope context rng2 = Ok (p2, rng2') -> binding_digest p2 = binding_digest p).
Proof.
  intros Hreg Hp Hnow. destruct (registry_issue_ok _ _ _ _ _ _ Hreg) as (_ & _ & Hc & _ & Hiss & Hver).
  assert (forall (r : R) q r', present credential registry scope context r = Ok (q, r') ->
    p_cohort q = cohort registry /\ p_registry_id q = registry_id registry /\ p_scope q = scope /\ p_context_hash q = context_hash context /\
    OrDleq.verify (OrDleq.mkStatement (registry_id registry) (points registry) scope (context_hash context)) (p_proof q) = true /\
    OrDleq.proof_nullifier (p_proof q) = scope_nullifier credential scope) as Hpres.
  { intros r q r' Hq. unfold present in Hq. apply if_err_ok in Hq as [_ Hq]. apply bind_ok in Hq as (i & _ & Hq).
    apply bind_ok in Hq as ([proof r1] & Hprove & [= <- <-]). cbn. do 4 (split; [done|]).
    by apply (prove_verifies _ _ _ _ _ _ Hprove). }
  destruct (Hpres _ _ _ Hp) as (E1 & E2 & E3 & E4 & E5 & E6). split; [|split; [done|split; [by unfold entity_commitment; rewrite E6|]]].
  - unfold verify_presentation. rewrite <- Hiss, (Hver now Hnow). cbn [mbind result_bind].
    rewrite E1, E2, E3, E4, Hc, !bool_decide_eq_true_2 by done. cbn [negb orb]. by rewrite E5.
  - intros Hp2. destruct (Hpres _ _ _ Hp2) as (F1 & F2 & F3 & F4 & _ & F6). unfold binding_digest, binding_message.
    by rewrite E1, E2, E3, E4, E6, F1, F2, F3, F4, F6.
Qed.

(** An accepted presentation is a member's: two presentations accepted
    against one registry with the same nullifier and first moves and different
    challenges give a secret whose point is in the registry and whose nullifier
    in the scope is the one that was presented. *)
Theorem accepted_presentation_extracts (T T' : TranscriptOps) p p' registry trusted scope context now now' cohort_required cohort_required' :
  verify_presentation (T:=T) p registry trusted scope context now cohort_required = Ok tt ->
  verify_presentation (T:=T') p' registry trusted scope context now' cohort_required' = Ok tt ->
  let statement := OrDleq.mkStatement (registry_id registry) (points registry) scope (context_hash context) in
  OrDleq.proof_nullifier (p_proof p) = OrDleq.proof_nullifier (p_proof p') ->
  OrDleq.commits_g statement (p_proof p) = OrDleq.commits_g statement (p_proof p') ->
  OrDleq.commits_h statement (p_proof p) = OrDleq.commits_h statement (p_proof p') ->
  scalar_sum (OrDleq.challenges (p_proof p)) <> scalar_sum (OrDleq.challenges (p_proof p')) ->
  exists x, (basepoint * x)%P ∈ points registry /\ OrDleq.proof_nullifier (p_proof p) = OrDleq.nullifier scope x.
Proof.
  assert (forall (T0 : TranscriptOps) q n k, verify_presentation (T:=T0) q registry trusted scope context n k = Ok tt ->
    OrDleq.verify (OrDleq.mkStatement (registry_id registry) (points registry) scope (context_hash context)) (p_proof q) = true) as Hv.
  { intros T0 q n k Hq. unfold verify_presentation in Hq. apply bind_ok in Hq as (_ & _ & Hq).
    repeat (apply if_err_ok in Hq as [?Hc Hq]). by apply negb_false_iff. }
  intros H1%Hv H2%Hv statement Hn Hg Hh Hne.
  destruct (member_extracted T T' statement (p_proof p) (p_proof p') H1 H2 Hn Hg Hh Hne) as (i & x & _ & Hi & Hx).
  exists x. split; [|exact Hx]. by apply list_elem_of_lookup_2 in Hi.
Qed.
End Presentations.

(** ** Limits *)

Section Limits.
Context `{G : GroupOps}.

Inductive LimitCall :=
  | Request (nullifier : Point) (epoch asked : N)
  | Spend (nullifier : Point) (epoch : N) (asked : f64).

(** A call, with the request it admitted, if any; [None] where it panics. *)
Definition limit_step {B : Build} (st : EntityRateLimiter * list (LimitKey * N)) (call : LimitCall) :
    option (EntityRateLimiter * list (LimitKey * N)) :=
  match call with
  | Request n e asked =>
      x ← allow_request st.1 n e asked;
      Some (x.2, if is_ok x.1 then st.2 ++ [(limit_key n e, asked)] else st.2)
  | Spend n e asked => Some ((spend_epsilon st.1 n e asked).2, st.2)
  end.
Definition limit_run {B : Build} (limits : EntityLimits) (calls : list LimitCall) : option (EntityRateLimiter * list (LimitKey * N)) :=
  foldl (fun st call => x ← st; limit_step x call) (Some (limiter_new limits, [])) calls.

(** The requests admitted under a key. *)
Definition admitted (key : LimitKey) (l : list (LimitKey * N)) : list (LimitKey * N) := filter (fun r => r.1 = key) l.

Record limiter_inv (lim : EntityLimits) (st : EntityRateLimiter * list (LimitKey * N)) : Prop := {
  lv_limits : limits st.1 = lim;
  lv_requests : forall key, default 0 (requests st.1 !! key) = N.of_nat (length (admitted key st.2));
  lv_lots : forall key, default 0 (lots st.1 !! key) = sumN snd (admitted key st.2);
  lv_cap : forall key, admitted key st.2 <> [] ->
    N.of_nat (length (admitted key st.2)) <= max_requests lim /\ sumN snd (admitted key st.2) <= max_probe_lots lim
}.

Lemma admitted_snoc key l r : admitted key (l ++ [r]) = admitted key l ++ (if decide (r.1 = key) then [r] else []).
Proof. unfold admitted. rewrite filter_app, filter_cons. by case_decide. Qed.

Lemma limit_step_inv lim st call st' : limiter_inv lim st -> limit_step (B:=Debug) st call = Some st' -> limiter_inv lim st'.
Proof.
  intros [E1 E2 E3 E4] Hs. destruct call as [n e asked|n e asked]; cbn in Hs.
  2:{ injection Hs as <-. unfold spend_epsilon. case_match; split; done. }
  apply bind_Some in Hs as ([r l'] & Hr & [= <-]). unfold allow_request in Hr.
  apply bind_Some in Hr as (q & Hq & Hr). case_match eqn:Hcap; [injection Hr as <- <-; done|].
  apply bind_Some in Hr as (v & Hv & Hr). case_match eqn:Hlots; [injection Hr as <- <-; done|]. injection Hr as <- <-.
  apply N.ltb_ge in Hcap, Hlots. unfold add_u64 in Hq, Hv.
  destruct (_ <=? _) eqn:H1 in Hq; [|done]. destruct (_ <=? _) eqn:H2 in Hv; [|done]. injection Hq as <-. injection Hv as <-.
  rewrite E2 in Hcap. rewrite E3 in Hlots. rewrite E1 in Hcap, Hlots.
  assert (forall k : LimitKey, sumN snd [(k, asked)] = asked) as Hone by (intros; unfold sumN; cbn; lia).
  split; cbn [fst snd limits requests lots is_ok].
  - done.
  - intros key. rewrite admitted_snoc, length_app. destruct (decide (limit_key n e = key)) as [<-|Hne].
    + rewrite decide_True, lookup_insert_eq by done. cbn [default]. unfold id. rewrite E2. cbn [length]. lia.
    + rewrite decide_False, lookup_insert_ne, E2 by done. cbn [length]. lia.
  - intros key. rewrite admitted_snoc, sumN_app. destruct (decide (limit_key n e = key)) as [<-|Hne].
    + rewrite decide_True, lookup_insert_eq, Hone by done. cbn [default]. unfold id. by rewrite E3.
    + rewrite decide_False, lookup_insert_ne, E3 by done. change (sumN snd []) with 0. lia.
  - intros key. rewrite admitted_snoc, length_app, sumN_app. destruct (decide (limit_key n e = key)) as [<-|Hne].
    + rewrite decide_True, Hone by done. cbn [length]. intros _. lia.
    + rewrite decide_False, app_nil_r by done. change (sumN snd []) with 0. intros Hk. specialize (E4 key Hk). cbn [length]. lia.
Qed.

(** C24: the caps hold per entity: in a build with overflow checks, after any
    sequence of calls the usage under a nullifier and epoch is exactly the number
    of requests admitted there and the lots they asked for, whatever wallets sent
    them, and neither exceeds its cap. *)
Theorem entity_caps_hold lim calls l accepted nullifier epoch :
  limit_run (B:=Debug) lim calls = Some (l, accepted) ->
  let mine := admitted (limit_key nullifier epoch) accepted in
  u_requests (usage l nullifier epoch) = N.of_nat (length mine) /\
  u_lots (usage l nullifier epoch) = sumN snd mine /\
  (mine <> [] -> N.of_nat (length mine) <= max_requests lim /\ sumN snd mine <= max_probe_lots lim).
Proof.
  intros Hr. assert (forall calls st, foldl (fun st call => x ← st; limit_step (B:=Debug) x call) (Some (limiter_new lim, [])) calls = Some st ->
    limiter_inv lim st) as Hall.
  { clear. induction calls as [|call calls IH] using rev_ind; intros st Hst.
    - injection Hst as <-. split; try done.
    - rewrite foldl_app in Hst. cbn in Hst. apply bind_Some in Hst as (st0 & H0 & Hst). eapply limit_step_inv; [|exact Hst]. by apply IH. }
  destruct (Hall _ _ Hr) as [E1 E2 E3 E4]. cbn in *. split; [apply E2|]. split; [apply E3|]. apply E4.
Qed.

Lemma allow_request_admits {B : Build} l n e asked r v :
  add_u64 (default 0 (requests l !! limit_key n e)) 1 = Some r -> r <= max_requests (limits l) ->
  add_u64 (default 0 (lots l !! limit_key n e)) asked = Some v -> v <= max_probe_lots (limits l) ->
  allow_request l n e asked = Some (Ok tt, mkEntityRateLimiter (limits l) (<[limit_key n e := r]> (requests l))
    (<[limit_key n e := v]> (lots l)) (epsilon l)).
Proof.
  intros Hr Hr' Hv Hv'. unfold allow_request. rewrite Hr. cbn [mbind option_bind]. rewrite (proj2 (N.ltb_ge _ _)) by done.
  rewrite Hv. cbn [mbind option_bind]. by rewrite (proj2 (N.ltb_ge _ _)) by done.
Qed.

(** Without overflow checks the lot cap does not hold: after one admitted
    lot, a request for 2^64 - 1 lots is admitted too, and the usage it leaves is
    zero lots. *)
Theorem wrapped_lots_reset_the_cap lim (nullifier : Point) epoch :
  2 <= max_requests lim -> 1 <= max_probe_lots lim ->
  exists l, limit_run (B:=Release) lim [Request nullifier epoch 1; Request nullifier epoch U64_MAX]
      = Some (l, [(limit_key nullifier epoch, 1); (limit_key nullifier epoch, U64_MAX)]) /\
    u_lots (usage l nullifier epoch) = 0.
Proof.
  intros Hr Hl. eexists. split.
  - unfold limit_run. cbn [foldl mbind option_bind limit_step fst snd].
    rewrite (allow_request_admits (limiter_new lim) nullifier epoch 1 1 1);
      [|cbn [limiter_new requests lots limits]; rewrite ?lookup_empty; (reflexivity || lia)..].
    cbn [mbind option_bind fst snd is_ok].
    rewrite (allow_request_admits _ nullifier epoch U64_MAX 2 0); [reflexivity|..]; cbn [requests lots limits limiter_new];
      rewrite ?lookup_insert_eq; try done; lia.
  - cbn. by rewrite lookup_insert_eq.
Qed.

(** A privacy spend that is not a number removes the budget: it is admitted
    whatever was spent before, and after it every spend is admitted. *)
Theorem nan_epsilon_removes_the_budget l (nullifier : Point) epoch :
  exists l', spend_epsilon l nullifier epoch S754_nan = (Ok tt, l') /\
    forall asked, exists l'', spend_epsilon l' nullifier epoch asked = (Ok tt, l'').
Proof.
  assert (forall x, f_add x S754_nan = S754_nan) as Hn by (by intros []).
  assert (forall x, f_add S754_nan x = S754_nan) as Hn' by done.
  assert (forall x, SFltb x S754_nan = false) as Hlt by (by intros [[]|[]| |[]]).
  eexists. split.
  - unfold spend_epsilon. by rewrite Hn, Hlt.
  - intros asked. eexists. unfold spend_epsilon. cbn [epsilon limits]. rewrite lookup_insert_eq. cbn [default]. unfold id.
    by rewrite Hn', Hlt.
Qed.
End Limits.
End Kyb.
