(* ===== verification/Mandate.v ===== *)
(** * Pre-trade mandates

    [zkpi-committee/src/mandate.rs]: the maker's policy mandate and the taker's
    execution mandate, their canonical bodies, signatures and wires, and their
    verification against a KYB presentation. *)

From S2P Require Import Prelude.
From S2P Require Import Interfaces.
From S2P Require Import ApplicationCrypto.
From S2P Require Import Curve.
From S2P Require Import Reader.
From S2P Require Import Membership.
From S2P Require Import Kyb.

Open Scope N_scope.

Module Mandate.

Definition MAKER_DOMAIN : bytes := bstr "QOMM:MAKER:POLICY-MANDATE:v2".
Definition TAKER_DOMAIN : bytes := bstr "QOMM:TAKER:EXECUTION-MANDATE:v2".
Definition MAKER_WIRE_MAGIC : bytes := bstr "QOMM:MAKER-MANDATE:WIRE:v2".
Definition TAKER_WIRE_MAGIC : bytes := bstr "QOMM:TAKER-MANDATE:WIRE:v2".

Inductive Direction := TakerBuys | TakerSells.
#[global] Instance direction_dec : EqDecision Direction.
Proof. solve_decision. Defined.
Definition direction_byte (d : Direction) : byte := match d with TakerBuys => x01 | TakerSells => x02 end.
Definition bool_byte (b : bool) : byte := if b then x01 else x00.

Definition push_bytes (value : bytes) : bytes := be_bytes 4 (N.of_nat (length value)) ++ value.
Definition nonzero (values : list bytes) : bool := negb (contains_zero values).

(** ** The reader *)

Abbreviation reader A := (bytes -> result string (A * bytes)) (only parsing).

Definition mandate_take (n : nat) (name : string) : reader bytes := read_take (fun _ => "mandate is truncated at " +:+ name) n.
Definition mandate_u64 (name : string) : reader N := read_be (fun _ => "mandate is truncated at " +:+ name) 8.
Definition mandate_boolean (name : string) : reader bool := fun r =>
  '(b, r) ← mandate_take 1 name r;
  match b with
  | [x00] => Ok (false, r)
  | [x01] => Ok (true, r)
  | _ => Err ("mandate " +:+ name +:+ " is not canonical")
  end.
Definition mandate_direction : reader Direction := fun r =>
  '(b, r) ← mandate_take 1 "direction" r;
  match b with
  | [x01] => Ok (TakerBuys, r)
  | [x02] => Ok (TakerSells, r)
  | _ => Err "mandate direction is invalid"
  end.

(** [MandateReader::new], the fields, and [finish]. *)
Definition mandate_reader {A} (domain : bytes) (fields : reader A) (b : bytes) : result string A :=
  if negb (bool_decide (take (length domain) b = domain)) then Err "mandate has the wrong domain"
  else finish (fun _ => "mandate has trailing bytes") fields (drop (length domain) b).

(** ** Mandates *)

Record MakerPolicyMandate := mkMaker {
  m_venue_id : bytes;
  m_defmi_id : bytes;
  m_policy_digest : bytes;
  m_policy_version : N;
  m_asset_id : bytes;
  m_direction : Direction;
  m_reserve_id : bytes;
  m_maximum_amount_commitment : bytes;
  m_maker_handle : bytes;
  m_entity_commitment : bytes;
  m_kyb_presentation_digest : bytes;
  m_valid_from : N;
  m_valid_until : N;
  m_auto_execute : bool;
  m_maker_public : bytes;
  m_signature : bytes
}.

Record TakerExecutionMandate := mkTaker {
  t_venue_id : bytes;
  t_defmi_id : bytes;
  t_rfq_nullifier : bytes;
  t_asset_id : bytes;
  t_reserve_asset_id : bytes;
  t_direction : Direction;
  t_quantity_commitment : bytes;
  t_limit_price_commitment : bytes;
  t_maximum_fee_commitment : bytes;
  t_maximum_amount_commitment : bytes;
  t_reserve_id : bytes;
  t_taker_handle : bytes;
  t_entity_commitment : bytes;
  t_kyb_presentation_digest : bytes;
  t_admission_ticket_id : bytes;
  t_admission_slot : N;
  t_fill_mask_commitment : bytes;
  t_deadline : N;
  t_allow_partial : bool;
  t_auto_settle : bool;
  t_taker_public : bytes;
  t_signature : bytes
}.

Definition maker_body (m : MakerPolicyMandate) : bytes :=
  m_venue_id m ++ m_defmi_id m ++ m_policy_digest m ++ be_bytes 8 (m_policy_version m) ++ m_asset_id m
    ++ [direction_byte (m_direction m)] ++ m_reserve_id m ++ m_maximum_amount_commitment m ++ m_maker_handle m
    ++ m_entity_commitment m ++ m_kyb_presentation_digest m ++ be_bytes 8 (m_valid_from m) ++ be_bytes 8 (m_valid_until m)
    ++ [bool_byte (m_auto_execute m)] ++ m_maker_public m.

Definition taker_body (t : TakerExecutionMandate) : bytes :=
  t_venue_id t ++ t_defmi_id t ++ t_rfq_nullifier t ++ t_asset_id t ++ t_reserve_asset_id t ++ [direction_byte (t_direction t)]
    ++ t_quantity_commitment t ++ t_limit_price_commitment t ++ t_maximum_fee_commitment t ++ t_maximum_amount_commitment t
    ++ t_reserve_id t ++ t_taker_handle t ++ t_entity_commitment t ++ t_kyb_presentation_digest t ++ t_admission_ticket_id t
    ++ be_bytes 8 (t_admission_slot t) ++ t_fill_mask_commitment t ++ be_bytes 8 (t_deadline t)
    ++ [bool_byte (t_allow_partial t)] ++ [bool_byte (t_auto_settle t)] ++ t_taker_public t.

Definition maker_fields (signature : bytes) : reader MakerPolicyMandate := fun r =>
  '(venue_id, r) ← mandate_take 32 "venue" r;
  '(defmi_id, r) ← mandate_take 32 "DeFMI" r;
  '(policy_digest, r) ← mandate_take 32 "policy" r;
  '(policy_version, r) ← mandate_u64 "policy version" r;
  '(asset_id, r) ← mandate_take 32 "asset" r;
  '(direction, r) ← mandate_direction r;
  '(reserve_id, r) ← mandate_take 32 "reserve" r;
  '(maximum_amount, r) ← mandate_take 32 "maximum amount" r;
  '(maker_handle, r) ← mandate_take 32 "Maker handle" r;
  '(entity, r) ← mandate_take 32 "entity" r;
  '(kyb, r) ← mandate_take 32 "KYB presentation" r;
  '(valid_from, r) ← mandate_u64 "valid from" r;
  '(valid_until, r) ← mandate_u64 "valid until" r;
  '(auto_execute, r) ← mandate_boolean "auto execute" r;
  '(maker_public, r) ← mandate_take 32 "Maker public key" r;
  Ok (mkMaker venue_id defmi_id policy_digest policy_version asset_id direction reserve_id maximum_amount maker_handle entity kyb
        valid_from valid_until auto_execute maker_public signature, r).

Definition taker_fields (signature : bytes) : reader TakerExecutionMandate := fun r =>
  '(venue_id, r) ← mandate_take 32 "venue" r;
  '(defmi_id, r) ← mandate_take 32 "DeFMI" r;
  '(rfq_nullifier, r) ← mandate_take 32 "RFQ nullifier" r;
  '(asset_id, r) ← mandate_take 32 "traded asset" r;
  '(reserve_asset_id, r) ← mandate_take 32 "reserve asset" r;
  '(direction, r) ← mandate_direction r;
  '(quantity, r) ← mandate_take 32 "quantity" r;
  '(limit_price, r) ← mandate_take 32 "limit price" r;
  '(maximum_fee, r) ← mandate_take 32 "maximum fee" r;
  '(maximum_amount, r) ← mandate_take 32 "maximum amount" r;
  '(reserve_id, r) ← mandate_take 32 "reserve" r;
  '(taker_handle, r) ← mandate_take 32 "Taker handle" r;
  '(entity, r) ← mandate_take 32 "entity" r;
  '(kyb, r) ← mandate_take 32 "KYB presentation" r;
  '(ticket, r) ← mandate_take 32 "admission ticket" r;
  '(slot, r) ← mandate_u64 "admission slot" r;
  '(fill_mask, r) ← mandate_take 32 "fill mask commitment" r;
  '(deadline, r) ← mandate_u64 "deadline" r;
  '(allow_partial, r) ← mandate_boolean "allow partial" r;
  '(auto_settle, r) ← mandate_boolean "auto settle" r;
  '(taker_public, r) ← mandate_take 32 "Taker public key" r;
  Ok (mkTaker venue_id defmi_id rfq_nullifier asset_id reserve_asset_id direction quantity limit_price maximum_fee maximum_amount
        reserve_id taker_handle entity kyb ticket slot fill_mask deadline allow_partial auto_settle taker_public signature, r).

Section Mandates.
Context `{G : GroupOps} `{PC : !PointCodec} `{T : TranscriptOps} `{S2 : Sha256} `{HB : HybridBackend} `{ED : Ed25519Keys} `{SC : !ScalarCodec}.

Definition valid_handle (value : bytes) : bool := match decompress value with Some _ => true | None => false end.

Definition maker_unsigned (m : MakerPolicyMandate) : result string bytes :=
  if (m_policy_version m =? 0) || (m_valid_from m =? 0) || (m_valid_until m <? m_valid_from m) || negb (m_auto_execute m)
     || negb (valid_handle (m_maker_handle m))
     || negb (nonzero [m_venue_id m; m_defmi_id m; m_policy_digest m; m_asset_id m; m_reserve_id m; m_maximum_amount_commitment m;
          m_entity_commitment m; m_kyb_presentation_digest m; m_maker_public m])
  then Err "Maker policy mandate is incomplete or cannot auto-execute"
  else Ok (MAKER_DOMAIN ++ maker_body m).

Definition taker_unsigned (t : TakerExecutionMandate) : result string bytes :=
  if (t_deadline t =? 0) || negb (t_auto_settle t) || negb (valid_handle (t_taker_handle t))
     || negb (nonzero [t_venue_id t; t_defmi_id t; t_rfq_nullifier t; t_asset_id t; t_reserve_asset_id t; t_quantity_commitment t;
          t_limit_price_commitment t; t_maximum_fee_commitment t; t_maximum_amount_commitment t; t_reserve_id t; t_entity_commitment t;
          t_kyb_presentation_digest t; t_admission_ticket_id t; t_fill_mask_commitment t; t_taker_public t])
  then Err "Taker mandate is incomplete or cannot auto-settle"
  else Ok (TAKER_DOMAIN ++ taker_body t).

(** The signature check both mandates end with; [role] names the key and [kind]
    the mandate in the errors. *)
Definition check_signature (role kind : string) (public : bytes) (unsigned : result string bytes) (signature : bytes) : result string unit :=
  key ← map_err (fun _ => role +:+ " public key is malformed") (App.verifying_key_from_bytes public);
  body ← unsigned;
  map_err (fun _ => kind +:+ " signature is invalid") (App.verify key body signature).

Definition maker_verify_signature (m : MakerPolicyMandate) : result string unit :=
  check_signature "Maker" "Maker policy mandate" (m_maker_public m) (maker_unsigned m) (m_signature m).
Definition taker_verify_signature (t : TakerExecutionMandate) : result string unit :=
  check_signature "Taker" "Taker execution mandate" (t_taker_public t) (taker_unsigned t) (t_signature t).

Definition maker_verify_signature_at (m : MakerPolicyMandate) (now : N) : result string unit :=
  if (now <? m_valid_from m) || (m_valid_until m <? now) then Err "Maker policy mandate is not currently valid"
  else maker_verify_signature m.
Definition taker_verify_signature_at (t : TakerExecutionMandate) (now : N) : result string unit :=
  if t_deadline t <? now then Err "Taker execution mandate has expired" else taker_verify_signature t.

Definition maker_from_signed_bytes (unsigned signature : bytes) : result string MakerPolicyMandate :=
  value ← mandate_reader MAKER_DOMAIN (maker_fields signature) unsigned;
  body ← maker_unsigned value;
  if negb (bool_decide (body = unsigned)) then Err "Maker mandate is not canonically encoded"
  else _ ← maker_verify_signature value; Ok value.
Definition taker_from_signed_bytes (unsigned signature : bytes) : result string TakerExecutionMandate :=
  value ← mandate_reader TAKER_DOMAIN (taker_fields signature) unsigned;
  body ← taker_unsigned value;
  if negb (bool_decide (body = unsigned)) then Err "Taker mandate is not canonically encoded"
  else _ ← taker_verify_signature value; Ok value.

Definition maker_digest (m : MakerPolicyMandate) : result string bytes :=
  body ← maker_unsigned m; Ok (sha256 (body ++ m_signature m)).
Definition taker_digest (t : TakerExecutionMandate) : result string bytes :=
  body ← taker_unsigned t; Ok (sha256 (body ++ t_signature t)).

Definition maker_with (m : MakerPolicyMandate) (signature : bytes) : MakerPolicyMandate :=
  mkMaker (m_venue_id m) (m_defmi_id m) (m_policy_digest m) (m_policy_version m) (m_asset_id m) (m_direction m) (m_reserve_id m)
    (m_maximum_amount_commitment m) (m_maker_handle m) (m_entity_commitment m) (m_kyb_presentation_digest m) (m_valid_from m)
    (m_valid_until m) (m_auto_execute m) (m_maker_public m) signature.
Definition taker_with (t : TakerExecutionMandate) (signature : bytes) : TakerExecutionMandate :=
  mkTaker (t_venue_id t) (t_defmi_id t) (t_rfq_nullifier t) (t_asset_id t) (t_reserve_asset_id t) (t_direction t) (t_quantity_commitment t)
    (t_limit_price_commitment t) (t_maximum_fee_commitment t) (t_maximum_amount_commitment t) (t_reserve_id t) (t_taker_handle t)
    (t_entity_commitment t) (t_kyb_presentation_digest t) (t_admission_ticket_id t) (t_admission_slot t) (t_fill_mask_commitment t)
    (t_deadline t) (t_allow_partial t) (t_auto_settle t) (t_taker_public t) signature.

Definition maker_sign (m : MakerPolicyMandate) (key : App.SigningKey) : result string MakerPolicyMandate :=
  if negb (bool_decide (m_maker_public m = App.verifying_key key)) then Err "Maker signing key does not match the mandate"
  else body ← maker_unsigned m; signature ← App.try_sign key body; Ok (maker_with m signature).
Definition taker_sign (t : TakerExecutionMandate) (key : App.SigningKey) : result string TakerExecutionMandate :=
  if negb (bool_decide (t_taker_public t = App.verifying_key key)) then Err "Taker signing key does not match the mandate"
  else body ← taker_unsigned t; signature ← App.try_sign key body; Ok (taker_with t signature).

(** The errors of a presentation, as [{error:?}] prints them. *)
Definition invalid_debug (e : Kyb.Invalid) : string :=
  match e with
  | Kyb.NotFromTrustedIssuer => "NotFromTrustedIssuer"
  | Kyb.Expired => "Expired"
  | Kyb.DuplicateEntries => "DuplicateEntries"
  | Kyb.RegistryIdMismatch => "RegistryIdMismatch"
  | Kyb.BadIssuerSignature => "BadIssuerSignature"
  | Kyb.WrongCohort => "WrongCohort"
  | Kyb.WrongRegistryEpoch => "WrongRegistryEpoch"
  | Kyb.WrongScopeOrContext => "WrongScopeOrContext"
  | Kyb.MembershipProofFailed => "MembershipProofFailed"
  end.

Definition maker_verify (m : MakerPolicyMandate) (p : Kyb.KybPresentation) (registry : Kyb.SignedCohortRegistry)
    (trusted_issuer kyb_scope kyb_context : bytes) (required_cohort : string) (now : N) : result string unit :=
  if (now <? m_valid_from m) || (m_valid_until m <? now) then Err "Maker policy mandate is not currently valid"
  else
    _ ← map_err (fun e => "Maker KYB presentation failed: " +:+ invalid_debug e)
          (Kyb.verify_presentation p registry trusted_issuer kyb_scope kyb_context now required_cohort);
    if negb (bool_decide (m_kyb_presentation_digest m = Kyb.binding_digest p))
       || negb (bool_decide (m_entity_commitment m = Kyb.entity_commitment p))
    then Err "Maker mandate is bound to another legal entity proof"
    else check_signature "Maker" "Maker policy mandate" (m_maker_public m) (maker_unsigned m) (m_signature m).

Definition taker_verify (t : TakerExecutionMandate) (p : Kyb.KybPresentation) (registry : Kyb.SignedCohortRegistry)
    (trusted_issuer kyb_scope kyb_context : bytes) (required_cohort : string) (now : N) : result string unit :=
  if t_deadline t <? now then Err "Taker execution mandate has expired"
  else
    _ ← map_err (fun e => "Taker KYB presentation failed: " +:+ invalid_debug e)
          (Kyb.verify_presentation p registry trusted_issuer kyb_scope kyb_context now required_cohort);
    if negb (bool_decide (t_kyb_presentation_digest t = Kyb.binding_digest p))
       || negb (bool_decide (t_entity_commitment t = Kyb.entity_commitment p))
    then Err "Taker mandate is bound to another legal entity proof"
    else check_signature "Taker" "Taker execution mandate" (t_taker_public t) (taker_unsigned t) (t_signature t).

(** ** Wires *)

(** [error.to_string()] of the one signature error. *)
Definition SIGNATURE_ERROR : string := "invalid QOMM v2 hybrid application key or signature; legacy Ed25519-only material requires explicit re-enrollment".

Definition encode_signed_mandate (magic body signature : bytes) : result string bytes :=
  if U32_MAX <? N.of_nat (length body) then Err "mandate body exceeds the canonical wire length"
  else
    _ ← map_err (fun _ => SIGNATURE_ERROR) (App.signature_try_from signature);
    Ok (magic ++ be_bytes 4 (N.of_nat (length body)) ++ body ++ signature).

Definition decode_signed_mandate (magic raw : bytes) : result string (bytes * bytes) :=
  let header := (length magic + 4)%nat in
  if (length raw <? header + App.SIGNATURE_BYTES)%nat || negb (bool_decide (take (length magic) raw = magic))
  then Err "mandate wire has an invalid header"
  else
    let body_len := N.to_nat (of_be_bytes (slice (length magic) header raw)) in
    if negb (length raw =? header + body_len + App.SIGNATURE_BYTES)%nat then Err "mandate wire has a non-canonical length"
    else
      let body := slice header (header + body_len) raw in
      let signature := drop (header + body_len) raw in
      _ ← map_err (fun _ => SIGNATURE_ERROR) (App.signature_try_from signature);
      Ok (body, signature).

Definition encode_maker_mandate (m : MakerPolicyMandate) : result string bytes :=
  body ← maker_unsigned m; encode_signed_mandate MAKER_WIRE_MAGIC body (m_signature m).
Definition decode_maker_mandate (raw : bytes) : result string MakerPolicyMandate :=
  '(body, signature) ← decode_signed_mandate MAKER_WIRE_MAGIC raw; maker_from_signed_bytes body signature.
Definition encode_taker_mandate (t : TakerExecutionMandate) : result string bytes :=
  body ← taker_unsigned t; encode_signed_mandate TAKER_WIRE_MAGIC body (t_signature t).
Definition decode_taker_mandate (raw : bytes) : result string TakerExecutionMandate :=
  '(body, signature) ← decode_signed_mandate TAKER_WIRE_MAGIC raw; taker_from_signed_bytes body signature.

Definition admission_receipt_digest (receipt : bytes) : result string bytes :=
  if (length receipt =? 0)%nat then Err "admission receipt is empty"
  else Ok (sha256 (bstr "QOMM:MANDATE:ADMISSION-RECEIPT:v2" ++ push_bytes receipt)).
End Mandates.
End Mandate.

(** ** What the mandate decoders accept *)

Section MandateProofs.
Context `{G : GroupOps} `{PC : !PointCodec} `{T : TranscriptOps} `{S2 : Sha256} `{HB : HybridBackend} `{HBL : !HybridLaws} `{ED : Ed25519Keys} `{SC : !ScalarCodec}.
Import Mandate.

Instance reads_mandate_take n name : reads (mandate_take n name) (fun b => length b = n) id := reads_take _ n.
Instance reads_mandate_u64 name : reads (mandate_u64 name) (fun x => x < 256 ^ N.of_nat 8) (be_bytes 8) := reads_be _ 8.
Instance reads_mandate_boolean name : reads (mandate_boolean name) (fun _ => True) (fun b => [bool_byte b]).
Proof.
  intros r a rest. unfold mandate_boolean. split.
  - intros Hm. read_inv Hm as b. destruct b as [|b [|? ?]]; try done. destruct b; try done; by injection Hm as <- <-.
  - intros [_ ->]. destruct a; reflexivity.
Qed.
Instance reads_mandate_direction : reads mandate_direction (fun _ => True) (fun d => [direction_byte d]).
Proof.
  intros r a rest. unfold mandate_direction. split.
  - intros Hm. read_inv Hm as b. destruct b as [|b [|? ?]]; try done. destruct b; try done; by injection Hm as <- <-.
  - intros [_ ->]. destruct a; reflexivity.
Qed.

Lemma u64_width x : x < 256 ^ N.of_nat 8 <-> x <= U64_MAX.
Proof. unfold U64_MAX. change (256 ^ N.of_nat 8) with 18446744073709551616. lia. Qed.

Definition maker_typed (m : MakerPolicyMandate) : Prop :=
  Forall (fun b => length b = 32%nat) [m_venue_id m; m_defmi_id m; m_policy_digest m; m_asset_id m; m_reserve_id m;
    m_maximum_amount_commitment m; m_maker_handle m; m_entity_commitment m; m_kyb_presentation_digest m; m_maker_public m] /\
  m_policy_version m <= U64_MAX /\ m_valid_from m <= U64_MAX /\ m_valid_until m <= U64_MAX.

Definition taker_typed (t : TakerExecutionMandate) : Prop :=
  Forall (fun b => length b = 32%nat) [t_venue_id t; t_defmi_id t; t_rfq_nullifier t; t_asset_id t; t_reserve_asset_id t;
    t_quantity_commitment t; t_limit_price_commitment t; t_maximum_fee_commitment t; t_maximum_amount_commitment t; t_reserve_id t;
    t_taker_handle t; t_entity_commitment t; t_kyb_presentation_digest t; t_admission_ticket_id t; t_fill_mask_commitment t; t_taker_public t] /\
  t_admission_slot t <= U64_MAX /\ t_deadline t <= U64_MAX.

Lemma reads_maker signature : reads (maker_fields signature) (fun m => maker_typed m /\ m_signature m = signature) maker_body.
Proof.
  intros r m rest. unfold maker_fields, maker_body, maker_typed. split.
  - intros Hm. do 15 (let n := fresh "f" in read_inv Hm as n). injection Hm as <- <-. rewrite <- !app_assoc. rewrite !u64_width in *. cbn.
    rewrite !Forall_cons, Forall_nil. split_and!; done.
  - intros [[(Hf & Hs1 & Hs2 & Hs3) Hsig] ->]. rewrite !Forall_cons in Hf. destruct_and!. rewrite <- !app_assoc. rewrite <- u64_width in Hs1, Hs2, Hs3.
    do 15 (read_run_with ltac:(done || assumption)). rewrite <- Hsig. by destruct m.
Qed.

Lemma reads_taker signature : reads (taker_fields signature) (fun t => taker_typed t /\ t_signature t = signature) taker_body.
Proof.
  intros r t rest. unfold taker_fields, taker_body, taker_typed. split.
  - intros Hm. do 21 (let n := fresh "f" in read_inv Hm as n). injection Hm as <- <-. rewrite <- !app_assoc. rewrite !u64_width in *. cbn.
    rewrite !Forall_cons, Forall_nil. split_and!; done.
  - intros [[(Hf & Hs1 & Hs2) Hsig] ->]. rewrite !Forall_cons in Hf. destruct_and!. rewrite <- !app_assoc. rewrite <- u64_width in Hs1, Hs2.
    do 21 (read_run_with ltac:(done || assumption)). rewrite <- Hsig. by destruct t.
Qed.

Lemma mandate_reader_ok {A} domain (fields : bytes -> result string (A * bytes)) ok encoding raw a :
  reads fields ok encoding -> mandate_reader domain fields raw = Ok a <-> ok a /\ raw = domain ++ encoding a.
Proof.
  intros Hr. unfold mandate_reader. rewrite if_err_ok, (finish_ok _ _ _ _ _ _ Hr), negb_false_iff, bool_decide_eq_true. split.
  - intros (Hd & Ha & Hb). split; [done|]. by rewrite <- (take_drop (length domain) raw), Hd, Hb.
  - intros [Ha ->]. by rewrite take_app_length, drop_app_length.
Qed.

(** The body and the signature a mandate wire carries. *)
Lemma decode_signed_ok magic raw body signature :
  decode_signed_mandate magic raw = Ok (body, signature) <->
  raw = magic ++ be_bytes 4 (N.of_nat (length body)) ++ body ++ signature /\ N.of_nat (length body) <= U32_MAX
  /\ App.signature_try_from signature = Ok signature.
Proof.
  assert (forall s, App.signature_try_from s = Ok s -> length s = App.SIGNATURE_BYTES) as Hlen.
  { intros s Hs. unfold App.signature_try_from in Hs. apply bind_ok in Hs as ([] & Hv & _).
    apply App.signature_validate_ok in Hv as (p & rw & -> & Hp & Hr). rewrite App.envelope_length, Hp, Hr. done. }
  assert (256 ^ N.of_nat 4 = U32_MAX + 1) as H32 by done.
  unfold decode_signed_mandate. rewrite !if_err_ok, !bind_ok. split.
  - intros (Hh & Hc & s & Hs & [= Hb Hsig]). apply orb_false_iff in Hh as [Hh Hm].
    apply Nat.ltb_ge in Hh. apply negb_false_iff, bool_decide_eq_true_1 in Hm. apply negb_false_iff, Nat.eqb_eq in Hc.
    set (n := N.to_nat (of_be_bytes (slice (length magic) (length magic + 4) raw))) in *.
    pose proof (of_be_bytes_bound (slice (length magic) (length magic + 4) raw)) as Hbound.
    assert (length (slice (length magic) (length magic + 4) raw) = 4%nat) as H4 by (rewrite slice_length; lia). rewrite H4 in Hbound.
    assert (length body = n) as Hn. { subst body. rewrite slice_length by lia. lia. }
    assert (of_be_bytes (slice (length magic) (length magic + 4) raw) = N.of_nat n) as Hnn by (unfold n; lia).
    assert (App.signature_try_from signature = Ok signature) as Hs'.
    { rewrite <- Hsig. destruct (App.signature_try_from _) eqn:E; [|done]. unfold App.signature_try_from in E.
      by apply bind_ok in E as (_ & _ & [= <-]). }
    split; [|split; [rewrite Hn; lia|done]].
    rewrite <- (take_drop (length magic) raw) at 1. rewrite Hm. f_equal.
    rewrite Hn, <- Hnn, (be_bytes_of_be' 4) by done. rewrite <- Hb, <- Hsig. unfold slice.
    replace (length magic + 4 - length magic)%nat with 4%nat by lia. rewrite <- (take_drop 4 (drop (length magic) raw)) at 1. f_equal.
    rewrite drop_drop. rewrite <- (take_drop n (drop (length magic + 4) raw)) at 1.
    replace (length magic + 4 + n - (length magic + 4))%nat with n by lia. f_equal. rewrite drop_drop. done.
  - intros (-> & Hb & Hs). pose proof (Hlen _ Hs) as Hl.
    pose proof (be_bytes_length 4 (N.of_nat (length body))) as H4.
    assert (length (magic ++ be_bytes 4 (N.of_nat (length body)) ++ body ++ signature) = length magic + 4 + length body + App.SIGNATURE_BYTES)%nat as Hraw.
    { rewrite !length_app, H4, Hl. lia. }
    assert (slice (length magic) (length magic + 4) (magic ++ be_bytes 4 (N.of_nat (length body)) ++ body ++ signature) = be_bytes 4 (N.of_nat (length body))) as Hsl.
    { apply slice_mid; [done|]. by rewrite H4. }
    rewrite Hsl, of_be_bytes_be_small, Nat2N.id, Hraw by (rewrite H32; lia).
    split; [rewrite take_app_length, bool_decide_eq_true_2 by done; rewrite orb_false_r; apply Nat.ltb_ge; lia|].
    split; [by rewrite Nat.eqb_refl|]. exists signature.
    assert (drop (length magic + 4 + length body) (magic ++ be_bytes 4 (N.of_nat (length body)) ++ body ++ signature) = signature) as Hd.
    { rewrite !app_assoc, drop_app_length'; [done|]. rewrite !length_app, H4. lia. }
    rewrite Hd, Hs. split; [done|]. f_equal. f_equal.
    rewrite (app_assoc magic). apply slice_mid; [rewrite length_app, H4|]; lia.
Qed.

Lemma encode_signed_ok magic body signature raw :
  encode_signed_mandate magic body signature = Ok raw <->
  raw = magic ++ be_bytes 4 (N.of_nat (length body)) ++ body ++ signature /\ N.of_nat (length body) <= U32_MAX
  /\ App.signature_try_from signature = Ok signature.
Proof.
  unfold encode_signed_mandate. rewrite if_err_ok, bind_ok, N.ltb_ge.
  assert (forall s, map_err (fun _ => SIGNATURE_ERROR) (App.signature_try_from signature) = Ok s <-> App.signature_try_from signature = Ok signature /\ s = signature) as Hs.
  { intros s. unfold App.signature_try_from. destruct (App.signature_validate signature) as [[]|]; cbn; naive_solver. }
  setoid_rewrite Hs. split.
  - intros (Hl & s & [Ht _] & [= <-]). done.
  - intros (-> & Hl & Ht). split; [done|]. by exists signature.
Qed.

(** A wire around a signed body: both mandates decode and encode this way. *)
Lemma signed_wire_exact {A} magic domain (fields : bytes -> bytes -> result string (A * bytes)) (typed : A -> Prop) (body_of signature_of : A -> bytes)
    (unsigned : A -> result string bytes) (verify : A -> result string unit) e raw a :
  (forall signature, reads (fields signature) (fun a => typed a /\ signature_of a = signature) body_of) ->
  (forall a body, unsigned a = Ok body -> body = domain ++ body_of a) ->
  ('(body, signature) ← decode_signed_mandate magic raw;
   value ← mandate_reader domain (fields signature) body;
   u ← unsigned value;
   if negb (bool_decide (u = body)) then Err e else _ ← verify value; Ok value) = Ok a <->
  typed a /\ (body ← unsigned a; encode_signed_mandate magic body (signature_of a)) = Ok raw /\ verify a = Ok tt.
Proof.
  intros Hreads Hbody. rewrite !bind_ok. split.
  - intros ([body signature] & Hd & Hb). apply bind_ok in Hb as (v & Hr & Hb). apply bind_ok in Hb as (u & Hu & Hb).
    apply if_err_ok in Hb as [Hu' Hb]. apply bind_ok in Hb as ([] & Hv & [= <-]).
    apply negb_false_iff, bool_decide_eq_true_1 in Hu'. subst u.
    apply (mandate_reader_ok _ _ _ _ _ _ (Hreads signature)) in Hr as [[Ht Hsig] _]. split; [done|]. split; [|done].
    exists body. split; [done|]. rewrite Hsig. by apply encode_signed_ok, decode_signed_ok.
  - intros (Ht & (body & Hu & He) & Hv). exists (body, signature_of a). split; [by apply decode_signed_ok, encode_signed_ok|].
    pose proof (Hbody _ _ Hu) as Hb.
    rewrite (proj2 (mandate_reader_ok domain _ _ _ body a (Hreads (signature_of a)))) by done. cbn [mbind result_bind].
    rewrite Hu. cbn [mbind result_bind]. rewrite bool_decide_eq_true_2 by done. cbn [negb]. by rewrite Hv.
Qed.

(** Mandate wires carry exactly the signed mandates: bytes decode to a
    maker's or a taker's mandate exactly when they are the encoding of that
    mandate, its fields have their widths, and its signature verifies; so no
    second encoding and no unsigned mandate is accepted, and the wires of the two
    kinds are disjoint. *)
Theorem mandate_wires_exact raw m t :
  (decode_maker_mandate raw = Ok m <->
    maker_typed m /\ encode_maker_mandate m = Ok raw /\ maker_verify_signature m = Ok tt) /\
  (decode_taker_mandate raw = Ok t <->
    taker_typed t /\ encode_taker_mandate t = Ok raw /\ taker_verify_signature t = Ok tt) /\
  (decode_maker_mandate raw = Ok m -> is_ok (decode_taker_mandate raw) = false).
Proof.
  split; [|split].
  - apply (signed_wire_exact MAKER_WIRE_MAGIC MAKER_DOMAIN maker_fields maker_typed maker_body m_signature maker_unsigned maker_verify_signature);
      [exact reads_maker|]. intros a body Hu. unfold maker_unsigned in Hu. by apply if_err_ok in Hu as [_ [= <-]].
  - apply (signed_wire_exact TAKER_WIRE_MAGIC TAKER_DOMAIN taker_fields taker_typed taker_body t_signature taker_unsigned taker_verify_signature);
      [exact reads_taker|]. intros a body Hu. unfold taker_unsigned in Hu. by apply if_err_ok in Hu as [_ [= <-]].
  - intros Hm. destruct (decode_taker_mandate raw) as [t'|] eqn:E; [|done]. exfalso.
    unfold decode_maker_mandate in Hm. unfold decode_taker_mandate in E.
    apply bind_ok in Hm as ([b s] & Hd & _), E as ([b' s'] & Hd' & _).
    apply decode_signed_ok in Hd as [-> _], Hd' as [Heq _]. discriminate Heq.
Qed.

Lemma check_signature_ok role kind public unsigned signature :
  check_signature role kind public unsigned signature = Ok tt <->
  public <> ZERO32 /\ exists body, unsigned = Ok body /\ App.verify public body signature = Ok tt.
Proof.
  unfold check_signature, App.verifying_key_from_bytes. case_bool_decide as Hz.
  - split; [done|]. by intros [].
  - cbn [map_err mbind result_bind]. destruct unsigned as [body|]; cbn [mbind result_bind]; [|naive_solver].
    destruct (App.verify public body signature) as [[]|e] eqn:Hv; cbn.
    + split; [|done]. intros _. split; [done|]. by exists body.
    + split; [done|]. intros (_ & b & [= <-] & Hb). congruence.
Qed.

Lemma same_fields (a b c d : bytes) : negb (bool_decide (a = b)) || negb (bool_decide (c = d)) = false <-> a = b /\ c = d.
Proof. rewrite orb_false_iff, !negb_false_iff, !bool_decide_eq_true. done. Qed.

(** What a mandate must say to be signed at all. *)
Definition maker_complete (m : MakerPolicyMandate) : Prop :=
  m_policy_version m <> 0 /\ m_valid_from m <> 0 /\ m_valid_from m <= m_valid_until m /\ m_auto_execute m = true
  /\ is_Some (decompress (m_maker_handle m))
  /\ Forall (fun b => b <> ZERO32) [m_venue_id m; m_defmi_id m; m_policy_digest m; m_asset_id m; m_reserve_id m; m_maximum_amount_commitment m;
       m_entity_commitment m; m_kyb_presentation_digest m; m_maker_public m].
Definition taker_complete (t : TakerExecutionMandate) : Prop :=
  t_deadline t <> 0 /\ t_auto_settle t = true /\ is_Some (decompress (t_taker_handle t))
  /\ Forall (fun b => b <> ZERO32) [t_venue_id t; t_defmi_id t; t_rfq_nullifier t; t_asset_id t; t_reserve_asset_id t; t_quantity_commitment t;
       t_limit_price_commitment t; t_maximum_fee_commitment t; t_maximum_amount_commitment t; t_reserve_id t; t_entity_commitment t;
       t_kyb_presentation_digest t; t_admission_ticket_id t; t_fill_mask_commitment t; t_taker_public t].

Lemma nonzero_forall l : nonzero l = true <-> Forall (fun b => b <> ZERO32) l.
Proof. unfold nonzero. by rewrite negb_true_iff, contains_zero_false. Qed.

Lemma valid_handle_ok b : valid_handle b = true <-> is_Some (decompress b).
Proof. unfold valid_handle. destruct (decompress b); naive_solver. Qed.

Lemma maker_unsigned_ok m body : maker_unsigned m = Ok body <-> maker_complete m /\ body = MAKER_DOMAIN ++ maker_body m.
Proof.
  unfold maker_unsigned, maker_complete. rewrite if_err_ok, !orb_false_iff, !negb_false_iff, !N.eqb_neq, N.ltb_ge, valid_handle_ok, nonzero_forall.
  naive_solver.
Qed.

Lemma taker_unsigned_ok t body : taker_unsigned t = Ok body <-> taker_complete t /\ body = TAKER_DOMAIN ++ taker_body t.
Proof.
  unfold taker_unsigned, taker_complete. rewrite if_err_ok, !orb_false_iff, !negb_false_iff, !N.eqb_neq, valid_handle_ok, nonzero_forall.
  naive_solver.
Qed.

(** A signed body is the body of one mandate, whatever signature it carries. *)
Lemma maker_body_binds m m' body : maker_typed m -> maker_typed m' -> maker_unsigned m = Ok body -> maker_unsigned m' = Ok body ->
  m' = maker_with m (m_signature m').
Proof.
  intros Hm Hm' [_ E]%maker_unsigned_ok [_ E']%maker_unsigned_ok. set (s := m_signature m').
  pose proof (fun a => mandate_reader_ok MAKER_DOMAIN _ _ _ body a (reads_maker s)) as Hr.
  pose proof (proj2 (Hr m') (conj (conj Hm' eq_refl) E')) as H1.
  assert (mandate_reader MAKER_DOMAIN (maker_fields s) body = Ok (maker_with m s)) as H2 by (apply Hr; split; [by split|exact E]).
  congruence.
Qed.

Lemma taker_body_binds t t' body : taker_typed t -> taker_typed t' -> taker_unsigned t = Ok body -> taker_unsigned t' = Ok body ->
  t' = taker_with t (t_signature t').
Proof.
  intros Ht Ht' [_ E]%taker_unsigned_ok [_ E']%taker_unsigned_ok. set (s := t_signature t').
  pose proof (fun a => mandate_reader_ok TAKER_DOMAIN _ _ _ body a (reads_taker s)) as Hr.
  pose proof (proj2 (Hr t') (conj (conj Ht' eq_refl) E')) as H1.
  assert (mandate_reader TAKER_DOMAIN (taker_fields s) body = Ok (taker_with t s)) as H2 by (apply Hr; split; [by split|exact E]).
  congruence.
Qed.

Lemma roles_differ m t body : maker_unsigned m = Ok body -> taker_unsigned t <> Ok body.
Proof.
  intros [_ ->]%maker_unsigned_ok [_ E]%taker_unsigned_ok. apply (f_equal (firstn 6)) in E. by vm_compute in E.
Qed.

(** C23: a mandate authorises one legal entity in its window, and a signature
    authorises one mandate.  A maker's mandate verifies exactly between its two
    times, and a taker's until its deadline, when it is complete, with a
    presentation that verifies for the required cohort, scope and context and
    whose binding and entity it names, and with a signature of the named key over
    the role's domain and the mandate's body.  That body determines every field:
    two mandates of typed widths with one signed body differ in their signatures
    at most, and no body is one of both roles. *)
Theorem mandate_verifies_iff m t p registry issuer scope context cohort now :
  let presented binding entity := Kyb.verify_presentation p registry issuer scope context now cohort = Ok tt /\
    binding = Kyb.binding_digest p /\ entity = Kyb.entity_commitment p in
  (maker_verify m p registry issuer scope context cohort now = Ok tt <->
    m_valid_from m <= now <= m_valid_until m /\ presented (m_kyb_presentation_digest m) (m_entity_commitment m) /\
    maker_complete m /\ App.verify (m_maker_public m) (MAKER_DOMAIN ++ maker_body m) (m_signature m) = Ok tt) /\
  (taker_verify t p registry issuer scope context cohort now = Ok tt <->
    now <= t_deadline t /\ presented (t_kyb_presentation_digest t) (t_entity_commitment t) /\
    taker_complete t /\ App.verify (t_taker_public t) (TAKER_DOMAIN ++ taker_body t) (t_signature t) = Ok tt) /\
  (forall m' body, maker_typed m -> maker_typed m' -> maker_unsigned m = Ok body -> maker_unsigned m' = Ok body ->
    m' = maker_with m (m_signature m')) /\
  (forall t' body, taker_typed t -> taker_typed t' -> taker_unsigned t = Ok body -> taker_unsigned t' = Ok body ->
    t' = taker_with t (t_signature t')) /\
  (forall body, maker_unsigned m = Ok body -> taker_unsigned t <> Ok body).
Proof.
  intros presented. split; [|split; [|split; [|split]]].
  - unfold maker_verify. rewrite if_err_ok, bind_ok, orb_false_iff, !N.ltb_ge. unfold presented. split.
    + intros (Hw & [] & Hv%map_err_ok & Hr). apply if_err_ok in Hr as [[Hd He]%same_fields Hs]. apply check_signature_ok in Hs as (_ & body & Hu & Hs).
      apply maker_unsigned_ok in Hu as [Hc ->]. done.
    + intros (Hw & (Hv & Hd & He) & Hc & Hs). split; [lia|]. exists tt. split; [by apply map_err_ok|]. apply if_err_ok. split; [by apply same_fields|].
      apply check_signature_ok. split; [|eexists; split; [by apply maker_unsigned_ok | done]].
      destruct Hc as (_ & _ & _ & _ & _ & Hc). rewrite !Forall_cons in Hc. by destruct_and!.
  - unfold taker_verify. rewrite if_err_ok, bind_ok, N.ltb_ge. unfold presented. split.
    + intros (Hw & [] & Hv%map_err_ok & Hr). apply if_err_ok in Hr as [[Hd He]%same_fields Hs]. apply check_signature_ok in Hs as (_ & body & Hu & Hs).
      apply taker_unsigned_ok in Hu as [Hc ->]. done.
    + intros (Hw & (Hv & Hd & He) & Hc & Hs). split; [lia|]. exists tt. split; [by apply map_err_ok|]. apply if_err_ok. split; [by apply same_fields|].
      apply check_signature_ok. split; [|eexists; split; [by apply taker_unsigned_ok | done]].
      destruct Hc as (_ & _ & _ & Hc). rewrite !Forall_cons in Hc. by destruct_and!.
  - intros m' body. apply maker_body_binds.
  - intros t' body. apply taker_body_binds.
  - apply roles_differ.
Qed.
End MandateProofs.
