(* ===== verification/PretradeAuthority.v ===== *)
(** * Pre-trade authority

    Model of rust/zkpi-committee/src/pretrade_authority.rs: the bundle of signed
    mandates, presentations, admission lanes and verifier parameters that is
    fixed before a request is evaluated, its JSON form and digest, and the host's
    signed acknowledgement of the reservations with its body, wire and queries.
    The properties: a bundle that is written is read back as it was, with the
    digest the host acknowledges; an acknowledgement does not depend on the order
    of its reservations, nor does the reservation it yields for an owner who has
    one per side. *)

From S2P Require Import Prelude.
From S2P Require Import Interfaces.
From S2P Require Import Sorting.
From S2P Require Import ApplicationCrypto.
From S2P Require Import Order.
From S2P Require Import Curve.
From S2P Require Import Shamir.
From S2P Require Import Reader.
From S2P Require Import Membership.
From S2P Require Import Instruction.
From S2P Require Import Json.
From S2P Require Import Kyb.
From S2P Require Import Mandate.

Open Scope N_scope.

(** [frost::keys::PublicKeyPackage::deserialize]. *)
Class PackageCodec `{QuorumOps} := package_deserialize : bytes -> option FrostKeyPackage.
Class PackageCodecLaws `{PackageCodec} : Prop :=
  package_from_to : forall p raw, package_serialize p = Some raw -> package_deserialize raw = Some p.

(** [serde_json::to_vec_pretty], and that [from_slice] reads it back. *)
Class SerializePretty (A : Type) := to_vec_pretty : A -> result string bytes.
Class PrettyLaws (A : Type) `{SerializePretty A, Deserialize A} : Prop :=
  from_slice_pretty : forall (a : A) raw, to_vec_pretty a = Ok raw -> from_slice raw = Some a.

Module Pretrade.
Import Kyb.
Import Mandate.

Definition AUTHORITY_VERSION : N := 6.
Definition ACK_VERSION : N := 2.
Definition ACK_DOMAIN : bytes := bstr "QOMM:DEFMI:PRETRADE-ACK:v2".
Definition MAX_AUTHORITIES : nat := 4096.
Definition MAX_FILE : N := 33554432.

(** ** Wires *)

Record WireRegistry := mkWireRegistry {
  wr_cohort : string; wr_registry_epoch : N; wr_expires_at : N; wr_points : list string; wr_issuer : string;
  wr_registry_id : string; wr_signature : string
}.
Record WirePresentation := mkWirePresentation {
  wp_cohort : string; wp_registry_id : string; wp_scope : string; wp_context_hash : string; wp_nullifier : string;
  wp_challenges : list string; wp_responses : list string
}.
Record WireMakerMandate := mkWireMakerMandate {
  wm_venue_id : string; wm_defmi_id : string; wm_policy_digest : string; wm_policy_version : N; wm_asset_id : string;
  wm_direction : N; wm_reserve_id : string; wm_maximum_amount_commitment : string; wm_maker_handle : string;
  wm_entity_commitment : string; wm_kyb_presentation_digest : string; wm_valid_from : N; wm_valid_until : N;
  wm_auto_execute : bool; wm_maker_public : string; wm_signature : string
}.
Record WireTakerMandate := mkWireTakerMandate {
  wt_venue_id : string; wt_defmi_id : string; wt_rfq_nullifier : string; wt_asset_id : string; wt_reserve_asset_id : string;
  wt_direction : N; wt_quantity_commitment : string; wt_limit_price_commitment : string; wt_maximum_fee_commitment : string;
  wt_maximum_amount_commitment : string; wt_reserve_id : string; wt_taker_handle : string; wt_entity_commitment : string;
  wt_kyb_presentation_digest : string; wt_admission_ticket_id : string; wt_admission_slot : N; wt_fill_mask_commitment : string;
  wt_deadline : N; wt_allow_partial : bool; wt_auto_settle : bool; wt_taker_public : string; wt_signature : string
}.
Record WireOpening := mkWireOpening { wo_amount : N; wo_blinding : string }.
Record WireMakerAuthority := mkWireMakerAuthority {
  wma_maker_index : N; wma_mandate : WireMakerMandate; wma_identity_context : string; wma_presentation : WirePresentation;
  wma_acceptance_opening : WireOpening
}.
Record WireTakerAuthority := mkWireTakerAuthority {
  wta_client_index : N; wta_mandate : WireTakerMandate; wta_identity_context : string; wta_presentation : WirePresentation;
  wta_acceptance_opening : WireOpening
}.
Record WireAdmissionAttestation := mkWireAdmissionAttestation {
  waa_node : N; waa_slot : N; waa_sequence : N; waa_principal_digest : string; waa_ticket_id : string; waa_claim_digest : string;
  waa_batch_digest : string; waa_order_digest : string; waa_signature : string
}.
Record WireAdmission := mkWireAdmission {
  wad_epoch : N; wad_node_keys : list string; wad_lanes : list (list WireAdmissionAttestation)
}.
Record WireBinding := mkWireBinding {
  wb_party : N; wb_owner_index : N; wb_direction : N; wb_owner_handle : string; wb_facility_id : string; wb_reserve_id : string;
  wb_mandate_digest : string; wb_policy_digest : string; wb_amount_commitment : string; wb_reserve_receipt_digest : string
}.
Record WireAck := mkWireAck {
  wk_version : N; wk_private_pretrade_ack : bool; wk_authority_digest : string; wk_defmi_id : string; wk_after_state_root : string;
  wk_bindings : list WireBinding; wk_signer_public : string; wk_signature : string
}.

(** ** Reservations *)

Inductive ReservationParty := Maker | Taker.
#[global] Instance reservation_party_dec : EqDecision ReservationParty.
Proof. solve_decision. Defined.
Definition party_byte (p : ReservationParty) : N := match p with Maker => 1 | Taker => 2 end.
Definition party_try_from (value : N) : result string ReservationParty :=
  if value =? 1 then Ok Maker else if value =? 2 then Ok Taker else Err "pre-trade reservation party is invalid".

(** [direction as u8]. *)
Definition side_byte (d : Direction) : N := match d with TakerBuys => 1 | TakerSells => 2 end.
Definition direction (value : N) : result string Direction :=
  if value =? 1 then Ok TakerBuys else if value =? 2 then Ok TakerSells else Err "pre-trade direction is invalid".

Record PretradeReservationBinding := mkBinding {
  rb_party : ReservationParty; rb_owner_index : N; rb_direction : Direction; rb_owner_handle : bytes; rb_facility_id : bytes;
  rb_reserve_id : bytes; rb_mandate_digest : bytes; rb_policy_digest : bytes; rb_amount_commitment : bytes;
  rb_reserve_receipt_digest : bytes
}.
#[global] Instance binding_dec : EqDecision PretradeReservationBinding.
Proof. solve_decision. Defined.

Record PretradeAcknowledgement := mkAck {
  ack_authority_digest : bytes; ack_defmi_id : bytes; ack_after_state_root : bytes; ack_bindings : list PretradeReservationBinding;
  ack_signer_public : bytes; ack_signature : bytes
}.

(** The key bindings are sorted by, and its order. *)
Definition binding_key (b : PretradeReservationBinding) : N * N * N := (party_byte (rb_party b), rb_owner_index b, side_byte (rb_direction b)).
Definition key_leb (a b : N * N * N) : bool :=
  let '(x, y, z) := a in let '(x', y', z') := b in
  (x <? x') || ((x =? x') && ((y <? y') || ((y =? y') && (z <=? z')))).

(** [windows(2).any(..)] with equal keys. *)
Fixpoint repeats_key {K} `{EqDecision K} (keys : list K) : bool :=
  match keys with
  | a :: ((b :: _) as rest) => bool_decide (a = b) || repeats_key rest
  | _ => false
  end.

Definition nonzero_id (value : bytes) (name : string) : result string unit :=
  if bool_decide (value = ZERO32) then Err (name +:+ " cannot be zero") else Ok tt.

Section Pretrade.
Context {SO : ScalarOps} {G : GroupOps} {PC : PointCodec} {SC : ScalarCodec}.
Context {SHA : Sha256} {HEX : HexEncode} {UNHEX : HexDecode} {HB : HybridBackend} {ED : Ed25519Keys}.
Context {FV : FrostVerify} {Q : QuorumOps} {PK : PackageCodec}.

(** ** Values *)

Record AcceptanceOpening := mkOpening { ao_amount : N; ao_blinding : Scalar }.
Record MakerPretradeAuthority := mkMakerAuthority {
  ma_maker_index : N; ma_mandate : MakerPolicyMandate; ma_identity_context : bytes; ma_presentation : KybPresentation;
  ma_acceptance_opening : AcceptanceOpening
}.
Record TakerPretradeAuthority := mkTakerAuthority {
  ta_client_index : N; ta_mandate : TakerExecutionMandate; ta_identity_context : bytes; ta_presentation : KybPresentation;
  ta_acceptance_opening : AcceptanceOpening
}.
Record PretradeSettlementVerifier := mkSettlementVerifier {
  sv_epoch : N; sv_quote_registry_digest : bytes; sv_quote_eligibility_bits : N; sv_quote_span_bits : N; sv_amount_bits : N;
  sv_price_bits : N; sv_max_horizon : N; sv_frost_public : FrostKeyPackage; sv_pq_committee : QuorumPolicy; sv_valid_from : N;
  sv_valid_until : N
}.
Record PretradeAdmission := mkPretradeAdmission {
  pa_epoch : N; pa_node_keys : list bytes; pa_lanes : list (list NodeAdmissionAttestation)
}.
Record PretradeAuthorityBundle := mkBundle {
  pb_created_at : N; pb_venue_id : bytes; pb_defmi_id : bytes; pb_traded_asset_id : bytes; pb_cash_asset_id : bytes;
  pb_identity_scope : bytes; pb_required_cohort : string; pb_identity_provider : string; pb_identity_evidence_digest : bytes;
  pb_registry : SignedCohortRegistry; pb_admission : option PretradeAdmission; pb_settlement_verifier : PretradeSettlementVerifier;
  pb_makers : list MakerPretradeAuthority; pb_takers : list TakerPretradeAuthority
}.
Record WireSettlementVerifier := mkWireSettlementVerifier {
  ws_epoch : N; ws_quote_registry_digest : string; ws_quote_eligibility_bits : N; ws_quote_span_bits : N; ws_amount_bits : N;
  ws_price_bits : N; ws_max_horizon : N; ws_frost_public : string; ws_pq_committee : QuorumPolicy; ws_valid_from : N; ws_valid_until : N
}.
Record WireAuthorityBundle := mkWireBundle {
  wa_version : N; wa_private_pretrade_authority : bool; wa_acceptance_only_openings : bool; wa_created_at : N; wa_venue_id : string;
  wa_defmi_id : string; wa_traded_asset_id : string; wa_cash_asset_id : string; wa_identity_scope : string; wa_required_cohort : string;
  wa_identity_provider : string; wa_identity_evidence_digest : string; wa_registry : WireRegistry; wa_admission : option WireAdmission;
  wa_settlement_verifier : WireSettlementVerifier; wa_makers : list WireMakerAuthority; wa_takers : list WireTakerAuthority
}.

(** ** Fields *)

Definition parse_hex (value message : string) : result string bytes := ok_or (hex_decode value) message.

Definition parse32 (value name : string) : result string bytes :=
  b ← parse_hex value (name +:+ " is not hexadecimal");
  if (length b =? 32)%nat then Ok b else Err (name +:+ " is not 32 bytes").

Definition parse_signature (value name : string) : result string bytes :=
  if negb (String.length value =? App.SIGNATURE_BYTES * 2)%nat then Err (name +:+ " requires a v2 hybrid envelope")
  else
    b ← parse_hex value (name +:+ " is not hexadecimal");
    map_err (fun _ => name +:+ ": invalid QOMM v2 hybrid application key or signature; legacy Ed25519-only material requires explicit re-enrollment")
      (App.signature_try_from b).

Definition point (value name : string) : result string Point :=
  b ← parse32 value name; ok_or (decompress b) (name +:+ " is not a canonical Ristretto point").
Definition scalar (value name : string) : result string Scalar :=
  b ← parse32 value name; ok_or (scalar_from_canonical b) (name +:+ " is not a canonical scalar").

(** [iter().enumerate().map(..).collect::<Result<Vec<_>, _>>()] with the index in
    the name. *)
Definition parse_all {A} (parse : string -> string -> result string A) (what : string) (values : list string) : result string (list A) :=
  map_res (fun '(index, value) => parse value (what +:+ show_nat index)) (imap pair values).

(** ** Registries and presentations *)

Definition registry_from_value (value : SignedCohortRegistry) : WireRegistry :=
  mkWireRegistry (cohort value) (registry_epoch value) (expires_at value) ((fun p => hex_encode (compress p)) <$> points value)
    (hex_encode (issuer value)) (hex_encode (registry_id value)) (hex_encode (registry_signature value)).

Definition registry_into_value (w : WireRegistry) : result string SignedCohortRegistry :=
  points ← parse_all point "registry point " (wr_points w);
  raw ← parse_hex (wr_issuer w) "malformed registry issuer";
  issuer ← map_err (fun _ => "registry issuer is malformed") (issuer_key_from_bytes raw);
  registry_id ← parse32 (wr_registry_id w) "registry id";
  signature ← parse_hex (wr_signature w) "malformed registry signature";
  Ok (mkSignedCohortRegistry (wr_cohort w) (wr_registry_epoch w) (wr_expires_at w) points issuer registry_id signature).

Definition presentation_from_value (value : KybPresentation) : WirePresentation :=
  let proof := p_proof value in
  mkWirePresentation (p_cohort value) (hex_encode (p_registry_id value)) (hex_encode (p_scope value)) (hex_encode (p_context_hash value))
    (hex_encode (compress (OrDleq.proof_nullifier proof))) ((fun s => hex_encode (scalar_to_bytes s)) <$> OrDleq.challenges proof)
    ((fun s => hex_encode (scalar_to_bytes s)) <$> OrDleq.responses proof).

Definition presentation_into_value (w : WirePresentation) : result string KybPresentation :=
  challenges ← parse_all scalar "membership challenge " (wp_challenges w);
  responses ← parse_all scalar "membership response " (wp_responses w);
  if (length challenges =? 0)%nat || negb (length challenges =? length responses)%nat
  then Err "membership proof response population is invalid"
  else
    registry_id ← parse32 (wp_registry_id w) "presentation registry id";
    scope ← parse_hex (wp_scope w) "presentation scope is malformed";
    context_hash ← parse32 (wp_context_hash w) "presentation context";
    nullifier ← point (wp_nullifier w) "presentation nullifier";
    Ok (mkKybPresentation (wp_cohort w) registry_id scope context_hash (OrDleq.mkProof nullifier challenges responses)).

(** ** Mandates *)

Definition maker_from_value (m : MakerPolicyMandate) : WireMakerMandate :=
  mkWireMakerMandate (hex_encode (m_venue_id m)) (hex_encode (m_defmi_id m)) (hex_encode (m_policy_digest m)) (m_policy_version m)
    (hex_encode (m_asset_id m)) (side_byte (m_direction m)) (hex_encode (m_reserve_id m))
    (hex_encode (m_maximum_amount_commitment m)) (hex_encode (m_maker_handle m)) (hex_encode (m_entity_commitment m))
    (hex_encode (m_kyb_presentation_digest m)) (m_valid_from m) (m_valid_until m) (m_auto_execute m) (hex_encode (m_maker_public m))
    (hex_encode (m_signature m)).

Definition maker_into_value (w : WireMakerMandate) : result string MakerPolicyMandate :=
  venue_id ← parse32 (wm_venue_id w) "Maker venue";
  defmi_id ← parse32 (wm_defmi_id w) "Maker DeFMI";
  policy_digest ← parse32 (wm_policy_digest w) "Maker policy";
  asset_id ← parse32 (wm_asset_id w) "Maker asset";
  d ← direction (wm_direction w);
  reserve_id ← parse32 (wm_reserve_id w) "Maker reserve";
  maximum_amount_commitment ← parse32 (wm_maximum_amount_commitment w) "Maker maximum amount";
  maker_handle ← parse32 (wm_maker_handle w) "Maker handle";
  entity_commitment ← parse32 (wm_entity_commitment w) "Maker entity";
  kyb_presentation_digest ← parse32 (wm_kyb_presentation_digest w) "Maker KYB presentation";
  maker_public ← parse32 (wm_maker_public w) "Maker public key";
  signature ← parse_signature (wm_signature w) "Maker signature";
  let value := mkMaker venue_id defmi_id policy_digest (wm_policy_version w) asset_id d reserve_id maximum_amount_commitment
    maker_handle entity_commitment kyb_presentation_digest (wm_valid_from w) (wm_valid_until w) (wm_auto_execute w) maker_public signature in
  _ ← maker_unsigned value;
  Ok value.

Definition taker_from_value (t : TakerExecutionMandate) : WireTakerMandate :=
  mkWireTakerMandate (hex_encode (t_venue_id t)) (hex_encode (t_defmi_id t)) (hex_encode (t_rfq_nullifier t)) (hex_encode (t_asset_id t))
    (hex_encode (t_reserve_asset_id t)) (side_byte (t_direction t)) (hex_encode (t_quantity_commitment t))
    (hex_encode (t_limit_price_commitment t)) (hex_encode (t_maximum_fee_commitment t)) (hex_encode (t_maximum_amount_commitment t))
    (hex_encode (t_reserve_id t)) (hex_encode (t_taker_handle t)) (hex_encode (t_entity_commitment t))
    (hex_encode (t_kyb_presentation_digest t)) (hex_encode (t_admission_ticket_id t)) (t_admission_slot t)
    (hex_encode (t_fill_mask_commitment t)) (t_deadline t) (t_allow_partial t) (t_auto_settle t) (hex_encode (t_taker_public t))
    (hex_encode (t_signature t)).

Definition taker_into_value (w : WireTakerMandate) : result string TakerExecutionMandate :=
  venue_id ← parse32 (wt_venue_id w) "Taker venue";
  defmi_id ← parse32 (wt_defmi_id w) "Taker DeFMI";
  rfq_nullifier ← parse32 (wt_rfq_nullifier w) "Taker RFQ";
  asset_id ← parse32 (wt_asset_id w) "Taker asset";
  reserve_asset_id ← parse32 (wt_reserve_asset_id w) "Taker reserve asset";
  d ← direction (wt_direction w);
  quantity_commitment ← parse32 (wt_quantity_commitment w) "Taker quantity";
  limit_price_commitment ← parse32 (wt_limit_price_commitment w) "Taker limit";
  maximum_fee_commitment ← parse32 (wt_maximum_fee_commitment w) "Taker fee";
  maximum_amount_commitment ← parse32 (wt_maximum_amount_commitment w) "Taker maximum amount";
  reserve_id ← parse32 (wt_reserve_id w) "Taker reserve";
  taker_handle ← parse32 (wt_taker_handle w) "Taker handle";
  entity_commitment ← parse32 (wt_entity_commitment w) "Taker entity";
  kyb_presentation_digest ← parse32 (wt_kyb_presentation_digest w) "Taker KYB presentation";
  admission_ticket_id ← parse32 (wt_admission_ticket_id w) "Taker ticket";
  fill_mask_commitment ← parse32 (wt_fill_mask_commitment w) "Taker fill mask commitment";
  taker_public ← parse32 (wt_taker_public w) "Taker public key";
  signature ← parse_signature (wt_signature w) "Taker signature";
  let value := mkTaker venue_id defmi_id rfq_nullifier asset_id reserve_asset_id d quantity_commitment limit_price_commitment
    maximum_fee_commitment maximum_amount_commitment reserve_id taker_handle entity_commitment kyb_presentation_digest
    admission_ticket_id (wt_admission_slot w) fill_mask_commitment (wt_deadline w) (wt_allow_partial w) (wt_auto_settle w) taker_public
    signature in
  _ ← taker_unsigned value;
  Ok value.

(** ** The settlement verifier *)

Definition verifier_out_of_bounds (v : PretradeSettlementVerifier) : bool :=
  (sv_epoch v =? 0) || bool_decide (sv_quote_registry_digest v = ZERO32) || (sv_quote_eligibility_bits v =? 0)
  || (62 <? sv_quote_eligibility_bits v) || (sv_quote_span_bits v =? 0) || (64 <? sv_quote_span_bits v) || (sv_amount_bits v =? 0)
  || (64 <? sv_amount_bits v) || (sv_price_bits v =? 0) || (64 <? sv_price_bits v) || (sv_max_horizon v =? 0) || (sv_valid_from v =? 0)
  || (sv_valid_until v <? sv_valid_from v).

Definition settlement_verifier_wire (v : PretradeSettlementVerifier) : result string WireSettlementVerifier :=
  if verifier_out_of_bounds v then Err "pre-trade settlement verifier is outside its bounds"
  else
    frost_public ← ok_or (package_serialize (sv_frost_public v)) "pre-trade FROST public package serialization failed";
    if (length frost_public =? 0)%nat || (65536 <? N.of_nat (length frost_public))
    then Err "pre-trade FROST public package is outside its bound"
    else
      _ ← validate_settlement_committee (sv_pq_committee v) (sv_frost_public v);
      Ok (mkWireSettlementVerifier (sv_epoch v) (hex_encode (sv_quote_registry_digest v)) (sv_quote_eligibility_bits v)
            (sv_quote_span_bits v) (sv_amount_bits v) (sv_price_bits v) (sv_max_horizon v) (hex_encode frost_public)
            (sv_pq_committee v) (sv_valid_from v) (sv_valid_until v)).

Definition settlement_verifier_from_wire (w : WireSettlementVerifier) : result string PretradeSettlementVerifier :=
  frost_public_raw ← parse_hex (ws_frost_public w) "pre-trade FROST public package is not hexadecimal";
  quote_registry_digest ← parse32 (ws_quote_registry_digest w) "quote registry digest";
  frost_public ← ok_or (package_deserialize frost_public_raw) "pre-trade FROST public package is invalid";
  let v := mkSettlementVerifier (ws_epoch w) quote_registry_digest (ws_quote_eligibility_bits w) (ws_quote_span_bits w)
    (ws_amount_bits w) (ws_price_bits w) (ws_max_horizon w) frost_public (ws_pq_committee w) (ws_valid_from w) (ws_valid_until w) in
  canonical ← settlement_verifier_wire v;
  if negb (bool_decide (ws_frost_public canonical = hex_encode frost_public_raw))
  then Err "pre-trade FROST public package is not canonical"
  else Ok v.

(** ** Admission lanes *)

Definition entry_wire (e : NodeAdmissionAttestation) : result string WireAdmissionAttestation :=
  _ ← admission_unsigned e;
  Ok (mkWireAdmissionAttestation (na_node e) (na_slot e) (na_sequence e) (hex_encode (na_principal_digest e))
        (hex_encode (na_ticket_id e)) (hex_encode (na_claim_digest e)) (hex_encode (na_batch_digest e))
        (hex_encode (na_order_digest e)) (hex_encode (na_signature e))).

(** The lanes carry the sequences [1..n], in some order. *)
Definition sequences_complete (lanes : list CertifiedAdmissionLane) : bool :=
  nodes_from cl_sequence 1 (sort_by_key N.leb cl_sequence lanes).

Definition admission_wire (a : PretradeAdmission) : result string WireAdmission :=
  if (pa_epoch a =? 0) || negb (length (pa_node_keys a) =? COMMITTEE_NODES)%nat || (length (pa_lanes a) =? 0)%nat
     || (MAX_AUTHORITIES <? length (pa_lanes a))%nat
  then Err "pre-trade admission population is invalid"
  else
    keys ← map_res (fun raw => map_err (fun _ => "pre-trade admission key is malformed") (App.verifying_key_from_bytes raw)) (pa_node_keys a);
    certified ← map_res (fun lane => verify_admission_lane lane keys) (pa_lanes a);
    if negb (sequences_complete certified) then Err "pre-trade admission lanes are incomplete or reordered"
    else
      lanes ← map_res (map_res entry_wire) (pa_lanes a);
      Ok (mkWireAdmission (pa_epoch a) (hex_encode <$> pa_node_keys a) lanes).

Definition entry_from_wire (w : WireAdmissionAttestation) : result string NodeAdmissionAttestation :=
  principal_digest ← parse32 (waa_principal_digest w) "admission principal";
  ticket_id ← parse32 (waa_ticket_id w) "admission ticket";
  claim_digest ← parse32 (waa_claim_digest w) "admission claim";
  batch_digest ← parse32 (waa_batch_digest w) "admission batch";
  order_digest ← parse32 (waa_order_digest w) "admission order";
  signature ← parse_signature (waa_signature w) "admission signature";
  let attestation := mkAdmission (waa_node w) (waa_slot w) (waa_sequence w) principal_digest ticket_id claim_digest batch_digest
    order_digest signature in
  _ ← admission_unsigned attestation;
  Ok attestation.

Definition admission_from_wire (w : WireAdmission) : result string PretradeAdmission :=
  node_keys ← map_res (fun value => parse32 value "admission node key") (wad_node_keys w);
  lanes ← map_res (map_res entry_from_wire) (wad_lanes w);
  let a := mkPretradeAdmission (wad_epoch w) node_keys lanes in
  _ ← admission_wire a;
  Ok a.

(** [Option::map(..).transpose()]. *)
Definition transpose {A B} (f : A -> result string B) (o : option A) : result string (option B) :=
  match o with None => Ok None | Some a => b ← f a; Ok (Some b) end.

(** ** The bundle *)

Definition opening_wire (o : AcceptanceOpening) : WireOpening := mkWireOpening (ao_amount o) (hex_encode (scalar_to_bytes (ao_blinding o))).
Definition opening_from_wire (w : WireOpening) (name : string) : result string AcceptanceOpening :=
  blinding ← scalar (wo_blinding w) name; Ok (mkOpening (wo_amount w) blinding).

Definition maker_authority_wire (a : MakerPretradeAuthority) : WireMakerAuthority :=
  mkWireMakerAuthority (ma_maker_index a) (maker_from_value (ma_mandate a)) (hex_encode (ma_identity_context a))
    (presentation_from_value (ma_presentation a)) (opening_wire (ma_acceptance_opening a)).
Definition taker_authority_wire (a : TakerPretradeAuthority) : WireTakerAuthority :=
  mkWireTakerAuthority (ta_client_index a) (taker_from_value (ta_mandate a)) (hex_encode (ta_identity_context a))
    (presentation_from_value (ta_presentation a)) (opening_wire (ta_acceptance_opening a)).

Definition authority_wire (b : PretradeAuthorityBundle) : result string WireAuthorityBundle :=
  if (pb_created_at b =? 0) || bool_decide (pb_identity_scope b = []) || bool_decide (pb_required_cohort b = "")
     || bool_decide (pb_identity_provider b = "") || bool_decide (pb_identity_evidence_digest b = ZERO32)
     || (length (pb_makers b) =? 0)%nat || (length (pb_takers b) =? 0)%nat
     || (MAX_AUTHORITIES <? length (pb_makers b) + length (pb_takers b))%nat
  then Err "pre-trade authority population or metadata is invalid"
  else
    _ ← nonzero_id (pb_venue_id b) "venue";
    _ ← nonzero_id (pb_defmi_id b) "DeFMI";
    _ ← nonzero_id (pb_traded_asset_id b) "traded asset";
    _ ← nonzero_id (pb_cash_asset_id b) "cash asset";
    admission ← transpose admission_wire (pb_admission b);
    settlement_verifier ← settlement_verifier_wire (pb_settlement_verifier b);
    Ok (mkWireBundle AUTHORITY_VERSION true true (pb_created_at b) (hex_encode (pb_venue_id b)) (hex_encode (pb_defmi_id b))
          (hex_encode (pb_traded_asset_id b)) (hex_encode (pb_cash_asset_id b)) (hex_encode (pb_identity_scope b)) (pb_required_cohort b)
          (pb_identity_provider b) (hex_encode (pb_identity_evidence_digest b)) (registry_from_value (pb_registry b)) admission
          settlement_verifier (maker_authority_wire <$> pb_makers b) (taker_authority_wire <$> pb_takers b)).

(** The closures over [maker_keys] and [taker_keys]. *)
Fixpoint makers_from_wire (seen : gset (N * N)) (l : list WireMakerAuthority) : result string (list MakerPretradeAuthority) :=
  match l with
  | [] => Ok []
  | w :: l =>
      mandate ← maker_into_value (wma_mandate w);
      let key := (wma_maker_index w, side_byte (m_direction mandate)) in
      if bool_decide (key ∈ seen) then Err "pre-trade authority repeats a Maker direction"
      else
        identity_context ← parse_hex (wma_identity_context w) "Maker identity context is malformed";
        presentation ← presentation_into_value (wma_presentation w);
        opening ← opening_from_wire (wma_acceptance_opening w) "Maker reservation blinding";
        rest ← makers_from_wire ({[key]} ∪ seen) l;
        Ok (mkMakerAuthority (wma_maker_index w) mandate identity_context presentation opening :: rest)
  end.

Fixpoint takers_from_wire (seen : gset N) (l : list WireTakerAuthority) : result string (list TakerPretradeAuthority) :=
  match l with
  | [] => Ok []
  | w :: l =>
      if bool_decide (wta_client_index w ∈ seen) then Err "pre-trade authority repeats a Taker client"
      else
        mandate ← taker_into_value (wta_mandate w);
        identity_context ← parse_hex (wta_identity_context w) "Taker identity context is malformed";
        presentation ← presentation_into_value (wta_presentation w);
        opening ← opening_from_wire (wta_acceptance_opening w) "Taker reservation blinding";
        rest ← takers_from_wire ({[wta_client_index w]} ∪ seen) l;
        Ok (mkTakerAuthority (wta_client_index w) mandate identity_context presentation opening :: rest)
  end.

Definition authority_from_wire (w : WireAuthorityBundle) : result string PretradeAuthorityBundle :=
  if negb (wa_version w =? AUTHORITY_VERSION) || negb (wa_private_pretrade_authority w) || negb (wa_acceptance_only_openings w)
     || (length (wa_makers w) =? 0)%nat || (length (wa_takers w) =? 0)%nat
     || (MAX_AUTHORITIES <? length (wa_makers w) + length (wa_takers w))%nat
  then Err "pre-trade authority header is invalid"
  else
    makers ← makers_from_wire ∅ (wa_makers w);
    takers ← takers_from_wire ∅ (wa_takers w);
    venue_id ← parse32 (wa_venue_id w) "authority venue";
    defmi_id ← parse32 (wa_defmi_id w) "authority DeFMI";
    traded_asset_id ← parse32 (wa_traded_asset_id w) "authority traded asset";
    cash_asset_id ← parse32 (wa_cash_asset_id w) "authority cash asset";
    identity_scope ← parse_hex (wa_identity_scope w) "authority identity scope is malformed";
    identity_evidence_digest ← parse32 (wa_identity_evidence_digest w) "external identity evidence";
    registry ← registry_into_value (wa_registry w);
    admission ← transpose admission_from_wire (wa_admission w);
    settlement_verifier ← settlement_verifier_from_wire (wa_settlement_verifier w);
    let b := mkBundle (wa_created_at w) venue_id defmi_id traded_asset_id cash_asset_id identity_scope (wa_required_cohort w)
      (wa_identity_provider w) identity_evidence_digest registry admission settlement_verifier makers takers in
    _ ← authority_wire b;
    Ok b.

Definition authority_digest `{!Serialize WireAuthorityBundle} (b : PretradeAuthorityBundle) : result string bytes :=
  w ← authority_wire b; raw ← to_vec w; Ok (sha256 raw).

(** ** Acknowledgements *)

Definition check_binding (b : PretradeReservationBinding) : result string unit :=
  _ ← nonzero_id (rb_owner_handle b) "reservation owner handle";
  _ ← ok_or (decompress (rb_owner_handle b)) "reservation owner handle is not canonical";
  _ ← nonzero_id (rb_facility_id b) "facility id";
  _ ← nonzero_id (rb_reserve_id b) "reserve id";
  _ ← nonzero_id (rb_mandate_digest b) "mandate digest";
  _ ← nonzero_id (rb_amount_commitment b) "amount commitment";
  _ ← nonzero_id (rb_reserve_receipt_digest b) "reserve receipt";
  if negb (Bool.eqb (bool_decide (rb_party b = Maker)) (negb (bool_decide (rb_policy_digest b = ZERO32))))
  then Err "Maker/Taker policy binding is inconsistent"
  else Ok tt.

Definition sorted_bindings (a : PretradeAcknowledgement) : result string (list PretradeReservationBinding) :=
  if (length (ack_bindings a) =? 0)%nat || (MAX_AUTHORITIES <? length (ack_bindings a))%nat
  then Err "pre-trade acknowledgement binding population is invalid"
  else
    let values := sort_by_key key_leb binding_key (ack_bindings a) in
    if repeats_key (binding_key <$> values) then Err "pre-trade acknowledgement repeats a reservation authority"
    else
      _ ← map_res check_binding values;
      Ok values.

Definition binding_body (b : PretradeReservationBinding) : bytes :=
  be_bytes 1 (party_byte (rb_party b)) ++ be_bytes 2 (rb_owner_index b) ++ be_bytes 1 (side_byte (rb_direction b))
  ++ rb_owner_handle b ++ rb_facility_id b ++ rb_reserve_id b ++ rb_mandate_digest b ++ rb_policy_digest b
  ++ rb_amount_commitment b ++ rb_reserve_receipt_digest b.

Definition ack_unsigned (a : PretradeAcknowledgement) : result string bytes :=
  _ ← nonzero_id (ack_authority_digest a) "authority digest";
  _ ← nonzero_id (ack_defmi_id a) "DeFMI id";
  _ ← nonzero_id (ack_after_state_root a) "DeFMI state root";
  _ ← map_err (fun _ => "pre-trade acknowledgement key is malformed") (App.verifying_key_from_bytes (ack_signer_public a));
  bindings ← sorted_bindings a;
  Ok (ACK_DOMAIN ++ ack_authority_digest a ++ ack_defmi_id a ++ ack_after_state_root a ++ be_bytes 4 (N.of_nat (length bindings))
      ++ concat (binding_body <$> bindings) ++ ack_signer_public a).

Definition ack_sign (a : PretradeAcknowledgement) (key : App.SigningKey) : result string PretradeAcknowledgement :=
  if negb (bool_decide (ack_signer_public a = App.verifying_key key)) then Err "pre-trade acknowledgement signing key differs"
  else
    body ← ack_unsigned a;
    s ← App.try_sign key body;
    Ok (mkAck (ack_authority_digest a) (ack_defmi_id a) (ack_after_state_root a) (ack_bindings a) (ack_signer_public a) s).

Definition ack_verify (a : PretradeAcknowledgement) (trusted : bytes) : result string unit :=
  if negb (bool_decide (ack_signer_public a = trusted)) then Err "pre-trade acknowledgement is not from the pinned DeFMI"
  else
    body ← ack_unsigned a;
    map_err (fun _ => "pre-trade acknowledgement signature is invalid") (App.verify trusted body (ack_signature a)).

Definition ack_digest (a : PretradeAcknowledgement) : result string bytes :=
  body ← ack_unsigned a; Ok (sha256 (body ++ ack_signature a)).

Definition selects (party : ReservationParty) (owner_handle : bytes) (d : Direction) (b : PretradeReservationBinding) : bool :=
  bool_decide (rb_party b = party) && bool_decide (rb_owner_handle b = owner_handle) && bool_decide (rb_direction b = d).

Definition binding_for (a : PretradeAcknowledgement) (party : ReservationParty) (owner_handle : bytes) (d : Direction) :
    result string PretradeReservationBinding :=
  ok_or (find (selects party owner_handle d) (ack_bindings a)) "pre-trade acknowledgement lacks the selected reservation".

Definition binding_wire (b : PretradeReservationBinding) : WireBinding :=
  mkWireBinding (party_byte (rb_party b)) (rb_owner_index b) (side_byte (rb_direction b)) (hex_encode (rb_owner_handle b))
    (hex_encode (rb_facility_id b)) (hex_encode (rb_reserve_id b)) (hex_encode (rb_mandate_digest b)) (hex_encode (rb_policy_digest b))
    (hex_encode (rb_amount_commitment b)) (hex_encode (rb_reserve_receipt_digest b)).

Definition ack_wire (a : PretradeAcknowledgement) : result string WireAck :=
  _ ← ack_unsigned a;
  bindings ← sorted_bindings a;
  Ok (mkWireAck ACK_VERSION true (hex_encode (ack_authority_digest a)) (hex_encode (ack_defmi_id a))
        (hex_encode (ack_after_state_root a)) (binding_wire <$> bindings) (hex_encode (ack_signer_public a)) (hex_encode (ack_signature a))).

Definition binding_from_wire (w : WireBinding) : result string PretradeReservationBinding :=
  party ← party_try_from (wb_party w);
  d ← direction (wb_direction w);
  owner_handle ← parse32 (wb_owner_handle w) "reservation owner";
  facility_id ← parse32 (wb_facility_id w) "reservation facility";
  reserve_id ← parse32 (wb_reserve_id w) "reservation id";
  mandate_digest ← parse32 (wb_mandate_digest w) "reservation mandate";
  policy_digest ← parse32 (wb_policy_digest w) "reservation policy";
  amount_commitment ← parse32 (wb_amount_commitment w) "reservation amount";
  reserve_receipt_digest ← parse32 (wb_reserve_receipt_digest w) "reservation receipt";
  Ok (mkBinding party (wb_owner_index w) d owner_handle facility_id reserve_id mandate_digest policy_digest amount_commitment
        reserve_receipt_digest).

Definition ack_from_wire (w : WireAck) : result string PretradeAcknowledgement :=
  if negb (wk_version w =? ACK_VERSION) || negb (wk_private_pretrade_ack w) || (length (wk_bindings w) =? 0)%nat
     || (MAX_AUTHORITIES <? length (wk_bindings w))%nat
  then Err "pre-trade acknowledgement header is invalid"
  else
    authority_digest ← parse32 (wk_authority_digest w) "acknowledged authority";
    defmi_id ← parse32 (wk_defmi_id w) "acknowledged DeFMI";
    after_state_root ← parse32 (wk_after_state_root w) "acknowledged state root";
    bindings ← map_res binding_from_wire (wk_bindings w);
    signer_public ← parse32 (wk_signer_public w) "acknowledgement signer";
    signature ← parse_signature (wk_signature w) "acknowledgement signature";
    let a := mkAck authority_digest defmi_id after_state_root bindings signer_public signature in
    _ ← ack_unsigned a;
    Ok a.

(** ** Files *)

(** What the operating system answers: the file's kind, permission bits and
    length, and its contents. *)
Record FileAnswer := mkFileAnswer { fa_metadata : result string (bool * N * N); fa_contents : result string bytes }.

Definition private_file (f : FileAnswer) : result string bytes :=
  '(is_file, mode, len) ← fa_metadata f;
  if negb is_file || negb (N.land mode 63 =? 0) || (MAX_FILE <? len)
  then Err "pre-trade exchange must be a bounded private regular file"
  else fa_contents f.

(** The bytes that [write_authority_private] and [write_ack_private] put into a
    file; a JSON error's text is not modelled. *)
Definition authority_file `{!SerializePretty WireAuthorityBundle} (b : PretradeAuthorityBundle) : result string bytes :=
  w ← authority_wire b; to_vec_pretty w.
Definition read_authority_private `{!Deserialize WireAuthorityBundle} (f : FileAnswer) : result string PretradeAuthorityBundle :=
  raw ← private_file f;
  w ← ok_or (from_slice raw) "pre-trade authority JSON is invalid";
  authority_from_wire w.
(** What the operating system answers to the steps of a write: creating the
    directories, creating the temporary file (with the mode that the umask
    leaves), writing and syncing it, renaming it, setting the permissions of the
    path, and syncing the directory. *)
Record WriteAnswer := mkWriteAnswer {
  wr_create_dir : result string unit; wr_open : result string N; wr_write : result string unit; wr_rename : result string unit;
  wr_set_permissions : result string unit; wr_sync_parent : result string unit
}.

(** The result, and the file at the path afterwards, if there is one: its
    permission bits and contents.  The temporary file, which has a random name
    and is removed when a step goes wrong, is not part of the state. *)
Definition write_private (os : WriteAnswer) (file : option (N * bytes)) (raw : bytes) : result string unit * option (N * bytes) :=
  match (_ ← wr_create_dir os; mode ← wr_open os; _ ← wr_write os; _ ← wr_rename os; Ok mode) with
  | Err e => (Err e, file)
  | Ok mode =>
      match wr_set_permissions os with
      | Err e => (Err e, Some (mode, raw))
      | Ok _ => (wr_sync_parent os, Some (384, raw))
      end
  end.
Definition write_authority_private `{!SerializePretty WireAuthorityBundle} (os : WriteAnswer) (file : option (N * bytes))
    (b : PretradeAuthorityBundle) : result string unit * option (N * bytes) :=
  match authority_file b with Err e => (Err e, file) | Ok raw => write_private os file raw end.

Definition encode_ack `{!Serialize WireAck} (a : PretradeAcknowledgement) : result string bytes := w ← ack_wire a; to_vec w.
Definition decode_ack `{!Deserialize WireAck} (raw : bytes) : result string PretradeAcknowledgement :=
  w ← ok_or (from_slice raw) "pre-trade acknowledgement JSON is invalid"; ack_from_wire w.
Definition ack_file `{!SerializePretty WireAck} (a : PretradeAcknowledgement) : result string bytes := w ← ack_wire a; to_vec_pretty w.
Definition write_ack_private `{!SerializePretty WireAck} (os : WriteAnswer) (file : option (N * bytes)) (a : PretradeAcknowledgement) :
    result string unit * option (N * bytes) :=
  match ack_file a with Err e => (Err e, file) | Ok raw => write_private os file raw end.
Definition read_ack_private `{!Deserialize WireAck} (f : FileAnswer) : result string PretradeAcknowledgement :=
  raw ← private_file f; decode_ack raw.
End Pretrade.
End Pretrade.

Import Kyb.
Import Mandate.
Import Pretrade.

(** ** Fields *)

#[export] Instance key_order : KeyOrder key_leb.
Proof.
  split.
  - intros [[x y] z] [[x' y'] z']. cbn. rewrite !orb_true_iff, !andb_true_iff, !orb_true_iff, !andb_true_iff, !N.ltb_lt, !N.eqb_eq, !N.leb_le. lia.
  - intros [[x y] z] [[x' y'] z'] [[x2 y2] z2]. cbn.
    rewrite !orb_true_iff, !andb_true_iff, !orb_true_iff, !andb_true_iff, !N.ltb_lt, !N.eqb_eq, !N.leb_le. lia.
  - intros [[x y] z] [[x' y'] z']. cbn. rewrite !orb_true_iff, !andb_true_iff, !orb_true_iff, !andb_true_iff, !N.ltb_lt, !N.eqb_eq, !N.leb_le.
    intros H1 H2. assert (x = x' /\ y = y' /\ z = z') as (-> & -> & ->) by lia. done.
Qed.

Lemma direction_ok d : direction (side_byte d) = Ok d.
Proof. by destruct d. Qed.
Lemma party_ok p : party_try_from (party_byte p) = Ok p.
Proof. by destruct p. Qed.
Lemma nonzero_id_ok v name u : nonzero_id v name = Ok u <-> v <> ZERO32.
Proof. unfold nonzero_id. rewrite if_err_ok, bool_decide_eq_false. destruct u. naive_solver. Qed.

(** Sorted keys of which no two neighbours are equal are distinct. *)
Lemma no_repeats_nodup {A K} `{EqDecision K} (leb : K -> K -> bool) {KO : KeyOrder leb} (key : A -> K) l :
  key_sorted leb key l -> repeats_key (key <$> l) = false -> NoDup (key <$> l).
Proof.
  induction l as [|a l IH]; [constructor|]. intros [Ha Hl] Hr. rewrite fmap_cons in *. constructor.
  - destruct l as [|b l]; [by apply not_elem_of_nil|]. cbn in Hr. apply orb_false_iff in Hr as [Hne _]. apply bool_decide_eq_false in Hne.
    intros (c & Hc & Hin)%list_elem_of_fmap. apply Forall_cons in Ha as [Hab _]. cbn in Hl. destruct Hl as [Hb _].
    apply elem_of_cons in Hin as [->|Hin]; [done|]. rewrite Forall_forall in Hb. apply Hb in Hin. rewrite <- Hc in Hin.
    apply Hne. by apply (leb_antisym (leb := leb)).
  - apply IH; [done|]. destruct l; [done|]. cbn in Hr. by apply orb_false_iff in Hr as [_ ?].
Qed.

Lemma nodup_no_repeats {K} `{EqDecision K} (l : list K) : NoDup l -> repeats_key l = false.
Proof.
  induction 1 as [|a l Ha Hl IH]; [done|]. destruct l as [|b l]; [done|]. cbn [repeats_key]. apply orb_false_iff. split; [|done].
  apply bool_decide_eq_false. intros ->. apply Ha. by left.
Qed.

Section Parsing.
Context {SO : ScalarOps} {G : GroupOps} {PC : PointCodec} {PL : PointCodecLaws} {SC : ScalarCodec} {SL : ScalarCodecLaws}.
Context {HEX : HexEncode} {UNHEX : HexDecode} {HL : HexLaws} {HR : HexRoundTrip} {HB : HybridBackend}.

Lemma parse_hex_ok b message : parse_hex (hex_encode b) message = Ok b.
Proof. unfold parse_hex. by rewrite hex_decode_encode. Qed.

Lemma parse32_ok b name : length b = 32%nat -> parse32 (hex_encode b) name = Ok b.
Proof. intros Hb. unfold parse32. rewrite parse_hex_ok. cbn [mbind result_bind]. by rewrite Hb. Qed.

Lemma parse_signature_ok s name : App.signature_validate s = Ok tt -> parse_signature (hex_encode s) name = Ok s.
Proof.
  intros Hs. unfold parse_signature. rewrite hex_length, (signature_validate_length _ Hs), (Nat.mul_comm 2), Nat.eqb_refl.
  cbn [negb]. rewrite parse_hex_ok. cbn [mbind result_bind]. unfold App.signature_try_from. by rewrite Hs.
Qed.

Lemma hex_point_ok p name : Pretrade.point (hex_encode (compress p)) name = Ok p.
Proof. unfold Pretrade.point. rewrite parse32_ok by apply compress_length. cbn [mbind result_bind]. by rewrite decompress_compress. Qed.

Lemma hex_scalar_ok x name : Pretrade.scalar (hex_encode (scalar_to_bytes x)) name = Ok x.
Proof. unfold Pretrade.scalar. rewrite parse32_ok by apply scalar_to_bytes_length. cbn [mbind result_bind]. by rewrite scalar_from_to. Qed.

Lemma parse_all_ok {A} (write : A -> string) parse what (l : list A) :
  (forall a name, parse (write a) name = Ok a) -> parse_all parse what (write <$> l) = Ok l.
Proof.
  intros Hp. unfold parse_all. apply map_res_ok.
  assert (forall k, Forall2 (fun iv a => (let '(i, v) := iv in parse v (what +:+ show_nat i)) = Ok a) (imap (fun i v => ((k + i)%nat, v)) (write <$> l)) l) as H.
  { induction l as [|a l IH]; intros k; [constructor|]. rewrite fmap_cons, imap_cons. constructor; [by apply Hp|].
    rewrite (imap_ext _ (fun i v => ((S k + i)%nat, v))); [apply IH|]. intros i v _. unfold compose. assert (k + S i = S k + i)%nat as -> by lia. done. }
  exact (H 0%nat).
Qed.
End Parsing.

(** ** Bundles *)

(** Digests and identifiers are [u8; 32]. *)
Abbreviation sized ids := (Forall (fun d : bytes => length d = 32%nat) ids).

Section Bundles.
Context {SO : ScalarOps} {G : GroupOps} {PC : PointCodec} {PL : PointCodecLaws} {SC : ScalarCodec} {SL : ScalarCodecLaws}.
Context {SHA : Sha256} {HEX : HexEncode} {UNHEX : HexDecode} {HL : HexLaws} {HR : HexRoundTrip} {HB : HybridBackend} {ED : Ed25519Keys}.
Context {FV : FrostVerify} {Q : QuorumOps} {PK : PackageCodec} {PKL : PackageCodecLaws}.

(** Runs the parser of the next field. *)
Ltac next_field := first
  [ rewrite parse32_ok by assumption | rewrite parse_signature_ok by assumption | rewrite parse_hex_ok | rewrite direction_ok | rewrite party_ok
  | rewrite hex_point_ok | rewrite hex_scalar_ok ]; cbn [mbind result_bind].

Definition maker_wf (m : MakerPolicyMandate) : Prop :=
  is_ok (maker_unsigned m) = true /\ App.signature_validate (m_signature m) = Ok tt
  /\ sized [m_venue_id m; m_defmi_id m; m_policy_digest m; m_asset_id m; m_reserve_id m; m_maximum_amount_commitment m; m_maker_handle m;
            m_entity_commitment m; m_kyb_presentation_digest m; m_maker_public m].

Lemma maker_round_trip m : maker_wf m -> maker_into_value (maker_from_value m) = Ok m.
Proof.
  intros ([body Hb]%is_ok_true & Hs & Hd). rewrite !Forall_cons in Hd. destruct_and!. unfold maker_into_value, maker_from_value.
  cbn [wm_venue_id wm_defmi_id wm_policy_digest wm_policy_version wm_asset_id wm_direction wm_reserve_id wm_maximum_amount_commitment
    wm_maker_handle wm_entity_commitment wm_kyb_presentation_digest wm_valid_from wm_valid_until wm_auto_execute wm_maker_public wm_signature].
  do 12 next_field. destruct m; cbn in Hb |- *. by rewrite Hb.
Qed.

Definition taker_wf (t : TakerExecutionMandate) : Prop :=
  is_ok (taker_unsigned t) = true /\ App.signature_validate (t_signature t) = Ok tt
  /\ sized [t_venue_id t; t_defmi_id t; t_rfq_nullifier t; t_asset_id t; t_reserve_asset_id t; t_quantity_commitment t;
            t_limit_price_commitment t; t_maximum_fee_commitment t; t_maximum_amount_commitment t; t_reserve_id t; t_taker_handle t;
            t_entity_commitment t; t_kyb_presentation_digest t; t_admission_ticket_id t; t_fill_mask_commitment t; t_taker_public t].

Lemma taker_round_trip t : taker_wf t -> taker_into_value (taker_from_value t) = Ok t.
Proof.
  intros ([body Hb]%is_ok_true & Hs & Hd). rewrite !Forall_cons in Hd. destruct_and!. unfold taker_into_value, taker_from_value.
  cbn [wt_venue_id wt_defmi_id wt_rfq_nullifier wt_asset_id wt_reserve_asset_id wt_direction wt_quantity_commitment wt_limit_price_commitment
    wt_maximum_fee_commitment wt_maximum_amount_commitment wt_reserve_id wt_taker_handle wt_entity_commitment wt_kyb_presentation_digest
    wt_admission_ticket_id wt_admission_slot wt_fill_mask_commitment wt_deadline wt_allow_partial wt_auto_settle wt_taker_public wt_signature].
  do 18 next_field. destruct t; cbn in Hb |- *. by rewrite Hb.
Qed.

Definition registry_wf (r : SignedCohortRegistry) : Prop :=
  issuer_key_from_bytes (issuer r) = Ok (issuer r) /\ length (registry_id r) = 32%nat.

Lemma registry_round_trip r : registry_wf r -> registry_into_value (registry_from_value r) = Ok r.
Proof.
  intros [Hi Hr]. unfold registry_into_value, registry_from_value.
  cbn [wr_cohort wr_registry_epoch wr_expires_at wr_points wr_issuer wr_registry_id wr_signature].
  rewrite (parse_all_ok (fun p => hex_encode (compress p))) by (intros; apply hex_point_ok). cbn [mbind result_bind].
  rewrite !parse_hex_ok, parse32_ok by assumption. cbn [mbind result_bind]. rewrite Hi. cbn [map_err mbind result_bind]. by destruct r.
Qed.

Definition presentation_wf (p : KybPresentation) : Prop :=
  sized [p_registry_id p; p_context_hash p] /\ OrDleq.challenges (p_proof p) <> []
  /\ length (OrDleq.challenges (p_proof p)) = length (OrDleq.responses (p_proof p)).

Lemma presentation_round_trip p : presentation_wf p -> presentation_into_value (presentation_from_value p) = Ok p.
Proof.
  intros (Hd & Hne & Hlen). rewrite !Forall_cons in Hd. destruct_and!. unfold presentation_into_value, presentation_from_value.
  cbn [wp_cohort wp_registry_id wp_scope wp_context_hash wp_nullifier wp_challenges wp_responses].
  rewrite !(parse_all_ok (fun s => hex_encode (scalar_to_bytes s))) by (intros; apply hex_scalar_ok). cbn [mbind result_bind].
  rewrite Hlen, Nat.eqb_refl, (proj2 (Nat.eqb_neq _ 0)) by (rewrite <- Hlen; by destruct (OrDleq.challenges (p_proof p))). cbn [negb orb].
  do 4 next_field. by destruct p as [? ? ? ? []].
Qed.

Lemma opening_round_trip o name : opening_from_wire (opening_wire o) name = Ok o.
Proof. unfold opening_from_wire, opening_wire. cbn [wo_amount wo_blinding]. next_field. by destruct o. Qed.

Lemma verifier_round_trip v w : length (sv_quote_registry_digest v) = 32%nat -> settlement_verifier_wire v = Ok w ->
  settlement_verifier_from_wire w = Ok v.
Proof.
  intros Hd Hw. pose proof Hw as Hc. unfold settlement_verifier_wire in Hw. apply if_err_ok in Hw as [_ Hw].
  apply bind_ok in Hw as (raw & Hraw & Hw). apply if_err_ok in Hw as [_ Hw]. apply bind_ok in Hw as (u & _ & Hw). apply Ok_inj in Hw as <-.
  apply ok_or_ok in Hraw. unfold settlement_verifier_from_wire.
  cbn [ws_epoch ws_quote_registry_digest ws_quote_eligibility_bits ws_quote_span_bits ws_amount_bits ws_price_bits ws_max_horizon
    ws_frost_public ws_pq_committee ws_valid_from ws_valid_until].
  next_field. next_field. rewrite (package_from_to _ _ Hraw). cbn [ok_or mbind result_bind].
  replace (mkSettlementVerifier _ _ _ _ _ _ _ _ _ _ _) with v by (by destruct v). rewrite Hc. cbn [mbind result_bind ws_frost_public].
  by rewrite bool_decide_eq_true_2.
Qed.

Definition entry_wf (e : NodeAdmissionAttestation) : Prop :=
  App.signature_validate (na_signature e) = Ok tt
  /\ sized [na_principal_digest e; na_ticket_id e; na_claim_digest e; na_batch_digest e; na_order_digest e].

Lemma entry_round_trip e w : entry_wf e -> entry_wire e = Ok w -> entry_from_wire w = Ok e.
Proof.
  intros (Hs & Hd) Hw. rewrite !Forall_cons in Hd. destruct_and!. unfold entry_wire in Hw. apply bind_ok in Hw as (b & Hb & Hw).
  apply Ok_inj in Hw as <-. unfold entry_from_wire.
  cbn [waa_node waa_slot waa_sequence waa_principal_digest waa_ticket_id waa_claim_digest waa_batch_digest waa_order_digest waa_signature].
  do 6 next_field. destruct e; cbn in Hb |- *. by rewrite Hb.
Qed.

(** A list that is written entry by entry is read back entry by entry. *)
Lemma map_res_round_trip {A B} (write : A -> result string B) (read : B -> result string A) (wf : A -> Prop) l ws :
  (forall a w, wf a -> write a = Ok w -> read w = Ok a) -> Forall wf l -> map_res write l = Ok ws -> map_res read ws = Ok l.
Proof.
  intros Hr Hwf Hm. apply map_res_ok in Hm. apply map_res_ok. induction Hm as [|a w l ws Ha Hl IH]; [constructor|].
  apply Forall_cons in Hwf as [Hw Hwf]. constructor; [by apply Hr|]. by apply IH.
Qed.

Definition lanes_wf (a : PretradeAdmission) : Prop := sized (pa_node_keys a) /\ Forall (Forall entry_wf) (pa_lanes a).

Lemma admission_round_trip a w : lanes_wf a -> admission_wire a = Ok w -> admission_from_wire w = Ok a.
Proof.
  intros [Hk Hl] Hw. pose proof Hw as Hc. unfold admission_wire in Hw. apply if_err_ok in Hw as [_ Hw].
  apply bind_ok in Hw as (keys & _ & Hw). apply bind_ok in Hw as (certified & _ & Hw). apply if_err_ok in Hw as [_ Hw].
  apply bind_ok in Hw as (lanes & Hlanes & Hw). apply Ok_inj in Hw as <-. unfold admission_from_wire. cbn [wad_epoch wad_node_keys wad_lanes].
  assert (map_res (fun value => parse32 value "admission node key") (hex_encode <$> pa_node_keys a) = Ok (pa_node_keys a)) as ->.
  { apply map_res_ok, Forall2_fmap_l. clear -Hk HR. induction Hk as [|k l Hk _ IH]; constructor; [by apply parse32_ok|exact IH]. }
  cbn [mbind result_bind].
  assert (map_res (map_res entry_from_wire) lanes = Ok (pa_lanes a)) as ->.
  { eapply (map_res_round_trip (map_res entry_wire) _ (Forall entry_wf)); [|exact Hl|exact Hlanes].
    intros lane ws. apply map_res_round_trip. exact entry_round_trip. }
  cbn [mbind result_bind]. replace (mkPretradeAdmission _ _ _) with a by (by destruct a). by rewrite Hc.
Qed.
Definition maker_authority_key (a : MakerPretradeAuthority) : N * N := (ma_maker_index a, side_byte (m_direction (ma_mandate a))).

Lemma makers_round_trip l : forall seen, Forall (fun a => maker_wf (ma_mandate a) /\ presentation_wf (ma_presentation a)) l ->
  NoDup (maker_authority_key <$> l) -> (forall a, a ∈ l -> maker_authority_key a ∉ seen) ->
  makers_from_wire seen (maker_authority_wire <$> l) = Ok l.
Proof.
  induction l as [|a l IH]; intros seen Hwf Hnd Hseen; [done|]. apply Forall_cons in Hwf as [[Hm Hp] Hwf].
  rewrite fmap_cons. apply NoDup_cons in Hnd as [Hn Hnd]. cbn [makers_from_wire maker_authority_wire wma_maker_index wma_mandate
    wma_identity_context wma_presentation wma_acceptance_opening].
  rewrite (maker_round_trip _ Hm). cbn [mbind result_bind]. rewrite bool_decide_eq_false_2 by (apply (Hseen a); by left).
  rewrite parse_hex_ok. cbn [mbind result_bind]. rewrite (presentation_round_trip _ Hp). cbn [mbind result_bind].
  rewrite opening_round_trip. cbn [mbind result_bind]. rewrite IH; [by destruct a|done|done|].
  intros b Hb. apply not_elem_of_union. split; [|apply Hseen; by right]. apply not_elem_of_singleton. intros E. apply Hn. change (maker_authority_key a) with (ma_maker_index a, side_byte (m_direction (ma_mandate a))).
  rewrite <- E. by apply list_elem_of_fmap_2.
Qed.

Lemma takers_round_trip l : forall seen, Forall (fun a => taker_wf (ta_mandate a) /\ presentation_wf (ta_presentation a)) l ->
  NoDup (ta_client_index <$> l) -> (forall a, a ∈ l -> ta_client_index a ∉ seen) ->
  takers_from_wire seen (taker_authority_wire <$> l) = Ok l.
Proof.
  induction l as [|a l IH]; intros seen Hwf Hnd Hseen; [done|]. apply Forall_cons in Hwf as [[Hm Hp] Hwf].
  rewrite fmap_cons. apply NoDup_cons in Hnd as [Hn Hnd]. cbn [takers_from_wire taker_authority_wire wta_client_index wta_mandate
    wta_identity_context wta_presentation wta_acceptance_opening].
  rewrite bool_decide_eq_false_2 by (apply (Hseen a); by left). rewrite (taker_round_trip _ Hm). cbn [mbind result_bind].
  rewrite parse_hex_ok. cbn [mbind result_bind]. rewrite (presentation_round_trip _ Hp). cbn [mbind result_bind].
  rewrite opening_round_trip. cbn [mbind result_bind]. rewrite IH; [by destruct a|done|done|].
  intros b Hb. apply not_elem_of_union. split; [|apply Hseen; by right]. apply not_elem_of_singleton. intros E. apply Hn. rewrite <- E.
  by apply list_elem_of_fmap_2.
Qed.

(** A bundle whose values have the widths of their types, whose mandates and
    presentations are complete, and in which a maker has one authority per side
    and a client one. *)
Definition bundle_wf (b : PretradeAuthorityBundle) : Prop :=
  sized [pb_venue_id b; pb_defmi_id b; pb_traded_asset_id b; pb_cash_asset_id b; pb_identity_evidence_digest b;
         sv_quote_registry_digest (pb_settlement_verifier b)]
  /\ registry_wf (pb_registry b) /\ match pb_admission b with Some a => lanes_wf a | None => True end
  /\ Forall (fun a => maker_wf (ma_mandate a) /\ presentation_wf (ma_presentation a)) (pb_makers b)
  /\ Forall (fun a => taker_wf (ta_mandate a) /\ presentation_wf (ta_presentation a)) (pb_takers b)
  /\ NoDup (maker_authority_key <$> pb_makers b) /\ NoDup (ta_client_index <$> pb_takers b).

Lemma authority_round_trip b w : bundle_wf b -> authority_wire b = Ok w -> authority_from_wire w = Ok b.
Proof.
  intros (Hd & Hreg & Hadm & Hm & Ht & Hmd & Htd) Hw. rewrite !Forall_cons in Hd. destruct Hd as (D1 & D2 & D3 & D4 & D5 & D6 & _).
  pose proof Hw as Hc. unfold authority_wire in Hw. apply if_err_ok in Hw as [Hhead Hw]. rewrite !orb_false_iff in Hhead.
  destruct Hhead as (((_ & Hnm) & Hnt) & Hmax). do 4 (apply bind_ok in Hw as (? & _ & Hw)).
  apply bind_ok in Hw as (admission & Ha & Hw). apply bind_ok in Hw as (verifier & Hv & Hw). apply Ok_inj in Hw as <-.
  unfold authority_from_wire. cbn [wa_version wa_private_pretrade_authority wa_acceptance_only_openings wa_created_at wa_venue_id wa_defmi_id
    wa_traded_asset_id wa_cash_asset_id wa_identity_scope wa_required_cohort wa_identity_provider wa_identity_evidence_digest wa_registry
    wa_admission wa_settlement_verifier wa_makers wa_takers]. rewrite !length_fmap, Hnm, Hnt, Hmax. cbn [N.eqb AUTHORITY_VERSION Pos.eqb negb orb].
  rewrite makers_round_trip by (done || set_solver). cbn [mbind result_bind]. rewrite takers_round_trip by (done || set_solver).
  cbn [mbind result_bind]. rewrite !parse32_ok by assumption. cbn [mbind result_bind]. rewrite parse_hex_ok. cbn [mbind result_bind].
  rewrite (registry_round_trip _ Hreg). cbn [mbind result_bind].
  assert (transpose admission_from_wire admission = Ok (pb_admission b)) as ->.
  { destruct (pb_admission b) as [a|]; cbn [transpose] in Ha; [|by injection Ha as <-]. apply bind_ok in Ha as (wa & Hwa & [= <-]).
    cbn. by rewrite (admission_round_trip _ _ Hadm Hwa). }
  cbn [mbind result_bind]. rewrite (verifier_round_trip _ _ D6 Hv). cbn [mbind result_bind].
  replace (mkBundle _ _ _ _ _ _ _ _ _ _ _ _ _ _) with b by (by destruct b). by rewrite Hc.
Qed.
End Bundles.

(** ** Files and acknowledgements *)

Section Acknowledged.
Context {SO : ScalarOps} {G : GroupOps} {PC : PointCodec} {PL : PointCodecLaws} {SC : ScalarCodec} {SL : ScalarCodecLaws}.
Context {SHA : Sha256} {HEX : HexEncode} {UNHEX : HexDecode} {HL : HexLaws} {HR : HexRoundTrip} {HB : HybridBackend} {HBL : HybridLaws} {ED : Ed25519Keys}.
Context {FV : FrostVerify} {Q : QuorumOps} {PK : PackageCodec} {PKL : PackageCodecLaws}.

(** What the operating system answers for a file with these permission bits and
    contents. *)
Definition private_answer (file : N * bytes) : FileAnswer := mkFileAnswer (Ok (true, file.1, N.of_nat (length file.2))) (Ok file.2).

Lemma private_file_ok raw : N.of_nat (length raw) <= MAX_FILE -> private_file (private_answer (384, raw)) = Ok raw.
Proof.
  intros Hl. unfold private_file, private_answer. cbn [fa_metadata fst snd mbind result_bind fa_contents].
  replace (MAX_FILE <? N.of_nat (length raw)) with false by (symmetry; by apply N.ltb_ge). done.
Qed.

(** A write replaces the file by the whole new one or leaves it alone; when it
    succeeds the new one is there with owner-only permissions. *)
Lemma write_private_atomic os file raw :
  match write_private os file raw with
  | (Ok _, f) => f = Some (384, raw)
  | (Err _, f) => f = file \/ exists mode, f = Some (mode, raw)
  end.
Proof.
  unfold write_private. destruct (mbind _ _) as [mode|e]; [|by left]. destruct (wr_set_permissions os); [|eauto].
  destruct (wr_sync_parent os); eauto.
Qed.

(** A bundle that was written is read back as it was: the digest the host
    acknowledges is that of the bundle that was written. *)
Theorem written_authority_is_read `{SP : !SerializePretty WireAuthorityBundle} `{DE : !Deserialize WireAuthorityBundle} {PR : PrettyLaws WireAuthorityBundle} os before b f :
  bundle_wf b -> write_authority_private os before b = (Ok tt, Some f) -> N.of_nat (length f.2) <= MAX_FILE ->
  read_authority_private (private_answer f) = Ok b.
Proof.
  intros Hwf Hf Hl. unfold write_authority_private in Hf. destruct (authority_file b) as [raw|] eqn:Hraw; [|done].
  pose proof (write_private_atomic os before raw) as Ha. rewrite Hf in Ha. injection Ha as ->. apply bind_ok in Hraw as (w & Hw & Hp).
  unfold read_authority_private. rewrite private_file_ok by done.
  cbn [mbind result_bind]. rewrite (from_slice_pretty w raw Hp). cbn [ok_or mbind result_bind]. by apply authority_round_trip.
Qed.

Definition with_bindings (a : PretradeAcknowledgement) (l : list PretradeReservationBinding) : PretradeAcknowledgement :=
  mkAck (ack_authority_digest a) (ack_defmi_id a) (ack_after_state_root a) l (ack_signer_public a) (ack_signature a).

(** Sorting decides whether keys repeat whatever the order they came in. *)
Lemma repeats_iff (l : list PretradeReservationBinding) :
  repeats_key (binding_key <$> sort_by_key key_leb binding_key l) = false <-> NoDup (binding_key <$> l).
Proof.
  split.
  - intros H. rewrite <- (sort_by_key_perm key_leb binding_key l). apply (no_repeats_nodup key_leb); [apply sort_by_key_sorted; exact _|done].
  - intros H. apply nodup_no_repeats. by rewrite sort_by_key_perm.
Qed.

Lemma sorted_bindings_perm a l : l ≡ₚ ack_bindings a -> sorted_bindings (with_bindings a l) = sorted_bindings a.
Proof.
  intros Hp. unfold sorted_bindings. cbn [ack_bindings with_bindings]. rewrite (Permutation_length Hp). destruct (_ || _); [done|].
  destruct (repeats_key (binding_key <$> sort_by_key key_leb binding_key (ack_bindings a))) eqn:Hr.
  - replace (repeats_key (binding_key <$> sort_by_key key_leb binding_key l)) with true; [done|]. symmetry. apply not_false_iff_true.
    rewrite repeats_iff, Hp, <- repeats_iff. congruence.
  - apply repeats_iff in Hr. rewrite (sort_by_key_unique key_leb binding_key l (ack_bindings a)) by (by rewrite ?Hp).
    by rewrite (proj2 (repeats_iff _) Hr).
Qed.

Lemma sorted_bindings_ok a l : sorted_bindings a = Ok l -> l = sort_by_key key_leb binding_key (ack_bindings a)
  /\ NoDup (binding_key <$> ack_bindings a) /\ (1 <= length l <= MAX_AUTHORITIES)%nat.
Proof.
  unfold sorted_bindings. intros H. apply if_err_ok in H as [Hb H]. apply if_err_ok in H as [Hr H]. apply bind_ok in H as (? & _ & [= <-]).
  apply repeats_iff in Hr. split; [done|]. split; [done|]. rewrite sort_by_key_length. apply orb_false_iff in Hb as [H0 H1].
  apply Nat.eqb_neq in H0. apply Nat.ltb_ge in H1. lia.
Qed.

Lemma find_perm {A} (p : A -> bool) (l l' : list A) : (forall x y, x ∈ l -> y ∈ l -> p x = true -> p y = true -> x = y) ->
  l ≡ₚ l' -> find p l = find p l'.
Proof.
  intros Hu Hp. destruct (find p l) as [x|] eqn:Hx, (find p l') as [y|] eqn:Hy; [| | |done].
  - apply find_some in Hx as [Hx Px]. apply find_some in Hy as [Hy Py]. f_equal.
    apply Hu; [by apply list_elem_of_In| |done|done]. rewrite Hp. by apply list_elem_of_In.
  - apply find_some in Hx as [Hx Px]. pose proof (find_none _ _ Hy x) as Hn. rewrite Hn in Px; [done|].
    apply list_elem_of_In. rewrite <- Hp. by apply list_elem_of_In.
  - apply find_some in Hy as [Hy Py]. pose proof (find_none _ _ Hx y) as Hn. rewrite Hn in Py; [done|].
    apply list_elem_of_In. rewrite Hp. by apply list_elem_of_In.
Qed.

Definition selection_key (b : PretradeReservationBinding) : ReservationParty * bytes * Direction := (rb_party b, rb_owner_handle b, rb_direction b).

Lemma selects_iff p h d b : selects p h d b = true <-> selection_key b = (p, h, d).
Proof. unfold selects, selection_key. rewrite !andb_true_iff, !bool_decide_eq_true. naive_solver. Qed.

(** What an acknowledgement signs, whether it verifies, its digest and its wire
    do not depend on the order its reservations are listed in; nor does the
    reservation it selects, when an owner handle has one per party and side. *)
Theorem acknowledgement_order_irrelevant a l : l ≡ₚ ack_bindings a ->
  ack_unsigned (with_bindings a l) = ack_unsigned a /\ (forall trusted, ack_verify (with_bindings a l) trusted = ack_verify a trusted)
  /\ ack_digest (with_bindings a l) = ack_digest a /\ ack_wire (with_bindings a l) = ack_wire a
  /\ (NoDup (selection_key <$> ack_bindings a) -> forall p h d, binding_for (with_bindings a l) p h d = binding_for a p h d).
Proof.
  intros Hp. assert (ack_unsigned (with_bindings a l) = ack_unsigned a) as Hu by (unfold ack_unsigned; by rewrite (sorted_bindings_perm _ _ Hp)).
  split; [done|]. split; [intros; unfold ack_verify; by rewrite Hu|]. split; [unfold ack_digest; by rewrite Hu|].
  split; [unfold ack_wire; by rewrite Hu, (sorted_bindings_perm _ _ Hp)|]. intros Hnd p h d. unfold binding_for. cbn [ack_bindings with_bindings].
  rewrite (find_perm (selects p h d) l (ack_bindings a)); [done| |done]. intros x y Hx Hy Sx Sy. rewrite Hp in Hx, Hy.
  apply selects_iff in Sx, Sy. apply list_elem_of_lookup in Hx as [i Hi], Hy as [j Hj].
  assert (i = j) as <-; [|congruence]. eapply NoDup_lookup; [exact Hnd|rewrite list_lookup_fmap, Hi; done|rewrite list_lookup_fmap, Hj; cbn; congruence].
Qed.

(** The identifiers of a reservation have 32 bytes each. *)
Definition binding_wf (b : PretradeReservationBinding) : Prop :=
  sized [rb_owner_handle b; rb_facility_id b; rb_reserve_id b; rb_mandate_digest b; rb_policy_digest b; rb_amount_commitment b;
         rb_reserve_receipt_digest b].
Definition ack_wf (a : PretradeAcknowledgement) : Prop :=
  sized [ack_authority_digest a; ack_defmi_id a; ack_after_state_root a; ack_signer_public a] /\ Forall binding_wf (ack_bindings a).

Lemma binding_round_trip b : binding_wf b -> binding_from_wire (binding_wire b) = Ok b.
Proof.
  intros Hwf. unfold binding_wf in Hwf. rewrite !Forall_cons in Hwf. destruct Hwf as (H1 & H2 & H3 & H4 & H5 & H6 & H7 & _).
  unfold binding_from_wire, binding_wire. cbn [wb_party wb_owner_index wb_direction wb_owner_handle wb_facility_id wb_reserve_id
    wb_mandate_digest wb_policy_digest wb_amount_commitment wb_reserve_receipt_digest].
  rewrite party_ok. cbn [mbind result_bind]. rewrite direction_ok. cbn [mbind result_bind]. rewrite !parse32_ok by assumption. by destruct b.
Qed.

Lemma ack_round_trip a w : ack_wf a -> App.signature_validate (ack_signature a) = Ok tt -> ack_wire a = Ok w ->
  ack_from_wire w = Ok (with_bindings a (sort_by_key key_leb binding_key (ack_bindings a))).
Proof.
  intros [Hd Hb] Hs Hw. rewrite !Forall_cons in Hd. destruct Hd as (D1 & D2 & D3 & D4 & _).
  apply bind_ok in Hw as (body & Hu & Hw). apply bind_ok in Hw as (bindings & Hl & Hw). apply Ok_inj in Hw as <-.
  apply sorted_bindings_ok in Hl as (-> & Hnd & Hlen). set (l := sort_by_key key_leb binding_key (ack_bindings a)) in *.
  assert (l ≡ₚ ack_bindings a) as Hp by apply sort_by_key_perm.
  unfold ack_from_wire. cbn [wk_version wk_private_pretrade_ack wk_authority_digest wk_defmi_id wk_after_state_root wk_bindings
    wk_signer_public wk_signature]. rewrite length_fmap.
  replace (length l =? 0)%nat with false by (symmetry; apply Nat.eqb_neq; lia).
  replace (MAX_AUTHORITIES <? length l)%nat with false by (symmetry; apply Nat.ltb_ge; lia). cbn [N.eqb ACK_VERSION Pos.eqb negb orb].
  rewrite !parse32_ok by assumption. cbn [mbind result_bind].
  assert (map_res binding_from_wire (binding_wire <$> l) = Ok l) as ->.
  { apply map_res_ok, Forall2_fmap_l. rewrite <- Hp in Hb. clear -Hb HR. induction Hb; constructor; [by apply binding_round_trip|done]. }
  cbn [mbind result_bind]. rewrite parse_signature_ok by done. cbn [mbind result_bind].
  assert (ack_unsigned (with_bindings a l) = Ok body) as Hu' by (unfold ack_unsigned; by rewrite (sorted_bindings_perm _ _ Hp)).
  unfold with_bindings in Hu'. by rewrite Hu'.
Qed.

(** An acknowledgement that the host signs and writes is read back with its reservations in the order of their keys, verifies under the
    key that signed it and has the digest of the one that was signed. *)
Theorem written_acknowledgement_verifies `{SP : !SerializePretty WireAck} `{DE : !Deserialize WireAck} {PR : PrettyLaws WireAck} a key signed os before f :
  ack_wf a -> ack_sign a key = Ok signed -> write_ack_private os before signed = (Ok tt, Some f) -> N.of_nat (length f.2) <= MAX_FILE ->
  exists r, read_ack_private (private_answer f) = Ok r /\ ack_bindings r ≡ₚ ack_bindings a /\ key_sorted key_leb binding_key (ack_bindings r)
    /\ ack_verify r (App.verifying_key key) = Ok tt /\ ack_digest r = ack_digest signed.
Proof.
  intros Hwf Hs Hf Hl. unfold write_ack_private in Hf. destruct (ack_file signed) as [raw|] eqn:Hraw; [|done].
  pose proof (write_private_atomic os before raw) as Ha. rewrite Hf in Ha. injection Ha as ->. unfold ack_sign in Hs. apply if_err_ok in Hs as [Hk Hs]. apply negb_false_iff, bool_decide_eq_true in Hk.
  apply bind_ok in Hs as (body & Hu & Hs). apply bind_ok in Hs as (s & Hsig & Hs). apply Ok_inj in Hs. apply bind_ok in Hraw as (w & Hw & Hp).
  assert (App.signature_validate (ack_signature signed) = Ok tt) as Hv.
  { subst signed. pose proof (App.try_sign_try_from _ _ _ Hsig) as Ht. unfold App.signature_try_from in Ht. by apply bind_ok in Ht as ([] & ? & _). }
  assert (ack_unsigned signed = Ok body) as Hus by (subst signed; exact Hu).
  assert (ack_wf signed) as Hwf' by (subst signed; exact Hwf). pose proof (ack_round_trip _ _ Hwf' Hv Hw) as Hr.
  set (r := with_bindings _ _) in Hr. exists r. assert (ack_unsigned r = Ok body) as Hur.
  { rewrite <- Hus. unfold ack_unsigned. unfold r. by rewrite sorted_bindings_perm by apply sort_by_key_perm. }
  split; [|split; [|split; [|split]]].
  - unfold read_ack_private. rewrite private_file_ok by done. cbn [mbind result_bind]. unfold decode_ack. by rewrite (from_slice_pretty w raw Hp).
  - subst signed. apply sort_by_key_perm.
  - apply sort_by_key_sorted. exact _.
  - unfold ack_verify. rewrite Hur. subst signed. cbn [r with_bindings ack_signer_public ack_signature]. rewrite bool_decide_eq_true_2 by done.
    cbn [negb mbind result_bind]. by rewrite (App.try_sign_verify _ _ _ Hsig).
  - unfold ack_digest. rewrite Hur, Hus. done.
Qed.
End Acknowledged.
