(* ===== verification/StandingPool.v ===== *)
(** * Standing reserves of makers

    [zkpi-committee/src/standing_pool.rs]: identifiers of a maker's pool, its
    notes, the authorization and reservation metadata, and the binding that
    allocates one child escrow and one remainder, with its JSON body. *)

From S2P Require Import Prelude.
From S2P Require Import Interfaces.
From S2P Require Import Json.
From S2P Require Import Curve.
From S2P Require Import Sigma.
From S2P Require Import BitrangeProofs.
From S2P Require Import Reader.
From S2P Require Import Threshold.
From S2P Require Import ThresholdRange.
From S2P Require Import Instruction.
From S2P Require Import InstructionWire.

Open Scope N_scope.

(** [zkfmi_crypto::sealed]: a sealed message, its validation for the purpose of
    note openings with 40 bytes of content, its bytes for binding, and its serde
    encoding inside [NoteOpening]. *)
Class SealedMessages := {
  SealedMessage : Type;
  sealed_validate : SealedMessage -> result string unit;
  sealed_binding : SealedMessage -> bytes;
  opening_to_json : option SealedMessage -> Json;
  opening_from_json : Json -> result string (option SealedMessage)
}.
Class SealedLaws `{SealedMessages} : Prop := {
  opening_from_to : forall o, opening_from_json (opening_to_json o) = Ok o
}.

Module Pool.

Definition NOTE_OUTPUT_DOMAIN : bytes := bstr "QOMM:DEFMI:NOTE-OUTPUT:v2".
Definition STANDING_NOTE_POOL_ID_DOMAIN : bytes := bstr "QOMM:DEFMI:STANDING-NOTE-POOL-ID:v1".
Definition STANDING_NOTE_POOL_DELEGATION_DOMAIN : bytes := bstr "QOMM:DEFMI:STANDING-NOTE-POOL-DELEGATION:v1".
Definition STANDING_NOTE_POOL_ALLOCATION_SIGNING_DOMAIN : bytes := bstr "QOMM:DEFMI:STANDING-NOTE-POOL-ALLOCATION-SIGNING:v1".
Definition STANDING_POOL_TYPED_RESERVE_DOMAIN : bytes := bstr "QOMM:DEFMI:STANDING-POOL-TYPED-RESERVE:v1".
Definition STANDING_POOL_RESERVE_NULLIFIER_DOMAIN : bytes := bstr "QOMM:DEFMI:STANDING-POOL-RESERVE-NULLIFIER:v1".
Definition STANDING_POOL_ASSET_BINDING_DOMAIN : bytes := bstr "QOMM:DEFMI:STANDING-POOL-ASSET-BINDING:v1".
Definition THRESHOLD_DVP_PACKAGE_DOMAIN : bytes := bstr "QOMM:DEFMI:THRESHOLD-DVP-PACKAGE:v1".
Definition THRESHOLD_RANGE_DIGEST_DOMAIN : bytes := bstr "QOMM:DEFMI:THRESHOLD-RANGE-DIGEST:v1".
Definition SECURITIES_RAIL : bytes := bstr "securities".
Definition CASH_RAIL : bytes := bstr "cash".

Definition nonzero (value : bytes) (name : string) : result string unit :=
  if bool_decide (value = ZERO32) then Err (name +:+ " cannot be the all-zero identifier") else Ok tt.

(** The loop over named values. *)
Definition all_nonzero (values : list (string * bytes)) : result string unit :=
  fold_res (fun _ nv => nonzero nv.2 nv.1) tt values.

Definition direction_ok (direction : N) : bool := (direction =? 1) || (direction =? 2).

(** ** Reading objects *)

Definition exact_keys (object : gmap string Json) (expected : list string) (name : string) : result string unit :=
  if negb (size object =? length expected)%nat || existsb (fun field => bool_decide (object !! field = None)) expected
  then Err (name +:+ " has missing or unknown fields") else Ok tt.

Definition object_of (value : Json) (name : string) : result string (gmap string Json) :=
  ok_or (as_object value) (name +:+ " must be an object").

Section Fields.
Context `{HexDecode}.

Definition hex32 (object : gmap string Json) (field : string) : result string bytes :=
  let error := field +:+ " must be a 32-byte hexadecimal value" in
  s ← ok_or (object !! field ≫= as_str) error;
  b ← ok_or (hex_decode s) error;
  if negb (length b =? 32)%nat then Err error else Ok b.
End Fields.

Definition unsigned (object : gmap string Json) (field : string) : result string N :=
  ok_or (object !! field ≫= as_u64) (field +:+ " must be an unsigned integer").

Section Pool.
Context `{S2 : Sha256} `{HX : HexEncode} `{HD : HexDecode} `{HJ : JsonVec}.

Definition digest_json (domain : bytes) (value : Json) : result string bytes :=
  raw ← json_to_vec value; Ok (sha256 (domain ++ raw)).

Definition JHex (b : bytes) : Json := JStr (hex_encode b).
Definition JN (n : N) : Json := JNum (Z.of_N n).

(** ** Identifiers *)

Definition standing_note_pool_id (entity_commitment policy_digest mandate_digest asset_id : bytes) (direction : N) : result string bytes :=
  _ ← all_nonzero [("entity_commitment", entity_commitment); ("policy_digest", policy_digest); ("mandate_digest", mandate_digest);
        ("asset_id", asset_id)];
  if negb (direction_ok direction) then Err "standing note pool direction is invalid"
  else digest_json STANDING_NOTE_POOL_ID_DOMAIN (JObj [("entity_commitment", JHex entity_commitment); ("policy_digest", JHex policy_digest);
         ("mandate_digest", JHex mandate_digest); ("asset_id", JHex asset_id); ("direction", JN direction)]).

Definition standing_note_pool_delegation_digest (pool_id venue_id defmi_id : bytes) (committee_epoch valid_until : N) : result string bytes :=
  _ ← all_nonzero [("pool_id", pool_id); ("venue_id", venue_id); ("defmi_id", defmi_id)];
  if (committee_epoch =? 0) || (valid_until =? 0) then Err "standing note pool delegation is incomplete"
  else digest_json STANDING_NOTE_POOL_DELEGATION_DOMAIN (JObj [("pool_id", JHex pool_id); ("venue_id", JHex venue_id);
         ("defmi_id", JHex defmi_id); ("committee_epoch", JN committee_epoch); ("valid_until", JN valid_until)]).

Record StandingPoolReservationMetadata := mkMetadata {
  rm_typed_reserve_digest : bytes;
  rm_reserve_nullifier : bytes;
  rm_asset_link_proof_digest : bytes
}.

Record StandingPoolMakerAuthorization := mkAuthorization {
  ma_entity_commitment : bytes;
  ma_asset_id : bytes;
  ma_direction : N;
  ma_policy_digest : bytes;
  ma_mandate_digest : bytes;
  ma_typed_reserve_digest : bytes;
  ma_reserve_nullifier : bytes;
  ma_asset_link_proof_digest : bytes;
  ma_policy_version : N
}.

Definition standing_pool_reservation_metadata (pool_id delegation_digest : bytes) (expected_pool_sequence : N)
    (previous_pool_note_id proof_job_id quote_proof_digest dvp_proof_digest transition_statement entity_commitment asset_id : bytes)
    (direction : N) (policy_digest mandate_digest : bytes) (policy_version : N) : result string StandingPoolReservationMetadata :=
  _ ← all_nonzero [("pool_id", pool_id); ("delegation_digest", delegation_digest); ("previous_pool_note_id", previous_pool_note_id);
        ("proof_job_id", proof_job_id); ("quote_proof_digest", quote_proof_digest); ("dvp_proof_digest", dvp_proof_digest);
        ("transition_statement", transition_statement); ("entity_commitment", entity_commitment); ("asset_id", asset_id);
        ("policy_digest", policy_digest); ("mandate_digest", mandate_digest)];
  if negb (direction_ok direction) || (policy_version =? 0) then Err "standing pool reservation metadata has invalid policy scope"
  else
    let body := JObj [("pool_id", JHex pool_id); ("delegation_digest", JHex delegation_digest);
      ("expected_pool_sequence", JN expected_pool_sequence); ("previous_pool_note_id", JHex previous_pool_note_id);
      ("proof_job_id", JHex proof_job_id); ("quote_proof_digest", JHex quote_proof_digest); ("dvp_proof_digest", JHex dvp_proof_digest);
      ("transition_statement", JHex transition_statement); ("entity_commitment", JHex entity_commitment); ("asset_id", JHex asset_id);
      ("direction", JN direction); ("policy_digest", JHex policy_digest); ("mandate_digest", JHex mandate_digest);
      ("policy_version", JN policy_version)] in
    typed ← digest_json STANDING_POOL_TYPED_RESERVE_DOMAIN body;
    nullifier ← digest_json STANDING_POOL_RESERVE_NULLIFIER_DOMAIN body;
    link ← digest_json STANDING_POOL_ASSET_BINDING_DOMAIN body;
    Ok (mkMetadata typed nullifier link).

(** ** Authorizations *)

Definition authorization_validate (a : StandingPoolMakerAuthorization) : result string unit :=
  _ ← all_nonzero [("entity_commitment", ma_entity_commitment a); ("asset_id", ma_asset_id a); ("authorization_digest", ma_policy_digest a);
        ("mandate_digest", ma_mandate_digest a); ("typed_reserve_digest", ma_typed_reserve_digest a);
        ("reserve_nullifier", ma_reserve_nullifier a); ("asset_link_proof_digest", ma_asset_link_proof_digest a)];
  if negb (direction_ok (ma_direction a)) || (ma_policy_version a =? 0) then Err "standing pool Maker authorization is incomplete" else Ok tt.

Definition authorization_body (a : StandingPoolMakerAuthorization) : result string Json :=
  _ ← authorization_validate a;
  Ok (JObj [("entity_commitment", JHex (ma_entity_commitment a)); ("asset_id", JHex (ma_asset_id a)); ("direction", JN (ma_direction a));
    ("authorization_digest", JHex (ma_policy_digest a)); ("mandate_digest", JHex (ma_mandate_digest a));
    ("typed_reserve_digest", JHex (ma_typed_reserve_digest a)); ("reserve_nullifier", JHex (ma_reserve_nullifier a));
    ("asset_link_proof_digest", JHex (ma_asset_link_proof_digest a)); ("policy_version", JN (ma_policy_version a))]).

Definition authorization_from_body (value : Json) : result string StandingPoolMakerAuthorization :=
  object ← object_of value "allocation authorization";
  _ ← exact_keys object ["entity_commitment"; "asset_id"; "direction"; "authorization_digest"; "mandate_digest"; "typed_reserve_digest";
        "reserve_nullifier"; "asset_link_proof_digest"; "policy_version"] "allocation authorization";
  direction ← unsigned object "direction";
  if 255 <? direction then Err "allocation direction exceeds u8"
  else
    entity_commitment ← hex32 object "entity_commitment";
    asset_id ← hex32 object "asset_id";
    policy_digest ← hex32 object "authorization_digest";
    mandate_digest ← hex32 object "mandate_digest";
    typed_reserve_digest ← hex32 object "typed_reserve_digest";
    reserve_nullifier ← hex32 object "reserve_nullifier";
    asset_link_proof_digest ← hex32 object "asset_link_proof_digest";
    policy_version ← unsigned object "policy_version";
    let authorization := mkAuthorization entity_commitment asset_id direction policy_digest mandate_digest typed_reserve_digest
      reserve_nullifier asset_link_proof_digest policy_version in
    _ ← authorization_validate authorization;
    Ok authorization.

Section Notes.
Context `{SM : SealedMessages} `{G : GroupOps} `{PC : !PointCodec}.

(** [NoteOpening]: [Recipient] with its envelope, or [Covenant]. *)
Definition NoteOpening : Type := option SealedMessage.

Definition opening_validate (o : NoteOpening) (lock_id : bytes) : result string unit :=
  match o with
  | Some envelope => sealed_validate envelope
  | None => if negb (bool_decide (lock_id = ZERO32)) then Ok tt else Err "a covenant placeholder requires a note lock"
  end.

Definition opening_binding_bytes (o : NoteOpening) : bytes :=
  match o with Some envelope => x01 :: sealed_binding envelope | None => [x00] end.

Record StandingPoolNote := mkNote {
  pn_note_id : bytes;
  pn_asset_id : bytes;
  pn_one_time : bytes;
  pn_value_commitment : bytes;
  pn_ephemeral : bytes;
  pn_encrypted_opening : NoteOpening;
  pn_lock_id : bytes
}.

Definition content_fields (n : StandingPoolNote) : list (string * Json) :=
  [("asset_id", JHex (pn_asset_id n)); ("one_time", JHex (pn_one_time n)); ("value_commitment", JHex (pn_value_commitment n));
   ("ephemeral", JHex (pn_ephemeral n)); ("encrypted_opening", opening_to_json (pn_encrypted_opening n)); ("lock_id", JHex (pn_lock_id n))].
Definition content_body (n : StandingPoolNote) : Json := JObj (content_fields n).

Definition canonical (value : bytes) (name : string) : result string unit :=
  match decompress value with Some _ => Ok tt | None => Err ("standing pool note " +:+ name +:+ " is not canonical") end.

Definition note_validate (n : StandingPoolNote) : result string unit :=
  _ ← all_nonzero [("note_id", pn_note_id n); ("asset_id", pn_asset_id n); ("one_time", pn_one_time n);
        ("value_commitment", pn_value_commitment n); ("ephemeral", pn_ephemeral n)];
  _ ← canonical (pn_one_time n) "one_time";
  _ ← canonical (pn_value_commitment n) "value_commitment";
  _ ← canonical (pn_ephemeral n) "ephemeral";
  _ ← opening_validate (pn_encrypted_opening n) (pn_lock_id n);
  id ← digest_json NOTE_OUTPUT_DOMAIN (content_body n);
  if negb (bool_decide (pn_note_id n = id)) then Err "standing pool note identifier differs from its contents" else Ok tt.

Definition note_body (n : StandingPoolNote) : result string Json :=
  _ ← note_validate n;
  Ok (JObj (content_fields n ++ [("note_id", JHex (pn_note_id n))])).

Definition note_from_body (value : Json) (name : string) : result string StandingPoolNote :=
  object ← object_of value name;
  _ ← exact_keys object ["note_id"; "asset_id"; "one_time"; "value_commitment"; "ephemeral"; "encrypted_opening"; "lock_id"] name;
  note_id ← hex32 object "note_id";
  asset_id ← hex32 object "asset_id";
  one_time ← hex32 object "one_time";
  value_commitment ← hex32 object "value_commitment";
  ephemeral ← hex32 object "ephemeral";
  opening ← ok_or (object !! "encrypted_opening") "missing note opening";
  encrypted_opening ← opening_from_json opening;
  lock_id ← hex32 object "lock_id";
  let note := mkNote note_id asset_id one_time value_commitment ephemeral encrypted_opening lock_id in
  _ ← note_validate note;
  Ok note.

(** ** Allocations *)

Record StandingPoolAllocationBinding := mkAllocation {
  ab_pool_id : bytes;
  ab_delegation_digest : bytes;
  ab_committee_epoch : N;
  ab_expected_pool_sequence : N;
  ab_previous_pool_note_id : bytes;
  ab_previous_amount_commitment : bytes;
  ab_escrow_note : StandingPoolNote;
  ab_remainder_note : StandingPoolNote;
  ab_proof_job_id : bytes;
  ab_quote_proof_digest : bytes;
  ab_dvp_proof_digest : bytes;
  ab_remainder_range_proof_digest : bytes;
  ab_transition_statement : bytes;
  ab_authorization : StandingPoolMakerAuthorization
}.

Definition allocation_metadata (b : StandingPoolAllocationBinding) : result string StandingPoolReservationMetadata :=
  let a := ab_authorization b in
  standing_pool_reservation_metadata (ab_pool_id b) (ab_delegation_digest b) (ab_expected_pool_sequence b) (ab_previous_pool_note_id b)
    (ab_proof_job_id b) (ab_quote_proof_digest b) (ab_dvp_proof_digest b) (ab_transition_statement b) (ma_entity_commitment a)
    (ma_asset_id a) (ma_direction a) (ma_policy_digest a) (ma_mandate_digest a) (ma_policy_version a).

Definition allocation_validate (b : StandingPoolAllocationBinding) : result string unit :=
  let a := ab_authorization b in
  let escrow := ab_escrow_note b in
  let remainder := ab_remainder_note b in
  _ ← all_nonzero [("pool_id", ab_pool_id b); ("delegation_digest", ab_delegation_digest b);
        ("previous_pool_note_id", ab_previous_pool_note_id b); ("previous_amount_commitment", ab_previous_amount_commitment b);
        ("proof_job_id", ab_proof_job_id b); ("quote_proof_digest", ab_quote_proof_digest b); ("dvp_proof_digest", ab_dvp_proof_digest b);
        ("remainder_range_proof_digest", ab_remainder_range_proof_digest b); ("transition_statement", ab_transition_statement b)];
  if ab_committee_epoch b =? 0 then Err "standing pool committee epoch is zero"
  else
    _ ← authorization_validate a;
    _ ← note_validate escrow;
    _ ← note_validate remainder;
    id ← standing_note_pool_id (ma_entity_commitment a) (ma_policy_digest a) (ma_mandate_digest a) (ma_asset_id a) (ma_direction a);
    if negb (bool_decide (ab_pool_id b = id))
       || negb (bool_decide (pn_asset_id escrow = ma_asset_id a))
       || negb (bool_decide (pn_asset_id remainder = ma_asset_id a))
       || bool_decide (pn_lock_id escrow = ZERO32)
       || negb (bool_decide (pn_lock_id remainder = ab_pool_id b))
       || bool_decide (pn_note_id escrow = pn_note_id remainder)
       || bool_decide (ab_previous_pool_note_id b = pn_note_id escrow)
       || bool_decide (ab_previous_pool_note_id b = pn_note_id remainder)
    then Err "standing pool allocation changes its covenant scope"
    else
      previous ← ok_or (decompress (ab_previous_amount_commitment b)) "standing pool previous commitment is not canonical";
      child ← ok_or (decompress (pn_value_commitment escrow)) "standing pool child commitment is not canonical";
      rest ← ok_or (decompress (pn_value_commitment remainder)) "standing pool remainder commitment is not canonical";
      if negb (bool_decide (previous = (child + rest)%P)) then Err "standing pool allocation does not conserve its parent"
      else
        metadata ← allocation_metadata b;
        if negb (bool_decide (ma_typed_reserve_digest a = rm_typed_reserve_digest metadata))
           || negb (bool_decide (ma_reserve_nullifier a = rm_reserve_nullifier metadata))
           || negb (bool_decide (ma_asset_link_proof_digest a = rm_asset_link_proof_digest metadata))
        then Err "standing pool reservation metadata is not derived from this allocation"
        else Ok tt.

Definition allocation_body (b : StandingPoolAllocationBinding) : result string Json :=
  _ ← allocation_validate b;
  escrow ← note_body (ab_escrow_note b);
  remainder ← note_body (ab_remainder_note b);
  authorization ← authorization_body (ab_authorization b);
  Ok (JObj [("pool_id", JHex (ab_pool_id b)); ("delegation_digest", JHex (ab_delegation_digest b));
    ("committee_epoch", JN (ab_committee_epoch b)); ("expected_pool_sequence", JN (ab_expected_pool_sequence b));
    ("previous_pool_note_id", JHex (ab_previous_pool_note_id b)); ("previous_amount_commitment", JHex (ab_previous_amount_commitment b));
    ("escrow_note", escrow); ("remainder_note", remainder); ("proof_job_id", JHex (ab_proof_job_id b));
    ("quote_proof_digest", JHex (ab_quote_proof_digest b)); ("dvp_proof_digest", JHex (ab_dvp_proof_digest b));
    ("remainder_range_proof_digest", JHex (ab_remainder_range_proof_digest b)); ("transition_statement", JHex (ab_transition_statement b));
    ("authorization", authorization)]).

Definition signing_message `{Sha512} (b : StandingPoolAllocationBinding) : result string bytes :=
  body ← allocation_body b;
  raw ← json_to_vec body;
  Ok (sha512 (STANDING_NOTE_POOL_ALLOCATION_SIGNING_DOMAIN ++ be_bytes 8 (N.of_nat (length raw)) ++ raw)).

Definition allocation_from_body (value : Json) : result string StandingPoolAllocationBinding :=
  object ← object_of value "standing pool allocation binding";
  _ ← exact_keys object ["pool_id"; "delegation_digest"; "committee_epoch"; "expected_pool_sequence"; "previous_pool_note_id";
        "previous_amount_commitment"; "escrow_note"; "remainder_note"; "proof_job_id"; "quote_proof_digest"; "dvp_proof_digest";
        "remainder_range_proof_digest"; "transition_statement"; "authorization"] "standing pool allocation binding";
  pool_id ← hex32 object "pool_id";
  delegation_digest ← hex32 object "delegation_digest";
  committee_epoch ← unsigned object "committee_epoch";
  expected_pool_sequence ← unsigned object "expected_pool_sequence";
  previous_pool_note_id ← hex32 object "previous_pool_note_id";
  previous_amount_commitment ← hex32 object "previous_amount_commitment";
  escrow ← ok_or (object !! "escrow_note") "escrow_note is absent";
  escrow_note ← note_from_body escrow "standing pool escrow note";
  remainder ← ok_or (object !! "remainder_note") "remainder_note is absent";
  remainder_note ← note_from_body remainder "standing pool remainder note";
  proof_job_id ← hex32 object "proof_job_id";
  quote_proof_digest ← hex32 object "quote_proof_digest";
  dvp_proof_digest ← hex32 object "dvp_proof_digest";
  remainder_range_proof_digest ← hex32 object "remainder_range_proof_digest";
  transition_statement ← hex32 object "transition_statement";
  authorization ← ok_or (object !! "authorization") "allocation authorization is absent";
  authorization ← authorization_from_body authorization;
  let binding := mkAllocation pool_id delegation_digest committee_epoch expected_pool_sequence previous_pool_note_id
    previous_amount_commitment escrow_note remainder_note proof_job_id quote_proof_digest dvp_proof_digest remainder_range_proof_digest
    transition_statement authorization in
  _ ← allocation_validate binding;
  Ok binding.
End Notes.
End Pool.

(** ** Settlement packages *)

Section Packages.
Context `{B : Bulletproofs} `{Q : QuorumOps} `{PC : !PointCodec} `{SC : !ScalarCodec} `{FC : !FrostCodec} `{S2 : Sha256}.

Definition account_of (handle : Point) (rail : bytes) : bytes :=
  sha256 (bstr "QOMM:DEFMI:ACCOUNT:v1" ++ be_bytes 8 (N.of_nat (length rail)) ++ rail ++ compress handle).

Record ThresholdDvpSides := mkSides {
  securities_from : bytes;
  securities_to : bytes;
  cash_from : bytes;
  cash_to : bytes
}.

Definition threshold_dvp_sides (i : Instruction) : ThresholdDvpSides :=
  mkSides (account_of (i_payee_handle i) SECURITIES_RAIL) (account_of (i_payer_handle i) SECURITIES_RAIL)
    (account_of (i_payer_handle i) CASH_RAIL) (account_of (i_payee_handle i) CASH_RAIL).

Definition product_proof_bytes (p : ProductProof) : bytes :=
  compress (pp_t_factor p) ++ compress (pp_t_product p) ++ scalar_to_bytes (pp_z_b p) ++ scalar_to_bytes (pp_z_rb p)
    ++ scalar_to_bytes (pp_z_s p).

Definition threshold_range_bytes (p : ThresholdRangeProof) : bytes :=
  be_bytes 8 (N.of_nat (tp_bits p)) ++ be_bytes 8 (N.of_nat (length (tp_bit_commitments p)))
    ++ concat (compress <$> tp_bit_commitments p) ++ be_bytes 8 (N.of_nat (length (tp_bit_proofs p)))
    ++ concat (product_proof_bytes <$> tp_bit_proofs p) ++ compress (op_t (tp_linkage p))
    ++ scalar_to_bytes (op_z_value (tp_linkage p)) ++ scalar_to_bytes (op_z_blinding (tp_linkage p)).

Definition threshold_range_proof_digest (p : ThresholdRangeProof) : bytes :=
  sha256 (THRESHOLD_RANGE_DIGEST_DOMAIN ++ threshold_range_bytes p).

(** [DvpProofs] of [dvp_issuer.rs] *)
Record DvpProofs := mkDvpProofs {
  dp_product : ProductProof;
  dp_securities_remainder : ThresholdRangeProof;
  dp_cash_remainder : ThresholdRangeProof
}.

Definition framed (value : bytes) : bytes := be_bytes 8 (N.of_nat (length value)) ++ value.

(** [None] where encoding the instruction panics. *)
Definition threshold_dvp_package_digest (i : Instruction) (sides : ThresholdDvpSides)
    (cash_commitment securities_remainder cash_remainder : Point) (proofs : DvpProofs) : option bytes :=
  wire ← InstructionWire.encode i;
  Some (sha256 (THRESHOLD_DVP_PACKAGE_DOMAIN ++ framed wire ++ framed (securities_from sides) ++ framed (securities_to sides)
    ++ framed (cash_from sides) ++ framed (cash_to sides) ++ compress cash_commitment ++ compress securities_remainder
    ++ compress cash_remainder ++ threshold_range_bytes (dp_securities_remainder proofs)
    ++ threshold_range_bytes (dp_cash_remainder proofs) ++ product_proof_bytes (dp_product proofs))).
End Packages.
End Pool.

(** ** Allocations conserve the pool *)

Section PoolProofs.
Context `{S2 : Sha256} `{HX : HexEncode} `{HD : HexDecode} `{HR : !HexRoundTrip} `{HJ : JsonVec}.
Context `{SM : SealedMessages} `{SML : !SealedLaws} `{G : GroupOps} `{PC : !PointCodec}.
Import Pool.

(** What a valid allocation fixes. *)
Record allocation_facts (b : StandingPoolAllocationBinding) : Prop := {
  af_pool : standing_note_pool_id (ma_entity_commitment (ab_authorization b)) (ma_policy_digest (ab_authorization b))
    (ma_mandate_digest (ab_authorization b)) (ma_asset_id (ab_authorization b)) (ma_direction (ab_authorization b)) = Ok (ab_pool_id b);
  af_escrow : note_validate (ab_escrow_note b) = Ok tt /\ pn_asset_id (ab_escrow_note b) = ma_asset_id (ab_authorization b) /\
    pn_lock_id (ab_escrow_note b) <> ZERO32;
  af_remainder : note_validate (ab_remainder_note b) = Ok tt /\ pn_asset_id (ab_remainder_note b) = ma_asset_id (ab_authorization b) /\
    pn_lock_id (ab_remainder_note b) = ab_pool_id b;
  af_distinct : NoDup [ab_previous_pool_note_id b; pn_note_id (ab_escrow_note b); pn_note_id (ab_remainder_note b)];
  af_conserved : exists child rest, decompress (pn_value_commitment (ab_escrow_note b)) = Some child /\
    decompress (pn_value_commitment (ab_remainder_note b)) = Some rest /\ decompress (ab_previous_amount_commitment b) = Some (child + rest)%P;
  af_metadata : allocation_metadata b = Ok (mkMetadata (ma_typed_reserve_digest (ab_authorization b))
    (ma_reserve_nullifier (ab_authorization b)) (ma_asset_link_proof_digest (ab_authorization b)))
}.

Lemma allocation_validate_facts b : allocation_validate b = Ok tt -> allocation_facts b.
Proof.
  unfold allocation_validate. intros Hv. apply bind_ok in Hv as (_ & _ & Hv). apply if_err_ok in Hv as [_ Hv].
  apply bind_ok in Hv as (_ & _ & Hv). apply bind_ok in Hv as ([] & Hn1 & Hv). apply bind_ok in Hv as ([] & Hn2 & Hv).
  apply bind_ok in Hv as (id & Hid & Hv). apply if_err_ok in Hv as [Hscope Hv].
  apply bind_ok in Hv as (previous & Hp%ok_or_ok & Hv). apply bind_ok in Hv as (child & Hc%ok_or_ok & Hv).
  apply bind_ok in Hv as (rest & Hr%ok_or_ok & Hv). apply if_err_ok in Hv as [Hsum Hv].
  apply bind_ok in Hv as ([m1 m2 m3] & Hm & Hv). apply if_err_ok in Hv as [Hmeta _]. cbn in Hmeta. bool_inv. subst. split.
  - congruence.
  - split_and!; done.
  - split_and!; done.
  - rewrite !NoDup_cons, !not_elem_of_cons. split_and!; try done; try apply not_elem_of_nil. apply NoDup_nil_2.
  - by exists child, rest.
  - rewrite Hm. congruence.
Qed.

(** Successive allocations of one pool: each spends the note and the amount the
    one before it left. *)
Fixpoint pool_chain (pool note amount : bytes) (l : list StandingPoolAllocationBinding) : Prop :=
  match l with
  | [] => True
  | b :: l => ab_pool_id b = pool /\ ab_previous_pool_note_id b = note /\ ab_previous_amount_commitment b = amount /\
      allocation_validate b = Ok tt /\ pool_chain pool (pn_note_id (ab_remainder_note b)) (pn_value_commitment (ab_remainder_note b)) l
  end.

Definition final_amount (amount : bytes) (l : list StandingPoolAllocationBinding) : bytes :=
  match last l with Some b => pn_value_commitment (ab_remainder_note b) | None => amount end.

Lemma final_amount_cons amount b l : final_amount amount (b :: l) = final_amount (pn_value_commitment (ab_remainder_note b)) l.
Proof. unfold final_amount. rewrite last_cons. by destruct (last l). Qed.

(** C22: allocations conserve the pool: along any sequence of valid allocations,
    each spending what the one before it left, the commitment the pool started
    from is the sum of the commitments of all child escrows and of the final
    remainder; every child and every remainder is a note of the asset the maker
    authorised under an identifier of its contents, every remainder stays locked to
    the pool, and the pool identifier is derived from the maker's entity, policy,
    mandate, asset and direction. *)
Theorem pool_chain_conserves pool note amount l P :
  pool_chain pool note amount l -> decompress amount = Some P ->
  exists children rest, Forall2 (fun b child => decompress (pn_value_commitment (ab_escrow_note b)) = Some child) l children /\
    decompress (final_amount amount l) = Some rest /\ P = (foldr padd rest children)%P /\
    Forall (fun b => allocation_facts b /\ ab_pool_id b = pool) l.
Proof.
  revert note amount P. induction l as [|b l IH]; intros note amount P Hchain HP.
  - exists [], P. split; [constructor|]. split; [done|]. split; [done|constructor].
  - destruct Hchain as (Hpool & Hnote & Hamount & Hv & Hchain). pose proof (allocation_validate_facts b Hv) as Hf.
    destruct (af_conserved b Hf) as (child & rest & Hc & Hr & Hs). rewrite Hamount, HP in Hs. injection Hs as ->.
    destruct (IH _ _ rest Hchain Hr) as (children & final & Hch & Hfinal & -> & Hall).
    exists (child :: children), final. split; [by constructor|]. rewrite final_amount_cons. split; [done|]. split; [done|]. by constructor.
Qed.

(** ** Bodies round trip *)

Lemma hex32_field object field b : object !! field = Some (JHex b) -> length b = 32%nat -> hex32 object field = Ok b.
Proof.
  intros Ho Hl. unfold hex32. rewrite Ho. cbn [mbind option_bind as_str JHex ok_or result_bind]. rewrite hex_decode_encode. cbn [ok_or mbind result_bind].
  by rewrite Hl.
Qed.

Lemma unsigned_field object field n : object !! field = Some (JN n) -> n <= U64_MAX -> unsigned object field = Ok n.
Proof.
  intros Ho Hn. unfold unsigned. rewrite Ho. cbn [mbind option_bind as_u64 JN].
  rewrite (proj2 (Z.leb_le _ _)), (proj2 (Z.leb_le _ _)) by lia. cbn. by rewrite N2Z.id.
Qed.

(** Reads one field of an object with known keys. *)
Ltac field_step :=
  match goal with
  | |- mbind _ (hex32 ?o ?f) = _ => erewrite (hex32_field o f); [cbn [mbind result_bind] | vm_compute; reflexivity | assumption]
  | |- mbind _ (unsigned ?o ?f) = _ => erewrite (unsigned_field o f); [cbn [mbind result_bind] | vm_compute; reflexivity | assumption || lia]
  end.

Definition note_typed (n : StandingPoolNote) : Prop :=
  Forall (fun b => length b = 32%nat) [pn_note_id n; pn_asset_id n; pn_one_time n; pn_value_commitment n; pn_ephemeral n; pn_lock_id n].

Lemma note_round n name v : note_typed n -> note_body n = Ok v -> note_from_body v name = Ok n.
Proof.
  unfold note_typed. rewrite !Forall_cons. intros Ht Hb. destruct_and!. unfold note_body in Hb. apply bind_ok in Hb as ([] & Hv & [= <-]).
  unfold note_from_body. cbn [object_of as_object ok_or mbind result_bind].
  replace (exact_keys _ _ _) with (Ok (E:=string) tt) by (vm_compute; reflexivity). cbn [mbind result_bind].
  do 5 field_step. replace (json_map _ !! "encrypted_opening") with (Some (opening_to_json (pn_encrypted_opening n))) by (vm_compute; reflexivity).
  cbn [ok_or mbind result_bind]. rewrite opening_from_to. cbn [mbind result_bind]. field_step.
  destruct n. cbn in Hv |- *. by rewrite Hv.
Qed.

Definition authorization_typed (a : StandingPoolMakerAuthorization) : Prop :=
  Forall (fun b => length b = 32%nat) [ma_entity_commitment a; ma_asset_id a; ma_policy_digest a; ma_mandate_digest a;
    ma_typed_reserve_digest a; ma_reserve_nullifier a; ma_asset_link_proof_digest a] /\ ma_policy_version a <= U64_MAX.

Lemma authorization_round a v : authorization_typed a -> authorization_body a = Ok v -> authorization_from_body v = Ok a.
Proof.
  unfold authorization_typed. rewrite !Forall_cons. intros [Ht Hver] Hb. destruct_and!. unfold authorization_body in Hb.
  apply bind_ok in Hb as ([] & Hv & [= <-]). unfold authorization_from_body. cbn [object_of as_object ok_or mbind result_bind].
  replace (exact_keys _ _ _) with (Ok (E:=string) tt) by (vm_compute; reflexivity). cbn [mbind result_bind].
  assert (ma_direction a <= 2) as Hd.
  { unfold authorization_validate in Hv. apply bind_ok in Hv as (_ & _ & Hv). apply if_err_ok in Hv as [Hv _].
    apply orb_false_iff in Hv as [Hv _]. unfold direction_ok in Hv. apply negb_false_iff, orb_true_iff in Hv as [Hv%N.eqb_eq|Hv%N.eqb_eq]; lia. }
  assert (ma_direction a <= U64_MAX) by (unfold U64_MAX; lia).
  destruct a as [e asset d p q r nl link ver]. cbn [ma_direction ma_policy_version ma_entity_commitment ma_asset_id ma_policy_digest
    ma_mandate_digest ma_typed_reserve_digest ma_reserve_nullifier ma_asset_link_proof_digest] in *.
  field_step. rewrite (proj2 (N.ltb_ge _ _)) by lia. do 8 field_step. by rewrite Hv.
Qed.

Definition allocation_typed (b : StandingPoolAllocationBinding) : Prop :=
  Forall (fun b => length b = 32%nat) [ab_pool_id b; ab_delegation_digest b; ab_previous_pool_note_id b; ab_previous_amount_commitment b;
    ab_proof_job_id b; ab_quote_proof_digest b; ab_dvp_proof_digest b; ab_remainder_range_proof_digest b; ab_transition_statement b] /\
  ab_committee_epoch b <= U64_MAX /\ ab_expected_pool_sequence b <= U64_MAX /\ note_typed (ab_escrow_note b) /\
  note_typed (ab_remainder_note b) /\ authorization_typed (ab_authorization b).

Lemma hex32_length object field b : hex32 object field = Ok b -> length b = 32%nat.
Proof.
  unfold hex32. intros Hh. apply bind_ok in Hh as (x & _ & Hh). apply bind_ok in Hh as (y & _ & Hh).
  apply if_err_ok in Hh as [Hl [= <-]]. by apply negb_false_iff, Nat.eqb_eq in Hl.
Qed.

Lemma unsigned_bound object field n : unsigned object field = Ok n -> n <= U64_MAX.
Proof.
  unfold unsigned. intros Hu%ok_or_ok. apply bind_Some in Hu as ([] & _ & Hz); try done. cbn in Hz.
  case_match eqn:E; [|done]. injection Hz as <-. apply andb_true_iff in E as [?%Z.leb_le ?%Z.leb_le]. unfold U64_MAX. lia.
Qed.

(** The binds of a successful decoder, field by field. *)
Ltac decode_step H :=
  let x := fresh "x" in let Hx := fresh "Hx" in
  apply bind_ok in H as (x & Hx & H);
  first [apply hex32_length in Hx | apply unsigned_bound in Hx | apply ok_or_ok in Hx | idtac].

Lemma note_from_typed v name n : note_from_body v name = Ok n -> note_typed n.
Proof.
  unfold note_from_body. intros Hn. do 11 (decode_step Hn). injection Hn as <-. unfold note_typed. cbn. by repeat constructor.
Qed.

Lemma authorization_from_typed v a : authorization_from_body v = Ok a -> authorization_typed a.
Proof.
  unfold authorization_from_body. intros Ha. do 3 (decode_step Ha). apply if_err_ok in Ha as [_ Ha]. do 9 (decode_step Ha).
  injection Ha as <-. unfold authorization_typed. cbn. split; [by repeat constructor|done].
Qed.

Lemma allocation_from_typed v b : allocation_from_body v = Ok b -> allocation_validate b = Ok tt /\ allocation_typed b.
Proof.
  unfold allocation_from_body. intros Hb. do 20 (decode_step Hb). injection Hb as <-.
  repeat match goal with
    | Hn : note_from_body _ _ = Ok _ |- _ => apply note_from_typed in Hn
    | Hn : authorization_from_body _ = Ok _ |- _ => apply authorization_from_typed in Hn
    | u : unit |- _ => destruct u
    end.
  split; [done|]. unfold allocation_typed. cbn. split_and!; try done. by repeat constructor.
Qed.

Lemma allocation_body_total b : allocation_validate b = Ok tt -> exists v, allocation_body b = Ok v.
Proof.
  intros Hv. unfold allocation_body. rewrite Hv. cbn [mbind result_bind]. pose proof Hv as Hf. unfold allocation_validate in Hf.
  apply bind_ok in Hf as (_ & _ & Hf). apply if_err_ok in Hf as [_ Hf]. apply bind_ok in Hf as ([] & Ha & Hf).
  apply bind_ok in Hf as ([] & H1 & Hf). apply bind_ok in Hf as ([] & H2 & _).
  unfold note_body, authorization_body. rewrite H1, H2, Ha. cbn [mbind result_bind]. by eexists.
Qed.

(** Allocation bodies round trip: the JSON body of a well-typed valid
    allocation decodes to that allocation, every body that decodes gives a valid
    allocation, and encoding that again gives a body that decodes to it. *)
Theorem allocation_body_round b v :
  (allocation_typed b -> allocation_body b = Ok v -> allocation_from_body v = Ok b) /\
  (allocation_from_body v = Ok b -> allocation_validate b = Ok tt /\ allocation_typed b /\
     exists v', allocation_body b = Ok v' /\ allocation_from_body v' = Ok b).
Proof.
  assert (forall b v, allocation_typed b -> allocation_body b = Ok v -> allocation_from_body v = Ok b) as Hround.
  { clear b v. intros b v (Ht & He & Hs & Hn1 & Hn2 & Ha) Hb. rewrite !Forall_cons in Ht. destruct_and!. unfold allocation_body in Hb.
    apply bind_ok in Hb as ([] & Hv & Hb). apply bind_ok in Hb as (v1 & Hv1 & Hb). apply bind_ok in Hb as (v2 & Hv2 & Hb).
    apply bind_ok in Hb as (v3 & Hv3 & [= <-]). unfold allocation_from_body. cbn [object_of as_object ok_or mbind result_bind].
    replace (exact_keys _ _ _) with (Ok (E:=string) tt) by (vm_compute; reflexivity). cbn [mbind result_bind].
    destruct b as [b1 b2 b3 b4 b5 b6 n1 n2 b7 b8 b9 b10 b11 a]. cbn [ab_pool_id ab_delegation_digest ab_committee_epoch ab_expected_pool_sequence
      ab_previous_pool_note_id ab_previous_amount_commitment ab_escrow_note ab_remainder_note ab_proof_job_id ab_quote_proof_digest
      ab_dvp_proof_digest ab_remainder_range_proof_digest ab_transition_statement ab_authorization] in *.
    do 6 field_step.
    replace (json_map _ !! "escrow_note") with (Some v1) by (vm_compute; reflexivity). cbn [ok_or mbind result_bind].
    rewrite (note_round n1 _ v1 Hn1 Hv1). cbn [mbind result_bind].
    replace (json_map _ !! "remainder_note") with (Some v2) by (vm_compute; reflexivity). cbn [ok_or mbind result_bind].
    rewrite (note_round n2 _ v2 Hn2 Hv2). cbn [mbind result_bind]. do 5 field_step.
    replace (json_map _ !! "authorization") with (Some v3) by (vm_compute; reflexivity). cbn [ok_or mbind result_bind].
    rewrite (authorization_round a v3 Ha Hv3). cbn [mbind result_bind]. by rewrite Hv. }
  split; [apply Hround|]. intros Hf. destruct (allocation_from_typed v b Hf) as [Hv Ht]. split; [done|]. split; [done|].
  destruct (allocation_body_total b Hv) as [v' Hv']. exists v'. split; [done|]. by apply Hround.
Qed.
End PoolProofs.
