(* ===== verification/Persistence.v ===== *)
(** * Persisted MPC shares

    Model of [qomm-mpc/src/persistence.rs] and its properties: the Montgomery
    reduction computes in the field, elements are compared and printed by their
    value, and every index of a handoff lies in its run. *)

From stdpp Require Import pretty.
From Stdlib Require Import Znumtheory.
From S2P Require Import Prelude.
From S2P Require Import Interfaces.

(** ** The model

    [qomm-mpc/src/persistence.rs]: arbitrary-width field elements on 64-bit
    limbs, the Persistence file of one party, Montgomery reduction, and the
    layout of the proof handoffs inside a run.  A file is its bytes; an index
    outside a vector and a failed debug assertion are [Panic]. *)

Open Scope N_scope.

Module Persistence.

Definition NAME_BYTES : nat := 10.
Definition SIGN_OFFSET : nat := 10.
Definition LENGTH_OFFSET : N := 11.
Definition PRIME_OFFSET : N := 15.
Definition LIMB_BYTES : N := 8.

Definition HEADER_NAMES : list string := ["winner_key"; "qty"].
Definition WIRE_NAMES : list string :=
  ["ask_level"; "spread"; "slope"; "invcoef"; "inv"; "maxqty"; "expiry"; "active"; "depth"; "skew"; "ask"; "bid"; "fits"; "ok"; "key";
   "fits_margin"; "fresh_margin"; "fresh_bit"; "fits_product"; "fresh_product"; "both"; "gated"; "cost"].

Inductive Error := Io (message : string) | Invalid (message : string).
Inductive failure := Failed (e : Error) | Panic.
Abbreviation outcome := (result failure).
Definition invalid {A} (message : string) : outcome A := Err (Failed (Invalid message)).
Definition or_invalid {A} (o : option A) (message : string) : outcome A := ok_or o (Failed (Invalid message)).
Definition or_panic {A} (o : option A) : outcome A := ok_or o Panic.

(** ** Field elements *)

(** Limbs, the least significant one first. *)
Record FieldElement := mkField { limbs : list N }.
#[global] Instance field_dec : EqDecision FieldElement.
Proof. solve_decision. Defined.

Definition LIMB : N := 2 ^ 64.

(** [while limbs.last() == Some(&0) { limbs.pop() }] *)
Fixpoint normalize (l : list N) : list N :=
  match l with
  | [] => []
  | x :: l => match normalize l with [] => if x =? 0 then [] else [x] | l => x :: l end
  end.

Definition zero : FieldElement := mkField [].
Definition from_u64 (value : N) : FieldElement := if value =? 0 then zero else mkField [value].
Definition from_u128 (value : N) : FieldElement := mkField (normalize [value mod LIMB; N.shiftr value 64 mod LIMB]).

Definition le_value (b : bytes) : N := of_be_bytes (rev b).
Definition le_bytes (n : nat) (x : N) : bytes := rev (be_bytes n x).

(** [bytes.chunks(8)], a short last chunk being padded with zeros. *)
Fixpoint limbs_of_bytes (b : bytes) : list N :=
  match b with
  | [] => []
  | a0 :: a1 :: a2 :: a3 :: a4 :: a5 :: a6 :: a7 :: rest => le_value [a0; a1; a2; a3; a4; a5; a6; a7] :: limbs_of_bytes rest
  | short => [le_value short]
  end.
Definition from_bytes_le (b : bytes) : FieldElement := mkField (normalize (limbs_of_bytes b)).
Definition from_bytes_be (b : bytes) : FieldElement := from_bytes_le (rev b).

Definition to_bytes_le (e : FieldElement) (width : nat) : result Error bytes :=
  let required := N.min (N.of_nat (length (limbs e)) * LIMB_BYTES) U64_MAX in
  if N.of_nat width <? required
  then Err (Invalid ("field element needs " +:+ pretty required +:+ " bytes but width is " +:+ pretty (N.of_nat width)))
  else Ok (resize width x00 (concat (le_bytes 8 <$> limbs e))).

(** [while bytes.last() == Some(&0) && bytes.len() > 1 { bytes.pop() }] *)
Fixpoint pop_zeros (b : bytes) : bytes :=
  match b with
  | a :: ((_ :: _) as l) => match pop_zeros l with [x00] => [a] | l => a :: l end
  | b => b
  end.
Definition to_bytes_be (e : FieldElement) : bytes :=
  match limbs e with
  | [] => [x00]
  | l => rev (pop_zeros (concat (le_bytes 8 <$> l)))
  end.

(** [64 - leading_zeros] *)
Definition bit_length (e : FieldElement) : N :=
  match last (limbs e) with
  | None => 0
  | Some top => (N.of_nat (length (limbs e)) - 1) * 64 + N.size top
  end.

Definition as_u128 (e : FieldElement) : option N :=
  match limbs e with
  | [] => Some 0
  | [low] => Some low
  | [low; high] => Some (N.lor low (N.shiftl high 64))
  | _ => None
  end.

Definition padded_limbs (e : FieldElement) (width : nat) : list N := resize width 0 (limbs e).

(** [Ord]: the number of limbs, then the limbs from the top. *)
Fixpoint lex_compare (l r : list N) : comparison :=
  match l, r with
  | [], [] => Eq
  | [], _ => Lt
  | _, [] => Gt
  | a :: l, b :: r => match a ?= b with Eq => lex_compare l r | c => c end
  end.
Definition field_cmp (a b : FieldElement) : comparison :=
  match Nat.compare (length (limbs a)) (length (limbs b)) with
  | Eq => lex_compare (rev (limbs a)) (rev (limbs b))
  | c => c
  end.
Definition field_ge (a b : FieldElement) : bool := match field_cmp a b with Lt => false | _ => true end.

(** [Display]: one pass of long division by ten, from the top limb. *)
Fixpoint divide_ten (l : list N) : list N * N :=
  match l with
  | [] => ([], 0)
  | x :: l => let (q, remainder) := divide_ten l in
      let value := remainder * LIMB + x in (value / 10 :: q, value mod 10)
  end.
Fixpoint field_digits (fuel : nat) (l : list N) : string -> string :=
  match fuel with
  | O => id
  | S fuel => match l with
      | [] => id
      | l => let (q, digit) := divide_ten l in
          fun s => field_digits fuel (normalize q) (String (ascii_of_N (48 + digit)) s)
      end
  end.
Definition field_display (e : FieldElement) : string :=
  match limbs e with [] => "0" | l => field_digits (20 * length l) l EmptyString end.

(** ** Montgomery reduction *)

Fixpoint subtract_loop (borrow : N) (a b : list N) : list N * N :=
  match a with
  | [] => ([], borrow)
  | lhs :: a =>
      let rhs := hd 0 b + borrow in
      let '(item, borrow) := if rhs <=? lhs then (lhs - rhs, 0) else (LIMB + lhs - rhs, 1) in
      let '(l, borrow) := subtract_loop borrow a (tl b) in (item :: l, borrow)
  end.
Definition subtract_assign (a b : list N) : outcome (list N) :=
  let '(l, borrow) := subtract_loop 0 a b in
  if negb (borrow =? 0) then Err Panic else Ok (normalize l).

(** [-p^-1 mod 2^64] by Newton iteration. *)
Definition wrapping_sub (a b : N) : N := (a + LIMB - b) mod LIMB.
Definition newton_step (m inverse : N) : N := (inverse * wrapping_sub 2 (m * inverse mod LIMB)) mod LIMB.
Definition montgomery_n0 (m : N) : N := wrapping_sub 0 (Nat.iter 6 (newton_step m) 1).

(** [while carry != 0] *)
Fixpoint propagate (carry : N) (work : list N) : option (list N) :=
  if carry =? 0 then Some work
  else match work with
  | [] => None
  | x :: work => let sum := x + carry in rest ← propagate (sum / LIMB) work; Some (sum mod LIMB :: rest)
  end.

(** One row: the multiple of the modulus is added, then the carry runs on. *)
Fixpoint mul_add (multiplier carry : N) (modulus work : list N) : option (list N) :=
  match modulus with
  | [] => propagate carry work
  | m :: modulus => match work with
      | [] => None
      | x :: work => let sum := x + multiplier * m + carry in
          rest ← mul_add multiplier (sum / LIMB) modulus work; Some (sum mod LIMB :: rest)
      end
  end.

(** The rows; a row's first limb, which the debug assertion checks, is left
    behind. *)
Fixpoint montgomery_rows (n0 : N) (modulus : list N) (count : nat) (work : list N) : option (list N) :=
  match count with
  | O => Some work
  | S count =>
      row ← mul_add (hd 0 work * n0 mod LIMB) 0 modulus work;
      if hd 0 row =? 0 then montgomery_rows n0 modulus count (tl row) else None
  end.

Definition from_montgomery (value prime : FieldElement) (element_bytes : N) : outcome FieldElement :=
  if (element_bytes =? 0) || negb (element_bytes mod LIMB_BYTES =? 0)
  then invalid ("invalid Montgomery element width " +:+ pretty element_bytes)
  else
    let width := N.to_nat (element_bytes / LIMB_BYTES) in
    let modulus := padded_limbs prime width in
    if N.land (hd 0 modulus) 1 =? 0 then invalid "Montgomery field modulus must be odd"
    else
      let work := resize (2 * width + 2) 0 (limbs value) in
      reduced ← or_panic (montgomery_rows (montgomery_n0 (hd 0 modulus)) modulus width work);
      let result := mkField (normalize reduced) in
      if field_ge result prime
      then l ← subtract_assign (limbs result) modulus; Ok (mkField l)
      else Ok result.

(** ** Files *)

Record Header := mkHeader {
  hd_name : bytes;
  hd_negative : bool;
  hd_prime : FieldElement;
  hd_montgomery : bool;
  hd_element_bytes : N;
  hd_header_bytes : N;
  hd_data_offset : N
}.

Record Persisted := mkPersisted {
  pf_party : N;
  pf_path : string;
  pf_prime : FieldElement;
  pf_element_bytes : N;
  pf_shares : list FieldElement;
  pf_montgomery : bool
}.

(** [bytes.get(offset..end)] *)
Definition get_range (b : bytes) (start stop : N) : option bytes :=
  if (start <=? stop) && (stop <=? N.of_nat (length b)) then Some (slice (N.to_nat start) (N.to_nat stop) b) else None.

Definition read_le (count : N) (b : bytes) (offset : N) (what : string) : outcome N :=
  stop ← or_invalid (checked_add offset count) ("overflow while reading " +:+ what);
  raw ← or_invalid (get_range b offset stop) ("truncated " +:+ what);
  Ok (le_value raw).
Definition read_u32_le : bytes -> N -> string -> outcome N := read_le 4.
Definition read_u64_le : bytes -> N -> string -> outcome N := read_le 8.

Definition checked_mul (a b : N) : option N := if a * b <=? U64_MAX then Some (a * b) else None.
Definition div_ceil (a b : N) : N := (a + b - 1) / b.

(** [{:?}] of a byte slice. *)
Fixpoint show_list (l : bytes) : string :=
  match l with
  | [] => ""
  | [a] => pretty (Byte.to_N a)
  | a :: l => pretty (Byte.to_N a) +:+ ", " +:+ show_list l
  end.

Definition parse_header (raw : bytes) : outcome Header :=
  header_bytes ← read_u64_le raw 0 "header length";
  data_offset ← or_invalid (checked_add 8 header_bytes) "header length overflow";
  header ← or_invalid (get_range raw 8 data_offset) "truncated Persistence header";
  if negb (bool_decide (take 10 header = bstr "Shamir gfp"))
  then invalid ("not a Shamir gfp persistence file ([" +:+ show_list (take 16 header) +:+ "])")
  else
    sign ← or_invalid (header !! SIGN_OFFSET) "truncated prime sign";
    negative ← match sign with
      | x00 => Ok false
      | x01 => Ok true
      | value => invalid ("invalid prime sign byte " +:+ pretty (Byte.to_N value) +:+ "; expected 0 or 1")
      end;
    prime_bytes ← read_u32_le header LENGTH_OFFSET "prime byte length";
    if prime_bytes =? 0 then invalid "the header declares a zero-byte prime"
    else
      prime_end ← or_invalid (checked_add PRIME_OFFSET prime_bytes) "prime byte length overflow";
      prime_raw ← or_invalid (get_range header PRIME_OFFSET prime_end) "truncated prime";
      let prime := from_bytes_be prime_raw in
      if bit_length prime =? 0 then invalid "the header declares a zero prime"
      else
        montgomery ← read_u32_le header prime_end "Montgomery flag";
        element_bytes ← or_invalid (checked_mul (div_ceil (bit_length prime) 64) LIMB_BYTES) "field element width overflow";
        Ok (mkHeader (take NAME_BYTES header) negative prime (negb (montgomery =? 0)) element_bytes header_bytes data_offset).

(** [chunks_exact] of a body whose length is a multiple of the width. *)
Fixpoint chunks_exact (count width : nat) (b : bytes) : list bytes :=
  match count with O => [] | S count => take width b :: chunks_exact count width (drop width b) end.

Fixpoint read_shares (path : string) (prime : FieldElement) (element_bytes : N) (index : N) (l : list bytes) : outcome (list FieldElement) :=
  match l with
  | [] => Ok []
  | b :: l =>
      let value := from_bytes_le b in
      if field_ge value prime
      then invalid (path +:+ ": a share at offset " +:+ pretty (index * element_bytes)
             +:+ " is not reduced; the file is not what this reader thinks it is")
      else shares ← read_shares path prime element_bytes (index + 1) l; Ok (value :: shares)
  end.

(** [contents] is the answer of [fs::read]. *)
Definition read (contents : result string bytes) (path : string) (party : N) : outcome Persisted :=
  raw ← map_err (fun e => Failed (Io e)) contents;
  header ← map_err (fun e => match e with Failed (Invalid m) => Failed (Invalid (path +:+ ": " +:+ m)) | e => e end) (parse_header raw);
  let body := drop (N.to_nat (hd_data_offset header)) raw in
  let size := N.of_nat (length body) in
  if negb (size mod hd_element_bytes header =? 0)
  then invalid (path +:+ ": " +:+ pretty size +:+ " bytes is not a whole number of " +:+ pretty (hd_element_bytes header) +:+ "-byte shares")
  else
    shares ← read_shares path (hd_prime header) (hd_element_bytes header) 0
      (chunks_exact (N.to_nat (size / hd_element_bytes header)) (N.to_nat (hd_element_bytes header)) body);
    Ok (mkPersisted party path (hd_prime header) (hd_element_bytes header) shares (hd_montgomery header)).

(** ** Layout of a run *)

Record LocalRangeHandoff := mkLocalRangeHandoff {
  lh_value_share : FieldElement;
  lh_blinding_share : FieldElement;
  lh_bits : list (FieldElement * FieldElement * FieldElement)
}.

Record LocalZkpiHandoff := mkLocalZkpiHandoff {
  zh_party : N;
  zh_path : string;
  zh_prime : FieldElement;
  zh_winner_key_share : FieldElement;
  zh_maker_handle_share : FieldElement;
  zh_amount : LocalRangeHandoff;
  zh_price : LocalRangeHandoff;
  zh_price_limit_difference : LocalRangeHandoff;
  zh_runs_in_file : N
}.

Record LocalDvpHandoff := mkLocalDvpHandoff {
  dh_party : N;
  dh_path : string;
  dh_prime : FieldElement;
  dh_price_share : FieldElement;
  dh_price_blinding_share : FieldElement;
  dh_cash_value_share : FieldElement;
  dh_cash_blinding_share : FieldElement;
  dh_product_cross_share : FieldElement;
  dh_securities_remainder : LocalRangeHandoff;
  dh_cash_remainder : LocalRangeHandoff;
  dh_maker_pool_remainder : LocalRangeHandoff;
  dh_runs_in_file : N
}.

Definition QUOTE_POLICY_BLINDING_NAMES : list string :=
  ["ask_level"; "spread"; "slope"; "invcoef"; "inv"; "maxqty"; "expiry"; "active"; "use_ref"].
Definition QUOTE_DERIVED_BLINDING_NAMES : list string :=
  ["depth"; "skew"; "fits_bit"; "fits_product"; "fresh_bit"; "fresh_product"; "both"; "ok"; "gated"; "cost"].
Definition QUOTE_CROSS_NAMES : list string :=
  ["depth"; "skew"; "fits_bit"; "fits_product"; "fresh_bit"; "fresh_product"; "active"; "reference"; "both"; "ok"; "gated"].

Record LocalQuoteMakerHandoff := mkLocalQuoteMakerHandoff {
  qm_core_wire_shares : gmap string FieldElement;
  qm_use_ref_share : FieldElement;
  qm_policy_blinding_shares : gmap string FieldElement;
  qm_derived_blinding_shares : gmap string FieldElement;
  qm_cross_shares : gmap string FieldElement;
  qm_fits_witness : LocalRangeHandoff;
  qm_fresh_witness : LocalRangeHandoff;
  qm_key_blinding_share : FieldElement;
  qm_minimality : LocalRangeHandoff
}.

Record LocalQuoteProofHandoff := mkLocalQuoteProofHandoff {
  qh_party : N;
  qh_path : string;
  qh_prime : FieldElement;
  qh_qty_share : FieldElement;
  qh_qty_blinding_share : FieldElement;
  qh_makers : list LocalQuoteMakerHandoff;
  qh_runs_in_file : N
}.

Definition values_per_run (n_makers : N) : outcome N :=
  or_invalid (checked_mul n_makers (N.of_nat (length WIRE_NAMES)) ≫= fun v => checked_add v (N.of_nat (length HEADER_NAMES)))
    "wire count overflow".

(** [3 * bits] and [2 + 3 * bits], which panic when they overflow; a build
    without overflow checks goes on to allocate a vector of that width. *)
Definition triples (extra bits : N) : outcome N := or_panic (checked_mul 3 bits ≫= fun v => checked_add extra v).

Definition zkpi_values_per_run (n_makers amount_bits price_bits : N) : outcome N :=
  let add v x := or_invalid (checked_add v x) "zkPI persistence wire count overflow" in
  v ← values_per_run n_makers;
  v ← add v 4;
  x ← triples 0 amount_bits; v ← add v x;
  x ← triples 0 price_bits; v ← add v x;
  x ← triples 2 price_bits; add v x.

Definition dvp_values_per_run (n_makers amount_bits price_bits remainder_bits : N) : outcome N :=
  if remainder_bits =? 0 then invalid "DvP remainder width must be positive"
  else
    let add v x := or_invalid (checked_add v x) "DvP persistence wire count overflow" in
    v ← zkpi_values_per_run n_makers amount_bits price_bits;
    v ← add v 3;
    x ← triples 2 remainder_bits; v ← add v x;
    x ← triples 2 remainder_bits; v ← add v x;
    x ← triples 2 remainder_bits; add v x.

Definition quote_proof_values_per_run (n_makers amount_bits price_bits remainder_bits eligibility_bits span_bits : N) : outcome N :=
  if (eligibility_bits =? 0) || (span_bits =? 0) then invalid "quote-proof range widths must be positive"
  else
    e ← or_invalid (checked_mul 6 eligibility_bits) "quote-proof eligibility wire count overflow";
    per_maker ← or_invalid (checked_add 38 e ≫= fun v => checked_mul 3 span_bits ≫= fun x => checked_add v x)
      "quote-proof wire count overflow";
    v ← dvp_values_per_run n_makers amount_bits price_bits remainder_bits;
    x ← or_invalid (checked_mul n_makers per_maker) "quote-proof wire count overflow";
    or_invalid (checked_add v x) "quote-proof persistence wire count overflow".

Definition select_run (run : Z) (runs : N) : option N :=
  if (0 <=? run)%Z then let index := Z.to_N run in if index <? runs then Some index else None
  else checked_sub runs (Z.abs_N run).

Definition selected_run_offset (total per_run : N) (run : Z) (path : string) : outcome N :=
  if negb (total mod per_run =? 0)
  then invalid (path +:+ " contains " +:+ pretty total +:+ " values, which is not a whole number of " +:+ pretty per_run
         +:+ "-value persistence runs")
  else
    let runs := total / per_run in
    selected ← or_invalid (select_run run runs)
      ("run " +:+ pretty run +:+ " of " +:+ pretty runs +:+ " in " +:+ path +:+ ": there is no such block");
    Ok (selected * per_run).

(** The closure [decode] over a file and an offset. *)
Definition decode_share (file : Persisted) (offset index : N) : outcome FieldElement :=
  stored ← or_panic (pf_shares file !! N.to_nat (offset + index));
  if pf_montgomery file then from_montgomery stored (pf_prime file) (pf_element_bytes file) else Ok stored.

Section Reading.
Variable decode : N -> outcome FieldElement.

Fixpoint read_bits (count : nat) (cursor : N) : outcome (list (FieldElement * FieldElement * FieldElement) * N) :=
  match count with
  | O => Ok ([], cursor)
  | S count =>
      a ← decode cursor; b ← decode (cursor + 1); c ← decode (cursor + 2);
      '(l, cursor) ← read_bits count (cursor + 3); Ok ((a, b, c) :: l, cursor)
  end.

Definition read_range (width : N) (cursor : N) : outcome (LocalRangeHandoff * N) :=
  value ← decode cursor;
  blinding ← decode (cursor + 1);
  '(bits, cursor) ← read_bits (N.to_nat width) (cursor + 2);
  Ok (mkLocalRangeHandoff value blinding bits, cursor).

Fixpoint read_named (names : list string) (values : gmap string FieldElement) (cursor : N) : outcome (gmap string FieldElement * N) :=
  match names with
  | [] => Ok (values, cursor)
  | name :: names => x ← decode cursor; read_named names (<[name := x]> values) (cursor + 1)
  end.

Definition read_maker (eligibility_bits span_bits : N) (maker_index : nat) (cursor : N) : outcome (LocalQuoteMakerHandoff * N) :=
  '(core, _) ← read_named WIRE_NAMES ∅ (N.of_nat (length HEADER_NAMES + maker_index * length WIRE_NAMES));
  use_ref ← decode cursor;
  '(policy, cursor) ← read_named QUOTE_POLICY_BLINDING_NAMES ∅ (cursor + 1);
  '(derived, cursor) ← read_named QUOTE_DERIVED_BLINDING_NAMES ∅ cursor;
  '(cross, cursor) ← read_named QUOTE_CROSS_NAMES ∅ cursor;
  '(fits, cursor) ← read_range eligibility_bits cursor;
  '(fresh, cursor) ← read_range eligibility_bits cursor;
  key_blinding ← decode cursor;
  '(minimality, cursor) ← read_range span_bits (cursor + 1);
  Ok (mkLocalQuoteMakerHandoff core use_ref policy derived cross fits fresh key_blinding minimality, cursor).

Fixpoint read_makers (eligibility_bits span_bits : N) (first count : nat) (cursor : N) : outcome (list LocalQuoteMakerHandoff * N) :=
  match count with
  | O => Ok ([], cursor)
  | S count =>
      '(maker, cursor) ← read_maker eligibility_bits span_bits first cursor;
      '(makers, cursor) ← read_makers eligibility_bits span_bits (S first) count cursor;
      Ok (maker :: makers, cursor)
  end.
End Reading.

Section Handoffs.
Variables (contents : result string bytes) (path : string) (party n_makers amount_bits price_bits : N).

Definition read_local_zkpi_handoff_with_stride (per_run : N) (run : Z) : outcome LocalZkpiHandoff :=
  file ← read contents path party;
  let total := N.of_nat (length (pf_shares file)) in
  offset ← selected_run_offset total per_run run path;
  let decode := decode_share file offset in
  base ← values_per_run n_makers;
  winner_key_share ← decode 0;
  amount_value ← decode 1;
  maker_handle_share ← decode base;
  price_value ← decode (base + 1);
  amount_blinding ← decode (base + 2);
  price_blinding ← decode (base + 3);
  '(amount, cursor) ← read_bits decode (N.to_nat amount_bits) (base + 4);
  '(price, cursor) ← read_bits decode (N.to_nat price_bits) cursor;
  '(limit, cursor) ← read_range decode price_bits cursor;
  if per_run <? cursor then invalid "internal zkPI persistence layout exceeds its run stride"
  else Ok (mkLocalZkpiHandoff party path (pf_prime file) winner_key_share maker_handle_share
    (mkLocalRangeHandoff amount_value amount_blinding amount) (mkLocalRangeHandoff price_value price_blinding price) limit (total / per_run)).

Definition read_local_zkpi_handoff (run : Z) : outcome LocalZkpiHandoff :=
  if (amount_bits =? 0) || (price_bits =? 0) then invalid "zkPI amount and price widths must be positive"
  else
    per_run ← zkpi_values_per_run n_makers amount_bits price_bits;
    read_local_zkpi_handoff_with_stride per_run run.

Variable remainder_bits : N.

Definition read_local_zkpi_handoff_from_dvp (run : Z) : outcome LocalZkpiHandoff :=
  if (amount_bits =? 0) || (price_bits =? 0) || (remainder_bits =? 0) then invalid "zkPI and DvP range widths must be positive"
  else
    per_run ← dvp_values_per_run n_makers amount_bits price_bits remainder_bits;
    read_local_zkpi_handoff_with_stride per_run run.

Definition read_local_dvp_handoff_with_stride (per_run : N) (run : Z) : outcome LocalDvpHandoff :=
  file ← read contents path party;
  let total := N.of_nat (length (pf_shares file)) in
  offset ← selected_run_offset total per_run run path;
  let decode := decode_share file offset in
  base ← values_per_run n_makers;
  price_share ← decode (base + 1);
  price_blinding_share ← decode (base + 3);
  cursor ← zkpi_values_per_run n_makers amount_bits price_bits;
  cash_value_share ← decode cursor;
  cash_blinding_share ← decode (cursor + 1);
  product_cross_share ← decode (cursor + 2);
  '(securities_remainder, cursor) ← read_range decode remainder_bits (cursor + 3);
  '(cash_remainder, cursor) ← read_range decode remainder_bits cursor;
  '(maker_pool_remainder, cursor) ← read_range decode remainder_bits cursor;
  dvp_end ← dvp_values_per_run n_makers amount_bits price_bits remainder_bits;
  if negb (cursor =? dvp_end) || (per_run <? dvp_end) then invalid "internal DvP persistence layout mismatch"
  else Ok (mkLocalDvpHandoff party path (pf_prime file) price_share price_blinding_share cash_value_share cash_blinding_share
    product_cross_share securities_remainder cash_remainder maker_pool_remainder (total / per_run)).

Definition read_local_dvp_handoff (run : Z) : outcome LocalDvpHandoff :=
  per_run ← dvp_values_per_run n_makers amount_bits price_bits remainder_bits;
  read_local_dvp_handoff_with_stride per_run run.

Variables eligibility_bits span_bits : N.

Definition read_local_zkpi_handoff_from_quote (run : Z) : outcome LocalZkpiHandoff :=
  per_run ← quote_proof_values_per_run n_makers amount_bits price_bits remainder_bits eligibility_bits span_bits;
  read_local_zkpi_handoff_with_stride per_run run.

Definition read_local_dvp_handoff_from_quote (run : Z) : outcome LocalDvpHandoff :=
  per_run ← quote_proof_values_per_run n_makers amount_bits price_bits remainder_bits eligibility_bits span_bits;
  read_local_dvp_handoff_with_stride per_run run.

Definition read_local_quote_proof_handoff (run : Z) : outcome LocalQuoteProofHandoff :=
  file ← read contents path party;
  per_run ← quote_proof_values_per_run n_makers amount_bits price_bits remainder_bits eligibility_bits span_bits;
  let total := N.of_nat (length (pf_shares file)) in
  offset ← selected_run_offset total per_run run path;
  let decode := decode_share file offset in
  qty_share ← decode 1;
  base ← values_per_run n_makers;
  qty_blinding_share ← decode (base + 2);
  cursor ← dvp_values_per_run n_makers amount_bits price_bits remainder_bits;
  '(makers, cursor) ← read_makers decode eligibility_bits span_bits 0 (N.to_nat n_makers) cursor;
  if negb (cursor =? per_run)
  then invalid ("quote-proof persistence layout ended at " +:+ pretty cursor +:+ ", expected " +:+ pretty per_run)
  else Ok (mkLocalQuoteProofHandoff party path (pf_prime file) qty_share qty_blinding_share makers (total / per_run)).
End Handoffs.

Definition runs_in_file (contents : result string bytes) (path : string) (n_makers : N) : outcome N :=
  expected ← values_per_run n_makers;
  file ← read contents path 0;
  let total := N.of_nat (length (pf_shares file)) in
  if negb (total mod expected =? 0)
  then invalid ("file contains " +:+ pretty total +:+ " values, which is not a whole number of " +:+ pretty expected +:+ "-value runs")
  else Ok (total / expected).

(** ** All parties' wires *)

Record Wires := mkWires {
  wr_prime : FieldElement;
  wr_winner_key : gmap N FieldElement;
  wr_qty : gmap N FieldElement;
  wr_makers : list (gmap string (gmap N FieldElement));
  wr_runs_in_file : N
}.

Definition party_path (directory : string) (party : nat) : string := directory +:+ "/Transactions-P" +:+ pretty (N.of_nat party) +:+ ".data".

Fixpoint primes_seen (party : nat) (files : list Persisted) : string :=
  match files with
  | [] => ""
  | [file] => "P" +:+ pretty (N.of_nat party) +:+ "=" +:+ field_display (pf_prime file)
  | file :: files => "P" +:+ pretty (N.of_nat party) +:+ "=" +:+ field_display (pf_prime file) +:+ " " +:+ primes_seen (S party) files
  end.

Definition file_offset (directory : string) (expected : N) (run : Z) (file : Persisted) : outcome N :=
  let size := N.of_nat (length (pf_shares file)) in
  if negb (size mod expected =? 0)
  then invalid ("party " +:+ pretty (pf_party file) +:+ " wrote " +:+ pretty size +:+ " values, which is not a whole number of "
         +:+ pretty expected +:+ "-value runs: one side has a wire the other does not")
  else
    let total := size / expected in
    selected ← or_invalid (select_run run total)
      ("run " +:+ pretty run +:+ " of " +:+ pretty total +:+ " in " +:+ directory +:+ ": there is no such block");
    Ok (selected * expected).

(** The closure [at]. *)
Definition wire_at (files : list (Persisted * N)) (index : N) : outcome (gmap N FieldElement) :=
  l ← map_res (fun '(file, offset) => value ← decode_share file offset index; Ok (pf_party file + 1, value)) files;
  Ok (list_to_map (rev l)).

Fixpoint maker_wires (files : list (Persisted * N)) (names : list string) (index : N) (wires : gmap string (gmap N FieldElement)) :
    outcome (gmap string (gmap N FieldElement)) :=
  match names with
  | [] => Ok wires
  | name :: names => x ← wire_at files index; maker_wires files names (index + 1) (<[name := x]> wires)
  end.

(** [windows(2).any(..)] over the numbers of shares. *)
Fixpoint lengths_differ (files : list Persisted) : bool :=
  match files with
  | a :: ((b :: _) as files) => negb (length (pf_shares a) =? length (pf_shares b))%nat || lengths_differ files
  | _ => false
  end.

(** [contents] holds the answer of [fs::read] for each party's file. *)
Definition read_wires (contents : list (result string bytes)) (directory : string) (n_makers : N) (run : Z) : outcome Wires :=
  expected ← values_per_run n_makers;
  files ← map_res (fun '(party, c) => read c (party_path directory party) (N.of_nat party)) (imap pair contents);
  first ← or_invalid (head files) "at least one party is required";
  if existsb (fun file => negb (bool_decide (pf_prime file = pf_prime first))) files
  then invalid ("the nodes did not write in the same field, which usually means the Persistence directory holds files from more than one run: "
         +:+ primes_seen 0 files)
  else
    offsets ← map_res (file_offset directory expected run) files;
    if lengths_differ files then invalid "the nodes wrote different numbers of runs"
    else
      let files := zip files offsets in
      makers ← map_res (fun maker => maker_wires files WIRE_NAMES (N.of_nat (length HEADER_NAMES + maker * length WIRE_NAMES)) ∅)
        (seq 0 (N.to_nat n_makers));
      winner_key ← wire_at files 0;
      qty ← wire_at files 1;
      Ok (mkWires (pf_prime first) winner_key qty makers (N.of_nat (length (pf_shares first)) / expected)).
End Persistence.

Open Scope N_scope.

Section Limbs.
Import Persistence.

Definition limbs_value (l : list N) : N := foldr (fun x acc => x + LIMB * acc) 0 l.
Definition fe_value (e : FieldElement) : N := limbs_value (limbs e).
Definition is_limb (x : N) : Prop := x < LIMB.

(** What [FieldElement]'s constructors keep: limbs below [2^64], none of them a
    leading zero. *)
Definition fe_ok (e : FieldElement) : Prop := Forall is_limb (limbs e) /\ last (limbs e) <> Some 0.

Lemma limb_pos : 0 < LIMB.
Proof. done. Qed.

Lemma limbs_value_cons x l : limbs_value (x :: l) = x + LIMB * limbs_value l.
Proof. done. Qed.

Lemma limb_step x v P : x < LIMB -> v < P -> x + LIMB * v < LIMB * P.
Proof. intros Hx Hv. assert (LIMB * (v + 1) <= LIMB * P) by (apply N.mul_le_mono_l; lia). lia. Qed.

Lemma limbs_bound l : Forall is_limb l -> limbs_value l < LIMB ^ N.of_nat (length l).
Proof.
  unfold is_limb. induction 1 as [|x l Hx Hl IH]; [done|]. rewrite limbs_value_cons. cbn [length].
  rewrite Nat2N.inj_succ, N.pow_succ_r'. by apply limb_step.
Qed.

Lemma limbs_value_app l r : limbs_value (l ++ r) = limbs_value l + LIMB ^ N.of_nat (length l) * limbs_value r.
Proof.
  induction l as [|x l IH]; [cbn [length app]; change (N.of_nat 0) with 0; rewrite N.pow_0_r; change (limbs_value []) with 0; lia|]. cbn [app length]. rewrite !limbs_value_cons, IH.
  rewrite Nat2N.inj_succ, N.pow_succ_r'. lia.
Qed.

Lemma limbs_value_zeros n : limbs_value (replicate n 0) = 0.
Proof. induction n as [|n IH]; [done|]. cbn [replicate]. rewrite limbs_value_cons, IH. lia. Qed.

Lemma normalize_value l : limbs_value (normalize l) = limbs_value l.
Proof.
  induction l as [|x l IH]; [done|]. cbn [normalize]. rewrite limbs_value_cons, <- IH.
  destruct (normalize l) as [|y l']; [|done]. destruct (N.eqb_spec x 0) as [->|]; done.
Qed.

Lemma normalize_ok l : Forall is_limb l -> fe_ok (mkField (normalize l)).
Proof.
  induction 1 as [|x l Hx Hl [IH1 IH2]]; [by split|]. cbn [normalize limbs] in *.
  destruct (normalize l) as [|y l'].
  - destruct (N.eqb_spec x 0); split; cbn; try done; [by constructor|congruence].
  - split; [by constructor|]. exact IH2.
Qed.

Lemma normalize_id l : last l <> Some 0 -> normalize l = l.
Proof.
  induction l as [|x l IH]; [done|]. intros Hl. cbn [normalize]. destruct l as [|y l].
  - cbn in *. destruct (N.eqb_spec x 0); congruence.
  - rewrite IH by exact Hl. done.
Qed.

(** A nonempty element has the top bit of its top limb. *)
Lemma limbs_lower l : l <> [] -> last l <> Some 0 -> LIMB ^ N.of_nat (length l - 1) <= limbs_value l.
Proof.
  induction l as [|x l IH]; [done|]. intros _ Hlast. destruct l as [|y l].
  - cbn in *. assert (x <> 0) by congruence. lia.
  - specialize (IH ltac:(done) Hlast). cbn [length] in *. replace (S (S (length l)) - 1)%nat with (S (S (length l) - 1)) by lia.
    rewrite Nat2N.inj_succ, N.pow_succ_r'. rewrite (limbs_value_cons x).
    assert (LIMB * LIMB ^ N.of_nat (S (length l) - 1) <= LIMB * limbs_value (y :: l)) by (by apply N.mul_le_mono_l). lia.
Qed.

Lemma resize_value n l : (length l <= n)%nat -> limbs_value (resize n 0 l) = limbs_value l.
Proof. intros Hl. rewrite resize_ge by lia. rewrite limbs_value_app, limbs_value_zeros. lia. Qed.

(** ** Order *)

Lemma lex_compare_value l r : length l = length r -> Forall is_limb l -> Forall is_limb r ->
  lex_compare l r = (limbs_value (rev l) ?= limbs_value (rev r)).
Proof.
  revert r. induction l as [|a l IH]; intros [|b r] Hlen Hl Hr; try done.
  apply Forall_cons in Hl as [Ha Hl], Hr as [Hb Hr]. injection Hlen as Hlen. cbn [lex_compare rev]. rewrite !limbs_value_app, !length_rev, <- Hlen.
  rewrite IH by done. rewrite !limbs_value_cons. change (limbs_value []) with 0. rewrite !N.mul_0_r, !N.add_0_r.
  pose proof (limbs_bound (rev l) ltac:(by apply Forall_rev)) as Bl. pose proof (limbs_bound (rev r) ltac:(by apply Forall_rev)) as Br.
  rewrite length_rev in Bl, Br. rewrite <- Hlen in Br. set (P := LIMB ^ N.of_nat (length l)) in *.
  destruct (N.compare_spec a b) as [->|Hab|Hab].
  - destruct (N.compare_spec (limbs_value (rev l)) (limbs_value (rev r))) as [E|E|E]; symmetry.
    + rewrite E. apply N.compare_refl.
    + apply N.compare_lt_iff. lia.
    + apply N.compare_gt_iff. lia.
  - symmetry. apply N.compare_lt_iff. assert (P * (a + 1) <= P * b) by (apply N.mul_le_mono_l; lia). lia.
  - symmetry. apply N.compare_gt_iff. assert (P * (b + 1) <= P * a) by (apply N.mul_le_mono_l; lia). lia.
Qed.

Lemma field_cmp_value a b : fe_ok a -> fe_ok b -> field_cmp a b = (fe_value a ?= fe_value b).
Proof.
  assert (forall a b, fe_ok a -> fe_ok b -> (length (limbs a) < length (limbs b))%nat -> fe_value a < fe_value b) as Hlt.
  { clear. intros a b [Ha _] [Hb Hb'] Hl. unfold fe_value. pose proof (limbs_bound _ Ha) as Ba.
    assert (limbs b <> []) as Hne by (intros E; rewrite E in Hl; cbn in Hl; lia).
    pose proof (limbs_lower _ Hne Hb') as Bb. eapply N.lt_le_trans; [exact Ba|]. etrans; [|exact Bb].
    apply N.pow_le_mono_r; [done|lia]. }
  intros Ha Hb. unfold field_cmp. destruct (Nat.compare_spec (length (limbs a)) (length (limbs b))) as [Hl|Hl|Hl].
  - rewrite lex_compare_value; [by rewrite !rev_involutive|by rewrite !length_rev| |]; apply Forall_rev; [apply Ha|apply Hb].
  - symmetry. apply N.compare_lt_iff. by apply Hlt.
  - symmetry. apply N.compare_gt_iff. by apply Hlt.
Qed.

Lemma field_ge_value a b : fe_ok a -> fe_ok b -> field_ge a b = (fe_value b <=? fe_value a).
Proof.
  intros Ha Hb. unfold field_ge. rewrite field_cmp_value by done.
  destruct (N.compare_spec (fe_value a) (fe_value b)); symmetry; [apply N.leb_le; lia|apply N.leb_gt; lia|apply N.leb_le; lia].
Qed.
End Limbs.

(** ** Montgomery reduction *)

Section Montgomery.
Import Persistence.

Lemma newton_doubles m x k : 2 * k <= 64 -> (Z.divide (2 ^ Z.of_N k) (Z.of_N (m * x) - 1))%Z ->
  (Z.divide (2 ^ Z.of_N (2 * k)) (Z.of_N (m * newton_step m x) - 1))%Z.
Proof.
  intros Hk [c Hc]. unfold newton_step, wrapping_sub.
  pose proof (N.mod_lt (m * x) LIMB ltac:(done)) as Hlt. pose proof (N.div_mod' (m * x) LIMB) as E1.
  set (r := (m * x) mod LIMB) in *. set (q1 := m * x / LIMB) in *.
  pose proof (N.div_mod' (2 + LIMB - r) LIMB) as E2. set (s := (2 + LIMB - r) mod LIMB) in *. set (q2 := (2 + LIMB - r) / LIMB) in *.
  pose proof (N.div_mod' (x * s) LIMB) as E3. set (t := (x * s) mod LIMB) in *. set (q3 := x * s / LIMB) in *. clearbody r s t q1 q2 q3.
  assert (Z.of_N LIMB = 2 ^ Z.of_N (2 * k) * 2 ^ Z.of_N (64 - 2 * k))%Z as HL.
  { rewrite <- Z.pow_add_r by lia. replace (Z.of_N (2 * k) + Z.of_N (64 - 2 * k))%Z with 64%Z by lia. done. }
  assert (2 ^ Z.of_N (2 * k) = 2 ^ Z.of_N k * 2 ^ Z.of_N k)%Z as Hsq.
  { rewrite <- Z.pow_add_r by lia. f_equal. lia. }
  set (K := (2 ^ Z.of_N k)%Z) in *. set (D := (2 ^ Z.of_N (64 - 2 * k))%Z) in *. set (L := Z.of_N LIMB) in *.
  assert (Z.of_N m * Z.of_N x = L * Z.of_N q1 + Z.of_N r)%Z as Z1 by lia.
  assert (2 + L - Z.of_N r = L * Z.of_N q2 + Z.of_N s)%Z as Z2 by lia.
  assert (Z.of_N x * Z.of_N s = L * Z.of_N q3 + Z.of_N t)%Z as Z3 by lia.
  assert (Z.of_N m * Z.of_N x - 1 = c * K)%Z as Zc by lia.
  exists (- (c * c) + D * (Z.of_N m * Z.of_N x * (Z.of_N q1 + 1 - Z.of_N q2) - Z.of_N m * Z.of_N q3))%Z.
  rewrite N2Z.inj_mul, Hsq.
  assert (Z.of_N t = Z.of_N x * (2 + L - (Z.of_N m * Z.of_N x - L * Z.of_N q1) - L * Z.of_N q2) - L * Z.of_N q3)%Z as -> by nia.
  rewrite HL, Hsq. set (X := (Z.of_N m * Z.of_N x)%Z) in *.
  replace (Z.of_N m * (Z.of_N x * (2 + K * K * D - (X - K * K * D * Z.of_N q1) - K * K * D * Z.of_N q2) - K * K * D * Z.of_N q3) - 1)%Z
    with (X * (2 - X) - 1 + K * K * D * (X * (Z.of_N q1 + 1 - Z.of_N q2) - Z.of_N m * Z.of_N q3))%Z by (unfold X; ring).
  replace X with (1 + c * K)%Z by lia. ring.
Qed.

Lemma newton_inverse m : N.odd m = true -> (Z.divide (2 ^ 64) (Z.of_N (m * Nat.iter 6 (newton_step m) 1%N) - 1))%Z.
Proof.
  intros Hodd. cbn [Nat.iter nat_rect].
  change 64%Z with (Z.of_N (2 * 32)). apply newton_doubles; [lia|]. change 32%N with (2 * 16)%N. apply newton_doubles; [lia|].
  change 16%N with (2 * 8)%N. apply newton_doubles; [lia|]. change 8%N with (2 * 4)%N. apply newton_doubles; [lia|].
  change 4%N with (2 * 2)%N at 1. apply newton_doubles; [lia|]. change 2%N with (2 * 1)%N at 1. apply newton_doubles; [lia|].
  apply N.odd_spec in Hodd as [c ->]. exists (Z.of_N c). change (2 ^ Z.of_N 1)%Z with 2%Z. lia.
Qed.

(** The multiplier of a row clears its lowest limb. *)
Lemma row_clears m x : N.odd m = true -> (x + (x * montgomery_n0 m mod LIMB) * m) mod LIMB = 0.
Proof.
  intros Hodd. destruct (newton_inverse m Hodd) as [c Hc]. unfold montgomery_n0, wrapping_sub.
  set (i := Nat.iter 6 (newton_step m) 1) in *.
  assert (i < LIMB) as Hi by (unfold i; cbn [Nat.iter nat_rect]; apply N.mod_lt; done).
  pose proof (N.div_mod' (0 + LIMB - i) LIMB) as E1. set (n := (0 + LIMB - i) mod LIMB) in *. set (q1 := (0 + LIMB - i) / LIMB) in *.
  pose proof (N.div_mod' (x * n) LIMB) as E2. set (t := (x * n) mod LIMB) in *. set (q2 := x * n / LIMB) in *. clearbody i n t q1 q2.
  apply N.Lcm0.mod_divide.
  assert (Z.of_N LIMB = 2 ^ 64)%Z as HL by done. set (L := Z.of_N LIMB) in *. rewrite <- HL in Hc.
  assert (L - Z.of_N i = L * Z.of_N q1 + Z.of_N n)%Z as Z1 by lia. assert (Z.of_N x * Z.of_N n = L * Z.of_N q2 + Z.of_N t)%Z as Z2 by lia.
  assert (Z.of_N m * Z.of_N i = 1 + c * L)%Z as Z3 by lia.
  assert (Z.of_N (x + t * m) = L * (Z.of_N x * Z.of_N m * (1 - Z.of_N q1) - Z.of_N x * c - Z.of_N m * Z.of_N q2))%Z as Hz.
  { rewrite N2Z.inj_add, N2Z.inj_mul. assert (Z.of_N t = Z.of_N x * (L - Z.of_N i - L * Z.of_N q1) - L * Z.of_N q2)%Z as -> by nia.
    replace (Z.of_N x + (Z.of_N x * (L - Z.of_N i - L * Z.of_N q1) - L * Z.of_N q2) * Z.of_N m)%Z
      with (Z.of_N x - Z.of_N x * (Z.of_N m * Z.of_N i) + L * (Z.of_N x * Z.of_N m * (1 - Z.of_N q1) - Z.of_N m * Z.of_N q2))%Z by ring.
    rewrite Z3. ring. }
  set (k := (Z.of_N x * Z.of_N m * (1 - Z.of_N q1) - Z.of_N x * c - Z.of_N m * Z.of_N q2)%Z) in *.
  assert (0 <= k)%Z as Hk by (assert (0 < L)%Z by (unfold L; lia); nia).
  exists (Z.to_N k). apply N2Z.inj. rewrite Hz, N2Z.inj_mul, Z2N.id by done. fold L. ring.
Qed.

Lemma split_limb x v y : (x + LIMB * v) + y = (x + y) mod LIMB + LIMB * (v + (x + y) / LIMB).
Proof. pose proof (N.div_mod' (x + y) LIMB). lia. Qed.

Lemma high_limb x v c P : x < LIMB -> x + LIMB * v + c < LIMB * P -> v + (x + c) / LIMB < P.
Proof.
  intros Hx Hb. pose proof (N.div_mod' (x + c) LIMB) as E. set (d := (x + c) / LIMB) in *. set (r := (x + c) mod LIMB) in *. clearbody d r.
  destruct (N.lt_ge_cases (v + d) P) as [|Hge]; [done|].
  assert (LIMB * P <= LIMB * (v + d)) as Hm by (by apply N.mul_le_mono_l). rewrite N.mul_add_distr_l in Hm. lia.
Qed.

Lemma propagate_spec carry work : Forall is_limb work -> limbs_value work + carry < LIMB ^ N.of_nat (length work) ->
  exists out, propagate carry work = Some out /\ length out = length work /\ Forall is_limb out /\ limbs_value out = limbs_value work + carry.
Proof.
  intros Hw. revert carry. induction Hw as [|x work Hx Hw IH]; intros carry Hb; cbn [propagate].
  - change (limbs_value [] + carry < 1) in Hb. rewrite (proj2 (N.eqb_eq carry 0)) by (change (limbs_value []) with 0 in Hb; lia).
    exists []. split; [done|]. split; [done|]. split; [done|]. change (limbs_value []) with 0 in *. lia.
  - destruct (N.eqb_spec carry 0) as [->|Hc].
    + exists (x :: work). split; [done|]. split; [done|]. split; [by constructor|]. lia.
    + rewrite limbs_value_cons in Hb |- *. cbn [length] in Hb. rewrite Nat2N.inj_succ, N.pow_succ_r' in Hb.
      destruct (IH ((x + carry) / LIMB)) as (out & Ho & Hl & Hok & Hv); [by apply high_limb|].
      exists ((x + carry) mod LIMB :: out). rewrite Ho. split; [done|]. split; [cbn; lia|]. split.
      * constructor; [apply N.mod_lt; done|done].
      * rewrite limbs_value_cons, Hv. symmetry. apply split_limb.
Qed.

Lemma mul_add_spec multiplier carry modulus work : Forall is_limb work -> (length modulus <= length work)%nat ->
  limbs_value work + multiplier * limbs_value modulus + carry < LIMB ^ N.of_nat (length work) ->
  exists out, mul_add multiplier carry modulus work = Some out /\ length out = length work /\ Forall is_limb out
    /\ limbs_value out = limbs_value work + multiplier * limbs_value modulus + carry.
Proof.
  revert carry work. induction modulus as [|m modulus IH]; intros carry work Hw Hl Hb; cbn [mul_add].
  - change (limbs_value []) with 0 in *. rewrite N.mul_0_r, N.add_0_r in *. by apply propagate_spec.
  - destruct work as [|x work]; [cbn in Hl; lia|]. apply Forall_cons in Hw as [Hx Hw]. cbn [length] in Hl, Hb. rewrite !limbs_value_cons in Hb |- *.
    rewrite Nat2N.inj_succ, N.pow_succ_r' in Hb.
    assert (x + LIMB * (limbs_value work + multiplier * limbs_value modulus) + (multiplier * m + carry)
      = x + LIMB * limbs_value work + multiplier * (m + LIMB * limbs_value modulus) + carry) as E by lia.
    rewrite <- N.add_assoc.
    destruct (IH ((x + (multiplier * m + carry)) / LIMB) work Hw ltac:(lia)) as (out & Ho & Hlen & Hok & Hv).
    { apply high_limb; [done|]. by rewrite E. }
    exists ((x + (multiplier * m + carry)) mod LIMB :: out). rewrite Ho. split; [done|]. split; [cbn; lia|]. split.
    + constructor; [apply N.mod_lt; done|done].
    + rewrite limbs_value_cons, Hv, <- E. symmetry. apply split_limb.
Qed.

Lemma rows_spec modulus count work : Forall is_limb modulus -> modulus <> [] -> N.odd (hd 0 modulus) = true ->
  Forall is_limb work -> length work = (count + length modulus + 2)%nat ->
  limbs_value work < limbs_value modulus * (LIMB ^ N.of_nat count + 1) ->
  exists out q, montgomery_rows (montgomery_n0 (hd 0 modulus)) modulus count work = Some out /\ Forall is_limb out
    /\ limbs_value out * LIMB ^ N.of_nat count = limbs_value work + q * limbs_value modulus /\ limbs_value out < 2 * limbs_value modulus.
Proof.
  intros Hm Hne Hodd. revert work. induction count as [|count IH]; intros work Hw Hl Hb; cbn [montgomery_rows].
  { exists work, 0. change (N.of_nat 0) with 0 in *. rewrite N.pow_0_r in *. split; [done|]. split; [done|]. split; lia. }
  pose proof (limbs_bound modulus Hm) as Hp. set (p := limbs_value modulus) in *.
  set (c := LIMB ^ N.of_nat count) in *. rewrite Nat2N.inj_succ, N.pow_succ_r' in Hb |- *. fold c in Hb |- *.
  assert (1 <= c) as Hc by (assert (c <> 0) by (apply N.pow_nonzero; done); lia).
  destruct work as [|x work]; [cbn in Hl; lia|]. cbn [hd]. set (mult := (x * montgomery_n0 (hd 0 modulus)) mod LIMB).
  assert (mult < LIMB) as Hmult by (apply N.mod_lt; done).
  assert (mult * p + p <= LIMB * p) as Hmp.
  { assert ((mult + 1) * p <= LIMB * p) as Hm1 by (apply N.mul_le_mono_r; lia). rewrite N.mul_add_distr_r, N.mul_1_l in Hm1. exact Hm1. }
  assert (limbs_value (x :: work) + mult * p < LIMB * (p * (c + 1))) as Hsum.
  { replace (LIMB * (p * (c + 1))) with (p * (LIMB * c) + LIMB * p) by ring. rewrite N.mul_add_distr_l, N.mul_1_r in Hb. lia. }
  destruct (mul_add_spec mult 0 modulus (x :: work) Hw ltac:(lia)) as (out & Ho & Hlo & Hok & Hv).
  { rewrite N.add_0_r. fold p. eapply N.lt_le_trans; [exact Hsum|]. rewrite Hl.
    replace (N.of_nat (S count + length modulus + 2)) with (1 + (N.of_nat (length modulus) + (N.of_nat count + 2))) by lia.
    rewrite N.pow_add_r, N.pow_1_r. apply N.mul_le_mono_l. rewrite N.pow_add_r. apply N.mul_le_mono; [lia|].
    rewrite N.pow_add_r. fold c. change (LIMB ^ 2) with 340282366920938463463374607431768211456. lia. }
  rewrite Ho. cbn [mbind option_bind]. rewrite N.add_0_r in Hv. fold p in Hv.
  destruct out as [|y out]; [cbn in Hlo; lia|]. apply Forall_cons in Hok as [Hy Hok]. cbn [hd tl].
  assert (y = 0) as ->.
  { destruct modulus as [|m0 modulus]; [done|]. cbn [hd] in *. pose proof (row_clears m0 x Hodd) as Hz. fold mult in Hz.
    unfold p in Hv. rewrite !limbs_value_cons in Hv.
    assert (y = (y + LIMB * limbs_value out) mod LIMB) as ->.
    { rewrite N.mul_comm, N.Div0.mod_add. symmetry. by apply N.mod_small. }
    rewrite Hv. replace (x + LIMB * limbs_value work + mult * (m0 + LIMB * limbs_value modulus))
      with (x + mult * m0 + (limbs_value work + mult * limbs_value modulus) * LIMB) by lia.
    by rewrite N.Div0.mod_add. }
  cbn [N.eqb]. rewrite limbs_value_cons, N.add_0_l in Hv.
  destruct (IH out Hok ltac:(cbn in Hlo, Hl |- *; lia)) as (final & q & Hf & Hokf & Hvf & Hbf).
  { fold p c. rewrite <- Hv in Hsum. by apply N.mul_lt_mono_pos_l in Hsum. }
  exists final, (q * LIMB + mult). split; [done|]. split; [done|]. split; [|done]. fold c p in Hvf, Hbf |- *.
  replace (limbs_value final * (LIMB * c)) with (LIMB * (limbs_value final * c)) by lia. rewrite Hvf. lia.
Qed.

Lemma subtract_loop_spec borrow a b l bo : Forall is_limb a -> Forall is_limb b -> borrow <= 1 -> (length b <= length a)%nat ->
  subtract_loop borrow a b = (l, bo) ->
  limbs_value l + limbs_value b + borrow = limbs_value a + bo * LIMB ^ N.of_nat (length a) /\ bo <= 1 /\ Forall is_limb l /\ length l = length a.
Proof.
  intros Ha. revert borrow b l bo. induction Ha as [|x a Hx Ha IH]; intros borrow b l bo Hb Hbo Hlen; cbn [subtract_loop].
  { intros [= <- <-]. destruct b; [|cbn in Hlen; lia]. change (limbs_value []) with 0. change (LIMB ^ N.of_nat (length [])) with 1.
    split; [lia|]. by split. }
  assert (hd 0 b < LIMB /\ Forall is_limb (tl b) /\ limbs_value b = hd 0 b + LIMB * limbs_value (tl b) /\ (length (tl b) <= length a)%nat)
    as (Hy & Hb' & Hvb & Hlb).
  { destruct b as [|y b]; [by split_and!; [|constructor| |cbn; lia]|]. apply Forall_cons in Hb as [Hy Hb]. cbn in *. split_and!; try done. lia. }
  set (y := hd 0 b) in *. set (b' := tl b) in *. clearbody y b'. unfold is_limb in Hx.
  destruct (N.leb_spec (y + borrow) x).
  - destruct (subtract_loop 0 a b') as [l' bo'] eqn:E. intros [= <- <-]. destruct (IH 0 b' l' bo' Hb' ltac:(lia) Hlb E) as (Hv & Hbo' & Hok & Hl).
    pose proof (f_equal (N.mul LIMB) Hv) as HvL. rewrite Hvb, !limbs_value_cons. cbn [length]. rewrite Nat2N.inj_succ, N.pow_succ_r'.
    split; [lia|]. split; [done|]. split; [constructor; [unfold is_limb; lia|done]|lia].
  - destruct (subtract_loop 1 a b') as [l' bo'] eqn:E. intros [= <- <-]. destruct (IH 1 b' l' bo' Hb' ltac:(lia) Hlb E) as (Hv & Hbo' & Hok & Hl).
    pose proof (f_equal (N.mul LIMB) Hv) as HvL. rewrite Hvb, !limbs_value_cons. cbn [length]. rewrite Nat2N.inj_succ, N.pow_succ_r'.
    split; [lia|]. split; [done|]. split; [constructor; [unfold is_limb; lia|done]|lia].
Qed.

Lemma subtract_assign_spec a b : Forall is_limb a -> Forall is_limb b -> (length b <= length a)%nat -> limbs_value b <= limbs_value a ->
  exists l, subtract_assign a b = Ok l /\ fe_ok (mkField l) /\ limbs_value l = limbs_value a - limbs_value b.
Proof.
  intros Ha Hb Hl Hv. unfold subtract_assign. destruct (subtract_loop 0 a b) as [l bo] eqn:E.
  destruct (subtract_loop_spec 0 a b l bo Ha Hb ltac:(lia) Hl E) as (Hs & Hbo & Hok & Hlen).
  pose proof (limbs_bound l Hok) as Bl. rewrite Hlen in Bl.
  assert (bo = 0) as -> by (destruct (N.eq_dec bo 0); [done|]; assert (bo = 1) as -> by lia; lia).
  cbn [N.eqb negb]. eexists. split; [done|]. split; [by apply normalize_ok|]. rewrite normalize_value. lia.
Qed.

Lemma resize_limbs n l : Forall is_limb l -> Forall is_limb (resize n 0 l).
Proof. intros Hl. apply Forall_resize; done. Qed.

Lemma from_montgomery_spec value prime :
  fe_ok value -> fe_ok prime -> N.odd (fe_value prime) = true ->
  let R := LIMB ^ N.of_nat (length (limbs prime)) in
  fe_value value < fe_value prime * R ->
  exists r, from_montgomery value prime (8 * N.of_nat (length (limbs prime))) = Ok r /\ fe_ok r /\ fe_value r < fe_value prime
    /\ (fe_value r * R) mod fe_value prime = fe_value value mod fe_value prime.
Proof.
  intros [Hvl Hvn] [Hpl Hpn] Hodd R Hlt. unfold fe_value in *.
  assert (exists m0 ms, limbs prime = m0 :: ms) as (m0 & ms & Ep) by (clear -Hodd; destruct (limbs prime); [done|eauto]).
  set (w := length (limbs prime)) in *.
  assert (0 < w)%nat as Hw by (unfold w; rewrite Ep; cbn; lia).
  unfold from_montgomery, LIMB_BYTES. rewrite (proj2 (N.eqb_neq (8 * N.of_nat w) 0)) by lia.
  rewrite (N.mul_comm 8), N.Div0.mod_mul, N.div_mul by done. cbn [N.eqb negb orb]. rewrite Nat2N.id.
  unfold padded_limbs. rewrite (resize_all_alt _ w) by done.
  assert (hd 0 (limbs prime) = m0) as Hhd by (by rewrite Ep). rewrite Hhd.
  assert (N.odd m0 = true) as Hodd0.
  { rewrite Ep, limbs_value_cons in Hodd. change LIMB with (2 * 2 ^ 63) in Hodd. rewrite <- N.mul_assoc, N.odd_add_mul_2 in Hodd. exact Hodd. }
  replace (N.land m0 1) with 1 by (change 1 with (N.ones 1) at 2; rewrite N.land_ones, N.pow_1_r, <- N.bit0_mod, N.bit0_odd, Hodd0; done).
  cbn [N.eqb].
  assert (length (limbs value) <= 2 * w + 2)%nat as Hlen.
  { destruct (limbs value) as [|v0 vs] eqn:Ev; [cbn; lia|]. pose proof (limbs_lower (v0 :: vs) ltac:(done) Hvn) as Hlow.
    pose proof (limbs_bound _ Hpl) as Hpb. fold w in Hpb. fold R in Hpb.
    assert (LIMB ^ N.of_nat (length (v0 :: vs) - 1) < LIMB ^ N.of_nat (2 * w)) as Hp.
    { eapply N.le_lt_trans; [exact Hlow|]. eapply N.lt_le_trans; [exact Hlt|].
      replace (N.of_nat (2 * w)) with (N.of_nat w + N.of_nat w) by lia. rewrite N.pow_add_r. apply N.mul_le_mono; [apply N.lt_le_incl; exact Hpb | apply N.le_refl]. }
    apply N.pow_lt_mono_r_iff in Hp; [lia|done]. }
  destruct (rows_spec (limbs prime) w (resize (2 * w + 2) 0 (limbs value)) Hpl ltac:(by rewrite Ep) ltac:(by rewrite Hhd)
    ltac:(by apply resize_limbs) ltac:(rewrite length_resize; fold w; lia)) as (out & q & Ho & Hok & Hval & Hb2).
  { rewrite resize_value by done. fold R. rewrite N.mul_add_distr_l. lia. }
  rewrite Hhd in Ho. rewrite Ho. cbn [or_panic ok_or mbind result_bind]. rewrite resize_value in Hval by done. fold R in Hval.
  assert (fe_ok prime) as Hpok by done. pose proof (normalize_ok out Hok) as Hrok. rewrite (field_ge_value _ _ Hrok Hpok).
  unfold fe_value. cbn [limbs]. rewrite normalize_value.
  assert (forall r, r = limbs_value out \/ r + limbs_value (limbs prime) = limbs_value out ->
    (r * R) mod limbs_value (limbs prime) = limbs_value (limbs value) mod limbs_value (limbs prime)) as Hmod.
  { intros r Hr. rewrite <- (N.Div0.mod_add (limbs_value (limbs value)) q), <- Hval. destruct Hr as [->|<-]; [done|].
    rewrite N.mul_add_distr_r, (N.mul_comm (limbs_value (limbs prime)) R), N.Div0.mod_add. done. }
  destruct (N.leb_spec (limbs_value (limbs prime)) (limbs_value out)) as [Hge|Hsmall].
  - assert (w <= length (normalize out))%nat as Hlw.
    { destruct (le_lt_dec w (length (normalize out))) as [|Hsh]; [done|]. exfalso.
      assert (limbs_value (normalize out) < limbs_value (limbs prime)) as Hc; [|rewrite normalize_value in Hc; lia].
      eapply N.lt_le_trans; [apply limbs_bound, Hrok|]. cbn [limbs]. etrans; [|apply limbs_lower; [by rewrite Ep|done]].
      apply N.pow_le_mono_r; [done|]. fold w. lia. }
    destruct (subtract_assign_spec (normalize out) (limbs prime) (proj1 Hrok) Hpl Hlw ltac:(by rewrite normalize_value)) as (l & -> & Hlok & Hlv).
    rewrite normalize_value in Hlv. eexists. split; [done|]. split; [done|]. cbn [limbs]. split; [lia|]. apply Hmod. right. lia.
  - eexists. split; [done|]. split; [done|]. cbn [limbs]. rewrite normalize_value. split; [done|]. apply Hmod. by left.
Qed.

(** C35: montgomery reduction computes in the field: for an odd prime of [w]
    limbs and any value below [prime * 2^(64 w)], the conversion returns without
    panicking the element below the prime which times [2^(64 w)] is congruent to
    the value, for a valid element in its normal form. *)
Theorem montgomery_reduces value prime :
  fe_ok value -> fe_ok prime -> N.odd (fe_value prime) = true ->
  let R := LIMB ^ N.of_nat (length (limbs prime)) in
  fe_value value < fe_value prime * R ->
  exists r, from_montgomery value prime (8 * N.of_nat (length (limbs prime))) = Ok r /\ fe_ok r /\ fe_value r < fe_value prime
    /\ (fe_value r * R) mod fe_value prime = fe_value value mod fe_value prime.
Proof. apply from_montgomery_spec. Qed.
End Montgomery.

(** ** Files hold reduced shares *)

Section Files.
Import Persistence.

Lemma limbs_of_bytes_ok b : Forall is_limb (limbs_of_bytes b).
Proof.
  assert (forall b, (length b <= 8)%nat -> is_limb (le_value b)) as Hle.
  { intros l Hl. unfold is_limb, le_value. eapply N.lt_le_trans; [apply of_be_bytes_bound|]. rewrite length_rev.
    change LIMB with (256 ^ 8). apply N.pow_le_mono_r; lia. }
  assert (forall n b, (length b <= n)%nat -> Forall is_limb (limbs_of_bytes b)) as Hall; [|by apply (Hall (length b))].
  clear b. induction n as [|n IH]; intros b Hb; [destruct b; [constructor|cbn in Hb; lia]|].
  destruct b as [|a0 [|a1 [|a2 [|a3 [|a4 [|a5 [|a6 [|a7 rest]]]]]]]]; cbn [limbs_of_bytes]; try (by repeat constructor; apply Hle; cbn; lia).
  constructor; [apply Hle; cbn; lia|]. apply IH. cbn in Hb. lia.
Qed.

Lemma from_bytes_ok b : fe_ok (from_bytes_le b).
Proof. apply normalize_ok, limbs_of_bytes_ok. Qed.

Lemma bit_length_width e : fe_ok e -> bit_length e <> 0 -> div_ceil (bit_length e) 64 = N.of_nat (length (limbs e)).
Proof.
  intros [Hok Hlast] Hne. unfold bit_length, div_ceil in *. destruct (last (limbs e)) as [top|] eqn:El; [|done].
  assert (limbs e <> []) as Hnil by (intros E; by rewrite E in El). assert (0 < length (limbs e))%nat by (destruct (limbs e); [done|cbn; lia]).
  assert (top <> 0) as Htop by congruence.
  assert (N.size top <= 64) as Hsz.
  { assert (is_limb top) as Ht by (rewrite Forall_forall in Hok; apply Hok; by apply last_Some_elem_of).
    rewrite N.size_log2 by done. assert (N.log2 top < 64); [|lia]. apply N.log2_lt_pow2; [lia|exact Ht]. }
  assert (1 <= N.size top) as Hsz1 by (rewrite N.size_log2 by done; lia).
  symmetry. apply (N.div_unique _ _ _ (N.size top - 1)); lia.
Qed.

Lemma parse_header_ok raw h : parse_header raw = Ok h ->
  fe_ok (hd_prime h) /\ hd_element_bytes h = 8 * N.of_nat (length (limbs (hd_prime h))).
Proof.
  unfold parse_header. intros Hp. do 3 (apply bind_ok in Hp as (? & _ & Hp)). apply if_err_ok in Hp as [_ Hp].
  do 3 (apply bind_ok in Hp as (? & _ & Hp)). apply if_err_ok in Hp as [_ Hp]. apply bind_ok in Hp as (? & _ & Hp).
  apply bind_ok in Hp as (praw & _ & Hp). apply if_err_ok in Hp as [Hbit Hp]. apply bind_ok in Hp as (? & _ & Hp).
  apply bind_ok in Hp as (eb & Heb & [= <-]). cbn [hd_prime hd_element_bytes]. unfold from_bytes_be in *.
  split; [apply from_bytes_ok|]. apply ok_or_ok in Heb. unfold checked_mul in Heb. case_match; [|done]. injection Heb as <-.
  apply N.eqb_neq in Hbit. rewrite bit_length_width by (apply from_bytes_ok || done). unfold LIMB_BYTES. lia.
Qed.

(** The shares a reader returns. *)
Definition reduced (file : Persisted) : Prop :=
  fe_ok (pf_prime file) /\ pf_element_bytes file = 8 * N.of_nat (length (limbs (pf_prime file))) /\
  Forall (fun e => fe_ok e /\ fe_value e < fe_value (pf_prime file)) (pf_shares file).

Lemma read_reduced contents path party file : read contents path party = Ok file -> reduced file /\ pf_party file = party.
Proof.
  unfold read. intros Hr. apply bind_ok in Hr as (raw & _ & Hr). apply bind_ok in Hr as (h & Hh & Hr). apply if_err_ok in Hr as [_ Hr].
  apply bind_ok in Hr as (shares & Hs & [= <-]).
  assert (parse_header raw = Ok h) as Hp by (destruct (parse_header raw) as [h'|[[]|]] eqn:E; cbn in Hh; congruence).
  destruct (parse_header_ok raw h Hp) as [Hok Heb]. split; [|done]. split; [done|]. split; [done|]. cbn.
  revert Hs. generalize 0 as index, (chunks_exact (N.to_nat (N.of_nat (length (drop (N.to_nat (hd_data_offset h)) raw)) / hd_element_bytes h))
    (N.to_nat (hd_element_bytes h)) (drop (N.to_nat (hd_data_offset h)) raw)) as l.
  intros index l. revert index shares. induction l as [|b l IH]; intros index shares; cbn [read_shares]; [by intros [= <-]|].
  case_match eqn:Hge; [done|]. intros Hs. apply bind_ok in Hs as (shares' & Hs & [= <-]). constructor; [|by eapply IH].
  split; [apply from_bytes_ok|]. rewrite field_ge_value in Hge by (apply from_bytes_ok || done). by apply N.leb_gt in Hge.
Qed.

(** A share inside the file decodes. *)
Lemma decode_share_total file offset per_run index : reduced file ->
  (pf_montgomery file = true -> N.odd (fe_value (pf_prime file)) = true) ->
  offset + per_run <= N.of_nat (length (pf_shares file)) -> index < per_run -> exists e, decode_share file offset index = Ok e.
Proof.
  intros (Hp & Heb & Hs) Hodd Hoff Hi. unfold decode_share.
  destruct (lookup_lt_is_Some_2 (pf_shares file) (N.to_nat (offset + index))) as [e He]; [lia|]. rewrite He. cbn [or_panic ok_or mbind result_bind].
  destruct (pf_montgomery file); [|by eexists]. rewrite Forall_forall in Hs. destruct (Hs e) as [Hok Hlt]; [by eapply list_elem_of_lookup_2|].
  rewrite Heb. destruct (from_montgomery_spec e (pf_prime file) Hok Hp (Hodd eq_refl)) as (r & -> & _); [|by eexists].
  assert (1 <= LIMB ^ N.of_nat (length (limbs (pf_prime file)))) as H1 by (assert (LIMB ^ N.of_nat (length (limbs (pf_prime file))) <> 0) by (by apply N.pow_nonzero); lia).
  pose proof (N.mul_le_mono_l _ _ (fe_value (pf_prime file)) H1). lia.
Qed.
End Files.

(** ** Every index lies in its run *)

Section Layout.
Import Persistence.
Variables (decode : N -> outcome FieldElement) (n : N).
Hypothesis total : forall i, i < n -> exists e, decode i = Ok e.

(** Runs the next read of a total reader. *)
Ltac next_share i := let e := fresh "e" in let He := fresh "He" in
  destruct (total i) as [e He]; [lia|]; rewrite ?He; cbn [mbind result_bind].

Lemma read_bits_total count cursor : cursor + 3 * N.of_nat count <= n ->
  exists l, read_bits decode count cursor = Ok (l, cursor + 3 * N.of_nat count) /\ length l = count.
Proof.
  revert cursor. induction count as [|count IH]; intros cursor Hn; cbn [read_bits].
  { exists []. split; [|done]. do 2 f_equal. lia. }
  next_share cursor. next_share (cursor + 1). next_share (cursor + 2).
  destruct (IH (cursor + 3) ltac:(lia)) as (l & -> & Hl). cbn. eexists. split; [do 2 f_equal; lia|]. cbn. by f_equal.
Qed.

Lemma read_range_total width cursor : cursor + 2 + 3 * width <= n ->
  exists h, read_range decode width cursor = Ok (h, cursor + 2 + 3 * width) /\ N.of_nat (length (lh_bits h)) = width
    /\ decode cursor = Ok (lh_value_share h) /\ decode (cursor + 1) = Ok (lh_blinding_share h).
Proof.
  intros Hn. unfold read_range. next_share cursor. next_share (cursor + 1).
  destruct (read_bits_total (N.to_nat width) (cursor + 2)) as (l & -> & Hl); [lia|]. cbn. eexists.
  split; [do 2 f_equal; lia|]. cbn. split; [lia|]. done.
Qed.

Lemma read_named_total names m cursor : cursor + N.of_nat (length names) <= n ->
  exists m', read_named decode names m cursor = Ok (m', cursor + N.of_nat (length names)).
Proof.
  revert m cursor. induction names as [|name names IH]; intros m cursor Hn; cbn [read_named].
  { exists m. do 2 f_equal. cbn. lia. }
  cbn [length] in Hn. next_share cursor. destruct (IH (<[name:=e]> m) (cursor + 1) ltac:(lia)) as [m' ->]. exists m'. do 2 f_equal. cbn. lia.
Qed.

Lemma read_maker_total eligibility span index cursor :
  2 + N.of_nat (S index) * 23 <= n -> cursor + 38 + 6 * eligibility + 3 * span <= n ->
  exists maker, read_maker decode eligibility span index cursor = Ok (maker, cursor + 38 + 6 * eligibility + 3 * span).
Proof.
  intros Hc Hn. unfold read_maker. cbn [length HEADER_NAMES WIRE_NAMES].
  destruct (read_named_total WIRE_NAMES ∅ (N.of_nat (2 + index * 23))) as [core ->]; [cbn; lia|]. cbn [mbind result_bind].
  next_share cursor.
  destruct (read_named_total QUOTE_POLICY_BLINDING_NAMES ∅ (cursor + 1)) as [policy ->]; [cbn; lia|]. cbn [mbind result_bind].
  destruct (read_named_total QUOTE_DERIVED_BLINDING_NAMES ∅ (cursor + 1 + N.of_nat (length QUOTE_POLICY_BLINDING_NAMES))) as [derived ->]; [cbn; lia|].
  cbn [mbind result_bind].
  destruct (read_named_total QUOTE_CROSS_NAMES ∅ (cursor + 1 + N.of_nat (length QUOTE_POLICY_BLINDING_NAMES) + N.of_nat (length QUOTE_DERIVED_BLINDING_NAMES)))
    as [cross ->]; [cbn; lia|]. cbn [mbind result_bind].
  change (N.of_nat (length QUOTE_POLICY_BLINDING_NAMES)) with 9. change (N.of_nat (length QUOTE_DERIVED_BLINDING_NAMES)) with 10.
  change (N.of_nat (length QUOTE_CROSS_NAMES)) with 11.
  destruct (read_range_total eligibility (cursor + 1 + 9 + 10 + 11)) as (fits & -> & _); [lia|]. cbn [mbind result_bind].
  destruct (read_range_total eligibility (cursor + 1 + 9 + 10 + 11 + 2 + 3 * eligibility)) as (fresh & -> & _); [lia|]. cbn [mbind result_bind].
  next_share (cursor + 1 + 9 + 10 + 11 + 2 + 3 * eligibility + 2 + 3 * eligibility).
  destruct (read_range_total span (cursor + 1 + 9 + 10 + 11 + 2 + 3 * eligibility + 2 + 3 * eligibility + 1)) as (minimality & -> & _); [lia|].
  cbn [mbind result_bind]. eexists. do 2 f_equal. lia.
Qed.

Lemma read_makers_total eligibility span count : forall first cursor,
  2 + N.of_nat (first + count) * 23 <= n -> cursor + N.of_nat count * (38 + 6 * eligibility + 3 * span) <= n ->
  exists makers, read_makers decode eligibility span first count cursor
    = Ok (makers, cursor + N.of_nat count * (38 + 6 * eligibility + 3 * span)) /\ length makers = count.
Proof.
  induction count as [|count IH]; intros first cursor Hc Hn; cbn [read_makers].
  { exists []. split; [|done]. do 2 f_equal. lia. }
  destruct (read_maker_total eligibility span first cursor) as [maker ->]; [lia|lia|]. cbn [mbind result_bind].
  destruct (IH (S first) (cursor + 38 + 6 * eligibility + 3 * span)) as (makers & -> & Hl); [lia|lia|]. cbn [mbind result_bind].
  eexists. split; [do 2 f_equal; lia|]. cbn. by f_equal.
Qed.
End Layout.

Section Handoffs.
Import Persistence.

Lemma or_invalid_add a b m v : or_invalid (checked_add a b) m = Ok v -> v = a + b.
Proof. intros Hv%ok_or_ok. unfold checked_add in Hv. case_match; [|done]. by injection Hv. Qed.

Lemma triples_ok extra bits v : triples extra bits = Ok v -> v = extra + 3 * bits.
Proof.
  unfold triples, or_panic. intros Hv%ok_or_ok. apply bind_Some in Hv as (x & Hx & Hv). unfold checked_mul, checked_add in *.
  do 2 (case_match; [|done]). by simplify_eq.
Qed.

Lemma values_per_run_ok makers v : values_per_run makers = Ok v -> v = makers * 23 + 2.
Proof.
  unfold values_per_run. intros Hv%ok_or_ok. apply bind_Some in Hv as (x & Hx & Hv). unfold checked_mul, checked_add in *.
  do 2 (case_match; [|done]). by simplify_eq.
Qed.

Ltac count_step H :=
  let x := fresh "x" in let Hx := fresh "Hx" in apply bind_ok in H as (x & Hx & H);
  first [apply or_invalid_add in Hx | apply triples_ok in Hx].

Lemma zkpi_values_ok makers amount price v : zkpi_values_per_run makers amount price = Ok v ->
  values_per_run makers = Ok (makers * 23 + 2) /\ v = makers * 23 + 2 + 4 + 3 * amount + 3 * price + (2 + 3 * price).
Proof.
  unfold zkpi_values_per_run. intros Hv. apply bind_ok in Hv as (base & Hb & Hv). pose proof (values_per_run_ok _ _ Hb). subst base.
  do 6 (count_step Hv). apply or_invalid_add in Hv. subst. split; [done|lia].
Qed.

Lemma dvp_values_ok makers amount price remainder v : dvp_values_per_run makers amount price remainder = Ok v ->
  exists z, zkpi_values_per_run makers amount price = Ok z /\ v = z + 3 + 3 * (2 + 3 * remainder) /\ remainder <> 0.
Proof.
  unfold dvp_values_per_run. intros Hv. apply if_err_ok in Hv as [Hr Hv]. apply N.eqb_neq in Hr.
  apply bind_ok in Hv as (z & Hz & Hv). exists z. split; [done|]. do 6 (count_step Hv). apply or_invalid_add in Hv. subst. split; [lia|done].
Qed.

Lemma quote_values_ok makers amount price remainder eligibility span v :
  quote_proof_values_per_run makers amount price remainder eligibility span = Ok v ->
  exists d, dvp_values_per_run makers amount price remainder = Ok d /\ v = d + makers * (38 + 6 * eligibility + 3 * span).
Proof.
  unfold quote_proof_values_per_run. intros Hv. apply if_err_ok in Hv as [_ Hv].
  apply bind_ok in Hv as (e & He%ok_or_ok & Hv). apply bind_ok in Hv as (p & Hp%ok_or_ok & Hv). apply bind_ok in Hv as (d & Hd & Hv).
  apply bind_ok in Hv as (x & Hx%ok_or_ok & Hv). apply or_invalid_add in Hv. exists d. split; [done|].
  apply bind_Some in Hp as (y & Hy & Hp). apply bind_Some in Hp as (s & Hs & Hp). unfold checked_mul, checked_add in *.
  repeat (case_match; [|done]). simplify_eq. done.
Qed.

Lemma select_run_lt run runs index : select_run run runs = Some index -> index < runs.
Proof.
  unfold select_run, checked_sub. destruct (Z.leb_spec 0 run).
  - case_match eqn:E; [|done]. intros [= <-]. by apply N.ltb_lt.
  - case_match eqn:E; [|done]. intros [= <-]. apply N.leb_le in E. lia.
Qed.

Lemma offset_in_file total per_run run path offset : per_run <> 0 -> selected_run_offset total per_run run path = Ok offset -> offset + per_run <= total.
Proof.
  intros Hp Ho. unfold selected_run_offset in Ho. apply if_err_ok in Ho as [Hm Ho]. apply negb_false_iff, N.eqb_eq in Hm.
  apply bind_ok in Ho as (s & Hs%ok_or_ok & [= <-]). apply select_run_lt in Hs.
  pose proof (N.div_mod' total per_run) as E. rewrite Hm, N.add_0_r in E. rewrite E at 1.
  replace (s * per_run + per_run) with (per_run * (s + 1)) by lia. apply N.mul_le_mono_l. lia.
Qed.

(** The handoffs of one job come from one run and agree: for a readable
    file of the complete product layout with an odd prime, every reader returns
    its handoff for the selected run, without indexing outside that run; the
    ranges have the requested widths and there is one witness per maker; the DvP
    handoff carries the price shares of the instruction handoff, and the quote
    handoff its quantity shares. *)
Theorem product_handoffs_agree contents path party makers amount price remainder eligibility span run file per_run offset :
  read contents path party = Ok file ->
  quote_proof_values_per_run makers amount price remainder eligibility span = Ok per_run ->
  selected_run_offset (N.of_nat (length (pf_shares file))) per_run run path = Ok offset ->
  N.odd (fe_value (pf_prime file)) = true ->
  exists z d q,
    read_local_zkpi_handoff_from_quote contents path party makers amount price remainder eligibility span run = Ok z /\
    read_local_dvp_handoff_from_quote contents path party makers amount price remainder eligibility span run = Ok d /\
    read_local_quote_proof_handoff contents path party makers amount price remainder eligibility span run = Ok q /\
    N.of_nat (length (lh_bits (zh_amount z))) = amount /\ N.of_nat (length (lh_bits (zh_price z))) = price /\
    N.of_nat (length (lh_bits (zh_price_limit_difference z))) = price /\
    N.of_nat (length (lh_bits (dh_securities_remainder d))) = remainder /\ N.of_nat (length (lh_bits (dh_cash_remainder d))) = remainder /\
    N.of_nat (length (qh_makers q)) = makers /\
    (dh_price_share d, dh_price_blinding_share d) = (lh_value_share (zh_price z), lh_blinding_share (zh_price z)) /\
    (qh_qty_share q, qh_qty_blinding_share q) = (lh_value_share (zh_amount z), lh_blinding_share (zh_amount z)).
Proof.
  intros Hread Hq Hoff Hodd. destruct (read_reduced _ _ _ _ Hread) as [Hred _].
  destruct (quote_values_ok _ _ _ _ _ _ _ Hq) as (dv & Hd & Hper). destruct (dvp_values_ok _ _ _ _ _ Hd) as (zv & Hz & Hdv & _).
  destruct (zkpi_values_ok _ _ _ _ Hz) as [Hbase Hzv]. set (suffix := makers * (38 + 6 * eligibility + 3 * span)) in *.
  assert (forall i, i < per_run -> exists e, decode_share file offset i = Ok e) as Htotal.
  { intros i Hi. apply (decode_share_total file offset per_run); [done|done| |done]. apply (offset_in_file _ _ run path); [lia|done]. }
  unfold read_local_zkpi_handoff_from_quote, read_local_dvp_handoff_from_quote, read_local_quote_proof_handoff,
    read_local_zkpi_handoff_with_stride, read_local_dvp_handoff_with_stride. rewrite Hq, Hread. cbn [mbind result_bind].
  rewrite Hoff. cbn [mbind result_bind]. rewrite Hbase. cbn [mbind result_bind].
  set (base := makers * 23 + 2) in *. set (decode := decode_share file offset) in *.
  destruct (Htotal 0) as [e0 ->]; [lia|]. destruct (Htotal 1) as [e1 ->]; [lia|]. destruct (Htotal base) as [eb ->]; [lia|].
  destruct (Htotal (base + 1)) as [eb1 ->]; [lia|]. destruct (Htotal (base + 2)) as [eb2 ->]; [lia|]. destruct (Htotal (base + 3)) as [eb3 ->]; [lia|].
  cbn [mbind result_bind]. rewrite Hd, Hz. cbn [mbind result_bind].
  destruct (read_bits_total decode per_run Htotal (N.to_nat amount) (base + 4)) as (la & -> & Hla); [lia|]. cbn [mbind result_bind].
  rewrite N2Nat.id. destruct (read_bits_total decode per_run Htotal (N.to_nat price) (base + 4 + 3 * amount)) as (lp & -> & Hlp); [lia|].
  cbn [mbind result_bind]. rewrite N2Nat.id.
  destruct (read_range_total decode per_run Htotal price (base + 4 + 3 * amount + 3 * price)) as (lim & -> & Hlim & _); [lia|]. cbn [mbind result_bind].
  destruct (Htotal zv) as [ez ->]; [lia|]. destruct (Htotal (zv + 1)) as [ez1 ->]; [lia|]. destruct (Htotal (zv + 2)) as [ez2 ->]; [lia|]. cbn [mbind result_bind].
  destruct (read_range_total decode per_run Htotal remainder (zv + 3)) as (rs & -> & Hrs & _); [lia|]. cbn [mbind result_bind].
  destruct (read_range_total decode per_run Htotal remainder (zv + 3 + 2 + 3 * remainder)) as (rc & -> & Hrc & _); [lia|]. cbn [mbind result_bind].
  destruct (read_range_total decode per_run Htotal remainder (zv + 3 + 2 + 3 * remainder + 2 + 3 * remainder)) as (rm & -> & Hrm & _); [lia|]. cbn [mbind result_bind].
  destruct (read_makers_total decode per_run Htotal eligibility span (N.to_nat makers) 0 dv) as (ms & -> & Hms);
    rewrite ?N2Nat.id; fold suffix; [lia|lia|]. cbn [mbind result_bind].
  rewrite (proj2 (N.ltb_ge per_run _)) by lia. rewrite (proj2 (N.eqb_eq _ dv)) by lia. rewrite (proj2 (N.ltb_ge per_run dv)) by lia.
  rewrite (proj2 (N.eqb_eq _ per_run)) by lia. cbn [negb orb].
  do 3 eexists. do 3 (split; [reflexivity|]). cbn. split_and!; done || lia.
Qed.
End Handoffs.
