(* ===== verification/Issuers.v ===== *)
(** * Node-local issuance

    [zkpi-committee/src/zkpi_issuer.rs], [dvp_issuer.rs] and [limit_issuer.rs]:
    one node's MPC output as proof material, the statements made from the nodes'
    evaluations, the two rounds and the assembly of the range and product
    proofs of an instruction, of a delivery versus payment, and of a hidden
    limit. *)

From S2P Require Import Prelude.
From S2P Require Import Interfaces.
From S2P Require Import Curve.
From S2P Require Import Sigma.
From S2P Require Import BitrangeProofs.
From S2P Require Import Threshold.
From S2P Require Import Gadgets.
From S2P Require Import JointProver.
From S2P Require Import ThresholdRange.
From S2P Require Import Instruction.
From S2P Require Import Reader.
From S2P Require Import Persistence.
From S2P Require Import StandingPool.

Open Scope N_scope.

(** [RISTRETTO_SCALAR_ORDER_LE] of [threshold_quote.rs] *)
Definition RISTRETTO_SCALAR_ORDER_LE : bytes :=
  [xed; xd3; xf5; x5c; x1a; x63; x12; x58; xd6; x9c; xf7; xa2; xde; xf9; xde; x14] ++ replicate 15 x00 ++ [x10].

(** [error.to_string()] of a persistence error. *)
Definition persistence_error (e : Persistence.Error) : string :=
  match e with Persistence.Io m | Persistence.Invalid m => m end.

(** ** Shares from a handoff *)

Section Handoff.
Context `{SC : ScalarCodec}.

(** The three modules differ in the name their error gives the shares. *)
Definition field_scalar (name : string) (value : Persistence.FieldElement) : result string Scalar :=
  b ← map_err persistence_error (Persistence.to_bytes_le value 32);
  ok_or (scalar_from_canonical b) ("an MPC " +:+ name +:+ " share is outside the Ristretto scalar field").

Definition local_range (name : string) (party : PartyId) (handoff : Persistence.LocalRangeHandoff) (threshold : nat) :
    result string LocalRangeShares :=
  value ← field_scalar name (Persistence.lh_value_share handoff);
  blinding ← field_scalar name (Persistence.lh_blinding_share handoff);
  bits ← map_res (fun '(bit, blinding, cross) =>
    b ← field_scalar name bit; r ← field_scalar name blinding; x ← field_scalar name cross; Ok (b, r, x))
    (Persistence.lh_bits handoff);
  local_range_new party value blinding bits threshold.

(** The prime is the scalar field's, and parties count from one. *)
Definition handoff_party (what : string) (prime : Persistence.FieldElement) (party : N) : result string PartyId :=
  b ← map_err persistence_error (Persistence.to_bytes_le prime 32);
  if negb (bool_decide (b = RISTRETTO_SCALAR_ORDER_LE)) then Err ("MPC and " +:+ what +:+ " commitments use different scalar fields")
  else ok_or (checked_add party 1) "MPC party identifier overflow".
End Handoff.

(** ** Instructions *)

Module Zkpi.

(** Each message of a node names it once outside and once in every part. *)
Fixpoint check_parties (seen : gset PartyId) (parties : list (PartyId * PartyId * PartyId)) (what : string) : result string unit :=
  match parties with
  | [] => Ok tt
  | (outer, amount, price) :: parties =>
      if (outer =? 0) || negb (outer =? amount) || negb (outer =? price)
      then Err (what +:+ " has inconsistent amount/price node identifiers")
      else if bool_decide (outer ∈ seen) then Err ("a node supplied more than one " +:+ what)
      else check_parties ({[outer]} ∪ seen) parties what
  end.

Section Zkpi.
Context `{G : GroupOps} `{T : TranscriptOps} `{S2 : Sha256}.

Record MpcZkpiNode := mkMpcZkpiNode { mz_party : PartyId; mz_amount : LocalRangeShares; mz_price : LocalRangeShares }.

Definition from_handoff `{SC : !ScalarCodec} (handoff : Persistence.LocalZkpiHandoff) (threshold : nat) : result string MpcZkpiNode :=
  party ← handoff_party "zkPI" (Persistence.zh_prime handoff) (Persistence.zh_party handoff);
  amount ← local_range "persistence" party (Persistence.zh_amount handoff) threshold;
  price ← local_range "persistence" party (Persistence.zh_price handoff) threshold;
  Ok (mkMpcZkpiNode party amount price).

Definition from_local_ranges (amount price : LocalRangeShares) : result string MpcZkpiNode :=
  if negb (lr_party amount =? lr_party price) || (lr_width amount =? 0)%nat || (lr_width price =? 0)%nat
  then Err "amount and price handoffs belong to different nodes or are empty"
  else Ok (mkMpcZkpiNode (lr_party amount) amount price).

Record ZkpiEvaluations := mkZkpiEvaluations { ze_party : PartyId; ze_amount : RangeEvaluations; ze_price : RangeEvaluations }.
Record ZkpiStatements := mkZkpiStatements { zs_amount : RangeStatement; zs_price : RangeStatement }.
Record BoundMpcZkpiNode := mkBoundMpcZkpiNode { bz_party : PartyId; bz_amount : NodeValueShares; bz_price : NodeValueShares }.
Record ZkpiRelationEvaluations := mkZkpiRelationEvaluations {
  zr_party : PartyId; zr_amount : RangeRelationEvaluations; zr_price : RangeRelationEvaluations }.
Record ZkpiRelationStatements := mkZkpiRelationStatements { zrs_amount : RangeRelationStatement; zrs_price : RangeRelationStatement }.
Record ZkpiRound1Seals := mkZkpiRound1Seals { zl_party : PartyId; zl_amount : RangeRound1Seal; zl_price : RangeRound1Seal }.
Record ZkpiRound1Secrets := mkZkpiRound1Secrets { zx_party : PartyId; zx_amount : RangeRound1Secret; zx_price : RangeRound1Secret }.
Record ZkpiRound1 := mkZkpiRound1 { z1_party : PartyId; z1_amount : RangeRound1; z1_price : RangeRound1 }.
Record ZkpiChallenge := mkZkpiChallenge { zc_amount : RangeChallenge; zc_price : RangeChallenge }.
Record ZkpiRound2 := mkZkpiRound2 { z2_party : PartyId; z2_amount : RangeRound2; z2_price : RangeRound2 }.
Record ZkpiRangeProofs := mkZkpiRangeProofs { zp_amount : ThresholdRangeProof; zp_price : ThresholdRangeProof }.

Definition evaluations (key : Pedersen) (n : MpcZkpiNode) : ZkpiEvaluations :=
  mkZkpiEvaluations (mz_party n) (lr_evaluations key (mz_amount n)) (lr_evaluations key (mz_price n)).

Definition bind (key : Pedersen) (statements : ZkpiStatements) (n : MpcZkpiNode) : result string BoundMpcZkpiNode :=
  amount ← bind_range key (mz_amount n) (zs_amount statements);
  price ← bind_range key (mz_price n) (zs_price statements);
  Ok (mkBoundMpcZkpiNode (mz_party n) amount price).

Definition statements_from_evaluations (evaluations : list ZkpiEvaluations) (threshold : nat) : result string ZkpiStatements :=
  _ ← check_parties ∅ ((fun n => (ze_party n, re_party (ze_amount n), re_party (ze_price n))) <$> evaluations) "zkPI evaluation";
  amount ← range_statement_from_evaluations (ze_amount <$> evaluations) threshold;
  price ← range_statement_from_evaluations (ze_price <$> evaluations) threshold;
  Ok (mkZkpiStatements amount price).

Definition amount_opening_share (n : BoundMpcZkpiNode) : Scalar * Scalar := (nv_value_share (bz_amount n), nv_blinding_share (bz_amount n)).

Definition bound_relation_evaluations (key : Pedersen) (n : BoundMpcZkpiNode) : ZkpiRelationEvaluations :=
  mkZkpiRelationEvaluations (bz_party n) (relation_evaluations key (bz_amount n)) (relation_evaluations key (bz_price n)).

Definition prepare_round1 {R} `{!ScalarRandom R} (key : Pedersen) (n : BoundMpcZkpiNode) (rng : R) :
    ZkpiRound1Seals * ZkpiRound1Secrets * ZkpiRound1 * R :=
  let '(amount_seal, amount_secret, amount, rng) := prepare_range_round1 key (bz_amount n) AMOUNT_RANGE_CONTEXT rng in
  let '(price_seal, price_secret, price, rng) := prepare_range_round1 key (bz_price n) PRICE_RANGE_CONTEXT rng in
  (mkZkpiRound1Seals (bz_party n) amount_seal price_seal, mkZkpiRound1Secrets (bz_party n) amount_secret price_secret,
   mkZkpiRound1 (bz_party n) amount price, rng).

Definition answer (n : BoundMpcZkpiNode) (secrets : ZkpiRound1Secrets) (challenge : ZkpiChallenge) : result string ZkpiRound2 :=
  if negb (zx_party secrets =? bz_party n) then Err "zkPI proof-round secrets belong to another node"
  else if negb (bool_decide (rc_quorum (zc_amount challenge) = rc_quorum (zc_price challenge)))
  then Err "amount and price challenges name different quorums"
  else
    amount ← answer_range_challenge (bz_amount n) (zx_amount secrets) (zc_amount challenge);
    price ← answer_range_challenge (bz_price n) (zx_price secrets) (zc_price challenge);
    Ok (mkZkpiRound2 (bz_party n) amount price).

Definition relation_statements_from_evaluations (statements : ZkpiStatements) (evaluations : list ZkpiRelationEvaluations) :
    result string ZkpiRelationStatements :=
  _ ← check_parties ∅ ((fun n => (zr_party n, rr_party (zr_amount n), rr_party (zr_price n))) <$> evaluations) "zkPI relation evaluation";
  amount ← range_relations_from_evaluations (zs_amount statements) (zr_amount <$> evaluations);
  price ← range_relations_from_evaluations (zs_price statements) (zr_price <$> evaluations);
  Ok (mkZkpiRelationStatements amount price).

Definition round1_parties (rounds : list ZkpiRound1) : list (PartyId * PartyId * PartyId) :=
  (fun n => (z1_party n, r1_party (z1_amount n), r1_party (z1_price n))) <$> rounds.
Definition seal_parties (seals : list ZkpiRound1Seals) : list (PartyId * PartyId * PartyId) :=
  (fun n => (zl_party n, rse_party (zl_amount n), rse_party (zl_price n))) <$> seals.

Definition make_challenge (statements : ZkpiStatements) (rounds : list ZkpiRound1) (seals : list ZkpiRound1Seals) (quorum : list PartyId) :
    result string ZkpiChallenge :=
  _ ← check_parties ∅ (round1_parties rounds) "zkPI round-one message";
  _ ← check_parties ∅ (seal_parties seals) "zkPI round-one seal";
  amount ← make_range_challenge (zs_amount statements) (z1_amount <$> rounds) (zl_amount <$> seals) quorum AMOUNT_RANGE_CONTEXT;
  price ← make_range_challenge (zs_price statements) (z1_price <$> rounds) (zl_price <$> seals) quorum PRICE_RANGE_CONTEXT;
  Ok (mkZkpiChallenge amount price).

Definition assemble_ranges (key : Pedersen) (statements : ZkpiStatements) (relations : ZkpiRelationStatements) (rounds : list ZkpiRound1)
    (seals : list ZkpiRound1Seals) (responses : list ZkpiRound2) (quorum : list PartyId) : result string ZkpiRangeProofs :=
  _ ← check_parties ∅ (round1_parties rounds) "zkPI round-one message";
  _ ← check_parties ∅ (seal_parties seals) "zkPI round-one seal";
  _ ← check_parties ∅ ((fun n => (z2_party n, r2_party (z2_amount n), r2_party (z2_price n))) <$> responses) "zkPI round-two response";
  amount ← assemble_range_from_rounds key (zs_amount statements) (zrs_amount relations) (z1_amount <$> rounds) (zl_amount <$> seals)
    (z2_amount <$> responses) quorum AMOUNT_RANGE_CONTEXT;
  price ← assemble_range_from_rounds key (zs_price statements) (zrs_price relations) (z1_price <$> rounds) (zl_price <$> seals)
    (z2_price <$> responses) quorum PRICE_RANGE_CONTEXT;
  Ok (mkZkpiRangeProofs amount price).
End Zkpi.

Definition build_partial_instruction `{B : Bulletproofs} `{Q : QuorumOps} (key : Pedersen) (bounds : Bounds) (statements : ZkpiStatements)
    (proofs : ZkpiRangeProofs) (asset_commitment payer_handle payee_handle : Point) (deadline : N) (nonce quote_proof_digest : bytes) :
    result string PartialInstruction :=
  from_threshold_ranges key bounds (rs_commitment (zs_amount statements)) (rs_commitment (zs_price statements)) asset_commitment
    (zp_amount proofs) (zp_price proofs) payer_handle payee_handle deadline nonce quote_proof_digest.
End Zkpi.

(** ** Delivery versus payment *)

Module DvpIssuer.

Definition DVP_PRODUCT_CONTEXT : bytes := bstr "qomm:defmi:threshold-dvp:value:v1".
Definition DVP_SECURITIES_REMAINDER_CONTEXT : bytes := bstr "qomm:defmi:threshold-dvp:securities-remainder:v1".
Definition DVP_CASH_REMAINDER_CONTEXT : bytes := bstr "qomm:defmi:threshold-dvp:cash-remainder:v1".

Fixpoint check_parties (seen : gset PartyId) (parties : list (PartyId * PartyId * PartyId * PartyId)) (what : string) : result string unit :=
  match parties with
  | [] => Ok tt
  | (outer, product, securities, cash) :: parties =>
      if (outer =? 0) || negb (outer =? product) || negb (outer =? securities) || negb (outer =? cash)
      then Err (what +:+ " has inconsistent DvP node identifiers")
      else if bool_decide (outer ∈ seen) then Err ("a node supplied more than one " +:+ what)
      else check_parties ({[outer]} ∪ seen) parties what
  end.

Section Dvp.
Context `{G : GroupOps} `{T : TranscriptOps} `{S2 : Sha256}.

Record MpcDvpNode := mkMpcDvpNode {
  md_party : PartyId;
  md_product : LocalProductShares;
  md_cash_opening : option (Scalar * Scalar);
  md_securities_remainder : LocalRangeShares;
  md_cash_remainder : LocalRangeShares
}.

Definition node_new (product : LocalProductShares) (securities_remainder cash_remainder : LocalRangeShares) : result string MpcDvpNode :=
  let party := lp_party product in
  if negb (lr_party securities_remainder =? party) || negb (lr_party cash_remainder =? party)
  then Err "one DvP node mixes private shares from different parties"
  else if (lr_width securities_remainder =? 0)%nat || (lr_width cash_remainder =? 0)%nat then Err "a DvP remainder range cannot be empty"
  else Ok (mkMpcDvpNode party product None securities_remainder cash_remainder).

Definition from_handoff `{SC : !ScalarCodec} (handoff : Persistence.LocalDvpHandoff) (threshold : nat) : result string MpcDvpNode :=
  party ← handoff_party "DvP" (Persistence.dh_prime handoff) (Persistence.dh_party handoff);
  cash ← field_scalar "DvP" (Persistence.dh_cash_value_share handoff);
  cash_blinding ← field_scalar "DvP" (Persistence.dh_cash_blinding_share handoff);
  price ← field_scalar "DvP" (Persistence.dh_price_share handoff);
  price_blinding ← field_scalar "DvP" (Persistence.dh_price_blinding_share handoff);
  cross ← field_scalar "DvP" (Persistence.dh_product_cross_share handoff);
  product ← local_product_new party price price_blinding cross threshold;
  securities ← local_range "DvP" party (Persistence.dh_securities_remainder handoff) threshold;
  cash_range ← local_range "DvP" party (Persistence.dh_cash_remainder handoff) threshold;
  n ← node_new product securities cash_range;
  Ok (mkMpcDvpNode (md_party n) (md_product n) (Some (cash, cash_blinding)) (md_securities_remainder n) (md_cash_remainder n)).

Record DvpEvaluations := mkDvpEvaluations {
  de_party : PartyId; de_product : ProductEvaluations; de_securities : RangeEvaluations; de_cash : RangeEvaluations }.
Record DvpStatements := mkDvpStatements { ds_product : ProductStatement; ds_securities : RangeStatement; ds_cash : RangeStatement }.
Record BoundMpcDvpNode := mkBoundMpcDvpNode {
  bd_party : PartyId; bd_product : ProductNodeContribution; bd_cash_opening : option (Scalar * Scalar);
  bd_securities : NodeValueShares; bd_cash : NodeValueShares }.
Record DvpRelationEvaluations := mkDvpRelationEvaluations {
  dr_party : PartyId; dr_securities : RangeRelationEvaluations; dr_cash : RangeRelationEvaluations }.
Record DvpRelationStatements := mkDvpRelationStatements { drs_securities : RangeRelationStatement; drs_cash : RangeRelationStatement }.
Record DvpRound1Seals := mkDvpRound1Seals {
  dl_party : PartyId; dl_product : ProductRound1Seal; dl_securities : RangeRound1Seal; dl_cash : RangeRound1Seal }.
Record DvpRound1Secrets := mkDvpRound1Secrets {
  dx_party : PartyId; dx_product : ProductRound1Secret; dx_securities : RangeRound1Secret; dx_cash : RangeRound1Secret }.
Record DvpRound1 := mkDvpRound1 { d1_party : PartyId; d1_product : ProductRound1; d1_securities : RangeRound1; d1_cash : RangeRound1 }.
Record DvpChallenge := mkDvpChallenge { dc_product : ProductChallenge; dc_securities : RangeChallenge; dc_cash : RangeChallenge }.
Record DvpRound2 := mkDvpRound2 { d2_party : PartyId; d2_product : ProductRound2; d2_securities : RangeRound2; d2_cash : RangeRound2 }.

Definition evaluations (key : Pedersen) (quantity_commitment : Point) (n : MpcDvpNode) : DvpEvaluations :=
  mkDvpEvaluations (md_party n) (lp_evaluations key quantity_commitment (md_product n)) (lr_evaluations key (md_securities_remainder n))
    (lr_evaluations key (md_cash_remainder n)).

Definition bind (key : Pedersen) (statements : DvpStatements) (n : MpcDvpNode) : result string BoundMpcDvpNode :=
  product ← bind_product key (md_product n) (ds_product statements);
  securities ← bind_range key (md_securities_remainder n) (ds_securities statements);
  cash ← bind_range key (md_cash_remainder n) (ds_cash statements);
  Ok (mkBoundMpcDvpNode (md_party n) product (md_cash_opening n) securities cash).

Definition statements_from_evaluations (quantity_commitment price_commitment cash_commitment securities_remainder cash_remainder : Point)
    (evaluations : list DvpEvaluations) (threshold : nat) : result string DvpStatements :=
  _ ← check_parties ∅ ((fun n => (de_party n, pe_party (de_product n), re_party (de_securities n), re_party (de_cash n))) <$> evaluations)
        "DvP evaluation";
  product ← product_statement_from_evaluations quantity_commitment price_commitment cash_commitment (de_product <$> evaluations) threshold;
  securities ← range_statement_from_evaluations (de_securities <$> evaluations) threshold;
  cash ← range_statement_from_evaluations (de_cash <$> evaluations) threshold;
  if negb (same_point (rs_commitment securities) securities_remainder) || negb (same_point (rs_commitment cash) cash_remainder)
  then Err "DvP remainder statements do not match the reservation differences"
  else Ok (mkDvpStatements product securities cash).

Definition cash_opening_share (n : BoundMpcDvpNode) : result string (Scalar * Scalar) :=
  ok_or (bd_cash_opening n) "this DvP node was not created from an MPC cash handoff".
Definition securities_remainder_opening_share (n : BoundMpcDvpNode) : Scalar * Scalar :=
  (nv_value_share (bd_securities n), nv_blinding_share (bd_securities n)).
Definition cash_remainder_opening_share (n : BoundMpcDvpNode) : Scalar * Scalar := (nv_value_share (bd_cash n), nv_blinding_share (bd_cash n)).

Definition bound_relation_evaluations (key : Pedersen) (n : BoundMpcDvpNode) : DvpRelationEvaluations :=
  mkDvpRelationEvaluations (bd_party n) (relation_evaluations key (bd_securities n)) (relation_evaluations key (bd_cash n)).

Definition prepare_round1 {R} `{!ScalarRandom R} (key : Pedersen) (quantity_commitment : Point) (n : BoundMpcDvpNode) (rng : R) :
    DvpRound1Seals * DvpRound1Secrets * DvpRound1 * R :=
  let '(product_seal, product_secret, product, rng) := prepare_product_round1 key (bd_product n) quantity_commitment DVP_PRODUCT_CONTEXT rng in
  let '(securities_seal, securities_secret, securities, rng) := prepare_range_round1 key (bd_securities n) DVP_SECURITIES_REMAINDER_CONTEXT rng in
  let '(cash_seal, cash_secret, cash, rng) := prepare_range_round1 key (bd_cash n) DVP_CASH_REMAINDER_CONTEXT rng in
  (mkDvpRound1Seals (bd_party n) product_seal securities_seal cash_seal,
   mkDvpRound1Secrets (bd_party n) product_secret securities_secret cash_secret,
   mkDvpRound1 (bd_party n) product securities cash, rng).

Definition answer (n : BoundMpcDvpNode) (secrets : DvpRound1Secrets) (challenge : DvpChallenge) : result string DvpRound2 :=
  if negb (dx_party secrets =? bd_party n) then Err "DvP proof-round secrets belong to another node"
  else
    product ← answer_product_challenge (bd_product n) (dx_product secrets) (dc_product challenge);
    securities ← answer_range_challenge (bd_securities n) (dx_securities secrets) (dc_securities challenge);
    cash ← answer_range_challenge (bd_cash n) (dx_cash secrets) (dc_cash challenge);
    Ok (mkDvpRound2 (bd_party n) product securities cash).

(** The loop over the relation evaluations. *)
Fixpoint check_relation_parties (seen : gset PartyId) (evaluations : list DvpRelationEvaluations) : result string unit :=
  match evaluations with
  | [] => Ok tt
  | n :: evaluations =>
      if (dr_party n =? 0) || negb (dr_party n =? rr_party (dr_securities n)) || negb (dr_party n =? rr_party (dr_cash n))
         || bool_decide (dr_party n ∈ seen)
      then Err "a DvP relation evaluation has an inconsistent party"
      else check_relation_parties ({[dr_party n]} ∪ seen) evaluations
  end.

Definition relation_statements_from_evaluations (statements : DvpStatements) (evaluations : list DvpRelationEvaluations) :
    result string DvpRelationStatements :=
  _ ← check_relation_parties ∅ evaluations;
  securities ← range_relations_from_evaluations (ds_securities statements) (dr_securities <$> evaluations);
  cash ← range_relations_from_evaluations (ds_cash statements) (dr_cash <$> evaluations);
  Ok (mkDvpRelationStatements securities cash).

Definition make_challenge (statements : DvpStatements) (rounds : list DvpRound1) (seals : list DvpRound1Seals) (quorum : list PartyId) :
    result string DvpChallenge :=
  _ ← check_parties ∅ ((fun n => (d1_party n, p1_party (d1_product n), r1_party (d1_securities n), r1_party (d1_cash n))) <$> rounds)
        "DvP round-one message";
  _ ← check_parties ∅ ((fun n => (dl_party n, pse_party (dl_product n), rse_party (dl_securities n), rse_party (dl_cash n))) <$> seals)
        "DvP round-one seal";
  product ← make_product_challenge (ds_product statements) (d1_product <$> rounds) (dl_product <$> seals) quorum DVP_PRODUCT_CONTEXT;
  securities ← make_range_challenge (ds_securities statements) (d1_securities <$> rounds) (dl_securities <$> seals) quorum
    DVP_SECURITIES_REMAINDER_CONTEXT;
  cash ← make_range_challenge (ds_cash statements) (d1_cash <$> rounds) (dl_cash <$> seals) quorum DVP_CASH_REMAINDER_CONTEXT;
  Ok (mkDvpChallenge product securities cash).

Definition assemble_proofs (key : Pedersen) (statements : DvpStatements) (relations : DvpRelationStatements) (rounds : list DvpRound1)
    (seals : list DvpRound1Seals) (responses : list DvpRound2) (quorum : list PartyId) : result string Pool.DvpProofs :=
  _ ← check_parties ∅ ((fun n => (d2_party n, p2_party (d2_product n), r2_party (d2_securities n), r2_party (d2_cash n))) <$> responses)
        "DvP round-two response";
  product ← assemble_product_from_rounds key (ds_product statements) (d1_product <$> rounds) (dl_product <$> seals)
    (d2_product <$> responses) quorum DVP_PRODUCT_CONTEXT;
  securities ← assemble_range_from_rounds key (ds_securities statements) (drs_securities relations) (d1_securities <$> rounds)
    (dl_securities <$> seals) (d2_securities <$> responses) quorum DVP_SECURITIES_REMAINDER_CONTEXT;
  cash ← assemble_range_from_rounds key (ds_cash statements) (drs_cash relations) (d1_cash <$> rounds) (dl_cash <$> seals)
    (d2_cash <$> responses) quorum DVP_CASH_REMAINDER_CONTEXT;
  Ok (Pool.mkDvpProofs product securities cash).
End Dvp.
End DvpIssuer.

(** ** Hidden limits *)

Module LimitIssuer.

Fixpoint unique_parties (seen : gset PartyId) (parties : list PartyId) (what : string) : result string unit :=
  match parties with
  | [] => Ok tt
  | party :: parties =>
      if (party =? 0) || bool_decide (party ∈ seen) then Err (what +:+ " has an invalid or duplicate node identifier")
      else unique_parties ({[party]} ∪ seen) parties what
  end.

Section Limit.
Context `{G : GroupOps} `{T : TranscriptOps} `{S2 : Sha256}.

Record MpcLimitNode := mkMpcLimitNode { ml_party : PartyId; ml_difference : LocalRangeShares }.
Record BoundMpcLimitNode := mkBoundMpcLimitNode { bl_party : PartyId; bl_difference : NodeValueShares }.

Definition from_handoff `{SC : !ScalarCodec} (handoff : Persistence.LocalZkpiHandoff) (threshold : nat) : result string MpcLimitNode :=
  party ← handoff_party "hidden-limit" (Persistence.zh_prime handoff) (Persistence.zh_party handoff);
  difference ← local_range "limit" party (Persistence.zh_price_limit_difference handoff) threshold;
  Ok (mkMpcLimitNode party difference).

Definition from_pool_handoff `{SC : !ScalarCodec} (handoff : Persistence.LocalDvpHandoff) (threshold : nat) : result string MpcLimitNode :=
  party ← handoff_party "standing-pool" (Persistence.dh_prime handoff) (Persistence.dh_party handoff);
  difference ← local_range "limit" party (Persistence.dh_maker_pool_remainder handoff) threshold;
  Ok (mkMpcLimitNode party difference).

Definition evaluations (key : Pedersen) (n : MpcLimitNode) : RangeEvaluations := lr_evaluations key (ml_difference n).
Definition bind (key : Pedersen) (statement : RangeStatement) (n : MpcLimitNode) : result string BoundMpcLimitNode :=
  difference ← bind_range key (ml_difference n) statement; Ok (mkBoundMpcLimitNode (ml_party n) difference).
Definition bound_relation_evaluations (key : Pedersen) (n : BoundMpcLimitNode) : RangeRelationEvaluations :=
  relation_evaluations key (bl_difference n).
Definition prepare_round1 {R} `{!ScalarRandom R} (key : Pedersen) (n : BoundMpcLimitNode) (context : bytes) (rng : R) :
    RangeRound1Seal * RangeRound1Secret * RangeRound1 * R := prepare_range_round1 key (bl_difference n) context rng.
Definition answer (n : BoundMpcLimitNode) (secret : RangeRound1Secret) (challenge : RangeChallenge) : result string RangeRound2 :=
  answer_range_challenge (bl_difference n) secret challenge.

Definition statement_from_evaluations (evaluations : list RangeEvaluations) (threshold : nat) : result string RangeStatement :=
  _ ← unique_parties ∅ (re_party <$> evaluations) "limit evaluation";
  range_statement_from_evaluations evaluations threshold.

Definition relation_from_evaluations (statement : RangeStatement) (evaluations : list RangeRelationEvaluations) :
    result string RangeRelationStatement :=
  _ ← unique_parties ∅ (rr_party <$> evaluations) "limit relation evaluation";
  range_relations_from_evaluations statement evaluations.

Definition challenge (statement : RangeStatement) (rounds : list RangeRound1) (seals : list RangeRound1Seal) (quorum : list PartyId)
    (context : bytes) : result string RangeChallenge :=
  _ ← unique_parties ∅ (r1_party <$> rounds) "limit round one";
  _ ← unique_parties ∅ (rse_party <$> seals) "limit round-one seal";
  make_range_challenge statement rounds seals quorum context.

Definition assemble (key : Pedersen) (statement : RangeStatement) (relation : RangeRelationStatement) (rounds : list RangeRound1)
    (seals : list RangeRound1Seal) (responses : list RangeRound2) (quorum : list PartyId) (context : bytes) :
    result string ThresholdRangeProof :=
  _ ← unique_parties ∅ (r2_party <$> responses) "limit round two";
  assemble_range_from_rounds key statement relation rounds seals responses quorum context.
End Limit.
End LimitIssuer.
