(* ===== verification/IssuerProofs.v ===== *)
(** * What the issuers guarantee

    Dealt shares carry the committee through every message of an issuance:
    statements, bindings, relations, both rounds and the assembly, for the
    instruction's two ranges, for a delivery versus payment's product and two
    remainders, and for a hidden limit. *)

From S2P Require Import Prelude.
From S2P Require Import Interfaces.
From S2P Require Import Curve.
From S2P Require Import Sigma.
From S2P Require Import Threshold.
From S2P Require Import ThresholdTheorems.
From S2P Require Import JointTheorems.
From S2P Require Import Gadgets.
From S2P Require Import JointProver.
From S2P Require Import ProductProofs.
From S2P Require Import ThresholdClaims.
From S2P Require Import ThresholdRange.
From S2P Require Import RangeRounds.
From S2P Require Import RangeClaims.
From S2P Require Import Instruction.
From S2P Require Import StandingPool.
From S2P Require Import Issuers.

Open Scope nat_scope.

(** ** Messages by party *)

Lemma map_res_fmap_inv {E A B} (f : A -> result E B) (g : A -> B) l :
  map_res f l = Ok (g <$> l) -> forall a, a ∈ l -> f a = Ok (g a).
Proof.
  induction l as [|b l IH]; intros Hm a Ha; [by apply elem_of_nil in Ha|]. cbn in Hm.
  destruct (f b) as [v|] eqn:Hb; [|done]. cbn in Hm. destruct (map_res f l) as [vs|] eqn:Hl; [|done]. cbn in Hm.
  injection Hm as -> ->. apply elem_of_cons in Ha as [->|Ha]; [done | by apply IH].
Qed.

Lemma zkpi_parties_ok what parties : forall seen,
  Zkpi.check_parties seen parties what = Ok tt <->
  Forall (fun '(q, a, p) => q <> 0%N /\ q = a /\ q = p) parties /\ NoDup (parties.*1.*1) /\ Forall (fun q => q ∉ seen) (parties.*1.*1).
Proof.
  induction parties as [|[[q a] p] parties IH]; intros seen; cbn [Zkpi.check_parties].
  { split; [|done]. intros _. split; [constructor|]. split; constructor. }
  rewrite !fmap_cons, !Forall_cons, NoDup_cons. cbn [fst].
  destruct (N.eqb_spec q 0) as [->|H0']; [by split; [|intros (((? & _) & _) & _)]|].
  destruct (N.eqb_spec q a) as [<-|Ha]; [|by split; [|intros (((_ & ? & _) & _) & _)]].
  destruct (N.eqb_spec q p) as [<-|Hp]; [|by split; [|intros (((_ & _ & ?) & _) & _)]]. cbn [negb orb].
  case_bool_decide as Hs; [by split; [|intros (_ & _ & ? & _)]|]. rewrite IH, !Forall_forall. set_solver.
Qed.

Lemma dvp_parties_ok what parties : forall seen,
  DvpIssuer.check_parties seen parties what = Ok tt <->
  Forall (fun '(q, a, b, c) => q <> 0%N /\ q = a /\ q = b /\ q = c) parties
  /\ NoDup (parties.*1.*1.*1) /\ Forall (fun q => q ∉ seen) (parties.*1.*1.*1).
Proof.
  induction parties as [|[[[q a] b] c] parties IH]; intros seen; cbn [DvpIssuer.check_parties].
  { split; [|done]. intros _. split; [constructor|]. split; constructor. }
  rewrite !fmap_cons, !Forall_cons, NoDup_cons. cbn [fst].
  destruct (N.eqb_spec q 0) as [->|H0']; [by split; [|intros (((? & _) & _) & _)]|].
  destruct (N.eqb_spec q a) as [<-|Ha]; [|by split; [|intros (((_ & ? & _) & _) & _)]].
  destruct (N.eqb_spec q b) as [<-|Hp]; [|by split; [|intros (((_ & _ & ? & _) & _) & _)]].
  destruct (N.eqb_spec q c) as [<-|Hc]; [|by split; [|intros (((_ & _ & _ & ?) & _) & _)]]. cbn [negb orb].
  case_bool_decide as Hs; [by split; [|intros (_ & _ & ? & _)]|]. rewrite IH, !Forall_forall. set_solver.
Qed.

Lemma limit_parties_ok what parties : forall seen,
  LimitIssuer.unique_parties seen parties what = Ok tt <->
  Forall (fun q => q <> 0%N) parties /\ NoDup parties /\ Forall (fun q => q ∉ seen) parties.
Proof.
  induction parties as [|q parties IH]; intros seen; cbn [LimitIssuer.unique_parties].
  { split; [|done]. intros _. split; [constructor|]. split; constructor. }
  rewrite !Forall_cons, NoDup_cons. destruct (N.eqb_spec q 0) as [->|H0']; [by split; [|intros ((? & _) & _)]|]. cbn [orb].
  case_bool_decide as Hs; [by split; [|intros (_ & _ & ? & _)]|]. rewrite IH, !Forall_forall. set_solver.
Qed.

Lemma good_nonzero parties : good_parties parties -> Forall (fun q => q <> 0%N) parties.
Proof. intros (_ & _ & Hv). eapply Forall_impl; [exact Hv|]. unfold valid_party. intros q. cbn. lia. Qed.

(** Messages made for each of a list of good parties name their parties. *)
Section Named.
Context {M : Type} (message : PartyId -> M) (parties : list PartyId) (Hgood : good_parties parties).

Lemma zkpi_named what (f : M -> PartyId * PartyId * PartyId) :
  (forall q, q ∈ parties -> f (message q) = (q, q, q)) -> Zkpi.check_parties ∅ (f <$> (message <$> parties)) what = Ok tt.
Proof.
  intros Hf. rewrite <- list_fmap_compose, (list_fmap_ext _ (fun q => (q, q, q))).
  2:{ intros i q Hq. apply Hf. by eapply list_elem_of_lookup_2. }
  apply zkpi_parties_ok. rewrite <- !list_fmap_compose. rewrite (list_fmap_ext _ id parties), list_fmap_id by done.
  pose proof Hgood as (_ & Hnd & _). split_and!; [|done|by apply Forall_forall; set_solver].
  apply Forall_fmap. eapply Forall_impl; [by apply good_nonzero|]. done.
Qed.

Lemma dvp_named what (f : M -> PartyId * PartyId * PartyId * PartyId) :
  (forall q, q ∈ parties -> f (message q) = (q, q, q, q)) -> DvpIssuer.check_parties ∅ (f <$> (message <$> parties)) what = Ok tt.
Proof.
  intros Hf. rewrite <- list_fmap_compose, (list_fmap_ext _ (fun q => (q, q, q, q))).
  2:{ intros i q Hq. apply Hf. by eapply list_elem_of_lookup_2. }
  apply dvp_parties_ok. rewrite <- !list_fmap_compose. rewrite (list_fmap_ext _ id parties), list_fmap_id by done.
  pose proof Hgood as (_ & Hnd & _). split_and!; [|done|by apply Forall_forall; set_solver].
  apply Forall_fmap. eapply Forall_impl; [by apply good_nonzero|]. done.
Qed.

Lemma limit_named what (f : M -> PartyId) :
  (forall q, q ∈ parties -> f (message q) = q) -> LimitIssuer.unique_parties ∅ (f <$> (message <$> parties)) what = Ok tt.
Proof.
  intros Hf. rewrite <- list_fmap_compose, (list_fmap_ext _ id), list_fmap_id.
  2:{ intros i q Hq. apply Hf. by eapply list_elem_of_lookup_2. }
  apply limit_parties_ok. pose proof Hgood as (_ & Hnd & _). split_and!; [by apply good_nonzero|done|by apply Forall_forall; set_solver].
Qed.
End Named.

(** ** A dealt range, ready for its rounds *)

Section Ready.
Context `{SL : ScalarLaws} `{!ScalarLarge} `{G : !GroupOps} `{L : !GroupLaws} `{CL : !CompressLaws}.
Context `{T : TranscriptOps} `{S2 : Sha256} {R : Type} `{!ScalarRandom R}.
Implicit Types (key : Pedersen) (parties quorum : list PartyId) (node : PartyId -> NodeValueShares) (seeds : PartyId -> R).

(** A quorum large enough for the threshold. *)
Definition quorum_of parties t quorum : Prop := NoDup quorum /\ (forall q, q ∈ quorum -> q ∈ parties) /\ t < length quorum.

Lemma quorum_of_good parties t quorum : good_parties parties -> quorum_of parties t quorum -> good_parties quorum.
Proof. intros Hg (Hnd & Hsub & Ht). apply (good_subset parties); [done|done|intros ->; cbn in Ht; lia|done]. Qed.

(** The rounds of one range run to a proof of [width] bits for [C]. *)
Definition rounds_complete key node (st : RangeStatement) (rel : RangeRelationStatement) (C : Point) (width : nat)
    quorum (context : bytes) seeds : Prop :=
  let prepared q := prepare_range_round1 key (node q) context (seeds q) in
  let messages := (fun q => (prepared q).1.2) <$> quorum in
  let seals := (fun q => (prepared q).1.1.1) <$> quorum in
  exists challenge answer proof,
    make_range_challenge st messages seals quorum context = Ok challenge
    /\ rc_quorum challenge = quorum
    /\ (forall q, q ∈ quorum -> answer_range_challenge (node q) (prepared q).1.1.2 challenge = Ok (answer q))
    /\ (forall q, r2_party (answer q) = q)
    /\ assemble_range_from_rounds key st rel messages seals (answer <$> quorum) quorum context = Ok proof
    /\ verify_threshold_range key C proof context = true
    /\ tp_bits proof = width.

Record range_ready key t parties (local : PartyId -> LocalRangeShares) (C : Point) (width : nat)
    (st : RangeStatement) (rel : RangeRelationStatement) node : Prop := {
  ready_commitment : rs_commitment st = C;
  ready_local : forall q, q ∈ parties -> lr_party (local q) = q /\ lr_width (local q) <> 0;
  ready_statement : range_statement_from_evaluations ((fun q => lr_evaluations key (local q)) <$> parties) t = Ok st;
  ready_bind : forall q, q ∈ parties -> bind_range key (local q) st = Ok (node q);
  ready_node : forall q, nv_party (node q) = q;
  ready_relations : range_relations_from_evaluations st ((fun q => relation_evaluations key (node q)) <$> parties) = Ok rel;
  ready_rounds : forall quorum context seeds, quorum_of parties t quorum ->
    (forall q, q ∈ quorum -> rse_digest (prepare_range_round1 key (node q) context (seeds q)).1.1.1 <> ZERO32) ->
    rounds_complete key node st rel C width quorum context seeds
}.

Lemma dealt_range_ready key value blinding width parties t (rng : R) shares rng' :
  (value < 2 ^ 64)%N -> deal_bits key value blinding width parties t rng = Ok (shares, rng') ->
  good_parties parties
  /\ exists st rel node, range_ready key t parties (local_of shares) (commit key (scalar_of_N value) blinding) width st rel node.
Proof.
  intros Hv Hd.
  destruct (deal_bits_spec _ _ _ _ _ _ _ _ _ Hv Hd) as (Hwidth & Hg & Htl & _ & P & Q & bits & HP & HQ & Hlb & HP0 & HQ0 & Hbits & Hrel & Hval & Hloc).
  assert (bits <> []) as Hne by (intros ->; cbn in Hlb; lia). split; [done|].
  exists (the_statement key t P Q bits), (the_relations key t bits), (node_at key t P Q bits). split; try done.
  - cbn. by rewrite HP0, HQ0.
  - intros q Hq. rewrite (Hloc q Hq). unfold lr_width. cbn. rewrite length_fmap. lia.
  - rewrite (list_fmap_ext _ (fun q => lr_evaluations key (local_at t P Q bits q)) parties) by (intros i q Hq; rewrite Hloc; [done|by eapply list_elem_of_lookup_2]).
    by apply the_statement_ok.
  - intros q Hq. rewrite (Hloc q Hq). by apply (the_binding key t parties).
  - by apply the_relations_ok.
  - intros quorum context seeds Hq Hdig. pose proof (quorum_of_good _ _ _ Hg Hq) as Hgq. destruct Hq as (Hnd & Hsub & Hlen).
    assert ((N.of_nat (length bits) <= 65536)%N) as Hw16 by lia. destruct (weights_exist quorum Hgq) as [w Hw].
    exists (the_challenge key t P Q bits context quorum seeds w), (range_answer key t P Q bits context quorum seeds w),
      (assembled_range key t P Q bits context quorum seeds w).
    split; [by apply honest_range_challenge|]. split; [done|]. split.
    { apply (map_res_fmap_inv (fun q => answer_range_challenge (node_at key t P Q bits q) _ _)). by apply honest_range_answers. }
    split; [done|]. split; [by apply honest_range_assembly|].
    split; [|done]. rewrite <- HP0, <- HQ0. by apply (assembled_range_verifies key t P Q bits context quorum seeds).
Qed.

(** ** Messages of a quorum *)

Lemma find_party {A} (party : A -> PartyId) (make : PartyId -> A) parties q : (forall q, party (make q) = q) -> q ∈ parties ->
  List.find (fun n => (party n =? q)%N) (make <$> parties) = Some (make q).
Proof.
  intros Hp. induction parties as [|p ps IH]; intros Hq; [by apply elem_of_nil in Hq|]. cbn. rewrite Hp.
  destruct (N.eqb_spec p q) as [->|Hne]; [done|]. apply IH. apply elem_of_cons in Hq as [->|]; done.
Qed.

Definition member {A} (party : A -> PartyId) (nodes : list A) (q : PartyId) : result string A :=
  ok_or (List.find (fun n => (party n =? q)%N) nodes) "no node for a party of the quorum".

Lemma members_ok {A} (party : A -> PartyId) (make : PartyId -> A) parties t quorum :
  (forall q, party (make q) = q) -> quorum_of parties t quorum ->
  map_res (member party (make <$> parties)) quorum = Ok (make <$> quorum).
Proof. intros Hp (_ & Hsub & _). apply map_res_members. intros q Hq. unfold member. by rewrite (find_party party make) by auto. Qed.
End Ready.

(** ** The instruction *)

Section ZkpiIssuance.
Context `{SL : ScalarLaws} `{!ScalarLarge} `{G : !GroupOps} `{L : !GroupLaws} `{CL : !CompressLaws}.
Context `{T : TranscriptOps} `{S2 : Sha256} {R : Type} `{!ScalarRandom R}.

(** Every message of an issuance, in order: the parties' evaluations make the
    statements, every party binds, the relations follow and the quorum makes its
    first moves. *)
Definition zkpi_first_round (key : Pedersen) (nodes : list Zkpi.MpcZkpiNode) (t : nat) (quorum : list PartyId) (seeds : PartyId -> R) :
    result string (FirstRound Zkpi.ZkpiStatements Zkpi.ZkpiRelationStatements Zkpi.BoundMpcZkpiNode
      (Zkpi.ZkpiRound1Seals * Zkpi.ZkpiRound1Secrets * Zkpi.ZkpiRound1 * R)) :=
  statements ← Zkpi.statements_from_evaluations (Zkpi.evaluations key <$> nodes) t;
  bound ← map_res (Zkpi.bind key statements) nodes;
  relations ← Zkpi.relation_statements_from_evaluations statements (Zkpi.bound_relation_evaluations key <$> bound);
  chosen ← map_res (member Zkpi.bz_party bound) quorum;
  Ok (mkFirstRound statements relations chosen ((fun n => Zkpi.prepare_round1 key n (seeds (Zkpi.bz_party n))) <$> chosen)).

(** The coordinator then challenges, the quorum answers, and the coordinator
    assembles. *)
Definition issue_zkpi (key : Pedersen) (nodes : list Zkpi.MpcZkpiNode) (t : nat) (quorum : list PartyId) (seeds : PartyId -> R) :
    result string (Zkpi.ZkpiStatements * Zkpi.ZkpiRangeProofs) :=
  first ← zkpi_first_round key nodes t quorum seeds;
  let rounds := (fun p => p.1.2) <$> fr_prepared first in
  let seals := (fun p => p.1.1.1) <$> fr_prepared first in
  challenge ← Zkpi.make_challenge (fr_statement first) rounds seals quorum;
  responses ← map_res (fun '(n, p) => Zkpi.answer n p.1.1.2 challenge) (zip (fr_chosen first) (fr_prepared first));
  proofs ← Zkpi.assemble_ranges key (fr_statement first) (fr_relations first) rounds seals responses quorum;
  Ok (fr_statement first, proofs).

(** Neither digest of a node's first move is all zeros; a node refuses to answer
    for one that is. *)
Definition zkpi_sealed (move : Zkpi.ZkpiRound1Seals * Zkpi.ZkpiRound1Secrets * Zkpi.ZkpiRound1 * R) : Prop :=
  rse_digest (Zkpi.zl_amount move.1.1.1) <> ZERO32 /\ rse_digest (Zkpi.zl_price move.1.1.1) <> ZERO32.

Section Run.
Context (key : Pedersen) (t : nat) (parties quorum : list PartyId) (seeds : PartyId -> R).
Context (la lp : PartyId -> LocalRangeShares) (Ca Cp : Point) (wa wp : nat).
Context (sta stp : RangeStatement) (rela relp : RangeRelationStatement) (na np : PartyId -> NodeValueShares).
Context (Hg : good_parties parties) (Hq : quorum_of parties t quorum).
Context (Ra : range_ready (R:=R) key t parties la Ca wa sta rela na) (Rp : range_ready (R:=R) key t parties lp Cp wp stp relp np).

Definition zkpi_node (q : PartyId) : Zkpi.MpcZkpiNode := Zkpi.mkMpcZkpiNode q (la q) (lp q).
Definition zkpi_bound (q : PartyId) : Zkpi.BoundMpcZkpiNode := Zkpi.mkBoundMpcZkpiNode q (na q) (np q).
Definition price_seeds (q : PartyId) : R := (prepare_range_round1 key (na q) AMOUNT_RANGE_CONTEXT (seeds q)).2.
Definition zkpi_prepared (q : PartyId) := Zkpi.prepare_round1 key (zkpi_bound q) (seeds q).

Lemma zkpi_prepared_parts q :
  let a := prepare_range_round1 key (na q) AMOUNT_RANGE_CONTEXT (seeds q) in
  let p := prepare_range_round1 key (np q) PRICE_RANGE_CONTEXT (price_seeds q) in
  zkpi_prepared q = (Zkpi.mkZkpiRound1Seals q a.1.1.1 p.1.1.1, Zkpi.mkZkpiRound1Secrets q a.1.1.2 p.1.1.2, Zkpi.mkZkpiRound1 q a.1.2 p.1.2, p.2).
Proof.
  cbv zeta. unfold zkpi_prepared, Zkpi.prepare_round1, zkpi_bound, price_seeds. cbn [Zkpi.bz_amount Zkpi.bz_price Zkpi.bz_party].
  destruct (prepare_range_round1 key (na q) _ _) as [[[s x] m] r]. cbn [snd]. by destruct (prepare_range_round1 key (np q) _ r) as [[[s' x'] m'] r'].
Qed.

Lemma prepared_parties node context (rng : R) :
  r1_party (prepare_range_round1 key node context rng).1.2 = nv_party node
  /\ rse_party (prepare_range_round1 key node context rng).1.1.1 = nv_party node.
Proof. unfold prepare_range_round1. destruct (random_triples _ _) as [b r]. by destruct (scalar_random r). Qed.

Lemma zkpi_statements_ok : Zkpi.statements_from_evaluations (Zkpi.evaluations key <$> (zkpi_node <$> parties)) t = Ok (Zkpi.mkZkpiStatements sta stp).
Proof.
  unfold Zkpi.statements_from_evaluations. rewrite <- (list_fmap_compose zkpi_node (Zkpi.evaluations key)).
  rewrite zkpi_named; [|done|].
  2:{ intros q Hin. cbn. destruct (ready_local _ _ _ _ _ _ _ _ _ Ra q Hin) as [-> _]. by destruct (ready_local _ _ _ _ _ _ _ _ _ Rp q Hin) as [-> _]. }
  cbn [mbind result_bind]. rewrite <- !list_fmap_compose.
  change (Zkpi.ze_amount ∘ (Zkpi.evaluations key ∘ zkpi_node)) with (fun q => lr_evaluations key (la q)).
  change (Zkpi.ze_price ∘ (Zkpi.evaluations key ∘ zkpi_node)) with (fun q => lr_evaluations key (lp q)).
  rewrite (ready_statement _ _ _ _ _ _ _ _ _ Ra). cbn [mbind result_bind].
  by rewrite (ready_statement _ _ _ _ _ _ _ _ _ Rp).
Qed.

Lemma zkpi_bind_ok q : q ∈ parties -> Zkpi.bind key (Zkpi.mkZkpiStatements sta stp) (zkpi_node q) = Ok (zkpi_bound q).
Proof.
  intros Hin. unfold Zkpi.bind, zkpi_node. cbn. rewrite (ready_bind _ _ _ _ _ _ _ _ _ Ra q Hin). cbn.
  by rewrite (ready_bind _ _ _ _ _ _ _ _ _ Rp q Hin).
Qed.

Lemma zkpi_relations_ok :
  Zkpi.relation_statements_from_evaluations (Zkpi.mkZkpiStatements sta stp) (Zkpi.bound_relation_evaluations key <$> (zkpi_bound <$> parties))
  = Ok (Zkpi.mkZkpiRelationStatements rela relp).
Proof.
  unfold Zkpi.relation_statements_from_evaluations. rewrite <- (list_fmap_compose zkpi_bound (Zkpi.bound_relation_evaluations key)).
  rewrite zkpi_named; [|done|].
  2:{ intros q Hin. cbn. by rewrite (ready_node _ _ _ _ _ _ _ _ _ Ra), (ready_node _ _ _ _ _ _ _ _ _ Rp). }
  cbn [mbind result_bind]. rewrite <- !list_fmap_compose.
  change (Zkpi.zr_amount ∘ (Zkpi.bound_relation_evaluations key ∘ zkpi_bound)) with (fun q => relation_evaluations key (na q)).
  change (Zkpi.zr_price ∘ (Zkpi.bound_relation_evaluations key ∘ zkpi_bound)) with (fun q => relation_evaluations key (np q)).
  cbn [Zkpi.zs_amount Zkpi.zs_price]. rewrite (ready_relations _ _ _ _ _ _ _ _ _ Ra). cbn [mbind result_bind].
  by rewrite (ready_relations _ _ _ _ _ _ _ _ _ Rp).
Qed.
#[local] Abbreviation amount_prepared q := (prepare_range_round1 key (na q) AMOUNT_RANGE_CONTEXT (seeds q)).
#[local] Abbreviation price_prepared q := (prepare_range_round1 key (np q) PRICE_RANGE_CONTEXT (price_seeds q)).
#[local] Abbreviation rounds := ((fun q => (zkpi_prepared q).1.2) <$> quorum).
#[local] Abbreviation seals := ((fun q => (zkpi_prepared q).1.1.1) <$> quorum).

Lemma zkpi_parts {A B} (part : _ -> A) (field : A -> B) (F : PartyId -> B) :
  (forall q, field (part (zkpi_prepared q)) = F q) -> field <$> ((fun q => part (zkpi_prepared q)) <$> quorum) = F <$> quorum.
Proof. intros HF. rewrite <- list_fmap_compose. apply list_fmap_ext. intros ? q _. apply HF. Qed.

Lemma zkpi_rounds_ok : good_parties quorum ->
  Zkpi.check_parties ∅ (Zkpi.round1_parties rounds) "zkPI round-one message" = Ok tt
  /\ Zkpi.check_parties ∅ (Zkpi.seal_parties seals) "zkPI round-one seal" = Ok tt.
Proof.
  intros Hgq. split; apply zkpi_named; try done; intros q _; rewrite zkpi_prepared_parts;
    cbn [fst snd Zkpi.z1_party Zkpi.z1_amount Zkpi.z1_price Zkpi.zl_party Zkpi.zl_amount Zkpi.zl_price];
    destruct (prepared_parties (na q) AMOUNT_RANGE_CONTEXT (seeds q)) as [E1 E2],
      (prepared_parties (np q) PRICE_RANGE_CONTEXT (price_seeds q)) as [E3 E4];
    rewrite ?E1, ?E2, ?E3, ?E4; by rewrite (ready_node _ _ _ _ _ _ _ _ _ Ra), (ready_node _ _ _ _ _ _ _ _ _ Rp).
Qed.

Lemma zkpi_first_ok : zkpi_first_round key (zkpi_node <$> parties) t quorum seeds
  = Ok (mkFirstRound (Zkpi.mkZkpiStatements sta stp) (Zkpi.mkZkpiRelationStatements rela relp) (zkpi_bound <$> quorum) (zkpi_prepared <$> quorum)).
Proof.
  unfold zkpi_first_round. rewrite zkpi_statements_ok. cbn [mbind result_bind]. rewrite map_res_fmap.
  rewrite (map_res_members _ zkpi_bound) by (intros q Hin; by apply zkpi_bind_ok). cbn [mbind result_bind].
  rewrite zkpi_relations_ok. cbn [mbind result_bind]. rewrite (members_ok Zkpi.bz_party zkpi_bound parties t quorum) by done. cbn [mbind result_bind].
  by rewrite <- list_fmap_compose.
Qed.

Lemma zkpi_run :
  (forall q, q ∈ quorum -> rse_digest (amount_prepared q).1.1.1 <> ZERO32 /\ rse_digest (price_prepared q).1.1.1 <> ZERO32) ->
  exists amount price, issue_zkpi key (zkpi_node <$> parties) t quorum seeds
      = Ok (Zkpi.mkZkpiStatements sta stp, Zkpi.mkZkpiRangeProofs amount price)
    /\ verify_threshold_range key Ca amount AMOUNT_RANGE_CONTEXT = true /\ tp_bits amount = wa
    /\ verify_threshold_range key Cp price PRICE_RANGE_CONTEXT = true /\ tp_bits price = wp.
Proof.
  intros Hdig. pose proof (quorum_of_good _ _ _ Hg Hq) as Hgq.
  destruct (ready_rounds _ _ _ _ _ _ _ _ _ Ra quorum AMOUNT_RANGE_CONTEXT seeds Hq) as (ca & aa & pa & Eca & Qa & Eaa & Ppa & Epa & Va & Wa); [apply Hdig|].
  destruct (ready_rounds _ _ _ _ _ _ _ _ _ Rp quorum PRICE_RANGE_CONTEXT price_seeds Hq) as (cp & ap & pp & Ecp & Qp & Eap & Ppp & Epp & Vp & Wp); [apply Hdig|].
  exists pa, pp. split; [|done]. unfold issue_zkpi. rewrite zkpi_first_ok. cbn [mbind result_bind fr_statement fr_relations fr_chosen fr_prepared].
  rewrite zip_with_fmap_l, zip_with_fmap_r, zip_with_diag, <- !list_fmap_compose.
  change ((fun p => p.1.2) ∘ zkpi_prepared) with (fun q => (zkpi_prepared q).1.2).
  change ((fun p => p.1.1.1) ∘ zkpi_prepared) with (fun q => (zkpi_prepared q).1.1.1).
  destruct (zkpi_rounds_ok Hgq) as [E1 E2]. unfold Zkpi.make_challenge, Zkpi.assemble_ranges. rewrite E1, E2. cbn [mbind result_bind].
  rewrite !(zkpi_parts (fun p => p.1.2) Zkpi.z1_amount (fun q => (amount_prepared q).1.2)) by (intros q; by rewrite zkpi_prepared_parts).
  rewrite !(zkpi_parts (fun p => p.1.2) Zkpi.z1_price (fun q => (price_prepared q).1.2)) by (intros q; by rewrite zkpi_prepared_parts).
  rewrite !(zkpi_parts (fun p => p.1.1.1) Zkpi.zl_amount (fun q => (amount_prepared q).1.1.1)) by (intros q; by rewrite zkpi_prepared_parts).
  rewrite !(zkpi_parts (fun p => p.1.1.1) Zkpi.zl_price (fun q => (price_prepared q).1.1.1)) by (intros q; by rewrite zkpi_prepared_parts).
  cbn [Zkpi.zs_amount Zkpi.zs_price]. rewrite Eca. cbn [mbind result_bind]. rewrite Ecp. cbn [mbind result_bind]. rewrite map_res_fmap.
  rewrite (map_res_members _ (fun q => Zkpi.mkZkpiRound2 q (aa q) (ap q))).
  2:{ intros q Hin. cbn beta iota. rewrite zkpi_prepared_parts. cbn [fst snd]. unfold Zkpi.answer. cbn [Zkpi.zx_party Zkpi.bz_party zkpi_bound Zkpi.zc_amount Zkpi.zc_price Zkpi.bz_amount Zkpi.bz_price Zkpi.zx_amount Zkpi.zx_price].
      rewrite N.eqb_refl, Qa, Qp, bool_decide_eq_true_2, (Eaa q Hin), (Eap q Hin) by done. done. }
  cbn [mbind result_bind]. rewrite zkpi_named; [|done|].
  2:{ intros q _. cbn. by rewrite Ppa, Ppp. }
  cbn [mbind result_bind]. rewrite <- !list_fmap_compose. change (Zkpi.z2_amount ∘ _) with aa. change (Zkpi.z2_price ∘ _) with ap.
  cbn [Zkpi.zrs_amount Zkpi.zrs_price]. rewrite Epa. cbn [mbind result_bind]. by rewrite Epp.
Qed.
End Run.

(** The parties' nodes, made from what they were dealt. *)
Definition dealt_zkpi_node (sa sp : ValueShares) (q : PartyId) : result string Zkpi.MpcZkpiNode :=
  Zkpi.from_local_ranges (local_of sa q) (local_of sp q).

(** C32: an amount and a price dealt to the same parties become an
    instruction from a payer to another payee: every node accepts its local
    ranges, every message up to the quorum's first moves is accepted by whoever
    receives it; and unless a digest of one of these very moves is all zeros, the
    rest of the issuance is accepted too, the two range proofs have the published
    widths and verify, and the partial instruction that carries them is built
    with the commitments of the dealt values. *)
Theorem zkpi_issuance_completes `{B : !Bulletproofs} `{Q : QuorumOps} key bounds amount price ra rp parties quorum t
    (rng1 rng1' rng2 rng2' : R) sa sp (seeds : PartyId -> R) asset payer payee deadline nonce digest :
  (amount < 2 ^ 64)%N -> (price < 2 ^ 64)%N ->
  deal_bits key amount ra (b_amount_bits bounds) parties t rng1 = Ok (sa, rng1') ->
  deal_bits key price rp (b_price_bits bounds) parties t rng2 = Ok (sp, rng2') ->
  quorum_of parties t quorum -> same_point payer payee = false ->
  exists nodes first,
    map_res (dealt_zkpi_node sa sp) parties = Ok nodes
    /\ zkpi_first_round key nodes t quorum seeds = Ok first /\ Zkpi.bz_party <$> fr_chosen first = quorum
    /\ (Forall zkpi_sealed (fr_prepared first) -> exists proofs,
          issue_zkpi key nodes t quorum seeds = Ok (fr_statement first, proofs)
          /\ Zkpi.build_partial_instruction key bounds (fr_statement first) proofs asset payer payee deadline nonce digest
             = Ok (mkPartialInstruction (commit key (scalar_of_N amount) ra) (commit key (scalar_of_N price) rp) asset
                 (ThresholdEvidence (Zkpi.zp_amount proofs) (Zkpi.zp_price proofs)) payer payee deadline nonce (ProofDigest digest))).
Proof.
  intros Ha Hp Hda Hdp Hq Hne.
  destruct (dealt_range_ready _ _ _ _ _ _ _ _ _ Ha Hda) as (Hg & sta & rela & na & Ra).
  destruct (dealt_range_ready _ _ _ _ _ _ _ _ _ Hp Hdp) as (_ & stp & relp & np & Rp).
  assert (forall q, q ∈ parties -> dealt_zkpi_node sa sp q = Ok (zkpi_node (local_of sa) (local_of sp) q)) as Hnodes.
  { intros q Hin. unfold dealt_zkpi_node, Zkpi.from_local_ranges.
    destruct (ready_local _ _ _ _ _ _ _ _ _ Ra q Hin) as [-> W1%Nat.eqb_neq], (ready_local _ _ _ _ _ _ _ _ _ Rp q Hin) as [-> W2%Nat.eqb_neq].
    by rewrite N.eqb_refl, W1, W2. }
  exists (zkpi_node (local_of sa) (local_of sp) <$> parties). eexists.
  split; [by apply map_res_members|]. split; [by eapply zkpi_first_ok|]. cbn [fr_statement fr_chosen fr_prepared].
  split; [rewrite <- list_fmap_compose; apply list_fmap_id|]. rewrite Forall_fmap, Forall_forall. intros Hz.
  destruct (zkpi_run key t parties quorum seeds _ _ _ _ _ _ sta stp rela relp na np Hg Hq Ra Rp) as (pa & pp & Hrun & Va & Wa & Vp & Wp).
  { intros q Hin. specialize (Hz q Hin). unfold compose, zkpi_sealed in Hz. by rewrite zkpi_prepared_parts in Hz. }
  exists (Zkpi.mkZkpiRangeProofs pa pp). split; [exact Hrun|].
  unfold Zkpi.build_partial_instruction, from_threshold_ranges. cbn [Zkpi.zs_amount Zkpi.zs_price Zkpi.zp_amount Zkpi.zp_price].
  by rewrite (ready_commitment _ _ _ _ _ _ _ _ _ Ra), (ready_commitment _ _ _ _ _ _ _ _ _ Rp), Va, Vp, Wa, Wp, !Nat.eqb_refl, Hne.
Qed.
End ZkpiIssuance.

(** ** Delivery versus payment *)

Section DvpIssuance.
Context `{SL : ScalarLaws} `{!ScalarLarge} `{G : !GroupOps} `{L : !GroupLaws} `{CL : !CompressLaws}.
Context `{T : TranscriptOps} `{S2 : Sha256} {R : Type} `{!ScalarRandom R}.

(** Both rounds of a product, run by a quorum whose shares fit the statement. *)
Lemma product_rounds_complete key st context quorum holder (seeds : PartyId -> R) :
  product_shared key st quorum holder ->
  (forall q, q ∈ quorum -> pse_digest (product_seal key st context holder seeds q) <> ZERO32) ->
  let messages := product_message key st context holder seeds <$> quorum in
  let seals := product_seal key st context holder seeds <$> quorum in
  exists challenge answer proof,
    make_product_challenge st messages seals quorum context = Ok challenge
    /\ (forall q, q ∈ quorum -> answer_product_challenge (holder q) (product_secret key st context holder seeds q) challenge = Ok (answer q))
    /\ (forall q, p2_party (answer q) = q)
    /\ assemble_product_from_rounds key st messages seals (answer <$> quorum) quorum context = Ok proof
    /\ (verify_product key (transcript_new context) (ps_multiplicand st) (ps_factor_commitment st) (ps_product_commitment st) proof).1 = true.
Proof.
  intros [Hg Hparty Hlen Hconst Hshare] Hdig. cbv zeta. destruct (weights_exist quorum Hg) as [w Hw].
  pose proof (honest_product_challenge key st context (transcript_new context) quorum holder seeds Hg Hparty w Hw) as Ec.
  set (c := (challenge_of key st context (transcript_new context) quorum holder seeds w).1) in *.
  eexists _, (product_answer key st context holder seeds c), (assembled_product key st context quorum holder seeds w c).
  unfold make_product_challenge. rewrite Ec. cbn [mbind result_bind]. split; [done|]. split.
  { apply (map_res_fmap_inv (fun q => answer_product_challenge (holder q) _ _)).
    by rewrite (honest_product_answers key st context quorum holder seeds) by done. }
  split; [done|]. unfold assemble_product_from_rounds, c.
  rewrite (honest_product_assembled key st context (transcript_new context) quorum holder seeds) with (w := w) by done.
  split; [done|]. by apply assembled_product_verifies.
Qed.

Definition dvp_first_round (key : Pedersen) (quantity price cash securities_remainder cash_remainder : Point) (nodes : list DvpIssuer.MpcDvpNode)
    (t : nat) (quorum : list PartyId) (seeds : PartyId -> R) :
    result string (FirstRound DvpIssuer.DvpStatements DvpIssuer.DvpRelationStatements DvpIssuer.BoundMpcDvpNode
      (DvpIssuer.DvpRound1Seals * DvpIssuer.DvpRound1Secrets * DvpIssuer.DvpRound1 * R)) :=
  statements ← DvpIssuer.statements_from_evaluations quantity price cash securities_remainder cash_remainder
    (DvpIssuer.evaluations key quantity <$> nodes) t;
  bound ← map_res (DvpIssuer.bind key statements) nodes;
  relations ← DvpIssuer.relation_statements_from_evaluations statements (DvpIssuer.bound_relation_evaluations key <$> bound);
  chosen ← map_res (member DvpIssuer.bd_party bound) quorum;
  Ok (mkFirstRound statements relations chosen ((fun n => DvpIssuer.prepare_round1 key quantity n (seeds (DvpIssuer.bd_party n))) <$> chosen)).

Definition issue_dvp (key : Pedersen) (quantity price cash securities_remainder cash_remainder : Point) (nodes : list DvpIssuer.MpcDvpNode)
    (t : nat) (quorum : list PartyId) (seeds : PartyId -> R) : result string (DvpIssuer.DvpStatements * Pool.DvpProofs) :=
  first ← dvp_first_round key quantity price cash securities_remainder cash_remainder nodes t quorum seeds;
  let rounds := (fun p => p.1.2) <$> fr_prepared first in
  let seals := (fun p => p.1.1.1) <$> fr_prepared first in
  challenge ← DvpIssuer.make_challenge (fr_statement first) rounds seals quorum;
  responses ← map_res (fun '(n, p) => DvpIssuer.answer n p.1.1.2 challenge) (zip (fr_chosen first) (fr_prepared first));
  proofs ← DvpIssuer.assemble_proofs key (fr_statement first) (fr_relations first) rounds seals responses quorum;
  Ok (fr_statement first, proofs).

(** None of the digests of a node's first move is all zeros. *)
Definition dvp_sealed (move : DvpIssuer.DvpRound1Seals * DvpIssuer.DvpRound1Secrets * DvpIssuer.DvpRound1 * R) : Prop :=
  pse_digest (DvpIssuer.dl_product move.1.1.1) <> ZERO32 /\ rse_digest (DvpIssuer.dl_securities move.1.1.1) <> ZERO32
  /\ rse_digest (DvpIssuer.dl_cash move.1.1.1) <> ZERO32.

Section Run.
Context (key : Pedersen) (t : nat) (parties quorum : list PartyId) (seeds : PartyId -> R) (quantity price cash : Point).
Context (product : PartyId -> LocalProductShares) (pst : ProductStatement).
Context (ls lc : PartyId -> LocalRangeShares) (Cs Cc : Point) (ws wc : nat).
Context (sts stc : RangeStatement) (rels relc : RangeRelationStatement) (ns nc : PartyId -> NodeValueShares).
Context (Hg : good_parties parties) (Hq : quorum_of parties t quorum).
Context (Hprod : forall q, q ∈ parties -> lp_party (product q) = q /\ lp_threshold (product q) = t).
Context (Hpst : product_statement_from_evaluations quantity price cash ((fun q => lp_evaluations key quantity (product q)) <$> parties) t = Ok pst).
Context (Rs : range_ready (R:=R) key t parties ls Cs ws sts rels ns) (Rc : range_ready (R:=R) key t parties lc Cc wc stc relc nc).

Definition dvp_node (q : PartyId) : DvpIssuer.MpcDvpNode := DvpIssuer.mkMpcDvpNode q (product q) None (ls q) (lc q).
Definition holder : PartyId -> ProductNodeContribution := product_holder pst (product <$> parties).
Definition dvp_bound (q : PartyId) : DvpIssuer.BoundMpcDvpNode := DvpIssuer.mkBoundMpcDvpNode q (holder q) None (ns q) (nc q).
Definition dvp_prepared (q : PartyId) := DvpIssuer.prepare_round1 key quantity (dvp_bound q) (seeds q).
Definition product_prepared (q : PartyId) := prepare_product_round1 key (holder q) quantity DvpIssuer.DVP_PRODUCT_CONTEXT (seeds q).
Definition securities_prepared (q : PartyId) :=
  prepare_range_round1 key (ns q) DvpIssuer.DVP_SECURITIES_REMAINDER_CONTEXT (product_prepared q).2.
Definition cash_prepared (q : PartyId) := prepare_range_round1 key (nc q) DvpIssuer.DVP_CASH_REMAINDER_CONTEXT (securities_prepared q).2.

Lemma dvp_prepared_parts q :
  dvp_prepared q =
    (DvpIssuer.mkDvpRound1Seals q (product_prepared q).1.1.1 (securities_prepared q).1.1.1 (cash_prepared q).1.1.1,
     DvpIssuer.mkDvpRound1Secrets q (product_prepared q).1.1.2 (securities_prepared q).1.1.2 (cash_prepared q).1.1.2,
     DvpIssuer.mkDvpRound1 q (product_prepared q).1.2 (securities_prepared q).1.2 (cash_prepared q).1.2, (cash_prepared q).2).
Proof.
  unfold dvp_prepared, DvpIssuer.prepare_round1, cash_prepared, securities_prepared, product_prepared, dvp_bound.
  cbn [DvpIssuer.bd_party DvpIssuer.bd_product DvpIssuer.bd_securities DvpIssuer.bd_cash].
  destruct (prepare_product_round1 _ _ _ _ _) as [[[s x] m] r]. cbn [snd].
  destruct (prepare_range_round1 key (ns q) _ r) as [[[s' x'] m'] r']. cbn [snd]. by destruct (prepare_range_round1 key (nc q) _ r') as [[[s'' x''] m''] r''].
Qed.

Lemma product_facts :
  (ps_multiplicand pst = quantity /\ ps_factor_commitment pst = price /\ ps_product_commitment pst = cash)
  /\ (forall q, q ∈ parties -> bind_product key (product q) pst = Ok (holder q))
  /\ product_shared key pst quorum holder.
Proof.
  pose proof Hpst as Hst. rewrite (list_fmap_compose product (lp_evaluations key quantity)) in Hst.
  assert (lp_party <$> (product <$> parties) = parties) as Hpp.
  { rewrite <- list_fmap_compose, (list_fmap_ext _ id parties), list_fmap_id; [done|]. intros i q Hi. apply Hprod. by eapply list_elem_of_lookup_2. }
  destruct (product_bound _ _ _ _ _ _ _ Hst) as (E & Hb & Hs).
  { apply Forall_fmap, Forall_forall. intros q Hin. by apply Hprod. }
  split; [done|]. split.
  - intros q Hin. rewrite (Hb (product q)) by (apply list_elem_of_fmap; eauto). by destruct (Hprod q Hin) as [-> _].
  - destruct Hq as (Hnd & Hsub & Ht). apply Hs; [done| |done]. by rewrite Hpp.
Qed.

#[local] Abbreviation statements := (DvpIssuer.mkDvpStatements pst sts stc).

Lemma dvp_statements_ok :
  DvpIssuer.statements_from_evaluations quantity price cash Cs Cc (DvpIssuer.evaluations key quantity <$> (dvp_node <$> parties)) t = Ok statements.
Proof.
  unfold DvpIssuer.statements_from_evaluations. rewrite <- (list_fmap_compose dvp_node (DvpIssuer.evaluations key quantity)).
  rewrite dvp_named; [|done|].
  2:{ intros q Hin. cbn. destruct (ready_local _ _ _ _ _ _ _ _ _ Rs q Hin) as [-> _], (ready_local _ _ _ _ _ _ _ _ _ Rc q Hin) as [-> _].
      by destruct (Hprod q Hin) as [-> _]. }
  cbn [mbind result_bind]. rewrite <- !list_fmap_compose.
  change (DvpIssuer.de_product ∘ _) with (fun q => lp_evaluations key quantity (product q)).
  change (DvpIssuer.de_securities ∘ _) with (fun q => lr_evaluations key (ls q)).
  change (DvpIssuer.de_cash ∘ _) with (fun q => lr_evaluations key (lc q)).
  rewrite Hpst. cbn [mbind result_bind]. rewrite (ready_statement _ _ _ _ _ _ _ _ _ Rs). cbn [mbind result_bind].
  rewrite (ready_statement _ _ _ _ _ _ _ _ _ Rc). cbn [mbind result_bind].
  by rewrite (ready_commitment _ _ _ _ _ _ _ _ _ Rs), (ready_commitment _ _ _ _ _ _ _ _ _ Rc), !same_point_refl.
Qed.

Lemma dvp_bind_ok q : q ∈ parties -> DvpIssuer.bind key statements (dvp_node q) = Ok (dvp_bound q).
Proof.
  intros Hin. unfold DvpIssuer.bind, dvp_node. cbn. rewrite (proj1 (proj2 product_facts) q Hin). cbn.
  rewrite (ready_bind _ _ _ _ _ _ _ _ _ Rs q Hin). cbn. by rewrite (ready_bind _ _ _ _ _ _ _ _ _ Rc q Hin).
Qed.

Lemma relation_parties_ok evaluations : forall seen,
  Forall (fun n => DvpIssuer.dr_party n <> 0%N /\ DvpIssuer.dr_party n = rr_party (DvpIssuer.dr_securities n)
    /\ DvpIssuer.dr_party n = rr_party (DvpIssuer.dr_cash n) /\ DvpIssuer.dr_party n ∉ seen) evaluations ->
  NoDup (DvpIssuer.dr_party <$> evaluations) -> DvpIssuer.check_relation_parties seen evaluations = Ok tt.
Proof.
  induction evaluations as [|n ns' IH]; intros seen Hf Hnd; [done|]. rewrite fmap_cons, NoDup_cons in Hnd. destruct Hnd as [Hn Hnd].
  apply Forall_cons in Hf as [(H1' & H2' & H3' & H4') Hf]. cbn [DvpIssuer.check_relation_parties].
  rewrite <- H2', <- H3', N.eqb_refl, (proj2 (N.eqb_neq _ _) H1'), bool_decide_eq_false_2 by done. cbn [negb orb].
  apply IH; [|done]. rewrite Forall_forall in Hf |- *. intros m Hm. destruct (Hf m Hm) as (? & ? & ? & ?). split_and!; try done.
  intros [E%elem_of_singleton|]%elem_of_union; [|done]. apply Hn. rewrite <- E. apply list_elem_of_fmap. eauto.
Qed.

Lemma dvp_relations_ok :
  DvpIssuer.relation_statements_from_evaluations statements (DvpIssuer.bound_relation_evaluations key <$> (dvp_bound <$> parties))
  = Ok (DvpIssuer.mkDvpRelationStatements rels relc).
Proof.
  unfold DvpIssuer.relation_statements_from_evaluations. rewrite <- (list_fmap_compose dvp_bound (DvpIssuer.bound_relation_evaluations key)).
  rewrite relation_parties_ok.
  - cbn [mbind result_bind]. rewrite <- !list_fmap_compose.
    change (DvpIssuer.dr_securities ∘ _) with (fun q => relation_evaluations key (ns q)).
    change (DvpIssuer.dr_cash ∘ _) with (fun q => relation_evaluations key (nc q)).
    cbn [DvpIssuer.ds_securities DvpIssuer.ds_cash]. rewrite (ready_relations _ _ _ _ _ _ _ _ _ Rs). cbn [mbind result_bind].
    by rewrite (ready_relations _ _ _ _ _ _ _ _ _ Rc).
  - apply Forall_fmap. eapply Forall_impl; [by apply good_nonzero|]. intros q Hnz. cbn.
    rewrite (ready_node _ _ _ _ _ _ _ _ _ Rs), (ready_node _ _ _ _ _ _ _ _ _ Rc). split_and!; done.
  - rewrite <- list_fmap_compose, (list_fmap_ext _ id parties), list_fmap_id by done. apply Hg.
Qed.
#[local] Abbreviation rounds := ((fun q => (dvp_prepared q).1.2) <$> quorum).
#[local] Abbreviation seals := ((fun q => (dvp_prepared q).1.1.1) <$> quorum).

Lemma dvp_parts {A B} (part : _ -> A) (field : A -> B) (F : PartyId -> B) :
  (forall q, field (part (dvp_prepared q)) = F q) -> field <$> ((fun q => part (dvp_prepared q)) <$> quorum) = F <$> quorum.
Proof. intros HF. rewrite <- list_fmap_compose. apply list_fmap_ext. intros ? q _. apply HF. Qed.

Lemma product_prepared_eq q :
  product_prepared q = prepared_product key pst DvpIssuer.DVP_PRODUCT_CONTEXT holder seeds q.
Proof. unfold product_prepared, prepared_product. by rewrite (proj1 (proj1 product_facts)). Qed.

Lemma dvp_rounds_ok : good_parties quorum ->
  DvpIssuer.check_parties ∅ ((fun n => (DvpIssuer.d1_party n, p1_party (DvpIssuer.d1_product n), r1_party (DvpIssuer.d1_securities n),
    r1_party (DvpIssuer.d1_cash n))) <$> rounds) "DvP round-one message" = Ok tt
  /\ DvpIssuer.check_parties ∅ ((fun n => (DvpIssuer.dl_party n, pse_party (DvpIssuer.dl_product n), rse_party (DvpIssuer.dl_securities n),
    rse_party (DvpIssuer.dl_cash n))) <$> seals) "DvP round-one seal" = Ok tt.
Proof.
  intros Hgq. destruct product_facts as (_ & _ & Hps). pose proof (psh_party _ _ _ _ Hps) as Hparty.
  split; apply dvp_named; try done; intros q Hin; rewrite dvp_prepared_parts;
    cbn [fst snd DvpIssuer.d1_party DvpIssuer.d1_product DvpIssuer.d1_securities DvpIssuer.d1_cash DvpIssuer.dl_party DvpIssuer.dl_product
      DvpIssuer.dl_securities DvpIssuer.dl_cash]; unfold securities_prepared, cash_prepared;
    rewrite ?(proj1 (prepared_parties _ _ _ _)), ?(proj2 (prepared_parties _ _ _ _));
    rewrite (ready_node _ _ _ _ _ _ _ _ _ Rs), (ready_node _ _ _ _ _ _ _ _ _ Rc), product_prepared_eq;
    destruct (prepared_product_spec key pst DvpIssuer.DVP_PRODUCT_CONTEXT quorum holder seeds Hparty q Hin) as (E1 & E2 & _).
  - by unfold product_message in E2; rewrite E2.
  - by unfold product_seal in E1; rewrite E1.
Qed.

Lemma dvp_answers (cp : ProductChallenge) (cs cc : RangeChallenge) ap as' ac :
  (forall q, q ∈ quorum -> answer_product_challenge (holder q) (product_prepared q).1.1.2 cp = Ok (ap q)) ->
  (forall q, q ∈ quorum -> answer_range_challenge (ns q) (securities_prepared q).1.1.2 cs = Ok (as' q)) ->
  (forall q, q ∈ quorum -> answer_range_challenge (nc q) (cash_prepared q).1.1.2 cc = Ok (ac q)) ->
  forall q, q ∈ quorum -> DvpIssuer.answer (dvp_bound q) (dvp_prepared q).1.1.2 (DvpIssuer.mkDvpChallenge cp cs cc)
    = Ok (DvpIssuer.mkDvpRound2 q (ap q) (as' q) (ac q)).
Proof.
  intros Ep Es Ec q Hin. rewrite dvp_prepared_parts. cbn [fst snd]. unfold DvpIssuer.answer.
  cbn [DvpIssuer.dx_party DvpIssuer.bd_party dvp_bound DvpIssuer.bd_product DvpIssuer.bd_securities DvpIssuer.bd_cash DvpIssuer.dx_product
    DvpIssuer.dx_securities DvpIssuer.dx_cash DvpIssuer.dc_product DvpIssuer.dc_securities DvpIssuer.dc_cash].
  rewrite N.eqb_refl. cbn [negb]. rewrite (Ep q Hin). cbn. rewrite (Es q Hin). cbn. by rewrite (Ec q Hin).
Qed.

Lemma dvp_first_ok : dvp_first_round key quantity price cash Cs Cc (dvp_node <$> parties) t quorum seeds
  = Ok (mkFirstRound statements (DvpIssuer.mkDvpRelationStatements rels relc) (dvp_bound <$> quorum) (dvp_prepared <$> quorum)).
Proof.
  unfold dvp_first_round. rewrite dvp_statements_ok. cbn [mbind result_bind]. rewrite map_res_fmap.
  rewrite (map_res_members _ dvp_bound) by (intros q Hin; by apply dvp_bind_ok). cbn [mbind result_bind].
  rewrite dvp_relations_ok. cbn [mbind result_bind]. rewrite (members_ok DvpIssuer.bd_party dvp_bound parties t quorum) by done. cbn [mbind result_bind].
  by rewrite <- list_fmap_compose.
Qed.

Lemma dvp_run :
  (forall q, q ∈ quorum -> pse_digest (product_prepared q).1.1.1 <> ZERO32 /\ rse_digest (securities_prepared q).1.1.1 <> ZERO32
    /\ rse_digest (cash_prepared q).1.1.1 <> ZERO32) ->
  exists proofs, issue_dvp key quantity price cash Cs Cc (dvp_node <$> parties) t quorum seeds = Ok (statements, proofs)
    /\ (verify_product key (transcript_new DvpIssuer.DVP_PRODUCT_CONTEXT) quantity price cash (Pool.dp_product proofs)).1 = true
    /\ verify_threshold_range key Cs (Pool.dp_securities_remainder proofs) DvpIssuer.DVP_SECURITIES_REMAINDER_CONTEXT = true
    /\ tp_bits (Pool.dp_securities_remainder proofs) = ws
    /\ verify_threshold_range key Cc (Pool.dp_cash_remainder proofs) DvpIssuer.DVP_CASH_REMAINDER_CONTEXT = true
    /\ tp_bits (Pool.dp_cash_remainder proofs) = wc.
Proof.
  intros Hdig. pose proof (quorum_of_good _ _ _ Hg Hq) as Hgq. destruct product_facts as ((EA & Ef & Ec) & _ & Hps).
  destruct (product_rounds_complete key pst DvpIssuer.DVP_PRODUCT_CONTEXT quorum holder seeds Hps) as (cp & ap & pp & Ecp & Eap & Pap & Epp & Vp).
  { intros q Hin. unfold product_seal. rewrite <- product_prepared_eq. by apply Hdig. }
  rewrite EA, Ef, Ec in Vp.
  destruct (ready_rounds _ _ _ _ _ _ _ _ _ Rs quorum DvpIssuer.DVP_SECURITIES_REMAINDER_CONTEXT (fun q => (product_prepared q).2) Hq)
    as (cs & as' & ps & Ecs & _ & Eas & Pas & Eps & Vs & Ws); [intros q Hin; by apply Hdig|].
  destruct (ready_rounds _ _ _ _ _ _ _ _ _ Rc quorum DvpIssuer.DVP_CASH_REMAINDER_CONTEXT (fun q => (securities_prepared q).2) Hq)
    as (cc & ac & pc & Ecc & _ & Eac & Pac & Epc & Vc & Wc); [intros q Hin; by apply Hdig|].
  change (fun q => (prepare_range_round1 key (ns q) _ _).1.2) with (fun q => (securities_prepared q).1.2) in Ecs, Eps.
  change (fun q => (prepare_range_round1 key (ns q) _ _).1.1.1) with (fun q => (securities_prepared q).1.1.1) in Ecs, Eps.
  change (fun q => (prepare_range_round1 key (nc q) _ _).1.2) with (fun q => (cash_prepared q).1.2) in Ecc, Epc.
  change (fun q => (prepare_range_round1 key (nc q) _ _).1.1.1) with (fun q => (cash_prepared q).1.1.1) in Ecc, Epc.
  exists (Pool.mkDvpProofs pp ps pc). split; [|done]. unfold issue_dvp. rewrite dvp_first_ok. cbn [mbind result_bind fr_statement fr_relations fr_chosen fr_prepared].
  rewrite zip_with_fmap_l, zip_with_fmap_r, zip_with_diag, <- !list_fmap_compose.
  change ((fun p => p.1.2) ∘ dvp_prepared) with (fun q => (dvp_prepared q).1.2).
  change ((fun p => p.1.1.1) ∘ dvp_prepared) with (fun q => (dvp_prepared q).1.1.1).
  destruct (dvp_rounds_ok Hgq) as [E1 E2]. unfold DvpIssuer.make_challenge, DvpIssuer.assemble_proofs. rewrite E1, E2. cbn [mbind result_bind].
  rewrite !(dvp_parts (fun p => p.1.2) DvpIssuer.d1_product (product_message key pst DvpIssuer.DVP_PRODUCT_CONTEXT holder seeds))
    by (intros q; rewrite dvp_prepared_parts; unfold product_message; by rewrite <- product_prepared_eq).
  rewrite !(dvp_parts (fun p => p.1.1.1) DvpIssuer.dl_product (product_seal key pst DvpIssuer.DVP_PRODUCT_CONTEXT holder seeds))
    by (intros q; rewrite dvp_prepared_parts; unfold product_seal; by rewrite <- product_prepared_eq).
  rewrite !(dvp_parts (fun p => p.1.2) DvpIssuer.d1_securities (fun q => (securities_prepared q).1.2)) by (intros q; by rewrite dvp_prepared_parts).
  rewrite !(dvp_parts (fun p => p.1.1.1) DvpIssuer.dl_securities (fun q => (securities_prepared q).1.1.1)) by (intros q; by rewrite dvp_prepared_parts).
  rewrite !(dvp_parts (fun p => p.1.2) DvpIssuer.d1_cash (fun q => (cash_prepared q).1.2)) by (intros q; by rewrite dvp_prepared_parts).
  rewrite !(dvp_parts (fun p => p.1.1.1) DvpIssuer.dl_cash (fun q => (cash_prepared q).1.1.1)) by (intros q; by rewrite dvp_prepared_parts).
  cbn [DvpIssuer.ds_product DvpIssuer.ds_securities DvpIssuer.ds_cash].
  rewrite Ecp. cbn [mbind result_bind]. rewrite Ecs. cbn [mbind result_bind]. rewrite Ecc. cbn [mbind result_bind].
  rewrite map_res_fmap, (map_res_members _ (fun q => DvpIssuer.mkDvpRound2 q (ap q) (as' q) (ac q))).
  2:{ apply dvp_answers; [|exact Eas|exact Eac]. intros q Hin. rewrite product_prepared_eq. by apply Eap. }
  cbn [mbind result_bind]. rewrite dvp_named; [|done|].
  2:{ intros q _. cbn. by rewrite Pap, Pas, Pac. }
  cbn [mbind result_bind]. rewrite <- !list_fmap_compose.
  change (DvpIssuer.d2_product ∘ _) with ap. change (DvpIssuer.d2_securities ∘ _) with as'. change (DvpIssuer.d2_cash ∘ _) with ac.
  cbn [DvpIssuer.drs_securities DvpIssuer.drs_cash]. rewrite Epp. cbn [mbind result_bind]. rewrite Eps. cbn [mbind result_bind]. by rewrite Epc.
Qed.
End Run.

Definition dealt_dvp_node (product : PartyId -> LocalProductShares) (ss sc : ValueShares) (q : PartyId) : result string DvpIssuer.MpcDvpNode :=
  DvpIssuer.node_new (product q) (local_of ss q) (local_of sc q).

(** C33: shares of a product that fit a statement, and two remainders dealt to
    the same parties, become the proofs of a delivery versus payment: every node
    accepts its shares and every message up to the quorum's first moves is
    accepted by whoever receives it; and unless a digest of one of these very
    moves is all zeros, the rest of the issuance is accepted too and the public
    verifier accepts that the cash is the quantity times the price and that both
    remainders have the dealt widths. *)
Theorem dvp_issuance_completes key quantity price cash product pst securities rs ws cash_left rc wc parties quorum t
    (rng1 rng1' rng2 rng2' : R) ss sc (seeds : PartyId -> R) :
  (forall q, q ∈ parties -> lp_party (product q) = q /\ lp_threshold (product q) = t) ->
  product_statement_from_evaluations quantity price cash ((fun q => lp_evaluations key quantity (product q)) <$> parties) t = Ok pst ->
  (securities < 2 ^ 64)%N -> (cash_left < 2 ^ 64)%N ->
  deal_bits key securities rs ws parties t rng1 = Ok (ss, rng1') ->
  deal_bits key cash_left rc wc parties t rng2 = Ok (sc, rng2') ->
  quorum_of parties t quorum ->
  let Cs := commit key (scalar_of_N securities) rs in
  let Cc := commit key (scalar_of_N cash_left) rc in
  exists nodes first,
    map_res (dealt_dvp_node product ss sc) parties = Ok nodes
    /\ dvp_first_round key quantity price cash Cs Cc nodes t quorum seeds = Ok first /\ DvpIssuer.bd_party <$> fr_chosen first = quorum
    /\ (Forall dvp_sealed (fr_prepared first) -> exists proofs,
          issue_dvp key quantity price cash Cs Cc nodes t quorum seeds = Ok (fr_statement first, proofs)
          /\ (verify_product key (transcript_new DvpIssuer.DVP_PRODUCT_CONTEXT) quantity price cash (Pool.dp_product proofs)).1 = true
          /\ verify_threshold_range key Cs (Pool.dp_securities_remainder proofs) DvpIssuer.DVP_SECURITIES_REMAINDER_CONTEXT = true
          /\ tp_bits (Pool.dp_securities_remainder proofs) = ws
          /\ verify_threshold_range key Cc (Pool.dp_cash_remainder proofs) DvpIssuer.DVP_CASH_REMAINDER_CONTEXT = true
          /\ tp_bits (Pool.dp_cash_remainder proofs) = wc).
Proof.
  intros Hprod Hpst Hs Hc Hds Hdc Hq. cbv zeta.
  destruct (dealt_range_ready _ _ _ _ _ _ _ _ _ Hs Hds) as (Hg & sts & rels & ns & Rs).
  destruct (dealt_range_ready _ _ _ _ _ _ _ _ _ Hc Hdc) as (_ & stc & relc & nc & Rc).
  assert (forall q, q ∈ parties -> dealt_dvp_node product ss sc q = Ok (dvp_node product (local_of ss) (local_of sc) q)) as Hnodes.
  { intros q Hin. unfold dealt_dvp_node, DvpIssuer.node_new, dvp_node. destruct (Hprod q Hin) as [-> _].
    destruct (ready_local _ _ _ _ _ _ _ _ _ Rs q Hin) as [-> W1%Nat.eqb_neq], (ready_local _ _ _ _ _ _ _ _ _ Rc q Hin) as [-> W2%Nat.eqb_neq].
    by rewrite N.eqb_refl, W1, W2. }
  exists (dvp_node product (local_of ss) (local_of sc) <$> parties). eexists.
  split; [by apply map_res_members|]. split; [by eapply dvp_first_ok|]. cbn [fr_statement fr_chosen fr_prepared].
  split; [rewrite <- list_fmap_compose; apply list_fmap_id|]. rewrite Forall_fmap, Forall_forall. intros Hz.
  apply (dvp_run key t parties quorum seeds quantity price cash product pst _ _ _ _ _ _ sts stc rels relc ns nc Hg Hq Hprod Hpst Rs Rc).
  intros q Hin. specialize (Hz q Hin). unfold compose, dvp_sealed in Hz. by rewrite dvp_prepared_parts in Hz.
Qed.
End DvpIssuance.

(** ** A hidden limit *)

Section LimitIssuance.
Context `{SL : ScalarLaws} `{!ScalarLarge} `{G : !GroupOps} `{L : !GroupLaws} `{CL : !CompressLaws}.
Context `{T : TranscriptOps} `{S2 : Sha256} {R : Type} `{!ScalarRandom R}.

Definition limit_first_round (key : Pedersen) (nodes : list LimitIssuer.MpcLimitNode) (t : nat) (quorum : list PartyId) (context : bytes)
    (seeds : PartyId -> R) :
    result string (FirstRound RangeStatement RangeRelationStatement LimitIssuer.BoundMpcLimitNode (RangeRound1Seal * RangeRound1Secret * RangeRound1 * R)) :=
  statement ← LimitIssuer.statement_from_evaluations (LimitIssuer.evaluations key <$> nodes) t;
  bound ← map_res (LimitIssuer.bind key statement) nodes;
  relation ← LimitIssuer.relation_from_evaluations statement (LimitIssuer.bound_relation_evaluations key <$> bound);
  chosen ← map_res (member LimitIssuer.bl_party bound) quorum;
  Ok (mkFirstRound statement relation chosen
    ((fun n => LimitIssuer.prepare_round1 key n context (seeds (LimitIssuer.bl_party n))) <$> chosen)).

Definition issue_limit (key : Pedersen) (nodes : list LimitIssuer.MpcLimitNode) (t : nat) (quorum : list PartyId) (context : bytes)
    (seeds : PartyId -> R) : result string (RangeStatement * ThresholdRangeProof) :=
  first ← limit_first_round key nodes t quorum context seeds;
  let rounds := (fun p => p.1.2) <$> fr_prepared first in
  let seals := (fun p => p.1.1.1) <$> fr_prepared first in
  challenge ← LimitIssuer.challenge (fr_statement first) rounds seals quorum context;
  responses ← map_res (fun '(n, p) => LimitIssuer.answer n p.1.1.2 challenge) (zip (fr_chosen first) (fr_prepared first));
  proof ← LimitIssuer.assemble key (fr_statement first) (fr_relations first) rounds seals responses quorum context;
  Ok (fr_statement first, proof).

Definition dealt_limit_node (shares : ValueShares) (q : PartyId) : LimitIssuer.MpcLimitNode := LimitIssuer.mkMpcLimitNode q (local_of shares q).

(** A difference dealt to the committee becomes a range proof of its commitment,
    every message being accepted by whoever receives it, unless a digest of one
    of the quorum's own first moves is all zeros. *)
Theorem limit_issuance_completes key value blinding width parties quorum t (rng rng' : R) shares context (seeds : PartyId -> R) :
  (value < 2 ^ 64)%N -> deal_bits key value blinding width parties t rng = Ok (shares, rng') -> quorum_of parties t quorum ->
  exists first, limit_first_round key (dealt_limit_node shares <$> parties) t quorum context seeds = Ok first
    /\ LimitIssuer.bl_party <$> fr_chosen first = quorum
    /\ (Forall (fun p => rse_digest p.1.1.1 <> ZERO32) (fr_prepared first) -> exists proof,
          issue_limit key (dealt_limit_node shares <$> parties) t quorum context seeds = Ok (fr_statement first, proof)
          /\ rs_commitment (fr_statement first) = commit key (scalar_of_N value) blinding
          /\ verify_threshold_range key (rs_commitment (fr_statement first)) proof context = true /\ tp_bits proof = width).
Proof.
  intros Hv Hd Hq. destruct (dealt_range_ready _ _ _ _ _ _ _ _ _ Hv Hd) as (Hg & st & rel & node & Rd).
  pose proof (quorum_of_good _ _ _ Hg Hq) as Hgq. pose proof (ready_node _ _ _ _ _ _ _ _ _ Rd) as Hn.
  set (bound q := LimitIssuer.mkBoundMpcLimitNode q (node q)).
  assert (forall q, q ∈ parties -> LimitIssuer.bind key st (dealt_limit_node shares q) = Ok (bound q)) as Hb.
  { intros q Hin. unfold LimitIssuer.bind. cbn. by rewrite (ready_bind _ _ _ _ _ _ _ _ _ Rd q Hin). }
  assert (limit_first_round key (dealt_limit_node shares <$> parties) t quorum context seeds
    = Ok (mkFirstRound st rel (bound <$> quorum) ((fun q => prepare_range_round1 key (node q) context (seeds q)) <$> quorum))) as Hfirst.
  { unfold limit_first_round, LimitIssuer.statement_from_evaluations.
    rewrite <- (list_fmap_compose (dealt_limit_node shares) (LimitIssuer.evaluations key)).
    rewrite limit_named; [|done|]. 2:{ intros q Hin. cbn. by destruct (ready_local _ _ _ _ _ _ _ _ _ Rd q Hin) as [-> _]. }
    cbn [mbind result_bind]. change (LimitIssuer.evaluations key ∘ dealt_limit_node shares) with (fun q => lr_evaluations key (local_of shares q)).
    rewrite (ready_statement _ _ _ _ _ _ _ _ _ Rd). cbn [mbind result_bind].
    rewrite map_res_fmap, (map_res_members _ bound) by done. cbn [mbind result_bind]. unfold LimitIssuer.relation_from_evaluations.
    rewrite <- (list_fmap_compose bound (LimitIssuer.bound_relation_evaluations key)), limit_named; [|done|].
    2:{ intros q _. cbn. apply Hn. }
    cbn [mbind result_bind]. change (LimitIssuer.bound_relation_evaluations key ∘ bound) with (fun q => relation_evaluations key (node q)).
    rewrite (ready_relations _ _ _ _ _ _ _ _ _ Rd). cbn [mbind result_bind]. rewrite (members_ok LimitIssuer.bl_party bound parties t quorum) by done.
    cbn [mbind result_bind]. by rewrite <- list_fmap_compose. }
  eexists. split; [exact Hfirst|]. cbn [fr_statement fr_chosen fr_prepared]. split; [rewrite <- list_fmap_compose; apply list_fmap_id|].
  rewrite Forall_fmap, Forall_forall. intros Hz.
  destruct (ready_rounds _ _ _ _ _ _ _ _ _ Rd quorum context seeds Hq) as (c & a & p & Ec & _ & Ea & Pa & Ep & V & W); [exact Hz|].
  exists p. rewrite (ready_commitment _ _ _ _ _ _ _ _ _ Rd). split; [|done]. unfold issue_limit. rewrite Hfirst.
  cbn [mbind result_bind fr_statement fr_relations fr_chosen fr_prepared].
  rewrite zip_with_fmap_l, zip_with_fmap_r, zip_with_diag, <- !list_fmap_compose. unfold LimitIssuer.challenge, LimitIssuer.assemble.
  change ((fun p => p.1.2) ∘ _) with (fun q => (prepare_range_round1 key (node q) context (seeds q)).1.2).
  change ((fun p => p.1.1.1) ∘ _) with (fun q => (prepare_range_round1 key (node q) context (seeds q)).1.1.1).
  rewrite limit_named; [|done|]. 2:{ intros q _. cbv beta. rewrite ?(proj1 (prepared_parties _ _ _ _)), ?(proj2 (prepared_parties _ _ _ _)). apply Hn. }
  cbn [mbind result_bind]. rewrite limit_named; [|done|]. 2:{ intros q _. cbv beta. rewrite ?(proj1 (prepared_parties _ _ _ _)), ?(proj2 (prepared_parties _ _ _ _)). apply Hn. }
  cbn [mbind result_bind]. rewrite Ec. cbn [mbind result_bind]. rewrite map_res_fmap, (map_res_members _ a) by exact Ea. cbn [mbind result_bind].
  rewrite limit_named by done. cbn [mbind result_bind]. by rewrite Ep.
Qed.
End LimitIssuance.
