(* ===== verification/RoundWire.v ===== *)
(** * The wires of the proof rounds

    [zkpi-committee/src/zkpi_wire.rs], [dvp_wire.rs] and [limit_wire.rs]: the
    envelopes in which the public messages of an issuance travel. *)

From stdpp Require Import pretty.
From S2P Require Import Prelude.
From S2P Require Import Interfaces.
From S2P Require Import Curve.
From S2P Require Import Sigma.
From S2P Require Import Threshold.
From S2P Require Import Gadgets.
From S2P Require Import JointProver.
From S2P Require Import ThresholdRange.
From S2P Require Import Reader.
From S2P Require Import Issuers.

Open Scope N_scope.

(** ** Instruction rounds *)

Module ZkpiWire.

Definition MAGIC : bytes := bstr "QOMMZKPR".
Definition VERSION : N := 1.
Definition MAX_RANGE_BITS : nat := 64.
Definition MAX_PARTIES : nat := 64.

Inductive Error :=
| WrongMagic
| Version (version : N)
| Truncated (name : string)
| MessageType (kind : N)
| Party
| PartyMismatch
| Length
| DuplicateParty
| PointError
| ScalarError
| Trailing (count : nat).

(** The [Display] of an error, which the nesting wires pass on. *)
Definition error_to_string (e : Error) : string :=
  match e with
  | WrongMagic => "wrong threshold-zkPI wire magic"
  | Version v => "unsupported threshold-zkPI wire version " +:+ pretty v
  | Truncated name => "threshold-zkPI message is truncated at " +:+ name
  | MessageType k => "unknown threshold-zkPI message type " +:+ pretty k
  | Party => "party identifier is outside the wire range"
  | PartyMismatch => "amount and price messages name different parties"
  | Length => "threshold-zkPI vector is empty or exceeds its bound"
  | DuplicateParty => "threshold-zkPI quorum contains a duplicate party"
  | PointError => "invalid canonical Ristretto point"
  | ScalarError => "invalid canonical Ristretto scalar"
  | Trailing n => "threshold-zkPI message has " +:+ pretty (N.of_nat n) +:+ " trailing bytes"
  end.

Section Wire.
Context `{G : GroupOps} `{PC : !PointCodec} `{SC : !ScalarCodec}.

Inductive Message :=
| Evaluations (value : Zkpi.ZkpiEvaluations)
| RelationEvaluations (value : Zkpi.ZkpiRelationEvaluations)
| Round1Seal (value : Zkpi.ZkpiRound1Seals)
| Round1 (value : Zkpi.ZkpiRound1)
| Challenge (value : Zkpi.ZkpiChallenge)
| Round2 (value : Zkpi.ZkpiRound2).

Record Envelope := mkEnvelope { e_job_id : bytes; e_message : Message }.

(** *** Encoding *)

Definition party_u16 (party : PartyId) : result Error N :=
  if 65535 <? party then Err Party else if party =? 0 then Err Party else Ok party.

Definition checked_len (length : nat) : result Error N :=
  if (length =? 0)%nat || (MAX_RANGE_BITS <? length)%nat then Err Length
  else if 65535 <? N.of_nat length then Err Length else Ok (N.of_nat length).

Definition put_party (party : PartyId) : result Error bytes := value ← party_u16 party; Ok (be_bytes 2 value).
Definition put_point (point : Point) : bytes := compress point.
Definition put_scalar (scalar : Scalar) : bytes := scalar_to_bytes scalar.

Definition put_evaluations (value : RangeEvaluations) : result Error bytes :=
  party ← put_party (re_party value);
  length ← checked_len (length (re_bits value));
  Ok (party ++ put_point (re_value value) ++ be_bytes 2 length ++ concat (put_point <$> re_bits value)).

Definition put_relations (value : RangeRelationEvaluations) : result Error bytes :=
  party ← put_party (rr_party value);
  length ← checked_len (length (rr_bits value));
  Ok (party ++ be_bytes 2 length ++ concat (put_point <$> rr_bits value)).

Definition put_seal (value : RangeRound1Seal) : result Error bytes :=
  party ← put_party (rse_party value); Ok (party ++ rse_digest value).

Definition put_round1 (value : RangeRound1) : result Error bytes :=
  if negb (length (r1_bit_factor value) =? length (r1_bit_product value))%nat then Err Length
  else
    party ← put_party (r1_party value);
    length ← checked_len (length (r1_bit_factor value));
    Ok (party ++ r1_context_digest value ++ be_bytes 2 length
      ++ concat ((fun '(factor, product) => put_point factor ++ put_point product) <$> zip (r1_bit_factor value) (r1_bit_product value))
      ++ put_point (r1_linkage value)).

(** The loop of [put_quorum]. *)
Fixpoint put_members (unique : gset PartyId) (quorum : list PartyId) : result Error bytes :=
  match quorum with
  | [] => Ok []
  | party :: quorum =>
      if bool_decide (party ∈ unique) then Err DuplicateParty
      else p ← put_party party; rest ← put_members ({[party]} ∪ unique) quorum; Ok (p ++ rest)
  end.

Definition put_quorum (quorum : list PartyId) : result Error bytes :=
  if (length quorum =? 0)%nat || (MAX_PARTIES <? length quorum)%nat then Err Length
  else members ← put_members ∅ quorum; Ok (be_bytes 2 (N.of_nat (length quorum)) ++ members).

Definition put_challenge (value : RangeChallenge) : result Error bytes :=
  if negb (length (rc_bit_factor value) =? length (rc_bit_product value))%nat
     || negb (length (rc_bit_factor value) =? length (rc_bit_challenges value))%nat then Err Length
  else
    quorum ← put_quorum (rc_quorum value);
    length ← checked_len (length (rc_bit_factor value));
    Ok (quorum ++ rc_context_digest value ++ be_bytes 2 length
      ++ concat ((fun '(factor, product, challenge) => put_point factor ++ put_point product ++ put_scalar challenge)
           <$> zip (zip (rc_bit_factor value) (rc_bit_product value)) (rc_bit_challenges value))
      ++ put_point (rc_linkage value) ++ put_scalar (rc_linkage_challenge value)).

Definition put_round2 (value : RangeRound2) : result Error bytes :=
  party ← put_party (r2_party value);
  length ← checked_len (length (r2_bit_answers value));
  Ok (party ++ be_bytes 2 length
    ++ concat ((fun '(value, blinding, relation) => put_scalar value ++ put_scalar blinding ++ put_scalar relation) <$> r2_bit_answers value)
    ++ put_scalar (r2_linkage_answer value).1 ++ put_scalar (r2_linkage_answer value).2).

Definition same_party (outer amount price : PartyId) : result Error unit :=
  if (outer =? amount) && (outer =? price) && negb (outer =? 0) then Ok tt else Err PartyMismatch.

(** A message of one node: its kind, the node, and both parts. *)
Definition put_pair {A} (kind : N) (party : PartyId) (put : A -> result Error bytes) (part_party : A -> PartyId) (amount price : A) :
    result Error bytes :=
  _ ← same_party party (part_party amount) (part_party price);
  p ← put_party party; a ← put amount; b ← put price; Ok ([byte_of_N kind] ++ p ++ a ++ b).

Definition put_message (message : Message) : result Error bytes :=
  match message with
  | Evaluations v => put_pair 1 (Zkpi.ze_party v) put_evaluations re_party (Zkpi.ze_amount v) (Zkpi.ze_price v)
  | RelationEvaluations v => put_pair 2 (Zkpi.zr_party v) put_relations rr_party (Zkpi.zr_amount v) (Zkpi.zr_price v)
  | Round1Seal v => put_pair 3 (Zkpi.zl_party v) put_seal rse_party (Zkpi.zl_amount v) (Zkpi.zl_price v)
  | Round1 v => put_pair 4 (Zkpi.z1_party v) put_round1 r1_party (Zkpi.z1_amount v) (Zkpi.z1_price v)
  | Challenge v =>
      if negb (bool_decide (rc_quorum (Zkpi.zc_amount v) = rc_quorum (Zkpi.zc_price v))) then Err PartyMismatch
      else a ← put_challenge (Zkpi.zc_amount v); b ← put_challenge (Zkpi.zc_price v); Ok ([byte_of_N 5] ++ a ++ b)
  | Round2 v => put_pair 6 (Zkpi.z2_party v) put_round2 r2_party (Zkpi.z2_amount v) (Zkpi.z2_price v)
  end.

Definition encode (envelope : Envelope) : result Error bytes :=
  message ← put_message (e_message envelope);
  Ok (MAGIC ++ be_bytes 2 VERSION ++ e_job_id envelope ++ message).

(** *** Decoding *)

Definition take (count : nat) (name : string) : bytes -> result Error (bytes * bytes) := read_take (fun _ => Truncated name) count.
Definition u8 (name : string) : bytes -> result Error (N * bytes) := read_be (fun _ => Truncated name) 1.
Definition u16 (name : string) : bytes -> result Error (N * bytes) := read_be (fun _ => Truncated name) 2.
Definition id (name : string) : bytes -> result Error (bytes * bytes) := take 32 name.
Definition point : bytes -> result Error (Point * bytes) := read_with (fun _ => Truncated "point") 32 decompress PointError.
Definition scalar : bytes -> result Error (Scalar * bytes) := read_with (fun _ => Truncated "scalar") 32 scalar_from_canonical ScalarError.

Definition party (r : bytes) : result Error (PartyId * bytes) :=
  '(value, r) ← u16 "party" r; if value =? 0 then Err Party else Ok (value, r).

Definition len (max : nat) (r : bytes) : result Error (nat * bytes) :=
  '(value, r) ← u16 "length" r;
  if (N.to_nat value =? 0)%nat || (max <? N.to_nat value)%nat then Err Length else Ok (N.to_nat value, r).

Definition evaluations (r : bytes) : result Error (RangeEvaluations * bytes) :=
  '(p, r) ← party r;
  '(value, r) ← point r;
  '(count, r) ← len MAX_RANGE_BITS r;
  '(bits, r) ← read_times count point r;
  Ok (mkRangeEvaluations p value bits, r).

Definition relations (r : bytes) : result Error (RangeRelationEvaluations * bytes) :=
  '(p, r) ← party r;
  '(count, r) ← len MAX_RANGE_BITS r;
  '(bits, r) ← read_times count point r;
  Ok (mkRangeRelationEvaluations p bits, r).

Definition seal (r : bytes) : result Error (RangeRound1Seal * bytes) :=
  '(p, r) ← party r; '(digest, r) ← id "seal" r; Ok (mkRangeRound1Seal p digest, r).

(** The bodies of the loops of [round1], [challenge] and [round2]. *)
Definition point_pair (r : bytes) : result Error (Point * Point * bytes) :=
  '(factor, r) ← point r; '(product, r) ← point r; Ok (factor, product, r).
Definition bit_entry (r : bytes) : result Error (Point * Point * Scalar * bytes) :=
  '(factor, r) ← point r; '(product, r) ← point r; '(challenge, r) ← scalar r; Ok (factor, product, challenge, r).
Definition answer_entry (r : bytes) : result Error (Scalar * Scalar * Scalar * bytes) :=
  '(value, r) ← scalar r; '(blinding, r) ← scalar r; '(relation, r) ← scalar r; Ok (value, blinding, relation, r).

Definition round1 (r : bytes) : result Error (RangeRound1 * bytes) :=
  '(p, r) ← party r;
  '(context_digest, r) ← id "context digest" r;
  '(count, r) ← len MAX_RANGE_BITS r;
  '(pairs, r) ← read_times count point_pair r;
  '(linkage, r) ← point r;
  Ok (mkRangeRound1 p context_digest pairs.*1 pairs.*2 linkage, r).

Fixpoint members (count : nat) (unique : gset PartyId) (r : bytes) : result Error (list PartyId * bytes) :=
  match count with
  | O => Ok ([], r)
  | S count =>
      '(p, r) ← party r;
      if bool_decide (p ∈ unique) then Err DuplicateParty
      else '(quorum, r) ← members count ({[p]} ∪ unique) r; Ok (p :: quorum, r)
  end.

Definition quorum (r : bytes) : result Error (list PartyId * bytes) := '(count, r) ← len MAX_PARTIES r; members count ∅ r.

Definition challenge (r : bytes) : result Error (RangeChallenge * bytes) :=
  '(q, r) ← quorum r;
  '(context_digest, r) ← id "context digest" r;
  '(count, r) ← len MAX_RANGE_BITS r;
  '(entries, r) ← read_times count bit_entry r;
  '(linkage, r) ← point r;
  '(linkage_challenge, r) ← scalar r;
  Ok (mkRangeChallenge q context_digest entries.*1.*1 entries.*1.*2 entries.*2 linkage linkage_challenge, r).

Definition round2 (r : bytes) : result Error (RangeRound2 * bytes) :=
  '(p, r) ← party r;
  '(count, r) ← len MAX_RANGE_BITS r;
  '(bit_answers, r) ← read_times count answer_entry r;
  '(value, r) ← scalar r;
  '(blinding, r) ← scalar r;
  Ok (mkRangeRound2 p bit_answers (value, blinding), r).

(** A message of one node, its parts read by [part]. *)
Definition pair_of {A B} (part : bytes -> result Error (A * bytes)) (part_party : A -> PartyId) (make : PartyId -> A -> A -> B) (r : bytes) :
    result Error (B * bytes) :=
  '(p, r) ← party r;
  '(amount, r) ← part r;
  '(price, r) ← part r;
  _ ← same_party p (part_party amount) (part_party price);
  Ok (make p amount price, r).

Definition message_of (kind : N) (r : bytes) : result Error (Message * bytes) :=
  match kind with
  | 1 => '(v, r) ← pair_of evaluations re_party Zkpi.mkZkpiEvaluations r; Ok (Evaluations v, r)
  | 2 => '(v, r) ← pair_of relations rr_party Zkpi.mkZkpiRelationEvaluations r; Ok (RelationEvaluations v, r)
  | 3 => '(v, r) ← pair_of seal rse_party Zkpi.mkZkpiRound1Seals r; Ok (Round1Seal v, r)
  | 4 => '(v, r) ← pair_of round1 r1_party Zkpi.mkZkpiRound1 r; Ok (Round1 v, r)
  | 5 =>
      '(amount, r) ← challenge r;
      '(price, r) ← challenge r;
      if negb (bool_decide (rc_quorum amount = rc_quorum price)) then Err PartyMismatch
      else Ok (Challenge (Zkpi.mkZkpiChallenge amount price), r)
  | 6 => '(v, r) ← pair_of round2 r2_party Zkpi.mkZkpiRound2 r; Ok (Round2 v, r)
  | other => Err (MessageType other)
  end.

Definition envelope_of (r : bytes) : result Error (Envelope * bytes) :=
  '(magic, r) ← take 8 "magic" r;
  if negb (bool_decide (magic = MAGIC)) then Err WrongMagic
  else
    '(version, r) ← u16 "version" r;
    if negb (version =? VERSION) then Err (Version version)
    else
      '(job_id, r) ← id "job id" r;
      '(kind, r) ← u8 "message type" r;
      '(message, r) ← message_of kind r;
      Ok (mkEnvelope job_id message, r).

Definition decode (raw : bytes) : result Error Envelope := finish Trailing envelope_of raw.
End Wire.
End ZkpiWire.

(** ** Delivery-versus-payment rounds *)

Module DvpWire.

Definition MAGIC : bytes := bstr "QOMMDVPR".
Definition VERSION : N := 1.
Definition MAX_INNER_BYTES : N := N.shiftl 1 20.
Definition MAX_PARTIES : nat := 64.

Inductive Error :=
| WrongMagic
| Version (version : N)
| Truncated (name : string)
| MessageType (kind : N)
| Party
| Inner (error : string)
| InnerType
| PartyMismatch
| Quorum
| PointError
| ScalarError
| Length
| Trailing (count : nat).

Section Wire.
Context `{G : GroupOps} `{PC : !PointCodec} `{SC : !ScalarCodec}.

Inductive Message :=
| Evaluations (value : DvpIssuer.DvpEvaluations)
| RelationEvaluations (value : DvpIssuer.DvpRelationEvaluations)
| Round1Seal (value : DvpIssuer.DvpRound1Seals)
| Round1 (value : DvpIssuer.DvpRound1)
| Challenge (value : DvpIssuer.DvpChallenge)
| Round2 (value : DvpIssuer.DvpRound2).

Record Envelope := mkEnvelope { e_job_id : bytes; e_message : Message }.

(** *** Encoding *)

Definition put_party (party : PartyId) : result Error bytes :=
  if 65535 <? party then Err Party else if party =? 0 then Err Party else Ok (be_bytes 2 party).
Definition put_point (point : Point) : bytes := compress point.
Definition put_scalar (scalar : Scalar) : bytes := scalar_to_bytes scalar.

Definition put_inner (job_id : bytes) (message : ZkpiWire.Message) : result Error bytes :=
  raw ← map_err (fun e => Inner (ZkpiWire.error_to_string e)) (ZkpiWire.encode (ZkpiWire.mkEnvelope job_id message));
  if MAX_INNER_BYTES <? N.of_nat (length raw) then Err Length
  else Ok (be_bytes 4 (N.of_nat (length raw)) ++ raw).

Definition same_party (parties : list PartyId) : result Error PartyId :=
  match parties with
  | [] => Err Party
  | first :: _ => if (first =? 0) || existsb (fun party => negb (party =? first)) parties then Err PartyMismatch else Ok first
  end.

(** The loop over the product's quorum. *)
Fixpoint put_members (seen : gset PartyId) (quorum : list PartyId) : result Error bytes :=
  match quorum with
  | [] => Ok []
  | party :: quorum =>
      if bool_decide (party ∈ seen) then Err Quorum
      else p ← put_party party; rest ← put_members ({[party]} ∪ seen) quorum; Ok (p ++ rest)
  end.

Definition put_message (job_id : bytes) (message : Message) : result Error bytes :=
  match message with
  | Evaluations v =>
      let product := DvpIssuer.de_product v in
      _ ← same_party [DvpIssuer.de_party v; pe_party product; re_party (DvpIssuer.de_securities v); re_party (DvpIssuer.de_cash v)];
      inner ← put_inner job_id (ZkpiWire.Evaluations (Zkpi.mkZkpiEvaluations (DvpIssuer.de_party v) (DvpIssuer.de_securities v) (DvpIssuer.de_cash v)));
      p ← put_party (pe_party product);
      Ok ([byte_of_N 1] ++ inner ++ p ++ put_point (pe_factor product) ++ put_point (pe_relation product))
  | RelationEvaluations v =>
      _ ← same_party [DvpIssuer.dr_party v; rr_party (DvpIssuer.dr_securities v); rr_party (DvpIssuer.dr_cash v)];
      inner ← put_inner job_id (ZkpiWire.RelationEvaluations
        (Zkpi.mkZkpiRelationEvaluations (DvpIssuer.dr_party v) (DvpIssuer.dr_securities v) (DvpIssuer.dr_cash v)));
      Ok ([byte_of_N 2] ++ inner)
  | Round1Seal v =>
      let product := DvpIssuer.dl_product v in
      _ ← same_party [DvpIssuer.dl_party v; pse_party product; rse_party (DvpIssuer.dl_securities v); rse_party (DvpIssuer.dl_cash v)];
      inner ← put_inner job_id (ZkpiWire.Round1Seal (Zkpi.mkZkpiRound1Seals (DvpIssuer.dl_party v) (DvpIssuer.dl_securities v) (DvpIssuer.dl_cash v)));
      p ← put_party (pse_party product);
      Ok ([byte_of_N 3] ++ inner ++ p ++ pse_digest product)
  | Round1 v =>
      let product := DvpIssuer.d1_product v in
      _ ← same_party [DvpIssuer.d1_party v; p1_party product; r1_party (DvpIssuer.d1_securities v); r1_party (DvpIssuer.d1_cash v)];
      inner ← put_inner job_id (ZkpiWire.Round1 (Zkpi.mkZkpiRound1 (DvpIssuer.d1_party v) (DvpIssuer.d1_securities v) (DvpIssuer.d1_cash v)));
      p ← put_party (p1_party product);
      Ok ([byte_of_N 4] ++ inner ++ p ++ p1_context_digest product ++ put_point (p1_factor product) ++ put_point (p1_product product))
  | Challenge v =>
      let product := DvpIssuer.dc_product v in
      if negb (bool_decide (rc_quorum (DvpIssuer.dc_securities v) = rc_quorum (DvpIssuer.dc_cash v)))
         || negb (bool_decide (pch_quorum product = rc_quorum (DvpIssuer.dc_securities v))) then Err PartyMismatch
      else
        inner ← put_inner job_id (ZkpiWire.Challenge (Zkpi.mkZkpiChallenge (DvpIssuer.dc_securities v) (DvpIssuer.dc_cash v)));
        if (length (pch_quorum product) =? 0)%nat || (MAX_PARTIES <? length (pch_quorum product))%nat then Err Quorum
        else
          members ← put_members ∅ (pch_quorum product);
          Ok ([byte_of_N 5] ++ inner ++ be_bytes 2 (N.of_nat (length (pch_quorum product))) ++ members ++ pch_context_digest product
            ++ put_point (pch_factor product) ++ put_point (pch_product product) ++ put_scalar (pch_challenge product))
  | Round2 v =>
      let product := DvpIssuer.d2_product v in
      _ ← same_party [DvpIssuer.d2_party v; p2_party product; r2_party (DvpIssuer.d2_securities v); r2_party (DvpIssuer.d2_cash v)];
      inner ← put_inner job_id (ZkpiWire.Round2 (Zkpi.mkZkpiRound2 (DvpIssuer.d2_party v) (DvpIssuer.d2_securities v) (DvpIssuer.d2_cash v)));
      p ← put_party (p2_party product);
      Ok ([byte_of_N 6] ++ inner ++ p ++ put_scalar (p2_factor_answer product) ++ put_scalar (p2_factor_blinding_answer product)
        ++ put_scalar (p2_relation_answer product))
  end.

Definition encode (envelope : Envelope) : result Error bytes :=
  message ← put_message (e_job_id envelope) (e_message envelope);
  Ok (MAGIC ++ be_bytes 2 VERSION ++ e_job_id envelope ++ message).

(** *** Decoding *)

Definition take (count : nat) (name : string) : bytes -> result Error (bytes * bytes) := read_take (fun _ => Truncated name) count.
Definition u8 (name : string) : bytes -> result Error (N * bytes) := read_be (fun _ => Truncated name) 1.
Definition u16 (name : string) : bytes -> result Error (N * bytes) := read_be (fun _ => Truncated name) 2.
Definition u32 (name : string) : bytes -> result Error (N * bytes) := read_be (fun _ => Truncated name) 4.
Definition id (name : string) : bytes -> result Error (bytes * bytes) := take 32 name.
Definition point : bytes -> result Error (Point * bytes) := read_with (fun _ => Truncated "point") 32 decompress PointError.
Definition scalar : bytes -> result Error (Scalar * bytes) := read_with (fun _ => Truncated "scalar") 32 scalar_from_canonical ScalarError.

Definition party (r : bytes) : result Error (PartyId * bytes) :=
  '(value, r) ← u16 "party" r; if value =? 0 then Err Party else Ok (value, r).

Definition inner (job_id r : bytes) : result Error (ZkpiWire.Message * bytes) :=
  '(length, r) ← u32 "nested range length" r;
  if (length =? 0) || (MAX_INNER_BYTES <? length) then Err Length
  else
    '(raw, r) ← take (N.to_nat length) "nested range message" r;
    inner ← map_err (fun e => Inner (ZkpiWire.error_to_string e)) (ZkpiWire.decode raw);
    if negb (bool_decide (ZkpiWire.e_job_id inner = job_id)) then Err PartyMismatch
    else Ok (ZkpiWire.e_message inner, r).

Definition product_evaluations (r : bytes) : result Error (ProductEvaluations * bytes) :=
  '(p, r) ← party r; '(factor, r) ← point r; '(relation, r) ← point r; Ok (mkProductEvaluations p factor relation, r).

Definition product_seal (r : bytes) : result Error (ProductRound1Seal * bytes) :=
  '(p, r) ← party r; '(digest, r) ← id "product seal" r; Ok (mkProductRound1Seal p digest, r).

Definition product_round1 (r : bytes) : result Error (ProductRound1 * bytes) :=
  '(p, r) ← party r; '(context_digest, r) ← id "product context" r; '(factor, r) ← point r; '(product, r) ← point r;
  Ok (mkProductRound1 p context_digest factor product, r).

Fixpoint members (count : nat) (seen : gset PartyId) (r : bytes) : result Error (list PartyId * bytes) :=
  match count with
  | O => Ok ([], r)
  | S count =>
      '(p, r) ← party r;
      if bool_decide (p ∈ seen) then Err Quorum
      else '(quorum, r) ← members count ({[p]} ∪ seen) r; Ok (p :: quorum, r)
  end.

Definition product_challenge (r : bytes) : result Error (ProductChallenge * bytes) :=
  '(count, r) ← u16 "product quorum length" r;
  if (N.to_nat count =? 0)%nat || (MAX_PARTIES <? N.to_nat count)%nat then Err Quorum
  else
    '(quorum, r) ← members (N.to_nat count) ∅ r;
    '(context_digest, r) ← id "product context" r;
    '(factor, r) ← point r;
    '(product, r) ← point r;
    '(challenge, r) ← scalar r;
    Ok (mkProductChallenge quorum context_digest factor product challenge, r).

Definition product_round2 (r : bytes) : result Error (ProductRound2 * bytes) :=
  '(p, r) ← party r; '(factor, r) ← scalar r; '(blinding, r) ← scalar r; '(relation, r) ← scalar r;
  Ok (mkProductRound2 p factor blinding relation, r).

(** The match of the kind and the nested message. *)
Definition message_of (kind : N) (message : ZkpiWire.Message) (r : bytes) : result Error (Message * bytes) :=
  match kind, message with
  | 1, ZkpiWire.Evaluations v =>
      '(product, r) ← product_evaluations r;
      _ ← same_party [Zkpi.ze_party v; re_party (Zkpi.ze_amount v); re_party (Zkpi.ze_price v); pe_party product];
      Ok (Evaluations (DvpIssuer.mkDvpEvaluations (Zkpi.ze_party v) product (Zkpi.ze_amount v) (Zkpi.ze_price v)), r)
  | 2, ZkpiWire.RelationEvaluations v =>
      _ ← same_party [Zkpi.zr_party v; rr_party (Zkpi.zr_amount v); rr_party (Zkpi.zr_price v)];
      Ok (RelationEvaluations (DvpIssuer.mkDvpRelationEvaluations (Zkpi.zr_party v) (Zkpi.zr_amount v) (Zkpi.zr_price v)), r)
  | 3, ZkpiWire.Round1Seal v =>
      '(product, r) ← product_seal r;
      _ ← same_party [Zkpi.zl_party v; rse_party (Zkpi.zl_amount v); rse_party (Zkpi.zl_price v); pse_party product];
      Ok (Round1Seal (DvpIssuer.mkDvpRound1Seals (Zkpi.zl_party v) product (Zkpi.zl_amount v) (Zkpi.zl_price v)), r)
  | 4, ZkpiWire.Round1 v =>
      '(product, r) ← product_round1 r;
      _ ← same_party [Zkpi.z1_party v; r1_party (Zkpi.z1_amount v); r1_party (Zkpi.z1_price v); p1_party product];
      Ok (Round1 (DvpIssuer.mkDvpRound1 (Zkpi.z1_party v) product (Zkpi.z1_amount v) (Zkpi.z1_price v)), r)
  | 5, ZkpiWire.Challenge v =>
      '(product, r) ← product_challenge r;
      if negb (bool_decide (rc_quorum (Zkpi.zc_amount v) = rc_quorum (Zkpi.zc_price v)))
         || negb (bool_decide (pch_quorum product = rc_quorum (Zkpi.zc_amount v))) then Err PartyMismatch
      else Ok (Challenge (DvpIssuer.mkDvpChallenge product (Zkpi.zc_amount v) (Zkpi.zc_price v)), r)
  | 6, ZkpiWire.Round2 v =>
      '(product, r) ← product_round2 r;
      _ ← same_party [Zkpi.z2_party v; r2_party (Zkpi.z2_amount v); r2_party (Zkpi.z2_price v); p2_party product];
      Ok (Round2 (DvpIssuer.mkDvpRound2 (Zkpi.z2_party v) product (Zkpi.z2_amount v) (Zkpi.z2_price v)), r)
  | other, _ => if (1 <=? other) && (other <=? 6) then Err InnerType else Err (MessageType other)
  end.

Definition envelope_of (r : bytes) : result Error (Envelope * bytes) :=
  '(magic, r) ← take 8 "magic" r;
  if negb (bool_decide (magic = MAGIC)) then Err WrongMagic
  else
    '(version, r) ← u16 "version" r;
    if negb (version =? VERSION) then Err (Version version)
    else
      '(job_id, r) ← id "job id" r;
      '(kind, r) ← u8 "message type" r;
      '(nested, r) ← inner job_id r;
      '(message, r) ← message_of kind nested r;
      Ok (mkEnvelope job_id message, r).

Definition decode (raw : bytes) : result Error Envelope := finish Trailing envelope_of raw.
End Wire.
End DvpWire.

(** ** Hidden-limit rounds *)

Module LimitWire.
Section Wire.
Context `{G : GroupOps} `{PC : !PointCodec} `{SC : !ScalarCodec}.

Inductive Message :=
| Evaluations (value : RangeEvaluations)
| RelationEvaluations (value : RangeRelationEvaluations)
| Round1Seal (value : RangeRound1Seal)
| Round1 (value : RangeRound1)
| Challenge (value : RangeChallenge)
| Round2 (value : RangeRound2).

Record Envelope := mkEnvelope { e_job_id : bytes; e_message : Message }.

Definition point_eq (left right : Point) : bool := bool_decide (compress left = compress right).

(** [len] equal and [iter().zip().all(point_eq)]. *)
Definition points_eq (left right : list Point) : bool :=
  (length left =? length right)%nat && forallb (fun '(a, b) => point_eq a b) (zip left right).

Definition evaluations_eq (left right : RangeEvaluations) : bool :=
  (re_party left =? re_party right) && point_eq (re_value left) (re_value right) && points_eq (re_bits left) (re_bits right).

Definition relations_eq (left right : RangeRelationEvaluations) : bool :=
  (rr_party left =? rr_party right) && points_eq (rr_bits left) (rr_bits right).

Definition round1_eq (left right : RangeRound1) : bool :=
  (r1_party left =? r1_party right) && bool_decide (r1_context_digest left = r1_context_digest right)
  && points_eq (r1_bit_factor left) (r1_bit_factor right) && points_eq (r1_bit_product left) (r1_bit_product right)
  && point_eq (r1_linkage left) (r1_linkage right).

Definition challenge_eq (left right : RangeChallenge) : bool :=
  bool_decide (rc_quorum left = rc_quorum right) && bool_decide (rc_context_digest left = rc_context_digest right)
  && bool_decide (rc_bit_challenges left = rc_bit_challenges right)
  && points_eq (rc_bit_factor left) (rc_bit_factor right) && points_eq (rc_bit_product left) (rc_bit_product right)
  && point_eq (rc_linkage left) (rc_linkage right) && bool_decide (rc_linkage_challenge left = rc_linkage_challenge right).

Definition round2_eq (left right : RangeRound2) : bool :=
  (r2_party left =? r2_party right) && bool_decide (r2_bit_answers left = r2_bit_answers right)
  && bool_decide (r2_linkage_answer left = r2_linkage_answer right).

Definition seal_eq (left right : RangeRound1Seal) : bool :=
  (rse_party left =? rse_party right) && bool_decide (rse_digest left = rse_digest right).

(** The message with its range in both places. *)
Definition duplicated (message : Message) : ZkpiWire.Message :=
  match message with
  | Evaluations v => ZkpiWire.Evaluations (Zkpi.mkZkpiEvaluations (re_party v) v v)
  | RelationEvaluations v => ZkpiWire.RelationEvaluations (Zkpi.mkZkpiRelationEvaluations (rr_party v) v v)
  | Round1Seal v => ZkpiWire.Round1Seal (Zkpi.mkZkpiRound1Seals (rse_party v) v v)
  | Round1 v => ZkpiWire.Round1 (Zkpi.mkZkpiRound1 (r1_party v) v v)
  | Challenge v => ZkpiWire.Challenge (Zkpi.mkZkpiChallenge v v)
  | Round2 v => ZkpiWire.Round2 (Zkpi.mkZkpiRound2 (r2_party v) v v)
  end.

Definition encode (envelope : Envelope) : result string bytes :=
  map_err ZkpiWire.error_to_string (ZkpiWire.encode (ZkpiWire.mkEnvelope (e_job_id envelope) (duplicated (e_message envelope)))).

(** The match of the nested message, [None] for copies that disagree. *)
Definition single (message : ZkpiWire.Message) : option Message :=
  match message with
  | ZkpiWire.Evaluations v => if evaluations_eq (Zkpi.ze_amount v) (Zkpi.ze_price v) then Some (Evaluations (Zkpi.ze_amount v)) else None
  | ZkpiWire.RelationEvaluations v =>
      if relations_eq (Zkpi.zr_amount v) (Zkpi.zr_price v) then Some (RelationEvaluations (Zkpi.zr_amount v)) else None
  | ZkpiWire.Round1Seal v => if seal_eq (Zkpi.zl_amount v) (Zkpi.zl_price v) then Some (Round1Seal (Zkpi.zl_amount v)) else None
  | ZkpiWire.Round1 v => if round1_eq (Zkpi.z1_amount v) (Zkpi.z1_price v) then Some (Round1 (Zkpi.z1_amount v)) else None
  | ZkpiWire.Challenge v => if challenge_eq (Zkpi.zc_amount v) (Zkpi.zc_price v) then Some (Challenge (Zkpi.zc_amount v)) else None
  | ZkpiWire.Round2 v => if round2_eq (Zkpi.z2_amount v) (Zkpi.z2_price v) then Some (Round2 (Zkpi.z2_amount v)) else None
  end.

Definition decode (raw : bytes) : result string Envelope :=
  nested ← map_err ZkpiWire.error_to_string (ZkpiWire.decode raw);
  message ← ok_or (single (ZkpiWire.e_message nested)) "hidden-limit wire copies disagree";
  Ok (mkEnvelope (ZkpiWire.e_job_id nested) message).
End Wire.
End LimitWire.
