(* ===== verification/RoundWireProofs.v ===== *)
(** * What the wires of the proof rounds guarantee

    A decoder accepts exactly what its encoder writes: every message has one
    representation, of one job, and nothing follows it. *)

From stdpp Require Import pretty.
From S2P Require Import Prelude.
From S2P Require Import Interfaces.
From S2P Require Import Curve.
From S2P Require Import Sigma.
From S2P Require Import Threshold.
From S2P Require Import Gadgets.
From S2P Require Import JointProver.
From S2P Require Import ThresholdRange.
From S2P Require Import Reader.
From S2P Require Import Issuers.
From S2P Require Import RoundWire.

Open Scope nat_scope.

(** What crosses the wires. *)
Definition party_ok (q : PartyId) : Prop := q <> 0%N /\ (q < 65536)%N.
Definition width_ok {A} (l : list A) : Prop := 0 < length l <= 64.
Definition quorum_ok (q : list PartyId) : Prop := width_ok q /\ NoDup q /\ Forall party_ok q.
Definition digest_ok (b : bytes) : Prop := length b = 32.
Definition party_bytes (q : PartyId) : bytes := be_bytes 2 q.
Definition counted {A} (encoding : A -> bytes) (l : list A) : bytes := be_bytes 2 (N.of_nat (length l)) ++ concat (encoding <$> l).

Lemma u16_small x : (x < 256 ^ N.of_nat 2)%N <-> (x < 65536)%N.
Proof. done. Qed.

Lemma zip_fst_snd {A B} (l : list (A * B)) : zip l.*1 l.*2 = l.
Proof. induction l as [|[a b] l IH]; [done|]. cbn. by rewrite IH. Qed.

Lemma fst_zip_eq {A B} (l : list A) (k : list B) : length l = length k -> (zip l k).*1 = l.
Proof. intros Hl. apply fst_zip. lia. Qed.
Lemma snd_zip_eq {A B} (l : list A) (k : list B) : length l = length k -> (zip l k).*2 = k.
Proof. intros Hl. apply snd_zip. lia. Qed.

Section Zkpi.
Context `{G : GroupOps} `{PC : !PointCodec} `{SC : !ScalarCodec} `{PL : !PointCodecLaws} `{SL : !ScalarCodecLaws}.
Import ZkpiWire.

(** ** The parts of an instruction's messages *)

Definition evaluations_ok (v : RangeEvaluations) : Prop := party_ok (re_party v) /\ width_ok (re_bits v).
Definition evaluations_bytes (v : RangeEvaluations) : bytes := party_bytes (re_party v) ++ compress (re_value v) ++ counted compress (re_bits v).
Definition relations_ok (v : RangeRelationEvaluations) : Prop := party_ok (rr_party v) /\ width_ok (rr_bits v).
Definition relations_bytes (v : RangeRelationEvaluations) : bytes := party_bytes (rr_party v) ++ counted compress (rr_bits v).
Definition seal_ok (v : RangeRound1Seal) : Prop := party_ok (rse_party v).
Definition seal_bytes (v : RangeRound1Seal) : bytes := party_bytes (rse_party v) ++ rse_digest v.
Definition pair_bytes (p : Point * Point) : bytes := compress p.1 ++ compress p.2.
Definition round1_ok (v : RangeRound1) : Prop :=
  party_ok (r1_party v) /\ width_ok (r1_bit_factor v) /\ length (r1_bit_factor v) = length (r1_bit_product v).
Definition round1_bytes (v : RangeRound1) : bytes :=
  party_bytes (r1_party v) ++ r1_context_digest v ++ be_bytes 2 (N.of_nat (length (r1_bit_factor v)))
  ++ concat (pair_bytes <$> zip (r1_bit_factor v) (r1_bit_product v)) ++ compress (r1_linkage v).
Definition entry_bytes (p : Point * Point * Scalar) : bytes := compress p.1.1 ++ compress p.1.2 ++ scalar_to_bytes p.2.
Definition quorum_bytes (q : list PartyId) : bytes := counted party_bytes q.
Definition challenge_ok (v : RangeChallenge) : Prop :=
  quorum_ok (rc_quorum v) /\ width_ok (rc_bit_factor v) /\ length (rc_bit_factor v) = length (rc_bit_product v)
  /\ length (rc_bit_factor v) = length (rc_bit_challenges v).
Definition challenge_bytes (v : RangeChallenge) : bytes :=
  quorum_bytes (rc_quorum v) ++ rc_context_digest v ++ be_bytes 2 (N.of_nat (length (rc_bit_factor v)))
  ++ concat (entry_bytes <$> zip (zip (rc_bit_factor v) (rc_bit_product v)) (rc_bit_challenges v))
  ++ compress (rc_linkage v) ++ scalar_to_bytes (rc_linkage_challenge v).
Definition answer_bytes (p : Scalar * Scalar * Scalar) : bytes := scalar_to_bytes p.1.1 ++ scalar_to_bytes p.1.2 ++ scalar_to_bytes p.2.
Definition round2_ok (v : RangeRound2) : Prop := party_ok (r2_party v) /\ width_ok (r2_bit_answers v).
Definition round2_bytes (v : RangeRound2) : bytes :=
  party_bytes (r2_party v) ++ counted answer_bytes (r2_bit_answers v)
  ++ scalar_to_bytes (r2_linkage_answer v).1 ++ scalar_to_bytes (r2_linkage_answer v).2.

(** *** Writers *)

Lemma writes_party : writes put_party party_ok party_bytes.
Proof.
  intros q b. unfold put_party, party_u16, party_ok. destruct (N.ltb_spec 65535 q) as [Hq|Hq]; [split; [done|lia]|].
  destruct (N.eqb_spec q 0) as [->|H0']; [split; [done|lia]|]. cbn. split; [intros [= <-]; split; [lia|done] | by intros [_ ->]].
Qed.

Lemma checked_len_ok {A} (l : list A) n : checked_len (length l) = Ok n <-> width_ok l /\ n = N.of_nat (length l).
Proof.
  unfold checked_len, width_ok, MAX_RANGE_BITS. destruct (Nat.eqb_spec (length l) 0); [split; [done|lia]|].
  destruct (Nat.ltb_spec 64 (length l)); [split; [done|lia]|]. cbn [orb]. rewrite (proj2 (N.ltb_ge _ _)) by lia.
  split; [intros [= <-]; split; [lia|done] | by intros [_ ->]].
Qed.

Lemma len_bind {A B} (l : list A) (k : N -> result Error B) v :
  (n ← checked_len (length l); k n) = Ok v <-> width_ok l /\ k (N.of_nat (length l)) = Ok v.
Proof.
  rewrite bind_ok. split.
  - intros (n & Hn & Hk). by apply checked_len_ok in Hn as [? ->].
  - intros [Hl Hk]. eexists. split; [by apply checked_len_ok | done].
Qed.

Lemma writes_evaluations : writes put_evaluations evaluations_ok evaluations_bytes.
Proof.
  intros v b. unfold put_evaluations, evaluations_ok. rewrite (writes_bind _ _ _ _ _ _ writes_party), len_bind.
  split; [intros (? & ? & [= <-]); done | intros [[? ?] ->]; done].
Qed.

Lemma writes_relations : writes put_relations relations_ok relations_bytes.
Proof.
  intros v b. unfold put_relations, relations_ok. rewrite (writes_bind _ _ _ _ _ _ writes_party), len_bind.
  split; [intros (? & ? & [= <-]); done | intros [[? ?] ->]; done].
Qed.

Lemma writes_seal : writes put_seal seal_ok seal_bytes.
Proof.
  intros v b. unfold put_seal, seal_ok. rewrite (writes_bind _ _ _ _ _ _ writes_party).
  split; [intros (? & [= <-]); done | intros [? ->]; done].
Qed.

Lemma concat_pairs (l : list (Point * Point)) :
  concat ((fun '(factor, product) => put_point factor ++ put_point product) <$> l) = concat (pair_bytes <$> l).
Proof. f_equal. apply list_fmap_ext. by intros ? [? ?] _. Qed.
Lemma concat_entries (l : list (Point * Point * Scalar)) :
  concat ((fun '(factor, product, challenge) => put_point factor ++ put_point product ++ put_scalar challenge) <$> l) = concat (entry_bytes <$> l).
Proof. f_equal. apply list_fmap_ext. by intros ? [[? ?] ?] _. Qed.
Lemma concat_answers (l : list (Scalar * Scalar * Scalar)) :
  concat ((fun '(value, blinding, relation) => put_scalar value ++ put_scalar blinding ++ put_scalar relation) <$> l) = concat (answer_bytes <$> l).
Proof. f_equal. apply list_fmap_ext. by intros ? [[? ?] ?] _. Qed.

Lemma writes_round1 : writes put_round1 round1_ok round1_bytes.
Proof.
  intros v b. unfold put_round1, round1_ok. rewrite if_err_ok, negb_false_iff, Nat.eqb_eq, (writes_bind _ _ _ _ _ _ writes_party), len_bind, concat_pairs.
  split; [intros (? & ? & ? & [= <-]); done | intros [(? & ? & ?) ->]; done].
Qed.

Lemma writes_members : forall seen, writes (put_members seen)
  (fun q => NoDup q /\ Forall party_ok q /\ Forall (fun p => p ∉ seen) q) (fun q => concat (party_bytes <$> q)).
Proof.
  intros seen q. revert seen. induction q as [|p q IH]; intros seen b; cbn [put_members].
  { split; [intros [= <-]; split; [by split; [constructor|]|done] | by intros [_ ->]]. }
  rewrite if_err_ok, bool_decide_eq_false, (writes_bind _ _ _ _ _ _ writes_party), bind_ok, NoDup_cons, !Forall_cons. split.
  - intros (Hp & Hok & rest & Hr & [= <-]). apply IH in Hr as [(Hnd & Hv & Hs) ->]. rewrite Forall_forall in Hs.
    split; [|done]. split_and!; try done; [set_solver|]. apply Forall_forall. set_solver.
  - intros [([Hp Hnd] & [Hok Hv] & [Hs Hss]) ->]. split; [done|]. split; [done|]. eexists. split; [|done]. apply IH. split; [|done].
    split_and!; try done. rewrite Forall_forall in Hss |- *. set_solver.
Qed.

Lemma writes_quorum : writes put_quorum quorum_ok quorum_bytes.
Proof.
  intros q b. unfold put_quorum, quorum_ok, width_ok, MAX_PARTIES. rewrite if_err_ok, orb_false_iff, Nat.eqb_neq, Nat.ltb_ge, (writes_bind _ _ _ _ _ _ (writes_members ∅)).
  split.
  - intros (? & (? & ? & _) & [= <-]). split; [split_and!; try done; lia|done].
  - intros [(? & ? & ?) ->]. split_and!; try done; try lia. apply Forall_forall. set_solver.
Qed.

Lemma writes_challenge : writes put_challenge challenge_ok challenge_bytes.
Proof.
  intros v b. unfold put_challenge, challenge_ok.
  rewrite if_err_ok, orb_false_iff, !negb_false_iff, !Nat.eqb_eq, (writes_bind _ _ _ _ _ _ writes_quorum), len_bind, concat_entries.
  split; [intros ((? & ?) & ? & ? & [= <-]); done | intros [(? & ? & ? & ?) ->]; done].
Qed.

Lemma writes_round2 : writes put_round2 round2_ok round2_bytes.
Proof.
  intros v b. unfold put_round2, round2_ok, round2_bytes, counted. rewrite (writes_bind _ _ _ _ _ _ writes_party), len_bind, concat_answers, <- !app_assoc.
  split; [intros (? & ? & [= <-]); done | intros [[? ?] ->]; done].
Qed.
(** *** Readers *)

Ltac wire_run := read_run_with ltac:(first [done | split; [done | by apply Forall_true]]).

#[local] Instance reads_u16 name : reads (u16 name) (fun x => x < 65536)%N (be_bytes 2) := reads_be _ 2.
#[local] Instance reads_u8 name : reads (u8 name) (fun x => x < 256)%N (be_bytes 1) := reads_be _ 1.
#[local] Instance reads_wire_id name : reads (id name) digest_ok Datatypes.id := reads_take _ 32.
#[local] Instance reads_wire_point : reads point (fun _ => True) compress := reads_point _ _.
#[local] Instance reads_wire_scalar : reads scalar (fun _ => True) scalar_to_bytes := reads_scalar _ _.

#[local] Instance reads_party : reads party party_ok party_bytes.
Proof.
  intros r q rest. unfold party, party_ok, party_bytes. split.
  - intros Hm. read_inv Hm as v. apply if_err_ok in Hm as [Hv Hm]. apply N.eqb_neq in Hv. by injection Hm as <- <-.
  - intros [[Hv Hs] ->]. read_run. by rewrite (proj2 (N.eqb_neq _ _) Hv).
Qed.

#[local] Instance reads_len : reads (len 64) (fun n => 0 < n <= 64) (fun n => be_bytes 2 (N.of_nat n)).
Proof.
  intros r n rest. unfold len. split.
  - intros Hm. read_inv Hm as v. apply if_err_ok in Hm as [Hv Hm]. apply orb_false_iff in Hv as [H1'%Nat.eqb_neq H2'%Nat.ltb_ge].
    injection Hm as <- <-. rewrite N2Nat.id. split; [lia|done].
  - intros [Hn ->]. read_run_with ltac:(lia). rewrite Nat2N.id, (proj2 (Nat.eqb_neq _ _)), (proj2 (Nat.ltb_ge _ _)) by lia. done.
Qed.

#[local] Instance reads_evaluations : reads evaluations evaluations_ok evaluations_bytes.
Proof.
  intros r v rest. unfold evaluations, evaluations_ok, evaluations_bytes, counted, width_ok, MAX_RANGE_BITS. split.
  - intros Hm. read_inv Hm as p. read_inv Hm as x. read_inv Hm as n. read_inv Hm as items. injection Hm as <- <-. destruct_and!. subst n.
    cbn [re_party re_value re_bits]. rewrite <- !app_assoc. done.
  - intros [[Hp Hw] ->]. rewrite <- !app_assoc. do 4 wire_run. by destruct v.
Qed.
#[local] Instance reads_relations : reads relations relations_ok relations_bytes.
Proof.
  intros r v rest. unfold relations, relations_ok, relations_bytes, counted, width_ok, MAX_RANGE_BITS. split.
  - intros Hm. read_inv Hm as p. read_inv Hm as n. read_inv Hm as items. injection Hm as <- <-. destruct_and!. subst n.
    cbn [rr_party rr_bits]. rewrite <- !app_assoc. done.
  - intros [[Hp Hw] ->]. rewrite <- !app_assoc. do 3 wire_run. by destruct v.
Qed.

#[local] Instance reads_seal : reads seal (fun v => seal_ok v /\ digest_ok (rse_digest v)) seal_bytes.
Proof.
  intros r v rest. unfold seal, seal_ok, seal_bytes. split.
  - intros Hm. read_inv Hm as p. read_inv Hm as d. injection Hm as <- <-. by rewrite <- !app_assoc.
  - intros [[Hp Hd] ->]. rewrite <- !app_assoc. do 2 wire_run. by destruct v.
Qed.

#[local] Instance reads_pair : reads point_pair (fun _ => True) pair_bytes.
Proof.
  intros r v rest. unfold point_pair, pair_bytes. split.
  - intros Hm. read_inv Hm as a. read_inv Hm as b. injection Hm as <- <-. by rewrite <- !app_assoc.
  - intros [_ ->]. rewrite <- !app_assoc. do 2 wire_run. by destruct v.
Qed.

#[local] Instance reads_entry : reads bit_entry (fun _ => True) entry_bytes.
Proof.
  intros r v rest. unfold bit_entry, entry_bytes. split.
  - intros Hm. read_inv Hm as a. read_inv Hm as b. read_inv Hm as c. injection Hm as <- <-. by rewrite <- !app_assoc.
  - intros [_ ->]. rewrite <- !app_assoc. do 3 wire_run. by destruct v as [[? ?] ?].
Qed.

#[local] Instance reads_answer : reads answer_entry (fun _ => True) answer_bytes.
Proof.
  intros r v rest. unfold answer_entry, answer_bytes. split.
  - intros Hm. read_inv Hm as a. read_inv Hm as b. read_inv Hm as c. injection Hm as <- <-. by rewrite <- !app_assoc.
  - intros [_ ->]. rewrite <- !app_assoc. do 3 wire_run. by destruct v as [[? ?] ?].
Qed.

#[local] Instance reads_round1 : reads round1 (fun v => round1_ok v /\ digest_ok (r1_context_digest v)) round1_bytes.
Proof.
  intros r v rest. unfold round1, round1_ok, round1_bytes, width_ok, MAX_RANGE_BITS. split.
  - intros Hm. read_inv Hm as p. read_inv Hm as d. read_inv Hm as n. read_inv Hm as items. read_inv Hm as k. injection Hm as <- <-.
    destruct_and!. subst n. cbn [r1_party r1_context_digest r1_bit_factor r1_bit_product r1_linkage]. rewrite zip_fst_snd, !length_fmap, <- !app_assoc. done.
  - intros [[(Hp & Hw & He) Hd] ->]. rewrite <- !app_assoc. do 3 wire_run.
    replace (length (r1_bit_factor v)) with (length (zip (r1_bit_factor v) (r1_bit_product v))) by (rewrite length_zip_with; lia).
    do 2 wire_run. destruct v. cbn in *. by rewrite fst_zip_eq, snd_zip_eq.
Qed.

#[local] Instance reads_members count : forall seen,
  reads (members count seen) (fun q => length q = count /\ NoDup q /\ Forall party_ok q /\ Forall (fun p => p ∉ seen) q) (fun q => concat (party_bytes <$> q)).
Proof.
  induction count as [|count IH]; intros seen r q rest; cbn [members].
  { split; [by intros [= <- <-]; split; [split_and!; constructor|] |]. intros [[Hl _] ->]. by destruct q. }
  split.
  - intros Hm. read_inv Hm as p. apply if_err_ok in Hm as [Hs%bool_decide_eq_false Hm]. specialize (IH ({[p]} ∪ seen)). read_inv Hm as ps.
    injection Hm as <- <-. destruct_and!. rewrite fmap_cons, NoDup_cons, !Forall_cons. cbn [concat]. rewrite <- app_assoc. cbn [length].
    rename select (Forall (fun p => p ∉ _) _) into Hns. rewrite Forall_forall in Hns.
    split; [|done]. split_and!; try done; [lia|set_solver|]. apply Forall_forall. set_solver.
  - intros [(Hl & Hnd & Hok & Hs) ->]. destruct q as [|p q]; [done|]. apply NoDup_cons in Hnd as [Hp Hnd]. apply Forall_cons in Hok as [Hpo Hok], Hs as [Hps Hs].
    rewrite fmap_cons. cbn [concat]. rewrite <- app_assoc. wire_run. rewrite bool_decide_eq_false_2 by done. specialize (IH ({[p]} ∪ seen)).
    read_run_with ltac:(idtac); [done|]. cbn in Hl. rewrite Forall_forall in Hs. split_and!; try done; [lia|]. apply Forall_forall. set_solver.
Qed.

#[local] Instance reads_quorum : reads quorum quorum_ok quorum_bytes.
Proof.
  intros r q rest. unfold quorum, quorum_ok, quorum_bytes, counted, width_ok, MAX_PARTIES. split.
  - intros Hm. read_inv Hm as n. read_last Hm. destruct_and!. subst n. by rewrite <- app_assoc.
  - intros [(Hw & Hnd & Hok) ->]. rewrite <- app_assoc. wire_run. apply reads_members. split; [|done]. split_and!; try done.
    apply Forall_forall. set_solver.
Qed.

#[local] Instance reads_challenge : reads challenge (fun v => challenge_ok v /\ digest_ok (rc_context_digest v)) challenge_bytes.
Proof.
  intros r v rest. unfold challenge, challenge_ok, challenge_bytes, width_ok, MAX_RANGE_BITS. split.
  - intros Hm. read_inv Hm as p. read_inv Hm as d. read_inv Hm as n. read_inv Hm as items. read_inv Hm as k. read_inv Hm as c. injection Hm as <- <-.
    destruct_and!. subst n. cbn [rc_quorum rc_context_digest rc_bit_factor rc_bit_product rc_bit_challenges rc_linkage rc_linkage_challenge].
    rewrite !zip_fst_snd, !length_fmap, <- !app_assoc. done.
  - intros [[(Hq & Hw & He & He') Hd] ->]. rewrite <- !app_assoc. do 3 wire_run.
    assert (length (zip (rc_bit_factor v) (rc_bit_product v)) = length (rc_bit_challenges v)) as Hz by (rewrite length_zip_with; lia).
    replace (length (rc_bit_factor v)) with (length (zip (zip (rc_bit_factor v) (rc_bit_product v)) (rc_bit_challenges v)))
      by (rewrite !length_zip_with; lia).
    do 3 wire_run. destruct v. cbn in *. by rewrite fst_zip_eq, snd_zip_eq, fst_zip_eq, snd_zip_eq by done.
Qed.

#[local] Instance reads_round2 : reads round2 round2_ok round2_bytes.
Proof.
  intros r v rest. unfold round2, round2_ok, round2_bytes, counted, width_ok, MAX_RANGE_BITS. split.
  - intros Hm. read_inv Hm as p. read_inv Hm as n. read_inv Hm as items. read_inv Hm as x. read_inv Hm as y. injection Hm as <- <-. destruct_and!. subst n.
    cbn [r2_party r2_bit_answers r2_linkage_answer fst snd]. rewrite <- !app_assoc. done.
  - intros [[Hp Hw] ->]. rewrite <- !app_assoc. do 5 wire_run. by destruct v as [? ? [? ?]].
Qed.
(** ** Messages *)

(** The digests and the job are 32-byte arrays in the source. *)
Definition message_typed (m : Message) : Prop :=
  match m with
  | Round1Seal v => digest_ok (rse_digest (Zkpi.zl_amount v)) /\ digest_ok (rse_digest (Zkpi.zl_price v))
  | Round1 v => digest_ok (r1_context_digest (Zkpi.z1_amount v)) /\ digest_ok (r1_context_digest (Zkpi.z1_price v))
  | Challenge v => digest_ok (rc_context_digest (Zkpi.zc_amount v)) /\ digest_ok (rc_context_digest (Zkpi.zc_price v))
  | _ => True
  end.

Lemma same_party_ok p a b : same_party p a b = Ok tt <-> p = a /\ p = b /\ p <> 0%N.
Proof.
  unfold same_party. destruct (N.eqb_spec p a), (N.eqb_spec p b), (N.eqb_spec p 0); cbn; naive_solver.
Qed.

Lemma put_pair_ok {A} kind p (put : A -> result Error bytes) pp ok encoding a b out : writes put ok encoding ->
  put_pair kind p put pp a b = Ok out <->
  (party_ok p /\ p = pp a /\ p = pp b /\ ok a /\ ok b) /\ out = byte_of_N kind :: party_bytes p ++ encoding a ++ encoding b.
Proof.
  intros Hw. unfold put_pair. rewrite bind_ok. setoid_rewrite (writes_bind _ _ _ _ _ _ writes_party).
  setoid_rewrite (writes_bind _ _ _ _ _ _ Hw). setoid_rewrite (writes_bind _ _ _ _ _ _ Hw). split.
  - intros ([] & (? & ? & ?)%same_party_ok & ? & ? & ? & [= <-]). done.
  - intros [(Hp & ? & ? & ? & ?) ->]. exists tt. split; [apply same_party_ok; split_and!; try done; by apply Hp|]. done.
Qed.

Lemma pair_of_ok {A B} (part : bytes -> result Error (A * bytes)) pp (make : PartyId -> A -> A -> B) ok encoding `{!reads part ok encoding} r v rest :
  pair_of part pp make r = Ok (v, rest) <->
  exists p a b, v = make p a b /\ (party_ok p /\ p = pp a /\ p = pp b /\ ok a /\ ok b) /\ r = (party_bytes p ++ encoding a ++ encoding b) ++ rest.
Proof.
  unfold pair_of. split.
  - intros Hm. read_inv Hm as p. read_inv Hm as a. read_inv Hm as b. apply bind_ok in Hm as ([] & (? & ? & _)%same_party_ok & [= <- <-]).
    exists p, a, b. by rewrite <- !app_assoc.
  - intros (p & a & b & -> & (Hp & Ha & Hb & Hoa & Hob) & ->). rewrite <- !app_assoc. do 3 wire_run.
    rewrite (proj2 (same_party_ok p _ _)); [done|]. split_and!; try done. apply Hp.
Qed.

(** Reading both parts of a node's message back into what was written. *)
Lemma pair_read {A B} kind (put : A -> result Error bytes) (part : bytes -> result Error (A * bytes)) pp (make : PartyId -> A -> A -> B)
    ok (typed : A -> Prop) encoding :
  writes put ok encoding -> reads part (fun a => ok a /\ typed a) encoding -> forall r v rest,
  pair_of part pp make r = Ok (v, rest) <->
  exists p a b out, v = make p a b /\ (typed a /\ typed b) /\ put_pair kind p put pp a b = Ok (byte_of_N kind :: out) /\ r = out ++ rest.
Proof.
  intros Hw Hr r v rest. rewrite (pair_of_ok part pp make _ _ r v rest). split.
  - intros (p & a & b & -> & (? & ? & ? & [? ?] & [? ?]) & ->). eexists p, a, b, _. split; [done|]. split; [done|]. split; [|reflexivity].
    by apply (put_pair_ok _ _ _ _ _ _ _ _ _ Hw).
  - intros (p & a & b & out & -> & [? ?] & Hb & ->). apply (put_pair_ok _ _ _ _ _ _ _ _ _ Hw) in Hb as [(? & ? & ? & ? & ?) [= ->]].
    exists p, a, b. done.
Qed.

Lemma reads_untyped {A} (part : bytes -> result Error (A * bytes)) ok encoding :
  reads part ok encoding -> reads part (fun a => ok a /\ True) encoding.
Proof. intros Hr r a rest. rewrite (Hr r a rest). tauto. Qed.

Definition evaluations_read := pair_read 1 _ _ re_party Zkpi.mkZkpiEvaluations _ _ _ writes_evaluations (reads_untyped _ _ _ reads_evaluations).
Definition relations_read := pair_read 2 _ _ rr_party Zkpi.mkZkpiRelationEvaluations _ _ _ writes_relations (reads_untyped _ _ _ reads_relations).
Definition seals_read := pair_read 3 _ _ rse_party Zkpi.mkZkpiRound1Seals _ (fun s => digest_ok (rse_digest s)) _ writes_seal reads_seal.
Definition rounds_read := pair_read 4 _ _ r1_party Zkpi.mkZkpiRound1 _ (fun m => digest_ok (r1_context_digest m)) _ writes_round1 reads_round1.
Definition answers_read := pair_read 6 _ _ r2_party Zkpi.mkZkpiRound2 _ _ _ writes_round2 (reads_untyped _ _ _ reads_round2).

Lemma byte_kind kind k : (kind < 256)%N -> (k < 256)%N -> byte_of_N kind = byte_of_N k -> kind = k.
Proof. intros H1' H2' E. apply (f_equal Byte.to_N) in E. rewrite !to_N_byte_of_N, !N.mod_small in E by done. done. Qed.

Lemma message_of_ok kind r m rest : (kind < 256)%N ->
  message_of kind r = Ok (m, rest) <-> message_typed m /\ exists b, put_message m = Ok (byte_of_N kind :: b) /\ r = b ++ rest.
Proof.
  intros Hk. split.
  - unfold message_of. intros Hm. repeat case_match; try done; subst kind.
    { read_inv Hm as a. read_inv Hm as b. apply if_err_ok in Hm as [Hq Hm]. injection Hm as <- <-. destruct_and!. split; [done|].
      exists (challenge_bytes a ++ challenge_bytes b). split; [|by rewrite app_assoc]. cbn [put_message Zkpi.zc_amount Zkpi.zc_price].
      rewrite Hq, !(writes_go _ _ _ _ writes_challenge) by done. done. }
    all: apply bind_ok in Hm as ([v r'] & Hv & [= <- <-]);
      first [apply evaluations_read in Hv | apply relations_read in Hv | apply seals_read in Hv | apply rounds_read in Hv | apply answers_read in Hv];
      destruct Hv as (p' & a & b & out & -> & Ht & Hp & ->); split; [done | by exists out].
  - intros (Ht & b & Hb & ->). destruct m as [v|v|v|v|v|v]; cbn [put_message] in Hb.
    5:{ apply if_err_ok in Hb as [Hq Hb]. apply (writes_bind _ _ _ _ _ _ writes_challenge) in Hb as [Ha Hb].
        apply (writes_bind _ _ _ _ _ _ writes_challenge) in Hb as [Hp Hb]. pose proof (f_equal (fun o => match o with Ok l => hd x00 l | Err _ => x00 end) Hb) as E. cbn [hd app] in E. symmetry in E.
        apply (byte_kind kind 5) in E as ->; [|done..].
        apply (f_equal (fun o => match o with Ok l => tl l | Err _ => [] end)) in Hb. cbn [tl app] in Hb. subst b. cbn [message_of]. rewrite <- app_assoc. destruct Ht. do 2 wire_run. rewrite Hq. by destruct v. }
    all: pose proof Hb as Hb'.
    all: eapply put_pair_ok in Hb as [_ E]; [|solve [apply writes_evaluations | apply writes_relations | apply writes_seal | apply writes_round1 | apply writes_round2]].
    all: apply (f_equal (hd x00)) in E; cbn [hd] in E.
    all: match type of E with _ = byte_of_N ?k => apply (byte_kind kind k) in E as ->; [|done..] end; cbn [message_of].
    all: match goal with |- context [pair_of ?part ?pp ?make ?r] => assert (pair_of part pp make r = Ok (v, rest)) as -> end; [|done].
    all: first [apply evaluations_read | apply relations_read | apply seals_read | apply rounds_read | apply answers_read].
    all: match type of Hb' with put_pair _ ?p _ _ ?x ?y = _ => exists p, x, y, b end; split; [by destruct v|]; done.
Qed.
Lemma put_message_kind m out : put_message m = Ok out -> exists kind b, (kind < 256)%N /\ out = byte_of_N kind :: b.
Proof.
  intros Hb. destruct m as [v|v|v|v|v|v]; cbn [put_message] in Hb.
  5:{ apply if_err_ok in Hb as [_ Hb]. apply (writes_bind _ _ _ _ _ _ writes_challenge) in Hb as [_ Hb].
      apply (writes_bind _ _ _ _ _ _ writes_challenge) in Hb as [_ [= <-]]. by eexists 5%N, _. }
  all: eapply put_pair_ok in Hb as [_ ->]; [|solve [apply writes_evaluations | apply writes_relations | apply writes_seal | apply writes_round1 | apply writes_round2]].
  all: by eexists _, _; split; [|reflexivity].
Qed.

Definition envelope_typed (e : Envelope) : Prop := digest_ok (e_job_id e) /\ message_typed (e_message e).

Lemma encode_inv e out : encode e = Ok out <->
  exists b, put_message (e_message e) = Ok b /\ out = MAGIC ++ be_bytes 2 VERSION ++ e_job_id e ++ b.
Proof. unfold encode. rewrite bind_ok. naive_solver. Qed.

Lemma be_one kind : (kind < 256)%N -> be_bytes 1 kind = [byte_of_N kind].
Proof. done. Qed.

Lemma envelope_of_ok r e rest : envelope_of r = Ok (e, rest) <-> envelope_typed e /\ exists out, encode e = Ok out /\ r = out ++ rest.
Proof.
  setoid_rewrite encode_inv. unfold envelope_of, envelope_typed. split.
  - intros Hm. unfold take in Hm. read_inv Hm as magic. apply if_err_ok in Hm as [Hmagic Hm]. bool_inv. subst magic. read_inv Hm as version.
    apply if_err_ok in Hm as [Hv Hm]. bool_inv. subst version. read_inv Hm as job. read_inv Hm as kind.
    apply bind_ok in Hm as ([m r'] & Hr & [= <- <-]). apply message_of_ok in Hr as (Ht & b & Hb & ->); [|done]. cbn [e_job_id e_message].
    split; [done|]. eexists. split; [eexists; split; [exact Hb | reflexivity]|]. rewrite <- !app_assoc. done.
  - intros [[Hj Ht] (out & (b & Hb & ->) & ->)]. rewrite <- !app_assoc. unfold take. read_run. rewrite bool_decide_eq_true_2 by done. cbn [negb].
    read_run. rewrite N.eqb_refl. cbn [negb]. wire_run. destruct (put_message_kind _ _ Hb) as (kind & b' & Hk & ->).
    change ((byte_of_N kind :: b') ++ rest) with ([byte_of_N kind] ++ (b' ++ rest)). rewrite <- (be_one kind) by done. wire_run.
    rewrite (proj2 (message_of_ok kind (b' ++ rest) (e_message e) rest Hk)); [by destruct e|]. eauto.
Qed.

(** The instruction wire's decoder inverts its encoder. *)
Lemma zkpi_decode_ok raw e : decode raw = Ok e <-> envelope_typed e /\ encode e = Ok raw.
Proof.
  unfold decode, finish. rewrite bind_ok. split.
  - intros ([e' r] & He & Hr). destruct r; [|done]. injection Hr as ->. apply envelope_of_ok in He as [Ht (out & Ho & ->)]. by rewrite app_nil_r.
  - intros [Ht He]. exists (e, []). split; [|done]. apply envelope_of_ok. split; [done|]. exists raw. by rewrite app_nil_r.
Qed.
End Zkpi.

Section Limit.
Context `{G : GroupOps} `{PC : !PointCodec} `{SC : !ScalarCodec} `{PL : !PointCodecLaws} `{SL : !ScalarCodecLaws}.
Import LimitWire.

(** ** Hidden-limit messages *)

Lemma point_eq_iff (p q : Point) : point_eq p q = true <-> p = q.
Proof. unfold point_eq. rewrite bool_decide_eq_true. split; [apply compress_injective | by intros ->]. Qed.

Lemma points_eq_iff (l k : list Point) : points_eq l k = true <-> l = k.
Proof.
  unfold points_eq. rewrite andb_true_iff, Nat.eqb_eq, forallb_forall. split; [|intros ->].
  - intros [Hl Hall]. revert k Hl Hall. induction l as [|a l IH]; intros [|b k] Hl Hall; try done. cbn in Hl. f_equal.
    + apply point_eq_iff. apply (Hall (a, b)). by left.
    + apply IH; [lia|]. intros x Hx. apply Hall. by right.
  - split; [done|]. intros [a b] Hin%list_elem_of_In%elem_of_lookup_zip_with. destruct Hin as (i & a' & b' & [= -> ->] & Ha & Hb).
    rewrite Ha in Hb. injection Hb as ->. by apply point_eq_iff.
Qed.

Lemma single_iff (inner : ZkpiWire.Message) out m : ZkpiWire.put_message inner = Ok out -> single inner = Some m <-> inner = duplicated m.
Proof.
  assert (forall (b : bool) (x y : Message), (if b then Some x else None) = Some y <-> b = true /\ x = y) as Hif by (intros [] x y; naive_solver).
  intros Hp. destruct inner as [v|v|v|v|v|v]; cbn [single ZkpiWire.put_message] in *; rewrite Hif.
  5:{ unfold challenge_eq. rewrite !andb_true_iff, !bool_decide_eq_true, !points_eq_iff, point_eq_iff. destruct v as [a b]. cbn. split.
      - intros [? <-]. cbn. destruct_and!. by destruct a, b; cbn in *; subst.
      - destruct m; try done. intros [= -> ->]. done. }
  all: eapply put_pair_ok in Hp as [(_ & Ha & Hb & _) _]; [|solve [apply writes_evaluations | apply writes_relations | apply writes_seal | apply writes_round1 | apply writes_round2]].
  all: unfold evaluations_eq, relations_eq, round1_eq, round2_eq, seal_eq;
    rewrite ?andb_true_iff, ?bool_decide_eq_true, ?points_eq_iff, ?point_eq_iff, ?N.eqb_eq; destruct v as [p a b]; cbn in *.
  all: split; [intros [? <-]; cbn; destruct_and?; by destruct a, b; cbn in *; subst|].
  all: destruct m; try done; intros [= -> -> ->]; done.
Qed.

Definition limit_typed (e : Envelope) : Prop := envelope_typed (ZkpiWire.mkEnvelope (e_job_id e) (duplicated (e_message e))).

Lemma limit_decode_ok raw e : decode raw = Ok e <-> limit_typed e /\ encode e = Ok raw.
Proof.
  unfold decode, encode, limit_typed. rewrite bind_ok, map_err_ok. setoid_rewrite map_err_ok. split.
  - intros (nested & Hn & Hr). apply bind_ok in Hr as (m & Hm & [= <-]). apply ok_or_ok in Hm. apply zkpi_decode_ok in Hn as [Ht He].
    destruct (proj1 (encode_inv _ _) He) as (b & Hb & _). apply (single_iff _ _ _ Hb) in Hm. cbn. rewrite <- Hm. by destruct nested.
  - intros [Ht He]. eexists. split; [apply zkpi_decode_ok; split; [exact Ht | exact He]|].
    destruct (proj1 (encode_inv _ _) He) as (b & Hb & _). cbn in Hb |- *. rewrite (proj2 (single_iff _ _ (e_message e) Hb)) by done. by destruct e.
Qed.
End Limit.

Section Dvp.
Context `{G : GroupOps} `{PC : !PointCodec} `{SC : !ScalarCodec} `{PL : !PointCodecLaws} `{SL : !ScalarCodecLaws}.
Import DvpWire.

(** ** Delivery-versus-payment messages *)

Lemma dvp_writes_party : writes put_party party_ok party_bytes.
Proof.
  intros q b. unfold put_party, party_ok. destruct (N.ltb_spec 65535 q) as [Hq|Hq]; [split; [done|lia]|].
  destruct (N.eqb_spec q 0) as [->|H0']; [split; [done|lia]|]. split; [intros [= <-]; split; [lia|done] | by intros [_ ->]].
Qed.

#[local] Instance dvp_reads_u8 name : reads (u8 name) (fun x => x < 256)%N (be_bytes 1) := reads_be _ 1.
#[local] Instance dvp_reads_u16 name : reads (u16 name) (fun x => x < 65536)%N (be_bytes 2) := reads_be _ 2.
#[local] Instance dvp_reads_u32 name : reads (u32 name) (fun x => x < 4294967296)%N (be_bytes 4) := reads_be _ 4.
#[local] Instance dvp_reads_take n name : reads (take n name) (fun b => length b = n) Datatypes.id := reads_take _ n.
#[local] Instance dvp_reads_id name : reads (id name) digest_ok Datatypes.id := reads_take _ 32.
#[local] Instance dvp_reads_point : reads point (fun _ => True) compress := reads_point _ _.
#[local] Instance dvp_reads_scalar : reads scalar (fun _ => True) scalar_to_bytes := reads_scalar _ _.

#[local] Instance dvp_reads_party : reads party party_ok party_bytes.
Proof.
  intros r q rest. unfold party, party_ok, party_bytes. split.
  - intros Hm. read_inv Hm as v. apply if_err_ok in Hm as [Hv Hm]. apply N.eqb_neq in Hv. by injection Hm as <- <-.
  - intros [[Hv Hs] ->]. read_run. by rewrite (proj2 (N.eqb_neq _ _) Hv).
Qed.

Ltac dvp_run := read_run_with ltac:(first [done | split; [done | by apply Forall_true]]).

Ltac wire_facts := first [done | assumption | congruence | lia].

Lemma same_list_ok p l q : same_party (p :: l) = Ok q <-> q = p /\ p <> 0%N /\ Forall (fun x => x = p) l.
Proof.
  unfold same_party. rewrite if_err_ok, orb_false_iff, N.eqb_neq. cbn [existsb]. rewrite N.eqb_refl. cbn [negb orb].
  assert (existsb (fun party => negb (party =? p)%N) l = false <-> Forall (fun x => x = p) l) as ->.
  { induction l as [|x l IH]; [split; [constructor|done]|]. cbn [existsb]. rewrite orb_false_iff, negb_false_iff, N.eqb_eq, IH, Forall_cons. done. }
  split; [intros ((? & ?) & [= <-]); done | intros (-> & ? & ?); done].
Qed.

(** *** The nested message *)

Definition inner_bytes (job : bytes) (m : ZkpiWire.Message) : bytes :=
  match ZkpiWire.encode (ZkpiWire.mkEnvelope job m) with
  | Ok raw => be_bytes 4 (N.of_nat (length raw)) ++ raw
  | Err _ => []
  end.
Definition inner_ok (job : bytes) (m : ZkpiWire.Message) : Prop :=
  exists raw, ZkpiWire.encode (ZkpiWire.mkEnvelope job m) = Ok raw /\ (N.of_nat (length raw) <= MAX_INNER_BYTES)%N.

Lemma writes_inner job : writes (put_inner job) (inner_ok job) (inner_bytes job).
Proof.
  intros m b. unfold put_inner, inner_ok, inner_bytes. rewrite bind_ok. setoid_rewrite map_err_ok. split.
  - intros (raw & He & Hb). apply if_err_ok in Hb as [Hl%N.ltb_ge [= <-]]. rewrite He. eauto.
  - intros [(raw & He & Hl) ->]. exists raw. split; [done|]. by rewrite He, (proj2 (N.ltb_ge _ _)).
Qed.

#[local] Instance reads_inner job : reads (inner job)
  (fun m => envelope_typed (ZkpiWire.mkEnvelope job m) /\ inner_ok job m) (inner_bytes job).
Proof.
  intros r m rest. unfold inner, inner_ok, inner_bytes. split.
  - intros Hm. read_inv Hm as n. apply if_err_ok in Hm as [[_ Hl%N.ltb_ge]%orb_false_iff Hm]. read_inv Hm as raw.
    apply bind_ok in Hm as (e & He%map_err_ok%zkpi_decode_ok & Hm). destruct He as [Ht He]. apply if_err_ok in Hm as [Hj Hm]. bool_inv. injection Hm as <- <-.
    destruct e as [j m]. cbn in Hj. subst j. cbn [ZkpiWire.e_message]. rewrite He. rename select (length raw = _) into Hlen.
    assert (N.of_nat (length raw) = n) as Hn by (rewrite Hlen; apply N2Nat.id). rewrite Hn, <- app_assoc. split; [|done]. split; [done|].
    exists raw. by rewrite Hn.
  - intros [(Ht & raw & He & Hl) ->]. rewrite He, <- app_assoc. unfold MAX_INNER_BYTES in *. rewrite N.shiftl_1_l in *.
    read_run_with ltac:(lia). rewrite (proj2 (N.ltb_ge _ _)) by lia.
    rewrite (proj2 (N.eqb_neq _ _)).
    2:{ destruct (proj1 (encode_inv _ _) He) as (b & _ & ->). rewrite length_app. cbn. lia. }
    cbn [orb]. rewrite Nat2N.id. dvp_run. rewrite (proj2 (zkpi_decode_ok raw (ZkpiWire.mkEnvelope job m))) by done. cbn.
    by rewrite bool_decide_eq_true_2.
Qed.

(** *** The product's parts *)

Definition product_evaluations_bytes (v : ProductEvaluations) : bytes := party_bytes (pe_party v) ++ compress (pe_factor v) ++ compress (pe_relation v).
Definition product_seal_bytes (v : ProductRound1Seal) : bytes := party_bytes (pse_party v) ++ pse_digest v.
Definition product_round1_bytes (v : ProductRound1) : bytes :=
  party_bytes (p1_party v) ++ p1_context_digest v ++ compress (p1_factor v) ++ compress (p1_product v).
Definition product_challenge_bytes (v : ProductChallenge) : bytes :=
  be_bytes 2 (N.of_nat (length (pch_quorum v))) ++ concat (party_bytes <$> pch_quorum v) ++ pch_context_digest v
  ++ compress (pch_factor v) ++ compress (pch_product v) ++ scalar_to_bytes (pch_challenge v).
Definition product_round2_bytes (v : ProductRound2) : bytes :=
  party_bytes (p2_party v) ++ scalar_to_bytes (p2_factor_answer v) ++ scalar_to_bytes (p2_factor_blinding_answer v) ++ scalar_to_bytes (p2_relation_answer v).

#[local] Instance reads_product_evaluations : reads product_evaluations (fun v => party_ok (pe_party v)) product_evaluations_bytes.
Proof.
  intros r v rest. unfold product_evaluations, product_evaluations_bytes. split.
  - intros Hm. do 3 (let n := fresh "f" in read_inv Hm as n). injection Hm as <- <-. by rewrite <- !app_assoc.
  - intros [Hp ->]. rewrite <- !app_assoc. do 3 dvp_run. by destruct v.
Qed.

#[local] Instance reads_product_seal : reads product_seal (fun v => party_ok (pse_party v) /\ digest_ok (pse_digest v)) product_seal_bytes.
Proof.
  intros r v rest. unfold product_seal, product_seal_bytes. split.
  - intros Hm. do 2 (let n := fresh "f" in read_inv Hm as n). injection Hm as <- <-. by rewrite <- !app_assoc.
  - intros [[Hp Hd] ->]. rewrite <- !app_assoc. do 2 dvp_run. by destruct v.
Qed.

#[local] Instance reads_product_round1 : reads product_round1 (fun v => party_ok (p1_party v) /\ digest_ok (p1_context_digest v)) product_round1_bytes.
Proof.
  intros r v rest. unfold product_round1, product_round1_bytes. split.
  - intros Hm. do 4 (let n := fresh "f" in read_inv Hm as n). injection Hm as <- <-. by rewrite <- !app_assoc.
  - intros [[Hp Hd] ->]. rewrite <- !app_assoc. do 4 dvp_run. by destruct v.
Qed.

#[local] Instance reads_product_round2 : reads product_round2 (fun v => party_ok (p2_party v)) product_round2_bytes.
Proof.
  intros r v rest. unfold product_round2, product_round2_bytes. split.
  - intros Hm. do 4 (let n := fresh "f" in read_inv Hm as n). injection Hm as <- <-. by rewrite <- !app_assoc.
  - intros [Hp ->]. rewrite <- !app_assoc. do 4 dvp_run. by destruct v.
Qed.

Lemma dvp_writes_members : forall seen, writes (put_members seen)
  (fun q => NoDup q /\ Forall party_ok q /\ Forall (fun p => p ∉ seen) q) (fun q => concat (party_bytes <$> q)).
Proof.
  intros seen q. revert seen. induction q as [|p q IH]; intros seen b; cbn [put_members].
  { split; [intros [= <-]; split; [by split; [constructor|]|done] | by intros [_ ->]]. }
  rewrite if_err_ok, bool_decide_eq_false, (writes_bind _ _ _ _ _ _ dvp_writes_party), bind_ok, NoDup_cons, !Forall_cons. split.
  - intros (Hp & Hok & rest & Hr & [= <-]). apply IH in Hr as [(Hnd & Hv & Hs) ->]. rewrite Forall_forall in Hs.
    split; [|done]. split_and!; try done; [set_solver|]. apply Forall_forall. set_solver.
  - intros [([Hp Hnd] & [Hok Hv] & [Hs Hss]) ->]. split; [done|]. split; [done|]. eexists. split; [|done]. apply IH. split; [|done].
    split_and!; try done. rewrite Forall_forall in Hss |- *. set_solver.
Qed.

#[local] Instance dvp_reads_members count : forall seen,
  reads (members count seen) (fun q => length q = count /\ NoDup q /\ Forall party_ok q /\ Forall (fun p => p ∉ seen) q) (fun q => concat (party_bytes <$> q)).
Proof.
  induction count as [|count IH]; intros seen r q rest; cbn [members].
  { split; [by intros [= <- <-]; split; [split_and!; constructor|] |]. intros [[Hl _] ->]. by destruct q. }
  split.
  - intros Hm. read_inv Hm as p. apply if_err_ok in Hm as [Hs%bool_decide_eq_false Hm]. specialize (IH ({[p]} ∪ seen)). read_inv Hm as ps.
    injection Hm as <- <-. destruct_and!. rewrite fmap_cons, NoDup_cons, !Forall_cons. cbn [concat]. rewrite <- app_assoc. cbn [length].
    rename select (Forall (fun p => p ∉ _) _) into Hns. rewrite Forall_forall in Hns.
    split; [|done]. split_and!; try done; [lia|set_solver|]. apply Forall_forall. set_solver.
  - intros [(Hl & Hnd & Hok & Hs) ->]. destruct q as [|p q]; [done|]. apply NoDup_cons in Hnd as [Hp Hnd]. apply Forall_cons in Hok as [Hpo Hok], Hs as [Hps Hs].
    rewrite fmap_cons. cbn [concat]. rewrite <- app_assoc. dvp_run. rewrite bool_decide_eq_false_2 by done. specialize (IH ({[p]} ∪ seen)).
    read_run_with ltac:(idtac); [done|]. cbn in Hl. rewrite Forall_forall in Hs. split_and!; try done; [lia|]. apply Forall_forall. set_solver.
Qed.

#[local] Instance reads_product_challenge :
  reads product_challenge (fun v => quorum_ok (pch_quorum v) /\ digest_ok (pch_context_digest v)) product_challenge_bytes.
Proof.
  intros r v rest. unfold product_challenge, quorum_ok, width_ok, product_challenge_bytes, MAX_PARTIES. split.
  - intros Hm. read_inv Hm as n. apply if_err_ok in Hm as [Hn Hm]. apply orb_false_iff in Hn as [H1'%Nat.eqb_neq H2'%Nat.ltb_ge].
    read_inv Hm as q. do 4 (let n := fresh "f" in read_inv Hm as n). injection Hm as <- <-. destruct_and!.
    cbn [pch_quorum pch_context_digest pch_factor pch_product pch_challenge]. rename select (length q = _) into Hl.
    rewrite Hl, N2Nat.id, <- !app_assoc. split; [|done]. split_and!; try done; lia.
  - intros [[(Hw & Hnd & Hok) Hd] ->]. rewrite <- !app_assoc. read_run_with ltac:(lia). rewrite Nat2N.id, (proj2 (Nat.eqb_neq _ _)), (proj2 (Nat.ltb_ge _ _)) by lia.
    cbn [orb]. read_run_with ltac:(split_and!; try done; apply Forall_forall; set_solver). do 4 dvp_run. by destruct v.
Qed.
(** *** Messages *)

Definition kind_of (m : Message) : N :=
  match m with Evaluations _ => 1 | RelationEvaluations _ => 2 | Round1Seal _ => 3 | Round1 _ => 4 | Challenge _ => 5 | Round2 _ => 6 end.

Definition nested (m : Message) : ZkpiWire.Message :=
  match m with
  | Evaluations v => ZkpiWire.Evaluations (Zkpi.mkZkpiEvaluations (DvpIssuer.de_party v) (DvpIssuer.de_securities v) (DvpIssuer.de_cash v))
  | RelationEvaluations v =>
      ZkpiWire.RelationEvaluations (Zkpi.mkZkpiRelationEvaluations (DvpIssuer.dr_party v) (DvpIssuer.dr_securities v) (DvpIssuer.dr_cash v))
  | Round1Seal v => ZkpiWire.Round1Seal (Zkpi.mkZkpiRound1Seals (DvpIssuer.dl_party v) (DvpIssuer.dl_securities v) (DvpIssuer.dl_cash v))
  | Round1 v => ZkpiWire.Round1 (Zkpi.mkZkpiRound1 (DvpIssuer.d1_party v) (DvpIssuer.d1_securities v) (DvpIssuer.d1_cash v))
  | Challenge v => ZkpiWire.Challenge (Zkpi.mkZkpiChallenge (DvpIssuer.dc_securities v) (DvpIssuer.dc_cash v))
  | Round2 v => ZkpiWire.Round2 (Zkpi.mkZkpiRound2 (DvpIssuer.d2_party v) (DvpIssuer.d2_securities v) (DvpIssuer.d2_cash v))
  end.

Definition product_part (m : Message) : bytes :=
  match m with
  | Evaluations v => product_evaluations_bytes (DvpIssuer.de_product v)
  | RelationEvaluations _ => []
  | Round1Seal v => product_seal_bytes (DvpIssuer.dl_product v)
  | Round1 v => product_round1_bytes (DvpIssuer.d1_product v)
  | Challenge v => product_challenge_bytes (DvpIssuer.dc_product v)
  | Round2 v => product_round2_bytes (DvpIssuer.d2_product v)
  end.

(** The parties agree. *)
Definition agreeing (m : Message) : Prop :=
  match m with
  | Evaluations v => party_ok (DvpIssuer.de_party v) /\ pe_party (DvpIssuer.de_product v) = DvpIssuer.de_party v
      /\ re_party (DvpIssuer.de_securities v) = DvpIssuer.de_party v /\ re_party (DvpIssuer.de_cash v) = DvpIssuer.de_party v
  | RelationEvaluations v => DvpIssuer.dr_party v <> 0%N
      /\ rr_party (DvpIssuer.dr_securities v) = DvpIssuer.dr_party v /\ rr_party (DvpIssuer.dr_cash v) = DvpIssuer.dr_party v
  | Round1Seal v => party_ok (DvpIssuer.dl_party v) /\ pse_party (DvpIssuer.dl_product v) = DvpIssuer.dl_party v
      /\ rse_party (DvpIssuer.dl_securities v) = DvpIssuer.dl_party v /\ rse_party (DvpIssuer.dl_cash v) = DvpIssuer.dl_party v
  | Round1 v => party_ok (DvpIssuer.d1_party v) /\ p1_party (DvpIssuer.d1_product v) = DvpIssuer.d1_party v
      /\ r1_party (DvpIssuer.d1_securities v) = DvpIssuer.d1_party v /\ r1_party (DvpIssuer.d1_cash v) = DvpIssuer.d1_party v
  | Challenge v => quorum_ok (pch_quorum (DvpIssuer.dc_product v)) /\ rc_quorum (DvpIssuer.dc_securities v) = rc_quorum (DvpIssuer.dc_cash v)
      /\ pch_quorum (DvpIssuer.dc_product v) = rc_quorum (DvpIssuer.dc_securities v)
  | Round2 v => party_ok (DvpIssuer.d2_party v) /\ p2_party (DvpIssuer.d2_product v) = DvpIssuer.d2_party v
      /\ r2_party (DvpIssuer.d2_securities v) = DvpIssuer.d2_party v /\ r2_party (DvpIssuer.d2_cash v) = DvpIssuer.d2_party v
  end.

Definition dvp_message_typed (m : Message) : Prop :=
  message_typed (nested m) /\
  match m with
  | Round1Seal v => digest_ok (pse_digest (DvpIssuer.dl_product v))
  | Round1 v => digest_ok (p1_context_digest (DvpIssuer.d1_product v))
  | Challenge v => digest_ok (pch_context_digest (DvpIssuer.dc_product v))
  | _ => True
  end.

Lemma same_bind {A} p l (k : result Error A) v :
  (_ ← same_party (p :: l); k) = Ok v <-> (p <> 0%N /\ Forall (fun x => x = p) l) /\ k = Ok v.
Proof.
  rewrite bind_ok. split.
  - intros (q & Hq & Hk). apply same_list_ok in Hq as (_ & ? & ?). done.
  - intros [[? ?] Hk]. exists p. split; [by apply same_list_ok | done].
Qed.

Lemma put_message_iff job m out :
  put_message job m = Ok out <-> (agreeing m /\ inner_ok job (nested m)) /\ out = byte_of_N (kind_of m) :: inner_bytes job (nested m) ++ product_part m.
Proof.
  destruct m as [v|v|v|v|v|v]; cbn [put_message agreeing nested kind_of product_part].
  5:{ rewrite if_err_ok, orb_false_iff, !negb_false_iff, !bool_decide_eq_true, (writes_bind _ _ _ _ _ _ (writes_inner job)), if_err_ok,
        orb_false_iff, Nat.eqb_neq, Nat.ltb_ge, (writes_bind _ _ _ _ _ _ (dvp_writes_members ∅)). unfold quorum_ok, width_ok, MAX_PARTIES.
      split.
      - intros ((? & ?) & ? & (? & ?) & (? & ? & _) & [= <-]). split; [|done]. split_and!; try done; lia.
      - intros [(((? & ? & ?) & ? & ?) & ?) ->]. split_and!; try done; try lia. apply Forall_forall. set_solver. }
  all: rewrite same_bind, (writes_bind _ _ _ _ _ _ (writes_inner job)), ?(writes_bind _ _ _ _ _ _ dvp_writes_party), !Forall_cons, Forall_nil.
  2:{ rewrite app_nil_r. split; [intros (? & ? & [= <-]) | intros [? ->]]; naive_solver. }
  all: unfold party_ok; split; [intros (? & ? & ? & [= <-]); destruct_and!; split; [|done]; split_and!; wire_facts
    | intros [? ->]; destruct_and!; split_and!; wire_facts].
Qed.

Lemma dvp_message_iff job kind r m rest : digest_ok job -> (kind < 256)%N ->
  ('(n, r) ← inner job r; message_of kind n r) = Ok (m, rest) <->
  (dvp_message_typed m /\ agreeing m /\ inner_ok job (nested m)) /\ kind = kind_of m /\ r = inner_bytes job (nested m) ++ product_part m ++ rest.
Proof.
  intros Hj Hk. split.
  - intros Hm. read_inv Hm as n. destruct_and!. rename select (envelope_typed _) into Ht. destruct Ht as [_ Ht]. cbn in Ht.
    unfold message_of in Hm. repeat case_match; try done; subst.
    5:{ apply same_bind in Hm as [(? & Hl) [= <- <-]]. rewrite !Forall_cons in Hl. destruct_and!. by destruct value. }
    1:{ read_inv Hm as product. apply if_err_ok in Hm as [Hc Hm]. apply orb_false_iff in Hc as [Hc1 Hc2]. bool_inv. injection Hm as <- <-. destruct_and!.
        by destruct value. }
    all: read_inv Hm as product; apply same_bind in Hm as [(? & Hl) [= <- <-]]; rewrite !Forall_cons in Hl; destruct_and!; destruct value; cbn in *;
      split; [|done]; split; [done|]; split; [|done]; split_and!; wire_facts.
  - intros ([[Ht Hp] [Ha Hi]] & -> & ->). read_run_with ltac:(done).
    destruct m as [v|v|v|v|v|v]; cbn in Hp, Ha, Ht; destruct_and?; cbn [nested product_part kind_of message_of app].
    2:{ rewrite (proj2 (same_bind _ _ _ (RelationEvaluations v, rest))); [done|]. cbn. rewrite !Forall_cons. split; [done|]. by destruct v. }
    4:{ read_run_with ltac:(done). cbn [Zkpi.zc_amount Zkpi.zc_price]. rewrite !bool_decide_eq_true_2 by done. by destruct v. }
    all: read_run_with ltac:(unfold party_ok in *; try done; split_and!; wire_facts).
    all: apply same_bind; rewrite !Forall_cons; cbn; split; [unfold party_ok in *; destruct_and!; split_and!; wire_facts | by destruct v].
Qed.

Definition dvp_typed (e : Envelope) : Prop := digest_ok (e_job_id e) /\ dvp_message_typed (e_message e).

Lemma dvp_encode_inv e out : encode e = Ok out <->
  exists b, put_message (e_job_id e) (e_message e) = Ok b /\ out = MAGIC ++ be_bytes 2 VERSION ++ e_job_id e ++ b.
Proof. unfold encode. rewrite bind_ok. naive_solver. Qed.

Lemma dvp_envelope_ok r e rest : envelope_of r = Ok (e, rest) <-> dvp_typed e /\ exists out, encode e = Ok out /\ r = out ++ rest.
Proof.
  setoid_rewrite dvp_encode_inv. setoid_rewrite put_message_iff. unfold envelope_of, dvp_typed. split.
  - intros Hm. read_inv Hm as magic. apply if_err_ok in Hm as [Hmagic Hm]. bool_inv. subst magic. read_inv Hm as version.
    apply if_err_ok in Hm as [Hv Hm]. bool_inv. subst version. read_inv Hm as job. read_inv Hm as kind.
    match type of Hm with mbind _ (inner _ ?left) = _ =>
      assert (exists m, ('(n, r) ← inner job left; message_of kind n r) = Ok (m, rest) /\ e = mkEnvelope job m) as (m & Hr & ->) end.
    { apply bind_ok in Hm as ([n r'] & Hn & Hm). apply bind_ok in Hm as ([m r''] & Hm' & [= <- <-]). exists m. rewrite Hn. done. }
    apply dvp_message_iff in Hr as ((Ht & Ha & Hi) & -> & ->); [|done..]. cbn [e_job_id e_message].
    split; [done|]. eexists. split; [eexists; split; [split; [done|reflexivity] | reflexivity]|]. rewrite <- !app_assoc. cbn [app]. rewrite <- !app_assoc. by destruct m.
  - intros [[Hj Ht] (out & (b & [[Ha Hi] ->] & ->) & ->)]. rewrite <- !app_assoc. read_run. rewrite bool_decide_eq_true_2 by done. cbn [negb].
    read_run. rewrite N.eqb_refl. cbn [negb]. dvp_run. set (m := e_message e) in *.
    assert (kind_of m < 256)%N as Hk by (by destruct m). cbn [app]. rewrite <- app_assoc.
    change (byte_of_N (kind_of m) :: ?l) with (be_bytes 1 (kind_of m) ++ l).
    change (byte_of_N (kind_of m) :: inner_bytes (e_job_id e) (nested m) ++ product_part m ++ rest)
      with (be_bytes 1 (kind_of m) ++ (inner_bytes (e_job_id e) (nested m) ++ product_part m ++ rest)). dvp_run.
    pose proof (proj2 (dvp_message_iff (e_job_id e) (kind_of m) _ m rest Hj Hk) (conj (conj Ht (conj Ha Hi)) (conj eq_refl eq_refl))) as Hm.
    apply bind_ok in Hm as ([n r'] & Hn & Hm). rewrite Hn. cbn [mbind result_bind]. rewrite Hm. cbn. by destruct e.
Qed.

Lemma dvp_decode_ok raw e : decode raw = Ok e <-> dvp_typed e /\ encode e = Ok raw.
Proof.
  unfold decode, finish. rewrite bind_ok. split.
  - intros ([e' r] & He & Hr). destruct r; [|done]. injection Hr as ->. apply dvp_envelope_ok in He as [Ht (out & Ho & ->)]. by rewrite app_nil_r.
  - intros [Ht He]. exists (e, []). split; [|done]. apply dvp_envelope_ok. split; [done|]. exists raw. by rewrite app_nil_r.
Qed.
End Dvp.

(** ** The three wires *)

(** C31: the wires of the proof rounds are exact.  On each of them a decoder
    accepts bytes as an envelope exactly when the encoder writes those bytes for
    it: the parties are nonzero 16-bit numbers that agree wherever a message
    repeats them, quorums have no duplicates, vectors have one to sixty-four
    entries, nested messages are of the same job and hidden-limit copies are
    equal; no message has a second representation and nothing may follow one. *)
Theorem round_wires_exact `{PL : PointCodecLaws} `{SC : !ScalarCodec} `{SL : !ScalarCodecLaws} :
  (forall raw e, ZkpiWire.decode raw = Ok e <-> envelope_typed e /\ ZkpiWire.encode e = Ok raw)
  /\ (forall raw e, DvpWire.decode raw = Ok e <-> dvp_typed e /\ DvpWire.encode e = Ok raw)
  /\ (forall raw e, LimitWire.decode raw = Ok e <-> limit_typed e /\ LimitWire.encode e = Ok raw).
Proof. split_and!; intros; [apply zkpi_decode_ok | apply dvp_decode_ok | apply limit_decode_ok]. Qed.
