(* ===== verification/Quote.v ===== *)
(** * Quote proofs

    [zkpi-proofs/src/quote_proof.rs]: registered policies and their digests, the
    statement, the local prover and the verifier of the quote circuit, and the
    canonical digest of a proof. *)

From S2P Require Import Prelude.
From S2P Require Import Interfaces.
From S2P Require Import Curve.
From S2P Require Import Shamir.
From S2P Require Import Sigma.
From S2P Require Import BitrangeProofs.
From S2P Require Import Membership.
From S2P Require Import Threshold.
From S2P Require Import ThresholdRange.
From S2P Require Import Reader.
From S2P Require Import Instruction.

Open Scope Z_scope.

Module Quote.

(** ** Machine integers *)

Definition I64 (z : Z) : Prop := - 2 ^ 63 <= z < 2 ^ 63.
Definition fits_i64 (z : Z) : bool := (- 2 ^ 63 <=? z) && (z <? 2 ^ 63).
(** [checked_add], [checked_sub], [checked_mul] and [checked_neg] of [i64]: the
    exact result when it fits. *)
Definition checked_i64 (z : Z) : option Z := if fits_i64 z then Some z else None.
(** [as u64] of an [i64]. *)
Definition as_u64 (z : Z) : N := Z.to_N (z mod 2 ^ 64).
(** [to_be_bytes] of an [i64]. *)
Definition i64_be_bytes (z : Z) : bytes := be_bytes 8 (as_u64 z).
(** [usize::try_from] of an [i64]. *)
Definition usize_of (z : Z) : option N := if z <? 0 then None else Some (Z.to_N z).

Section Quote.
Context `{T : TranscriptOps} `{SO : ScalarOps} `{G : !GroupOps} `{B : !Bulletproofs} `{SC : !ScalarCodec} `{PG : !PedersenGens} `{S2 : Sha256}.

Definition scalar (value : Z) : Scalar :=
  if value <? 0 then (- scalar_of_N (Z.abs_N value))%S else scalar_of_N (Z.to_N value).
Definition bit_of (b : bool) : Scalar := scalar_of_N (if b then 1 else 0)%N.

(** ** Policies *)

Record Registered := mkRegistered {
  b_ask_level : Scalar; b_spread : Scalar; b_slope : Scalar; b_invcoef : Scalar;
  b_inv : Scalar; b_maxqty : Scalar; b_expiry : Scalar; b_active : Scalar
}.

Definition fresh {R} `{!ScalarRandom R} (rng : R) : Registered * R :=
  let (ask_level, rng) := scalar_random rng in
  let (spread, rng) := scalar_random rng in
  let (slope, rng) := scalar_random rng in
  let (invcoef, rng) := scalar_random rng in
  let (inv, rng) := scalar_random rng in
  let (maxqty, rng) := scalar_random rng in
  let (expiry, rng) := scalar_random rng in
  let (active, rng) := scalar_random rng in
  (mkRegistered ask_level spread slope invcoef inv maxqty expiry active, rng).

Definition is_registered (r : Registered) : bool :=
  negb (forallb (fun s => bool_decide (s = s0))
    [b_ask_level r; b_spread r; b_slope r; b_invcoef r; b_inv r; b_maxqty r; b_expiry r; b_active r]).

Record MakerWitness := mkMakerWitness {
  m_ask_level : Z; m_spread : Z; m_slope : Z; m_invcoef : Z; m_inv : Z; m_maxqty : Z; m_expiry : Z;
  m_active : bool;
  m_blindings : Registered
}.

Record RegisteredPolicy := mkRegisteredPolicy {
  rp_maker_asset : N;
  rp_ask_level : Point; rp_spread : Point; rp_slope : Point; rp_invcoef : Point; rp_inv : Point;
  rp_maxqty : Point; rp_expiry : Point; rp_active : Point; rp_use_ref : Point
}.

Definition registered (key : Pedersen) (m : MakerWitness) : RegisteredPolicy :=
  let r := m_blindings m in
  mkRegisteredPolicy 0 (commit key (scalar (m_ask_level m)) (b_ask_level r)) (commit key (scalar (m_spread m)) (b_spread r))
    (commit key (scalar (m_slope m)) (b_slope r)) (commit key (scalar (m_invcoef m)) (b_invcoef r))
    (commit key (scalar (m_inv m)) (b_inv r)) (commit key (scalar (m_maxqty m)) (b_maxqty r))
    (commit key (scalar (m_expiry m)) (b_expiry r)) (commit key (bit_of (m_active m)) (b_active r)) pid.

Definition parts (p : RegisteredPolicy) : list Point :=
  [rp_ask_level p; rp_spread p; rp_slope p; rp_invcoef p; rp_inv p; rp_maxqty p; rp_expiry p; rp_active p; rp_use_ref p].

Definition policy_bytes (p : RegisteredPolicy) : bytes := be_bytes 4 (rp_maker_asset p) ++ concat (compress <$> parts p).

Definition registered_policy_digest (index : nat) (policy : RegisteredPolicy) : bytes :=
  sha256 (bstr "QOMM:QUOTE:REGISTERED-POLICY:v1" ++ be_bytes 8 (N.of_nat index) ++ policy_bytes policy).

Definition registry_digest (registered : list RegisteredPolicy) : bytes :=
  sha256 (bstr "QOMM:QUOTE:REGISTRY:v2" ++ be_bytes 8 (N.of_nat (length registered)) ++ concat (policy_bytes <$> registered)).

(** ** Proofs *)

Inductive BitValidityProof :=
| Disjunction (proof : BitProof)
| Square (proof : ProductProof).

Inductive EligibilityProof :=
| EligibilityBulletproof (proof : Bulletproof) (commitments : list bytes)
| EligibilityThreshold (fits fresh : ThresholdRangeProof).

Inductive MinimalityProof :=
| MinimalityBulletproof (proof : Bulletproof) (commitments : list bytes)
| MinimalityThreshold (proofs : list ThresholdRangeProof).

Record Gate := mkGate {
  gt_commitment : Point;
  gt_bit_proof : BitValidityProof;
  gt_product : ProductProof;
  gt_product_commitment : Point;
  gt_witness_commitment : Point
}.

Record GateWitness := mkGateWitness { gw_holds : bool; gw_blinding : Scalar; gw_witness : Z; gw_witness_blinding : Scalar }.

Record MakerCommitments := mkMakerCommitments {
  mc_slope : Point; mc_invcoef : Point; mc_inv : Point; mc_depth : Point; mc_skew : Point; mc_fits : Point; mc_fresh : Point;
  mc_active : Point; mc_ok : Point; mc_fresh_strict : Point; mc_both : Point; mc_cost : Point; mc_gated : Point; mc_shifted_cost : Point
}.

Record MakerProof := mkMakerProof {
  mp_depth : ProductProof;
  mp_skew : ProductProof;
  mp_gate_cost : ProductProof;
  mp_eligibility : EligibilityProof;
  mp_active_bit : BitValidityProof;
  mp_reference_bit : BitValidityProof;
  mp_fits_gate : Gate;
  mp_fresh_gate : Gate;
  mp_conjunction : ProductProof * ProductProof;
  mp_commitments : MakerCommitments
}.

Record QuoteProof := mkQuoteProof {
  qp_winner_index : nat;
  qp_winner_value : N;
  qp_maker_proofs : list MakerProof;
  qp_winner_opening : OpeningProof;
  qp_minimality : MinimalityProof;
  qp_key_commitments : list Point
}.

Record Public := mkPublic {
  pb_qty_commitment : Point;
  pb_now : Z;
  pb_sentinel : Z;
  pb_n_slots : Z;
  pb_direction : N;
  pb_asset : N;
  pb_reference_price : Z;
  pb_registry : list RegisteredPolicy;
  pb_registry_digest : bytes;
  pb_market_digest : bytes;
  pb_slot : N
}.

(** *** The canonical digest of a proof *)

Definition hash_opening (p : OpeningProof) : bytes := compress (op_t p) ++ scalar_to_bytes (op_z_value p) ++ scalar_to_bytes (op_z_blinding p).
Definition hash_product (p : ProductProof) : bytes :=
  compress (pp_t_factor p) ++ compress (pp_t_product p) ++ scalar_to_bytes (pp_z_b p) ++ scalar_to_bytes (pp_z_rb p) ++ scalar_to_bytes (pp_z_s p).
Definition hash_bit (p : BitProof) : bytes :=
  compress (bp_t0 p) ++ compress (bp_t1 p) ++ scalar_to_bytes (bp_c0 p) ++ scalar_to_bytes (bp_z0 p) ++ scalar_to_bytes (bp_z1 p).
Definition hash_threshold_range (p : ThresholdRangeProof) : bytes :=
  be_bytes 8 (N.of_nat (tp_bits p)) ++ be_bytes 8 (N.of_nat (length (tp_bit_commitments p)))
  ++ concat ((fun '(c, bit) => compress c ++ hash_product bit) <$> zip (tp_bit_commitments p) (tp_bit_proofs p))
  ++ hash_opening (tp_linkage p).
Definition hash_bit_validity (p : BitValidityProof) : bytes :=
  match p with Disjunction p => [x00] ++ hash_bit p | Square p => [x01] ++ hash_product p end.
Definition hash_gate (p : Gate) : bytes :=
  compress (gt_commitment p) ++ hash_bit_validity (gt_bit_proof p) ++ hash_product (gt_product p)
  ++ compress (gt_product_commitment p) ++ compress (gt_witness_commitment p).

(** A Bulletproof with its commitments. *)
Definition hash_bulletproof (proof : Bulletproof) (commitments : list bytes) : bytes :=
  let raw := bulletproof_to_bytes proof in
  [x00] ++ be_bytes 8 (N.of_nat (length commitments)) ++ concat commitments ++ be_bytes 8 (N.of_nat (length raw)) ++ raw.

Definition hash_maker (m : MakerProof) : bytes :=
  let c := mp_commitments m in
  hash_product (mp_depth m) ++ hash_product (mp_skew m) ++ hash_product (mp_gate_cost m)
  ++ (match mp_eligibility m with
      | EligibilityBulletproof proof commitments => hash_bulletproof proof commitments
      | EligibilityThreshold fits fresh => [x01] ++ hash_threshold_range fits ++ hash_threshold_range fresh
      end)
  ++ hash_bit_validity (mp_active_bit m) ++ hash_bit_validity (mp_reference_bit m)
  ++ hash_gate (mp_fits_gate m) ++ hash_gate (mp_fresh_gate m)
  ++ hash_product (mp_conjunction m).1 ++ hash_product (mp_conjunction m).2
  ++ concat (compress <$> [mc_slope c; mc_invcoef c; mc_inv c; mc_depth c; mc_skew c; mc_fits c; mc_fresh c; mc_active c; mc_ok c;
       mc_fresh_strict c; mc_both c; mc_cost c; mc_gated c; mc_shifted_cost c]).

(** The public inputs that come before the registry. *)
Definition public_bytes (public : Public) : bytes :=
  compress (pb_qty_commitment public) ++ i64_be_bytes (pb_now public) ++ i64_be_bytes (pb_sentinel public)
  ++ i64_be_bytes (pb_n_slots public) ++ [byte_of_N (pb_direction public)] ++ be_bytes 4 (pb_asset public)
  ++ i64_be_bytes (pb_reference_price public) ++ pb_registry_digest public ++ pb_market_digest public ++ be_bytes 8 (pb_slot public).

Definition quote_proof_digest (public : Public) (proof : QuoteProof) : bytes :=
  sha256 (bstr "QOMM:QUOTE:PROOF-DIGEST:v2" ++ public_bytes public
    ++ be_bytes 8 (N.of_nat (length (pb_registry public))) ++ concat (policy_bytes <$> pb_registry public)
    ++ be_bytes 8 (N.of_nat (qp_winner_index proof)) ++ be_bytes 8 (qp_winner_value proof)
    ++ be_bytes 8 (N.of_nat (length (qp_maker_proofs proof))) ++ concat (hash_maker <$> qp_maker_proofs proof)
    ++ hash_opening (qp_winner_opening proof)
    ++ (match qp_minimality proof with
        | MinimalityBulletproof proof commitments => hash_bulletproof proof commitments
        | MinimalityThreshold proofs => [x01] ++ be_bytes 8 (N.of_nat (length proofs)) ++ concat (hash_threshold_range <$> proofs)
        end)
    ++ be_bytes 8 (N.of_nat (length (qp_key_commitments proof))) ++ concat (compress <$> qp_key_commitments proof)).

(** ** The circuit *)

Record QuoteCircuit := mkQuoteCircuit { qc_key : Pedersen; qc_eligibility_bits : nat; qc_span_bits : nat }.

Definition bp_width (bits : nat) : option nat := List.find (fun w => (bits <=? w)%nat) [8; 16; 32; 64]%nat.

Inductive Invalid :=
| NoMakers
| Malformed (why : string)
| Direction
| SlotCount
| Unregistered (index : nat)
| NotOnTheRegister (index : nat) (name : string)
| RegistryDigest
| RegistrySize
| Depth (index : nat)
| Skew (index : nat)
| Eligibility (index : nat)
| ActiveNotABit (index : nat)
| ReferenceFlagNotABit (index : nat)
| OkNotABit (index : nat)
| Cost (index : nat)
| ShiftedCost (index : nat)
| CostNotGated (index : nat)
| Key (index : nat)
| WinnerDoesNotOpen
| NotMinimal.

(** The verifier answers, or panics where it says [expect] or indexes. *)
Inductive refusal := Refused (why : Invalid) | Panicked.
#[global] Instance invalid_dec : EqDecision Invalid.
Proof. solve_decision. Defined.

Definition try_new (eligibility_bits span_bits : nat) : result string QuoteCircuit :=
  if (62 <? eligibility_bits)%nat then Err "eligibility width plus its two gadget bits exceeds 64"
  else if (span_bits =? 0)%nat || (64 <? span_bits)%nat then Err "minimality span width must be between 1 and 64 bits"
  else Ok (mkQuoteCircuit (pedersen_new (bstr "qomm:policy:v1")) eligibility_bits span_bits).

(** [None]: the constructor panics. *)
Definition circuit_new (eligibility_bits span_bits : nat) : option QuoteCircuit :=
  match try_new eligibility_bits span_bits with Ok c => Some c | Err _ => None end.

Definition statement_context (context : bytes) (public : Public) : bytes :=
  sha256 (bstr "QOMM:QUOTE:STATEMENT:v3" ++ be_bytes 8 (N.of_nat (length context)) ++ context ++ public_bytes public).

Definition gate_context (context : bytes) (index : nat) (what : bytes) : bytes :=
  context ++ bstr ":mm:" ++ be_bytes 8 (N.of_nat index) ++ bstr ":" ++ what.
Definition gate_range_context (context : bytes) (index : nat) (what : bytes) : bytes := gate_context context index what ++ bstr ":ge".
Definition minimality_context (context : bytes) (index : nat) : bytes := context ++ bstr ":min:" ++ be_bytes 8 (N.of_nat index).

Definition tag (context : bytes) (index : nat) (part : string) : Transcript :=
  append_message (bstr "part") (bstr part) (OneOfMany.append_u64 (bstr "mm") (N.of_nat index)
    (append_message (bstr "ctx") context (transcript_new (bstr "qomm:quote:v1")))).
Definition whole (context : bytes) (part : string) : Transcript :=
  append_message (bstr "part") (bstr part) (append_message (bstr "ctx") context (transcript_new (bstr "qomm:quote:v1"))).

(** The transcripts of a gate. *)
Definition gate_bit_transcript (context : bytes) : Transcript := append_message (bstr "ctx") context (transcript_new (bstr "qomm:quote:gate:bit")).
Definition gate_product_transcript (context : bytes) : Transcript := append_message (bstr "ctx") context (transcript_new (bstr "qomm:quote:gate:prod")).

(** [None]: [RangeCtx::new] panics on another width. *)
Definition ranges (bits count : nat) : option RangeCtx := range_ctx_new bits (Nat.max (next_power_of_two count) 1).
(** ** The prover *)

Section Prove.
Context {R : Type} `{!ScalarRandom R}.

Definition ge_zero_bit (circuit : QuoteCircuit) (value : Z) (blinding : Scalar) (commitment : Point) (context : bytes) (rng : R) :
    result string (Gate * GateWitness * R) :=
  let key := qc_key circuit in
  let holds := 0 <=? value in
  let bit := bit_of holds in
  let (r_bit, rng) := scalar_random rng in
  let c_bit := commit key bit r_bit in
  let '(bit_proof, _, rng) := prove_bit key (gate_bit_transcript context) c_bit holds r_bit rng in
  let (r_product, rng) := scalar_random rng in
  let '(product, _, rng) := prove_product key (gate_product_transcript context) c_bit bit r_bit (scalar value) blinding r_product rng in
  let product_value := if holds then value else 0 in
  let c_product := commit key (scalar product_value) r_product in
  witness ← ok_or (v ← checked_i64 (product_value * 2); v ← checked_i64 (v - value); v ← checked_i64 (v + (if holds then 1 else 0)); checked_i64 (v - 1))
    "eligibility witness overflow";
  let witness_blinding := (r_product + r_product - blinding + r_bit)%S in
  let c_witness := (c_product + c_product - commitment + c_bit - commit key s1 s0)%P in
  Ok (mkGate c_bit (Disjunction bit_proof) product c_product c_witness, mkGateWitness holds r_bit witness witness_blinding, rng).

Record MakerKey := mkMakerKey { mk_packed : N; mk_blinding : Scalar; mk_commitment : Point }.

(** One turn of the loop over the makers. *)
Definition prove_maker (circuit : QuoteCircuit) (public : Public) (proof_context : bytes) (qty : Z) (r_qty : Scalar) (index : nat)
    (m : MakerWitness) (policy : RegisteredPolicy) (rng : R) : result string (MakerKey * MakerProof * R) :=
  let key := qc_key circuit in
  let r_slope := b_slope (m_blindings m) in let r_invcoef := b_invcoef (m_blindings m) in let r_inv := b_inv (m_blindings m) in
  let c_slope := commit key (scalar (m_slope m)) r_slope in
  let c_invcoef := commit key (scalar (m_invcoef m)) r_invcoef in
  let c_inv := commit key (scalar (m_inv m)) r_inv in
  let (r_depth, rng) := scalar_random rng in
  depth ← ok_or (checked_i64 (m_slope m * qty)) "depth overflow";
  let '(depth_proof, _, rng) :=
    prove_product key (tag proof_context index "depth") c_slope (scalar (m_slope m)) r_slope (scalar qty) r_qty r_depth rng in
  let (r_skew, rng) := scalar_random rng in
  skew ← ok_or (checked_i64 (m_invcoef m * m_inv m)) "inventory skew overflow";
  let '(skew_proof, _, rng) :=
    prove_product key (tag proof_context index "skew") c_invcoef (scalar (m_invcoef m)) r_invcoef (scalar (m_inv m)) r_inv r_skew rng in
  let r_level := b_ask_level (m_blindings m) in let r_spread := b_spread (m_blindings m) in
  ask ← ok_or (v ← checked_i64 (m_ask_level m + depth); checked_i64 (v + skew)) "ask price overflow";
  bid ← ok_or (v ← checked_i64 (m_ask_level m - m_spread m); v ← checked_i64 (v - depth); checked_i64 (v + skew)) "bid price overflow";
  let r_ask := (r_level + r_depth + r_skew)%S in
  let r_bid := (r_level - r_spread - r_depth + r_skew)%S in
  let r_maxqty := b_maxqty (m_blindings m) in let r_expiry := b_expiry (m_blindings m) in
  fits ← ok_or (checked_i64 (m_maxqty m - qty)) "size margin overflow";
  fresh ← ok_or (checked_i64 (m_expiry m - pb_now public)) "expiry margin overflow";
  fresh_strict ← ok_or (checked_i64 (fresh - 1)) "strict expiry overflow";
  let r_fits := (r_maxqty - r_qty)%S in
  let c_fits := commit key (scalar fits) r_fits in
  let c_fresh := commit key (scalar fresh) r_expiry in
  let c_fresh_strict := (c_fresh - commit key s1 s0)%P in
  '(fits_gate, fits_witness, rng) ← ge_zero_bit circuit fits r_fits c_fits (gate_context proof_context index (bstr "fits")) rng;
  '(fresh_gate, fresh_witness, rng) ←
    ge_zero_bit circuit fresh_strict r_expiry c_fresh_strict (gate_context proof_context index (bstr "fresh")) rng;
  width ← ok_or (bp_width (qc_eligibility_bits circuit + 2)) "eligibility width exceeds 64";
  ctx ← ok_or (ranges width 2) "unreachable: the width is one the crate takes";
  '(eligibility, eligibility_commitments) ← ctx_prove ctx (tag proof_context index "eligibility")
    [as_u64 (gw_witness fits_witness); as_u64 (gw_witness fresh_witness)]
    [gw_witness_blinding fits_witness; gw_witness_blinding fresh_witness];
  let r_active := b_active (m_blindings m) in
  let c_active := commit key (bit_of (m_active m)) r_active in
  let '(active_bit, _, rng) := prove_bit key (tag proof_context index "active") c_active (m_active m) r_active rng in
  let '(reference_bit, _, rng) := prove_bit key (tag proof_context index "reference") pid false s0 rng in
  let both := gw_holds fits_witness && gw_holds fresh_witness in
  let (r_both, rng) := scalar_random rng in
  let c_both := commit key (bit_of both) r_both in
  let '(conj_first, _, rng) := prove_product key (tag proof_context index "ok1") (gt_commitment fits_gate)
    (bit_of (gw_holds fits_witness)) (gw_blinding fits_witness) (bit_of (gw_holds fresh_witness)) (gw_blinding fresh_witness) r_both rng in
  let asset_match := (rp_maker_asset policy =? pb_asset public)%N in
  let effective_active := m_active m && asset_match in
  let effective_active_blinding := if asset_match then r_active else s0 in
  let ok := both && effective_active in
  let (r_ok, rng) := scalar_random rng in
  let c_ok := commit key (bit_of ok) r_ok in
  let '(conj_second, _, rng) := prove_product key (tag proof_context index "ok2") c_both (bit_of both) r_both
    (bit_of effective_active) effective_active_blinding r_ok rng in
  cost ← (if (pb_direction public =? 1)%N then ok_or (checked_i64 (- bid)) "sell cost overflow" else Ok ask);
  let r_cost := if (pb_direction public =? 1)%N then (- r_bid)%S else r_ask in
  let c_cost := commit key (scalar cost) r_cost in
  let (r_gated, rng) := scalar_random rng in
  shifted_cost ← ok_or (checked_i64 (cost - pb_sentinel public)) "shifted cost overflow";
  let c_shifted := commit key (scalar shifted_cost) r_cost in
  let '(gate_cost, _, rng) := prove_product key (tag proof_context index "gate") c_ok (bit_of ok) r_ok (scalar shifted_cost) r_cost r_gated rng in
  let gated_value := if ok then shifted_cost else 0 in
  let c_gated := commit key (scalar gated_value) r_gated in
  effective ← ok_or (checked_i64 (gated_value + pb_sentinel public)) "effective cost overflow";
  ranked ← ok_or (checked_i64 (effective + pb_sentinel public)) "ranked cost overflow";
  packed ← ok_or (v ← checked_i64 (ranked * pb_n_slots public); i ← checked_i64 (Z.of_nat index); checked_i64 (v + i)) "packed key overflow";
  if packed <? 0 then Err "the sentinel does not cover the signed quote cost"
  else
    let r_packed := (r_gated * scalar (pb_n_slots public))%S in
    Ok (mkMakerKey (Z.to_N packed) r_packed (commit key (scalar_of_N (Z.to_N packed)) r_packed),
      mkMakerProof depth_proof skew_proof gate_cost (EligibilityBulletproof eligibility eligibility_commitments)
        (Disjunction active_bit) (Disjunction reference_bit) fits_gate fresh_gate (conj_first, conj_second)
        (mkMakerCommitments c_slope c_invcoef c_inv (commit key (scalar depth) r_depth) (commit key (scalar skew) r_skew)
          c_fits c_fresh c_active c_ok c_fresh_strict c_both c_cost c_gated c_shifted), rng).

Fixpoint prove_makers (circuit : QuoteCircuit) (public : Public) (proof_context : bytes) (qty : Z) (r_qty : Scalar) (index : nat)
    (makers : list (MakerWitness * RegisteredPolicy)) (rng : R) : result string (list (MakerKey * MakerProof) * R) :=
  match makers with
  | [] => Ok ([], rng)
  | (m, policy) :: makers =>
      '(k, p, rng) ← prove_maker circuit public proof_context qty r_qty index m policy rng;
      '(rest, rng) ← prove_makers circuit public proof_context qty r_qty (S index) makers rng;
      Ok ((k, p) :: rest, rng)
  end.

(** [(0..n).min_by_key]: the first index of a smallest key. *)
Fixpoint min_index (keys : list N) : option nat :=
  match keys with
  | [] => None
  | k :: rest =>
      match min_index rest with
      | None => Some 0%nat
      | Some j => if (k <=? nth j rest 0)%N then Some 0%nat else Some (S j)
      end
  end.

Definition prove (circuit : QuoteCircuit) (makers : list MakerWitness) (qty : Z) (direction : N) (now sentinel n_slots : Z) (context : bytes)
    (rng : R) (market_digest : bytes) (slot : N) : result string (QuoteProof * Public * R) :=
  let key := qc_key circuit in
  if (length makers =? 0)%nat then Err "a quote needs at least one registered maker"
  else if (1 <? direction)%N then Err "direction must be 0 (buy) or 1 (sell)"
  else if (n_slots <=? 0) || match usize_of n_slots with Some n => (n <? N.of_nat (length makers))%N | None => true end
  then Err "n_slots must provide a distinct low slot for every maker"
  else if existsb (fun m => negb (is_registered (m_blindings m))) makers
  then Err ("a maker has no registered blindings: a quote proof is about policies that were put on the record, "
    +:+ "and a witness without them is a policy invented now")
  else
    let registry := registered key <$> makers in
    let (r_qty, rng) := scalar_random rng in
    let c_qty := commit key (scalar qty) r_qty in
    let public := mkPublic c_qty now sentinel n_slots direction 0 0 registry (registry_digest registry) market_digest slot in
    let proof_context := statement_context context public in
    '(proved, rng) ← prove_makers circuit public proof_context qty r_qty 0 (zip makers registry) rng;
    let keys := mk_packed <$> proved.*1 in
    let key_blindings := mk_blinding <$> proved.*1 in
    let key_commitments := mk_commitment <$> proved.*1 in
    winner ← ok_or (min_index keys) "no makers";
    let value := nth winner keys 0%N in
    let winner_blinding := nth winner key_blindings s0 in
    let residual := shift key (nth winner key_commitments pid) value in
    let '(winner_opening, _, rng) := prove_zero_opening key (whole proof_context "winner") residual winner_blinding rng in
    let differences := (fun k => (k - value)%N) <$> keys in
    let diff_blindings := (fun r => (r - winner_blinding)%S) <$> key_blindings in
    width ← ok_or (bp_width (qc_span_bits circuit)) "minimality width exceeds 64";
    ctx ← ok_or (ranges width (length differences)) "unreachable: the width is one the crate takes";
    '(minimality, minimality_commitments) ← ctx_prove ctx (whole proof_context "minimality") differences diff_blindings;
    Ok (mkQuoteProof winner value proved.*2 winner_opening (MinimalityBulletproof minimality minimality_commitments) key_commitments, public, rng).
End Prove.

(** ** The verifier *)

Definition check_bit_proof (key : Pedersen) (commitment : Point) (proof : BitValidityProof) (transcript : Transcript) : bool :=
  match proof with
  | Disjunction proof => (verify_bit key transcript commitment proof).1
  | Square proof => (verify_product key transcript commitment commitment commitment proof).1
  end.

(** [2P - S + B - g] of a gate. *)
Definition gate_derived (key : Pedersen) (base : Point) (gate : Gate) : Point :=
  (gt_product_commitment gate + gt_product_commitment gate - base + gt_commitment gate - commit key s1 s0)%P.

Definition check_gate (key : Pedersen) (base : Point) (gate : Gate) (context : bytes) : bool :=
  check_bit_proof key (gt_commitment gate) (gt_bit_proof gate) (gate_bit_transcript context)
  && (verify_product key (gate_product_transcript context) (gt_commitment gate) base (gt_product_commitment gate) (gt_product gate)).1
  && same_point (gate_derived key base gate) (gt_witness_commitment gate).

(** The commitments of one maker's proof against the register. *)
Definition register_rows (key : Pedersen) (public : Public) (policy : RegisteredPolicy) (c : MakerCommitments) : list (string * Point * Point) := [
  ("slope", rp_slope policy, mc_slope c);
  ("invcoef", rp_invcoef policy, mc_invcoef c);
  ("inv", rp_inv policy, mc_inv c);
  ("maxqty", rp_maxqty policy, (mc_fits c + pb_qty_commitment public)%P);
  ("expiry", rp_expiry policy, (mc_fresh_strict c + commit key (scalar (pb_now public)) s0 + commit key s1 s0)%P);
  ("active", rp_active policy, mc_active c)
]%string.

Definition check_register (key : Pedersen) (public : Public) (entry : nat * (RegisteredPolicy * MakerProof)) : result refusal unit :=
  let '(index, (policy, maker)) := entry in
  for_each (fun '(name, on_record, in_proof) =>
    if negb (same_point on_record in_proof) then Err (Refused (NotOnTheRegister index name)) else Ok tt)
    (register_rows key public policy (mp_commitments maker)).

Definition require (b : bool) (why : Invalid) : result refusal unit := if b then Ok tt else Err (Refused why).

Definition check_eligibility (circuit : QuoteCircuit) (proof_context : bytes) (index : nat) (maker : MakerProof) : result refusal unit :=
  let key := qc_key circuit in
  let expected := [compress (gt_witness_commitment (mp_fits_gate maker)); compress (gt_witness_commitment (mp_fresh_gate maker))] in
  match mp_eligibility maker with
  | EligibilityBulletproof proof commitments =>
      _ ← require (length commitments =? 2)%nat (Malformed "each eligibility proof must carry exactly two commitments");
      _ ← require (bool_decide (commitments = expected)) (Eligibility index);
      width ← ok_or (bp_width (qc_eligibility_bits circuit + 2)) Panicked;
      ctx ← ok_or (ranges width 2) Panicked;
      require (ctx_verify ctx (tag proof_context index "eligibility") proof commitments) (Eligibility index)
  | EligibilityThreshold fits fresh =>
      _ ← require ((tp_bits fits =? qc_eligibility_bits circuit + 2)%nat && (tp_bits fresh =? qc_eligibility_bits circuit + 2)%nat) (Eligibility index);
      require (verify_threshold_range key (gt_witness_commitment (mp_fits_gate maker)) fits (gate_range_context proof_context index (bstr "fits"))
        && verify_threshold_range key (gt_witness_commitment (mp_fresh_gate maker)) fresh (gate_range_context proof_context index (bstr "fresh")))
        (Eligibility index)
  end.

(** The commitments the verifier derives for a maker. *)
Definition derived_fits (public : Public) (policy : RegisteredPolicy) : Point := (rp_maxqty policy - pb_qty_commitment public)%P.
Definition derived_fresh (key : Pedersen) (public : Public) (policy : RegisteredPolicy) : Point :=
  (rp_expiry policy - commit key (scalar (pb_now public)) s0 - commit key s1 s0)%P.
Definition effective_active (public : Public) (policy : RegisteredPolicy) (c : MakerCommitments) : Point :=
  (mc_active c * bit_of (rp_maker_asset policy =? pb_asset public)%N)%P.
Definition derived_cost (public : Public) (policy : RegisteredPolicy) (c : MakerCommitments) : Point :=
  let anchored := (rp_ask_level policy + rp_use_ref policy * scalar (pb_reference_price public))%P in
  let ask := (anchored + mc_depth c + mc_skew c)%P in
  let bid := (anchored - rp_spread policy - mc_depth c + mc_skew c)%P in
  if (pb_direction public =? 1)%N then (- bid)%P else ask.
Definition derived_shifted (key : Pedersen) (public : Public) (c : MakerCommitments) : Point := (mc_cost c - commit key (scalar (pb_sentinel public)) s0)%P.
Definition derived_key (key : Pedersen) (public : Public) (index : nat) (c : MakerCommitments) (twice : Z) : Point :=
  ((mc_gated c + commit key (scalar twice) s0) * scalar (pb_n_slots public) + commit key (scalar_of_N (N.of_nat index)) s0)%P.

Definition check_maker (circuit : QuoteCircuit) (public : Public) (key_commitments : list Point) (proof_context : bytes)
    (entry : nat * MakerProof) : result refusal unit :=
  let '(index, maker) := entry in
  let key := qc_key circuit in
  let c := mp_commitments maker in
  _ ← require (verify_product key (tag proof_context index "depth") (mc_slope c) (pb_qty_commitment public) (mc_depth c) (mp_depth maker)).1 (Depth index);
  _ ← require (verify_product key (tag proof_context index "skew") (mc_invcoef c) (mc_inv c) (mc_skew c) (mp_skew maker)).1 (Skew index);
  _ ← check_eligibility circuit proof_context index maker;
  _ ← require (check_bit_proof key (mc_active c) (mp_active_bit maker) (tag proof_context index "active")) (ActiveNotABit index);
  policy ← ok_or (pb_registry public !! index) Panicked;
  _ ← require (check_bit_proof key (rp_use_ref policy) (mp_reference_bit maker) (tag proof_context index "reference")) (ReferenceFlagNotABit index);
  _ ← require (same_point (derived_fits public policy) (mc_fits c)) (NotOnTheRegister index "fits");
  _ ← require (same_point (derived_fresh key public policy) (mc_fresh_strict c)) (NotOnTheRegister index "fresh");
  _ ← require (check_gate key (mc_fits c) (mp_fits_gate maker) (gate_context proof_context index (bstr "fits"))) (Eligibility index);
  _ ← require (check_gate key (mc_fresh_strict c) (mp_fresh_gate maker) (gate_context proof_context index (bstr "fresh"))) (Eligibility index);
  let (first, second) := mp_conjunction maker in
  _ ← require (verify_product key (tag proof_context index "ok1") (gt_commitment (mp_fits_gate maker)) (gt_commitment (mp_fresh_gate maker))
    (mc_both c) first).1 (Eligibility index);
  _ ← require (verify_product key (tag proof_context index "ok2") (mc_both c) (effective_active public policy c) (mc_ok c) second).1 (Eligibility index);
  _ ← require (same_point (derived_cost public policy c) (mc_cost c)) (Cost index);
  _ ← require (same_point (derived_shifted key public c) (mc_shifted_cost c)) (ShiftedCost index);
  _ ← require (verify_product key (tag proof_context index "gate") (mc_ok c) (mc_shifted_cost c) (mc_gated c) (mp_gate_cost maker)).1 (CostNotGated index);
  twice ← ok_or (checked_i64 (pb_sentinel public * 2)) (Refused (Malformed "sentinel overflow"));
  committed ← ok_or (key_commitments !! index) Panicked;
  require (same_point (derived_key key public index c twice) committed) (Key index).

Definition check_minimality (circuit : QuoteCircuit) (proof_context : bytes) (key_commitments : list Point) (winner : Point)
    (minimality : MinimalityProof) : result refusal unit :=
  let key := qc_key circuit in
  match minimality with
  | MinimalityBulletproof range_proof commitments =>
      let expected := (fun c => compress (c - winner)%P) <$> key_commitments in
      let padded := expected ++ replicate (next_power_of_two (length expected) - length expected) (compress pid) in
      _ ← require (bool_decide (commitments = padded)) NotMinimal;
      width ← ok_or (bp_width (qc_span_bits circuit)) Panicked;
      ctx ← ok_or (ranges width (length key_commitments)) Panicked;
      require (ctx_verify ctx (whole proof_context "minimality") range_proof commitments) NotMinimal
  | MinimalityThreshold proofs =>
      _ ← require (length proofs =? length key_commitments)%nat (Malformed "one minimality proof is required per maker");
      for_each (fun '(index, (commitment, range)) =>
        require ((tp_bits range =? qc_span_bits circuit)%nat
          && verify_threshold_range key (commitment - winner)%P range (minimality_context proof_context index)) NotMinimal)
        (enumerate (zip key_commitments proofs))
  end.

Definition verify (circuit : QuoteCircuit) (proof : QuoteProof) (public : Public) (context : bytes) : result refusal unit :=
  let key := qc_key circuit in
  let count := length (pb_registry public) in
  _ ← require (negb (count =? 0)%nat) NoMakers;
  _ ← require (negb (1 <? pb_direction public)%N) Direction;
  _ ← require (negb ((pb_n_slots public <=? 0) || match usize_of (pb_n_slots public) with Some n => (n <? N.of_nat count)%N | None => true end)) SlotCount;
  _ ← require (count =? length (qp_maker_proofs proof))%nat RegistrySize;
  _ ← require (length (qp_key_commitments proof) =? count)%nat (Malformed "one key commitment is required per maker");
  _ ← require (qp_winner_index proof <? count)%nat (Malformed "winner index is outside the registry");
  _ ← require (bool_decide (registry_digest (pb_registry public) = pb_registry_digest public)) RegistryDigest;
  let proof_context := statement_context context public in
  _ ← for_each (check_register key public) (enumerate (zip (pb_registry public) (qp_maker_proofs proof)));
  _ ← for_each (check_maker circuit public (qp_key_commitments proof) proof_context) (enumerate (qp_maker_proofs proof));
  winner ← ok_or (qp_key_commitments proof !! qp_winner_index proof) Panicked;
  _ ← require (verify_zero_opening key (whole proof_context "winner") (shift key winner (qp_winner_value proof)) (qp_winner_opening proof)).1 WinnerDoesNotOpen;
  check_minimality circuit proof_context (qp_key_commitments proof) winner (qp_minimality proof).
End Quote.
End Quote.
