(* ===== verification/QuoteProofs.v ===== *)
(** * Soundness of quote proofs

    What the statement means in integers ([spec_key]: the policy of a maker
    applied to the request, packed with its slot), the openings two accepted
    proofs give, and the theorem that an accepted proof names the cheapest
    eligible maker. *)

From S2P Require Import Prelude.
From S2P Require Import Interfaces.
From S2P Require Import Curve.
From S2P Require Import Shamir.
From S2P Require Import ShamirTheorems.
From S2P Require Import Sigma.
From S2P Require Import SigmaProofs.
From S2P Require Import BitrangeProofs.
From S2P Require Import Membership.
From S2P Require Import SigmaTheorems.
From S2P Require Import Threshold.
From S2P Require Import ThresholdTheorems.
From S2P Require Import ProductProofs.
From S2P Require Import ThresholdRange.
From S2P Require Import RangeRounds.
From S2P Require Import Instruction.
From S2P Require Import Quote.

Import Quote.

Open Scope Z_scope.

(** ** Integers in the scalar field *)

(** The group order exceeds [2 ^ 252]: no smaller positive integer is zero. *)
Class ScalarWide `{ScalarOps} : Prop := {
  scalar_wide_order : forall n, (0 < n < 2 ^ 252)%N -> scalar_of_N n <> s0
}.

Section Integers.
Context `{SL : ScalarLaws}.
Add Field quote_integers_field : scalar_field.

Lemma scalar_nonneg z : 0 <= z -> scalar z = scalar_of_N (Z.to_N z).
Proof. intros Hz. unfold scalar. by destruct (Z.ltb_spec z 0); [lia|]. Qed.

Lemma scalar_opp z : scalar (- z) = (- scalar z)%S.
Proof.
  unfold scalar. destruct (Z.ltb_spec z 0), (Z.ltb_spec (- z) 0); try lia.
  - replace (Z.to_N (- z)) with (Z.abs_N z) by lia. ring.
  - replace (Z.abs_N (- z)) with (Z.to_N z) by lia. done.
  - assert (z = 0) as -> by lia. change (s0 = (- s0)%S). ring.
Qed.

Lemma scalar_add_nonneg a b : 0 <= a -> 0 <= b -> scalar (a + b) = (scalar a + scalar b)%S.
Proof. intros Ha Hb. rewrite !scalar_nonneg by lia. rewrite Z2N.inj_add by lia. apply scalar_of_N_add. Qed.

Lemma scalar_sub_nonneg a b : 0 <= a -> 0 <= b -> scalar (a - b) = (scalar a - scalar b)%S.
Proof.
  intros Ha Hb. destruct (Z.le_ge_cases b a) as [Hle|Hle].
  - replace (scalar a) with (scalar (a - b + b)) by (f_equal; lia). rewrite scalar_add_nonneg by lia. ring.
  - replace (scalar b) with (scalar (b - a + a)) by (f_equal; lia). rewrite scalar_add_nonneg by lia.
    replace (a - b) with (- (b - a)) by lia. rewrite scalar_opp. ring.
Qed.

(** Every integer is a difference of two natural numbers. *)
Lemma split_Z z : exists a b, 0 <= a /\ 0 <= b /\ z = a - b.
Proof. destruct (Z.le_ge_cases 0 z); [exists z, 0 | exists 0, (- z)]; lia. Qed.

Lemma scalar_add a b : scalar (a + b) = (scalar a + scalar b)%S.
Proof.
  destruct (split_Z a) as (a1 & a2 & ? & ? & ->), (split_Z b) as (b1 & b2 & ? & ? & ->).
  replace (a1 - a2 + (b1 - b2)) with ((a1 + b1) - (a2 + b2)) by lia.
  rewrite !scalar_sub_nonneg, !scalar_add_nonneg by lia. ring.
Qed.

Lemma scalar_sub a b : scalar (a - b) = (scalar a - scalar b)%S.
Proof. replace (a - b) with (a + - b) by lia. rewrite scalar_add, scalar_opp. ring. Qed.

Lemma scalar_mul a b : scalar (a * b) = (scalar a * scalar b)%S.
Proof.
  assert (forall a b, 0 <= a -> 0 <= b -> scalar (a * b) = (scalar a * scalar b)%S) as Hn.
  { intros x y Hx Hy. rewrite !scalar_nonneg by lia. rewrite Z2N.inj_mul by lia. apply scalar_of_N_mul. }
  destruct (split_Z a) as (a1 & a2 & ? & ? & ->), (split_Z b) as (b1 & b2 & ? & ? & ->).
  replace ((a1 - a2) * (b1 - b2)) with ((a1 * b1 + a2 * b2) - (a1 * b2 + a2 * b1)) by lia.
  rewrite !scalar_sub_nonneg, !scalar_add_nonneg by nia. rewrite !Hn by lia. ring.
Qed.

Lemma scalar_0 : scalar 0 = s0.
Proof. done. Qed.
Lemma scalar_1 : scalar 1 = s1.
Proof. done. Qed.
Lemma scalar_nat n : scalar_of_N n = scalar (Z.of_N n).
Proof. rewrite scalar_nonneg by lia. by rewrite N2Z.id. Qed.

(** Integers less than [2 ^ 252] apart are told apart. *)
Lemma scalar_inj `{!ScalarWide} a b : Z.abs (a - b) < 2 ^ 252 -> scalar a = scalar b -> a = b.
Proof.
  intros Hd E. assert (scalar (a - b) = s0) as E0 by (rewrite scalar_sub, E; ring).
  destruct (Z.lt_trichotomy a b) as [H1|[|H1]]; [|done|].
  - destruct (scalar_wide_order (Z.abs_N (b - a))); [lia|]. rewrite scalar_nat.
    replace (Z.of_N (Z.abs_N (b - a))) with (- (a - b)) by lia. rewrite scalar_opp, E0. ring.
  - destruct (scalar_wide_order (Z.abs_N (a - b))); [lia|]. rewrite scalar_nat.
    by replace (Z.of_N (Z.abs_N (a - b))) with (a - b) by lia.
Qed.

(** A gate decides a sign: a bit [b] for which [2 b s - s + b - 1] is a small
    natural number is one exactly when [s] is not negative. *)
Lemma gate_decides `{!ScalarWide} (b : Scalar) (s : Z) (t : N) :
  is_bit b -> Z.abs s <= 2 ^ 64 -> (t < 2 ^ 64)%N ->
  (b * scalar s + b * scalar s - scalar s + b - s1)%S = scalar_of_N t ->
  b = scalar (if 0 <=? s then 1 else 0).
Proof.
  intros Hb Hs Ht E. rewrite scalar_nat in E. destruct Hb as [-> | ->].
  - assert (scalar (- s - 1) = scalar (Z.of_N t)) as E'.
    { rewrite <- E, scalar_sub, scalar_opp, scalar_1. ring. }
    apply scalar_inj in E'; [|lia]. by destruct (Z.leb_spec 0 s); [lia|].
  - assert (scalar s = scalar (Z.of_N t)) as E' by (rewrite <- E; ring).
    apply scalar_inj in E'; [|lia]. by destruct (Z.leb_spec 0 s); [|lia].
Qed.
End Integers.

(** ** What the statement means *)

(** A registered policy with the integers and the blindings behind it. *)
Record OpenPolicy `{ScalarOps} := mkOpenPolicy {
  o_maker_asset : N;
  o_ask_level : Z * Scalar; o_spread : Z * Scalar; o_slope : Z * Scalar; o_invcoef : Z * Scalar; o_inv : Z * Scalar;
  o_maxqty : Z * Scalar; o_expiry : Z * Scalar; o_active : Z * Scalar; o_use_ref : Z * Scalar
}.

Section Meaning.
Context `{SO : ScalarOps} `{G : !GroupOps}.

Definition opening_of (v : Z * Scalar) : Scalar * Scalar := (scalar v.1, v.2).
Definition commit_of (key : Pedersen) (v : Scalar * Scalar) : Point := commit key v.1 v.2.

Definition opened_policy (key : Pedersen) (o : OpenPolicy) : RegisteredPolicy :=
  let c v := commit_of key (opening_of v) in
  mkRegisteredPolicy (o_maker_asset o) (c (o_ask_level o)) (c (o_spread o)) (c (o_slope o)) (c (o_invcoef o)) (c (o_inv o))
    (c (o_maxqty o)) (c (o_expiry o)) (c (o_active o)) (c (o_use_ref o)).

Definition policy_i64 (o : OpenPolicy) : Prop :=
  Forall (fun v : Z * Scalar => I64 v.1) [o_ask_level o; o_spread o; o_slope o; o_invcoef o; o_inv o; o_maxqty o; o_expiry o; o_active o; o_use_ref o].

Definition public_i64 (public : Public) : Prop :=
  I64 (pb_now public) /\ I64 (pb_sentinel public) /\ I64 (pb_n_slots public) /\ I64 (pb_reference_price public).

(** The maker may serve the request: size, freshness, activity and market. *)
Definition eligible (public : Public) (qty : Z) (o : OpenPolicy) : bool :=
  (qty <=? (o_maxqty o).1) && (pb_now public <? (o_expiry o).1) && ((o_active o).1 =? 1) && (o_maker_asset o =? pb_asset public)%N.

(** The ask the user pays, or the bid the user receives, negated. *)
Definition spec_cost (public : Public) (qty : Z) (o : OpenPolicy) : Z :=
  let anchored := (o_ask_level o).1 + (o_use_ref o).1 * pb_reference_price public in
  let depth := (o_slope o).1 * qty in
  let skew := (o_invcoef o).1 * (o_inv o).1 in
  if (pb_direction public =? 1)%N then - (anchored - (o_spread o).1 - depth + skew) else anchored + depth + skew.

Definition effective_cost (public : Public) (qty : Z) (o : OpenPolicy) : Z :=
  if eligible public qty o then spec_cost public qty o else pb_sentinel public.

Definition spec_key (public : Public) (qty : Z) (index : nat) (o : OpenPolicy) : Z :=
  (effective_cost public qty o + pb_sentinel public) * pb_n_slots public + Z.of_nat index.

(** No key leaves the integers the field tells apart. *)
Lemma i64_product a b : I64 a -> I64 b -> Z.abs (a * b) <= 2 ^ 126.
Proof. unfold I64. intros Ha Hb. rewrite Z.abs_mul. nia. Qed.

Lemma spec_cost_bound public qty o : policy_i64 o -> I64 qty -> public_i64 public -> Z.abs (spec_cost public qty o) <= 2 ^ 129.
Proof.
  intros Ho Hq (_ & _ & _ & Hr). repeat (apply Forall_cons in Ho as [? Ho]).
  pose proof (i64_product (o_use_ref o).1 (pb_reference_price public) ltac:(done) ltac:(done)).
  pose proof (i64_product (o_slope o).1 qty ltac:(done) ltac:(done)).
  pose proof (i64_product (o_invcoef o).1 (o_inv o).1 ltac:(done) ltac:(done)).
  unfold spec_cost, I64 in *. destruct (_ =? _)%N; lia.
Qed.

Lemma spec_key_bound public qty index o : policy_i64 o -> I64 qty -> public_i64 public -> Z.of_nat index < 2 ^ 64 ->
  Z.abs (spec_key public qty index o) <= 2 ^ 194.
Proof.
  intros Ho Hq Hp Hi. pose proof (spec_cost_bound public qty o Ho Hq Hp). destruct Hp as (_ & Hs & Hn & _).
  assert (Z.abs (effective_cost public qty o + pb_sentinel public) <= 2 ^ 130) as Hc.
  { unfold effective_cost, I64 in *. destruct (eligible _ _ _); lia. }
  unfold spec_key. pose proof (Z.abs_mul (effective_cost public qty o + pb_sentinel public) (pb_n_slots public)).
  assert (Z.abs ((effective_cost public qty o + pb_sentinel public) * pb_n_slots public) <= 2 ^ 193) by (unfold I64 in *; nia).
  lia.
Qed.

(** Keys order makers by their effective cost, then by their slot. *)
Lemma key_order public qty i j o o' : 0 <= Z.of_nat i < pb_n_slots public -> 0 <= Z.of_nat j < pb_n_slots public ->
  spec_key public qty i o <= spec_key public qty j o' ->
  effective_cost public qty o < effective_cost public qty o'
  \/ effective_cost public qty o = effective_cost public qty o' /\ (i <= j)%nat.
Proof. unfold spec_key. intros Hi Hj Hk. nia. Qed.
End Meaning.

(** ** The openings of a quote *)

Section Openings.
Context `{SL : ScalarLaws} `{G : !GroupOps} `{L : !GroupLaws}.
Add Field quote_openings_field : scalar_field.

Definition o_add (a b : Scalar * Scalar) : Scalar * Scalar := ((a.1 + b.1)%S, (a.2 + b.2)%S).
Definition o_sub (a b : Scalar * Scalar) : Scalar * Scalar := ((a.1 - b.1)%S, (a.2 - b.2)%S).
Definition o_scale (a : Scalar * Scalar) (s : Scalar) : Scalar * Scalar := ((a.1 * s)%S, (a.2 * s)%S).
Definition o_const (v : Scalar) : Scalar * Scalar := (v, s0).

Lemma opens_add key A B a b : opens key (A, a) -> opens key (B, b) -> opens key ((A + B)%P, o_add a b).
Proof. unfold opens, o_add, commit. cbn. intros -> ->. module_split; ring. Qed.
Lemma opens_sub key A B a b : opens key (A, a) -> opens key (B, b) -> opens key ((A - B)%P, o_sub a b).
Proof. unfold opens, o_sub, commit. cbn. intros -> ->. module_split; ring. Qed.
Lemma opens_scale key A a s : opens key (A, a) -> opens key ((A * s)%P, o_scale a s).
Proof. unfold opens, o_scale, commit. cbn. intros ->. module_split; ring. Qed.
Lemma opens_const key v : opens key (commit key v s0, o_const v).
Proof. done. Qed.
Lemma opens_commit key a : opens key (commit_of key a, a).
Proof. done. Qed.
Lemma opens_opp key A a : opens key (A, a) -> opens key ((- A)%P, o_scale a (- s1)%S).
Proof. unfold opens, o_scale, commit. cbn. intros ->. module_split; ring. Qed.
End Openings.

Create HintDb openings.
#[export] Hint Resolve opens_add opens_sub opens_scale opens_const opens_commit opens_opp : openings.

(** Two proofs with the same first moves, over two oracles. *)
Section Forks.
Context `{SL : ScalarLaws} `{G : !GroupOps} `{L : !GroupLaws}.
Variables (T T' : TranscriptOps).

Definition product_forked (tr : @Transcript T) (tr' : @Transcript T') (c_a c_b c_c : Point) (p p' : ProductProof) : Prop :=
  pp_t_factor p = pp_t_factor p' /\ pp_t_product p = pp_t_product p'
  /\ product_at (T:=T) c_a c_b c_c p tr <> product_at (T:=T') c_a c_b c_c p' tr'.

Definition product_run (tr : @Transcript T) (tr' : @Transcript T') (c_a c_b c_c : Point) (p p' : ProductProof) (a : Scalar * Scalar) : Scalar * Scalar :=
  product_opening a p p' (product_at (T:=T) c_a c_b c_c p tr) (product_at (T:=T') c_a c_b c_c p' tr').
Definition product_entries (tr : @Transcript T) (tr' : @Transcript T') (c_a c_b c_c : Point) (p p' : ProductProof) (a : Scalar * Scalar) : list Opened :=
  product_opened a c_b c_c p p' (product_at (T:=T) c_a c_b c_c p tr) (product_at (T:=T') c_a c_b c_c p' tr').

Lemma product_entries_open key tr tr' c_a c_b c_c p p' a :
  (verify_product (T:=T) key tr c_a c_b c_c p).1 = true -> (verify_product (T:=T') key tr' c_a c_b c_c p').1 = true ->
  product_forked tr tr' c_a c_b c_c p p' -> opens key (c_a, a) -> Forall (opens key) (product_entries tr tr' c_a c_b c_c p p' a).
Proof. intros Hv Hv' (E1 & E2 & Hc) Ha. by apply product_opened_opens. Qed.

Lemma product_run_opens key tr tr' c_a c_b c_c p p' a :
  (verify_product (T:=T) key tr c_a c_b c_c p).1 = true -> (verify_product (T:=T') key tr' c_a c_b c_c p').1 = true ->
  product_forked tr tr' c_a c_b c_c p p' -> opens key (c_a, a) -> opens key (c_c, product_run tr tr' c_a c_b c_c p p' a).
Proof.
  intros Hv Hv' Hf Ha. pose proof (product_entries_open key tr tr' c_a c_b c_c p p' a Hv Hv' Hf Ha) as Ho.
  by apply Forall_cons in Ho as [_ [? _]%Forall_cons].
Qed.

(** In a coherent ledger a product is the product of the values in it. *)
Lemma product_value ledger tr tr' c_a c_b c_c p p' a b :
  coherent ledger -> product_entries tr tr' c_a c_b c_c p p' a ⊆ ledger -> (c_b, b) ∈ ledger ->
  (product_run tr tr' c_a c_b c_c p p' a).1 = (a.1 * b.1)%S.
Proof.
  intros Hc Hs Hb. unfold product_run. cbn [fst product_opening]. f_equal.
  apply (Hc (c_b, _) (c_b, b) (Hs _ (list_elem_of_here _ _)) Hb). done.
Qed.

Definition bit_forked (tr : @Transcript T) (tr' : @Transcript T') (C : Point) (p p' : BitValidityProof) : Prop :=
  match p, p' with
  | Disjunction p, Disjunction p' => bp_t0 p = bp_t0 p' /\ bp_t1 p = bp_t1 p' /\ bit_at (T:=T) C p tr <> bit_at (T:=T') C p' tr'
  | Square p, Square p' => product_forked tr tr' C C C p p'
  | _, _ => False
  end.

Definition bit_opening (tr : @Transcript T) (tr' : @Transcript T') (C : Point) (p p' : BitValidityProof) : Scalar * Scalar :=
  match p, p' with
  | Disjunction p, Disjunction p' =>
      let b := extract_bit p p' (bit_at (T:=T) C p tr) (bit_at (T:=T') C p' tr') in (bit_scalar b.1, b.2)
  | Square p, Square p' => factor_opening p p' (product_at (T:=T) C C C p tr) (product_at (T:=T') C C C p' tr')
  | _, _ => (s0, s0)
  end.

Definition bit_entries (tr : @Transcript T) (tr' : @Transcript T') (C : Point) (p p' : BitValidityProof) : list Opened :=
  (C, bit_opening tr tr' C p p') ::
  match p, p' with
  | Square p, Square p' => square_opened C p p' (product_at (T:=T) C C C p tr) (product_at (T:=T') C C C p' tr')
  | _, _ => []
  end.

Lemma bit_entries_open key tr tr' C p p' :
  check_bit_proof (T:=T) key C p tr = true -> check_bit_proof (T:=T') key C p' tr' = true ->
  bit_forked tr tr' C p p' -> Forall (opens key) (bit_entries tr tr' C p p').
Proof.
  destruct p as [p|p], p' as [p'|p']; cbn [check_bit_proof bit_forked bit_entries bit_opening]; intros Hv Hv' Hf; try done.
  - destruct Hf as (E0 & E1 & Hc). repeat constructor. unfold opens. cbn [fst snd].
    apply verify_bit_iff in Hv as [E2 E3]. apply verify_bit_iff in Hv' as [E2' E3'].
    exact (extract_bit_opens key C p p' _ _ E2 E3 E2' E3' E0 E1 Hc).
  - destruct Hf as (E0 & E1 & Hc). pose proof (square_opened_opens T T' key C p p' tr tr' Hv Hv' E0 E1 Hc) as Ho.
    constructor; [exact (Forall_inv Ho) | exact Ho].
Qed.

Lemma bit_value ledger tr tr' C p p' : bit_forked tr tr' C p p' -> bit_entries tr tr' C p p' ⊆ ledger -> coherent ledger ->
  is_bit (bit_opening tr tr' C p p').1.
Proof.
  destruct p as [p|p], p' as [p'|p']; cbn [bit_forked bit_entries bit_opening]; intros Hf Hs Hc; try done.
  - destruct (extract_bit p p' _ _) as [[] r]; [by right | by left].
  - apply (square_coherent ledger C p p'); [|done]. intros o Ho. apply Hs. by apply elem_of_cons; right.
Qed.
End Forks.

(** ** What an accepted proof has passed *)

Lemma require_ok b why : require b why = Ok tt <-> b = true.
Proof. unfold require. by destruct b. Qed.

Lemma require_bind b why {A} (f : unit -> result refusal A) a : (require b why ≫= f) = Ok a <-> b = true /\ f tt = Ok a.
Proof. unfold require. destruct b; cbn; [tauto|]. split; [done | by intros []]. Qed.

Section Checked.
Context `{SL : ScalarLaws} `{G : !GroupOps} `{CL : !CompressLaws} `{T : TranscriptOps} `{B : !Bulletproofs}.
Variables (circuit : QuoteCircuit) (public : Public) (keys : list Point) (ctx : bytes).
Abbreviation key := (qc_key circuit).
Abbreviation product_ok name c_a c_b c_c p index := ((verify_product key (tag ctx index name) c_a c_b c_c p).1 = true).

Record maker_checked (index : nat) (policy : RegisteredPolicy) (m : MakerProof) : Prop := {
  ck_slope : rp_slope policy = mc_slope (mp_commitments m);
  ck_invcoef : rp_invcoef policy = mc_invcoef (mp_commitments m);
  ck_inv : rp_inv policy = mc_inv (mp_commitments m);
  ck_active : rp_active policy = mc_active (mp_commitments m);
  ck_depth : product_ok "depth" (mc_slope (mp_commitments m)) (pb_qty_commitment public) (mc_depth (mp_commitments m)) (mp_depth m) index;
  ck_skew : product_ok "skew" (mc_invcoef (mp_commitments m)) (mc_inv (mp_commitments m)) (mc_skew (mp_commitments m)) (mp_skew m) index;
  ck_eligibility : check_eligibility circuit ctx index m = Ok tt;
  ck_active_bit : check_bit_proof key (mc_active (mp_commitments m)) (mp_active_bit m) (tag ctx index "active") = true;
  ck_reference_bit : check_bit_proof key (rp_use_ref policy) (mp_reference_bit m) (tag ctx index "reference") = true;
  ck_fits : derived_fits public policy = mc_fits (mp_commitments m);
  ck_fresh : derived_fresh key public policy = mc_fresh_strict (mp_commitments m);
  ck_fits_gate : check_gate key (mc_fits (mp_commitments m)) (mp_fits_gate m) (gate_context ctx index (bstr "fits")) = true;
  ck_fresh_gate : check_gate key (mc_fresh_strict (mp_commitments m)) (mp_fresh_gate m) (gate_context ctx index (bstr "fresh")) = true;
  ck_both : product_ok "ok1" (gt_commitment (mp_fits_gate m)) (gt_commitment (mp_fresh_gate m)) (mc_both (mp_commitments m)) (mp_conjunction m).1 index;
  ck_ok : product_ok "ok2" (mc_both (mp_commitments m)) (effective_active public policy (mp_commitments m)) (mc_ok (mp_commitments m)) (mp_conjunction m).2 index;
  ck_cost : derived_cost public policy (mp_commitments m) = mc_cost (mp_commitments m);
  ck_shifted : derived_shifted key public (mp_commitments m) = mc_shifted_cost (mp_commitments m);
  ck_gated : product_ok "gate" (mc_ok (mp_commitments m)) (mc_shifted_cost (mp_commitments m)) (mc_gated (mp_commitments m)) (mp_gate_cost m) index;
  ck_key : keys !! index = Some (derived_key key public index (mp_commitments m) (pb_sentinel public * 2))
}.

Lemma maker_passed index policy m :
  pb_registry public !! index = Some policy ->
  check_register key public (index, (policy, m)) = Ok tt ->
  check_maker circuit public keys ctx (index, m) = Ok tt ->
  maker_checked index policy m.
Proof.
  intros Hp Hr Hm. unfold check_register in Hr. apply for_each_ok in Hr. unfold register_rows in Hr.
  rewrite !Forall_cons in Hr. destruct Hr as (R1 & R2 & R3 & _ & _ & R4 & _).
  unfold check_maker in Hm. rewrite Hp in Hm. cbn [ok_or] in Hm. destruct (mp_conjunction m) as [first second] eqn:Hconj.
  repeat (rewrite require_bind in Hm; let Hb := fresh "Hb" in destruct Hm as [Hb Hm]).
  apply bind_ok in Hm as ([] & He & Hm).
  repeat first [ rewrite require_bind in Hm; let Hb := fresh "Hb" in destruct Hm as [Hb Hm] | progress cbn [mbind result_bind] in Hm ].
  apply bind_ok in Hm as (twice & Htw & Hm). apply ok_or_ok in Htw. unfold checked_i64 in Htw.
  destruct (fits_i64 _); [|done]. injection Htw as <-. apply bind_ok in Hm as (k & Hk & Hm). apply ok_or_ok in Hk.
  apply require_ok in Hm.
  rewrite ?same_point_spec in *.
  assert (forall (P Q : Point) e, (if negb (same_point P Q) then Err e else Ok tt) = @Ok refusal unit tt -> P = Q) as Hsame.
  { intros P Q e. destruct (same_point P Q) eqn:E; [|done]. by intros _; apply same_point_spec. }
  split; rewrite ?Hconj; eauto. by rewrite Hk, Hm.
Qed.
End Checked.

(** ** Gates *)

Section Gates.
Context `{SL : ScalarLaws} `{W : !ScalarWide} `{G : !GroupOps} `{L : !GroupLaws} `{CL : !CompressLaws}.
Variables (T T' : TranscriptOps) (key : Pedersen).
Add Field quote_gates_field : scalar_field.

Record gate_forked (ctx : bytes) (base : Point) (gate gate' : Gate) : Prop := {
  gf_commitment : gt_commitment gate = gt_commitment gate';
  gf_product_commitment : gt_product_commitment gate = gt_product_commitment gate';
  gf_witness_commitment : gt_witness_commitment gate = gt_witness_commitment gate';
  gf_bit : bit_forked T T' (gate_bit_transcript ctx) (gate_bit_transcript ctx) (gt_commitment gate) (gt_bit_proof gate) (gt_bit_proof gate');
  gf_product : product_forked T T' (gate_product_transcript ctx) (gate_product_transcript ctx) (gt_commitment gate) base
    (gt_product_commitment gate) (gt_product gate) (gt_product gate')
}.

Definition gate_bit (ctx : bytes) (gate gate' : Gate) : Scalar * Scalar :=
  bit_opening T T' (gate_bit_transcript ctx) (gate_bit_transcript ctx) (gt_commitment gate) (gt_bit_proof gate) (gt_bit_proof gate').
Definition gate_product (ctx : bytes) (base : Point) (gate gate' : Gate) : Scalar * Scalar :=
  product_run T T' (gate_product_transcript ctx) (gate_product_transcript ctx) (gt_commitment gate) base (gt_product_commitment gate)
    (gt_product gate) (gt_product gate') (gate_bit ctx gate gate').
Definition gate_witness (ctx : bytes) (base : Point) (s : Scalar * Scalar) (gate gate' : Gate) : Scalar * Scalar :=
  let P := gate_product ctx base gate gate' in
  o_sub (o_add (o_sub (o_add P P) s) (gate_bit ctx gate gate')) (o_const s1).

Definition gate_entries (ctx : bytes) (base : Point) (s : Scalar * Scalar) (gate gate' : Gate) : list Opened :=
  bit_entries T T' (gate_bit_transcript ctx) (gate_bit_transcript ctx) (gt_commitment gate) (gt_bit_proof gate) (gt_bit_proof gate')
  ++ product_entries T T' (gate_product_transcript ctx) (gate_product_transcript ctx) (gt_commitment gate) base
       (gt_product_commitment gate) (gt_product gate) (gt_product gate') (gate_bit ctx gate gate')
  ++ [(gt_witness_commitment gate, gate_witness ctx base s gate gate')].

Lemma gate_parts `{T0 : TranscriptOps} base gate ctx : check_gate key base gate ctx = true <->
  check_bit_proof key (gt_commitment gate) (gt_bit_proof gate) (gate_bit_transcript ctx) = true
  /\ (verify_product key (gate_product_transcript ctx) (gt_commitment gate) base (gt_product_commitment gate) (gt_product gate)).1 = true
  /\ gate_derived key base gate = gt_witness_commitment gate.
Proof. unfold check_gate. rewrite !andb_true_iff, same_point_spec. tauto. Qed.

Lemma gate_entries_open ctx base s gate gate' :
  check_gate (T:=T) key base gate ctx = true -> check_gate (T:=T') key base gate' ctx = true -> gate_forked ctx base gate gate' ->
  opens key (base, s) ->
  opens key (gt_commitment gate, gate_bit ctx gate gate') /\ Forall (opens key) (gate_entries ctx base s gate gate').
Proof.
  rewrite !gate_parts. intros (Hb & Hp & Hd) (Hb' & Hp' & _) [E1 E2 E3 F1 F2] Hs. rewrite <- E1, <- E2 in *.
  pose proof (bit_entries_open T T' key _ _ _ _ _ Hb Hb' F1) as Ho. pose proof (Forall_inv Ho) as Hbit. split; [exact Hbit|].
  pose proof (product_entries_open T T' key _ _ _ _ _ _ _ _ Hp Hp' F2 Hbit) as Hpo.
  pose proof (product_run_opens T T' key _ _ _ _ _ _ _ _ Hp Hp' F2 Hbit) as Hpr.
  unfold gate_entries. rewrite !Forall_app. split; [exact Ho|]. split; [exact Hpo|]. repeat constructor.
  rewrite <- Hd. unfold gate_derived, gate_witness. eauto 10 with openings.
Qed.

Lemma gate_value ledger ctx base s z gate gate' t r :
  coherent ledger -> gate_forked ctx base gate gate' -> gate_entries ctx base s gate gate' ⊆ ledger ->
  (base, s) ∈ ledger -> s.1 = scalar z -> Z.abs z <= 2 ^ 64 ->
  (gt_witness_commitment gate, (scalar_of_N t, r)) ∈ ledger -> (t < 2 ^ 64)%N ->
  (gate_bit ctx gate gate').1 = scalar (if 0 <=? z then 1 else 0).
Proof.
  intros Hc [_ _ _ F1 F2] Hs Hbase Hz Hzb Hw Ht. unfold gate_entries in Hs.
  assert (forall l1 l2 l3 : list Opened, l1 ++ l2 ++ l3 ⊆ ledger -> l1 ⊆ ledger /\ l2 ⊆ ledger /\ l3 ⊆ ledger) as Hsplit by set_solver.
  apply Hsplit in Hs as (Hs1 & Hs2 & Hs3). clear Hsplit.
  pose proof (bit_value T T' ledger _ _ _ _ _ F1 Hs1 Hc) as Hbit. fold (gate_bit ctx gate gate') in Hbit.
  pose proof (product_value T T' ledger _ _ _ _ _ _ _ _ s Hc Hs2 Hbase) as Hprod. fold (gate_product ctx base gate gate') in Hprod.
  pose proof (Hc (_, _) (_, _) (Hs3 _ (list_elem_of_here _ _)) Hw eq_refl) as E. cbn [fst snd] in E.
  unfold gate_witness in E. cbn [o_sub o_add o_const fst snd] in E. rewrite Hprod, Hz in E.
  apply (gate_decides _ z t Hbit Hzb Ht E).
Qed.
End Gates.

(** ** Makers *)

Section Makers.
Context `{SL : ScalarLaws} `{W : !ScalarWide} `{G : !GroupOps} `{L : !GroupLaws} `{CL : !CompressLaws}.
Variables (T T' : TranscriptOps) (B : @Bulletproofs T _ G) (B' : @Bulletproofs T' _ G).
Add Field quote_makers_field : scalar_field.
Variables (circuit : QuoteCircuit) (public : Public) (ctx : bytes) (qty : Z * Scalar).
Abbreviation key := (qc_key circuit).

Section OneMaker.
Variables (index : nat) (o : OpenPolicy) (m : MakerProof (B:=B)) (m' : MakerProof (B:=B')).
Abbreviation policy := (opened_policy key o).
Abbreviation c := (mp_commitments m).
Abbreviation tagged f name := (f (tag (T:=T) ctx index name) (tag (T:=T') ctx index name)).
Abbreviation forked_at name := (tagged (product_forked T T') name).
Abbreviation run_at name := (tagged (product_run T T') name).
Abbreviation entries_at name := (tagged (product_entries T T') name).

(** Both proofs show their ranges bit by bit. *)
Definition eligibility_forked : Prop :=
  match mp_eligibility m, mp_eligibility m' with
  | EligibilityThreshold fits fresh, EligibilityThreshold fits' fresh' =>
      range_forked T T' (gt_witness_commitment (mp_fits_gate m)) (gate_range_context ctx index (bstr "fits")) fits fits'
      /\ range_forked T T' (gt_witness_commitment (mp_fresh_gate m)) (gate_range_context ctx index (bstr "fresh")) fresh fresh'
  | _, _ => False
  end.

Record maker_forked : Prop := {
  mf_commitments : mp_commitments m = mp_commitments m';
  mf_depth : forked_at "depth" (mc_slope c) (pb_qty_commitment public) (mc_depth c) (mp_depth m) (mp_depth m');
  mf_skew : forked_at "skew" (mc_invcoef c) (mc_inv c) (mc_skew c) (mp_skew m) (mp_skew m');
  mf_eligibility : eligibility_forked;
  mf_active : tagged (bit_forked T T') "active" (mc_active c) (mp_active_bit m) (mp_active_bit m');
  mf_reference : tagged (bit_forked T T') "reference" (rp_use_ref policy) (mp_reference_bit m) (mp_reference_bit m');
  mf_fits : gate_forked T T' (gate_context ctx index (bstr "fits")) (mc_fits c) (mp_fits_gate m) (mp_fits_gate m');
  mf_fresh : gate_forked T T' (gate_context ctx index (bstr "fresh")) (mc_fresh_strict c) (mp_fresh_gate m) (mp_fresh_gate m');
  mf_both : forked_at "ok1" (gt_commitment (mp_fits_gate m)) (gt_commitment (mp_fresh_gate m)) (mc_both c) (mp_conjunction m).1 (mp_conjunction m').1;
  mf_ok : forked_at "ok2" (mc_both c) (effective_active public policy c) (mc_ok c) (mp_conjunction m).2 (mp_conjunction m').2;
  mf_gated : forked_at "gate" (mc_ok c) (mc_shifted_cost c) (mc_gated c) (mp_gate_cost m) (mp_gate_cost m')
}.

(** The openings, in the order the verifier reads the proof. *)
Definition w_depth := run_at "depth" (mc_slope c) (pb_qty_commitment public) (mc_depth c) (mp_depth m) (mp_depth m') (opening_of (o_slope o)).
Definition w_skew := run_at "skew" (mc_invcoef c) (mc_inv c) (mc_skew c) (mp_skew m) (mp_skew m') (opening_of (o_invcoef o)).
Definition w_fits := o_sub (opening_of (o_maxqty o)) (opening_of qty).
Definition w_fresh := o_sub (o_sub (opening_of (o_expiry o)) (o_const (scalar (pb_now public)))) (o_const s1).
Definition w_fits_bit := gate_bit T T' (gate_context ctx index (bstr "fits")) (mp_fits_gate m) (mp_fits_gate m').
Definition w_fresh_bit := gate_bit T T' (gate_context ctx index (bstr "fresh")) (mp_fresh_gate m) (mp_fresh_gate m').
Definition w_both := run_at "ok1" (gt_commitment (mp_fits_gate m)) (gt_commitment (mp_fresh_gate m)) (mc_both c)
  (mp_conjunction m).1 (mp_conjunction m').1 w_fits_bit.
Definition w_effective := o_scale (opening_of (o_active o)) (bit_of (o_maker_asset o =? pb_asset public)%N).
Definition w_ok := run_at "ok2" (mc_both c) (effective_active public policy c) (mc_ok c) (mp_conjunction m).2 (mp_conjunction m').2 w_both.
Definition w_cost :=
  let anchored := o_add (opening_of (o_ask_level o)) (o_scale (opening_of (o_use_ref o)) (scalar (pb_reference_price public))) in
  if (pb_direction public =? 1)%N
  then o_scale (o_add (o_sub (o_sub anchored (opening_of (o_spread o))) w_depth) w_skew) (- s1)%S
  else o_add (o_add anchored w_depth) w_skew.
Definition w_shifted := o_sub w_cost (o_const (scalar (pb_sentinel public))).
Definition w_gated := run_at "gate" (mc_ok c) (mc_shifted_cost c) (mc_gated c) (mp_gate_cost m) (mp_gate_cost m') w_ok.
Definition w_key := o_add (o_scale (o_add w_gated (o_const (scalar (pb_sentinel public * 2)))) (scalar (pb_n_slots public)))
  (o_const (scalar_of_N (N.of_nat index))).
Definition key_point : Point := derived_key key public index c (pb_sentinel public * 2).

Definition eligibility_entries : list Opened :=
  match mp_eligibility m, mp_eligibility m' with
  | EligibilityThreshold fits fresh, EligibilityThreshold fits' fresh' =>
      range_opened T T' (gt_witness_commitment (mp_fits_gate m)) (gate_range_context ctx index (bstr "fits")) fits fits'
      ++ range_opened T T' (gt_witness_commitment (mp_fresh_gate m)) (gate_range_context ctx index (bstr "fresh")) fresh fresh'
  | _, _ => []
  end.

Definition maker_entries : list Opened :=
  [(pb_qty_commitment public, opening_of qty); (mc_inv c, opening_of (o_inv o)); (mc_active c, opening_of (o_active o));
   (rp_use_ref policy, opening_of (o_use_ref o)); (mc_fits c, w_fits); (mc_fresh_strict c, w_fresh);
   (effective_active public policy c, w_effective); (mc_shifted_cost c, w_shifted); (key_point, w_key);
   (gt_commitment (mp_fresh_gate m), w_fresh_bit)]
  ++ entries_at "depth" (mc_slope c) (pb_qty_commitment public) (mc_depth c) (mp_depth m) (mp_depth m') (opening_of (o_slope o))
  ++ entries_at "skew" (mc_invcoef c) (mc_inv c) (mc_skew c) (mp_skew m) (mp_skew m') (opening_of (o_invcoef o))
  ++ eligibility_entries
  ++ tagged (bit_entries T T') "active" (mc_active c) (mp_active_bit m) (mp_active_bit m')
  ++ tagged (bit_entries T T') "reference" (rp_use_ref policy) (mp_reference_bit m) (mp_reference_bit m')
  ++ gate_entries T T' (gate_context ctx index (bstr "fits")) (mc_fits c) w_fits (mp_fits_gate m) (mp_fits_gate m')
  ++ gate_entries T T' (gate_context ctx index (bstr "fresh")) (mc_fresh_strict c) w_fresh (mp_fresh_gate m) (mp_fresh_gate m')
  ++ entries_at "ok1" (gt_commitment (mp_fits_gate m)) (gt_commitment (mp_fresh_gate m)) (mc_both c) (mp_conjunction m).1 (mp_conjunction m').1 w_fits_bit
  ++ entries_at "ok2" (mc_both c) (effective_active public policy c) (mc_ok c) (mp_conjunction m).2 (mp_conjunction m').2 w_both
  ++ entries_at "gate" (mc_ok c) (mc_shifted_cost c) (mc_gated c) (mp_gate_cost m) (mp_gate_cost m') w_ok.

Hypothesis (Hqty : pb_qty_commitment public = commit_of key (opening_of qty)).
Variables (keys keys' : list Point).
Hypothesis (Hm : maker_checked (T:=T) circuit public keys ctx index policy m).
Hypothesis (Hm' : maker_checked (T:=T') circuit public keys' ctx index policy m').
Hypothesis (Hf : maker_forked).

Lemma qty_opens : opens key (pb_qty_commitment public, opening_of qty).
Proof. by rewrite Hqty. Qed.

(** The range proofs of a maker, accepted by both oracles. *)
Lemma eligibility_ranges : Forall (opens key) eligibility_entries
  /\ forall ledger, eligibility_entries ⊆ ledger -> coherent ledger -> (qc_eligibility_bits circuit + 2 <= 64)%nat ->
       (exists t r, (t < 2 ^ 64)%N /\ (gt_witness_commitment (mp_fits_gate m), (scalar_of_N t, r)) ∈ ledger)
       /\ (exists t r, (t < 2 ^ 64)%N /\ (gt_witness_commitment (mp_fresh_gate m), (scalar_of_N t, r)) ∈ ledger).
Proof.
  pose proof (ck_eligibility _ _ _ _ _ _ _ Hm) as He. pose proof (ck_eligibility _ _ _ _ _ _ _ Hm') as He'.
  pose proof (gf_witness_commitment _ _ _ _ _ _ (mf_fits Hf)) as E1. pose proof (gf_witness_commitment _ _ _ _ _ _ (mf_fresh Hf)) as E2.
  pose proof (mf_eligibility Hf) as Hfork. unfold check_eligibility, eligibility_forked, eligibility_entries in *.
  destruct (mp_eligibility m) as [|fits fresh]; [done|]. destruct (mp_eligibility m') as [|fits' fresh']; [done|].
  destruct Hfork as [F1 F2]. rewrite <- E1, <- E2 in He'. rewrite require_bind, require_ok, !andb_true_iff, !Nat.eqb_eq in He, He'.
  destruct He as [[W1 W2] [V1 V2]], He' as [_ [V1' V2']].
  destruct (threshold_range_opens T T' key _ _ fits fits' V1 V1' F1) as [O1 C1].
  destruct (threshold_range_opens T T' key _ _ fresh fresh' V2 V2' F2) as [O2 C2].
  split; [by apply Forall_app|]. intros ledger Hs Hc Hw. apply list_subseteq_app_iff_l in Hs as [S1 S2].
  assert (forall n, (n < 2 ^ N.of_nat (qc_eligibility_bits circuit + 2))%N -> (n < 2 ^ 64)%N) as Hlt.
  { intros n Hn. eapply N.lt_le_trans; [exact Hn|]. apply N.pow_le_mono_r; lia. }
  assert (forall C range range' cx, range_opened T T' C cx range range' ⊆ ledger -> (C, range_opening T T' C cx range range') ∈ ledger) as Hlast.
  { intros C range range' cx Hs. apply Hs. unfold range_opened. apply elem_of_app. right. by apply list_elem_of_singleton. }
  destruct (C1 ledger S1 Hc) as [L1 Q1], (C2 ledger S2 Hc) as [L2 Q2]. rewrite W1 in L1. rewrite W2 in L2.
  split.
  - refine (ex_intro _ _ (ex_intro _ _ (conj (Hlt _ L1) _))). rewrite <- Q1, <- surjective_pairing. by apply Hlast.
  - refine (ex_intro _ _ (ex_intro _ _ (conj (Hlt _ L2) _))). rewrite <- Q2, <- surjective_pairing. by apply Hlast.
Qed.

(** Every entry a maker's proof gives is right. *)
Lemma maker_entries_open : Forall (opens key) maker_entries.
Proof.
  pose proof qty_opens as Oq. destruct Hm as [C1 C2 C3 C4 D1 D2 D3 D4 D5 D6 D7 D8 D9 D10 D11 D12 D13 D14 _], Hm' as [_ _ _ _ D1' D2' _ D4' D5' _ _ D8' D9' D10' D11' _ _ D14' _].
  destruct Hf as [F0 F1 F2 _ F4 F5 F6 F7 F8 F9 F10].
  pose proof (gf_commitment _ _ _ _ _ _ F6) as G1. pose proof (gf_commitment _ _ _ _ _ _ F7) as G2. rewrite <- F0, <- ?G1, <- ?G2 in *.
  assert (opens key (mc_slope c, opening_of (o_slope o))) as O1 by (rewrite <- C1; done).
  assert (opens key (mc_invcoef c, opening_of (o_invcoef o))) as O2 by (rewrite <- C2; done).
  assert (opens key (mc_inv c, opening_of (o_inv o))) as O3 by (rewrite <- C3; done).
  assert (opens key (mc_active c, opening_of (o_active o))) as O4 by (rewrite <- C4; done).
  assert (opens key (mc_fits c, w_fits)) as O5.
  { rewrite <- D6. unfold derived_fits, w_fits. apply opens_sub; done. }
  assert (opens key (mc_fresh_strict c, w_fresh)) as O6.
  { rewrite <- D7. unfold derived_fresh, w_fresh. apply opens_sub; [apply opens_sub|]; done. }
  assert (opens key (effective_active public policy c, w_effective)) as O7 by exact (opens_scale key _ _ _ O4).
  destruct (gate_entries_open T T' key _ _ _ _ _ D8 D8' F6 O5) as [O8 E8], (gate_entries_open T T' key _ _ _ _ _ D9 D9' F7 O6) as [O9 E9].
  pose proof (product_run_opens T T' key _ _ _ _ _ _ _ _ D1 D1' F1 O1) as Odepth.
  pose proof (product_run_opens T T' key _ _ _ _ _ _ _ _ D2 D2' F2 O2) as Oskew.
  pose proof (product_run_opens T T' key _ _ _ _ _ _ _ _ D10 D10' F8 O8) as Oboth.
  pose proof (product_run_opens T T' key _ _ _ _ _ _ _ _ D11 D11' F9 Oboth) as Ook.
  pose proof (product_run_opens T T' key _ _ _ _ _ _ _ _ D14 D14' F10 Ook) as Ogated.
  assert (opens key (mc_cost c, w_cost)) as Ocost.
  { rewrite <- D12. unfold derived_cost, w_cost. cbn [opened_policy rp_ask_level rp_use_ref rp_spread].
    destruct (_ =? _)%N; eauto 12 with openings. }
  assert (opens key (mc_shifted_cost c, w_shifted)) as Oshift by (rewrite <- D13; unfold derived_shifted, w_shifted; eauto with openings).
  assert (opens key (key_point, w_key)) as Okey by (unfold key_point, derived_key, w_key; eauto 10 with openings).
  unfold maker_entries. rewrite !Forall_app. split_and!; try (by apply product_entries_open); try (by apply bit_entries_open); try done.
  - by repeat (constructor; [done|]).
  - apply eligibility_ranges.
Qed.

(** In a coherent ledger they are the integers of the policy. *)
Section Values.
Variables (ledger : list Opened).
Hypothesis (Hc : coherent ledger) (Hs : maker_entries ⊆ ledger) (Hwidth : (qc_eligibility_bits circuit + 2 <= 64)%nat).
Hypothesis (Ho : policy_i64 o) (Hq : I64 qty.1) (Hp : public_i64 public).

Lemma maker_entries_in :
  Forall (fun e => e ∈ ledger) [(pb_qty_commitment public, opening_of qty); (mc_inv c, opening_of (o_inv o)); (mc_active c, opening_of (o_active o));
   (rp_use_ref policy, opening_of (o_use_ref o)); (mc_fits c, w_fits); (mc_fresh_strict c, w_fresh);
   (effective_active public policy c, w_effective); (mc_shifted_cost c, w_shifted); (key_point, w_key);
   (gt_commitment (mp_fresh_gate m), w_fresh_bit)].
Proof. apply Forall_forall. intros e He. apply Hs. unfold maker_entries. apply elem_of_app. by left. Qed.

Ltac piece := intros e He; apply Hs; unfold maker_entries; rewrite !elem_of_app; tauto.
Ltac entry_in := pose proof maker_entries_in as Hin; rewrite !Forall_cons in Hin; destruct Hin as (? & ? & ? & ? & ? & ? & ? & ? & ? & ? & _).

Lemma bit_integer (z : Z) : I64 z -> is_bit (scalar z) -> z = 0 \/ z = 1.
Proof.
  intros Hz [E|E]; [left | right]; (apply scalar_inj; [unfold I64 in Hz; lia|]); by rewrite E.
Qed.

Lemma active_value : (o_active o).1 = 0 \/ (o_active o).1 = 1.
Proof.
  entry_in. assert (tagged (bit_entries T T') "active" (mc_active c) (mp_active_bit m) (mp_active_bit m') ⊆ ledger) as Hp1 by piece.
  apply bit_integer; [repeat (apply Forall_cons in Ho as [? Ho]); done|].
  pose proof (bit_value T T' ledger _ _ _ _ _ (mf_active Hf) Hp1 Hc) as Hb.
  pose proof (Hc (mc_active c, opening_of (o_active o)) (mc_active c, _) ltac:(done) (Hp1 _ (list_elem_of_here _ _)) eq_refl) as E.
  cbn [fst snd opening_of] in E. by rewrite E.
Qed.

Lemma use_ref_value : (o_use_ref o).1 = 0 \/ (o_use_ref o).1 = 1.
Proof.
  entry_in. assert (tagged (bit_entries T T') "reference" (rp_use_ref policy) (mp_reference_bit m) (mp_reference_bit m') ⊆ ledger) as Hp1 by piece.
  apply bit_integer; [repeat (apply Forall_cons in Ho as [? Ho]); done|].
  pose proof (bit_value T T' ledger _ _ _ _ _ (mf_reference Hf) Hp1 Hc) as Hb.
  pose proof (Hc (rp_use_ref policy, opening_of (o_use_ref o)) (rp_use_ref policy, _) ltac:(done) (Hp1 _ (list_elem_of_here _ _)) eq_refl) as E.
  cbn [fst snd opening_of] in E. by rewrite E.
Qed.

Lemma cost_value : w_cost.1 = scalar (spec_cost public qty.1 o).
Proof.
  entry_in.
  assert (w_depth.1 = ((opening_of (o_slope o)).1 * (opening_of qty).1)%S) as Ed by (eapply product_value; [exact Hc | piece | done]).
  assert (w_skew.1 = ((opening_of (o_invcoef o)).1 * (opening_of (o_inv o)).1)%S) as Es by (eapply product_value; [exact Hc | piece | done]).
  unfold w_cost, spec_cost. destruct (_ =? _)%N; cbn [o_add o_sub o_scale opening_of fst snd]; rewrite Ed, Es; cbn [opening_of fst snd];
    rewrite ?scalar_opp, ?scalar_add, ?scalar_sub, ?scalar_add, ?scalar_mul; ring.
Qed.

Lemma gates_value : w_fits_bit.1 = scalar (if qty.1 <=? (o_maxqty o).1 then 1 else 0)
  /\ w_fresh_bit.1 = scalar (if pb_now public <? (o_expiry o).1 then 1 else 0).
Proof.
  entry_in. destruct (proj2 eligibility_ranges ledger ltac:(piece) Hc Hwidth) as [(t & r & Ht & Hw) (t' & r' & Ht' & Hw')].
  assert (I64 (o_maxqty o).1 /\ I64 (o_expiry o).1 /\ I64 (pb_now public)) as (I1 & I2 & I3).
  { destruct Hp as (? & _). repeat (apply Forall_cons in Ho as [? Ho]). done. }
  unfold I64 in *. split.
  - replace (qty.1 <=? (o_maxqty o).1) with (0 <=? (o_maxqty o).1 - qty.1) by (destruct (Z.leb_spec 0 ((o_maxqty o).1 - qty.1)), (Z.leb_spec qty.1 (o_maxqty o).1); lia).
    refine (gate_value T T' ledger _ _ w_fits _ _ _ t r Hc (mf_fits Hf) _ _ _ _ Hw Ht); [piece | done | cbn; by rewrite scalar_sub | lia].
  - replace (pb_now public <? (o_expiry o).1) with (0 <=? (o_expiry o).1 - pb_now public - 1)
      by (destruct (Z.leb_spec 0 ((o_expiry o).1 - pb_now public - 1)), (Z.ltb_spec (pb_now public) (o_expiry o).1); lia).
    refine (gate_value T T' ledger _ _ w_fresh _ _ _ t' r' Hc (mf_fresh Hf) _ _ _ _ Hw' Ht'); [piece | done | cbn; by rewrite !scalar_sub | lia].
Qed.

Lemma ok_value : w_ok.1 = scalar (if eligible public qty.1 o then 1 else 0).
Proof.
  entry_in. destruct gates_value as [Ef Er].
  assert (w_both.1 = (w_fits_bit.1 * w_fresh_bit.1)%S) as Eb by (eapply product_value; [exact Hc | piece | done]).
  assert (w_ok.1 = (w_both.1 * w_effective.1)%S) as Eo by (eapply product_value; [exact Hc | piece | done]).
  rewrite Eo, Eb, Ef, Er. unfold w_effective, eligible. cbn [o_scale opening_of fst snd].
  replace (bit_of (o_maker_asset o =? pb_asset public)%N) with (scalar (if (o_maker_asset o =? pb_asset public)%N then 1 else 0)) by (by destruct (_ =? _)%N).
  destruct active_value as [-> | ->], (_ <=? _), (_ <? _), (_ =? _)%N; cbn [andb Z.eqb Pos.eqb]; rewrite ?scalar_0, ?scalar_1; ring.
Qed.

Lemma key_value : w_key.1 = scalar (spec_key public qty.1 index o).
Proof.
  entry_in. assert (w_gated.1 = (w_ok.1 * w_shifted.1)%S) as Eg by (eapply product_value; [exact Hc | piece | done]).
  unfold w_key, spec_key, effective_cost. cbn [o_add o_scale o_const fst snd]. rewrite Eg, ok_value. unfold w_shifted. cbn [o_sub o_const fst snd].
  rewrite cost_value, scalar_nat, nat_N_Z, !scalar_add, !scalar_mul, scalar_add.
  destruct (eligible _ _ _); rewrite ?scalar_0, ?scalar_1; change (scalar 2) with (s1 + s1)%S; ring.
Qed.
End Values.
End OneMaker.
End Makers.

(** ** Quotes *)

Section Verified.
Context `{SL : ScalarLaws} `{G : !GroupOps} `{CL : !CompressLaws} `{T : TranscriptOps} `{B : !Bulletproofs} `{S2 : Sha256}.

Definition winner_point (proof : QuoteProof (B:=B)) : Point := default pid (qp_key_commitments proof !! qp_winner_index proof).

(** What a verified quote has passed. *)
Record quote_checked (circuit : QuoteCircuit) (public : Public) (ctx : bytes) (proof : QuoteProof) : Prop := {
  vf_slots : 0 < pb_n_slots public /\ Z.of_nat (length (pb_registry public)) <= pb_n_slots public;
  vf_makers : length (qp_maker_proofs proof) = length (pb_registry public);
  vf_keys : length (qp_key_commitments proof) = length (pb_registry public);
  vf_winner : (qp_winner_index proof < length (pb_registry public))%nat;
  vf_digest : registry_digest (pb_registry public) = pb_registry_digest public;
  vf_each : forall i policy m, pb_registry public !! i = Some policy -> qp_maker_proofs proof !! i = Some m ->
    maker_checked circuit public (qp_key_commitments proof) ctx i policy m;
  vf_opening : (verify_zero_opening (qc_key circuit) (whole ctx "winner") (shift (qc_key circuit) (winner_point proof) (qp_winner_value proof))
    (qp_winner_opening proof)).1 = true;
  vf_minimality : check_minimality circuit ctx (qp_key_commitments proof) (winner_point proof) (qp_minimality proof) = Ok tt
}.

Lemma verify_passed circuit proof public context :
  verify circuit proof public context = Ok tt -> quote_checked circuit public (statement_context context public) proof.
Proof.
  intros Hv. unfold verify in Hv. do 7 (rewrite require_bind in Hv; let Hb := fresh "Hb" in destruct Hv as [Hb Hv]).
  apply bind_ok in Hv as ([] & Hreg & Hv). apply bind_ok in Hv as ([] & Hmak & Hv). apply bind_ok in Hv as (winner & Hw & Hv).
  apply ok_or_ok in Hw. rewrite require_bind in Hv. destruct Hv as [Hop Hmin]. apply for_each_ok in Hreg. apply for_each_ok in Hmak. rewrite Forall_forall in Hreg. rewrite Forall_forall in Hmak.
  rewrite negb_true_iff, orb_false_iff, Z.leb_gt in Hb1. destruct Hb1 as [Hpos Hslots].
  rewrite Nat.eqb_eq in Hb2, Hb3. rewrite Nat.ltb_lt in Hb4. rewrite bool_decide_eq_true in Hb5.
  assert (winner_point proof = winner) as Ew by (unfold winner_point; by rewrite Hw).
  split; try congruence; rewrite ?Ew; try done.
  - split; [done|]. unfold usize_of in Hslots. destruct (Z.ltb_spec (pb_n_slots public) 0); [done|]. apply N.ltb_ge in Hslots. lia.
  - intros i policy m Hp Hm. apply maker_passed; [done| |].
    + apply Hreg. apply enumerate_lookup. apply lookup_zip_with_Some. eauto.
    + apply Hmak. by apply enumerate_lookup.
Qed.
End Verified.

Section Quotes.
Context `{SL : ScalarLaws} `{W : !ScalarWide} `{G : !GroupOps} `{L : !GroupLaws} `{CL : !CompressLaws} `{S2 : Sha256}.
Variables (T T' : TranscriptOps) (B : @Bulletproofs T _ G) (B' : @Bulletproofs T' _ G).
Add Field quotes_field : scalar_field.
Variables (circuit : QuoteCircuit) (public : Public) (ctx : bytes) (qty : Z * Scalar) (os : list OpenPolicy).
Variables (p : QuoteProof (B:=B)) (p' : QuoteProof (B:=B')).
Abbreviation key := (qc_key circuit).

(** The two proofs of a quote have the same first moves: they are about the
    same keys, name the same winner, and are answered by different challenges. *)
Record quote_forked : Prop := {
  qf_index : qp_winner_index p = qp_winner_index p';
  qf_value : qp_winner_value p = qp_winner_value p';
  qf_keys : qp_key_commitments p = qp_key_commitments p';
  qf_makers : forall i o m m', os !! i = Some o -> qp_maker_proofs p !! i = Some m -> qp_maker_proofs p' !! i = Some m' ->
    maker_forked T T' B B' circuit public ctx i o m m';
  qf_move : op_t (qp_winner_opening p) = op_t (qp_winner_opening p');
  qf_winner : let residual := shift key (winner_point p) (qp_winner_value p) in
    zero_challenge (T:=T) residual (op_t (qp_winner_opening p)) (whole ctx "winner")
    <> zero_challenge (T:=T') residual (op_t (qp_winner_opening p')) (whole ctx "winner");
  qf_minimality : match qp_minimality p, qp_minimality p' with
    | MinimalityThreshold rs, MinimalityThreshold rs' =>
        forall i k r r', qp_key_commitments p !! i = Some k -> rs !! i = Some r -> rs' !! i = Some r' ->
          range_forked T T' (k - winner_point p)%P (minimality_context ctx i) r r'
    | _, _ => False
    end
}.

Definition quote_rows : list (nat * (OpenPolicy * (MakerProof (B:=B) * MakerProof (B:=B')))) :=
  enumerate (zip os (zip (qp_maker_proofs p) (qp_maker_proofs p'))).

(** The opening of the winner's key. *)
Definition winner_opened : Scalar * Scalar :=
  let residual := shift key (winner_point p) (qp_winner_value p) in
  (scalar_of_N (qp_winner_value p),
   extracted (op_z_blinding (qp_winner_opening p)) (op_z_blinding (qp_winner_opening p'))
     (zero_challenge (T:=T) residual (op_t (qp_winner_opening p)) (whole ctx "winner"))
     (zero_challenge (T:=T') residual (op_t (qp_winner_opening p')) (whole ctx "winner"))).

Definition margin_entries (i : nat) (o : OpenPolicy) (m : MakerProof (B:=B)) (m' : MakerProof (B:=B')) (r r' : ThresholdRangeProof) : list Opened :=
  let margin := (key_point T B circuit public i m - winner_point p)%P in
  (margin, o_sub (w_key T T' B B' circuit public ctx i o m m') winner_opened) :: range_opened T T' margin (minimality_context ctx i) r r'.

(** All that two proofs of a quote open. *)
Definition quote_ledger : list Opened :=
  concat ((fun '(i, (o, (m, m'))) => maker_entries T T' B B' circuit public ctx qty i o m m') <$> quote_rows)
  ++ [(winner_point p, winner_opened)]
  ++ match qp_minimality p, qp_minimality p' with
     | MinimalityThreshold rs, MinimalityThreshold rs' =>
         concat ((fun '((i, (o, (m, m'))), (r, r')) => margin_entries i o m m' r r') <$> zip quote_rows (zip rs rs'))
     | _, _ => []
     end.

Hypothesis (Hreg : pb_registry public = opened_policy key <$> os).
Hypothesis (Hqty : pb_qty_commitment public = commit_of key (opening_of qty)).
Hypothesis (Hp : quote_checked (T:=T) circuit public ctx p).
Hypothesis (Hp' : quote_checked (T:=T') circuit public ctx p').
Hypothesis (Hf : quote_forked).

Lemma row_lookup i o m m' : (i, (o, (m, m'))) ∈ quote_rows <->
  os !! i = Some o /\ qp_maker_proofs p !! i = Some m /\ qp_maker_proofs p' !! i = Some m'.
Proof.
  unfold quote_rows. rewrite enumerate_lookup, lookup_zip_with_Some. split.
  - intros (o1 & mm & [= <- <-] & Ho & Hm). apply lookup_zip_with_Some in Hm as (m1 & m2 & [= <- <-] & Hm). done.
  - intros (Ho & Hm & Hm'). exists o, (m, m'). split; [done|]. split; [done|]. apply lookup_zip_with_Some. eauto.
Qed.

(** Every registered maker has its row. *)
Lemma row_exists i o : os !! i = Some o -> exists m m', (i, (o, (m, m'))) ∈ quote_rows.
Proof.
  intros Ho. pose proof (lookup_lt_Some _ _ _ Ho) as Hi. pose proof (vf_makers _ _ _ _ Hp) as H1. pose proof (vf_makers _ _ _ _ Hp') as H2.
  rewrite Hreg, length_fmap in H1, H2.
  destruct (lookup_lt_is_Some_2 (qp_maker_proofs p) i ltac:(lia)) as [m Hm], (lookup_lt_is_Some_2 (qp_maker_proofs p') i ltac:(lia)) as [m' Hm'].
  exists m, m'. by apply row_lookup.
Qed.

Section Row.
Variables (i : nat) (o : OpenPolicy) (m : MakerProof (B:=B)) (m' : MakerProof (B:=B')).
Hypothesis (Hrow : (i, (o, (m, m'))) ∈ quote_rows).

Lemma row_facts : maker_checked (T:=T) circuit public (qp_key_commitments p) ctx i (opened_policy key o) m
  /\ maker_checked (T:=T') circuit public (qp_key_commitments p') ctx i (opened_policy key o) m'
  /\ maker_forked T T' B B' circuit public ctx i o m m'.
Proof.
  apply row_lookup in Hrow as (Ho & Hm & Hm'). assert (pb_registry public !! i = Some (opened_policy key o)) as Hpo by (by rewrite Hreg, list_lookup_fmap, Ho).
  split_and!; [by apply (vf_each _ _ _ _ Hp) | by apply (vf_each _ _ _ _ Hp') | by apply (qf_makers Hf)].
Qed.

Lemma row_key : qp_key_commitments p !! i = Some (key_point T B circuit public i m).
Proof. apply (ck_key _ _ _ _ _ _ _ (proj1 row_facts)). Qed.

Lemma row_entries_open : Forall (opens key) (maker_entries T T' B B' circuit public ctx qty i o m m').
Proof. destruct row_facts as (F1 & F2 & F3). by eapply maker_entries_open. Qed.

Lemma row_key_opens : opens key (key_point T B circuit public i m, w_key T T' B B' circuit public ctx i o m m').
Proof.
  pose proof row_entries_open as Ho. rewrite Forall_forall in Ho. apply Ho. unfold maker_entries. apply elem_of_app. left.
  do 8 (apply elem_of_cons; right). apply elem_of_cons. by left.
Qed.
End Row.

Lemma winner_opens : opens key (winner_point p, winner_opened).
Proof.
  pose proof (vf_opening _ _ _ _ Hp) as V. pose proof (vf_opening _ _ _ _ Hp') as V'.
  replace (winner_point p') with (winner_point p) in V' by (unfold winner_point; by rewrite (qf_keys Hf), (qf_index Hf)).
  rewrite <- (qf_value Hf) in V'.
  pose proof (zero_opening_extracted T T' key _ _ _ _ _ V V' (qf_move Hf) (qf_winner Hf)) as E. cbv zeta in E.
  unfold opens, winner_opened. cbn [fst snd]. set (r := extracted _ _ _ _) in *. clearbody r.
  unfold shift in E. transitivity (commit key s0 r + g key * scalar_of_N (qp_winner_value p))%P.
  - rewrite <- E. module_split; ring.
  - unfold commit. module_split; ring.
Qed.

(** The margins of the keys above the winner's. *)
Lemma margins : exists rs rs', qp_minimality p = MinimalityThreshold rs /\ qp_minimality p' = MinimalityThreshold rs'
  /\ length rs = length os /\ length rs' = length os
  /\ forall i o m m' r r', (i, (o, (m, m'))) ∈ quote_rows -> rs !! i = Some r -> rs' !! i = Some r' ->
       let margin := (key_point T B circuit public i m - winner_point p)%P in
       tp_bits r = qc_span_bits circuit
       /\ verify_threshold_range (T:=T) key margin r (minimality_context ctx i) = true
       /\ verify_threshold_range (T:=T') key margin r' (minimality_context ctx i) = true
       /\ range_forked T T' margin (minimality_context ctx i) r r'.
Proof.
  pose proof (vf_minimality _ _ _ _ Hp) as V. pose proof (vf_minimality _ _ _ _ Hp') as V'.
  pose proof (vf_keys _ _ _ _ Hp) as Hk. rewrite Hreg, length_fmap in Hk.
  replace (winner_point p') with (winner_point p) in V' by (unfold winner_point; by rewrite (qf_keys Hf), (qf_index Hf)).
  rewrite <- (qf_keys Hf) in V'. pose proof (qf_minimality Hf) as Hmf. unfold check_minimality in V, V'.
  destruct (qp_minimality p) as [|rs]; [done|]. destruct (qp_minimality p') as [|rs']; [done|]. exists rs, rs'.
  rewrite require_bind in V, V'. destruct V as [Hl V], V' as [Hl' V']. rewrite Nat.eqb_eq in Hl, Hl'.
  split; [done|]. split; [done|]. split; [lia|]. split; [lia|]. intros i o m m' r r' Hrow Hr Hr' margin.
  pose proof (row_key i o m m' Hrow) as Hki. apply for_each_ok in V. apply for_each_ok in V'. rewrite Forall_forall in V. rewrite Forall_forall in V'.
  assert (forall r (l : list ThresholdRangeProof), l !! i = Some r -> (i, (key_point T B circuit public i m, r)) ∈ enumerate (zip (qp_key_commitments p) l)) as Hin.
  { intros r0 l Hl0. apply enumerate_lookup, lookup_zip_with_Some. eauto. }
  specialize (V _ (Hin _ _ Hr)). specialize (V' _ (Hin _ _ Hr')). cbn beta iota in V, V'.
  rewrite require_ok, andb_true_iff, Nat.eqb_eq in V, V'. split; [apply V|]. split; [apply V|]. split; [apply V'|]. by apply (Hmf i (key_point T B circuit public i m)).
Qed.

Lemma quote_ledger_open : Forall (opens key) quote_ledger.
Proof.
  destruct margins as (rs & rs' & E & E' & _ & _ & Hmar). unfold quote_ledger. rewrite E, E', !Forall_app. split_and!.
  - apply Forall_concat, Forall_fmap, Forall_forall. intros [i [o [m m']]] Hrow. by apply row_entries_open.
  - repeat constructor. apply winner_opens.
  - apply Forall_concat, Forall_fmap, Forall_forall. intros [[i [o [m m']]] [r r']] Hin. cbn.
    apply list_elem_of_lookup in Hin as [j Hj]. apply lookup_zip_with_Some in Hj as (row & rr & [= <- <-] & Hrow & Hrr).
    apply lookup_zip_with_Some in Hrr as (? & ? & [= <- <-] & Hr & Hr').
    assert (j = i) as ->.
    { unfold quote_rows, enumerate in Hrow. apply lookup_zip_with_Some in Hrow as (? & ? & [= <- <-] & Hs & _). by apply lookup_seq in Hs as [-> _]. }
    apply list_elem_of_lookup_2 in Hrow. destruct (Hmar i o m m' r r' Hrow Hr Hr') as (Hbits & V & V' & F).
    constructor; [|apply (threshold_range_opens T T' key _ _ r r' V V' F)].
    apply opens_sub; [by apply row_key_opens | apply winner_opens].
Qed.

Hypothesis (Hwidth : (qc_eligibility_bits circuit + 2 <= 64)%nat) (Hspan : (qc_span_bits circuit <= 64)%nat).
Hypothesis (Hos : Forall policy_i64 os) (Hqi : I64 qty.1) (Hpi : public_i64 public).

(** In a coherent ledger the opened winner is the smallest key. *)
Section Coherent.
Hypothesis (Hc : coherent quote_ledger).

Lemma row_in_ledger i o m m' : (i, (o, (m, m'))) ∈ quote_rows -> maker_entries T T' B B' circuit public ctx qty i o m m' ⊆ quote_ledger.
Proof.
  intros Hrow e He. unfold quote_ledger. apply elem_of_app. left. apply list_elem_of_In, in_concat.
  exists (maker_entries T T' B B' circuit public ctx qty i o m m'). split; apply list_elem_of_In; [|done].
  apply list_elem_of_fmap. by exists (i, (o, (m, m'))).
Qed.

Lemma row_i64 i o : os !! i = Some o -> policy_i64 o.
Proof. rewrite Forall_forall in Hos. intros Ho. by apply Hos, list_elem_of_lookup_2 with i. Qed.

Lemma row_value i o m m' : (i, (o, (m, m'))) ∈ quote_rows ->
  (w_key T T' B B' circuit public ctx i o m m').1 = scalar (spec_key public qty.1 i o)
  /\ ((o_active o).1 = 0 \/ (o_active o).1 = 1) /\ ((o_use_ref o).1 = 0 \/ (o_use_ref o).1 = 1).
Proof.
  intros Hrow. destruct (row_facts i o m m' Hrow) as (F1 & F2 & F3). pose proof (row_in_ledger i o m m' Hrow) as Hs.
  assert (policy_i64 o) as Ho by (apply row_lookup in Hrow as [Ho _]; by apply (row_i64 i)).
  split_and!; [by eapply key_value | eapply (active_value T T' B B' circuit public ctx qty); eassumption | eapply (use_ref_value T T' B B' circuit public ctx qty); eassumption].
Qed.

Lemma row_bound i o : os !! i = Some o -> Z.abs (spec_key public qty.1 i o) <= 2 ^ 194.
Proof.
  intros Ho. apply spec_key_bound; [by apply (row_i64 i) | done | done|].
  pose proof (lookup_lt_Some _ _ _ Ho). destruct (vf_slots _ _ _ _ Hp) as [_ Hs]. rewrite Hreg, length_fmap in Hs.
  destruct Hpi as (_ & _ & Hn & _). unfold I64 in Hn. lia.
Qed.

Hypothesis (Hu64 : (qp_winner_value p <= U64_MAX)%N).

Lemma winner_exists : exists o, os !! qp_winner_index p = Some o.
Proof.
  pose proof (vf_winner _ _ _ _ Hp) as Hw. rewrite Hreg, length_fmap in Hw. by apply lookup_lt_is_Some_2 in Hw as [o Ho]; exists o.
Qed.

Lemma winner_value o : os !! qp_winner_index p = Some o -> spec_key public qty.1 (qp_winner_index p) o = Z.of_N (qp_winner_value p).
Proof.
  intros Ho. destruct (row_exists _ _ Ho) as (m & m' & Hrow). pose proof (row_bound _ _ Ho) as Hb.
  apply scalar_inj; [unfold U64_MAX in Hu64; lia|]. rewrite <- scalar_nat, <- (proj1 (row_value _ _ _ _ Hrow)).
  assert (winner_point p = key_point T B circuit public (qp_winner_index p) m) as Ew.
  { unfold winner_point. by rewrite (row_key _ _ _ _ Hrow). }
  apply (Hc (winner_point p, w_key T T' B B' circuit public ctx (qp_winner_index p) o m m') (winner_point p, winner_opened)); [| |done].
  - rewrite Ew. apply (row_in_ledger _ _ _ _ Hrow). unfold maker_entries. apply elem_of_app. left.
    do 8 (apply elem_of_cons; right). apply elem_of_cons. by left.
  - unfold quote_ledger. apply elem_of_app. right. apply elem_of_app. left. by apply list_elem_of_singleton.
Qed.

Lemma key_margin i o : os !! i = Some o -> Z.of_N (qp_winner_value p) <= spec_key public qty.1 i o.
Proof.
  intros Ho. destruct (row_exists _ _ Ho) as (m & m' & Hrow). destruct margins as (rs & rs' & E & E' & Hl & Hl' & Hmar).
  pose proof (lookup_lt_Some _ _ _ Ho) as Hi.
  destruct (lookup_lt_is_Some_2 rs i ltac:(lia)) as [r Hr], (lookup_lt_is_Some_2 rs' i ltac:(lia)) as [r' Hr'].
  destruct (Hmar i o m m' r r' Hrow Hr Hr') as (Hbits & V & V' & F). cbv zeta in V, V', F.
  destruct (threshold_range_opens T T' key _ _ r r' V V' F) as [_ Hv].
  assert (margin_entries i o m m' r r' ⊆ quote_ledger) as Hin.
  { intros e He. unfold quote_ledger. rewrite E, E'. apply elem_of_app. right. apply elem_of_app. right.
    apply list_elem_of_In, in_concat. exists (margin_entries i o m m' r r'). split; apply list_elem_of_In; [|done].
    apply list_elem_of_fmap. exists ((i, (o, (m, m'))), (r, r')). split; [done|].
    apply list_elem_of_lookup. exists i. apply lookup_zip_with_Some. exists (i, (o, (m, m'))), (r, r'). split; [done|]. split.
    - unfold quote_rows, enumerate. apply row_lookup in Hrow as (H1 & H2 & H3). apply lookup_zip_with_Some.
      exists i, (o, (m, m')). split; [done|].
      assert (zip os (zip (qp_maker_proofs p) (qp_maker_proofs p')) !! i = Some (o, (m, m'))) as Hz.
      { apply lookup_zip_with_Some. exists o, (m, m'). split; [done|]. split; [done|]. apply lookup_zip_with_Some. eauto. }
      split; [|done]. apply lookup_seq. split; [done|]. by apply lookup_lt_Some in Hz.
    - apply lookup_zip_with_Some. eauto. }
  destruct (Hv quote_ledger) as [Hlt Hval]; [intros e He; apply Hin, elem_of_cons; by right | done |].
  set (margin := (key_point T B circuit public i m - winner_point p)%P) in *.
  assert ((margin, o_sub (w_key T T' B B' circuit public ctx i o m m') winner_opened) ∈ quote_ledger) as H1 by (apply Hin, elem_of_cons; by left).
  assert ((margin, range_opening T T' margin (minimality_context ctx i) r r') ∈ quote_ledger) as H2.
  { apply Hin, elem_of_cons. right. unfold range_opened. apply elem_of_app. right. by apply list_elem_of_singleton. }
  pose proof (Hc _ _ H1 H2 eq_refl) as Heq. cbn [fst snd o_sub] in Heq. rewrite Hval, (proj1 (row_value _ _ _ _ Hrow)) in Heq.
  unfold winner_opened in Heq. cbn [fst] in Heq. rewrite !scalar_nat, <- scalar_sub in Heq.
  assert (range_value T T' (minimality_context ctx i) r r' < 2 ^ 64)%N.
  { eapply N.lt_le_trans; [exact Hlt|]. apply N.pow_le_mono_r; lia. }
  pose proof (row_bound _ _ Ho). apply scalar_inj in Heq; [lia|]. unfold U64_MAX in Hu64. lia.
Qed.
End Coherent.
End Quotes.

(** ** The theorem *)

(** C1: an accepted quote proof names the cheapest eligible maker.  For a
    registry whose policies and a request whose size are committed [i64]
    integers, two accepted proofs on the threshold path with the same first
    moves and different challenges give a ledger of computed openings, all of
    them right.  Either two of its entries give the discrete logarithm of the
    value generator, or every maker's activity and reference flags are bits, the
    published number is the winner's effective cost packed with its slot, and no
    maker is cheaper: a maker that is too small, expired, inactive or on another
    market counts as the sentinel, and ties go to the lower slot.  No bound on
    the prices, sizes or coefficients beyond their type is needed. *)
Theorem quote_proof_sound `{SL : ScalarLaws} `{W : !ScalarWide} `{G : !GroupOps} `{L : !GroupLaws} `{CL : !CompressLaws} `{PG : !PedersenGens} `{S2 : Sha256}
    (T T' : TranscriptOps) (B : @Bulletproofs T _ G) (B' : @Bulletproofs T' _ G)
    eligibility_bits span_bits circuit public context qty os (p : QuoteProof (B:=B)) (p' : QuoteProof (B:=B')) :
  try_new eligibility_bits span_bits = Ok circuit ->
  pb_registry public = opened_policy (qc_key circuit) <$> os ->
  pb_qty_commitment public = commit_of (qc_key circuit) (opening_of qty) ->
  Forall policy_i64 os -> I64 qty.1 -> public_i64 public -> (qp_winner_value p <= U64_MAX)%N ->
  verify (T:=T) circuit p public context = Ok tt -> verify (T:=T') circuit p' public context = Ok tt ->
  let ctx := statement_context context public in
  quote_forked T T' B B' circuit public ctx os p p' ->
  let ledger := quote_ledger T T' B B' circuit public ctx qty os p p' in
  Forall (opens (qc_key circuit)) ledger
  /\ (broken (qc_key circuit) ledger
      \/ Forall (fun o => (o_active o).1 ∈ [0; 1] /\ (o_use_ref o).1 ∈ [0; 1]) os
         /\ exists winner, os !! qp_winner_index p = Some winner
              /\ spec_key public qty.1 (qp_winner_index p) winner = Z.of_N (qp_winner_value p)
              /\ forall i o, os !! i = Some o ->
                   effective_cost public qty.1 winner < effective_cost public qty.1 o
                   \/ effective_cost public qty.1 winner = effective_cost public qty.1 o /\ (qp_winner_index p <= i)%nat).
Proof.
  intros Hnew Hreg Hqty Hos Hqi Hpi Hu64 Hv%verify_passed Hv'%verify_passed ctx Hf ledger.
  assert (qc_eligibility_bits circuit + 2 <= 64 /\ qc_span_bits circuit <= 64)%nat as [Hw Hs].
  { unfold try_new in Hnew. destruct (Nat.ltb_spec 62 eligibility_bits); [done|].
    destruct (Nat.eqb_spec span_bits 0), (Nat.ltb_spec 64 span_bits); try done. injection Hnew as <-. cbn. lia. }
  pose proof (quote_ledger_open T T' B B' circuit public ctx qty os p p' Hreg Hqty Hv Hv' Hf) as Ho. split; [exact Ho|].
  destruct (ledger_cases _ _ Ho) as [Hb|Hc]; [by left|]. right.
  assert (forall i o, os !! i = Some o -> Z.of_nat i < pb_n_slots public) as Hslot.
  { intros i o Hi. apply lookup_lt_Some in Hi. destruct (vf_slots _ _ _ _ Hv) as [_ Hn]. rewrite Hreg, length_fmap in Hn. lia. }
  split.
  - apply Forall_forall. intros o [i Hi]%list_elem_of_lookup.
    destruct (row_exists T T' B B' circuit public ctx os p p' Hreg Hv Hv' i o Hi) as (m & m' & Hrow).
    destruct (row_value T T' B B' circuit public ctx qty os p p' Hreg Hv Hv' Hf Hw Hos Hqi Hpi Hc i o m m' Hrow) as (_ & Ha & Hr).
    split; rewrite !elem_of_cons; tauto.
  - destruct (winner_exists T B circuit public ctx os p Hreg Hv) as [winner Hwin]. exists winner. split; [exact Hwin|].
    assert (spec_key public qty.1 (qp_winner_index p) winner = Z.of_N (qp_winner_value p)) as Hval by (by eapply winner_value).
    split; [exact Hval|]. intros i o Hi. apply key_order; [split; [lia | by eapply Hslot] | split; [lia | by eapply Hslot]|].
    rewrite Hval. by eapply key_margin.
Qed.
