(* ===== verification/ThresholdQuote.v ===== *)
(** * Quote proofs from shares

    [zkpi-proofs/src/threshold_quote.rs], the path of nodes that each hold one
    evaluation of every wire: the public statement reconstructed from their group
    evaluations, the binding of a node to it, the product and range relations,
    both rounds, the challenges and the assembly of the ordinary quote proof.  An
    index out of range, which panics, is an error here. *)

From S2P Require Import Prelude.
From S2P Require Import Interfaces.
From S2P Require Import Curve.
From S2P Require Import Shamir.
From S2P Require Import Sigma.
From S2P Require Import Threshold.
From S2P Require Import Gadgets.
From S2P Require Import JointProver.
From S2P Require Import ThresholdRange.
From S2P Require Import Instruction.
From S2P Require Import Quote.

Open Scope nat_scope.

Module ThresholdQuote.
Import Quote.

Definition LOCAL_WIRES_PER_MAKER : nat := 22.
Definition LOCAL_RANGES_PER_MAKER : nat := 3.
Definition PRODUCTS_PER_MAKER : nat := 11.

(** [v[i]] of a vector: out of range it panics. *)
Definition at_index {A} (l : list A) (i : nat) : result string A := ok_or (l !! i) "index out of bounds".

Section ThresholdQuote.
Context `{T : TranscriptOps} `{SO : ScalarOps} `{G : !GroupOps} `{B : !Bulletproofs} `{S2 : Sha256}.

(** ** Local material *)

Record LocalQuotePolicyInput := mkLocalQuotePolicyInput {
  lq_ask_level : LocalShared; lq_spread : LocalShared; lq_slope : LocalShared; lq_invcoef : LocalShared; lq_inv : LocalShared;
  lq_maxqty : LocalShared; lq_expiry : LocalShared; lq_active : LocalShared; lq_use_ref : LocalShared
}.

Definition policy_input_wires (p : LocalQuotePolicyInput) : list LocalShared :=
  [lq_ask_level p; lq_spread p; lq_slope p; lq_invcoef p; lq_inv p; lq_maxqty p; lq_expiry p; lq_active p; lq_use_ref p].

Record LocalQuoteGateInput := mkLocalQuoteGateInput {
  lg_value : LocalShared; lg_holds : LocalShared; lg_holds_cross : Scalar; lg_product : LocalShared; lg_product_cross : Scalar;
  lg_witness : LocalRangeShares
}.

Record LocalQuoteMakerInput := mkLocalQuoteMakerInput {
  lm_fields : LocalQuotePolicyInput;
  lm_depth : LocalShared; lm_depth_cross : Scalar;
  lm_skew : LocalShared; lm_skew_cross : Scalar;
  lm_fits : LocalQuoteGateInput;
  lm_fresh : LocalQuoteGateInput;
  lm_active_cross : Scalar;
  lm_reference_cross : Scalar;
  lm_both : LocalShared; lm_both_cross : Scalar;
  lm_ok : LocalShared; lm_ok_cross : Scalar;
  lm_gated : LocalShared; lm_gated_cross : Scalar;
  lm_cost : LocalShared;
  lm_packed : LocalShared;
  lm_minimality : LocalRangeShares
}.

Definition maker_input_wires (m : LocalQuoteMakerInput) : list LocalShared :=
  policy_input_wires (lm_fields m) ++
  [lm_depth m; lm_skew m; lg_value (lm_fits m); lg_holds (lm_fits m); lg_product (lm_fits m); lg_value (lm_fresh m);
   lg_holds (lm_fresh m); lg_product (lm_fresh m); lm_both m; lm_ok m; lm_gated m; lm_cost m; lm_packed m].

Definition maker_input_ranges (m : LocalQuoteMakerInput) : list LocalRangeShares :=
  [lg_witness (lm_fits m); lg_witness (lm_fresh m); lm_minimality m].

Record LocalQuoteNode := mkLocalQuoteNode {
  ln_party : PartyId;
  ln_qty : LocalShared;
  ln_makers : list LocalQuoteMakerInput;
  ln_threshold : nat;
  ln_parties : list PartyId
}.

Definition local_quote_node_new (qty : LocalShared) (makers : list LocalQuoteMakerInput) (parties : list PartyId) (threshold : nat) :
    result string LocalQuoteNode :=
  if length makers =? 0 then Err "a local quote handoff needs at least one maker"
  else
    let party := ls_party qty in
    if (length parties <=? threshold) || negb (bool_decide (party ∈ parties)) || negb (all_distinct parties)
       || bool_decide (0%N ∈ parties)
    then Err "the local quote committee is malformed"
    else if existsb (fun maker => existsb (fun wire => negb (ls_party wire =? party)%N) (maker_input_wires maker)
                      || existsb (fun range => negb (lr_party range =? party)%N) (maker_input_ranges maker)) makers
    then Err "a local quote handoff mixes material from different parties"
    else Ok (mkLocalQuoteNode party qty makers threshold parties).

Definition node_wires (n : LocalQuoteNode) : list LocalShared := ln_qty n :: concat (maker_input_wires <$> ln_makers n).
Definition node_ranges (n : LocalQuoteNode) : list LocalRangeShares := concat (maker_input_ranges <$> ln_makers n).

Record QuoteNodeEvaluations := mkQuoteNodeEvaluations { qe_party : PartyId; qe_wires : list WireEvaluation; qe_ranges : list RangeEvaluations }.

Definition node_evaluations (key : Pedersen) (n : LocalQuoteNode) : QuoteNodeEvaluations :=
  mkQuoteNodeEvaluations (ln_party n) (evaluation key <$> node_wires n) (lr_evaluations key <$> node_ranges n).

(** ** The public statement *)

Record QuoteNodeStatement := mkQuoteNodeStatement {
  qs_wires : list WireStatement;
  qs_ranges : list RangeStatement;
  qs_winner_index : nat;
  qs_winner_value : N;
  qs_maker_count : nat;
  qs_sentinel : Z;
  qs_threshold : nat;
  qs_parties : list PartyId
}.

(** The commitment of a maker's wire, and a maker's range. *)
Definition maker_wire (wires : list WireStatement) (maker offset : nat) : result string Point :=
  w ← at_index wires (1 + maker * LOCAL_WIRES_PER_MAKER + offset); Ok (ws_commitment w).
Definition maker_range (ranges : list RangeStatement) (maker offset : nat) : result string RangeStatement :=
  at_index ranges (maker * LOCAL_RANGES_PER_MAKER + offset).

(** The shape test over the nodes' messages: no party twice, every party of the
    committee, the vectors of the fixed layout, all of them of that party. *)
Fixpoint check_shapes {A} (party : A -> PartyId) (fits : A -> bool) (parties : list PartyId) (seen : gset PartyId) (nodes : list A) : bool :=
  match nodes with
  | [] => true
  | node :: nodes =>
      if bool_decide (party node ∈ seen) || negb (bool_decide (party node ∈ parties)) || negb (fits node) then false
      else check_shapes party fits parties ({[party node]} ∪ seen) nodes
  end.

Definition evaluations_fit (expected_wires expected_ranges : nat) (node : QuoteNodeEvaluations) : bool :=
  (length (qe_wires node) =? expected_wires) && (length (qe_ranges node) =? expected_ranges)
  && forallb (fun wire => (we_party wire =? qe_party node)%N) (qe_wires node)
  && forallb (fun range => (re_party range =? qe_party node)%N) (qe_ranges node).

Definition check_policy_wire (wires : list WireStatement) (index : nat) (entry : nat * Point) : result string unit :=
  let '(offset, point) := entry in
  w ← maker_wire wires index offset;
  if negb (same_point w point)
  then Err ("maker " +:+ show_nat index +:+ " MPC policy wire " +:+ show_nat offset +:+ " differs from the registry")
  else Ok tt.

Definition expected_cost (public : Public) (registered : RegisteredPolicy) (depth skew : Point) : Point :=
  let anchor := (rp_ask_level registered + rp_use_ref registered * scalar (pb_reference_price public))%P in
  if (pb_direction public =? 1)%N then (- (anchor - rp_spread registered - depth + skew))%P else (anchor + depth + skew)%P.

(** The turn of the loop over the registry. *)
Definition check_statement_maker (circuit : QuoteCircuit) (public : Public) (strict_now : Z) (wires : list WireStatement)
    (ranges : list RangeStatement) (entry : nat * RegisteredPolicy) : result string unit :=
  let '(index, registered) := entry in
  let key := qc_key circuit in
  _ ← for_each (check_policy_wire wires index) (enumerate (parts registered));
  depth ← maker_wire wires index 9;
  skew ← maker_wire wires index 10;
  fits_value ← maker_wire wires index 11;
  fits_holds ← maker_wire wires index 12;
  fits_product ← maker_wire wires index 13;
  fresh_value ← maker_wire wires index 14;
  fresh_holds ← maker_wire wires index 15;
  fresh_product ← maker_wire wires index 16;
  both ← maker_wire wires index 17;
  ok ← maker_wire wires index 18;
  gated ← maker_wire wires index 19;
  cost ← maker_wire wires index 20;
  packed ← maker_wire wires index 21;
  if negb (same_point fits_value (rp_maxqty registered - pb_qty_commitment public)%P)
  then Err ("maker " +:+ show_nat index +:+ " size margin is not maxqty - qty")
  else if negb (same_point fresh_value (rp_expiry registered - g key * scalar strict_now)%P)
  then Err ("maker " +:+ show_nat index +:+ " freshness margin is incorrect")
  else
    let fits_witness := (fits_product + fits_product - fits_value + fits_holds - g key)%P in
    let fresh_witness := (fresh_product + fresh_product - fresh_value + fresh_holds - g key)%P in
    range0 ← maker_range ranges index 0;
    range1 ← maker_range ranges index 1;
    range2 ← maker_range ranges index 2;
    if negb (same_point (rs_commitment range0) fits_witness) || negb (same_point (rs_commitment range1) fresh_witness)
       || negb (length (rs_bit_commitments range0) =? qc_eligibility_bits circuit + 2)
       || negb (length (rs_bit_commitments range1) =? qc_eligibility_bits circuit + 2)
       || negb (length (rs_bit_commitments range2) =? qc_span_bits circuit)
    then Err ("maker " +:+ show_nat index +:+ " range statement is not the quote witness")
    else if negb (same_point cost (expected_cost public registered depth skew))
    then Err ("maker " +:+ show_nat index +:+ " cost is not the registered price formula")
    else
      constant ← ok_or (v ← checked_i64 (pb_sentinel public * 2); v ← checked_i64 (v * pb_n_slots public); checked_i64 (v + Z.of_nat index))
        "packed quote-key constant overflow";
      if negb (same_point packed (gated * scalar (pb_n_slots public) + g key * scalar constant)%P)
      then Err ("maker " +:+ show_nat index +:+ " packed key is incorrect")
      else Ok tt.

Definition check_statement_margin (wires : list WireStatement) (ranges : list RangeStatement) (winner_key : Point) (index : nat) :
    result string unit :=
  packed ← maker_wire wires index 21;
  range ← maker_range ranges index 2;
  if negb (same_point (rs_commitment range) (packed - winner_key)%P)
  then Err ("maker " +:+ show_nat index +:+ " minimality value is not key - winner")
  else Ok tt.

Definition quote_statement_from_evaluations (circuit : QuoteCircuit) (evaluations : list QuoteNodeEvaluations) (public : Public)
    (winner_index : nat) (winner_value : N) (parties : list PartyId) (threshold : nat) : result string QuoteNodeStatement :=
  let maker_count := length (pb_registry public) in
  if (maker_count =? 0) || (maker_count <=? winner_index) || (1 <? pb_direction public)%N || (pb_n_slots public <=? 0)%Z
     || match usize_of (pb_n_slots public) with Some slots => (slots <? N.of_nat maker_count)%N | None => true end
     || negb (bool_decide (pb_registry_digest public = registry_digest (pb_registry public)))
  then Err "the public quote statement is malformed"
  else if (length parties <=? threshold) || (length evaluations <? threshold + 1) || negb (all_distinct parties)
     || bool_decide (0%N ∈ parties)
  then Err "the quote committee cannot support its threshold"
  else
    let expected_wires := 1 + maker_count * LOCAL_WIRES_PER_MAKER in
    let expected_ranges := maker_count * LOCAL_RANGES_PER_MAKER in
    if negb (check_shapes qe_party (evaluations_fit expected_wires expected_ranges) parties ∅ evaluations)
    then Err "quote node evaluations have different shapes or parties"
    else
      wires ← map_res (fun index =>
        column ← map_res (fun node => at_index (qe_wires node) index) evaluations;
        wire_statement_from_evaluations column threshold) (seq 0 expected_wires);
      ranges ← map_res (fun index =>
        column ← map_res (fun node => at_index (qe_ranges node) index) evaluations;
        range_statement_from_evaluations column threshold) (seq 0 expected_ranges);
      first ← at_index wires 0;
      if negb (same_point (ws_commitment first) (pb_qty_commitment public))
      then Err "MPC quantity commitment differs from the request"
      else
        strict_now ← ok_or (checked_i64 (pb_now public + 1)) "strict expiry timestamp overflow";
        _ ← for_each (check_statement_maker circuit public strict_now wires ranges) (enumerate (pb_registry public));
        winner_key ← maker_wire wires winner_index 21;
        _ ← for_each (check_statement_margin wires ranges winner_key) (seq 0 maker_count);
        Ok (mkQuoteNodeStatement wires ranges winner_index winner_value maker_count (pb_sentinel public) threshold parties).

(** ** Binding a node *)

Record NodePolicyShares := mkNodePolicyShares {
  np_ask_level : NodeShared; np_spread : NodeShared; np_slope : NodeShared; np_invcoef : NodeShared; np_inv : NodeShared;
  np_maxqty : NodeShared; np_expiry : NodeShared; np_active : NodeShared; np_use_ref : NodeShared
}.

Record NodeGateShares := mkNodeGateShares {
  ng_value : NodeShared; ng_holds : NodeShared; ng_holds_cross : Scalar; ng_product : NodeShared; ng_product_cross : Scalar;
  ng_witness : NodeShared; ng_bits : NodeValueShares
}.

Record NodeMakerShares := mkNodeMakerShares {
  nm_fields : NodePolicyShares;
  nm_depth : NodeShared; nm_depth_cross : Scalar;
  nm_skew : NodeShared; nm_skew_cross : Scalar;
  nm_fits : NodeGateShares;
  nm_fresh : NodeGateShares;
  nm_active_cross : Scalar;
  nm_reference_cross : Scalar;
  nm_both : NodeShared; nm_both_cross : Scalar;
  nm_ok : NodeShared; nm_ok_cross : Scalar;
  nm_gated : NodeShared; nm_gated_cross : Scalar;
  nm_cost : NodeShared;
  nm_shifted_cost : NodeShared;
  nm_packed : NodeShared
}.

Record QuoteNodeContribution := mkQuoteNodeContribution {
  qn_party : PartyId;
  qn_qty : NodeShared;
  qn_makers : list NodeMakerShares;
  qn_winner_index : nat;
  qn_winner_value : N;
  qn_minimality : list NodeValueShares;
  qn_key_wires : list NodeShared;
  qn_threshold : nat;
  qn_parties : list PartyId
}.

(** The next statement of an iterator, bound. *)
Definition bind_next (key : Pedersen) (missing : string) (wire : LocalShared) (statements : list WireStatement) :
    result string (NodeShared * list WireStatement) :=
  match statements with
  | [] => Err missing
  | statement :: rest => bound ← bind_wire key wire statement; Ok (bound, rest)
  end.
Definition bind_next_range (key : Pedersen) (missing : string) (range : LocalRangeShares) (statements : list RangeStatement) :
    result string (NodeValueShares * list RangeStatement) :=
  match statements with
  | [] => Err missing
  | statement :: rest => bound ← bind_range key range statement; Ok (bound, rest)
  end.

Definition bind_gate (value holds product : NodeShared) (gate : LocalQuoteGateInput) (bits : NodeValueShares) : NodeGateShares :=
  mkNodeGateShares value holds (lg_holds_cross gate) product (lg_product_cross gate) (as_node_shared bits) bits.

(** One maker: its wires, then its ranges, in the order of the statement. *)
Definition bind_maker (key : Pedersen) (sentinel : Z) (maker : LocalQuoteMakerInput) (wires : list WireStatement) (ranges : list RangeStatement) :
    result string (NodeMakerShares * NodeValueShares * list WireStatement * list RangeStatement) :=
  let bind := bind_next key "the quote statement omitted a maker wire" in
  let fields := lm_fields maker in
  '(ask_level, wires) ← bind (lq_ask_level fields) wires;
  '(spread, wires) ← bind (lq_spread fields) wires;
  '(slope, wires) ← bind (lq_slope fields) wires;
  '(invcoef, wires) ← bind (lq_invcoef fields) wires;
  '(inv, wires) ← bind (lq_inv fields) wires;
  '(maxqty, wires) ← bind (lq_maxqty fields) wires;
  '(expiry, wires) ← bind (lq_expiry fields) wires;
  '(active, wires) ← bind (lq_active fields) wires;
  '(use_ref, wires) ← bind (lq_use_ref fields) wires;
  '(depth, wires) ← bind (lm_depth maker) wires;
  '(skew, wires) ← bind (lm_skew maker) wires;
  '(fits_value, wires) ← bind (lg_value (lm_fits maker)) wires;
  '(fits_holds, wires) ← bind (lg_holds (lm_fits maker)) wires;
  '(fits_product, wires) ← bind (lg_product (lm_fits maker)) wires;
  '(fresh_value, wires) ← bind (lg_value (lm_fresh maker)) wires;
  '(fresh_holds, wires) ← bind (lg_holds (lm_fresh maker)) wires;
  '(fresh_product, wires) ← bind (lg_product (lm_fresh maker)) wires;
  '(both, wires) ← bind (lm_both maker) wires;
  '(ok, wires) ← bind (lm_ok maker) wires;
  '(gated, wires) ← bind (lm_gated maker) wires;
  '(cost, wires) ← bind (lm_cost maker) wires;
  '(packed, wires) ← bind (lm_packed maker) wires;
  '(fits_bits, ranges) ← bind_next_range key "the quote statement omitted the fits range" (lg_witness (lm_fits maker)) ranges;
  '(fresh_bits, ranges) ← bind_next_range key "the quote statement omitted the freshness range" (lg_witness (lm_fresh maker)) ranges;
  '(minimum, ranges) ← bind_next_range key "the quote statement omitted a minimality range" (lm_minimality maker) ranges;
  Ok (mkNodeMakerShares (mkNodePolicyShares ask_level spread slope invcoef inv maxqty expiry active use_ref)
        depth (lm_depth_cross maker) skew (lm_skew_cross maker)
        (bind_gate fits_value fits_holds fits_product (lm_fits maker) fits_bits)
        (bind_gate fresh_value fresh_holds fresh_product (lm_fresh maker) fresh_bits)
        (lm_active_cross maker) (lm_reference_cross maker) both (lm_both_cross maker) ok (lm_ok_cross maker)
        gated (lm_gated_cross maker) cost (node_shifted key (- scalar sentinel)%S cost) packed,
      minimum, wires, ranges).

Fixpoint bind_makers (key : Pedersen) (sentinel : Z) (makers : list LocalQuoteMakerInput) (wires : list WireStatement) (ranges : list RangeStatement) :
    result string (list (NodeMakerShares * NodeValueShares) * list WireStatement * list RangeStatement) :=
  match makers with
  | [] => Ok ([], wires, ranges)
  | maker :: makers =>
      '(bound, minimum, wires, ranges) ← bind_maker key sentinel maker wires ranges;
      '(rest, wires, ranges) ← bind_makers key sentinel makers wires ranges;
      Ok ((bound, minimum) :: rest, wires, ranges)
  end.

Definition bind_quote_node (key : Pedersen) (statement : QuoteNodeStatement) (n : LocalQuoteNode) : result string QuoteNodeContribution :=
  if negb (ln_threshold n =? qs_threshold statement) || negb (bool_decide (ln_parties n = qs_parties statement))
     || negb (length (ln_makers n) =? qs_maker_count statement)
  then Err "the local quote handoff and public statement have different shapes"
  else if negb (length (node_wires n) =? length (qs_wires statement)) then Err "the local quote handoff has the wrong wire count"
  else
    '(qty, wires) ← bind_next key "the quote statement omitted quantity" (ln_qty n) (qs_wires statement);
    '(bound, wires, ranges) ← bind_makers key (qs_sentinel statement) (ln_makers n) wires (qs_ranges statement);
    if negb (length wires =? 0) || negb (length ranges =? 0) then Err "the quote statement contains unused wires"
    else Ok (mkQuoteNodeContribution (ln_party n) qty bound.*1 (qs_winner_index statement) (qs_winner_value statement) bound.*2
      (nm_packed <$> bound.*1) (ln_threshold n) (ln_parties n)).

(** ** Relations *)

Record QuoteRelationEvaluations := mkQuoteRelationEvaluations {
  qr_party : PartyId; qr_products : list ProductEvaluations; qr_ranges : list RangeRelationEvaluations
}.
Record QuoteRelationStatements := mkQuoteRelationStatements { qrs_products : list ProductStatement; qrs_ranges : list RangeRelationStatement }.
Record ProductSpec := mkProductSpec { sp_multiplicand : Point; sp_factor : Point; sp_product : Point }.

Definition maker_product_specs (circuit : QuoteCircuit) (statement : QuoteNodeStatement) (public : Public) (maker : nat) :
    result string (list ProductSpec) :=
  let wire := maker_wire (qs_wires statement) maker in
  slope ← wire 2; invcoef ← wire 3; inv ← wire 4; active ← wire 7; use_ref ← wire 8; depth ← wire 9; skew ← wire 10;
  fits_value ← wire 11; fits_holds ← wire 12; fits_product ← wire 13; fresh_value ← wire 14; fresh_holds ← wire 15; fresh_product ← wire 16;
  both ← wire 17; ok ← wire 18; gated ← wire 19; cost ← wire 20;
  let shifted_cost := (cost - g (qc_key circuit) * scalar (pb_sentinel public))%P in
  registered ← at_index (pb_registry public) maker;
  let asset_match := bit_of (rp_maker_asset registered =? pb_asset public)%N in
  qty ← at_index (qs_wires statement) 0;
  Ok [mkProductSpec slope (ws_commitment qty) depth; mkProductSpec invcoef inv skew; mkProductSpec fits_holds fits_holds fits_holds;
      mkProductSpec fits_holds fits_value fits_product; mkProductSpec fresh_holds fresh_holds fresh_holds;
      mkProductSpec fresh_holds fresh_value fresh_product; mkProductSpec active active active; mkProductSpec use_ref use_ref use_ref;
      mkProductSpec fits_holds fresh_holds both; mkProductSpec both (active * asset_match)%P ok; mkProductSpec ok shifted_cost gated].

Definition quote_product_specs (circuit : QuoteCircuit) (statement : QuoteNodeStatement) (public : Public) : result string (list ProductSpec) :=
  if negb (qs_maker_count statement =? length (pb_registry public)) then Err "quote relation statement has a different registry size"
  else specs ← map_res (maker_product_specs circuit statement public) (seq 0 (qs_maker_count statement)); Ok (concat specs).

(** The eleven products of a maker, as a node holds them. *)
Definition maker_contributions (public : Public) (qty : NodeShared) (entry : nat * NodeMakerShares) :
    result string (list (ProductNodeContribution * Point)) :=
  let '(index, maker) := entry in
  registered ← at_index (pb_registry public) index;
  let asset_match := bit_of (rp_maker_asset registered =? pb_asset public)%N in
  let fields := nm_fields maker in let fits := nm_fits maker in let fresh := nm_fresh maker in
  Ok [(mkProductNodeContribution qty (nm_depth_cross maker), ns_commitment (np_slope fields));
      (mkProductNodeContribution (np_inv fields) (nm_skew_cross maker), ns_commitment (np_invcoef fields));
      (mkProductNodeContribution (ng_holds fits) (ng_holds_cross fits), ns_commitment (ng_holds fits));
      (mkProductNodeContribution (ng_value fits) (ng_product_cross fits), ns_commitment (ng_holds fits));
      (mkProductNodeContribution (ng_holds fresh) (ng_holds_cross fresh), ns_commitment (ng_holds fresh));
      (mkProductNodeContribution (ng_value fresh) (ng_product_cross fresh), ns_commitment (ng_holds fresh));
      (mkProductNodeContribution (np_active fields) (nm_active_cross maker), ns_commitment (np_active fields));
      (mkProductNodeContribution (np_use_ref fields) (nm_reference_cross maker), ns_commitment (np_use_ref fields));
      (mkProductNodeContribution (ng_holds fresh) (nm_both_cross maker), ns_commitment (ng_holds fits));
      (mkProductNodeContribution (node_scaled asset_match (np_active fields)) (nm_ok_cross maker), ns_commitment (nm_both maker));
      (mkProductNodeContribution (nm_shifted_cost maker) (nm_gated_cross maker), ns_commitment (nm_ok maker))].

Definition product_contributions (public : Public) (n : QuoteNodeContribution) : result string (list (ProductNodeContribution * Point)) :=
  if negb (length (qn_makers n) =? length (pb_registry public)) then Err "bound quote node has a different registry size"
  else products ← map_res (maker_contributions public (qn_qty n)) (enumerate (qn_makers n)); Ok (concat products).

Definition range_contributions (n : QuoteNodeContribution) : list NodeValueShares :=
  concat ((fun '(maker, minimum) => [ng_bits (nm_fits maker); ng_bits (nm_fresh maker); minimum]) <$> zip (qn_makers n) (qn_minimality n)).

Definition quote_relation_evaluations (circuit : QuoteCircuit) (public : Public) (n : QuoteNodeContribution) : result string QuoteRelationEvaluations :=
  products ← product_contributions public n;
  Ok (mkQuoteRelationEvaluations (qn_party n)
    ((fun '(product, multiplicand) => pc_evaluations (qc_key circuit) multiplicand product) <$> products)
    (relation_evaluations (qc_key circuit) <$> range_contributions n)).

Definition relations_fit (products ranges : nat) (node : QuoteRelationEvaluations) : bool :=
  (length (qr_products node) =? products) && (length (qr_ranges node) =? ranges)
  && forallb (fun value => (pe_party value =? qr_party node)%N) (qr_products node)
  && forallb (fun value => (rr_party value =? qr_party node)%N) (qr_ranges node).

Definition quote_relation_statements_from_evaluations (circuit : QuoteCircuit) (statement : QuoteNodeStatement) (public : Public)
    (evaluations : list QuoteRelationEvaluations) : result string QuoteRelationStatements :=
  specs ← quote_product_specs circuit statement public;
  if length evaluations <? qs_threshold statement + 1 then Err "too few quote relation evaluations"
  else
    let expected_ranges := qs_maker_count statement * LOCAL_RANGES_PER_MAKER in
    if negb (check_shapes qr_party (relations_fit (length specs) expected_ranges) (qs_parties statement) ∅ evaluations)
    then Err "quote relation evaluations have different shapes or parties"
    else
      products ← map_res (fun '(index, spec) =>
        column ← map_res (fun node => at_index (qr_products node) index) evaluations;
        product_statement_from_evaluations (sp_multiplicand spec) (sp_factor spec) (sp_product spec) column (qs_threshold statement))
        (enumerate specs);
      ranges ← map_res (fun index =>
        range ← at_index (qs_ranges statement) index;
        column ← map_res (fun node => at_index (qr_ranges node) index) evaluations;
        range_relations_from_evaluations range column) (seq 0 expected_ranges);
      Ok (mkQuoteRelationStatements products ranges).

(** ** Contexts and transcripts *)

Definition product_round_context (proof_context : bytes) (maker component : nat) : bytes :=
  bstr "QOMM:QUOTE:PRODUCT-ROUND:v1" ++ proof_context ++ be_bytes 8 (N.of_nat maker) ++ be_bytes 8 (N.of_nat component).

Definition quote_product_transcript (proof_context : bytes) (maker component : nat) : result string Transcript :=
  let tagged name := tag proof_context maker name in
  let gate_bit name := gate_bit_transcript (gate_context proof_context maker name) in
  let gate_prod name := gate_product_transcript (gate_context proof_context maker name) in
  match component with
  | 0 => Ok (tagged "depth")
  | 1 => Ok (tagged "skew")
  | 2 => Ok (gate_bit (bstr "fits"))
  | 3 => Ok (gate_prod (bstr "fits"))
  | 4 => Ok (gate_bit (bstr "fresh"))
  | 5 => Ok (gate_prod (bstr "fresh"))
  | 6 => Ok (tagged "active")
  | 7 => Ok (tagged "reference")
  | 8 => Ok (tagged "ok1")
  | 9 => Ok (tagged "ok2")
  | 10 => Ok (tagged "gate")
  | _ => Err "quote product component is outside its fixed layout"
  end%string.

Definition quote_range_context (proof_context : bytes) (maker component : nat) : result string bytes :=
  match component with
  | 0 => Ok (gate_range_context proof_context maker (bstr "fits"))
  | 1 => Ok (gate_range_context proof_context maker (bstr "fresh"))
  | 2 => Ok (minimality_context proof_context maker)
  | _ => Err "quote range component is outside its fixed layout"
  end.

Definition winner_round_context (proof_context : bytes) : bytes := bstr "QOMM:QUOTE:WINNER-ROUND:v1" ++ proof_context.

Definition winner_statement (circuit : QuoteCircuit) (statement : QuoteNodeStatement) : result string WireStatement :=
  source ← ok_or (qs_wires statement !! (1 + qs_winner_index statement * LOCAL_WIRES_PER_MAKER + 21)) "winner key is outside the quote statement";
  let shift := (g (qc_key circuit) * scalar_of_N (qs_winner_value statement))%P in
  match ws_coefficient_commitments source with
  | [] => Err "winner key has an empty VSS ladder"
  | constant :: rest => Ok (mkWireStatement (ws_commitment source - shift)%P ((constant - shift)%P :: rest) (ws_threshold source))
  end.

(** ** Rounds *)

Record QuoteRound1Seals := mkQuoteRound1Seals {
  q1s_party : PartyId; q1s_products : list ProductRound1Seal; q1s_ranges : list RangeRound1Seal; q1s_winner : OpeningRound1Seal
}.
Record QuoteRound1 := mkQuoteRound1 {
  q1_party : PartyId; q1_products : list ProductRound1; q1_ranges : list RangeRound1; q1_winner : OpeningRound1
}.
Record QuoteRound1Secrets := mkQuoteRound1Secrets {
  q1x_party : PartyId; q1x_products : list ProductRound1Secret; q1x_ranges : list RangeRound1Secret; q1x_winner : OpeningRound1Secret
}.
Record QuoteChallenges := mkQuoteChallenges { qch_products : list ProductChallenge; qch_ranges : list RangeChallenge; qch_winner : OpeningChallenge }.
Record QuoteRound2 := mkQuoteRound2 {
  q2_party : PartyId; q2_products : list ProductRound2; q2_ranges : list RangeRound2; q2_winner : OpeningRound2
}.

Definition winner_contribution (circuit : QuoteCircuit) (n : QuoteNodeContribution) : result string OpeningNodeContribution :=
  wire ← ok_or (qn_key_wires n !! qn_winner_index n) "winner index is outside the node's key vector";
  let winner := node_shifted (qc_key circuit) (- scalar_of_N (qn_winner_value n))%S wire in
  Ok (mkOpeningNodeContribution (qn_party n) (ns_value_share winner) (ns_blinding_share winner)).

Section Rounds.
Context {R : Type} `{!ScalarRandom R}.

Fixpoint prepare_products (circuit : QuoteCircuit) (proof_context : bytes) (products : list (nat * (ProductNodeContribution * Point))) (rng : R) :
    list (ProductRound1Seal * ProductRound1Secret * ProductRound1) * R :=
  match products with
  | [] => ([], rng)
  | (index, (product, multiplicand)) :: products =>
      let '(seal, secret, round, rng) := prepare_product_round1 (qc_key circuit) product multiplicand
        (product_round_context proof_context (index / PRODUCTS_PER_MAKER) (index mod PRODUCTS_PER_MAKER)) rng in
      let (rest, rng) := prepare_products circuit proof_context products rng in
      ((seal, secret, round) :: rest, rng)
  end.

Fixpoint prepare_ranges (circuit : QuoteCircuit) (proof_context : bytes) (ranges : list (nat * NodeValueShares)) (rng : R) :
    result string (list (RangeRound1Seal * RangeRound1Secret * RangeRound1) * R) :=
  match ranges with
  | [] => Ok ([], rng)
  | (index, range) :: ranges =>
      context ← quote_range_context proof_context (index / LOCAL_RANGES_PER_MAKER) (index mod LOCAL_RANGES_PER_MAKER);
      let '(seal, secret, round, rng) := prepare_range_round1 (qc_key circuit) range context rng in
      '(rest, rng) ← prepare_ranges circuit proof_context ranges rng;
      Ok ((seal, secret, round) :: rest, rng)
  end.

Definition prepare_round1 (circuit : QuoteCircuit) (public : Public) (context : bytes) (n : QuoteNodeContribution) (rng : R) :
    result string (QuoteRound1Seals * QuoteRound1Secrets * QuoteRound1 * R) :=
  let proof_context := statement_context context public in
  products ← product_contributions public n;
  let (prepared, rng) := prepare_products circuit proof_context (enumerate products) rng in
  '(ranges, rng) ← prepare_ranges circuit proof_context (enumerate (range_contributions n)) rng;
  winner ← winner_contribution circuit n;
  let '(winner_seal, winner_secret, winner_round, rng) :=
    prepare_zero_opening_round1 (qc_key circuit) winner (winner_round_context proof_context) rng in
  Ok (mkQuoteRound1Seals (qn_party n) ((fun x => x.1.1) <$> prepared) ((fun x => x.1.1) <$> ranges) winner_seal,
      mkQuoteRound1Secrets (qn_party n) ((fun x => x.1.2) <$> prepared) ((fun x => x.1.2) <$> ranges) winner_secret,
      mkQuoteRound1 (qn_party n) ((fun x => x.2) <$> prepared) ((fun x => x.2) <$> ranges) winner_round, rng).
End Rounds.

Definition answer_round1 (circuit : QuoteCircuit) (public : Public) (n : QuoteNodeContribution) (secrets : QuoteRound1Secrets)
    (challenges : QuoteChallenges) : result string QuoteRound2 :=
  if negb (q1x_party secrets =? qn_party n)%N then Err "quote round-one secrets belong to another node"
  else
    products ← product_contributions public n;
    let ranges := range_contributions n in
    if negb (length products =? length (q1x_products secrets)) || negb (length products =? length (qch_products challenges))
       || negb (length ranges =? length (q1x_ranges secrets)) || negb (length ranges =? length (qch_ranges challenges))
    then Err "quote challenge has a different relation layout"
    else
      product_answers ← map_res (fun '((product, _), secret, challenge) => answer_product_challenge product secret challenge)
        (zip (zip products (q1x_products secrets)) (qch_products challenges));
      range_answers ← map_res (fun '(range, secret, challenge) => answer_range_challenge range secret challenge)
        (zip (zip ranges (q1x_ranges secrets)) (qch_ranges challenges));
      winner ← winner_contribution circuit n;
      winner_answer ← answer_opening_challenge winner (q1x_winner secrets) (qch_winner challenges);
      Ok (mkQuoteRound2 (qn_party n) product_answers range_answers winner_answer).

(** ** Challenges and assembly *)

Definition check_quote_round_parties (values quorum : list PartyId) (what : string) : result string unit :=
  if negb (length values =? length quorum) || negb (bool_decide (list_to_set values =@{gset PartyId} list_to_set quorum))
  then Err (what +:+ " do not exactly match the quote quorum")
  else Ok tt.

(** The messages of every node about one relation. *)
Definition column {A X} (part : A -> list X) (nodes : list A) (index : nat) : result string (list X) :=
  map_res (fun node => at_index (part node) index) nodes.

Definition product_challenge_at (relations : QuoteRelationStatements) (rounds : list QuoteRound1) (seals : list QuoteRound1Seals)
    (quorum : list PartyId) (proof_context : bytes) (index : nat) : result string ProductChallenge :=
  let maker := index / PRODUCTS_PER_MAKER in let component := index mod PRODUCTS_PER_MAKER in
  transcript ← quote_product_transcript proof_context maker component;
  statement ← at_index (qrs_products relations) index;
  messages ← column q1_products rounds index;
  sealed ← column q1s_products seals index;
  '(challenge, _) ← make_product_challenge_with_transcript statement messages sealed quorum (product_round_context proof_context maker component) transcript;
  Ok challenge.

Definition range_challenge_at (statement : QuoteNodeStatement) (rounds : list QuoteRound1) (seals : list QuoteRound1Seals)
    (quorum : list PartyId) (proof_context : bytes) (index : nat) : result string RangeChallenge :=
  context ← quote_range_context proof_context (index / LOCAL_RANGES_PER_MAKER) (index mod LOCAL_RANGES_PER_MAKER);
  range ← at_index (qs_ranges statement) index;
  messages ← column q1_ranges rounds index;
  sealed ← column q1s_ranges seals index;
  make_range_challenge range messages sealed quorum context.

Definition make_quote_challenges (circuit : QuoteCircuit) (statement : QuoteNodeStatement) (relations : QuoteRelationStatements)
    (public : Public) (rounds : list QuoteRound1) (seals : list QuoteRound1Seals) (quorum : list PartyId) (context : bytes) :
    result string QuoteChallenges :=
  _ ← check_quote_round_parties (q1_party <$> rounds) quorum "quote round-one messages";
  _ ← check_quote_round_parties (q1s_party <$> seals) quorum "quote round-one seals";
  let product_count := qs_maker_count statement * PRODUCTS_PER_MAKER in
  let range_count := qs_maker_count statement * LOCAL_RANGES_PER_MAKER in
  if negb (length (qrs_products relations) =? product_count) || negb (length (qrs_ranges relations) =? range_count)
     || existsb (fun round => negb (length (q1_products round) =? product_count) || negb (length (q1_ranges round) =? range_count)) rounds
     || existsb (fun seal => negb (length (q1s_products seal) =? product_count) || negb (length (q1s_ranges seal) =? range_count)) seals
  then Err "quote proof rounds have different relation layouts"
  else
    let proof_context := statement_context context public in
    product_challenges ← map_res (product_challenge_at relations rounds seals quorum proof_context) (seq 0 product_count);
    range_challenges ← map_res (range_challenge_at statement rounds seals quorum proof_context) (seq 0 range_count);
    winner ← winner_statement circuit statement;
    '(winner_challenge, _) ← make_zero_opening_challenge_with_transcript (ws_commitment winner) (q1_winner <$> rounds) (q1s_winner <$> seals)
      quorum (winner_round_context proof_context) (whole proof_context "winner");
    Ok (mkQuoteChallenges product_challenges range_challenges winner_challenge).

Definition assemble_product_at (circuit : QuoteCircuit) (relations : QuoteRelationStatements) (rounds : list QuoteRound1)
    (seals : list QuoteRound1Seals) (responses : list QuoteRound2) (quorum : list PartyId) (proof_context : bytes) (index : nat) :
    result string ProductProof :=
  let maker := index / PRODUCTS_PER_MAKER in let component := index mod PRODUCTS_PER_MAKER in
  transcript ← quote_product_transcript proof_context maker component;
  statement ← at_index (qrs_products relations) index;
  messages ← column q1_products rounds index;
  sealed ← column q1s_products seals index;
  answers ← column q2_products responses index;
  '(proof, _) ← assemble_product_from_rounds_with_transcript (qc_key circuit) statement messages sealed answers quorum
    (product_round_context proof_context maker component) transcript;
  Ok proof.

Definition assemble_range_at (circuit : QuoteCircuit) (statement : QuoteNodeStatement) (relations : QuoteRelationStatements)
    (rounds : list QuoteRound1) (seals : list QuoteRound1Seals) (responses : list QuoteRound2) (quorum : list PartyId) (proof_context : bytes)
    (index : nat) : result string ThresholdRangeProof :=
  context ← quote_range_context proof_context (index / LOCAL_RANGES_PER_MAKER) (index mod LOCAL_RANGES_PER_MAKER);
  range ← at_index (qs_ranges statement) index;
  relation ← at_index (qrs_ranges relations) index;
  messages ← column q1_ranges rounds index;
  sealed ← column q1s_ranges seals index;
  answers ← column q2_ranges responses index;
  assemble_range_from_rounds (qc_key circuit) range relation messages sealed answers quorum context.

(** One maker's proof, its minimality range and its key, from the flat vectors. *)
Definition assemble_maker (circuit : QuoteCircuit) (statement : QuoteNodeStatement) (public : Public) (products : list ProductProof)
    (ranges : list ThresholdRangeProof) (maker : nat) : result string (MakerProof * ThresholdRangeProof * Point) :=
  let wire := maker_wire (qs_wires statement) maker in
  let product i := at_index products (maker * PRODUCTS_PER_MAKER + i) in
  let range i := at_index ranges (maker * LOCAL_RANGES_PER_MAKER + i) in
  fits_holds ← wire 12; fits_product ← wire 13; fresh_holds ← wire 15; fresh_product ← wire 16; cost ← wire 20;
  p0 ← product 0; p1 ← product 1; p10 ← product 10; r0 ← range 0; r1 ← range 1; p6 ← product 6; p7 ← product 7;
  p2 ← product 2; p3 ← product 3; fits_range ← maker_range (qs_ranges statement) maker 0;
  p4 ← product 4; p5 ← product 5; fresh_range ← maker_range (qs_ranges statement) maker 1;
  p8 ← product 8; p9 ← product 9;
  slope ← wire 2; invcoef ← wire 3; inv ← wire 4; depth ← wire 9; skew ← wire 10; fits ← wire 11; expiry ← wire 6; active ← wire 7;
  ok ← wire 18; fresh_strict ← wire 14; both ← wire 17; gated ← wire 19;
  r2 ← range 2; packed ← wire 21;
  let key := qc_key circuit in
  Ok (mkMakerProof p0 p1 p10 (EligibilityThreshold r0 r1) (Square p6) (Square p7)
        (mkGate fits_holds (Square p2) p3 fits_product (rs_commitment fits_range))
        (mkGate fresh_holds (Square p4) p5 fresh_product (rs_commitment fresh_range)) (p8, p9)
        (mkMakerCommitments slope invcoef inv depth skew fits (expiry - g key * scalar (pb_now public))%P active ok fresh_strict both cost gated
           (cost - g key * scalar (pb_sentinel public))%P), r2, packed).

(** The assembly up to its last check. *)
Definition assemble_parts (circuit : QuoteCircuit) (statement : QuoteNodeStatement) (relations : QuoteRelationStatements) (public : Public)
    (rounds : list QuoteRound1) (seals : list QuoteRound1Seals) (responses : list QuoteRound2) (quorum : list PartyId) (context : bytes) :
    result string QuoteProof :=
  challenges ← make_quote_challenges circuit statement relations public rounds seals quorum context;
  _ ← check_quote_round_parties (q2_party <$> responses) quorum "quote round-two responses";
  if existsb (fun response => negb (length (q2_products response) =? length (qch_products challenges))
       || negb (length (q2_ranges response) =? length (qch_ranges challenges))) responses
  then Err "quote round-two responses have different relation layouts"
  else
    let proof_context := statement_context context public in
    products ← map_res (assemble_product_at circuit relations rounds seals responses quorum proof_context) (seq 0 (length (qch_products challenges)));
    ranges ← map_res (assemble_range_at circuit statement relations rounds seals responses quorum proof_context) (seq 0 (length (qch_ranges challenges)));
    winner ← winner_statement circuit statement;
    '(winner_opening, _) ← assemble_zero_opening_from_rounds_with_transcript (qc_key circuit) (ws_commitment winner) (ws_coefficient_commitments winner)
      (q1_winner <$> rounds) (q1s_winner <$> seals) (q2_winner <$> responses) quorum (winner_round_context proof_context) (whole proof_context "winner");
    makers ← map_res (assemble_maker circuit statement public products ranges) (seq 0 (qs_maker_count statement));
    Ok (mkQuoteProof (qs_winner_index statement) (qs_winner_value statement) ((fun x => x.1.1) <$> makers) winner_opening
      (MinimalityThreshold ((fun x => x.1.2) <$> makers)) ((fun x => x.2) <$> makers)).

(** The assembled proof is verified once more as a whole before it is returned. *)
Definition assemble_quote_from_rounds (circuit : QuoteCircuit) (statement : QuoteNodeStatement) (relations : QuoteRelationStatements) (public : Public)
    (rounds : list QuoteRound1) (seals : list QuoteRound1Seals) (responses : list QuoteRound2) (quorum : list PartyId) (context : bytes) :
    result (string + Invalid) QuoteProof :=
  match assemble_parts circuit statement relations public rounds seals responses quorum context with
  | Err e => Err (inl e)
  | Ok proof =>
      match verify circuit proof public context with
      | Ok _ => Ok proof
      | Err (Refused why) => Err (inr why)
      | Err Panicked => Err (inl "index out of bounds")
      end
  end.
End ThresholdQuote.
End ThresholdQuote.
