(* ===== verification/ThresholdQuoteProofs.v ===== *)
(** * Assembled quote proofs verify

    The public statement fixes how a maker's wires hang together, the relations
    carry those wires into the products, and every assembled part was verified on
    its own; so the whole proof passes the verifier of [Quote]. *)

From S2P Require Import Prelude.
From S2P Require Import Interfaces.
From S2P Require Import Curve.
From S2P Require Import Shamir.
From S2P Require Import ShamirTheorems.
From S2P Require Import Sigma.
From S2P Require Import Threshold.
From S2P Require Import Gadgets.
From S2P Require Import JointProver.
From S2P Require Import ThresholdTheorems.
From S2P Require Import ProductProofs.
From S2P Require Import ThresholdRange.
From S2P Require Import Instruction.
From S2P Require Import Quote.
From S2P Require Import QuoteProofs.
From S2P Require Import ThresholdQuote.

Import Quote.
Import ThresholdQuote.

Open Scope nat_scope.

(** ** Vectors *)

Lemma map_res_at {E A B} (f : A -> result E B) l bs i a :
  map_res f l = Ok bs -> l !! i = Some a -> exists b, bs !! i = Some b /\ f a = Ok b.
Proof. intros Hm Hi. apply map_res_ok in Hm. destruct (Forall2_lookup_l _ _ _ _ _ Hm Hi) as (b & ? & ?). eauto. Qed.

Lemma map_res_seq {E B} (f : nat -> result E B) n bs i :
  map_res f (seq 0 n) = Ok bs -> i < n -> exists b, bs !! i = Some b /\ f i = Ok b.
Proof. intros Hm Hi. apply (map_res_at _ _ _ _ _ Hm). by apply lookup_seq_lt. Qed.

Lemma concat_at {A} (ls : list (list A)) n i k l :
  Forall (fun l => length l = n) ls -> k < n -> ls !! i = Some l -> concat ls !! (i * n + k) = l !! k.
Proof.
  intros Hall Hk. revert i. induction Hall as [|l' ls Hl _ IH]; intros i Hi; [done|]. cbn. destruct i as [|i]; cbn in Hi.
  - injection Hi as ->. by rewrite lookup_app_l by lia.
  - rewrite lookup_app_r by (cbn; lia). replace (S i * n + k - length l') with (i * n + k) by (cbn; lia). by apply IH.
Qed.

Lemma div_mod_at i n k : k < n -> (i * n + k) / n = i /\ (i * n + k) mod n = k.
Proof.
  intros Hk. rewrite (Nat.add_comm _ k), Nat.div_add, Nat.Div0.mod_add by lia. by rewrite Nat.div_small, Nat.mod_small.
Qed.

Lemma enumerate_at {A} (l : list A) i a : l !! i = Some a -> enumerate l !! i = Some (i, a).
Proof.
  intros Hi. apply lookup_zip_with_Some. exists i, a. split; [done|]. split; [|done]. apply lookup_seq_lt. by eapply lookup_lt_Some.
Qed.

Lemma at_index_ok {A} (l : list A) i a : at_index l i = Ok a <-> l !! i = Some a.
Proof. apply ok_or_ok. Qed.

Lemma checked_i64_some z v : checked_i64 z = Some v <-> fits_i64 z = true /\ v = z.
Proof. unfold checked_i64. destruct (fits_i64 z); split; [intros [= ->]; done | by intros [_ ->] | done | by intros []]. Qed.

Section Assembly.
Context `{SL : ScalarLaws} `{G : !GroupOps} `{L : !GroupLaws} `{CL : !CompressLaws}.
Context `{T : TranscriptOps} `{B : !Bulletproofs} `{S2 : Sha256}.
Add Field assembly_field : scalar_field.

Definition wire_at (wires : list WireStatement) (maker offset : nat) : Point :=
  match maker_wire wires maker offset with Ok P => P | Err _ => pid end.

Lemma wire_at_ok wires maker offset P : maker_wire wires maker offset = Ok P -> P = wire_at wires maker offset.
Proof. unfold wire_at. by intros ->. Qed.

(** ** What the statement fixes *)

Variables (circuit : QuoteCircuit) (public : Public) (wires : list WireStatement) (ranges : list RangeStatement) (winner : nat).
#[local] Abbreviation key := (qc_key circuit).

Record maker_stated (index : nat) (policy : RegisteredPolicy) : Prop := {
  st_parts : forall k P, parts policy !! k = Some P -> wire_at wires index k = P;
  st_fits : wire_at wires index 11 = (rp_maxqty policy - pb_qty_commitment public)%P;
  st_fresh : wire_at wires index 14 = (rp_expiry policy - g key * scalar (pb_now public + 1))%P;
  st_fits_range : exists r, maker_range ranges index 0 = Ok r /\ length (rs_bit_commitments r) = qc_eligibility_bits circuit + 2
    /\ rs_commitment r = (wire_at wires index 13 + wire_at wires index 13 - wire_at wires index 11 + wire_at wires index 12 - g key)%P;
  st_fresh_range : exists r, maker_range ranges index 1 = Ok r /\ length (rs_bit_commitments r) = qc_eligibility_bits circuit + 2
    /\ rs_commitment r = (wire_at wires index 16 + wire_at wires index 16 - wire_at wires index 14 + wire_at wires index 15 - g key)%P;
  st_margin_range : exists r, maker_range ranges index 2 = Ok r /\ length (rs_bit_commitments r) = qc_span_bits circuit
    /\ rs_commitment r = (wire_at wires index 21 - wire_at wires winner 21)%P;
  st_cost : wire_at wires index 20 = expected_cost public policy (wire_at wires index 9) (wire_at wires index 10);
  st_twice : fits_i64 (pb_sentinel public * 2) = true;
  st_packed : wire_at wires index 21 = (wire_at wires index 19 * scalar (pb_n_slots public)
    + g key * scalar (pb_sentinel public * 2 * pb_n_slots public + Z.of_nat index))%P
}.

Lemma maker_statement_checked index policy :
  check_statement_maker circuit public (pb_now public + 1) wires ranges (index, policy) = Ok tt ->
  check_statement_margin wires ranges (wire_at wires winner 21) index = Ok tt ->
  maker_stated index policy.
Proof.
  intros Hm Hr. unfold check_statement_margin in Hr. unfold check_statement_maker in Hm.
  apply bind_ok in Hm as ([] & Hparts & Hm).
  repeat (apply bind_ok in Hm as (? & ?%wire_at_ok & Hm); subst). apply bind_ok in Hr as (? & ->%wire_at_ok & Hr).
  ok_inv. bool_inv.
  repeat match goal with
  | E : same_point _ _ = true |- _ => apply same_point_spec in E
  | E : (_ =? _) = true |- _ => apply Nat.eqb_eq in E
  | E : maker_range _ _ 2 = Ok ?a, E' : maker_range _ _ 2 = Ok ?b |- _ => rewrite E in E'; apply Ok_inj in E' as <-
  end.
  match goal with E : checked_i64 _ ≫= _ = Some _ |- _ => rename E into Hc end.
  apply bind_Some in Hc as (? & [Ht ->]%checked_i64_some & Hc). apply bind_Some in Hc as (? & [_ ->]%checked_i64_some & [_ ->]%checked_i64_some).
  split; eauto. intros k P Hk. apply for_each_ok in Hparts. rewrite Forall_forall in Hparts.
  specialize (Hparts (k, P) (proj2 (enumerate_lookup _ _ _) Hk)). unfold check_policy_wire in Hparts.
  apply bind_ok in Hparts as (? & ->%wire_at_ok & Hparts). ok_inv. bool_inv. by apply same_point_spec.
Qed.

(** ** The assembled maker *)

(** Each part was verified against the statement's own points. *)
Variables (ctx : bytes) (products : list ProductProof) (proofs : list ThresholdRangeProof).

Definition product_proved (index k : nat) (spec : ProductSpec) : Prop :=
  forall tr p, quote_product_transcript ctx index k = Ok tr -> at_index products (index * PRODUCTS_PER_MAKER + k) = Ok p ->
    (verify_product key tr (sp_multiplicand spec) (sp_factor spec) (sp_product spec) p).1 = true.

Definition range_proved (index k : nat) : Prop :=
  forall r st c, at_index proofs (index * LOCAL_RANGES_PER_MAKER + k) = Ok r -> maker_range ranges index k = Ok st ->
    quote_range_context ctx index k = Ok c ->
    verify_threshold_range key (rs_commitment st) r c = true /\ tp_bits r = length (rs_bit_commitments st).

(** The eleven products of a maker over the statement's wires. *)
Definition stated_specs (index : nat) (policy : RegisteredPolicy) : list ProductSpec :=
  let w := wire_at wires index in
  [mkProductSpec (w 2) (pb_qty_commitment public) (w 9); mkProductSpec (w 3) (w 4) (w 10); mkProductSpec (w 12) (w 12) (w 12);
   mkProductSpec (w 12) (w 11) (w 13); mkProductSpec (w 15) (w 15) (w 15); mkProductSpec (w 15) (w 14) (w 16);
   mkProductSpec (w 7) (w 7) (w 7); mkProductSpec (w 8) (w 8) (w 8); mkProductSpec (w 12) (w 15) (w 17);
   mkProductSpec (w 17) (w 7 * bit_of (rp_maker_asset policy =? pb_asset public)%N)%P (w 18);
   mkProductSpec (w 18) (w 20 - g key * scalar (pb_sentinel public))%P (w 19)].

Record maker_proved (index : nat) (policy : RegisteredPolicy) : Prop := {
  pr_products : forall k spec, stated_specs index policy !! k = Some spec -> product_proved index k spec;
  pr_ranges : forall k, k < LOCAL_RANGES_PER_MAKER -> range_proved index k
}.

Variables (statement : QuoteNodeStatement).
Hypothesis Hwires : qs_wires statement = wires.
Hypothesis Hranges : qs_ranges statement = ranges.

(** The commitments the verifier derives are the statement's wires. *)
Lemma const_commit (v : Scalar) : commit key v s0 = (g key * v)%P.
Proof. unfold commit. module_split; ring. Qed.

Lemma stated_fresh index policy : maker_stated index policy ->
  derived_fresh key public policy = wire_at wires index 14
  /\ rp_expiry policy = (wire_at wires index 14 + commit key (scalar (pb_now public)) s0 + commit key s1 s0)%P.
Proof.
  intros Hs. unfold derived_fresh. rewrite (st_fresh _ _ Hs), !const_commit, scalar_add, scalar_1. split; module_split; ring.
Qed.

Lemma stated_cost index policy c : maker_stated index policy ->
  mc_depth c = wire_at wires index 9 -> mc_skew c = wire_at wires index 10 -> derived_cost public policy c = wire_at wires index 20.
Proof.
  intros Hs Ed Es. rewrite (st_cost _ _ Hs). unfold derived_cost, expected_cost. rewrite Ed, Es. done.
Qed.

Lemma stated_key index policy c : maker_stated index policy -> mc_gated c = wire_at wires index 19 ->
  derived_key key public index c (pb_sentinel public * 2) = wire_at wires index 21.
Proof.
  intros Hs Eg. rewrite (st_packed _ _ Hs). unfold derived_key. rewrite Eg, !const_commit, scalar_add, !scalar_mul, scalar_nat.
  rewrite nat_N_Z. module_split; ring.
Qed.

Lemma gate_matches base gate : (gt_product_commitment gate + gt_product_commitment gate - base + gt_commitment gate - g key)%P
  = gt_witness_commitment gate -> gate_derived key base gate = gt_witness_commitment gate.
Proof. intros <-. unfold gate_derived. rewrite const_commit. module_split; ring. Qed.

Lemma maker_accepted keys index policy m margin packed :
  pb_registry public !! index = Some policy -> maker_stated index policy -> maker_proved index policy ->
  assemble_maker circuit statement public products proofs index = Ok (m, margin, packed) -> keys !! index = Some packed ->
  check_register key public (index, (policy, m)) = Ok tt
  /\ check_maker circuit public keys ctx (index, m) = Ok tt
  /\ packed = wire_at wires index 21
  /\ tp_bits margin = qc_span_bits circuit
  /\ verify_threshold_range key (packed - wire_at wires winner 21)%P margin (minimality_context ctx index) = true.
Proof.
  intros Hp Hs [Hprod Hrange] Ha Hk. unfold assemble_maker in Ha. rewrite Hwires, Hranges in Ha.
  ok_inv. 
  repeat match goal with E : maker_wire _ _ _ = Ok _ |- _ => apply wire_at_ok in E; subst end.
  repeat match goal with
  | E : at_index products (index * _ + ?k) = Ok ?p |- _ =>
      let V := fresh "V" in epose proof (Hprod k _ eq_refl _ p eq_refl E) as V; cbn [sp_multiplicand sp_factor sp_product] in V; clear E
  end.
  destruct (st_fits_range _ _ Hs) as (r0 & E0 & L0 & C0), (st_fresh_range _ _ Hs) as (r1 & E1 & L1 & C1), (st_margin_range _ _ Hs) as (r2 & E2 & L2 & C2).
  repeat match goal with
  | E : maker_range _ _ ?k = Ok _, E' : maker_range _ _ ?k = Ok _ |- _ => rewrite E in E'; apply Ok_inj in E'; subst
  end.
  match goal with A0 : at_index proofs (_ + 0) = _, A1 : at_index proofs (_ + 1) = _, A2 : at_index proofs (_ + 2) = _,
    M0 : maker_range _ _ 0 = _, M1 : maker_range _ _ 1 = _, M2 : maker_range _ _ 2 = _ |- _ =>
    destruct (Hrange 0 ltac:(cbv; lia) _ _ _ A0 M0 eq_refl) as [F0 W0]; destruct (Hrange 1 ltac:(cbv; lia) _ _ _ A1 M1 eq_refl) as [F1 W1];
    destruct (Hrange 2 ltac:(cbv; lia) _ _ _ A2 M2 eq_refl) as [F2 W2] end.
  rewrite L0 in W0. rewrite L1 in W1. rewrite L2 in W2. rewrite C2 in F2.
  pose proof (st_parts _ _ Hs) as Hparts. destruct (stated_fresh _ _ Hs) as [D1 D2].
  split; [|split; [|done]].
  - apply for_each_ok. unfold register_rows. cbn [mp_commitments mc_slope mc_invcoef mc_inv mc_fits mc_fresh_strict mc_active].
    rewrite (Hparts 2 _ eq_refl), (Hparts 3 _ eq_refl), (Hparts 4 _ eq_refl), (Hparts 7 _ eq_refl), <- D2, (st_fits _ _ Hs).
    replace (rp_maxqty policy - pb_qty_commitment public + pb_qty_commitment public)%P with (rp_maxqty policy) by (module_split; ring).
    rewrite !Forall_cons. rewrite !same_point_refl. done.
  - unfold check_maker.
    match goal with |- context [check_eligibility ?c ?x ?i ?m] => assert (check_eligibility c x i m = Ok tt) as He end.
    { unfold check_eligibility. cbn [mp_eligibility mp_fits_gate mp_fresh_gate gt_witness_commitment]. by rewrite W0, W1, Nat.eqb_refl, F0, F1. }
    rewrite He, Hp. clear He. cbn [ok_or mp_commitments mc_slope mc_invcoef mc_inv mc_fits mc_fresh_strict mc_active mc_depth mc_skew mc_ok mc_both mc_cost
      mc_gated mc_shifted_cost mp_conjunction mp_depth mp_skew mp_active_bit mp_reference_bit mp_fits_gate mp_fresh_gate gt_commitment mp_gate_cost].
    repeat first [rewrite require_bind; split | progress cbn [mbind result_bind check_bit_proof]]; try done.
    + by rewrite <- (Hparts 8 _ eq_refl).
    + rewrite (st_fits _ _ Hs). apply same_point_refl.
    + rewrite D1. apply same_point_refl.
    + unfold check_gate. cbn [gt_commitment gt_bit_proof gt_product gt_product_commitment gt_witness_commitment check_bit_proof].
      rewrite V4, V3, gate_matches; [apply same_point_refl|]. cbn. by rewrite C0.
    + unfold check_gate. cbn [gt_commitment gt_bit_proof gt_product gt_product_commitment gt_witness_commitment check_bit_proof].
      rewrite V2, V1, gate_matches; [apply same_point_refl|]. cbn. by rewrite C1.
    + rewrite (stated_cost _ _ _ Hs) by done. apply same_point_refl.
    + unfold derived_shifted. cbn. rewrite const_commit. apply same_point_refl.
    + unfold checked_i64. rewrite (st_twice _ _ Hs), Hk. cbn [ok_or mbind result_bind]. apply require_ok.
      rewrite (stated_key _ _ _ Hs) by done. apply same_point_refl.
Qed.
End Assembly.

(** ** The whole assembly *)

Section Whole.
Context `{SL : ScalarLaws} `{G : !GroupOps} `{L : !GroupLaws} `{CL : !CompressLaws}.
Context `{T : TranscriptOps} `{B : !Bulletproofs} `{S2 : Sha256}.
Implicit Types (circuit : QuoteCircuit) (public : Public) (statement : QuoteNodeStatement) (relations : QuoteRelationStatements).

Record quote_stated circuit public statement : Prop := {
  sd_count : qs_maker_count statement = length (pb_registry public);
  sd_shape : length (pb_registry public) <> 0 /\ qs_winner_index statement < length (pb_registry public) /\ (pb_direction public <= 1)%N
    /\ (pb_n_slots public <=? 0)%Z = false
    /\ match usize_of (pb_n_slots public) with Some slots => (slots <? N.of_nat (length (pb_registry public)))%N | None => true end = false
    /\ pb_registry_digest public = registry_digest (pb_registry public);
  sd_qty : exists w, qs_wires statement !! 0 = Some w /\ ws_commitment w = pb_qty_commitment public;
  sd_makers : forall index policy, pb_registry public !! index = Some policy ->
    maker_stated circuit public (qs_wires statement) (qs_ranges statement) (qs_winner_index statement) index policy
}.

Lemma statement_stated circuit evaluations public winner value parties threshold statement :
  quote_statement_from_evaluations circuit evaluations public winner value parties threshold = Ok statement ->
  quote_stated circuit public statement.
Proof.
  unfold quote_statement_from_evaluations. intros Hq. ok_inv. bool_inv. subst statement.
  match goal with E : checked_i64 _ = Some _ |- _ => apply checked_i64_some in E as [_ ->] end.
  match goal with E : maker_wire _ winner 21 = Ok _ |- _ => apply wire_at_ok in E as -> end.
  match goal with E : at_index _ 0 = Ok _, E' : same_point (ws_commitment _) _ = true |- _ =>
    apply at_index_ok in E; apply same_point_spec in E'; rename E into E0, E' into Eq end.
  match goal with E : for_each (check_statement_maker _ _ _ _ _) _ = _, E' : for_each (check_statement_margin _ _ _) _ = _ |- _ =>
    apply for_each_ok in E, E'; rename E into Em, E' into Er end.
  rewrite Forall_forall in Em. rewrite Forall_forall in Er.
  split; cbn [qs_maker_count qs_wires qs_ranges qs_winner_index]; eauto.
  - split_and!; try done; [by apply Nat.eqb_neq | by apply Nat.leb_gt].
  - intros index policy Hp. apply maker_statement_checked; [|apply Er].
    + apply (Em (index, policy)). by apply enumerate_lookup.
    + apply elem_of_seq. apply lookup_lt_Some in Hp. lia.
Qed.

#[local] Abbreviation specs_at circuit public statement := (stated_specs circuit public (qs_wires statement)).

Lemma maker_specs_stated circuit public statement index policy specs :
  quote_stated circuit public statement -> pb_registry public !! index = Some policy ->
  maker_product_specs circuit statement public index = Ok specs -> specs = specs_at circuit public statement index policy.
Proof.
  intros Hs Hp Hm. unfold maker_product_specs in Hm. ok_inv.
  repeat match goal with E : maker_wire _ _ _ = Ok _ |- _ => apply wire_at_ok in E; subst end.
  destruct (sd_qty _ _ _ Hs) as (w & Hw & Eq).
  repeat match goal with E : at_index _ _ = Ok _ |- _ => apply at_index_ok in E end.
  simplify_eq. unfold stated_specs. by rewrite Eq.
Qed.

Lemma specs_stated circuit public statement index policy specs k :
  quote_stated circuit public statement -> quote_product_specs circuit statement public = Ok specs ->
  pb_registry public !! index = Some policy -> k < PRODUCTS_PER_MAKER ->
  specs !! (index * PRODUCTS_PER_MAKER + k) = specs_at circuit public statement index policy !! k.
Proof.
  intros Hs Hq Hp Hk. unfold quote_product_specs in Hq. ok_inv. bool_inv. subst specs.
  match goal with E : map_res _ _ = Ok ?l |- _ => rename E into Em, l into all end. rewrite (sd_count _ _ _ Hs) in Em.
  assert (index < length (pb_registry public)) as Hi by by eapply lookup_lt_Some.
  destruct (map_res_seq _ _ _ _ Em Hi) as (l & Hl & El). apply (maker_specs_stated _ _ _ _ policy) in El; [|done|done]. subst l.
  apply concat_at; [|done|done]. apply Forall_lookup. intros j l Hj.
  apply map_res_ok in Em. destruct (Forall2_lookup_r _ _ _ _ _ Em Hj) as (j' & Hj' & El).
  apply lookup_seq in Hj' as [-> Hlt]. cbn in El. destruct (lookup_lt_is_Some_2 _ _ Hlt) as [policy' Hp'].
  by rewrite (maker_specs_stated _ _ _ _ _ _ Hs Hp' El).
Qed.

Lemma product_statement_points A Cf Cp evaluations t st :
  product_statement_from_evaluations A Cf Cp evaluations t = Ok st ->
  ps_multiplicand st = A /\ ps_factor_commitment st = Cf /\ ps_product_commitment st = Cp.
Proof. unfold product_statement_from_evaluations. intros Hp. ok_inv. by subst st. Qed.

Lemma relations_stated circuit public statement evaluations relations index policy k spec :
  quote_stated circuit public statement ->
  quote_relation_statements_from_evaluations circuit statement public evaluations = Ok relations ->
  pb_registry public !! index = Some policy -> specs_at circuit public statement index policy !! k = Some spec ->
  exists ps, qrs_products relations !! (index * PRODUCTS_PER_MAKER + k) = Some ps
    /\ ps_multiplicand ps = sp_multiplicand spec /\ ps_factor_commitment ps = sp_factor spec /\ ps_product_commitment ps = sp_product spec.
Proof.
  intros Hs Hr Hp Hk. unfold quote_relation_statements_from_evaluations in Hr. ok_inv. subst relations. cbn [qrs_products].
  match goal with E : quote_product_specs _ _ _ = Ok ?l |- _ => rename E into Eq, l into specs end.
  match goal with E : map_res _ (enumerate specs) = Ok _ |- _ => rename E into Em end.
  rewrite <- (specs_stated _ _ _ _ _ _ k Hs Eq Hp) in Hk by (apply lookup_lt_Some in Hk; exact Hk).
  destruct (map_res_at _ _ _ _ _ Em (enumerate_at _ _ _ Hk)) as (ps & Hps & Eps). exists ps. split; [done|].
  apply bind_ok in Eps as (column & _ & Eps). by eapply product_statement_points.
Qed.

(** Every assembler verifies what it returns. *)
Lemma assembled_product_checked circuit relations rounds seals responses quorum ctx index k p :
  k < PRODUCTS_PER_MAKER ->
  assemble_product_at circuit relations rounds seals responses quorum ctx (index * PRODUCTS_PER_MAKER + k) = Ok p ->
  exists tr ps, quote_product_transcript ctx index k = Ok tr /\ qrs_products relations !! (index * PRODUCTS_PER_MAKER + k) = Some ps
    /\ (verify_product (qc_key circuit) tr (ps_multiplicand ps) (ps_factor_commitment ps) (ps_product_commitment ps) p).1 = true.
Proof.
  intros Hk Ha. unfold assemble_product_at in Ha. destruct (div_mod_at index _ _ Hk) as [Ed Em]. rewrite Ed, Em in Ha.
  ok_inv. match goal with E : at_index _ _ = Ok ?ps |- _ => apply at_index_ok in E; rename ps into st end.
  match goal with E : quote_product_transcript _ _ _ = Ok ?t |- _ => exists t, st; split; [done|]; split; [done|] end.
  match goal with E : assemble_product_from_rounds_with_transcript _ _ _ _ _ _ _ _ = Ok _ |- _ =>
    unfold assemble_product_from_rounds_with_transcript in E end.
  ok_inv. bool_inv. by simplify_eq.
Qed.

Lemma assembled_range_checked circuit statement relations rounds seals responses quorum ctx index k r :
  k < LOCAL_RANGES_PER_MAKER ->
  assemble_range_at circuit statement relations rounds seals responses quorum ctx (index * LOCAL_RANGES_PER_MAKER + k) = Ok r ->
  exists c st, quote_range_context ctx index k = Ok c /\ maker_range (qs_ranges statement) index k = Ok st
    /\ verify_threshold_range (qc_key circuit) (rs_commitment st) r c = true /\ tp_bits r = length (rs_bit_commitments st).
Proof.
  intros Hk Ha. unfold assemble_range_at in Ha. destruct (div_mod_at index _ _ Hk) as [Ed Em]. rewrite Ed, Em in Ha.
  ok_inv. match goal with E : at_index (qs_ranges _) _ = Ok ?ps |- _ => rename ps into st end.
  match goal with E : quote_range_context _ _ _ = Ok ?t |- _ => exists t, st; split; [done|]; split; [done|] end.
  unfold assemble_range_from_rounds in Ha. ok_inv. bool_inv. subst r. done.
Qed.

Lemma assembled_opening_checked key C ladder messages seals responses quorum context tr o tr' :
  assemble_zero_opening_from_rounds_with_transcript key C ladder messages seals responses quorum context tr = Ok (o, tr') ->
  (verify_zero_opening key tr C o).1 = true.
Proof.
  unfold assemble_zero_opening_from_rounds_with_transcript, assemble_opening_from_rounds_with. intros Ha. ok_inv. bool_inv. by simplify_eq.
Qed.

Lemma challenges_count circuit statement relations public rounds seals quorum context challenges :
  make_quote_challenges circuit statement relations public rounds seals quorum context = Ok challenges ->
  length (qch_products challenges) = qs_maker_count statement * PRODUCTS_PER_MAKER
  /\ length (qch_ranges challenges) = qs_maker_count statement * LOCAL_RANGES_PER_MAKER.
Proof.
  unfold make_quote_challenges. intros Hm. ok_inv. subst challenges. cbn [qch_products qch_ranges].
  split; (erewrite map_res_length by eassumption; by rewrite length_seq).
Qed.

Lemma assembled_maker_proved circuit public statement relation_evaluations relations rounds seals responses quorum ctx products proofs index policy :
  quote_stated circuit public statement ->
  quote_relation_statements_from_evaluations circuit statement public relation_evaluations = Ok relations ->
  map_res (assemble_product_at circuit relations rounds seals responses quorum ctx) (seq 0 (qs_maker_count statement * PRODUCTS_PER_MAKER)) = Ok products ->
  map_res (assemble_range_at circuit statement relations rounds seals responses quorum ctx)
    (seq 0 (qs_maker_count statement * LOCAL_RANGES_PER_MAKER)) = Ok proofs ->
  pb_registry public !! index = Some policy ->
  maker_proved circuit public (qs_wires statement) (qs_ranges statement) ctx products proofs index policy.
Proof.
  intros Hs Hr Hp Hq Hi. assert (index < qs_maker_count statement) as Hlt by (rewrite (sd_count _ _ _ Hs); by eapply lookup_lt_Some). split.
  - intros k spec Hk tr p Htr Hat%at_index_ok. assert (k < PRODUCTS_PER_MAKER) as Hk' by (apply lookup_lt_Some in Hk; exact Hk).
    destruct (map_res_seq _ _ _ (index * PRODUCTS_PER_MAKER + k) Hp) as (p' & Hp' & Ep); [unfold PRODUCTS_PER_MAKER in *; nia|].
    rewrite Hat in Hp'. injection Hp' as <-.
    destruct (assembled_product_checked _ _ _ _ _ _ _ _ _ _ Hk' Ep) as (tr' & ps & Htr' & Hps & V).
    rewrite Htr in Htr'. apply Ok_inj in Htr' as <-.
    destruct (relations_stated _ _ _ _ _ _ _ _ _ Hs Hr Hi Hk) as (ps' & Hps' & E1 & E2 & E3). rewrite Hps in Hps'. injection Hps' as <-.
    by rewrite E1, E2, E3 in V.
  - intros k Hk r st c Hat%at_index_ok Hst Hc.
    destruct (map_res_seq _ _ _ (index * LOCAL_RANGES_PER_MAKER + k) Hq) as (r' & Hr' & Er); [unfold LOCAL_RANGES_PER_MAKER in *; nia|].
    rewrite Hat in Hr'. injection Hr' as <-.
    destruct (assembled_range_checked _ _ _ _ _ _ _ _ _ _ _ Hk Er) as (c' & st' & Hc' & Hst' & V).
    rewrite Hc in Hc'. apply Ok_inj in Hc' as <-. rewrite Hst in Hst'. by apply Ok_inj in Hst' as <-.
Qed.

Lemma winner_residual circuit statement winner :
  winner_statement circuit statement = Ok winner ->
  ws_commitment winner = shift (qc_key circuit) (wire_at (qs_wires statement) (qs_winner_index statement) 21) (qs_winner_value statement).
Proof.
  unfold winner_statement, wire_at, maker_wire, at_index. intros Hw. ok_inv.
  match goal with E : _ !! _ = Some _ |- _ => rewrite E end. cbn [ok_or mbind result_bind].
  destruct (ws_coefficient_commitments _); [done|]. ok_inv. by subst winner.
Qed.

(** The verifier's conditions on a proof in the order it checks them. *)
Lemma verify_intro circuit public context winner value (makers : list (MakerProof * ThresholdRangeProof * Point)) opening W :
  let ctx := statement_context context public in
  let keys := snd <$> makers in
  length (pb_registry public) = length makers -> makers <> [] -> (pb_direction public <= 1)%N -> (pb_n_slots public <=? 0)%Z = false ->
  match usize_of (pb_n_slots public) with Some slots => (slots <? N.of_nat (length (pb_registry public)))%N | None => true end = false ->
  pb_registry_digest public = registry_digest (pb_registry public) ->
  keys !! winner = Some W ->
  (forall index policy m margin packed, pb_registry public !! index = Some policy -> makers !! index = Some (m, margin, packed) ->
    check_register (qc_key circuit) public (index, (policy, m)) = Ok tt /\ check_maker circuit public keys ctx (index, m) = Ok tt
    /\ tp_bits margin = qc_span_bits circuit
    /\ verify_threshold_range (qc_key circuit) (packed - W)%P margin (minimality_context ctx index) = true) ->
  (verify_zero_opening (qc_key circuit) (whole ctx "winner") (shift (qc_key circuit) W value) opening).1 = true ->
  verify circuit (mkQuoteProof winner value ((fun x => x.1.1) <$> makers) opening (MinimalityThreshold ((fun x => x.1.2) <$> makers)) keys) public context
  = Ok tt.
Proof.
  cbv zeta. intros Hlen Hne Hd Hn Hu Hdig HW Hmk Ho.
  assert (forall index x, makers !! index = Some x -> exists policy, pb_registry public !! index = Some policy) as Hreg.
  { intros index x Hx. apply lookup_lt_is_Some_2. rewrite Hlen. by eapply lookup_lt_Some. }
  unfold verify. cbn [qp_winner_index qp_winner_value qp_maker_proofs qp_winner_opening qp_minimality qp_key_commitments].
  rewrite !length_fmap, Hlen, Nat.eqb_refl, Hn, HW. rewrite Hlen in Hu. rewrite Hu.
  rewrite (bool_decide_eq_true_2 _ (eq_sym Hdig)), (proj2 (N.ltb_ge _ _) Hd).
  rewrite (proj2 (Nat.eqb_neq _ 0)) by (destruct makers; cbn; [done|lia]).
  rewrite (proj2 (Nat.ltb_lt _ _)) by (apply lookup_lt_Some in HW; by rewrite length_fmap in HW).
  cbn [negb require mbind result_bind ok_or orb]. rewrite Ho.
  rewrite (proj2 (for_each_ok _ _)); cbn [mbind result_bind].
  rewrite (proj2 (for_each_ok _ _)); cbn [mbind result_bind].
  2,3: apply Forall_forall; intros [index y] Hy%enumerate_lookup.
  - apply require_bind. split; [done|]. unfold check_minimality. apply require_bind. split; [by apply Nat.eqb_eq; rewrite !length_fmap|].
    apply for_each_ok, Forall_forall. intros [index [packed margin]] Hy%enumerate_lookup.
    apply lookup_zip_with_Some in Hy as (? & ? & [= -> ->] & Hk & Hr). rewrite list_lookup_fmap in Hk. rewrite list_lookup_fmap in Hr.
    destruct (makers !! index) as [[[m margin'] packed']|] eqn:Hx; [|done]. injection Hk as ->. injection Hr as ->.
    destruct (Hreg _ _ Hx) as [policy Hp]. destruct (Hmk _ _ _ _ _ Hp Hx) as (_ & _ & Hb & Hv). apply require_ok. by rewrite Hb, Nat.eqb_refl.
  - destruct y as [policy m]. apply lookup_zip_with_Some in Hy as (? & ? & [= -> ->] & Hp & Hm). rewrite list_lookup_fmap in Hm.
    destruct (makers !! index) as [[[m' margin] packed]|] eqn:Hx; [|done]. injection Hm as <-. by apply (Hmk _ _ _ _ _ Hp Hx).
  - rewrite list_lookup_fmap in Hy. destruct (makers !! index) as [[[m margin] packed]|] eqn:Hx; [|done]. injection Hy as <-.
    destruct (Hreg _ _ Hx) as [policy Hp]. by apply (Hmk _ _ _ _ _ Hp Hx).
Qed.

Lemma assembled_accepted circuit evaluations public winner value parties threshold statement relation_evaluations relations rounds seals responses
    quorum context proof :
  quote_statement_from_evaluations circuit evaluations public winner value parties threshold = Ok statement ->
  quote_relation_statements_from_evaluations circuit statement public relation_evaluations = Ok relations ->
  assemble_parts circuit statement relations public rounds seals responses quorum context = Ok proof ->
  verify circuit proof public context = Ok tt.
Proof.
  intros Hs%statement_stated Hr Ha. unfold assemble_parts in Ha.
  apply bind_ok in Ha as (challenges & Hch & Ha). apply challenges_count in Hch as [Lp Lr]. ok_inv. rewrite Lp, Lr in *. subst proof.
  match goal with E : map_res (assemble_product_at _ _ _ _ _ _ _) _ = _, E' : map_res (assemble_range_at _ _ _ _ _ _ _ _) _ = _,
    E'' : map_res (assemble_maker _ _ _ _ _) _ = Ok ?l, W : winner_statement _ _ = Ok _, O : assemble_zero_opening_from_rounds_with_transcript _ _ _ _ _ _ _ _ _ = _ |- _ =>
    rename E into Ep, E' into Er, E'' into Em, l into makers; apply winner_residual in W; apply assembled_opening_checked in O; rewrite W in O; rename O into Ho end.
  destruct (sd_shape _ _ _ Hs) as (Hne & Hw & Hd & Hn & Hu & Hdig). pose proof (sd_count _ _ _ Hs) as Hc.
  assert (length makers = length (pb_registry public)) as Hlen by (apply map_res_length in Em; by rewrite length_seq, Hc in Em).
  assert (forall index policy m margin packed (keys : list Point), pb_registry public !! index = Some policy ->
    makers !! index = Some (m, margin, packed) -> keys !! index = Some packed ->
    check_register (qc_key circuit) public (index, (policy, m)) = Ok tt
    /\ check_maker circuit public keys (statement_context context public) (index, m) = Ok tt
    /\ packed = wire_at (qs_wires statement) index 21 /\ tp_bits margin = qc_span_bits circuit
    /\ verify_threshold_range (qc_key circuit) (packed - wire_at (qs_wires statement) (qs_winner_index statement) 21)%P margin
      (minimality_context (statement_context context public) index) = true) as Hmk.
  { intros index policy m margin packed keys Hi Hx Hk.
    assert (index < qs_maker_count statement) as Hlt by (rewrite Hc; by eapply lookup_lt_Some).
    destruct (map_res_seq _ _ _ _ Em Hlt) as (x & Hx' & Ex). rewrite Hx in Hx'. injection Hx' as <-.
    exact (maker_accepted circuit public (qs_wires statement) (qs_ranges statement) (qs_winner_index statement) _ _ _ statement eq_refl eq_refl
      keys index policy m margin packed Hi (sd_makers _ _ _ Hs _ _ Hi) (assembled_maker_proved _ _ _ _ _ _ _ _ _ _ _ _ _ _ Hs Hr Ep Er Hi) Ex Hk). }
  destruct (lookup_lt_is_Some_2 makers (qs_winner_index statement)) as [[[m margin] packed] Hx]; [lia|].
  destruct (lookup_lt_is_Some_2 (pb_registry public) (qs_winner_index statement)) as [policy Hi]; [lia|].
  assert (packed = wire_at (qs_wires statement) (qs_winner_index statement) 21) as ->.
  { apply (Hmk _ _ _ _ _ (snd <$> makers) Hi Hx). by rewrite list_lookup_fmap, Hx. }
  eapply verify_intro; eauto.
  - by intros ->.
  - by rewrite list_lookup_fmap, Hx.
  - intros index policy' m' margin' packed' Hi' Hx'.
    destruct (Hmk _ _ _ _ _ (snd <$> makers) Hi' Hx') as (? & ? & -> & ? & ?); [by rewrite list_lookup_fmap, Hx'|]. done.
Qed.

(** C2: what the coordinator assembles from a statement and relations that were
    reconstructed from the nodes' evaluations is a quote proof the ordinary
    verifier accepts, so the check at the end of the assembly never refuses: the
    assembly fails only on the messages of the rounds, and with the parts it
    assembled it returns them. *)
Theorem quote_assembly_accepts circuit evaluations public winner value parties threshold statement relation_evaluations relations rounds seals responses
    quorum context :
  quote_statement_from_evaluations circuit evaluations public winner value parties threshold = Ok statement ->
  quote_relation_statements_from_evaluations circuit statement public relation_evaluations = Ok relations ->
  (forall why, assemble_quote_from_rounds circuit statement relations public rounds seals responses quorum context <> Err (inr why))
  /\ (forall proof, assemble_parts circuit statement relations public rounds seals responses quorum context = Ok proof ->
       assemble_quote_from_rounds circuit statement relations public rounds seals responses quorum context = Ok proof
       /\ verify circuit proof public context = Ok tt).
Proof.
  intros Hs Hr. unfold assemble_quote_from_rounds.
  destruct (assemble_parts _ _ _ _ _ _ _ _ _) as [proof|e] eqn:Ha; [|done].
  pose proof (assembled_accepted _ _ _ _ _ _ _ _ _ _ _ _ _ _ _ _ Hs Hr Ha) as Hv. rewrite Hv. split; [done|]. by intros p [= <-].
Qed.
End Whole.
