(* ===== verification/QuoteExchange.v ===== *)
(** * A quote exchange

    The messages of a small quote, over any field and group: one maker, nodes
    that each hold an evaluation of a line through every opening, and every step
    from the nodes' evaluations to the assembled proof.  The witnesses evaluate
    it. *)

From S2P Require Import Prelude.
From S2P Require Import Interfaces.
From S2P Require Import Instances.
From S2P Require Import Curve.
From S2P Require Import Shamir.
From S2P Require Import Sigma.
From S2P Require Import SigmaProofs.
From S2P Require Import Threshold.
From S2P Require Import Gadgets.
From S2P Require Import JointProver.
From S2P Require Import ThresholdRange.
From S2P Require Import RangeRounds.
From S2P Require Import Instruction.
From S2P Require Import Quote.
From S2P Require Import QuoteProofs.
From S2P Require Import ThresholdQuote.

Import Quote.
Import ThresholdQuote.

Open Scope Z_scope.

Module Exchange.
Section Exchange.
Context `{T : TranscriptOps} `{SO : ScalarOps} `{G : !GroupOps} `{B : !Bulletproofs} `{PG : !PedersenGens} `{S2 : Sha256}.
Context {R : Type} `{!ScalarRandom R} (parties : list PartyId) (threshold : nat) (slope : Scalar) (seeds : PartyId -> R) (context : bytes).

Definition num (x : N) : Scalar := scalar_of_N x.
Definition no_circuit : QuoteCircuit := mkQuoteCircuit (mkPedersen pid pid) 0 0.
Definition circuit : QuoteCircuit := result_or no_circuit (try_new 3 1).
#[local] Abbreviation key := (qc_key circuit).

(** A maker that asks [10 + 2 qty], and a request for three. *)
Definition policy (level slope expiry : Z) : OpenPolicy :=
  mkOpenPolicy _ 0 (level, num 2) (3, num 3) (slope, num 4) (1, num 5) (0, num 6) (8, num 7) (expiry, num 8) (1, num 9) (0, num 10).
Definition only : OpenPolicy := policy 10 2 9.
Definition qty : Z * Scalar := (3, num 11).
Definition registry : list RegisteredPolicy := [opened_policy key only].
Definition public : Public :=
  mkPublic (commit_of key (opening_of qty)) 5 20 3 0 0 0 registry (registry_digest registry) (replicate 32 x01) 1.

Section Node.
Context (q : PartyId).
Definition on_line (v : Scalar) : Scalar := (v + slope * scalar_of_N q)%S.
Definition wire (o : Scalar * Scalar) : LocalShared := mkLocalShared q (on_line o.1) (on_line o.2) threshold.
(** What is left of the blinding of a product once the factor is taken out. *)
Definition cross (a f p : Scalar * Scalar) : Scalar := on_line (p.2 - a.2 * f.1)%S.
Definition range_shares (v : N) (r : Scalar) (bits : nat) : LocalRangeShares :=
  mkLocalRangeShares q (on_line (scalar_of_N v)) (on_line r)
    ((fun i => let b := (bit_of (N.testbit v (N.of_nat i)), num (N.of_nat i + 3)) in (on_line b.1, on_line b.2, cross b b b)) <$> seq 0 bits) threshold.

Definition gate_input (s : Z * Scalar) (bits : nat) : LocalQuoteGateInput * (Scalar * Scalar) :=
  let b := (bit_of (0 <=? s.1), num 21) in
  let P := ((b.1 * scalar s.1)%S, num 22) in
  let witness := (if 0 <=? s.1 then s.1 else - s.1 - 1) in
  (mkLocalQuoteGateInput (wire (opening_of s)) (wire b) (cross b b b) (wire P) (cross b (opening_of s) P)
     (range_shares (Z.to_N witness) (P.2 + P.2 - s.2 + b.2)%S bits), b).

Definition maker_input : LocalQuoteMakerInput :=
  let op := opening_of in let o := only in
  let depth := (scalar ((o_slope o).1 * qty.1), num 31) in
  let skew := (scalar ((o_invcoef o).1 * (o_inv o).1), num 32) in
  let '(fits, b1) := gate_input ((o_maxqty o).1 - qty.1, ((o_maxqty o).2 - qty.2)%S) 5 in
  let '(fresh, b2) := gate_input ((o_expiry o).1 - pb_now public - 1, (o_expiry o).2) 5 in
  let both := ((b1.1 * b2.1)%S, num 33) in
  let ok := ((both.1 * scalar (o_active o).1)%S, num 34) in
  let cost := o_add (o_add (op (o_ask_level o)) depth) skew in
  let shifted := o_sub cost (o_const (scalar (pb_sentinel public))) in
  let gated := ((ok.1 * shifted.1)%S, num 35) in
  let packed := o_add (o_scale gated (scalar (pb_n_slots public))) (o_const (scalar (pb_sentinel public * 2 * pb_n_slots public))) in
  let w v := wire (op v) in
  mkLocalQuoteMakerInput
    (mkLocalQuotePolicyInput (w (o_ask_level o)) (w (o_spread o)) (w (o_slope o)) (w (o_invcoef o)) (w (o_inv o)) (w (o_maxqty o)) (w (o_expiry o))
       (w (o_active o)) (w (o_use_ref o)))
    (wire depth) (cross (op (o_slope o)) (op qty) depth) (wire skew) (cross (op (o_invcoef o)) (op (o_inv o)) skew) fits fresh
    (cross (op (o_active o)) (op (o_active o)) (op (o_active o))) (cross (op (o_use_ref o)) (op (o_use_ref o)) (op (o_use_ref o)))
    (wire both) (cross b1 b2 both) (wire ok) (cross both (op (o_active o)) ok) (wire gated) (cross ok shifted gated) (wire cost) (wire packed)
    (range_shares 0 s0 1).
End Node.

Definition all_ok {A X} (f : A -> result string X) (l : list A) : list X := result_or [] (map_res f l).
(** [(10 + 2 * 3 + 20) * 3] *)
Definition winning : N := 108.
Definition nodes : list LocalQuoteNode :=
  all_ok (fun q => local_quote_node_new (wire q (opening_of qty)) [maker_input q] parties threshold) parties.
Definition node_messages : list QuoteNodeEvaluations := node_evaluations key <$> nodes.
Definition no_statement : QuoteNodeStatement := mkQuoteNodeStatement [] [] 0 0 0 0 0 [].
Definition made_statement : result string QuoteNodeStatement :=
  quote_statement_from_evaluations circuit node_messages public 0 winning parties threshold.
Definition statement : QuoteNodeStatement := result_or no_statement made_statement.
Definition bound : list QuoteNodeContribution := all_ok (bind_quote_node key statement) nodes.
Definition relation_messages : list QuoteRelationEvaluations := all_ok (quote_relation_evaluations circuit public) bound.
Definition made_relations : result string QuoteRelationStatements :=
  quote_relation_statements_from_evaluations circuit statement public relation_messages.
Definition relations : QuoteRelationStatements := result_or (mkQuoteRelationStatements [] []) made_relations.
Definition prepared : list (QuoteRound1Seals * QuoteRound1Secrets * QuoteRound1 * R) :=
  all_ok (fun node => prepare_round1 circuit public context node (seeds (qn_party node))) bound.
Definition rounds : list QuoteRound1 := (fun p => p.1.2) <$> prepared.
Definition seals : list QuoteRound1Seals := (fun p => p.1.1.1) <$> prepared.
Definition responses : list QuoteRound2 :=
  match make_quote_challenges circuit statement relations public rounds seals parties context with
  | Ok c => all_ok (fun '(node, p) => answer_round1 circuit public node p.1.1.2 c) (zip bound prepared)
  | Err _ => []
  end.
Definition assembled : result string QuoteProof := assemble_parts circuit statement relations public rounds seals responses parties context.
End Exchange.
End Exchange.
