(* ===== verification/ProofCodec.v ===== *)
(** * Final public proofs on the wire

    [zkpi-committee/src/proof_codec.rs]: the bounded encodings of threshold range
    proofs, of the proofs of a delivery versus payment, and of the evidence of a
    quote, which is verified on both sides.  The end offset of a read can not
    overflow, since a read is at most [u32::MAX] bytes of a slice. *)

From S2P Require Import Prelude.
From S2P Require Import Interfaces.
From S2P Require Import Curve.
From S2P Require Import Shamir.
From S2P Require Import Sigma.
From S2P Require Import Threshold.
From S2P Require Import ThresholdRange.
From S2P Require Import Reader.
From S2P Require Import Instruction.
From S2P Require Import StandingPool.
From S2P Require Import Quote.

Open Scope nat_scope.

Module ProofCodec.
Import Quote.

Definition RANGE_MAGIC : bytes := bstr "QOMMRPF1".
Definition DVP_MAGIC : bytes := bstr "QOMMDPF1".
Definition QUOTE_MAGIC : bytes := bstr "QOMMQPF1".
Definition MAX_BITS : nat := 64.
Definition MAX_QUOTE_MAKERS : nat := 24.
Definition MAX_QUOTE_BYTES : N := 786432.

(** A message, or what the verifier of a quote answered. *)
Definition Error : Type := string + refusal.

Abbreviation reader A := (bytes -> result Error (A * bytes)).

Definition truncated (what : string) (_ : nat) : Error := inl ("truncated " +:+ what).

(** [take] of a length that was read. *)
Definition take_sized (count : N) (what : string) : reader bytes := fun r =>
  if (N.of_nat (length r) <? count)%N then Err (truncated what 0) else Ok (firstn (N.to_nat count) r, skipn (N.to_nat count) r).

(** [i64::from_be_bytes]. *)
Definition i64_of_be (b : bytes) : Z :=
  let n := of_be_bytes b in if (n <? 2 ^ 63)%N then Z.of_N n else (Z.of_N n - 2 ^ 64)%Z.

Definition read_u8 (what : string) : reader N := read_be (truncated what) 1.
Definition read_u16 (what : string) : reader nat := fun r => '(n, r) ← read_be (truncated what) 2 r; Ok (N.to_nat n, r).
Definition read_u32 (what : string) : reader N := read_be (truncated what) 4.
Definition read_u64 (what : string) : reader N := read_be (truncated what) 8.
Definition read_i64 (what : string) : reader Z := fun r => '(b, r) ← read_take (truncated what) 8 r; Ok (i64_of_be b, r).
Definition bytes32 (what : string) : reader bytes := read_take (truncated what) 32.

Definition trailing (count : nat) : Error := inl ("proof encoding has " +:+ show_nat count +:+ " trailing bytes").

(** [u16::try_from] and [u32::try_from] of a [usize], written. *)
Definition put_u16 (value : nat) (message : string) : result Error bytes :=
  if (65535 <? N.of_nat value)%N then Err (inl message) else Ok (be_bytes 2 (N.of_nat value)).
Definition put_count (value : nat) (what : string) : result Error bytes := put_u16 value (what +:+ " count exceeds the wire bound").
Definition put_u32_len (value : bytes) (message : string) : result Error bytes :=
  if (4294967295 <? N.of_nat (length value))%N then Err (inl message) else Ok (be_bytes 4 (N.of_nat (length value))).
Definition put_sized (value : bytes) (what : string) : result Error bytes :=
  len ← put_u32_len value (what +:+ " exceeds the wire bound"); Ok (len ++ value).

Section ProofCodec.
Context `{T : TranscriptOps} `{SO : ScalarOps} `{G : !GroupOps} `{B : !Bulletproofs} `{PC : !PointCodec} `{SC : !ScalarCodec} `{PG : !PedersenGens}
  `{S2 : Sha256}.

Definition put_point (p : Point) : bytes := compress p.
Definition put_scalar (s : Scalar) : bytes := scalar_to_bytes s.
Definition put_product (p : ProductProof) : bytes :=
  put_point (pp_t_factor p) ++ put_point (pp_t_product p) ++ put_scalar (pp_z_b p) ++ put_scalar (pp_z_rb p) ++ put_scalar (pp_z_s p).
Definition put_opening (p : OpeningProof) : bytes := put_point (op_t p) ++ put_scalar (op_z_value p) ++ put_scalar (op_z_blinding p).

Definition read_point : reader Point :=
  read_with (truncated "Ristretto point") 32 decompress (inl "proof contains a non-canonical Ristretto point").
Definition read_scalar : reader Scalar :=
  read_with (truncated "Ristretto scalar") 32 scalar_from_canonical (inl "proof contains a non-canonical Ristretto scalar").
Definition read_product : reader ProductProof := fun r =>
  '(t_factor, r) ← read_point r; '(t_product, r) ← read_point r; '(z_b, r) ← read_scalar r; '(z_rb, r) ← read_scalar r; '(z_s, r) ← read_scalar r;
  Ok (mkProductProof t_factor t_product z_b z_rb z_s, r).
Definition read_opening : reader OpeningProof := fun r =>
  '(t, r) ← read_point r; '(z_value, r) ← read_scalar r; '(z_blinding, r) ← read_scalar r; Ok (mkOpeningProof t z_value z_blinding, r).

(** The first [n] bytes are the magic of the format. *)
Definition read_magic (magic : bytes) (what : string) (wrong : string) : reader unit := fun r =>
  '(b, r) ← read_take (truncated what) (length magic) r;
  if negb (bool_decide (b = magic)) then Err (inl wrong) else Ok (tt, r).

(** ** Threshold ranges *)

Definition encode_threshold_range (proof : ThresholdRangeProof) : result Error bytes :=
  if (tp_bits proof =? 0) || (MAX_BITS <? tp_bits proof) || negb (length (tp_bit_commitments proof) =? tp_bits proof)
     || negb (length (tp_bit_proofs proof) =? tp_bits proof)
  then Err (inl "threshold range proof shape is outside the wire bound")
  else
    bits ← put_u16 (tp_bits proof) "threshold proof width overflow";
    Ok (RANGE_MAGIC ++ bits ++ concat (put_point <$> tp_bit_commitments proof) ++ concat (put_product <$> tp_bit_proofs proof)
      ++ put_opening (tp_linkage proof)).

Definition read_threshold_range : reader ThresholdRangeProof := fun r =>
  '(_, r) ← read_magic RANGE_MAGIC "range-proof magic" "wrong threshold range proof magic" r;
  '(bits, r) ← read_u16 "range-proof width" r;
  if (bits =? 0) || (MAX_BITS <? bits) then Err (inl "threshold range proof width is outside the wire bound")
  else
    '(bit_commitments, r) ← read_times bits read_point r;
    '(bit_proofs, r) ← read_times bits read_product r;
    '(linkage, r) ← read_opening r;
    Ok (mkThresholdRangeProof bit_commitments bit_proofs linkage bits, r).
Definition decode_threshold_range (raw : bytes) : result Error ThresholdRangeProof := finish trailing read_threshold_range raw.

(** A range proof inside another message: its length, then its bytes. *)
Definition read_sized_range (length_name what : string) : reader ThresholdRangeProof := fun r =>
  '(len, r) ← read_u32 length_name r;
  '(b, r) ← take_sized len what r;
  proof ← decode_threshold_range b; Ok (proof, r).

(** ** Delivery versus payment *)

Definition encode_dvp_proofs (proofs : Pool.DvpProofs) : result Error bytes :=
  securities ← encode_threshold_range (Pool.dp_securities_remainder proofs);
  cash ← encode_threshold_range (Pool.dp_cash_remainder proofs);
  securities_len ← put_u32_len securities "securities proof is too large";
  cash_len ← put_u32_len cash "cash proof is too large";
  Ok (DVP_MAGIC ++ put_product (Pool.dp_product proofs) ++ securities_len ++ securities ++ cash_len ++ cash).

Definition read_dvp_proofs : reader Pool.DvpProofs := fun r =>
  '(_, r) ← read_magic DVP_MAGIC "DvP-proof magic" "wrong threshold DvP proof magic" r;
  '(product, r) ← read_product r;
  '(securities, r) ← read_sized_range "securities proof length" "securities proof" r;
  '(cash, r) ← read_sized_range "cash proof length" "cash proof" r;
  Ok (Pool.mkDvpProofs product securities cash, r).
Definition decode_dvp_proofs (raw : bytes) : result Error Pool.DvpProofs := finish trailing read_dvp_proofs raw.

(** ** Quotes *)

Record QuoteVerificationBundle := mkQuoteVerificationBundle {
  qv_context : bytes;
  qv_eligibility_bits : nat;
  qv_span_bits : nat;
  qv_public : Public;
  qv_proof : QuoteProof
}.

Definition bundle_verify (v : QuoteVerificationBundle) : result Error bytes :=
  if (length (pb_registry (qv_public v)) =? 0) || (MAX_QUOTE_MAKERS <? length (pb_registry (qv_public v)))
  then Err (inl "quote registry size is outside the settlement bound")
  else
    circuit ← map_err inl (try_new (qv_eligibility_bits v) (qv_span_bits v));
    _ ← map_err inr (verify circuit (qv_proof v) (qv_public v) (qv_context v));
    Ok (quote_proof_digest (qv_public v) (qv_proof v)).

Definition put_square_bit (proof : BitValidityProof) : result Error bytes :=
  match proof with
  | Square proof => Ok (put_product proof)
  | Disjunction _ => Err (inl "single-prover bit proof is forbidden in settlement evidence")
  end.
Definition read_square_bit : reader BitValidityProof := fun r => '(p, r) ← read_product r; Ok (Square p, r).

Definition put_gate (gate : Gate) : result Error bytes :=
  bit ← put_square_bit (gt_bit_proof gate);
  Ok (put_point (gt_commitment gate) ++ bit ++ put_product (gt_product gate) ++ put_point (gt_product_commitment gate)
    ++ put_point (gt_witness_commitment gate)).
Definition decode_gate : reader Gate := fun r =>
  '(commitment, r) ← read_point r; '(bit_proof, r) ← read_square_bit r; '(product, r) ← read_product r;
  '(product_commitment, r) ← read_point r; '(witness_commitment, r) ← read_point r;
  Ok (mkGate commitment bit_proof product product_commitment witness_commitment, r).

Definition commitment_points (c : MakerCommitments) : list Point :=
  [mc_slope c; mc_invcoef c; mc_inv c; mc_depth c; mc_skew c; mc_fits c; mc_fresh c; mc_active c; mc_ok c; mc_fresh_strict c; mc_both c; mc_cost c;
   mc_gated c; mc_shifted_cost c].
Definition decode_commitments : reader MakerCommitments := fun r =>
  '(slope, r) ← read_point r; '(invcoef, r) ← read_point r; '(inv, r) ← read_point r; '(depth, r) ← read_point r; '(skew, r) ← read_point r;
  '(fits, r) ← read_point r; '(fresh, r) ← read_point r; '(active, r) ← read_point r; '(ok, r) ← read_point r; '(fresh_strict, r) ← read_point r;
  '(both, r) ← read_point r; '(cost, r) ← read_point r; '(gated, r) ← read_point r; '(shifted_cost, r) ← read_point r;
  Ok (mkMakerCommitments slope invcoef inv depth skew fits fresh active ok fresh_strict both cost gated shifted_cost, r).

Definition put_threshold (proof : ThresholdRangeProof) : result Error bytes :=
  b ← encode_threshold_range proof; put_sized b "threshold range proof".
Definition decode_threshold : reader ThresholdRangeProof := read_sized_range "threshold range proof length" "threshold range proof".

Definition put_policy (policy : RegisteredPolicy) : bytes := be_bytes 4 (rp_maker_asset policy) ++ concat (put_point <$> parts policy).
Definition read_policy : reader RegisteredPolicy := fun r =>
  '(maker_asset, r) ← read_be (truncated "maker asset") 4 r;
  '(ask_level, r) ← read_point r; '(spread, r) ← read_point r; '(slope, r) ← read_point r; '(invcoef, r) ← read_point r; '(inv, r) ← read_point r;
  '(maxqty, r) ← read_point r; '(expiry, r) ← read_point r; '(active, r) ← read_point r; '(use_ref, r) ← read_point r;
  Ok (mkRegisteredPolicy maker_asset ask_level spread slope invcoef inv maxqty expiry active use_ref, r).

Definition put_eligibility (proof : EligibilityProof) : result Error bytes :=
  match proof with
  | EligibilityThreshold fits fresh => a ← put_threshold fits; b ← put_threshold fresh; Ok (a ++ b)
  | EligibilityBulletproof _ _ => Err (inl "single-prover eligibility proof is forbidden in settlement evidence")
  end.

Definition put_maker (maker : MakerProof) : result Error bytes :=
  eligibility ← put_eligibility (mp_eligibility maker);
  active ← put_square_bit (mp_active_bit maker);
  reference ← put_square_bit (mp_reference_bit maker);
  fits ← put_gate (mp_fits_gate maker);
  fresh ← put_gate (mp_fresh_gate maker);
  Ok (put_product (mp_depth maker) ++ put_product (mp_skew maker) ++ put_product (mp_gate_cost maker) ++ eligibility ++ active ++ reference ++ fits ++ fresh
    ++ put_product (mp_conjunction maker).1 ++ put_product (mp_conjunction maker).2 ++ concat (put_point <$> commitment_points (mp_commitments maker))).

Definition read_maker : reader MakerProof := fun r =>
  '(depth, r) ← read_product r; '(skew, r) ← read_product r; '(gate_cost, r) ← read_product r;
  '(fits, r) ← decode_threshold r; '(fresh, r) ← decode_threshold r;
  '(active_bit, r) ← read_square_bit r; '(reference_bit, r) ← read_square_bit r;
  '(fits_gate, r) ← decode_gate r; '(fresh_gate, r) ← decode_gate r;
  '(first, r) ← read_product r; '(second, r) ← read_product r;
  '(commitments, r) ← decode_commitments r;
  Ok (mkMakerProof depth skew gate_cost (EligibilityThreshold fits fresh) active_bit reference_bit fits_gate fresh_gate (first, second) commitments, r).

(** The statement up to the registry. *)
Definition put_public (public : Public) : bytes :=
  put_point (pb_qty_commitment public) ++ i64_be_bytes (pb_now public) ++ i64_be_bytes (pb_sentinel public) ++ i64_be_bytes (pb_n_slots public)
  ++ be_bytes 1 (pb_direction public) ++ be_bytes 4 (pb_asset public) ++ i64_be_bytes (pb_reference_price public)
  ++ pb_registry_digest public ++ pb_market_digest public ++ be_bytes 8 (pb_slot public).

Definition encode_quote_verification (v : QuoteVerificationBundle) : result Error bytes :=
  _ ← bundle_verify v;
  let public := qv_public v in let proof := qv_proof v in
  let makers := length (pb_registry public) in
  if negb (length (qp_maker_proofs proof) =? makers) || negb (length (qp_key_commitments proof) =? makers) || (MAX_QUOTE_MAKERS <? makers)
  then Err (inl "quote proof vectors do not match the bounded registry")
  else
    minimality ← match qp_minimality proof with
      | MinimalityThreshold proofs => if length proofs =? makers then Ok proofs else Err (inl "quote proof has the wrong minimality population")
      | MinimalityBulletproof _ _ => Err (inl "single-prover minimality proof is forbidden in settlement evidence")
      end;
    eligibility ← put_u16 (qv_eligibility_bits v) "quote eligibility width exceeds the wire bound";
    span ← put_u16 (qv_span_bits v) "quote span width exceeds the wire bound";
    count ← put_count makers "quote maker";
    winner ← put_u16 (qp_winner_index proof) "quote winner index exceeds the wire bound";
    proof_count ← put_count (length (qp_maker_proofs proof)) "quote maker proof";
    rows ← map_res put_maker (qp_maker_proofs proof);
    minimality_count ← put_count (length minimality) "quote minimality proof";
    margins ← map_res put_threshold minimality;
    key_count ← put_count (length (qp_key_commitments proof)) "quote key commitment";
    let out := QUOTE_MAGIC ++ eligibility ++ span ++ qv_context v ++ put_public public ++ count ++ concat (put_policy <$> pb_registry public)
      ++ winner ++ be_bytes 8 (qp_winner_value proof) ++ proof_count ++ concat rows ++ put_opening (qp_winner_opening proof)
      ++ minimality_count ++ concat margins ++ key_count ++ concat (put_point <$> qp_key_commitments proof) in
    if (MAX_QUOTE_BYTES <? N.of_nat (length out))%N then Err (inl "encoded quote proof exceeds the settlement transaction bound") else Ok out.

(** The count of a vector that must have one entry per maker. *)
Definition read_population (makers : nat) (what differs : string) : reader unit := fun r =>
  '(count, r) ← read_u16 what r; if negb (count =? makers) then Err (inl differs) else Ok (tt, r).

Definition read_quote : reader QuoteVerificationBundle := fun r =>
  '(_, r) ← read_magic QUOTE_MAGIC "quote-proof magic" "wrong threshold quote proof magic" r;
  '(eligibility_bits, r) ← read_u16 "quote eligibility width" r;
  '(span_bits, r) ← read_u16 "quote span width" r;
  '(context, r) ← bytes32 "quote transcript context" r;
  '(qty_commitment, r) ← read_point r;
  '(now, r) ← read_i64 "quote time" r;
  '(sentinel, r) ← read_i64 "quote sentinel" r;
  '(n_slots, r) ← read_i64 "quote slot population" r;
  '(direction, r) ← read_u8 "quote direction" r;
  '(asset, r) ← read_be (truncated "quote asset") 4 r;
  '(reference_price, r) ← read_i64 "quote reference price" r;
  '(registry_digest, r) ← bytes32 "quote registry digest" r;
  '(market_digest, r) ← bytes32 "quote market digest" r;
  '(slot, r) ← read_u64 "quote slot" r;
  '(makers, r) ← read_u16 "quote maker count" r;
  if (makers =? 0) || (MAX_QUOTE_MAKERS <? makers) then Err (inl "quote registry size is outside the settlement bound")
  else
    '(registry, r) ← read_times makers read_policy r;
    '(winner_index, r) ← read_u16 "quote winner index" r;
    '(winner_value, r) ← read_u64 "quote winner value" r;
    '(_, r) ← read_population makers "quote maker-proof count" "quote maker-proof population differs from its registry" r;
    '(maker_proofs, r) ← read_times makers read_maker r;
    '(winner_opening, r) ← read_opening r;
    '(_, r) ← read_population makers "quote minimality-proof count" "quote minimality population differs from its registry" r;
    '(minimality, r) ← read_times makers decode_threshold r;
    '(_, r) ← read_population makers "quote key-commitment count" "quote key population differs from its registry" r;
    '(key_commitments, r) ← read_times makers read_point r;
    Ok (mkQuoteVerificationBundle context eligibility_bits span_bits
      (mkPublic qty_commitment now sentinel n_slots direction asset reference_price registry registry_digest market_digest slot)
      (mkQuoteProof winner_index winner_value maker_proofs winner_opening (MinimalityThreshold minimality) key_commitments), r).

Definition decode_quote_verification (raw : bytes) : result Error QuoteVerificationBundle :=
  if (length raw =? 0) || (MAX_QUOTE_BYTES <? N.of_nat (length raw))%N
  then Err (inl "encoded quote proof is outside the settlement transaction bound")
  else
    bundle ← finish trailing read_quote raw;
    _ ← bundle_verify bundle;
    Ok bundle.
End ProofCodec.
End ProofCodec.

(** ** What the codecs guarantee *)

Import Quote.
Import ProofCodec.

Section Integers.
Open Scope Z_scope.

Lemma as_u64_bound z : (as_u64 z < 2 ^ 64)%N.
Proof. unfold as_u64. pose proof (Z.mod_pos_bound z (2 ^ 64) ltac:(lia)). lia. Qed.

Lemma i64_of_bytes z : I64 z -> i64_of_be (i64_be_bytes z) = z.
Proof.
  intros Hz. unfold i64_of_be, i64_be_bytes. rewrite of_be_bytes_be_small by (exact (as_u64_bound z)). unfold as_u64, I64 in *.
  destruct (Z.le_gt_cases 0 z).
  - rewrite Z.mod_small by lia. destruct (N.ltb_spec (Z.to_N z) (2 ^ 63)); lia.
  - replace (z mod 2 ^ 64) with (z + 2 ^ 64) by (symmetry; rewrite <- (Z.mod_add _ 1) by lia; apply Z.mod_small; lia).
    destruct (N.ltb_spec (Z.to_N (z + 2 ^ 64)) (2 ^ 63)); lia.
Qed.

Lemma i64_back b : length b = 8%nat -> I64 (i64_of_be b) /\ i64_be_bytes (i64_of_be b) = b.
Proof.
  intros Hb. pose proof (of_be_bytes_bound' 8 b Hb) as Hn. change (256 ^ N.of_nat 8)%N with (2 ^ 64)%N in Hn.
  unfold i64_of_be, i64_be_bytes, I64, as_u64. destruct (N.ltb_spec (of_be_bytes b) (2 ^ 63)) as [Hs|Hs].
  - rewrite Z.mod_small, N2Z.id, be_bytes_of_be' by lia. split; [lia|done].
  - replace ((Z.of_N (of_be_bytes b) - 2 ^ 64) mod 2 ^ 64) with (Z.of_N (of_be_bytes b))
      by (rewrite <- (Z.mod_add _ 1) by lia; rewrite Z.mod_small; lia).
    rewrite N2Z.id, be_bytes_of_be' by done. split; [lia|done].
Qed.
End Integers.

Section Exact.
Context `{T : TranscriptOps} `{SO : ScalarOps} `{G : !GroupOps} `{B : !Bulletproofs} `{PC : !PointCodec} `{SC : !ScalarCodec} `{PG : !PedersenGens}
  `{S2 : Sha256} `{PL : !PointCodecLaws} `{SL : !ScalarCodecLaws}.

Definition u16_ok (n : nat) : Prop := (N.of_nat n < 65536)%N.
Definition u16_bytes (n : nat) : bytes := be_bytes 2 (N.of_nat n).

(** *** Elements *)

#[local] Instance reads_u16 what : reads (read_u16 what) u16_ok u16_bytes.
Proof.
  intros r n rest. unfold read_u16, u16_ok, u16_bytes. split.
  - intros Hm. read_inv Hm as v. injection Hm as <- <-. rewrite N2Nat.id. split; [done|done].
  - intros [Hn ->]. read_run_with ltac:(exact Hn). by rewrite Nat2N.id.
Qed.
#[local] Instance reads_i64 what : reads (read_i64 what) I64 i64_be_bytes.
Proof.
  intros r z rest. unfold read_i64. split.
  - intros Hm. read_inv Hm as b. injection Hm as <- <-. rename select (length b = 8) into Hb. destruct (i64_back b Hb) as [Hz E]. by rewrite E.
  - intros [Hz ->]. read_run_with ltac:(apply be_bytes_length). by rewrite (i64_of_bytes z Hz).
Qed.
#[local] Instance reads_magic magic what wrong : reads (read_magic magic what wrong) (fun _ => True) (fun _ => magic).
Proof.
  intros r [] rest. unfold read_magic. split.
  - intros Hm. read_inv Hm as b. ok_inv. bool_inv. simplify_eq. done.
  - intros [_ ->]. read_run_with ltac:(reflexivity). by rewrite bool_decide_eq_true_2.
Qed.
#[local] Instance reads_sized count what : reads (take_sized count what) (fun b => N.of_nat (length b) = count) id.
Proof.
  intros r b rest. unfold take_sized. destruct (N.ltb_spec (N.of_nat (length r)) count) as [Hl|Hl].
  - split; [done|]. intros [<- ->]. unfold id in Hl. rewrite length_app in Hl. lia.
  - split.
    + intros [= <- <-]. change firstn with (@take byte). change skipn with (@drop byte). unfold id. rewrite take_drop, length_take. split; [lia|done].
    + unfold id. intros [<- ->]. rewrite Nat2N.id. change firstn with (@take byte). change skipn with (@drop byte).
      by rewrite take_app_length, drop_app_length.
Qed.
#[local] Instance reads_wire_point : reads read_point (fun _ => True) put_point := reads_point _ _.
#[local] Instance reads_wire_scalar : reads read_scalar (fun _ => True) put_scalar := reads_scalar _ _.

(** A reader of a fixed text has no value to find. *)
Ltac fixed_run := match goal with |- mbind _ (?m ?r) = _ =>
  erewrite (read_go m _ _ r tt); [| | reflexivity]; [cbn [mbind result_bind] | done] end.
Ltac codec_run := read_run_with ltac:(first [done | split; [done | by apply Forall_true] | match goal with E : (_ < _)%N |- (_ < _)%N => exact E end]).

#[local] Instance reads_product : reads read_product (fun _ => True) put_product.
Proof.
  intros r p rest. unfold read_product, put_product. split.
  - intros Hm. read_inv Hm as a. read_inv Hm as b. read_inv Hm as c. read_inv Hm as d. read_inv Hm as e. injection Hm as <- <-. by rewrite <- !app_assoc.
  - intros [_ ->]. rewrite <- !app_assoc. do 5 codec_run. by destruct p.
Qed.
#[local] Instance reads_opening : reads read_opening (fun _ => True) put_opening.
Proof.
  intros r p rest. unfold read_opening, put_opening. split.
  - intros Hm. read_inv Hm as a. read_inv Hm as b. read_inv Hm as c. injection Hm as <- <-. by rewrite <- !app_assoc.
  - intros [_ ->]. rewrite <- !app_assoc. do 3 codec_run. by destruct p.
Qed.

Lemma writes_u16 message : writes (fun n => put_u16 n message) u16_ok u16_bytes.
Proof.
  intros n b. unfold put_u16, u16_ok. destruct (N.ltb_spec 65535 (N.of_nat n)); [split; [done|lia]|].
  split; [intros [= <-]; split; [lia|done] | by intros [_ ->]].
Qed.

(** *** Ranges *)

Definition range_ok (p : ThresholdRangeProof) : Prop :=
  0 < tp_bits p <= 64 /\ length (tp_bit_commitments p) = tp_bits p /\ length (tp_bit_proofs p) = tp_bits p.
Definition range_bytes (p : ThresholdRangeProof) : bytes :=
  RANGE_MAGIC ++ u16_bytes (tp_bits p) ++ concat (put_point <$> tp_bit_commitments p) ++ concat (put_product <$> tp_bit_proofs p) ++ put_opening (tp_linkage p).

Lemma writes_range : writes encode_threshold_range range_ok range_bytes.
Proof.
  intros p b. unfold encode_threshold_range, range_ok, MAX_BITS. rewrite if_err_ok, !orb_false_iff, !negb_false_iff, !Nat.eqb_eq, Nat.eqb_neq, Nat.ltb_ge.
  rewrite (writes_bind _ _ _ _ _ _ (writes_u16 _)). unfold u16_ok. split.
  - intros ((((? & ?) & ?) & ?) & _ & [= <-]). split; [lia|done].
  - intros [(? & ? & ?) ->]. split_and!; try done; lia.
Qed.

#[local] Instance reads_range : reads read_threshold_range range_ok range_bytes.
Proof.
  intros r p rest. unfold read_threshold_range, range_ok, range_bytes, MAX_BITS. split.
  - intros Hm. read_inv Hm as m. read_inv Hm as n. apply if_err_ok in Hm as [Hn Hm]. apply orb_false_iff in Hn as [Hn%Nat.eqb_neq Hx%Nat.ltb_ge].
    read_inv Hm as cs. read_inv Hm as ps. read_inv Hm as l. injection Hm as <- <-. destruct_and!. cbn [tp_bits tp_bit_commitments tp_bit_proofs tp_linkage].
    rewrite <- !app_assoc. split; [split_and!; try done; lia|done].
  - intros [(Hb & Hc & Hp) ->]. rewrite <- !app_assoc. fixed_run. read_run_with ltac:(unfold u16_ok; lia).
    rewrite (proj2 (Nat.eqb_neq _ _)), (proj2 (Nat.ltb_ge _ _)) by lia. cbn [orb].
    do 3 codec_run. by destruct p.
Qed.

Definition sized_bytes (p : ThresholdRangeProof) : bytes := be_bytes 4 (N.of_nat (length (range_bytes p))) ++ range_bytes p.

Lemma length_concat_const {A} (f : A -> bytes) n l : (forall a, length (f a) = n) -> length (concat (f <$> l)) = n * length l.
Proof. intros Hf. induction l as [|a l IH]; cbn; [lia|]. rewrite length_app, Hf, IH. lia. Qed.

Lemma length_product p : length (put_product p) = 160.
Proof. unfold put_product, put_point, put_scalar. by rewrite !length_app, !compress_length, !scalar_to_bytes_length. Qed.

(** A range proof fits the 32-bit length that precedes it. *)
Lemma range_length p : range_ok p -> (N.of_nat (length (range_bytes p)) < 4294967296)%N.
Proof.
  intros (Hb & Hc & Hp). unfold range_bytes, u16_bytes, put_opening. rewrite !length_app, be_bytes_length.
  rewrite (length_concat_const put_point 32) by apply compress_length. rewrite (length_concat_const put_product 160) by apply length_product.
  unfold put_point, put_scalar. rewrite compress_length, !scalar_to_bytes_length. change (length RANGE_MAGIC) with 8. lia.
Qed.

Lemma put_u32_ok b message : (N.of_nat (length b) < 4294967296)%N -> put_u32_len b message = Ok (be_bytes 4 (N.of_nat (length b))).
Proof. intros Hb. unfold put_u32_len. by rewrite (proj2 (N.ltb_ge _ _)) by lia. Qed.

Lemma writes_threshold : writes put_threshold range_ok sized_bytes.
Proof.
  intros p b. unfold put_threshold. rewrite (writes_bind _ _ _ _ _ _ writes_range). unfold put_sized.
  split; intros [Hp Hb]; (split; [done|]); rewrite put_u32_ok in * by (by apply range_length); cbn [mbind result_bind] in *.
  - by injection Hb as <-.
  - by rewrite Hb.
Qed.

#[local] Instance reads_sized_range a c : reads (read_sized_range a c) range_ok sized_bytes.
Proof.
  intros r p rest. unfold read_sized_range, read_u32, sized_bytes. split.
  - intros Hm. read_inv Hm as n. read_inv Hm as b. apply bind_ok in Hm as (p' & Hp & [= <- <-]).
    apply (finish_ok _ _ _ _ _ _ reads_range) in Hp as [Hp ->]. subst n. unfold id. by rewrite <- !app_assoc.
  - intros [Hp ->]. rewrite <- !app_assoc. read_run_with ltac:(exact (range_length p Hp)). read_run_with ltac:(reflexivity).
    unfold decode_threshold_range. by rewrite (proj2 (finish_ok _ _ _ _ _ p reads_range) (conj Hp eq_refl)).
Qed.

(** *** Deliveries *)

Definition dvp_ok (p : Pool.DvpProofs) : Prop := range_ok (Pool.dp_securities_remainder p) /\ range_ok (Pool.dp_cash_remainder p).
Definition dvp_bytes (p : Pool.DvpProofs) : bytes :=
  DVP_MAGIC ++ put_product (Pool.dp_product p) ++ sized_bytes (Pool.dp_securities_remainder p) ++ sized_bytes (Pool.dp_cash_remainder p).

Lemma writes_dvp : writes encode_dvp_proofs dvp_ok dvp_bytes.
Proof.
  intros p b. unfold encode_dvp_proofs, dvp_ok, dvp_bytes, sized_bytes. rewrite !(writes_bind _ _ _ _ _ _ writes_range).
  split.
  - intros (Hs & Hc & Hb). rewrite !put_u32_ok in Hb by (by apply range_length). cbn [mbind result_bind] in Hb.
    apply Ok_inj in Hb as <-. by rewrite <- !app_assoc.
  - intros [[Hs Hc] ->]. rewrite !put_u32_ok by (by apply range_length). by rewrite <- !app_assoc.
Qed.

#[local] Instance reads_dvp : reads read_dvp_proofs dvp_ok dvp_bytes.
Proof.
  intros r p rest. unfold read_dvp_proofs, dvp_ok, dvp_bytes. split.
  - intros Hm. read_inv Hm as m. read_inv Hm as a. read_inv Hm as b. read_inv Hm as c. injection Hm as <- <-. by rewrite <- !app_assoc.
  - intros [[Hs Hc] ->]. rewrite <- !app_assoc. fixed_run. do 3 codec_run. by destruct p.
Qed.

(** *** Makers *)

Definition square_ok (p : BitValidityProof) : Prop := match p with Square _ => True | Disjunction _ => False end.
Definition square_bytes (p : BitValidityProof) : bytes := match p with Square p => put_product p | Disjunction _ => [] end.
Definition gate_ok (gate : Gate) : Prop := square_ok (gt_bit_proof gate).
Definition gate_bytes (gate : Gate) : bytes :=
  put_point (gt_commitment gate) ++ square_bytes (gt_bit_proof gate) ++ put_product (gt_product gate) ++ put_point (gt_product_commitment gate)
  ++ put_point (gt_witness_commitment gate).
Definition eligibility_ok (p : EligibilityProof) : Prop :=
  match p with EligibilityThreshold fits fresh => range_ok fits /\ range_ok fresh | EligibilityBulletproof _ _ => False end.
Definition eligibility_bytes (p : EligibilityProof) : bytes :=
  match p with EligibilityThreshold fits fresh => sized_bytes fits ++ sized_bytes fresh | EligibilityBulletproof _ _ => [] end.
Definition maker_ok (m : MakerProof) : Prop :=
  eligibility_ok (mp_eligibility m) /\ square_ok (mp_active_bit m) /\ square_ok (mp_reference_bit m) /\ gate_ok (mp_fits_gate m) /\ gate_ok (mp_fresh_gate m).
Definition points_bytes (c : MakerCommitments) : bytes := concat (put_point <$> commitment_points c).
Definition maker_bytes (m : MakerProof) : bytes :=
  put_product (mp_depth m) ++ put_product (mp_skew m) ++ put_product (mp_gate_cost m) ++ eligibility_bytes (mp_eligibility m)
  ++ square_bytes (mp_active_bit m) ++ square_bytes (mp_reference_bit m) ++ gate_bytes (mp_fits_gate m) ++ gate_bytes (mp_fresh_gate m)
  ++ put_product (mp_conjunction m).1 ++ put_product (mp_conjunction m).2 ++ points_bytes (mp_commitments m).

Lemma writes_square : writes put_square_bit square_ok square_bytes.
Proof. intros [p|p] b; cbn; [by split; [|intros []]|]. split; [by intros [= <-] | by intros [_ ->]]. Qed.
Lemma writes_gate : writes put_gate gate_ok gate_bytes.
Proof.
  intros p b. unfold put_gate. rewrite (writes_bind _ _ _ _ _ _ writes_square). split; [by intros [? [= <-]] | by intros [? ->]].
Qed.
Lemma writes_eligibility : writes put_eligibility eligibility_ok eligibility_bytes.
Proof.
  intros [p c|f n] b; cbn; [by split; [|intros []]|]. rewrite !(writes_bind _ _ _ _ _ _ writes_threshold).
  split; [by intros (? & ? & [= <-]) | by intros [[? ?] ->]].
Qed.
Lemma writes_maker : writes put_maker maker_ok maker_bytes.
Proof.
  intros m b. unfold put_maker, maker_ok. rewrite (writes_bind _ _ _ _ _ _ writes_eligibility), !(writes_bind _ _ _ _ _ _ writes_square),
    !(writes_bind _ _ _ _ _ _ writes_gate).
  split; [by intros (? & ? & ? & ? & ? & [= <-]) | by intros [(? & ? & ? & ? & ?) ->]].
Qed.

#[local] Instance reads_square : reads read_square_bit square_ok square_bytes.
Proof.
  intros r p rest. unfold read_square_bit. split.
  - intros Hm. read_inv Hm as a. injection Hm as <- <-. done.
  - intros [Hp ->]. destruct p as [p|p]; [done|]. cbn [square_bytes]. by codec_run.
Qed.
#[local] Instance reads_gate : reads decode_gate gate_ok gate_bytes.
Proof.
  intros r p rest. unfold decode_gate, gate_ok, gate_bytes. split.
  - intros Hm. read_inv Hm as a. read_inv Hm as b. read_inv Hm as c. read_inv Hm as d. read_inv Hm as e. injection Hm as <- <-. by rewrite <- !app_assoc.
  - intros [Hp ->]. rewrite <- !app_assoc. do 5 codec_run. by destruct p.
Qed.
#[local] Instance reads_points : reads decode_commitments (fun _ => True) points_bytes.
Proof.
  intros r c rest. unfold decode_commitments, points_bytes, commitment_points. split.
  - intros Hm. do 14 (let x := fresh "x" in read_inv Hm as x). injection Hm as <- <-. cbn. by rewrite <- !app_assoc.
  - intros [_ ->]. cbn [fmap list_fmap concat]. rewrite <- !app_assoc. do 14 codec_run. by destruct c.
Qed.

#[local] Instance reads_maker : reads read_maker maker_ok maker_bytes.
Proof.
  intros r m rest. unfold read_maker, maker_ok, maker_bytes, decode_threshold. split.
  - intros Hm. do 12 (let x := fresh "x" in read_inv Hm as x). apply Ok_inj in Hm. injection Hm as <- <-.
    cbn [mp_depth mp_skew mp_gate_cost mp_eligibility mp_active_bit mp_reference_bit mp_fits_gate mp_fresh_gate mp_conjunction mp_commitments
      eligibility_ok eligibility_bytes fst snd]. rewrite <- !app_assoc. split; [split_and!; assumption | reflexivity].
  - intros [(He & Ha & Hr & Hf & Hn) ->]. destruct (mp_eligibility m) as [|fits fresh] eqn:E; [done|]. cbn [eligibility_ok eligibility_bytes] in *.
    destruct He as [He1 He2]. rewrite <- !app_assoc. do 12 codec_run. destruct m as [? ? ? ? ? ? ? ? [? ?] ?]. cbn in E. by subst.
Qed.

(** *** Quotes *)

Definition policy_ok (p : RegisteredPolicy) : Prop := (rp_maker_asset p < 2 ^ 32)%N.
#[local] Instance reads_policy : reads read_policy policy_ok put_policy.
Proof.
  intros r p rest. unfold read_policy, policy_ok, put_policy, parts. split.
  - intros Hm. do 10 (let x := fresh "x" in read_inv Hm as x). injection Hm as <- <-. cbn. by rewrite <- !app_assoc.
  - intros [Hp ->]. cbn [fmap list_fmap concat]. rewrite <- !app_assoc. do 10 codec_run. by destruct p.
Qed.

#[local] Instance reads_population makers what differs :
  reads (read_population makers what differs) (fun _ => u16_ok makers) (fun _ => u16_bytes makers).
Proof.
  intros r [] rest. unfold read_population. split.
  - intros Hm. read_inv Hm as n. ok_inv. bool_inv. simplify_eq. rename select ((n =? makers) = true) into E. by apply Nat.eqb_eq in E as ->.
  - intros [Hn ->]. read_run_with ltac:(exact Hn). by rewrite Nat.eqb_refl.
Qed.

(** The widths of the Rust types. *)
Definition public_typed (p : Public) : Prop :=
  I64 (pb_now p) /\ I64 (pb_sentinel p) /\ I64 (pb_n_slots p) /\ (pb_direction p < 2 ^ 8)%N /\ (pb_asset p < 2 ^ 32)%N /\ I64 (pb_reference_price p)
  /\ length (pb_registry_digest p) = 32 /\ length (pb_market_digest p) = 32 /\ (pb_slot p < 2 ^ 64)%N /\ Forall policy_ok (pb_registry p).
Definition bundle_typed (v : QuoteVerificationBundle) : Prop :=
  length (qv_context v) = 32 /\ public_typed (qv_public v) /\ (qp_winner_value (qv_proof v) < 2 ^ 64)%N.

(** What a quote message can carry. *)
Definition margins_of (v : QuoteVerificationBundle) : list ThresholdRangeProof :=
  match qp_minimality (qv_proof v) with MinimalityThreshold proofs => proofs | MinimalityBulletproof _ _ => [] end.
Definition bundle_ok (v : QuoteVerificationBundle) : Prop :=
  let makers := length (pb_registry (qv_public v)) in
  0 < makers <= 24 /\ u16_ok (qv_eligibility_bits v) /\ u16_ok (qv_span_bits v) /\ u16_ok (qp_winner_index (qv_proof v))
  /\ length (qp_maker_proofs (qv_proof v)) = makers /\ length (qp_key_commitments (qv_proof v)) = makers
  /\ qp_minimality (qv_proof v) = MinimalityThreshold (margins_of v) /\ length (margins_of v) = makers
  /\ Forall maker_ok (qp_maker_proofs (qv_proof v)) /\ Forall range_ok (margins_of v).
Definition bundle_bytes (v : QuoteVerificationBundle) : bytes :=
  let makers := length (pb_registry (qv_public v)) in
  QUOTE_MAGIC ++ u16_bytes (qv_eligibility_bits v) ++ u16_bytes (qv_span_bits v) ++ qv_context v ++ put_public (qv_public v) ++ u16_bytes makers
  ++ concat (put_policy <$> pb_registry (qv_public v)) ++ u16_bytes (qp_winner_index (qv_proof v)) ++ be_bytes 8 (qp_winner_value (qv_proof v))
  ++ u16_bytes makers ++ concat (maker_bytes <$> qp_maker_proofs (qv_proof v)) ++ put_opening (qp_winner_opening (qv_proof v))
  ++ u16_bytes makers ++ concat (sized_bytes <$> margins_of v) ++ u16_bytes makers ++ concat (put_point <$> qp_key_commitments (qv_proof v)).

#[local] Instance reads_quote : reads read_quote (fun v => bundle_typed v /\ bundle_ok v) bundle_bytes.
Proof.
  intros r v rest. unfold read_quote, bytes32, read_u8, read_u64, MAX_QUOTE_MAKERS, decode_threshold. split.
  - intros Hm. do 15 (let x := fresh "x" in read_inv Hm as x). apply if_err_ok in Hm as [Hn Hm]. apply orb_false_iff in Hn as [Hn%Nat.eqb_neq Hx%Nat.ltb_ge].
    do 10 (let x := fresh "x" in read_inv Hm as x). apply Ok_inj in Hm. injection Hm as <- <-. destruct_and!.
    unfold bundle_typed, public_typed, bundle_ok, bundle_bytes, put_public, margins_of, id.
    cbn [qv_context qv_eligibility_bits qv_span_bits qv_public qv_proof pb_qty_commitment pb_now pb_sentinel pb_n_slots pb_direction pb_asset
      pb_reference_price pb_registry pb_registry_digest pb_market_digest pb_slot qp_winner_index qp_winner_value qp_maker_proofs qp_winner_opening
      qp_minimality qp_key_commitments].
    rewrite <- !app_assoc. simplify_eq.
    split; [|reflexivity]. split_and!; first [assumption | reflexivity | lia].
  - intros [[(Hc & (H1' & H2' & H3' & H4' & H5' & H6' & H7' & H8' & H9' & H10') & Hw) (Hn & He & Hs & Hwi & Lm & Lk & Em & Lr & Fm & Fr)] ->].
    unfold bundle_bytes, put_public. rewrite <- !app_assoc. fixed_run.
    assert (u16_ok (length (pb_registry (qv_public v)))) as Hm by (unfold u16_ok; lia). do 14 codec_run.
    rewrite (proj2 (Nat.eqb_neq _ _)), (proj2 (Nat.ltb_ge _ _)) by lia. cbn [orb]. do 3 codec_run. fixed_run. do 2 codec_run. fixed_run. codec_run.
    fixed_run. codec_run. destruct v as [? ? ? [] []]. cbn in Em. by rewrite Em.
Qed.

Lemma map_res_writes {A} (put : A -> result Error bytes) ok encoding l (k : list bytes -> result Error bytes) v : writes put ok encoding ->
  (bs ← map_res put l; k bs) = Ok v <-> Forall ok l /\ k (encoding <$> l) = Ok v.
Proof.
  intros Hw. rewrite bind_ok. split.
  - intros (bs & Hm & Hk). apply map_res_ok in Hm.
    assert (Forall ok l /\ bs = encoding <$> l) as [? ->]; [|done]. clear Hk. induction Hm as [|a b l bs Ha _ [IH1 IH2]]; [by split; [constructor|]|].
    apply Hw in Ha as [Ha ->]. split; [by constructor|]. by rewrite IH2.
  - intros [Hl Hk]. exists (encoding <$> l). split; [|done]. clear Hk. apply map_res_ok. induction Hl as [|a l Ha _ IH]; cbn; [constructor|].
    constructor; [by apply Hw | exact IH].
Qed.

Lemma encode_quote_ok v raw : encode_quote_verification v = Ok raw <->
  (exists d, bundle_verify v = Ok d) /\ bundle_ok v /\ raw = bundle_bytes v /\ (N.of_nat (length raw) <= MAX_QUOTE_BYTES)%N.
Proof.
  unfold encode_quote_verification, put_count.
  assert (forall d, bundle_verify v = Ok d -> 0 < length (pb_registry (qv_public v)) <= 24) as Hcount.
  { intros d Hd. unfold bundle_verify, MAX_QUOTE_MAKERS in Hd. apply if_err_ok in Hd as [Hd _]. apply orb_false_iff in Hd as [?%Nat.eqb_neq ?%Nat.ltb_ge]. lia. }
  destruct (bundle_verify v) as [d|e]; [|split; [done | by intros [[? ?] _]]]. specialize (Hcount d eq_refl). cbn [mbind result_bind].
  assert (u16_ok (length (pb_registry (qv_public v)))) as Hu by (unfold u16_ok; lia).
  unfold bundle_ok, bundle_bytes, margins_of, MAX_QUOTE_MAKERS. rewrite if_err_ok, !orb_false_iff, !negb_false_iff, !Nat.eqb_eq, Nat.ltb_ge.
  destruct (qp_minimality (qv_proof v)) as [p c|proofs]; [split; [by intros [_ ?] | naive_solver]|].
  destruct (Nat.eqb_spec (length proofs) (length (pb_registry (qv_public v)))) as [El|El]; [|split; [by intros [_ ?] | naive_solver]]. cbn [mbind result_bind].
  rewrite !(writes_bind _ _ _ _ _ _ (writes_u16 _)), (map_res_writes _ _ _ _ _ _ writes_maker), !(writes_bind _ _ _ _ _ _ (writes_u16 _)),
    (map_res_writes _ _ _ _ _ _ writes_threshold), !(writes_bind _ _ _ _ _ _ (writes_u16 _)), if_err_ok, N.ltb_ge.
  rewrite El. split.
  - intros ([[Lm Lk] _] & He & Hs & _ & Hw & _ & Fm & _ & Fr & _ & Hlen & Hr). apply Ok_inj in Hr as <-. rewrite Lm, Lk in *. split; [by exists d|]. done.
  - intros (_ & (_ & He & Hs & Hw & Lm & Lk & _ & _ & Fm & Fr) & -> & Hlen). rewrite Lm, Lk. split_and!; try done; lia.
Qed.

Lemma decode_quote_ok raw v : decode_quote_verification raw = Ok v <-> bundle_typed v /\ encode_quote_verification v = Ok raw.
Proof.
  rewrite encode_quote_ok. unfold decode_quote_verification. rewrite if_err_ok, orb_false_iff, Nat.eqb_neq, N.ltb_ge, bind_ok.
  setoid_rewrite (finish_ok _ _ _ _ _ _ reads_quote). split.
  - intros ((Hne & Hlen) & v' & ((Ht & Hok) & ->) & Hv). apply bind_ok in Hv as (d & Hd & [= <-]). eauto 10.
  - intros (Ht & [d Hd] & Hok & -> & Hlen). split; [split; [done|done]|]. exists v. rewrite Hd. done.
Qed.

Lemma decoded_quote_verified raw v : decode_quote_verification raw = Ok v ->
  bundle_verify v = Ok (quote_proof_digest (qv_public v) (qv_proof v))
  /\ exists circuit, try_new (qv_eligibility_bits v) (qv_span_bits v) = Ok circuit
       /\ verify circuit (qv_proof v) (qv_public v) (qv_context v) = Ok tt.
Proof.
  intros Hd. unfold decode_quote_verification in Hd. ok_inv. subst.
  match goal with E : bundle_verify _ = Ok _ |- _ => pose proof E as E'; unfold bundle_verify in E' end. ok_inv.
  match goal with E : map_err inl _ = _, E' : map_err inr _ = _ |- _ => apply map_err_ok in E, E'; subst; eauto end.
Qed.

(** C29: the final public proofs have one representation.  Each decoder accepts
    bytes as a proof exactly when the encoder writes those bytes for it: range
    proofs, the proofs of a delivery, and quote evidence, whose fields have the
    widths of their types.  Evidence that decodes is within the settlement bound,
    verifies in the circuit of its widths, and carries the digest of its whole
    statement and proof. *)
Theorem final_proofs_exact :
  (forall raw p, decode_threshold_range raw = Ok p <-> encode_threshold_range p = Ok raw)
  /\ (forall raw p, decode_dvp_proofs raw = Ok p <-> encode_dvp_proofs p = Ok raw)
  /\ (forall raw v, decode_quote_verification raw = Ok v <-> bundle_typed v /\ encode_quote_verification v = Ok raw)
  /\ (forall raw v, decode_quote_verification raw = Ok v ->
       bundle_verify v = Ok (quote_proof_digest (qv_public v) (qv_proof v))
       /\ exists circuit, try_new (qv_eligibility_bits v) (qv_span_bits v) = Ok circuit
            /\ verify circuit (qv_proof v) (qv_public v) (qv_context v) = Ok tt).
Proof.
  split; [|split; [|split]].
  - intros raw p. unfold decode_threshold_range. by rewrite (finish_ok _ _ _ _ _ _ reads_range), (writes_range p raw).
  - intros raw p. unfold decode_dvp_proofs. by rewrite (finish_ok _ _ _ _ _ _ reads_dvp), (writes_dvp p raw).
  - exact decode_quote_ok.
  - exact decoded_quote_verified.
Qed.
End Exact.
