(* ===== verification/PriceLimit.v ===== *)
(** * Hidden price limits

    [zkpi-proofs/src/price_limit.rs]: a proof that a committed quote respects a
    committed limit, as one Bulletproof or as a threshold range proof, its
    verification and its digest; and what an accepted proof means for the prices. *)

From S2P Require Import Prelude.
From S2P Require Import Interfaces.
From S2P Require Import Curve.
From S2P Require Import Shamir.
From S2P Require Import ShamirTheorems.
From S2P Require Import Sigma.
From S2P Require Import SigmaProofs.
From S2P Require Import BitrangeProofs.
From S2P Require Import Membership.
From S2P Require Import Threshold.
From S2P Require Import ThresholdRange.
From S2P Require Import RangeRounds.
From S2P Require Import Reader.
From S2P Require Import Instruction.
From S2P Require Import Quote.
From S2P Require Import QuoteProofs.

Open Scope nat_scope.

(** The [bulletproofs] crate over the Pedersen generators of a key:
    [RangeProof::prove_multiple] and [verify_multiple] with [BulletproofGens] of
    a capacity and an aggregation. *)
Class KeyedBulletproofs `{TranscriptOps} `{GroupOps} := {
  RangeProof : Type;
  keyed_prove : Pedersen -> nat * nat -> Transcript -> list N -> list Scalar -> nat -> option (RangeProof * list bytes);
  keyed_verify : Pedersen -> nat * nat -> Transcript -> RangeProof -> list bytes -> nat -> bool;
  range_proof_to_bytes : RangeProof -> bytes
}.

(** One value in range is proved over its commitment, and the proof verifies on
    the transcript it was made on. *)
Class KeyedBulletproofLaws `{KeyedBulletproofs} : Prop := {
  keyed_prove_ok : forall key transcript value blinding bits, bits ∈ [8; 16; 32; 64] -> (value < 2 ^ N.of_nat bits)%N ->
    exists proof, keyed_prove key (bits, 1) transcript [value] [blinding] bits = Some (proof, [compress (commit key (scalar_of_N value) blinding)])
      /\ keyed_verify key (bits, 1) transcript proof [compress (commit key (scalar_of_N value) blinding)] bits = true
}.

Module PriceLimit.

Definition DOMAIN : bytes := bstr "QOMM:TAKER:PRICE-LIMIT:v1".

Inductive PriceLimitDirection := MaximumBuyPrice | MinimumSellPrice.
#[global] Instance direction_dec : EqDecision PriceLimitDirection.
Proof. solve_decision. Defined.
(** [as u8] and [as u64] *)
Definition direction_number (d : PriceLimitDirection) : N := match d with MaximumBuyPrice => 1 | MinimumSellPrice => 2 end%N.

Definition valid_bits (bits : nat) : bool := (bits =? 8) || (bits =? 16) || (bits =? 32) || (bits =? 64).

Section PriceLimit.
Context `{T : TranscriptOps} `{SO : ScalarOps} `{G : !GroupOps} `{K : !KeyedBulletproofs} `{SC : !ScalarCodec} `{S2 : Sha256}.

Inductive PriceLimitEvidence :=
| Bulletproof (proof : RangeProof)
| Threshold (proof : ThresholdRangeProof).

Record PriceLimitProof := mkPriceLimitProof { pl_direction : PriceLimitDirection; pl_bits : nat; pl_evidence : PriceLimitEvidence }.

Definition transcript (direction : PriceLimitDirection) (bits : nat) (quote limit : Point) (context : bytes) : Transcript :=
  append_message (bstr "context") context (append_message (bstr "limit") (compress limit) (append_message (bstr "quote") (compress quote)
    (OneOfMany.append_u64 (bstr "bits") (N.of_nat bits) (OneOfMany.append_u64 (bstr "direction") (direction_number direction) (transcript_new DOMAIN))))).

Definition difference_commitment (direction : PriceLimitDirection) (quote limit : Point) : Point :=
  match direction with MaximumBuyPrice => (limit - quote)%P | MinimumSellPrice => (quote - limit)%P end.

Definition threshold_context (direction : PriceLimitDirection) (bits : nat) (quote limit : Point) (context : bytes) : bytes :=
  sha256 (bstr "QOMM:TAKER:THRESHOLD-PRICE-LIMIT:v1" ++ [byte_of_N (direction_number direction)] ++ be_bytes 8 (N.of_nat bits)
    ++ compress quote ++ compress limit ++ be_bytes 8 (N.of_nat (length context)) ++ context).

(** [prove]: the prices are [u64]. *)
Definition prove (key : Pedersen) (quote_value : N) (quote_blinding : Scalar) (limit_value : N) (limit_blinding : Scalar)
    (direction : PriceLimitDirection) (bits : nat) (context : bytes) : result string PriceLimitProof :=
  if negb (valid_bits bits) then Err "price limit width must be 8, 16, 32, or 64 bits"
  else
    difference ← match direction with
      | MaximumBuyPrice => ok_or (checked_sub limit_value quote_value) "quote exceeds the signed maximum buy price"
      | MinimumSellPrice => ok_or (checked_sub quote_value limit_value) "quote is below the signed minimum sell price"
      end;
    if (bits <? 64) && (N.shiftl 1 (N.of_nat bits) <=? difference)%N then Err "price difference does not fit the configured proof width"
    else
      let difference_blinding := match direction with
        | MaximumBuyPrice => (limit_blinding - quote_blinding)%S
        | MinimumSellPrice => (quote_blinding - limit_blinding)%S
        end in
      let quote := commit key (scalar_of_N quote_value) quote_blinding in
      let limit := commit key (scalar_of_N limit_value) limit_blinding in
      '(range_proof, commitments) ← ok_or (keyed_prove key (bits, 1) (transcript direction bits quote limit context) [difference] [difference_blinding] bits)
        "price limit range proof generation failed";
      if negb (bool_decide (commitments = [compress (difference_commitment direction quote limit)]))
      then Err "price limit proof commitment differs from the signed prices"
      else Ok (mkPriceLimitProof direction bits (Bulletproof range_proof)).

Definition from_threshold (key : Pedersen) (quote limit : Point) (direction : PriceLimitDirection) (bits : nat) (context : bytes)
    (proof : ThresholdRangeProof) : result string PriceLimitProof :=
  if negb (valid_bits bits) || negb (tp_bits proof =? bits) then Err "threshold price limit proof uses an unsupported width"
  else if negb (verify_threshold_range key (difference_commitment direction quote limit) proof (threshold_context direction bits quote limit context))
  then Err "joint proof does not establish the signed hidden price limit"
  else Ok (mkPriceLimitProof direction bits (Threshold proof)).

Definition verify (key : Pedersen) (quote limit : Point) (expected_direction : PriceLimitDirection) (expected_bits : nat) (context : bytes)
    (proof : PriceLimitProof) : result string unit :=
  if negb (bool_decide (pl_direction proof = expected_direction)) || negb (pl_bits proof =? expected_bits) || negb (valid_bits (pl_bits proof))
  then Err "price limit proof uses another direction or width"
  else
    let difference := difference_commitment (pl_direction proof) quote limit in
    match pl_evidence proof with
    | Bulletproof range_proof =>
        if keyed_verify key (pl_bits proof, 1) (transcript (pl_direction proof) (pl_bits proof) quote limit context) range_proof [compress difference]
             (pl_bits proof)
        then Ok tt else Err "quote violates the signed hidden price limit"
    | Threshold range_proof =>
        if verify_threshold_range key difference range_proof (threshold_context (pl_direction proof) (pl_bits proof) quote limit context)
        then Ok tt else Err "joint proof violates the signed hidden price limit"
    end.

Definition hash_threshold_range (proof : ThresholdRangeProof) : bytes :=
  be_bytes 8 (N.of_nat (tp_bits proof)) ++ be_bytes 8 (N.of_nat (length (tp_bit_commitments proof))) ++ concat (compress <$> tp_bit_commitments proof)
  ++ be_bytes 8 (N.of_nat (length (tp_bit_proofs proof)))
  ++ concat ((fun bit => compress (pp_t_factor bit) ++ compress (pp_t_product bit) ++ scalar_to_bytes (pp_z_b bit) ++ scalar_to_bytes (pp_z_rb bit)
       ++ scalar_to_bytes (pp_z_s bit)) <$> tp_bit_proofs proof)
  ++ compress (op_t (tp_linkage proof)) ++ scalar_to_bytes (op_z_value (tp_linkage proof)) ++ scalar_to_bytes (op_z_blinding (tp_linkage proof)).

Definition digest (proof : PriceLimitProof) (quote limit : Point) (context : bytes) : bytes :=
  sha256 (DOMAIN ++ [byte_of_N (direction_number (pl_direction proof))] ++ be_bytes 8 (N.of_nat (pl_bits proof)) ++ compress quote ++ compress limit
    ++ be_bytes 8 (N.of_nat (length context)) ++ context
    ++ match pl_evidence proof with
       | Bulletproof proof => x01 :: range_proof_to_bytes proof
       | Threshold proof => x02 :: hash_threshold_range proof
       end).
End PriceLimit.

(** ** What a price limit guarantees *)

(** A price on the good side of a limit. *)
Definition respects (direction : PriceLimitDirection) (quote limit : N) : Prop :=
  match direction with MaximumBuyPrice => quote <= limit | MinimumSellPrice => limit <= quote end%N.
#[global] Instance respects_dec direction quote limit : Decision (respects direction quote limit).
Proof. unfold respects. destruct direction; apply _. Defined.
(** How far it is from the limit, when it is. *)
Definition room (direction : PriceLimitDirection) (quote limit : N) : N :=
  match direction with MaximumBuyPrice => limit - quote | MinimumSellPrice => quote - limit end%N.

Lemma valid_bits_spec bits : valid_bits bits = true <-> bits ∈ [8; 16; 32; 64].
Proof.
  unfold valid_bits. rewrite !orb_true_iff, !Nat.eqb_eq. rewrite !elem_of_cons. split; [intuition congruence|].
  intros [->|[->|[->|[->|[]%elem_of_nil]]]]; tauto.
Qed.

Section Enforced.
Context `{SL : ScalarLaws} `{W : !ScalarWide} `{G : !GroupOps} `{L : !GroupLaws}.
Add Field price_limit_field : scalar_field.

(** The opening the two prices give of their difference. *)
Definition price_opening (direction : PriceLimitDirection) (q l : N) (rq rl : Scalar) : Scalar * Scalar :=
  match direction with
  | MaximumBuyPrice => (Quote.scalar (Z.of_N l - Z.of_N q), (rl - rq)%S)
  | MinimumSellPrice => (Quote.scalar (Z.of_N q - Z.of_N l), (rq - rl)%S)
  end.

Lemma price_opens key direction q l rq rl :
  let C := difference_commitment direction (commit key (scalar_of_N q) rq) (commit key (scalar_of_N l) rl) in
  opens key (C, price_opening direction q l rq rl).
Proof.
  unfold opens. destruct direction; cbn [fst snd price_opening difference_commitment]; unfold commit; rewrite scalar_sub, <- !scalar_nat; module_split; ring.
Qed.

(** A difference that is a small natural number has the right sign. *)
Lemma small_difference direction q l rq rl v bits :
  (q < 2 ^ 64)%N -> (l < 2 ^ 64)%N -> bits <= 64 -> (v < 2 ^ N.of_nat bits)%N ->
  (price_opening direction q l rq rl).1 = scalar_of_N v -> respects direction q l /\ v = room direction q l.
Proof.
  intros Hq Hl Hb Hv E. assert (v < 2 ^ 64)%N as Hv64.
  { eapply N.lt_le_trans; [exact Hv|]. apply N.pow_le_mono_r; lia. }
  rewrite scalar_nat in E. destruct direction; cbn [fst price_opening respects room] in *; apply scalar_inj in E; lia.
Qed.

(** C3: A hidden limit is enforced.  For prices of 64 bits behind the two
    commitments, two threshold proofs that the settlement boundary takes, with
    the same first moves and different challenges, give a ledger of openings
    computed from their answers, all of them right.  Either two entries open one
    point to two values, and so give the discrete logarithm of the value
    generator, or the quote is on the right side of the limit, by less than two
    to the width of the proof. *)
Theorem price_limit_enforced `{CL : !CompressLaws} `{S2 : Sha256} (T T' : TranscriptOps)
    (K : @KeyedBulletproofs T _ _) (K' : @KeyedBulletproofs T' _ _) key direction bits context q rq l rl tp tp' p p' :
  let quote := commit key (scalar_of_N q) rq in let limit := commit key (scalar_of_N l) rl in
  let C := difference_commitment direction quote limit in let bound := threshold_context direction bits quote limit context in
  (q < 2 ^ 64)%N -> (l < 2 ^ 64)%N ->
  from_threshold (T:=T) (K:=K) key quote limit direction bits context tp = Ok p ->
  from_threshold (T:=T') (K:=K') key quote limit direction bits context tp' = Ok p' ->
  range_forked T T' C bound tp tp' ->
  let ledger := (C, price_opening direction q l rq rl) :: range_opened T T' C bound tp tp' in
  Forall (opens key) ledger
  /\ (broken key ledger \/ respects direction q l /\ (room direction q l < 2 ^ N.of_nat bits)%N).
Proof.
  intros quote limit C bound Hq Hl Hp Hp' Hf ledger. unfold from_threshold in Hp, Hp'. fold C bound in Hp, Hp'. ok_inv. bool_inv.
  match goal with E : valid_bits bits = true |- _ => apply valid_bits_spec in E; rename E into Hb end.
  match goal with E : verify_threshold_range (T:=T) _ _ _ _ = true, E' : verify_threshold_range (T:=T') _ _ _ _ = true |- _ =>
    destruct (threshold_range_opens T T' key C bound tp tp' E E' Hf) as [Ho Hc] end.
  match goal with E : (tp_bits tp =? bits) = true |- _ => apply Nat.eqb_eq in E; rewrite E in Hc end.
  assert (Forall (opens key) ledger) as Hall by (constructor; [apply price_opens | exact Ho]). split; [exact Hall|].
  destruct (ledger_cases key ledger Hall) as [Hk|Hk]; [by left|right].
  destruct (Hc ledger (fun o Hin => list_elem_of_further _ _ _ Hin) Hk) as [Hv E].
  assert ((price_opening direction q l rq rl).1 = scalar_of_N (range_value T T' bound tp tp')) as Ep.
  { rewrite <- E. apply (Hk (C, price_opening direction q l rq rl) (C, range_opening T T' C bound tp tp')); [apply list_elem_of_here| |done].
    apply list_elem_of_further. unfold range_opened. apply elem_of_app. right. by apply list_elem_of_singleton. }
  assert (bits <= 64) as Hb64 by (rewrite !elem_of_cons in Hb; destruct Hb as [->|[->|[->|[->|[]%elem_of_nil]]]]; lia).
  destruct (small_difference direction q l rq rl _ bits Hq Hl Hb64 Hv Ep) as [Hr <-]. done.
Qed.
End Enforced.

Section Proved.
Context `{SL : ScalarLaws} `{G : !GroupOps} `{L : !GroupLaws} `{T : TranscriptOps} `{K : !KeyedBulletproofs} `{KL : !KeyedBulletproofLaws}.
Context `{S2 : Sha256}.
Add Field price_limit_proved_field : scalar_field.

Lemma room_commits key direction q l rq rl : respects direction q l ->
  difference_commitment direction (commit key (scalar_of_N q) rq) (commit key (scalar_of_N l) rl)
  = commit key (scalar_of_N (room direction q l)) (match direction with MaximumBuyPrice => rl - rq | MinimumSellPrice => rq - rl end)%S.
Proof.
  intros Hr. rewrite (scalar_nat (room direction q l)). destruct direction; cbn [respects room difference_commitment] in *;
    rewrite N2Z.inj_sub by exact Hr; rewrite scalar_sub, <- !scalar_nat; unfold commit; module_split; ring.
Qed.

Lemma difference_ok direction q l d :
  match direction with
  | MaximumBuyPrice => ok_or (checked_sub l q) "quote exceeds the signed maximum buy price"
  | MinimumSellPrice => ok_or (checked_sub q l) "quote is below the signed minimum sell price"
  end = Ok d <-> respects direction q l /\ d = room direction q l.
Proof. destruct direction; cbn [respects room]; rewrite ok_or_ok, checked_sub_some; tauto. Qed.

Lemma width_ok bits d : bits ∈ [8; 16; 32; 64] -> (d < 2 ^ 64)%N ->
  (bits <? 64) && (N.shiftl 1 (N.of_nat bits) <=? d)%N = false <-> (d < 2 ^ N.of_nat bits)%N.
Proof.
  intros Hb Hd. rewrite N.shiftl_1_l, andb_false_iff, Nat.ltb_ge, N.leb_gt. split; [|by right]. intros [Hge|]; [|done].
  rewrite !elem_of_cons in Hb. destruct Hb as [->|[->|[->|[->|[]%elem_of_nil]]]]; lia.
Qed.

(** When the limit holds the crate proves the difference, over the commitment
    both sides compute. *)
Lemma difference_proved key direction bits tr q rq l rl : bits ∈ [8; 16; 32; 64] -> respects direction q l -> (room direction q l < 2 ^ N.of_nat bits)%N ->
  let C := difference_commitment direction (commit key (scalar_of_N q) rq) (commit key (scalar_of_N l) rl) in
  exists proof, keyed_prove key (bits, 1) tr [room direction q l] [match direction with MaximumBuyPrice => rl - rq | MinimumSellPrice => rq - rl end%S] bits
      = Some (proof, [compress C])
    /\ keyed_verify key (bits, 1) tr proof [compress C] bits = true.
Proof. intros Hb Hr Hw C. unfold C. rewrite room_commits by done. by apply keyed_prove_ok. Qed.

(** The proof the prover makes. *)
Lemma proof_made key direction bits context q rq l rl p : (q < 2 ^ 64)%N -> (l < 2 ^ 64)%N ->
  let quote := commit key (scalar_of_N q) rq in let limit := commit key (scalar_of_N l) rl in
  prove key q rq l rl direction bits context = Ok p ->
  (bits ∈ [8; 16; 32; 64] /\ respects direction q l /\ (room direction q l < 2 ^ N.of_nat bits)%N)
  /\ pl_direction p = direction /\ pl_bits p = bits /\ verify key quote limit direction bits context p = Ok tt.
Proof.
  intros Hq Hl quote limit Hp. unfold prove in Hp. fold quote limit in Hp. apply if_err_ok in Hp as [Hv Hp]. apply negb_false_iff in Hv.
  pose proof (proj1 (valid_bits_spec _) Hv) as Hb. apply bind_ok in Hp as (d & [Hr ->]%difference_ok & Hp). apply if_err_ok in Hp as [Hw Hp].
  apply width_ok in Hw; [|done|destruct direction; cbn [room]; lia].
  destruct (difference_proved key direction bits (transcript direction bits quote limit context) q rq l rl Hb Hr Hw) as (proof & E & V).
  unfold quote, limit in *. rewrite E in Hp. cbn [ok_or mbind result_bind] in Hp. rewrite bool_decide_eq_true_2 in Hp by done. cbn [negb] in Hp.
  injection Hp as <-. split; [done|]. split; [done|]. split; [done|]. unfold verify. cbn [pl_direction pl_bits pl_evidence].
  by rewrite bool_decide_eq_true_2, Nat.eqb_refl, Hv, V.
Qed.

Lemma limit_proved key direction bits context q rq l rl : (q < 2 ^ 64)%N -> (l < 2 ^ 64)%N ->
  bits ∈ [8; 16; 32; 64] -> respects direction q l -> (room direction q l < 2 ^ N.of_nat bits)%N ->
  exists p, prove key q rq l rl direction bits context = Ok p.
Proof.
  intros Hq Hl Hb Hr Hw. unfold prove. rewrite (proj2 (valid_bits_spec _) Hb). cbn [negb].
  rewrite (proj2 (difference_ok direction q l _) (conj Hr eq_refl)). cbn [mbind result_bind].
  rewrite (proj2 (width_ok bits (room direction q l) Hb ltac:(destruct direction; cbn [room]; lia)) Hw).
  destruct (difference_proved key direction bits (transcript direction bits (commit key (scalar_of_N q) rq) (commit key (scalar_of_N l) rl) context) q rq l rl
    Hb Hr Hw) as (proof & E & _).
  rewrite E. cbn [ok_or mbind result_bind]. rewrite bool_decide_eq_true_2 by done. eauto.
Qed.

Lemma taken_verifies key quote limit direction bits context tp p :
  from_threshold key quote limit direction bits context tp = Ok p ->
  pl_direction p = direction /\ pl_bits p = bits /\ verify key quote limit direction bits context p = Ok tt.
Proof.
  unfold from_threshold. intros Hp. ok_inv. bool_inv. subst p. split; [done|]. split; [done|]. unfold verify. cbn [pl_direction pl_bits pl_evidence].
  rewrite bool_decide_eq_true_2, Nat.eqb_refl by done.
  repeat match goal with E : ?b = true |- context [?b] => rewrite E end. done.
Qed.

Lemma verify_names key quote limit direction bits context p : verify key quote limit direction bits context p = Ok tt ->
  forall direction' bits', verify key quote limit direction' bits' context p = Ok tt <-> direction' = pl_direction p /\ bits' = pl_bits p.
Proof.
  intros Hv direction' bits'. split.
  - unfold verify. intros Hx. apply if_err_ok in Hx as [Hx _]. bool_inv. rename select ((_ =? _) = true) into E. apply Nat.eqb_eq in E. done.
  - intros [-> ->]. pose proof Hv as Hx. unfold verify in Hx. apply if_err_ok in Hx as [Hx _]. bool_inv.
    rename select ((_ =? _) = true) into E. apply Nat.eqb_eq in E. congruence.
Qed.

(** A limit is provable exactly when it holds.  The prover answers a proof
    for a supported width exactly when the quote respects the limit by less than
    two to the width, and every proof, its own or one taken from the threshold
    provers, then verifies against the same commitments, direction, width and
    context, and against no other direction or width. *)
Theorem price_limit_provable key direction bits context q rq l rl :
  (q < 2 ^ 64)%N -> (l < 2 ^ 64)%N ->
  let quote := commit key (scalar_of_N q) rq in let limit := commit key (scalar_of_N l) rl in
  ((exists p, prove key q rq l rl direction bits context = Ok p)
    <-> bits ∈ [8; 16; 32; 64] /\ respects direction q l /\ (room direction q l < 2 ^ N.of_nat bits)%N)
  /\ (forall p, prove key q rq l rl direction bits context = Ok p \/ (exists tp, from_threshold key quote limit direction bits context tp = Ok p) ->
       forall direction' bits', verify key quote limit direction' bits' context p = Ok tt <-> direction' = direction /\ bits' = bits).
Proof.
  intros Hq Hl quote limit. split.
  - split; [|intros (? & ? & ?); by apply limit_proved]. intros [p Hp]. by apply (proof_made _ _ _ _ _ _ _ _ _ Hq Hl Hp).
  - intros p Hp. assert (pl_direction p = direction /\ pl_bits p = bits /\ verify key quote limit direction bits context p = Ok tt) as (Ed & Eb & Hv).
    { destruct Hp as [Hp|[tp Hp]]; [by apply (proof_made _ _ _ _ _ _ _ _ _ Hq Hl Hp) | by apply taken_verifies in Hp]. }
    rewrite <- Ed, <- Eb. by eapply verify_names.
Qed.
End Proved.
End PriceLimit.
