(* ===== verification/QuoteAuthorization.v ===== *)
(** * Quote authorizations

    Model of rust/zkpi-committee/src/optimistic.rs and
    rust/zkpi-committee/src/quote_authorization.rs, whole: the application keys
    as the signers and the authentication of optimistic claims, a host's
    admission of an execution, the complete-quote verifier that answers a
    challenge, and a quote's authorization, which is either its joint proof or a
    signed optimistic proposal that settles only once it is final; and from
    rust/zkpi-optimistic/src/lib.rs how a process chooses between the two.

    Here the optimistic state machine meets the quote circuit: its traits
    [ClaimSigner], [ClaimAuthentication] and [ChallengeVerifier] have the
    committee's instances, and the properties are about the two together. *)

From S2P Require Import Prelude.
From S2P Require Import Interfaces.
From S2P Require Import Text.
From S2P Require Import Curve.
From S2P Require Import Shamir.
From S2P Require Import Sigma.
From S2P Require Import Threshold.
From S2P Require Import ThresholdRange.
From S2P Require Import Reader.
From S2P Require Import Instruction.
From S2P Require Import ApplicationCrypto.
From S2P Require Import Optimistic.
From S2P Require Import OptimisticTheorems.
From S2P Require Import Quote.
From S2P Require Import ProofCodec.

(** ** Choosing the assurance mode

    [AssuranceSelection::from_environment] of zkpi-optimistic/src/lib.rs: the
    three environment variables are arguments, [usize::from_str] is written out
    and [hex::decode] is an interface. *)

Open Scope N_scope.

(** [std::env::var]: the value, [VarError::NotPresent] or
    [VarError::NotUnicode]. *)
Inductive EnvVar :=
  | Value (s : string)
  | NotPresent
  | NotUnicode.

Definition var_ok (v : EnvVar) : option string :=
  match v with Value s => Some s | _ => None end.

(** [str::parse::<usize>] on a 64-bit target: an optional plus sign, then
    digits whose accumulated value stays within the width. *)
Fixpoint parse_digits (acc : N) (l : chars) : option N :=
  match l with
  | [] => Some acc
  | c :: l =>
      if is_ascii_digit c then
        let acc' := acc * 10 + (N_of_ascii c - 48) in
        if acc' <=? U64_MAX then parse_digits acc' l else None
      else None
  end.

Definition parse_usize (s : string) : option N :=
  match to_chars s with
  | [] => None
  | "+"%char :: l => match l with [] => None | _ => parse_digits 0 l end
  | l => parse_digits 0 l
  end.

Section Environment.
Context `{HexDecode}.

Definition from_environment (mode policy_id party : EnvVar) :
    result string AssuranceSelection :=
  match mode with
  | NotPresent => Ok JointProof
  | Value m =>
      if String.eqb m "joint_proof" then Ok JointProof
      else if String.eqb m "optimistic" then
        raw ← ok_or (var_ok policy_id) "optimistic mode requires ZKPI_OPTIMISTIC_POLICY_ID";
        decoded ← ok_or (hex_decode raw) "optimistic policy ID is not hex";
        policy ← (if bool_decide (length decoded = 32%nat) then Ok decoded
                  else Err "optimistic policy ID is not 32 bytes");
        proposer_party ← ok_or (parse_usize (default "1" (var_ok party)))
                           "optimistic proposer party is not an integer";
        if proposer_party =? 0 then Err "optimistic proposer party is one-based"
        else Ok (Optimistic policy proposer_party)
      else Err "ZKPI_ASSURANCE_MODE must be joint_proof or optimistic"
  | NotUnicode => Err "ZKPI_ASSURANCE_MODE must be joint_proof or optimistic"
  end.

(** ** Decimal numbers *)

(** The value of a digit string, most significant digit first. *)
Definition decimal (acc : N) (l : chars) : N :=
  foldl (fun acc c => acc * 10 + (N_of_ascii c - 48)) acc l.

Lemma decimal_ge acc l : acc <= decimal acc l.
Proof.
  revert acc. induction l as [|c l IH]; intros acc; cbn; [lia|].
  pose proof (IH (acc * 10 + (N_of_ascii c - 48))) as Hle. unfold decimal in Hle. lia.
Qed.

Lemma parse_digits_some acc l n :
  acc <= U64_MAX ->
  parse_digits acc l = Some n <->
  forallb is_ascii_digit l = true /\ n = decimal acc l /\ n <= U64_MAX.
Proof.
  revert acc. induction l as [|c l IH]; intros acc Hacc; cbn [parse_digits forallb].
  - split; [intros [= <-]; done | intros (_ & -> & _); done].
  - destruct (is_ascii_digit c); cbn [andb]; [|naive_solver].
    destruct (N.leb_spec (acc * 10 + (N_of_ascii c - 48)) U64_MAX) as [Hle|Hgt].
    + rewrite IH by done. done.
    + split; [done|]. intros (_ & -> & Hn). cbn in Hn.
      pose proof (decimal_ge (acc * 10 + (N_of_ascii c - 48)) l) as Hge.
      unfold decimal in Hge. lia.
Qed.

(** A text that parses as a [usize]: a decimal number of 64 bits, with or
    without a plus sign. *)
Definition usize_text (s : string) (n : N) : Prop :=
  exists l, (to_chars s = l \/ to_chars s = "+"%char :: l) /\ l <> []
    /\ forallb is_ascii_digit l = true /\ n = decimal 0 l /\ n <= U64_MAX.

Lemma parse_usize_some s n : parse_usize s = Some n <-> usize_text s n.
Proof.
  assert (0 <= U64_MAX) as H0 by (vm_compute; discriminate).
  unfold parse_usize, usize_text. destruct (to_chars s) as [|c l].
  - split; [done|]. intros (l & [<-|?] & ? & _); done.
  - destruct (Ascii.eqb_spec c "+") as [->|Hne].
    + trans (l <> [] /\ parse_digits 0 l = Some n); [destruct l; naive_solver|].
      rewrite parse_digits_some by done. split; [naive_solver|].
      intros (l' & [<-|[= ->]] & Hl & Hd & ?); [done | naive_solver].
    + trans (parse_digits 0 (c :: l) = Some n).
      { destruct c as [[] [] [] [] [] [] [] []]; done. }
      rewrite parse_digits_some by done. split; [naive_solver|].
      intros (l' & [<-|[= -> ->]] & Hl & Hd & ?); done.
Qed.
End Environment.

Section Selection.
Context `{HexDecode}.

(** The optimistic mode is chosen only on explicit request: exactly when
    the mode variable says so, the policy variable is the hexadecimal text of
    32 bytes and the proposer party is absent (party 1) or a positive decimal
    number of 64 bits.  The joint proof is chosen exactly when the mode
    variable is absent or says so; everything else is refused. *)
Theorem assurance_selection_iff (mode policy_id party : EnvVar) :
  (from_environment mode policy_id party = Ok JointProof <->
     mode = NotPresent \/ mode = Value "joint_proof")
  /\ (forall policy n, from_environment mode policy_id party = Ok (Optimistic policy n) <->
       mode = Value "optimistic"
       /\ (exists raw, policy_id = Value raw /\ hex_decode raw = Some policy)
       /\ length policy = 32%nat
       /\ usize_text (default "1" (var_ok party)) n /\ 0 < n).
Proof.
  setoid_rewrite <- parse_usize_some. destruct mode as [m| |]; cbn [from_environment].
  2: { split; [|intros policy n]; split; try done; [auto|]. by intros (? & _). }
  2: { split; [|intros policy n]; split; try done; [intros [|]; done|]. by intros (? & _). }
  destruct (String.eqb_spec m "joint_proof") as [->|Hj].
  { split; [|intros policy n]; split; try done; [auto|]. by intros (? & _). }
  destruct (String.eqb_spec m "optimistic") as [->|Ho].
  2: { split; [|intros policy n]; split; try done; [intros [?|[= ?]]; done|]. by intros ([= ?] & _). }
  split; [split|intros policy n; split].
  - intros Hs. ok_inv. discriminate.
  - intros [|[= ?]]; done.
  - intros Hs. ok_inv. case_bool_decide; ok_inv. bool_inv.
    destruct policy_id; cbn in *; simplify_eq. split_and!; [done|by eexists|done|done|lia].
  - intros (_ & (raw & -> & Hd) & Hl & Hp & Hn). cbn [var_ok ok_or]. cbn [mbind result_bind].
    rewrite Hd. cbn [ok_or mbind result_bind]. rewrite bool_decide_eq_true_2 by done.
    cbn [mbind result_bind]. rewrite Hp. cbn [ok_or mbind result_bind].
    by rewrite (proj2 (N.eqb_neq n 0)) by lia.
Qed.
End Selection.

(** ** Authorizations of quotes *)

Open Scope nat_scope.

Module Authorization.
Import Quote.
Import ProofCodec.

(** ** Messages of errors *)

Definition signature_message (_ : App.SignatureError) : string :=
  "invalid QOMM v2 hybrid application key or signature; legacy Ed25519-only material requires explicit re-enrollment".

Definition in_quotes (s : string) : string :=
  String (Ascii.ascii_of_nat 34) (s +:+ String (Ascii.ascii_of_nat 34) "").

(** The derived [Debug] of [Invalid]. *)
Definition debug_invalid (why : Invalid) : string :=
  let at_index name i := name +:+ "(" +:+ show_nat i +:+ ")" in
  match why with
  | NoMakers => "NoMakers"
  | Malformed why => "Malformed(" +:+ in_quotes why +:+ ")"
  | Direction => "Direction"
  | SlotCount => "SlotCount"
  | Unregistered i => at_index "Unregistered" i
  | NotOnTheRegister i name => "NotOnTheRegister(" +:+ show_nat i +:+ ", " +:+ in_quotes name +:+ ")"
  | RegistryDigest => "RegistryDigest"
  | RegistrySize => "RegistrySize"
  | Depth i => at_index "Depth" i
  | Skew i => at_index "Skew" i
  | Eligibility i => at_index "Eligibility" i
  | ActiveNotABit i => at_index "ActiveNotABit" i
  | ReferenceFlagNotABit i => at_index "ReferenceFlagNotABit" i
  | OkNotABit i => at_index "OkNotABit" i
  | Cost i => at_index "Cost" i
  | ShiftedCost i => at_index "ShiftedCost" i
  | CostNotGated i => at_index "CostNotGated" i
  | Key i => at_index "Key" i
  | WinnerDoesNotOpen => "WinnerDoesNotOpen"
  | NotMinimal => "NotMinimal"
  end.

(** The message of a codec error.  A verifier that panics gives none: the call
    ends without a result, which the last text stands for. *)
Definition codec_message (e : Error) : string :=
  match e with
  | inl message => message
  | inr (Refused why) => "quote proof verification failed: " +:+ debug_invalid why
  | inr Panicked => "panicked"
  end.

(** ** Data *)

Record NodeExecutionAdmission := mkNodeExecutionAdmission {
  ad_policy : OptimisticPolicy;
  ad_execution : RegisteredExecution;
  ad_accepted_state : bytes;
  ad_accepted_height : N;
  ad_signature : bytes
}.

(** The value [quote_input_root] serializes: the admitted request and the whole
    registered population, without the winner. *)
Record QuoteInput := mkQuoteInput {
  qi_transcript : bytes;
  qi_eligibility_bits : nat;
  qi_span_bits : nat;
  qi_quantity : bytes;
  qi_now : Z;
  qi_sentinel : Z;
  qi_slots : Z;
  qi_direction : N;
  qi_asset : N;
  qi_reference : Z;
  qi_registry : list bytes;
  qi_registry_digest : bytes;
  qi_market : bytes;
  qi_slot : N
}.

(** [serde_json] writes every field under its own name, so values that are
    written alike are equal. *)
Class SerializeInj (A : Type) `{Serialize A} : Prop :=
  to_vec_inj : forall (a b : A) raw, to_vec a = Ok raw -> to_vec b = Ok raw -> a = b.

(** A policy on the wire: the maker's asset and the nine compressed points. *)
Record PolicyRow := mkPolicyRow {
  row_maker_asset : N;
  row_ask_level : bytes; row_spread : bytes; row_slope : bytes; row_invcoef : bytes; row_inv : bytes;
  row_maxqty : bytes; row_expiry : bytes; row_active : bytes; row_use_ref : bytes
}.

Record Wire := mkWire {
  w_context : bytes;
  w_eligibility_bits : nat;
  w_span_bits : nat;
  w_qty : bytes;
  w_now : Z;
  w_sentinel : Z;
  w_n_slots : Z;
  w_direction : N;
  w_asset : N;
  w_reference_price : Z;
  w_registry_digest : bytes;
  w_market_digest : bytes;
  w_slot : N;
  w_registry : list PolicyRow;
  w_winner_index : nat;
  w_winner_value : N;
  w_policy : OptimisticPolicy;
  w_proposal : Proposal
}.

Definition MAGIC : bytes := bstr "zkFMI:optimistic-quote:v1" ++ [x00].

(** [QuoteChallengeVerifier] and [ApplicationAuthentication] have no fields. *)
Inductive Verifier : Type := QuoteChallengeVerifier.
Inductive Authentication : Type := ApplicationAuthentication.

Section Authorizations.
Context `{T : TranscriptOps} `{SO : ScalarOps} `{G : !GroupOps} `{B : !Bulletproofs} `{PC : !PointCodec} `{SC : !ScalarCodec} `{PG : !PedersenGens}
  `{S2 : Sha256} {HEX : HexEncode} {HB : HybridBackend}.
Context {JPOL : Serialize OptimisticPolicy} {JPROP : Serialize (bytes * ExecutionContext * bytes * N)}
  {JADM : Serialize (OptimisticPolicy * RegisteredExecution * bytes * N)} {JIN : Serialize QuoteInput}
  {JWIRE : Serialize Wire} {JREAD : Deserialize Wire}.

(** ** Keys and authentication *)

#[export] Instance application_signer : ClaimSigner App.SigningKey := {|
  signer_identity := App.verifying_key;
  signer_sign := App.try_sign
|}.

Definition application_verify (identity message signature : bytes) : result string unit :=
  key ← map_err signature_message (App.verifying_key_from_bytes identity);
  s ← map_err signature_message (App.signature_try_from signature);
  map_err signature_message (App.verify_strict key message s).

#[export] Instance application_authentication : ClaimAuthentication Authentication :=
  fun _ => application_verify.

(** ** Admission of an execution *)

Definition admission_signing_digest (a : NodeExecutionAdmission) : result string bytes :=
  b ← to_vec (ad_policy a, ad_execution a, ad_accepted_state a, ad_accepted_height a);
  Ok (sha256 (bstr "zkFMI:optimistic:node-admission:v1" ++ b)).

Definition node_admission_sign (a : NodeExecutionAdmission) (key : App.SigningKey) :
    result string NodeExecutionAdmission :=
  d ← admission_signing_digest a;
  s ← App.try_sign key d;
  Ok (mkNodeExecutionAdmission (ad_policy a) (ad_execution a) (ad_accepted_state a)
        (ad_accepted_height a) s).

Definition node_admission_verify (a : NodeExecutionAdmission) (trusted : bytes) (now : N) :
    result string unit :=
  let context := exe_context (ad_execution a) in
  pid ← policy_digest (ad_policy a);
  if negb (bool_decide (exe_policy (ad_execution a) = pid))
     || bool_decide (ad_accepted_state a = ZERO32)
     || (ad_accepted_height a =? 0)%N
     || (exe_valid_until (ad_execution a) <? now)%N
     || negb (bool_decide (ctx_network context = pol_network (ad_policy a)))
     || negb (bool_decide (ctx_application context = pol_application (ad_policy a)))
     || negb (bool_decide (ctx_verifier context = pol_verifier (ad_policy a)))
  then Err "optimistic node admission is invalid or expired"
  else
    d ← admission_signing_digest a;
    auth_verify ApplicationAuthentication trusted d (ad_signature a).

(** ** The complete-quote verifier *)

Definition quote_input (public : Public) (transcript_context : bytes)
    (eligibility_bits span_bits : nat) : QuoteInput :=
  mkQuoteInput transcript_context eligibility_bits span_bits (compress (pb_qty_commitment public))
    (pb_now public) (pb_sentinel public) (pb_n_slots public) (pb_direction public) (pb_asset public)
    (pb_reference_price public) (imap registered_policy_digest (pb_registry public))
    (pb_registry_digest public) (pb_market_digest public) (pb_slot public).

Definition quote_input_root (public : Public) (transcript_context : bytes)
    (eligibility_bits span_bits : nat) : result string bytes :=
  raw ← to_vec (quote_input public transcript_context eligibility_bits span_bits);
  Ok (sha256 (bstr "zkFMI:optimistic:quote-input:v1" ++ raw)).

Definition output_message (winner_index : nat) (winner_value : N) : bytes :=
  bstr "zkFMI:optimistic:quote-output:v1" ++ be_bytes 8 (N.of_nat winner_index) ++ be_bytes 8 winner_value.

Definition quote_output_root (winner_index : nat) (winner_value : N) : bytes :=
  sha256 (output_message winner_index winner_value).

Definition quote_verifier_id : bytes := sha256 (bstr "zkFMI:optimistic:complete-quote-verifier:v1").

Definition quote_challenge_verify (context : ExecutionContext) (proof : bytes) : result string bytes :=
  bundle ← map_err codec_message (decode_quote_verification proof);
  let refused := Err "quote challenge evidence is for another admitted input" in
  if negb (bool_decide (ctx_verifier context = quote_verifier_id)) then refused
  else
    root ← quote_input_root (qv_public bundle) (qv_context bundle) (qv_eligibility_bits bundle)
             (qv_span_bits bundle);
    if negb (bool_decide (root = ctx_input_root context)) then refused
    else
      _ ← map_err codec_message (bundle_verify bundle);
      Ok (quote_output_root (qp_winner_index (qv_proof bundle)) (qp_winner_value (qv_proof bundle))).

#[export] Instance quote_verifier : ChallengeVerifier Verifier := {|
  verifier_id _ := quote_verifier_id;
  challenge_verify _ := quote_challenge_verify
|}.

(** ** Authorizations *)

Record OptimisticQuote := mkOptimisticQuote {
  oq_context : bytes;
  oq_eligibility_bits : nat;
  oq_span_bits : nat;
  oq_public : Public;
  oq_winner_index : nat;
  oq_winner_value : N;
  oq_policy : OptimisticPolicy;
  oq_proposal : Proposal
}.

Inductive QuoteAuthorization :=
| JointProof (bundle : QuoteVerificationBundle)
| Optimistic (quote : OptimisticQuote).

Definition public (a : QuoteAuthorization) : Public :=
  match a with JointProof q => qv_public q | Optimistic q => oq_public q end.
Definition context (a : QuoteAuthorization) : bytes :=
  match a with JointProof q => qv_context q | Optimistic q => oq_context q end.
Definition eligibility_bits (a : QuoteAuthorization) : nat :=
  match a with JointProof q => qv_eligibility_bits q | Optimistic q => oq_eligibility_bits q end.
Definition authorization_span_bits (a : QuoteAuthorization) : nat :=
  match a with JointProof q => qv_span_bits q | Optimistic q => oq_span_bits q end.
Definition winner_index (a : QuoteAuthorization) : nat :=
  match a with JointProof q => qp_winner_index (qv_proof q) | Optimistic q => oq_winner_index q end.

Definition optimistic_verify (q : OptimisticQuote) : result string bytes :=
  let makers := length (pb_registry (oq_public q)) in
  let refused := Err "optimistic quote does not match its signed complete input and output" in
  if (makers =? 0) || (MAX_QUOTE_MAKERS <? makers) || (makers <=? oq_winner_index q)
     || negb (bool_decide (ctx_verifier (prop_context (oq_proposal q)) = quote_verifier_id))
  then refused
  else
    root ← quote_input_root (oq_public q) (oq_context q) (oq_eligibility_bits q) (oq_span_bits q);
    if negb (bool_decide (ctx_input_root (prop_context (oq_proposal q)) = root))
       || negb (bool_decide (prop_output_root (oq_proposal q)
                             = quote_output_root (oq_winner_index q) (oq_winner_value q)))
    then refused
    else
      _ ← proposal_verify (oq_proposal q) (oq_policy q) 0 ApplicationAuthentication;
      proposal_id (oq_proposal q).

Definition authorization_verify (a : QuoteAuthorization) : result string bytes :=
  match a with
  | JointProof q => map_err codec_message (bundle_verify q)
  | Optimistic q => optimistic_verify q
  end.

Definition authorization_require_finalized (a : QuoteAuthorization) (st : OptimisticState) :
    result string unit :=
  _ ← authorization_verify a;
  match a with
  | Optimistic q =>
      id ← proposal_id (oq_proposal q);
      _ ← require_finalized st id (prop_context (oq_proposal q)) (prop_output_root (oq_proposal q));
      Ok tt
  | JointProof _ => Ok tt
  end.

(** ** The wire *)

Definition policy_row (r : RegisteredPolicy) : PolicyRow :=
  mkPolicyRow (rp_maker_asset r) (compress (rp_ask_level r)) (compress (rp_spread r))
    (compress (rp_slope r)) (compress (rp_invcoef r)) (compress (rp_inv r)) (compress (rp_maxqty r))
    (compress (rp_expiry r)) (compress (rp_active r)) (compress (rp_use_ref r)).

Definition wire_of (q : OptimisticQuote) : Wire :=
  let p := oq_public q in
  mkWire (oq_context q) (oq_eligibility_bits q) (oq_span_bits q) (compress (pb_qty_commitment p))
    (pb_now p) (pb_sentinel p) (pb_n_slots p) (pb_direction p) (pb_asset p) (pb_reference_price p)
    (pb_registry_digest p) (pb_market_digest p) (pb_slot p) (policy_row <$> pb_registry p)
    (oq_winner_index q) (oq_winner_value q) (oq_policy q) (oq_proposal q).

Definition encode_quote_authorization (value : QuoteAuthorization) : result string bytes :=
  _ ← authorization_verify value;
  match value with
  | JointProof q => map_err codec_message (encode_quote_verification q)
  | Optimistic q => raw ← to_vec (wire_of q); Ok (MAGIC ++ raw)
  end.

Definition point (raw : bytes) : result string Point :=
  ok_or (decompress raw) "optimistic quote contains an invalid commitment".

Definition row_policy (r : PolicyRow) : result string RegisteredPolicy :=
  ask_level ← point (row_ask_level r);
  spread ← point (row_spread r);
  slope ← point (row_slope r);
  invcoef ← point (row_invcoef r);
  inv ← point (row_inv r);
  maxqty ← point (row_maxqty r);
  expiry ← point (row_expiry r);
  active ← point (row_active r);
  use_ref ← point (row_use_ref r);
  Ok (mkRegisteredPolicy (row_maker_asset r) ask_level spread slope invcoef inv maxqty expiry active use_ref).

Definition quote_of (w : Wire) : result string OptimisticQuote :=
  registry ← map_res row_policy (w_registry w);
  qty ← point (w_qty w);
  Ok (mkOptimisticQuote (w_context w) (w_eligibility_bits w) (w_span_bits w)
        (mkPublic qty (w_now w) (w_sentinel w) (w_n_slots w) (w_direction w) (w_asset w)
           (w_reference_price w) registry (w_registry_digest w) (w_market_digest w) (w_slot w))
        (w_winner_index w) (w_winner_value w) (w_policy w) (w_proposal w)).

(** The text of a JSON error is not modelled; every one of them is this error. *)
Definition decode_quote_authorization (raw : bytes) : result string QuoteAuthorization :=
  if negb (bool_decide (firstn (length MAGIC) raw = MAGIC))
  then bundle ← map_err codec_message (decode_quote_verification raw); Ok (JointProof bundle)
  else if (1048576 <? N.of_nat (length raw))%N then Err "optimistic quote exceeds its wire bound"
  else
    w ← ok_or (from_slice (skipn (length MAGIC) raw)) "invalid JSON";
    q ← quote_of w;
    _ ← authorization_verify (Optimistic q);
    Ok (Optimistic q).
End Authorizations.
End Authorization.

(** ** What an authorization guarantees *)

Import Quote.
Import ProofCodec.
Import Authorization.

Section Guarantees.
Context `{T : TranscriptOps} `{SO : ScalarOps} `{G : !GroupOps} `{B : !Bulletproofs} `{PC : !PointCodec} `{SC : !ScalarCodec} `{PG : !PedersenGens}
  `{S2 : Sha256} {HEX : HexEncode} {HB : HybridBackend}.
Context `{PL : !PointCodecLaws} `{SL : !ScalarCodecLaws}.
Context {JPOL : Serialize OptimisticPolicy} {JPROP : Serialize (bytes * ExecutionContext * bytes * N)}
  {JCHAL : Serialize (bytes * bytes)} {JJOB : Serialize (bytes * bytes * bytes)}
  {JADM : Serialize (OptimisticPolicy * RegisteredExecution * bytes * N)} {JIN : Serialize QuoteInput}
  {JWIRE : Serialize Wire} {JREAD : Deserialize Wire}.
Context {A : Type} {AUTH : ClaimAuthentication A}.

(** Two messages of the same SHA-256 digest. *)
Definition collision (a b : bytes) : Prop := a <> b /\ sha256 a = sha256 b.

Lemma same_or_collision a b : sha256 a = sha256 b -> a = b \/ collision a b.
Proof. intros H. destruct (decide (a = b)); [by left | by right]. Qed.

Lemma output_root_binds i v i' v' :
  (N.of_nat i < 2 ^ 64)%N -> (v < 2 ^ 64)%N -> (N.of_nat i' < 2 ^ 64)%N -> (v' < 2 ^ 64)%N ->
  quote_output_root i v = quote_output_root i' v' ->
  (i = i' /\ v = v') \/ collision (output_message i v) (output_message i' v').
Proof.
  intros Hi Hv Hi' Hv' [E|E]%same_or_collision; [|by right]. left.
  unfold output_message in E. apply app_inv_head in E. apply app_inj_1 in E as [E1 E2]; [|by rewrite !be_bytes_length].
  apply be_bytes_inj in E1; [|done..]. apply be_bytes_inj in E2; [|done..]. split; [lia|done].
Qed.

(** The messages of two input roots. *)
Definition input_message (raw : bytes) : bytes := bstr "zkFMI:optimistic:quote-input:v1" ++ raw.

Lemma input_root_binds {JINJ : SerializeInj QuoteInput} p x e s p' x' e' s' root :
  quote_input_root p x e s = Ok root -> quote_input_root p' x' e' s' = Ok root ->
  quote_input p x e s = quote_input p' x' e' s'
  \/ exists raw raw', to_vec (quote_input p x e s) = Ok raw /\ to_vec (quote_input p' x' e' s') = Ok raw'
       /\ collision (input_message raw) (input_message raw').
Proof.
  intros (raw & Hraw & H)%bind_ok (raw' & Hraw' & H')%bind_ok. apply Ok_inj in H as <-. apply Ok_inj in H'.
  apply same_or_collision in H' as [E|E].
  - left. apply app_inv_head in E as ->. by eapply to_vec_inj.
  - right. exists raw, raw'. split; [done|]. split; [done|]. destruct E as [E1 E2]. split; [by apply not_eq_sym|done].
Qed.

Lemma quote_challenge_ok context proof root :
  quote_challenge_verify context proof = Ok root ->
  exists bundle, decode_quote_verification proof = Ok bundle
    /\ quote_input_root (qv_public bundle) (qv_context bundle) (qv_eligibility_bits bundle) (qv_span_bits bundle)
       = Ok (ctx_input_root context)
    /\ root = quote_output_root (qp_winner_index (qv_proof bundle)) (qp_winner_value (qv_proof bundle)).
Proof.
  unfold quote_challenge_verify. intros (bundle & Hd & H)%bind_ok. apply map_err_ok in Hd. exists bundle. split; [done|].
  ok_inv. bool_inv. subst. done.
Qed.

Lemma optimistic_verify_ok q d :
  optimistic_verify q = Ok d ->
  oq_winner_index q < length (pb_registry (oq_public q)) <= MAX_QUOTE_MAKERS
  /\ quote_input_root (oq_public q) (oq_context q) (oq_eligibility_bits q) (oq_span_bits q)
     = Ok (ctx_input_root (prop_context (oq_proposal q)))
  /\ prop_output_root (oq_proposal q) = quote_output_root (oq_winner_index q) (oq_winner_value q).
Proof.
  unfold optimistic_verify. rewrite if_err_ok, !orb_false_iff. intros ((((_ & H2) & H3) & _) & H).
  apply Nat.ltb_ge in H2. apply Nat.leb_gt in H3. split; [lia|].
  apply bind_ok in H as (root & Hr & H). apply if_err_ok in H as [Hc _]. bool_inv. subst. done.
Qed.

(** C13: a quote that was challenged settles only to the winner that a complete
    proof named in answer to the challenge.  If the claim of an optimistic quote
    was under challenge and the quote's authorization passes the finality gate
    after a run, then an operation of that run answered the challenge, before
    its deadline and while the claim was still the challenged one, with evidence
    that was accepted and whose digest the final claim records.  The evidence
    decodes to a complete quote proof, verified in the circuit of its widths; it
    is about the very request and registered population of the quote, and its
    winner and value are the quote's, unless two different messages with the same
    SHA-256 digest have been found, which are named. *)
Theorem challenged_quote_settles_proved {HEXL : HexLaws} {JINJ : SerializeInj QuoteInput} (auth : A) st es q id c ch rd :
  proposal_id (oq_proposal q) = Ok id -> (oq_winner_value q < 2 ^ 64)%N ->
  claim_of st id = Some c -> claim_status c = Challenged ch rd ->
  authorization_require_finalized (Optimistic q) (run (V := Verifier) auth st es) = Ok tt ->
  exists final proof bundle circuit,
    claim_of (run auth st es) id = Some final /\ claim_status final = Finalized (Some (sha256 proof))
    /\ challenge_answered auth st es id c rd proof
    /\ decode_quote_verification proof = Ok bundle
    /\ try_new (qv_eligibility_bits bundle) (qv_span_bits bundle) = Ok circuit
    /\ verify circuit (qv_proof bundle) (qv_public bundle) (qv_context bundle) = Ok tt
    /\ (quote_input (qv_public bundle) (qv_context bundle) (qv_eligibility_bits bundle) (qv_span_bits bundle)
         = quote_input (oq_public q) (oq_context q) (oq_eligibility_bits q) (oq_span_bits q)
        \/ exists raw raw',
             to_vec (quote_input (qv_public bundle) (qv_context bundle) (qv_eligibility_bits bundle) (qv_span_bits bundle)) = Ok raw
             /\ to_vec (quote_input (oq_public q) (oq_context q) (oq_eligibility_bits q) (oq_span_bits q)) = Ok raw'
             /\ collision (input_message raw) (input_message raw'))
    /\ ((qp_winner_index (qv_proof bundle) = oq_winner_index q /\ qp_winner_value (qv_proof bundle) = oq_winner_value q)
        \/ collision (output_message (qp_winner_index (qv_proof bundle)) (qp_winner_value (qv_proof bundle)))
             (output_message (oq_winner_index q) (oq_winner_value q))).
Proof.
  intros Hid Hval Hc Hs H. unfold authorization_require_finalized in H. rewrite Hid in H. cbn [mbind result_bind] in H.
  apply bind_ok in H as (d & Hv & H). apply bind_ok in H as (c' & Hf & _).
  apply optimistic_verify_ok in Hv as (Hw & Hin & Hout).
  unfold require_finalized in Hf. ok_inv. subst. bool_inv.
  rename select (claim_of (run _ _ _) _ = _) into Hc'. rename select (is_finalized _ = true) into Hfin.
  destruct (claim_status c') as [| | |pf|] eqn:Hs'; try done.
  destruct (challenged_needs_proof auth es st id c c' ch rd pf Hc Hs Hc' Hs') as (Hprop & proof & -> & Hanswered).
  pose proof Hanswered as (before & after & v & now & _ & _ & _ & _ & _ & Hans).
  rewrite <- Hprop in Hans. destruct v. cbn in Hans. apply quote_challenge_ok in Hans as (bundle & Hd & Hin' & Hout').
  destruct (decoded_quote_verified _ _ Hd) as (_ & circuit & Hcirc & Hver). pose proof Hd as Hd'.
  apply decode_quote_ok in Hd' as ((_ & _ & Hbv) & (_ & (_ & _ & _ & Hbi & _) & _)%encode_quote_ok).
  exists c', proof, bundle, circuit. split; [done|]. split; [done|]. split; [done|]. split; [done|]. split; [done|]. split; [done|].
  repeat match goal with E : _ = prop_context (oq_proposal q) |- _ => rewrite E in *; clear E end.
  repeat match goal with E : _ = prop_output_root (oq_proposal q) |- _ => rewrite E in *; clear E end.
  split; [by eapply input_root_binds|].
  apply output_root_binds; [unfold u16_ok in Hbi; lia|done|unfold MAX_QUOTE_MAKERS in Hw; lia|done|congruence].
Qed.

(** ** The wire *)

Lemma point_ok p : point (compress p) = Ok p.
Proof. unfold point. by rewrite decompress_compress. Qed.

Lemma row_policy_ok r : row_policy (policy_row r) = Ok r.
Proof. unfold row_policy, policy_row. cbn. rewrite !point_ok. cbn. by destruct r. Qed.

Lemma quote_of_wire q : quote_of (wire_of q) = Ok q.
Proof.
  unfold quote_of, wire_of. cbn [w_registry w_qty].
  assert (map_res row_policy (policy_row <$> pb_registry (oq_public q)) = Ok (pb_registry (oq_public q))) as ->.
  { apply map_res_ok. induction (pb_registry (oq_public q)) as [|r l IH]; cbn; constructor; [apply row_policy_ok|exact IH]. }
  cbn [mbind result_bind]. rewrite point_ok. cbn. by destruct q as [? ? ? []].
Qed.

(** What the host accepts from the wire has been verified. *)
Lemma decode_verified raw a : decode_quote_authorization raw = Ok a -> exists d, authorization_verify a = Ok d.
Proof.
  unfold decode_quote_authorization. destruct (bool_decide _); cbn [negb].
  - intros H. ok_inv. subst. eauto.
  - intros (bundle & Hd & [= <-])%bind_ok. apply map_err_ok in Hd. exists (quote_proof_digest (qv_public bundle) (qv_proof bundle)).
    cbn. apply map_err_ok. by apply (decoded_quote_verified raw).
Qed.

Lemma joint_wire_magic v raw : encode_quote_verification v = Ok raw -> firstn (length MAGIC) raw <> MAGIC.
Proof.
  intros (_ & _ & -> & _)%encode_quote_ok. intros E. apply (f_equal (firstn 1)) in E. by vm_compute in E.
Qed.

(** Authorizations survive their wire.  Whatever authorization the encoder
    accepts, a joint proof whose fields have the widths of their types or an
    optimistic quote within the wire's mebibyte, the decoder reads its bytes
    back as that very authorization; and whatever the decoder accepts, of
    either kind, has passed verification. *)
Theorem authorization_wire_exact {JLAWS : SerdeLaws Wire} :
  (forall a raw, encode_quote_authorization a = Ok raw ->
     match a with JointProof v => bundle_typed v | Optimistic _ => (N.of_nat (length raw) <= 1048576)%N end ->
     decode_quote_authorization raw = Ok a)
  /\ (forall raw a, decode_quote_authorization raw = Ok a -> exists d, authorization_verify a = Ok d).
Proof.
  split; [|exact decode_verified]. intros [v|q] raw He Hw; unfold encode_quote_authorization in He; apply bind_ok in He as (d & Hv & He).
  - apply map_err_ok in He. unfold decode_quote_authorization. rewrite bool_decide_eq_false_2 by (by eapply joint_wire_magic).
    cbn [negb]. by rewrite (proj2 (decode_quote_ok raw v) (conj Hw He)).
  - apply bind_ok in He as (json & Hj & Hr). apply Ok_inj in Hr as <-. unfold decode_quote_authorization.
    rewrite take_app_length, drop_app_length, bool_decide_eq_true_2 by done. cbn [negb].
    rewrite (proj2 (N.ltb_ge _ _)) by done. rewrite (from_slice_to_vec _ _ Hj). cbn [ok_or mbind result_bind].
    rewrite quote_of_wire. cbn [mbind result_bind]. by rewrite Hv.
Qed.

(** ** Honest parties *)

Context {HL : HybridLaws}.

Lemma application_sign_verify (key : App.SigningKey) message s :
  App.verifying_key key <> ZERO32 -> App.try_sign key message = Ok s ->
  auth_verify ApplicationAuthentication (App.verifying_key key) message s = Ok tt.
Proof.
  intros Hk Hs. unfold auth_verify, application_authentication, application_verify, App.verifying_key_from_bytes.
  rewrite bool_decide_eq_false_2 by done. cbn [map_err mbind result_bind].
  rewrite (App.try_sign_try_from _ _ _ Hs). cbn [map_err mbind result_bind]. by rewrite (App.try_sign_verify _ _ _ Hs).
Qed.

Lemma proposer_nonzero policy pid (key : App.SigningKey) :
  policy_digest policy = Ok pid -> App.verifying_key key = pol_proposer policy -> App.verifying_key key <> ZERO32.
Proof.
  intros (u & Hv & _)%bind_ok ->. unfold policy_validate in Hv. apply if_err_ok in Hv as [Hc _].
  rewrite !orb_false_iff in Hc. destruct Hc as ((((Hc & _) & _) & _) & _).
  apply contains_zero_false in Hc. rewrite !Forall_cons in Hc. tauto.
Qed.

(** What the committee's keys sign is admitted.  A proposal an enrolled
    proposer signs for the complete input and the winner of a quote of one to
    twenty-four makers authorizes that quote, under the proposal's identifier;
    and a host's signed admission of an execution is accepted under the host's
    key exactly until the execution expires. *)
Theorem signed_quote_authorizes :
  (forall (policy : OptimisticPolicy) x e s p winner value ctx valid (key : App.SigningKey) proposal,
     proposal_signed policy ctx (quote_output_root winner value) valid key = Ok proposal ->
     quote_input_root p x e s = Ok (ctx_input_root ctx) ->
     ctx_network ctx = pol_network policy -> ctx_application ctx = pol_application policy ->
     ctx_verifier ctx = pol_verifier policy -> pol_verifier policy = quote_verifier_id ->
     contains_zero [ctx_job ctx; ctx_input_root ctx; ctx_before_state ctx; quote_output_root winner value] = false ->
     winner < length (pb_registry p) <= MAX_QUOTE_MAKERS ->
     authorization_verify (Optimistic (mkOptimisticQuote x e s p winner value policy proposal)) = proposal_id proposal)
  /\ (forall (a signed : NodeExecutionAdmission) (key : App.SigningKey) now,
     node_admission_sign a key = Ok signed -> App.verifying_key key <> ZERO32 ->
     policy_digest (ad_policy a) = Ok (exe_policy (ad_execution a)) ->
     ad_accepted_state a <> ZERO32 -> (0 < ad_accepted_height a)%N ->
     ctx_network (exe_context (ad_execution a)) = pol_network (ad_policy a) ->
     ctx_application (exe_context (ad_execution a)) = pol_application (ad_policy a) ->
     ctx_verifier (exe_context (ad_execution a)) = pol_verifier (ad_policy a) ->
     node_admission_verify signed (App.verifying_key key) now = Ok tt <-> (now <= exe_valid_until (ad_execution a))%N).
Proof.
  split.
  - intros policy x e s p winner value ctx valid key proposal Hp Hin Hn Ha Hv Hq Hz Hw.
    unfold proposal_signed in Hp. apply if_err_ok in Hp as [Hkey Hp]. bool_inv.
    apply bind_ok in Hp as (pid & Hpid & Hp). apply bind_ok in Hp as (d & Hd & Hp). apply bind_ok in Hp as (sg & Hs & [= <-]).
    cbn [authorization_verify]. unfold optimistic_verify.
    cbn [oq_public oq_context oq_eligibility_bits oq_span_bits oq_winner_index oq_winner_value oq_policy oq_proposal prop_context prop_output_root].
    rewrite (proj2 (Nat.eqb_neq _ 0)), (proj2 (Nat.ltb_ge _ _)), (proj2 (Nat.leb_gt _ _)), Hin by lia.
    rewrite Hv, Hq, !bool_decide_eq_true_2 by done. cbn [negb orb mbind result_bind].
    unfold proposal_verify. rewrite Hpid. cbn [prop_policy prop_context prop_output_root prop_valid_until prop_signature mbind result_bind].
    rewrite Hn, Ha, Hv, Hz, !bool_decide_eq_true_2, (proj2 (N.ltb_ge _ 0)) by (done || lia). cbn [negb orb].
    change (proposal_signing_digest _) with (proposal_signing_digest (mkProposal pid ctx (quote_output_root winner value) valid [])).
    rewrite Hd. cbn [mbind result_bind]. rename select (signer_identity key = _) into Hkey. rewrite <- Hkey.
    cbn [signer_identity application_signer]. rewrite application_sign_verify; [|by eapply proposer_nonzero|done].
    reflexivity.
  - intros a signed key now Hs Hk Hpid Hst Hh Hn Ha Hv. unfold node_admission_sign in Hs.
    apply bind_ok in Hs as (d & Hd & Hs). apply bind_ok in Hs as (sg & Hs & [= <-]). unfold node_admission_verify.
    cbn [ad_policy ad_execution ad_accepted_state ad_accepted_height ad_signature]. rewrite Hpid. cbn [mbind result_bind].
    rewrite Hn, Ha, Hv, (bool_decide_eq_false_2 _ Hst), !bool_decide_eq_true_2, (proj2 (N.eqb_neq _ _)) by (done || lia).
    cbn [negb orb]. rewrite ?orb_false_r, if_err_ok, N.ltb_ge.
    change (admission_signing_digest _) with (admission_signing_digest a). rewrite Hd. cbn [mbind result_bind].
    rewrite application_sign_verify by done. naive_solver.
Qed.
End Guarantees.
