(* ===== verification/QuoteIssuer.v ===== *)
(** * From a node's MPC output to its quote node

    Model of rust/zkpi-committee/src/quote_issuer.rs, whole: one node's quote
    handoff, read from its persistence file, as the local material of the
    quote proof.  The property crosses three crates: whatever the reader of
    [Persistence] returns from a file over the scalar field is complete for this
    module, and becomes a node of the protocol of [ThresholdQuote]. *)

From S2P Require Import Prelude.
From S2P Require Import Interfaces.
From S2P Require Import Curve.
From S2P Require Import Threshold.
From S2P Require Import Gadgets.
From S2P Require Import ThresholdRange.
From S2P Require Import Instruction.
From S2P Require Import Reader.
From S2P Require Import Persistence.
From S2P Require Import Issuers.
From S2P Require Import Quote.
From S2P Require Import ThresholdQuote.

Open Scope N_scope.

Module QuoteIssuer.
Import ThresholdQuote.

Abbreviation FieldElement := Persistence.FieldElement.

Section QuoteIssuer.
Context `{SC : ScalarCodec}.

Definition named (values : gmap string FieldElement) (name : string) : result string FieldElement :=
  ok_or (values !! name) ("quote handoff omitted " +:+ name).

(** [crate::zkpi_issuer::field_scalar]. *)
Definition field_share (value : FieldElement) : result string Scalar := field_scalar "persistence" value.

Definition local_wire (party : PartyId) (value blinding : FieldElement) (threshold : nat) : result string LocalShared :=
  value ← field_share value;
  blinding ← field_share blinding;
  local_new party value blinding threshold.

Section Maker.
Variables (party : PartyId) (handoff : Persistence.LocalQuoteMakerHandoff) (qty_blinding : Scalar) (threshold : nat).

Definition core : string -> result string FieldElement := named (Persistence.qm_core_wire_shares handoff).
Definition policy_blinding : string -> result string FieldElement := named (Persistence.qm_policy_blinding_shares handoff).
Definition derived_blinding : string -> result string FieldElement := named (Persistence.qm_derived_blinding_shares handoff).
Definition cross (name : string) : result string Scalar := x ← named (Persistence.qm_cross_shares handoff) name; field_share x.

(** [local_wire(party, core(a)?, policy_blinding(a)?, threshold)?] *)
Definition policy_wire (name : string) : result string LocalShared :=
  value ← core name; blinding ← policy_blinding name; local_wire party value blinding threshold.
(** [local_wire(party, core(a)?, derived_blinding(b)?, threshold)?] *)
Definition derived_wire (name blinding_name : string) : result string LocalShared :=
  value ← core name; blinding ← derived_blinding blinding_name; local_wire party value blinding threshold.

Definition policy_fields : result string LocalQuotePolicyInput :=
  ask_level ← policy_wire "ask_level";
  spread ← policy_wire "spread";
  slope ← policy_wire "slope";
  invcoef ← policy_wire "invcoef";
  inv ← policy_wire "inv";
  maxqty ← policy_wire "maxqty";
  expiry ← policy_wire "expiry";
  active ← policy_wire "active";
  use_ref ← (blinding ← policy_blinding "use_ref"; local_wire party (Persistence.qm_use_ref_share handoff) blinding threshold);
  Ok (mkLocalQuotePolicyInput ask_level spread slope invcoef inv maxqty expiry active use_ref).

(** The two gates differ in their names, their margin's blinding and their
    witness. *)
Definition gate (margin bit bit_name product : string) (margin_blinding : Scalar)
    (witness : Persistence.LocalRangeHandoff) : result string LocalQuoteGateInput :=
  value ← (m ← core margin; m ← field_share m; local_new party m margin_blinding threshold);
  holds ← derived_wire bit bit_name;
  holds_cross ← cross bit_name;
  product_wire ← derived_wire product product;
  product_cross ← cross product;
  witness ← local_range "persistence" party witness threshold;
  Ok (mkLocalQuoteGateInput value holds holds_cross product_wire product_cross witness).

Definition maker : result string LocalQuoteMakerInput :=
  fields ← policy_fields;
  maxqty_blinding ← (b ← policy_blinding "maxqty"; field_share b);
  expiry_blinding ← (b ← policy_blinding "expiry"; field_share b);
  fits ← gate "fits_margin" "fits" "fits_bit" "fits_product" (maxqty_blinding - qty_blinding)%S (Persistence.qm_fits_witness handoff);
  fresh ← gate "fresh_margin" "fresh_bit" "fresh_bit" "fresh_product" expiry_blinding (Persistence.qm_fresh_witness handoff);
  depth ← derived_wire "depth" "depth";
  depth_cross ← cross "depth";
  skew ← derived_wire "skew" "skew";
  skew_cross ← cross "skew";
  active_cross ← cross "active";
  reference_cross ← cross "reference";
  both ← derived_wire "both" "both";
  both_cross ← cross "both";
  ok ← derived_wire "ok" "ok";
  ok_cross ← cross "ok";
  gated ← derived_wire "gated" "gated";
  gated_cross ← cross "gated";
  cost ← derived_wire "cost" "cost";
  packed ← (k ← core "key"; k ← field_share k; b ← field_share (Persistence.qm_key_blinding_share handoff); local_new party k b threshold);
  minimality ← local_range "persistence" party (Persistence.qm_minimality handoff) threshold;
  Ok (mkLocalQuoteMakerInput fields depth depth_cross skew skew_cross fits fresh active_cross reference_cross both both_cross
        ok ok_cross gated gated_cross cost packed minimality).
End Maker.

Definition from_handoff (handoff : Persistence.LocalQuoteProofHandoff) (parties : list PartyId) (threshold : nat) :
    result string LocalQuoteNode :=
  party ← handoff_party "quote" (Persistence.qh_prime handoff) (Persistence.qh_party handoff);
  qty_blinding ← field_share (Persistence.qh_qty_blinding_share handoff);
  qty ← (q ← field_share (Persistence.qh_qty_share handoff); local_new party q qty_blinding threshold);
  makers ← map_res (fun handoff => maker party handoff qty_blinding threshold) (Persistence.qh_makers handoff);
  local_quote_node_new qty makers parties threshold.
End QuoteIssuer.
End QuoteIssuer.

Import ThresholdQuote.
Import QuoteIssuer.

(** ** Field elements as scalars *)

(** The order of the scalar field. *)
Definition ORDER : N := of_be_bytes (rev RISTRETTO_SCALAR_ORDER_LE).

(** [Scalar::from_canonical_bytes] accepts every value below the order. *)
Class ScalarCanonical `{ScalarCodec} : Prop :=
  canonical_below : forall b, length b = 32%nat -> of_be_bytes (rev b) < ORDER -> is_Some (scalar_from_canonical b).

Lemma of_be_bytes_app a b : of_be_bytes (a ++ b) = of_be_bytes a * 256 ^ N.of_nat (length b) + of_be_bytes b.
Proof.
  induction b as [|x b IH] using rev_ind; [rewrite app_nil_r; cbn; lia|].
  rewrite app_assoc, !of_be_bytes_snoc, IH, length_app. cbn [length].
  replace (N.of_nat (length b + 1)) with (N.succ (N.of_nat (length b))) by lia. rewrite N.pow_succ_r'. lia.
Qed.

Lemma of_be_bytes_zeros n b : of_be_bytes (replicate n x00 ++ b) = of_be_bytes b.
Proof.
  rewrite of_be_bytes_app. assert (of_be_bytes (replicate n x00) = 0) as ->; [|lia].
  induction n as [|n IH]; [done|]. rewrite replicate_S_end, of_be_bytes_snoc, IH. done.
Qed.

Lemma rev_repeat_x00 n : rev (replicate n x00) = replicate n x00.
Proof. induction n as [|n IH]; [done|]. cbn [replicate rev]. by rewrite IH, <- replicate_S_end. Qed.

Lemma rev_le_bytes n x : rev (Persistence.le_bytes n x) = be_bytes n x.
Proof. apply rev_involutive. Qed.

Lemma limb_bytes_value l : Forall is_limb l -> of_be_bytes (rev (concat (Persistence.le_bytes 8 <$> l))) = limbs_value l.
Proof.
  induction 1 as [|x l Hx Hl IH]; [done|]. rewrite fmap_cons. cbn [concat].
  rewrite rev_app_distr, of_be_bytes_app, rev_le_bytes, be_bytes_length, IH, of_be_bytes_be_small by exact Hx.
  rewrite limbs_value_cons. change (256 ^ N.of_nat 8) with Persistence.LIMB. lia.
Qed.

Lemma limb_bytes_length l : length (concat (Persistence.le_bytes 8 <$> l)) = (8 * length l)%nat.
Proof.
  induction l as [|x l IH]; [done|]. rewrite fmap_cons. cbn [concat length]. rewrite length_app, IH.
  unfold Persistence.le_bytes at 1. rewrite length_rev, be_bytes_length. lia.
Qed.

Lemma to_bytes_value e b : Forall is_limb (Persistence.limbs e) -> Persistence.to_bytes_le e 32 = Ok b ->
  length b = 32%nat /\ of_be_bytes (rev b) = fe_value e.
Proof.
  intros Hl H. unfold Persistence.to_bytes_le in H. apply if_err_ok in H as [Hn [= <-]]. apply N.ltb_ge in Hn.
  unfold Persistence.LIMB_BYTES, U64_MAX in Hn. rewrite length_resize. split; [done|].
  rewrite resize_ge by (rewrite limb_bytes_length; lia). rewrite rev_app_distr, rev_repeat_x00.
  rewrite of_be_bytes_zeros. by apply limb_bytes_value.
Qed.

(** An element of the field, in its normal form. *)
Definition in_field (e : FieldElement) : Prop := fe_ok e /\ fe_value e < ORDER.

Lemma in_field_bytes e : in_field e -> exists b, Persistence.to_bytes_le e 32 = Ok b.
Proof.
  intros [[Hl Hn] Hv]. unfold Persistence.to_bytes_le. eexists. apply if_err_ok. split; [|reflexivity]. apply N.ltb_ge.
  assert (length (Persistence.limbs e) <= 4)%nat as Hlen; [|unfold Persistence.LIMB_BYTES, U64_MAX; lia].
  destruct (Persistence.limbs e) as [|x l] eqn:E; [cbn; lia|].
  pose proof (limbs_lower (x :: l) ltac:(done) Hn) as Hlow. unfold fe_value in Hv. rewrite E in Hv.
  assert (Persistence.LIMB ^ N.of_nat (length (x :: l) - 1) < Persistence.LIMB ^ 4) as Hp.
  { eapply N.le_lt_trans; [exact Hlow|]. eapply N.lt_trans; [exact Hv|]. vm_compute. reflexivity. }
  apply N.pow_lt_mono_r_iff in Hp; [|done]. lia.
Qed.

Lemma prime_is_order prime : fe_ok prime -> Persistence.to_bytes_le prime 32 = Ok RISTRETTO_SCALAR_ORDER_LE -> fe_value prime = ORDER.
Proof. intros [Hl _] H. by apply to_bytes_value in H as [_ <-]. Qed.

Section Shares.
Context {SO : ScalarOps} {SC : ScalarCodec} {CAN : ScalarCanonical}.

Lemma share_ok e : in_field e -> exists s, field_share e = Ok s.
Proof.
  intros He. destruct (in_field_bytes e He) as [b Hb]. unfold field_share, field_scalar. rewrite Hb. cbn [map_err mbind result_bind].
  destruct He as [[Hl _] Hv]. apply to_bytes_value in Hb as [Hlen Hval]; [|done].
  destruct (canonical_below b Hlen) as [s ->]; [by rewrite Hval|]. by exists s.
Qed.

End Shares.

(** ** What the reader returns *)

Definition range_in_field (h : Persistence.LocalRangeHandoff) : Prop :=
  in_field (Persistence.lh_value_share h) /\ in_field (Persistence.lh_blinding_share h) /\ Persistence.lh_bits h <> []
  /\ Forall (fun b => in_field b.1.1 /\ in_field b.1.2 /\ in_field b.2) (Persistence.lh_bits h).

(** A map that has an element of the field under every name of a list. *)
Definition complete (names : list string) (m : gmap string FieldElement) : Prop :=
  forall name, name ∈ names -> exists e, m !! name = Some e /\ in_field e.

Definition maker_complete (h : Persistence.LocalQuoteMakerHandoff) : Prop :=
  complete Persistence.WIRE_NAMES (Persistence.qm_core_wire_shares h)
  /\ complete Persistence.QUOTE_POLICY_BLINDING_NAMES (Persistence.qm_policy_blinding_shares h)
  /\ complete Persistence.QUOTE_DERIVED_BLINDING_NAMES (Persistence.qm_derived_blinding_shares h)
  /\ complete Persistence.QUOTE_CROSS_NAMES (Persistence.qm_cross_shares h)
  /\ in_field (Persistence.qm_use_ref_share h) /\ in_field (Persistence.qm_key_blinding_share h)
  /\ range_in_field (Persistence.qm_fits_witness h) /\ range_in_field (Persistence.qm_fresh_witness h)
  /\ range_in_field (Persistence.qm_minimality h).

Section Reading.
Variable decode : N -> Persistence.outcome FieldElement.
Hypothesis decoded : forall i e, decode i = Ok e -> in_field e.

Lemma read_bits_in_field count : forall cursor l c, Persistence.read_bits decode count cursor = Ok (l, c) ->
  length l = count /\ Forall (fun b => in_field b.1.1 /\ in_field b.1.2 /\ in_field b.2) l.
Proof.
  induction count as [|count IH]; intros cursor l c Hr; cbn [Persistence.read_bits] in Hr; [by injection Hr as <- _|].
  apply bind_ok in Hr as (x & Hx & Hr). apply bind_ok in Hr as (y & Hy & Hr). apply bind_ok in Hr as (z & Hz & Hr).
  apply bind_ok in Hr as ([l' c'] & Hl & [= <- _]). apply IH in Hl as [<- Hl]. split; [done|]. constructor; [|done].
  split_and!; by eapply decoded.
Qed.

Lemma read_range_in_field width cursor h c : 0 < width -> Persistence.read_range decode width cursor = Ok (h, c) -> range_in_field h.
Proof.
  intros Hw H. unfold Persistence.read_range in H. apply bind_ok in H as (x & Hx & H). apply bind_ok in H as (y & Hy & H).
  apply bind_ok in H as ([l c'] & Hl & [= <- _]). apply read_bits_in_field in Hl as [Hlen Hl]. unfold range_in_field. cbn.
  split; [eauto|]. split; [eauto|]. split; [|done]. intros ->. cbn in Hlen. lia.
Qed.

Lemma read_named_complete names : forall m before cursor m' c, complete before m ->
  Persistence.read_named decode names m cursor = Ok (m', c) -> complete (before ++ names) m'.
Proof.
  induction names as [|name names IH]; intros m before cursor m' c Hm Hr; cbn [Persistence.read_named] in Hr.
  { injection Hr as <- _. by rewrite app_nil_r. }
  apply bind_ok in Hr as (x & Hx & Hr). apply (IH _ (before ++ [name])) in Hr; [by rewrite <- app_assoc in Hr|].
  intros n Hn. destruct (decide (n = name)) as [->|Hne]; [rewrite lookup_insert_eq; eauto|]. rewrite lookup_insert_ne by done.
  apply Hm. set_solver.
Qed.

Lemma read_maker_complete eligibility span index cursor h c : 0 < eligibility -> 0 < span ->
  Persistence.read_maker decode eligibility span index cursor = Ok (h, c) -> maker_complete h.
Proof.
  intros He Hs H. unfold Persistence.read_maker in H.
  apply bind_ok in H as ([core c1] & Hcore & H). apply bind_ok in H as (use_ref & Huse & H).
  apply bind_ok in H as ([policy c2] & Hpolicy & H). apply bind_ok in H as ([derived c3] & Hderived & H).
  apply bind_ok in H as ([cross c4] & Hcross & H). apply bind_ok in H as ([fits c5] & Hfits & H).
  apply bind_ok in H as ([fresh c6] & Hfresh & H). apply bind_ok in H as (kb & Hkb & H).
  apply bind_ok in H as ([minimality c7] & Hmin & [= <- _]).
  assert (forall m, complete [] m) as Hnil by (intros m n Hn; by apply not_elem_of_nil in Hn).
  apply (read_named_complete _ _ []) in Hcore, Hpolicy, Hderived, Hcross; try done.
  apply read_range_in_field in Hfits, Hfresh, Hmin; try done. unfold maker_complete. cbn. eauto 12.
Qed.

Lemma read_makers_complete eligibility span count : 0 < eligibility -> 0 < span -> forall first cursor l c,
  Persistence.read_makers decode eligibility span first count cursor = Ok (l, c) -> length l = count /\ Forall maker_complete l.
Proof.
  intros He Hs. induction count as [|count IH]; intros first cursor l c H; cbn [Persistence.read_makers] in H; [by injection H as <- _|].
  apply bind_ok in H as ([m c1] & Hm & H). apply bind_ok in H as ([l' c2] & Hl & [= <- _]).
  apply IH in Hl as [<- Hl]. split; [done|]. constructor; [|done]. exact (read_maker_complete _ _ _ _ _ _ He Hs Hm).
Qed.
End Reading.

Lemma decode_in_field file offset i e : reduced file -> fe_value (Persistence.pf_prime file) = ORDER ->
  Persistence.decode_share file offset i = Ok e -> in_field e.
Proof.
  intros (Hp & Heb & Hs) Horder H. unfold Persistence.decode_share in H. apply bind_ok in H as (x & Hx & H). apply ok_or_ok in Hx.
  apply list_elem_of_lookup_2 in Hx. rewrite Forall_forall in Hs. destruct (Hs x Hx) as [Hok Hlt]. rewrite Horder in Hlt.
  destruct (Persistence.pf_montgomery file); [|by injection H as <-].
  destruct (from_montgomery_spec x (Persistence.pf_prime file) Hok Hp) as (r & Hr & Hrok & Hrlt & _).
  - rewrite Horder. vm_compute. reflexivity.
  - rewrite Horder. eapply N.lt_le_trans; [exact Hlt|]. rewrite <- (N.mul_1_r ORDER) at 1. apply N.mul_le_mono_l.
    assert (Persistence.LIMB ^ N.of_nat (length (Persistence.limbs (Persistence.pf_prime file))) <> 0) by (by apply N.pow_nonzero). lia.
  - rewrite Heb in H. rewrite Hr in H. injection H as <-. split; [done|]. by rewrite <- Horder.
Qed.

(** ** From a handoff to a node *)

Section Node.
Context {SO : ScalarOps} {SC : ScalarCodec} {CAN : ScalarCanonical}.
Variables (party : PartyId) (threshold : nat).
Hypothesis one_based : party <> 0.

Lemma local_new_ok v b : local_new party v b threshold = Ok (mkLocalShared party v b threshold).
Proof using one_based. unfold local_new. by rewrite (proj2 (N.eqb_neq _ _) one_based). Qed.

Lemma local_wire_ok v b : in_field v -> in_field b -> exists w, local_wire party v b threshold = Ok w /\ ls_party w = party.
Proof using one_based CAN.
  intros [v' Hv]%share_ok [b' Hb]%share_ok. unfold local_wire. rewrite Hv. cbn [mbind result_bind]. rewrite Hb.
  cbn [mbind result_bind]. rewrite local_new_ok. eauto.
Qed.

Lemma named_ok names m name : complete names m -> name ∈ names -> exists e, named m name = Ok e /\ in_field e.
Proof using Type. intros Hm Hn. destruct (Hm name Hn) as (e & He & Hf). unfold named. rewrite He. eauto. Qed.

Lemma bits_ok l : Forall (fun b => in_field b.1.1 /\ in_field b.1.2 /\ in_field b.2) l ->
  exists bits, map_res (fun '(bit, blinding, cross) =>
    b ← field_scalar "persistence" bit; r ← field_scalar "persistence" blinding; x ← field_scalar "persistence" cross; Ok (b, r, x)) l = Ok bits
    /\ length bits = length l.
Proof using CAN.
  induction 1 as [|[[b r] x] l (Hb & Hr & Hx) _ (bits & IH & Hlen)]; [by exists []|].
  destruct (share_ok b Hb) as [b' Hb'], (share_ok r Hr) as [r' Hr'], (share_ok x Hx) as [x' Hx']. unfold field_share in *. cbn in Hb', Hr', Hx'.
  exists ((b', r', x') :: bits). cbn [map_res]. rewrite Hb'. cbn [mbind result_bind]. rewrite Hr'. cbn [mbind result_bind]. rewrite Hx'.
  cbn [mbind result_bind]. rewrite IH. cbn. split; [done|]. by f_equal.
Qed.

Lemma local_range_ok h : range_in_field h -> exists r, local_range "persistence" party h threshold = Ok r /\ lr_party r = party.
Proof using one_based CAN.
  intros ([v Hv]%share_ok & [b Hb]%share_ok & Hne & (bits & Hbits & Hlen)%bits_ok). unfold local_range.
  unfold field_share in Hv, Hb. rewrite Hv. cbn [mbind result_bind]. rewrite Hb. cbn [mbind result_bind]. rewrite Hbits. cbn [mbind result_bind].
  unfold local_range_new. rewrite (proj2 (N.eqb_neq _ _) one_based), bool_decide_eq_false_2; [by eexists|].
  intros ->. by destruct (Persistence.lh_bits h).
Qed.

Section Maker.
Variables (h : Persistence.LocalQuoteMakerHandoff) (q : Scalar).
Hypothesis full : maker_complete h.

Lemma policy_blinding_ok name : name ∈ Persistence.QUOTE_POLICY_BLINDING_NAMES ->
  exists e, policy_blinding h name = Ok e /\ in_field e.
Proof using full. destruct full as (_ & Hp & _). by apply named_ok. Qed.

Lemma core_ok name : name ∈ Persistence.WIRE_NAMES -> exists e, core h name = Ok e /\ in_field e.
Proof using full. destruct full as (Hc & _). by apply named_ok. Qed.

Lemma policy_wire_ok name : name ∈ Persistence.WIRE_NAMES -> name ∈ Persistence.QUOTE_POLICY_BLINDING_NAMES ->
  exists w, policy_wire party h threshold name = Ok w /\ ls_party w = party.
Proof using full one_based CAN.
  intros (v & Hv & Fv)%core_ok (b & Hb & Fb)%policy_blinding_ok. unfold policy_wire. rewrite Hv. cbn [mbind result_bind]. rewrite Hb.
  by apply local_wire_ok.
Qed.

Lemma derived_wire_ok name bname : name ∈ Persistence.WIRE_NAMES -> bname ∈ Persistence.QUOTE_DERIVED_BLINDING_NAMES ->
  exists w, derived_wire party h threshold name bname = Ok w /\ ls_party w = party.
Proof using full one_based CAN.
  intros (v & Hv & Fv)%core_ok Hn. destruct full as (_ & _ & Hd & _). destruct (named_ok _ _ _ Hd Hn) as (b & Hb & Fb).
  unfold derived_wire, derived_blinding. rewrite Hv. cbn [mbind result_bind]. rewrite Hb. by apply local_wire_ok.
Qed.

Lemma cross_ok name : name ∈ Persistence.QUOTE_CROSS_NAMES -> exists s, cross h name = Ok s.
Proof using full CAN.
  intros Hn. destruct full as (_ & _ & _ & Hc & _). destruct (named_ok _ _ _ Hc Hn) as (x & Hx & Fx). unfold cross. rewrite Hx.
  by apply share_ok.
Qed.

(** The names a maker asks for are in the layout. *)
Ltac listed := apply (bool_decide_unpack _); vm_compute; exact I.
(** Runs the next step of a maker. *)
Ltac step lem := let x := fresh "x" in let E := fresh "E" in destruct lem as [x E]; [try listed ..|];
  first [rewrite E | destruct E as [E ?]; rewrite E]; cbn [mbind result_bind].

Lemma policy_fields_ok : exists f, policy_fields party h threshold = Ok f /\ Forall (fun w => ls_party w = party) (policy_input_wires f).
Proof using full one_based CAN.
  unfold policy_fields.
  step (policy_wire_ok "ask_level"). step (policy_wire_ok "spread"). step (policy_wire_ok "slope"). step (policy_wire_ok "invcoef").
  step (policy_wire_ok "inv"). step (policy_wire_ok "maxqty"). step (policy_wire_ok "expiry"). step (policy_wire_ok "active").
  destruct (policy_blinding_ok "use_ref") as (b & Hb & Fb); [listed|]. rewrite Hb. cbn [mbind result_bind].
  destruct (local_wire_ok (Persistence.qm_use_ref_share h) b) as (w & Hw & Pw); [apply full|done|]. rewrite Hw. cbn [mbind result_bind].
  eexists. split; [reflexivity|]. unfold policy_input_wires. cbn. repeat (constructor; [done|]). constructor.
Qed.

Lemma gate_ok margin bit bname product mb witness :
  margin ∈ Persistence.WIRE_NAMES -> bit ∈ Persistence.WIRE_NAMES -> product ∈ Persistence.WIRE_NAMES ->
  bname ∈ Persistence.QUOTE_DERIVED_BLINDING_NAMES -> product ∈ Persistence.QUOTE_DERIVED_BLINDING_NAMES ->
  bname ∈ Persistence.QUOTE_CROSS_NAMES -> product ∈ Persistence.QUOTE_CROSS_NAMES -> range_in_field witness ->
  exists g, gate party h threshold margin bit bname product mb witness = Ok g
    /\ Forall (fun w => ls_party w = party) [lg_value g; lg_holds g; lg_product g] /\ lr_party (lg_witness g) = party.
Proof using full one_based CAN.
  intros Hm Hb Hp Hbd Hpd Hbc Hpc Hw. unfold gate. destruct (core_ok margin Hm) as (m & Em & Fm). rewrite Em. cbn [mbind result_bind].
  destruct (share_ok m Fm) as [m' Em']. rewrite Em'. cbn [mbind result_bind]. rewrite local_new_ok. cbn [mbind result_bind].
  destruct (derived_wire_ok bit bname Hb Hbd) as (w & Ew & Pw). rewrite Ew. cbn [mbind result_bind].
  destruct (cross_ok bname Hbc) as [x Ex]. rewrite Ex. cbn [mbind result_bind].
  destruct (derived_wire_ok product product Hp Hpd) as (w' & Ew' & Pw'). rewrite Ew'. cbn [mbind result_bind].
  destruct (cross_ok product Hpc) as [x' Ex']. rewrite Ex'. cbn [mbind result_bind].
  destruct (local_range_ok witness Hw) as (r & Er & Pr). rewrite Er. cbn [mbind result_bind].
  eexists. split; [reflexivity|]. cbn. split; [|done]. repeat (constructor; [done|]). constructor.
Qed.

Lemma maker_ok : exists m, maker party h q threshold = Ok m
  /\ Forall (fun w => ls_party w = party) (maker_input_wires m) /\ Forall (fun r => lr_party r = party) (maker_input_ranges m).
Proof using full one_based CAN.
  unfold maker. destruct policy_fields_ok as (f & Ef & Pf). rewrite Ef. cbn [mbind result_bind].
  destruct (policy_blinding_ok "maxqty") as (b & Eb & Fb); [listed|]. rewrite Eb. cbn [mbind result_bind].
  destruct (share_ok b Fb) as [b' Eb']. rewrite Eb'. cbn [mbind result_bind].
  destruct (policy_blinding_ok "expiry") as (e & Ee & Fe); [listed|]. rewrite Ee. cbn [mbind result_bind].
  destruct (share_ok e Fe) as [e' Ee']. rewrite Ee'. cbn [mbind result_bind].
  destruct (gate_ok "fits_margin" "fits" "fits_bit" "fits_product" (b' - q)%S (Persistence.qm_fits_witness h))
    as (g & Eg & Pg & Rg); [listed..|apply full|]. rewrite Eg. cbn [mbind result_bind].
  destruct (gate_ok "fresh_margin" "fresh_bit" "fresh_bit" "fresh_product" e' (Persistence.qm_fresh_witness h))
    as (g' & Eg' & Pg' & Rg'); [listed..|apply full|]. rewrite Eg'. cbn [mbind result_bind].
  step (derived_wire_ok "depth" "depth"). step (cross_ok "depth"). step (derived_wire_ok "skew" "skew"). step (cross_ok "skew").
  step (cross_ok "active"). step (cross_ok "reference"). step (derived_wire_ok "both" "both"). step (cross_ok "both").
  step (derived_wire_ok "ok" "ok"). step (cross_ok "ok"). step (derived_wire_ok "gated" "gated"). step (cross_ok "gated").
  step (derived_wire_ok "cost" "cost"). destruct (core_ok "key") as (k & Ek & Fk); [listed|]. rewrite Ek. cbn [mbind result_bind].
  destruct (share_ok k Fk) as [k' Ek']. rewrite Ek'. cbn [mbind result_bind].
  destruct (share_ok (Persistence.qm_key_blinding_share h)) as [kb Ekb]; [apply full|]. rewrite Ekb. cbn [mbind result_bind].
  rewrite local_new_ok. cbn [mbind result_bind].
  destruct (local_range_ok (Persistence.qm_minimality h)) as (r & Er & Pr); [apply full|]. rewrite Er. cbn [mbind result_bind].
  eexists. split; [reflexivity|]. unfold maker_input_wires, maker_input_ranges. cbn [lm_fields lm_depth lm_skew lm_fits lm_fresh lm_both lm_ok lm_gated lm_cost lm_packed lm_minimality].
  rewrite !Forall_cons in Pg, Pg'. destruct Pg as (? & ? & ? & _), Pg' as (? & ? & ? & _).
  split; [apply Forall_app; split; [done|]|]; repeat (constructor; [done|]); constructor.
Qed.
End Maker.
End Node.

Section Handoff.
Context {SO : ScalarOps} {SC : ScalarCodec} {CAN : ScalarCanonical}.

Lemma handoff_in_field contents path party makers amount price remainder eligibility span run h :
  Persistence.read_local_quote_proof_handoff contents path party makers amount price remainder eligibility span run = Ok h ->
  Persistence.to_bytes_le (Persistence.qh_prime h) 32 = Ok RISTRETTO_SCALAR_ORDER_LE -> 0 < eligibility -> 0 < span ->
  Persistence.qh_party h = party /\ in_field (Persistence.qh_qty_share h) /\ in_field (Persistence.qh_qty_blinding_share h)
  /\ N.of_nat (length (Persistence.qh_makers h)) = makers /\ Forall maker_complete (Persistence.qh_makers h).
Proof using Type.
  intros H Hprime He Hs. unfold Persistence.read_local_quote_proof_handoff in H.
  apply bind_ok in H as (file & Hf & H). apply bind_ok in H as (per_run & _ & H). apply bind_ok in H as (offset & _ & H).
  apply bind_ok in H as (qs & Hqs & H). apply bind_ok in H as (base & _ & H). apply bind_ok in H as (qb & Hqb & H).
  apply bind_ok in H as (cursor & _ & H). apply bind_ok in H as ([ms c] & Hm & H). apply if_err_ok in H as [_ H]. apply Ok_inj in H as <-.
  cbn in *. destruct (read_reduced _ _ _ _ Hf) as [Hred _]. pose proof (prime_is_order _ (proj1 Hred) Hprime) as Horder.
  pose proof (fun i e => decode_in_field file offset i e Hred Horder) as Hdec.
  apply (read_makers_complete _ Hdec) in Hm as [Hlen Hm]; [|done..].
  split; [done|]. split; [eauto|]. split; [eauto|]. split; [lia|done].
Qed.

Lemma makers_ok party threshold q hs : party <> 0 -> Forall maker_complete hs ->
  exists ms, map_res (fun handoff => maker party handoff q threshold) hs = Ok ms /\ length ms = length hs
    /\ Forall (fun m => Forall (fun w => ls_party w = party) (maker_input_wires m) /\ Forall (fun r => lr_party r = party) (maker_input_ranges m)) ms.
Proof using CAN.
  intros Hp. induction 1 as [|h hs Hh _ (ms & Hms & Hlen & Fm)]; [by exists []|].
  destruct (maker_ok party threshold Hp h q Hh) as (m & Hm & Pm). exists (m :: ms). cbn [map_res]. rewrite Hm. cbn [mbind result_bind].
  rewrite Hms. cbn. split; [done|]. split; [by f_equal|]. by constructor.
Qed.

(** C34: a node's output always becomes its quote node.  Whatever quote handoff
    the persistence reader returns from a file whose prime is the order of the
    scalar field, for at least one maker and non-empty ranges, the issuer turns
    into a node of the quote protocol: no share is missing under the names the
    issuer asks for, each one is a canonical scalar, and the node is the file's
    party counted from one, with one entry per maker and every wire and range
    its own. *)
Theorem quote_handoff_becomes_node contents path party makers amount price remainder eligibility span run h parties threshold :
  Persistence.read_local_quote_proof_handoff contents path party makers amount price remainder eligibility span run = Ok h ->
  Persistence.to_bytes_le (Persistence.qh_prime h) 32 = Ok RISTRETTO_SCALAR_ORDER_LE ->
  0 < makers -> 0 < eligibility -> 0 < span -> party < U64_MAX ->
  party + 1 ∈ parties -> NoDup parties -> 0 ∉ parties -> (threshold < length parties)%nat ->
  exists node, from_handoff h parties threshold = Ok node
    /\ ln_party node = party + 1 /\ ln_parties node = parties /\ ln_threshold node = threshold
    /\ N.of_nat (length (ln_makers node)) = makers
    /\ Forall (fun w => ls_party w = party + 1) (node_wires node) /\ Forall (fun r => lr_party r = party + 1) (node_ranges node).
Proof using CAN.
  intros Hr Hprime Hmk He Hs Hparty Hin Hnd H0 Ht.
  destruct (handoff_in_field _ _ _ _ _ _ _ _ _ _ _ Hr Hprime He Hs) as (Hp & Fq & Fb & Hlen & Hms).
  unfold from_handoff, handoff_party. rewrite Hprime, Hp. cbn [map_err mbind result_bind]. rewrite bool_decide_eq_true_2 by done. cbn [negb].
  unfold checked_add. rewrite (proj2 (N.leb_le _ _)) by lia. cbn [ok_or mbind result_bind].
  destruct (share_ok _ Fb) as [b Hb]. rewrite Hb. cbn [mbind result_bind]. destruct (share_ok _ Fq) as [q Hq]. rewrite Hq. cbn [mbind result_bind].
  rewrite local_new_ok by lia. cbn [mbind result_bind].
  destruct (makers_ok (party + 1) threshold b _ ltac:(lia) Hms) as (ms & -> & Hl & Fm). cbn [mbind result_bind].
  unfold local_quote_node_new. cbn [ls_party]. rewrite (proj2 (Nat.eqb_neq _ _)) by lia.
  rewrite (proj2 (Nat.leb_gt _ _)), bool_decide_eq_true_2, (proj2 (all_distinct_spec parties)), bool_decide_eq_false_2 by (done || lia). cbn [negb orb].
  rewrite existsb_none.
  - eexists. split; [reflexivity|]. unfold node_wires, node_ranges. cbn. split; [done|]. split; [done|]. split; [done|]. split; [lia|].
    split; [constructor; [done|]|]; apply Forall_concat, Forall_fmap; eapply Forall_impl; try exact Fm; by intros m [? ?].
  - intros m Hm. rewrite Forall_forall in Fm. destruct (Fm m Hm) as [Hw Hrg].
    pose proof (proj1 (Forall_forall _ _) Hw) as Aw. pose proof (proj1 (Forall_forall _ _) Hrg) as Ar. apply orb_false_iff.
    split; apply existsb_none; intros x Hx; [rewrite (Aw x Hx)|rewrite (Ar x Hx)]; by rewrite N.eqb_refl.
Qed.
End Handoff.
