(* ===== verification/FieldInstances.v ===== *)
(** * A concrete scalar field

    The rationals in lowest terms are a field in which no positive integer is
    zero and whose operations compute; with themselves as the group they are a
    model of every law class of [Curve].  The witnesses evaluate on it. *)

From Stdlib Require Import QArith Qcanon.
From S2P Require Import Prelude.
From S2P Require Import Interfaces.
From S2P Require Import Curve.

Open Scope N_scope.

Definition bytes_value (b : bytes) : N :=
  fold_right (fun d acc => acc * 256 + Byte.to_N d) 0 b.

#[export] Instance rational_scalars : ScalarOps := {|
  Scalar := Qc; s0 := 0%Qc; s1 := 1%Qc; sadd := Qcplus; smul := Qcmult; ssub := Qcminus;
  sopp := Qcopp; sinv := Qcinv; scalar_dec := Qc_eq_dec;
  scalar_wide b := Q2Qc (Z.of_N (bytes_value b) # 1)
|}.

#[export] Instance rational_laws : ScalarLaws.
Proof. constructor. exact Qcft. Qed.

Lemma scalar_of_pos_value p : (0 < scalar_of_pos p)%Qc.
Proof.
  assert (forall a b, (0 < a -> 0 < b -> 0 < Qcplus a b)%Qc) as Hadd.
  { intros a b Ha Hb. apply Qclt_trans with a; [done|].
    apply Qclt_minus_iff. by replace (a + b + - a)%Qc with b by ring. }
  assert (0 < 1)%Qc as H1 by done.
  induction p as [p IH|p IH|]; cbn; auto.
Qed.

#[export] Instance rational_large : ScalarLarge.
Proof.
  constructor. intros [|p] Hn; [lia|]. intros E. pose proof (scalar_of_pos_value p) as Hp.
  cbn in E. rewrite E in Hp. by apply Qclt_not_eq in Hp.
Qed.

(** A generator that counts. *)
#[export] Instance counting_random : ScalarRandom N := fun n => (scalar_of_N n, n + 1).

(** A canonical encoding: the bits of the code of the reduced fraction. *)
Fixpoint positive_bytes (p : positive) : bytes :=
  match p with
  | xH => [x02]
  | xO p => x00 :: positive_bytes p
  | xI p => x01 :: positive_bytes p
  end.

Lemma positive_bytes_inj p q : positive_bytes p = positive_bytes q -> p = q.
Proof.
  revert q. induction p as [p IH|p IH|]; intros [q|q|] E; try discriminate E; [| |done].
  all: injection E as E; f_equal; by apply IH.
Qed.

Definition rational_bytes (q : Qc) : bytes := positive_bytes (encode (Qnum (this q), Qden (this q))).

Lemma rational_bytes_inj p q : rational_bytes p = rational_bytes q -> p = q.
Proof.
  intros E%positive_bytes_inj%(inj encode). injection E as En Ed. apply Qc_is_canon.
  unfold Qeq. by rewrite En, Ed.
Qed.

(** The rationals as a group over themselves. *)
#[export] Instance rational_group : GroupOps := {|
  Point := Qc; pid := 0%Qc; padd := Qcplus; popp := Qcopp; pmul := Qcmult; point_dec := Qc_eq_dec;
  compress := rational_bytes; basepoint := 1%Qc; hash_to_point b := scalar_of_N (bytes_value b + 2)
|}.

#[export] Instance rational_group_laws : GroupLaws.
Proof. split; intros; cbn; ring. Qed.

#[export] Instance rational_compress : CompressLaws.
Proof. constructor. exact rational_bytes_inj. Qed.

(** A transcript that answers every challenge with the same byte. *)
Definition fixed_transcript (answer : byte) : TranscriptOps := {|
  Transcript := unit; transcript_new _ := tt; append_message _ _ t := t;
  challenge_bytes _ _ t := ([answer], t)
|}.
