(* ===== verification/OrderWitnesses.v ===== *)
(** * A concrete slot

    Seven nodes attest a lane, an authority issues two tickets, and a sealer
    admits their frames and closes; the theorems on attestations and sealing
    are applied to these values. *)

From S2P Require Import Prelude.
From S2P Require Import Interfaces.
From S2P Require Import Sorting.
From S2P Require Import Text.
From S2P Require Import Optimistic.
From S2P Require Import OptimisticTheorems.
From S2P Require Import Wire.
From S2P Require Import ApplicationCrypto.
From S2P Require Import Order.
From S2P Require Import Sealer.
From S2P Require Import PublicResult.
From S2P Require Import DslParse.
From S2P Require Import DslRule.
From S2P Require Import DslEmit.
From S2P Require Import DslProofs.
From S2P Require Import DslRegistryProofs.
From S2P Require Import Instances.

(** ** A concrete rule

    A clamped linear quote is compiled, evaluated and registered, and the
    theorems on the rule language are applied to it. *)

Module DslRun.

#[local] Existing Instance Debug.

Definition quote_source : string :=
  "param spread[2,400] slope[0,16]" +:+ newline +:+ "input qty[0,100]  # size" +:+ newline
  +:+ "ask = clamp(spread + slope * qty, 0, 5000)".

Definition no_rule : Rule := mkRule "" ∅ [] "" ∅ ∅ [].
Definition parsed_rule : Rule := result_or no_rule (parse quote_source "quote").
Definition checked_rule : Rule := result_or no_rule (check parsed_rule).
Definition quote_bindings : gmap string Z :=
  list_to_map [("spread", 10%Z); ("slope", 3%Z); ("qty", 4%Z)].

Lemma check_evaluates : check parsed_rule = Ok checked_rule.
Proof. apply result_or_ok. vm_compute. reflexivity. Qed.

Lemma parsed_typed : rule_typed parsed_rule.
Proof.
  split.
  - apply map_Forall_to_list, Forall_forall. intros [n d] Hn.
    assert (forallb (fun nd => (I128_MIN <=? lo (d_interval nd.2))%Z && (hi (d_interval nd.2) <=? I128_MAX)%Z)
              (map_to_list (r_declarations parsed_rule)) = true) as Hall by (vm_compute; reflexivity).
    apply list_elem_of_In, (proj1 (forallb_forall _ _) Hall) in Hn.
    apply andb_true_iff in Hn as [H1%Z.leb_le H2%Z.leb_le]. exact (conj H1 H2).
  - apply Forall_forall. intros o Ho.
    assert (forallb (fun o => typed o.2) (r_outputs parsed_rule) = true) as Hall
      by (vm_compute; reflexivity).
    by apply list_elem_of_In, (proj1 (forallb_forall _ _) Hall) in Ho.
Qed.

Lemma parsed_balanced : rule_balanced parsed_rule.
Proof.
  apply Forall_forall. intros o Ho.
  assert (forallb (fun o => balanced (r_declarations parsed_rule) o.1 o.2) (r_outputs parsed_rule) = true)
    as Hall by (vm_compute; reflexivity).
  by apply list_elem_of_In, (proj1 (forallb_forall _ _) Hall) in Ho.
Qed.

Lemma checked_rule_evaluates_witness :
  exists outs bits, evaluate checked_rule quote_bindings = Ok outs
    /\ required_bits checked_rule = Ok bits /\ is_Some (outs !! "ask").
Proof.
  destruct (checked_rule_evaluates parsed_rule checked_rule quote_bindings)
    as (outs & bits & He & Hb & Hcov & _).
  - exact check_evaluates.
  - vm_compute. discriminate.
  - exact parsed_typed.
  - exact parsed_balanced.
  - apply admissible_test_ok. vm_compute. reflexivity.
  - exists outs, bits. split; [exact He|]. split; [exact Hb|]. apply Hcov.
    vm_compute. left.
Defined.

Lemma reads_only_declared_witness :
  evaluate checked_rule (<["wallet" := 7%Z]> quote_bindings) = evaluate checked_rule quote_bindings.
Proof.
  apply (reads_only_declared parsed_rule checked_rule check_evaluates). intros n Hn.
  apply lookup_insert_ne. intros <-. vm_compute in Hn. destruct Hn as [d Hd]. discriminate Hd.
Defined.

(** ** Registries *)

Definition empty_rules : RuleRegistry := mkRuleRegistry ∅.
Definition no_approved : ApprovedRule := mkApprovedRule "" "" 0 "".
Definition approved : ApprovedRule * RuleRegistry :=
  result_or (no_approved, empty_rules) (rule_approve empty_rules quote_source "quote").

Lemma rule_registry_exact_witness :
  rule_check approved.2 quote_source "quote" (ap_digest approved.1) = Ok tt.
Proof.
  destruct (rule_registry_exact empty_rules quote_source "quote" "" rule_registry_empty) as [_ Hpass].
  apply Hpass.
  rewrite <- surjective_pairing. apply result_or_ok. vm_compute. reflexivity.
Defined.

Definition a_program : string :=
  POLICY_RULE_DIGEST_MARKER +:+ ap_digest approved.1 +:+ newline +:+ "print(1)".
Definition empty_circuits : CircuitRegistry := mkCircuitRegistry ∅.
Definition no_circuit : ApprovedCircuit := mkApprovedCircuit "" "" "" [].
Definition approved_circuit : ApprovedCircuit * CircuitRegistry :=
  result_or (no_circuit, empty_circuits)
    (circuit_approve empty_circuits "quote" quote_source a_program [7%N; 64%N]).

Lemma circuit_registry_sound_witness :
  circuit_check approved_circuit.2 a_program [7%N; 64%N] = Ok tt.
Proof.
  destruct (circuit_registry_sound empty_circuits a_program [7%N; 64%N] circuit_registry_empty)
    as [_ Hpass].
  apply (Hpass "quote" quote_source approved_circuit.1).
  rewrite <- surjective_pairing. apply result_or_ok. vm_compute. reflexivity.
Defined.
End DslRun.

(** ** A concrete run of the optimistic state machine

    A policy is enrolled, an execution registered, escrow credited, a claim
    proposed and challenged; the theorems are applied to the states of this
    run. *)

Module OptimisticRun.

(** ** Serializers, keys and a verifier *)

Definition ser_context (c : ExecutionContext) : bytes :=
  ctx_network c ++ ctx_application c ++ ctx_verifier c ++ ctx_job c ++ ctx_input_root c
  ++ ctx_before_state c.

#[export] Instance ser_policy : Serialize OptimisticPolicy := fun p =>
  Ok (pol_network p ++ pol_application p ++ pol_verifier p ++ pol_proposer p ++ pol_bond_asset p
      ++ be_bytes 8 (pol_proposer_bond p) ++ be_bytes 8 (pol_challenger_bond p)
      ++ be_bytes 8 (pol_challenge_window_seconds p) ++ be_bytes 8 (pol_response_window_seconds p)).
#[export] Instance ser_proposal : Serialize (bytes * ExecutionContext * bytes * N) := fun v =>
  match v with (p, c, o, t) => Ok (p ++ ser_context c ++ o ++ be_bytes 8 t) end.
#[export] Instance ser_pair : Serialize (bytes * bytes) := fun v => Ok (v.1 ++ v.2).
#[export] Instance ser_triple : Serialize (bytes * bytes * bytes) := fun v =>
  Ok (v.1.1 ++ v.1.2 ++ v.2).

(** A signature is the hash of the signer's identity and the message. *)
#[export] Instance auth_model : ClaimAuthentication unit := fun _ identity message signature =>
  if bool_decide (signature = sha256 (identity ++ message)) then Ok tt
  else Err "bad signature".
#[export] Instance signer_model : ClaimSigner bytes := {|
  signer_identity := fun k => k;
  signer_sign := fun k m => Ok (sha256 (k ++ m))
|}.

(** A verifier whose proofs are the 32-byte output itself. *)
#[export] Instance verifier_model : ChallengeVerifier bytes := {|
  verifier_id := fun v => v;
  challenge_verify := fun _ _ proof =>
    if bool_decide (length proof = 32%nat) then Ok proof else Err "malformed proof"
|}.

Definition a_policy : OptimisticPolicy :=
  mkPolicy (id32 x01) (id32 x02) (id32 x03) (id32 x04) (id32 x05) 100 40 60 30.
Definition a_context : ExecutionContext :=
  mkContext (id32 x01) (id32 x02) (id32 x03) (id32 x0a) (id32 x0b) (id32 x0c).
Definition an_output : bytes := id32 x0d.
Definition a_policy_id : bytes :=
  match policy_digest a_policy with Ok d => d | Err _ => [] end.
Definition an_execution : RegisteredExecution := mkExecution a_policy_id a_context 5000.
Definition a_proposal : Proposal :=
  match proposal_signed a_policy a_context an_output 2000 (id32 x04) with
  | Ok p => p
  | Err _ => mkProposal [] a_context [] 0 []
  end.
Definition a_claim_id : bytes :=
  match proposal_id a_proposal with Ok d => d | Err _ => [] end.
Definition a_challenge : Challenge :=
  match challenge_signed a_claim_id (id32 x06) with
  | Ok c => c
  | Err _ => mkChallenge [] [] []
  end.

Abbreviation an_event := (event (V := bytes)).

Definition setup : list an_event :=
  [EEnroll a_policy; ERegister an_execution;
   ECredit (id32 x05) (id32 x04) 500; ECredit (id32 x05) (id32 x06) 50].
Definition proposed : OptimisticState :=
  run tt OptimisticState_default (setup ++ [EPropose a_proposal 1000]).
Definition challenged : OptimisticState :=
  run tt proposed [EChallenge a_challenge 1010].
Definition answered : OptimisticState :=
  run tt challenged [EAnswer a_claim_id an_output (id32 x03) 1020].
Definition settled : OptimisticState := run tt answered [EAdvance a_claim_id 1060].
Definition slashed : OptimisticState := run tt challenged [EAdvance a_claim_id 1040].

Definition status_at (st : OptimisticState) : option ClaimStatus :=
  claim_status <$> claim_of st a_claim_id.
Definition the_claim (st : OptimisticState) : Claim :=
  default (mkClaim a_proposal a_policy 0 0 Pending) (claim_of st a_claim_id).

Example run_statuses :
  [status_at proposed; status_at challenged; status_at answered; status_at settled;
   status_at slashed] =
  [Some Pending; Some (Challenged (id32 x06) 1040); Some (Proven (sha256 an_output));
   Some (Finalized (Some (sha256 an_output))); Some (Rejected (id32 x06) None)].
Proof. vm_compute. reflexivity. Qed.

Lemma snapshot_always_validates_witness :
  validate (run tt OptimisticState_default
    (setup ++ [EPropose a_proposal 1000; EChallenge a_challenge 1010;
               EAnswer a_claim_id an_output (id32 x03) 1020; EAdvance a_claim_id 1060] : list an_event)) tt
  = Ok tt.
Proof.
  apply (snapshot_always_validates tt OptimisticState_default).
  - vm_compute. reflexivity.
  - repeat constructor.
Defined.

Lemma escrow_conserved_witness :
  escrow_of (id32 x05) slashed = escrow_of (id32 x05) challenged.
Proof.
  apply (escrow_conserved tt challenged (EAdvance a_claim_id 1040 : an_event) slashed (id32 x05)).
  apply apply_event_run. vm_compute. reflexivity.
Defined.

Lemma claim_moves_along_lifecycle_witness :
  lifecycle tt proposed (EChallenge a_challenge 1010 : an_event) (hex_encode a_claim_id) (the_claim proposed)
    (Challenged (id32 x06) 1040).
Proof.
  destruct (claim_moves_along_lifecycle tt proposed (EChallenge a_challenge 1010 : an_event) (hex_encode a_claim_id) (the_claim proposed))
    as (s & Hs & Hl); [vm_compute; reflexivity|].
  assert (s = Challenged (id32 x06) 1040) as E.
  { apply (f_equal (fmap claim_status)) in Hs. cbn [fmap option_fmap option_map with_status claim_status] in Hs. apply (inj Some). rewrite <- Hs. vm_compute. reflexivity. }
  rewrite E in Hl. destruct Hl as [Hl|Hl]; [exfalso; vm_compute in Hl; discriminate|exact Hl].
Defined.

Lemma settlement_is_final_witness :
  require_finalized (run tt settled [EChallenge a_challenge 1061 : an_event]) a_claim_id
    a_context an_output = Ok (the_claim settled).
Proof. apply settlement_is_final. vm_compute. reflexivity. Defined.

Lemma rejected_never_settles_witness :
  require_finalized (run tt slashed [EAdvance a_claim_id 1060 : an_event]) a_claim_id
    a_context an_output = Err "optimistic execution is not finalized for this settlement".
Proof.
  apply (rejected_never_settles tt slashed _ a_claim_id (the_claim slashed) (id32 x06) None);
    vm_compute; reflexivity.
Defined.

Lemma elapsed_deadline_resolves_witness :
  exists st', advance proposed a_claim_id 1060 = Ok st'
    /\ claim_of st' a_claim_id =
       Some (with_status (the_claim proposed) (outcome (the_claim proposed))).
Proof.
  apply (elapsed_deadline_resolves tt proposed a_claim_id (the_claim proposed) 1060).
  - vm_compute. reflexivity.
  - vm_compute. reflexivity.
  - vm_compute. discriminate.
  - vm_compute. discriminate.
Defined.

Lemma rejection_pays_challenger_witness :
  let k := bond_key (id32 x05) (id32 x06) in
  available (bond_at slashed k) = available (bond_at challenged k) + at_key k k 140
  /\ locked (bond_at slashed k) + at_key k (bond_key (id32 x05) (id32 x04)) 100
       + at_key k k 40 = locked (bond_at challenged k).
Proof.
  apply (rejection_pays_challenger tt challenged (EAdvance a_claim_id 1040 : an_event)
    a_claim_id (the_claim challenged) (id32 x06) 1040 slashed None).
  - left. exists 1040. reflexivity.
  - vm_compute. reflexivity.
  - vm_compute. reflexivity.
  - apply apply_event_run. vm_compute. reflexivity.
  - vm_compute. reflexivity.
Defined.

Lemma one_claim_per_job_witness :
  hex_encode a_claim_id = hex_encode a_claim_id /\ the_claim proposed = the_claim proposed.
Proof.
  apply (one_claim_per_job tt proposed _ _ _ _
    (match job_key a_context with Ok k => k | Err e => e end));
    vm_compute; reflexivity.
Defined.

Lemma dispute_within_execution_witness :
  exists e key, executions challenged !! key = Some e /\ exe_context e = a_context
    /\ claim_challenge_deadline (the_claim challenged) + 30 <= exe_valid_until e
    /\ (forall ch rd, claim_status (the_claim challenged) = Challenged ch rd ->
          rd < exe_valid_until e).
Proof.
  apply (dispute_within_execution tt challenged (hex_encode a_claim_id) (the_claim challenged));
    vm_compute; reflexivity.
Defined.
End OptimisticRun.

(** ** Concrete frames and shares

    The theorems on frames and shares applied to concrete elements, keys and
    the counter generator. *)

Module WireRun.

Lemma counter_random r : is_Some (random 1 r).
Proof.
  assert (r mod 16 < 16) as Hlt by (apply N.mod_lt; lia).
  cbn [random fill_bytes counter_rng]. unfold counter_byte. generalize dependent (r mod 16).
  intros n Hlt. assert (forallb (fun n => is_ok (from_be_bytes (mask_top
    (replicate 32 (byte_of_N (N.of_nat n)))))) (seq 0 16) = true) as Hall by reflexivity.
  pose proof (proj1 (forallb_forall _ _) Hall (N.to_nat n)) as Hn. cbn beta in Hn.
  rewrite N2Nat.id in Hn. destruct (from_be_bytes _) as [x|e]; [by eexists|].
  discriminate Hn. apply in_seq. lia.
Qed.

Definition two_values : list (list N) := [from_u64 77; from_u128 (2 ^ 100)].

Lemma canonical_decide x :
  length x = 4%nat -> forallb (fun n => n <? TWO64) x = true -> (fe_value x <? ORDER) = true ->
  Wire.canonical x.
Proof.
  intros Hl Hx Hv. split; [split; [done|]|by apply N.ltb_lt].
  apply Forall_forall. intros n Hn. apply N.ltb_lt.
  by apply (proj1 (forallb_forall _ _) Hx), list_elem_of_In.
Qed.

Lemma two_values_canonical : Forall Wire.canonical two_values.
Proof. repeat constructor; by apply canonical_decide. Qed.

Lemma field_arithmetic_correct_witness :
  fe_value (sub_mod (from_u64 3) (from_u64 5)) = ORDER - 2.
Proof.
  destruct (field_arithmetic_correct (from_u64 3) (from_u64 5)) as (_ & _ & _ & _ & H);
    [by apply canonical_decide..|].
  rewrite H. reflexivity.
Defined.

Lemma field_element_roundtrip_witness :
  from_be_bytes (be_bytes 32 77) = Ok (from_u64 77).
Proof.
  apply (field_element_roundtrip (be_bytes 32 77) (from_u64 77)); [reflexivity|].
  split; [by apply canonical_decide | reflexivity].
Defined.

Example wrong_mac_refused :
  frame_is_authentic (id32 x01) (mkFrame 5 2 (replicate PAYLOAD_BYTES x09) (id32 x00)) = false.
Proof.
  apply not_true_is_false. intros H.
  apply (authentic_iff_mac (id32 x01) (mkFrame 5 2 (replicate PAYLOAD_BYTES x09) (id32 x00)))
    in H; [|reflexivity].
  discriminate H.
Defined.

Lemma frame_new_delivers_witness :
  let f := mkFrame 5 2 (replicate PAYLOAD_BYTES x09)
             (frame_mac (id32 x01) 5 2 (replicate PAYLOAD_BYTES x09)) in
  frame_is_authentic (id32 x01) f = true.
Proof.
  intros f.
  apply (frame_new_delivers 5 2 (replicate PAYLOAD_BYTES x09) (id32 x01) f);
    reflexivity.
Defined.

Lemma share_reconstruct_witness :
  exists payloads,
    share_field_elements_with_rng 1 two_values 3 0 = Some (Ok payloads)
    /\ length payloads = 3%nat
    /\ Forall (fun p => length p = PAYLOAD_BYTES) payloads
    /\ reconstruct payloads 2 = Ok two_values.
Proof.
  apply (share_reconstruct 1 two_values 3 0).
  - exact counter_random.
  - lia.
  - cbn. lia.
  - exact two_values_canonical.
Defined.

Lemma share_answers_witness :
  share_field_elements_with_rng 1 two_values 1 0 = Some (Err NodeCount).
Proof.
  destruct (share_answers 1 two_values 1 0 counter_random) as (r & Hr & Hcase).
  rewrite Hr. cbn in Hcase. by rewrite Hcase.
Defined.

Lemma all_but_last_independent_witness :
  exists payloads payloads',
    share_field_elements_with_rng 1 two_values 3 0 = Some (Ok payloads)
    /\ share_field_elements_with_rng 1 [from_u64 1; from_u64 2] 3 0 = Some (Ok payloads')
    /\ take 2 payloads' = take 2 payloads.
Proof.
  destruct (share_total 1 two_values 3 0 counter_random) as (r & Hr & payloads & ->).
  exists payloads.
  destruct (all_but_last_independent 1 two_values [from_u64 1; from_u64 2] 3 0 payloads)
    as (payloads' & H1 & H2); [reflexivity | exact Hr |].
  exists payloads'. auto.
Defined.

End WireRun.

Module OrderRun.

Definition a_key : App.SigningKey := App.from_bytes (id32 x01 ++ id32 x02).

Lemma closed_envelope_witness :
  exists s, App.try_sign a_key [x05] = Ok s
    /\ App.verify (App.verifying_key a_key) [x05] s = Ok tt.
Proof.
  eexists. split; [reflexivity|].
  apply (App.closed_envelope [] [x05] _ a_key). reflexivity.
Defined.

(** ** Attestations *)

Definition an_envelope : bytes := App.envelope (id32 x09 ++ replicate 1952 x00) (replicate 3373 x03).

Lemma an_envelope_valid : App.signature_validate an_envelope = Ok tt.
Proof.
  apply App.signature_validate_ok. eexists _, _. split; [reflexivity|].
  rewrite length_app, !length_replicate. done.
Qed.

Definition statement (node : N) : NodeAdmissionAttestation :=
  mkAdmission node 5 1 (id32 x01) (id32 x02) (id32 x03) (id32 x04) (id32 x05) an_envelope.
Definition statements : list NodeAdmissionAttestation := statement <$> committee.

Lemma statements_wf : Forall admission_wf statements.
Proof.
  unfold statements, committee. cbn [nodes_upto COMMITTEE_NODES fmap list_fmap].
  repeat constructor; try reflexivity; apply an_envelope_valid.
Qed.

Lemma admission_wire_roundtrip_witness :
  exists raw, encode_admission_attestations statements = Ok raw
    /\ decode_admission_attestations raw = Ok statements.
Proof.
  eexists. split; [apply (result_or_ok []); vm_compute; reflexivity|].
  apply (admission_wire_roundtrip _ statements).
  split; [reflexivity|]. split; [exact statements_wf|].
  apply result_or_ok. vm_compute. reflexivity.
Defined.

Definition receipt_without_digest : NodeExecutionAttestation :=
  mkExecutionAttestation 0 5 1 (id32 x01) (id32 x02) 1 2 3 (id32 x03) (id32 x04) (id32 x05)
    [] an_envelope.
Definition receipt_statement : NodeExecutionAttestation :=
  mkExecutionAttestation 0 5 1 (id32 x01) (id32 x02) 1 2 3 (id32 x03) (id32 x04) (id32 x05)
    (result_or [] (recompute_receipt_digest receipt_without_digest)) an_envelope.

Lemma receipt_statement_wf : execution_wf receipt_statement.
Proof.
  split; [vm_compute; reflexivity|]. split; [done|]. split; [|exact an_envelope_valid].
  repeat constructor.
Qed.

Lemma execution_wire_roundtrip_witness :
  exists raw, encode_node_execution_attestation receipt_statement = Ok raw
    /\ decode_node_execution_attestation raw = Ok receipt_statement.
Proof.
  eexists. split; [apply (result_or_ok []); vm_compute; reflexivity|].
  apply (execution_wire_roundtrip _ [] receipt_statement).
  split; [exact receipt_statement_wf|]. apply result_or_ok. vm_compute. reflexivity.
Defined.

(** ** A public result

    Seven nodes sign one masked result; the statements arrive in reverse. *)

Definition node_key (node : N) : App.SigningKey := App.from_bytes (id32 (byte_of_N (node + 1)) ++ id32 x02).
Definition draft (node : N) : PublicResult.NodePublicResultAttestation :=
  PublicResult.mkResultAttestation node 3 4 (id32 (byte_of_N (node + 20))) (id32 x28) (id32 x29) (-500) 91
    (id32 (byte_of_N (node + 50))) (id32 (byte_of_N (node + 60))) [].
Definition signed_statement (node : N) : PublicResult.NodePublicResultAttestation :=
  result_or (draft node) (PublicResult.sign (draft node) (node_key node)).
Definition a_result : PublicResult.CertifiedPublicResult :=
  PublicResult.mkPublicResult 3 4 [] (id32 x28) (id32 x29) (-500) 91 [].

Lemma signed_statements : signed_by (draft <$> committee) (node_key <$> committee) (signed_statement <$> committee).
Proof. cbn [committee nodes_upto COMMITTEE_NODES fmap list_fmap]. repeat constructor. Qed.

Lemma honest_result_released_witness :
  exists raw cluster digest,
    PublicResult.encode_public_result_attestations (reverse (signed_statement <$> committee)) = Ok raw
    /\ PublicResult.decode_public_result_attestations raw = Ok (signed_statement <$> committee)
    /\ PublicResult.verify_public_result_lane (signed_statement <$> committee)
         (App.verifying_key <$> (node_key <$> committee)) (id32 x63)
       = Ok (PublicResult.mkPublicResult 3 4 cluster (id32 x28) (id32 x29) (-500) 91 digest).
Proof.
  refine (proj2 (honest_result_released (draft <$> committee) (node_key <$> committee) (signed_statement <$> committee)
    (reverse (signed_statement <$> committee)) (id32 x63) a_result signed_statements _ _ _ _ _ _)).
  - reflexivity.
  - apply Forall_fmap, Forall_forall. intros n _. repeat split; try (cbn; lia). repeat constructor.
  - apply Forall_fmap, Forall_forall. intros n _. repeat split.
  - done.
  - done.
  - apply reverse_Permutation.
Defined.

(** ** Tickets *)

Definition an_authority : AdmissionAuthority :=
  mkAuthority a_key (id32 x07) ∅.
Definition no_ticket : AdmissionTicket := mkTicket 0 [] 0 0 [].
Definition first_issue : AdmissionTicket * AdmissionAuthority :=
  result_or (no_ticket, an_authority)
    (issue an_authority [x01] 5 (Some 100) 50 (Some (id32 x11)) 0 []).
Definition second_issue : AdmissionTicket * AdmissionAuthority :=
  result_or (no_ticket, an_authority)
    (issue first_issue.2 [x02] 5 (Some 100) 50 (Some (id32 x12)) 0 []).

Lemma one_ticket_per_entity_witness :
  is_ok (issue first_issue.2 [x01] 5 (Some 101) 50 None 0 (id32 x13)) = false.
Proof.
  apply (one_ticket_per_entity an_authority [x01] 5 (Some 100) 50 (Some (id32 x11)) 0 []
           first_issue.1 first_issue.2); [|constructor].
  rewrite <- surjective_pairing. apply result_or_ok. vm_compute. reflexivity.
Defined.

(** ** A slot *)

Definition population : list AdmissionTicket := [first_issue.1; second_issue.1].
Definition empty_sealer : FixedSlotSealer :=
  mkSealer 5 2 120000000000 population (App.verifying_key a_key) (App.verifying_key a_key) a_key
    (id32 x00) ∅ ∅ false.
Definition a_frame (b : byte) : Frame := mkFrame 5 2 [b] [].
Definition no_receipt : AdmissionReceipt := mkReceipt 0 0 [] [] 0 [].
Definition admitted1 : AdmissionReceipt * FixedSlotSealer :=
  result_or (no_receipt, empty_sealer)
    (sealer_admit empty_sealer first_issue.1 (a_frame x41) 110000000000).
Definition admitted2 : AdmissionReceipt * FixedSlotSealer :=
  result_or (no_receipt, empty_sealer)
    (sealer_admit admitted1.2 second_issue.1 (a_frame x42) 111000000000).
Definition a_beacon : RandomnessBeacon :=
  result_or (mkBeacon 0 [] []) (beacon_sign 6 (id32 x66) a_key).
Definition no_manifest : BatchManifest := mkManifest 0 0 0 [] [] [] [] [].
Definition a_batch : list Frame * BatchManifest * FixedSlotSealer :=
  result_or ([], no_manifest, empty_sealer) (close admitted2.2 a_beacon 121000000000).

Lemma new_ok :
  is_ok (sealer_new 5 2 120000000000 population (App.verifying_key a_key)
           (App.verifying_key a_key) a_key (id32 x00)) = true.
Proof. vm_compute. reflexivity. Qed.
Lemma admit1_ok : is_ok (sealer_admit empty_sealer first_issue.1 (a_frame x41) 110000000000) = true.
Proof. vm_compute. reflexivity. Qed.
Lemma admit2_ok : is_ok (sealer_admit admitted1.2 second_issue.1 (a_frame x42) 111000000000) = true.
Proof. vm_compute. reflexivity. Qed.
Lemma close_evaluates : is_ok (close admitted2.2 a_beacon 121000000000) = true.
Proof. vm_compute. reflexivity. Qed.

Lemma sealed_empty : sealed empty_sealer [] None.
Proof.
  pose proof new_ok as Hn. apply is_ok_true in Hn as [s Hn].
  pose proof (sealer_new_ok _ _ _ _ _ _ _ _ _ Hn) as ->. by eapply sealed_new.
Qed.

Lemma sealed_admitted1 : sealed admitted1.2 [admitted1.1] None.
Proof.
  eapply sealed_admit; [exact sealed_empty|].
  rewrite <- surjective_pairing. apply result_or_ok. exact admit1_ok.
Qed.

Lemma sealed_admitted : sealed admitted2.2 [admitted2.1; admitted1.1] None.
Proof.
  eapply sealed_admit; [exact sealed_admitted1|].
  rewrite <- surjective_pairing. apply result_or_ok. exact admit2_ok.
Qed.

Lemma closed_ok : close admitted2.2 a_beacon 121000000000 = Ok (a_batch.1.1, a_batch.1.2, a_batch.2).
Proof.
  rewrite <- !surjective_pairing. apply result_or_ok. exact close_evaluates.
Qed.

Lemma honest_sealer_never_accused_witness :
  prove_omission admitted1.1 a_batch.1.2 (App.verifying_key a_key) = false.
Proof.
  apply (honest_sealer_never_accused a_batch.2 [admitted2.1; admitted1.1] a_batch.1.1 a_batch.1.2
           admitted1.1 admitted1.1 (App.verifying_key a_key)).
  - eapply sealed_close; [exact sealed_admitted | exact closed_ok].
  - right. left.
  - right. left.
Defined.

Lemma close_fixed_population_witness :
  exists ordered, ordered ≡ₚ population
    /\ Forall2 (fun t d => ticket_digest t = Ok d) ordered
         (bm_ordered_ticket_digests a_batch.1.2).
Proof.
  destruct (close_fixed_population admitted2.2 a_beacon 121000000000 a_batch.1.1 a_batch.1.2
              a_batch.2 closed_ok) as (ordered & Hp & _ & Hd & _).
  exists ordered. split; [|exact Hd]. etransitivity; [exact Hp|]. vm_compute. reflexivity.
Defined.

(** Another sealer of the slot: the population listed the other way round,
    other frames, admitted in the other order. *)
Definition other_sealer : FixedSlotSealer :=
  mkSealer 5 3 120000000000 (reverse population) (App.verifying_key a_key)
    (App.verifying_key a_key) a_key (id32 x00) ∅ ∅ false.
Definition other_frame (b : byte) : Frame := mkFrame 5 3 [b] [].
Definition other_admitted : AdmissionReceipt * FixedSlotSealer :=
  result_or (no_receipt, other_sealer) (sealer_admit other_sealer second_issue.1 (other_frame x51) 105000000000).
Definition other_full : AdmissionReceipt * FixedSlotSealer :=
  result_or (no_receipt, other_sealer)
    (sealer_admit other_admitted.2 first_issue.1 (other_frame x52) 106000000000).
Definition other_batch : list Frame * BatchManifest * FixedSlotSealer :=
  result_or ([], no_manifest, other_sealer) (close other_full.2 a_beacon 122000000000).

Lemma other_closed :
  close other_full.2 a_beacon 122000000000 = Ok (other_batch.1.1, other_batch.1.2, other_batch.2).
Proof.
  rewrite <- !surjective_pairing. apply result_or_ok. vm_compute. reflexivity.
Qed.

Lemma order_independent_of_content_witness :
  bm_ordered_ticket_digests a_batch.1.2 = bm_ordered_ticket_digests other_batch.1.2.
Proof.
  apply (order_independent_of_content admitted2.2 other_full.2 a_beacon a_beacon
           121000000000 122000000000 a_batch.1.1 other_batch.1.1 a_batch.1.2 other_batch.1.2
           a_batch.2 other_batch.2);
    [vm_compute; reflexivity | | reflexivity | reflexivity | | exact closed_ok | exact other_closed].
  - replace (fs_tickets admitted2.2) with population by (vm_compute; reflexivity).
    replace (fs_tickets other_full.2) with (reverse population) by (vm_compute; reflexivity).
    symmetry. apply reverse_Permutation.
  - apply (bool_decide_unpack _). vm_compute. exact I.
Defined.

Lemma admitted1_deadline : fs_deadline_ns admitted1.2 = 120000000000.
Proof. vm_compute. reflexivity. Qed.

Lemma sealer_total_witness :
  sealer_admit admitted1.2 first_issue.1 (a_frame x77) 110000000000 <> Err Panic
  /\ is_ok (close admitted1.2 a_beacon 100) = false.
Proof.
  destruct (sealer_total admitted1.2 [admitted1.1] None first_issue.1 (a_frame x77) a_beacon
              100 sealed_admitted1) as (_ & _ & Hiff).
  split.
  - apply (sealer_total admitted1.2 [admitted1.1] None first_issue.1 (a_frame x77) a_beacon
             110000000000 sealed_admitted1).
  - apply not_true_is_false. intros Hc. apply Hiff in Hc as (_ & Hlate & _); [|done].
    rewrite admitted1_deadline in Hlate. discriminate Hlate.
Defined.
End OrderRun.
