(* ===== verification/OutboxWitnesses.v ===== *)
(** * A concrete outbox

    A store with a queued, a retried and an expired request, encoded by a
    computable serializer and cipher; the theorems on the outbox are applied to
    it. *)

From S2P Require Import Prelude.
From S2P Require Import Interfaces.
From S2P Require Import Outbox.
From S2P Require Import OutboxStore.
From S2P Require Import OutboxTheorems.
From S2P Require Import Instances.

Open Scope N_scope.
Import Outbox Store.

Module OutboxRun.

(** ** A serializer *)

Definition flat_state : Type := N * N * N * string * string * bytes.

Definition flatten_state (s : OutboxState) : flat_state :=
  match s with
  | Queued => (0, 0, 0, "", "", [])
  | Dispatching a t => (1, a, t, "", "", [])
  | MpcAdmitted a t r => (2, a, t, committee_id r, job_id r, admitted_request_digest r)
  | Settled r => (3, ledger_height r, receipt_finalized_at r, defmi_network_id r, transaction_id r,
                  receipt_request_digest r)
  | Expired t => (4, t, 0, "", "", [])
  | ReleasePending t => (5, t, 0, "", "", [])
  | Released r => (6, ledger_height r, receipt_finalized_at r, defmi_network_id r, transaction_id r,
                   receipt_request_digest r)
  | AbortedBeforeReserve t => (7, t, 0, "", "", [])
  | ManualReview t m => (8, t, 0, m, "", [])
  end.

Definition unflatten_state (f : flat_state) : OutboxState :=
  match f with
  | (1, a, t, _, _, _) => Dispatching a t
  | (2, a, t, s1, s2, g) => MpcAdmitted a t (mkAdmissionReceipt s1 s2 g)
  | (3, h, t, s1, s2, g) => Settled (mkCanonicalReceipt s1 s2 h g t)
  | (4, t, _, _, _, _) => Expired t
  | (5, t, _, _, _, _) => ReleasePending t
  | (6, h, t, s1, s2, g) => Released (mkCanonicalReceipt s1 s2 h g t)
  | (7, t, _, _, _, _) => AbortedBeforeReserve t
  | (8, t, _, m, _, _) => ManualReview t m
  | _ => Queued
  end.

#[export] Instance state_countable : Countable OutboxState.
Proof. refine (inj_countable' flatten_state unflatten_state _). by intros [| |?? []|[]| | |[]| |]. Defined.

#[export] Instance entry_eq_dec : EqDecision OutboxEntry.
Proof. solve_decision. Defined.
#[export] Instance entry_countable : Countable OutboxEntry.
Proof.
  refine (inj_countable'
    (fun e => (request_id e, sequence e, accepted_at e, expires_at e, request_digest e,
               signed_request e, state e))
    (fun '(i, s, a, x, g, b, t) => mkEntry i s a x g b t) _).
  by intros [].
Defined.

#[export] Instance data_eq_dec : EqDecision OutboxData.
Proof. solve_decision. Defined.
#[export] Instance data_countable : Countable OutboxData.
Proof.
  refine (inj_countable'
    (fun d => (version d, generation d, next_sequence d, next_cover_slot d, next_cover_due_at d,
               entries d))
    (fun '(v, g, n, s, u, m) => mkData v g n s u m) _).
  by intros [].
Defined.

(** One byte per bit. *)
Fixpoint positive_bytes (p : positive) : bytes :=
  match p with
  | xH => []
  | xO p => x00 :: positive_bytes p
  | xI p => x01 :: positive_bytes p
  end.
Fixpoint positive_of_bytes (l : bytes) : positive :=
  match l with
  | [] => xH
  | x00 :: l => xO (positive_of_bytes l)
  | _ :: l => xI (positive_of_bytes l)
  end.
Lemma positive_bytes_back p : positive_of_bytes (positive_bytes p) = p.
Proof. induction p; cbn; congruence. Qed.

#[export] Instance data_serialize : Serialize OutboxData := fun d => Ok (positive_bytes (encode d)).
#[export] Instance data_deserialize : Deserialize OutboxData := fun raw => decode (positive_of_bytes raw).
#[export] Instance data_serde : SerdeLaws OutboxData.
Proof.
  split. intros d raw Hraw. apply Ok_inj in Hraw as <-.
  unfold from_slice, data_deserialize. rewrite positive_bytes_back. apply decode_encode.
Qed.

(** ** A cipher: the tag is the start of a checksum of key, nonce and text. *)

Definition model_tag (key nonce aad clear : bytes) : bytes :=
  fit 16 (hash_model (key ++ nonce ++ aad ++ clear)).

#[export] Instance cipher_model : StoreCipher := {|
  scrypt := fun passphrase salt => Ok (hash_model (passphrase ++ salt));
  gcm_seal := fun key nonce aad clear => Ok (clear, model_tag key nonce aad clear);
  gcm_open := fun key nonce aad ct tag =>
    if bool_decide (tag = model_tag key nonce aad ct) then Ok ct else Err "tag"
|}.
#[export] Instance cipher_model_laws : StoreCipherLaws.
Proof.
  split; cbn.
  - intros key nonce aad clear ct tag [= <- <-]. apply fit_length.
  - intros key nonce aad clear ct tag [= <- <-]. by rewrite bool_decide_eq_true_2.
Qed.

(** ** A store *)

Definition an_outbox : CorporateOutbox := mkOutbox "outbox.enc" (bstr "correct horse") 4 64.

Definition an_entry (id : string) (seq expires : N) (s : OutboxState) : OutboxEntry :=
  mkEntry id seq 10 expires (sha256 (bstr id)) (bstr id) s.

Definition a_store : OutboxData :=
  mkData 1 3 3 0 None
    (<["a" := an_entry "a" 0 100 (Dispatching 10 11)]>
     (<["b" := an_entry "b" 1 100 Queued]>
      (<["c" := an_entry "c" 2 90 (MpcAdmitted 1 12 (mkAdmissionReceipt "mpc" "j" []))]> ∅))).

Lemma a_store_valid : validate_data an_outbox a_store = Ok tt.
Proof. vm_compute. reflexivity. Qed.

Definition good_io : Io :=
  mkIo None None None (replicate 16 x01) (replicate 12 x02) Written.
Definition unsynced_io : Io :=
  mkIo None None None (replicate 16 x03) (replicate 12 x04) (NotSynced "fsync").

Lemma good_io_ok : io_ok good_io. Proof. done. Qed.
Lemma unsynced_io_ok : io_ok unsynced_io. Proof. done. Qed.

Definition a_file : bytes := result_or [] (encode_store an_outbox good_io a_store).

Lemma a_file_reads : decode_store an_outbox a_file = Ok a_store.
Proof.
  apply (decode_store_encode an_outbox good_io); [exact good_io_ok|].
  apply result_or_ok. vm_compute. reflexivity.
Qed.

(** ** The theorems at this store *)

Lemma call_moves_along_lifecycle_witness :
  exists raw' d', (perform an_outbox (ClaimNext 20 true 5) unsynced_io (Some a_file)).1 = Some raw'
    /\ decode_store an_outbox raw' = Ok d' /\ moves_all (ClaimNext 20 true 5) a_store d'
    /\ (forall e, (perform an_outbox (ClaimNext 20 true 5) unsynced_io (Some a_file)).2 = Err e ->
          raw' = a_file \/ exists e', io_write unsynced_io = NotSynced e').
Proof. exact (call_moves_along_lifecycle an_outbox _ _ a_file a_store unsynced_io_ok a_file_reads). Defined.

(** The first request is out of attempts, so the second one is sent. *)
Example claim_sends_second :
  (fun x => x.1) <$> claim_next_op 20 true 5 a_store
  = Ok (Some (Dispatch (claimed (an_entry "b" 1 100 Queued) 1))).
Proof. vm_compute. reflexivity. Qed.

Lemma claim_in_order_witness :
  validate_data an_outbox a_store = Ok tt
  /\ exists act d', claim_next_op 20 true 5 a_store = Ok (act, d').
Proof.
  split; [exact a_store_valid|].
  destruct (claim_in_order an_outbox a_store 20 5 true a_store_valid) as (act & d' & E & _).
  exists act, d'. exact E.
Defined.

Lemma cover_schedule_independent_witness :
  observe (claim_cover_slot_op 20 true 5 30 a_store) = Ok (Some (0, 20), (1, Some 50)).
Proof.
  rewrite (cover_schedule_independent an_outbox a_store 20 5 30 true a_store_valid).
  vm_compute. reflexivity.
Defined.

Definition some_calls : list (Command * Io) :=
  [(ClaimNext 20 true 5, good_io);
   (RecordSettlement "b" (sha256 (bstr "b"))
      (mkCanonicalReceipt "net" "tx" 7 (sha256 (bstr "b")) 30), unsynced_io);
   (PruneFinalized 40, good_io)].

Lemma some_calls_ok : Forall (fun x => io_ok x.2) some_calls.
Proof. repeat constructor. Qed.

Lemma request_durable_witness :
  exists raw', run an_outbox some_calls (Some a_file) = Some raw'
    /\ is_ok (decode_store an_outbox raw') = true
    /\ (was_final an_outbox some_calls (Some a_file) "b" (an_entry "b" 1 100 Queued)
        \/ forall io, io_lock io = None -> io_open io = None ->
             (get_signed_request an_outbox "b" (request_digest (an_entry "b" 1 100 Queued)) io
                (Some raw')).2 = Ok (signed_request (an_entry "b" 1 100 Queued))).
Proof.
  refine (request_durable an_outbox some_calls a_file a_store "b" _ some_calls_ok a_file_reads _).
  vm_compute. reflexivity.
Defined.
End OutboxRun.
