(* ===== verification/SigmaWitnesses.v ===== *)
(** * Witnesses for the zero-knowledge proofs

    Over the rational field, with transcripts that answer two different
    challenges. *)

From S2P Require Import Prelude.
From S2P Require Import Interfaces.
From S2P Require Import DslParse.
From S2P Require Import Curve.
From S2P Require Import Shamir.
From S2P Require Import ShamirTheorems.
From S2P Require Import Sigma.
From S2P Require Import SigmaProofs.
From S2P Require Import BitrangeProofs.
From S2P Require Import Membership.
From S2P Require Import OneOfManyProofs.
From S2P Require Import SigmaTheorems.
From S2P Require Import Instances.
From S2P Require Import FieldInstances.
From S2P Require Import Reader.
From S2P Require Import Mechanism.
From S2P Require Import Kyb.

(** ** Witnesses for sharing and share location

    A degree-one sharing of the secret five among seven points of the rational
    field, two of whose shares are replaced. *)

Definition seven : list Scalar := points 7.
Definition five : Scalar := scalar_of_N 5.
Definition dealt : list Scalar := (share five 1 seven 3%N).1.
Definition tampered_shares : list Scalar := <[5%nat := s0]> (<[2%nat := s1]> dealt).

Lemma seven_nodup : NoDup seven.
Proof. apply points_nodup. done. Qed.

Lemma reconstruct_share_witness :
  reconstruct (at_positions seven [4; 1]%nat) (at_positions dealt [4; 1]%nat) = Some five.
Proof.
  apply (reconstruct_share five 1 seven 3%N [4; 1]%nat).
  - apply seven_nodup.
  - apply (bool_decide_unpack _). vm_compute. exact I.
  - intros i Hi. repeat (apply elem_of_cons in Hi as [->|Hi]; [vm_compute; lia|]).
    by apply not_elem_of_nil in Hi.
  - vm_compute. lia.
Defined.

Lemma locate_bounded_distance_witness :
  locate seven tampered_shares 1 = Some (Decoded five [2; 5]%nat).
Proof.
  apply (locate_bounded_distance seven tampered_shares 1 five [2; 5]%nat).
  - apply seven_nodup.
  - split; [reflexivity|]. split; [vm_compute; lia|]. exists [five; scalar_of_N 3].
    split; [reflexivity|]. split; [vm_compute; reflexivity|]. split; [vm_compute; reflexivity|]. vm_compute. lia.
Defined.

Lemma locate_names_the_tampered_witness :
  locate seven tampered_shares 1 = Some (Decoded five [2; 5]%nat).
Proof.
  etrans.
  - apply (locate_names_the_tampered five 1 seven 3%N tampered_shares).
    + apply seven_nodup.
    + reflexivity.
    + vm_compute. lia.
    + vm_compute. lia.
  - vm_compute. reflexivity.
Defined.

Open Scope N_scope.

Module SigmaRun.
Definition first_oracle : TranscriptOps := fixed_transcript x05.
Definition second_oracle : TranscriptOps := fixed_transcript x09.
Definition n (x : N) : Scalar := scalar_of_N x.
Definition key : Pedersen := mkPedersen (n 3) (n 7).

Lemma sigma_proofs_complete_witness :
  (verify_opening (T:=first_oracle) key tt (commit key (n 2) (n 4))
     (prove_opening (T:=first_oracle) key tt (commit key (n 2) (n 4)) (n 2) (n 4) 11).1.1).1 = true.
Proof.
  exact (proj1 (sigma_proofs_complete (T:=first_oracle) key tt 11 (n 2) (n 4) (n 5) (n 6) (n 7) (n 8)
    (n 2) (n 3) true [n 1; n 2] [n 3; n 4] [n 5; n 6] eq_refl eq_refl)).
Defined.

Definition opening : Point := commit key (n 2) (n 4).
Definition opening1 := (prove_opening (T:=first_oracle) key tt opening (n 2) (n 4) 11).1.1.
Definition opening2 := (prove_opening (T:=second_oracle) key tt opening (n 2) (n 4) 11).1.1.

Lemma sigma_proofs_extract_witness :
  opening = commit key (extracted (op_z_value opening1) (op_z_value opening2) (n 5) (n 9))
    (extracted (op_z_blinding opening1) (op_z_blinding opening2) (n 5) (n 9)).
Proof.
  refine (proj1 (sigma_proofs_extract first_oracle second_oracle key tt tt) opening opening1 opening2 _ _ _ _).
  - vm_compute. reflexivity.
  - vm_compute. reflexivity.
  - vm_compute. reflexivity.
  - intros E. vm_compute in E. discriminate E.
Defined.

Lemma bounded_complete_witness :
  is_ok (prove_bounded (T:=first_oracle) key 5 (n 4) (-3) 12 [] 17) = true.
Proof.
  etrans; [apply (bounded_complete (T:=first_oracle) key 5 (n 4) (-3) 12 [] 17); lia | reflexivity].
Defined.

(** The two oracles' interval proofs for the value 5 in [-3, 4]. *)
Definition dummy : RangeProof := mkRangeProof [] [] (mkOpeningProof s0 s0 s0) 0.
Definition bounded_by (T : TranscriptOps) : BoundedProof :=
  match prove_bounded (T:=T) key 2 (n 4) (-3) 4 [] 17 with
  | Ok (_, proof, _, _) => proof
  | Err _ => mkBoundedProof dummy dummy 0
  end.

Lemma forked_bounded (below : bool) :
  let C := commit key (scalar_from_i64 2) (n 4) in
  let side := if below then bd_below else bd_above in
  forked first_oracle second_oracle
    (if below then below_commitment key C 4 else shift_commitment key C (-3))
    (suffixed_context [] (bstr (if below then "|below" else "|above")))
    (side (bounded_by first_oracle)) (side (bounded_by second_oracle)).
Proof.
  destruct below; (split; [split_and!; vm_compute; reflexivity|]); split.
  1, 3: vm_compute; repeat constructor; intros E; discriminate E.
  all: intros E; vm_compute in E; discriminate E.
Qed.

Lemma bounded_pins_interval_witness :
  let C := commit key (scalar_from_i64 2) (n 4) in
  let above := shift_commitment key C (-3) in
  let (v, r) := extract_range first_oracle second_oracle above (bstr "|above")
    (bd_above (bounded_by first_oracle)) (bd_above (bounded_by second_oracle)) in
  v = 5 /\ C = commit key (scalar_from_i64 (-3) + scalar_of_N v)%S r.
Proof.
  pose proof (bounded_pins_interval first_oracle second_oracle key (commit key (scalar_from_i64 2) (n 4))
    (bounded_by first_oracle) (bounded_by second_oracle) (-3) 4 []) as H.
  cbv zeta in H. specialize (H eq_refl eq_refl (forked_bounded false) (forked_bounded true)).
  vm_compute in H |- *. split; [reflexivity | exact (proj1 H)].
Defined.

Lemma batch_as_strong_witness :
  let p := (prove_product (T:=first_oracle) key tt opening (n 2) (n 4) (n 3) (n 5) (n 6) 11).1.1 in
  let q := (prove_same_value (T:=first_oracle) key tt (n 2) (n 3) (n 36) (n 47) (n 4) (n 4) (n 5) 11).1.1 in
  (verify_product (T:=first_oracle) key tt opening (commit key (n 3) (n 5)) (commit key (n 6) (n 6)) p).1 = true
  /\ (verify_same_value (T:=first_oracle) key tt (n 2) (n 3) (n 36) (n 47) q).1 = true.
Proof.
  set (p := (prove_product _ _ _ _ _ _ _ _ _).1.1). set (q := (prove_same_value _ _ _ _ _ _ _ _ _ _).1.1).
  pose proof (batch_as_strong (T:=first_oracle) key tt opening (commit key (n 3) (n 5)) (commit key (n 6) (n 6)) p
    (n 2) (n 3) (n 36) (n 47) q (n 2) (n 3)) as H. cbv zeta in H.
  destruct H as [H1 H2].
  - intros E. vm_compute in E. discriminate E.
  - intros E. vm_compute in E. discriminate E.
  - intros E. vm_compute in E. discriminate E.
  - split; [apply H1 | apply H2]; split; vm_compute; reflexivity.
Defined.

(** A registry of three points whose second one has the secret 6. *)
Definition registry : OrDleq.Statement := OrDleq.mkStatement [] [n 4; n 6; n 8] [x01] [].
Definition member_by (T : TranscriptOps) : OrDleq.MembershipProof :=
  match OrDleq.prove (T:=T) registry (n 6) 1 11 with
  | Ok (p, _) => p
  | Err _ => OrDleq.mkProof s0 [] []
  end.

Lemma membership_with_nullifier_witness :
  exists i x, extract_member 3 (member_by first_oracle) (member_by second_oracle) = Some (i, x)
    /\ OrDleq.points registry !! i = Some (basepoint * x)%P
    /\ OrDleq.proof_nullifier (member_by first_oracle) = OrDleq.nullifier (OrDleq.scope registry) x.
Proof.
  destruct (proj2 (membership_with_nullifier first_oracle second_oracle (R:=N) registry)
    (member_by first_oracle) (member_by second_oracle)) as (i & x & He & Hi & Hn & _).
  - vm_compute. reflexivity.
  - vm_compute. reflexivity.
  - vm_compute. reflexivity.
  - vm_compute. reflexivity.
  - vm_compute. reflexivity.
  - intros E. vm_compute in E. discriminate E.
  - exists i, x. split; [exact He|]. split; [exact Hi | exact Hn].
Defined.

Definition ring_of_four : list Point := [n 4; commit key s0 (n 5); n 9; n 11].

Lemma one_of_many_complete_witness :
  match OneOfMany.prove (T:=first_oracle) key tt ring_of_four 1 (n 5) 11 with
  | Ok (proof, _, _) => (OneOfMany.verify (T:=first_oracle) key tt ring_of_four proof).1 = true
  | Err _ => False
  end.
Proof.
  pose proof (one_of_many_complete (T:=first_oracle) key tt ring_of_four 1 (n 5) 11) as [Hok Hv].
  destruct (OneOfMany.prove (T:=first_oracle) key tt ring_of_four 1 (n 5) 11) as [[[proof tr] rng]|e].
  - apply (Hv proof tr rng eq_refl). reflexivity.
  - discriminate Hok.
Defined.

Lemma adaptor_exchange_witness :
  let pre := (Adaptor.pre_sign (T:=first_oracle) (n 3) (Adaptor.public_key (n 8)) [] 11).1 in
  Adaptor.verify (T:=first_oracle) (Adaptor.public_key (n 3)) []
    (Adaptor.adapt pre (Adaptor.mkAdaptor (n 8) (Adaptor.public_key (n 8)))) = true.
Proof.
  set (pre := (Adaptor.pre_sign _ _ _ _).1).
  refine (proj1 (proj2 (adaptor_exchange (T:=first_oracle) (R:=N) (Adaptor.public_key (n 3)) [] (n 8) pre) _)).
  vm_compute. reflexivity.
Defined.
End SigmaRun.

(** ** Credentials

    Two enrolled control groups; the second presents its credential twice. *)

Module KybRun.
#[local] Instance kyb_oracle : TranscriptOps := fixed_transcript x05.
#[local] Instance kyb_scalars : ScalarCodec := {| scalar_to_bytes := rational_bytes; scalar_from_canonical _ := None |}.
#[local] Instance kyb_keys : Ed25519Keys := fun _ => true.

Definition attributes : Kyb.BusinessAttributes := Kyb.mkBusinessAttributes "JP" "bank" 2.
Definition cohort : string := "JP/bank/tier>=1".
Definition signer : HybridSigner := id32 x01 ++ id32 x02.
Definition no_credential : Kyb.KybCredential := Kyb.mkKybCredential EmptyString s0 s0 attributes [].
Definition credential : Kyb.KybCredential := result_or no_credential (Kyb.from_secret_scalar "group" attributes 3 (scalar_of_N 6)).
Definition members : list Point := [scalar_of_N 8; Kyb.public_point credential].
Definition no_registry : Kyb.SignedCohortRegistry := Kyb.mkSignedCohortRegistry EmptyString 0 0 [] [] [] [].
Definition registry : Kyb.SignedCohortRegistry := result_or no_registry (Kyb.registry_issue cohort 1 100 members signer).
Definition no_presentation : Kyb.KybPresentation := Kyb.mkKybPresentation EmptyString [] [] [] (OrDleq.mkProof s0 [] []).
Definition presented (rng : N) := result_or (no_presentation, rng) (Kyb.present credential registry [x01] [x02] rng).

Lemma registry_ok : Kyb.registry_issue cohort 1 100 members signer = Ok registry.
Proof. apply result_or_ok. vm_compute. reflexivity. Qed.
Lemma presented_ok rng : is_ok (Kyb.present credential registry [x01] [x02] rng) = true ->
  Kyb.present credential registry [x01] [x02] rng = Ok ((presented rng).1, (presented rng).2).
Proof. intros Ho. rewrite <- surjective_pairing. by apply result_or_ok. Qed.
Lemma first_presented : Kyb.present credential registry [x01] [x02] 11 = Ok ((presented 11).1, (presented 11).2).
Proof. apply presented_ok. vm_compute. reflexivity. Qed.
Lemma second_presented : Kyb.present credential registry [x01] [x02] 29 = Ok ((presented 29).1, (presented 29).2).
Proof. apply presented_ok. vm_compute. reflexivity. Qed.

Lemma presentation_accepted_witness :
  Kyb.verify_presentation (presented 11).1 registry (hybrid_public_key signer) [x01] [x02] 50 cohort = Ok tt /\
  Kyb.binding_digest (presented 29).1 = Kyb.binding_digest (presented 11).1.
Proof.
  destruct (Kyb.presentation_accepted cohort 1 100 members signer registry credential [x01] [x02] 11 29 _ _ (presented 29).1 (presented 29).2 50
    registry_ok first_presented eq_refl) as (Hv & _ & _ & Hb).
  split; [exact Hv|]. exact (Hb second_presented).
Defined.

(** The same member under another oracle's challenge. *)
Definition presented_by (T : TranscriptOps) : Kyb.KybPresentation :=
  (result_or (no_presentation, 0) (Kyb.present (T:=T) credential registry [x01] [x02] 11)).1.

Lemma accepted_presentation_extracts_witness :
  exists x, (basepoint * x)%P ∈ Kyb.points registry /\
    OrDleq.proof_nullifier (Kyb.p_proof (presented_by (fixed_transcript x05))) = OrDleq.nullifier [x01] x.
Proof.
  refine (Kyb.accepted_presentation_extracts (fixed_transcript x05) (fixed_transcript x09) (presented_by (fixed_transcript x05))
    (presented_by (fixed_transcript x09)) registry (hybrid_public_key signer) [x01] [x02] 50 60 cohort cohort _ _ _ _ _ _).
  - vm_compute. reflexivity.
  - vm_compute. reflexivity.
  - vm_compute. reflexivity.
  - vm_compute. reflexivity.
  - vm_compute. reflexivity.
  - intros E. vm_compute in E. discriminate E.
Defined.

Definition member : Point := scalar_of_N 6.
Definition caps : Kyb.EntityLimits := Kyb.mkEntityLimits 2 10 f64_one.
Definition calls : list Kyb.LimitCall :=
  [Kyb.Request member 1 4; Kyb.Request member 1 7; Kyb.Spend member 1 f64_one; Kyb.Request member 1 6;
   Kyb.Request member 1 0; Kyb.Request (scalar_of_N 8) 1 9].
Definition limited := default (Kyb.limiter_new caps, []) (Kyb.limit_run (B:=Debug) caps calls).

Lemma limited_ok : match Kyb.limit_run (B:=Debug) caps calls with Some _ => true | None => false end = true ->
  Kyb.limit_run (B:=Debug) caps calls = Some limited.
Proof. unfold limited. by destruct (Kyb.limit_run caps calls). Qed.

Lemma entity_caps_hold_witness :
  Kyb.u_lots (Kyb.usage limited.1 member 1) = 10 /\ Kyb.u_requests (Kyb.usage limited.1 member 1) = 2.
Proof.
  assert (Kyb.limit_run (B:=Debug) caps calls = Some (limited.1, limited.2)) as Hr.
  { rewrite <- surjective_pairing. apply limited_ok. vm_compute. reflexivity. }
  destruct (Kyb.entity_caps_hold caps calls _ _ member 1 Hr) as (Hq & Hl & _).
  split; [etrans; [exact Hl|] | etrans; [exact Hq|]]; vm_compute; reflexivity.
Defined.

Lemma wrapped_lots_reset_the_cap_witness :
  exists l, Kyb.limit_run (B:=Release) caps [Kyb.Request member 1 1; Kyb.Request member 1 U64_MAX]
      = Some (l, [(Kyb.limit_key member 1, 1); (Kyb.limit_key member 1, U64_MAX)]) /\
    Kyb.u_lots (Kyb.usage l member 1) = 0.
Proof. apply (Kyb.wrapped_lots_reset_the_cap caps member 1); vm_compute; discriminate. Defined.
End KybRun.
