(* ===== verification/RangeWitnesses.v ===== *)
(** * Witnesses for threshold range proofs

    The value two, in two bits, dealt to three parties with threshold one. *)

From S2P Require Import Prelude.
From S2P Require Import Interfaces.
From S2P Require Import Instances.
From S2P Require Import Curve.
From S2P Require Import Shamir.
From S2P Require Import Sigma.
From S2P Require Import SigmaProofs.
From S2P Require Import BitrangeProofs.
From S2P Require Import SigmaTheorems.
From S2P Require Import Threshold.
From S2P Require Import Gadgets.
From S2P Require Import JointProver.
From S2P Require Import ThresholdTheorems.
From S2P Require Import JointTheorems.
From S2P Require Import ProductProofs.
From S2P Require Import ThresholdClaims.
From S2P Require Import ThresholdRange.
From S2P Require Import RangeRounds.
From S2P Require Import RangeClaims.
From S2P Require Import FieldInstances.

(** ** Witnesses for the threshold protocols

    A value dealt to five parties with threshold two, over the rational field,
    with the counting generator and transcripts of fixed answers. *)

Open Scope N_scope.

Module ThresholdRun.
Definition first_oracle : TranscriptOps := fixed_transcript x05.
Definition n (x : N) : Scalar := scalar_of_N x.
Definition key : Pedersen := mkPedersen (n 3) (n 7).
Definition five_parties : list N := [1; 2; 3; 4; 5].
Definition quorum : list N := [5; 1; 3].
Definition no_shares : ShareSet := mkShareSet s0 ∅ ∅ 0 [].
Definition dealing : ShareSet * N := result_or (no_shares, 0) (deal key (n 2) (n 4) five_parties 2 11).
Definition dealt : ShareSet := dealing.1.

Lemma dealt_ok : deal key (n 2) (n 4) five_parties 2 11 = Ok (dealt, dealing.2).
Proof. etrans; [apply (result_or_ok (no_shares, 0)); vm_compute; reflexivity|]. unfold dealt, dealing. by destruct (result_or _ _). Qed.

Lemma quorum_nodup : NoDup quorum.
Proof. apply (bool_decide_unpack _). vm_compute. exact I. Defined.

Lemma quorum_members q : q ∈ quorum -> q ∈ five_parties.
Proof.
  intros Hq. repeat (apply elem_of_cons in Hq as [->|Hq]; [apply (bool_decide_unpack _); vm_compute; exact I|]).
  by apply not_elem_of_nil in Hq.
Qed.

Ltac each_party Hq := repeat (apply elem_of_cons in Hq as [->|Hq]; [vm_compute; discriminate|]); by apply not_elem_of_nil in Hq.

Lemma threshold_opening_assembles_witness :
  exists proof tr', opening_protocol (T:=first_oracle) key General [] tt quorum dealt (fun q => q) = Ok (proof, tr')
    /\ (verify_relation (T:=first_oracle) key tt (commit key (n 2) (n 4)) proof General).1 = true.
Proof.
  eapply (threshold_opening_assembles (T:=first_oracle) key General [] tt (n 2) (n 4) five_parties quorum 2 dealt 11 _ (fun q => q)).
  - exact dealt_ok.
  - exact quorum_nodup.
  - exact quorum_members.
  - vm_compute. lia.
  - discriminate.
  - intros q Hq. each_party Hq.
Defined.

(** Party three answers with something else. *)
Definition replaced : option (gmap N (Scalar * Scalar)) := Some {[ 3 := (n 1, n 1) ]}.

Lemma joint_opening_audit_witness :
  exists proof record tr' rng',
    joint_prove_opening_with (T:=first_oracle) key dealt quorum tt replaced General 7 = Ok (proof, record, tr', rng')
    /\ forall q, q ∈ oa_bad_partials record -> q ∈ quorum.
Proof.
  destruct (joint_opening_audit (T:=first_oracle) key General tt (n 2) (n 4) five_parties quorum 2 dealt 11
    dealing.2 7 replaced)
    as (hp & hr & p & r & tr' & rng' & _ & Hr & _ & _ & Hb & _).
  - exact dealt_ok.
  - exact quorum_nodup.
  - exact quorum_members.
  - vm_compute. lia.
  - discriminate.
  - exists p, r, tr', rng'. split; [exact Hr|]. intros q Hq. exact (proj1 (proj1 (Hb q) Hq)).
Defined.

(** Three evaluations of a line. *)
Definition line : list Point := [n 2; n 3].
Definition evaluations : gmap N Point := {[ 1 := n 5; 2 := n 8; 4 := n 14 ]}.

Lemma ladder_from_evaluations_exact_witness :
  coefficient_commitments_from_evaluations evaluations 1 = Ok line.
Proof.
  apply ladder_from_evaluations_exact. split; [vm_compute; lia|]. split; [reflexivity|].
  intros q P Hq. unfold evaluations in Hq. repeat (apply lookup_insert_Some in Hq as [[<- <-]|[_ Hq]]; [vm_compute; reflexivity|]).
  apply lookup_singleton_Some in Hq as [<- <-]. vm_compute. reflexivity.
Defined.

(** Two wires with threshold one. *)
Definition wire_at (P Q : list Scalar) : Shared :=
  mkShared (commit key (evaluate P s0) (evaluate Q s0))
    (collect ((fun q => (q, evaluate P (n q))) <$> five_parties)) (collect ((fun q => (q, evaluate Q (n q))) <$> five_parties))
    (zip_with (commit key) P Q).

Lemma five_nodup : NoDup five_parties.
Proof. apply (bool_decide_unpack _). vm_compute. exact I. Qed.

Lemma wire_at_represents P Q : length P = 2%nat -> length Q = 2%nat ->
  represents key five_parties 1 (wire_at P Q) (evaluate P s0, evaluate Q s0).
Proof.
  intros HP HQ. exists P, Q. split; [|done]. split; try done.
  - intros q. unfold wire_at. cbn [sh_value]. case_bool_decide as Hq.
    + by apply (collect_of_lookup (fun q => evaluate P (n q)) five_parties q five_nodup).
    + apply (collect_fresh (entries (fun q => evaluate P (n q)) five_parties)). by rewrite entries_keys.
  - intros q. unfold wire_at. cbn [sh_blinding]. case_bool_decide as Hq.
    + by apply (collect_of_lookup (fun q => evaluate Q (n q)) five_parties q five_nodup).
    + apply (collect_fresh (entries (fun q => evaluate Q (n q)) five_parties)). by rewrite entries_keys.
Qed.

Definition wires : list Shared := [wire_at [n 2; n 5] [n 1; n 1]; wire_at [n 7; n 1] [n 4; n 9]].
Definition program : Linear := Sub (Scale (Input 1) (n 3)) (Shift (Input 0) (n 6)).

Lemma linear_programs_refine_witness :
  exists s, run key wires program = Ok s /\ sh_commitment s = commit key (n 13) (n 11).
Proof.
  destruct (linear_programs_refine key five_parties 1 wires [(n 2, n 1); (n 7, n 4)] program quorum) as (s & Hr & _ & Hc & _).
  - constructor; [|constructor; [|constructor]].
    + apply (wire_at_represents [n 2; n 5] [n 1; n 1]); reflexivity.
    + apply (wire_at_represents [n 7; n 1] [n 4; n 9]); reflexivity.
  - vm_compute. lia.
  - split; [discriminate|]. split; [exact quorum_nodup|]. apply (bool_decide_unpack _). vm_compute. exact I.
  - exact quorum_members.
  - vm_compute. lia.
  - exists s. split; [exact Hr|]. etrans; [exact Hc|]. vm_compute. reflexivity.
Defined.

(** Shares of the factor three and of the cross term nine. *)
Definition multiplicand : Point := commit key (n 4) (n 6).
Definition local (q : N) : LocalProductShares :=
  mkLocalProductShares q (evaluate [n 3; n 1] (n q)) (evaluate [n 2; n 5] (n q)) (evaluate [n 9; n 8] (n q)) 1.
Definition locals : list LocalProductShares := local <$> [1; 2; 4].
Definition no_statement : ProductStatement := mkProductStatement s0 s0 s0 [] [] 0.
Definition statement : ProductStatement :=
  result_or no_statement (product_statement_from_evaluations multiplicand (commit key (n 3) (n 2))
    (multiplicand * n 3 + h key * n 9)%P (lp_evaluations key multiplicand <$> locals) 1).

Lemma threshold_product_assembles_witness :
  exists holder, forall l, l ∈ locals -> bind_product key l statement = Ok (holder (lp_party l)).
Proof.
  destruct (threshold_product_assembles (T:=first_oracle) key multiplicand (commit key (n 3) (n 2))
    (multiplicand * n 3 + h key * n 9)%P locals 1 statement [] tt [4; 1] (fun q => q)) as (holder & Hb & _).
  - apply result_or_ok. vm_compute. reflexivity.
  - repeat constructor.
  - apply (bool_decide_unpack _). vm_compute. exact I.
  - intros q Hq. repeat (apply elem_of_cons in Hq as [->|Hq]; [apply (bool_decide_unpack _); vm_compute; exact I|]).
    by apply not_elem_of_nil in Hq.
  - vm_compute. lia.
  - exists holder. exact Hb.
Defined.
End ThresholdRun.

Open Scope N_scope.

Module RangeRun.
Definition first_oracle : TranscriptOps := fixed_transcript x05.
Definition second_oracle : TranscriptOps := fixed_transcript x09.
Definition n (x : N) : Scalar := scalar_of_N x.
Definition key : Pedersen := mkPedersen (n 3) (n 7).
Definition parties : list N := [1; 2; 3].
Definition quorum : list N := [3; 1].

Definition dealing : ValueShares * N :=
  result_or (mkValueShares pid ∅ ∅ [] [] 0, 0) (deal_bits key 2 (n 4) 2 parties 1 11).

Lemma dealing_ok : deal_bits key 2 (n 4) 2 parties 1 11 = Ok (dealing.1, dealing.2).
Proof.
  etrans; [apply (result_or_ok (mkValueShares pid ∅ ∅ [] [] 0, 0)); vm_compute; reflexivity|].
  unfold dealing. by destruct (result_or _ _).
Qed.

Lemma pair_nodup : NoDup quorum.
Proof. apply (bool_decide_unpack _). vm_compute. exact I. Qed.

Lemma pair_members q : q ∈ quorum -> q ∈ parties.
Proof.
  intros Hq. repeat (apply elem_of_cons in Hq as [->|Hq]; [apply (bool_decide_unpack _); vm_compute; exact I|]).
  by apply not_elem_of_nil in Hq.
Qed.

(** The first moves of this run have digests other than zero. *)
Lemma first_moves_sealed :
  match range_first_round key (local_of dealing.1 <$> parties) 1 quorum [] (fun q => q) with
  | Ok first => forallb (fun p => negb (bool_decide (rse_digest p.1.1.1 = ZERO32))) (fr_prepared first)
  | Err _ => false
  end = true.
Proof. vm_compute. reflexivity. Qed.

Lemma sealed_forall {A} (digest : A -> bytes) l :
  forallb (fun p => negb (bool_decide (digest p = ZERO32))) l = true -> Forall (fun p => digest p <> ZERO32) l.
Proof.
  rewrite forallb_forall, Forall_forall. intros Hl p Hp. specialize (Hl p (proj1 (list_elem_of_In _ _) Hp)).
  by apply negb_true_iff, bool_decide_eq_false in Hl.
Qed.

Lemma threshold_range_assembles_witness :
  exists proof, range_protocol (T:=first_oracle) key (local_of dealing.1 <$> parties) 1 quorum [] (fun q => q) = Ok proof
    /\ verify_threshold_range (T:=first_oracle) key (commit key (scalar_of_N 2) (n 4)) proof [] = true
    /\ tp_bits proof = 2%nat.
Proof.
  destruct (threshold_range_assembles (T:=first_oracle) key 2 (n 4) 2 parties quorum 1 11 dealing.1 dealing.2 [] (fun q => q))
    as (first & Hfirst & _ & Hproof).
  - vm_compute. reflexivity.
  - exact dealing_ok.
  - exact pair_nodup.
  - exact pair_members.
  - vm_compute. lia.
  - apply Hproof. pose proof first_moves_sealed as Hs. rewrite Hfirst in Hs. by apply sealed_forall.
Defined.

(** The same first moves answered by two oracles. *)
Definition no_proof : ThresholdRangeProof := mkThresholdRangeProof [] [] (mkOpeningProof pid s0 s0) 0.
Definition proof_by (T : TranscriptOps) : ThresholdRangeProof :=
  result_or no_proof (range_protocol (T:=T) key (local_of dealing.1 <$> parties) 1 quorum [] (fun q => q)).
Definition committed : Point := commit key (scalar_of_N 2) (n 4).

Lemma proofs_forked : range_forked first_oracle second_oracle committed [] (proof_by first_oracle) (proof_by second_oracle).
Proof. split; apply (bool_decide_unpack _); vm_compute; exact I. Qed.

Lemma threshold_range_pins_witness :
  let ledger := range_opened first_oracle second_oracle committed [] (proof_by first_oracle) (proof_by second_oracle) in
  let v := range_value first_oracle second_oracle [] (proof_by first_oracle) (proof_by second_oracle) in
  v = 2 /\ Forall (opens key) ledger
  /\ (broken key ledger \/ v < 2 ^ N.of_nat (tp_bits (proof_by first_oracle))
       /\ committed = commit key (scalar_of_N v)
            (range_opening first_oracle second_oracle committed [] (proof_by first_oracle) (proof_by second_oracle)).2).
Proof.
  split; [vm_compute; reflexivity|].
  apply (threshold_range_pins first_oracle second_oracle key committed [] (proof_by first_oracle) (proof_by second_oracle)).
  - vm_compute. reflexivity.
  - vm_compute. reflexivity.
  - exact proofs_forked.
Defined.
End RangeRun.
