(* ===== verification/VenueWitnesses.v ===== *)
(** * Witnesses for the venue and its wires

    One payment of five at seven, issued, signed, settled, and carried on each
    wire. *)

From S2P Require Import Prelude.
From S2P Require Import Interfaces.
From S2P Require Import Instances.
From S2P Require Import Curve.
From S2P Require Import Sigma.
From S2P Require Import Instruction.
From S2P Require Import Venue.
From S2P Require Import VenueClaims.
From S2P Require Import Reader.
From S2P Require Import InstructionWire.
From S2P Require Import WireCodec.
From S2P Require Import TypedCodec.

(** ** A concrete venue world

    A group of 256 elements with 32-byte encodings, range proofs that show
    their openings, checksums for signatures and approvals: every law class of
    the venue and of its wires, with operations that compute. *)

Open Scope N_scope.

Definition ring (f : N -> N -> N) (a b : byte) : byte := byte_of_N (f (Byte.to_N a) (Byte.to_N b)).

#[export] Instance byte_scalars : ScalarOps := {|
  Scalar := byte; s0 := x00; s1 := x01; sadd := ring N.add; smul := ring N.mul;
  ssub := ring (fun a b => a + 256 - b); sopp := ring (fun _ b => 256 - b) x00; sinv a := a;
  scalar_dec := byte_eq_decision; scalar_wide b := hd x00 b
|}.

#[export] Instance byte_group : GroupOps := {|
  Point := byte; pid := x00; padd := ring N.add; popp := ring (fun _ b => 256 - b) x00; pmul := ring N.mul;
  point_dec := byte_eq_decision; compress p := replicate 31 x00 ++ [p]; basepoint := x01; hash_to_point b := hd x00 b
|}.

(** ** Encodings *)

#[export] Instance byte_points : PointCodec := fun b =>
  if bool_decide (take 31 b = replicate 31 x00) && (length b =? 32)%nat then last b else None.

#[export] Instance byte_point_laws : PointCodecLaws.
Proof.
  split; [done|done|]. intros b p. unfold decompress, byte_points. destruct (bool_decide _ && _) eqn:E; [|done].
  apply andb_true_iff in E as [E1%bool_decide_eq_true El%Nat.eqb_eq]. rewrite <- (take_drop 31 b) in El |- *.
  rewrite E1 in *. rewrite length_app in El. cbn in El. destruct (drop 31 b) as [|q [|? ?]]; try (cbn in El; lia).
  rewrite last_snoc. by intros [= ->].
Qed.

#[export] Instance byte_scalar_codec : ScalarCodec := {|
  scalar_to_bytes s := replicate 31 x00 ++ [s]; scalar_from_canonical := byte_points
|}.
#[export] Instance byte_scalar_laws : ScalarCodecLaws.
Proof. split; [done|done|]. intros b s. exact (compress_decompress (b : bytes) (s : byte)). Qed.

(** A sixty-four byte checksum as hash and as signature. *)
#[export] Instance sha512_model : Sha512 := fun m => hash_model m ++ hash_model (x01 :: m).
#[export] Instance sha512_model_laws : Sha512Laws.
Proof. split. intros m. unfold sha512, sha512_model. by rewrite length_app, !(sha256_length (Sha256Laws:=sha_model_laws)). Qed.

#[export] Instance frost_model : FrostVerify := {|
  FrostKeyPackage := bytes; FrostSignature := bytes;
  frost_verify key message signature := bool_decide (signature = sha512_model (key ++ message))
|}.

Definition sixty_four (b : bytes) : option bytes := if (length b =? 64)%nat then Some b else None.
#[export] Instance frost_codec : FrostCodec := {| signature_serialize := sixty_four; signature_deserialize := sixty_four |}.
#[export] Instance frost_codec_laws : FrostCodecLaws.
Proof.
  assert (forall a b, sixty_four a = Some b -> a = b /\ length a = 64%nat) as Hs.
  { intros a b. unfold sixty_four. destruct (Nat.eqb_spec (length a) 64); [|done]. by intros [= ->]. }
  split; cbn; intros a b E; pose proof (Hs _ _ E) as [-> Hl]; done.
Qed.

(** A one-node committee that signs with a checksum. *)
#[export] Instance quorum_model : QuorumOps := {|
  QuorumPolicy := bytes; QuorumApproval := bytes; policy_valid _ := true; policy_is_settlement _ := true;
  policy_classical_binding p := p; policy_nodes _ := [1]; policy_verify p a m _ := bool_decide (a = hash_model (p ++ m));
  policy_verify_archived p a m := bool_decide (a = hash_model (p ++ m)); approval_encode := Some; approval_decode := Some;
  FrostIdentifier := N; identifier_of := Some; package_serialize := Some; package_shares _ := [1]
|}.

(** ** Range proofs *)

#[export] Instance logging_transcript : TranscriptOps := {|
  Transcript := bytes; transcript_new label := label; append_message l m t := t ++ l ++ m;
  challenge_bytes l n t := (replicate n x05, t)
|}.

#[export] Instance byte_gens : PedersenGens := {| gens_B := x03; gens_B_blinding := x07 |}.

(** A value and its blinding in nine bytes. *)
Definition record_bytes (o : N * byte) : bytes := be_bytes 8 o.1 ++ [o.2].
Fixpoint records (b : bytes) : list (N * byte) :=
  match b with
  | a :: b :: c :: d :: e :: f :: g :: h :: r :: rest => (of_be_bytes [a; b; c; d; e; f; g; h], r) :: records rest
  | _ => []
  end.

Definition committed (o : N * byte) : bytes := compress (gens_B * scalar_of_N o.1 + gens_B_blinding * o.2)%P.
Definition in_range (bits : nat) (l : list N) : bool := forallb (fun v => v <? 2 ^ N.of_nat bits) l.

#[export] Instance open_proofs : Bulletproofs := {|
  BulletproofGens := nat * nat; gens_new capacity aggregate := (capacity, aggregate); Bulletproof := bytes;
  prove_multiple _ _ values blindings bits :=
    if in_range bits values
    then Some (concat (record_bytes <$> zip values blindings), committed <$> zip values blindings) else None;
  verify_multiple _ _ proof commitments bits :=
    in_range bits (records proof).*1 && bool_decide (committed <$> records proof = commitments);
  bulletproof_to_bytes p := p; bulletproof_from_bytes := Some
|}.

Lemma records_bytes l : Forall (fun o => o.1 < 2 ^ 64) l -> records (concat (record_bytes <$> l)) = l.
Proof.
  induction 1 as [|[v r] l Hv Hl IH]; [done|]. cbn [fmap list_fmap concat]. unfold record_bytes at 1. cbn [fst snd] in *.
  pose proof (of_be_bytes_be_small 8 v Hv) as E. pose proof (be_bytes_length 8 v) as Hlen.
  destruct (be_bytes 8 v) as [|a [|b [|c [|d [|e [|f [|g [|h [|? ?]]]]]]]]]; try done.
  cbn [app records]. by rewrite IH, E.
Qed.

#[export] Instance open_proof_laws : BulletproofLaws.
Proof.
  split. intros capacity aggregate transcript values blindings bits _ _ Hl _ Hb Hf. cbn.
  assert (in_range bits values = true) as Hr.
  { unfold in_range. apply forallb_forall. intros v Hv. apply list_elem_of_In in Hv. rewrite Forall_forall in Hf. by apply N.ltb_lt, Hf. }
  rewrite Hr. eexists. assert (forall (f : N -> byte -> bytes), zip_with f values blindings = uncurry f <$> zip values blindings) as Hz.
  { intros f. apply zip_with_zip. }
  rewrite Hz. split; [by f_equal; f_equal; apply list_fmap_ext; intros ? [] ?|]. rewrite records_bytes.
  - rewrite fst_zip by (apply Nat.eq_le_incl; symmetry; exact Hl). rewrite Hr. apply bool_decide_eq_true_2. apply list_fmap_ext. by intros ? [] ?.
  - apply Forall_forall. intros [v r] Hin. apply elem_of_zip_l in Hin. rewrite Forall_forall in Hf. apply Hf in Hin. cbn.
    apply N.lt_le_trans with (2 ^ N.of_nat bits); [done|]. apply N.pow_le_mono_r; [done|].
    rewrite !elem_of_cons in Hb. destruct Hb as [->|[->|[->|[->|Hb]]]]; [done..|]. by apply not_elem_of_nil in Hb.
Qed.

#[export] Instance evidence_codec_laws : EvidenceCodecLaws.
Proof. split; cbn; congruence. Qed.

Open Scope N_scope.

Module VenueRun.
Definition key : Pedersen := pedersen_new (bstr "zkpi").
Definition bounds : Bounds := mkBounds 8 16 1000.
Definition public : FrostKeyPackage := bstr "group".
Definition no_ranges : RangeCtx := mkRangeCtx (gens_new 0 0) 0.
Definition issuer : Issuer := default (mkIssuer key bounds no_ranges no_ranges []) (issuer_new key bounds).
Definition venue : Venue := default (mkVenue key [] no_ranges no_ranges [] ∅ 0 false None) (venue_new key bounds public).
Definition openings : Openings := mkOpenings x11 x22 x33.
Definition built := build_with_asset_scalar_and_openings issuer 5 700 x09 x21 x42 1500 (id32 x77) 12 openings.
Definition empty_partial : PartialInstruction :=
  mkPartialInstruction x00 x00 x00 (BulletproofEvidence [] [] []) x00 x00 0 [] (LegacyPackedKey 0).
Definition partial : PartialInstruction := (result_or ([], openings, empty_partial) built).2.
Definition digest : bytes := (result_or ([], openings, empty_partial) built).1.1.
Definition signature : FrostSignature := sha512_model ((public : bytes) ++ digest).
Definition payment : Instruction := sealed partial signature.

Definition no_proof : @Bulletproof _ _ _ open_proofs := @nil byte.

Lemma default_some {A} (d : A) (o : option A) : match o with Some _ => true | None => false end = true -> o = Some (default d o).
Proof. by destruct o. Qed.

Lemma issuer_ok : issuer_new key bounds = Some issuer.
Proof. apply default_some. vm_compute. reflexivity. Qed.
Lemma venue_ok : venue_new key bounds public = Some venue.
Proof. apply default_some. vm_compute. reflexivity. Qed.
Lemma built_ok : built = Ok (digest, openings, partial).
Proof.
  assert (exists d p, built = Ok (d, openings, p)) as (d & p & Hb).
  { unfold built, build_with_asset_scalar_and_openings.
    rewrite (result_or_ok (no_proof, []) (ctx_prove _ _ [5] _)) by (vm_compute; reflexivity). destruct (result_or _ _). cbn [mbind result_bind].
    rewrite (result_or_ok (no_proof, []) (ctx_prove _ _ [700] _)) by (vm_compute; reflexivity). destruct (result_or _ _). cbn [mbind result_bind]. eauto. }
  unfold digest, partial. rewrite Hb. done.
Qed.

Lemma issued_instruction_settles_witness :
  is_ok built = true
  /\ exists venue', settle venue payment 1000 = (venue', Ok tt) /\ settle venue' payment 1000 = (venue', Err "already settled").
Proof.
  destruct (issued_instruction_settles (bstr "zkpi") bounds public issuer venue 1000 5 700 x09 x21 x42 1500 (id32 x77) 12 openings
    issuer_ok venue_ok ltac:(vm_compute; discriminate) ltac:(vm_compute; discriminate)) as [Hb Hs].
  split; [exact Hb|]. apply (Hs digest openings partial signature built_ok); [vm_compute; split; discriminate | discriminate | vm_compute; reflexivity].
Defined.

Definition settled_venue : Venue := spend venue (nullifier payment).

Lemma settle_ok : settle venue payment 1000 = (settled_venue, Ok tt).
Proof.
  assert ((settle venue payment 1000).2 = Ok tt) as E by (vm_compute; reflexivity).
  unfold settle, settled_venue in *. destruct (verify venue payment 1000) as [[]|]; done.
Qed.

Lemma settled_record_refused_witness : verify_archived settled_venue payment = Err "already settled".
Proof. apply (settled_record_refused venue payment 1000 settled_venue settle_ok). vm_compute. discriminate. Defined.

(** Settled, refused as a replay, then refused under a stricter policy. *)
Definition ops : list VenueOp := [OpSettle payment 1000; OpSettle payment 1000; OpRequireThreshold; OpSettle payment 3000].
Definition ran := venue_run venue ops.

Lemma nullifier_settles_once_witness :
  NoDup (settled ops ran.2) /\ spent_count ran.1 = 1%nat.
Proof.
  destruct (nullifier_settles_once venue ops ran.1 ran.2 (surjective_pairing ran)) as (Hnd & _ & _ & Hc & _).
  split; [exact Hnd|]. etrans; [exact Hc|]. vm_compute. reflexivity.
Defined.

(** ** Typed instructions *)

Definition zero : bytes := id32 x00.
Definition context : ExecutionContext :=
  mkExecutionContext Settle JointScope TakerBuys (id32 x01) (id32 x02) x42 x21 x63 (id32 x03) 1 (id32 x04) 2 (id32 x05)
    (id32 x06) (id32 x07) (id32 x08) (id32 x09) (id32 x0a) (id32 x0b) (id32 x0c) (id32 x0d).
Definition authorization : FrostSignature := sha512_model ((public : bytes) ++ sha512_model (typed_message payment context DEFAULT_DOMAIN)).
Definition typed : TypedInstruction := mkTypedInstruction payment context authorization None.

Lemma payment_typed : instruction_typed payment.
Proof. vm_compute. repeat split; discriminate. Qed.

Lemma context_widths : context_typed context.
Proof. split; [repeat constructor | split; vm_compute; discriminate]. Qed.

Lemma digests_bind_witness :
  (DEFAULT_DOMAIN = DEFAULT_DOMAIN /\ signed_fields payment = signed_fields payment /\ context = context)
  \/ clash (signed_message DEFAULT_DOMAIN payment) (signed_message DEFAULT_DOMAIN payment)
  \/ clash (typed_message payment context DEFAULT_DOMAIN) (typed_message payment context DEFAULT_DOMAIN).
Proof.
  destruct (digests_bind DEFAULT_DOMAIN DEFAULT_DOMAIN payment payment context context (sha512 (typed_message payment context DEFAULT_DOMAIN))
    ltac:(vm_compute; discriminate) ltac:(vm_compute; discriminate) payment_typed payment_typed context_widths context_widths) as [_ Ht].
  apply Ht; vm_compute; reflexivity.
Defined.

Definition raw : bytes := default [] (InstructionWire.encode payment).
Definition typed_raw : bytes := default [] (encode typed).

Lemma payment_message : message_typed payment.
Proof.
  split; [|exact I]. split; [exact payment_typed|]. split; [|split; [reflexivity | eexists; vm_compute; reflexivity]].
  vm_compute. repeat split; repeat constructor; discriminate.
Qed.

Lemma raw_decodes : InstructionWire.decode raw = Ok payment.
Proof.
  apply decode_ok. split; [exact payment_message|]. unfold raw. by rewrite (message_encodes payment payment_message).
Qed.

Lemma instruction_wire_exact_witness : InstructionWire.decode raw = Ok payment.
Proof. apply instruction_wire_exact. split; [exact payment_message | vm_compute; reflexivity]. Defined.

Lemma typed_message_ok : typed_typed typed.
Proof.
  split; [exact payment_message|]. split; [vm_compute; discriminate|]. split; [exact context_widths|].
  split; [eexists; vm_compute; reflexivity | reflexivity].
Qed.

Lemma typed_wire_exact_witness :
  decode_context (encode_context context) payment = Ok context /\ decode typed_raw = Ok typed.
Proof.
  destruct typed_wire_exact as [Hc Ht]. split.
  - apply Hc. split; [exact context_widths|]. split; [reflexivity | vm_compute; reflexivity].
  - apply Ht. split; [exact typed_message_ok|]. split; vm_compute; reflexivity.
Defined.

Lemma wires_refuse_other_lengths_witness :
  InstructionWire.decode (raw ++ [x00]) = Err (InstructionWire.Trailing 1)
  /\ is_ok (InstructionWire.decode (take 100 raw)) = false.
Proof.
  destruct wires_refuse_other_lengths as (Hi & _ & _ & Hs). split.
  - apply (Hi raw [x00] payment); [exact raw_decodes | discriminate].
  - exact (proj1 (Hs raw (take 100 raw) (drop 100 raw) typed payment payment context
      ltac:(by rewrite take_drop) ltac:(vm_compute; discriminate)) raw_decodes).
Defined.
End VenueRun.
