(* ===== verification/AuditWitnesses.v ===== *)
(** * Runs of the audit ledger and of the publication ledger

    A committee of three whose nodes settle a slot and then sign another state
    for it, a forged receipt, and a publication ledger that opens, takes a
    budget and publishes, with the stored values encoded one byte per bit. *)

From S2P Require Import Prelude.
From S2P Require Import Interfaces.
From S2P Require Import Instances.
From S2P Require Import Threshold.
From S2P Require Import Receipts.
From S2P Require Import Json.
From S2P Require Import OutboxStore.
From S2P Require Import OutboxWitnesses.
From S2P Require Import Mechanism.
From S2P Require Import PublicationLedger.
From S2P Require Import PublicationProofs.

Open Scope N_scope.

#[export] Instance audit_purpose_model : AuditPurpose := 9.

Module AuditRun.
Definition signer (n : byte) : HybridSigner := id32 n ++ id32 n.
Definition keys : gmap N bytes :=
  {[0 := hybrid_public_key (signer x00); 1 := hybrid_public_key (signer x01); 2 := hybrid_public_key (signer x02)]}.
Definition spec : SlotSpec := mkSlotSpec 1 (id32 x10) (id32 x11) 100 2.
Definition blank_receipt : NodeReceipt := mkNodeReceipt 0 0 [] [] 0 [] [] [] 0 [].
Definition receipt (node : N) (key : byte) (state : byte) : NodeReceipt :=
  result_or blank_receipt (sign_receipt (signer key) node spec (id32 x20) (id32 state) (id32 x30) 50 None).
Definition first_ops : list AuditOp :=
  [OpOpen spec; OpRecord (receipt 0 x00 x41) None; OpRecord (receipt 1 x01 x41) (Some 60)].
Definition second_ops : list AuditOp :=
  [OpRecord (receipt 0 x00 x42) None; OpRecord (receipt 1 x01 x42) None; OpRecord (receipt 2 x02 x42) None].
Definition settled (l : AuditLedger) := result_or (l, None, []) (settle_slot l 1 90).
Definition l1 : AuditLedger := audit_run (audit_new keys) first_ops.
Definition l1' : AuditLedger := (settled l1).1.1.
Definition l2 : AuditLedger := audit_run l1' second_ops.
Definition forged : NodeReceipt := with_signature (receipt 2 x02 x41) [x00].

(** The settlements as equations, their states compared as booleans. *)
Lemma settled_ok l s :
  is_ok (settle_slot l 1 90) = true -> (settled l).1.2 = Some s -> settle_slot l 1 90 = Ok ((settled l).1.1, Some s, (settled l).2).
Proof.
  intros Ho Hs. rewrite (result_or_ok (l, None, []) _ Ho) at 1. fold (settled l).
  destruct (settled l) as [[x y] z]. cbn in *. by subst.
Qed.

Lemma first_settled : settle_slot l1 1 90 = Ok (l1', Some (id32 x41), (settled l1).2).
Proof. apply settled_ok; vm_compute; reflexivity. Qed.
Lemma second_settled : settle_slot l2 1 90 = Ok ((settled l2).1.1, Some (id32 x42), (settled l2).2).
Proof. apply settled_ok; vm_compute; reflexivity. Qed.

(** Every receipt on record passes a boolean test. *)
Lemma existing_all (p : NodeReceipt -> bool) l slot :
  forallb (fun e => forallb p e.2) (map_to_list (default ∅ (al_by_slot l !! slot))) = true ->
  forall node r, r ∈ existing l slot node -> p r = true.
Proof.
  intros Hall node r Hr. unfold existing in Hr. destruct (default ∅ (al_by_slot l !! slot) !! node) as [rs|] eqn:E;
    [|by apply not_elem_of_nil in Hr]. apply elem_of_map_to_list in E.
  rewrite forallb_forall in Hall. specialize (Hall (node, rs) (proj1 (list_elem_of_In _ _) E)). cbn in Hall.
  rewrite forallb_forall in Hall. apply Hall. by apply list_elem_of_In.
Qed.

Definition typed (r : NodeReceipt) : bool :=
  forallb (fun d => (length d =? 32)%nat) [nr_mm_set_digest r; nr_prev_state_digest r; nr_new_state_digest r; nr_result_digest r].
Lemma typed_ok r : typed r = true -> receipt_typed r.
Proof.
  unfold typed, receipt_typed. intros Ht. rewrite forallb_forall in Ht. apply Forall_forall. intros d Hd.
  apply Nat.eqb_eq, Ht. by apply list_elem_of_In.
Qed.

Lemma typed_receipts : forall node r, r ∈ existing l2 1 node -> receipt_typed r.
Proof. intros node r Hr. apply typed_ok. revert node r Hr. apply existing_all. vm_compute. reflexivity. Qed.
Lemma first_spec : al_specs l1 !! 1 = Some spec.
Proof. vm_compute. reflexivity. Qed.
Lemma second_spec : al_specs l2 !! 1 = Some spec.
Proof. vm_compute. reflexivity. Qed.
Lemma quorums_large : (size keys < sp_required_receipts spec + sp_required_receipts spec)%nat.
Proof. apply Nat.ltb_lt. vm_compute. reflexivity. Qed.
Lemma states_differ : id32 x41 <> id32 x42.
Proof. discriminate. Qed.

Lemma conflicting_settlements_name_equivocators_witness :
  (exists e a b, e ∈ al_evidence (audit_run l1' second_ops) /\ ev_fault e = Equivocation /\ ev_slot e = 1 /\ ev_exhibits e = [a; b]
     /\ signed_by keys e a /\ signed_by keys e b
     /\ ((nr_new_state_digest a = id32 x41 /\ nr_new_state_digest b = id32 x42)
         \/ (nr_new_state_digest a = id32 x42 /\ nr_new_state_digest b = id32 x41)))
  \/ (exists node a b, a ∈ existing (audit_run l1' second_ops) 1 node /\ b ∈ existing (audit_run l1' second_ops) 1 node /\ content_clash a b).
Proof.
  exact (conflicting_settlements_name_equivocators keys first_ops second_ops 1 90 90 l1' (settled l2).1.1 (id32 x41) (id32 x42)
    (settled l1).2 (settled l2).2 spec spec first_settled second_settled first_spec second_spec quorums_large states_differ typed_receipts).
Defined.

Lemma settlement_has_quorum_witness :
  exists nodes : gset N, (2 <= size nodes)%nat /\ forall node, node ∈ nodes ->
    exists r key, keys !! node = Some key /\ receipt_verifies key r = true /\ nr_node r = node /\ nr_slot r = 1
      /\ nr_new_state_digest r = id32 x41 /\ counts l1 spec 1 node r = true.
Proof.
  destruct (settlement_has_quorum keys first_ops 1 90) as [_ Hq].
  destruct (Hq _ _ _ first_settled) as (sp & Hsp & _ & Hn & _).
  assert (al_specs l1 !! 1 = Some spec) as Hs by (vm_compute; reflexivity).
  unfold l1 in Hs. rewrite Hs in Hsp. injection Hsp as <-. exact Hn.
Defined.

(** Node 0 omits a maker, node 1 equivocates, node 2 sends nothing in time. *)
Definition omitting : NodeReceipt :=
  result_or blank_receipt (sign_receipt (signer x00) 0 spec (id32 x20) (id32 x41) (id32 x30) 50 (Some (id32 x12))).
Definition faulty_ops : list AuditOp :=
  [OpOpen spec; OpRecord omitting None; OpRecord (receipt 0 x00 x42) None; OpRecord (receipt 1 x01 x41) (Some 60);
   OpRecord (receipt 1 x01 x42) None; OpRecord forged None; OpSettle 1 90].
Definition faulty : AuditLedger := audit_run (audit_new keys) faulty_ops.

Example faulty_evidence : (fun e => (ev_fault e, ev_node e)) <$> al_evidence faulty =
  [(OmittedMakers, 0%Z); (Equivocation, 0%Z); (Equivocation, 1%Z); (BadSignature, 2%Z); (MissingReceipt, 2%Z); (ForkedState, 1%Z)].
Proof. vm_compute. reflexivity. Qed.


Definition bonds : gmap N N := {[2 := 400000]}.

Lemma forged_receipt_slashes_witness :
  bl_bonds (apply_evidence (bonds_new bonds) (record l1 forged None).2).1 !! 2 = Some 150000.
Proof.
  apply (forged_receipt_slashes l1 forged None spec (hybrid_public_key (signer x02)) bonds 400000); vm_compute; (reflexivity || discriminate).
Defined.

Lemma slashing_conserves_witness :
  total_bonds (bonds_new bonds) =
    total_bonds (apply_evidence (bonds_new bonds) (record l1 forged None).2).1
    + total_slashed (apply_evidence (bonds_new bonds) (record l1 forged None).2).2.
Proof.
  exact (proj1 (slashing_conserves (bonds_new bonds) (record l1 forged None).2 _ _ (surjective_pairing _))).
Defined.
End AuditRun.

(** ** Encodings *)

#[export] Instance hex_decode_model : HexDecode := fun s => Some (unhex_model s).
#[export] Instance hex_round_model : HexRoundTrip.
Proof. intros d. unfold hex_decode, hex_decode_model. f_equal. apply unhex_hex_model. Qed.

(** Objects with scalar fields, one byte per bit of an encoding. *)
Definition scalar_code (j : Json) : N * Z * string :=
  match j with
  | JNull => (0, 0%Z, EmptyString)
  | JBool b => (1, Z.b2z b, EmptyString)
  | JNum z => (2, z, EmptyString)
  | JStr s => (3, 0%Z, s)
  | _ => (4, 0%Z, EmptyString)
  end.
Definition json_code (j : Json) : list (string * (N * Z * string)) :=
  match j with JObj fields => (fun f => (f.1, scalar_code f.2)) <$> fields | j => [(EmptyString, scalar_code j)] end.
#[export] Instance json_model : JsonVec := fun j => Ok (OutboxRun.positive_bytes (encode (json_code j))).
#[export] Instance json_model_laws : JsonLaws.
Proof.
  split. intros fields fields' raw _ _ Hs Hs' Hr Hr'. unfold json_to_vec, json_model in *. rewrite <- Hr in Hr'. apply Ok_inj in Hr'.
  apply (f_equal OutboxRun.positive_of_bytes) in Hr'. rewrite !OutboxRun.positive_bytes_back in Hr'. apply (inj encode) in Hr'. cbn in Hr'. clear Hr.
  revert fields' Hs' Hr'. induction Hs as [|[k j] fields Hj Hs IH]; intros [|[k' j'] fields'] Hs' Hr'; try discriminate Hr'; [done|].
  cbn in Hr'. injection Hr' as Hk Hc Hr'. apply Forall_cons in Hs' as [Hj' Hs']. rewrite (IH fields' Hs' Hr'). subst k. do 2 f_equal.
  destruct j, j'; cbn in *; try done; injection Hc; intros; subst; try done. by destruct b, b0.
Qed.

(** The state as a tree of leaves, whose encoding stays linear in their size. *)
Definition leaf : Type := string + bytes + Z.
Definition tstr (s : string) : gen_tree leaf := GenLeaf (inl (inl s)).
Definition tbytes (b : bytes) : gen_tree leaf := GenLeaf (inl (inr b)).
Definition tnum (n : N) : gen_tree leaf := GenLeaf (inr (Z.of_N n)).

Definition statement_tree (s : PublicationStatement) : gen_tree leaf :=
  GenNode 0 [tbytes (ps_operation_id s); tbytes (ps_budget_scope s); tstr (ps_venue s); tnum (ps_epoch s); tnum (ps_slot_start s);
    tnum (ps_slot_end s); tbytes (ps_source_digest s); tbytes (ps_rule_digest s); tbytes (ps_mechanism_digest s);
    tbytes (ps_private_input_commitment s); tbytes (ps_transcript_digest s); tstr (ps_output_name s); GenLeaf (inr (ps_output_value s));
    tnum (ps_epsilon_micros s); tnum (ps_delta_numerator s); tnum (ps_delta_denominator s); tnum (ps_budget_total_micros s);
    tnum (ps_budget_before_micros s); tnum (ps_budget_after_micros s); tbytes (ps_previous_certificate s)].
Definition ubytes (t : gen_tree leaf) : bytes := match t with GenLeaf (inl (inr b)) => b | _ => [] end.
Definition ustr (t : gen_tree leaf) : string := match t with GenLeaf (inl (inl s)) => s | _ => EmptyString end.
Definition unum (t : gen_tree leaf) : N := match t with GenLeaf (inr z) => Z.to_N z | _ => 0 end.
Definition uint (t : gen_tree leaf) : Z := match t with GenLeaf (inr z) => z | _ => 0%Z end.
Definition statement_of (t : gen_tree leaf) : PublicationStatement :=
  match t with
  | GenNode _ [a; b; c; d; e; f; g; h; i; j; k; l; m; n; o; p; q; r; s; t] =>
      mkPublicationStatement (ubytes a) (ubytes b) (ustr c) (unum d) (unum e) (unum f) (ubytes g) (ubytes h) (ubytes i) (ubytes j)
        (ubytes k) (ustr l) (uint m) (unum n) (unum o) (unum p) (unum q) (unum r) (unum s) (ubytes t)
  | _ => mkPublicationStatement [] [] EmptyString 0 0 0 [] [] [] [] [] EmptyString 0 0 0 0 0 0 0 []
  end.
Lemma unum_tnum n : unum (tnum n) = n.
Proof. apply N2Z.id. Qed.
Lemma statement_of_tree s : statement_of (statement_tree s) = s.
Proof. destruct s. cbn -[tnum]. by rewrite !unum_tnum. Qed.

Definition signatures_tree (l : list StoredSignature) : gen_tree leaf :=
  GenNode 0 ((fun s => GenNode 0 [tstr (ss_node_id s); tstr (ss_signature s)]) <$> l).
Definition signatures_of (t : gen_tree leaf) : list StoredSignature :=
  match t with
  | GenNode _ l => (fun t => match t with GenNode _ [a; b] => mkStoredSignature (ustr a) (ustr b) | _ => mkStoredSignature EmptyString EmptyString end) <$> l
  | _ => []
  end.
Lemma signatures_of_tree l : signatures_of (signatures_tree l) = l.
Proof. cbn. induction l as [|[a b] l IH]; [done|]. cbn in *. by rewrite IH. Qed.

Definition record_tree (r : BudgetRecord) : gen_tree leaf :=
  let a := br_allocation r in
  GenNode 0 [tbytes (ba_budget_scope a); tstr (ba_venue a); tstr (ba_output_name a); tnum (ba_total_micros a); tnum (ba_policy_version a);
    signatures_tree (br_allocation_signatures r); tnum (br_spent_micros r); tnum (br_last_epoch r);
    match br_latest r with
    | None => GenNode 0 []
    | Some c => GenNode 0 [statement_tree (sc_statement c); signatures_tree (sc_signatures c)]
    end].
Definition no_record : BudgetRecord := mkBudgetRecord (mkBudgetAllocation [] EmptyString EmptyString 0 0) [] 0 0 None.
Definition record_of (t : gen_tree leaf) : BudgetRecord :=
  match t with
  | GenNode _ [a; b; c; d; e; f; g; h; i] =>
      mkBudgetRecord (mkBudgetAllocation (ubytes a) (ustr b) (ustr c) (unum d) (unum e)) (signatures_of f) (unum g) (unum h)
        match i with GenNode _ [s; l] => Some (mkStoredCertificate (statement_of s) (signatures_of l)) | _ => None end
  | _ => no_record
  end.
Lemma record_of_tree r : record_of (record_tree r) = r.
Proof.
  destruct r as [[] sigs x y latest]. cbn -[tnum signatures_of statement_of signatures_tree statement_tree].
  rewrite !unum_tnum, signatures_of_tree. destruct latest as [[s l]|]; [|done]. cbn -[signatures_of statement_of signatures_tree statement_tree].
  by rewrite statement_of_tree, signatures_of_tree.
Qed.

(** A map as the list of its entries. *)
Definition entries_tree {V} (f : V -> gen_tree leaf) (m : gmap string V) : gen_tree leaf :=
  GenNode 0 ((fun kv => GenNode 0 [tstr kv.1; f kv.2]) <$> map_to_list m).
Definition entries_of {V} (g : gen_tree leaf -> V) (t : gen_tree leaf) : gmap string V :=
  match t with
  | GenNode _ l => list_to_map (omap (fun t => match t with GenNode _ [k; v] => Some (ustr k, g v) | _ => None end) l)
  | _ => ∅
  end.
Lemma entries_of_tree {V} (f : V -> gen_tree leaf) (g : gen_tree leaf -> V) (m : gmap string V) :
  (forall v, g (f v) = v) -> entries_of g (entries_tree f m) = m.
Proof.
  intros Hg. unfold entries_of, entries_tree. rewrite <- (list_to_map_to_list m) at 2. f_equal.
  induction (map_to_list m) as [|[k v] l IH]; [done|]. cbn. rewrite Hg. f_equal. exact IH.
Qed.

Definition state_tree (s : LedgerState) : gen_tree leaf :=
  GenNode 0 [tnum (ls_version s); tnum (ls_generation s); entries_tree record_tree (ls_budgets s); entries_tree tstr (ls_operations s)].
Definition state_of (t : gen_tree leaf) : option LedgerState :=
  match t with
  | GenNode _ [a; b; c; d] => Some (mkLedgerState (unum a) (unum b) (entries_of record_of c) (entries_of ustr d))
  | _ => None
  end.
Lemma state_of_tree s : state_of (state_tree s) = Some s.
Proof.
  destruct s as [v g b o]. cbn -[tnum entries_of entries_tree]. rewrite !unum_tnum, !entries_of_tree; [done|done|]. apply record_of_tree.
Qed.

#[export] Instance allocation_serialize : Serialize BudgetAllocation := fun a =>
  Ok (OutboxRun.positive_bytes (encode (record_tree (mkBudgetRecord a [] 0 0 None)))).
#[export] Instance ledger_serialize : Serialize LedgerState := fun s => Ok (OutboxRun.positive_bytes (encode (state_tree s))).
#[export] Instance ledger_deserialize : Deserialize LedgerState := fun raw =>
  t ← decode (OutboxRun.positive_of_bytes raw); state_of t.
#[export] Instance ledger_serde : SerdeLaws LedgerState.
Proof.
  split. intros s raw Hraw. apply Ok_inj in Hraw as <-. unfold from_slice, ledger_deserialize.
  rewrite OutboxRun.positive_bytes_back, decode_encode. apply state_of_tree.
Qed.

Module PublicationRun.
Import MechanismRun.
#[local] Existing Instance run_libm.

Definition committee : gmap string HybridSigner :=
  list_to_map [("n1", AuditRun.signer x01); ("n2", AuditRun.signer x02); ("n3", AuditRun.signer x03); ("n4", AuditRun.signer x04);
    ("n5", AuditRun.signer x05); ("n6", AuditRun.signer x06); ("n7", AuditRun.signer x07)].
Definition registry : gmap string bytes := hybrid_public_key <$> committee.
Definition io : LedgerIo := mkLedgerIo None None None true None Store.Written.
Definition opened := open_with_registries registry 3 registry 3 io None.
Definition ledger : PublicationLedger := mkPublicationLedger registry 3 registry 3.
Definition mechanism : DpMechanism := mkDpMechanism 25000000 1 2 "distributed-discrete-laplace-v1".
Definition allocation : BudgetAllocation := mkBudgetAllocation (id32 x50) "venue" "volume" 60000000 1.
Definition request : PublicationRequest :=
  mkPublicationRequest (id32 x51) (id32 x50) "venue" 1 0 9 (id32 x52) (id32 x53) (id32 x54) (id32 x55) "volume" 12.
Definition signatures_on (body : bytes) : list NodeSignature :=
  (fun '(n, k) => mkNodeSignature n (result_or [] (hybrid_sign k audit_checkpoint body))) <$> take 3 (btree_iter committee).
Definition sign (s : PublicationStatement) : result string (list NodeSignature) :=
  body ← statement_body s; Ok (signatures_on body ++ [mkNodeSignature "n4" [x00]]).
Definition calls : list (LedgerCall * LedgerIo) :=
  [(Configure allocation (signatures_on (result_or [] (allocation_body allocation))), io); (Publish request mechanism sign, io)].

Lemma opened_ok : opened = (opened.1, Ok ledger).
Proof. vm_compute. reflexivity. Qed.

Lemma privacy_budget_holds_witness :
  length (ledger_run ledger opened.1 calls).2 = 1%nat /\
  exists raw st hist, (ledger_run ledger opened.1 calls).1 = Some raw /\ from_slice raw = Some st /\ ledger_inv ledger hist st /\
    forall c, c ∈ (ledger_run ledger opened.1 calls).2 -> c ∈ hist.
Proof.
  split; [vm_compute; reflexivity|]. exact (privacy_budget_holds registry 3 registry 3 io opened.1 ledger calls opened_ok).
Defined.

(** ** Certificates *)

Definition statement : PublicationStatement :=
  mkPublicationStatement (id32 x51) (id32 x50) "venue" 1 0 9 (id32 x52) (id32 x53) (id32 x56) (id32 x54) (id32 x55) "volume" 12
    25000000 1 1000 60000000 0 25000000 ZERO32.
Definition certificate : PublicationCertificate :=
  result_or (mkPublicationCertificate statement []) (certify statement committee).

Lemma certified_statement_verifies_witness : certificate_verify certificate registry 3 None = true.
Proof.
  apply (certified_statement_verifies statement committee 3 None certificate).
  - apply result_or_ok. vm_compute. reflexivity.
  - vm_compute. reflexivity.
  - split; apply Nat.leb_le; vm_compute; reflexivity.
  - vm_compute. reflexivity.
Defined.

Lemma certificate_ok : certificate_verify certificate registry 3 None = true.
Proof. vm_compute. reflexivity. Qed.

Lemma certificate_verifies_iff_witness :
  exists body (nodes : gset string), statement_body (pc_statement certificate) = Ok body /\ (3 <= size nodes)%nat /\
    forall node, node ∈ nodes -> exists s key, first_signature (pc_signatures certificate) node = Some s /\
      registry !! node = Some key /\ hybrid_verify audit_checkpoint key body (ns_signature s) = true.
Proof.
  destruct (proj1 (certificate_verifies_iff certificate registry 3 None) certificate_ok)
    as (_ & _ & _ & _ & body & nodes & Hb & _ & Hn & Hs). exists body, nodes. split; [exact Hb|]. split; [exact Hn|exact Hs].
Defined.

(** ** A budget blocked by a short signature *)

Lemma default_of {A} (d : A) (o : option A) : match o with Some _ => true | None => false end = true -> o = Some (default d o).
Proof. by destruct o. Qed.

Definition raw : bytes := default [] (ledger_run ledger opened.1 calls).1.
Definition state : LedgerState := default (mkLedgerState 0 0 ∅ ∅) (from_slice raw).
Definition key : string := budget_key (id32 x50) "venue" "volume".
Definition budget : BudgetRecord := default no_record (ls_budgets state !! key).
Definition accepted : PublicationCertificate := default (mkPublicationCertificate statement []) (head (ledger_run ledger opened.1 calls).2).
Definition next_request : PublicationRequest :=
  mkPublicationRequest (id32 x61) (id32 x50) "venue" 2 10 19 (id32 x52) (id32 x53) (id32 x54) (id32 x55) "volume" 13.

Lemma short_signature_blocks_budget_witness :
  exists e, publish_with ledger next_request mechanism sign io (Some raw) = (Some raw, Err e).
Proof.
  apply (short_signature_blocks_budget ledger state raw accepted budget next_request mechanism sign io).
  - apply default_of. vm_compute. reflexivity.
  - apply default_of. vm_compute. reflexivity.
  - vm_compute. reflexivity.
  - exists (mkNodeSignature "n4" [x00]). split; [|discriminate].
    assert (last (pc_signatures accepted) = Some (mkNodeSignature "n4" [x00])) as Hl by (vm_compute; reflexivity).
    exact (last_Some_elem_of _ _ Hl).
Defined.
End PublicationRun.
