(* ===== verification/MandateWitnesses.v ===== *)
(** * Runs of the mandates and of the standing pools

    A maker's and a taker's mandate, signed, carried on their wires and
    verified, a pool of nine that pays two child escrows, the wires of the proof
    rounds, the evidence of a quote, a disputed quote, and an acknowledgement of
    two reservations. *)

From S2P Require Import Prelude.
From S2P Require Import Interfaces.
From S2P Require Import ApplicationCrypto.
From S2P Require Import Instances.
From S2P Require Import Curve.
From S2P Require Import Reader.
From S2P Require Import Membership.
From S2P Require Import Json.
From S2P Require Import Kyb.
From S2P Require Import Mandate.
From S2P Require Import StandingPool.
From S2P Require Import VenueWitnesses.
From S2P Require Import Threshold.
From S2P Require Import Gadgets.
From S2P Require Import JointProver.
From S2P Require Import ThresholdRange.
From S2P Require Import Issuers.
From S2P Require Import RoundWire.
From S2P Require Import RoundWireProofs.
From S2P Require Import Sigma.
From S2P Require Import Quote.
From S2P Require Import ThresholdQuote.
From S2P Require Import QuoteExchange.
From S2P Require Import ProofCodec.
From S2P Require Import AuditWitnesses.
From S2P Require Import OutboxWitnesses.
From S2P Require Import Optimistic.
From S2P Require Import OptimisticTheorems.
From S2P Require Import OrderWitnesses.
From S2P Require Import QuoteAuthorization.
From S2P Require Import PretradeAuthority.

Open Scope N_scope.

Module MandateRun.
Import Mandate.
#[local] Instance mandate_keys : Ed25519Keys := fun _ => true.

Definition signing : App.SigningKey := App.from_bytes (id32 x01 ++ id32 x02).
Definition issuer : HybridSigner := id32 x03 ++ id32 x04.
Definition attributes : Kyb.BusinessAttributes := Kyb.mkBusinessAttributes "JP" "bank" 2.
Definition cohort : string := "JP/bank/tier>=1".
Definition no_credential : Kyb.KybCredential := Kyb.mkKybCredential EmptyString x00 x00 attributes [].
Definition credential : Kyb.KybCredential := result_or no_credential (Kyb.from_secret_scalar "group" attributes 3 x06).
Definition no_registry : Kyb.SignedCohortRegistry := Kyb.mkSignedCohortRegistry EmptyString 0 0 [] [] [] [].
Definition registry : Kyb.SignedCohortRegistry :=
  result_or no_registry (Kyb.registry_issue cohort 1 100 [Kyb.public_point credential] issuer).
#[local] Instance counting_bytes : ScalarRandom N := fun n => (byte_of_N n, n + 1).
Definition no_presentation : Kyb.KybPresentation := Kyb.mkKybPresentation EmptyString [] [] [] (OrDleq.mkProof x00 [] []).
Definition presentation : Kyb.KybPresentation :=
  (result_or (no_presentation, 0) (Kyb.present credential registry [x01] [x02] 11)).1.

Definition public : bytes := App.verifying_key signing.
Definition unsigned_maker : MakerPolicyMandate :=
  mkMaker (id32 x01) (id32 x02) (id32 x03) 1 (id32 x04) TakerBuys (id32 x05) (id32 x06) (compress (x07 : Point))
    (Kyb.entity_commitment presentation) (Kyb.binding_digest presentation) 10 90 true public [].
Definition unsigned_taker : TakerExecutionMandate :=
  mkTaker (id32 x01) (id32 x02) (id32 x03) (id32 x04) (id32 x05) TakerSells (id32 x06) (id32 x07) (id32 x08) (id32 x09) (id32 x0a)
    (compress (x0b : Point)) (Kyb.entity_commitment presentation) (Kyb.binding_digest presentation) (id32 x0c) 7 (id32 x0d) 80 false true public [].
Definition maker : MakerPolicyMandate := result_or unsigned_maker (maker_sign unsigned_maker signing).
Definition taker : TakerExecutionMandate := result_or unsigned_taker (taker_sign unsigned_taker signing).
Definition maker_raw : bytes := result_or [] (encode_maker_mandate maker).
Definition taker_raw : bytes := result_or [] (encode_taker_mandate taker).

Lemma maker_encoded : encode_maker_mandate maker = Ok maker_raw.
Proof. apply result_or_ok. vm_compute. reflexivity. Qed.
Lemma taker_encoded : encode_taker_mandate taker = Ok taker_raw.
Proof. apply result_or_ok. vm_compute. reflexivity. Qed.
Lemma maker_widths : maker_typed maker.
Proof. split; [vm_compute; repeat constructor | vm_compute; repeat split; discriminate]. Qed.
Lemma taker_widths : taker_typed taker.
Proof. split; [vm_compute; repeat constructor | vm_compute; repeat split; discriminate]. Qed.
Lemma maker_signed : maker_verify_signature maker = Ok tt.
Proof. vm_compute. reflexivity. Qed.
Lemma taker_signed : taker_verify_signature taker = Ok tt.
Proof. vm_compute. reflexivity. Qed.

Lemma mandate_wires_exact_witness :
  decode_maker_mandate maker_raw = Ok maker /\ decode_taker_mandate taker_raw = Ok taker /\ is_ok (decode_taker_mandate maker_raw) = false.
Proof.
  destruct (mandate_wires_exact maker_raw maker taker) as (Hm & _ & Hd). destruct (mandate_wires_exact taker_raw maker taker) as (_ & Ht & _).
  assert (decode_maker_mandate maker_raw = Ok maker) as H1 by (apply Hm; exact (conj maker_widths (conj maker_encoded maker_signed))).
  split; [exact H1|]. split; [|exact (Hd H1)]. apply Ht. exact (conj taker_widths (conj taker_encoded taker_signed)).
Defined.

Lemma maker_verifies : maker_verify maker presentation registry (hybrid_public_key issuer) [x01] [x02] cohort 50 = Ok tt.
Proof. vm_compute. reflexivity. Qed.

Lemma mandate_verifies_iff_witness :
  Kyb.verify_presentation presentation registry (hybrid_public_key issuer) [x01] [x02] 50 cohort = Ok tt /\
  App.verify public (MAKER_DOMAIN ++ maker_body maker) (m_signature maker) = Ok tt /\
  unsigned_maker = maker_with maker [] /\ unsigned_taker = taker_with taker [].
Proof.
  destruct (mandate_verifies_iff maker taker presentation registry (hybrid_public_key issuer) [x01] [x02] cohort 50)
    as (Hm & _ & Hmaker & Htaker & _).
  destruct (proj1 Hm maker_verifies) as (_ & (Hp & _) & _ & Hs). split; [exact Hp|]. split; [exact Hs|]. split.
  - apply (Hmaker unsigned_maker (result_or [] (maker_unsigned maker))); [exact maker_widths|exact maker_widths| |];
      apply result_or_ok; vm_compute; reflexivity.
  - apply (Htaker unsigned_taker (result_or [] (taker_unsigned taker))); [exact taker_widths|exact taker_widths| |];
      apply result_or_ok; vm_compute; reflexivity.
Defined.
End MandateRun.

(** ** Pools *)

Module PoolRun.
Import Pool.
#[local] Instance hex_sealed : SealedMessages := {|
  SealedMessage := bytes; sealed_validate _ := Ok tt; sealed_binding b := b;
  opening_to_json o := match o with Some b => JStr (hex_model b) | None => JNull end;
  opening_from_json j := match j with JStr s => Ok (Some (unhex_model s)) | JNull => Ok None | _ => Err "note opening" end
|}.
#[local] Instance hex_sealed_laws : SealedLaws.
Proof. split. intros [b|]; cbn; [by rewrite unhex_hex_model | done]. Qed.

Definition pool : bytes := result_or [] (standing_note_pool_id (id32 x01) (id32 x02) (id32 x03) (id32 x04) 1).
Definition amount (p : byte) : bytes := compress (p : Point).
Definition note (value : byte) (lock : bytes) (o : option bytes) : StandingPoolNote :=
  let n id := mkNote id (id32 x04) (amount x21) (amount value) (amount x22) o lock in
  n (result_or [] (digest_json NOTE_OUTPUT_DOMAIN (content_body (n [])))).
Definition allocation (sequence : N) (previous previous_amount : bytes) (child rest : byte) : StandingPoolAllocationBinding :=
  let b typed nullifier link := mkAllocation pool (id32 x10) 1 sequence previous previous_amount (note child (id32 x30) (Some [x31])) (note rest pool None)
    (id32 x11) (id32 x12) (id32 x13) (id32 x14) (id32 x15) (mkAuthorization (id32 x01) (id32 x04) 1 (id32 x02) (id32 x03) typed nullifier link 1) in
  let m := result_or (mkMetadata [] [] []) (allocation_metadata (b [] [] [])) in
  b (rm_typed_reserve_digest m) (rm_reserve_nullifier m) (rm_asset_link_proof_digest m).
Definition nine : Point := x09.
Definition first : StandingPoolAllocationBinding := allocation 0 (id32 x40) (amount x09) x04 x05.
Definition second : StandingPoolAllocationBinding :=
  allocation 1 (pn_note_id (ab_remainder_note first)) (pn_value_commitment (ab_remainder_note first)) x03 x02.

Lemma first_valid : allocation_validate first = Ok tt.
Proof. vm_compute. reflexivity. Qed.
Lemma second_valid : allocation_validate second = Ok tt.
Proof. vm_compute. reflexivity. Qed.

Lemma chained : pool_chain pool (id32 x40) (amount x09) [first; second].
Proof.
  unfold pool_chain. repeat match goal with |- _ /\ _ => split | |- True => exact I | |- allocation_validate first = _ => exact first_valid
    | |- allocation_validate second = _ => exact second_valid end.
  all: vm_compute; reflexivity.
Qed.

Lemma pool_chain_conserves_witness :
  exists children rest, Forall2 (fun b child => decompress (pn_value_commitment (ab_escrow_note b)) = Some child) [first; second] children /\
    decompress (final_amount (amount x09) [first; second]) = Some rest /\ nine = (foldr padd rest children)%P /\
    Forall (fun b => allocation_facts b /\ ab_pool_id b = pool) [first; second].
Proof.
  apply (pool_chain_conserves pool (id32 x40) (amount x09) [first; second] nine); [|vm_compute; reflexivity].
  exact chained.
Defined.

Definition body : Json := result_or JNull (allocation_body first).
Lemma body_ok : allocation_body first = Ok body.
Proof. apply result_or_ok. vm_compute. reflexivity. Qed.
Lemma first_typed : allocation_typed first.
Proof.
  split; [vm_compute; repeat constructor|]. split; [vm_compute; discriminate|]. split; [vm_compute; discriminate|].
  split; [vm_compute; repeat constructor|]. split; [vm_compute; repeat constructor|].
  split; [vm_compute; repeat constructor | vm_compute; discriminate].
Qed.

Lemma allocation_body_round_witness : allocation_from_body body = Ok first.
Proof. exact (proj1 (allocation_body_round first body) first_typed body_ok). Defined.
End PoolRun.

(** ** Proof-round wires *)

Module RoundRun.
Definition job : bytes := replicate 32 x07.
Definition one_seal : RangeRound1Seal := mkRangeRound1Seal 3 (replicate 32 x09).
Definition seals : LimitWire.Envelope := LimitWire.mkEnvelope job (LimitWire.Round1Seal one_seal).
Definition raw : bytes := result_or [] (LimitWire.encode seals).

Lemma raw_ok : LimitWire.encode seals = Ok raw.
Proof. apply result_or_ok. vm_compute. reflexivity. Qed.

Lemma round_wires_exact_witness : LimitWire.decode raw = Ok seals.
Proof. apply (proj2 (proj2 round_wires_exact) raw seals). split; [|exact raw_ok]. repeat split. Defined.
End RoundRun.

(** ** The evidence of a quote

    One node proves the quote of [QuoteExchange] in the group of 256 elements;
    the evidence is encoded and decoded. *)

Module EvidenceRun.
Import ProofCodec.
#[local] Instance counting_bytes : ScalarRandom N := fun n => (byte_of_N n, n + 1).

Definition context : bytes := replicate 32 x0a.
Definition no_proof : Quote.QuoteProof := Quote.mkQuoteProof 0 0 [] (mkOpeningProof x00 x00 x00) (Quote.MinimalityThreshold []) [].
Definition proof : Quote.QuoteProof := result_or no_proof (Exchange.assembled [1] 0 x00 (fun q => q) context).
Definition evidence : QuoteVerificationBundle := mkQuoteVerificationBundle context 3 1 Exchange.public proof.
Definition raw : bytes := result_or [] (encode_quote_verification evidence).

Lemma evidence_encoded : encode_quote_verification evidence = Ok raw.
Proof. apply result_or_ok. vm_compute. reflexivity. Qed.

Lemma evidence_typed : bundle_typed evidence.
Proof.
  unfold bundle_typed, public_typed, Quote.I64.
  repeat apply conj; lazymatch goal with
  | |- Forall _ _ => apply Forall_cons; split; [vm_compute; reflexivity | apply Forall_nil; exact I]
  | |- (_ <= _)%Z => vm_compute; discriminate
  | _ => vm_compute; reflexivity
  end.
Qed.

Lemma final_proofs_exact_witness : decode_quote_verification raw = Ok evidence
  /\ bundle_verify evidence = Ok (Quote.quote_proof_digest (qv_public evidence) (qv_proof evidence)).
Proof.
  assert (decode_quote_verification raw = Ok evidence) as Hd.
  { exact (proj2 (proj1 (proj2 (proj2 final_proofs_exact)) raw evidence) (conj evidence_typed evidence_encoded)). }
  split; [exact Hd|]. exact (proj1 (proj2 (proj2 (proj2 final_proofs_exact)) raw evidence Hd)).
Defined.
End EvidenceRun.

(** ** A disputed quote

    The quote of [EvidenceRun] is proposed optimistically, challenged, answered
    with its complete proof and settled. *)

Module AuthorizationRun.
Import ProofCodec.
Import Authorization.
Import OptimisticRun.
Import EvidenceRun.

Definition input_tree (v : QuoteInput) :=
  ((qi_transcript v, qi_eligibility_bits v, qi_span_bits v, qi_quantity v, qi_now v, qi_sentinel v, qi_slots v),
   (qi_direction v, qi_asset v, qi_reference v, qi_registry v, qi_registry_digest v, qi_market v, qi_slot v)).
#[local] Instance ser_input : Serialize QuoteInput := fun v => Ok (OutboxRun.positive_bytes (encode (input_tree v))).
#[local] Instance ser_input_inj : SerializeInj QuoteInput.
Proof.
  intros a b raw Ha Hb. unfold to_vec, ser_input in *. rewrite <- Hb in Ha. apply Ok_inj in Ha.
  apply (f_equal OutboxRun.positive_of_bytes) in Ha. rewrite !OutboxRun.positive_bytes_back in Ha.
  apply (inj encode) in Ha. destruct a, b. unfold input_tree in Ha. cbn in Ha. by simplify_eq.
Qed.

Definition proposer : App.SigningKey := App.from_bytes (id32 x01 ++ id32 x02).
Definition challenger : App.SigningKey := App.from_bytes (id32 x03 ++ id32 x04).
Definition policy : OptimisticPolicy :=
  mkPolicy (id32 x01) (id32 x02) quote_verifier_id (App.verifying_key proposer) (id32 x05) 100 40 60 30.
Definition admitted : Optimistic.ExecutionContext :=
  Optimistic.mkContext (id32 x01) (id32 x02) quote_verifier_id (id32 x0a)
    (result_or [] (quote_input_root Exchange.public EvidenceRun.context 3 1)) (id32 x0c).
Definition output : bytes := quote_output_root (Quote.qp_winner_index proof) (Quote.qp_winner_value proof).
Definition proposal : Proposal :=
  result_or (mkProposal [] admitted [] 0 []) (proposal_signed policy admitted output 2000 proposer).
Definition claim_id : bytes := result_or [] (proposal_id proposal).
Definition dispute : Challenge := result_or (mkChallenge [] [] []) (challenge_signed claim_id challenger).
Definition quote : OptimisticQuote :=
  mkOptimisticQuote EvidenceRun.context 3 1 Exchange.public (Quote.qp_winner_index proof) (Quote.qp_winner_value proof) policy proposal.

Definition opening_moves : list (event (V := Verifier)) :=
  [EEnroll policy; ERegister (mkExecution (result_or [] (policy_digest policy)) admitted 5000);
   ECredit (id32 x05) (App.verifying_key proposer) 500; ECredit (id32 x05) (App.verifying_key challenger) 50;
   EPropose proposal 1000; EChallenge dispute 1010].
Definition closing_moves : list (event (V := Verifier)) :=
  [EAnswer claim_id raw QuoteChallengeVerifier 1020; EAdvance claim_id 1060].
Definition disputed : OptimisticState := run ApplicationAuthentication OptimisticState_default opening_moves.
Definition the_dispute : Claim := default (mkClaim proposal policy 0 0 Pending) (claim_of disputed claim_id).

Lemma challenged_quote_settles_proved_witness :
  exists final evidence bundle circuit,
    claim_of (run ApplicationAuthentication disputed closing_moves) claim_id = Some final
    /\ claim_status final = Finalized (Some (sha256 evidence))
    /\ challenge_answered ApplicationAuthentication disputed closing_moves claim_id the_dispute 1040 evidence
    /\ decode_quote_verification evidence = Ok bundle
    /\ Quote.try_new (qv_eligibility_bits bundle) (qv_span_bits bundle) = Ok circuit
    /\ Quote.verify circuit (qv_proof bundle) (qv_public bundle) (qv_context bundle) = Ok tt.
Proof.
  destruct (challenged_quote_settles_proved ApplicationAuthentication disputed closing_moves quote claim_id the_dispute
    (App.verifying_key challenger) 1040) as (f & e & b & c & Hf & Hs & Ha & Hd & Hc & Hv & _).
  - apply result_or_ok. vm_compute. reflexivity.
  - vm_compute. reflexivity.
  - vm_compute. reflexivity.
  - vm_compute. reflexivity.
  - vm_compute. reflexivity.
  - exists f, e, b, c. exact (conj Hf (conj Hs (conj Ha (conj Hd (conj Hc Hv))))).
Defined.

End AuthorizationRun.

(** ** Pre-trade acknowledgements

    A host signs two reservations that one owner handle has on one side under
    different indexes, listed against the order of their keys. *)

Module PretradeRun.
Import Mandate.
Import Pretrade.
#[local] Instance pretrade_keys : Ed25519Keys := fun _ => true.

Definition reservation (owner : N) (reserve : byte) : PretradeReservationBinding :=
  mkBinding Maker owner TakerBuys (compress (x07 : Point)) (id32 x11) (id32 reserve) (id32 x13) (id32 x14) (id32 x15) (id32 x16).
Definition second : PretradeReservationBinding := reservation 2 x22.
Definition first_one : PretradeReservationBinding := reservation 1 x21.
Definition unsigned : PretradeAcknowledgement := mkAck (id32 x01) (id32 x02) (id32 x03) [second; first_one] MandateRun.public [].
Definition acknowledged : PretradeAcknowledgement := result_or unsigned (ack_sign unsigned MandateRun.signing).

(** Both orders verify with the one signature and have one digest; the
    reservation selected for the owner is the first of the list. *)
Example selection_follows_the_list :
  let swapped := with_bindings acknowledged [first_one; second] in
  ack_verify acknowledged MandateRun.public = Ok tt /\ ack_verify swapped MandateRun.public = Ok tt
  /\ ack_digest acknowledged = ack_digest swapped
  /\ binding_for acknowledged Maker (compress (x07 : Point)) TakerBuys = Ok second
  /\ binding_for swapped Maker (compress (x07 : Point)) TakerBuys = Ok first_one.
Proof. vm_compute. repeat split. Qed.
End PretradeRun.
