(* ===== verification/IssuerWitnesses.v ===== *)
(** * Witnesses for persistence and issuance

    A persistence file over the field of ninety-seven elements, in Montgomery
    form, one over the scalar field, and issuances over the rational field. *)

From S2P Require Import Prelude.
From S2P Require Import Interfaces.
From S2P Require Import Instances.
From S2P Require Import Curve.
From S2P Require Import Sigma.
From S2P Require Import Shamir.
From S2P Require Import Threshold.
From S2P Require Import Gadgets.
From S2P Require Import JointProver.
From S2P Require Import ThresholdTheorems.
From S2P Require Import ThresholdRange.
From S2P Require Import RangeRounds.
From S2P Require Import RangeClaims.
From S2P Require Import Instruction.
From S2P Require Import Reader.
From S2P Require Import Persistence.
From S2P Require Import StandingPool.
From S2P Require Import Issuers.
From S2P Require Import IssuerProofs.
From S2P Require Import ThresholdQuote.
From S2P Require Import QuoteIssuer.
From S2P Require Import FieldInstances.

Open Scope N_scope.

Module PersistenceRun.
Import Persistence.

Definition prime : FieldElement := mkField [97].
Definition stored : FieldElement := mkField [5].

Lemma small_ok n : n < 256 -> n <> 0 -> fe_ok (mkField [n]).
Proof. intros Hn H0'. split; [|by intros [= ->]]. constructor; [|constructor]. unfold is_limb. change LIMB with 18446744073709551616. lia. Qed.

Lemma montgomery_reduces_witness :
  exists r, from_montgomery stored prime 8 = Ok r /\ fe_value r < 97 /\ (fe_value r * LIMB) mod 97 = 5.
Proof.
  destruct (montgomery_reduces stored prime) as (r & Hr & _ & Hlt & Hm).
  - apply small_ok; vm_compute; [reflexivity | discriminate].
  - apply small_ok; vm_compute; [reflexivity | discriminate].
  - reflexivity.
  - vm_compute. reflexivity.
  - exists r. split; [exact Hr|]. split; [exact Hlt|]. exact Hm.
Defined.

(** One run of one maker with one-bit ranges. *)
Definition widths (f : N -> N -> N -> N -> N -> N -> outcome N) : outcome N := f 1 1 1 1 1 1.
Definition per_run : N := result_or 0 (widths quote_proof_values_per_run).
Definition header : bytes :=
  (bstr "Shamir gfp" ++ replicate (NAME_BYTES - 10) x00) ++ [x00] ++ le_bytes 4 1 ++ [x61] ++ le_bytes 4 1.
Definition contents : bytes :=
  le_bytes 8 (N.of_nat (length header)) ++ header ++ concat ((fun i => le_bytes 8 (N.of_nat i mod 97)) <$> seq 3 (N.to_nat per_run)).

Definition no_file : Persisted := mkPersisted 0 "" (mkField []) 0 [] false.
Definition file : Persisted := result_or no_file (read (Ok contents) "party-0" 0).

Lemma file_read : read (Ok contents) "party-0" 0 = Ok file.
Proof. apply result_or_ok. vm_compute. reflexivity. Qed.

Lemma run_selected : selected_run_offset (N.of_nat (length (pf_shares file))) per_run 0 "party-0" = Ok 0.
Proof. vm_compute. reflexivity. Qed.

Lemma prime_odd : N.odd (fe_value (pf_prime file)) = true.
Proof. vm_compute. reflexivity. Qed.

Lemma product_handoffs_agree_witness :
  exists z d q,
    read_local_zkpi_handoff_from_quote (Ok contents) "party-0" 0 1 1 1 1 1 1 0 = Ok z /\
    read_local_dvp_handoff_from_quote (Ok contents) "party-0" 0 1 1 1 1 1 1 0 = Ok d /\
    read_local_quote_proof_handoff (Ok contents) "party-0" 0 1 1 1 1 1 1 0 = Ok q /\
    dh_price_share d = lh_value_share (zh_price z).
Proof.
  destruct (product_handoffs_agree (Ok contents) "party-0" 0 1 1 1 1 1 1 0 file per_run 0)
    as (z & d & q & Hz & Hd & Hq & _ & _ & _ & _ & _ & _ & Hp & _).
  - exact file_read.
  - vm_compute. reflexivity.
  - exact run_selected.
  - exact prime_odd.
  - exists z, d, q. split; [exact Hz|]. split; [exact Hd|]. split; [exact Hq|]. exact (f_equal fst Hp).
Defined.

(** *** The same run over the scalar field *)

#[local] Instance order_codec : ScalarCodec := {|
  scalar_to_bytes s := rev (be_bytes 32 (Z.to_N (QArith_base.Qnum (Qcanon.this s))));
  scalar_from_canonical b := if of_be_bytes (rev b) <? ORDER then Some (scalar_of_N (of_be_bytes (rev b))) else None
|}.
#[local] Instance order_canonical : ScalarCanonical.
Proof. intros b _ Hb. unfold scalar_from_canonical, order_codec. rewrite (proj2 (N.ltb_lt _ _) Hb). by eexists. Qed.

Definition order_header : bytes :=
  (bstr "Shamir gfp" ++ replicate (NAME_BYTES - 10) x00) ++ [x00] ++ le_bytes 4 32 ++ rev RISTRETTO_SCALAR_ORDER_LE ++ le_bytes 4 1.
Definition order_contents : bytes :=
  le_bytes 8 (N.of_nat (length order_header)) ++ order_header
  ++ concat ((fun i => le_bytes 32 (N.of_nat i * 2 ^ 200)) <$> seq 3 (N.to_nat per_run)).
Definition no_handoff : LocalQuoteProofHandoff := mkLocalQuoteProofHandoff 0 "" (mkField []) (mkField []) (mkField []) [] 0.
Definition order_handoff : LocalQuoteProofHandoff :=
  result_or no_handoff (read_local_quote_proof_handoff (Ok order_contents) "party-1" 1 1 1 1 1 1 1 0).

Lemma quote_handoff_becomes_node_witness :
  exists node, QuoteIssuer.from_handoff order_handoff [1; 2; 3] 1 = Ok node
    /\ ThresholdQuote.ln_party node = 2 /\ N.of_nat (length (ThresholdQuote.ln_makers node)) = 1.
Proof.
  destruct (quote_handoff_becomes_node (Ok order_contents) "party-1" 1 1 1 1 1 1 1 0 order_handoff [1; 2; 3] 1)
    as (node & Hn & Hp & _ & _ & Hm & _).
  - apply result_or_ok. vm_compute. reflexivity.
  - vm_compute. reflexivity.
  - done.
  - done.
  - done.
  - done.
  - apply (bool_decide_unpack _). vm_compute. exact I.
  - apply (bool_decide_unpack _). vm_compute. exact I.
  - apply (bool_decide_unpack _). vm_compute. exact I.
  - cbn. lia.
  - exists node. exact (conj Hn (conj Hp Hm)).
Defined.
End PersistenceRun.

(** ** Issuance

    An amount of two and a price of three, two bits each, dealt to three parties
    with threshold one. *)

Module IssuerRun.
#[local] Instance oracle : TranscriptOps := fixed_transcript x05.
Definition n (x : N) : Scalar := scalar_of_N x.
Definition key : Pedersen := mkPedersen (n 3) (n 7).
Definition parties : list N := [1; 2; 3].
Definition quorum : list N := [3; 1].
Definition no_shares : ValueShares := mkValueShares pid ∅ ∅ [] [] 0.
Definition dealing (value blinding seed : N) : ValueShares * N := result_or (no_shares, 0) (deal_bits key value (n blinding) 2 parties 1 seed).
Definition two : ValueShares * N := dealing 2 4 11.
Definition three : ValueShares * N := dealing 3 5 23.

Lemma two_ok : deal_bits key 2 (n 4) 2 parties 1 11 = Ok (two.1, two.2).
Proof. etrans; [apply (result_or_ok (no_shares, 0)); vm_compute; reflexivity|]. unfold two, dealing. by destruct (result_or _ _). Qed.

Lemma three_ok : deal_bits key 3 (n 5) 2 parties 1 23 = Ok (three.1, three.2).
Proof. etrans; [apply (result_or_ok (no_shares, 0)); vm_compute; reflexivity|]. unfold three, dealing. by destruct (result_or _ _). Qed.

Lemma signing_quorum : quorum_of parties 1 quorum.
Proof.
  split; [apply (bool_decide_unpack _); vm_compute; exact I|]. split; [|vm_compute; lia]. intros q Hq.
  repeat (apply elem_of_cons in Hq as [->|Hq]; [apply (bool_decide_unpack _); vm_compute; exact I|]). by apply not_elem_of_nil in Hq.
Qed.

#[local] Instance no_bulletproofs : Bulletproofs := {|
  BulletproofGens := unit; gens_new _ _ := tt; Bulletproof := unit; prove_multiple _ _ _ _ _ := None; verify_multiple _ _ _ _ _ := false;
  bulletproof_to_bytes _ := []; bulletproof_from_bytes _ := None
|}.
#[local] Instance no_frost : FrostVerify := {| FrostKeyPackage := bytes; FrostSignature := bytes; frost_verify _ _ _ := false |}.
#[local] Instance no_quorum : QuorumOps := {|
  QuorumPolicy := unit; QuorumApproval := unit; policy_valid _ := false; policy_is_settlement _ := false;
  policy_classical_binding _ := []; policy_nodes _ := []; policy_verify _ _ _ _ := false; policy_verify_archived _ _ _ := false;
  approval_encode _ := None; approval_decode _ := None; FrostIdentifier := N; identifier_of _ := None; package_serialize _ := None;
  package_shares _ := []
|}.

Definition bounds : Bounds := mkBounds 2 2 100.
Definition seeds (q : N) : N := q.

Lemma handles_differ : same_point (n 8) (n 9) = false.
Proof. vm_compute. reflexivity. Qed.

(** The nodes, and that the first moves of this run are sealed by digests other
    than zero. *)
Definition zkpi_nodes : list Zkpi.MpcZkpiNode := result_or [] (map_res (dealt_zkpi_node two.1 three.1) parties).
Lemma zkpi_nodes_ok : map_res (dealt_zkpi_node two.1 three.1) parties = Ok zkpi_nodes.
Proof. apply result_or_ok. vm_compute. reflexivity. Qed.

Definition nonzero_digest (d : bytes) : bool := negb (bool_decide (d = ZERO32)).
Lemma nonzero_digest_ok d : nonzero_digest d = true -> d <> ZERO32.
Proof. unfold nonzero_digest. by rewrite negb_true_iff, bool_decide_eq_false. Qed.

Lemma zkpi_run_sealed :
  match zkpi_first_round key zkpi_nodes 1 quorum seeds with
  | Ok first => forallb (fun p => nonzero_digest (rse_digest (Zkpi.zl_amount p.1.1.1)) && nonzero_digest (rse_digest (Zkpi.zl_price p.1.1.1))) (fr_prepared first)
  | Err _ => false
  end = true.
Proof. vm_compute. reflexivity. Qed.

Lemma zkpi_issuance_completes_witness :
  exists statements proofs,
    issue_zkpi key zkpi_nodes 1 quorum seeds = Ok (statements, proofs)
    /\ Zkpi.build_partial_instruction key bounds statements proofs (n 6) (n 8) (n 9) 100 [] []
       = Ok (mkPartialInstruction (commit key (scalar_of_N 2) (n 4)) (commit key (scalar_of_N 3) (n 5)) (n 6)
           (ThresholdEvidence (Zkpi.zp_amount proofs) (Zkpi.zp_price proofs)) (n 8) (n 9) 100 [] (ProofDigest [])).
Proof.
  destruct (zkpi_issuance_completes key bounds 2 3 (n 4) (n 5) parties quorum 1 11 two.2 23 three.2 two.1 three.1 seeds (n 6) (n 8) (n 9) 100 [] []
    eq_refl eq_refl two_ok three_ok signing_quorum handles_differ) as (nodes & first & Hn & Hf & _ & Hrun).
  rewrite zkpi_nodes_ok in Hn. apply Ok_inj in Hn as <-. exists (fr_statement first). apply Hrun.
  pose proof zkpi_run_sealed as Hs. rewrite Hf, forallb_forall in Hs. apply Forall_forall. intros p Hp.
  destruct (andb_prop _ _ (Hs p (proj1 (list_elem_of_In _ _) Hp))) as [Ha Hb]. split; by apply nonzero_digest_ok.
Defined.

(** Shares of the factor three and of the cross term nine. *)
Definition quantity : Point := commit key (n 4) (n 6).
Definition price : Point := commit key (n 3) (n 2).
Definition cash : Point := (quantity * n 3 + h key * n 9)%P.
Definition product (q : N) : LocalProductShares :=
  mkLocalProductShares q (evaluate [n 3; n 1] (n q)) (evaluate [n 2; n 5] (n q)) (evaluate [n 9; n 8] (n q)) 1.
Definition no_statement : ProductStatement := mkProductStatement s0 s0 s0 [] [] 0.
Definition statement : ProductStatement :=
  result_or no_statement (product_statement_from_evaluations quantity price cash ((fun q => lp_evaluations key quantity (product q)) <$> parties) 1).

Lemma statement_ok :
  product_statement_from_evaluations quantity price cash ((fun q => lp_evaluations key quantity (product q)) <$> parties) 1 = Ok statement.
Proof. apply result_or_ok. vm_compute. reflexivity. Qed.

Definition dvp_nodes : list DvpIssuer.MpcDvpNode := result_or [] (map_res (dealt_dvp_node product two.1 three.1) parties).
Lemma dvp_nodes_ok : map_res (dealt_dvp_node product two.1 three.1) parties = Ok dvp_nodes.
Proof. apply result_or_ok. vm_compute. reflexivity. Qed.
Definition securities_left : Point := commit key (scalar_of_N 2) (n 4).
Definition cash_left : Point := commit key (scalar_of_N 3) (n 5).

Lemma dvp_run_sealed :
  match dvp_first_round key quantity price cash securities_left cash_left dvp_nodes 1 quorum seeds with
  | Ok first => forallb (fun p => nonzero_digest (pse_digest (DvpIssuer.dl_product p.1.1.1))
      && (nonzero_digest (rse_digest (DvpIssuer.dl_securities p.1.1.1)) && nonzero_digest (rse_digest (DvpIssuer.dl_cash p.1.1.1)))) (fr_prepared first)
  | Err _ => false
  end = true.
Proof. vm_compute. reflexivity. Qed.

Lemma dvp_issuance_completes_witness :
  exists statements proofs,
    issue_dvp key quantity price cash securities_left cash_left dvp_nodes 1 quorum seeds = Ok (statements, proofs)
    /\ (verify_product key (transcript_new DvpIssuer.DVP_PRODUCT_CONTEXT) quantity price cash (Pool.dp_product proofs)).1 = true.
Proof.
  destruct (dvp_issuance_completes key quantity price cash product statement 2 (n 4) 2 3 (n 5) 2 parties quorum 1 11 two.2 23 three.2
    two.1 three.1 seeds) as (nodes & first & Hn & Hf & _ & Hrun).
  - intros q _. split; reflexivity.
  - exact statement_ok.
  - reflexivity.
  - reflexivity.
  - exact two_ok.
  - exact three_ok.
  - exact signing_quorum.
  - rewrite dvp_nodes_ok in Hn. apply Ok_inj in Hn as <-. destruct Hrun as (proofs & Hi & Hv & _).
    + pose proof dvp_run_sealed as Hs. unfold securities_left, cash_left in Hs. rewrite Hf, forallb_forall in Hs. apply Forall_forall. intros p Hp.
      destruct (andb_prop _ _ (Hs p (proj1 (list_elem_of_In _ _) Hp))) as [Ha Hb]. destruct (andb_prop _ _ Hb) as [Hb' Hc].
      split; [|split]; by apply nonzero_digest_ok.
    + exists (fr_statement first), proofs. exact (conj Hi Hv).
Defined.

Lemma limit_run_sealed :
  match limit_first_round key (dealt_limit_node three.1 <$> parties) 1 quorum [x01] seeds with
  | Ok first => forallb (fun p => nonzero_digest (rse_digest p.1.1.1)) (fr_prepared first)
  | Err _ => false
  end = true.
Proof. vm_compute. reflexivity. Qed.

Lemma limit_issuance_completes_witness :
  exists statement proof,
    issue_limit key (dealt_limit_node three.1 <$> parties) 1 quorum [x01] seeds = Ok (statement, proof)
    /\ rs_commitment statement = commit key (scalar_of_N 3) (n 5)
    /\ verify_threshold_range key (rs_commitment statement) proof [x01] = true /\ tp_bits proof = 2%nat.
Proof.
  destruct (limit_issuance_completes key 3 (n 5) 2 parties quorum 1 23 three.2 three.1 [x01] seeds eq_refl three_ok signing_quorum)
    as (first & Hf & _ & Hrun).
  exists (fr_statement first). apply Hrun. pose proof limit_run_sealed as Hs. rewrite Hf, forallb_forall in Hs. apply Forall_forall.
  intros p Hp. apply nonzero_digest_ok, Hs. by apply list_elem_of_In.
Defined.
End IssuerRun.
