(* ===== verification/QuoteWitnesses.v ===== *)
(** * A quote over a plane

    Pairs of rationals as a group in which the value generator has no logarithm
    to the blinding generator, so that the openings two proofs give must agree;
    and a quote of three makers, one of them expired, proved bit by bit. *)

From Stdlib Require Import QArith Qcanon.
From S2P Require Import Prelude.
From S2P Require Import Interfaces.
From S2P Require Import Instances.
From S2P Require Import Curve.
From S2P Require Import Shamir.
From S2P Require Import Sigma.
From S2P Require Import SigmaProofs.
From S2P Require Import BitrangeProofs.
From S2P Require Import Threshold.
From S2P Require Import ThresholdRange.
From S2P Require Import RangeRounds.
From S2P Require Import Instruction.
From S2P Require Import FieldInstances.
From S2P Require Import Quote.
From S2P Require Import QuoteProofs.
From S2P Require Import Gadgets.
From S2P Require Import JointProver.
From S2P Require Import ThresholdQuote.
From S2P Require Import ThresholdQuoteProofs.
From S2P Require Import QuoteExchange.
From S2P Require Import PriceLimit.

Import Quote.

Open Scope Z_scope.

#[export] Instance rational_wide : ScalarWide.
Proof.
  constructor. intros [|p] Hn; [lia|]. intros E. pose proof (scalar_of_pos_value p) as Hp.
  cbn in E. rewrite E in Hp. by apply Qclt_not_eq in Hp.
Qed.

(** ** The plane *)

Definition plane_bytes (p : Qc * Qc) : bytes :=
  positive_bytes (encode (Qnum (this p.1), Qden (this p.1), (Qnum (this p.2), Qden (this p.2)))).

Lemma plane_bytes_inj p q : plane_bytes p = plane_bytes q -> p = q.
Proof.
  destruct p as [a b], q as [a' b']. intros E%positive_bytes_inj%(inj encode). cbn in E. injection E as E1 E2 E3 E4.
  f_equal; apply Qc_is_canon; unfold Qeq; by rewrite ?E1, ?E2, ?E3, ?E4.
Qed.

#[export] Instance plane_group : GroupOps := {|
  Point := Qc * Qc; pid := (0%Qc, 0%Qc); padd p q := (Qcplus p.1 q.1, Qcplus p.2 q.2); popp p := (Qcopp p.1, Qcopp p.2);
  pmul p s := (Qcmult p.1 s, Qcmult p.2 s); compress := plane_bytes; basepoint := (1%Qc, 0%Qc);
  hash_to_point b := (0%Qc, scalar_of_N (bytes_value b + 2))
|}.
#[export] Instance plane_laws : GroupLaws.
Proof. split; intros; cbn in *; repeat (match goal with x : (Qc * Qc)%type |- _ => destruct x end); cbn; f_equal; ring. Qed.
#[export] Instance plane_compress : CompressLaws.
Proof. constructor. exact plane_bytes_inj. Qed.
#[export] Instance plane_gens : PedersenGens := {| gens_B := (1%Qc, 0%Qc); gens_B_blinding := (0%Qc, 1%Qc) |}.

(** No range of this quote is a Bulletproof. *)
Definition no_bulletproofs (T : TranscriptOps) : @Bulletproofs T _ plane_group := {|
  BulletproofGens := unit; gens_new _ _ := tt; Bulletproof := unit; prove_multiple _ _ _ _ _ := None;
  verify_multiple _ _ _ _ _ := false; bulletproof_to_bytes _ := []; bulletproof_from_bytes _ := None
|}.

Module QuoteRun.
Definition first_oracle : TranscriptOps := fixed_transcript x05.
Definition second_oracle : TranscriptOps := fixed_transcript x09.
Definition n (x : N) : Scalar := scalar_of_N x.
Definition no_circuit : QuoteCircuit := mkQuoteCircuit (mkPedersen pid pid) 0 0.
Definition circuit : QuoteCircuit := result_or no_circuit (try_new 4 7).
Definition key : Pedersen := qc_key circuit.

(** Makers that ask [10 + 2 qty], [9 + 2 qty] and, past its expiry, [1]. *)
Definition policy (level slope expiry : Z) : OpenPolicy :=
  mkOpenPolicy _ 0 (level, n 2) (3, n 3) (slope, n 4) (1, n 5) (0, n 6) (8, n 7) (expiry, n 8) (1, n 9) (0, n 10).
Definition makers : list OpenPolicy := [policy 10 2 9; policy 9 2 9; policy 1 0 4].
Definition qty : Z * Scalar := (3, n 11).
Definition registry : list RegisteredPolicy := opened_policy key <$> makers.
Definition public : Public :=
  mkPublic (commit_of key (opening_of qty)) 5 20 3 0 0 0 registry (registry_digest registry) (id32 x01) 1.
Definition context : bytes := bstr "venue".
Definition ctx : bytes := statement_context context public.

Section Proof.
Context (T : TranscriptOps).

Definition product (tr : Transcript) (c_a : Point) (a b : Scalar * Scalar) (r_c : Scalar) : ProductProof :=
  (prove_product key tr c_a a.1 a.2 b.1 b.2 r_c 13%N).1.1.
Definition square (tr : Transcript) (b : Scalar * Scalar) : ProductProof := product tr (commit_of key b) b b b.2.

(** A range proof of one witness-holder, in the shape of the threshold one. *)
Definition range (context : bytes) (v : N) (r : Scalar) (bits : nat) : ThresholdRangeProof :=
  let openings := (fun i => (bit_of (N.testbit v (N.of_nat i)), n (N.of_nat i + 3))) <$> seq 0 bits in
  let commitments := commit_of key <$> openings in
  let proofs := (fun '(i, b) => square (component_transcript (result_or [] (bit_context context i))) b) <$> enumerate openings in
  mkThresholdRangeProof commitments proofs
    (prove_zero_opening key (link_transcript context) (commit key (scalar_of_N v) r - aggregate_bits commitments)%P
       (r - aggregate_blindings openings.*2)%S 17%N).1.1 bits.

(** A gate on a margin, with the opening of its bit and of its witness. *)
Definition gate (cx : bytes) (s : Z) (r : Scalar) : Gate * (Scalar * Scalar) * (N * Scalar) :=
  let b := (bit_of (0 <=? s), n 21) in
  let P := ((b.1 * scalar s)%S, n 22) in
  let witness := (if 0 <=? s then s else - s - 1) in
  let base := (scalar s, r) in
  (mkGate (commit_of key b) (Square (square (gate_bit_transcript cx) b)) (product (gate_product_transcript cx) (commit_of key b) b base P.2)
     (commit_of key P) (commit_of key (o_sub (o_add (o_sub (o_add P P) base) b) (o_const s1))),
   b, (Z.to_N witness, (P.2 + P.2 - r + b.2)%S)).

Definition maker (index : nat) (o : OpenPolicy) : MakerProof (B:=no_bulletproofs T) * (Scalar * Scalar) :=
  let op := opening_of in
  let tg name := tag ctx index name in
  let depth := (scalar ((o_slope o).1 * qty.1), n 31) in
  let skew := (scalar ((o_invcoef o).1 * (o_inv o).1), n 32) in
  let fits := ((o_maxqty o).1 - qty.1, ((o_maxqty o).2 - qty.2)%S) in
  let fresh := ((o_expiry o).1 - pb_now public - 1, (o_expiry o).2) in
  let '(g1, b1, w1) := gate (gate_context ctx index (bstr "fits")) fits.1 fits.2 in
  let '(g2, b2, w2) := gate (gate_context ctx index (bstr "fresh")) fresh.1 fresh.2 in
  let both := ((b1.1 * b2.1)%S, n 33) in
  let ok := ((both.1 * scalar (o_active o).1)%S, n 34) in
  let cost := o_add (o_add (op (o_ask_level o)) depth) skew in
  let shifted := o_sub cost (o_const (scalar (pb_sentinel public))) in
  let gated := ((ok.1 * shifted.1)%S, n 35) in
  let c x := commit_of key x in
  let packed := o_add (o_scale (o_add gated (o_const (scalar (pb_sentinel public * 2)))) (scalar (pb_n_slots public))) (o_const (n (N.of_nat index))) in
  (mkMakerProof (product (tg "depth") (c (op (o_slope o))) (op (o_slope o)) (op qty) depth.2)
     (product (tg "skew") (c (op (o_invcoef o))) (op (o_invcoef o)) (op (o_inv o)) skew.2)
     (product (tg "gate") (c ok) ok shifted gated.2)
     (EligibilityThreshold (range (gate_range_context ctx index (bstr "fits")) w1.1 w1.2 6) (range (gate_range_context ctx index (bstr "fresh")) w2.1 w2.2 6))
     (Square (square (tg "active") (op (o_active o)))) (Square (square (tg "reference") (op (o_use_ref o)))) g1 g2
     (product (tg "ok1") (gt_commitment g1) b1 b2 both.2, product (tg "ok2") (c both) both (op (o_active o)) ok.2)
     (mkMakerCommitments (c (op (o_slope o))) (c (op (o_invcoef o))) (c (op (o_inv o))) (c depth) (c skew) (c (op fits))
        (c (op ((o_expiry o).1 - pb_now public, (o_expiry o).2))) (c (op (o_active o))) (c ok) (c (op fresh)) (c both) (c cost) (c gated) (c shifted)),
   packed).

(** The second maker wins: [(9 + 2 * 3 + 20) * 3 + 1]. *)
Definition winning : N := 106.
Definition proof : QuoteProof (B:=no_bulletproofs T) :=
  let rows := (fun '(i, o) => maker i o) <$> enumerate makers in
  let keys := rows.*2 in
  let winner := nth 1 keys (s0, s0) in
  mkQuoteProof 1 winning rows.*1
    (prove_zero_opening key (whole ctx "winner") (shift key (commit_of key winner) winning) winner.2 19%N).1.1
    (MinimalityThreshold ((fun '(i, k) => range (minimality_context ctx i) (Z.to_N (spec_key public 3 i (nth i makers (policy 0 0 0)) - 106)) (k.2 - winner.2)%S 7)
       <$> enumerate keys))
    (commit_of key <$> keys).
End Proof.

Ltac by_computation := apply (bool_decide_unpack _); vm_compute; exact I.

Lemma accepted T : T = first_oracle \/ T = second_oracle -> verify (T:=T) circuit (proof T) public context = Ok tt.
Proof. intros [-> | ->]; vm_compute; reflexivity. Qed.

Lemma maker_at T i o : makers !! i = Some o -> qp_maker_proofs (proof T) !! i = Some (maker T i o).1.
Proof. intros Ho. destruct i as [|[|[|i]]]; [| | |done]; injection Ho as <-; reflexivity. Qed.

(** The first moves are equal and every challenge differs. *)
Ltac forks := repeat match goal with
  | |- product_forked _ _ _ _ _ _ _ _ _ => split_and!
  | |- bit_forked _ _ _ _ _ _ _ => unfold bit_forked
  | |- eligibility_forked _ _ _ _ _ _ _ _ => split
  | |- gate_forked _ _ _ _ _ _ => split
  | |- range_forked _ _ _ _ _ _ => split
  end; lazymatch goal with |- mp_commitments _ = _ => vm_compute; reflexivity | _ => by_computation end.

Lemma forked_row i o : makers !! i = Some o ->
  maker_forked first_oracle second_oracle (no_bulletproofs _) (no_bulletproofs _) circuit public ctx i o (maker first_oracle i o).1 (maker second_oracle i o).1.
Proof. intros Ho. destruct i as [|[|[|i]]]; [| | |done]; injection Ho as <-; split; forks. Qed.

Lemma forked_quote : quote_forked first_oracle second_oracle (no_bulletproofs _) (no_bulletproofs _) circuit public ctx makers
  (proof first_oracle) (proof second_oracle).
Proof.
  split; try by_computation.
  - intros i o m m' Ho. rewrite !(maker_at _ _ _ Ho). intros [= <-] [= <-]. by apply forked_row.
  - cbv zeta. by_computation.
  - cbn [qp_minimality proof]. intros i k r r' Hk Hr Hr'.
    destruct i as [|[|[|i]]]; [| | |done]; injection Hk as <-; injection Hr as <-; injection Hr' as <-; split; by_computation.
Qed.

Lemma circuit_made : try_new 4 7 = Ok circuit.
Proof. reflexivity. Qed.

Lemma makers_i64 : Forall policy_i64 makers.
Proof. repeat constructor; unfold I64; cbn; lia. Qed.

(** No multiple of the blinding generator is the value generator. *)
Lemma unbroken ledger : ~ broken key ledger.
Proof.
  intros (o & o' & _ & _ & _ & _ & E). apply (f_equal (fun p : Qc * Qc => p.1)) in E.
  change (1%Qc = (0 * log_of o o')%Qc) in E. rewrite Qcmult_0_l in E. discriminate E.
Qed.

Lemma quote_proof_sound_witness :
  exists winner, makers !! 1%nat = Some winner /\ spec_key public 3 1 winner = 106
    /\ forall i o, makers !! i = Some o -> effective_cost public 3 winner < effective_cost public 3 o
         \/ effective_cost public 3 winner = effective_cost public 3 o /\ (1 <= i)%nat.
Proof.
  destruct (quote_proof_sound first_oracle second_oracle (no_bulletproofs _) (no_bulletproofs _) 4 7 circuit public context qty makers
    (proof first_oracle) (proof second_oracle) circuit_made eq_refl eq_refl makers_i64) as [_ [Hb|[_ Hw]]].
  - unfold I64. cbn. lia.
  - unfold public_i64, I64. cbn. lia.
  - vm_compute. discriminate.
  - exact (accepted first_oracle (or_introl eq_refl)).
  - exact (accepted second_oracle (or_intror eq_refl)).
  - exact forked_quote.
  - destruct (unbroken _ Hb).
  - exact Hw.
Defined.
End QuoteRun.

(** ** A quote from shares

    Two nodes run the exchange to its assembly. *)


Module AssemblyRun.
Import ThresholdQuote.
Import Exchange.
Definition context : bytes := QuoteRun.context.
#[local] Existing Instance QuoteRun.first_oracle.
#[local] Existing Instance no_bulletproofs.

Definition parties : list PartyId := [1; 2]%N.
Definition seeds (q : PartyId) : N := (40 + q)%N.
#[local] Abbreviation run f := (f parties 1%nat s1 seeds context).

Lemma statement_made :
  quote_statement_from_evaluations Exchange.circuit (node_messages parties 1 s1) Exchange.public 0 Exchange.winning parties 1 = Ok (statement parties 1 s1).
Proof. apply result_or_ok. vm_compute. reflexivity. Qed.
Lemma relations_made :
  quote_relation_statements_from_evaluations Exchange.circuit (statement parties 1 s1) Exchange.public (relation_messages parties 1 s1)
  = Ok (relations parties 1 s1).
Proof. apply result_or_ok. vm_compute. reflexivity. Qed.
Lemma parts_assembled : exists proof,
  assemble_parts Exchange.circuit (statement parties 1 s1) (relations parties 1 s1) Exchange.public (run rounds) (run seals) (run responses) parties context
  = Ok proof.
Proof.
  change (exists proof, run assembled = Ok proof).
  assert (is_ok (run assembled) = true) as Ha by (vm_compute; reflexivity). destruct (run assembled) as [proof|e]; [by exists proof | discriminate Ha].
Qed.

Lemma quote_assembly_accepts_witness : exists proof,
  assemble_quote_from_rounds Exchange.circuit (statement parties 1 s1) (relations parties 1 s1) Exchange.public (run rounds) (run seals) (run responses)
    parties context = Ok proof
  /\ verify Exchange.circuit proof Exchange.public context = Ok tt.
Proof.
  destruct parts_assembled as [proof Hp]. exists proof.
  exact (proj2 (quote_assembly_accepts Exchange.circuit (node_messages parties 1 s1) Exchange.public 0 Exchange.winning parties 1 (statement parties 1 s1)
    (relation_messages parties 1 s1) (relations parties 1 s1) (run rounds) (run seals) (run responses) parties context statement_made relations_made) proof Hp).
Defined.
End AssemblyRun.

(** ** A limit on a price

    A quote of seven under a maximum of nine, in eight bits. *)

Module LimitRun.
Import PriceLimit.
Import QuoteRun.

(** Range proofs that show their opening. *)
Definition shown (T : TranscriptOps) : @KeyedBulletproofs T _ plane_group := {|
  RangeProof := list N * list Scalar;
  keyed_prove key _ _ values blindings bits :=
    if forallb (fun v => (v <? 2 ^ N.of_nat bits)%N) values
    then Some ((values, blindings), zip_with (fun v r => compress (commit key (scalar_of_N v) r)) values blindings) else None;
  keyed_verify key _ _ proof commitments bits :=
    forallb (fun v => (v <? 2 ^ N.of_nat bits)%N) proof.1
    && bool_decide (commitments = zip_with (fun v r => compress (commit key (scalar_of_N v) r)) proof.1 proof.2);
  range_proof_to_bytes _ := []
|}.
#[local] Existing Instance shown.
#[local] Instance shown_laws T : KeyedBulletproofLaws (H2:=shown T).
Proof.
  split. intros key tr value blinding bits _ Hv. exists ([value], [blinding]). unfold keyed_prove, keyed_verify, shown. cbn [forallb zip_with fst snd].
  rewrite (proj2 (N.ltb_lt _ _) Hv). cbn [andb]. by rewrite bool_decide_eq_true_2.
Qed.

Definition quote : Point := commit key (scalar_of_N 7) (n 4).
Definition limit : Point := commit key (scalar_of_N 9) (n 6).
Definition bound : bytes := threshold_context MaximumBuyPrice 8 quote limit context.
Definition evidence (T : TranscriptOps) : ThresholdRangeProof := range T bound 2 (n 2) 8.

Lemma proved T : T = first_oracle \/ T = second_oracle ->
  verify_threshold_range (T:=T) key (difference_commitment MaximumBuyPrice quote limit) (evidence T) bound = true.
Proof. intros [-> | ->]; vm_compute; reflexivity. Qed.

Lemma taken T : T = first_oracle \/ T = second_oracle ->
  from_threshold (T:=T) key quote limit MaximumBuyPrice 8 context (evidence T) = Ok (mkPriceLimitProof MaximumBuyPrice 8 (Threshold (evidence T))).
Proof. intros Ht. unfold from_threshold. fold bound. rewrite (proved T Ht). reflexivity. Qed.

Lemma forked_limit : range_forked first_oracle second_oracle (difference_commitment MaximumBuyPrice quote limit) bound (evidence first_oracle) (evidence second_oracle).
Proof. split; by_computation. Qed.

Lemma price_limit_enforced_witness : respects MaximumBuyPrice 7 9 /\ (room MaximumBuyPrice 7 9 < 2 ^ N.of_nat 8)%N.
Proof.
  destruct (price_limit_enforced first_oracle second_oracle (shown _) (shown _) key MaximumBuyPrice 8 context 7 (n 4) 9 (n 6)
    (evidence first_oracle) (evidence second_oracle) _ _ eq_refl eq_refl (taken first_oracle (or_introl eq_refl)) (taken second_oracle (or_intror eq_refl))
    forked_limit) as [_ [Hb|Hr]].
  - destruct (unbroken _ Hb).
  - exact Hr.
Defined.

Lemma price_limit_provable_witness :
  (exists p, prove (T:=first_oracle) key 7 (n 4) 9 (n 6) MaximumBuyPrice 8 context = Ok p)
  /\ ~ exists p, prove (T:=first_oracle) key 7 (n 4) 9 (n 6) MinimumSellPrice 8 context = Ok p.
Proof.
  split.
  - apply (price_limit_provable (T:=first_oracle) key MaximumBuyPrice 8 context 7 (n 4) 9 (n 6) eq_refl eq_refl).
    split; [repeat constructor|]. split; [discriminate | reflexivity].
  - intros Hp. apply (price_limit_provable (T:=first_oracle) key MinimumSellPrice 8 context 7 (n 4) 9 (n 6) eq_refl eq_refl) in Hp as (_ & Hr & _).
    by apply Hr.
Defined.
End LimitRun.
